(* ===== verification/_CoqProject ===== *)
-Q . S2P
Prelude.v
Crypto.v
Errors.v
Transaction.v
Economics.v
Utxo.v
Dag.v
State.v
Ghostdag.v
Pow.v
VerkleTree.v
PolyCommit.v
VerkleProofs.v
Reward.v
Scheduler.v
GasMeter.v
Vm.v
BlockValidation.v
StateManager.v
ChainProofs.v
Mempool.v
Witness.v
GroupExecution.v
NodePrelude.v
PinnedVerkle.v
TwoTrees.v
Status.v
UtxoTracker.v
ConflictGraph.v
Partitions.v
Rbf.v
GraphOrdering.v
Storage.v
MemoryStore.v
StorageProofs.v
PoolValidator.v
F64.v
MemoryLimiter.v
Orphans.v
PriorityScheduler.v
MultiIndex.v
Tiers.v
PriorityBuckets.v
BlockTemplate.v
Admission.v
Selection.v
Pool.v
PoolProofs.v
Revalidation.v
Ownership.v
Eviction.v
Gossip.v
PeerScoring.v
AdvancedConflicts.v
AncestryTracker.v
DependencyManager.v
CascadeEviction.v
