(* ===== verification/Prelude.v ===== *)
(** * Klomang: a verification library for the BlockDAG engine and its node

    Klomang is a proof-of-work BlockDAG node in two crates.  klomang-core is the engine:
    the DAG, its coloring, validation, state, virtual machine and economics.
    klomang-node is what runs around it: the pool of transactions with its managers, the
    storage over RocksDB, and the gossip network.  This library models both and proves
    what their parts promise to each other.  Paths are relative to
    [klomang-core/src/core] for the engine and to [klomang-node/src] for the node.

    ** The engine

    A block names several parents; [dag/] keeps the graph and its tips and answers
    reachability, and [consensus/ghostdag.rs] colors the past of every block (blue or
    red), orders blocks and decides reorganisations.  A block is first validated
    without state ([GhostDag::validate_block]: time, parents, work, Merkle root,
    batch of Schnorr signatures, double spends inside the block), then applied by the
    state manager ([state_manager.rs]) to a set of unspent outputs ([state/utxo.rs])
    and a Verkle tree ([state/v_trie.rs]), running contract payloads in a metered
    virtual machine ([vm/]).  The manager keeps one snapshot per height to roll back
    to, and undo data per block to disconnect it.  The engine's mempool ([mempool.rs])
    uses the manager to validate; the scheduler ([scheduler/parallel.rs]) groups
    transactions by their access sets and runs the groups on the manager; rewards and
    the emission schedule ([consensus/reward.rs], [consensus/emission.rs]) bound what
    a coinbase may pay.  A second Verkle tree ([crypto/verkle/verkle_tree.rs]) computes
    roots of sets of coins.

    ** The node

    A gossip message meets the spam filter, the cache of ids, the validation hooks and
    the validator ([network/messaging/]), and moves the score of its peer.  A transaction
    enters the pool ([mempool/pool.rs]) through token buckets and a fee filter; the pool
    weighs it ([mempool/memory_limiter.rs]), replaces what it conflicts with, looks up
    its coins in the storage, and puts it into the main pool, among the orphans
    ([mempool/orphan_manager.rs]) or nowhere.  The canonical order
    ([mempool/graph_conflict_ordering.rs]) chooses the block candidate.  Beside the pool
    stand managers with their own state: claims, conflict graphs, replacement by fee,
    priorities, indices, tiers, partitions, eviction, ancestry.  A block is written to
    the storage ([storage/]) by one atomic batch behind caches.

    ** Files of the engine

    - [Prelude.v]: outcomes of fallible code, the state-and-error monad [method],
      machine integers, byte encodings, sorting, sums over maps, tactics and hints.
    - [Crypto.v], [Errors.v]: [crypto/hash.rs], [errors.rs]; the interfaces of
      blake3 and k256.
    - [Transaction.v]: [state/transaction.rs], [state/access_set.rs], the signing
      half of [crypto/schnorr.rs].
    - [Economics.v]: [consensus/economic_constants.rs], [consensus/emission.rs].
    - [Utxo.v]: [state/utxo.rs].
    - [Dag.v]: [dag/block.rs], [dag/mod.rs], [dag/anticone.rs].
    - [State.v]: [state/mod.rs], [state/storage.rs].
    - [Ghostdag.v]: [consensus/ghostdag.rs] (coloring, orders, reorganisation),
      [consensus/ordering.rs].
    - [Pow.v]: [pow/hash.rs], [pow/miner.rs], [daa/difficulty.rs].
    - [VerkleTree.v], [VerkleProofs.v]: [state/v_trie.rs].
    - [PinnedVerkle.v], [TwoTrees.v]: [crypto/verkle/verkle_tree.rs], and the two trees
      compared.
    - [PolyCommit.v]: [crypto/verkle/polynomial_commitment.rs].
    - [Reward.v]: [consensus/reward.rs].
    - [Scheduler.v], [GroupExecution.v]: [scheduler/parallel.rs].
    - [GasMeter.v], [Vm.v]: [vm/gas_meter.rs], [vm/executor.rs].
    - [BlockValidation.v]: the validation half of [consensus/ghostdag.rs] and of
      [crypto/schnorr.rs].
    - [StateManager.v] (definitions, invariants), [ChainProofs.v] (theorems):
      [state_manager.rs]; [Witness.v]: its execution witnesses.
    - [Mempool.v]: [mempool.rs].

    ** Files of the node

    - [NodePrelude.v]: keys of transactions and coins, breadth-first and depth-first
      search with their specifications.  [F64.v]: the order of doubles.
    - [Storage.v], [StorageProofs.v]: [storage/] (schema, batches, writer, caches, atomic
      commit); [MemoryStore.v]: a store in memory, for the witnesses.
    - [Pool.v], [PoolProofs.v]: [mempool/pool.rs]; [Admission.v] and [Selection.v]: its
      filters and selections with [mempool/admission_controller.rs],
      [mempool/selection.rs], [mempool/parallel_selection.rs]; [PoolValidator.v]:
      [mempool/validation.rs]; [Status.v]: [mempool/status.rs].
    - [GraphOrdering.v], [BlockTemplate.v]: [mempool/graph_conflict_ordering.rs] and its
      [_integration.rs]; [PriorityBuckets.v]: [mempool/priority_ordering.rs],
      [mempool/deterministic_ordering.rs]; [PriorityScheduler.v], [MultiIndex.v]: the
      files of these names.
    - [UtxoTracker.v]: [mempool/conflict.rs]; [ConflictGraph.v]:
      [mempool/conflict_graph.rs]; [AdvancedConflicts.v]: [mempool/advanced_conflicts.rs];
      [Rbf.v]: [mempool/rbf_manager.rs].
    - [MemoryLimiter.v], [Tiers.v] ([mempool/resource_optimizer.rs]), [Eviction.v]: what
      bounds the pool.
    - [Orphans.v]: [mempool/orphan_manager.rs], [mempool/advanced_orphan_management.rs];
      [Partitions.v]: [mempool/dependency_graph.rs]; [AncestryTracker.v]:
      [mempool/recursive_dependency_tracker.rs]; [DependencyManager.v]:
      [mempool/advanced_dependency_manager.rs], and on top of it [CascadeEviction.v]:
      [mempool/cascade_coordinator.rs], [mempool/dependency_eviction_system.rs],
      [mempool/enhanced_validator.rs], [mempool/storage_integration.rs].
    - [Revalidation.v]: [mempool/revalidation.rs]; [Ownership.v]: [mempool/ownership.rs],
      the pool together with the tracker of claims.
    - [Gossip.v], [PeerScoring.v]: [network/messaging/] and the gossip event of
      [network/core_network/mod.rs].

    A struct is a Record with the fields of the source (prefixed where two structs
    share a name), a method that changes [self] is a [method S E A], that is
    [S → outcome E A * S]: on an error the state is whatever the code has written so
    far, and [outcome] has a third case [Panic] for code that unwinds.  A method of a
    field is lifted with [zoom]; [for_each] and [mapM] are the loops with [?].

    ** Interfaces

    Crates are type classes.  [Blake3] is a digest; [K256] parses keys and signatures
    and verifies; [Commitments] is the commitment scheme the trees call, with the laws
    they rely on ([CommitmentLaws]: a node's 256 coefficients are committed to and
    commitments serialised; [OpeningLaws]: opening a polynomial other than zero does not
    panic and gives what can be checked), which
    [PolyCommit.polynomial_commitments] implements over [Curve] and
    [DensePolynomials] (arkworks, with their documented laws), and fulfils with 256
    generators ([PolyCommit.commitment_laws], [PolyCommit.opening_laws]); [Wasm] is the engine
    that runs a payload, a guest being a tree of host calls; the engine's [State.Storage]
    with [StorageLaws] is its key-value trait, which [MemoryStorage] implements.  For
    the node, [Bincode] encodes a hash, [RocksDb] is the database (any call may fail),
    [LruCache] a cache that may forget, [Codec] the encoding of a stored value; each has
    a class of laws and an instance in [NodePrelude.v] or [MemoryStore.v].  No
    property of a digest is assumed: a theorem that would need collision resistance
    exhibits the collision instead.  [bincode::serialized_size], the clocks, the
    contents of [/proc], the exponential function and the order in which parallel
    workers report are arguments.  Each class has a concrete toy instance with which the
    witnesses evaluate.

    ** Conventions

    - Integers are [Z] with the wrap-around, saturation or check of the source
      written out.  A plain [+] on machine integers wraps, as in the release profile;
      debug assertions are not run.
    - Floating point is the executable IEEE 754 double of the Standard Library
      ([SpecFloat]).
    - A message made by [format!] is its template.
    - A [HashMap] or [HashSet] is a [gmap] or [gset].  Where the code iterates over
      one and the order can reach the result, the order is sorted as the code sorts
      it or is an argument [order] of the definition; where it cannot, [elements] is used.
    - Locks: a method takes its locks at the start and is one step.  Where a method asks
      for a lock, or the guard of a [DashMap] entry, that it holds itself, it does not
      return, and the model says so ([None], or [Blocked] in [AncestryTracker.v]).
    - [clone] of a storage is the value itself, as for the in-memory storage.

    ** Fuel

    The searches of the DAG and of the node's graphs run with one step per entry the
    stack or queue can ever receive, the edges and the start ([searches_spec],
    [NodePrelude.bfs_spec], [NodePrelude.dfs_spec], [AncestryTracker.cascade_spec]); the
    topological sorts with the size of the set; the scheduler's loop with the number of
    transactions, one placed per round ([schedule_correct]); finding the root of a
    disjoint set with its size, since ranks grow towards the root
    ([GraphOrdering.find_fuel_ok]); halving by structural recursion on the
    interval number; mining is a search over the nonces, bounded by [u64]
    ([mine_block_spec]); the levels of a tree are the 32 bytes of a key; division of
    polynomials runs with one more step than the numerator has coefficients, each step
    lowering the degree.  The loop that reclaims the hot tier runs with the
    number of its candidates, each round removing one.  The adoption of orphans by the pool
    calls itself in the code; one level suffices ([PoolProofs.adoption_never_nests]).
    The ancestors of a transaction are built with the depth limit of the code.  The
    search for a cycle nests once per transaction that some record names
    ([DependencyManager.detect_cycles_spec]); a removal takes one step per edge
    ([DependencyManager.remove_loop_run]), an eviction with dependents one per pair
    ([CascadeEviction.evict_all_run]).
    Rejection sampling of a generator ([PolyCommit.hash_to_curve]) has a fuel argument
    and returns [None] when it ends: that a digest eventually hits the curve is not
    provable.

    ** Theorems about the engine

    - The chain ([ChainProofs.v]): a block is applied whole or not at all; the
      recorded supply is the total of the coins; disconnection inverts application
      for a block that does not spend its own outputs; rollback to a height returns to
      the state after the block of that height; a manager has one consistent snapshot
      per height through applications, disconnections, successful reorganisations and
      rollbacks.  Where this fails: a reorganisation that fails halfway, a disconnection
      at the genesis, the order of the disconnections, and transactions that create value.
    - Validation ([BlockValidation.v], [Utxo.v], [Reward.v]): the validators accept
      exactly what a declarative condition says, in any order of the workers; the
      Merkle root commits to the ids, and the ids do not commit to the payload.
    - The UTXO set ([Utxo.v], [State.v]): application is atomic, conserves value up to
      the fee, and is undone exactly by reversal.
    - The trees ([VerkleTree.v], [VerkleProofs.v], [TwoTrees.v]): the state tree is a
      map; the cached root is the root recomputed from the storage after any operations;
      a key has a generated proof, which verifies, unless a node on its path commits to
      the polynomial zero.  Pruning can detach live values.  The second tree
      agrees with it until something is pruned, and its pruning keeps the root; two
      coins of one transaction share a key.
    - Polynomial commitments ([PolyCommit.v]): the long division is synthetic
      division; an opening that verifies binds the value; honest openings verify
      unless the quotient has a zero coefficient.
    - The DAG and GHOSTDAG ([Dag.v], [Ghostdag.v]): insertion keeps the graph well
      formed; the searches decide reachability; the sort is topological and ends;
      after an insertion exactly the affected blocks are recolored; the coloring is
      the greedy one, and can color a block blue and red at once.
    - The virtual machine ([GasMeter.v], [Vm.v]): execution is all or nothing and
      gas is bounded.
    - The engine's mempool ([Mempool.v]): index, map and byte count agree after any
      operations; the selection for a block is the top of the priority order; the
      behaviour of insertion on every branch, with the byte limit as a mere trigger.
    - The scheduler ([Scheduler.v], [GroupExecution.v]): a schedule is a permutation
      into conflict-free groups; a group without contracts is never executed.
    - Economics ([Economics.v], [Pow.v]): the closed form of the issuance, the
      difficulty bounds, mining returns the least valid nonce.
    - Encodings ([Transaction.v], [Witness.v]): round trips, and what a signature
      covers, up to ten inputs standing for nine outputs.

    ** Theorems about the node

    - The pool ([PoolProofs.v]): every reachable pool is bounded and consistent with its
      managers, and never holds two transactions that spend one coin; insertion is
      specified on every branch; what a block candidate contains and when it fails.
      After a block every entry is treated by itself ([Revalidation.v]), but confirmed
      transactions stay; together with the tracker claims stay exclusive but for the
      unchecked addition, and a refused transaction keeps them ([Ownership.v]).
    - Orders and candidates ([GraphOrdering.v], [BlockTemplate.v], [PriorityBuckets.v],
      [Selection.v]): the groups are the connected components of the conflicts, the
      canonical order is topological, a candidate never spends a coin twice.
    - Conflicts and claims ([UtxoTracker.v], [ConflictGraph.v], [AdvancedConflicts.v],
      [Rbf.v]): claims are exclusive and backed, the graph is symmetric and agrees with
      its index unless a live transaction is registered again, resolution is symmetric but not transitive, replacements end.
    - Bounds ([MemoryLimiter.v], [Tiers.v], [Orphans.v], [Eviction.v]): the counters are
      the totals, the limits hold after every operation, what is evicted and in which
      order.
    - Dependencies ([Partitions.v], [AncestryTracker.v], [DependencyManager.v],
      [CascadeEviction.v]): partitions are components while nothing is removed; ancestors
      and descendants are one relation; the cascade reports exactly what descends; the
      manager refuses exactly the circular transactions and lists the ancestors in an order
      they can execute in, but removes no dependent and promotes none.
    - Storage ([StorageProofs.v]): a cached read is a read of the database, a block is
      committed whole or not at all, grouped writes are sequential ones, keys are parsed
      back.
    - Admission and the network ([Admission.v], [Gossip.v], [PeerScoring.v]): the token
      buckets limit bursts, the cache of ids is exact; the hooks and the validator accept
      what a declarative condition says.  The spam filter waits for a guard it holds, so
      that no message is ever accepted.

    ** Not modelled

    Display and hex conversions (presentation); metrics; key generation and signing
    (randomness; the verifier is modelled); the opcode price table (an enumeration of
    a crate).  Of klomang-node: the further managers of [mempool/] that repeat those
    above in other forms and that the pool does not use (snapshots, worker threads,
    queues); the maintenance of the storage (backup, pruning, statistics,
    options of RocksDB); of the network the transports, discovery, relays, and the event
    loop but for its gossip messages, which are calls into libp2p. *)

From Stdlib Require Export ZArith Lia Bool.
From Stdlib Require Import Init.Byte Strings.Byte.
From stdpp Require Export base tactics list gmap strings sorting.

#[global] Set Default Goal Selector "!".

Declare Scope klomang_scope.
Delimit Scope klomang_scope with klo.

(** ** Fallible code

    A Rust [Result<A, E>] that may also unwind: [Ok], [Err] and [Panic].  The
    monad's notation is stdpp's [x ← m; k]. *)
Inductive outcome (E A : Type) : Type :=
| Ok (a : A)
| Err (e : E)
| Panic (site : string).
Arguments Ok {E A} a.
Arguments Err {E A} e.
Arguments Panic {E A} site.

#[global] Instance outcome_ret {E} : MRet (outcome E) := fun _ a => Ok a.
#[global] Instance outcome_bind {E} : MBind (outcome E) := fun _ _ f m =>
  match m with
  | Ok a => f a
  | Err e => Err e
  | Panic s => Panic s
  end.

(** [m.map_err(f)] *)
Definition map_err {E F A} (f : E → F) (m : outcome E A) : outcome F A :=
  match m with
  | Ok a => Ok a
  | Err e => Err (f e)
  | Panic s => Panic s
  end.

(** [o.ok_or(e)] *)
Definition ok_or {E A} (o : option A) (e : E) : outcome E A :=
  match o with Some a => Ok a | None => Err e end.

(** [if c { return Err(e) }] *)
Definition ensure {E} (c : bool) (e : E) : outcome E unit :=
  if c then Ok tt else Err e.

Definition is_ok {E A} (m : outcome E A) : bool :=
  match m with Ok _ => true | _ => false end.

Section outcome_lemmas.
Context {E A B : Type}.

Lemma bind_ok (m : outcome E A) (f : A → outcome E B) b :
  m ≫= f = Ok b ↔ ∃ a, m = Ok a ∧ f a = Ok b.
Proof. destruct m; cbn; naive_solver. Qed.

Lemma bind_err (m : outcome E A) (f : A → outcome E B) e :
  m ≫= f = Err e ↔ m = Err e ∨ ∃ a, m = Ok a ∧ f a = Err e.
Proof. destruct m; cbn; naive_solver. Qed.

Lemma bind_panic (m : outcome E A) (f : A → outcome E B) p :
  m ≫= f = Panic p ↔ m = Panic p ∨ ∃ a, m = Ok a ∧ f a = Panic p.
Proof. destruct m; cbn; naive_solver. Qed.

Lemma ensure_panic c (e : E) p : ensure c e ≠ Panic p.
Proof. by destruct c. Qed.

Lemma ok_or_panic (o : option A) (e : E) p : ok_or o e ≠ Panic p.
Proof. by destruct o. Qed.

Lemma ensure_ok c (e : E) u : ensure c e = Ok u ↔ c = true.
Proof. destruct c, u; cbn; naive_solver. Qed.

Lemma ensure_bind_ok c (e : E) (m : outcome E A) a : (_ ← ensure c e; m) = Ok a ↔ c = true ∧ m = Ok a.
Proof. destruct c; cbn; naive_solver. Qed.

Lemma ok_or_ok (o : option A) (e : E) a : ok_or o e = Ok a ↔ o = Some a.
Proof. destruct o; cbn; naive_solver. Qed.

Lemma map_err_ok {F} (f : E → F) (m : outcome E A) a :
  map_err f m = Ok a ↔ m = Ok a.
Proof. destruct m; cbn; naive_solver. Qed.
End outcome_lemmas.

(** Breaks the hypotheses that a monadic computation returned [Ok]. *)
Ltac outcome_inv :=
  repeat match goal with
  | H : mbind _ _ = Ok _ |- _ => apply bind_ok in H as (? & ? & ?)
  | H : ensure _ _ = Ok _ |- _ => apply ensure_ok in H
  | H : ok_or _ _ = Ok _ |- _ => apply ok_or_ok in H
  | H : map_err _ _ = Ok _ |- _ => apply map_err_ok in H
  | H : Ok _ = Ok _ |- _ => injection H as H
  | H : mret _ = Ok _ |- _ => injection H as H
  | H : Err _ = Ok _ |- _ => discriminate H
  | H : Panic _ = Ok _ |- _ => discriminate H
  end.

(** Refutes that a computation panicked, by its structure. *)
Ltac panic_inv :=
  repeat match goal with
  | H : mbind _ _ = Panic _ |- _ => apply bind_panic in H as [H | (? & ? & H)]
  | H : ensure _ _ = Panic _ |- _ => by apply ensure_panic in H
  | H : ok_or _ _ = Panic _ |- _ => by apply ok_or_panic in H
  | H : Ok _ = Panic _ |- _ => discriminate H
  | H : mret _ = Panic _ |- _ => discriminate H
  | H : Err _ = Panic _ |- _ => discriminate H
  end.

(** [for x in l { state = f(state, x)?; }] *)
Fixpoint fold_outcome {E S A} (f : S → A → outcome E S) (s : S) (l : list A) : outcome E S :=
  match l with
  | [] => Ok s
  | x :: l => s' ← f s x; fold_outcome f s' l
  end.

Lemma fold_outcome_inv {E S A} (f : S → A → outcome E S) (P : S → Prop) l s s' :
  (∀ x s s', x ∈ l → P s → f s x = Ok s' → P s') →
  P s → fold_outcome f s l = Ok s' → P s'.
Proof.
  revert s; induction l as [|x l IH]; cbn; intros s Hstep Hs Hf; outcome_inv; [by subst|].
  eapply IH; [|by eapply (Hstep x s); eauto; left|done].
  intros y t t' Hy; apply Hstep; by right.
Qed.

Lemma fold_outcome_no_panic {E S A} (f : S → A → outcome E S) l s p :
  (∀ s x p, f s x ≠ Panic p) → fold_outcome f s l ≠ Panic p.
Proof.
  intros Hf. revert s; induction l as [|x l IH]; cbn; intros s Hp; panic_inv; [|by eapply IH].
  by eapply Hf.
Qed.

Lemma fold_outcome_app {E S A} (f : S → A → outcome E S) l1 l2 s :
  fold_outcome f s (l1 ++ l2) = (s' ← fold_outcome f s l1; fold_outcome f s' l2).
Proof. revert s; induction l1 as [|x l1 IH]; intros s; cbn; [done|]. destruct (f s x); cbn; eauto. Qed.

(** ** Methods on [&mut self]

    A method that may fail and that mutates a state [S]: the final state is
    returned on every path, so that what a failing call leaves behind is part
    of the model. *)
Definition method (S E A : Type) : Type := S → outcome E A * S.

#[global] Instance method_ret {S E} : MRet (method S E) := fun _ a s => (Ok a, s).
#[global] Instance method_bind {S E} : MBind (method S E) := fun _ _ f m s =>
  match m s with
  | (Ok a, s) => f a s
  | (Err e, s) => (Err e, s)
  | (Panic p, s) => (Panic p, s)
  end.

Section method.
Context {S E : Type}.

Definition get : method S E S := λ s, (Ok s, s).
Definition put (s : S) : method S E unit := λ _, (Ok tt, s).
Definition modify (f : S → S) : method S E unit := λ s, (Ok tt, f s).
Definition gets {A} (f : S → A) : method S E A := λ s, (Ok (f s), s).
Definition throw {A} (e : E) : method S E A := λ s, (Err e, s).
Definition panic {A} (p : string) : method S E A := λ s, (Panic p, s).
(** A [?] on a call that does not touch the state. *)
Definition lift {A} (m : outcome E A) : method S E A := λ s, (m, s).

(** [for x in l { f(x)?; }] *)
Fixpoint for_each {A} (f : A → method S E unit) (l : list A) : method S E unit :=
  match l with
  | [] => mret tt
  | x :: l => _ ← f x; for_each f l
  end.

(** [for x in l { acc = f(acc, x)?; }] *)
Fixpoint fold_method {A B} (f : B → A → method S E B) (b : B) (l : list A) : method S E B :=
  match l with
  | [] => mret b
  | x :: l => b ← f b x; fold_method f b l
  end.

(** [match m { Ok(a) => k(a), Err(e) => h(e) }] *)
Definition catch {A B} (m : method S E A) (k : A → method S E B) (h : E → method S E B) :
    method S E B := λ s,
  match m s with
  | (Ok a, s) => k a s
  | (Err e, s) => h e s
  | (Panic p, s) => (Panic p, s)
  end.

Lemma method_bind_ok {A B} (m : method S E A) (f : A → method S E B) s b s' :
  (m ≫= f) s = (Ok b, s') ↔ ∃ a s1, m s = (Ok a, s1) ∧ f a s1 = (Ok b, s').
Proof.
  unfold mbind, method_bind. destruct (m s) as [[a|e|p] s1]; naive_solver.
Qed.

Lemma method_bind_err {A B} (m : method S E A) (f : A → method S E B) s e s' :
  (m ≫= f) s = (Err e, s') ↔
  m s = (Err e, s') ∨ ∃ a s1, m s = (Ok a, s1) ∧ f a s1 = (Err e, s').
Proof.
  unfold mbind, method_bind. destruct (m s) as [[a|e'|p] s1]; naive_solver.
Qed.

Lemma method_bind_run {A B} (m : method S E A) (f : A → method S E B) s a s1 :
  m s = (Ok a, s1) → (m ≫= f) s = f a s1.
Proof. unfold mbind, method_bind. by intros ->. Qed.

Lemma method_bind_stop {A B} (m : method S E A) (f : A → method S E B) s e s1 :
  m s = (Err e, s1) → (m ≫= f) s = (Err e, s1).
Proof. unfold mbind, method_bind. by intros ->. Qed.

Lemma method_bind_unwind {A B} (m : method S E A) (f : A → method S E B) s p s1 :
  m s = (Panic p, s1) → (m ≫= f) s = (Panic p, s1).
Proof. unfold mbind, method_bind. by intros ->. Qed.

Lemma for_each_inv {A} (f : A → method S E unit) (P : S → Prop) l s r s' :
  (∀ x s r s', x ∈ l → P s → f x s = (r, s') → P s') →
  P s → for_each f l s = (r, s') → P s'.
Proof.
  revert s; induction l as [|x l IH]; intros s Hstep Hs.
  - intros [= <- <-]. done.
  - cbn. unfold mbind, method_bind. destruct (f x s) as [[[]|e|p] s1] eqn:Ef.
    + apply IH; [|by eapply Hstep; eauto; left].
      intros y t q t' Hy. apply Hstep. by right.
    + intros [= <- <-]. eapply Hstep; eauto. by left.
    + intros [= <- <-]. eapply Hstep; eauto. by left.
Qed.
End method.

(** A loop whose steps compute [g x], whatever state of [P] they start in. *)
Lemma method_mapM_pure {S E A B} (P : S → Prop) (f : A → method S E B) (g : A → outcome E B) l s :
  (∀ x s, x ∈ l → P s → ∃ s', f x s = (g x, s') ∧ P s') →
  P s → ∃ s', mapM f l s = (mapM g l, s') ∧ P s'.
Proof.
  revert s; induction l as [|x l IH]; intros s Hf Hs; cbn [mapM]; [by exists s|].
  destruct (Hf x s ltac:(left) Hs) as (s1 & Ef & H1).
  destruct (g x) as [b|e|p]; [|exists s1; by rewrite (method_bind_stop _ _ _ _ _ Ef)
                              |exists s1; by rewrite (method_bind_unwind _ _ _ _ _ Ef)].
  rewrite (method_bind_run _ _ _ _ _ Ef).
  destruct (IH s1) as (s2 & E2 & H2); [intros; apply Hf; [by right|done]|done|].
  exists s2. split; [|done]. destruct (mapM g l) as [k|e|p].
  - by rewrite (method_bind_run _ _ _ _ _ E2).
  - by rewrite (method_bind_stop _ _ _ _ _ E2).
  - by rewrite (method_bind_unwind _ _ _ _ _ E2).
Qed.

(** Runs a method of a field. *)
Definition zoom {S T E A} (view : S → T) (set : T → S → S) (m : method T E A) : method S E A :=
  λ s, let '(r, t) := m (view s) in (r, set t s).

(** Converts the error of a method, [map_err] or [?] through [From]. *)
Definition rethrow {S E F A} (g : E → F) (m : method S E A) : method S F A :=
  λ s, let '(r, s) := m s in (map_err g r, s).

(** *** What a method keeps, whatever it returns *)
Definition preserves {S E A} (P : S → Prop) (m : method S E A) : Prop := ∀ s, P s → P (m s).2.

Section preserves.
Context {S E : Type} (P : S → Prop).

Lemma preserves_ret {A} (a : A) : preserves P (mret (M:=method S E) a).
Proof. by intros s. Qed.
Lemma preserves_throw {A} (e : E) : preserves P (throw (A:=A) e).
Proof. by intros s. Qed.
Lemma preserves_panic {A} (x : string) : preserves P (panic (E:=E) (A:=A) x).
Proof. by intros s. Qed.
Lemma preserves_lift {A} (m : outcome E A) : preserves P (lift m).
Proof. by intros s. Qed.
Lemma preserves_gets {A} (f : S → A) : preserves P (gets (E:=E) f).
Proof. by intros s. Qed.
Lemma preserves_get : preserves P (get (E:=E)).
Proof. by intros s. Qed.
Lemma preserves_modify f : (∀ s, P s → P (f s)) → preserves P (modify (E:=E) f).
Proof. intros Hf s. apply Hf. Qed.
Lemma preserves_bind {A B} (m : method S E A) (f : A → method S E B) :
  preserves P m → (∀ a, preserves P (f a)) → preserves P (m ≫= f).
Proof.
  intros Hm Hf s Hs. specialize (Hm s Hs). unfold mbind, method_bind.
  destruct (m s) as [[a|e|x] s1]; [by apply Hf|done|done].
Qed.
Lemma preserves_for_each {A} (f : A → method S E unit) l :
  (∀ x, preserves P (f x)) → preserves P (for_each f l).
Proof.
  intros Hf. induction l as [|x l IH]; [apply preserves_ret|]. by apply preserves_bind.
Qed.
Lemma preserves_fold_method {A B} (f : B → A → method S E B) b l :
  (∀ b x, preserves P (f b x)) → preserves P (fold_method f b l).
Proof.
  intros Hf. revert b; induction l as [|x l IH]; intros b; [apply preserves_ret|]. by apply preserves_bind.
Qed.
Lemma preserves_rethrow {F A} (g : E → F) (m : method S E A) : preserves P m → preserves P (rethrow g m).
Proof. intros Hm s Hs. unfold rethrow. specialize (Hm s Hs). by destruct (m s). Qed.
Lemma preserves_catch {A B} (m : method S E A) (k : A → method S E B) h :
  preserves P m → (∀ a, preserves P (k a)) → (∀ e, preserves P (h e)) → preserves P (catch m k h).
Proof.
  intros Hm Hk Hh s Hs. unfold catch. specialize (Hm s Hs).
  destruct (m s) as [[a|e|x] s1]; [by apply Hk|by apply Hh|done].
Qed.
(** A field that [P] does not look at. *)
Lemma preserves_zoom {T A} (view : S → T) (set : T → S → S) (m : method T E A) :
  (∀ s t, P s → P (set t s)) → preserves P (zoom view set m).
Proof. intros Hset s Hs. unfold zoom. destruct (m (view s)). by apply Hset. Qed.
End preserves.

Create HintDb keeps.
#[export] Hint Resolve preserves_ret preserves_throw preserves_panic preserves_lift preserves_gets
  preserves_get : keeps.
(** Walks through a method, leaving its updates. *)
Ltac keeps :=
  repeat first [apply preserves_bind; [|intros ?] | solve [auto with keeps] | apply preserves_modify
               | apply preserves_for_each; intros ?
               | match goal with |- preserves _ (match ?x with _ => _ end) => destruct x end].

(** What a method keeps when it starts well, and what it ensures when it returns. *)
Definition triple {St E A} (P : St → Prop) (m : method St E A) (Q : A → St → Prop) (R : St → Prop) : Prop :=
  ∀ s, P s → match m s with (Ok a, s') => Q a s' | (_, s') => R s' end.
Lemma triple_bind {St E A B} (P : St → Prop) (m : method St E A) Q (f : A → method St E B) Q' R :
  triple P m Q R → (∀ a, triple (Q a) (f a) Q' R) → triple P (m ≫= f) Q' R.
Proof.
  intros Hm Hf s Hs. specialize (Hm s Hs). unfold mbind, method_bind. destruct (m s) as [[a|e|x] s']; [by apply Hf|done|done].
Qed.
Lemma triple_preserves {St E A} (P R : St → Prop) (m : method St E A) :
  preserves P m → (∀ s, P s → R s) → triple P m (λ _, P) R.
Proof. intros Hm HR s Hs. specialize (Hm s Hs). destruct (m s) as [[a|e|x] s']; auto. Qed.
Lemma triple_weaken {St E A} (P : St → Prop) (m : method St E A) (Q Q' : A → St → Prop) R :
  triple P m Q R → (∀ a s, Q a s → Q' a s) → triple P m Q' R.
Proof. intros Hm HQ s Hs. specialize (Hm s Hs). destruct (m s) as [[a|e|x] s']; auto. Qed.

Lemma bind_same {St E A B} (P : St → Prop) (Q : A → St → Prop) (m : method St E A) (f g : A → method St E B) s :
  triple P m Q (λ _, True) → P s → (∀ a s, Q a s → f a s = g a s) → (m ≫= f) s = (m ≫= g) s.
Proof.
  intros Hm Hs Hfg. specialize (Hm s Hs). unfold mbind, method_bind. destruct (m s) as [[a|e|x] s']; [by apply Hfg|done|done].
Qed.

(** The result, or a default. *)
Definition ok_or_default {E A} (d : A) (r : outcome E A) : A := match r with Ok a => a | _ => d end.
Lemma ok_or_default_spec {E A} (d : A) (r : outcome E A) : is_ok r = true → r = Ok (ok_or_default d r).
Proof. by destruct r. Qed.

(** [mapM] over outcomes *)
Lemma mapM_ok {E A B} (f : A → outcome E B) l : (∀ x, is_ok (f x) = true) → ∃ k, mapM f l = Ok k.
Proof.
  intros Hf. induction l as [|x l [k IH]]; cbn [mapM]; [by eexists|]. specialize (Hf x).
  destruct (f x) as [y|e|p]; [|done|done]. cbn. rewrite IH. by eexists.
Qed.
Lemma outcome_mapM_ext {E A B} (f g : A → outcome E B) l : (∀ x, f x = g x) → mapM f l = mapM g l.
Proof. intros Hf. induction l as [|x l IH]; cbn [mapM]; [done|]. by rewrite Hf, IH. Qed.

(** *** Methods that always return [Ok] *)
Definition succeeds {S E A} (m : method S E A) : Prop := ∀ s, is_ok (m s).1 = true.

Section succeeds.
Context {S E : Type}.

Lemma succeeds_ret {A} (a : A) : succeeds (mret (M:=method S E) a).
Proof. done. Qed.
Lemma succeeds_bind {A B} (m : method S E A) (f : A → method S E B) :
  succeeds m → (∀ a, succeeds (f a)) → succeeds (m ≫= f).
Proof.
  intros Hm Hf s. specialize (Hm s). unfold mbind, method_bind.
  destruct (m s) as [[a|e|x] s1]; [apply Hf|done|done].
Qed.
Lemma succeeds_mapM {A B} (f : A → method S E B) l : (∀ a, succeeds (f a)) → succeeds (mapM f l).
Proof.
  intros Hf. induction l as [|a l IH]; cbn [mapM]; [apply succeeds_ret|].
  apply succeeds_bind; [apply Hf|]. intros b. by apply succeeds_bind.
Qed.
Lemma succeeds_fold_method {A B} (f : B → A → method S E B) b l :
  (∀ b x, succeeds (f b x)) → succeeds (fold_method f b l).
Proof.
  intros Hf. revert b; induction l as [|x l IH]; intros b; [apply succeeds_ret|]. by apply succeeds_bind.
Qed.
Lemma succeeds_for_each {A} (f : A → method S E unit) l : (∀ x, succeeds (f x)) → succeeds (for_each f l).
Proof.
  intros Hf. induction l as [|x l IH]; [apply succeeds_ret|]. by apply succeeds_bind.
Qed.
Lemma succeeds_lift {A} (m : outcome E A) : is_ok m = true → succeeds (S:=S) (lift m).
Proof. intros Hm s. unfold lift. by destruct m. Qed.
Lemma succeeds_catch {A B} (m : method S E A) (f : A → method S E B) g :
  succeeds m → (∀ a, succeeds (f a)) → succeeds (catch m f g).
Proof.
  intros Hm Hf s. specialize (Hm s). unfold catch.
  destruct (m s) as [[a|e|x] s1]; [apply Hf|done|done].
Qed.
Lemma succeeds_run {A} (m : method S E A) s : succeeds m → ∃ a s', m s = (Ok a, s').
Proof. intros Hm. specialize (Hm s). destruct (m s) as [[a|e|x] s']; [eauto|done|done]. Qed.
End succeeds.

(** [iter().enumerate()] *)
Definition enumerate {A} (l : list A) : list (nat * A) := imap (λ i x, (i, x)) l.

(** ** Machine integers

    An unsigned [w]-bit integer is a [Z] in [0, 2^w).  [+] wraps (the release
    profile, without overflow checks); [checked_], [saturating_] and [as] are
    written out. *)
Open Scope Z_scope.

Definition u8_max : Z := 2 ^ 8 - 1.
Definition u32_max : Z := 2 ^ 32 - 1.
Definition u64_max : Z := 2 ^ 64 - 1.
Definition u128_max : Z := 2 ^ 128 - 1.
Definition usize_max : Z := u64_max.

Definition fits (w z : Z) : Prop := 0 ≤ z < 2 ^ w.

Definition wrap (w z : Z) : Z := z mod 2 ^ w.
Definition wadd (w a b : Z) : Z := wrap w (a + b).
Definition wsub (w a b : Z) : Z := wrap w (a - b).
Definition wmul (w a b : Z) : Z := wrap w (a * b).
Definition sat_add (w a b : Z) : Z := Z.min (a + b) (2 ^ w - 1).
Definition sat_sub (a b : Z) : Z := Z.max (a - b) 0.
Definition sat_mul (w a b : Z) : Z := Z.min (a * b) (2 ^ w - 1).
Definition checked_add (w a b : Z) : option Z :=
  if a + b <? 2 ^ w then Some (a + b) else None.
Definition checked_sub (a b : Z) : option Z :=
  if b <=? a then Some (a - b) else None.

Section machine_integers.
Implicit Types w a b z : Z.

Lemma wrap_small w z : fits w z → wrap w z = z.
Proof. unfold fits, wrap. intros. by apply Z.mod_small. Qed.

Lemma wrap_fits w z : 0 ≤ w → fits w (wrap w z).
Proof. intros. unfold fits, wrap. apply Z.mod_pos_bound. by apply Z.pow_pos_nonneg. Qed.

Lemma checked_add_Some w a b c :
  checked_add w a b = Some c ↔ c = a + b ∧ a + b < 2 ^ w.
Proof. unfold checked_add. destruct (Z.ltb_spec (a + b) (2 ^ w)); naive_solver lia. Qed.

Lemma checked_add_None w a b : checked_add w a b = None ↔ 2 ^ w ≤ a + b.
Proof. unfold checked_add. destruct (Z.ltb_spec (a + b) (2 ^ w)); naive_solver lia. Qed.

Lemma checked_sub_Some a b c : checked_sub a b = Some c ↔ c = a - b ∧ b ≤ a.
Proof. unfold checked_sub. destruct (Z.leb_spec b a); naive_solver lia. Qed.

Lemma sat_add_exact w a b : a + b < 2 ^ w → sat_add w a b = a + b.
Proof. unfold sat_add. lia. Qed.

Lemma sat_sub_exact a b : b ≤ a → sat_sub a b = a - b.
Proof. unfold sat_sub. lia. Qed.
End machine_integers.

Create Rewrite HintDb machine.
#[export] Hint Rewrite sat_add_exact sat_sub_exact using lia : machine.
Create HintDb klomang discriminated.
#[export] Hint Resolve wrap_fits : klomang.

(** ** Bytes *)

Definition byte_eq_dec : EqDecision byte := Byte.byte_eq_dec.
#[global] Existing Instance byte_eq_dec.
#[global] Instance byte_countable : Countable byte :=
  inj_countable Byte.to_N Byte.of_N Byte.of_to_N.

Definition byte_Z (b : byte) : Z := Z.of_N (Byte.to_N b).
Definition Z_byte (z : Z) : byte :=
  match Byte.of_N (Z.to_N (z mod 256)) with Some b => b | None => x00 end.

Lemma byte_Z_bound b : 0 ≤ byte_Z b < 256.
Proof. unfold byte_Z. pose proof (Byte.to_N_bounded b). lia. Qed.

Lemma byte_Z_inj b c : byte_Z b = byte_Z c → b = c.
Proof.
  unfold byte_Z. intros H. assert (E : Byte.to_N b = Byte.to_N c) by lia.
  apply (f_equal Byte.of_N) in E. rewrite !Byte.of_to_N in E. congruence.
Qed.

Lemma byte_Z_Z_byte z : byte_Z (Z_byte z) = z mod 256.
Proof.
  unfold byte_Z, Z_byte. pose proof (Z.mod_pos_bound z 256 ltac:(lia)).
  destruct (Byte.of_N _) eqn:E.
  - apply Byte.to_of_N in E. lia.
  - apply Byte.of_N_None_iff in E. lia.
Qed.

Lemma Z_byte_byte_Z b : Z_byte (byte_Z b) = b.
Proof.
  apply byte_Z_inj. rewrite byte_Z_Z_byte. apply Z.mod_small, byte_Z_bound.
Qed.

(** [to_le_bytes] / [from_le_bytes] and the big-endian pair, on [n] bytes. *)
Fixpoint le_bytes (n : nat) (z : Z) : list byte :=
  match n with
  | O => []
  | S n => Z_byte z :: le_bytes n (z / 256)
  end.
Fixpoint le_Z (l : list byte) : Z :=
  match l with
  | [] => 0
  | b :: l => byte_Z b + 256 * le_Z l
  end.
Definition be_bytes (n : nat) (z : Z) : list byte := reverse (le_bytes n z).
Definition be_Z (l : list byte) : Z := le_Z (reverse l).

Section byte_lemmas.
Implicit Types (n : nat) (z : Z) (l : list byte).

Lemma le_bytes_length n z : length (le_bytes n z) = n.
Proof. revert z; induction n; intros; cbn; auto. Qed.

Lemma be_bytes_length n z : length (be_bytes n z) = n.
Proof. unfold be_bytes. by rewrite length_reverse, le_bytes_length. Qed.

Lemma le_Z_bound l : 0 ≤ le_Z l < 256 ^ Z.of_nat (length l).
Proof.
  induction l as [|b l IH]; cbn [le_Z length]; [cbn; lia|].
  rewrite Nat2Z.inj_succ, Z.pow_succ_r by lia.
  pose proof (byte_Z_bound b). nia.
Qed.

Lemma le_Z_le_bytes n z : 0 ≤ z < 256 ^ Z.of_nat n → le_Z (le_bytes n z) = z.
Proof.
  revert z; induction n as [|n IH]; intros z Hz; cbn [le_bytes le_Z]; [cbn in Hz; lia|].
  rewrite Nat2Z.inj_succ, Z.pow_succ_r in Hz by lia.
  rewrite IH, byte_Z_Z_byte; [pose proof (Z.div_mod z 256); lia|].
  split; [apply Z.div_pos; lia|]. apply Z.div_lt_upper_bound; lia.
Qed.

Lemma be_Z_be_bytes n z : 0 ≤ z < 256 ^ Z.of_nat n → be_Z (be_bytes n z) = z.
Proof. intros. unfold be_Z, be_bytes. rewrite reverse_involutive. by apply le_Z_le_bytes. Qed.

Lemma le_bytes_le_Z l : le_bytes (length l) (le_Z l) = l.
Proof.
  induction l as [|b l IH]; cbn [le_Z le_bytes length]; [done|].
  pose proof (byte_Z_bound b). f_equal.
  - apply byte_Z_inj. rewrite byte_Z_Z_byte.
    rewrite (Z.mul_comm 256), Z.mod_add, Z.mod_small; lia.
  - rewrite (Z.mul_comm 256), Z.div_add, Z.div_small, Z.add_0_l by lia. done.
Qed.

Lemma be_bytes_be_Z l : be_bytes (length l) (be_Z l) = l.
Proof.
  unfold be_bytes, be_Z. rewrite <- (length_reverse l), le_bytes_le_Z.
  apply reverse_involutive.
Qed.

Lemma le_bytes_inj n y z :
  0 ≤ y < 256 ^ Z.of_nat n → 0 ≤ z < 256 ^ Z.of_nat n → le_bytes n y = le_bytes n z → y = z.
Proof. intros Hy Hz E. by rewrite <- (le_Z_le_bytes n y), <- (le_Z_le_bytes n z), E. Qed.

Lemma be_bytes_inj n y z :
  0 ≤ y < 256 ^ Z.of_nat n → 0 ≤ z < 256 ^ Z.of_nat n → be_bytes n y = be_bytes n z → y = z.
Proof. intros Hy Hz E. by rewrite <- (be_Z_be_bytes n y), <- (be_Z_be_bytes n z), E. Qed.
End byte_lemmas.

#[global] Arguments be_bytes : simpl never.
#[global] Arguments le_bytes : simpl never.
#[global] Arguments be_Z : simpl never.
#[global] Arguments le_Z : simpl never.

(** Lexicographic order of byte strings, [Ord for [u8; N]]. *)
Fixpoint bytes_leb (l k : list byte) : bool :=
  match l, k with
  | [], _ => true
  | _ :: _, [] => false
  | x :: l, y :: k =>
      match byte_Z x ?= byte_Z y with
      | Lt => true
      | Eq => bytes_leb l k
      | Gt => false
      end
  end.

Lemma bytes_leb_refl l : bytes_leb l l = true.
Proof. induction l as [|x l IH]; cbn; [done|]. by rewrite Z.compare_refl. Qed.

Lemma bytes_leb_total l k : bytes_leb l k = true ∨ bytes_leb k l = true.
Proof.
  revert k; induction l as [|x l IH]; intros [|y k]; cbn; auto.
  rewrite (Z.compare_antisym (byte_Z x) (byte_Z y)).
  destruct (byte_Z x ?= byte_Z y); cbn; auto.
Qed.

Lemma bytes_leb_antisym l k : bytes_leb l k = true → bytes_leb k l = true → l = k.
Proof.
  revert k; induction l as [|x l IH]; intros [|y k]; cbn; try done.
  rewrite (Z.compare_antisym (byte_Z x) (byte_Z y)).
  destruct (Z.compare_spec (byte_Z x) (byte_Z y)) as [E%byte_Z_inj| |]; cbn; try done.
  intros. f_equal; auto.
Qed.

Lemma bytes_leb_trans l k j :
  bytes_leb l k = true → bytes_leb k j = true → bytes_leb l j = true.
Proof.
  revert k j; induction l as [|x l IH]; intros [|y k] [|z j]; cbn; try done.
  destruct (Z.compare_spec (byte_Z x) (byte_Z y)),
    (Z.compare_spec (byte_Z y) (byte_Z z)),
    (Z.compare_spec (byte_Z x) (byte_Z z)); try done; try lia; eauto.
Qed.

(** [Ord for Vec<u8>] *)
Definition bytes_compare (a b : list byte) : comparison :=
  if bytes_leb a b then if bytes_leb b a then Eq else Lt else Gt.
Lemma bytes_compare_antisym a b : bytes_compare b a = CompOpp (bytes_compare a b).
Proof.
  unfold bytes_compare. destruct (bytes_leb_total a b) as [E|E]; rewrite E; [destruct (bytes_leb b a)|destruct (bytes_leb a b)]; done.
Qed.
Lemma bytes_compare_eq a b : bytes_compare a b = Eq ↔ a = b.
Proof.
  unfold bytes_compare. split; [|intros ->; by rewrite bytes_leb_refl].
  destruct (bytes_leb a b) eqn:E1; [|done]. destruct (bytes_leb b a) eqn:E2; [|done]. intros _. by apply bytes_leb_antisym.
Qed.

(** ** Stable sorting, [sort_by]

    An insertion sort: a left element goes before the equal ones after it. *)
Section sort_by.
Context {A : Type} (leb : A → A → bool).

Fixpoint insert_sorted (x : A) (l : list A) : list A :=
  match l with
  | [] => [x]
  | y :: l' => if leb x y then x :: l else y :: insert_sorted x l'
  end.
Definition sort_by (l : list A) : list A := foldr insert_sorted [] l.

Lemma insert_sorted_perm x l : insert_sorted x l ≡ₚ x :: l.
Proof.
  induction l as [|y l IH]; cbn; [done|]. case_match; [done|].
  rewrite IH. constructor.
Qed.

Lemma sort_by_perm l : sort_by l ≡ₚ l.
Proof. induction l as [|x l IH]; cbn; [done|]. by rewrite insert_sorted_perm, IH. Qed.

Lemma elem_of_sort_by l x : x ∈ sort_by l ↔ x ∈ l.
Proof. by rewrite sort_by_perm. Qed.

Lemma NoDup_sort_by l : NoDup (sort_by l) ↔ NoDup l.
Proof. by rewrite sort_by_perm. Qed.

Lemma length_sort_by l : length (sort_by l) = length l.
Proof. by rewrite sort_by_perm. Qed.

Context (leb_total : ∀ x y, leb x y = true ∨ leb y x = true).

(** Neighbours are in order, even when [leb] is not transitive. *)
Lemma insert_sorted_adjacent x l :
  Sorted (λ a b, leb a b = true) l → Sorted (λ a b, leb a b = true) (insert_sorted x l).
Proof.
  induction 1 as [|y l Hl IH Hy]; cbn; [by repeat constructor|].
  destruct (leb x y) eqn:E; [by repeat constructor|]. constructor; [done|].
  assert (Hyx : leb y x = true) by (destruct (leb_total x y); congruence).
  destruct l as [|z l]; cbn; [by constructor|]. destruct (leb x z); constructor; [done|].
  by inversion Hy.
Qed.
Lemma sort_by_adjacent l l1 a b l2 : sort_by l = l1 ++ a :: b :: l2 → leb a b = true.
Proof.
  assert (Hs : Sorted (λ a b, leb a b = true) (sort_by l)).
  { induction l; cbn; [constructor|]. by apply insert_sorted_adjacent. }
  intros E. rewrite E in Hs. clear E. induction l1 as [|c l1 IH]; cbn in Hs; apply Sorted_inv in Hs as [Hs Hd].
  - by inversion Hd.
  - by apply IH.
Qed.

Context (leb_trans : ∀ x y z, leb x y = true → leb y z = true → leb x z = true).

Lemma insert_sorted_sorted x l :
  StronglySorted (λ a b, leb a b = true) l →
  StronglySorted (λ a b, leb a b = true) (insert_sorted x l).
Proof.
  induction 1 as [|y l Hl IH Hy]; cbn; [by repeat constructor|].
  destruct (leb x y) eqn:E.
  - constructor; [by constructor|]. constructor; [done|].
    eapply Forall_impl; [exact Hy|]. eauto.
  - constructor; [done|]. rewrite insert_sorted_perm. constructor; [|done].
    destruct (leb_total x y); congruence.
Qed.

Lemma sort_by_sorted l : StronglySorted (λ a b, leb a b = true) (sort_by l).
Proof. induction l; cbn; [constructor|]. by apply insert_sorted_sorted. Qed.

(** With an antisymmetric order the result depends on the elements only. *)
Lemma sort_by_unique (leb_antisym : ∀ x y, leb x y = true → leb y x = true → x = y) l k :
  l ≡ₚ k → sort_by l = sort_by k.
Proof.
  intros Hlk.
  assert (AntiSymm (=) (λ a b, leb a b = true)) by (intros ??; apply leb_antisym).
  eapply (StronglySorted_unique (λ a b, leb a b = true)); try apply sort_by_sorted.
  by rewrite !sort_by_perm.
Qed.
End sort_by.

Lemma sort_by_fmap {A B} (f : A → B) (leb : B → B → bool) (l : list A) :
  sort_by leb (f <$> l) = f <$> sort_by (λ x y, leb (f x) (f y)) l.
Proof.
  unfold sort_by. induction l as [|x l IH]; cbn; [done|]. rewrite IH. clear IH.
  induction (foldr _ _ l) as [|y k IH]; cbn; [done|]. destruct (leb (f x) (f y)); cbn; [done|]. by rewrite IH.
Qed.

(** A sorted list is determined by its elements when equal ranks mean equal elements. *)
Lemma sorted_unique_on {A} (R : A → A → Prop) l k : l ≡ₚ k → StronglySorted R l → StronglySorted R k →
  (∀ x y, x ∈ l → y ∈ l → R x y → R y x → x = y) → l = k.
Proof.
  intros Hp Hl. revert k Hp; induction Hl as [|x l Hl IH Hx]; intros k Hp Hk Ha.
  { by apply Permutation_nil_l in Hp as ->. }
  destruct k as [|y k]; [by symmetry in Hp; apply Permutation_nil_cons in Hp|].
  apply StronglySorted_inv in Hk as [Hk Hy]. rewrite Forall_forall in Hx, Hy.
  assert (x = y) as ->.
  { assert (Hxk : x ∈ y :: k) by (rewrite <- Hp; left). assert (Hyl : y ∈ x :: l) by (rewrite Hp; left).
    apply elem_of_cons in Hxk as [?|Hxk]; [done|]. apply elem_of_cons in Hyl as [?|Hyl']; [done|].
    apply Ha; [left|by right|by apply Hx|by apply Hy]. }
  f_equal. apply IH; [by apply Permutation_cons_inv in Hp|done|]. intros; apply Ha; [by right|by right|done|done].
Qed.
Lemma sort_by_unique_on {A} (leb : A → A → bool) (leb_total : ∀ x y, leb x y = true ∨ leb y x = true)
    (leb_trans : ∀ x y z, leb x y = true → leb y z = true → leb x z = true) l k :
  l ≡ₚ k → (∀ x y, x ∈ l → y ∈ l → leb x y = true → leb y x = true → x = y) → sort_by leb l = sort_by leb k.
Proof.
  intros Hp Ha. apply (sorted_unique_on (λ x y, leb x y = true)); [by rewrite !sort_by_perm|by apply sort_by_sorted..|].
  intros x y Hx Hy. rewrite elem_of_sort_by in Hx, Hy. by apply Ha.
Qed.

Lemma StronglySorted_weaken {A} (R S : A → A → Prop) l :
  (∀ x y, R x y → S x y) → StronglySorted R l → StronglySorted S l.
Proof.
  intros HRS. induction 1 as [|x l _ IH Hx]; constructor; [done|].
  eapply Forall_impl; [exact Hx|]. eauto.
Qed.

(** ** Lists and deletions *)
Lemma lookup_delete_all {K V} `{Countable K} (l : list K) (m : gmap K V) k :
  foldl (λ m x, delete x m) m l !! k = if bool_decide (k ∈ l) then None else m !! k.
Proof.
  revert m; induction l as [|x l IH]; intros m; cbn [foldl]; [done|]. rewrite IH.
  destruct (decide (k = x)) as [->|Hne].
  - rewrite lookup_delete_eq, (bool_decide_eq_true_2 (x ∈ x :: l)) by left. by case_bool_decide.
  - rewrite lookup_delete_ne by done. rewrite (bool_decide_ext (k ∈ x :: l) (k ∈ l)); [done|]. set_solver.
Qed.

Lemma sublist_elem {A} (l k : list A) x : l `sublist_of` k → x ∈ l → x ∈ k.
Proof. intros Hs Hx. eapply elem_of_submseteq; [done|by apply sublist_submseteq]. Qed.

(** Of two elements of a list one comes first. *)
Lemma one_first {A} `{EqDecision A} (l : list A) x y :
  x ∈ l → y ∈ l → x ≠ y → (∃ l1 l2, l = l1 ++ x :: l2 ∧ y ∈ l1) ∨ (∃ l1 l2, l = l1 ++ y :: l2 ∧ x ∈ l1).
Proof.
  intros (l1 & l2 & ->)%list_elem_of_split Hy Hne.
  apply elem_of_app in Hy as [Hy|[->|Hy]%elem_of_cons]; [by left; eauto|done|right].
  apply list_elem_of_split in Hy as (l3 & l4 & ->). exists (l1 ++ x :: l3), l4. split; [by rewrite <- app_assoc|set_solver].
Qed.

(** A relation between neighbours that is transitive holds at any distance. *)
Lemma adjacent_before {A} (R : A → A → Prop) `{!Transitive R} (l : list A) :
  (∀ l1 a b l2, l = l1 ++ a :: b :: l2 → R a b) → ∀ l1 a l2 b l3, l = l1 ++ a :: l2 ++ b :: l3 → R a b.
Proof.
  intros Hadj l1 a l2; revert l1 a; induction l2 as [|c l2 IH]; intros l1 a b l3 E; [by eapply Hadj|].
  transitivity c; [by eapply Hadj|]. apply (IH (l1 ++ [a]) c b l3). by rewrite <- app_assoc.
Qed.

(** ** Sums over finite maps *)
Section msum.
Context {K V : Type} `{Countable K}.
Implicit Types m : gmap K V.

(** [m.values().map(f).sum()] *)
Definition msum (f : V → Z) m : Z := map_fold (λ _ v a, f v + a) 0 m.

Lemma msum_empty f : msum f ∅ = 0.
Proof. apply map_fold_empty. Qed.

Lemma msum_insert f m k v :
  m !! k = None → msum f (<[k:=v]> m) = f v + msum f m.
Proof. intros. unfold msum. rewrite (map_fold_insert_L (λ _ v a, f v + a)); [done|lia|done]. Qed.

Lemma msum_delete f m k v :
  m !! k = Some v → msum f (delete k m) = msum f m - f v.
Proof.
  intros Hk. pose proof (msum_insert f (delete k m) k v (lookup_delete_eq _ _)) as Hi.
  rewrite insert_delete_id in Hi by done. lia.
Qed.

Lemma msum_nonneg f m : (∀ k v, m !! k = Some v → 0 ≤ f v) → 0 ≤ msum f m.
Proof.
  induction m as [|k v m Hk IH] using map_ind.
  - rewrite msum_empty. lia.
  - intros Hf. rewrite msum_insert by done.
    assert (0 ≤ f v) by (eapply Hf; apply lookup_insert_eq).
    enough (0 ≤ msum f m) by lia. apply IH. intros j w Hj.
    apply (Hf j). rewrite lookup_insert_ne; [done|congruence].
Qed.
End msum.

(** ** Concatenations of fixed-width pieces *)
Section mjoin_inj.
Context {A : Type}.
Implicit Types l k : list (list A).

Lemma mjoin_length_eq l k :
  Forall2 (λ x y, length x = length y) l k → length (mjoin l) = length (mjoin k).
Proof.
  induction 1 as [|x y l k Hxy _ IH]; [done|].
  change (length (x ++ mjoin l) = length (y ++ mjoin k)). rewrite !length_app. lia.
Qed.

Lemma mjoin_inj l k :
  Forall2 (λ x y, length x = length y) l k → mjoin l = mjoin k → l = k.
Proof.
  induction 1 as [|x y l k Hxy Hlk IH]; cbn; [done|].
  intros [-> E]%app_inj_1; [|done]. f_equal; auto.
Qed.
End mjoin_inj.

Lemma enumerate_lookup {A} (l : list A) i : enumerate l !! i = (λ x, (i, x)) <$> l !! i.
Proof. unfold enumerate. by rewrite list_lookup_imap. Qed.

Lemma length_enumerate {A} (l : list A) : length (enumerate l) = length l.
Proof. unfold enumerate. by rewrite length_imap. Qed.

(** ** Sums of integer lists *)
Definition zsum (l : list Z) : Z := foldr Z.add 0 l.

Lemma zsum_cons x l : zsum (x :: l) = x + zsum l.
Proof. done. Qed.

Lemma zsum_app l k : zsum (l ++ k) = zsum l + zsum k.
Proof.
  induction l as [|x l IH]; [done|]. rewrite <- app_comm_cons, !zsum_cons, IH. lia.
Qed.

Lemma zsum_nonneg l : Forall (λ x, 0 ≤ x) l → 0 ≤ zsum l.
Proof. induction 1 as [|x l Hx Hl IH]; [done|]. rewrite zsum_cons. lia. Qed.

Lemma zsum_perm l k : l ≡ₚ k → zsum l = zsum k.
Proof. induction 1; rewrite ?zsum_cons in *; lia. Qed.

(** ** Boolean folds *)
Lemma forallb_Forall {A} (f : A → bool) l : forallb f l = true ↔ Forall (λ x, f x = true) l.
Proof. rewrite forallb_forall, Forall_forall. by setoid_rewrite <- list_elem_of_In. Qed.

Lemma forallb_bool_decide {A} (P : A → Prop) `{∀ x, Decision (P x)} l :
  forallb (λ x, bool_decide (P x)) l = true ↔ Forall P l.
Proof.
  rewrite forallb_Forall. apply Forall_proper; [|done]. intros x.
  by rewrite bool_decide_eq_true.
Qed.

(** A loop that accumulates a set and stops at a repetition. *)
Lemma fold_seen_NoDup {A K E} `{Countable K} (key : A → K) (e : E) l seen :
  (∃ s, fold_outcome (λ seen x,
    if bool_decide (key x ∈ seen) then Err e else Ok ({[ key x ]} ∪ seen)) seen l = Ok s)
  ↔ NoDup (key <$> l) ∧ ∀ x, x ∈ l → key x ∉ (seen : gset K).
Proof.
  revert seen; induction l as [|x l IH]; intros seen; cbn.
  - split; [|by eauto]. intros _. split; [constructor|]. by intros x ?%not_elem_of_nil.
  - case_bool_decide as Hx; cbn.
    + split; [intros [s ?]; done|]. intros [_ Hs]. by destruct (Hs x ltac:(left)).
    + rewrite IH, NoDup_cons. setoid_rewrite elem_of_cons. setoid_rewrite elem_of_union.
      setoid_rewrite elem_of_singleton. rewrite list_elem_of_fmap.
      split.
      * intros [Hnd Hs]. split_and!; [|done|].
        { intros (y & Hy & Hyl). destruct (Hs y Hyl). by left. }
        intros y [-> | Hy]; [done|]. intros ?. destruct (Hs y Hy). by right.
      * intros [[Hn Hnd] Hs]. split; [done|]. intros y Hy [Heq|Hin].
        { apply Hn. by exists y. }
        by destruct (Hs y ltac:(by right)).
Qed.

(** A loop that adds up with [checked_add]. *)
Lemma fold_checked_add {A E} (f : A → Z) (w : Z) (e : E) l acc t :
  0 ≤ acc < 2 ^ w → Forall (λ x, 0 ≤ f x) l →
  fold_outcome (λ t x, ok_or (checked_add w t (f x)) e) acc l = Ok t ↔
  t = acc + zsum (f <$> l) ∧ t < 2 ^ w.
Proof.
  intros Hacc Hl; revert acc Hacc; induction Hl as [|x l Hx Hl IH]; intros acc Hacc; cbn [fold_outcome].
  - cbn. split; [intros [= <-]; lia|]. intros [-> _]. f_equal. lia.
  - rewrite bind_ok. rewrite fmap_cons, zsum_cons.
    assert (Hn : 0 ≤ zsum (f <$> l)) by (apply zsum_nonneg, Forall_fmap; done).
    split.
    + intros (a & Ha%ok_or_ok%checked_add_Some & Ht). destruct Ha as [-> Ha].
      apply IH in Ht; lia.
    + intros [-> Ht]. exists (acc + f x). split.
      * apply ok_or_ok, checked_add_Some. lia.
      * apply IH; lia.
Qed.

(** A path of at least one step, its last step apart. *)
Lemma tc_rtc_split {A} (R : A → A → Prop) x z : tc R x z ↔ ∃ y, rtc R x y ∧ R y z.
Proof.
  split.
  - induction 1 as [x y Hxy|x y z Hxy _ (w & Hyw & Hwz)]; [exists x; split; [by apply rtc_refl|done]|].
    exists w. split; [by eapply rtc_l|done].
  - intros (y & Hxy & Hyz). eapply tc_rtc_l; [done|by apply tc_once].
Qed.

(** ** Updates along a list *)
Lemma foldl_alter_lookup {K V} `{Countable K} (f : V → V) (l : list K) (m : gmap K V) h :
  NoDup l →
  foldl (λ m p, alter f p m) m l !! h = (if decide (h ∈ l) then f <$> m !! h else m !! h).
Proof.
  intros Hnd. revert m; induction Hnd as [|p l Hp _ IH]; intros m; cbn; [done|].
  rewrite IH. destruct (decide (h = p)) as [->|Hh].
  - rewrite lookup_alter_eq. rewrite decide_False by done. by rewrite decide_True by left.
  - rewrite lookup_alter_ne by done.
    destruct (decide (h ∈ l)); [by rewrite decide_True by (by right)|].
    rewrite decide_False; [done|]. by rewrite elem_of_cons; intros [?|?].
Qed.
Lemma foldl_alter_dom {K V} `{Countable K} (f : V → V) (l : list K) (m : gmap K V) :
  dom (foldl (λ m x, alter f x m) m l) = dom m.
Proof. revert m; induction l as [|x l IH]; intros m; cbn; [done|]. by rewrite IH, dom_alter_L. Qed.
