(* ===== verification/Crypto.v ===== *)
(** * Hashes and the cryptographic crates

    [crypto/hash.rs]: the 32-byte [Hash] and its order.  The crates the source
    calls are interfaces: [Blake3] (the [blake3] digest), [K256] (the [k256]
    Schnorr types).  Nothing is assumed of them here; theorems that need a
    property of a crate (collision resistance) state it as a hypothesis. *)

From S2P Require Import Prelude.
From Stdlib Require Import Init.Byte.

(** [[u8; 32]]: a byte list of length 32, with proof-irrelevant equality. *)
Definition bytes32 : Type := dsig (λ l : list byte, length l = 32%nat).
#[global] Instance bytes32_eq_dec : EqDecision bytes32.
Proof. unfold bytes32, dsig. apply _. Defined.
#[global] Instance bytes32_countable : Countable bytes32.
Proof. unfold bytes32, dsig. apply _. Defined.

(** The first 32 bytes of [l], padded with zeros: total conversion used to
    build concrete arrays. *)
Definition pad32 (l : list byte) : list byte := take 32 (l ++ replicate 32 x00).
Lemma pad32_length l : length (pad32 l) = 32%nat.
Proof. unfold pad32. rewrite length_take, length_app, length_replicate. lia. Qed.
(** A proof of a boolean that computes to [I] on closed data. *)
Definition canonical_true (b : bool) : Is_true b → Is_true b :=
  match b with true => λ _, I | false => λ p, p end.
Definition to_bytes32 (l : list byte) : bytes32 :=
  pad32 l ↾ canonical_true _ (bool_decide_pack _ (pad32_length l)).

Definition zero32 : bytes32 := to_bytes32 [].

(** [struct Hash([u8; 32])] with [from_bytes] and [as_bytes]. *)
Definition Hash : Type := bytes32.
#[global] Instance Hash_eq_dec : EqDecision Hash := bytes32_eq_dec.
#[global] Instance Hash_countable : Countable Hash := bytes32_countable.
#[global] Instance Hash_inhabited : Inhabited Hash := populate zero32.
Definition as_bytes (h : Hash) : list byte := `h.
Definition from_bytes (b : bytes32) : Hash := b.

(** The derived [Ord]: lexicographic on the bytes. *)
Definition hash_leb (h k : Hash) : bool := bytes_leb (as_bytes h) (as_bytes k).

Lemma as_bytes_length (h : Hash) : length (as_bytes h) = 32%nat.
Proof. apply (proj2_dsig h). Qed.

Lemma as_bytes_inj (h k : Hash) : as_bytes h = as_bytes k → h = k.
Proof. intros. by apply dsig_eq. Qed.

Lemma to_bytes32_bytes (l : list byte) : length l = 32%nat → as_bytes (to_bytes32 l) = l.
Proof.
  intros H. unfold to_bytes32, as_bytes, pad32. cbn [proj1_sig].
  by rewrite take_app_length' by done.
Qed.

Lemma to_bytes32_as_bytes (h : Hash) : to_bytes32 (as_bytes h) = h.
Proof. apply as_bytes_inj, to_bytes32_bytes, as_bytes_length. Qed.

Lemma hash_leb_total h k : hash_leb h k = true ∨ hash_leb k h = true.
Proof. apply bytes_leb_total. Qed.
Lemma hash_leb_refl h : hash_leb h h = true.
Proof. apply bytes_leb_refl. Qed.
Lemma hash_leb_trans h k j : hash_leb h k = true → hash_leb k j = true → hash_leb h j = true.
Proof. apply bytes_leb_trans. Qed.
Lemma hash_leb_antisym h k : hash_leb h k = true → hash_leb k h = true → h = k.
Proof. intros. by apply as_bytes_inj, bytes_leb_antisym. Qed.

(** [v.sort()] on hashes. *)
Definition sort_hashes (l : list Hash) : list Hash := sort_by hash_leb l.

Lemma elem_of_sort_hashes l h : h ∈ sort_hashes l ↔ h ∈ l.
Proof. apply elem_of_sort_by. Qed.
Lemma NoDup_sort_hashes l : NoDup (sort_hashes l) ↔ NoDup l.
Proof. apply NoDup_sort_by. Qed.
Lemma sort_hashes_unique l k : l ≡ₚ k → sort_hashes l = sort_hashes k.
Proof.
  apply sort_by_unique;
    eauto using hash_leb_total, hash_leb_trans, hash_leb_antisym.
Qed.

#[export] Hint Resolve hash_leb_refl hash_leb_total : klomang.

(** ** External crates *)

(** [blake3::hash] and [Hasher::update]/[finalize]: a function from bytes to a
    32-byte digest. *)
Class Blake3 := blake3 : list byte → bytes32.

(** [Hash::new(data)] *)
Definition Hash_new `{Blake3} (data : list byte) : Hash := blake3 data.

(** No two of the given byte strings have the same digest: the collision
    resistance some theorems are stated under.  (It cannot hold of all byte
    strings, which outnumber the digests.) *)
Definition collision_free `{Blake3} (P : list byte → Prop) : Prop :=
  ∀ x y, P x → P y → blake3 x = blake3 y → x = y.

(** [k256::schnorr]: the opaque key and signature types, their parsers and
    [Verifier::verify]. *)
Class K256 := {
  VerifyingKey : Type;
  Signature : Type;
  vk_from_bytes : list byte → option VerifyingKey;
  sig_try_from : list byte → option Signature;
  vk_verify : VerifyingKey → list byte → Signature → bool
}.

(** A concrete digest for the examples: a polynomial in the bytes. *)
Definition toy_blake3 : Blake3 := λ l,
  to_bytes32 (be_bytes 32 (foldl (λ a b, Z.land (a * 257 + byte_Z b + 1) (2 ^ 256 - 1)) 7 l)).

(** Concrete keys and signatures for the examples: a key and a signature are
    their bytes, a signature verifies when it is the key repeated. *)
Definition toy_k256 : K256 := {|
  VerifyingKey := list byte;
  Signature := list byte;
  vk_from_bytes l := if bool_decide (length l = 32%nat) then Some l else None;
  sig_try_from l := if bool_decide (length l = 64%nat) then Some l else None;
  vk_verify vk _ sig := bool_decide (sig = vk ++ vk)
|}.

(** The hash whose bytes are all [n] (examples). *)
Definition hash_of (n : Z) : Hash := to_bytes32 (replicate 32 (Z_byte n)).
