(* ===== verification/Errors.v ===== *)
(** * Core errors

    [errors.rs].  A message built by [format!] is represented by its template:
    the interpolated values are presentation only. *)

From S2P Require Import Prelude.

Inductive CoreError : Type :=
| BlockNotFound
| InvalidParent
| DuplicateBlock
| ConsensusError (msg : string)
| TransactionError (msg : string)
| InvalidSignature
| InvalidPublicKey
| SignatureVerificationFailed
| ConfigError (msg : string)
| SerializationError (msg : string)
| PolynomialCommitmentError (msg : string)
| CryptographicError (msg : string)
| StorageError (msg : string)
| PrunedData (msg : string)
| InvalidState (msg : string)
| ValidationError (msg : string).

#[global] Instance CoreError_eq_dec : EqDecision CoreError.
Proof. solve_decision. Defined.

(** [impl Display for CoreError] *)
Definition fmt (e : CoreError) : string :=
  match e with
  | BlockNotFound => "Block not found"
  | InvalidParent => "Invalid parent"
  | DuplicateBlock => "Duplicate block"
  | ConsensusError msg => "Consensus error: " +:+ msg
  | TransactionError msg => "Transaction error: " +:+ msg
  | InvalidSignature => "Invalid signature"
  | InvalidPublicKey => "Invalid public key"
  | SignatureVerificationFailed => "Signature verification failed"
  | ConfigError msg => "Config error: " +:+ msg
  | SerializationError msg => "Serialization error: " +:+ msg
  | PolynomialCommitmentError msg => "Polynomial commitment error: " +:+ msg
  | CryptographicError msg => "Cryptographic error: " +:+ msg
  | StorageError msg => "Storage error: " +:+ msg
  | PrunedData msg => "Pruned data access error: " +:+ msg
  | InvalidState msg => "Invalid state: " +:+ msg
  | ValidationError msg => "Validation error: " +:+ msg
  end.
