(* ===== verification/Transaction.v ===== *)
(** * Transactions, access sets and signature hashes

    [state/transaction.rs], [state/access_set.rs] and the signing half of
    [crypto/schnorr.rs]. *)

From S2P Require Import Prelude Crypto Errors.
From Stdlib Require Import Init.Byte.

(** ** [state/access_set.rs] *)

Record AccessSet := { read_set : gset bytes32; write_set : gset bytes32 }.

#[global] Instance AccessSet_eq_dec : EqDecision AccessSet.
Proof. solve_decision. Defined.

Definition AccessSet_new : AccessSet := {| read_set := ∅; write_set := ∅ |}.

(** [HashSet::is_disjoint] *)
Definition is_disjoint (s t : gset bytes32) : bool := bool_decide (s ## t).

Definition has_conflict (self other : AccessSet) : bool :=
  negb (is_disjoint (write_set self) (read_set other))
  || negb (is_disjoint (write_set self) (write_set other))
  || negb (is_disjoint (write_set other) (read_set self)).

Definition merge (self other : AccessSet) : AccessSet :=
  {| read_set := read_set self ∪ read_set other;
     write_set := write_set self ∪ write_set other |}.

Definition add_read (k : bytes32) (a : AccessSet) : AccessSet :=
  {| read_set := {[ k ]} ∪ read_set a; write_set := write_set a |}.
Definition add_write (k : bytes32) (a : AccessSet) : AccessSet :=
  {| read_set := read_set a; write_set := {[ k ]} ∪ write_set a |}.

(** ** [state/transaction.rs] *)

Inductive SigHashType := All | None_ | Single.

#[global] Instance SigHashType_eq_dec : EqDecision SigHashType.
Proof. solve_decision. Defined.

Definition from_u8 (b : Z) : option SigHashType :=
  if b =? 1 then Some All
  else if b =? 2 then Some None_
  else if b =? 3 then Some Single
  else None.

Definition as_u8 (s : SigHashType) : Z :=
  match s with All => 1 | None_ => 2 | Single => 3 end.

Record TxInput := {
  prev_tx : Hash;
  index : Z;
  signature : list byte;
  pubkey : list byte;
  sighash_type : SigHashType
}.

Record TxOutput := { value : Z; pubkey_hash : Hash }.

Record Transaction := {
  id : Hash;
  inputs : list TxInput;
  outputs : list TxOutput;
  execution_payload : list byte;
  contract_address : option bytes32;
  gas_limit : Z;
  max_fee_per_gas : Z;
  chain_id : Z;
  locktime : Z
}.

#[global] Instance TxInput_eq_dec : EqDecision TxInput.
Proof. solve_decision. Defined.
#[global] Instance TxOutput_eq_dec : EqDecision TxOutput.
Proof. solve_decision. Defined.
#[global] Instance Transaction_eq_dec : EqDecision Transaction.
Proof. solve_decision. Defined.

(** The machine widths of the fields. *)
Definition output_fits (o : TxOutput) : Prop := fits 64 (value o).
Definition input_fits (i : TxInput) : Prop := fits 32 (index i).
Definition tx_fits (tx : Transaction) : Prop :=
  Forall input_fits (inputs tx) ∧ Forall output_fits (outputs tx)
  ∧ fits 64 (gas_limit tx) ∧ fits 128 (max_fee_per_gas tx)
  ∧ fits 32 (chain_id tx) ∧ fits 32 (locktime tx).

(** [OutPoint = (Hash, u32)] *)
Abbreviation OutPoint := (Hash * Z)%type.
Definition outpoint_of (i : TxInput) : OutPoint := (prev_tx i, index i).

Section transaction.
Context `{Blake3}.

(** The bytes [calculate_id] digests. *)
Definition id_preimage (self : Transaction) : list byte :=
  be_bytes 4 (chain_id self)
  ++ mjoin ((λ input,
       as_bytes (prev_tx input) ++ be_bytes 4 (index input)
       ++ pubkey input ++ [Z_byte (as_u8 (sighash_type input))]) <$> inputs self)
  ++ mjoin ((λ output,
       be_bytes 8 (value output) ++ as_bytes (pubkey_hash output)) <$> outputs self)
  ++ be_bytes 4 (locktime self).

Definition calculate_id (self : Transaction) : Hash := Hash_new (id_preimage self).

Definition set_id (i : Hash) (tx : Transaction) : Transaction :=
  {| id := i; inputs := inputs tx; outputs := outputs tx;
     execution_payload := execution_payload tx;
     contract_address := contract_address tx;
     gas_limit := gas_limit tx; max_fee_per_gas := max_fee_per_gas tx;
     chain_id := chain_id tx; locktime := locktime tx |}.

Definition Transaction_new (ins : list TxInput) (outs : list TxOutput) : Transaction :=
  let tx := {| id := Hash_new []; inputs := ins; outputs := outs;
               execution_payload := []; contract_address := None;
               gas_limit := 0; max_fee_per_gas := 0;
               chain_id := 1; locktime := 0 |} in
  set_id (calculate_id tx) tx.

Definition is_coinbase (self : Transaction) : bool :=
  match inputs self with [] => true | _ => false end.

Definition hash_with_index (self : Transaction) (i : Z) : bytes32 :=
  Hash_new (as_bytes (id self) ++ be_bytes 4 i).

(** The scan of [analyze_execution_payload]: windows of 32 bytes every 8
    bytes, [for i in (0..len.saturating_sub(32)).step_by(8)].  The WASM
    parse before it only fills a local that is never read. *)
Definition slot_ok (slot : bytes32) : bool :=
  bool_decide (slot ≠ zero32)
  && bool_decide (as_bytes slot ≠ replicate 32 xff).

Definition slot_offsets (len : nat) : list nat :=
  (λ k, (8 * k)%nat) <$> seq 0 (((len - 32) + 7) / 8)%nat.

Definition scan_slot (payload : list byte) (acc : AccessSet) (i : nat) : AccessSet :=
  if bool_decide (i + 32 ≤ length payload)%nat then
    let slot := to_bytes32 (take 32 (drop i payload)) in
    if slot_ok slot then add_write slot (add_read slot acc) else acc
  else acc.

Definition analyze_execution_payload (payload : list byte) : AccessSet :=
  let access_set :=
    if bool_decide (8 ≤ length payload)%nat
    then foldl (scan_slot payload) AccessSet_new (slot_offsets (length payload))
    else AccessSet_new in
  if bool_decide (read_set access_set = ∅) && bool_decide (write_set access_set = ∅)
  then add_write (Hash_new payload) access_set
  else access_set.

Definition generate_access_set (self : Transaction) : AccessSet :=
  let access_set := AccessSet_new in
  let access_set :=
    foldl (λ a '(i, _), add_read (hash_with_index self (Z.of_nat i)) a)
      access_set (enumerate (inputs self)) in
  let access_set :=
    foldl (λ a '(i, _), add_write (hash_with_index self (Z.of_nat i)) a)
      access_set (enumerate (outputs self)) in
  match contract_address self with
  | Some contract_addr =>
      let access_set := add_write contract_addr access_set in
      merge access_set (analyze_execution_payload (execution_payload self))
  | None => access_set
  end.
End transaction.

(** [TxOutput::serialize] and [TxOutput::deserialize] *)
Definition serialize (self : TxOutput) : list byte :=
  be_bytes 8 (value self) ++ as_bytes (pubkey_hash self).

Definition deserialize (bytes : list byte) : outcome string TxOutput :=
  if bool_decide (length bytes ≠ (8 + 32)%nat)
  then Err "Invalid length for TxOutput"
  else
    Ok {| value := be_Z (take 8 bytes);
          pubkey_hash := from_bytes (to_bytes32 (drop 8 bytes)) |}.

(** ** [crypto/schnorr.rs]: signature hashes *)

Definition sighash_input (input_index : nat) (p : nat * TxInput) : list byte :=
  let '(idx, input) := p in
  if bool_decide (idx = input_index) then pubkey input
  else as_bytes (prev_tx input) ++ be_bytes 4 (index input).

Definition sighash_inputs (tx : Transaction) (input_index : nat) : list byte :=
  mjoin (sighash_input input_index <$> enumerate (inputs tx)).

Definition sighash_output (output : TxOutput) : list byte :=
  be_bytes 8 (value output) ++ as_bytes (pubkey_hash output).

Definition serialize_tx_for_sighash (tx : Transaction) (input_index : nat)
    (sighash : SigHashType) : list byte :=
  be_bytes 4 (chain_id tx)
  ++ match sighash with
     | All => sighash_inputs tx input_index ++ mjoin (sighash_output <$> outputs tx)
     | None_ => sighash_inputs tx input_index
     | Single =>
         sighash_inputs tx input_index
         ++ match outputs tx !! input_index with
            | Some output => sighash_output output
            | None => []
            end
     end
  ++ be_bytes 4 (locktime tx).

Section sighash.
Context `{Blake3}.

(** [TAG_TX_SIGN] *)
Definition TAG_TX_SIGN : list byte := String.list_byte_of_string "KLOMANG_TX_V1".

Definition tagged_hash (tag : list byte) (data : list byte) : bytes32 :=
  let tag_hash := as_bytes (blake3 tag) in
  blake3 (tag_hash ++ tag_hash ++ data).

Definition compute_sighash (tx : Transaction) (input_index : nat)
    (sighash : SigHashType) : outcome CoreError bytes32 :=
  let serialized := serialize_tx_for_sighash tx input_index sighash in
  Ok (tagged_hash TAG_TX_SIGN serialized).
End sighash.

(** ** Lemmas *)

Section access_set_lemmas.
Implicit Types a b c : AccessSet.

Lemma is_disjoint_spec s t : is_disjoint s t = true ↔ s ## t.
Proof. apply bool_decide_eq_true. Qed.

Lemma is_disjoint_sym s t : is_disjoint s t = is_disjoint t s.
Proof. apply bool_decide_ext. split; apply disjoint_sym. Qed.

Lemma is_disjoint_union_l s t u :
  is_disjoint (s ∪ t) u = is_disjoint s u && is_disjoint t u.
Proof. apply eq_true_iff_eq. rewrite andb_true_iff, !is_disjoint_spec. apply disjoint_union_l. Qed.

Lemma is_disjoint_union_r s t u :
  is_disjoint u (s ∪ t) = is_disjoint u s && is_disjoint u t.
Proof. by rewrite is_disjoint_sym, is_disjoint_union_l, !(is_disjoint_sym u). Qed.

(** No conflict: neither writes what the other reads or writes. *)
Lemma has_conflict_false a b :
  has_conflict a b = false ↔
  write_set a ## read_set b ∧ write_set a ## write_set b ∧ write_set b ## read_set a.
Proof.
  unfold has_conflict.
  rewrite !orb_false_iff, !negb_false_iff, !is_disjoint_spec. tauto.
Qed.

Lemma has_conflict_sym a b : has_conflict a b = has_conflict b a.
Proof.
  unfold has_conflict. rewrite (is_disjoint_sym (write_set a) (write_set b)).
  destruct (is_disjoint (write_set a) (read_set b)),
    (is_disjoint (write_set b) (write_set a)),
    (is_disjoint (write_set b) (read_set a)); done.
Qed.

Lemma has_conflict_merge_l a b c :
  has_conflict (merge a b) c = has_conflict a c || has_conflict b c.
Proof.
  unfold has_conflict, merge; cbn.
  rewrite !is_disjoint_union_l, is_disjoint_union_r.
  destruct (is_disjoint (write_set a) (read_set c)), (is_disjoint (write_set b) (read_set c)),
    (is_disjoint (write_set a) (write_set c)), (is_disjoint (write_set b) (write_set c)),
    (is_disjoint (write_set c) (read_set a)), (is_disjoint (write_set c) (read_set b)); done.
Qed.

Lemma has_conflict_merge_r a b c :
  has_conflict c (merge a b) = has_conflict c a || has_conflict c b.
Proof. by rewrite has_conflict_sym, has_conflict_merge_l, !(has_conflict_sym c). Qed.

Lemma has_conflict_new_l a : has_conflict AccessSet_new a = false.
Proof. apply has_conflict_false. unfold AccessSet_new. set_solver. Qed.
End access_set_lemmas.

#[export] Hint Rewrite has_conflict_merge_l has_conflict_merge_r has_conflict_new_l : conflict.

Section transaction_lemmas.
Context `{Blake3}.

Lemma foldl_add_read {A} (g : nat → bytes32) (l : list (nat * A)) a :
  foldl (λ a '(i, _), add_read (g i) a) a l =
  {| read_set := list_to_set (g <$> l.*1) ∪ read_set a; write_set := write_set a |}.
Proof.
  revert a; induction l as [|[i x] l IH]; intros a; cbn.
  - rewrite (left_id_L ∅ (∪)). by destruct a.
  - rewrite IH. unfold add_read; cbn. f_equal. set_solver.
Qed.

Lemma foldl_add_write {A} (g : nat → bytes32) (l : list (nat * A)) a :
  foldl (λ a '(i, _), add_write (g i) a) a l =
  {| read_set := read_set a; write_set := list_to_set (g <$> l.*1) ∪ write_set a |}.
Proof.
  revert a; induction l as [|[i x] l IH]; intros a; cbn.
  - rewrite (left_id_L ∅ (∪)). by destruct a.
  - rewrite IH. unfold add_write; cbn. f_equal. set_solver.
Qed.

(** The keys of the first [n] indices of a transaction. *)
Definition index_keys (tx : Transaction) (n : nat) : gset bytes32 :=
  list_to_set ((λ i : nat, hash_with_index tx (Z.of_nat i)) <$> seq 0 n).

Lemma elem_of_index_keys tx n k :
  k ∈ index_keys tx n ↔ ∃ i : nat, (i < n)%nat ∧ k = hash_with_index tx (Z.of_nat i).
Proof.
  unfold index_keys. rewrite elem_of_list_to_set, list_elem_of_fmap.
  setoid_rewrite elem_of_seq. naive_solver lia.
Qed.

Lemma fst_enumerate {A} (l : list A) : (enumerate l).*1 = seq 0 (length l).
Proof.
  apply list_eq. intros i. unfold enumerate.
  rewrite list_lookup_fmap, list_lookup_imap.
  destruct (l !! i) as [x|] eqn:E; cbn.
  - apply lookup_lt_Some in E. by rewrite lookup_seq_lt.
  - apply lookup_ge_None in E. by rewrite lookup_seq_ge.
Qed.

Lemma generate_access_set_plain tx :
  contract_address tx = None →
  generate_access_set tx =
  {| read_set := index_keys tx (length (inputs tx));
     write_set := index_keys tx (length (outputs tx)) |}.
Proof.
  intros Hc. unfold generate_access_set. rewrite Hc.
  rewrite (foldl_add_read (λ i, hash_with_index tx (Z.of_nat i))).
  rewrite (foldl_add_write (λ i, hash_with_index tx (Z.of_nat i))).
  cbn. rewrite !fst_enumerate, !(right_id_L ∅ (∪)). done.
Qed.
End transaction_lemmas.

(** ** Theorems *)

Lemma pow_256_8 : 256 ^ Z.of_nat 8 = 2 ^ 64.
Proof. reflexivity. Qed.
Lemma pow_256_4 : 256 ^ Z.of_nat 4 = 2 ^ 32.
Proof. reflexivity. Qed.

Lemma serialize_length o : length (serialize o) = 40%nat.
Proof. unfold serialize. by rewrite length_app, be_bytes_length, as_bytes_length. Qed.

(** [TxOutput::serialize] and [deserialize] are inverse on 64-bit amounts, and
    every byte string that is not 40 bytes long is refused. *)
Theorem output_roundtrip :
  (∀ o, output_fits o → deserialize (serialize o) = Ok o)
  ∧ (∀ b o, deserialize b = Ok o → output_fits o ∧ serialize o = b)
  ∧ (∀ b, length b ≠ 40%nat → deserialize b = Err "Invalid length for TxOutput").
Proof.
  unfold deserialize. split_and!.
  - intros [v p] Hv. rewrite serialize_length, bool_decide_false by tauto.
    unfold serialize; cbn [value pubkey_hash].
    rewrite take_app_length', drop_app_length' by (symmetry; apply be_bytes_length).
    rewrite be_Z_be_bytes by (rewrite pow_256_8; exact Hv).
    unfold from_bytes. by rewrite to_bytes32_as_bytes.
  - intros b o. case_bool_decide as Hl; [done|].
    intros [= <-]. split.
    + unfold output_fits, fits; cbn [value]. rewrite <- pow_256_8.
      pose proof (le_Z_bound (reverse (take 8 b))) as Hb.
      rewrite length_reverse, length_take_le in Hb by lia. exact Hb.
    + unfold serialize; cbn [value pubkey_hash].
      pose proof (be_bytes_be_Z (take 8 b)) as Hb.
      rewrite length_take_le in Hb by lia. rewrite Hb.
      replace (as_bytes _) with (drop 8 b); [apply take_drop|].
      symmetry. apply to_bytes32_bytes. rewrite length_drop. lia.
  - intros b Hb. by rewrite bool_decide_true by exact Hb.
Qed.

(** Two transactions whose signed preimages have close layouts for input [i]: keys of
    the same size there (a valid key has 32 bytes), and fewer than ten inputs more in
    one than in the other. *)
Definition close_layout (i : nat) (tx tx' : Transaction) : Prop :=
  length ∘ pubkey <$> inputs tx !! i = length ∘ pubkey <$> inputs tx' !! i
  ∧ Z.abs (Z.of_nat (length (inputs tx)) - Z.of_nat (length (inputs tx'))) < 10.

(** The same layout: as many inputs and outputs as well. *)
Definition same_layout (i : nat) (tx tx' : Transaction) : Prop :=
  length (inputs tx) = length (inputs tx')
  ∧ length (outputs tx) = length (outputs tx')
  ∧ length ∘ pubkey <$> inputs tx !! i = length ∘ pubkey <$> inputs tx' !! i.

Section sighash_lemmas.
Implicit Types tx : Transaction.

Lemma sighash_input_lookup tx i j :
  (sighash_input i <$> enumerate (inputs tx)) !! j
  = (λ x, sighash_input i (j, x)) <$> inputs tx !! j.
Proof. rewrite list_lookup_fmap, enumerate_lookup. by destruct (inputs tx !! j). Qed.

Lemma sighash_input_length_other i j x :
  j ≠ i → length (sighash_input i (j, x)) = 36%nat.
Proof.
  intros. cbn. rewrite bool_decide_false by done.
  by rewrite length_app, as_bytes_length, be_bytes_length.
Qed.

Lemma sighash_inputs_pieces tx tx' i :
  same_layout i tx tx' →
  Forall2 (λ x y, length x = length y)
    (sighash_input i <$> enumerate (inputs tx))
    (sighash_input i <$> enumerate (inputs tx')).
Proof.
  intros (Hl & _ & Hi). apply Forall2_same_length_lookup. split.
  - by rewrite !length_fmap, !length_enumerate.
  - intros j x y. rewrite !sighash_input_lookup.
    destruct (inputs tx !! j) as [a|] eqn:Ea; [|done].
    destruct (inputs tx' !! j) as [b|] eqn:Eb; [|done].
    intros [= <-] [= <-]. destruct (decide (j = i)) as [-> | ?].
    + rewrite Ea, Eb in Hi. cbn. rewrite bool_decide_true by done. by injection Hi.
    + etrans; [by apply sighash_input_length_other|].
      symmetry. by apply sighash_input_length_other.
Qed.

Lemma sighash_output_inj o o' :
  output_fits o → output_fits o' → sighash_output o = sighash_output o' → o = o'.
Proof.
  unfold sighash_output. intros Ho Ho' [Hv Hp]%app_inj_1; [|by rewrite !be_bytes_length].
  apply be_bytes_inj in Hv; [|rewrite pow_256_8; done..].
  apply as_bytes_inj in Hp. destruct o, o'; cbn in *; congruence.
Qed.

Lemma sighash_outputs_inj (l k : list TxOutput) :
  Forall output_fits l → Forall output_fits k → length l = length k →
  mjoin (sighash_output <$> l) = mjoin (sighash_output <$> k) → l = k.
Proof.
  intros Hl Hk Hlen E%mjoin_inj.
  - revert k Hl Hk Hlen E; induction l as [|o l IH]; intros [|o' k] Hl Hk Hlen E;
      [done|discriminate Hlen|discriminate Hlen|].
    injection Hlen as Hlen. rewrite !fmap_cons in E. apply cons_eq_inj in E as [E1 E2].
    apply Forall_cons in Hl as [??], Hk as [??].
    f_equal; [by apply sighash_output_inj|]. by apply IH.
  - apply Forall2_same_length_lookup. rewrite !length_fmap. split; [done|].
    intros j x y (a & -> & _)%list_lookup_fmap_Some (b & -> & _)%list_lookup_fmap_Some.
    unfold sighash_output. by rewrite !length_app, !be_bytes_length, !as_bytes_length.
Qed.

(** The preimage holds 36 bytes per input, but for the signed one, and 40 per output. *)
Lemma sighash_inputs_length tx i :
  Z.of_nat (length (sighash_inputs tx i))
  = 36 * Z.of_nat (length (inputs tx)) + match inputs tx !! i with Some x => Z.of_nat (length (pubkey x)) - 36 | None => 0 end.
Proof.
  unfold sighash_inputs. assert (Hgen : ∀ l k, Z.of_nat (length (mjoin (sighash_input i <$> imap (λ j x, (k + j, x)%nat) l)))
    = 36 * Z.of_nat (length l) + match decide (k ≤ i)%nat with
        | left _ => match l !! (i - k)%nat with Some x => Z.of_nat (length (pubkey x)) - 36 | None => 0 end
        | right _ => 0 end).
  { intros l. induction l as [|x l IH]; intros k; [by case_decide|]. cbn [imap fmap list_fmap].
    change (mjoin (?a :: ?b)) with (a ++ mjoin b). rewrite length_app, Nat.add_0_r.
    rewrite (imap_ext _ (λ j y, (Datatypes.S k + j, y)%nat)) by (intros; cbn; f_equal; lia).
    specialize (IH (Datatypes.S k)). rewrite Nat2Z.inj_add, IH. cbn [length]. clear IH.
    destruct (decide (k = i)) as [->|Hne].
    - repeat case_decide; try lia. rewrite Nat.sub_diag. cbn [sighash_input lookup list_lookup]. rewrite bool_decide_eq_true_2 by done. cbn iota. lia.
    - rewrite sighash_input_length_other by done. repeat case_decide; try lia.
      replace (i - k)%nat with (Datatypes.S (i - Datatypes.S k)) by lia.
      change ((x :: l) !! Datatypes.S ?n) with (l !! n). destruct (l !! _); lia. }
  specialize (Hgen (inputs tx) 0%nat). cbn [decide Nat.add] in Hgen. rewrite decide_True, Nat.sub_0_r in Hgen by lia.
  exact Hgen.
Qed.
Lemma sighash_outputs_length (l : list TxOutput) : length (mjoin (sighash_output <$> l)) = (40 * length l)%nat.
Proof.
  induction l as [|o l IH]; [done|]. rewrite fmap_cons. change (mjoin (?a :: ?b)) with (a ++ mjoin b).
  rewrite length_app, IH. unfold sighash_output. rewrite length_app, be_bytes_length, as_bytes_length. cbn [length]. lia.
Qed.

(** 36 [n] + 40 [m] fixes [n] within ten. *)
Lemma close_layout_same tx tx' i :
  close_layout i tx tx' → serialize_tx_for_sighash tx i All = serialize_tx_for_sighash tx' i All → same_layout i tx tx'.
Proof.
  intros [Hk Hn] E. apply (f_equal length) in E. unfold serialize_tx_for_sighash in E.
  rewrite !length_app, !be_bytes_length, !sighash_outputs_length in E.
  pose proof (sighash_inputs_length tx i) as Hl. pose proof (sighash_inputs_length tx' i) as Hl'.
  assert (Ek : match inputs tx !! i with Some x => Z.of_nat (length (pubkey x)) - 36 | None => 0 end
    = match inputs tx' !! i with Some x => Z.of_nat (length (pubkey x)) - 36 | None => 0 end).
  { destruct (inputs tx !! i), (inputs tx' !! i); try done. injection Hk as Hk. cbn in Hk. by rewrite Hk. }
  rewrite Ek in Hl. unfold same_layout. split_and!; [lia|lia|done].
Qed.
End sighash_lemmas.

(** C39. What a [SigHashType::All] signature for input [i] commits to.  Two
    transactions with fields of their width that have the same preimage for input
    [i], the same size of key there and input counts less than ten apart
    ([close_layout]) have the same chain id and lock time, as many inputs, the same
    outputs and the same signing key, and spend the same outpoint at every other
    input.  The counts are not in the preimage: ten inputs and nine outputs are
    equally long, and [undelimited_preimage] shows the bound is sharp. *)
Theorem sighash_all_commits tx tx' i :
  tx_fits tx → tx_fits tx' → close_layout i tx tx' →
  serialize_tx_for_sighash tx i All = serialize_tx_for_sighash tx' i All →
  chain_id tx = chain_id tx' ∧ locktime tx = locktime tx' ∧ outputs tx = outputs tx'
  ∧ length (inputs tx) = length (inputs tx')
  ∧ (∀ j x x', inputs tx !! j = Some x → inputs tx' !! j = Some x' →
       if decide (j = i) then pubkey x = pubkey x' else outpoint_of x = outpoint_of x').
Proof.
  intros (Hi & Ho & _ & _ & Hc & Hl) (Hi' & Ho' & _ & _ & Hc' & Hl') Hclose Hser.
  pose proof (close_layout_same _ _ _ Hclose Hser) as Hlay. revert Hser.
  pose proof (sighash_inputs_pieces _ _ _ Hlay) as Hp.
  unfold serialize_tx_for_sighash, sighash_inputs.
  intros [E1 E]%app_inj_1; [|by rewrite !be_bytes_length].
  apply app_inj_2 in E as [E E2]; [|by rewrite !be_bytes_length].
  apply app_inj_1 in E as [E3 E4]; [|by apply mjoin_length_eq].
  apply be_bytes_inj in E1; [|rewrite pow_256_4; done..].
  apply be_bytes_inj in E2; [|rewrite pow_256_4; done..].
  apply mjoin_inj in E3; [|done].
  apply sighash_outputs_inj in E4; [|done|done|apply Hlay].
  split_and!; [done..|apply Hlay|]. intros j x x' Hx Hx'.
  assert (Ej : sighash_input i (j, x) = sighash_input i (j, x')).
  { pose proof (f_equal (.!! j) E3) as Ej. cbn in Ej.
    rewrite !sighash_input_lookup, Hx, Hx' in Ej. by injection Ej. }
  cbn in Ej. case_bool_decide; [by rewrite decide_True|]. rewrite decide_False by done.
  apply app_inj_1 in Ej as [Ea%as_bytes_inj Eb]; [|by rewrite !as_bytes_length].
  apply be_bytes_inj in Eb.
  - unfold outpoint_of. congruence.
  - rewrite pow_256_4. by eapply Forall_lookup_1 in Hi.
  - rewrite pow_256_4. by eapply Forall_lookup_1 in Hi'.
Qed.

(** The transaction with the outpoint of input [i] replaced. *)
Definition set_outpoint (i : nat) (p : OutPoint) (tx : Transaction) : Transaction :=
  {| id := id tx;
     inputs := alter (λ x, {| prev_tx := p.1; index := p.2; signature := signature x;
                             pubkey := pubkey x; sighash_type := sighash_type x |}) i (inputs tx);
     outputs := outputs tx; execution_payload := execution_payload tx;
     contract_address := contract_address tx; gas_limit := gas_limit tx;
     max_fee_per_gas := max_fee_per_gas tx; chain_id := chain_id tx;
     locktime := locktime tx |}.

(** What no signature type commits to: the outpoint the signed input itself
    spends.  The same signature is good for any other outpoint. *)
Theorem sighash_ignores_own_outpoint `{Blake3} tx i s p :
  compute_sighash (set_outpoint i p tx) i s = compute_sighash tx i s.
Proof.
  unfold compute_sighash, serialize_tx_for_sighash. cbn [chain_id locktime outputs set_outpoint].
  assert (E : sighash_inputs (set_outpoint i p tx) i = sighash_inputs tx i).
  { unfold sighash_inputs. f_equal. apply list_eq. intros j.
    rewrite !sighash_input_lookup. cbn [inputs set_outpoint].
    rewrite list_lookup_alter. case_decide as Hj; [|done]. subst.
    destruct (inputs tx !! j) as [x|]; cbn; [|done]. by rewrite bool_decide_true. }
  by rewrite E.
Qed.

(** The pre-scan of a contract never comes back empty: there is always a write
    key, every read key is also a write key, and a payload too short to hold a
    slot is keyed by its digest. *)
Theorem analyze_execution_payload_nonempty `{Blake3} payload :
  write_set (analyze_execution_payload payload) ≠ ∅
  ∧ read_set (analyze_execution_payload payload) ⊆ write_set (analyze_execution_payload payload)
  ∧ ((length payload ≤ 32)%nat →
     analyze_execution_payload payload
     = {| read_set := ∅; write_set := {[ Hash_new payload ]} |}).
Proof.
  unfold analyze_execution_payload.
  set (a := if bool_decide (8 ≤ length payload)%nat then _ else _).
  assert (Ha : read_set a = write_set a).
  { subst a. case_bool_decide; [|done].
    generalize (slot_offsets (length payload)); intros l.
    assert (E : read_set AccessSet_new = write_set AccessSet_new) by done.
    revert E. generalize AccessSet_new.
    induction l as [|i l IH]; intros b Hb; cbn; [done|]. apply IH.
    unfold scan_slot. repeat case_match; cbn; congruence. }
  assert (Hs : (length payload ≤ 32)%nat → a = AccessSet_new).
  { intros Hl. subst a. case_bool_decide; [|done].
    unfold slot_offsets. by replace (length payload - 32)%nat with 0%nat by lia. }
  clearbody a. rewrite Ha, andb_diag. case_bool_decide as Hw.
  - split_and!; [cbn; set_solver|cbn; set_solver|].
    intros ->%Hs. unfold add_write, AccessSet_new; cbn. f_equal. set_solver.
  - split_and!; [done|by rewrite Ha|]. by intros ->%Hs.
Qed.

(** ** Examples *)
Definition sample_input (prev : Z) (i : Z) : TxInput :=
  {| prev_tx := hash_of prev; index := i; signature := replicate 64 x07;
     pubkey := replicate 32 x07; sighash_type := All |}.

Definition sample_tx (txid : Z) (ins : list TxInput) (outs : list Z) (gas : Z) : Transaction :=
  {| id := hash_of txid; inputs := ins;
     outputs := (λ v, {| value := v; pubkey_hash := hash_of 9 |}) <$> outs;
     execution_payload := []; contract_address := None; gas_limit := gas;
     max_fee_per_gas := 0; chain_id := 1; locktime := 0 |}.

(** The inputs that a string of bytes spells out, 36 at a time. *)
Definition spelled_input (l : list byte) : TxInput :=
  {| prev_tx := to_bytes32 (take 32 l); index := be_Z (drop 32 l); signature := replicate 64 x07;
     pubkey := replicate 32 x07; sighash_type := All |}.
Fixpoint spelled_inputs (n : nat) (l : list byte) : list TxInput :=
  match n with O => [] | Datatypes.S n => spelled_input (take 36 l) :: spelled_inputs n (drop 36 l) end.

(** A signature over one input and nine outputs is one over eleven inputs and no
    output: the preimage does not say where the inputs end. *)
Theorem undelimited_preimage :
  let tx := sample_tx 5 [sample_input 1 0] [1; 2; 3; 4; 5; 6; 7; 8; 9] 0 in
  let tx' := sample_tx 6 (sample_input 1 0 :: spelled_inputs 10 (mjoin (sighash_output <$> outputs tx))) [] 0 in
  serialize_tx_for_sighash tx 0 All = serialize_tx_for_sighash tx' 0 All
  ∧ length (outputs tx) = 9%nat ∧ outputs tx' = [] ∧ length (inputs tx') = 11%nat
  ∧ NoDup (outpoint_of <$> inputs tx').
Proof.
  cbn zeta. split_and!; [vm_compute; reflexivity..|]. apply (bool_decide_unpack _). vm_compute. exact I.
Qed.

(** Two transactions that differ in their id and gas limit are signed alike. *)
Lemma sighash_all_commits_witness :
  let tx := sample_tx 5 [sample_input 1 0; sample_input 1 1] [7; 2] 0 in
  let tx' := sample_tx 6 [sample_input 1 0; sample_input 1 1] [7; 2] 99 in
  tx ≠ tx' ∧ outputs tx = outputs tx' ∧ chain_id tx = chain_id tx'.
Proof.
  cbn zeta. split; [intros E; apply (f_equal gas_limit) in E; discriminate|].
  destruct (sighash_all_commits
    (sample_tx 5 [sample_input 1 0; sample_input 1 1] [7; 2] 0)
    (sample_tx 6 [sample_input 1 0; sample_input 1 1] [7; 2] 99) 0) as (H1 & _ & H2 & _).
  - unfold tx_fits. split_and!; try (by repeat constructor); unfold fits; cbn; lia.
  - unfold tx_fits. split_and!; try (by repeat constructor); unfold fits; cbn; lia.
  - split; [reflexivity|cbn; lia].
  - vm_compute. reflexivity.
  - split; [exact H2|exact H1].
Defined.
