(* ===== verification/Economics.v ===== *)
(** * Economic policy

    [consensus/economic_constants.rs] and [consensus/emission.rs]: the supply
    cap, the 80/20 split, the halving schedule and the emission totals.
    Amounts are [u128]; the products below stay far under [2^128], except in
    [validate_miner_share]/[validate_fullnode_share], whose argument is an
    arbitrary [u128] and whose multiplication therefore wraps. *)

From S2P Require Import Prelude Crypto.

(** ** [economic_constants.rs] *)

Definition MAX_GLOBAL_SUPPLY_NANO_SLUG : Z := 600000000000000000.
Definition MINER_REWARD_PERCENT : Z := 80.
Definition FULLNODE_REWARD_PERCENT : Z := 20.
Definition BURN_ADDRESS : bytes32 := zero32.
Definition MIN_GAS_PRICE : Z := 1.

Definition validate_miner_share (total_pool miner_share : Z) : bool :=
  let expected_miner := wmul 128 total_pool MINER_REWARD_PERCENT / 100 in
  miner_share =? expected_miner.

Definition validate_fullnode_share (total_pool fullnode_share : Z) : bool :=
  let expected_fullnode := wmul 128 total_pool FULLNODE_REWARD_PERCENT / 100 in
  fullnode_share =? expected_fullnode.

Definition verify_non_burn_address (address : bytes32) : bool :=
  bool_decide (address ≠ BURN_ADDRESS).

Definition verify_all_non_burn_recipients (addresses : list bytes32) : bool :=
  forallb verify_non_burn_address addresses.

(** ** [emission.rs] *)

Definition COIN_UNIT : Z := 100000000.
Definition UNIT : Z := COIN_UNIT.
Definition MAX_GLOBAL_SUPPLY : Z := MAX_GLOBAL_SUPPLY_NANO_SLUG.
Definition MAX_SUPPLY : Z := MAX_GLOBAL_SUPPLY.
Definition BASE_REWARD : Z := 100 * UNIT.
Definition HALVING_INTERVAL : Z := 100000.
Definition MIN_REWARD : Z := 1.

(** [for _ in 0..halving_steps { .. break .. }] *)
Fixpoint halve_loop (halving_steps : nat) (reward : Z) : Z :=
  match halving_steps with
  | O => reward
  | S n =>
      let reward := Z.max (reward / 2) MIN_REWARD in
      if reward =? MIN_REWARD then reward else halve_loop n reward
  end.

Definition raw_block_reward (daa_score : Z) : Z :=
  if daa_score =? 0 then BASE_REWARD else
  let halvings := wrap 32 (daa_score / HALVING_INTERVAL) in
  let halving_steps := Z.min halvings 128 in
  let reward := halve_loop (Z.to_nat halving_steps) BASE_REWARD in
  Z.max reward MIN_REWARD.

Definition HALVING_REWARDS : list Z := [
  10000000000; 5000000000; 2500000000; 1250000000; 625000000; 312500000;
  156250000; 78125000; 39062500; 19531250; 9765625; 4882812; 2441406;
  1220703; 610351; 305175; 152587; 76293; 38146; 19073; 9536; 4768;
  2384; 1192; 596; 298; 149; 74; 37; 18; 9; 4; 2; 1 ].

Definition CUMULATIVE_REWARDS : list Z := [
  10000000000; 15000000000; 17500000000; 18750000000; 19375000000;
  19687500000; 19843750000; 19921875000; 19960937500; 19980468750;
  19990234375; 19995117187; 19997558593; 19998779296; 19999389647;
  19999694822; 19999847409; 19999923702; 19999961848; 19999980921;
  19999990457; 19999995225; 19999997609; 19999998801; 19999999397;
  19999999695; 19999999844; 19999999918; 19999999955; 19999999973;
  19999999982; 19999999986; 19999999988; 19999999989 ].

Definition full_emitted (full_intervals : Z) : Z :=
  if full_intervals =? 0 then 0
  else if full_intervals <=? Z.of_nat (length HALVING_REWARDS) then
    nth (Z.to_nat (full_intervals - 1)) CUMULATIVE_REWARDS 0 * HALVING_INTERVAL
  else
    let capped_base := default 0 (last CUMULATIVE_REWARDS) in
    capped_base * HALVING_INTERVAL
    + (full_intervals - Z.of_nat (length HALVING_REWARDS)) * MIN_REWARD * HALVING_INTERVAL.

Definition next_reward (full_intervals : Z) : Z :=
  if full_intervals <? Z.of_nat (length HALVING_REWARDS) then
    nth (Z.to_nat full_intervals) HALVING_REWARDS 0
  else MIN_REWARD.

Definition total_emitted (daa_score : Z) : Z :=
  if daa_score =? 0 then 0 else
  let full_intervals := daa_score / HALVING_INTERVAL in
  let remainder_blocks := daa_score mod HALVING_INTERVAL in
  let remainder_emitted := sat_mul 128 remainder_blocks (next_reward full_intervals) in
  Z.min (sat_add 128 (full_emitted full_intervals) remainder_emitted) MAX_SUPPLY.

Definition capped_reward (daa_score : Z) : Z :=
  let current_total := total_emitted daa_score in
  let base_reward := raw_block_reward daa_score in
  if MAX_SUPPLY <=? current_total then 0
  else if MAX_SUPPLY <? current_total + base_reward then sat_sub MAX_SUPPLY current_total
  else base_reward.

(** Returns (miner, infra, per node). *)
Definition block_reward (daa_score active_node_count : Z) : Z * Z * Z :=
  let total := capped_reward daa_score in
  let miner := total * 80 / 100 in
  let infra := if active_node_count =? 0 then 0 else sat_sub total miner in
  let miner := if active_node_count =? 0 then total else miner in
  let per_node := if active_node_count =? 0 then 0 else infra / active_node_count in
  (wrap 64 miner, wrap 64 infra, wrap 64 per_node).

Definition validate_reward_split (daa_score active_node_count : Z) : bool :=
  let '(miner, infra, _) := block_reward daa_score active_node_count in
  let split_total := miner + infra in
  split_total <=? capped_reward daa_score.

Definition max_supply : Z := MAX_GLOBAL_SUPPLY.

(** ** The halving schedule *)

(** [f 0 + ... + f (n-1)] *)
Fixpoint issued (f : Z → Z) (n : nat) : Z :=
  match n with
  | O => 0
  | S n => issued f n + f (Z.of_nat n)
  end.


Lemma halve_loop_table k :
  (k ≤ 128)%nat →
  Z.max (halve_loop k BASE_REWARD) MIN_REWARD = next_reward (Z.of_nat k).
Proof.
  intros Hk.
  assert (Hall : Forall (λ k, Z.max (halve_loop k BASE_REWARD) MIN_REWARD = next_reward (Z.of_nat k))
                   (seq 0 129)).
  { repeat (constructor; [vm_compute; reflexivity|]). constructor. }
  rewrite Forall_forall in Hall. apply Hall, elem_of_seq. lia.
Qed.

Lemma next_reward_tail q : 33 ≤ q → next_reward q = 1.
Proof.
  intros. unfold next_reward, HALVING_REWARDS; cbn [length].
  case_match eqn:E; [|done]. apply Z.ltb_lt in E. by replace q with 33 by lia.
Qed.

Lemma next_reward_bounds q : 0 ≤ q → 1 ≤ next_reward q ≤ BASE_REWARD.
Proof.
  intros Hq. destruct (Z.le_gt_cases 33 q) as [Ht|Ht].
  - rewrite next_reward_tail by done. vm_compute. split; congruence.
  - replace q with (Z.of_nat (Z.to_nat q)) by lia.
    assert (Hall : Forall (λ k, 1 ≤ next_reward (Z.of_nat k) ≤ BASE_REWARD) (seq 0 33)).
    { repeat (constructor; [vm_compute; split; congruence|]). constructor. }
    rewrite Forall_forall in Hall. apply Hall, elem_of_seq. lia.
Qed.

(** The loop computes the table's entry of the truncated interval number. *)
Lemma raw_block_reward_interval d :
  0 ≤ d → raw_block_reward d = next_reward (wrap 32 (d / HALVING_INTERVAL)).
Proof.
  intros Hd. unfold raw_block_reward. case_match eqn:E.
  { apply Z.eqb_eq in E as ->. by vm_compute. }
  pose proof (wrap_fits 32 (d / HALVING_INTERVAL) ltac:(lia)) as [Hq _].
  set (q := wrap 32 _) in *. rewrite halve_loop_table by lia.
  destruct (Z.le_gt_cases q 128) as [Hs|Hs].
  - f_equal. lia.
  - rewrite !next_reward_tail by lia. done.
Qed.

(** The table of cumulative rewards is the running sum of the table of
    rewards, and continues by 1 per interval. *)
Lemma full_emitted_step q :
  0 ≤ q → full_emitted (q + 1) = full_emitted q + HALVING_INTERVAL * next_reward q.
Proof.
  intros Hq. destruct (Z.le_gt_cases 34 q) as [Ht|Ht].
  - rewrite next_reward_tail by lia. unfold full_emitted. cbn [length HALVING_REWARDS].
    rewrite (proj2 (Z.eqb_neq (q + 1) 0)), (proj2 (Z.eqb_neq q 0)), (proj2 (Z.leb_gt (q + 1) _)) by lia.
    destruct (Z.leb_spec q (Z.of_nat 34)) as [Hs|Hs].
    + replace q with 34 by lia. by vm_compute.
    + unfold MIN_REWARD. lia.
  - replace q with (Z.of_nat (Z.to_nat q)) by lia.
    assert (Hall : Forall (λ k, full_emitted (Z.of_nat k + 1)
                     = full_emitted (Z.of_nat k) + HALVING_INTERVAL * next_reward (Z.of_nat k))
                     (seq 0 34)).
    { repeat (constructor; [vm_compute; reflexivity|]). constructor. }
    rewrite Forall_forall in Hall. apply Hall, elem_of_seq. lia.
Qed.

Lemma full_emitted_bounds q :
  0 ≤ q → 0 ≤ full_emitted q ≤ 2000000000000000 + HALVING_INTERVAL * q.
Proof.
  intros Hq. destruct (Z.le_gt_cases q 34) as [Ht|Ht].
  - replace q with (Z.of_nat (Z.to_nat q)) by lia.
    assert (Hall : Forall (λ k, 0 ≤ full_emitted (Z.of_nat k)
                     ≤ 2000000000000000 + HALVING_INTERVAL * Z.of_nat k) (seq 0 35)).
    { repeat (constructor; [vm_compute; split; congruence|]). constructor. }
    rewrite Forall_forall in Hall. apply Hall, elem_of_seq. lia.
  - unfold full_emitted. cbn [length HALVING_REWARDS].
    rewrite (proj2 (Z.eqb_neq q 0)), (proj2 (Z.leb_gt q _)) by lia.
    replace (default 0 (last CUMULATIVE_REWARDS)) with 19999999989 by done.
    unfold HALVING_INTERVAL, MIN_REWARD. lia.
Qed.

(** The uncapped total. *)
Definition uncapped (d : Z) : Z :=
  full_emitted (d / HALVING_INTERVAL)
  + d mod HALVING_INTERVAL * next_reward (d / HALVING_INTERVAL).

Lemma uncapped_bounds d : 0 ≤ d → 0 ≤ uncapped d ≤ 3000000000000000 + d.
Proof.
  intros Hd. unfold uncapped, HALVING_INTERVAL.
  pose proof (Z.mod_pos_bound d 100000 ltac:(lia)) as Hm.
  pose proof (Z.div_mod d 100000 ltac:(lia)) as Hdm.
  pose proof (Z.div_pos d 100000 Hd ltac:(lia)) as Hq.
  pose proof (full_emitted_bounds _ Hq) as Hf. unfold HALVING_INTERVAL in Hf.
  pose proof (next_reward_bounds _ Hq) as Hn.
  replace BASE_REWARD with 10000000000 in Hn by done.
  set (q := d / 100000) in *. set (r := d mod 100000) in *.
  assert (0 ≤ r * next_reward q ≤ 99999 * 10000000000) by nia. lia.
Qed.

Lemma total_emitted_uncapped d :
  fits 64 d → total_emitted d = Z.min (uncapped d) MAX_SUPPLY.
Proof.
  intros [Hd Hd']. unfold total_emitted. case_match eqn:E.
  { apply Z.eqb_eq in E as ->. by vm_compute. }
  pose proof (uncapped_bounds d Hd) as Hu. unfold uncapped in *.
  pose proof (Z.mod_pos_bound d HALVING_INTERVAL ltac:(done)) as Hm.
  pose proof (Z.div_pos d HALVING_INTERVAL Hd ltac:(done)) as Hq.
  pose proof (next_reward_bounds _ Hq) as Hn.
  pose proof (proj1 (full_emitted_bounds _ Hq)) as Hf.
  unfold sat_mul, sat_add. rewrite (Z.min_l (_ * _)), (Z.min_l (_ + _)) by nia. done.
Qed.

Lemma uncapped_step d :
  0 ≤ d → uncapped (d + 1) = uncapped d + next_reward (d / HALVING_INTERVAL).
Proof.
  intros Hd. unfold uncapped, HALVING_INTERVAL.
  pose proof (Z.mod_pos_bound d 100000 ltac:(lia)) as Hm.
  pose proof (Z.div_mod d 100000 ltac:(lia)) as Hdm.
  pose proof (Z.div_pos d 100000 Hd ltac:(lia)) as Hq.
  set (q := d / 100000) in *. set (r := d mod 100000) in *.
  destruct (decide (r = 99999)) as [Hr|Hr].
  - assert (Eq : (d + 1) / 100000 = q + 1) by (symmetry; apply (Z.div_unique _ _ _ 0); lia).
    assert (Er : (d + 1) mod 100000 = 0) by (symmetry; apply (Z.mod_unique _ _ (q + 1)); lia).
    rewrite Eq, Er, full_emitted_step by lia. unfold HALVING_INTERVAL. lia.
  - assert (Eq : (d + 1) / 100000 = q) by (symmetry; apply (Z.div_unique _ _ _ (r + 1)); lia).
    assert (Er : (d + 1) mod 100000 = r + 1) by (symmetry; apply (Z.mod_unique _ _ q); lia).
    rewrite Eq, Er. lia.
Qed.

(** ** Issuance *)

Lemma raw_block_reward_bounds d : 0 ≤ d → 1 ≤ raw_block_reward d ≤ BASE_REWARD.
Proof.
  intros. rewrite raw_block_reward_interval by done.
  by apply next_reward_bounds, (wrap_fits 32).
Qed.

Lemma issued_ext f g n :
  (∀ d, 0 ≤ d < Z.of_nat n → f d = g d) → issued f n = issued g n.
Proof.
  induction n as [|n IH]; intros Hfg; cbn [issued]; [done|].
  rewrite IH, Hfg; [done|lia|]. intros; apply Hfg; lia.
Qed.

Lemma issued_add f a b :
  issued f (a + b) = issued f a + issued (λ d, f (Z.of_nat a + d)) b.
Proof.
  induction b as [|b IH]; cbn [issued]; [rewrite Nat.add_0_r; lia|].
  rewrite Nat.add_succ_r. cbn [issued]. rewrite IH, Nat2Z.inj_add. lia.
Qed.

Lemma issued_lower f (c : Z) n :
  (∀ d, 0 ≤ d < Z.of_nat n → c ≤ f d) → c * Z.of_nat n ≤ issued f n.
Proof.
  induction n as [|n IH]; intros Hf; cbn [issued]; [lia|].
  specialize (IH ltac:(intros; apply Hf; lia)). specialize (Hf (Z.of_nat n)). lia.
Qed.

Lemma issued_prefix f i n :
  (i ≤ n)%nat → (∀ d, 0 ≤ d < Z.of_nat n → 0 ≤ f d) → issued f i ≤ issued f n.
Proof.
  intros Hin Hf. replace n with (i + (n - i))%nat by lia. rewrite issued_add.
  pose proof (issued_lower (λ d, f (Z.of_nat i + d)) 0 (n - i)) as Hl.
  specialize (Hl ltac:(intros d Hd; apply Hf; lia)). lia.
Qed.

(** The truncation to [u32] of the interval number is harmless below
    [2^32] intervals: the rewards add up to the closed form. *)
Lemma issued_raw n :
  Z.of_nat n ≤ 2 ^ 32 * HALVING_INTERVAL → issued raw_block_reward n = uncapped (Z.of_nat n).
Proof.
  induction n as [|n IH]; intros Hn; cbn [issued]; [by vm_compute|].
  rewrite IH by lia. rewrite Nat2Z.inj_succ. unfold Z.succ. rewrite uncapped_step by lia.
  f_equal. rewrite raw_block_reward_interval, wrap_small; [done| |lia].
  unfold HALVING_INTERVAL in *. split; [apply Z.div_pos; lia|].
  apply Z.div_lt_upper_bound; lia.
Qed.

Lemma capped_reward_raw d :
  fits 64 d → d < 590000000000000000 → capped_reward d = raw_block_reward d.
Proof.
  intros Hd Hs. pose proof (uncapped_bounds d (proj1 Hd)) as Hu.
  pose proof (raw_block_reward_bounds d (proj1 Hd)) as Hr.
  unfold capped_reward. rewrite total_emitted_uncapped by done.
  change MAX_SUPPLY with 600000000000000000. change BASE_REWARD with 10000000000 in Hr.
  rewrite (Z.min_l (uncapped d)) by lia.
  rewrite (proj2 (Z.leb_gt _ (uncapped d))), (proj2 (Z.ltb_ge _ (uncapped d + _))) by lia.
  done.
Qed.

Lemma issued_capped n :
  Z.of_nat n ≤ 2 ^ 32 * HALVING_INTERVAL →
  issued capped_reward n = total_emitted (Z.of_nat n).
Proof.
  intros Hn. rewrite total_emitted_uncapped by (split; unfold HALVING_INTERVAL in *; lia).
  rewrite <- issued_raw by done.
  rewrite (issued_ext capped_reward raw_block_reward).
  - rewrite issued_raw by done. pose proof (uncapped_bounds (Z.of_nat n) ltac:(lia)).
    change MAX_SUPPLY with 600000000000000000. unfold HALVING_INTERVAL in *. lia.
  - intros d Hd. apply capped_reward_raw; [split|]; unfold HALVING_INTERVAL in *; lia.
Qed.

Lemma capped_reward_bounds d :
  fits 64 d → 0 ≤ capped_reward d ≤ BASE_REWARD.
Proof.
  intros Hd. pose proof (raw_block_reward_bounds d (proj1 Hd)) as Hr.
  unfold capped_reward, sat_sub. case_match; [lia|]. case_match; lia.
Qed.

(** ** Theorems *)

(** Over the first [2^32] halving intervals (4.29e14 blocks) the rewards
    actually paid add up, block by block, to the hardcoded closed form
    [total_emitted], and stay within the supply cap. *)
Theorem issuance_closed_form n :
  Z.of_nat n ≤ 2 ^ 32 * HALVING_INTERVAL →
  issued capped_reward n = total_emitted (Z.of_nat n)
  ∧ issued capped_reward n = issued raw_block_reward n
  ∧ 0 ≤ issued capped_reward n ≤ MAX_SUPPLY.
Proof.
  intros Hn. rewrite issued_capped by done. split_and!; [done|..].
  all: rewrite ?issued_raw, total_emitted_uncapped
    by (done || (split; unfold HALVING_INTERVAL in *; lia)).
  all: pose proof (uncapped_bounds (Z.of_nat n) ltac:(lia));
    change MAX_SUPPLY with 600000000000000000; unfold HALVING_INTERVAL in *; lia.
Qed.

(** The guard of [capped_reward], at every [u64] score: the emitted total plus
    the reward is within the cap, and the reward is zero exactly when the total
    has reached it. *)
Theorem capped_reward_guard d :
  fits 64 d →
  0 ≤ total_emitted d
  ∧ total_emitted d + capped_reward d ≤ MAX_SUPPLY
  ∧ (capped_reward d = 0 ↔ total_emitted d = MAX_SUPPLY)
  ∧ capped_reward d ≤ raw_block_reward d.
Proof.
  intros Hd. pose proof (uncapped_bounds d (proj1 Hd)) as Hu.
  pose proof (raw_block_reward_bounds d (proj1 Hd)) as Hr.
  assert (0 ≤ total_emitted d ≤ MAX_SUPPLY).
  { rewrite total_emitted_uncapped by done. change MAX_SUPPLY with 600000000000000000. lia. }
  unfold capped_reward, sat_sub. clear Hu.
  destruct (Z.leb_spec MAX_SUPPLY (total_emitted d)); [lia|].
  destruct (Z.ltb_spec MAX_SUPPLY (total_emitted d + raw_block_reward d)); lia.
Qed.

(** In the period after [k * 2^32] intervals the first interval pays the
    initial reward. *)
Lemma restarted_interval k d :
  0 ≤ k ≤ 1300 → 0 ≤ d < HALVING_INTERVAL →
  capped_reward (k * (2 ^ 32 * HALVING_INTERVAL) + d) = BASE_REWARD.
Proof.
  intros Hk Hd. unfold HALVING_INTERVAL in *.
  rewrite capped_reward_raw by (unfold fits; lia).
  rewrite raw_block_reward_interval by lia.
  replace (wrap 32 _) with 0; [by vm_compute|]. unfold wrap, HALVING_INTERVAL.
  replace (k * (2 ^ 32 * 100000) + d) with (d + k * 2 ^ 32 * 100000) by lia.
  rewrite Z.div_add, (Z.div_small d), Z.add_0_l by lia.
  by rewrite Z.mod_mul by lia.
Qed.

Lemma issued_periods (p i k : nat) :
  Z.of_nat p = 2 ^ 32 * HALVING_INTERVAL → Z.of_nat i = HALVING_INTERVAL → (k ≤ 1300)%nat →
  BASE_REWARD * HALVING_INTERVAL * Z.of_nat k ≤ issued capped_reward (k * p).
Proof.
  intros Hp Hi. induction k as [|k IH]; intros Hk; [cbn; lia|].
  specialize (IH ltac:(lia)). rewrite Nat.mul_succ_l, issued_add.
  enough (BASE_REWARD * HALVING_INTERVAL
          ≤ issued (λ d, capped_reward (Z.of_nat (k * p) + d)) p) by lia.
  etrans; [|apply (issued_prefix _ i)].
  - rewrite <- Hi. apply issued_lower. intros d Hd.
    rewrite Nat2Z.inj_mul, Hp, restarted_interval by lia. done.
  - unfold HALVING_INTERVAL in *. lia.
  - intros d Hd. apply capped_reward_bounds. unfold fits, HALVING_INTERVAL in *.
    rewrite Nat2Z.inj_mul, Hp. lia.
Qed.

(** The [u32] truncation of the interval number restarts the schedule: at
    score [2^32 * 100000] the full initial reward is paid again, and the
    rewards paid over [601 * 2^32] intervals, all representable scores, exceed
    the supply cap. *)
Theorem issuance_restarts :
  raw_block_reward (2 ^ 32 * HALVING_INTERVAL) = BASE_REWARD
  ∧ capped_reward (2 ^ 32 * HALVING_INTERVAL) = BASE_REWARD
  ∧ fits 64 (601 * (2 ^ 32 * HALVING_INTERVAL))
  ∧ MAX_SUPPLY < issued capped_reward (Z.to_nat (601 * (2 ^ 32 * HALVING_INTERVAL))).
Proof.
  split_and!; [by vm_compute|by vm_compute|by vm_compute|].
  rewrite (Z2Nat.inj_mul 601) by done. change (Z.to_nat 601) with 601%nat.
  eapply Z.lt_le_trans; [|eapply (issued_periods _ (Z.to_nat HALVING_INTERVAL) 601)].
  - by vm_compute.
  - by rewrite Z2Nat.id by done.
  - by rewrite Z2Nat.id by done.
  - lia.
Qed.

(** The miner/infrastructure split loses no unit to rounding, the shares fit
    in [u64], the per-node share times the nodes is the infrastructure share
    up to less than one unit per node, and [validate_reward_split] accepts it. *)
Theorem block_reward_split d n :
  fits 64 d → fits 32 n →
  let '(miner, infra, per_node) := block_reward d n in
  miner + infra = capped_reward d
  ∧ (n = 0 → miner = capped_reward d ∧ per_node = 0)
  ∧ (0 < n → miner = capped_reward d * MINER_REWARD_PERCENT / 100
             ∧ per_node * n ≤ infra < per_node * n + n)
  ∧ validate_reward_split d n = true.
Proof.
  intros Hd Hn. unfold validate_reward_split.
  pose proof (capped_reward_bounds d Hd) as Hr. change BASE_REWARD with 10000000000 in Hr.
  assert (E : block_reward d n =
    if n =? 0 then (capped_reward d, 0, 0)
    else let m := capped_reward d * 80 / 100 in
         (m, capped_reward d - m, (capped_reward d - m) / n)).
  { unfold block_reward, sat_sub. set (c := capped_reward d) in *. clearbody c.
    pose proof (Z.div_pos (c * 80) 100 ltac:(lia) ltac:(lia)) as H1.
    pose proof (Z.div_le_upper_bound (c * 80) 100 c ltac:(lia) ltac:(lia)) as H2.
    destruct (Z.eqb_spec n 0) as [->|Hn0].
    - rewrite !wrap_small; [done|unfold fits; lia..].
    - destruct Hn as [Hn _]. rewrite (Z.max_l (c - _)) by lia.
      pose proof (Z.div_pos (c - c * 80 / 100) n ltac:(lia) ltac:(lia)) as H3.
      pose proof (Z.div_le_upper_bound (c - c * 80 / 100) n c ltac:(lia) ltac:(nia)) as H4.
      rewrite !wrap_small; [done|unfold fits; lia..]. }
  rewrite E. set (c := capped_reward d) in *. clearbody c. clear E.
  unfold MINER_REWARD_PERCENT. destruct (Z.eqb_spec n 0) as [->|Hn0].
  - split_and!; [lia|done|lia|]. apply Z.leb_le. lia.
  - cbn zeta. destruct Hn as [Hn _].
    pose proof (Z.div_mod (c - c * 80 / 100) n Hn0) as H1.
    pose proof (Z.mod_pos_bound (c - c * 80 / 100) n ltac:(lia)) as H2.
    split_and!; [lia|lia|intros _; split; [done|lia]|]. apply Z.leb_le. lia.
Qed.

(** ** Witnesses *)

Lemma issuance_closed_form_witness :
  issued capped_reward 100003 = total_emitted (Z.of_nat 100003)
  ∧ issued capped_reward 100003 = issued raw_block_reward 100003
  ∧ 0 ≤ issued capped_reward 100003 ≤ MAX_SUPPLY.
Proof. apply (issuance_closed_form 100003). vm_compute. discriminate. Defined.

Lemma capped_reward_guard_witness :
  fits 64 (2 ^ 64 - 1) ∧ total_emitted (2 ^ 64 - 1) + capped_reward (2 ^ 64 - 1) ≤ MAX_SUPPLY.
Proof.
  assert (H : fits 64 (2 ^ 64 - 1)) by (split; vm_compute; congruence).
  split; [exact H|]. exact (proj1 (proj2 (capped_reward_guard (2 ^ 64 - 1) H))).
Defined.

Lemma block_reward_split_witness :
  let '(miner, infra, per_node) := block_reward 123456 7 in
  miner + infra = capped_reward 123456
  ∧ (7 = 0 → miner = capped_reward 123456 ∧ per_node = 0)
  ∧ (0 < 7 → miner = capped_reward 123456 * MINER_REWARD_PERCENT / 100
             ∧ per_node * 7 ≤ infra < per_node * 7 + 7)
  ∧ validate_reward_split 123456 7 = true.
Proof. apply (block_reward_split 123456 7); split; vm_compute; congruence. Defined.
