(* ===== verification/Utxo.v ===== *)
(** * The UTXO set

    [state/utxo.rs]: validation of a transaction against the set of unspent
    outputs, its atomic application, and its reversal from a change set. *)

From S2P Require Import Prelude Crypto Errors Transaction Economics.
From Stdlib Require Import Init.Byte.

Record UtxoChangeSet := {
  spent : list OutPoint;
  created : list (OutPoint * TxOutput)
}.

Record UtxoSet := { utxos : gmap OutPoint TxOutput }.

Definition UtxoSet_new : UtxoSet := {| utxos := ∅ |}.

(** [self.utxos.insert] and [self.utxos.remove] *)
Definition utxo_insert (k : OutPoint) (o : TxOutput) (u : UtxoSet) : UtxoSet :=
  {| utxos := <[k := o]> (utxos u) |}.
Definition utxo_remove (k : OutPoint) (u : UtxoSet) : UtxoSet :=
  {| utxos := delete k (utxos u) |}.

(** [(tx.id.clone(), index as u32)] *)
Definition created_outpoint (tx : Transaction) (i : nat) : OutPoint :=
  (id tx, wrap 32 (Z.of_nat i)).

Section utxo.
Context `{Blake3} `{K256}.

Definition ERR_BURN : CoreError :=
  TransactionError "Output to zero address (burn) is prohibited by economic policy".
Definition ERR_DUP : CoreError := TransactionError "Duplicate input in transaction {}: {:?}".

(** The scan for an output to the digest of the burn address. *)
Definition check_burn (tx : Transaction) : outcome CoreError unit :=
  let burn_address_hash := Hash_new (as_bytes BURN_ADDRESS) in
  ensure (forallb (λ output, bool_decide (pubkey_hash output ≠ burn_address_hash)) (outputs tx))
    ERR_BURN.

(** The loop filling [spent_outpoints]. *)
Definition check_duplicates (ins : list TxInput) : outcome CoreError (gset OutPoint) :=
  fold_outcome (λ seen input,
    if bool_decide (outpoint_of input ∈ seen) then Err ERR_DUP
    else Ok ({[ outpoint_of input ]} ∪ seen)) ∅ ins.

Definition sum_outputs (outs : list TxOutput) : outcome CoreError Z :=
  fold_outcome (λ total output,
    ok_or (checked_add 64 total (value output)) (TransactionError "Output overflow")) 0 outs.

(** The signature check of one input. *)
Definition check_signature (tx : Transaction) (input_idx : nat) (input : TxInput) :
    outcome CoreError unit :=
  _ ← ensure (bool_decide (length (pubkey input) = 33%nat)
              || bool_decide (length (pubkey input) = 32%nat)) InvalidPublicKey;
  _ ← ensure (bool_decide (length (signature input) = 64%nat)) InvalidSignature;
  pk ← ok_or (vk_from_bytes (pubkey input)) InvalidPublicKey;
  sig ← ok_or (sig_try_from (signature input)) InvalidSignature;
  msg ← map_err (λ _, SignatureVerificationFailed)
          (compute_sighash tx input_idx (sighash_type input));
  ensure (vk_verify pk (as_bytes msg) sig) SignatureVerificationFailed.

(** One turn of the loop over the inputs. *)
Definition add_input (self : UtxoSet) (tx : Transaction) (total_input : Z)
    (p : nat * TxInput) : outcome CoreError Z :=
  let '(input_idx, input) := p in
  match utxos self !! outpoint_of input with
  | Some output =>
      total ← ok_or (checked_add 64 total_input (value output))
                (TransactionError "Input overflow");
      _ ← check_signature tx input_idx input;
      mret total
  | None => Err (TransactionError "Input UTXO not found")
  end.

Definition validate_tx (self : UtxoSet) (tx : Transaction) : outcome CoreError Z :=
  _ ← check_burn tx;
  if is_coinbase tx then Ok 0 else
  _ ← check_duplicates (inputs tx);
  total_output ← sum_outputs (outputs tx);
  total_input ← fold_outcome (add_input self tx) 0 (enumerate (inputs tx));
  if total_input <? total_output then Err (TransactionError "Insufficient input value")
  else ok_or (checked_sub total_input total_output)
         (TransactionError "Fee calculation underflow").

(** The loop body removing one spent input. *)
Definition spend_input (input : TxInput) : method UtxoSet CoreError OutPoint :=
  let key := outpoint_of input in
  u ← gets utxos;
  match u !! key with
  | Some _ => _ ← modify (utxo_remove key); mret key
  | None => throw (TransactionError "Input UTXO disappeared during apply")
  end.

(** The loop body adding one output. *)
Definition create_output (tx : Transaction) (p : nat * TxOutput) :
    method UtxoSet CoreError (OutPoint * TxOutput) :=
  let '(i, output) := p in
  let key := created_outpoint tx i in
  _ ← modify (utxo_insert key output);
  mret (key, output).

Definition apply_tx (tx : Transaction) : method UtxoSet CoreError UtxoChangeSet :=
  self ← get;
  _ ← lift (validate_tx self tx);
  sp ← mapM spend_input (inputs tx);
  cr ← mapM (create_output tx) (enumerate (outputs tx));
  mret {| spent := sp; created := cr |}.

Definition revert_tx (changes : UtxoChangeSet) (spent_outputs : gmap OutPoint TxOutput) :
    method UtxoSet CoreError unit :=
  _ ← for_each (λ '(key, _),
        u ← gets utxos;
        match u !! key with
        | Some _ => modify (utxo_remove key)
        | None => throw (TransactionError "Created output not found during revert")
        end) (created changes);
  for_each (λ key,
    match spent_outputs !! key with
    | Some output => modify (utxo_insert key output)
    | None => throw (TransactionError "Spent output not found in revert map")
    end) (spent changes).

(** [u64] sum, wrapping. *)
Definition get_balance (self : UtxoSet) (pkh : Hash) : Z :=
  wrap 64 (msum (λ o, if bool_decide (pubkey_hash o = pkh) then value o else 0) (utxos self)).
End utxo.

(** ** Validation against a declarative specification *)

Definition utxo_fits (u : UtxoSet) : Prop := map_Forall (λ _ o, output_fits o) (utxos u).

Definition values (l : list TxOutput) : Z := zsum (value <$> l).

Lemma values_cons o l : values (o :: l) = value o + values l.
Proof. done. Qed.

Lemma values_nonneg l : Forall output_fits l → 0 ≤ values l.
Proof. intros Hl. apply zsum_nonneg, Forall_fmap. eapply Forall_impl; [done|]. by intros o [? _]. Qed.

Section validation.
Context `{Blake3} `{K256}.
Implicit Types (u : UtxoSet) (tx : Transaction).

(** The coins a list of inputs spends. *)
Definition spends u (ins : list TxInput) (coins : list TxOutput) : Prop :=
  Forall2 (λ i o, utxos u !! outpoint_of i = Some o) ins coins.

(** What an accepted, non-coinbase transaction is. *)
Record valid_spend u tx (fee : Z) : Prop := {
  vs_burn : Forall (λ o, pubkey_hash o ≠ Hash_new (as_bytes BURN_ADDRESS)) (outputs tx);
  vs_distinct : NoDup (outpoint_of <$> inputs tx);
  vs_signed : ∀ i input, inputs tx !! i = Some input → check_signature tx i input = Ok tt;
  vs_coins : ∃ coins, spends u (inputs tx) coins ∧ values coins < 2 ^ 64
             ∧ values coins = values (outputs tx) + fee;
  vs_fee : 0 ≤ fee
}.

Lemma check_burn_ok tx :
  check_burn tx = Ok tt ↔
  Forall (λ o, pubkey_hash o ≠ Hash_new (as_bytes BURN_ADDRESS)) (outputs tx).
Proof. unfold check_burn. by rewrite ensure_ok, forallb_bool_decide. Qed.

Lemma check_duplicates_ok ins :
  (∃ s, check_duplicates ins = Ok s) ↔ NoDup (outpoint_of <$> ins).
Proof. unfold check_duplicates. rewrite fold_seen_NoDup. set_solver. Qed.

Lemma sum_outputs_ok outs t :
  Forall output_fits outs →
  sum_outputs outs = Ok t ↔ t = values outs ∧ t < 2 ^ 64.
Proof.
  intros Ho. unfold sum_outputs. rewrite fold_checked_add; [done|lia|].
  eapply Forall_impl; [done|]. by intros o [? _].
Qed.

Lemma spends_fits u ins coins :
  utxo_fits u → spends u ins coins → Forall output_fits coins.
Proof. intros Hu. induction 1; constructor; [by eapply Hu|done]. Qed.

Lemma add_inputs_ok u tx l acc t :
  utxo_fits u → 0 ≤ acc < 2 ^ 64 →
  fold_outcome (add_input u tx) acc l = Ok t ↔
  (∃ coins, spends u l.*2 coins ∧ t = acc + values coins ∧ t < 2 ^ 64)
  ∧ Forall (λ p, check_signature tx p.1 p.2 = Ok tt) l.
Proof.
  intros Hu; revert acc; induction l as [|[i input] l IH]; intros acc Hacc; cbn [fold_outcome].
  - cbn. split.
    + intros [= <-]. split; [|constructor]. exists []. split; [constructor|]. cbn. lia.
    + intros [(coins & Hc & -> & _) _]. inversion Hc; subst. cbn. f_equal. lia.
  - rewrite bind_ok, Forall_cons. unfold spends. rewrite fmap_cons. cbn [fst snd]. split.
    + intros (a & Ha & Ht). unfold add_input in Ha.
      destruct (utxos u !! outpoint_of input) as [o|] eqn:Eo; [|done]. outcome_inv. subst.
      match goal with H : checked_add _ _ _ = Some _ |- _ => apply checked_add_Some in H as [-> ?] end.
      pose proof (Hu _ _ Eo) as [Ho _].
      match goal with u0 : unit |- _ => destruct u0 end.
      apply IH in Ht as [(coins & Hc & -> & Hlt) Hs]; [|lia]. split; [|done].
      exists (o :: coins). rewrite values_cons. split; [by constructor|lia].
    + intros [(coins & Hc & -> & Hlt) [Hsig Hs]].
      apply Forall2_cons_inv_l in Hc as (o & coins' & Ho & Hc & ->).
      rewrite values_cons in *. pose proof (Hu _ _ Ho) as [Hov _].
      assert (0 ≤ values coins') by (eapply values_nonneg, spends_fits; done).
      exists (acc + value o). split.
      * unfold add_input. rewrite Ho. cbn.
        rewrite (proj2 (checked_add_Some 64 acc (value o) _)) by (split; [done|lia]). cbn.
        by rewrite Hsig.
      * apply IH; [lia|]. split; [|done]. exists coins'. split; [done|lia].
Qed.
End validation.

(** ** Application *)

Definition remove_all (ks : list OutPoint) (u : UtxoSet) : UtxoSet :=
  foldl (λ u k, utxo_remove k u) u ks.
Definition insert_all (kos : list (OutPoint * TxOutput)) (u : UtxoSet) : UtxoSet :=
  foldl (λ u p, utxo_insert p.1 p.2 u) u kos.

(** The created entries, in order, and the spent outpoints. *)
Definition created_outputs (tx : Transaction) : list (OutPoint * TxOutput) :=
  (λ p, (created_outpoint tx p.1, p.2)) <$> enumerate (outputs tx).
Definition spent_outpoints (tx : Transaction) : list OutPoint := outpoint_of <$> inputs tx.

(** The effect of a valid transaction. *)
Definition post_tx (tx : Transaction) (u : UtxoSet) : UtxoSet :=
  insert_all (created_outputs tx) (remove_all (spent_outpoints tx) u).

(** The created outpoints are distinct and not already unspent. *)
Definition fresh_outputs (u : UtxoSet) (tx : Transaction) : Prop :=
  NoDup (created_outputs tx).*1
  ∧ ∀ k, k ∈ (created_outputs tx).*1 → utxos u !! k = None ∧ k ∉ spent_outpoints tx.

Section set_lemmas.
Implicit Types (u : UtxoSet) (tx : Transaction) (ks : list OutPoint).

Lemma UtxoSet_ext u u' : (∀ k, utxos u !! k = utxos u' !! k) → u = u'.
Proof. destruct u, u'; cbn. intros. f_equal. by apply map_eq. Qed.

Lemma remove_all_lookup ks u k :
  utxos (remove_all ks u) !! k = if decide (k ∈ ks) then None else utxos u !! k.
Proof.
  revert u; induction ks as [|j ks IH]; intros u; cbn.
  - by rewrite decide_False by apply not_elem_of_nil.
  - unfold remove_all in IH. rewrite IH. cbn. rewrite lookup_delete.
    repeat case_decide; set_solver.
Qed.

Lemma insert_all_lookup_ne kos u k :
  k ∉ kos.*1 → utxos (insert_all kos u) !! k = utxos u !! k.
Proof.
  revert u; induction kos as [|[j o] kos IH]; intros u Hk; cbn; [done|].
  unfold insert_all in IH. cbn in Hk. apply not_elem_of_cons in Hk as [??].
  rewrite IH by done. cbn. by rewrite lookup_insert_ne.
Qed.

Lemma insert_all_lookup kos u k o :
  NoDup kos.*1 → (k, o) ∈ kos → utxos (insert_all kos u) !! k = Some o.
Proof.
  revert u; induction kos as [|[j o'] kos IH]; intros u Hnd Hk; cbn; [by apply not_elem_of_nil in Hk|].
  cbn in Hnd. apply NoDup_cons in Hnd as [Hj Hnd].
  apply elem_of_cons in Hk as [[= -> ->]|Hk].
  - pose proof (insert_all_lookup_ne kos (utxo_insert j o' u) j Hj) as E.
    unfold insert_all in E. rewrite E. cbn. apply lookup_insert_eq.
  - by apply IH.
Qed.

Lemma insert_all_inv kos u k o :
  utxos (insert_all kos u) !! k = Some o → (k, o) ∈ kos ∨ utxos u !! k = Some o.
Proof.
  revert u; induction kos as [|[j o'] kos IH]; intros u; cbn; [by right|].
  intros [?|Hk]%IH; [left; by right|]. cbn in Hk. rewrite lookup_insert in Hk.
  case_decide; [|by right]. simplify_eq. left. left.
Qed.

Lemma elem_of_created_outputs tx k o : (k, o) ∈ created_outputs tx → o ∈ outputs tx.
Proof.
  unfold created_outputs. intros ([i o'] & [= _ ->] & Hin)%list_elem_of_fmap.
  apply list_elem_of_lookup in Hin as [j Hj]. rewrite enumerate_lookup in Hj.
  destruct (outputs tx !! j) as [x|] eqn:E; [|done]. injection Hj as _ ->.
  by eapply list_elem_of_lookup_2.
Qed.

(** Amounts stay machine words. *)
Lemma post_tx_fits tx u : utxo_fits u → Forall output_fits (outputs tx) → utxo_fits (post_tx tx u).
Proof.
  intros Hu Ho k o Hk. unfold post_tx in Hk. apply insert_all_inv in Hk as [Hk|Hk].
  - apply elem_of_created_outputs in Hk. by eapply Forall_forall in Ho.
  - rewrite remove_all_lookup in Hk. case_decide; [done|]. by eapply Hu.
Qed.

Lemma total_remove_all ks coins u :
  NoDup ks → Forall2 (λ k o, utxos u !! k = Some o) ks coins →
  msum value (utxos (remove_all ks u)) = msum value (utxos u) - values coins.
Proof.
  intros Hnd Hc; revert u Hc; induction Hnd as [|k ks Hk Hnd IH] in coins |- *; intros u Hc.
  - inversion Hc; subst. cbn. lia.
  - apply Forall2_cons_inv_l in Hc as (o & coins' & Ho & Hc & ->).
    change (remove_all (k :: ks) u) with (remove_all ks (utxo_remove k u)).
    rewrite (IH coins'), values_cons; [cbn; rewrite (msum_delete _ _ k o) by done; lia|].
    apply Forall2_same_length_lookup in Hc as [Hl Hc].
    apply Forall2_same_length_lookup. split; [done|]. intros i j c Hj Hcc. cbn.
    rewrite lookup_delete_ne; [by eapply Hc|]. intros ->. apply Hk. by eapply list_elem_of_lookup_2.
Qed.

Lemma total_insert_all kos u :
  NoDup kos.*1 → (∀ k, k ∈ kos.*1 → utxos u !! k = None) →
  msum value (utxos (insert_all kos u)) = msum value (utxos u) + values kos.*2.
Proof.
  revert u; induction kos as [|[k o] kos IH]; intros u Hnd Hf; [by cbn; lia|].
  change (insert_all ((k, o) :: kos) u) with (insert_all kos (utxo_insert k o u)).
  change (((k, o) :: kos).*1) with (k :: kos.*1) in *.
  change (values ((k, o) :: kos).*2) with (value o + values kos.*2).
  apply NoDup_cons in Hnd as [Hk Hnd]. rewrite IH; [|done|].
  - cbn [utxos utxo_insert]. rewrite msum_insert by (apply Hf; left). lia.
  - intros j Hj. cbn. rewrite lookup_insert_ne; [apply Hf; by right|]. by intros ->.
Qed.

Lemma created_outputs_values tx : (created_outputs tx).*2 = outputs tx.
Proof.
  unfold created_outputs. rewrite <- list_fmap_compose. apply list_eq. intros i.
  rewrite list_lookup_fmap, enumerate_lookup. by destruct (outputs tx !! i).
Qed.

Lemma created_outputs_keys tx :
  (created_outputs tx).*1 = created_outpoint tx <$> seq 0 (length (outputs tx)).
Proof.
  unfold created_outputs. rewrite <- fst_enumerate, <- !list_fmap_compose. done.
Qed.

(** Fewer than [2^32] outputs have distinct outpoints. *)
Lemma created_outputs_NoDup tx :
  Z.of_nat (length (outputs tx)) ≤ 2 ^ 32 → NoDup (created_outputs tx).*1.
Proof.
  intros Hl. rewrite created_outputs_keys. apply NoDup_fmap_2_strong; [|apply NoDup_seq].
  intros i j [_ Hi]%elem_of_seq [_ Hj]%elem_of_seq [= E].
  rewrite !wrap_small in E by (unfold fits; lia). lia.
Qed.
End set_lemmas.

Section application.
Context `{Blake3} `{K256}.
Implicit Types (u : UtxoSet) (tx : Transaction).

Lemma spend_all ins u :
  NoDup (outpoint_of <$> ins) →
  (∀ i, i ∈ ins → is_Some (utxos u !! outpoint_of i)) →
  mapM spend_input ins u = (Ok (outpoint_of <$> ins), remove_all (outpoint_of <$> ins) u).
Proof.
  revert u; induction ins as [|i ins IH]; intros u Hnd Hp; [done|].
  rewrite fmap_cons in Hnd. apply NoDup_cons in Hnd as [Hi Hnd].
  cbn [mapM]. erewrite method_bind_run.
  2:{ unfold spend_input, gets, mbind, method_bind. destruct (Hp i ltac:(left)) as [o Ho]. by rewrite Ho. }
  erewrite method_bind_run.
  2:{ apply IH; [done|]. intros j Hj. cbn. rewrite lookup_delete_ne; [apply Hp; by right|].
      intros E. apply Hi. rewrite E. by apply list_elem_of_fmap_2. }
  done.
Qed.

Lemma create_all tx (l : list (nat * TxOutput)) u :
  mapM (create_output tx) l u
  = (Ok ((λ p, (created_outpoint tx p.1, p.2)) <$> l),
     insert_all ((λ p, (created_outpoint tx p.1, p.2)) <$> l) u).
Proof.
  revert u; induction l as [|[i o] l IH]; intros u; [done|].
  cbn [mapM]. erewrite method_bind_run by done. erewrite method_bind_run by apply IH. done.
Qed.

(** Whatever the amounts, an accepted transaction has distinct, present inputs. *)
Lemma validate_tx_inputs u tx fee :
  validate_tx u tx = Ok fee →
  NoDup (spent_outpoints tx) ∧ ∀ i, i ∈ inputs tx → is_Some (utxos u !! outpoint_of i).
Proof.
  unfold validate_tx, is_coinbase, spent_outpoints. intros Hv. outcome_inv.
  destruct (inputs tx) as [|i0 ins] eqn:Ei.
  { split; [constructor|]. by intros i ?%not_elem_of_nil. }
  rewrite <- Ei in *. clear Ei i0 ins. outcome_inv. split.
  { eapply check_duplicates_ok. eauto. }
  match goal with Hf : fold_outcome (add_input u tx) _ _ = Ok _ |- _ => revert Hf end.
  generalize 0%Z at 1. intros acc Hf i Hi.
  assert (Hj : ∃ j, (j, i) ∈ enumerate (inputs tx)).
  { apply list_elem_of_lookup in Hi as [j Hj]. exists j.
    apply list_elem_of_lookup. exists j. by rewrite enumerate_lookup, Hj. }
  destruct Hj as [j Hj]. revert acc Hf. induction (enumerate (inputs tx)) as [|[k i'] l IH];
    intros acc Hf; [by apply not_elem_of_nil in Hj|].
  cbn in Hf. outcome_inv. apply elem_of_cons in Hj as [[= -> ->]|Hj]; [|by eapply IH].
  by destruct (utxos u !! outpoint_of i').
Qed.

Lemma check_signature_no_panic tx i input p : check_signature tx i input ≠ Panic p.
Proof. unfold check_signature, compute_sighash. intros Hp. panic_inv. discriminate. Qed.

Lemma add_input_no_panic u tx t x p : add_input u tx t x ≠ Panic p.
Proof.
  destruct x as [i input]. unfold add_input. case_match; [|done]. intros Hp. panic_inv.
  by apply check_signature_no_panic in Hp.
Qed.

Lemma validate_tx_no_panic u tx p : validate_tx u tx ≠ Panic p.
Proof.
  unfold validate_tx, check_burn. intros Hp. panic_inv.
  case_match; [done|]. panic_inv.
  - apply fold_outcome_no_panic in Hp; [done|]. intros ???. by case_match.
  - apply fold_outcome_no_panic in Hp; [done|]. intros ????. panic_inv.
  - apply fold_outcome_no_panic in Hp; [done|]. intros. apply add_input_no_panic.
  - case_match; [done|]. panic_inv.
Qed.

(** Reverting: the created entries are removed, the spent ones put back. *)
Lemma remove_created (kos : list (OutPoint * TxOutput)) u :
  NoDup kos.*1 → (∀ k, k ∈ kos.*1 → is_Some (utxos u !! k)) →
  for_each (λ '(key, _),
    u ← gets utxos;
    match u !! key with
    | Some _ => modify (utxo_remove key)
    | None => throw (TransactionError "Created output not found during revert")
    end) kos u = (Ok tt, remove_all kos.*1 u).
Proof.
  revert u; induction kos as [|[k o] kos IH]; intros u Hnd Hp; [done|].
  rewrite fmap_cons in Hnd, Hp. apply NoDup_cons in Hnd as [Hk Hnd]. cbn [for_each].
  destruct (Hp k ltac:(by left)) as [o' Ho'].
  erewrite method_bind_run.
  2:{ unfold gets, mbind, method_bind. by rewrite Ho'. }
  rewrite IH; [done|done|]. intros j Hj. cbn.
  rewrite lookup_delete_ne; [apply Hp; by right|]. by intros ->.
Qed.

Lemma restore_spent (sm : gmap OutPoint TxOutput) ks coins u :
  Forall2 (λ k o, sm !! k = Some o) ks coins →
  for_each (λ key,
    match sm !! key with
    | Some output => modify (utxo_insert key output)
    | None => throw (TransactionError "Spent output not found in revert map")
    end) ks u = (Ok tt, insert_all (zip ks coins) u).
Proof.
  intros Hs; revert u; induction Hs as [|k o ks coins Hk Hs IH]; intros u; [done|].
  cbn [for_each]. rewrite Hk. erewrite method_bind_run by done. rewrite IH. done.
Qed.

(** The coins behind distinct, present outpoints. *)
Lemma present_coins u ks :
  (∀ k, k ∈ ks → is_Some (utxos u !! k)) → ∃ coins, Forall2 (λ k o, utxos u !! k = Some o) ks coins.
Proof.
  induction ks as [|k ks IH]; intros Hp; [by exists []|].
  destruct (Hp k ltac:(left)) as [o Ho]. destruct IH as [coins Hc]; [intros; apply Hp; by right|].
  exists (o :: coins). by constructor.
Qed.

Lemma revert_post_tx u tx sm :
  fresh_outputs u tx → NoDup (spent_outpoints tx) →
  (∀ k, k ∈ spent_outpoints tx → is_Some (utxos u !! k) ∧ sm !! k = utxos u !! k) →
  revert_tx {| spent := spent_outpoints tx; created := created_outputs tx |} sm (post_tx tx u)
  = (Ok tt, u).
Proof.
  intros [Hnd Hf] Hns Hsm. unfold revert_tx. cbn [created spent].
  erewrite method_bind_run; [|apply remove_created; [done|]].
  2:{ intros k Hk. apply list_elem_of_fmap in Hk as ([k' o] & -> & Ho). exists o.
      by apply insert_all_lookup. }
  destruct (present_coins u (spent_outpoints tx)) as [coins Hc]; [by intros k [? _]%Hsm|].
  erewrite restore_spent.
  2:{ apply Forall2_same_length_lookup in Hc as [Hl Hc]. apply Forall2_same_length_lookup.
      split; [exact Hl|]. intros i k o Hk Ho.
      rewrite (proj2 (Hsm k (list_elem_of_lookup_2 _ _ _ Hk))). by eapply Hc. }
  f_equal. apply UtxoSet_ext. intros k.
  assert (Hz : (zip (spent_outpoints tx) coins).*1 = spent_outpoints tx)
    by (apply fst_zip; apply Forall2_length in Hc; lia).
  destruct (decide (k ∈ spent_outpoints tx)) as [Hk|Hk].
  - apply list_elem_of_lookup in Hk as [i Hi].
    destruct (Forall2_lookup_l _ _ _ _ _ Hc Hi) as (o & Ho & Hko). rewrite Hko.
    apply insert_all_lookup; [by rewrite Hz|]. apply list_elem_of_lookup. exists i.
    apply lookup_zip_with_Some. eauto.
  - rewrite insert_all_lookup_ne by (by rewrite Hz). rewrite remove_all_lookup.
    unfold post_tx. case_decide as Hkc; [by destruct (Hf k Hkc) as [-> _]|].
    rewrite insert_all_lookup_ne by done. rewrite remove_all_lookup. by case_decide.
Qed.

(** The fold over the inputs only looks at the coins' values. *)
Lemma add_inputs_value_ext u1 u2 tx l acc :
  (∀ k, value <$> utxos u1 !! k = value <$> utxos u2 !! k) →
  fold_outcome (add_input u1 tx) acc l = fold_outcome (add_input u2 tx) acc l.
Proof.
  intros Hv; revert acc; induction l as [|[i input] l IH]; intros acc; [done|]. cbn.
  specialize (Hv (outpoint_of input)).
  destruct (utxos u1 !! _) as [o1|], (utxos u2 !! _) as [o2|]; cbn in *; try done.
  injection Hv as ->. destruct (checked_add _ _ _); cbn; [|done].
  destruct (check_signature _ _ _); cbn; auto.
Qed.
End application.

(** ** Theorems *)

Section theorems.
Context `{Blake3} `{K256}.
Implicit Types (u : UtxoSet) (tx : Transaction).

Lemma validate_tx_ok u tx fee :
  utxo_fits u → Forall output_fits (outputs tx) → is_coinbase tx = false →
  validate_tx u tx = Ok fee ↔ valid_spend u tx fee.
Proof.
  intros Hu Ho Hcb. unfold validate_tx. rewrite Hcb.
  pose proof (values_nonneg _ Ho) as Hn.
  assert (Hsig : Forall (λ p, check_signature tx p.1 p.2 = Ok tt) (enumerate (inputs tx))
    ↔ ∀ i input, inputs tx !! i = Some input → check_signature tx i input = Ok tt).
  { rewrite Forall_lookup. setoid_rewrite enumerate_lookup. split.
    - intros Hs i input Hi. apply (Hs i (i, input)). by rewrite Hi.
    - intros Hs i [j input] Hi. destruct (inputs tx !! i) eqn:E; [|done].
      injection Hi as <- ->. by apply Hs. }
  assert (Hsnd : (enumerate (inputs tx)).*2 = inputs tx).
  { apply list_eq. intros i. rewrite list_lookup_fmap, enumerate_lookup.
    by destruct (inputs tx !! i). }
  split.
  - intros Hv. outcome_inv. repeat match goal with x : unit |- _ => destruct x end.
    match goal with H : sum_outputs _ = _ |- _ => apply sum_outputs_ok in H as [-> ?]; [|done] end.
    match goal with H : fold_outcome _ _ _ = _ |- _ =>
      apply add_inputs_ok in H as [(coins & Hc & -> & Hlt) Hs]; [|done|lia] end.
    destruct (Z.ltb_spec (0 + values coins) (values (outputs tx))); [done|]. outcome_inv.
    match goal with H : checked_sub _ _ = _ |- _ => apply checked_sub_Some in H as [-> ?] end.
    rewrite Hsnd in Hc.
    split; [by apply check_burn_ok|eapply check_duplicates_ok; eauto|by apply Hsig| |lia].
    exists coins. split; [done|lia].
  - intros [Hb Hd Hs (coins & Hc & Hlt & E) Hf].
    apply check_burn_ok in Hb. apply check_duplicates_ok in Hd as [s Hd]. apply Hsig in Hs.
    rewrite Hb. cbn. rewrite Hd. cbn.
    rewrite (proj2 (sum_outputs_ok (outputs tx) (values (outputs tx)) Ho)) by (split; [done|lia]).
    cbn. rewrite (proj2 (add_inputs_ok u tx (enumerate (inputs tx)) 0 (values coins) Hu ltac:(lia))).
    + cbn. rewrite (proj2 (Z.ltb_ge _ _)) by lia. apply ok_or_ok, checked_sub_Some. lia.
    + split; [|done]. exists coins. rewrite Hsnd. split; [done|lia].
Qed.

Lemma apply_tx_run u tx :
  apply_tx tx u =
  match validate_tx u tx with
  | Ok _ => (Ok {| spent := spent_outpoints tx; created := created_outputs tx |}, post_tx tx u)
  | Err e => (Err e, u)
  | Panic p => (Panic p, u)
  end.
Proof.
  unfold apply_tx. erewrite method_bind_run by done.
  destruct (validate_tx u tx) as [fee|e|p] eqn:Hv;
    [|by apply method_bind_stop|by apply method_bind_unwind].
  erewrite method_bind_run by done. apply validate_tx_inputs in Hv as [Hnd Hp].
  erewrite method_bind_run by (by apply spend_all).
  erewrite method_bind_run by apply create_all. done.
Qed.

(** The total after a valid transaction with fresh outputs. *)
Lemma total_post_tx u tx fee :
  utxo_fits u → Forall output_fits (outputs tx) → fresh_outputs u tx →
  validate_tx u tx = Ok fee →
  msum value (utxos (post_tx tx u)) =
    if is_coinbase tx then msum value (utxos u) + values (outputs tx)
    else msum value (utxos u) - fee.
Proof.
  intros Hu Ho [Hnd Hf] Hv. unfold post_tx.
  rewrite total_insert_all, created_outputs_values; [|done|].
  2:{ intros k Hk. rewrite remove_all_lookup. destruct (Hf k Hk). by case_decide. }
  destruct (is_coinbase tx) eqn:Hcb.
  - unfold is_coinbase, spent_outpoints in *. by destruct (inputs tx).
  - apply validate_tx_ok in Hv as [_ Hdist _ (coins & Hc & _ & E) _]; [|done..].
    rewrite (total_remove_all _ coins); [lia|done|]. by apply Forall2_fmap_l.
Qed.

(** C13. [validate_tx] decides the declarative specification of a spend and returns
    its fee: no output to the burn digest, distinct inputs, every input unspent
    and signed, no overflow, and a fee that is what the coins are worth beyond
    the outputs.  A coinbase transaction is only checked for the burn digest. *)
Theorem validate_tx_spec u tx fee :
  utxo_fits u → Forall output_fits (outputs tx) →
  if is_coinbase tx then
    validate_tx u tx = Ok fee ↔
    fee = 0 ∧ Forall (λ o, pubkey_hash o ≠ Hash_new (as_bytes BURN_ADDRESS)) (outputs tx)
  else validate_tx u tx = Ok fee ↔ valid_spend u tx fee.
Proof.
  intros Hu Ho. destruct (is_coinbase tx) eqn:Hcb; [|by apply validate_tx_ok].
  rewrite <- check_burn_ok. unfold validate_tx. rewrite Hcb, bind_ok.
  split; [intros ([] & ? & [= <-]); done|]. intros [-> ?]. by exists tt.
Qed.

(** C14. [apply_tx] is validation followed by an infallible update: it fails exactly
    when validation fails, with its error and the set untouched, and otherwise
    removes the spent outpoints, inserts the outputs and reports both; the
    total value then changes by the fee, or by the minted outputs. *)
Theorem apply_tx_atomic u tx :
  utxo_fits u → Forall output_fits (outputs tx) → fresh_outputs u tx →
  match validate_tx u tx with
  | Ok fee =>
      apply_tx tx u
        = (Ok {| spent := spent_outpoints tx; created := created_outputs tx |}, post_tx tx u)
      ∧ msum value (utxos (post_tx tx u)) =
          (if is_coinbase tx then msum value (utxos u) + values (outputs tx)
           else msum value (utxos u) - fee)
  | Err e => apply_tx tx u = (Err e, u)
  | Panic _ => False
  end.
Proof.
  intros Hu Ho Hf. rewrite apply_tx_run. destruct (validate_tx u tx) as [fee|e|p] eqn:Hv; [|done|].
  - split; [done|]. by apply total_post_tx.
  - by apply validate_tx_no_panic in Hv.
Qed.

(** C15. [revert_tx] undoes [apply_tx]: given the change set the call returned and
    the coins it spent, the original set is restored exactly. *)
Theorem revert_apply u tx cs u' sm :
  fresh_outputs u tx → apply_tx tx u = (Ok cs, u') →
  (∀ k, k ∈ spent_outpoints tx → sm !! k = utxos u !! k) →
  revert_tx cs sm u' = (Ok tt, u).
Proof.
  intros Hf. rewrite apply_tx_run. destruct (validate_tx u tx) as [fee|e|p] eqn:Hv; [|done..].
  intros [= <- <-] Hsm. apply validate_tx_inputs in Hv as [Hnd Hp].
  apply revert_post_tx; [done..|]. intros k Hk. split; [|by apply Hsm].
  apply list_elem_of_fmap in Hk as (i & -> & Hi). by apply Hp.
Qed.

(** Validation never compares the signing key with the owner of the coin: two
    sets whose coins have the same values but any owners accept the same
    transactions, with the same fees and errors. *)
Theorem validate_tx_ignores_owner u1 u2 tx :
  (∀ k, value <$> utxos u1 !! k = value <$> utxos u2 !! k) →
  validate_tx u1 tx = validate_tx u2 tx ∧ (apply_tx tx u1).1 = (apply_tx tx u2).1.
Proof.
  intros Hv. assert (E : validate_tx u1 tx = validate_tx u2 tx).
  { unfold validate_tx. by rewrite (add_inputs_value_ext u1 u2). }
  split; [done|]. rewrite !apply_tx_run, E. by destruct (validate_tx u2 tx).
Qed.

(** The burn address itself is not rejected: validation compares with the
    digest of the zero address, so outputs to the zero address pass. *)
Theorem validate_tx_accepts_burn_address u tx :
  Hash_new (as_bytes BURN_ADDRESS) ≠ BURN_ADDRESS →
  is_coinbase tx = true → Forall (λ o, pubkey_hash o = BURN_ADDRESS) (outputs tx) →
  validate_tx u tx = Ok 0
  ∧ apply_tx tx u = (Ok {| spent := []; created := created_outputs tx |},
                     insert_all (created_outputs tx) u)
  ∧ verify_non_burn_address BURN_ADDRESS = false.
Proof.
  intros Hb Hcb Ho.
  assert (Hv : validate_tx u tx = Ok 0).
  { unfold validate_tx. rewrite (proj2 (check_burn_ok tx)); cbn; [by rewrite Hcb|].
    eapply Forall_impl; [done|]. cbn. intros o ->. by apply not_eq_sym. }
  split_and!; [done| |by apply bool_decide_eq_false_2; tauto].
  rewrite apply_tx_run, Hv. unfold post_tx, spent_outpoints.
  unfold is_coinbase in Hcb. by destruct (inputs tx).
Qed.
End theorems.

(** ** Examples: one coin of 10, and a transaction that spends it *)
Definition sample_utxo : UtxoSet :=
  {| utxos := {[ (hash_of 1, 0) := {| value := 10; pubkey_hash := hash_of 2 |} ]} |}.
Definition sample_spend : Transaction := sample_tx 5 [sample_input 1 0] [7; 2] 0.

Section witnesses.
#[local] Existing Instance toy_blake3.
#[local] Existing Instance toy_k256.

Lemma sample_utxo_fits : utxo_fits sample_utxo.
Proof. intros k o Hk. unfold sample_utxo in Hk. cbn [utxos] in Hk. apply (lookup_singleton_Some (hash_of 1, 0)) in Hk as [<- <-]. unfold output_fits, fits. cbn. lia. Qed.

Lemma sample_spend_fits : Forall output_fits (outputs sample_spend).
Proof. by repeat constructor. Qed.

Lemma sample_spend_fresh : fresh_outputs sample_utxo sample_spend.
Proof.
  split; [by apply created_outputs_NoDup|].
  intros k [->|[->|[]%not_elem_of_nil]%elem_of_cons]%elem_of_cons; (split; [by vm_compute|]);
    intros [E|[]%not_elem_of_nil]%elem_of_cons; by apply (f_equal (λ k, as_bytes k.1)) in E.
Qed.

Lemma validate_tx_spec_witness : valid_spend sample_utxo sample_spend 1.
Proof.
  apply (validate_tx_spec sample_utxo sample_spend 1 sample_utxo_fits sample_spend_fits).
  vm_compute. reflexivity.
Defined.

Lemma apply_tx_atomic_witness :
  apply_tx sample_spend sample_utxo =
    (Ok {| spent := [(hash_of 1, 0)]; created := created_outputs sample_spend |},
     post_tx sample_spend sample_utxo)
  ∧ msum value (utxos (post_tx sample_spend sample_utxo)) = 9.
Proof.
  pose proof (apply_tx_atomic sample_utxo sample_spend
    sample_utxo_fits sample_spend_fits sample_spend_fresh) as H.
  assert (E : validate_tx sample_utxo sample_spend = Ok 1) by (vm_compute; reflexivity).
  rewrite E in H. destruct H as [H1 H2]. split; [exact H1|]. rewrite H2. reflexivity.
Defined.

Lemma revert_apply_witness :
  revert_tx {| spent := [(hash_of 1, 0)]; created := created_outputs sample_spend |}
    (utxos sample_utxo) (post_tx sample_spend sample_utxo) = (Ok tt, sample_utxo).
Proof.
  apply (revert_apply sample_utxo sample_spend _ _ _ sample_spend_fresh); [|auto].
  vm_compute. reflexivity.
Defined.

(** The coin stolen by a key that does not own it, at the same value. *)
Lemma validate_tx_ignores_owner_witness :
  let u := {| utxos := {[ (hash_of 1, 0) := {| value := 10; pubkey_hash := hash_of 99 |} ]} |} in
  validate_tx u sample_spend = validate_tx sample_utxo sample_spend
  ∧ validate_tx u sample_spend = Ok 1.
Proof.
  cbn zeta. split; [|vm_compute; reflexivity].
  apply validate_tx_ignores_owner. intros k. cbn.
  rewrite !lookup_singleton. by case_decide.
Defined.

Lemma validate_tx_accepts_burn_address_witness :
  let tx := set_id (hash_of 3) {| id := hash_of 3; inputs := [];
    outputs := [{| value := 5; pubkey_hash := BURN_ADDRESS |}]; execution_payload := [];
    contract_address := None; gas_limit := 0; max_fee_per_gas := 0; chain_id := 1;
    locktime := 0 |} in
  validate_tx sample_utxo tx = Ok 0.
Proof.
  cbn zeta. eapply validate_tx_accepts_burn_address; [|reflexivity|by repeat constructor].
  intros E. apply (f_equal as_bytes) in E. vm_compute in E. discriminate E.
Defined.
End witnesses.
