(* ===== verification/Dag.v ===== *)
(** * The block DAG

    [dag/block.rs], [dag/mod.rs] and [dag/anticone.rs]: blocks, the DAG with its
    tips, insertion and removal, and the three graph searches (ancestors,
    descendants, ancestor test).  A [HashSet] that is only sorted, filled or
    tested is a [gset]; where an iteration order reaches the result it is an
    explicit argument. *)

From S2P Require Import Prelude Crypto Errors Transaction.
From Stdlib Require Import Init.Byte.

(** ** Depth-first searches

    The stack is a list whose head is the top of the [Vec]. *)
Section search.
Context (succ : Hash → list Hash).

(** Nodes are marked when popped ([get_ancestors], [is_ancestor]). *)
Fixpoint dfs (fuel : nat) (stack : list Hash) (visited : gset Hash) : gset Hash :=
  match fuel with
  | O => visited
  | S fuel =>
      match stack with
      | [] => visited
      | current :: stack =>
          if bool_decide (current ∈ visited) then dfs fuel stack visited
          else dfs fuel (reverse (succ current) ++ stack) ({[ current ]} ∪ visited)
      end
  end.

(** Nodes are marked when pushed ([get_descendants]). *)
Definition push_new (st : list Hash * gset Hash * list Hash) (child : Hash) :
    list Hash * gset Hash * list Hash :=
  let '(stack, visited, found) := st in
  if bool_decide (child ∈ visited) then st
  else (child :: stack, {[ child ]} ∪ visited, found ++ [child]).

Fixpoint dfs_push (fuel : nat) (st : list Hash * gset Hash * list Hash) :
    list Hash * gset Hash * list Hash :=
  match fuel with
  | O => st
  | S fuel =>
      let '(stack, visited, found) := st in
      match stack with
      | [] => st
      | current :: stack => dfs_push fuel (foldl push_new (stack, visited, found) (succ current))
      end
  end.
End search.

(** ** [dag/block.rs] *)

Record BlockHeader := {
  block_id : Hash;
  parents : gset Hash;
  timestamp : Z;
  difficulty : Z;
  nonce : Z;
  verkle_root : Hash;
  verkle_proofs : option (list byte);
  header_signature : option (list byte)
}.

Record BlockNode := {
  header : BlockHeader;
  children : gset Hash;
  selected_parent : option Hash;
  blue_set : gset Hash;
  red_set : gset Hash;
  blue_score : Z;
  transactions : list Transaction
}.

#[global] Instance BlockHeader_eq_dec : EqDecision BlockHeader.
Proof. solve_decision. Defined.
#[global] Instance BlockNode_eq_dec : EqDecision BlockNode.
Proof. solve_decision. Defined.

Definition set_children (c : gset Hash) (b : BlockNode) : BlockNode :=
  {| header := header b; children := c; selected_parent := selected_parent b;
     blue_set := blue_set b; red_set := red_set b; blue_score := blue_score b;
     transactions := transactions b |}.

Definition set_parents (p : gset Hash) (b : BlockNode) : BlockNode :=
  let h := header b in
  {| header := {| block_id := block_id h; parents := p; timestamp := timestamp h;
                  difficulty := difficulty h; nonce := nonce h;
                  verkle_root := verkle_root h; verkle_proofs := verkle_proofs h;
                  header_signature := header_signature h |};
     children := children b; selected_parent := selected_parent b;
     blue_set := blue_set b; red_set := red_set b; blue_score := blue_score b;
     transactions := transactions b |}.

(** The four GHOSTDAG fields of a block. *)
Definition set_coloring (sp : option Hash) (blue red : gset Hash) (score : Z)
    (b : BlockNode) : BlockNode :=
  {| header := header b; children := children b; selected_parent := sp;
     blue_set := blue; red_set := red; blue_score := score;
     transactions := transactions b |}.

(** ** [dag/mod.rs] *)

Record Dag := { blocks : gmap Hash BlockNode; tips : gset Hash }.

Definition Dag_new : Dag := {| blocks := ∅; tips := ∅ |}.

Definition get_block (self : Dag) (id : Hash) : option BlockNode := blocks self !! id.

Definition get_all_hashes (self : Dag) : list Hash :=
  sort_hashes (elements (dom (blocks self))).

Definition set_blocks (b : gmap Hash BlockNode) (d : Dag) : Dag :=
  {| blocks := b; tips := tips d |}.

(** The updates of [add_block], after its guards. *)
Definition link_block (block : BlockNode) (self : Dag) : Dag :=
  let bid := block_id (header block) in
  let ps := parents (header block) in
  let bs := <[ bid := block ]> (blocks self) in
  let bs := foldl (λ bs parent_hash,
      alter (λ pb, set_children ({[ bid ]} ∪ children pb) pb) parent_hash bs)
    bs (sort_hashes (elements ps)) in
  {| blocks := bs; tips := {[ bid ]} ∪ (tips self ∖ ps) |}.

Definition add_block (block : BlockNode) : method Dag CoreError unit :=
  let bid := block_id (header block) in
  let ps := parents (header block) in
  self ← get;
  if bool_decide (is_Some (blocks self !! bid)) then throw DuplicateBlock
  else if bool_decide (bid ∈ ps) then
    throw (ConsensusError "Block cannot reference itself as parent")
  else if bool_decide (ps = ∅) && negb (bool_decide (blocks self = ∅)) then
    throw (ConsensusError "Genesis block already exists")
  else if negb (forallb (λ p, bool_decide (is_Some (blocks self !! p))) (elements ps)) then
    throw InvalidParent
  else modify (link_block block).

Definition get_tips (self : Dag) : list Hash := sort_hashes (elements (tips self)).

Definition sorted_parents (self : Dag) (c : Hash) : list Hash :=
  match blocks self !! c with
  | Some b => sort_hashes (elements (parents (header b)))
  | None => []
  end.

Definition sorted_children (self : Dag) (c : Hash) : list Hash :=
  match blocks self !! c with
  | Some b => sort_hashes (elements (children b))
  | None => []
  end.

(** Fuel: one more than the number of parent (child) links. *)
Definition edge_count (succ : Hash → list Hash) (self : Dag) : nat :=
  S (sum_list_with (length ∘ succ) (elements (dom (blocks self)))).

(** [while let Some(current) = stack.pop()] with an early [return true]. *)
Fixpoint is_ancestor_loop (self : Dag) (a : Hash) (fuel : nat) (stack : list Hash)
    (visited : gset Hash) : bool :=
  match fuel with
  | O => false
  | S fuel =>
      match stack with
      | [] => false
      | current :: stack =>
          if bool_decide (current ∈ visited) then is_ancestor_loop self a fuel stack visited
          else if bool_decide (a ∈ sorted_parents self current) then true
          else is_ancestor_loop self a fuel (reverse (sorted_parents self current) ++ stack)
                 ({[ current ]} ∪ visited)
      end
  end.

Definition is_ancestor (self : Dag) (a b : Hash) : bool :=
  if bool_decide (a = b) then false
  else is_ancestor_loop self a (edge_count (sorted_parents self) self) [b] ∅.

(** The set the [ancestors.insert(parent)] of the loop fill: the parents of the
    visited nodes. *)
Definition parents_of (self : Dag) (visited : gset Hash) : gset Hash :=
  set_fold (λ c acc, list_to_set (sorted_parents self c) ∪ acc) ∅ visited.

Definition get_ancestors (self : Dag) (id : Hash) : list Hash :=
  let visited := dfs (sorted_parents self) (edge_count (sorted_parents self) self) [id] ∅ in
  sort_hashes (elements (parents_of self visited)).

Definition get_descendants (self : Dag) (id : Hash) : list Hash :=
  let '(_, _, descendants) :=
    dfs_push (sorted_children self) (edge_count (sorted_children self) self)
      ([id], {[ id ]}, []) in
  sort_hashes descendants.

(** [dag/anticone.rs] *)
Definition get_anticone (self : Dag) (id : Hash) : list Hash :=
  let ancestors : gset Hash := list_to_set (get_ancestors self id) in
  let descendants : gset Hash := list_to_set (get_descendants self id) in
  filter (λ hash, hash ≠ id ∧ hash ∉ ancestors ∧ hash ∉ descendants) (get_all_hashes self).

(** One turn of the maximum search of [find_common_ancestor]. *)
Definition lca_step (self : Dag) (acc : Z * option Hash) (hash : Hash) : Z * option Hash :=
  match blocks self !! hash with
  | Some block =>
      if acc.1 <? blue_score block then (blue_score block, Some hash) else acc
  | None => acc
  end.

(** [order] is the iteration order of the [HashSet]. *)
Definition find_common_ancestor (order : gset Hash → list Hash) (self : Dag) (a b : Hash) :
    option Hash :=
  if bool_decide (a = b) then Some a else
  let set_a : gset Hash := {[ a ]} ∪ list_to_set (get_ancestors self a) in
  let set_b : gset Hash := {[ b ]} ∪ list_to_set (get_ancestors self b) in
  let intersection := set_a ∩ set_b in
  if bool_decide (intersection = ∅) then None
  else (foldl (lca_step self) (0, None) (order intersection)).2.

Definition block_exists (self : Dag) (id : Hash) : bool := bool_decide (is_Some (blocks self !! id)).
Definition get_block_count (self : Dag) : nat := size (blocks self).

Definition remove_block (id : Hash) (self : Dag) : Dag :=
  match blocks self !! id with
  | Some block =>
      let bs := delete id (blocks self) in
      let tips' := tips self ∖ {[ id ]} in
      let bs := foldl (λ bs parent, alter (λ pb, set_children (children pb ∖ {[ id ]}) pb) parent bs)
                  bs (elements (parents (header block))) in
      let bs := foldl (λ bs child,
                  alter (λ cb, set_parents (parents (header cb) ∖ {[ id ]}) cb) child bs)
                  bs (elements (children block)) in
      {| blocks := bs; tips := tips' |}
  | None => self
  end.

(** ** The searches compute reachability *)

Lemma size_list_to_set_le (l : list Hash) : (size (list_to_set l : gset Hash) ≤ length l)%nat.
Proof.
  induction l as [|x l IH]; cbn; [by rewrite size_empty|].
  rewrite size_union_alt, size_singleton.
  apply le_n_S. etrans; [|exact IH]. apply subseteq_size. set_solver.
Qed.

Section search_lemmas.
Context (succ : Hash → list Hash) (U : gset Hash).
Context (Hsupp : ∀ c, c ∉ U → succ c = []).

Definition edge (x y : Hash) : Prop := y ∈ succ x.

(** The links out of a set of nodes. *)
Definition degree (X : gset Hash) : nat := sum_list_with (length ∘ succ) (elements X).

Lemma degree_remove c X :
  c ∈ X → degree X = (length (succ c) + degree (X ∖ {[ c ]}))%nat.
Proof.
  intros Hc. unfold degree.
  rewrite (union_difference_singleton_L c X) at 1 by done.
  by rewrite elements_union_singleton by set_solver.
Qed.

(** One more visited node pays for its links. *)
Lemma degree_visit c visited :
  c ∉ visited →
  degree (U ∖ visited) = (length (succ c) + degree (U ∖ ({[ c ]} ∪ visited)))%nat.
Proof.
  intros Hc. destruct (decide (c ∈ U)) as [Hu|Hu].
  - rewrite (degree_remove c) by set_solver. do 2 f_equal. set_solver.
  - rewrite (Hsupp c Hu). cbn. f_equal. set_solver.
Qed.

Lemma dfs_sound fuel stack visited x :
  x ∈ dfs succ fuel stack visited → x ∈ visited ∨ ∃ s, s ∈ stack ∧ rtc edge s x.
Proof.
  revert stack visited; induction fuel as [|fuel IH]; intros stack visited; cbn; [by left|].
  destruct stack as [|c stack]; [by left|]. case_bool_decide as Hc.
  - intros [?|(s & Hs & Hx)]%IH; [by left|right]. exists s. split; [by right|done].
  - intros [Hx|(s & Hs & Hx)]%IH.
    + apply elem_of_union in Hx as [->%elem_of_singleton|?]; [right|by left].
      exists c. split; [by left|done].
    + right. apply elem_of_app in Hs as [Hs|Hs].
      * exists c. split; [by left|]. apply (rtc_l _ _ s); [|done]. by rewrite elem_of_reverse in Hs.
      * exists s. split; [by right|done].
Qed.

Lemma dfs_closed fuel stack visited :
  (length stack + degree (U ∖ visited) ≤ fuel)%nat →
  (∀ c y, c ∈ visited → edge c y → y ∈ visited ∨ y ∈ stack) →
  let r := dfs succ fuel stack visited in
  (∀ c, c ∈ visited ∨ c ∈ stack → c ∈ r) ∧ (∀ c y, c ∈ r → edge c y → y ∈ r).
Proof.
  revert stack visited; induction fuel as [|fuel IH]; intros stack visited Hf Hi; cbn.
  - assert (stack = []) as -> by (destruct stack; [done|cbn in Hf; lia]).
    split; [by intros c [?|?%not_elem_of_nil]|].
    intros c y Hc Hy. by destruct (Hi c y Hc Hy) as [?|?%not_elem_of_nil].
  - destruct stack as [|c stack].
    { split; [by intros c [?|?%not_elem_of_nil]|].
      intros c y Hc Hy. by destruct (Hi c y Hc Hy) as [?|?%not_elem_of_nil]. }
    case_bool_decide as Hc; cbn in Hf.
    + destruct (IH stack visited) as [H1 H2]; [lia| |].
      { intros a y Ha Hy. destruct (Hi a y Ha Hy) as [?|[->|?]%elem_of_cons]; auto. }
      split; [|done]. intros a [Ha|[->|Ha]%elem_of_cons]; apply H1; auto.
    + rewrite (degree_visit c) in Hf by done.
      destruct (IH (reverse (succ c) ++ stack) ({[ c ]} ∪ visited)) as [H1 H2].
      { rewrite length_app, length_reverse. lia. }
      { intros a y Ha Hy. setoid_rewrite elem_of_app. setoid_rewrite elem_of_reverse.
        apply elem_of_union in Ha as [->%elem_of_singleton|Ha]; [by right; left|].
        destruct (Hi a y Ha Hy) as [?|[->|?]%elem_of_cons]; set_solver. }
      split; [|done]. intros a Ha. apply H1. rewrite elem_of_app, elem_of_union.
      destruct Ha as [Ha|[->|Ha]%elem_of_cons]; set_solver.
Qed.

(** Enough fuel: the search from [a] marks exactly what [a] reaches. *)
Lemma dfs_reach fuel a x :
  (S (degree U) ≤ fuel)%nat → x ∈ dfs succ fuel [a] ∅ ↔ rtc edge a x.
Proof.
  intros Hf. destruct (dfs_closed fuel [a] ∅) as [H1 H2].
  { cbn. replace (U ∖ ∅) with U by set_solver. lia. }
  { set_solver. }
  split.
  - intros [?|(s & ->%list_elem_of_singleton & Hx)]%dfs_sound; [set_solver|done].
  - intros Hr. assert (Ha : a ∈ dfs succ fuel [a] ∅) by (apply H1; right; left).
    clear H1. revert H2 Ha. generalize (dfs succ fuel [a] ∅). intros r H2 Ha.
    induction Hr as [|b c d Hbc _ IH]; [done|]. apply IH. by eapply H2.
Qed.

(** Pushing the unvisited children. *)
Lemma push_all l stack visited found :
  ∃ news, NoDup news ∧ (∀ x, x ∈ news ↔ x ∈ l ∧ x ∉ visited)
  ∧ foldl push_new (stack, visited, found) l
    = (reverse news ++ stack, list_to_set news ∪ visited, found ++ news).
Proof.
  revert stack visited found; induction l as [|x l IH]; intros stack visited found; cbn.
  - exists []. split_and!; [constructor|set_solver|].
    cbn. by rewrite (left_id_L ∅ (∪)), app_nil_r.
  - case_bool_decide as Hx.
    + destruct (IH stack visited found) as (news & Hnd & Hin & ->).
      exists news. split_and!; [done| |done]. intros y. rewrite Hin, elem_of_cons. naive_solver.
    + destruct (IH (x :: stack) ({[ x ]} ∪ visited) (found ++ [x])) as (news & Hnd & Hin & ->).
      exists (x :: news). split_and!.
      * apply NoDup_cons. split; [|done]. rewrite Hin, elem_of_union, elem_of_singleton. tauto.
      * intros y. rewrite !elem_of_cons, Hin, elem_of_union, elem_of_singleton.
        destruct (decide (y = x)) as [->|]; naive_solver.
      * rewrite reverse_cons, <- !(assoc_L (++)). cbn. do 2 f_equal. set_solver.
Qed.

(** All links lead into [targets]. *)
Definition targets : gset Hash := ⋃ ((λ c, list_to_set (succ c)) <$> elements U).

Lemma elem_of_targets c y : edge c y → y ∈ targets.
Proof.
  intros Hy. unfold targets. rewrite elem_of_union_list. exists (list_to_set (succ c)).
  rewrite elem_of_list_to_set. split; [|done].
  apply (list_elem_of_fmap_2 (λ c, list_to_set (succ c))), elem_of_elements.
  destruct (decide (c ∈ U)) as [|Hc]; [done|]. unfold edge in Hy.
  rewrite (Hsupp c Hc) in Hy. by apply not_elem_of_nil in Hy.
Qed.

Lemma size_targets : (size targets ≤ degree U)%nat.
Proof.
  unfold targets, degree. induction (elements U) as [|c l IH]; cbn; [done|].
  rewrite size_union_alt. apply Nat.add_le_mono; [apply size_list_to_set_le|].
  etrans; [|exact IH]. apply subseteq_size. set_solver.
Qed.

Lemma dfs_push_spec a fuel stack visited found :
  (length stack + size (targets ∖ visited) ≤ fuel)%nat →
  NoDup found → a ∉ found → visited = {[ a ]} ∪ list_to_set found →
  (∀ c, c ∈ stack → c ∈ visited) →
  (∀ c, c ∈ visited → rtc edge a c) →
  (∀ c y, c ∈ visited → c ∉ stack → edge c y → y ∈ visited) →
  let '(_, _, r) := dfs_push succ fuel (stack, visited, found) in
  NoDup r ∧ ∀ x, x ∈ r ↔ x ≠ a ∧ rtc edge a x.
Proof.
  revert stack visited found; induction fuel as [|fuel IH];
    intros stack visited found Hf Hnd Ha Hv Hs Hr Hc; cbn.
  all: assert (Hend : stack = [] → ∀ x, x ∈ found ↔ x ≠ a ∧ rtc edge a x).
  1,3: intros -> x; split; [intros Hx; split; [congruence|apply Hr; set_solver]|];
    intros [Hxa Hax]; enough (x ∈ visited) by set_solver; clear Hxa;
    assert (Hav : a ∈ visited) by set_solver; clear -Hax Hav Hc;
    induction Hax as [|b c d Hbc _ IH]; [done|]; apply IH; eapply Hc; [done|set_solver|done].
  { split; [done|]. apply Hend. destruct stack; [done|cbn in Hf; lia]. }
  destruct stack as [|c stack]; [split; [done|by apply Hend]|clear Hend].
  destruct (push_all (succ c) stack visited found) as (news & Hnn & Hin & ->).
  assert (Hsz : (size (targets ∖ (list_to_set news ∪ visited)) + length news
                 = size (targets ∖ visited))%nat).
  { rewrite <- (size_list_to_set (C:=gset Hash) news) by done.
    rewrite Nat.add_comm, <- size_union by set_solver. f_equal.
    assert ((list_to_set news : gset Hash) ⊆ targets ∖ visited).
    { intros y [Hy Hyv]%elem_of_list_to_set%Hin.
      apply elem_of_difference. split; [by apply (elem_of_targets c)|done]. }
    apply set_eq. intros y. destruct (decide (y ∈ (list_to_set news : gset Hash))); set_solver. }
  apply IH.
  - rewrite length_app, length_reverse. cbn in Hf. lia.
  - apply NoDup_app. split_and!; [done| |done]. intros x Hx [_ Hn]%Hin. set_solver.
  - rewrite elem_of_app. intros [?|[_ Hn]%Hin]; [done|]. set_solver.
  - rewrite list_to_set_app_L. set_solver.
  - intros x. rewrite elem_of_app, elem_of_reverse, elem_of_union, elem_of_list_to_set.
    intros [?|?]; [by left|right]. apply Hs. by right.
  - intros x [[Hx _]%elem_of_list_to_set%Hin|Hx]%elem_of_union; [|by apply Hr].
    eapply rtc_r; [|exact Hx]. apply Hr, Hs. by left.
  - intros x y Hx Hxs Hxy. rewrite elem_of_app, elem_of_reverse in Hxs.
    apply elem_of_union in Hx as [?%elem_of_list_to_set|Hx]; [tauto|].
    rewrite elem_of_union, elem_of_list_to_set. destruct (decide (x = c)) as [->|Hxc].
    + destruct (decide (y ∈ visited)); [by right|left]. by apply Hin.
    + right. eapply (Hc x); [done| |done]. rewrite elem_of_cons. tauto.
Qed.
End search_lemmas.

(** ** Links *)

(** [p] is a parent of [c]; [c] is listed as a child of [p]. *)
Definition parent (d : Dag) (c p : Hash) : Prop :=
  ∃ b, blocks d !! c = Some b ∧ p ∈ parents (header b).
Definition child (d : Dag) (p c : Hash) : Prop :=
  ∃ b, blocks d !! p = Some b ∧ c ∈ children b.

(** [a] is a proper ancestor of [b]. *)
Definition ancestor (d : Dag) (a b : Hash) : Prop := tc (parent d) b a.

Lemma elem_of_sorted_parents d c p : p ∈ sorted_parents d c ↔ parent d c p.
Proof.
  unfold sorted_parents, parent. destruct (blocks d !! c) as [b|].
  - unfold sort_hashes. rewrite elem_of_sort_by, elem_of_elements. naive_solver.
  - rewrite elem_of_nil. naive_solver.
Qed.

Lemma elem_of_sorted_children d c p : p ∈ sorted_children d c ↔ child d c p.
Proof.
  unfold sorted_children, child. destruct (blocks d !! c) as [b|].
  - unfold sort_hashes. rewrite elem_of_sort_by, elem_of_elements. naive_solver.
  - rewrite elem_of_nil. naive_solver.
Qed.

Lemma sorted_parents_support d c : c ∉ dom (blocks d) → sorted_parents d c = [].
Proof. unfold sorted_parents. by intros ->%not_elem_of_dom. Qed.

Lemma sorted_children_support d c : c ∉ dom (blocks d) → sorted_children d c = [].
Proof. unfold sorted_children. by intros ->%not_elem_of_dom. Qed.

Lemma rtc_iff {A} (R S : A → A → Prop) x y :
  (∀ x y, R x y ↔ S x y) → rtc R x y ↔ rtc S x y.
Proof. intros HRS. split; apply rtc_subrel; intros ??; apply HRS. Qed.

Lemma rtc_tc_split {A} (R : A → A → Prop) x y :
  x ≠ y → rtc R x y ↔ tc R x y.
Proof.
  intros Hne. split; [|apply tc_rtc].
  destruct 1 as [|x z y Hxz Hzy]; [done|]. by eapply tc_rtc_r; [apply tc_once|].
Qed.

Section search_specs.
Context (d : Dag).

Lemma ancestors_visited id x :
  x ∈ dfs (sorted_parents d) (edge_count (sorted_parents d) d) [id] ∅ ↔ rtc (parent d) id x.
Proof.
  rewrite (dfs_reach _ (dom (blocks d)) (sorted_parents_support d)) by done.
  apply rtc_iff. intros. apply elem_of_sorted_parents.
Qed.

Lemma elem_of_parents_of visited x :
  x ∈ parents_of d visited ↔ ∃ c, c ∈ visited ∧ parent d c x.
Proof.
  unfold parents_of. apply (set_fold_ind_L (λ r V, x ∈ r ↔ ∃ c, c ∈ V ∧ parent d c x)).
  - split; [set_solver|]. intros (c & Hc & _). set_solver.
  - intros c V r Hc IH. rewrite elem_of_union, elem_of_list_to_set, elem_of_sorted_parents, IH.
    split.
    + intros [?|(y & ? & ?)]; [exists c|exists y]; set_solver.
    + intros (y & [->%elem_of_singleton|?]%elem_of_union & ?); [by left|right; eauto].
Qed.

Lemma elem_of_get_ancestors id x : x ∈ get_ancestors d id ↔ ancestor d x id.
Proof.
  unfold get_ancestors, ancestor, sort_hashes.
  rewrite elem_of_sort_by, elem_of_elements, elem_of_parents_of, tc_rtc_split.
  by setoid_rewrite ancestors_visited.
Qed.

Lemma elem_of_get_descendants id x :
  x ∈ get_descendants d id ↔ x ≠ id ∧ rtc (child d) id x.
Proof.
  unfold get_descendants.
  pose proof (dfs_push_spec (sorted_children d) (dom (blocks d))
    (sorted_children_support d) id (edge_count (sorted_children d) d) [id] {[ id ]} []) as Hs.
  destruct (dfs_push _ _ _) as [[stack visited] r]. unfold sort_hashes. rewrite elem_of_sort_by.
  destruct Hs as [_ Hs].
  - unfold edge_count. cbn [length]. apply le_n_S.
    etrans; [|by apply size_targets, sorted_children_support]. apply subseteq_size. set_solver.
  - constructor.
  - apply not_elem_of_nil.
  - set_solver.
  - intros c. set_solver.
  - intros c ->%elem_of_singleton. apply rtc_refl.
  - intros c y Hc Hn. set_solver.
  - rewrite Hs. apply and_iff_compat_l. apply rtc_iff. intros. apply elem_of_sorted_children.
Qed.
End search_specs.

Section ancestor_test.
Context (d : Dag).

(** The early exit of [is_ancestor] is the search of [dfs] cut short. *)
Lemma is_ancestor_loop_true a fuel stack visited :
  is_ancestor_loop d a fuel stack visited = true →
  ∃ s, s ∈ stack ∧ ancestor d a s.
Proof.
  revert stack visited; induction fuel as [|fuel IH]; intros stack visited; cbn; [done|].
  destruct stack as [|c stack]; [done|]. case_bool_decide as Hc.
  { intros (s & ? & ?)%IH. exists s. split; [by right|done]. }
  case_bool_decide as Ha.
  - intros _. exists c. split; [by left|]. by apply tc_once, elem_of_sorted_parents.
  - intros (s & Hs & Hx)%IH. apply elem_of_app in Hs as [Hs|Hs].
    + exists c. split; [by left|]. eapply tc_l; [|done].
      rewrite elem_of_reverse in Hs. by apply elem_of_sorted_parents.
    + exists s. split; [by right|done].
Qed.

Lemma is_ancestor_loop_false a fuel stack visited :
  is_ancestor_loop d a fuel stack visited = false →
  (length stack + degree (sorted_parents d) (dom (blocks d) ∖ visited) ≤ fuel)%nat →
  (∀ c, c ∈ visited → ¬ parent d c a) →
  ∀ c, c ∈ dfs (sorted_parents d) fuel stack visited → ¬ parent d c a.
Proof.
  revert stack visited; induction fuel as [|fuel IH]; intros stack visited; cbn; [auto|].
  destruct stack as [|c stack]; [auto|]. case_bool_decide as Hc.
  { cbn. intros ? Hf Hv. apply IH; [done|lia|done]. }
  case_bool_decide as Ha; [done|]. cbn. intros Hl Hf Hv.
  rewrite (degree_visit _ _ (sorted_parents_support d) c) in Hf by done.
  apply IH; [done|rewrite length_app, length_reverse; lia|].
  intros y [->%elem_of_singleton|Hy]%elem_of_union; [|by apply Hv].
  by rewrite <- elem_of_sorted_parents.
Qed.

Lemma is_ancestor_iff a b : is_ancestor d a b = true ↔ a ≠ b ∧ ancestor d a b.
Proof.
  unfold is_ancestor. case_bool_decide as Hab; [naive_solver|].
  destruct (is_ancestor_loop _ _ _ _ _) eqn:E.
  - apply is_ancestor_loop_true in E as (s & ->%list_elem_of_singleton & ?). naive_solver.
  - split; [done|]. intros [_ (c & Hbc & Hca)%tc_rtc_split].
    eapply is_ancestor_loop_false in E; [by destruct E| | |].
    + unfold edge_count. cbn [length]. apply le_n_S.
      unfold degree. by rewrite difference_empty_L.
    + set_solver.
    + by apply ancestors_visited.
Qed.
End ancestor_test.

(** ** Well-formed DAGs *)
Record dag_wf (d : Dag) : Prop := {
  wf_key : ∀ h b, blocks d !! h = Some b → block_id (header b) = h;
  wf_closed : ∀ c p, parent d c p → is_Some (blocks d !! p);
  wf_dual : ∀ p c, child d p c ↔ parent d c p;
  wf_tips : ∀ h, h ∈ tips d ↔ ∃ b, blocks d !! h = Some b ∧ children b = ∅;
  wf_acyclic : well_founded (λ p c, parent d c p);
  wf_genesis : ∀ h b h' b', blocks d !! h = Some b → blocks d !! h' = Some b' →
    parents (header b) = ∅ → parents (header b') = ∅ → h = h'
}.

Lemma Dag_new_wf : dag_wf Dag_new.
Proof.
  split; cbn; unfold parent, child; cbn; try setoid_rewrite lookup_empty; try naive_solver.
  - intros h. split; [set_solver|naive_solver].
  - intros h. constructor. intros p (b & Hb & _). by rewrite lookup_empty in Hb.
Qed.

Lemma wf_no_cycle d h : dag_wf d → ¬ ancestor d h h.
Proof.
  intros Hwf Hh. unfold ancestor in Hh.
  induction (wf_acyclic d Hwf h) as [h _ IH].
  assert (∃ p, parent d h p ∧ rtc (parent d) p h) as (p & Hp & Hph).
  { inversion Hh; subst; eexists; (split; [done|]); [apply rtc_refl|by apply tc_rtc]. }
  apply (IH p Hp). eapply tc_rtc_l; [done|by apply tc_once].
Qed.

Lemma rtc_child_parent d a x : dag_wf d → rtc (child d) a x ↔ rtc (parent d) x a.
Proof.
  intros Hwf. split.
  - induction 1 as [|x y z Hxy _ IH]; [done|]. eapply rtc_r; [done|]. by apply (wf_dual d Hwf).
  - induction 1 as [|x y z Hxy _ IH]; [done|]. eapply rtc_r; [done|]. by apply (wf_dual d Hwf).
Qed.

(** ** Insertion *)
Section insertion.
Context (d : Dag) (block : BlockNode) (Hwf : dag_wf d).
#[local] Notation bid := (block_id (header block)).
#[local] Notation ps := (parents (header block)).
Context (Hnew : blocks d !! bid = None).
Context (Hself : bid ∉ ps).
Context (Hps : ∀ p, p ∈ ps → is_Some (blocks d !! p)).
Context (Hchild : children block = ∅).

Definition adopt (b : BlockNode) : BlockNode := set_children ({[ bid ]} ∪ children b) b.

Lemma link_lookup h :
  blocks (link_block block d) !! h =
    (if decide (h = bid) then Some block
     else if decide (h ∈ ps) then adopt <$> blocks d !! h else blocks d !! h).
Proof.
  unfold link_block. cbn. rewrite foldl_alter_lookup.
  - unfold sort_hashes. destruct (decide (h = bid)) as [->|Hh].
    + rewrite decide_False; [by rewrite lookup_insert_eq|].
      by rewrite elem_of_sort_by, elem_of_elements.
    + rewrite lookup_insert_ne by done. destruct (decide (h ∈ ps)) as [Hp|Hp].
      * by rewrite decide_True by by apply elem_of_sort_by, elem_of_elements.
      * rewrite decide_False; [done|]. by rewrite elem_of_sort_by, elem_of_elements.
  - apply NoDup_sort_hashes, NoDup_elements.
Qed.

Lemma link_parent c p :
  parent (link_block block d) c p ↔ (c = bid ∧ p ∈ ps) ∨ parent d c p.
Proof.
  unfold parent. rewrite link_lookup. destruct (decide (c = bid)) as [->|Hc].
  - rewrite Hnew.  naive_solver.
  - destruct (decide (c ∈ ps)) as [Hp|Hp]; [|naive_solver].
    destruct (Hps c Hp) as [b Hb]. rewrite Hb. cbn.  naive_solver.
Qed.

Lemma link_child p c :
  child (link_block block d) p c ↔ (c = bid ∧ p ∈ ps) ∨ child d p c.
Proof.
  unfold child. rewrite link_lookup. destruct (decide (p = bid)) as [->|Hp].
  - rewrite Hnew. split; [|naive_solver].
    intros (b & [= <-] & Hc). rewrite Hchild in Hc. set_solver.
  - destruct (decide (p ∈ ps)) as [Hpp|Hpp]; [|naive_solver].
    destruct (Hps p Hpp) as [b Hb]. rewrite Hb. cbn. split.
    + intros (b' & [= <-] & Hc). cbn in Hc. set_solver.
    + intros [[-> _]|(b' & [= <-] & Hc)]; (eexists; split; [done|]); cbn; set_solver.
Qed.

Lemma link_tips h :
  h ∈ tips (link_block block d) ↔
  ∃ b, blocks (link_block block d) !! h = Some b ∧ children b = ∅.
Proof.
  rewrite link_lookup. cbn.
  rewrite elem_of_union, elem_of_singleton, elem_of_difference, (wf_tips d Hwf).
  destruct (decide (h = bid)) as [->|Hh]; [naive_solver|].
  destruct (decide (h ∈ ps)) as [Hp|Hp]; [|naive_solver].
  split; [naive_solver|]. intros (b & Hb & Hc). exfalso.
  destruct (blocks d !! h) as [b0|]; [|done]. injection Hb as <-. unfold adopt in Hc. cbn in Hc. set_solver.
Qed.

Lemma link_parent_dom c p : parent d c p → is_Some (blocks d !! c).
Proof. intros (b & -> & _). by eexists. Qed.

Lemma link_acyclic : well_founded (λ p c, parent (link_block block d) c p).
Proof.
  assert (Hold : ∀ h, h ≠ bid → Acc (λ p c, parent (link_block block d) c p) h).
  { intros h. induction (wf_acyclic d Hwf h) as [h _ IH]. intros Hh. constructor.
    intros p [[? _]|Hp]%link_parent; [done|]. apply IH; [done|]. intros ->.
    apply (wf_closed d Hwf) in Hp. rewrite Hnew in Hp. by destruct Hp. }
  intros h. destruct (decide (h = bid)) as [->|Hh]; [|by apply Hold].
  constructor. intros p [[_ Hp]|Hp]%link_parent; apply Hold.
  - intros ->. by apply Hself.
  - intros ->. apply (wf_closed d Hwf) in Hp. rewrite Hnew in Hp. by destruct Hp.
Qed.

Lemma link_block_wf :
  (ps = ∅ → blocks d = ∅) → dag_wf (link_block block d).
Proof.
  intros Hgen. split.
  - intros h b. rewrite link_lookup. destruct (decide (h = bid)) as [->|Hh]; [by intros [= <-]|].
    destruct (decide (h ∈ ps)); [|apply (wf_key d Hwf)].
    intros (b0 & Hb & ->)%fmap_Some. by apply (wf_key d Hwf) in Hb.
  - intros c p Hp. rewrite link_lookup. destruct (decide (p = bid)); [by eexists|].
    apply link_parent in Hp as [[_ Hp]|Hp].
    + rewrite decide_True by done. by apply fmap_is_Some, Hps.
    + destruct (decide (p ∈ ps)); [apply fmap_is_Some|]; by apply (wf_closed d Hwf c).
  - intros p c. by rewrite link_child, link_parent, (wf_dual d Hwf).
  - apply link_tips.
  - apply link_acyclic.
  - assert (Hroot : ∀ h b, blocks (link_block block d) !! h = Some b → parents (header b) = ∅ →
      (h = bid ∧ blocks d = ∅) ∨ ∃ b0, blocks d !! h = Some b0 ∧ parents (header b0) = ∅).
    { intros h b. rewrite link_lookup. destruct (decide (h = bid)) as [->|_].
      - intros [= <-] ?. left. auto.
      - destruct (decide (h ∈ ps)); [|eauto].
        intros (b0 & ? & ->)%fmap_Some ?. right. by exists b0. }
    intros h b h' b' Hb Hb' Hr Hr'.
    destruct (Hroot _ _ Hb Hr) as [[-> He]|(b0 & H0 & ?)],
      (Hroot _ _ Hb' Hr') as [[-> He']|(b1 & H1 & ?)]; [done| | |].
    + rewrite He in H1. by rewrite lookup_empty in H1.
    + rewrite He' in H0. by rewrite lookup_empty in H0.
    + by eapply (wf_genesis d Hwf).
Qed.

(** The new block's ancestors are its parents and theirs; no other block gains one. *)
Lemma link_ancestor_old a h : h ≠ bid → ancestor (link_block block d) a h ↔ ancestor d a h.
Proof.
  intros Hh. unfold ancestor. split.
  - induction 1 as [h a [[? _]|Hp]%link_parent|h z a [[? _]|Hp]%link_parent _ IH]; try done.
    + by apply tc_once.
    + eapply tc_l; [done|]. apply IH. intros ->.
      apply (wf_closed d Hwf) in Hp. rewrite Hnew in Hp. by destruct Hp.
  - clear Hh. induction 1 as [h a Hp|h z a Hp _ IH];
      [apply tc_once|eapply tc_l; [|done]]; apply link_parent; by right.
Qed.

Lemma link_ancestor a :
  ancestor (link_block block d) a bid ↔ ∃ p, p ∈ ps ∧ (a = p ∨ ancestor d a p).
Proof.
  assert (Hb : ∀ p, parent (link_block block d) bid p ↔ p ∈ ps).
  { intros p. rewrite link_parent. split; [|by left].
    intros [[_ ?]|(b & Hc & _)]; [done|]. by rewrite Hnew in Hc. }
  split.
  - intros Ha. inversion Ha as [? ? H1|? p ? H1 H2]; subst; apply Hb in H1.
    + exists a. by split; [|left].
    + exists p. split; [done|]. right. apply link_ancestor_old; [|done]. by intros ->.
  - intros (p & Hp & [->|Ha]); [by apply tc_once, Hb|].
    eapply tc_l; [by apply Hb|]. apply link_ancestor_old; [|done]. by intros ->.
Qed.
End insertion.

(** The guards of [add_block]. *)
Lemma add_block_ok block d d' :
  add_block block d = (Ok tt, d') ↔
  d' = link_block block d ∧
  blocks d !! block_id (header block) = None ∧
  block_id (header block) ∉ parents (header block) ∧
  (parents (header block) = ∅ → blocks d = ∅) ∧
  (∀ p, p ∈ parents (header block) → is_Some (blocks d !! p)).
Proof.
  unfold add_block. cbn. unfold mbind, method_bind, get, throw, modify.
  case_bool_decide as H1.
  { split; [done|]. intros (_ & Hn & _). rewrite Hn in H1. by destruct H1. }
  apply eq_None_not_Some in H1.
  case_bool_decide as H2; [naive_solver|].
  destruct (bool_decide (parents (header block) = ∅) && negb (bool_decide (blocks d = ∅))) eqn:E3.
  { apply andb_true_iff in E3 as [He Hn]. apply bool_decide_eq_true in He.
    apply negb_true_iff, bool_decide_eq_false in Hn. naive_solver. }
  assert (H3 : parents (header block) = ∅ → blocks d = ∅).
  { intros He. apply dec_stable. intros Hn.
    by rewrite (bool_decide_eq_true_2 _ He), (bool_decide_eq_false_2 _ Hn) in E3. }
  destruct (forallb _ _) eqn:E4; cbn.
  - apply forallb_bool_decide in E4. rewrite Forall_forall in E4.
    split; [|intros (-> & _); done]. intros [= <-]. split_and!; try done.
    intros p Hp. by apply E4, elem_of_elements.
  - split; [done|]. intros (_ & _ & _ & _ & Hp). exfalso. apply not_true_iff_false in E4.
    apply E4, forallb_bool_decide, Forall_forall. intros p. rewrite elem_of_elements. apply Hp.
Qed.

Lemma add_block_failed block d r d' : add_block block d = (r, d') → r ≠ Ok tt → d' = d.
Proof.
  unfold add_block. cbn. unfold mbind, method_bind, get, throw, modify.
  repeat case_match; naive_solver.
Qed.

(** ** Removal *)
Section removal.
Context (d : Dag) (id : Hash) (block : BlockNode) (Hwf : dag_wf d).
Context (Hid : blocks d !! id = Some block).

Lemma remove_lookup h :
  blocks (remove_block id d) !! h =
    (if decide (h = id) then None else
     (λ b, set_parents (parents (header b) ∖ {[ id ]}) (set_children (children b ∖ {[ id ]}) b))
       <$> blocks d !! h).
Proof.
  unfold remove_block. rewrite Hid. cbn. rewrite !foldl_alter_lookup by apply NoDup_elements.
  destruct (decide (h = id)) as [->|Hh].
  { rewrite lookup_delete_eq. by repeat case_match. }
  rewrite lookup_delete_ne by done. destruct (blocks d !! h) as [b|] eqn:Hb; [|by repeat case_match].
  assert (Hsc : h ∉ parents (header block) → children b ∖ {[ id ]} = children b).
  { intros Hn. enough (id ∉ children b) by set_solver. intros Hc. apply Hn.
    destruct (proj1 (wf_dual d Hwf h id)) as (b' & E & ?); [by exists b|]. congruence. }
  assert (Hsp : h ∉ children block → parents (header b) ∖ {[ id ]} = parents (header b)).
  { intros Hn. enough (id ∉ parents (header b)) by set_solver. intros Hc. apply Hn.
    destruct (proj2 (wf_dual d Hwf id h)) as (b' & E & ?); [by exists b|]. congruence. }
  assert (Hc1 : ∀ c, set_children (children c) c = c) by by intros [].
  assert (Hp1 : ∀ c, set_parents (parents (header c)) c = c) by by intros [[] ].
  cbn. f_equal.
  destruct (decide (h ∈ elements (children block))) as [E1|E1];
    destruct (decide (h ∈ elements (parents (header block)))) as [E2|E2];
    rewrite elem_of_elements in E1, E2; cbn; rewrite ?Hsc, ?Hsp by done;
    rewrite ?Hc1, ?Hp1; try done.
  f_equal. symmetry. exact (Hp1 (set_children (children b ∖ {[ id ]}) b)).
Qed.

Lemma remove_parent c p :
  parent (remove_block id d) c p ↔ parent d c p ∧ c ≠ id ∧ p ≠ id.
Proof.
  unfold parent. rewrite remove_lookup. destruct (decide (c = id)) as [->|Hc]; [naive_solver|].
  destruct (blocks d !! c) as [b|]; cbn; [|naive_solver]. split.
  - intros (b' & [= <-] & Hp). cbn in Hp. split_and!; [exists b| |]; set_solver.
  - intros [(b' & [= <-] & Hp) [_ Hpi]]. eexists; split; [done|]. cbn. set_solver.
Qed.

Lemma remove_child p c :
  child (remove_block id d) p c ↔ child d p c ∧ c ≠ id ∧ p ≠ id.
Proof.
  unfold child. rewrite remove_lookup. destruct (decide (p = id)) as [->|Hp]; [naive_solver|].
  destruct (blocks d !! p) as [b|]; cbn; [|naive_solver]. split.
  - intros (b' & [= <-] & Hc). cbn in Hc. split_and!; [exists b| |]; set_solver.
  - intros [(b' & [= <-] & Hc) [Hci _]]. eexists; split; [done|]. cbn. set_solver.
Qed.
End removal.

(** ** Properties *)

(** C22. Insertion keeps the DAG well formed on every path, a rejected block leaves it
    unchanged, and an accepted one is stored under its id, is a tip, and has the
    listed parents as its ancestors. *)
Theorem add_block_preserves_wf (d : Dag) (block : BlockNode) (Hwf : dag_wf d)
    (Hfresh : children block = ∅) :
  let '(r, d') := add_block block d in
  let id := block_id (header block) in
  dag_wf d' ∧
  match r with
  | Ok _ => blocks d' !! id = Some block ∧ tips d' = {[ id ]} ∪ tips d ∖ parents (header block)
            ∧ ∀ a, ancestor d' a id ↔ ∃ p, p ∈ parents (header block) ∧ (a = p ∨ ancestor d a p)
  | Err e => d' = d ∧ e ∈ [DuplicateBlock; InvalidParent;
      ConsensusError "Block cannot reference itself as parent";
      ConsensusError "Genesis block already exists"]
  | Panic _ => False
  end.
Proof.
  destruct (add_block block d) as [r d'] eqn:E. destruct r as [[]|e|p].
  - apply add_block_ok in E as (-> & Hn & Hs & Hg & Hp).
    split; [by apply link_block_wf|].
    split; [by rewrite link_lookup, decide_True by done|]. split; [done|].
    intros a. by apply link_ancestor.
  - assert (d' = d) as -> by (by eapply add_block_failed). split; [done|]. split; [done|].
    revert E. unfold add_block. cbn. unfold mbind, method_bind, get, throw, modify.
    repeat case_match; intros [= <-]; set_solver.
  - revert E. unfold add_block. cbn. unfold mbind, method_bind, get, throw, modify.
    repeat case_match; intros [=].
Qed.

(** C23. In a well-formed DAG the three searches decide reachability, and the anticone
    of a block is the set of the other blocks incomparable with it. *)
Theorem searches_spec (d : Dag) (Hwf : dag_wf d) :
  (∀ a b, is_ancestor d a b = true ↔ ancestor d a b) ∧
  (∀ a b, a ∈ get_ancestors d b ↔ ancestor d a b) ∧
  (∀ a b, b ∈ get_descendants d a ↔ ancestor d a b) ∧
  (∀ a b, b ∈ get_anticone d a ↔
     is_Some (blocks d !! b) ∧ b ≠ a ∧ ¬ ancestor d b a ∧ ¬ ancestor d a b).
Proof.
  assert (Hne : ∀ a b, ancestor d a b → a ≠ b) by (intros a b ? ->; by apply (wf_no_cycle d b Hwf)).
  assert (Hdesc : ∀ a b, b ∈ get_descendants d a ↔ ancestor d a b).
  { intros a b. rewrite elem_of_get_descendants, (rtc_child_parent d a b Hwf). split.
    - intros [Hba Hr]. by apply (rtc_tc_split _ _ _ Hba).
    - intros Ha. split; [|by apply tc_rtc]. intros ->. by apply (Hne a a). }
  split_and!.
  - intros a b. rewrite is_ancestor_iff. split; [by intros []|]. eauto.
  - intros a b. apply elem_of_get_ancestors.
  - done.
  - intros a b. unfold get_anticone, get_all_hashes, sort_hashes.
    rewrite list_elem_of_filter, !elem_of_list_to_set, elem_of_sort_by, elem_of_elements,
      elem_of_dom, elem_of_get_ancestors, Hdesc. tauto.
Qed.

(** Removal erases exactly the links of the removed block and keeps the DAG's
    links dual and closed; every tip it leaves is a childless block. *)
Theorem remove_block_spec (d : Dag) (id : Hash) (Hwf : dag_wf d) :
  let d' := remove_block id d in
  dom (blocks d') = dom (blocks d) ∖ {[ id ]} ∧
  (∀ c p, parent d' c p ↔ parent d c p ∧ c ≠ id ∧ p ≠ id) ∧
  (∀ c p, child d' p c ↔ parent d' c p) ∧
  (∀ c p, parent d' c p → is_Some (blocks d' !! p)) ∧
  (∀ h, h ∈ tips d' ↔ h ∈ tips d ∧ h ≠ id).
Proof.
  destruct (blocks d !! id) as [block|] eqn:Hid; cbn zeta.
  - assert (Hp := remove_parent d id block Hwf Hid).
    assert (Hc := remove_child d id block Hwf Hid). split_and!; try done.
    + apply set_eq. intros h. rewrite elem_of_difference, !elem_of_dom, elem_of_singleton.
      rewrite (remove_lookup d id block Hwf Hid). destruct (decide (h = id)) as [->|Hh].
      { split; [intros [? [=]]|naive_solver]. }
      rewrite fmap_is_Some. tauto.
    + intros c p. by rewrite Hp, Hc, (wf_dual d Hwf).
    + intros c p [H (_ & Hpi)]%Hp. rewrite (remove_lookup d id block Hwf Hid).
      rewrite decide_False by done. by eapply fmap_is_Some, wf_closed.
    + intros h. unfold remove_block. rewrite Hid. cbn. set_solver.
  - assert (E : remove_block id d = d) by (unfold remove_block; by rewrite Hid).
    rewrite E. split_and!.
    + apply not_elem_of_dom in Hid. set_solver.
    + intros c p. split; [|tauto]. intros Hp. split_and!; [done| |].
      * intros ->. destruct Hp as (? & ? & _). congruence.
      * intros ->. apply (wf_closed d Hwf) in Hp. rewrite Hid in Hp. by destruct Hp.
    + intros c p. apply (wf_dual d Hwf).
    + apply (wf_closed d Hwf).
    + intros h. split; [|tauto]. intros Hh. split; [done|]. intros ->.
      apply (wf_tips d Hwf) in Hh as (? & ? & _). congruence.
Qed.

(** A small DAG for the examples: blocks by number. *)
Definition sample_block (id : Z) (ps : list Z) : BlockNode :=
  {| header := {| block_id := hash_of id; parents := list_to_set (hash_of <$> ps);
       timestamp := 0; difficulty := 0; nonce := 0; verkle_root := hash_of 0;
       verkle_proofs := None; header_signature := None |};
     children := ∅; selected_parent := None; blue_set := ∅; red_set := ∅; blue_score := 0;
     transactions := [] |}.

Definition add_all (bs : list BlockNode) : Dag :=
  (for_each add_block bs Dag_new).2.

Lemma add_all_wf bs : Forall (λ b, children b = ∅) bs → dag_wf (add_all bs).
Proof.
  intros Hbs. unfold add_all. destruct (for_each add_block bs Dag_new) as [r d] eqn:E. cbn.
  eapply (for_each_inv add_block dag_wf) in E; [done| |apply Dag_new_wf].
  intros b s r' s' Hb Hs Hadd. rewrite Forall_forall in Hbs. specialize (Hbs b Hb).
  destruct r' as [[]| |].
  - apply add_block_ok in Hadd as (-> & ? & ? & ? & ?). by apply link_block_wf.
  - by apply add_block_failed in Hadd as ->.
  - by apply add_block_failed in Hadd as ->.
Qed.

Definition diamond : Dag :=
  add_all [sample_block 1 []; sample_block 2 [1]; sample_block 3 [1]; sample_block 4 [2; 3]].

Example diamond_searches :
  get_ancestors diamond (hash_of 4) = [hash_of 1; hash_of 2; hash_of 3] ∧
  get_anticone diamond (hash_of 2) = [hash_of 3] ∧ get_tips diamond = [hash_of 4].
Proof. vm_compute. split_and!; reflexivity. Qed.

(** Removing the only block on top of another leaves the DAG without a tip: the
    parents of a removed block do not become tips again. *)
Theorem remove_block_loses_tips :
  let d := remove_block (hash_of 2) (add_all [sample_block 1 []; sample_block 2 [1]]) in
  block_exists d (hash_of 1) = true ∧ get_block_count d = 1%nat ∧ get_tips d = [].
Proof. vm_compute. split_and!; reflexivity. Qed.

Lemma diamond_wf : dag_wf diamond.
Proof. apply add_all_wf. by repeat constructor. Qed.

Lemma add_block_preserves_wf_witness :
  let '(r, d') := add_block (sample_block 5 [4]) diamond in
  r = Ok tt ∧ dag_wf d' ∧ tips d' = {[ hash_of 5 ]} ∪ tips diamond ∖ {[ hash_of 4 ]}.
Proof.
  pose proof (add_block_preserves_wf diamond (sample_block 5 [4]) diamond_wf eq_refl) as H.
  assert (E : (add_block (sample_block 5 [4]) diamond).1 = Ok tt) by (vm_compute; reflexivity).
  destruct (add_block _ _) as [r d']. cbn in E. subst r. destruct H as (H1 & _ & H2 & _).
  split; [reflexivity|]. split; [exact H1|]. rewrite H2. cbn. set_solver.
Defined.

Lemma searches_spec_witness : ancestor diamond (hash_of 1) (hash_of 4).
Proof.
  destruct (searches_spec diamond diamond_wf) as [H _]. apply H. vm_compute. reflexivity.
Defined.

Lemma remove_block_spec_witness :
  dom (blocks (remove_block (hash_of 2) diamond)) = dom (blocks diamond) ∖ {[ hash_of 2 ]}.
Proof. exact (proj1 (remove_block_spec diamond (hash_of 2) diamond_wf)). Defined.
