(* ===== verification/State.v ===== *)
(** * Blockchain state and storage

    [state/mod.rs] ([BlockchainState]: application of a block with rollback of the
    transactions already applied, prune markers, snapshots) and
    [state/storage.rs] (the key-value [Storage] trait and its in-memory
    implementation). *)

From S2P Require Import Prelude Crypto Errors Transaction Economics Utxo Dag.
From Stdlib Require Import Init.Byte.

(** ** Storage

    The trait, with the laws its users rely on: a key-value map. *)
Class Storage (S : Type) := {
  storage_get : S → list byte → option (list byte);
  storage_put : list byte → list byte → S → S;
  storage_delete : list byte → S → S;
  storage_clear : S → S
}.

Class StorageLaws (S : Type) `{Storage S} := {
  get_put : ∀ s k v j, storage_get (storage_put k v s) j = if decide (j = k) then Some v else storage_get s j;
  get_delete : ∀ s k j, storage_get (storage_delete k s) j = if decide (j = k) then None else storage_get s j;
  get_clear : ∀ s j, storage_get (storage_clear s) j = None
}.

Record MemoryStorage := { memory : gmap (list byte) (list byte) }.
Definition MemoryStorage_new : MemoryStorage := {| memory := ∅ |}.

#[global] Instance MemoryStorage_Storage : Storage MemoryStorage := {|
  storage_get s k := memory s !! k;
  storage_put k v s := {| memory := <[k := v]> (memory s) |};
  storage_delete k s := {| memory := delete k (memory s) |};
  storage_clear _ := {| memory := ∅ |}
|}.

#[global] Instance MemoryStorage_laws : StorageLaws MemoryStorage.
Proof.
  split; cbn.
  - intros s k v j. rewrite lookup_insert. by repeat case_decide.
  - intros s k j. rewrite lookup_delete. by repeat case_decide.
  - intros s j. apply lookup_empty.
Qed.

(** ** [BlockchainState] *)

Record PruneMarker := { epoch : Z; marker_timestamp : Z }.

Record BlockchainState := {
  finalizing_block : option Hash;
  virtual_score : Z;
  pruned : list Hash;
  utxo_set : UtxoSet;
  prune_markers : gmap OutPoint PruneMarker
}.

Definition BlockchainState_new : BlockchainState :=
  {| finalizing_block := None; virtual_score := 0; pruned := []; utxo_set := UtxoSet_new;
     prune_markers := ∅ |}.

Definition set_utxo_set (u : UtxoSet) (s : BlockchainState) : BlockchainState :=
  {| finalizing_block := finalizing_block s; virtual_score := virtual_score s;
     pruned := pruned s; utxo_set := u; prune_markers := prune_markers s |}.
Definition set_prune_markers (m : gmap OutPoint PruneMarker) (s : BlockchainState) :
    BlockchainState :=
  {| finalizing_block := finalizing_block s; virtual_score := virtual_score s;
     pruned := pruned s; utxo_set := utxo_set s; prune_markers := m |}.

Definition mark_leaf_for_pruning (outpoint : OutPoint) (ep timestamp : Z)
    (self : BlockchainState) : BlockchainState :=
  set_prune_markers
    (<[outpoint := {| epoch := ep; marker_timestamp := timestamp |}]> (prune_markers self)) self.

Definition is_leaf_marked_pruned (self : BlockchainState) (outpoint : OutPoint) : bool :=
  bool_decide (is_Some (prune_markers self !! outpoint)).

Definition prune_leaf (outpoint : OutPoint) : method BlockchainState CoreError unit :=
  _ ← modify (λ s, set_utxo_set (utxo_remove outpoint (utxo_set s)) s);
  modify (λ s, set_prune_markers (delete outpoint (prune_markers s)) s).

(** The markers are listed in the order of [map_to_list] (the [HashMap] order of
    the code is unspecified). *)
Definition prune_older_than (epoch_threshold : Z) :
    method BlockchainState CoreError (list OutPoint) :=
  self ← get;
  let to_prune := (map_to_list
    (filter (λ '(_, marker), epoch marker ≤ epoch_threshold) (prune_markers self))).*1 in
  _ ← for_each prune_leaf to_prune;
  mret to_prune.

Definition set_finalizing_block (block : Hash) (s : BlockchainState) : BlockchainState :=
  {| finalizing_block := Some block; virtual_score := virtual_score s; pruned := pruned s;
     utxo_set := utxo_set s; prune_markers := prune_markers s |}.
Definition update_virtual_score (score : Z) (s : BlockchainState) : BlockchainState :=
  {| finalizing_block := finalizing_block s; virtual_score := score; pruned := pruned s;
     utxo_set := utxo_set s; prune_markers := prune_markers s |}.
Definition mark_pruned (block : Hash) (s : BlockchainState) : BlockchainState :=
  {| finalizing_block := finalizing_block s; virtual_score := virtual_score s;
     pruned := pruned s ++ [block]; utxo_set := utxo_set s; prune_markers := prune_markers s |}.
Definition get_virtual_score (self : BlockchainState) : Z := virtual_score self.

Section apply_block.
Context `{Blake3} `{K256}.

(** [if let Some(output) = utxos.get(&key) { spent_outputs.insert(key, output) }] *)
Definition save_spent (u : UtxoSet) (spent_outputs : gmap OutPoint TxOutput) (input : TxInput) :
    gmap OutPoint TxOutput :=
  match utxos u !! outpoint_of input with
  | Some output => <[outpoint_of input := output]> spent_outputs
  | None => spent_outputs
  end.

(** A method of [self.utxo_set]. *)
Definition on_utxo {A} (m : method UtxoSet CoreError A) : method BlockchainState CoreError A :=
  zoom utxo_set set_utxo_set m.

(** [Err(e)] unless a revert fails. *)
Definition rollback_applied (changesets : list UtxoChangeSet)
    (spent_outputs : gmap OutPoint TxOutput) (e : CoreError) :
    method BlockchainState CoreError unit :=
  catch (for_each (λ changeset, on_utxo (revert_tx changeset spent_outputs)) (reverse changesets))
    (λ _, throw e)
    (λ _, throw (TransactionError "Transaction apply failed and revert failed: {}")).

Fixpoint apply_block_loop (txs : list Transaction) (changesets : list UtxoChangeSet)
    (spent_outputs : gmap OutPoint TxOutput) : method BlockchainState CoreError unit :=
  match txs with
  | [] => mret tt
  | tx :: txs =>
      self ← get;
      let spent_outputs := foldl (save_spent (utxo_set self)) spent_outputs (inputs tx) in
      catch (on_utxo (apply_tx tx))
        (λ changeset, apply_block_loop txs (changesets ++ [changeset]) spent_outputs)
        (λ e, rollback_applied changesets spent_outputs e)
  end.

Definition apply_block (block : BlockNode) : method BlockchainState CoreError unit :=
  apply_block_loop (transactions block) [] ∅.

Definition revert_block (block : BlockNode) : method BlockchainState CoreError unit :=
  for_each (λ tx,
    for_each (λ p, modify (λ s, set_utxo_set (utxo_remove (created_outpoint tx p.1) (utxo_set s)) s))
      (enumerate (outputs tx))) (reverse (transactions block)).

Definition snapshot (self : BlockchainState) : BlockchainState := self.
Definition restore (s : BlockchainState) : method BlockchainState CoreError unit := put s.
End apply_block.

(** ** Application of a block *)
Section block_application.
Context `{Blake3} `{K256}.
Implicit Types (u : UtxoSet) (tx : Transaction) (txs : list Transaction).

(** The specification: validate and update, one transaction after the other. *)
Definition apply_txs (u : UtxoSet) (txs : list Transaction) : outcome CoreError UtxoSet :=
  fold_outcome (λ u tx, _ ← validate_tx u tx; Ok (post_tx tx u)) u txs.

(** The outpoints the block creates are new, and created once. *)
Definition all_created (txs : list Transaction) : list (OutPoint * TxOutput) :=
  mjoin (created_outputs <$> txs).
Definition fresh_block (u : UtxoSet) (txs : list Transaction) : Prop :=
  NoDup (all_created txs).*1 ∧ ∀ k, k ∈ (all_created txs).*1 → utxos u !! k = None.

Lemma all_created_cons tx txs : all_created (tx :: txs) = created_outputs tx ++ all_created txs.
Proof. done. Qed.

Lemma post_tx_lookup_ne u tx k :
  k ∉ (created_outputs tx).*1 → utxos (post_tx tx u) !! k = None ∨ utxos (post_tx tx u) !! k = utxos u !! k.
Proof.
  intros Hk. unfold post_tx. rewrite insert_all_lookup_ne, remove_all_lookup by done.
  case_decide; auto.
Qed.

Lemma fresh_block_head u tx txs fee :
  fresh_block u (tx :: txs) → validate_tx u tx = Ok fee → fresh_outputs u tx.
Proof.
  unfold fresh_block. rewrite all_created_cons, fmap_app.
  intros [(Hnd & _ & _)%NoDup_app Hf] Hv. split; [done|]. intros k Hk.
  assert (Hn : utxos u !! k = None) by (apply Hf, elem_of_app; by left). split; [done|].
  intros (i & -> & Hi)%list_elem_of_fmap. apply validate_tx_inputs in Hv as [_ Hp].
  destruct (Hp i Hi). congruence.
Qed.

Lemma fresh_block_tail u tx txs : fresh_block u (tx :: txs) → fresh_block (post_tx tx u) txs.
Proof.
  unfold fresh_block. rewrite all_created_cons, fmap_app.
  intros [(_ & Hd & Hnd)%NoDup_app Hf]. split; [done|]. intros k Hk.
  destruct (post_tx_lookup_ne u tx k) as [?|E]; [|done|].
  { intros Hc. by apply (Hd k Hc). }
  rewrite E. apply Hf, elem_of_app. by right.
Qed.

Section with_history.
(** Every coin the block can see: an outpoint never carries two outputs. *)
Context (W : gmap OutPoint TxOutput).
Definition covers u txs : Prop :=
  utxos u ⊆ W ∧ ∀ k o, (k, o) ∈ all_created txs → W !! k = Some o.

Lemma covers_tail u tx txs : covers u (tx :: txs) → covers (post_tx tx u) txs.
Proof.
  unfold covers. rewrite all_created_cons. intros [Hu Hc]. split.
  - apply map_subseteq_spec. intros k o Hk.
    destruct (decide (k ∈ (created_outputs tx).*1)) as [Hin|Hin].
    + unfold post_tx in Hk. apply insert_all_inv in Hk as [Hk|Hk].
      * apply Hc, elem_of_app. by left.
      * rewrite remove_all_lookup in Hk. case_decide; [done|]. by eapply lookup_weaken.
    + destruct (post_tx_lookup_ne u tx k Hin) as [E|E]; [congruence|].
      rewrite E in Hk. by eapply lookup_weaken.
  - intros k o Hk. apply Hc, elem_of_app. by right.
Qed.

Lemma save_spent_all u (ins : list TxInput) (sm : gmap OutPoint TxOutput) :
  utxos u ⊆ W → sm ⊆ W →
  let sm' := foldl (save_spent u) sm ins in
  sm ⊆ sm' ∧ sm' ⊆ W
  ∧ ∀ i, i ∈ ins → is_Some (utxos u !! outpoint_of i) → sm' !! outpoint_of i = utxos u !! outpoint_of i.
Proof.
  intros Hu. revert sm; induction ins as [|i ins IH]; intros sm Hs; cbn.
  - split_and!; [done|done|]. by intros i ?%not_elem_of_nil.
  - assert (H1 : sm ⊆ save_spent u sm i ∧ save_spent u sm i ⊆ W).
    { unfold save_spent. destruct (utxos u !! outpoint_of i) as [o|] eqn:Eo; [|done].
      assert (HW : W !! outpoint_of i = Some o) by (by eapply lookup_weaken).
      split; apply map_subseteq_spec; intros k o' Hk.
      - rewrite lookup_insert. case_decide as Hd; [|done]. subst.
        eapply lookup_weaken in Hk; [|exact Hs]. congruence.
      - rewrite lookup_insert in Hk. case_decide as Hd; [subst; congruence|].
        by eapply lookup_weaken. }
    destruct H1 as [H1 H2]. destruct (IH _ H2) as (H3 & H4 & H5).
    split_and!; [by etrans|done|]. intros j [->|Hj]%elem_of_cons Hp; [|by apply H5].
    destruct Hp as [o Ho]. rewrite Ho. eapply lookup_weaken; [|exact H3].
    unfold save_spent. rewrite Ho. apply lookup_insert_eq.
Qed.

(** Reverting the change sets so far, from any map of the spent coins, leads
    back to [u0]. *)
Definition reverts_to u0 (changesets : list UtxoChangeSet) (spent_outputs : gmap OutPoint TxOutput) u : Prop :=
  spent_outputs ⊆ W ∧
  ∀ sm, spent_outputs ⊆ sm → sm ⊆ W →
    for_each (λ c, revert_tx c sm) (reverse changesets) u = (Ok tt, u0).

Lemma reverts_to_step u0 cs spm u tx txs fee :
  covers u (tx :: txs) → fresh_block u (tx :: txs) → validate_tx u tx = Ok fee →
  reverts_to u0 cs spm u →
  reverts_to u0 (cs ++ [{| spent := spent_outpoints tx; created := created_outputs tx |}])
    (foldl (save_spent u) spm (inputs tx)) (post_tx tx u).
Proof.
  intros [Hu _] Hf Hv [Hs Hr].
  destruct (save_spent_all u (inputs tx) spm Hu Hs) as (H1 & H2 & H3). split; [done|].
  intros sm Hsm HsmW. rewrite reverse_app. cbn.
  pose proof (validate_tx_inputs _ _ _ Hv) as [Hnd Hp].
  erewrite method_bind_run.
  2:{ apply revert_post_tx; [by eapply fresh_block_head|done|].
      intros k (i & -> & Hi)%list_elem_of_fmap. specialize (Hp i Hi). split; [done|].
      destruct Hp as [o Ho]. rewrite Ho. eapply lookup_weaken; [|exact Hsm].
      rewrite H3; [done|done|by eexists]. }
  apply Hr; [by etrans|done].
Qed.

Lemma for_each_on_utxo (f : UtxoChangeSet → method UtxoSet CoreError unit) cs s u r :
  for_each f cs (utxo_set s) = (r, u) →
  for_each (λ c, on_utxo (f c)) cs s = (r, set_utxo_set u s).
Proof.
  revert s; induction cs as [|c cs IH]; intros s; cbn.
  - intros [= <- <-]. by destruct s.
  - unfold mbind, method_bind, on_utxo at 1, zoom.
    destruct (f c (utxo_set s)) as [[[]|e|p] u1] eqn:E; [|by intros [= <- <-]..].
    intros Hf. specialize (IH (set_utxo_set u1 s) Hf). by destruct s.
Qed.

Lemma apply_block_loop_spec txs s cs spm u0 :
  covers (utxo_set s) txs → fresh_block (utxo_set s) txs →
  reverts_to u0 cs spm (utxo_set s) →
  apply_block_loop txs cs spm s =
  match apply_txs (utxo_set s) txs with
  | Ok u' => (Ok tt, set_utxo_set u' s)
  | Err e => (Err e, set_utxo_set u0 s)
  | Panic p => (Panic p, s)
  end.
Proof.
  revert s cs spm; induction txs as [|tx txs IH]; intros s cs spm Hc Hf Hr; cbn.
  { by destruct s. }
  erewrite method_bind_run by done. unfold catch, on_utxo, zoom. rewrite apply_tx_run.
  destruct (validate_tx (utxo_set s) tx) as [fee|e|p] eqn:Hv; cbn.
  - rewrite IH; cbn.
    + unfold apply_txs. destruct (fold_outcome _ _ _) eqn:E; [done..|].
      exfalso. eapply fold_outcome_no_panic in E; [done|]. intros u t q Hq. panic_inv.
      by apply validate_tx_no_panic in Hq.
    + by apply covers_tail.
    + by apply fresh_block_tail.
    + by eapply reverts_to_step.
  - destruct Hr as [Hs Hr]. unfold rollback_applied, catch.
    destruct (save_spent_all (utxo_set s) (inputs tx) spm (proj1 Hc) Hs) as (H1 & H2 & _).
    replace (set_utxo_set (utxo_set s) s) with s by (by destruct s).
    erewrite for_each_on_utxo by (by apply Hr). done.
  - by apply validate_tx_no_panic in Hv.
Qed.
End with_history.

Lemma apply_block_run s block :
  fresh_block (utxo_set s) (transactions block) →
  apply_block block s =
  match apply_txs (utxo_set s) (transactions block) with
  | Ok u' => (Ok tt, set_utxo_set u' s)
  | Err e => (Err e, s)
  | Panic p => (Panic p, s)
  end.
Proof.
  intros Hf. unfold apply_block.
  rewrite (apply_block_loop_spec (list_to_map (all_created (transactions block)) ∪ utxos (utxo_set s))
    _ _ _ _ (utxo_set s)).
  - destruct (apply_txs _ _); by destruct s.
  - destruct Hf as [Hnd Hf]. split.
    + apply map_union_subseteq_r, map_disjoint_spec. intros k o o' Hk Hk'.
      apply elem_of_list_to_map_2 in Hk. rewrite Hf in Hk'; [done|].
      by apply (list_elem_of_fmap_2 fst _ (k, o)).
    + intros k o Hk. apply lookup_union_Some_l. by apply elem_of_list_to_map_1.
  - done.
  - split; [apply map_empty_subseteq|]. by intros sm _ _.
Qed.
End block_application.

(** ** Properties *)
Section theorems.
Context `{Blake3} `{K256}.

Lemma apply_txs_err u txs e :
  apply_txs u txs = Err e →
  ∃ pre tx post u', txs = pre ++ tx :: post ∧ apply_txs u pre = Ok u' ∧ validate_tx u' tx = Err e.
Proof.
  revert u; induction txs as [|tx txs IH]; intros u; [done|]. unfold apply_txs. cbn.
  destruct (validate_tx u tx) as [fee|e'|p] eqn:Hv; cbn; [|intros [= <-]|done].
  - intros (pre & tx' & post & u' & -> & Hpre & Ht)%IH.
    exists (tx :: pre), tx', post, u'. split_and!; [done| |done].
    unfold apply_txs. cbn. by rewrite Hv.
  - by exists [], tx, txs, u.
Qed.

Lemma apply_txs_no_panic u txs p : apply_txs u txs ≠ Panic p.
Proof.
  apply fold_outcome_no_panic. intros v t q Hq. panic_inv. by apply validate_tx_no_panic in Hq.
Qed.

(** A block is applied whole or not at all.  Either every transaction is valid
    after its predecessors and the set is updated by all of them, or the first
    invalid one fails the block with its own error and the rollback restores the
    state exactly; the rollback itself never fails. *)
Theorem apply_block_atomic (s : BlockchainState) (block : BlockNode)
    (Hf : fresh_block (utxo_set s) (transactions block)) :
  (∃ u', apply_txs (utxo_set s) (transactions block) = Ok u'
    ∧ apply_block block s = (Ok tt, set_utxo_set u' s))
  ∨ (∃ pre tx post u' e, transactions block = pre ++ tx :: post
    ∧ apply_txs (utxo_set s) pre = Ok u' ∧ validate_tx u' tx = Err e
    ∧ apply_block block s = (Err e, s)).
Proof.
  rewrite (apply_block_run s block Hf).
  destruct (apply_txs (utxo_set s) (transactions block)) as [u'|e|p] eqn:E.
  - left. by exists u'.
  - right. apply apply_txs_err in E as (pre & tx & post & u' & Ht & Hp & Hv).
    by exists pre, tx, post, u', e.
  - by apply apply_txs_no_panic in E.
Qed.

Definition all_spent (txs : list Transaction) : list OutPoint := mjoin (spent_outpoints <$> txs).

Lemma remove_all_app ks ks' u : remove_all (ks ++ ks') u = remove_all ks' (remove_all ks u).
Proof. apply foldl_app. Qed.

Lemma remove_outputs_run tx (l : list (nat * TxOutput)) s :
  for_each (λ p, modify (λ s, set_utxo_set (utxo_remove (created_outpoint tx p.1) (utxo_set s)) s)) l s
  = (Ok (E := CoreError) tt,
     set_utxo_set (remove_all ((λ p, created_outpoint tx p.1) <$> l) (utxo_set s)) s).
Proof.
  revert s; induction l as [|p l IH]; intros s; [by destruct s|].
  cbn [for_each]. erewrite method_bind_run by done. rewrite IH. by destruct s.
Qed.

Lemma revert_block_run s block :
  ∃ ks, (∀ k, k ∈ ks ↔ k ∈ (all_created (transactions block)).*1)
  ∧ revert_block block s = (Ok tt, set_utxo_set (remove_all ks (utxo_set s)) s).
Proof.
  unfold revert_block. revert s. induction (transactions block) as [|tx txs IH] using rev_ind.
  - intros s. exists []. split; [done|]. by destruct s.
  - intros s. rewrite reverse_app. cbn [app reverse rev_append for_each].
    erewrite method_bind_run by apply remove_outputs_run.
    destruct (IH (set_utxo_set (remove_all ((λ p, created_outpoint tx p.1) <$> enumerate (outputs tx))
       (utxo_set s)) s)) as (ks & Hks & E).
    exists (((λ p, created_outpoint tx p.1) <$> enumerate (outputs tx)) ++ ks). split.
    + intros k. unfold all_created. rewrite fmap_app, join_app, fmap_app, !elem_of_app, Hks.
      unfold created_outputs at 2. cbn. rewrite app_nil_r, <- list_fmap_compose. tauto.
    + change ([tx] ++ txs) with (tx :: txs) in *. cbn in E. rewrite E, remove_all_app. by destruct s.
Qed.

Lemma apply_txs_old_coin u txs u' k o :
  apply_txs u txs = Ok u' → k ∉ (all_created txs).*1 → utxos u !! k = Some o →
  utxos u' !! k = if decide (k ∈ all_spent txs) then None else Some o.
Proof.
  revert u; induction txs as [|tx txs IH]; intros u.
  - intros [= <-] _ Hk. by rewrite decide_False by apply not_elem_of_nil.
  - intros Hv Hn Hk. unfold apply_txs in Hv. cbn in Hv. outcome_inv. subst.
    rewrite all_created_cons, fmap_app, elem_of_app in Hn.
    assert (Hp : utxos (post_tx tx u) !! k = if decide (k ∈ spent_outpoints tx) then None else Some o).
    { unfold post_tx. rewrite insert_all_lookup_ne, remove_all_lookup by tauto. by rewrite Hk. }
    change (all_spent (tx :: txs)) with (spent_outpoints tx ++ all_spent txs).
    destruct (decide (k ∈ spent_outpoints tx)) as [Hs|Hs].
    + rewrite decide_True by (by apply elem_of_app; left).
      assert (Hgone : ∀ u1, utxos u1 !! k = None → apply_txs u1 txs = Ok u' → utxos u' !! k = None).
      { clear -Hn. assert (Hn' : k ∉ (all_created txs).*1) by tauto. clear Hn.
        induction txs as [|t txs IH]; intros u1 Hu1; [by intros [= <-]|].
        rewrite all_created_cons, fmap_app, elem_of_app in Hn'.
        intros Hv. unfold apply_txs in Hv. cbn in Hv. outcome_inv. subst. eapply IH; [tauto| |done].
        destruct (post_tx_lookup_ne u1 t k) as [E|E]; [tauto|done|congruence]. }
      by eapply Hgone.
    + erewrite IH; [|done|tauto|done].
      destruct (decide (k ∈ all_spent txs)).
      * by rewrite decide_True by (by apply elem_of_app; right).
      * rewrite decide_False; [done|]. by rewrite elem_of_app; intros [?|?].
Qed.

(** [revert_block] removes what the block created and nothing else: after
    applying and reverting a block, the coins it spent are gone. *)
Theorem revert_block_forgets_spent (s s' : BlockchainState) (block : BlockNode)
    (Hf : fresh_block (utxo_set s) (transactions block))
    (Happly : apply_block block s = (Ok tt, s')) :
  ∃ s'', revert_block block s' = (Ok tt, s'') ∧
  (∀ k o, utxos (utxo_set s) !! k = Some o →
     utxos (utxo_set s'') !! k = if decide (k ∈ all_spent (transactions block)) then None else Some o)
  ∧ (∀ k, k ∈ (all_created (transactions block)).*1 → utxos (utxo_set s'') !! k = None).
Proof.
  rewrite (apply_block_run s block Hf) in Happly.
  destruct (apply_txs (utxo_set s) (transactions block)) as [u'|e|p] eqn:E; [|done..].
  injection Happly as <-. destruct (revert_block_run (set_utxo_set u' s) block) as (ks & Hks & Hr).
  eexists. split; [exact Hr|]. cbn [utxo_set set_utxo_set]. split.
  - intros k o Hk. rewrite remove_all_lookup.
    assert (Hn : k ∉ (all_created (transactions block)).*1).
    { intros Hin. rewrite (proj2 Hf k Hin) in Hk. done. }
    rewrite decide_False by (by rewrite Hks). by eapply apply_txs_old_coin.
  - intros k Hk. rewrite remove_all_lookup. by rewrite decide_True by (by apply Hks).
Qed.

Lemma prune_leaves_run ks s :
  for_each prune_leaf ks s
  = (Ok tt, set_prune_markers (foldl (λ m k, delete k m) (prune_markers s) ks)
              (set_utxo_set (remove_all ks (utxo_set s)) s)).
Proof.
  revert s; induction ks as [|k ks IH]; intros s; [by destruct s|].
  cbn [for_each]. erewrite method_bind_run by done. rewrite IH. by destruct s.
Qed.

(** Pruning by age removes exactly the marked outpoints up to the threshold,
    from the set and from the markers, and reports them. *)
Theorem prune_older_than_spec (threshold : Z) (s : BlockchainState) :
  ∃ ks s', prune_older_than threshold s = (Ok ks, s') ∧ NoDup ks
  ∧ (∀ k, k ∈ ks ↔ ∃ marker, prune_markers s !! k = Some marker ∧ epoch marker ≤ threshold)
  ∧ (∀ k, utxos (utxo_set s') !! k = if decide (k ∈ ks) then None else utxos (utxo_set s) !! k)
  ∧ (∀ k, is_leaf_marked_pruned s' k = is_leaf_marked_pruned s k && bool_decide (k ∉ ks)).
Proof.
  unfold prune_older_than. erewrite method_bind_run by done.
  set (ks := (map_to_list _).*1). erewrite method_bind_run by apply prune_leaves_run.
  exists ks. eexists. split; [done|]. split_and!.
  - apply NoDup_fst_map_to_list.
  - intros k. subst ks. split.
    + intros ([j marker] & -> & Hm)%list_elem_of_fmap. apply elem_of_map_to_list in Hm.
      apply map_lookup_filter_Some in Hm as [??]. eauto.
    + intros (marker & Hm & Hle). apply (list_elem_of_fmap_2 fst _ (k, marker)).
      apply elem_of_map_to_list, map_lookup_filter_Some. done.
  - intros k. cbn. apply remove_all_lookup.
  - intros k. unfold is_leaf_marked_pruned. cbn. rewrite lookup_delete_all.
    destruct (decide (k ∈ ks)) as [Hk|Hk]; [rewrite (bool_decide_eq_true_2 (k ∈ ks)) by done|rewrite (bool_decide_eq_false_2 (k ∈ ks)) by done].
    + rewrite (bool_decide_eq_false_2 (k ∉ ks)) by tauto. by rewrite andb_false_r.
    + rewrite (bool_decide_eq_true_2 (k ∉ ks)) by done. by rewrite andb_true_r.
Qed.
End theorems.

(** ** Examples *)
Section witnesses.
#[local] Existing Instance toy_blake3.
#[local] Existing Instance toy_k256.

Definition sample_state : BlockchainState := set_utxo_set sample_utxo BlockchainState_new.

(** A valid spend, then one of a coin that does not exist. *)
Definition bad_block : BlockNode :=
  {| header := header (sample_block 1 []); children := ∅; selected_parent := None;
     blue_set := ∅; red_set := ∅; blue_score := 0;
     transactions := [sample_spend; sample_tx 6 [sample_input 3 0] [1] 0] |}.

Definition good_block : BlockNode :=
  {| header := header (sample_block 1 []); children := ∅; selected_parent := None;
     blue_set := ∅; red_set := ∅; blue_score := 0; transactions := [sample_spend] |}.

(** Decides [fresh_block] on concrete blocks. *)
Lemma fresh_block_dec u txs :
  bool_decide (NoDup (all_created txs).*1)
  && forallb (λ k, bool_decide (utxos u !! k = None)) (all_created txs).*1 = true →
  fresh_block u txs.
Proof.
  intros [Hnd%bool_decide_eq_true Hf%forallb_bool_decide]%andb_true_iff.
  split; [done|]. by apply Forall_forall.
Qed.

Lemma bad_block_fresh : fresh_block (utxo_set sample_state) (transactions bad_block).
Proof. apply fresh_block_dec. vm_compute. reflexivity. Qed.
Lemma good_block_fresh : fresh_block (utxo_set sample_state) (transactions good_block).
Proof. apply fresh_block_dec. vm_compute. reflexivity. Qed.

Lemma apply_block_atomic_witness :
  ∃ e, apply_block bad_block sample_state = (Err e, sample_state).
Proof.
  destruct (apply_block_atomic sample_state bad_block bad_block_fresh)
    as [(u' & E & _)|(pre & tx & post & u' & e & _ & _ & _ & E)].
  - exfalso. vm_compute in E. discriminate E.
  - exists e. exact E.
Defined.

Lemma revert_block_forgets_spent_witness :
  ∃ s' s'', apply_block good_block sample_state = (Ok tt, s')
  ∧ revert_block good_block s' = (Ok tt, s'') ∧ utxos (utxo_set s'') !! (hash_of 1, 0) = None.
Proof.
  eexists. assert (E : apply_block good_block sample_state
    = (Ok tt, (apply_block good_block sample_state).2)) by (vm_compute; reflexivity).
  destruct (revert_block_forgets_spent sample_state _ good_block good_block_fresh E)
    as (s'' & Hr & Hc & _).
  exists s''. split; [exact E|]. split; [exact Hr|].
  rewrite (Hc (hash_of 1, 0) _ eq_refl). vm_compute. reflexivity.
Defined.
End witnesses.
