(* ===== verification/Ghostdag.v ===== *)
(** * GHOSTDAG

    [consensus/ghostdag.rs] and [consensus/ordering.rs]: the choice of a selected
    parent, blue and red sets, recoloring after an insertion, the virtual block,
    the orders, finality and reorganisation.  The validation half of
    [GhostDag] is in [BlockValidation.v]. *)

From S2P Require Import Prelude Crypto Errors Transaction Dag.
From Stdlib Require Import Init.Byte Floats.SpecFloat Logic.FunctionalExtensionality.

(** ** Double-precision numbers, by the specification of IEEE 754 *)
Definition f64 : Type := spec_float.
Definition f64_lt (x y : f64) : bool := SFltb x y.
Definition f64_zero : f64 := S754_zero false.
Definition f64_one : f64 := S754_finite false (2 ^ 52) (-52).
(** [x.clamp(lo, hi)]: a NaN stays a NaN. *)
Definition f64_clamp (x lo hi : f64) : f64 :=
  let x := if f64_lt x lo then lo else x in
  if f64_lt hi x then hi else x.

Definition FINALITY_DEPTH : Z := 100.
Definition K_MIN : Z := 1.
Definition K_MAX : Z := 64.
Definition ADJUSTMENT_INTERVAL : Z := 3600.
(** The doubles nearest to 0.8 and 0.2. *)
Definition HIGH_LOAD_THRESHOLD : f64 := S754_finite false 7205759403792794 (-53).
Definition LOW_LOAD_THRESHOLD : f64 := S754_finite false 7205759403792794 (-55).

Record GhostDag := { k : Z; network_load : f64; last_adjustment_time : Z }.

Record VirtualBlock := {
  v_parents : gset Hash;
  v_selected_parent : option Hash;
  v_blue_set : gset Hash;
  v_red_set : gset Hash;
  v_blue_score : Z
}.

Definition GhostDag_new (k0 : Z) : GhostDag :=
  {| k := Z.max K_MIN (Z.min k0 K_MAX); network_load := f64_zero; last_adjustment_time := 0 |}.

Definition update_network_load (load : f64) (self : GhostDag) : GhostDag :=
  {| k := k self; network_load := f64_clamp load f64_zero f64_one;
     last_adjustment_time := last_adjustment_time self |}.

(** [current_time] is the clock. *)
Definition adjust_k (current_time : Z) (self : GhostDag) : GhostDag :=
  if wsub 64 current_time (last_adjustment_time self) <? ADJUSTMENT_INTERVAL then self
  else
    let new_k :=
      if f64_lt HIGH_LOAD_THRESHOLD (network_load self) then Z.min (wadd 64 (k self) 1) K_MAX
      else if f64_lt (network_load self) LOW_LOAD_THRESHOLD then Z.max (wsub 64 (k self) 1) K_MIN
      else k self in
    if new_k =? k self then self
    else {| k := new_k; network_load := network_load self; last_adjustment_time := current_time |}.

Definition new_adaptive (current_time : Z) (initial_load : f64) : GhostDag :=
  adjust_k current_time (update_network_load initial_load (GhostDag_new 1)).

(** ** Parents and colors *)

(** [dag.get_block(h).map(|b| b.blue_score).unwrap_or(0)] *)
Definition score_of (dag : Dag) (h : Hash) : Z :=
  match get_block dag h with Some b => blue_score b | None => 0 end.

(** The order of [select_parent]: score descending, then hash ascending. *)
Definition parent_leb (x y : Hash * Z) : bool :=
  if y.2 <? x.2 then true else if x.2 <? y.2 then false else hash_leb x.1 y.1.

Definition parent_scores (dag : Dag) (ps : list Hash) : list (Hash * Z) :=
  omap (λ h, (λ b, (h, blue_score b)) <$> get_block dag h) ps.

Definition select_parent (dag : Dag) (ps : list Hash) : option Hash :=
  fst <$> head (sort_by parent_leb (parent_scores dag ps)).

Definition calculate_blue_score (dag : Dag) (block_hash : Hash) : Z :=
  match get_block dag block_hash with
  | None => 0
  | Some block =>
      if bool_decide (parents (header block) = ∅) then 0
      else match selected_parent block with
      | None => 0
      | Some sp => wadd 64 (score_of dag sp) (Z.of_nat (size (blue_set block)))
      end
  end.

(** One candidate of [build_blue_set]. *)
Definition color_candidate (self : GhostDag) (dag : Dag) (st : gset Hash * gset Hash)
    (candidate : Hash) : gset Hash * gset Hash :=
  let '(blue, red) := st in
  let candidate_anticone : gset Hash := list_to_set (get_anticone dag candidate) in
  let conflicts := Z.of_nat (size (candidate_anticone ∩ blue)) in
  if conflicts <=? k self then ({[ candidate ]} ∪ blue, red)
  else (blue, {[ candidate ]} ∪ red).

(** The blue set a block inherits from its selected parent. *)
Definition inherited_blue (dag : Dag) (sp : Hash) : gset Hash :=
  match get_block dag sp with
  | Some parent_block => {[ sp ]} ∪ blue_set parent_block
  | None => ∅
  end.

Definition build_blue_set (self : GhostDag) (dag : Dag) (sp : Hash) : gset Hash * gset Hash :=
  foldl (color_candidate self dag) (inherited_blue dag sp, ∅) (get_anticone dag sp).

Definition recompute_block (self : GhostDag) (hash : Hash) (dag : Dag) : bool * Dag :=
  match get_block dag hash with
  | None => (false, dag)
  | Some block =>
      if bool_decide (parents (header block) = ∅) then (false, dag)
      else if negb (forallb (λ p, bool_decide (is_Some (get_block dag p)))
                      (elements (parents (header block)))) then (false, dag)
      else
        let parents_vec := sort_hashes (elements (parents (header block))) in
        match select_parent dag parents_vec with
        | None => (false, dag)
        | Some sp =>
            let '(blue, red) := build_blue_set self dag sp in
            let score := wadd 64 (score_of dag sp) (Z.of_nat (size blue)) in
            if bool_decide (selected_parent block = Some sp)
               && bool_decide (blue_set block = blue)
               && bool_decide (red_set block = red)
               && (blue_score block =? score)
            then (false, dag)
            else (true, set_blocks (<[hash := set_coloring (Some sp) blue red score block]>
                                      (blocks dag)) dag)
        end
  end.

(** ** The virtual block and the orders *)
Definition build_virtual_block (self : GhostDag) (dag : Dag) : VirtualBlock :=
  let ts := get_tips dag in
  let rest :=
    match select_parent dag ts with
    | Some sp =>
        let '(blue, red) := build_blue_set self dag sp in
        {| v_parents := list_to_set ts; v_selected_parent := Some sp; v_blue_set := blue;
           v_red_set := red;
           v_blue_score := wadd 64 (score_of dag sp) (Z.of_nat (size blue)) |}
    | None =>
        {| v_parents := list_to_set ts; v_selected_parent := None; v_blue_set := ∅;
           v_red_set := ∅; v_blue_score := 0 |}
    end in
  match get_all_hashes dag with
  | [] => {| v_parents := ∅; v_selected_parent := None; v_blue_set := ∅; v_red_set := ∅;
             v_blue_score := 0 |}
  | [only_block_hash] =>
      match get_block dag only_block_hash with
      | Some b => {| v_parents := list_to_set ts; v_selected_parent := selected_parent b;
                     v_blue_set := blue_set b; v_red_set := red_set b;
                     v_blue_score := blue_score b |}
      | None => rest
      end
  | _ => rest
  end.

(** [while let Some(h) = current { visit h; current = h.selected_parent }],
    stopping before a block that satisfies [stop].  The fuel is the number of
    blocks; [None] says the chain is longer. *)
Fixpoint selected_chain (dag : Dag) (stop : Hash → bool) (fuel : nat) (current : option Hash) :
    option (list Hash) :=
  match current with
  | None => Some []
  | Some h =>
      if stop h then Some [] else
      match fuel with
      | O => None
      | S fuel =>
          cons h <$> selected_chain dag stop fuel
            (match get_block dag h with Some b => selected_parent b | None => None end)
      end
  end.

Definition chain_fuel (dag : Dag) : nat := S (get_block_count dag).

Definition get_virtual_selected_chain (self : GhostDag) (dag : Dag) : option (list Hash) :=
  reverse <$> selected_chain dag (λ _, false) (chain_fuel dag)
                (v_selected_parent (build_virtual_block self dag)).

(** The order of [get_virtual_ordering] and [get_ordering]: score, then hash. *)
Definition score_leb (dag : Dag) (a b : Hash) : bool :=
  if score_of dag a <? score_of dag b then true
  else if score_of dag b <? score_of dag a then false else hash_leb a b.

Definition get_virtual_ordering (dag : Dag) : list Hash :=
  sort_by (score_leb dag) (get_all_hashes dag).

Definition get_ordering (dag : Dag) : list Hash :=
  sort_by (score_leb dag) (get_all_hashes dag).

(** ** Topological order

    The queue is a list whose head is the end of the [Vec]. *)
Definition indegree_in (dag : Dag) (node_set : gset Hash) (hash : Hash) : nat :=
  match get_block dag hash with
  | Some block => size (parents (header block) ∩ node_set)
  | None => 0%nat
  end.

Definition release_child (st : gmap Hash nat * list Hash) (c : Hash) : gmap Hash nat * list Hash :=
  let '(indegree, queue) := st in
  match indegree !! c with
  | Some deg =>
      let deg := (deg - 1)%nat in
      (<[c := deg]> indegree, if bool_decide (deg = 0%nat) then c :: queue else queue)
  | None => st
  end.

Definition children_in (dag : Dag) (node_set : gset Hash) (current : Hash) : list Hash :=
  match get_block dag current with
  | Some block => sort_hashes (elements (children block ∩ node_set))
  | None => []
  end.

Fixpoint topological_loop (dag : Dag) (node_set : gset Hash) (fuel : nat)
    (indegree : gmap Hash nat) (queue sorted : list Hash) : list Hash :=
  match fuel with
  | O => sorted
  | S fuel =>
      match queue with
      | [] => sorted
      | current :: queue =>
          let '(indegree, queue) :=
            foldl release_child (indegree, queue) (children_in dag node_set current) in
          topological_loop dag node_set fuel indegree queue (sorted ++ [current])
      end
  end.

Definition topological_sort (dag : Dag) (nodes : gset Hash) : list Hash :=
  let indegree : gmap Hash nat := set_to_map (λ h, (h, indegree_in dag nodes h)) nodes in
  let queue := sort_hashes
    (filter (λ h, indegree_in dag nodes h = 0%nat) (elements nodes)) in
  topological_loop dag nodes (S (size nodes)) indegree (reverse queue) [].

(** ** Insertion *)

(** [affected_set]: the parents of the block and their descendants. *)
Definition affected_set (dag : Dag) (block : BlockNode) : gset Hash :=
  list_to_set (elements (parents (header block))
    ++ mjoin ((λ p, get_descendants dag p) <$> elements (parents (header block)))).

Definition process_block (self : GhostDag) (block_hash : Hash) (dag : Dag) : Dag :=
  match get_block dag block_hash with
  | None => dag
  | Some block =>
      let dag :=
        if bool_decide (parents (header block) = ∅)
        then set_blocks (<[block_hash := set_coloring None ∅ ∅ 1 block]> (blocks dag)) dag
        else (recompute_block self block_hash dag).2 in
      let sorted_descendants := topological_sort dag (affected_set dag block) in
      foldl (λ dag descendant, (recompute_block self descendant dag).2) dag sorted_descendants
  end.

Definition get_red_set (dag : Dag) (hash : Hash) : gset Hash :=
  match get_block dag hash with Some b => red_set b | None => ∅ end.

(** [Iterator::max_by]: the last of the greatest elements. *)
Definition max_by {A} (cmp_le : A → A → bool) (l : list A) : option A :=
  foldl (λ m x, match m with
                | None => Some x
                | Some y => if cmp_le y x then Some x else Some y
                end) None l.

(** [s1.cmp(s2).then(h2.cmp(h1))] *)
Definition virtual_leb (x y : Hash * Z) : bool :=
  if x.2 <? y.2 then true else if y.2 <? x.2 then false else hash_leb y.1 x.1.

Section virtual.
Context `{Blake3}.

Definition genesis_bytes : list byte := String.list_byte_of_string "genesis".

Definition get_virtual_block (dag : Dag) : option Hash :=
  match get_all_hashes dag with
  | [] => Some (Hash_new genesis_bytes)
  | all_hashes => fst <$> max_by virtual_leb (parent_scores dag all_hashes)
  end.
End virtual.

(** ** Finality and reorganisation *)
Definition check_finality (self : GhostDag) (dag : Dag) (block_hash : Hash)
    (finality_threshold : Z) : bool :=
  let virtual_block := build_virtual_block self dag in
  Z.max finality_threshold FINALITY_DEPTH <=?
    sat_sub (v_blue_score virtual_block) (score_of dag block_hash).

(** The walk of [can_reorganize]; it stops by itself after 10001 steps. *)
Fixpoint reorg_depth (dag : Dag) (vparents : gset Hash) (fuel : nat) (current : option Hash)
    (depth : Z) : outcome CoreError Z :=
  match current with
  | None => Ok depth
  | Some hash =>
      if bool_decide (hash ∈ vparents) then Ok depth else
      match fuel with
      | O => Err (ConsensusError "Chain too deep while finding common ancestor")
      | S fuel =>
          reorg_depth dag vparents fuel
            (match get_block dag hash with Some b => selected_parent b | None => None end)
            (depth + 1)
      end
  end.

Definition MAX_REORG_WALK : nat := 10000.

Definition can_reorganize (self : GhostDag) (dag : Dag) (target_block : Hash) :
    outcome CoreError bool :=
  let virtual_block := build_virtual_block self dag in
  _ ← ok_or (get_block dag target_block) (ConsensusError "Block {} not found");
  depth ← reorg_depth dag (v_parents virtual_block) MAX_REORG_WALK (Some target_block) 0;
  Ok (depth <=? FINALITY_DEPTH).

Definition should_reorganize (self : GhostDag) (dag : Dag) : option Hash :=
  let virtual_block := build_virtual_block self dag in
  match max_by (λ x y : Hash * Z, x.2 <=? y.2) (parent_scores dag (get_tips dag)) with
  | None => None
  | Some (best_tip, _) =>
      if bool_decide (Some best_tip = v_selected_parent virtual_block) then None
      else Some best_tip
  end.

Section reorganize.
Context `{Blake3}.

(** [order] is the [HashSet] order of [find_common_ancestor]; [None] inside
    the result says that a chain of selected parents does not end. *)
Definition reorganize_to_tip (order : gset Hash → list Hash) (self : GhostDag) (dag : Dag)
    (new_tip : Hash) : outcome CoreError (option (list Hash)) :=
  let virtual_block := build_virtual_block self dag in
  let from := match v_selected_parent virtual_block with
              | Some sp => sp
              | None => Hash_new []
              end in
  common_ancestor ← ok_or (find_common_ancestor order dag from new_tip)
    (ConsensusError "No common ancestor found for reorganization");
  let stop h := bool_decide (h = common_ancestor) in
  Ok (to_disconnect ← selected_chain dag stop (chain_fuel dag) (v_selected_parent virtual_block);
      to_connect ← selected_chain dag stop (chain_fuel dag) (Some new_tip);
      Some (to_disconnect ++ reverse to_connect)).
End reorganize.

(** ** Kahn's algorithm is correct *)
Section topological.
Context (d : Dag) (N : gset Hash).

(** The parents in [N] that are still to be output. *)
Definition pending (sorted : list Hash) (h : Hash) : gset Hash :=
  match blocks d !! h with
  | Some b => parents (header b) ∩ N ∖ list_to_set sorted
  | None => ∅
  end.

Lemma elem_of_pending sorted h p : p ∈ pending sorted h ↔ parent d h p ∧ p ∈ N ∧ p ∉ sorted.
Proof.
  unfold pending, parent. destruct (blocks d !! h) as [b|]; [|set_solver].
  rewrite elem_of_difference, elem_of_intersection, elem_of_list_to_set. naive_solver.
Qed.

Definition after_parents (sorted : list Hash) : Prop :=
  ∀ l1 x l2, sorted = l1 ++ x :: l2 → ∀ p, parent d x p → p ∈ N → p ∈ l1.

Record kahn (ind : gmap Hash nat) (queue sorted : list Hash) : Prop := {
  ka_dom : dom ind = N;
  ka_ind : ∀ h, h ∈ N → ind !! h = Some (size (pending sorted h));
  ka_nodup : NoDup (queue ++ sorted);
  ka_ready : ∀ h, h ∈ queue ∨ h ∈ sorted ↔ h ∈ N ∧ pending sorted h = ∅;
  ka_order : after_parents sorted
}.

(** Releasing the children of a node decrements each once and queues those that
    reach zero. *)
Lemma release_children cs (ind : gmap Hash nat) queue :
  NoDup cs → (∀ c, c ∈ cs → is_Some (ind !! c)) →
  ∃ news, foldl release_child (ind, queue) cs
    = (foldl (λ m c, alter pred c m) ind cs, news ++ queue)
  ∧ NoDup news ∧ ∀ c, c ∈ news ↔ c ∈ cs ∧ (∃ n, ind !! c = Some n ∧ (n ≤ 1)%nat).
Proof.
  intros Hnd; revert ind queue; induction Hnd as [|c cs Hc _ IH]; intros ind queue Hp; cbn.
  { exists []. split_and!; [done|constructor|]. intros c. rewrite elem_of_nil. naive_solver. }
  destruct (Hp c ltac:(left)) as [n Hn]. rewrite Hn.
  assert (Ha : <[c := (n - 1)%nat]> ind = alter pred c ind).
  { apply map_eq. intros j. rewrite lookup_insert, lookup_alter. case_decide; [|done].
    subst. rewrite Hn. cbn. do 2 f_equal. lia. }
  rewrite Ha. case_bool_decide as H0.
  all: destruct (IH (alter pred c ind) (if bool_decide (n - 1 = 0)%nat then c :: queue else queue))
    as (news & E & Hnn & Hin).
  1,3: intros j Hj; rewrite lookup_alter_ne; [apply Hp; by right|by intros ->].
  all: assert (Hext : ∀ j, j ∈ news ↔ j ∈ cs ∧ ∃ n, ind !! j = Some n ∧ (n ≤ 1)%nat)
    by (intros j; rewrite Hin; split; intros [Hj Hx]; (split; [done|]);
        rewrite lookup_alter_ne in *; (done || by intros ->)).
  - rewrite bool_decide_eq_true_2 in E by done. exists (news ++ [c]). split_and!.
    + rewrite E. by rewrite <- (assoc_L (++)).
    + apply NoDup_app. split_and!; [done| |apply NoDup_singleton].
      intros j [Hj _]%Hext ->%list_elem_of_singleton. done.
    + intros j. rewrite elem_of_app, list_elem_of_singleton, elem_of_cons, Hext. split.
      * intros [[? ?]| ->]; [by split; [right|]|]. split; [by left|]. exists n. split; [done|lia].
      * intros [[->|?] ?]; [by right|by left].
  - rewrite bool_decide_eq_false_2 in E by done. exists news. split_and!; [done|done|].
    intros j. rewrite elem_of_cons, Hext. split; [naive_solver|].
    intros [[->|?] ?]; [|done]. exfalso. destruct H as (m & ? & ?). simplify_eq. lia.
Qed.

Context (Hwf : dag_wf d).

Lemma children_in_spec x c : c ∈ children_in d N x ↔ parent d c x ∧ c ∈ N.
Proof.
  rewrite <- (wf_dual d Hwf). unfold children_in, child, get_block.
  destruct (blocks d !! x) as [b|].
  - rewrite elem_of_sort_hashes, elem_of_elements, elem_of_intersection. naive_solver.
  - rewrite elem_of_nil. naive_solver.
Qed.

Lemma children_in_NoDup x : NoDup (children_in d N x).
Proof.
  unfold children_in. destruct (get_block d x); [|constructor].
  apply NoDup_sort_hashes, NoDup_elements.
Qed.

Lemma pending_snoc sorted x h :
  pending (sorted ++ [x]) h = pending sorted h ∖ {[ x ]}.
Proof.
  apply set_eq. intros p. rewrite elem_of_difference, !elem_of_pending, elem_of_app,
    list_elem_of_singleton, elem_of_singleton. tauto.
Qed.

Lemma size_pending_snoc sorted x h :
  size (pending (sorted ++ [x]) h)
  = (if bool_decide (x ∈ pending sorted h) then pred (size (pending sorted h))
     else size (pending sorted h)).
Proof.
  rewrite pending_snoc. case_bool_decide as Hx.
  - rewrite size_difference, size_singleton by set_solver. lia.
  - f_equal. set_solver.
Qed.

Lemma kahn_step ind x queue sorted :
  kahn ind (x :: queue) sorted →
  let '(ind', queue') := foldl release_child (ind, queue) (children_in d N x) in
  kahn ind' queue' (sorted ++ [x]).
Proof.
  intros [Hdom Hind Hnd Hready Hord].
  assert (HxN : x ∈ N ∧ pending sorted x = ∅) by (apply Hready; left; left).
  assert (Hxs : x ∉ sorted).
  { intros Hx. rewrite <- app_comm_cons in Hnd. apply NoDup_cons in Hnd as [Hn _].
    apply Hn, elem_of_app. by right. }
  destruct (release_children (children_in d N x) ind queue) as (news & E & Hnn & Hin).
  { apply children_in_NoDup. }
  { intros c [_ Hc]%children_in_spec. apply elem_of_dom. by rewrite Hdom. }
  rewrite E.
  assert (Hpx : ∀ c, c ∈ N → x ∈ pending sorted c ↔ c ∈ children_in d N x).
  { intros c Hc. rewrite elem_of_pending, children_in_spec. tauto. }
  assert (Hind' : ∀ h, h ∈ N → foldl (λ m c, alter pred c m) ind (children_in d N x) !! h
                        = Some (size (pending (sorted ++ [x]) h))).
  { intros h Hh. rewrite foldl_alter_lookup by apply children_in_NoDup.
    rewrite (Hind h Hh), size_pending_snoc. cbn.
    case_decide as Hc; [rewrite bool_decide_eq_true_2|rewrite bool_decide_eq_false_2]; try done;
      by rewrite (Hpx h Hh). }
  assert (Hnews : ∀ c, c ∈ news ↔ c ∈ N ∧ pending (sorted ++ [x]) c = ∅ ∧ pending sorted c ≠ ∅).
  { intros c. rewrite Hin. split.
    - intros [Hc (n & Hn & Hle)]. pose proof Hc as [Hpc HcN]%children_in_spec.
      rewrite (Hind c HcN) in Hn. injection Hn as <-.
      assert (Hxp : x ∈ pending sorted c) by by apply Hpx. split_and!; [done| |set_solver].
      rewrite pending_snoc. apply leibniz_equiv, size_empty_inv. rewrite size_difference, size_singleton by set_solver. lia.
    - intros (HcN & He & Hne). rewrite pending_snoc in He.
      assert (Hxp : x ∈ pending sorted c).
      { apply set_choose_L in Hne as [y Hy]. destruct (decide (y = x)) as [->|]; [done|set_solver]. }
      split; [by apply Hpx|]. exists (size (pending sorted c)). split; [by apply Hind|].
      assert (Hs : size (pending sorted c ∖ {[x]}) = 0%nat) by (by rewrite He, size_empty).
      rewrite size_difference, size_singleton in Hs by set_solver. lia. }
  split.
  - etrans; [|exact Hdom]. apply set_eq. intros h. rewrite !elem_of_dom.
    rewrite foldl_alter_lookup by apply children_in_NoDup. case_decide; [|done].
    by rewrite fmap_is_Some.
  - done.
  - rewrite (assoc_L (++)). rewrite <- app_comm_cons in Hnd.
    apply NoDup_cons in Hnd as [Hx Hnd]. rewrite elem_of_app in Hx.
    apply NoDup_app in Hnd as (Hq & Hqs & Hs).
    assert (Hnq : ∀ c, c ∈ news → c ∉ queue ∧ c ∉ sorted).
    { intros c (_ & _ & Hne)%Hnews. split; intros Hc; apply Hne, Hready.
      - left. by right.
      - by right. }
    rewrite !NoDup_app. split_and!; try done.
    + intros c Hc. by apply Hnq.
    + intros c [Hc|Hc]%elem_of_app; [by apply Hnq|by apply Hqs].
    + intros c Hc ->%list_elem_of_singleton.
      apply elem_of_app in Hc as [[Hc|Hc]%elem_of_app|Hc]; [|tauto|done].
      apply Hnews in Hc as (_ & _ & Hne). by apply Hne, HxN.
    + apply NoDup_singleton.
  - intros h. rewrite !elem_of_app, list_elem_of_singleton. split.
    + intros [[(? & ? & _)%Hnews|Hq]|[Hs| ->]]; [done|..].
      * destruct (proj1 (Hready h)) as [? He]; [left; by right|]. split; [done|].
        rewrite pending_snoc. set_solver.
      * destruct (proj1 (Hready h)) as [? He]; [by right|]. split; [done|].
        rewrite pending_snoc. set_solver.
      * split; [tauto|]. rewrite pending_snoc. set_solver.
    + intros [HhN He]. destruct (decide (pending sorted h = ∅)) as [H0|H0].
      * destruct (proj2 (Hready h)) as [Hq|Hs]; [done| |right; by left].
        apply elem_of_cons in Hq as [->|Hq]; [right; by right|left; by right].
      * left. left. by apply Hnews.
  - intros l1 y l2 El p Hp HpN. destruct l2 as [|z l2 _] using rev_ind.
    + apply app_inj_2 in El as [E1 [= <-]]; [|done]. subst l1.
      destruct HxN as [_ He]. apply dec_stable. intros Hn.
      assert (p ∈ pending sorted x) by by apply elem_of_pending. set_solver.
    + rewrite app_comm_cons, (assoc_L (++)) in El. apply app_inj_2 in El as [-> _]; [|done].
      by eapply Hord.
Qed.

Lemma kahn_length ind queue sorted : kahn ind queue sorted → (length queue + length sorted ≤ size N)%nat.
Proof.
  intros [_ _ Hnd Hready _]. rewrite <- length_app.
  rewrite <- (size_list_to_set (C:=gset Hash) (queue ++ sorted)) by done.
  apply subseteq_size. intros h. rewrite elem_of_list_to_set, elem_of_app. intros [? _]%Hready. done.
Qed.

Lemma topological_loop_spec fuel ind queue sorted :
  kahn ind queue sorted → (size N < fuel + length sorted)%nat →
  ∃ ind' r, topological_loop d N fuel ind queue sorted = r ∧ kahn ind' [] r.
Proof.
  revert ind queue sorted; induction fuel as [|fuel IH]; intros ind queue sorted Hk Hf; cbn.
  - apply kahn_length in Hk. lia.
  - destruct queue as [|x queue]; [by exists ind, sorted|].
    pose proof (kahn_step ind x queue sorted Hk) as Hstep.
    destruct (foldl release_child _ _) as [ind' queue'].
    apply (IH _ _ _ Hstep). rewrite length_app. cbn. lia.
Qed.

(** An empty queue means that everything was output. *)
Lemma kahn_complete ind sorted h : kahn ind [] sorted → h ∈ N → h ∈ sorted.
Proof.
  intros [_ _ _ Hready _]. induction (wf_acyclic d Hwf h) as [h _ IH]. intros Hh.
  destruct (proj2 (Hready h)) as [[]%not_elem_of_nil|?]; [|done].
  split; [done|]. apply set_eq. intros p. split; [|set_solver].
  rewrite elem_of_pending. intros (Hp & HpN & Hn). exfalso. by apply Hn, IH.
Qed.

Lemma topological_sort_kahn :
  ∃ ind', kahn ind' [] (topological_sort d N).
Proof.
  unfold topological_sort.
  edestruct (topological_loop_spec (S (size N))) as (ind' & r & -> & Hk); [|cbn; lia|by exists ind'].
  assert (Hpend : ∀ h, indegree_in d N h = size (pending [] h)).
  { intros h. unfold indegree_in, get_block, pending. destruct (blocks d !! h); [|done].
    f_equal. set_solver. }
  split.
  - apply set_eq. intros h. rewrite elem_of_dom. split.
    + intros [n Hn]. apply lookup_set_to_map in Hn; [|done]. naive_solver.
    + intros Hh. eexists. apply lookup_set_to_map; [done|]. by exists h.
  - intros h Hh. apply lookup_set_to_map; [done|]. exists h. split; [done|]. by rewrite Hpend.
  - rewrite app_nil_r. rewrite reverse_Permutation.
    apply NoDup_sort_hashes, NoDup_filter, NoDup_elements.
  - intros h. rewrite elem_of_reverse, elem_of_sort_hashes, list_elem_of_filter, elem_of_elements,
      elem_of_nil, Hpend, size_empty_iff, leibniz_equiv_iff. tauto.
  - intros l1 x l2 E. by destruct l1.
Qed.
End topological.

(** ** The selected parent *)
Lemma parent_leb_total x y : parent_leb x y = true ∨ parent_leb y x = true.
Proof.
  unfold parent_leb. destruct (Z.ltb_spec y.2 x.2), (Z.ltb_spec x.2 y.2); auto using hash_leb_total.
Qed.

Lemma parent_leb_trans x y z :
  parent_leb x y = true → parent_leb y z = true → parent_leb x z = true.
Proof.
  unfold parent_leb.
  destruct (Z.ltb_spec y.2 x.2), (Z.ltb_spec x.2 y.2), (Z.ltb_spec z.2 y.2), (Z.ltb_spec y.2 z.2),
    (Z.ltb_spec z.2 x.2), (Z.ltb_spec x.2 z.2); try done; try lia. apply hash_leb_trans.
Qed.

Lemma sorted_head {A} (R : A → A → Prop) l x :
  StronglySorted R l → head l = Some x → ∀ y, y ∈ l → y = x ∨ R x y.
Proof.
  destruct 1 as [|z l _ Hz]; [done|]. intros [= ->] y [->|Hy]%elem_of_cons; [by left|right].
  by eapply Forall_forall in Hz.
Qed.

Lemma elem_of_parent_scores d ps h s :
  (h, s) ∈ parent_scores d ps ↔ h ∈ ps ∧ ∃ b, get_block d h = Some b ∧ s = blue_score b.
Proof.
  unfold parent_scores. rewrite list_elem_of_omap. split.
  - intros (p & Hp & (b & Hb & [= -> ->])%fmap_Some). eauto.
  - intros [Hp (b & Hb & ->)]. exists h. split; [done|]. by rewrite Hb.
Qed.

Lemma score_of_block d h b : get_block d h = Some b → score_of d h = blue_score b.
Proof. unfold score_of. by intros ->. Qed.

Lemma select_parent_Some d ps sp :
  select_parent d ps = Some sp →
  sp ∈ ps ∧ is_Some (get_block d sp) ∧
  ∀ p, p ∈ ps → is_Some (get_block d p) →
    parent_leb (sp, score_of d sp) (p, score_of d p) = true.
Proof.
  unfold select_parent. intros ([sp' s] & Hh & E)%fmap_Some. cbn in E. subst sp'.
  assert (Hin : (sp, s) ∈ parent_scores d ps).
  { rewrite <- (elem_of_sort_by parent_leb). destruct (sort_by _ _); [done|].
    injection Hh as ->. left. }
  apply elem_of_parent_scores in Hin as [Hp (b & Hb & ->)].
  split; [done|]. split; [by eexists|]. intros p Hpp [b' Hb'].
  rewrite (score_of_block d sp b Hb), (score_of_block d p b' Hb').
  destruct (sorted_head _ _ _ (sort_by_sorted parent_leb parent_leb_total parent_leb_trans
    (parent_scores d ps)) Hh (p, blue_score b')) as [E|E]; [| |done].
  - apply elem_of_sort_by, elem_of_parent_scores. eauto.
  - injection E as -> ->. unfold parent_leb. rewrite Z.ltb_irrefl. apply hash_leb_refl.
Qed.

Lemma select_parent_None d ps :
  select_parent d ps = None ↔ ∀ p, p ∈ ps → get_block d p = None.
Proof.
  unfold select_parent. rewrite fmap_None. split.
  - intros Hh p Hp. destruct (get_block d p) as [b|] eqn:Hb; [|done].
    assert (Hin : (p, blue_score b) ∈ sort_by parent_leb (parent_scores d ps)).
    { apply elem_of_sort_by, elem_of_parent_scores. eauto. }
    destruct (sort_by _ _); [by apply not_elem_of_nil in Hin|done].
  - intros Hn. destruct (sort_by _ _) as [|[p s] l] eqn:E; [done|].
    assert (Hin : (p, s) ∈ parent_scores d ps).
    { rewrite <- (elem_of_sort_by parent_leb), E. left. }
    apply elem_of_parent_scores in Hin as [Hp (b & Hb & _)]. by rewrite Hn in Hb.
Qed.

(** ** Coloring reads links, and the parents' colors *)
Definition links (b : BlockNode) : BlockHeader * gset Hash := (header b, children b).
Definition same_links (d d' : Dag) : Prop :=
  tips d = tips d' ∧ ∀ h, links <$> blocks d !! h = links <$> blocks d' !! h.

#[global] Instance same_links_equiv : Equivalence same_links.
Proof.
  split.
  - by intros d.
  - intros d d' [H1 H2]. split; [done|]. intros h. by rewrite H2.
  - intros d1 d2 d3 [H1 H2] [H3 H4]. split; [congruence|]. intros h. by rewrite H2.
Qed.

Section same_links.
Context (d d' : Dag) (Hl : same_links d d').

Lemma same_links_lookup h b :
  blocks d !! h = Some b → ∃ b', blocks d' !! h = Some b' ∧ header b' = header b ∧ children b' = children b.
Proof.
  intros Hb. pose proof (proj2 Hl h) as E. rewrite Hb in E. cbn in E.
  destruct (blocks d' !! h) as [b'|]; [|done]. injection E as E1 E2. by exists b'.
Qed.

Lemma same_links_is_Some h : is_Some (blocks d !! h) ↔ is_Some (blocks d' !! h).
Proof. by rewrite <- (fmap_is_Some links), (proj2 Hl h), fmap_is_Some. Qed.

Lemma same_links_dom : dom (blocks d) = dom (blocks d').
Proof. apply set_eq. intros h. by rewrite !elem_of_dom, same_links_is_Some. Qed.

Lemma same_links_sorted_parents : sorted_parents d = sorted_parents d'.
Proof.
  apply functional_extensionality. intros c. pose proof (proj2 Hl c) as E. unfold sorted_parents.
  destruct (blocks d !! c), (blocks d' !! c); cbn in E; try done. injection E as E1 E2. by rewrite ?E1, ?E2.
Qed.

Lemma same_links_sorted_children : sorted_children d = sorted_children d'.
Proof.
  apply functional_extensionality. intros c. pose proof (proj2 Hl c) as E. unfold sorted_children.
  destruct (blocks d !! c), (blocks d' !! c); cbn in E; try done. injection E as E1 E2. by rewrite ?E1, ?E2.
Qed.

Lemma same_links_descendants h : get_descendants d h = get_descendants d' h.
Proof.
  unfold get_descendants, edge_count. by rewrite same_links_sorted_children, same_links_dom.
Qed.

Lemma same_links_ancestors h : get_ancestors d h = get_ancestors d' h.
Proof.
  unfold get_ancestors, parents_of, edge_count.
  by rewrite same_links_sorted_parents, same_links_dom.
Qed.

Lemma same_links_anticone h : get_anticone d h = get_anticone d' h.
Proof.
  unfold get_anticone, get_all_hashes.
  by rewrite same_links_ancestors, same_links_descendants, same_links_dom.
Qed.

Lemma same_links_parent c p : parent d c p ↔ parent d' c p.
Proof. by rewrite <- !elem_of_sorted_parents, same_links_sorted_parents. Qed.

Lemma same_links_child c p : child d c p ↔ child d' c p.
Proof. by rewrite <- !elem_of_sorted_children, same_links_sorted_children. Qed.
End same_links.

Lemma same_links_wf d d' : same_links d d' → dag_wf d → dag_wf d'.
Proof.
  intros Hl Hwf. pose proof (symmetry Hl) as Hl'. split.
  - intros h b' Hb'. destruct (same_links_lookup d' d Hl' h b' Hb') as (b & Hb & E & _).
    rewrite <- E. by eapply wf_key.
  - intros c p Hp. apply (same_links_is_Some d d' Hl). eapply wf_closed; [done|].
    by apply (same_links_parent d d' Hl).
  - intros p c. rewrite <- (same_links_child d d' Hl), <- (same_links_parent d d' Hl).
    apply (wf_dual d Hwf).
  - intros h. rewrite <- (proj1 Hl), (wf_tips d Hwf). split.
    + intros (b & Hb & Hc). destruct (same_links_lookup d d' Hl h b Hb) as (b' & ? & _ & E).
      exists b'. split; [done|congruence].
    + intros (b & Hb & Hc). destruct (same_links_lookup d' d Hl' h b Hb) as (b' & ? & _ & E).
      exists b'. split; [done|congruence].
  - intros h. induction (wf_acyclic d Hwf h) as [h _ IH]. constructor. intros p Hp.
    apply IH. by apply (same_links_parent d d' Hl).
  - intros h1 b1 h2 b2 H1 H2.
    destruct (same_links_lookup d' d Hl' _ _ H1) as (c1 & E1 & <- & _).
    destruct (same_links_lookup d' d Hl' _ _ H2) as (c2 & E2 & <- & _). by eapply wf_genesis.
Qed.

(** ** Recoloring *)
Section recoloring.
Context (self : GhostDag).

(** The block carries the colors its parents give it. *)
Definition colored (d : Dag) (h : Hash) : Prop :=
  ∃ b sp, get_block d h = Some b
  ∧ select_parent d (sort_hashes (elements (parents (header b)))) = Some sp
  ∧ selected_parent b = Some sp
  ∧ build_blue_set self d sp = (blue_set b, red_set b)
  ∧ blue_score b = wadd 64 (score_of d sp) (Z.of_nat (size (blue_set b))).

(** Recoloring changes the four color fields of one block, or nothing. *)
Lemma recompute_ne h d g : g ≠ h → get_block (recompute_block self h d).2 g = get_block d g.
Proof.
  intros Hg. unfold recompute_block. destruct (get_block d h) as [b|]; [|done].
  repeat case_match; try done. unfold get_block. cbn. by rewrite lookup_insert_ne.
Qed.

Lemma recompute_same_links h d : same_links d (recompute_block self h d).2.
Proof.
  unfold recompute_block. destruct (get_block d h) as [b|] eqn:Hb; [|reflexivity].
  repeat case_match; try reflexivity. split; [done|]. intros j. cbn. rewrite lookup_insert.
  destruct (decide (h = j)) as [<-|]; [|done]. unfold get_block in Hb. by rewrite Hb.
Qed.

Lemma recompute_fst_false h d : (recompute_block self h d).1 = false → (recompute_block self h d).2 = d.
Proof. unfold recompute_block. repeat case_match; done. Qed.

(** The parents' colors are all a coloring depends on. *)
Lemma select_parent_ext d d' ps :
  (∀ p, p ∈ ps → get_block d p = get_block d' p) → select_parent d ps = select_parent d' ps.
Proof.
  intros Hp. unfold select_parent. enough (E : parent_scores d ps = parent_scores d' ps) by by rewrite E.
  unfold parent_scores. induction ps as [|p ps IH]; cbn; [done|]. rewrite (Hp p) by left.
  rewrite IH; [done|]. intros q Hq. apply Hp. by right.
Qed.

Lemma build_blue_set_ext d d' sp :
  same_links d d' → get_block d sp = get_block d' sp →
  build_blue_set self d sp = build_blue_set self d' sp.
Proof.
  intros Hl Hsp. unfold build_blue_set.
  assert (E : inherited_blue d sp = inherited_blue d' sp) by (unfold inherited_blue; by rewrite Hsp).
  rewrite E, (same_links_anticone d d' Hl sp). clear E.
  generalize (inherited_blue d' sp, (∅ : gset Hash)).
  induction (get_anticone d' sp) as [|c l IH]; intros st; cbn; [done|].
  assert (E : color_candidate self d st c = color_candidate self d' st c).
  { unfold color_candidate. destruct st. by rewrite (same_links_anticone d d' Hl c). }
  by rewrite E.
Qed.

Lemma colored_ext d d' h :
  same_links d d' → get_block d h = get_block d' h →
  (∀ p, parent d h p → get_block d p = get_block d' p) →
  colored d h → colored d' h.
Proof.
  intros Hl Hh Hp (b & sp & Hb & Hsel & Hsp & Hcol & Hs).
  assert (Hps : ∀ p, p ∈ sort_hashes (elements (parents (header b))) → get_block d p = get_block d' p).
  { intros p. rewrite elem_of_sort_hashes, elem_of_elements. intros ?. apply Hp. by exists b. }
  pose proof (select_parent_Some _ _ _ Hsel) as [Hin _].
  exists b, sp. rewrite <- Hh, <- (select_parent_ext d d') by done. split_and!; try done.
  - rewrite <- (build_blue_set_ext d d'); auto.
  - unfold score_of. rewrite <- (Hps sp Hin). done.
Qed.

Lemma recompute_colored d h b :
  dag_wf d → get_block d h = Some b → parents (header b) ≠ ∅ →
  colored (recompute_block self h d).2 h.
Proof.
  intros Hwf Hb Hne.
  assert (Hpar : ∀ p, parent d h p → p ≠ h).
  { intros p Hp ->. apply (wf_no_cycle d h Hwf). by apply tc_once. }
  pose proof (recompute_same_links h d) as Hl. pose proof (recompute_ne h d) as Hkeep.
  unfold recompute_block in *. rewrite Hb in *. rewrite bool_decide_eq_false_2 in * by done.
  assert (Hex : forallb (λ p, bool_decide (is_Some (get_block d p))) (elements (parents (header b))) = true).
  { apply forallb_bool_decide, Forall_forall. intros p Hp%elem_of_elements.
    apply (wf_closed d Hwf h). by exists b. }
  rewrite Hex in *. cbn [negb] in *.
  destruct (select_parent d _) as [sp|] eqn:Hsel.
  2:{ exfalso. apply set_choose_L in Hne as [p Hp]. rewrite select_parent_None in Hsel.
      destruct (wf_closed d Hwf h p) as [c Hc]; [by exists b|].
      unfold get_block in Hsel. rewrite Hsel in Hc; [done|]. by apply elem_of_sort_hashes, elem_of_elements. }
  destruct (build_blue_set self d sp) as [blue red] eqn:Hbuild.
  destruct (bool_decide (selected_parent b = Some sp) && _ && _ && _) eqn:E.
  - apply andb_true_iff in E as [[[E1 E2]%andb_true_iff E3]%andb_true_iff E4].
    apply bool_decide_eq_true in E1, E2, E3. apply Z.eqb_eq in E4. subst blue red.
    by exists b, sp.
  - cbn in *. pose proof (select_parent_Some _ _ _ Hsel) as [Hin _].
    rewrite elem_of_sort_hashes, elem_of_elements in Hin.
    assert (Hsph : sp ≠ h) by (apply Hpar; by exists b).
    eexists (set_coloring _ _ _ _ b), sp. unfold get_block at 1. cbn. rewrite lookup_insert_eq.
    split_and!; [done| |done| |].
    + rewrite <- (select_parent_ext d); [done|].
      intros p. rewrite elem_of_sort_hashes, elem_of_elements. intros Hp.
      symmetry. apply Hkeep, Hpar. by exists b.
    + cbn. rewrite <- (build_blue_set_ext d); [done|done|]. symmetry. by apply Hkeep.
    + cbn. f_equal. unfold score_of. by rewrite Hkeep.
Qed.

(** The final pass: every block of a list in topological order ends colored. *)
Lemma recolor_all N l2 l1 d :
  dag_wf d → NoDup (l1 ++ l2) → (∀ x, x ∈ l1 ++ l2 ↔ x ∈ N) → after_parents d N (l1 ++ l2) →
  (∀ g, g ∈ l1 → is_Some (get_block d g) → (∃ p, parent d g p) → colored d g) →
  let d' := foldl (λ d h, (recompute_block self h d).2) d l2 in
  same_links d d' ∧ (∀ g, g ∉ l2 → get_block d' g = get_block d g)
  ∧ (∀ g, g ∈ l1 ++ l2 → is_Some (get_block d' g) → (∃ p, parent d' g p) → colored d' g).
Proof.
  revert l1 d; induction l2 as [|x l2 IH]; intros l1 d Hwf Hnd HN Hord Hcol; cbn.
  { rewrite app_nil_r. split_and!; done. }
  pose proof (recompute_same_links x d) as Hl.
  set (d1 := (recompute_block self x d).2) in *.
  assert (Hx : x ∉ l1 ∧ x ∉ l2).
  { apply NoDup_app in Hnd as (_ & Hd & [? _]%NoDup_cons). split; [|done].
    intros Hx. apply (Hd x Hx). left. }
  destruct (IH (l1 ++ [x]) d1) as (H1 & H2 & H3).
  - by eapply same_links_wf.
  - by rewrite <- (assoc_L (++)).
  - intros y. rewrite <- (assoc_L (++)). apply HN.
  - rewrite <- (assoc_L (++)). intros k1 y k2 E p Hp. eapply Hord; [done|].
    by apply (same_links_parent d d1 Hl).
  - intros g Hg Hsome (p & Hp). apply (same_links_parent d d1 Hl) in Hp.
    apply elem_of_app in Hg as [Hg| ->%list_elem_of_singleton].
    + assert (Hgx : g ≠ x) by (intros ->; tauto).
      unfold d1 in Hsome |- *. rewrite recompute_ne in Hsome by done.
      apply (colored_ext d); [done|by rewrite recompute_ne| |by apply Hcol; eauto].
      intros q Hq. rewrite recompute_ne; [done|]. intros ->.
      apply list_elem_of_split in Hg as (k1 & k2 & ->).
      destruct Hx as [Hx _]. apply Hx, elem_of_app. left.
      eapply (Hord k1 g (k2 ++ x :: l2)); [by rewrite <- (assoc_L (++))|done|].
      apply HN, elem_of_app. right. left.
    + destruct Hp as (b & Hb & Hp). eapply recompute_colored; [done|exact Hb|set_solver].
  - split_and!.
    + etrans; [exact Hl|done].
    + intros g [Hgx Hg]%not_elem_of_cons. rewrite H2 by done. by apply recompute_ne.
    + intros g. rewrite (assoc_L (++) l1 [x] l2 : l1 ++ x :: l2 = _). apply H3.
Qed.
End recoloring.

Lemma topological_sort_ok d N :
  dag_wf d → NoDup (topological_sort d N) ∧ (∀ x, x ∈ topological_sort d N ↔ x ∈ N)
  ∧ after_parents d N (topological_sort d N).
Proof.
  intros Hwf. destruct (topological_sort_kahn d N Hwf) as [ind Hk]. split_and!.
  - apply (ka_nodup _ _ _ _ _ Hk).
  - intros x. split; [|by eapply kahn_complete].
    intros Hx. by apply (ka_ready _ _ _ _ _ Hk); right.
  - apply (ka_order _ _ _ _ _ Hk).
Qed.

(** ** Blue and red sets *)
Section coloring.
Context (self : GhostDag) (d : Dag).

Definition blue_anticone (blue : gset Hash) (c : Hash) : gset Hash :=
  list_to_set (get_anticone d c) ∩ blue.



End coloring.

(** [process_block] in a well-formed DAG: only colors change, only of the block,
    its parents and their descendants, and each of these ends with the colors
    that its parents, as they finally are, give it. *)
Lemma process_block_colored self d h block :
  dag_wf d → get_block d h = Some block → parents (header block) ≠ ∅ →
  let d' := process_block self h d in
  same_links d d'
  ∧ (∀ g, g ∉ affected_set d block → get_block d' g = get_block d g)
  ∧ (∀ g, g ∈ affected_set d block → (∃ p, parent d g p) → colored self d' g).
Proof.
  intros Hwf Hb Hne. unfold process_block. rewrite Hb, bool_decide_eq_false_2 by done.
  pose proof (recompute_same_links self h d) as Hl.
  set (d1 := (recompute_block self h d).2) in *. pose proof (same_links_wf d d1 Hl Hwf) as Hwf1.
  assert (HN : affected_set d1 block = affected_set d block).
  { unfold affected_set. f_equal. f_equal. f_equal. apply list_fmap_ext.
    intros i p _. symmetry. apply same_links_descendants, Hl. }
  rewrite HN. set (N := affected_set d block).
  destruct (topological_sort_ok d1 N Hwf1) as (Hnd & Hin & Hord).
  destruct (recolor_all self N (topological_sort d1 N) [] d1) as (H1 & H2 & H3); try done.
  { by intros g ?%not_elem_of_nil. }
  cbn in *. assert (HhN : h ∈ N).
  { apply set_choose_L in Hne as [p Hp]. unfold N, affected_set.
    apply elem_of_list_to_set, elem_of_app. right. apply list_elem_of_join.
    exists (get_descendants d p). split.
    - apply elem_of_get_descendants. assert (Hpar : parent d h p) by by exists block. split.
      + intros ->. apply (wf_no_cycle d p Hwf). by apply tc_once.
      + apply rtc_once. by apply (wf_dual d Hwf).
    - apply (list_elem_of_fmap_2 (λ p, get_descendants d p)). by apply elem_of_elements. }
  split_and!.
  - etrans; [exact Hl|done].
  - intros g Hg. rewrite H2 by (by rewrite Hin). unfold d1. rewrite recompute_ne; [done|].
    by intros ->.
  - intros g Hg (p & Hp). assert (Hll : same_links d _) by (etrans; [exact Hl|exact H1]).
    apply H3; [by apply Hin| |].
    + apply (same_links_is_Some _ _ Hll). destruct Hp as (b & -> & _). by eexists.
    + exists p. by apply (same_links_parent _ _ Hll).
Qed.

(** ** Properties *)

(** C25. Kahn's loop outputs every node of the set once, each after its parents in
    the set: it ends within its fuel and the result is a topological order. *)
Theorem topological_sort_correct (d : Dag) (nodes : gset Hash) (Hwf : dag_wf d) :
  NoDup (topological_sort d nodes)
  ∧ (∀ x, x ∈ topological_sort d nodes ↔ x ∈ nodes)
  ∧ (∀ l1 x l2 p, topological_sort d nodes = l1 ++ x :: l2 → p ∈ nodes → parent d x p → p ∈ l1).
Proof.
  destruct (topological_sort_ok d nodes Hwf) as (H1 & H2 & H3). split_and!; [done..|].
  intros l1 x l2 p E Hp Hpar. by eapply H3.
Qed.

(** C24. Processing a block keeps every link, and leaves the block, its parents and
    all their descendants carrying the selected parent, blue and red sets and
    score computed from their own parents: the final pass is a fixed point. *)
Theorem process_block_recolors (self : GhostDag) (d : Dag) (h : Hash) (block : BlockNode)
    (Hwf : dag_wf d) (Hb : get_block d h = Some block) (Hne : parents (header block) ≠ ∅) :
  let d' := process_block self h d in
  dag_wf d' ∧ tips d' = tips d
  ∧ (∀ a b, ancestor d' a b ↔ ancestor d a b)
  ∧ (∀ g, g ∉ affected_set d block → get_block d' g = get_block d g)
  ∧ (∀ g, g = h ∨ parent d h g ∨ (∃ p, parent d h p ∧ ancestor d p g) →
       (∃ p, parent d g p) → colored self d' g ∧ (recompute_block self g d').1 = false).
Proof.
  destruct (process_block_colored self d h block Hwf Hb Hne) as (Hl & Hkeep & Hcol).
  assert (Hwf' : dag_wf (process_block self h d)) by by eapply same_links_wf.
  split_and!; [done|symmetry; apply Hl| |done|].
  { intros a b. rewrite <- !elem_of_get_ancestors. by rewrite (same_links_ancestors _ _ Hl). }
  assert (Hdesc : ∀ p g, parent d h p → ancestor d p g → g ∈ affected_set d block).
  { intros p g (b & Hb' & Hp) Hg. unfold get_block in Hb. rewrite Hb in Hb'. injection Hb' as <-.
    unfold affected_set. apply elem_of_list_to_set, elem_of_app. right.
    apply list_elem_of_join. exists (get_descendants d p). split.
    - apply elem_of_get_descendants. split.
      + intros ->. by apply (wf_no_cycle d p Hwf).
      + apply rtc_child_parent; [done|]. by apply tc_rtc.
    - apply (list_elem_of_fmap_2 (λ p, get_descendants d p)). by apply elem_of_elements. }
  intros g Hg Hpar. assert (Hc : colored self (process_block self h d) g).
  { apply Hcol; [|done]. destruct Hg as [->|[Hg|(p & Hp & Hg)]].
    - apply set_choose_L in Hne as [p Hp]. assert (parent d h p) by by exists block.
      apply (Hdesc p); [done|]. by apply tc_once.
    - destruct Hg as (b & Hb' & Hp). unfold get_block in Hb. rewrite Hb in Hb'. injection Hb' as <-.
      unfold affected_set. apply elem_of_list_to_set, elem_of_app. left. by apply elem_of_elements.
    - by eapply Hdesc. }
  split; [done|]. destruct Hc as (b & sp & Hgb & Hsel & Hsp & Hbuild & Hs).
  unfold recompute_block. rewrite Hgb. case_bool_decide; [done|].
  destruct (negb _); [done|]. rewrite Hsel, Hbuild, Hsp, !bool_decide_eq_true_2 by done. cbn.
  by rewrite (proj2 (Z.eqb_eq _ _) Hs).
Qed.


(** The two orders are the same: all blocks, by blue score and then by hash. *)
Theorem ordering_spec (d : Dag) :
  get_virtual_ordering d = get_ordering d
  ∧ NoDup (get_ordering d)
  ∧ (∀ h, h ∈ get_ordering d ↔ is_Some (get_block d h))
  ∧ StronglySorted (λ a b, score_of d a < score_of d b
       ∨ (score_of d a = score_of d b ∧ hash_leb a b = true)) (get_ordering d).
Proof.
  split; [done|]. unfold get_ordering, get_all_hashes. split_and!.
  - apply NoDup_sort_by, NoDup_sort_hashes, NoDup_elements.
  - intros h. by rewrite elem_of_sort_by, elem_of_sort_hashes, elem_of_elements, elem_of_dom.
  - eapply StronglySorted_weaken; [|apply sort_by_sorted].
    + intros a b. cbn. unfold score_leb.
      destruct (Z.ltb_spec (score_of d a) (score_of d b)),
        (Z.ltb_spec (score_of d b) (score_of d a)); try done;
        (by left) || (intros; right; split; [lia|done]).
    + intros a b. unfold score_leb.
      destruct (Z.ltb_spec (score_of d a) (score_of d b)),
        (Z.ltb_spec (score_of d b) (score_of d a)); auto using hash_leb_total.
    + intros a b c. unfold score_leb.
      destruct (Z.ltb_spec (score_of d a) (score_of d b)), (Z.ltb_spec (score_of d b) (score_of d a)),
        (Z.ltb_spec (score_of d b) (score_of d c)), (Z.ltb_spec (score_of d c) (score_of d b)),
        (Z.ltb_spec (score_of d a) (score_of d c)), (Z.ltb_spec (score_of d c) (score_of d a));
        try done; try lia. apply hash_leb_trans.
Qed.

Lemma reorg_depth_here d vparents fuel h depth :
  h ∈ vparents → reorg_depth d vparents fuel (Some h) depth = Ok depth.
Proof. intros Hh. destruct fuel; cbn; by rewrite bool_decide_eq_true_2. Qed.

(** Every tip may always be reorganised to, whatever its depth below the
    finality horizon; and a block that is not above a tip may be reorganised to
    only while its chain of selected parents to the root is short. *)
Theorem can_reorganize_tip (self : GhostDag) (d : Dag) (target : Hash)
    (Hwf : dag_wf d) (Ht : target ∈ tips d) :
  can_reorganize self d target = Ok true.
Proof.
  pose proof Ht as (b & Hb & _)%(wf_tips d Hwf).
  assert (Hv : target ∈ v_parents (build_virtual_block self d)).
  { assert (Hts : target ∈ get_tips d) by (unfold get_tips; by apply elem_of_sort_hashes, elem_of_elements).
    assert (Hall : target ∈ get_all_hashes d).
    { unfold get_all_hashes. apply elem_of_sort_hashes, elem_of_elements, elem_of_dom. by eexists. }
    unfold build_virtual_block. repeat case_match; cbn; try (by apply elem_of_list_to_set).
    by apply not_elem_of_nil in Hall. }
  unfold can_reorganize. unfold get_block at 1. rewrite Hb.
  by rewrite (reorg_depth_here d _ MAX_REORG_WALK target 0 Hv).
Qed.

(** The bounds of the cluster parameter. *)
Definition k_ok (self : GhostDag) : Prop := 1 ≤ k self ≤ 64.

Lemma adjust_k_cases now self :
  k_ok self → adjust_k now self = self ∨
  (ADJUSTMENT_INTERVAL ≤ wsub 64 now (last_adjustment_time self)
   ∧ last_adjustment_time (adjust_k now self) = now
   ∧ k_ok (adjust_k now self) ∧ Z.abs (k (adjust_k now self) - k self) ≤ 1).
Proof.
  unfold k_ok, adjust_k. intros Hk.
  destruct (Z.ltb_spec (wsub 64 now (last_adjustment_time self)) ADJUSTMENT_INTERVAL); [by left|].
  unfold wadd.
  assert (Ha : wrap 64 (k self + 1) = k self + 1) by (apply wrap_small; unfold fits; lia).
  assert (Hs : wsub 64 (k self) 1 = k self - 1) by (apply wrap_small; unfold fits; lia).
  rewrite Ha, Hs. unfold K_MIN, K_MAX.
  destruct (f64_lt HIGH_LOAD_THRESHOLD (network_load self)); [|destruct (f64_lt (network_load self) _)].
  all: match goal with |- context [?a =? ?b] => destruct (Z.eqb_spec a b) end; [by left|right].
  all: cbn; split_and!; try done; lia.
Qed.

(** [k] stays within its bounds from construction on, moves by at most one per
    adjustment, and only after the interval since the last change. *)
Theorem k_bounded (k0 now : Z) (load : f64) (self : GhostDag) (Hk : k_ok self) :
  k_ok (GhostDag_new k0) ∧ k_ok (update_network_load load self)
  ∧ k_ok (adjust_k now self)
  ∧ Z.abs (k (adjust_k now self) - k self) ≤ 1
  ∧ (k (adjust_k now self) ≠ k self →
       ADJUSTMENT_INTERVAL ≤ wsub 64 now (last_adjustment_time self)
       ∧ last_adjustment_time (adjust_k now self) = now).
Proof.
  pose proof (adjust_k_cases now self Hk) as Hc. unfold k_ok in *. split_and!; try done.
  all: first [destruct Hc as [->|(H1 & H2 & H3 & H4)]; lia
             |unfold GhostDag_new, update_network_load, K_MIN, K_MAX; cbn [k]; lia].
Qed.

(** ** Examples *)

(** A selected parent 2 beside a chain 3, 4, 5, all on the root 1. *)
Definition fork : Dag :=
  add_all [sample_block 1 []; sample_block 2 [1]; sample_block 3 [1]; sample_block 4 [3];
           sample_block 5 [4]].

(** The blue set is no [k]-cluster: the check bounds the anticone of the block
    that is added, not that of the blue blocks already there.  With [k = 1] the
    block 2 is blue with three blue blocks in its anticone. *)
Theorem blue_set_not_cluster :
  let '(blue, red) := build_blue_set (GhostDag_new 1) fork (hash_of 2) in
  red = ∅ ∧ hash_of 2 ∈ blue ∧ size (blue_anticone fork blue (hash_of 2)) = 3%nat.
Proof.
  destruct (build_blue_set (GhostDag_new 1) fork (hash_of 2)) as [blue red] eqn:E.
  assert (Hb : blue = (build_blue_set (GhostDag_new 1) fork (hash_of 2)).1) by (by rewrite E).
  assert (Hr : red = (build_blue_set (GhostDag_new 1) fork (hash_of 2)).2) by (by rewrite E).
  subst. split_and!; [vm_compute; reflexivity| |vm_compute; reflexivity].
  apply (bool_decide_unpack _). vm_compute. exact I.
Qed.

(** A block can be blue and red at once: 3, beside the chain 1, 2, 4, is in the blue
    set of 4; for a child of 4 it is a candidate again, has two blue blocks in its
    anticone, and with [k = 1] it is colored red without leaving the blue set. *)
Definition beside : Dag :=
  foldl (λ d h, process_block (GhostDag_new 1) h d)
    (add_all [sample_block 1 []; sample_block 2 [1]; sample_block 3 [1]; sample_block 4 [2]])
    [hash_of 1; hash_of 2; hash_of 3; hash_of 4].
Theorem blue_and_red_overlap :
  let '(blue, red) := build_blue_set (GhostDag_new 1) beside (hash_of 4) in
  select_parent beside (get_tips beside) = Some (hash_of 4) ∧ red = {[ hash_of 3 ]} ∧ hash_of 3 ∈ blue.
Proof.
  assert (Hv : let '(blue, red) := build_blue_set (GhostDag_new 1) beside (hash_of 4) in
    bool_decide (select_parent beside (get_tips beside) = Some (hash_of 4) ∧ red = {[ hash_of 3 ]} ∧ hash_of 3 ∈ blue) = true)
    by (vm_compute; reflexivity).
  destruct (build_blue_set _ _ _) as [blue red]. by apply bool_decide_eq_true in Hv.
Qed.

(** A root with two children of the same score. *)
Definition tie : Dag :=
  foldl (λ d h, process_block (GhostDag_new 18) h d)
    (add_all [sample_block 1 []; sample_block 2 [1]; sample_block 3 [1]])
    [hash_of 1; hash_of 2; hash_of 3].

(** Two tips of the same score: the virtual block selects the one with the
    smaller hash and [should_reorganize] compares it with the one with the larger
    hash, so a reorganisation is due, and stays due. *)
Theorem should_reorganize_tie :
  score_of tie (hash_of 2) = score_of tie (hash_of 3)
  ∧ v_selected_parent (build_virtual_block (GhostDag_new 18) tie) = Some (hash_of 2)
  ∧ should_reorganize (GhostDag_new 18) tie = Some (hash_of 3).
Proof. split_and!; vm_compute; reflexivity. Qed.

Lemma fork_wf : dag_wf fork.
Proof. apply add_all_wf. by repeat constructor. Qed.

Lemma topological_sort_correct_witness :
  NoDup (topological_sort fork (dom (blocks fork)))
  ∧ topological_sort fork (dom (blocks fork))
    = [hash_of 1; hash_of 3; hash_of 4; hash_of 5; hash_of 2].
Proof.
  split; [apply (topological_sort_correct fork (dom (blocks fork)) fork_wf)|].
  vm_compute. reflexivity.
Defined.

Lemma process_block_recolors_witness :
  let d' := process_block (GhostDag_new 18) (hash_of 5) fork in
  dag_wf d' ∧ colored (GhostDag_new 18) d' (hash_of 5) ∧ colored (GhostDag_new 18) d' (hash_of 4).
Proof.
  cbn zeta.
  assert (Hp4 : parent fork (hash_of 4) (hash_of 3)).
  { apply elem_of_sorted_parents. apply (bool_decide_unpack _). vm_compute. exact I. }
  assert (Hp5 : parent fork (hash_of 5) (hash_of 4)).
  { apply elem_of_sorted_parents. apply (bool_decide_unpack _). vm_compute. exact I. }
  pose proof Hp5 as (b & Hb & Hp).
  destruct (process_block_recolors (GhostDag_new 18) fork (hash_of 5) b fork_wf Hb)
    as (H1 & _ & _ & _ & H2); [intros E; rewrite E in Hp; by apply elem_of_empty in Hp|].
  split; [exact H1|]. split.
  - apply H2; [by left|]. by exists (hash_of 4).
  - apply H2; [by right; left|]. by exists (hash_of 3).
Defined.


Lemma can_reorganize_tip_witness : can_reorganize (GhostDag_new 1) fork (hash_of 2) = Ok true.
Proof.
  apply (can_reorganize_tip _ _ _ fork_wf). apply (bool_decide_unpack _). vm_compute. exact I.
Defined.

Lemma k_bounded_witness : k_ok (adjust_k 5000 (update_network_load f64_one (GhostDag_new 18))).
Proof.
  apply (k_bounded 1 5000 f64_one (update_network_load f64_one (GhostDag_new 18))).
  unfold k_ok. vm_compute. split; discriminate.
Defined.
