(* ===== verification/Pow.v ===== *)
(** * Proof of work and difficulty

    [pow/hash.rs], [pow/miner.rs] and [daa/difficulty.rs]: the header hash, the
    target test, mining, and the two difficulty adjustments.  Floating point is
    IEEE 754 double precision by its executable specification. *)

From S2P Require Import Prelude Crypto Errors Transaction Dag.
From Stdlib Require Import Init.Byte Floats.SpecFloat.

(** ** [pow/hash.rs] *)
Section hash.
Context `{Blake3}.

Definition header_preimage (ts diff : Z) (parent_hashes : list Hash) (merit nonce0 : Z)
    (tx_merkle_root : Hash) : list byte :=
  le_bytes 8 ts ++ le_bytes 8 diff ++ mjoin (as_bytes <$> sort_hashes parent_hashes)
  ++ le_bytes 8 merit ++ le_bytes 8 nonce0 ++ as_bytes tx_merkle_root.

Definition calculate_hash (ts diff : Z) (parent_hashes : list Hash) (merit nonce0 : Z)
    (tx_merkle_root : Hash) : Hash :=
  Hash_new (header_preimage ts diff parent_hashes merit nonce0 tx_merkle_root).

Definition calculate_hash_raw (hdr : list byte) : Hash := Hash_new hdr.

(** The first eight bytes, little endian, below the target. *)
Definition is_valid_pow (hash : Hash) (target : Z) : bool := le_Z (take 8 (as_bytes hash)) <? target.

Record BlockMiningParams := {
  mp_header : list byte;
  mp_target : Z;
  miner_address : list byte;
  node_reward_address : list byte;
  mp_timestamp : Z;
  mp_difficulty : Z;
  mp_parent_hashes : list Hash;
  mp_verkle_root : bytes32
}.

(** The digest tested for one nonce. *)
Definition mining_hash (params : BlockMiningParams) (nonce0 : Z) : Hash :=
  let tx_merkle_root := Hash_new (mp_header params) in
  let hash := calculate_hash (mp_timestamp params) (mp_difficulty params)
                (mp_parent_hashes params) 0 nonce0 tx_merkle_root in
  Hash_new (as_bytes hash ++ as_bytes (mp_verkle_root params) ++ miner_address params
            ++ node_reward_address params).

(** [for nonce in base .. base + 2^w { if valid(nonce) { return Some(nonce) } }],
    halving the range: the loop over all nonces as a structural recursion. *)
Fixpoint first_nonce (valid : Z → bool) (w : nat) (base : Z) : option Z :=
  match w with
  | O => if valid base then Some base else None
  | S w =>
      match first_nonce valid w base with
      | Some n => Some n
      | None => first_nonce valid w (base + 2 ^ Z.of_nat w)
      end
  end.

Definition mine_block (params : BlockMiningParams) : option Z :=
  if bool_decide (miner_address params = []) || bool_decide (node_reward_address params = [])
  then None
  else first_nonce (λ n, is_valid_pow (mining_hash params n) (mp_target params)) 64 0.
End hash.

(** ** Floating point *)
Definition f64_of_Z (z : Z) : spec_float := binary_normalize 53 1024 z 0 false.
Definition f64_div (x y : spec_float) : spec_float := SFdiv 53 1024 x y.
Definition f64_mul (x y : spec_float) : spec_float := SFmul 53 1024 x y.
Definition f64_add (x y : spec_float) : spec_float := SFadd 53 1024 x y.
Definition f64_clip (x lo hi : spec_float) : spec_float :=
  let x := if SFltb x lo then lo else x in
  if SFltb hi x then hi else x.
(** [x.round() as u64]: half away from zero, then saturating. *)
Definition f64_round_u64 (x : spec_float) : Z :=
  match x with
  | S754_zero _ | S754_nan | S754_infinity true | S754_finite true _ _ => 0
  | S754_infinity false => u64_max
  | S754_finite false m e =>
      let v := if 0 <=? e then Z.pos m * 2 ^ e
               else (2 * Z.pos m + 2 ^ (- e)) / (2 * 2 ^ (- e)) in
      Z.min v u64_max
  end.
Definition f64_half : spec_float := S754_finite false (2 ^ 52) (-53).
Definition f64_two : spec_float := S754_finite false (2 ^ 52) (-51).

Definition clamp (x lo hi : Z) : Z := Z.max lo (Z.min x hi).

(** ** [pow/miner.rs] *)
Definition TARGET_BLOCK_TIME : Z := 1.

Record Pow := { pow_difficulty : Z }.
Definition Pow_new (diff : Z) : Pow := {| pow_difficulty := Z.max diff 1 |}.
Definition target (self : Pow) : Z := u64_max / Z.max (pow_difficulty self) 1.

(** [windows(2).map(|w| w[1].saturating_sub(w[0]).max(1))] *)
Fixpoint intervals (ts : list Z) : list Z :=
  match ts with
  | t0 :: (t1 :: _) as rest => Z.max (sat_sub t1 t0) 1 :: intervals rest
  | _ => []
  end.

Definition bound_step (difficulty0 next : Z) : Z :=
  let max_step := Z.max (difficulty0 / 2) 1 in
  if sat_add 64 difficulty0 max_step <? next then sat_add 64 difficulty0 max_step
  else if wadd 64 next max_step <? difficulty0 then sat_sub difficulty0 max_step
  else next.

Definition Pow_calculate_next_difficulty (self : Pow) (block_timestamps : list Z) : Z :=
  if bool_decide (length block_timestamps < 2)%nat
  then clamp (pow_difficulty self) 1 (u64_max / 2)
  else
    let diffs := intervals block_timestamps in
    let sma := f64_div (f64_of_Z (wrap 64 (zsum diffs))) (f64_of_Z (Z.of_nat (length diffs))) in
    let adjustment := f64_div (f64_of_Z TARGET_BLOCK_TIME) sma in
    let next := f64_round_u64 (f64_mul (f64_of_Z (pow_difficulty self)) adjustment) in
    clamp (bound_step (pow_difficulty self) next) 1 (u64_max / 2).

Definition validate_pow (self : Pow) (hash : Hash) : bool := is_valid_pow hash (target self).
Definition verify_pow (hash : Hash) (tgt : Z) : bool := is_valid_pow hash tgt.

(** ** [daa/difficulty.rs] *)
Record Daa := { target_time : Z; window_size : nat }.
Definition Daa_new (tt0 : Z) (ws : nat) : Daa := {| target_time := tt0; window_size := ws |}.

(** [(timestamp, difficulty)] of every block, oldest first. *)
Definition block_times (dag : Dag) : list (Z * Z) :=
  sort_by (λ x y, x.1 <=? y.1)
    (omap (λ h, (λ b, (timestamp (header b), difficulty (header b))) <$> get_block dag h)
       (get_all_hashes dag)).

Definition last_difficulty (l : list (Z * Z)) : Z :=
  match last l with Some (_, diff) => diff | None => 1000 end.

Definition calculate_next_difficulty (self : Daa) (dag : Dag) : Z :=
  match get_all_hashes dag with
  | [] => 1000
  | _ =>
      let bs := block_times dag in
      if bool_decide (length bs < 2)%nat then last_difficulty bs
      else
        let window := drop (length bs - window_size self) bs in
        if bool_decide (length window < 2)%nat then last_difficulty window
        else
          let total_interval := zsum (intervals window.*1) in
          let sma := f64_div (f64_of_Z total_interval)
                       (f64_of_Z (Z.of_nat (length window - 1))) in
          let current_difficulty := f64_of_Z (last_difficulty window) in
          let adjustment := f64_clip (f64_div (f64_of_Z (target_time self)) sma) f64_half f64_two in
          clamp (f64_round_u64 (f64_mul current_difficulty adjustment)) 1 (u64_max / 2)
  end.

(** ** Lemmas *)
Section nonce_search.
Context (valid : Z → bool).

Lemma first_nonce_None w base :
  first_nonce valid w base = None → ∀ j, base ≤ j < base + 2 ^ Z.of_nat w → valid j = false.
Proof.
  revert base; induction w as [|w IH]; intros base; cbn [first_nonce].
  - destruct (valid base) eqn:E; [done|]. intros _ j Hj. cbn in Hj. by replace j with base by lia.
  - rewrite Nat2Z.inj_succ, Z.pow_succ_r by lia.
    destruct (first_nonce valid w base) eqn:E; [done|]. intros E' j Hj.
    destruct (Z.lt_ge_cases j (base + 2 ^ Z.of_nat w)); [eapply IH; [exact E|lia]|].
    eapply IH; [exact E'|lia].
Qed.

Lemma first_nonce_Some w base n :
  first_nonce valid w base = Some n →
  base ≤ n < base + 2 ^ Z.of_nat w ∧ valid n = true ∧ ∀ j, base ≤ j < n → valid j = false.
Proof.
  revert base n; induction w as [|w IH]; intros base n; cbn [first_nonce].
  - destruct (valid base) eqn:E; [|done]. intros [= <-]. split; [cbn; lia|]. split; [done|lia].
  - rewrite Nat2Z.inj_succ, Z.pow_succ_r by lia.
    destruct (first_nonce valid w base) as [m|] eqn:E.
    + intros [= <-]. destruct (IH _ _ E) as (? & ? & ?). split_and!; try done; lia.
    + intros Hn. destruct (IH _ _ Hn) as (H1 & H2 & H3). split_and!; [lia|lia|done|].
      intros j Hj. destruct (Z.lt_ge_cases j (base + 2 ^ Z.of_nat w)) as [Hlt|]; [|apply H3; lia].
      eapply first_nonce_None; [exact E|lia].
Qed.
End nonce_search.

Lemma intervals_pos ts : Forall (λ x, 1 ≤ x) (intervals ts).
Proof.
  induction ts as [|t [|t' ts] IH]; cbn; [constructor|constructor|]. constructor; [lia|done].
Qed.

Lemma bound_step_near D next :
  1 ≤ D ≤ u64_max / 2 → 0 ≤ next ≤ u64_max → Z.abs (bound_step D next - D) ≤ Z.max (D / 2) 1.
Proof.
  intros HD Hn. unfold bound_step, u64_max in *.
  assert (H2 : 2 * (D / 2) ≤ D < 2 * (D / 2) + 2) by (pose proof (Z.div_mod D 2); pose proof (Z.mod_pos_bound D 2); lia).
  assert (HM : D ≤ 9223372036854775807) by (etrans; [apply HD|vm_compute; discriminate]).
  rewrite sat_add_exact by lia.
  destruct (Z.ltb_spec (D + Z.max (D / 2) 1) next); [lia|].
  unfold wadd. rewrite wrap_small by (unfold fits; lia).
  destruct (Z.ltb_spec (next + Z.max (D / 2) 1) D); [|lia].
  unfold sat_sub. lia.
Qed.

Lemma f64_round_u64_bounds x : 0 ≤ f64_round_u64 x ≤ u64_max.
Proof.
  destruct x as [s|[]| |[] m e]; cbn [f64_round_u64]; try (unfold u64_max; lia).
  assert (0 ≤ if 0 <=? e then Z.pos m * 2 ^ e else (2 * Z.pos m + 2 ^ (- e)) / (2 * 2 ^ (- e))).
  { destruct (Z.leb_spec 0 e).
    - apply Z.mul_nonneg_nonneg; [lia|]. apply Z.pow_nonneg. lia.
    - apply Z.div_pos; pose proof (Z.pow_pos_nonneg 2 (- e)); lia. }
  unfold u64_max. lia.
Qed.

Lemma le8_app_inj x y (l m : list byte) :
  fits 64 x → fits 64 y → le_bytes 8 x ++ l = le_bytes 8 y ++ m → x = y ∧ l = m.
Proof.
  intros Hx Hy [E ->]%app_inj_1; [|by rewrite !le_bytes_length].
  apply le_bytes_inj in E; [done|rewrite pow_256_8; done..].
Qed.

(** ** Properties *)

(** The header hash does not depend on the order of the parents, and its
    preimage commits to everything else and to the parents up to order. *)
Theorem calculate_hash_commits `{Blake3} ts diff ps merit nonce0 root ts' diff' ps' merit' nonce0' root'
    (Hw : Forall (fits 64) [ts; diff; merit; nonce0; ts'; diff'; merit'; nonce0']) :
  (ps ≡ₚ ps' → calculate_hash ts diff ps merit nonce0 root = calculate_hash ts diff ps' merit nonce0 root)
  ∧ (length ps = length ps' →
     header_preimage ts diff ps merit nonce0 root = header_preimage ts' diff' ps' merit' nonce0' root' →
     ts = ts' ∧ diff = diff' ∧ ps ≡ₚ ps' ∧ merit = merit' ∧ nonce0 = nonce0' ∧ root = root').
Proof.
  split.
  - intros Hp. unfold calculate_hash, header_preimage. by rewrite (sort_hashes_unique ps ps').
  - intros Hlen. unfold header_preimage. repeat (apply Forall_cons in Hw as [? Hw]).
    intros (E1 & E)%le8_app_inj; [|done..].
    apply le8_app_inj in E as (E2 & E); [|done..].
    assert (HF : Forall2 (λ x y, length x = length y) (as_bytes <$> sort_hashes ps) (as_bytes <$> sort_hashes ps')).
    { apply Forall2_fmap, Forall2_same_length_lookup. unfold sort_hashes. rewrite !length_sort_by.
      split; [done|]. intros. by rewrite !as_bytes_length. }
    apply app_inj_1 in E as [E3 E]; [|by apply mjoin_length_eq].
    apply mjoin_inj in E3; [|done].
    apply le8_app_inj in E as (E4 & E); [|done..].
    apply le8_app_inj in E as (E5 & E); [|done..].
    apply as_bytes_inj in E. split_and!; try done.
    assert (Es : sort_hashes ps = sort_hashes ps').
    { apply (list_fmap_eq_inj as_bytes) in E3; [done|]. intros ??. apply as_bytes_inj. }
    rewrite <- (sort_by_perm hash_leb ps), <- (sort_by_perm hash_leb ps').
    unfold sort_hashes in Es. by rewrite Es.
Qed.

(** Mining returns the least nonce whose digest meets the target, and gives up
    only when a reward address is empty or no 64-bit nonce does. *)
Theorem mine_block_spec `{Blake3} (params : BlockMiningParams) :
  let meets n := is_valid_pow (mining_hash params n) (mp_target params) = true in
  match mine_block params with
  | Some n => miner_address params ≠ [] ∧ node_reward_address params ≠ []
              ∧ fits 64 n ∧ meets n ∧ ∀ j, 0 ≤ j < n → ¬ meets j
  | None => miner_address params = [] ∨ node_reward_address params = []
            ∨ ∀ j, fits 64 j → ¬ meets j
  end.
Proof.
  cbn zeta. unfold mine_block.
  case_bool_decide as H1; cbn [orb]; [auto|]. case_bool_decide as H2; cbn [orb]; [auto|].
  destruct (first_nonce _ 64 0) as [n|] eqn:E.
  - apply first_nonce_Some in E as (Hn & Hv & Hj). change (Z.of_nat 64) with 64 in Hn.
    assert (fits 64 n) by (unfold fits; lia). split_and!; try done. intros j Hlt. by rewrite (Hj j Hlt).
  - right. right. intros j Hf. rewrite (first_nonce_None _ _ _ E j); [done|]. unfold fits in Hf.
    change (Z.of_nat 64) with 64. lia.
Qed.

(** The adjustment of [Pow]: a valid difficulty stays valid and moves by at most
    half of itself (by one, when it is one). *)
Theorem pow_difficulty_bounded (self : Pow) (ts : list Z)
    (HD : 1 ≤ pow_difficulty self ≤ u64_max / 2) :
  let next := Pow_calculate_next_difficulty self ts in
  1 ≤ next ≤ u64_max / 2 ∧ Z.abs (next - pow_difficulty self) ≤ Z.max (pow_difficulty self / 2) 1.
Proof.
  cbn zeta. unfold Pow_calculate_next_difficulty. set (D := pow_difficulty self) in *.
  assert (Hc : ∀ x, Z.abs (x - D) ≤ Z.max (D / 2) 1 →
    1 ≤ clamp x 1 (u64_max / 2) ≤ u64_max / 2 ∧ Z.abs (clamp x 1 (u64_max / 2) - D) ≤ Z.max (D / 2) 1).
  { unfold clamp. intros x Hx. lia. }
  case_bool_decide; [apply Hc; lia|]. apply Hc, bound_step_near; [done|].
  apply f64_round_u64_bounds.
Qed.

(** The adjustment of [Daa] is within the safe range as soon as two blocks are in
    the window; with fewer it is the last difficulty, or 1000. *)
Theorem daa_difficulty_bounded (self : Daa) (dag : Dag) :
  let bs := block_times dag in
  let window := drop (length bs - window_size self) bs in
  if bool_decide (2 ≤ length window)%nat
  then 1 ≤ calculate_next_difficulty self dag ≤ u64_max / 2
  else calculate_next_difficulty self dag = last_difficulty window
       ∨ calculate_next_difficulty self dag = last_difficulty bs.
Proof.
  cbn zeta. unfold calculate_next_difficulty.
  assert (H0 : get_all_hashes dag = [] → block_times dag = []).
  { unfold block_times. by intros ->. }
  destruct (get_all_hashes dag) as [|h l] eqn:E.
  { rewrite H0 by done. by left. }
  assert (Hl : (length (drop (length (block_times dag) - window_size self) (block_times dag))
                ≤ length (block_times dag))%nat) by (rewrite length_drop; lia).
  case_bool_decide as Hw.
  - rewrite bool_decide_eq_false_2 by lia. rewrite bool_decide_eq_false_2 by lia.
    unfold clamp. split; [lia|]. apply Z.max_lub; [vm_compute; discriminate|lia].
  - case_bool_decide; [by right|]. left. rewrite bool_decide_eq_true_2 by lia. done.
Qed.

(** The two uses of a difficulty run opposite ways: as a target itself (the test
    block validation makes) a larger difficulty accepts more hashes, through
    [Pow::target] it accepts fewer. *)
Theorem difficulty_directions (hash : Hash) (d d' : Z) (Hd : 1 ≤ d ≤ d') :
  (is_valid_pow hash d = true → is_valid_pow hash d' = true)
  ∧ (validate_pow {| pow_difficulty := d' |} hash = true → validate_pow {| pow_difficulty := d |} hash = true).
Proof.
  unfold validate_pow, is_valid_pow, target. cbn [pow_difficulty]. split.
  - intros ?%Z.ltb_lt. apply Z.ltb_lt. lia.
  - intros ?%Z.ltb_lt. apply Z.ltb_lt. rewrite !Z.max_l in * by lia.
    enough (u64_max / d' ≤ u64_max / d) by lia.
    apply Z.div_le_compat_l; [unfold u64_max; lia|lia].
Qed.

(** ** Examples *)
Section witnesses.
#[local] Existing Instance toy_blake3.

Lemma calculate_hash_commits_witness :
  calculate_hash 1 2 [hash_of 3; hash_of 4] 5 6 (hash_of 7)
  = calculate_hash 1 2 [hash_of 4; hash_of 3] 5 6 (hash_of 7).
Proof.
  apply (calculate_hash_commits 1 2 [hash_of 3; hash_of 4] 5 6 (hash_of 7)
    1 2 [hash_of 4; hash_of 3] 5 6 (hash_of 7)).
  - repeat (apply Forall_cons; split; [unfold fits; lia|]). constructor.
  - apply Permutation_swap.
Defined.

(** A block mined every two seconds halves the difficulty. *)
Lemma pow_difficulty_bounded_witness :
  Pow_calculate_next_difficulty {| pow_difficulty := 1000 |} [0; 2; 4; 6] = 500
  ∧ 1 ≤ Pow_calculate_next_difficulty {| pow_difficulty := 1000 |} [0; 2; 4; 6].
Proof.
  split; [vm_compute; reflexivity|].
  apply (pow_difficulty_bounded {| pow_difficulty := 1000 |} [0; 2; 4; 6]).
  cbn. split; [lia|vm_compute; discriminate].
Defined.

Lemma difficulty_directions_witness : is_valid_pow (hash_of 0) 5 = true.
Proof.
  apply (difficulty_directions (hash_of 0) 1 5); [lia|]. vm_compute. reflexivity.
Defined.
End witnesses.
