(* ===== verification/VerkleTree.v ===== *)
(** * The Verkle state tree

    [state/v_trie.rs]: a 256-ary tree of 32-byte keys kept node by node in a
    [Storage], with cached commitments, a cached root, pruning, and proofs.  The
    commitment scheme ([crypto/verkle/polynomial_commitment.rs] over the
    arkworks curve) is the interface [Commitments]. *)

From S2P Require Import Prelude Crypto Errors Transaction Economics State.
From Stdlib Require Import Init.Byte.

(** ** The commitment scheme *)
Class Commitments := {
  ScalarField : Type;
  Commitment : Type;
  scalar_zero : ScalarField;
  (** [ScalarField::from_le_bytes_mod_order] *)
  from_le_bytes_mod_order : list byte → ScalarField;
  (** [pc.commit] of the polynomial with these coefficients *)
  pc_commit : list ScalarField → outcome string Commitment;
  (** [serialize_uncompressed] *)
  serialize_uncompressed : Commitment → outcome string (list byte);
  OpeningProof : Type;
  (** [pc.open] of a polynomial at a point, for a value *)
  pc_open : list ScalarField → ScalarField → ScalarField → outcome string OpeningProof;
  quotient_commitment : OpeningProof → Commitment;
  pc_verify : Commitment → OpeningProof → outcome string bool
}.

Definition VERKLE_RADIX : nat := 256.
Definition KEY_SIZE : nat := 32.
Definition TOTAL_SUPPLY_KEY : bytes32 := zero32.

(** What the trees rely on when they commit: a node has up to 256 coefficients,
    which the scheme takes, and commitments are serialised.  [PolyCommit.v] proves it
    of the repository's scheme with the 256 generators the trees ask for (one more
    coefficient is refused there). *)
Class CommitmentLaws `{Commitments} : Prop := {
  commit_total cs : (length cs ≤ VERKLE_RADIX)%nat → is_ok (pc_commit cs) = true;
  serialize_total c : is_ok (serialize_uncompressed c) = true
}.
(** What generating a proof relies on: opening a polynomial that is not zero is
    accepted or refused without a panic (the polynomial zero cannot be opened, see
    [sparse_openings_fail]), and what was accepted can be checked. *)
Class OpeningLaws `{Commitments} : Prop := {
  open_total cs z v :
    (length cs ≤ VERKLE_RADIX)%nat → Exists (λ c, c ≠ scalar_zero) cs →
    match pc_open cs z v with
    | Ok op => ∃ b, pc_verify (quotient_commitment op) op = Ok b
    | Err _ => True
    | Panic _ => False
    end
}.

Inductive ProofType := Membership | NonMembership.
#[global] Instance ProofType_eq_dec : EqDecision ProofType.
Proof. solve_decision. Defined.

Record GasFeeWitness := { total_gas_fee : Z; miner_share : Z; fullnode_share : Z }.
#[global] Instance GasFeeWitness_eq_dec : EqDecision GasFeeWitness.
Proof. solve_decision. Defined.

Abbreviation path := (list byte).

(** ** Node keys and values *)
Definition key_for_path (p : path) : list byte := Z_byte (Z.of_nat (length p)) :: p.

Definition serialize_node (v : option (list byte)) : list byte :=
  match v with
  | Some inner => Z_byte 1 :: be_bytes 4 (Z.of_nat (length inner)) ++ inner
  | None => [Z_byte 0]
  end.

Definition deserialize_node (encoded : list byte) : option (option (list byte)) :=
  match encoded with
  | [] => None
  | tag :: rest =>
      if byte_Z tag =? 0 then Some None
      else if byte_Z tag =? 1 then
        if bool_decide (length encoded < 5)%nat then None
        else if Z.of_nat (length encoded) =? 5 + be_Z (take 4 rest) then Some (Some (drop 4 rest))
        else None
      else None
  end.

(** The child indices, [0..VERKLE_RADIX], as bytes. *)
Definition child_indices : list byte := (λ i, Z_byte (Z.of_nat i)) <$> seq 0 VERKLE_RADIX.

Section verkle.
Context `{Blake3} `{Commitments} {S : Type} `{Storage S}.

Record VerkleTree := {
  storage : S;
  commitment_cache : gmap path Commitment;
  empty_subtree_roots : list bytes32;
  empty_subtree_scalars : list ScalarField;
  root_cache : option bytes32;
  dirty : bool;
  pruned_keys : gset path
}.

Record VerkleProof := {
  proof_type : ProofType;
  proof_path : path;
  siblings : list bytes32;
  leaf_value : option (list byte);
  proof_root : bytes32;
  opening_proofs : list OpeningProof;
  gas_fee_distribution : option GasFeeWitness
}.

Record VerkleMultiProof := { multi_root : bytes32; entry_proofs : list VerkleProof }.

Definition set_storage (s : S) (t : VerkleTree) : VerkleTree :=
  {| storage := s; commitment_cache := commitment_cache t;
     empty_subtree_roots := empty_subtree_roots t;
     empty_subtree_scalars := empty_subtree_scalars t; root_cache := root_cache t;
     dirty := dirty t; pruned_keys := pruned_keys t |}.
Definition set_cache (c : gmap path Commitment) (t : VerkleTree) : VerkleTree :=
  {| storage := storage t; commitment_cache := c;
     empty_subtree_roots := empty_subtree_roots t;
     empty_subtree_scalars := empty_subtree_scalars t; root_cache := root_cache t;
     dirty := dirty t; pruned_keys := pruned_keys t |}.
Definition set_root_cache (r : option bytes32) (t : VerkleTree) : VerkleTree :=
  {| storage := storage t; commitment_cache := commitment_cache t;
     empty_subtree_roots := empty_subtree_roots t;
     empty_subtree_scalars := empty_subtree_scalars t; root_cache := r;
     dirty := dirty t; pruned_keys := pruned_keys t |}.
Definition set_dirty (d : bool) (t : VerkleTree) : VerkleTree :=
  {| storage := storage t; commitment_cache := commitment_cache t;
     empty_subtree_roots := empty_subtree_roots t;
     empty_subtree_scalars := empty_subtree_scalars t; root_cache := root_cache t;
     dirty := d; pruned_keys := pruned_keys t |}.
Definition set_pruned (p : gset path) (t : VerkleTree) : VerkleTree :=
  {| storage := storage t; commitment_cache := commitment_cache t;
     empty_subtree_roots := empty_subtree_roots t;
     empty_subtree_scalars := empty_subtree_scalars t; root_cache := root_cache t;
     dirty := dirty t; pruned_keys := p |}.

(** ** Nodes *)
Definition node_exists (t : VerkleTree) (p : path) : bool :=
  bool_decide (is_Some (storage_get (storage t) (key_for_path p))).

Definition ensure_node (p : path) (t : VerkleTree) : VerkleTree :=
  if node_exists t p then t
  else set_storage (storage_put (key_for_path p) (serialize_node None) (storage t)) t.

Definition get_node_value (t : VerkleTree) (p : path) : option (list byte) :=
  match storage_get (storage t) (key_for_path p) with
  | Some encoded => match deserialize_node encoded with Some v => v | None => None end
  | None => None
  end.

Definition set_node_value (p : path) (v : option (list byte)) (t : VerkleTree) : VerkleTree :=
  set_storage (storage_put (key_for_path p) (serialize_node v) (storage t)) t.

(** All prefixes of a path, from the root. *)
Definition prefixes (p : path) : list path := (λ i, take i p) <$> seq 0 (length p + 1).

Definition invalidate_path_cache (p : path) (t : VerkleTree) : VerkleTree :=
  set_root_cache None
    (set_cache (foldl (λ c q, delete q c) (commitment_cache t) (prefixes p)) t).

(** ** Operations on keys *)
Definition insert_key (key : bytes32) (v : list byte) (t : VerkleTree) : VerkleTree :=
  let p := as_bytes key in
  let t := set_dirty true t in
  let t := foldl (λ t q, ensure_node q t) t (prefixes p) in
  invalidate_path_cache p (set_node_value p (Some v) t).

Definition get_key (t : VerkleTree) (key : bytes32) : outcome CoreError (option (list byte)) :=
  if bool_decide (as_bytes key ∈ pruned_keys t) then Err (PrunedData "Key has been pruned")
  else Ok (get_node_value t (as_bytes key)).

(** Is some child of the node in the storage and not marked pruned? *)
Definition has_children (t : VerkleTree) (parent_path : path) : bool :=
  existsb (λ b, node_exists t (parent_path ++ [b])
                && bool_decide (parent_path ++ [b] ∉ pruned_keys t)) child_indices.

(** [for depth in (0..n).rev()], with its [break]. *)
Fixpoint recursive_cleanup (p : path) (n : nat) (t : VerkleTree) : VerkleTree :=
  match n with
  | O => t
  | Datatypes.S depth =>
      let parent_path := take depth p in
      if negb (has_children t parent_path) && bool_decide (0 < depth)%nat then
        let t := set_storage (storage_delete (key_for_path parent_path) (storage t)) t in
        let t := set_pruned ({[ parent_path ]} ∪ pruned_keys t) t in
        recursive_cleanup p depth (invalidate_path_cache parent_path t)
      else t
  end.

Definition recursive_cleanup_empty_nodes (p : path) : method VerkleTree CoreError unit :=
  modify (recursive_cleanup p (length p)).

Definition prune_key (key : bytes32) : method VerkleTree CoreError unit :=
  let p := as_bytes key in
  _ ← modify (set_dirty true);
  self ← get;
  if node_exists self p then
    _ ← modify (λ t, set_storage (storage_delete (key_for_path p) (storage t)) t);
    _ ← modify (λ t, set_pruned ({[ p ]} ∪ pruned_keys t) t);
    _ ← modify (invalidate_path_cache p);
    recursive_cleanup_empty_nodes p
  else throw (PrunedData "Key does not exist or already absent").

(** The scan for outputs to the burn address. *)
Definition pays_burn_address (v : list byte) : bool :=
  match deserialize v with
  | Ok output => bool_decide (as_bytes (pubkey_hash output) = as_bytes BURN_ADDRESS)
  | _ => false
  end.

Definition apply_state_transition (updates : list (bytes32 * list byte)) (new_total_supply : Z) :
    method VerkleTree CoreError unit :=
  _ ← modify (set_dirty true);
  if existsb (λ u, pays_burn_address u.2) updates
  then throw (InvalidState "State transition blocked: attempt to send to burn address in key {:?}")
  else
    _ ← modify (λ t, foldl (λ t u, insert_key u.1 u.2 t) t updates);
    _ ← modify (insert_key TOTAL_SUPPLY_KEY (le_bytes 16 new_total_supply));
    if MAX_GLOBAL_SUPPLY_NANO_SLUG <? new_total_supply
    then throw (InvalidState "Total supply {} exceeds maximum allowed {}")
    else mret tt.

(** ** Commitments *)
Definition commitment_root_hash (c : Commitment) : outcome CoreError bytes32 :=
  bytes ← map_err (λ _, SerializationError "Failed to serialize commitment: {}")
            (serialize_uncompressed c);
  Ok (blake3 bytes).

Definition value_to_scalar (v : list byte) : ScalarField :=
  from_le_bytes_mod_order (as_bytes (blake3 v)).

Definition empty_subtree_root_hash (t : VerkleTree) (depth : nat) : bytes32 :=
  nth depth (empty_subtree_roots t) zero32.
Definition empty_subtree_scalar (t : VerkleTree) (depth : nat) : ScalarField :=
  nth depth (empty_subtree_scalars t) scalar_zero.

Definition leaf_commitment (t : VerkleTree) (p : path) : outcome CoreError Commitment :=
  let leaf_scalar := match get_node_value t p with
                     | Some v => value_to_scalar v
                     | None => scalar_zero
                     end in
  map_err (λ _, PolynomialCommitmentError "Failed to commit leaf: {}") (pc_commit [leaf_scalar]).

(** A method that reads the tree and updates the commitment cache. *)
Definition cached (A : Type) : Type := method (gmap path Commitment) CoreError A.

(** [compute_node_commitment] at depth [KEY_SIZE - height], with
    [compute_node_root_hash] of the children written out. *)
Fixpoint compute_node_commitment (t : VerkleTree) (height : nat) (p : path) : cached Commitment :=
  cache ← get;
  match cache !! p with
  | Some c => mret c
  | None =>
      c ← match height with
          | O => lift (leaf_commitment t p)
          | Datatypes.S height =>
              let depth := (KEY_SIZE - height)%nat in
              coeffs ← mapM (λ b,
                let child_path := p ++ [b] in
                if node_exists t child_path then
                  catch (commitment ← compute_node_commitment t height child_path;
                         lift (commitment_root_hash commitment))
                    (λ child_root, mret (from_le_bytes_mod_order (as_bytes child_root)))
                    (λ _, mret (from_le_bytes_mod_order (as_bytes (empty_subtree_root_hash t depth))))
                else mret (empty_subtree_scalar t depth)) child_indices;
              lift (map_err (λ _, PolynomialCommitmentError "Failed to commit node polynomial: {}")
                      (pc_commit coeffs))
          end;
      _ ← modify (insert p c);
      mret c
  end.

Definition compute_node_root_hash (t : VerkleTree) (height : nat) (p : path) : cached bytes32 :=
  commitment ← compute_node_commitment t height p;
  lift (commitment_root_hash commitment).

Definition get_root : method VerkleTree CoreError bytes32 :=
  self ← get;
  let recompute :=
    root ← zoom commitment_cache set_cache (compute_node_root_hash self KEY_SIZE []);
    _ ← modify (set_root_cache (Some root));
    _ ← modify (set_dirty false);
    mret root in
  match (if dirty self then None else root_cache self) with
  | Some cached_root => mret cached_root
  | None => recompute
  end.

(** [compute_empty_subtree_constants]: the roots and scalars from depth
    [32 - n] to 32. *)
Fixpoint empty_subtree_constants (n : nat) : outcome CoreError (list bytes32 * list ScalarField) :=
  match n with
  | O =>
      c ← map_err (λ _, PolynomialCommitmentError "Failed to commit empty polynomial: {}") (pc_commit []);
      root ← commitment_root_hash c;
      Ok ([root], [from_le_bytes_mod_order (as_bytes root)])
  | Datatypes.S n =>
      '(roots, scalars) ← empty_subtree_constants n;
      let child_scalar := match scalars with s :: _ => s | [] => scalar_zero end in
      c ← map_err (λ _, PolynomialCommitmentError "Failed to commit subtree polynomial: {}")
            (pc_commit (replicate VERKLE_RADIX child_scalar));
      root ← commitment_root_hash c;
      Ok (root :: roots, from_le_bytes_mod_order (as_bytes root) :: scalars)
  end.

Definition compute_empty_subtree_constants : outcome CoreError (list bytes32 * list ScalarField) :=
  empty_subtree_constants KEY_SIZE.

Definition VerkleTree_new (s : S) : outcome CoreError VerkleTree :=
  '(roots, scalars) ← compute_empty_subtree_constants;
  Ok (ensure_node []
        {| storage := s; commitment_cache := ∅; empty_subtree_roots := roots;
           empty_subtree_scalars := scalars; root_cache := None; dirty := true;
           pruned_keys := ∅ |}).

(** [Clone]: caches are not cloned. *)
Definition VerkleTree_clone (self : VerkleTree) : outcome CoreError VerkleTree :=
  match VerkleTree_new (storage self) with
  | Ok cloned =>
      Ok {| storage := storage cloned; commitment_cache := ∅;
            empty_subtree_roots := empty_subtree_roots self;
            empty_subtree_scalars := empty_subtree_scalars self; root_cache := None;
            dirty := true; pruned_keys := pruned_keys self |}
  | Err _ => Panic "failed to clone VerkleTree"
  | Panic p => Panic p
  end.
End verkle.

(** ** Nodes as a map *)
Lemma key_for_path_inj p q : key_for_path p = key_for_path q → p = q.
Proof. unfold key_for_path. by intros [_ ?]%cons_eq_inj. Qed.

Lemma deserialize_serialize_node v :
  Z.of_nat (length v) < 2 ^ 32 → deserialize_node (serialize_node (Some v)) = Some (Some v).
Proof.
  intros Hv. unfold serialize_node, deserialize_node. rewrite byte_Z_Z_byte.
  change (1 mod 256) with 1. cbn [Z.eqb Pos.eqb].
  rewrite (take_app_length' (be_bytes 4 _)), (drop_app_length' (be_bytes 4 _)) by by rewrite be_bytes_length.
  rewrite be_Z_be_bytes by (change (256 ^ Z.of_nat 4) with (2 ^ 32); lia).
  cbn [length]. rewrite length_app, be_bytes_length.
  rewrite bool_decide_eq_false_2 by lia. by rewrite (proj2 (Z.eqb_eq _ _)) by lia.
Qed.

Lemma deserialize_serialize_none : deserialize_node (serialize_node None) = Some None.
Proof. reflexivity. Qed.

Lemma elem_of_prefixes p q : q ∈ prefixes p ↔ q `prefix_of` p.
Proof.
  unfold prefixes. rewrite list_elem_of_fmap. split.
  - intros (i & -> & _). apply prefix_take.
  - intros [r ->]. exists (length q). split; [by rewrite take_app_length|].
    apply elem_of_seq. rewrite length_app. lia.
Qed.

Lemma prefix_of_same_length (p q : path) : q `prefix_of` p → length q = length p → q = p.
Proof. intros Hp Hl. apply prefix_length_eq; [done|lia]. Qed.

Section tree_lemmas.
Context `{Blake3} `{Commitments} {S : Type} `{HS : Storage S} `{!StorageLaws S}.
Implicit Types (t : VerkleTree (S := S)) (p q : path).

Abbreviation node t q := (storage_get (storage t) (key_for_path q)).

Lemma node_put t p v q :
  node (set_storage (storage_put (key_for_path p) v (storage t)) t) q
  = if decide (q = p) then Some v else node t q.
Proof.
  cbn. rewrite get_put. destruct (decide (q = p)) as [->|Hq]; [by rewrite decide_True|].
  rewrite decide_False; [done|]. by intros ?%key_for_path_inj.
Qed.

Lemma node_delete t p q :
  node (set_storage (storage_delete (key_for_path p) (storage t)) t) q
  = if decide (q = p) then None else node t q.
Proof.
  cbn. rewrite get_delete. destruct (decide (q = p)) as [->|Hq]; [by rewrite decide_True|].
  rewrite decide_False; [done|]. by intros ?%key_for_path_inj.
Qed.

Lemma node_ensure t p q :
  node (ensure_node p t) q
  = if decide (q = p) then Some (default (serialize_node None) (node t p)) else node t q.
Proof.
  unfold ensure_node, node_exists. case_bool_decide as Hp.
  - destruct (decide (q = p)) as [->|]; [|done]. destruct Hp as [v Hv]. by rewrite Hv.
  - rewrite node_put. destruct (decide (q = p)) as [->|]; [|done].
    apply eq_None_not_Some in Hp. by rewrite Hp.
Qed.

Lemma ensure_rest p t :
  commitment_cache (ensure_node p t) = commitment_cache t
  ∧ empty_subtree_roots (ensure_node p t) = empty_subtree_roots t
  ∧ empty_subtree_scalars (ensure_node p t) = empty_subtree_scalars t
  ∧ root_cache (ensure_node p t) = root_cache t
  ∧ dirty (ensure_node p t) = dirty t
  ∧ pruned_keys (ensure_node p t) = pruned_keys t.
Proof. unfold ensure_node. by destruct (node_exists t p). Qed.

Lemma ensure_all ps t :
  let t' := foldl (λ t q, ensure_node q t) t ps in
  (∀ q, node t' q = if decide (q ∈ ps) then Some (default (serialize_node None) (node t q)) else node t q)
  ∧ commitment_cache t' = commitment_cache t ∧ empty_subtree_roots t' = empty_subtree_roots t
  ∧ empty_subtree_scalars t' = empty_subtree_scalars t ∧ root_cache t' = root_cache t
  ∧ dirty t' = dirty t ∧ pruned_keys t' = pruned_keys t.
Proof.
  revert t; induction ps as [|p ps IH]; intros t; cbn.
  { split_and!; done. }
  destruct (IH (ensure_node p t)) as (Hn & H1 & H2 & H3 & H4 & H5 & H6).
  destruct (ensure_rest p t) as (E1 & E2 & E3 & E4 & E5 & E6).
  split_and!; try congruence. intros q. rewrite Hn, node_ensure.
  destruct (decide (q = p)) as [->|Hq].
  - rewrite (decide_True (P := p ∈ p :: ps)) by left. by destruct (decide (p ∈ ps)).
  - destruct (decide (q ∈ ps)) as [Hin|Hin]; [by rewrite decide_True by by right|].
    rewrite decide_False; [done|]. by rewrite elem_of_cons; intros [?|?].
Qed.

(** The storage after an insertion: the value at the key, and nodes along it. *)
Lemma insert_node key v t q :
  node (insert_key key v t) q
  = if decide (q = as_bytes key) then Some (serialize_node (Some v))
    else if decide (q ∈ prefixes (as_bytes key)) then Some (default (serialize_node None) (node t q))
    else node t q.
Proof.
  unfold insert_key, invalidate_path_cache, set_node_value. cbn [storage set_root_cache set_cache].
  rewrite node_put. case_decide; [done|].
  by rewrite (proj1 (ensure_all (prefixes (as_bytes key)) (set_dirty true t))).
Qed.

Lemma get_node_value_insert key v t q :
  Z.of_nat (length v) < 2 ^ 32 →
  get_node_value (insert_key key v t) q
  = if decide (q = as_bytes key) then Some v else get_node_value t q.
Proof.
  intros Hv. unfold get_node_value. rewrite insert_node.
  destruct (decide (q = as_bytes key)); [by rewrite deserialize_serialize_node|].
  case_decide; [|done]. by destruct (node t q).
Qed.

Lemma pruned_keys_insert key v t : pruned_keys (insert_key key v t) = pruned_keys t.
Proof.
  unfold insert_key. cbn. by destruct (ensure_all (prefixes (as_bytes key)) (set_dirty true t)) as (_ & _ & _ & _ & _ & _ & ->).
Qed.

(** Cleanup only touches proper, nonempty prefixes. *)
Lemma cleanup_spec p n t :
  let t' := recursive_cleanup p n t in
  (n ≤ length p)%nat →
  (∀ q, (∀ d, (0 < d < n)%nat → q ≠ take d p) →
     node t' q = node t q ∧ (q ∈ pruned_keys t' ↔ q ∈ pruned_keys t))
  ∧ empty_subtree_roots t' = empty_subtree_roots t ∧ empty_subtree_scalars t' = empty_subtree_scalars t
  ∧ dirty t' = dirty t.
Proof.
  revert t; induction n as [|n IH]; intros t; cbn; intros Hn; [done|].
  destruct (negb _ && _) eqn:E; [|done]. apply andb_true_iff in E as [_ E%bool_decide_eq_true].
  match goal with |- context [recursive_cleanup p n ?u] => set (t1 := u) end.
  destruct (IH t1 ltac:(lia)) as (H1 & H2 & H3 & H4). split_and!; try done.
  intros q Hq. destruct (H1 q) as [E1 E2]; [intros d Hd; apply Hq; lia|].
  assert (Hne : q ≠ take n p) by (apply Hq; lia).
  rewrite E1, E2. subst t1. cbn [storage invalidate_path_cache set_root_cache set_cache set_pruned pruned_keys].
  rewrite node_delete, decide_False by done. split; [done|]. cbn. set_solver.
Qed.

Lemma get_key_prune_run key t :
  node_exists t (as_bytes key) = true →
  ∃ t', prune_key key t = (Ok tt, t')
  ∧ get_key t' key = Err (PrunedData "Key has been pruned")
  ∧ ∀ key', key' ≠ key → get_key t' key' = get_key t key'.
Proof.
  intros Hex. unfold prune_key. erewrite method_bind_run by done. erewrite method_bind_run by done.
  assert (E : node_exists (set_dirty true t) (as_bytes key) = true) by done. rewrite E.
  do 3 erewrite method_bind_run by done.
  unfold recursive_cleanup_empty_nodes. eexists. split; [done|].
  match goal with |- context [recursive_cleanup ?p ?n ?u] => set (t1 := u); destruct (cleanup_spec p n t1) as (Hc & _) end;
    [done|].
  assert (Hlen : ∀ k : bytes32, ∀ d, (0 < d < length (as_bytes key))%nat → as_bytes k ≠ take d (as_bytes key)).
  { intros k d Hd Ek. apply (f_equal length) in Ek.
    rewrite length_take, !as_bytes_length in Ek. rewrite as_bytes_length in Hd. lia. }
  split.
  - unfold get_key. rewrite bool_decide_eq_true_2; [done|].
    apply (Hc (as_bytes key) (Hlen key)). subst t1. cbn. set_solver.
  - intros key' Hk. destruct (Hc (as_bytes key') (Hlen key')) as [E1 E2].
    assert (Hne : as_bytes key' ≠ as_bytes key) by (by intros ?%as_bytes_inj).
    unfold get_key, get_node_value. rewrite E1. subst t1.
    cbn [storage invalidate_path_cache set_root_cache set_cache set_pruned].
    rewrite node_delete, decide_False by done. cbn [storage set_dirty].
    replace (bool_decide (as_bytes key' ∈ pruned_keys _)) with (bool_decide (as_bytes key' ∈ pruned_keys t)); [done|].
    apply bool_decide_ext. rewrite E2. cbn. set_solver.
Qed.
End tree_lemmas.

(** ** Cached commitments are the commitments *)
Section coherence.
Context `{Blake3} `{Commitments} {S : Type} `{HS : Storage S} `{!StorageLaws S}.
Implicit Types (t : VerkleTree (S := S)) (p q : path).

(** The specification: the commitment of a node, recomputed from the storage. *)
Definition child_scalar t (depth : nat) (r : outcome CoreError bytes32) : outcome CoreError ScalarField :=
  match r with
  | Ok root => Ok (from_le_bytes_mod_order (as_bytes root))
  | Err _ => Ok (from_le_bytes_mod_order (as_bytes (empty_subtree_root_hash t depth)))
  | Panic s => Panic s
  end.

Definition child_value t (depth : nat) (child : path) (r : outcome CoreError Commitment) :
    outcome CoreError ScalarField :=
  if node_exists t child then child_scalar t depth (c ← r; commitment_root_hash c)
  else Ok (empty_subtree_scalar t depth).

Fixpoint node_commitment t (height : nat) (p : path) : outcome CoreError Commitment :=
  match height with
  | O => leaf_commitment t p
  | Datatypes.S height =>
      let depth := (KEY_SIZE - height)%nat in
      coeffs ← mapM (λ b, child_value t depth (p ++ [b]) (node_commitment t height (p ++ [b])))
                 child_indices;
      map_err (λ _, PolynomialCommitmentError "Failed to commit node polynomial: {}") (pc_commit coeffs)
  end.

Definition node_root t (height : nat) (p : path) : outcome CoreError bytes32 :=
  c ← node_commitment t height p; commitment_root_hash c.

(** The root of the tree, from scratch. *)
Definition scratch_root t : outcome CoreError bytes32 := node_root t KEY_SIZE [].

Definition cache_ok t (cache : gmap path Commitment) : Prop :=
  ∀ p c, cache !! p = Some c → node_commitment t (KEY_SIZE - length p) p = Ok c.

Definition tree_ok t : Prop :=
  cache_ok t (commitment_cache t)
  ∧ (dirty t = false → ∀ r, root_cache t = Some r → scratch_root t = Ok r).

Lemma compute_hit t height p cache c :
  cache !! p = Some c → compute_node_commitment t height p cache = (Ok c, cache).
Proof. intros Ep. destruct height; cbn; unfold mbind, method_bind; cbn; by rewrite Ep. Qed.

(** Storing the commitment of a node keeps the cache valid. *)
Lemma cache_ok_insert t height p cache c :
  cache_ok t cache → (length p + height = KEY_SIZE)%nat → node_commitment t height p = Ok c →
  cache_ok t (<[p := c]> cache).
Proof.
  intros Hc Hl E q y. rewrite lookup_insert. case_decide as Hq; [|apply Hc].
  intros [= <-]. subst q. by replace (KEY_SIZE - length p)%nat with height by lia.
Qed.

(** Ends a miss: the computed commitment is stored when there is one. *)
Lemma compute_store t height p cache cache' (m : cached Commitment) :
  (length p + height = KEY_SIZE)%nat → cache_ok t cache' →
  m cache = (node_commitment t height p, cache') →
  ∃ cache'', (c ← m; _ ← modify (insert p c); mret c) cache = (node_commitment t height p, cache'')
             ∧ cache_ok t cache''.
Proof.
  intros Hl Hc Hm. destruct (node_commitment t height p) as [c|e|x] eqn:E.
  - rewrite (method_bind_run _ _ _ _ _ Hm). exists (<[p := c]> cache'). split; [done|].
    by eapply cache_ok_insert.
  - rewrite (method_bind_stop _ _ _ _ _ Hm). by exists cache'.
  - rewrite (method_bind_unwind _ _ _ _ _ Hm). by exists cache'.
Qed.

Lemma compute_node_commitment_spec t height p cache :
  cache_ok t cache → (length p + height = KEY_SIZE)%nat →
  ∃ cache', compute_node_commitment t height p cache = (node_commitment t height p, cache')
            ∧ cache_ok t cache'.
Proof.
  revert p cache; induction height as [|height IH]; intros p cache Hc Hl.
  all: destruct (cache !! p) as [c|] eqn:Ep;
    [exists cache; split; [|done]; rewrite (compute_hit _ _ _ _ _ Ep), <- (Hc p c Ep); do 2 f_equal; lia|].
  all: cbn [compute_node_commitment]; rewrite (method_bind_run _ _ _ cache cache) by done; rewrite Ep.
  - eapply compute_store; [done|exact Hc|done].
  - set (depth := (KEY_SIZE - height)%nat).
    match goal with |- context [mapM ?f child_indices] =>
      destruct (method_mapM_pure (cache_ok t) f
        (λ b, child_value t depth (p ++ [b]) (node_commitment t height (p ++ [b])))
        child_indices cache) as (cache1 & Em & Hc1) end; [|done|].
    { intros b s _ Hs. unfold child_value. destruct (node_exists t (p ++ [b])); [|by exists s].
      destruct (IH (p ++ [b]) s Hs) as (s' & Es & Hs'); [rewrite length_app; cbn; lia|].
      exists s'. unfold catch. destruct (node_commitment t height (p ++ [b])) as [c|e|x] eqn:Ec.
      - rewrite (method_bind_run _ _ _ _ _ Es). unfold lift. cbn.
        by destruct (commitment_root_hash c).
      - by rewrite (method_bind_stop _ _ _ _ _ Es).
      - by rewrite (method_bind_unwind _ _ _ _ _ Es). }
    eapply compute_store; [done|exact Hc1|]. cbn [node_commitment]. fold depth.
    destruct (mapM (M:=outcome CoreError) (λ b, child_value _ _ _ _) child_indices) as [coeffs|e|x].
    + by rewrite (method_bind_run _ _ _ _ _ Em).
    + by rewrite (method_bind_stop _ _ _ _ _ Em).
    + by rewrite (method_bind_unwind _ _ _ _ _ Em).
Qed.

(** The commitment of a node reads the storage below it, and the constants. *)
Lemma node_commitment_ext t t' height p :
  empty_subtree_roots t = empty_subtree_roots t' →
  empty_subtree_scalars t = empty_subtree_scalars t' →
  (∀ q, p `prefix_of` q → storage_get (storage t) (key_for_path q) = storage_get (storage t') (key_for_path q)) →
  node_commitment t height p = node_commitment t' height p.
Proof.
  intros Hr Hs. revert p; induction height as [|height IH]; intros p Hq; cbn [node_commitment].
  - unfold leaf_commitment, get_node_value. by rewrite Hq.
  - set (depth := (KEY_SIZE - height)%nat).
    enough (E : ∀ b, child_value t depth (p ++ [b]) (node_commitment t height (p ++ [b]))
                   = child_value t' depth (p ++ [b]) (node_commitment t' height (p ++ [b]))).
    { assert (Em : ∀ l, mapM (M:=outcome CoreError)
          (λ b, child_value t depth (p ++ [b]) (node_commitment t height (p ++ [b]))) l
        = mapM (λ b, child_value t' depth (p ++ [b]) (node_commitment t' height (p ++ [b]))) l).
      { intros l. induction l as [|b l IHl]; cbn [mapM]; [done|]. by rewrite E, IHl. }
      by rewrite Em. }
    intros b. unfold child_value.
    assert (Hb : p `prefix_of` p ++ [b]) by by apply prefix_app_r.
    assert (E : node_exists t (p ++ [b]) = node_exists t' (p ++ [b])) by (unfold node_exists; by rewrite Hq).
    rewrite E. destruct (node_exists t' (p ++ [b])).
    + rewrite IH; [by unfold child_scalar, empty_subtree_root_hash; rewrite Hr|].
      intros q Hp. apply Hq. by etrans.
    + unfold empty_subtree_scalar. by rewrite Hs.
Qed.

#[local] Arguments node_commitment : simpl never.
#[local] Arguments compute_node_commitment : simpl never.
#[local] Opaque node_commitment compute_node_commitment.

Lemma tree_ok_dirty t : cache_ok t (commitment_cache t) → dirty t = true → tree_ok t.
Proof. intros Hc Hd. split; [done|]. rewrite Hd. intros [=]. Qed.

(** [tree_ok] only looks at part of the tree. *)
Lemma cache_ok_same t t' c :
  storage t = storage t' → empty_subtree_roots t = empty_subtree_roots t' →
  empty_subtree_scalars t = empty_subtree_scalars t' → cache_ok t c → cache_ok t' c.
Proof.
  intros H1 H2 H3 Hc p x Hp. rewrite <- (Hc p x Hp). symmetry.
  apply node_commitment_ext; [done..|]. intros. by rewrite H1.
Qed.

(** Invalidating the prefixes of [p] makes the cache valid for a tree that
    differs only at prefixes of [p]. *)
Lemma invalidate_ok t t' p :
  cache_ok t (commitment_cache t') →
  empty_subtree_roots t = empty_subtree_roots t' →
  empty_subtree_scalars t = empty_subtree_scalars t' →
  (∀ q, ¬ q `prefix_of` p →
     storage_get (storage t) (key_for_path q) = storage_get (storage t') (key_for_path q)) →
  cache_ok (invalidate_path_cache p t') (commitment_cache (invalidate_path_cache p t')).
Proof.
  intros Hc Hr Hs Hq. apply (cache_ok_same t'); [done..|]. intros q c Hl. cbn in Hl.
  assert (Hd : ∀ (ps : list path) (m : gmap path Commitment),
    foldl (λ c q, delete q c) m ps !! q = if decide (q ∈ ps) then None else m !! q).
  { clear. induction ps as [|r ps IH]; intros m; cbn.
    - by rewrite decide_False by apply not_elem_of_nil.
    - rewrite IH, lookup_delete. repeat case_decide; set_solver. }
  rewrite Hd in Hl. case_decide as Hp; [done|]. rewrite elem_of_prefixes in Hp.
  apply Hc in Hl. rewrite <- Hl. symmetry. apply node_commitment_ext; [done..|].
  intros r Hqr. apply Hq. intros Hrp. apply Hp. by etrans.
Qed.

Lemma insert_ok key v t : tree_ok t → tree_ok (insert_key key v t) ∧ dirty (insert_key key v t) = true.
Proof.
  intros [Hc _]. unfold insert_key.
  destruct (ensure_all (prefixes (as_bytes key)) (set_dirty true t)) as (Hn & H1 & H2 & H3 & H4 & H5 & H6).
  match goal with |- tree_ok ?u ∧ _ => assert (Hd : dirty u = true) by (exact H5) end.
  split; [|exact Hd]. apply tree_ok_dirty; [|exact Hd]. clear Hd.
  apply (invalidate_ok t).
  - cbn. by rewrite H1.
  - cbn. by rewrite H2.
  - cbn. by rewrite H3.
  - intros q Hq. unfold set_node_value. rewrite node_put, Hn.
    rewrite decide_False by (intros ->; by apply Hq).
    by rewrite decide_False by by rewrite elem_of_prefixes.
Qed.

Lemma cleanup_ok p n t :
  cache_ok t (commitment_cache t) →
  let t' := recursive_cleanup p n t in
  cache_ok t' (commitment_cache t') ∧ (root_cache t = None → root_cache t' = None).
Proof.
  revert t; induction n as [|n IH]; intros t Hc; cbn; [done|].
  destruct (negb _ && _); [|done].
  match goal with |- context [recursive_cleanup p n ?u] => destruct (IH u) as [H1 H2] end.
  - match goal with |- context [invalidate_path_cache ?q ?u] => apply (invalidate_ok t u q) end; [done..|].
    intros q Hq. cbn [storage set_pruned]. rewrite node_delete.
    by rewrite decide_False by (intros ->; by apply Hq).
  - split; [done|]. auto.
Qed.

Lemma prune_ok key t r t' :
  tree_ok t → prune_key key t = (r, t') → tree_ok t' ∧ dirty t' = true.
Proof.
  intros [Hc Hr]. unfold prune_key. erewrite method_bind_run by done. erewrite method_bind_run by done.
  destruct (node_exists _ _).
  2:{ intros [= <- <-]. split; [|done]. apply tree_ok_dirty; [|done]. by eapply cache_ok_same, Hc. }
  do 3 erewrite method_bind_run by done. unfold recursive_cleanup_empty_nodes.
  intros [= <- <-].
  match goal with |- context [recursive_cleanup ?p ?n ?u] => destruct (cleanup_ok p n u) as [H1 H2];
    [|destruct (cleanup_spec p n u) as (_ & _ & _ & Hd); [done|]] end.
  - match goal with |- context [invalidate_path_cache ?q ?u] => apply (invalidate_ok t u q) end; [done..|].
    intros q Hq. etrans; [|symmetry; apply (node_delete (set_dirty true t))].
    by rewrite decide_False by (intros ->; by apply Hq).
  - assert (Hdt : dirty (recursive_cleanup (as_bytes key) (length (as_bytes key))
      (invalidate_path_cache (as_bytes key) (set_pruned _ (set_storage _ (set_dirty true t))))) = true)
      by (rewrite Hd; done).
    split; [|exact Hdt]. by apply tree_ok_dirty.
Qed.

Lemma transition_ok us s t r t' :
  tree_ok t → apply_state_transition us s t = (r, t') → tree_ok t' ∧ dirty t' = true.
Proof.
  intros Ht. unfold apply_state_transition. erewrite method_bind_run by done.
  assert (Ht1 : tree_ok (set_dirty true t) ∧ dirty (set_dirty true t) = true).
  { split; [|done]. apply tree_ok_dirty; [|done]. by eapply cache_ok_same, Ht. }
  destruct (existsb _ us).
  { intros [= <- <-]. done. }
  do 2 erewrite method_bind_run by done.
  assert (Hins : ∀ us t, tree_ok t ∧ dirty t = true →
    tree_ok (foldl (λ t u, insert_key u.1 u.2 t) t us) ∧ dirty (foldl (λ t u, insert_key u.1 u.2 t) t us) = true).
  { clear -StorageLaws0. intros us. induction us as [|u us IH]; intros t Ht; [done|].
    apply IH, insert_ok, Ht. }
  intros E. assert (t' = insert_key TOTAL_SUPPLY_KEY (le_bytes 16 s)
    (foldl (λ t u, insert_key u.1 u.2 t) (set_dirty true t) us)) as ->.
  { by destruct (MAX_GLOBAL_SUPPLY_NANO_SLUG <? s); injection E. }
  apply insert_ok, Hins, Ht1.
Qed.

Lemma get_root_ok t :
  tree_ok t →
  ∃ t', get_root t = (scratch_root t, t') ∧ tree_ok t' ∧ storage t' = storage t
        ∧ pruned_keys t' = pruned_keys t ∧ scratch_root t' = scratch_root t.
Proof.
  intros [Hc Hr]. unfold get_root. erewrite method_bind_run by done.
  destruct (if dirty t then None else root_cache t) as [r|] eqn:Er.
  { exists t. assert (E : scratch_root t = Ok r) by (by destruct (dirty t); [done|apply Hr]).
    rewrite E. split_and!; done. }
  destruct (compute_node_commitment_spec t KEY_SIZE [] (commitment_cache t) Hc eq_refl) as (c' & Ec & Hc').
  assert (Ez : zoom commitment_cache set_cache (compute_node_root_hash t KEY_SIZE []) t
    = (scratch_root t, set_cache c' t)).
  { unfold zoom, compute_node_root_hash, scratch_root, node_root.
    destruct (node_commitment t KEY_SIZE []) as [c|e|x].
    - rewrite (method_bind_run _ _ _ _ _ Ec). done.
    - by rewrite (method_bind_stop _ _ _ _ _ Ec).
    - by rewrite (method_bind_unwind _ _ _ _ _ Ec). }
  assert (Hsame : ∀ u, storage u = storage t → empty_subtree_roots u = empty_subtree_roots t →
    empty_subtree_scalars u = empty_subtree_scalars t → scratch_root u = scratch_root t).
  { intros u H1 H2 H3. unfold scratch_root, node_root.
    rewrite (node_commitment_ext u t); [done..|]. intros. by rewrite H1. }
  assert (Hfail : scratch_root t = scratch_root t → root_cache t = None ∨ dirty t = true →
    tree_ok (set_cache c' t)).
  { intros _ Hn. split; [by eapply (cache_ok_same t), Hc'|]. intros Hd r' Hr'.
    cbn [dirty root_cache set_cache] in Hd, Hr'. destruct Hn; congruence. }
  assert (Hn : root_cache t = None ∨ dirty t = true) by (destruct (dirty t); auto).
  destruct (scratch_root t) as [r|e|x] eqn:Es.
  - rewrite (method_bind_run _ _ _ _ _ Ez). eexists. split; [reflexivity|].
    assert (E : scratch_root (set_dirty false (set_root_cache (Some r) (set_cache c' t))) = Ok r)
      by (apply Hsame; reflexivity).
    split; [|split; [reflexivity|split; [reflexivity|exact E]]].
    split; [by eapply (cache_ok_same t), Hc'|]. intros _ r' Hr'. injection Hr' as <-. exact E.
  - rewrite (method_bind_stop _ _ _ _ _ Ez). eexists. split; [reflexivity|].
    split; [by apply Hfail|split; [reflexivity|split; [reflexivity|by apply Hsame]]].
  - rewrite (method_bind_unwind _ _ _ _ _ Ez). eexists. split; [reflexivity|].
    split; [by apply Hfail|split; [reflexivity|split; [reflexivity|by apply Hsame]]].
Qed.
End coherence.

(** ** Properties *)

(** The public operations, as steps of a tree; a failing call keeps what it did. *)
Inductive tree_op :=
| OpInsert (key : bytes32) (v : list byte)
| OpPrune (key : bytes32)
| OpTransition (updates : list (bytes32 * list byte)) (supply : Z)
| OpRoot.

Section theorems.
Context `{Blake3} `{Commitments} {S : Type} `{HS : Storage S} `{!StorageLaws S}.
Implicit Types (t : VerkleTree (S := S)).

Definition run_op t (op : tree_op) : VerkleTree :=
  match op with
  | OpInsert key v => insert_key key v t
  | OpPrune key => (prune_key key t).2
  | OpTransition us supply => (apply_state_transition us supply t).2
  | OpRoot => (get_root t).2
  end.

Lemma new_ok s t : VerkleTree_new s = Ok t → tree_ok t.
Proof.
  unfold VerkleTree_new. intros Hn. outcome_inv. destruct x as [roots scalars]. outcome_inv. subst.
  match goal with |- tree_ok (ensure_node [] ?u) => destruct (ensure_rest [] u) as (E1 & _ & _ & _ & E5 & _) end.
  apply tree_ok_dirty; [|by rewrite E5]. rewrite E1. intros p c Hp. cbn [commitment_cache] in Hp. by rewrite lookup_empty in Hp.
Qed.

Lemma run_ok ops t : tree_ok t → tree_ok (foldl run_op t ops).
Proof.
  revert t; induction ops as [|op ops IH]; intros t Ht; cbn; [done|]. apply IH.
  destruct op as [key v|key|us supply|]; cbn.
  - by apply insert_ok.
  - destruct (prune_key key t) as [r t'] eqn:E. by eapply prune_ok.
  - destruct (apply_state_transition us supply t) as [r t'] eqn:E. by eapply transition_ok.
  - destruct (get_root_ok t Ht) as (t' & -> & Ht' & _). done.
Qed.

(** C8. Incremental roots are right.  After any sequence of insertions, prunings,
    transitions (failed ones included) and root computations, [get_root] returns
    the root recomputed from the storage, with no cache at all, and touches
    neither the storage nor the pruning marks. *)
Theorem root_is_recomputed (s : S) (ops : list tree_op) (t0 : VerkleTree)
    (Hnew : VerkleTree_new s = Ok t0) :
  let t := foldl run_op t0 ops in
  (get_root t).1 = scratch_root t
  ∧ storage (get_root t).2 = storage t ∧ pruned_keys (get_root t).2 = pruned_keys t
  ∧ (get_root (get_root t).2).1 = scratch_root t.
Proof.
  pose proof (run_ok ops t0 (new_ok s t0 Hnew)) as Ht. cbn zeta.
  destruct (get_root_ok _ Ht) as (t1 & E1 & H1 & Hs & Hp & Hr). rewrite E1. cbn [fst snd].
  split; [reflexivity|]. split; [exact Hs|]. split; [exact Hp|].
  destruct (get_root_ok _ H1) as (t2 & E2 & _). rewrite E2. exact Hr.
Qed.

(** C10. The tree is a map: an inserted value is read back, other keys are
    untouched; a pruned key reads as pruned and the others are untouched,
    whatever inner nodes the cleanup removes. *)
Theorem tree_is_a_map t (key : bytes32) (v : list byte) (Hv : Z.of_nat (length v) < 2 ^ 32) :
  (∀ key', get_key (insert_key key v t) key'
     = if bool_decide (as_bytes key' ∈ pruned_keys t) then Err (PrunedData "Key has been pruned")
       else if bool_decide (key' = key) then Ok (Some v) else get_key t key')
  ∧ (if node_exists t (as_bytes key)
     then ∃ t', prune_key key t = (Ok tt, t')
          ∧ get_key t' key = Err (PrunedData "Key has been pruned")
          ∧ ∀ key', key' ≠ key → get_key t' key' = get_key t key'
     else prune_key key t = (Err (PrunedData "Key does not exist or already absent"), set_dirty true t)).
Proof.
  split.
  - intros key'. unfold get_key. rewrite pruned_keys_insert. case_bool_decide; [done|].
    rewrite get_node_value_insert by done. case_bool_decide as Hk.
    + subst. by rewrite decide_True.
    + rewrite decide_False; [done|]. by intros ?%as_bytes_inj.
  - destruct (node_exists t (as_bytes key)) eqn:E; [by apply get_key_prune_run|].
    unfold prune_key. do 2 erewrite method_bind_run by done.
    replace (node_exists (set_dirty true t) (as_bytes key)) with (node_exists t (as_bytes key)) by done.
    by rewrite E.
Qed.

(** A pruned key stays unreadable: inserting it again stores the value but does
    not lift the mark. *)
Theorem pruned_key_never_returns t (key : bytes32) (v : list byte) (Hv : Z.of_nat (length v) < 2 ^ 32)
    (Hex : node_exists t (as_bytes key) = true) :
  let t' := insert_key key v (prune_key key t).2 in
  get_node_value t' (as_bytes key) = Some v
  ∧ get_key t' key = Err (PrunedData "Key has been pruned").
Proof.
  cbn zeta. destruct (get_key_prune_run key t Hex) as (t1 & -> & Hg & _). cbn [snd]. split.
  - rewrite get_node_value_insert by done. by rewrite decide_True.
  - revert Hg. unfold get_key. rewrite pruned_keys_insert. by case_bool_decide.
Qed.

Lemma insert_all_get us t key :
  Forall (λ u, Z.of_nat (length u.2) < 2 ^ 32) us →
  key ∉ us.*1 → get_key (foldl (λ t u, insert_key u.1 u.2 t) t us) key = get_key t key.
Proof.
  intros Hl; revert t; induction Hl as [|[j v] us Hv _ IH]; intros t Hk; [done|]. cbn in *.
  apply not_elem_of_cons in Hk as [Hj Hk]. rewrite IH by done. unfold get_key.
  rewrite pruned_keys_insert, get_node_value_insert by done.
  rewrite decide_False; [done|]. by intros ?%as_bytes_inj.
Qed.

(** A state transition is refused, with the tree's contents untouched, when some
    update pays the burn address; and when the new supply is above the cap it
    fails only after every update and the new supply have been written. *)
Theorem apply_state_transition_spec (us : list (bytes32 * list byte)) (supply : Z) t :
  let written := insert_key TOTAL_SUPPLY_KEY (le_bytes 16 supply)
    (foldl (λ t u, insert_key u.1 u.2 t) (set_dirty true t) us) in
  apply_state_transition us supply t
  = (if existsb (λ u, pays_burn_address u.2) us then
      (Err (InvalidState "State transition blocked: attempt to send to burn address in key {:?}"),
       set_dirty true t)
    else if MAX_GLOBAL_SUPPLY_NANO_SLUG <? supply then
      (Err (InvalidState "Total supply {} exceeds maximum allowed {}"), written)
    else (Ok tt, written))
  ∧ (fits 128 supply → as_bytes TOTAL_SUPPLY_KEY ∉ pruned_keys t →
     get_key written TOTAL_SUPPLY_KEY = Ok (Some (le_bytes 16 supply))).
Proof.
  cbn zeta. split.
  - unfold apply_state_transition. erewrite method_bind_run by done.
    destruct (existsb _ us); [done|]. do 2 erewrite method_bind_run by done.
    by destruct (_ <? supply).
  - intros Hf Hp. unfold get_key. rewrite pruned_keys_insert.
    assert (E : pruned_keys (foldl (λ t u, insert_key u.1 u.2 t) (set_dirty true t) us) = pruned_keys t).
    { change (pruned_keys t) with (pruned_keys (set_dirty true t)). generalize (set_dirty true t).
      induction us as [|u us IH]; intros u0; cbn; [done|]. by rewrite IH, pruned_keys_insert. }
    rewrite E, bool_decide_eq_false_2 by done.
    rewrite get_node_value_insert by (rewrite le_bytes_length; cbn; lia).
    by rewrite decide_True.
Qed.
End theorems.

(** ** Examples *)
Section examples.
#[local] Existing Instance toy_blake3.

(** A concrete scheme for the examples: the scalar of 32 bytes is read from the last four,
    a commitment is a 32-bit digest of the coefficients. *)
#[local] Instance toy_commitments : Commitments := {|
  ScalarField := Z;
  Commitment := Z;
  scalar_zero := 0;
  from_le_bytes_mod_order l := le_Z (drop 28 l);
  pc_commit cs := Ok (foldl (λ a c, Z.land (a * 5 + c + 1) (2 ^ 32 - 1)) 7 cs);
  serialize_uncompressed c := Ok (be_bytes 4 c);
  OpeningProof := Z;
  pc_open _ _ v := Ok v;
  quotient_commitment v := v;
  pc_verify _ _ := Ok true
|}.
#[local] Instance toy_commitment_laws : CommitmentLaws.
Proof. by split. Qed.

Definition key_of (l : list Z) : bytes32 := to_bytes32 (Z_byte <$> l).

Definition empty_tree : VerkleTree :=
  match VerkleTree_new MemoryStorage_new with
  | Ok t => t
  | _ => {| storage := MemoryStorage_new; commitment_cache := ∅; empty_subtree_roots := [];
            empty_subtree_scalars := []; root_cache := None; dirty := true; pruned_keys := ∅ |}
  end.

(** A key is inserted and pruned, which marks its whole path; then two keys
    under the marked path are inserted, and the second is pruned. *)
Definition losing_history : list tree_op :=
  [OpInsert (key_of [0; 0; 0]) [x01]; OpPrune (key_of [0; 0; 0]);
   OpInsert (key_of [0; 0; 1]) [x02]; OpInsert (key_of [0; 2]) [x03]; OpPrune (key_of [0; 2])].

(** Pruning may detach live values from the root: nodes once pruned keep their
    mark when they are created again, the cleanup takes them for absent and
    deletes their parent.  The value is still read, and the root is that of the
    empty tree, which a tree that holds the value does not have. *)
Theorem root_loses_live_value :
  let t := foldl run_op empty_tree losing_history in
  get_key t (key_of [0; 0; 1]) = Ok (Some [x02])
  ∧ (get_root t).1 = (get_root empty_tree).1
  ∧ (get_root (insert_key (key_of [0; 0; 1]) [x02] empty_tree)).1 ≠ (get_root empty_tree).1.
Proof.
  cbn zeta. split; [vm_compute; reflexivity|]. split; [vm_compute; reflexivity|].
  intros E. apply (f_equal (λ r, match r with Ok h => as_bytes h | _ => [] end)) in E. vm_compute in E. discriminate.
Qed.

Lemma empty_tree_new : VerkleTree_new MemoryStorage_new = Ok empty_tree.
Proof.
  unfold empty_tree. destruct (VerkleTree_new MemoryStorage_new) as [t|e|p] eqn:E; [done| |].
  all: apply (f_equal is_ok) in E; vm_compute in E; discriminate.
Qed.

Lemma root_is_recomputed_witness :
  let t := foldl run_op empty_tree losing_history in (get_root t).1 = scratch_root t.
Proof. exact (proj1 (root_is_recomputed _ losing_history _ empty_tree_new)). Defined.

Lemma tree_is_a_map_witness :
  get_key (insert_key (key_of [1]) [x05] empty_tree) (key_of [1]) = Ok (Some [x05]).
Proof.
  destruct (tree_is_a_map empty_tree (key_of [1]) [x05]) as [H _]; [cbn; lia|].
  rewrite H. vm_compute. reflexivity.
Defined.

Lemma pruned_key_never_returns_witness :
  let t := insert_key (key_of [1]) [x05] empty_tree in
  get_key (insert_key (key_of [1]) [x06] (prune_key (key_of [1]) t).2) (key_of [1])
  = Err (PrunedData "Key has been pruned").
Proof.
  cbn zeta. apply (pruned_key_never_returns (insert_key (key_of [1]) [x05] empty_tree) (key_of [1]) [x06]).
  - cbn. lia.
  - vm_compute. reflexivity.
Defined.
Lemma apply_state_transition_spec_witness :
  get_key (insert_key TOTAL_SUPPLY_KEY (le_bytes 16 100) (set_dirty true empty_tree)) TOTAL_SUPPLY_KEY
  = Ok (Some (le_bytes 16 100)).
Proof.
  destruct (apply_state_transition_spec [] 100 empty_tree) as [_ H]. apply H.
  - unfold fits. lia.
  - apply (bool_decide_unpack _). vm_compute. exact I.
Defined.
End examples.
