(* ===== verification/PolyCommit.v ===== *)
(** * Polynomial commitments

    [crypto/verkle/polynomial_commitment.rs]: the commitment scheme behind the
    Verkle tree.  The curve (arkworks' Bandersnatch) is the class [Curve], and
    [DensePolynomial] of ark-poly the class [DensePolynomials], with their
    documented laws; the protocol over them is translated. *)

From S2P Require Import Prelude Crypto VerkleTree.
From Stdlib Require Import Init.Byte Field_theory Ring.

Inductive PolynomialCommitmentError :=
| DegreeTooHigh
| InvalidEvaluation
| InvalidProof
| PcSerializationError (msg : string).
#[global] Instance PolynomialCommitmentError_eq_dec : EqDecision PolynomialCommitmentError.
Proof. solve_decision. Defined.

(** [impl Display] *)
Definition pc_fmt (e : PolynomialCommitmentError) : string :=
  match e with
  | DegreeTooHigh => "Polynomial degree too high for available generators"
  | InvalidEvaluation => "Polynomial evaluation mismatch"
  | InvalidProof => "Invalid IPA opening proof"
  | PcSerializationError msg => "Serialization error: " +:+ msg
  end.

(** ** The curve and its scalar field *)
Class Curve := {
  Fr : Type;
  fr_eq_dec : EqDecision Fr;
  fzero : Fr; fone : Fr;
  fadd : Fr → Fr → Fr; fmul : Fr → Fr → Fr; fsub : Fr → Fr → Fr; fopp : Fr → Fr;
  (** [inverse], [None] on zero *)
  inverse : Fr → option Fr;
  (** [into_bigint().to_bytes_le()] and [from_le_bytes_mod_order] *)
  to_bytes_le : Fr → list byte;
  fr_from_le_bytes_mod_order : list byte → Fr;
  (** points, affine ([into_affine] included) *)
  Point : Type;
  point_eq_dec : EqDecision Point;
  point_zero : Point;
  point_add : Point → Point → Point;
  point_mul : Point → Fr → Point;
  generator : Point;
  msm_unchecked : list Point → list Fr → Point;
  point_serialize_uncompressed : Point → outcome string (list byte)
}.
#[export] Existing Instances fr_eq_dec point_eq_dec.

(** The field laws; an inverse is one. *)
Class CurveLaws `{Curve} := {
  fr_ring : ring_theory fzero fone fadd fmul fsub fopp eq;
  fr_one_zero : fone ≠ fzero;
  fr_inverse : ∀ x, match inverse x with Some y => fmul x y = fone | None => x = fzero end;
  fr_integral : ∀ x y, fmul x y = fzero → x = fzero ∨ y = fzero
}.

(** ** [DensePolynomial]: coefficients from the constant term up *)
Class DensePolynomials `{Curve} := {
  DensePolynomial : Type;
  from_coefficients_vec : list Fr → DensePolynomial;
  coeffs : DensePolynomial → list Fr;
  degree : DensePolynomial → nat;
  evaluate : DensePolynomial → Fr → Fr;
  poly_is_zero : DensePolynomial → bool;
  poly_sub : DensePolynomial → DensePolynomial → DensePolynomial
}.

Section spec.
Context `{Curve}.
(** Without the zeros at the end. *)
Fixpoint trim (l : list Fr) : list Fr :=
  match l with
  | [] => []
  | x :: l => match trim l with
              | [] => if decide (x = fzero) then [] else [x]
              | t => x :: t
              end
  end.
Fixpoint horner (l : list Fr) (z : Fr) : Fr :=
  match l with [] => fzero | x :: l => fadd x (fmul (horner l z) z) end.
Fixpoint sub_coeffs (a b : list Fr) : list Fr :=
  match a, b with
  | [], _ => fopp <$> b
  | _, [] => a
  | x :: a, y :: b => fsub x y :: sub_coeffs a b
  end.
End spec.

(** What its documentation says: no leading zero is kept. *)
Class DensePolynomialLaws `{DensePolynomials} := {
  coeffs_from : ∀ l, coeffs (from_coefficients_vec l) = trim l;
  coeffs_trimmed : ∀ p, trim (coeffs p) = coeffs p;
  degree_spec : ∀ p, degree p = (length (coeffs p) - 1)%nat;
  evaluate_spec : ∀ p z, evaluate p z = horner (coeffs p) z;
  is_zero_spec : ∀ p, poly_is_zero p = true ↔ coeffs p = [];
  coeffs_sub : ∀ p q, coeffs (poly_sub p q) = trim (sub_coeffs (coeffs p) (coeffs q))
}.

(** ** The scheme *)
Section scheme.
Context `{Blake3} `{DensePolynomials}.

Record PolynomialCommitment := { generators : list Point; random_point : Point }.

Record IpaProof := { final_commitment : Point; proof_scalars : list Fr }.
Record PcOpeningProof := {
  opening_quotient : Point;
  ipa_proof : IpaProof;
  opening_point : Fr;
  opening_value : Fr
}.

(** The search for a non-zero scalar, up to [fuel] counters. *)
Fixpoint hash_to_curve (fuel : nat) (tag : string) (index counter : Z) : option Point :=
  match fuel with
  | O => None
  | Datatypes.S fuel =>
      let h := blake3 (String.list_byte_of_string tag ++ le_bytes 8 index ++ le_bytes 8 counter) in
      let scalar := fr_from_le_bytes_mod_order (as_bytes h) in
      if decide (scalar = fzero) then hash_to_curve fuel tag index (wadd 64 counter 1)
      else Some (point_mul generator scalar)
  end.
Definition generate_generator_point (fuel : nat) (index : Z) : option Point :=
  hash_to_curve fuel "KLOMANG_GENERATOR" index 0.
Definition PolynomialCommitment_new (fuel : nat) (generator_count : nat) : option PolynomialCommitment :=
  gens ← mapM (λ i, generate_generator_point fuel (Z.of_nat i)) (seq 0 generator_count);
  random ← generate_generator_point fuel (Z.of_nat generator_count);
  Some {| generators := gens; random_point := random |}.

Definition generate_blinding_factor (cs : list Fr) : Fr :=
  fr_from_le_bytes_mod_order (as_bytes (blake3
    (String.list_byte_of_string "KLOMANG_COMMITMENT_BLINDING" ++ mjoin (to_bytes_le <$> cs)))).

(** [commit] on the coefficients; [reconstruct_commitment_from_scalars] is the same
    code on a slice. *)
Definition reconstruct_commitment_from_scalars (self : PolynomialCommitment) (scalars : list Fr) :
    outcome PolynomialCommitmentError Point :=
  if (length (generators self) <? length scalars)%nat then Err DegreeTooHigh
  else
    let commitment := match scalars with
                      | [] => point_zero
                      | _ => msm_unchecked (take (length scalars) (generators self)) scalars
                      end in
    let blinding := generate_blinding_factor scalars in
    Ok (point_add commitment (point_mul (random_point self) blinding)).
Definition commit (self : PolynomialCommitment) (polynomial : DensePolynomial) :
    outcome PolynomialCommitmentError Point :=
  reconstruct_commitment_from_scalars self (coeffs polynomial).

(** [result[i + j] += a * b] *)
Definition multiply_row (i : nat) (a : Fr) (b : list Fr) (result : list Fr) : list Fr :=
  if decide (a = fzero) then result
  else foldl (λ result p, if decide (p.2 = fzero) then result
                          else alter (λ x, fadd x (fmul a p.2)) (i + p.1)%nat result)
         result (enumerate b).
Definition naive_polynomial_multiply (a b : DensePolynomial) : DensePolynomial :=
  if poly_is_zero a || poly_is_zero b then from_coefficients_vec []
  else
    let result_len := (length (coeffs a) + length (coeffs b) - 1)%nat in
    from_coefficients_vec
      (foldl (λ result p, multiply_row p.1 p.2 (coeffs b) result) (replicate result_len fzero)
         (enumerate (coeffs a))).

(** The loop of the long division: the quotient coefficients in the order they are
    pushed. *)
Fixpoint division_loop (fuel : nat) (denominator : DensePolynomial) (den_leading_coeff : Fr)
    (remainder : DensePolynomial) (quotient_coeffs : list Fr) : outcome PolynomialCommitmentError (list Fr) :=
  match fuel with
  | O => Panic "out of fuel"
  | Datatypes.S fuel =>
      if (degree denominator <=? degree remainder)%nat then
        match last (coeffs remainder), inverse den_leading_coeff with
        | Some rem_leading_coeff, Some inv =>
            let quotient_coeff := fmul rem_leading_coeff inv in
            let degree_diff := (degree remainder - degree denominator)%nat in
            let quotient_term := from_coefficients_vec (replicate degree_diff fzero ++ [quotient_coeff]) in
            let subtract_term := naive_polynomial_multiply quotient_term denominator in
            division_loop fuel denominator den_leading_coeff (poly_sub remainder subtract_term)
              (quotient_coeffs ++ [quotient_coeff])
        | None, _ => Panic "index out of bounds"
        | _, None => Panic "called `Option::unwrap()` on a `None` value"
        end
      else Ok quotient_coeffs
  end.

Definition polynomial_division (numerator denominator : DensePolynomial) :
    outcome PolynomialCommitmentError DensePolynomial :=
  if (degree numerator <? degree denominator)%nat then Ok (from_coefficients_vec [])
  else match last (coeffs denominator) with
       | None => Panic "index out of bounds"
       | Some den_leading_coeff =>
           q ← division_loop (length (coeffs numerator) + 1) denominator den_leading_coeff numerator [];
           Ok (from_coefficients_vec (reverse q))
       end.

Definition compute_quotient_polynomial (polynomial : DensePolynomial) (point value : Fr) :
    outcome PolynomialCommitmentError DensePolynomial :=
  match coeffs polynomial with
  | [] => Panic "index out of bounds"
  | c :: cs =>
      let numerator := from_coefficients_vec (fsub c value :: cs) in
      let denominator := from_coefficients_vec [fopp point; fone] in
      polynomial_division numerator denominator
  end.

Definition generate_ipa_proof (self : PolynomialCommitment) (polynomial : DensePolynomial) :
    outcome PolynomialCommitmentError IpaProof :=
  fc ← commit self polynomial;
  Ok {| final_commitment := fc; proof_scalars := coeffs polynomial |}.

Definition open (self : PolynomialCommitment) (polynomial : DensePolynomial) (point value : Fr) :
    outcome PolynomialCommitmentError PcOpeningProof :=
  if decide (evaluate polynomial point = value) then
    quotient ← compute_quotient_polynomial polynomial point value;
    qc ← commit self quotient;
    ipa ← generate_ipa_proof self quotient;
    Ok {| opening_quotient := qc; ipa_proof := ipa; opening_point := point; opening_value := value |}
  else Err InvalidEvaluation.

(** [quotient_coeffs.get(i)] or zero, for [i] from 1; then the coefficient before. *)
Fixpoint reconstruct_tail (point : Fr) (quotient_coeffs : list Fr) : list Fr :=
  match quotient_coeffs with
  | [] => []
  | prev :: rest => fsub prev (fmul point (default fzero (head rest))) :: reconstruct_tail point rest
  end.
Definition reconstruct_polynomial_from_quotient (quotient_coeffs : list Fr) (point value : Fr) : list Fr :=
  fadd (fmul (fopp point) (default fzero (head quotient_coeffs))) value
  :: reconstruct_tail point quotient_coeffs.

Definition verify_ipa_proof (self : PolynomialCommitment) (commitment : Point) (proof : PcOpeningProof) :
    outcome PolynomialCommitmentError bool :=
  reconstructed ← reconstruct_commitment_from_scalars self (proof_scalars (ipa_proof proof));
  if negb (bool_decide (reconstructed = final_commitment (ipa_proof proof))) then Ok false
  else if negb (bool_decide (reconstructed = opening_quotient proof)) then Ok false
  else
    let p_coeffs := reconstruct_polynomial_from_quotient (proof_scalars (ipa_proof proof))
                      (opening_point proof) (opening_value proof) in
    expected_commitment ← commit self (from_coefficients_vec p_coeffs);
    Ok (bool_decide (expected_commitment = commitment)).
Definition pc_verify_opening (self : PolynomialCommitment) (commitment : Point) (proof : PcOpeningProof) :
    outcome PolynomialCommitmentError bool := verify_ipa_proof self commitment proof.

(** The scheme as the tree uses it. *)
Definition polynomial_commitments (self : PolynomialCommitment) : Commitments := {|
  ScalarField := Fr;
  Commitment := Point;
  scalar_zero := fzero;
  from_le_bytes_mod_order := fr_from_le_bytes_mod_order;
  pc_commit cs := map_err pc_fmt (commit self (from_coefficients_vec cs));
  serialize_uncompressed := point_serialize_uncompressed;
  OpeningProof := PcOpeningProof;
  pc_open cs point value := map_err pc_fmt (open self (from_coefficients_vec cs) point value);
  quotient_commitment := opening_quotient;
  pc_verify c p := map_err pc_fmt (pc_verify_opening self c p)
|}.
End scheme.

(** ** Coefficient lists *)
Section lists.
Context `{HC : Curve} `{!CurveLaws}.
Implicit Types (l c q : list Fr) (z h b : Fr).

Add Ring Fr_ring : fr_ring.

Lemma trim_snoc l x : x ≠ fzero → trim (l ++ [x]) = l ++ [x].
Proof.
  intros Hx. induction l as [|y l IH]; cbn; [by rewrite decide_False|]. rewrite IH. by destruct l.
Qed.
Lemma trim_snoc_zero l : trim (l ++ [fzero]) = trim l.
Proof.
  induction l as [|y l IH]; cbn; [by rewrite decide_True|]. by rewrite IH.
Qed.
Lemma trim_no_zeros l : Forall (λ x, x ≠ fzero) l → trim l = l.
Proof.
  intros Hl. destruct l as [|x l'] using rev_ind; [done|]. apply Forall_app in Hl as [_ Hl].
  apply Forall_cons in Hl as [Hx _]. by apply trim_snoc.
Qed.
Lemma horner_trim l z : horner (trim l) z = horner l z.
Proof.
  induction l as [|x l IH]; cbn; [done|]. destruct (trim l) as [|y t] eqn:E; cbn in IH.
  - case_decide as Hx; cbn; rewrite <- IH; [subst x|]; ring.
  - cbn. cbn in IH. by rewrite IH.
Qed.
Lemma sub_coeffs_app (a b c d : list Fr) :
  length a = length b → sub_coeffs (a ++ c) (b ++ d) = sub_coeffs a b ++ sub_coeffs c d.
Proof.
  revert b; induction a as [|x a IH]; intros [|y b] Hl; try done; cbn.
  f_equal. apply IH. by injection Hl.
Qed.
Lemma sub_zeros l n : sub_coeffs l (replicate n fzero) = l ++ replicate (n - length l) fzero.
Proof.
  revert n; induction l as [|x l IH]; intros n; cbn.
  - rewrite Nat.sub_0_r. destruct n; [done|]. cbn. f_equal; [ring|]. rewrite fmap_replicate. f_equal. ring.
  - destruct n as [|n]; cbn; [by rewrite app_nil_r|]. rewrite IH. f_equal. ring.
Qed.

(** The coefficients of [(p(x) - p(z)) / (x - z)]. *)
Fixpoint synthetic c z : list Fr :=
  match c with
  | [] => []
  | _ :: t => match t with [] => [] | _ => horner t z :: synthetic t z end
  end.

Lemma horner_merge l b h z : horner (l ++ [b; h]) z = horner (l ++ [fadd b (fmul h z)]) z.
Proof. induction l as [|x l IH]; cbn; [ring|]. by rewrite IH. Qed.

Lemma synthetic_merge l b h z : synthetic (l ++ [b; h]) z = synthetic (l ++ [fadd b (fmul h z)]) z ++ [h].
Proof.
  induction l as [|x l IH]; cbn; [f_equal; ring|].
  destruct l as [|y l]; cbn; [f_equal; [ring|f_equal; ring]|].
  cbn in IH. rewrite IH. f_equal. by rewrite horner_merge.
Qed.

Lemma length_synthetic x c z : length (synthetic (x :: c) z) = length c.
Proof.
  revert x; induction c as [|y c IH]; intros x; [done|].
  change (synthetic (x :: y :: c) z) with (horner (y :: c) z :: synthetic (y :: c) z). cbn [length]. by rewrite IH.
Qed.

(** The quotients from the top: what a long division pushes, zeros included. *)
Fixpoint pushes (rl : list Fr) h z : list Fr :=
  match rl with [] => [] | b :: rl => h :: pushes rl (fadd b (fmul h z)) z end.
Lemma pushes_synthetic rl h z : reverse (pushes rl h z) = synthetic (reverse rl ++ [h]) z.
Proof.
  revert h; induction rl as [|b rl IH]; intros h; cbn [pushes]; [done|].
  rewrite !reverse_cons, IH, <- app_assoc. cbn [app]. by rewrite synthetic_merge.
Qed.

(** Rebuilding a polynomial from a quotient. *)
Lemma horner_tail q z : horner (reconstruct_tail z q) z = default fzero (head q).
Proof. induction q as [|x q IH]; cbn; [done|]. rewrite IH. ring. Qed.
Lemma horner_reconstruct q z v : horner (reconstruct_polynomial_from_quotient q z v) z = v.
Proof. unfold reconstruct_polynomial_from_quotient. cbn. rewrite horner_tail. ring. Qed.

Lemma tail_synthetic x c z : reconstruct_tail z (synthetic (x :: c) z) = c.
Proof.
  revert x; induction c as [|y c IH]; intros x; [done|].
  change (synthetic (x :: y :: c) z) with (horner (y :: c) z :: synthetic (y :: c) z).
  cbn [reconstruct_tail]. rewrite IH. f_equal. destruct c as [|w c]; cbn; ring.
Qed.
Lemma reconstruct_synthetic c z :
  c ≠ [] → reconstruct_polynomial_from_quotient (synthetic c z) z (horner c z) = c.
Proof.
  destruct c as [|x c]; [done|]. intros _. unfold reconstruct_polynomial_from_quotient. rewrite tail_synthetic.
  f_equal. destruct c as [|y c]; cbn; ring.
Qed.
End lists.

(** ** The long division *)
Section division.
Context `{Blake3} `{HC : Curve} `{!CurveLaws} `{!DensePolynomials} `{!DensePolynomialLaws}.
Implicit Types (l c q : list Fr) (z h b : Fr) (p r : DensePolynomial).

Add Ring Fr_ring' : fr_ring.

Lemma inverse_one : inverse fone = Some fone.
Proof.
  pose proof (fr_inverse fone) as Hi. destruct (inverse fone) as [y|].
  - f_equal. rewrite <- Hi. ring.
  - by destruct fr_one_zero.
Qed.

Lemma rows_zero (rows : list (nat * Fr)) c result :
  Forall (λ row, row.2 = fzero) rows →
  foldl (λ result row, multiply_row row.1 row.2 c result) result rows = result.
Proof.
  intros Hr. revert result; induction Hr as [|row rows Hrow _ IH]; intros result; [done|].
  cbn [foldl]. rewrite IH. unfold multiply_row. by rewrite decide_True.
Qed.

(** [q x^d (x - z)] *)
Lemma multiply_term d h z p r :
  h ≠ fzero → coeffs p = replicate d fzero ++ [h] → coeffs r = [fopp z; fone] →
  coeffs (naive_polynomial_multiply p r) = replicate d fzero ++ [fopp (fmul h z); h].
Proof.
  intros Hh Ep Er. unfold naive_polynomial_multiply.
  assert (poly_is_zero p = false) as ->.
  { apply not_true_iff_false. rewrite is_zero_spec, Ep. by destruct d. }
  assert (poly_is_zero r = false) as ->.
  { apply not_true_iff_false. by rewrite is_zero_spec, Er. }
  cbn [orb]. rewrite coeffs_from, Ep, Er. rewrite length_app, length_replicate. cbn [length].
  replace (d + 1 + 2 - 1)%nat with (d + 2)%nat by lia. rewrite replicate_add.
  unfold enumerate at 1. rewrite imap_app, foldl_app, (rows_zero (imap _ (replicate d fzero))).
  2:{ apply Forall_forall. intros row (i & x & -> & Hx)%elem_of_lookup_imap_1. cbn.
      by apply lookup_replicate in Hx as [-> _]. }
  rewrite length_replicate. cbn [imap foldl fst snd]. unfold multiply_row. rewrite decide_False by done.
  cbn [foldl enumerate imap fst snd compose].
  assert (E : (if decide (fopp z = fzero) then replicate d fzero ++ replicate 2 fzero
      else alter (λ x, fadd x (fmul h (fopp z))) (d + 0 + 0)%nat (replicate d fzero ++ replicate 2 fzero))
    = replicate d fzero ++ [fopp (fmul h z); fzero]).
  { case_decide as Hz.
    - cbn. do 2 f_equal. transitivity (fmul h (fopp z)); [rewrite Hz|]; ring.
    - replace (d + 0 + 0)%nat with (length (replicate d fzero) + 0)%nat by (rewrite length_replicate; lia).
      rewrite alter_app_r. cbn. do 2 f_equal. ring. }
  rewrite E. rewrite decide_False by apply fr_one_zero.
  replace (d + 0 + 1)%nat with (length (replicate d fzero) + 1)%nat by (rewrite length_replicate; lia).
  rewrite alter_app_r. cbn [alter list_alter].
  replace (fadd fzero (fmul h fone)) with h by ring.
  change [fopp (fmul h z); h] with ([fopp (fmul h z)] ++ [h]). rewrite app_assoc. by apply trim_snoc.
Qed.

Lemma degree_of p l h : coeffs p = l ++ [h] → degree p = length l.
Proof. intros E. rewrite degree_spec, E, length_app. cbn. lia. Qed.

(** The loop pushes the quotients that are not zero, from the top. *)
Lemma division_loop_run rl h acc fuel den r z :
  coeffs den = [fopp z; fone] → coeffs r = trim (reverse rl ++ [h]) → (length rl < fuel)%nat →
  division_loop fuel den fone r acc = Ok (acc ++ filter (λ x, x ≠ fzero) (pushes rl h z)).
Proof.
  intros Eden. pose proof (degree_of den [fopp z] fone Eden) as Hden.
  revert h acc fuel r; induction rl as [|b rl IH]; intros h acc fuel r Er Hf; (destruct fuel as [|fuel]; [cbn in Hf; lia|]).
  - cbn [division_loop]. rewrite Hden. cbn [length pushes]. rewrite filter_nil, app_nil_r.
    rewrite degree_spec, Er. cbn. by destruct (decide (h = fzero)).
  - rewrite reverse_cons in Er. destruct (decide (h = fzero)) as [->|Hh].
    + rewrite trim_snoc_zero in Er. cbn [pushes]. rewrite filter_cons_False by (intros Hn; by apply Hn).
      replace (fadd b (fmul fzero z)) with b by ring. apply IH; [done|cbn in Hf; lia].
    + rewrite trim_snoc in Er by done. cbn [division_loop pushes]. rewrite filter_cons_True by done.
      rewrite Hden, (degree_of r _ _ Er). cbn [length].
      rewrite (proj2 (Nat.leb_le _ _)) by (rewrite length_app; cbn; lia).
      rewrite Er, last_snoc, inverse_one. replace (fmul h fone) with h by ring.
      rewrite length_app, length_reverse. cbn [length]. rewrite Nat.add_sub.
      etrans; [apply (IH (fadd b (fmul h z))); [|cbn in Hf; lia]|by rewrite <- app_assoc].
      rewrite coeffs_sub, Er. rewrite (multiply_term (length rl) h z); [|done| |done].
      2:{ rewrite coeffs_from. by apply trim_snoc. }
      rewrite <- app_assoc, sub_coeffs_app by (by rewrite length_replicate, length_reverse).
      rewrite sub_zeros, length_reverse, Nat.sub_diag, app_nil_r. cbn [sub_coeffs app fmap list_fmap].
      replace (fsub h h) with fzero by ring.
      replace (fsub b (fopp (fmul h z))) with (fadd b (fmul h z)) by ring.
      change [fadd b (fmul h z); fzero] with ([fadd b (fmul h z)] ++ [fzero]).
      by rewrite app_assoc, trim_snoc_zero.
Qed.

(** The quotient the code computes: the right coefficients, without the zeros. *)
Lemma quotient_run p z v :
  coeffs p ≠ [] →
  ∃ q : DensePolynomial, compute_quotient_polynomial p z v = Ok q
  ∧ coeffs q = filter (λ x, x ≠ fzero) (synthetic (coeffs p) z).
Proof.
  intros Hp. unfold compute_quotient_polynomial. destruct (coeffs p) as [|c cs] eqn:Ep; [done|]. clear Hp.
  assert (Eden : coeffs (from_coefficients_vec [fopp z; fone]) = [fopp z; fone]).
  { rewrite coeffs_from. apply (trim_snoc [fopp z]), fr_one_zero. }
  assert (Hsyn : synthetic (c :: cs) z = synthetic (fsub c v :: cs) z) by done. rewrite Hsyn.
  unfold polynomial_division. rewrite Eden. rewrite (degree_of _ [fopp z] fone Eden). cbn [length last].
  destruct cs as [|x cs'] using rev_ind.
  - rewrite degree_spec, coeffs_from. cbn [trim]. eexists.
    case_decide; cbn; (split; [done|]); by rewrite coeffs_from.
  - clear IHcs'. assert (Hx : x ≠ fzero).
    { intros ->. pose proof (coeffs_trimmed p) as Ht. rewrite Ep in Ht.
      change (c :: cs' ++ [fzero]) with ((c :: cs') ++ [fzero]) in Ht. rewrite trim_snoc_zero in Ht.
      apply (f_equal length) in Ht. rewrite length_app in Ht.
      assert (Hle : ∀ l, (length (trim l) ≤ length l)%nat).
      { intros l. induction l as [|y l IH]; cbn; [done|]. destruct (trim l); [case_decide|]; cbn in *; lia. }
      specialize (Hle (c :: cs')). cbn in *. lia. }
    change (fsub c v :: cs' ++ [x]) with ((fsub c v :: cs') ++ [x]) in *.
    assert (En : coeffs (from_coefficients_vec ((fsub c v :: cs') ++ [x])) = (fsub c v :: cs') ++ [x]).
    { rewrite coeffs_from. by apply trim_snoc. }
    rewrite (degree_of _ _ _ En). cbn [length]. rewrite (proj2 (Nat.ltb_ge _ _)) by lia.
    eexists. rewrite (division_loop_run (reverse (fsub c v :: cs')) x [] _ _ _ z Eden).
    + cbn [app mbind outcome_bind]. split; [reflexivity|]. rewrite coeffs_from, <- filter_reverse, pushes_synthetic.
      rewrite reverse_involutive. apply trim_no_zeros, Forall_forall. by intros y [? _]%list_elem_of_filter.
    + by rewrite reverse_involutive, coeffs_from.
    + rewrite En, length_reverse, length_app. cbn. lia.
Qed.
End division.

(** ** The theorems *)
Section theorems.
Context `{Blake3} `{HC : Curve} `{!CurveLaws} `{!DensePolynomials} `{!DensePolynomialLaws}.
Implicit Types (self : PolynomialCommitment) (p : DensePolynomial) (z v : Fr).

Add Ring Fr_ring'' : fr_ring.

Lemma commit_ext self p p' : coeffs p = coeffs p' → commit self p = commit self p'.
Proof. unfold commit. by intros ->. Qed.

Lemma open_run self p z :
  coeffs p ≠ [] → (length (coeffs p) ≤ length (generators self))%nat →
  let q := filter (λ x, x ≠ fzero) (synthetic (coeffs p) z) in
  ∃ c, reconstruct_commitment_from_scalars self q = Ok c
  ∧ open self p z (evaluate p z)
    = Ok {| opening_quotient := c; ipa_proof := {| final_commitment := c; proof_scalars := q |};
            opening_point := z; opening_value := evaluate p z |}.
Proof.
  intros Hp Hl q. unfold open. rewrite decide_True by done.
  destruct (quotient_run p z (evaluate p z) Hp) as (qp & -> & Eq). fold q in Eq.
  assert (Hq : (length q ≤ length (coeffs p))%nat).
  { etrans; [apply length_filter|]. clear. induction (coeffs p) as [|x [|y c] IH]; cbn in *; lia. }
  assert (Hc : ∃ c, reconstruct_commitment_from_scalars self q = Ok c).
  { unfold reconstruct_commitment_from_scalars. rewrite (proj2 (Nat.ltb_ge _ _)) by lia. by eexists. }
  destruct Hc as [c Hc]. exists c. split; [done|].
  cbn [mbind outcome_bind]. unfold generate_ipa_proof, commit. by rewrite Eq, Hc.
Qed.

Lemma verify_run self c p z v q :
  reconstruct_commitment_from_scalars self q = Ok c →
  ∀ cp, pc_verify_opening self cp {| opening_quotient := c; ipa_proof := {| final_commitment := c; proof_scalars := q |};
            opening_point := z; opening_value := v |}
  = (e ← commit self (from_coefficients_vec (reconstruct_polynomial_from_quotient q z v));
     Ok (bool_decide (e = cp))).
Proof.
  intros Hc cp. unfold pc_verify_opening, verify_ipa_proof. cbn [ipa_proof proof_scalars final_commitment opening_quotient opening_point opening_value].
  rewrite Hc. cbn [mbind outcome_bind]. rewrite bool_decide_eq_true_2 by done. done.
Qed.

(** An honest opening verifies when no coefficient of the quotient is zero. *)
Theorem honest_opening_verifies self p z
    (Hp : coeffs p ≠ []) (Hl : (length (coeffs p) ≤ length (generators self))%nat)
    (Hq : Forall (λ x, x ≠ fzero) (synthetic (coeffs p) z)) :
  ∃ c proof, commit self p = Ok c ∧ open self p z (evaluate p z) = Ok proof
  ∧ pc_verify_opening self c proof = Ok true.
Proof.
  destruct (open_run self p z Hp Hl) as (cq & Hcq & Ho).
  assert (Ef : filter (λ x, x ≠ fzero) (synthetic (coeffs p) z) = synthetic (coeffs p) z).
  { clear -Hq. induction Hq as [|x l Hx Hl IH]; [done|]. by rewrite filter_cons_True, IH. }
  rewrite Ef in Hcq, Ho. rewrite evaluate_spec in Ho.
  assert (Hc : ∃ c, commit self p = Ok c).
  { unfold commit, reconstruct_commitment_from_scalars. rewrite (proj2 (Nat.ltb_ge _ _)) by lia. by eexists. }
  destruct Hc as [c Hc]. exists c. eexists. split; [done|]. rewrite evaluate_spec. split; [exact Ho|].
  rewrite (verify_run self cq p) by done. rewrite reconstruct_synthetic by done.
  rewrite (commit_ext self _ p) by (rewrite coeffs_from; apply coeffs_trimmed). rewrite Hc.
  cbn [mbind outcome_bind]. by rewrite bool_decide_eq_true_2.
Qed.

(** C28. A proof that verifies binds the value: the commitment is that of a polynomial
    which takes the claimed value at the claimed point (and whose quotient the
    proof lists in full). *)
Theorem opening_binds_value self c proof
    (Hv : pc_verify_opening self c proof = Ok true) :
  ∃ p, commit self p = Ok c ∧ evaluate p (opening_point proof) = opening_value proof
  ∧ coeffs p = trim (reconstruct_polynomial_from_quotient (proof_scalars (ipa_proof proof))
                       (opening_point proof) (opening_value proof)).
Proof.
  unfold pc_verify_opening, verify_ipa_proof in Hv. apply bind_ok in Hv as (r & _ & Hv).
  destruct (negb _); [done|]. destruct (negb _); [done|]. apply bind_ok in Hv as (e & He & Hv).
  injection Hv as Hv. apply bool_decide_eq_true in Hv as ->.
  eexists. split; [exact He|]. rewrite evaluate_spec, coeffs_from, horner_trim. split; [apply horner_reconstruct|done].
Qed.

(** Where honest openings fail: the division drops the zero coefficients of the
    quotient, so the opening of [X^2] at 0 claims the quotient 1 instead of [X] and
    is accepted only if [X] and [X^2] have the same commitment; and the polynomial
    zero cannot be opened at all. *)
Theorem sparse_openings_fail self p z v
    (Hl : (3 ≤ length (generators self))%nat) :
  (coeffs p = [fzero; fzero; fone] →
   ∃ c x proof, commit self p = Ok c ∧ commit self (from_coefficients_vec [fzero; fone]) = Ok x
   ∧ open self p fzero (evaluate p fzero) = Ok proof ∧ proof_scalars (ipa_proof proof) = [fone]
   ∧ pc_verify_opening self c proof = Ok (bool_decide (x = c)))
  ∧ (coeffs p = [] → evaluate p z = v → open self p z v = Panic "index out of bounds").
Proof.
  split.
  2:{ intros Hp Hv. unfold open. rewrite decide_True by done. unfold compute_quotient_polynomial. by rewrite Hp. }
  intros Hp. destruct (open_run self p fzero) as (cq & Hcq & Ho); [by rewrite Hp|by rewrite Hp|].
  assert (Hsyn : filter (λ x, x ≠ fzero) (synthetic (coeffs p) fzero) = [fone]).
  { rewrite Hp. change (synthetic [fzero; fzero; fone] fzero) with [horner [fzero; fone] fzero; horner [fone] fzero].
    replace (horner [fzero; fone] fzero) with fzero by (cbn; ring).
    replace (horner [fone] fzero) with fone by (cbn; ring).
    rewrite filter_cons_False by (intros Hn; by apply Hn).
    by rewrite filter_cons_True by apply fr_one_zero. }
  rewrite Hsyn in Hcq, Ho.
  assert (Hc : ∀ q, (length (coeffs q) ≤ 3)%nat → ∃ c, commit self q = Ok c).
  { intros q Hq. unfold commit, reconstruct_commitment_from_scalars. rewrite (proj2 (Nat.ltb_ge _ _)) by lia. by eexists. }
  destruct (Hc p) as [c Ec]; [by rewrite Hp|].
  assert (Ex : coeffs (from_coefficients_vec [fzero; fone]) = [fzero; fone]).
  { rewrite coeffs_from. apply (trim_snoc [fzero]), fr_one_zero. }
  destruct (Hc (from_coefficients_vec [fzero; fone])) as [x Exx]; [rewrite Ex; cbn; lia|].
  exists c, x. eexists. split; [done|]. split; [done|]. split; [exact Ho|]. split; [done|].
  rewrite (verify_run self cq p) by done. rewrite evaluate_spec, Hp.
  replace (reconstruct_polynomial_from_quotient [fone] fzero (horner [fzero; fzero; fone] fzero)) with [fzero; fone]
    by (unfold reconstruct_polynomial_from_quotient; cbn; f_equal; [ring|f_equal; ring]).
  by rewrite Exx.
Qed.

Lemma trim_le (l : list Fr) : (length (trim l) ≤ length l)%nat.
Proof. induction l as [|y l IH]; cbn; [done|]. destruct (trim l); [case_decide|]; cbn in *; lia. Qed.
Lemma trim_nonzero (l : list Fr) : Exists (λ c, c ≠ fzero) l → trim l ≠ [].
Proof.
  induction 1 as [x l Hx|x l _ IH]; cbn.
  - destruct (trim l); [by rewrite decide_False|done].
  - by destruct (trim l).
Qed.
Lemma reconstruct_ok self (l : list Fr) :
  (length l ≤ length (generators self))%nat → is_ok (reconstruct_commitment_from_scalars self l) = true.
Proof. intros Hl. unfold reconstruct_commitment_from_scalars. by rewrite (proj2 (Nat.ltb_ge _ _)) by lia. Qed.

(** ** The scheme keeps its promise to the trees *)
Lemma commitment_laws self :
  (VERKLE_RADIX ≤ length (generators self))%nat →
  (∀ c : Point, is_ok (point_serialize_uncompressed c) = true) →
  CommitmentLaws (H := polynomial_commitments self).
Proof.
  intros Hg Hs. split; [|exact Hs]. intros cs Hcs. cbn. unfold commit. rewrite coeffs_from.
  pose proof (reconstruct_ok self (trim cs)) as Hok. pose proof (trim_le cs).
  destruct (reconstruct_commitment_from_scalars self (trim cs)); [done|..]; apply Hok; cbn in *; lia.
Qed.

Lemma opening_laws self :
  (VERKLE_RADIX ≤ length (generators self))%nat → OpeningLaws (H := polynomial_commitments self).
Proof.
  intros Hg. split. intros cs z v Hcs Hne. cbn. set (p := from_coefficients_vec cs).
  assert (Ep : coeffs p = trim cs) by apply coeffs_from.
  pose proof (trim_le cs) as Hle. pose proof (trim_nonzero cs Hne) as Hnz. cbn in Hcs.
  destruct (decide (evaluate p z = v)) as [<-|Hv]; [|unfold open; by rewrite decide_False].
  destruct (open_run self p z) as (c & Hc & ->); [by rewrite Ep|rewrite Ep; lia|]. cbn [map_err opening_quotient].
  rewrite (verify_run self c p) by done.
  set (q := filter _ _). assert (Hq : (Datatypes.S (length q) ≤ length (coeffs p))%nat).
  { unfold q. rewrite Ep. destruct (trim cs) as [|x l]; [done|].
    etrans; [apply le_n_S, length_filter|]. by rewrite length_synthetic. }
  assert (Hrt : ∀ q, length (reconstruct_tail z q) = length q).
  { intros q'. induction q' as [|x q' IH]; cbn; [done|]. by rewrite IH. }
  set (l := reconstruct_polynomial_from_quotient q z (evaluate p z)).
  assert (Hl : (length l ≤ length (coeffs p))%nat) by (unfold l; cbn [length reconstruct_polynomial_from_quotient]; by rewrite Hrt).
  pose proof (trim_le l) as Hr. pose proof (reconstruct_ok self (trim l)) as Hok. unfold commit. rewrite coeffs_from.
  rewrite Ep in Hl. destruct (reconstruct_commitment_from_scalars self (trim l)); [by eexists|..]; discriminate Hok; lia.
Qed.
End theorems.

(** ** An implementation of the polynomials, and examples over the field of three *)
Section list_polynomials.
Context `{HC : Curve}.

Lemma trim_idem (l : list Fr) : trim (trim l) = trim l.
Proof.
  induction l as [|x l IH]; [done|]. cbn. destruct (trim l) as [|y t]; [case_decide as Hx; [done|]|].
  - cbn. by rewrite decide_False.
  - cbn [trim] in *. by rewrite IH.
Qed.

#[local] Instance list_polynomials : DensePolynomials := {|
  DensePolynomial := { l : list Fr | bool_decide (trim l = l) };
  from_coefficients_vec l := trim l ↾ bool_decide_pack _ (trim_idem l);
  coeffs p := `p;
  degree p := (length (`p) - 1)%nat;
  evaluate p z := horner (`p) z;
  poly_is_zero p := bool_decide (`p = []);
  poly_sub p q := trim (sub_coeffs (`p) (`q)) ↾ bool_decide_pack _ (trim_idem _)
|}.
#[local] Instance list_polynomial_laws : DensePolynomialLaws.
Proof.
  split; cbn; try done.
  - intros [l Hl]. exact (bool_decide_unpack _ Hl).
  - intros p. apply bool_decide_eq_true.
Qed.
End list_polynomials.

Section examples.
#[local] Existing Instance toy_blake3.

(** The field of three elements. *)
Inductive trit := T0 | T1 | T2.
#[local] Instance trit_eq_dec : EqDecision trit.
Proof. solve_decision. Defined.
Definition trit_Z (x : trit) : Z := match x with T0 => 0 | T1 => 1 | T2 => 2 end.
Definition Z_trit (n : Z) : trit := if n mod 3 =? 0 then T0 else if n mod 3 =? 1 then T1 else T2.

(** A point is the list of the scalars it was made of. *)
#[local] Instance trit_curve : Curve := {|
  Fr := trit; fzero := T0; fone := T1;
  fadd x y := Z_trit (trit_Z x + trit_Z y); fmul x y := Z_trit (trit_Z x * trit_Z y);
  fsub x y := Z_trit (trit_Z x - trit_Z y); fopp x := Z_trit (- trit_Z x);
  inverse x := match x with T0 => None | _ => Some x end;
  to_bytes_le x := [Z_byte (trit_Z x)];
  fr_from_le_bytes_mod_order l := Z_trit (le_Z l);
  Point := list trit; point_zero := []; point_add := app; point_mul _ s := [s]; generator := [T1];
  msm_unchecked _ scalars := scalars;
  point_serialize_uncompressed p := Ok (x00 :: ((λ x, Z_byte (trit_Z x)) <$> p))
|}.
#[local] Instance trit_laws : CurveLaws.
Proof.
  split; cbn.
  - split; cbn; repeat intros []; done.
  - done.
  - by intros [].
  - intros [] []; vm_compute; intros E; try discriminate E; auto.
Qed.
#[local] Existing Instances list_polynomials list_polynomial_laws.

Definition trit_scheme (n : nat) : PolynomialCommitment :=
  {| generators := replicate n [T1]; random_point := [T1] |}.
(** The scheme with the generators the trees ask for. *)
Definition trit_commitments : Commitments := polynomial_commitments (trit_scheme VERKLE_RADIX).
Lemma trit_commitment_laws : CommitmentLaws (H := trit_commitments).
Proof. apply commitment_laws; [apply Nat.leb_le; vm_compute; reflexivity|done]. Qed.
Lemma trit_opening_laws : OpeningLaws (H := trit_commitments).
Proof. apply opening_laws, Nat.leb_le. vm_compute. reflexivity. Qed.
Definition trit_poly (l : list trit) : DensePolynomial := from_coefficients_vec (l : list Fr).

Lemma honest_opening_verifies_witness :
  ∃ c proof, commit (trit_scheme 3) (trit_poly [T1; T1]) = Ok c
  ∧ open (trit_scheme 3) (trit_poly [T1; T1]) T1 (evaluate (trit_poly [T1; T1]) T1) = Ok proof
  ∧ pc_verify_opening (trit_scheme 3) c proof = Ok true.
Proof.
  apply (honest_opening_verifies (trit_scheme 3) (trit_poly [T1; T1]) T1).
  - discriminate.
  - apply Nat.leb_le. vm_compute. reflexivity.
  - constructor; [discriminate|constructor].
Defined.

Lemma opening_binds_value_witness :
  ∃ c p, commit (trit_scheme 3) p = Ok c ∧ evaluate p T1 = T0.
Proof.
  pose (c := match commit (trit_scheme 3) (trit_poly [T2; T1]) with Ok c => c | _ => [] end).
  pose (q := match reconstruct_commitment_from_scalars (trit_scheme 3) [T1] with Ok c => c | _ => [] end).
  destruct (opening_binds_value (trit_scheme 3) c
    {| opening_quotient := q; ipa_proof := {| final_commitment := q; proof_scalars := [T1] |};
       opening_point := T1; opening_value := T0 |}) as (p & Hc & Hv & _).
  - vm_compute. reflexivity.
  - exists c, p. split; [exact Hc|exact Hv].
Defined.

Lemma sparse_openings_fail_witness :
  open (trit_scheme 3) (trit_poly []) T1 T0 = Panic "index out of bounds".
Proof.
  apply (sparse_openings_fail (trit_scheme 3) (trit_poly []) T1 T0); [cbn; lia|reflexivity|reflexivity].
Defined.
End examples.
