(* ===== verification/VerkleProofs.v ===== *)
(** * Proofs of the Verkle tree

    [state/v_trie.rs]: generation and verification of membership and
    non-membership proofs, and of multi-proofs. *)

From S2P Require Import PolyCommit Prelude Crypto Errors Transaction Economics State VerkleTree.
From Stdlib Require Import Init.Byte.

Section proofs.
Context `{Blake3} `{Commitments} {S : Type} `{Storage S}.
Implicit Types (t : VerkleTree (S := S)) (p : path).

Definition scalar_of_root (root : bytes32) : ScalarField := from_le_bytes_mod_order (as_bytes root).

(** [compute_node_root_hash(..).unwrap_or_else(|_| empty)] *)
Definition root_or_empty t (height : nat) (p : path) : cached bytes32 :=
  catch (compute_node_root_hash t height p) (λ root, mret root)
    (λ _, mret (empty_subtree_root_hash t (KEY_SIZE - height))).

Definition reconstruct_node_polynomial t (p : path) (depth : nat) : cached (list ScalarField) :=
  if bool_decide (depth = KEY_SIZE) then
    mret [match get_node_value t p with Some v => value_to_scalar v | None => scalar_zero end]
  else
    mapM (λ b,
      let child_path := p ++ [b] in
      if node_exists t child_path then
        child_root ← root_or_empty t (KEY_SIZE - (depth + 1)) child_path;
        mret (scalar_of_root child_root)
      else mret (empty_subtree_scalar t (depth + 1))) child_indices.

Definition hash_node_value_at_index t (p : path) (child_index : byte) : cached ScalarField :=
  child_root ← root_or_empty t (KEY_SIZE - (length p + 1)) (p ++ [child_index]);
  mret (scalar_of_root child_root).

Record proof_state := {
  ps_siblings : list bytes32;
  ps_openings : list OpeningProof;
  ps_path : path;
  ps_path_exists : bool
}.

(** The siblings of one level. *)
Definition level_siblings t (ps : proof_state) (depth : nat) : cached (list bytes32) :=
  let empty_child_root := empty_subtree_root_hash t (depth + 1) in
  mapM (λ b,
    if ps_path_exists ps && node_exists t (ps_path ps) then
      let child_path := ps_path ps ++ [b] in
      if node_exists t child_path then compute_node_root_hash t (KEY_SIZE - (depth + 1)) child_path
      else mret empty_child_root
    else mret empty_child_root) child_indices.

(** One turn of the loop over the bytes of the key. *)
Definition proof_step t (ps : proof_state) (d : nat * byte) : cached proof_state :=
  let '(depth, byte) := d in
  level ← level_siblings t ps depth;
  opening ←
    (if ps_path_exists ps && node_exists t (ps_path ps) then
       value_hash ← hash_node_value_at_index t (ps_path ps) byte;
       polynomial ← reconstruct_node_polynomial t (ps_path ps) depth;
       match pc_open polynomial (from_le_bytes_mod_order [byte]) value_hash with
       | Ok proof => mret [proof]
       | Err _ => mret []
       | Panic s => panic s
       end
     else mret []);
  let '(path', exists') :=
    if ps_path_exists ps then
      let path' := ps_path ps ++ [byte] in (path', node_exists t path')
    else (ps_path ps, false) in
  mret {| ps_siblings := ps_siblings ps ++ level; ps_openings := ps_openings ps ++ opening;
          ps_path := path'; ps_path_exists := exists' |}.

Definition generate_proof_with_witness (key : bytes32) (gas_witness : option GasFeeWitness) :
    method VerkleTree CoreError VerkleProof :=
  self ← get;
  ps ← zoom commitment_cache set_cache
         (fold_method (proof_step self)
            {| ps_siblings := []; ps_openings := []; ps_path := []; ps_path_exists := true |}
            (enumerate (as_bytes key)));
  let leaf := if ps_path_exists ps then get_node_value self (ps_path ps) else None in
  root ← get_root;
  mret {| proof_type := match leaf with Some _ => Membership | None => NonMembership end;
          proof_path := as_bytes key; siblings := ps_siblings ps; leaf_value := leaf;
          proof_root := root; opening_proofs := ps_openings ps;
          gas_fee_distribution := gas_witness |}.

Definition generate_proof (key : bytes32) : method VerkleTree CoreError VerkleProof :=
  generate_proof_with_witness key None.

Definition generate_multi_proof (keys : list bytes32) : method VerkleTree CoreError VerkleMultiProof :=
  root ← get_root;
  proofs ← mapM (λ key, generate_proof_with_witness key None) keys;
  mret {| multi_root := root; entry_proofs := proofs |}.

(** ** Verification *)

(** The checks on the opening proofs: only an error stops, not a verdict. *)
Definition check_openings (l : list OpeningProof) : outcome CoreError unit :=
  fold_outcome (λ _ op,
    _ ← map_err (λ _, PolynomialCommitmentError "IPA proof verification failed: {}")
          (pc_verify (quotient_commitment op) op);
    Ok tt) tt l.

Definition start_scalar t (proof : VerkleProof) : outcome CoreError (option ScalarField) :=
  match proof_type proof, leaf_value proof with
  | Membership, Some v =>
      c ← map_err (λ _, PolynomialCommitmentError "Failed to commit leaf: {}")
            (pc_commit [value_to_scalar v]);
      root ← commitment_root_hash c;
      Ok (Some (scalar_of_root root))
  | NonMembership, _ => Ok (Some (scalar_of_root (empty_subtree_root_hash t KEY_SIZE)))
  | _, _ => Ok None
  end.

(** The commitment of one level from the sibling hashes and the current child. *)
Definition level_root (level : list bytes32) (index : byte) (current : ScalarField) :
    outcome CoreError bytes32 :=
  let coeffs := imap (λ child_index sibling,
    if bool_decide (Z.of_nat child_index = byte_Z index) then current else scalar_of_root sibling) level in
  c ← map_err (λ _, PolynomialCommitmentError "Failed to reconstruct commitment: {}") (pc_commit coeffs);
  commitment_root_hash c.

(** [for depth in (0..KEY_SIZE).rev()]: [n] levels remain. *)
Fixpoint recompute_root (proof : VerkleProof) (n : nat) (current : ScalarField) (root : bytes32) :
    outcome CoreError bytes32 :=
  match n with
  | O => Ok root
  | Datatypes.S depth =>
      let level := take VERKLE_RADIX (drop (depth * VERKLE_RADIX) (siblings proof)) in
      let index := nth depth (proof_path proof) x00 in
      root ← level_root level index current;
      recompute_root proof depth (scalar_of_root root) root
  end.

Definition gas_witness_ok (w : GasFeeWitness) : bool :=
  let expected_miner := wmul 128 (total_gas_fee w) MINER_REWARD_PERCENT / 100 in
  let expected_fullnode := sat_sub (total_gas_fee w) expected_miner in
  (miner_share w =? expected_miner) && (fullnode_share w =? expected_fullnode).

Definition verify_proof t (proof : VerkleProof) : outcome CoreError bool :=
  if negb (bool_decide (length (proof_path proof) = KEY_SIZE)) then Ok false
  else if negb (bool_decide (length (siblings proof) = (KEY_SIZE * VERKLE_RADIX)%nat)) then Ok false
  else if negb (match proof_type proof with
                | Membership => bool_decide (is_Some (leaf_value proof))
                | NonMembership => bool_decide (leaf_value proof = None)
                end) then Ok false
  else
    _ ← check_openings (opening_proofs proof);
    start ← start_scalar t proof;
    match start with
    | None => Ok false
    | Some current =>
        computed_root ← recompute_root proof KEY_SIZE current zero32;
        if negb (bool_decide (computed_root = proof_root proof)) then Ok false
        else match gas_fee_distribution proof with
             | Some w => Ok (gas_witness_ok w)
             | None => Ok true
             end
    end.

Fixpoint verify_entries t (root : bytes32) (l : list VerkleProof) : outcome CoreError bool :=
  match l with
  | [] => Ok true
  | entry_proof :: l =>
      if negb (bool_decide (proof_root entry_proof = root)) then Ok false
      else
        match verify_proof t entry_proof with
        | Ok true => verify_entries t root l
        | r => r
        end
  end.

Definition verify_multi_proof t (proof : VerkleMultiProof) : outcome CoreError bool :=
  verify_entries t (multi_root proof) (entry_proofs proof).

Definition set_openings (l : list OpeningProof) (p : VerkleProof) : VerkleProof :=
  {| proof_type := proof_type p; proof_path := proof_path p; siblings := siblings p;
     leaf_value := leaf_value p; proof_root := proof_root p; opening_proofs := l;
     gas_fee_distribution := gas_fee_distribution p |}.
End proofs.

(** ** Completeness of membership proofs *)
Section completeness.
Context `{Blake3} `{Commitments} {S : Type} `{HS : Storage S} `{!StorageLaws S}.
Implicit Types (t : VerkleTree (S := S)) (p : path).

(** What operations never change: the constants are those of the empty tree,
    and the root node stays. *)
Definition frame_ok t : Prop :=
  compute_empty_subtree_constants = Ok (empty_subtree_roots t, empty_subtree_scalars t)
  ∧ node_exists t [] = true.

Definition child_root t (height : nat) (depth : nat) (child : path) : outcome CoreError bytes32 :=
  if node_exists t child then node_root t height child else Ok (empty_subtree_root_hash t depth).

Lemma compute_root_run t height p cache :
  cache_ok t cache → (length p + height = KEY_SIZE)%nat →
  ∃ cache', compute_node_root_hash t height p cache = (node_root t height p, cache') ∧ cache_ok t cache'.
Proof.
  intros Hc Hl. destruct (compute_node_commitment_spec t height p cache Hc Hl) as (c' & E & Hc').
  exists c'. split; [|done]. unfold compute_node_root_hash, node_root.
  destruct (node_commitment t height p).
  - by rewrite (method_bind_run _ _ _ _ _ E).
  - by rewrite (method_bind_stop _ _ _ _ _ E).
  - by rewrite (method_bind_unwind _ _ _ _ _ E).
Qed.

(** A cached computation that keeps the cache valid whatever it returns. *)
Definition keeps t {A} (m : cached A) : Prop := ∀ c, cache_ok t c → cache_ok t (m c).2.

Lemma keeps_ret t {A} (a : A) : keeps t (mret a).
Proof. by intros c Hc. Qed.

Lemma keeps_bind t {A B} (m : cached A) (f : A → cached B) :
  keeps t m → (∀ a, keeps t (f a)) → keeps t (m ≫= f).
Proof.
  intros Hm Hf c Hc. specialize (Hm c Hc). unfold mbind, method_bind.
  destruct (m c) as [[a|e|x] c1]; cbn in *; [by apply Hf|done|done].
Qed.

Lemma keeps_mapM t {A B} (f : A → cached B) l : (∀ a, a ∈ l → keeps t (f a)) → keeps t (mapM f l).
Proof.
  induction l as [|a l IH]; intros Hf; cbn [mapM]; [apply keeps_ret|].
  apply keeps_bind; [apply Hf; left|]. intros b. apply keeps_bind; [|intros; apply keeps_ret].
  apply IH. intros. apply Hf. by right.
Qed.

Lemma keeps_root t height p : (length p + height = KEY_SIZE)%nat → keeps t (compute_node_root_hash t height p).
Proof. intros Hl c Hc. by destruct (compute_root_run t height p c Hc Hl) as (c' & -> & ?). Qed.

Lemma keeps_root_or_empty t height p : (length p + height = KEY_SIZE)%nat → keeps t (root_or_empty t height p).
Proof.
  intros Hl c Hc. unfold root_or_empty, catch. pose proof (keeps_root t height p Hl c Hc) as Hk.
  by destruct (compute_node_root_hash t height p c) as [[r|e|x] c1].
Qed.

Lemma keeps_polynomial t p depth :
  length p = depth → (depth ≤ KEY_SIZE)%nat → keeps t (reconstruct_node_polynomial t p depth).
Proof.
  intros Hl Hd. unfold reconstruct_node_polynomial. case_bool_decide; [apply keeps_ret|].
  apply keeps_mapM. intros b _. destruct (node_exists t (p ++ [b])); [|apply keeps_ret].
  apply keeps_bind; [|intros; apply keeps_ret]. apply keeps_root_or_empty.
  rewrite length_app. cbn [length]. lia.
Qed.

(** The siblings of a level below an existing node are its children's roots. *)
Definition level_ok t (p : path) (level : list bytes32) : Prop :=
  mapM (λ b, child_root t (KEY_SIZE - (length p + 1)) (length p + 1) (p ++ [b])) child_indices = Ok level.

Lemma level_siblings_run t ps cache :
  cache_ok t cache → ps_path_exists ps = true → node_exists t (ps_path ps) = true →
  (length (ps_path ps) < KEY_SIZE)%nat →
  ∃ cache', level_siblings t ps (length (ps_path ps)) cache
    = (mapM (λ b, child_root t (KEY_SIZE - (length (ps_path ps) + 1)) (length (ps_path ps) + 1)
               (ps_path ps ++ [b])) child_indices, cache') ∧ cache_ok t cache'.
Proof.
  intros Hc He Hn Hl. unfold level_siblings. rewrite He, Hn. cbn [andb].
  apply (method_mapM_pure (cache_ok t)); [|done]. intros b c _ Hb. unfold child_root.
  destruct (node_exists t (ps_path ps ++ [b])); [|by exists c].
  apply compute_root_run; [done|]. rewrite length_app. cbn [length]. lia.
Qed.

Lemma keeps_opening t ps byte depth :
  length (ps_path ps) = depth → (depth < KEY_SIZE)%nat →
  keeps t (if ps_path_exists ps && node_exists t (ps_path ps) then
             value_hash ← hash_node_value_at_index t (ps_path ps) byte;
             polynomial ← reconstruct_node_polynomial t (ps_path ps) depth;
             match pc_open polynomial (from_le_bytes_mod_order [byte]) value_hash with
             | Ok proof => mret [proof]
             | Err _ => mret []
             | Panic s => panic s
             end
           else mret []).
Proof.
  intros Hd Hl. destruct (_ && _); [|apply keeps_ret]. apply keeps_bind.
  - apply keeps_bind; [|intros; apply keeps_ret]. apply keeps_root_or_empty.
    rewrite length_app. cbn [length]. lia.
  - intros v. apply keeps_bind; [apply keeps_polynomial; [done|lia]|].
    intros cs. destruct (pc_open _ _ _); intros c Hc; done.
Qed.

(** Do the node at the first [i] bytes of the path and all its ancestors exist? *)
Fixpoint alive t (path : list byte) (i : nat) : bool :=
  match i with
  | O => node_exists t []
  | Datatypes.S i => alive t path i && node_exists t (take (Datatypes.S i) path)
  end.

Lemma alive_exists t path i : alive t path i = true → node_exists t (take i path) = true.
Proof. destruct i; cbn; [by rewrite take_0|]. by intros [_ ?]%andb_true_iff. Qed.

(** The siblings at level [i] of a proof. *)
Definition level_at t (path : list byte) (i : nat) (level : list bytes32) : Prop :=
  if alive t path i then level_ok t (take i path) level
  else level = replicate VERKLE_RADIX (empty_subtree_root_hash t (i + 1)).

Definition steps_ok t (path : list byte) (i : nat) (ps : proof_state) : Prop :=
  ps_path_exists ps = alive t path i
  ∧ (alive t path i = true → ps_path ps = take i path)
  ∧ ∃ levels, ps_siblings ps = mjoin levels ∧ length levels = i
    ∧ ∀ j level, levels !! j = Some level → level_at t path j level.

Lemma mapM_const {St E A B} (x : B) (l : list A) (s : St) :
  mapM (M:=method St E) (λ _, mret x) l s = (Ok (replicate (length l) x), s).
Proof. induction l as [|a l IH]; cbn [mapM length replicate]; [done|].
  erewrite method_bind_run by done. by rewrite (method_bind_run _ _ _ _ _ IH).
Qed.

Lemma level_siblings_at t path i ps cache :
  cache_ok t cache → steps_ok t path i ps → (i < KEY_SIZE)%nat → length path = KEY_SIZE →
  ∀ level cache', level_siblings t ps i cache = (Ok level, cache') →
  cache_ok t cache' ∧ level_at t path i level.
Proof.
  intros Hc (He & Hp & _) Hi Hlen level cache' Hrun. unfold level_at.
  destruct (alive t path i) eqn:Ha.
  - specialize (Hp eq_refl). pose proof (alive_exists _ _ _ Ha) as Hn.
    assert (Hl : length (ps_path ps) = i) by (rewrite Hp, length_take; lia).
    destruct (level_siblings_run t ps cache Hc He ltac:(by rewrite Hp) ltac:(lia)) as (c1 & E1 & Hc1).
    rewrite Hl, Hp in E1. rewrite Hrun in E1. injection E1 as E1 ->. split; [done|].
    unfold level_ok. rewrite length_take, Hlen, Nat.min_l by lia. done.
  - unfold level_siblings in Hrun. rewrite He in Hrun. cbn [andb] in Hrun.
    pose proof (eq_trans (eq_sym Hrun) (mapM_const (E:=CoreError) (empty_subtree_root_hash t (i + 1)) child_indices cache)) as E1.
    by injection E1 as -> ->.
Qed.

(** The state after one turn, from the level it has found. *)
Lemma steps_next t path i b ps level ops :
  steps_ok t path i ps → level_at t path i level → path !! i = Some b →
  steps_ok t path (Datatypes.S i)
    {| ps_siblings := ps_siblings ps ++ level; ps_openings := ops;
       ps_path := if ps_path_exists ps then ps_path ps ++ [b] else ps_path ps;
       ps_path_exists := if ps_path_exists ps then node_exists t (ps_path ps ++ [b]) else false |}.
Proof.
  intros (He & Hp & levels & Hsib & Hlv & Hall) Hlev Hb.
  assert (Hlevels : ∃ ls, mjoin levels ++ level = mjoin ls ∧ length ls = Datatypes.S i
      ∧ ∀ j lv, ls !! j = Some lv → level_at t path j lv).
  { exists (levels ++ [level]). rewrite join_app, length_app. cbn [mjoin list_join length].
    rewrite app_nil_r. split_and!; [done|lia|]. intros j lv. rewrite lookup_app_Some.
    intros [?|[Hge Hj]]; [by apply Hall|]. apply list_lookup_singleton_Some in Hj as [Hj <-].
    by replace j with i by lia. }
  unfold steps_ok. cbn [alive]. rewrite He. destruct (alive t path i) eqn:Ha; cbn; rewrite Hsib.
  - rewrite (Hp eq_refl), (take_S_r _ _ _ Hb). by split_and!.
  - by split_and!.
Qed.

(** One turn of the loop, whether or not the path still exists. *)
Lemma proof_step_at t path i b ps cache ps' cache' :
  cache_ok t cache → steps_ok t path i ps → length path = KEY_SIZE → path !! i = Some b →
  proof_step t ps (i, b) cache = (Ok ps', cache') →
  cache_ok t cache' ∧ steps_ok t path (Datatypes.S i) ps'.
Proof.
  intros Hc Hs Hlen Hb Hrun. pose proof (lookup_lt_Some _ _ _ Hb) as Hi. rewrite Hlen in Hi.
  unfold proof_step in Hrun. apply method_bind_ok in Hrun as (level & c1 & E1 & Hrun).
  destruct (level_siblings_at t path i ps cache Hc Hs Hi Hlen level c1 E1) as [Hc1 Hlev].
  apply method_bind_ok in Hrun as (op & c2 & E2 & Hrun).
  pose proof (steps_next t path i b ps level (ps_openings ps ++ op) Hs Hlev Hb) as Hnext.
  destruct Hs as (He & Hp & _).
  assert (Hc2 : cache_ok t c2).
  { destruct (alive t path i) eqn:Ha.
    - assert (Hl : length (ps_path ps) = i) by (rewrite (Hp eq_refl), length_take; lia).
      apply (f_equal snd) in E2. cbn [snd] in E2. rewrite <- E2.
      exact (keeps_opening t ps b i Hl Hi c1 Hc1).
    - rewrite He in E2. by injection E2 as _ <-. }
  revert Hrun Hnext. by destruct (ps_path_exists ps); intros [= <- <-] Hnext.
Qed.

Lemma fold_steps t path l i ps cache ps' cache' :
  cache_ok t cache → steps_ok t path i ps → length path = KEY_SIZE → drop i path = l →
  (i ≤ KEY_SIZE)%nat →
  fold_method (proof_step t) ps (imap (λ j b, ((i + j)%nat, b)) l) cache = (Ok ps', cache') →
  cache_ok t cache' ∧ steps_ok t path KEY_SIZE ps'.
Proof.
  revert i ps cache; induction l as [|b l IH]; intros i ps cache Hc Hs Hlen Hd Hi; cbn [imap fold_method].
  - intros [= <- <-]. split; [done|]. apply (f_equal length) in Hd. rewrite length_drop in Hd.
    cbn in Hd. by replace KEY_SIZE with i by lia.
  - intros Hrun. apply method_bind_ok in Hrun as (ps1 & c1 & E1 & Hrun).
    assert (Hb : path !! i = Some b) by (by rewrite <- (Nat.add_0_r i), <- lookup_drop, Hd).
    cbn in E1. rewrite Nat.add_0_r in E1.
    destruct (proof_step_at t path i b ps cache ps1 c1 Hc Hs Hlen Hb E1) as [Hc1 Hs1].
    apply (IH (Datatypes.S i) ps1 c1 Hc1 Hs1 Hlen).
    + by rewrite <- Nat.add_1_r, <- drop_drop, Hd.
    + pose proof (lookup_lt_Some _ _ _ Hb). lia.
    + rewrite <- Hrun. f_equal. apply imap_ext. intros j x _. cbn. f_equal. lia.
Qed.

(** The constants: each empty root is that of a node with empty children. *)
Lemma constants_step n roots scalars :
  empty_subtree_constants n = Ok (roots, scalars) →
  scalars = scalar_of_root <$> roots ∧ length roots = Datatypes.S n
  ∧ ∀ i r r', roots !! i = Some r → roots !! Datatypes.S i = Some r' →
    ∃ c, pc_commit (replicate VERKLE_RADIX (scalar_of_root r')) = Ok c ∧ commitment_root_hash c = Ok r.
Proof.
  revert roots scalars; induction n as [|n IH]; intros roots scalars; cbn [empty_subtree_constants]; intros Hn.
  - outcome_inv. simplify_eq. split; [done|]. split; [done|]. by intros i r r' _ ?.
  - outcome_inv. destruct x as [rs ss]. outcome_inv. simplify_eq.
    destruct (IH rs ss ltac:(eassumption)) as (Hs & Hl & Hr). split; [by rewrite Hs|]. split; [cbn; by rewrite Hl|].
    intros [|i] r r'; cbn; [|by apply Hr]. intros [= <-] Hr'. destruct rs as [|r0 rs]; [done|].
    injection Hr' as ->. subst ss. cbn in *.
    match goal with E : pc_commit _ = Ok ?c |- _ => exists c; by rewrite E end.
Qed.

Lemma empty_scalar_root t i :
  frame_ok t → (i ≤ KEY_SIZE)%nat → empty_subtree_scalar t i = scalar_of_root (empty_subtree_root_hash t i).
Proof.
  intros [Hc _] Hi. destruct (constants_step _ _ _ Hc) as (Hs & Hl & _).
  unfold empty_subtree_scalar, empty_subtree_root_hash. rewrite Hs.
  destruct (lookup_lt_is_Some_2 (empty_subtree_roots t) i ltac:(lia)) as [r Hr].
  rewrite (nth_lookup_Some _ _ _ _ Hr). apply nth_lookup_Some. by rewrite list_lookup_fmap, Hr.
Qed.

Lemma empty_level_root t i :
  frame_ok t → (i < KEY_SIZE)%nat →
  ∃ c, pc_commit (replicate VERKLE_RADIX (scalar_of_root (empty_subtree_root_hash t (i + 1)))) = Ok c
       ∧ commitment_root_hash c = Ok (empty_subtree_root_hash t i).
Proof.
  intros [Hc _] Hi. destruct (constants_step _ _ _ Hc) as (_ & Hl & Hr).
  destruct (lookup_lt_is_Some_2 (empty_subtree_roots t) i ltac:(lia)) as [r Er].
  destruct (lookup_lt_is_Some_2 (empty_subtree_roots t) (i + 1) ltac:(lia)) as [r' Er'].
  unfold empty_subtree_root_hash. rewrite (nth_lookup_Some _ _ _ _ Er), (nth_lookup_Some _ _ _ _ Er').
  rewrite Nat.add_1_r in Er'. by apply (Hr i).
Qed.

(** The root the verifier has to reach at level [i]. *)
Definition expected_root t (path : list byte) (i : nat) : outcome CoreError bytes32 :=
  if alive t path i then node_root t (KEY_SIZE - i) (take i path) else Ok (empty_subtree_root_hash t i).

Lemma child_indices_lookup (b : byte) : child_indices !! Z.to_nat (byte_Z b) = Some b.
Proof.
  pose proof (byte_Z_bound b). unfold child_indices. rewrite list_lookup_fmap, lookup_seq_lt by (unfold VERKLE_RADIX; lia).
  cbn [fmap option_fmap option_map]. f_equal. rewrite Nat.add_0_l, Z2Nat.id by lia. apply Z_byte_byte_Z.
Qed.

Lemma mapM_outcome_lookup {E A B} (f : A → outcome E B) l k :
  mapM f l = Ok k ↔ length k = length l ∧ ∀ i x, l !! i = Some x → ∃ y, k !! i = Some y ∧ f x = Ok y.
Proof.
  split.
  - revert k; induction l as [|x l IH]; intros k; cbn [mapM]; intros Hm; outcome_inv; simplify_eq; [done|].
    match goal with E : mapM f l = Ok _ |- _ => destruct (IH _ E) as [Hl Hall] end.
    split; [cbn; by rewrite Hl|]. intros [|i] z; cbn; [intros [= <-]; eauto|apply Hall].
  - revert k; induction l as [|x l IH]; intros k [Hl Hall]; cbn [mapM].
    + by apply nil_length_inv in Hl as ->.
    + destruct k as [|y k]; [done|]. destruct (Hall 0%nat x eq_refl) as (y' & [= <-] & ->). cbn.
      rewrite (IH k); [done|]. split; [by injection Hl|]. intros i z Hz. by apply (Hall (Datatypes.S i)).
Qed.

Lemma child_value_ok t depth child r :
  frame_ok t → (depth ≤ KEY_SIZE)%nat → child_root t (KEY_SIZE - depth) depth child = Ok r →
  child_value t depth child (node_commitment t (KEY_SIZE - depth) child) = Ok (scalar_of_root r).
Proof.
  intros Hf Hd. unfold child_root, child_value. destruct (node_exists t child).
  - unfold node_root. by intros ->.
  - intros [= <-]. by rewrite empty_scalar_root.
Qed.

(** Replacing the child on the path by its own root changes nothing. *)
Lemma imap_self (f : nat → bytes32 → ScalarField) level :
  (∀ i r, level !! i = Some r → f i r = scalar_of_root r) → imap f level = scalar_of_root <$> level.
Proof.
  intros Hf. apply list_eq. intros i. rewrite list_lookup_imap, list_lookup_fmap.
  destruct (level !! i) eqn:E; cbn; [|done]. by rewrite (Hf _ _ E).
Qed.

Lemma level_root_at t path i b level r r' :
  frame_ok t → length path = KEY_SIZE → path !! i = Some b → level_at t path i level →
  expected_root t path (i + 1) = Ok r' → expected_root t path i = Ok r →
  level_root level b (scalar_of_root r') = Ok r.
Proof.
  intros Hf Hlen Hb. pose proof (lookup_lt_Some _ _ _ Hb) as Hi. rewrite Hlen in Hi.
  assert (Hbz := byte_Z_bound b).
  unfold level_at, expected_root. rewrite Nat.add_1_r. cbn [alive]. rewrite (take_S_r _ _ _ Hb).
  destruct (alive t path i) eqn:Ha; cbn [andb].
  - intros Hlev Hr' Hr. unfold level_ok in Hlev. rewrite length_take, Hlen, Nat.min_l in Hlev by lia.
    apply mapM_outcome_lookup in Hlev as [Hll Hlev].
    destruct (Hlev _ _ (child_indices_lookup b)) as (rb & Hrb & Echild).
    assert (Erb : rb = r').
    { unfold child_root in Echild. rewrite Nat.add_1_r in Echild.
      destruct (node_exists t (take i path ++ [b])); congruence. }
    subst rb. unfold level_root. rewrite imap_self.
    2:{ intros j x Hj. case_bool_decide as Hjb; [|done].
        assert (j = Z.to_nat (byte_Z b)) as -> by lia. congruence. }
    unfold node_root in Hr. replace (KEY_SIZE - i)%nat with (Datatypes.S (KEY_SIZE - (i + 1))) in Hr by lia.
    cbn [node_commitment] in Hr. replace (KEY_SIZE - (KEY_SIZE - (i + 1)))%nat with (i + 1)%nat in Hr by lia.
    rewrite (proj2 (mapM_outcome_lookup _ child_indices (scalar_of_root <$> level))) in Hr.
    + cbn in Hr |- *. by destruct (pc_commit _).
    + rewrite length_fmap. split; [done|]. intros j x Hx. destruct (Hlev j x Hx) as (y & Hy & Ey).
      exists (scalar_of_root y). rewrite list_lookup_fmap, Hy. split; [done|].
      apply child_value_ok; [done|lia|done].
  - intros -> [= <-] [= <-]. unfold level_root. rewrite imap_self.
    2:{ intros j x Hj. apply lookup_replicate in Hj as [-> _]. by case_bool_decide. }
    rewrite fmap_replicate. destruct (empty_level_root t i Hf Hi) as (c & Ec & Er).
    rewrite Nat.add_1_r in Ec. by rewrite Ec.
Qed.

Lemma level_at_length t path i level : level_at t path i level → length level = VERKLE_RADIX.
Proof.
  unfold level_at. destruct (alive t path i).
  - intros [Hl _]%mapM_outcome_lookup. rewrite Hl. unfold child_indices. by rewrite length_fmap, length_seq.
  - intros ->. apply length_replicate.
Qed.

Lemma take_drop_mjoin {A} n (ls : list (list A)) d l :
  (∀ i k, ls !! i = Some k → length k = n) → ls !! d = Some l → take n (drop (d * n) (mjoin ls)) = l.
Proof.
  revert d; induction ls as [|k ls IH]; intros d Hn Hd; [done|].
  change (mjoin (k :: ls)) with (k ++ mjoin ls).
  pose proof (Hn 0%nat k eq_refl) as Hk. destruct d as [|d]; cbn in Hd.
  - injection Hd as <-. cbn [Nat.mul]. rewrite drop_0. by rewrite take_app_length'.
  - replace (Datatypes.S d * n)%nat with (length k + d * n)%nat by lia.
    rewrite drop_app_add. apply IH; [|done]. intros i. apply (Hn (Datatypes.S i)).
Qed.

Lemma length_mjoin_uniform {A} n (ls : list (list A)) :
  (∀ i k, ls !! i = Some k → length k = n) → length (mjoin ls) = (length ls * n)%nat.
Proof.
  induction ls as [|k ls IH]; intros Hn; [done|].
  change (mjoin (k :: ls)) with (k ++ mjoin ls). cbn [length].
  rewrite length_app, (Hn 0%nat k eq_refl), IH; [lia|]. intros i. apply (Hn (Datatypes.S i)).
Qed.

(** The roots along the path are all defined when the top one is. *)
Lemma expected_root_ok t path levels i :
  length path = KEY_SIZE → length levels = KEY_SIZE →
  (∀ j level, levels !! j = Some level → level_at t path j level) →
  is_ok (expected_root t path 0) → (i ≤ KEY_SIZE)%nat → ∃ r, expected_root t path i = Ok r.
Proof.
  intros Hlen Hll Hall Htop Hi. destruct i as [|i]; [by destruct (expected_root t path 0); [eexists|..]|].
  unfold expected_root. cbn [alive]. destruct (alive t path i) eqn:Ha; cbn [andb]; [|by eexists].
  destruct (lookup_lt_is_Some_2 levels i ltac:(lia)) as [level Hlv]. apply Hall in Hlv.
  destruct (lookup_lt_is_Some_2 path i ltac:(lia)) as [b Hb].
  unfold level_at in Hlv. rewrite Ha in Hlv. apply mapM_outcome_lookup in Hlv as [_ Hlv].
  destruct (Hlv _ _ (child_indices_lookup b)) as (r & _ & Er). unfold child_root in Er.
  rewrite (take_S_r _ _ _ Hb). rewrite length_take, Hlen, Nat.min_l, Nat.add_1_r in Er by lia.
  destruct (node_exists t (take i path ++ [b])); by eexists.
Qed.

Lemma recompute_at t path (proof : VerkleProof) levels n r r0 z :
  frame_ok t → length path = KEY_SIZE → proof_path proof = path → siblings proof = mjoin levels →
  length levels = KEY_SIZE → (∀ j level, levels !! j = Some level → level_at t path j level) →
  (n ≤ KEY_SIZE)%nat → expected_root t path n = Ok r → expected_root t path 0 = Ok r0 →
  recompute_root proof n (scalar_of_root r) z = Ok (match n with O => z | _ => r0 end).
Proof.
  intros Hf Hlen Hpp Hsib Hll Hall. revert r z; induction n as [|n IH]; intros r z Hn Hr Hr0; [done|].
  cbn [recompute_root]. destruct (lookup_lt_is_Some_2 levels n ltac:(lia)) as [level Hlv].
  destruct (lookup_lt_is_Some_2 path n ltac:(lia)) as [b Hb].
  rewrite Hsib, (take_drop_mjoin _ _ n level); [|intros i k Hk; by eapply level_at_length, Hall|done].
  rewrite Hpp, (nth_lookup_Some _ _ _ _ Hb).
  destruct (expected_root_ok t path levels n Hlen Hll Hall) as [rn Ern]; [by rewrite Hr0|lia|].
  rewrite (level_root_at t path n b level rn r); [|done|done|done|by apply Hall|by rewrite Nat.add_1_r|done].
  cbn [mbind outcome_bind]. rewrite (IH rn rn); [|lia|done|done].
  destruct n; [congruence|done].
Qed.

(** What the generated proof says, in terms of the path. *)
Definition faithful_proof t (key : bytes32) w (proof : VerkleProof) : Prop :=
  scratch_root t = Ok (proof_root proof) ∧ proof_path proof = as_bytes key
  ∧ gas_fee_distribution proof = w
  ∧ leaf_value proof = (if alive t (as_bytes key) KEY_SIZE then get_node_value t (as_bytes key) else None)
  ∧ proof_type proof = match leaf_value proof with Some _ => Membership | None => NonMembership end
  ∧ ∃ levels, siblings proof = mjoin levels ∧ length levels = KEY_SIZE
    ∧ ∀ j level, levels !! j = Some level → level_at t (as_bytes key) j level.

Lemma steps_start t path :
  frame_ok t →
  steps_ok t path 0 {| ps_siblings := []; ps_openings := []; ps_path := []; ps_path_exists := true |}.
Proof.
  intros Hf. split; [by cbn; rewrite (proj2 Hf)|]. split; [done|]. exists []. split_and!; [done..|]. by intros j l ?.
Qed.

Lemma cached_tree_ok t c : tree_ok t → cache_ok t c → tree_ok (set_cache c t).
Proof.
  intros [_ Hr] Hc. split; [by eapply (cache_ok_same t), Hc|]. intros Hd r Hrc. cbn in Hd, Hrc.
  specialize (Hr Hd r Hrc). rewrite <- Hr. unfold scratch_root, node_root.
  by rewrite (node_commitment_ext (set_cache c t) t).
Qed.

Lemma generate_inv (key : bytes32) w t proof t' :
  tree_ok t → frame_ok t → generate_proof_with_witness key w t = (Ok proof, t') →
  tree_ok t' ∧ storage t' = storage t ∧ faithful_proof t key w proof.
Proof.
  intros [Hc Hr] Hf Hrun. unfold generate_proof_with_witness in Hrun.
  apply method_bind_ok in Hrun as (self & t0 & [= <- <-] & Hrun).
  apply method_bind_ok in Hrun as (ps & t1 & Ez & Hrun). unfold zoom in Ez.
  destruct (fold_method _ _ _ _) as [rps c1] eqn:Ef in Ez. injection Ez as -> <-.
  destruct (fold_steps t (as_bytes key) (as_bytes key) 0 _ _ _ _ Hc (steps_start t _ Hf) (as_bytes_length key)
    (drop_0 _) ltac:(lia) Ef) as [Hc1 (Hex & Hp & levels & Hsib & Hll & Hall)].
  apply method_bind_ok in Hrun as (root & t2 & Eg & Hrun). injection Hrun as <- <-.
  assert (Ht1 := cached_tree_ok t c1 (conj Hc Hr) Hc1).
  destruct (get_root_ok _ Ht1) as (t3 & Eg' & Ht3 & Hst & _). rewrite Eg in Eg'. injection Eg' as Er <-.
  unfold faithful_proof. cbn [proof_root proof_path gas_fee_distribution leaf_value proof_type siblings].
  split_and!; [done|done| |done|done| |done|by exists levels].
  - rewrite Er. unfold scratch_root, node_root. by rewrite (node_commitment_ext t (set_cache c1 t)).
  - rewrite Hex. destruct (alive t (as_bytes key) KEY_SIZE) eqn:Ha; [|done].
    rewrite (Hp eq_refl). by rewrite take_ge by (rewrite as_bytes_length; unfold KEY_SIZE; lia).
Qed.

Lemma check_openings_ok l :
  (∀ op, op ∈ l → ∃ b, pc_verify (quotient_commitment op) op = Ok b) → check_openings l = Ok tt.
Proof.
  intros Hl. unfold check_openings. induction l as [|op l IH]; cbn; [done|].
  destruct (Hl op ltac:(left)) as [b ->]. cbn. apply IH. intros. apply Hl. by right.
Qed.

(** The frame is that of every tree the operations build. *)
Lemma frame_same t t' :
  empty_subtree_roots t' = empty_subtree_roots t → empty_subtree_scalars t' = empty_subtree_scalars t →
  (node_exists t [] = true → node_exists t' [] = true) → frame_ok t → frame_ok t'.
Proof. intros H1 H2 H3 [Hc Hn]. split; [by rewrite H1, H2|auto]. Qed.

Lemma insert_frame key v t : frame_ok t → frame_ok (insert_key key v t).
Proof.
  destruct (ensure_all (prefixes (as_bytes key)) (set_dirty true t)) as (_ & _ & H2 & H3 & _).
  apply frame_same.
  - exact H2.
  - exact H3.
  - unfold node_exists. rewrite !bool_decide_eq_true, insert_node.
    case_decide; [by eexists|]. case_decide; [by eexists|done].
Qed.

Lemma new_frame s t : VerkleTree_new s = Ok t → frame_ok t.
Proof.
  unfold VerkleTree_new. intros Hn. outcome_inv. destruct x as [roots scalars]. outcome_inv. subst.
  match goal with |- frame_ok (ensure_node [] ?u) =>
    destruct (ensure_rest [] u) as (_ & E2 & E3 & _); pose proof (node_ensure u [] []) as E end.
  split; [by rewrite E2, E3|]. unfold node_exists. rewrite E, decide_True by done. by apply bool_decide_eq_true.
Qed.

Lemma root_frame t : tree_ok t → frame_ok t → frame_ok (get_root t).2.
Proof.
  intros Ht Hf. destruct (get_root_ok t Ht) as (t' & E & _ & Hs & _). rewrite E. cbn [snd].
  assert (Hc : empty_subtree_roots t' = empty_subtree_roots t ∧ empty_subtree_scalars t' = empty_subtree_scalars t).
  { apply (f_equal snd) in E. cbn [snd] in E. rewrite <- E. unfold get_root.
    erewrite method_bind_run by done. destruct (if dirty t then None else root_cache t); [done|].
    unfold mbind, method_bind, zoom. by destruct (compute_node_root_hash t KEY_SIZE [] _) as [[r|e|x] c]. }
  destruct Hc. apply (frame_same t); [done..| |done]. unfold node_exists. by rewrite Hs.
Qed.

Lemma prune_frame key t : frame_ok t → frame_ok (prune_key key t).2.
Proof.
  intros Hf. unfold prune_key. do 2 erewrite method_bind_run by done.
  destruct (node_exists _ _); [|done]. do 3 erewrite method_bind_run by done.
  unfold recursive_cleanup_empty_nodes, modify. cbn [snd].
  match goal with |- frame_ok (recursive_cleanup ?p ?n ?u) =>
    destruct (cleanup_spec p n u) as (Hn & H2 & H3 & _); [done|] end.
  destruct (Hn []) as [E _].
  { intros d [Hd Hd'] E. apply (f_equal length) in E. rewrite length_take in E. cbn in E. lia. }
  apply (frame_same t); [by rewrite H2|by rewrite H3| |done].
  unfold node_exists. rewrite E. cbn [storage invalidate_path_cache set_root_cache set_cache set_pruned].
  rewrite node_delete. rewrite decide_False; [done|]. intros Hk.
  apply (f_equal length) in Hk. by rewrite as_bytes_length in Hk.
Qed.

Lemma run_frame ops t : tree_ok t → frame_ok t → frame_ok (foldl run_op t ops).
Proof.
  revert t; induction ops as [|op ops IH]; intros t Ht Hf; [done|]. cbn [foldl].
  apply IH; [by apply (run_ok [op])|]. destruct op as [key v|key|us supply|]; cbn [run_op].
  - by apply insert_frame.
  - by apply prune_frame.
  - unfold apply_state_transition. erewrite method_bind_run by done. destruct (existsb _ us); [done|].
    do 2 erewrite method_bind_run by done.
    assert (Hins : frame_ok (insert_key TOTAL_SUPPLY_KEY (le_bytes 16 supply)
      (foldl (λ t u, insert_key u.1 u.2 t) (set_dirty true t) us))); [|by destruct (_ <? supply)].
    apply insert_frame. clear Ht IH. assert (Hd : frame_ok (set_dirty true t)) by done. revert Hd.
    generalize (set_dirty true t) as u. clear Hf. induction us as [|u us IHu]; intros u0 Hu; [done|].
    by apply IHu, insert_frame.
  - by apply root_frame.
Qed.

(** *** Trees with the same contents *)
Definition same_tree t t' : Prop :=
  storage t' = storage t ∧ pruned_keys t' = pruned_keys t
  ∧ empty_subtree_roots t' = empty_subtree_roots t ∧ empty_subtree_scalars t' = empty_subtree_scalars t.

Lemma scratch_root_ext t t' :
  storage t' = storage t → empty_subtree_roots t' = empty_subtree_roots t →
  empty_subtree_scalars t' = empty_subtree_scalars t → scratch_root t' = scratch_root t.
Proof.
  intros E1 E2 E3. unfold scratch_root, node_root.
  rewrite (node_commitment_ext t' t); [done..|]. intros. by rewrite E1.
Qed.

Lemma same_tree_root t t' : same_tree t t' → scratch_root t' = scratch_root t.
Proof. intros (E1 & _ & E2 & E3). by apply scratch_root_ext. Qed.

Lemma same_tree_get t t' key : same_tree t t' → get_key t' key = get_key t key.
Proof. intros (H1 & H2 & _). unfold get_key, get_node_value. by rewrite H1, H2. Qed.

Lemma same_tree_frame t t' : same_tree t t' → frame_ok t → frame_ok t'.
Proof. intros (H1 & _ & H2 & H3). apply frame_same; [done..|]. unfold node_exists. by rewrite H1. Qed.

(** A new tree over the storage of another, and its clone. *)
Lemma new_over t :
  frame_ok t → ∃ c, VerkleTree_new (storage t) = Ok c ∧ storage c = storage t
  ∧ empty_subtree_roots c = empty_subtree_roots t ∧ empty_subtree_scalars c = empty_subtree_scalars t
  ∧ pruned_keys c = ∅ ∧ root_cache c = None ∧ commitment_cache c = ∅ ∧ dirty c = true.
Proof.
  intros [Hc Hn]. unfold VerkleTree_new. rewrite Hc. cbn [mbind outcome_bind].
  eexists. split; [done|]. unfold ensure_node, node_exists in *. cbn [storage]. by rewrite Hn.
Qed.

Lemma clone_same t :
  frame_ok t → ∃ c, VerkleTree_clone t = Ok c ∧ same_tree t c ∧ tree_ok c ∧ frame_ok c.
Proof.
  intros Hf. destruct (new_over t Hf) as (c & Ec & Hs & Hr & Hsc & _). unfold VerkleTree_clone.
  rewrite Ec. eexists. split; [done|].
  match goal with |- same_tree t ?u ∧ _ => assert (Hu : same_tree t u) by done end.
  split; [done|]. split; [|by eapply same_tree_frame].
  apply tree_ok_dirty; [|done]. intros p x Hp. cbn [commitment_cache] in Hp. by rewrite lookup_empty in Hp.
Qed.

(** *** Generation succeeds when the scheme keeps its promise *)
Lemma root_hash_total `{!CommitmentLaws} c : is_ok (commitment_root_hash c) = true.
Proof. unfold commitment_root_hash. pose proof (serialize_total c). by destruct (serialize_uncompressed c). Qed.

(** The scalars a node commits to. *)
Definition node_polynomial t (height : nat) (p : path) : outcome CoreError (list ScalarField) :=
  mapM (λ b, child_value t (KEY_SIZE - height) (p ++ [b]) (node_commitment t height (p ++ [b]))) child_indices.

Lemma node_polynomial_length t height p cs : node_polynomial t height p = Ok cs → length cs = VERKLE_RADIX.
Proof.
  intros [Hl _]%mapM_outcome_lookup. rewrite Hl. unfold child_indices. by rewrite length_fmap, length_seq.
Qed.

Lemma node_total `{!CommitmentLaws} t height p :
  is_ok (node_commitment t height p) = true
  ∧ match height with O => True | Datatypes.S h => is_ok (node_polynomial t h p) = true end.
Proof.
  revert p; induction height as [|height IH]; intros p; cbn [node_commitment].
  - split; [|done]. unfold leaf_commitment.
    match goal with |- context [pc_commit ?cs] => pose proof (commit_total cs ltac:(unfold VERKLE_RADIX; cbn [length]; lia)) as Hc end.
    by destruct (pc_commit _).
  - fold (node_polynomial t height p). assert (Hp : is_ok (node_polynomial t height p) = true).
    { destruct (mapM_ok (λ b, child_value t (KEY_SIZE - height) (p ++ [b]) (node_commitment t height (p ++ [b])))
        child_indices) as [cs E]; [|unfold node_polynomial; by rewrite E].
      intros b. unfold child_value. destruct (node_exists t (p ++ [b])); [|done].
      pose proof (proj1 (IH (p ++ [b]))) as Hok. destruct (node_commitment t height (p ++ [b])) as [c|e|x]; [|done|done].
      cbn. pose proof (root_hash_total c). by destruct (commitment_root_hash c). }
    split; [|done]. destruct (node_polynomial t height p) as [cs|e|x] eqn:E; [|done|done]. cbn.
    pose proof (commit_total cs ltac:(by rewrite (node_polynomial_length _ _ _ _ E))). by destruct (pc_commit cs).
Qed.

Lemma node_root_total `{!CommitmentLaws} t height p : ∃ r, node_root t height p = Ok r.
Proof.
  unfold node_root. pose proof (proj1 (node_total t height p)) as Hc.
  destruct (node_commitment t height p) as [c|e|x]; [|done|done]. cbn.
  pose proof (root_hash_total c). destruct (commitment_root_hash c); [by eexists|done|done].
Qed.

(** No node on the way to the key commits to the polynomial zero: one of its
    children has a scalar other than zero, which fails only where a hash of the
    scheme is zero in the field. *)
Definition openable t (path : list byte) : Prop :=
  ∀ i, (i < KEY_SIZE)%nat → alive t path i = true →
  ∀ cs, node_polynomial t (KEY_SIZE - (i + 1)) (take i path) = Ok cs → Exists (λ c, c ≠ scalar_zero) cs.

(** A cached computation that gives [a], and keeps the cache valid. *)
Definition yields t {A} (m : cached A) (a : A) : Prop :=
  ∀ c, cache_ok t c → ∃ c', m c = (Ok a, c') ∧ cache_ok t c'.

Lemma yields_ret t {A} (a : A) : yields t (mret a) a.
Proof. intros c Hc. by exists c. Qed.
Lemma yields_bind t {A B} (m : cached A) (f : A → cached B) a b :
  yields t m a → yields t (f a) b → yields t (m ≫= f) b.
Proof.
  intros Hm Hf c Hc. destruct (Hm c Hc) as (c1 & E1 & H1). destruct (Hf c1 H1) as (c2 & E2 & H2).
  exists c2. by rewrite (method_bind_run _ _ _ _ _ E1).
Qed.
Lemma yields_mapM t {A B} (f : A → cached B) (g : A → outcome CoreError B) l bs :
  mapM g l = Ok bs → (∀ x b, g x = Ok b → yields t (f x) b) → (∀ x, is_ok (g x) = true) → yields t (mapM f l) bs.
Proof.
  intros Em Hf Hg c Hc. rewrite <- Em. apply (method_mapM_pure (cache_ok t)); [|done].
  intros x s _ Hs. specialize (Hg x). destruct (g x) as [b|e|p] eqn:E; [|done|done]. by apply (Hf x b E).
Qed.

Lemma root_or_empty_yields t height p r :
  (length p + height = KEY_SIZE)%nat → node_root t height p = Ok r → yields t (root_or_empty t height p) r.
Proof.
  intros Hl Hr c Hc. destruct (compute_root_run t height p c Hc Hl) as (c' & E & Hc').
  exists c'. unfold root_or_empty, catch. by rewrite E, Hr.
Qed.

Lemma polynomial_yields `{!CommitmentLaws} t p cs :
  (length p < KEY_SIZE)%nat → node_polynomial t (KEY_SIZE - (length p + 1)) p = Ok cs →
  yields t (reconstruct_node_polynomial t p (length p)) cs.
Proof.
  intros Hl Hcs. unfold reconstruct_node_polynomial. rewrite bool_decide_eq_false_2 by lia.
  assert (Hlen : ∀ b, (length (p ++ [b]) + (KEY_SIZE - (length p + 1)) = KEY_SIZE)%nat) by (intros; rewrite length_app; cbn [length]; lia).
  apply (yields_mapM t _ _ _ _ Hcs).
  - intros b v. cbv zeta beta. unfold child_value. replace (KEY_SIZE - (KEY_SIZE - (length p + 1)))%nat with (length p + 1)%nat by lia.
    destruct (node_exists t (p ++ [b])); [|intros [= <-]; apply yields_ret].
    fold (node_root t (KEY_SIZE - (length p + 1)) (p ++ [b])).
    destruct (node_root_total t (KEY_SIZE - (length p + 1)) (p ++ [b])) as [r Er]. rewrite Er. intros [= <-].
    eapply yields_bind; [by apply root_or_empty_yields|apply yields_ret].
  - intros b. unfold child_value. destruct (node_exists t (p ++ [b])); [|done].
    fold (node_root t (KEY_SIZE - (length p + 1)) (p ++ [b])).
    by destruct (node_root_total t (KEY_SIZE - (length p + 1)) (p ++ [b])) as [r ->].
Qed.

(** A missing child is enough, where the empty subtree's scalar is not zero. *)
Definition sparse_along `{!EqDecision ScalarField} t path (b : byte) : bool :=
  forallb (λ i, negb (node_exists t (take i path ++ [b])) && negb (bool_decide (empty_subtree_scalar t (i + 1) = scalar_zero)))
    (seq 0 KEY_SIZE).
Lemma openable_sparse `{!EqDecision ScalarField} t path b : sparse_along t path b = true → openable t path.
Proof.
  unfold sparse_along. rewrite forallb_forall. intros Hb i Hi Ha cs Hcs.
  specialize (Hb i ltac:(apply in_seq; lia)). apply andb_true_iff in Hb as [Hno Hz].
  apply negb_true_iff in Hno. apply negb_true_iff, bool_decide_eq_false in Hz. apply mapM_outcome_lookup in Hcs as [_ Hcs].
  destruct (Hcs _ _ (child_indices_lookup b)) as (c & Hc & E). unfold child_value in E. rewrite Hno in E.
  injection E as <-. apply Exists_exists. eexists. split; [by eapply list_elem_of_lookup_2|].
  by replace (KEY_SIZE - (KEY_SIZE - (i + 1)))%nat with (i + 1)%nat by lia.
Qed.

Definition checkable (l : list OpeningProof) : Prop :=
  ∀ op, op ∈ l → ∃ b, pc_verify (quotient_commitment op) op = Ok b.

Lemma siblings_total `{!CommitmentLaws} t path i ps cache :
  cache_ok t cache → steps_ok t path i ps → (i < KEY_SIZE)%nat → length path = KEY_SIZE →
  ∃ level cache', level_siblings t ps i cache = (Ok level, cache') ∧ cache_ok t cache'.
Proof.
  intros Hc (He & Hp & _) Hi Hlen. destruct (alive t path i) eqn:Ha.
  - specialize (Hp eq_refl). pose proof (alive_exists _ _ _ Ha) as Hn.
    assert (Hl : length (ps_path ps) = i) by (rewrite Hp, length_take; lia).
    destruct (level_siblings_run t ps cache Hc He ltac:(by rewrite Hp) ltac:(lia)) as (c1 & E1 & Hc1).
    rewrite Hl in E1.
    destruct (mapM_ok (λ b, child_root t (KEY_SIZE - (i + 1)) (i + 1) (ps_path ps ++ [b])) child_indices) as [level El].
    { intros b. unfold child_root. destruct (node_exists t (ps_path ps ++ [b])); [|done].
      by destruct (node_root_total t (KEY_SIZE - (i + 1)) (ps_path ps ++ [b])) as [r ->]. }
    rewrite El in E1. by exists level, c1.
  - unfold level_siblings. rewrite He. cbn [andb]. eexists _, cache. split; [apply mapM_const|done].
Qed.

Lemma step_total `{!CommitmentLaws, !OpeningLaws} t path i b ps cache :
  openable t path → cache_ok t cache → steps_ok t path i ps → length path = KEY_SIZE → path !! i = Some b →
  checkable (ps_openings ps) →
  ∃ ps' cache', proof_step t ps (i, b) cache = (Ok ps', cache') ∧ checkable (ps_openings ps').
Proof.
  intros Ho Hc Hs Hlen Hb Hv. pose proof (lookup_lt_Some _ _ _ Hb) as Hi. rewrite Hlen in Hi.
  destruct (siblings_total t path i ps cache Hc Hs Hi Hlen) as (level & c1 & E1 & Hc1).
  unfold proof_step. rewrite (method_bind_run _ _ _ _ _ E1).
  enough (∃ ops c2, (if ps_path_exists ps && node_exists t (ps_path ps) then
       value_hash ← hash_node_value_at_index t (ps_path ps) b;
       polynomial ← reconstruct_node_polynomial t (ps_path ps) i;
       match pc_open polynomial (from_le_bytes_mod_order [b]) value_hash with
       | Ok proof => mret [proof] | Err _ => mret [] | Panic s => panic s
       end
     else mret []) c1 = (Ok ops, c2) ∧ checkable ops) as (ops & c2 & E2 & Hops).
  { rewrite (method_bind_run _ _ _ _ _ E2). destruct (ps_path_exists ps); eexists _, c2; (split; [done|]); cbn;
      intros op [Hop|Hop]%elem_of_app; auto. }
  destruct (ps_path_exists ps && node_exists t (ps_path ps)) eqn:Hex; [|exists [], c1; split; [done|by intros op ?%not_elem_of_nil]].
  apply andb_true_iff in Hex as [Hex _]. destruct Hs as (He & Hp & _). rewrite He in Hex. specialize (Hp Hex).
  assert (Hl : length (ps_path ps) = i) by (rewrite Hp, length_take; lia).
  pose proof (proj2 (node_total t (Datatypes.S (KEY_SIZE - (i + 1))) (ps_path ps))) as Hok.
  destruct (node_polynomial t (KEY_SIZE - (i + 1)) (ps_path ps)) as [cs|e|x] eqn:Ecs; [|done|done].
  pose proof Ecs as Hne. rewrite Hp in Hne. apply Ho in Hne; [|done|done].
  destruct (node_root_total t (KEY_SIZE - (i + 1)) (ps_path ps ++ [b])) as [r Er].
  rewrite <- Hl in Ecs.
  destruct (yields_bind t (root_or_empty t (KEY_SIZE - (i + 1)) (ps_path ps ++ [b]))
    (λ r, mret (scalar_of_root r)) r (scalar_of_root r)) with (c := c1) as (c2 & E2 & Hc2).
  { apply root_or_empty_yields; [rewrite length_app; cbn [length]; lia|done]. }
  { apply yields_ret. }
  { done. }
  destruct (polynomial_yields t (ps_path ps) cs ltac:(lia) Ecs c2 Hc2) as (c3 & E3 & _). rewrite Hl in E3.
  unfold hash_node_value_at_index. rewrite Hl. rewrite (method_bind_run _ _ _ _ _ E2), (method_bind_run _ _ _ _ _ E3).
  pose proof (open_total cs (from_le_bytes_mod_order [b]) (scalar_of_root r)
    ltac:(by rewrite (node_polynomial_length _ _ _ _ Ecs)) Hne) as Hop.
  destruct (pc_open _ _ _) as [op|e|x]; [|exists [], c3; split; [done|by intros op ?%not_elem_of_nil]|done].
  exists [op], c3. split; [done|]. by intros op' ->%list_elem_of_singleton.
Qed.

Lemma fold_total `{!CommitmentLaws, !OpeningLaws} t path l i ps cache :
  openable t path → cache_ok t cache → steps_ok t path i ps → length path = KEY_SIZE → drop i path = l →
  checkable (ps_openings ps) →
  ∃ ps' cache', fold_method (proof_step t) ps (imap (λ j b, ((i + j)%nat, b)) l) cache = (Ok ps', cache')
  ∧ checkable (ps_openings ps').
Proof.
  intros Ho. revert i ps cache; induction l as [|b l IH]; intros i ps cache Hc Hs Hlen Hd Hv; cbn [imap fold_method].
  - by exists ps, cache.
  - assert (Hb : path !! i = Some b) by (by rewrite <- (Nat.add_0_r i), <- lookup_drop, Hd).
    destruct (step_total t path i b ps cache Ho Hc Hs Hlen Hb Hv) as (ps1 & c1 & E1 & Hv1).
    destruct (proof_step_at t path i b ps cache ps1 c1 Hc Hs Hlen Hb E1) as [Hc1 Hs1].
    destruct (IH (Datatypes.S i) ps1 c1 Hc1 Hs1 Hlen) as (ps2 & c2 & E2 & Hv2); [|done|].
    { by rewrite <- Nat.add_1_r, <- drop_drop, Hd. }
    exists ps2, c2. split; [|done]. rewrite Nat.add_0_r, (method_bind_run _ _ _ _ _ E1), <- E2. f_equal.
    apply imap_ext. intros j x _. cbn. f_equal. lia.
Qed.

Lemma generate_total `{!CommitmentLaws, !OpeningLaws} (key : bytes32) w t :
  tree_ok t → frame_ok t → openable t (as_bytes key) →
  ∃ proof t', generate_proof_with_witness key w t = (Ok proof, t') ∧ checkable (opening_proofs proof).
Proof.
  intros Ht Hf Ho. pose proof Ht as [Hc _].
  destruct (fold_total t (as_bytes key) (as_bytes key) 0 _ _ Ho Hc (steps_start t _ Hf) (as_bytes_length key) (drop_0 _))
    as (ps & c1 & E1 & Hv); [by intros op ?%not_elem_of_nil|].
  destruct (fold_steps t (as_bytes key) (as_bytes key) 0 _ _ _ _ Hc (steps_start t _ Hf) (as_bytes_length key)
    (drop_0 _) ltac:(lia) E1) as [Hc1 _].
  unfold generate_proof_with_witness, zoom. erewrite method_bind_run by done. erewrite method_bind_run.
  2:{ change (enumerate (as_bytes key)) with (imap (λ j b, ((0 + j)%nat, b)) (as_bytes key)). by rewrite E1. }
  destruct (get_root_ok _ (cached_tree_ok t c1 Ht Hc1)) as (t2 & E2 & _).
  destruct (node_root_total (set_cache c1 t) KEY_SIZE []) as [r Er]. unfold scratch_root in E2. rewrite Er in E2.
  rewrite (method_bind_run _ _ _ _ _ E2). eexists _, t2. by split.
Qed.

(** The scalar the verifier starts from. *)
Lemma start_scalar_ok t u (proof : VerkleProof) (key : bytes32) r :
  frame_ok t → frame_ok u →
  (alive t (as_bytes key) KEY_SIZE = true → is_Some (get_node_value t (as_bytes key))) →
  leaf_value proof = (if alive t (as_bytes key) KEY_SIZE then get_node_value t (as_bytes key) else None) →
  proof_type proof = match leaf_value proof with Some _ => Membership | None => NonMembership end →
  expected_root t (as_bytes key) KEY_SIZE = Ok r →
  start_scalar u proof = Ok (Some (scalar_of_root r)).
Proof.
  intros [Hft _] [Hfu _] Hval Hleaf Htype. unfold expected_root, start_scalar.
  rewrite Htype. destruct (alive t (as_bytes key) KEY_SIZE).
  - destruct (Hval eq_refl) as [v Hv]. rewrite Hleaf, Hv.
    rewrite Nat.sub_diag, take_ge by (rewrite as_bytes_length; unfold KEY_SIZE; lia).
    unfold node_root. cbn [node_commitment]. unfold leaf_commitment. rewrite Hv.
    destruct (pc_commit _); cbn; [|done|done]. by intros ->.
  - rewrite Hleaf. intros [= <-]. unfold empty_subtree_root_hash. congruence.
Qed.

Lemma faithful_verifies (key : bytes32) w t u proof :
  frame_ok t → frame_ok u →
  (alive t (as_bytes key) KEY_SIZE = true → is_Some (get_node_value t (as_bytes key))) →
  faithful_proof t key w proof →
  (∀ op, op ∈ opening_proofs proof → ∃ b, pc_verify (quotient_commitment op) op = Ok b) →
  verify_proof u proof = Ok (match w with Some w => gas_witness_ok w | None => true end).
Proof.
  intros Hf Hu Hval (Hroot & Hpath & Hw & Hleaf & Htype & levels & Hsib & Hll & Hall) Hop.
  assert (Htop : expected_root t (as_bytes key) 0 = Ok (proof_root proof)).
  { unfold expected_root. cbn [alive]. by rewrite (proj2 Hf). }
  destruct (expected_root_ok t (as_bytes key) levels KEY_SIZE (as_bytes_length key) Hll Hall) as [r Hr];
    [by rewrite Htop|done|].
  unfold verify_proof. rewrite Hpath, as_bytes_length.
  rewrite bool_decide_eq_true_2 by done. cbn [negb].
  rewrite Hsib, (length_mjoin_uniform VERKLE_RADIX), Hll
    by (intros i k Hk; by eapply level_at_length, Hall).
  rewrite bool_decide_eq_true_2 by done. cbn [negb].
  assert (Hshape : match proof_type proof with
                   | Membership => bool_decide (is_Some (leaf_value proof))
                   | NonMembership => bool_decide (leaf_value proof = None)
                   end = true).
  { rewrite Htype. by destruct (leaf_value proof). }
  rewrite Hshape. cbn [negb]. rewrite (check_openings_ok _ Hop). cbn [mbind outcome_bind].
  rewrite (start_scalar_ok t u proof key r) by done. cbn [mbind outcome_bind].
  rewrite (recompute_at t (as_bytes key) proof levels KEY_SIZE r (proof_root proof)); try done.
  - cbn [mbind outcome_bind]. unfold KEY_SIZE. rewrite bool_decide_eq_true_2 by done. cbn [negb].
    rewrite Hw. by destruct w.
  - apply as_bytes_length.
Qed.

Lemma generated_verifies (key : bytes32) w t u proof t' :
  tree_ok t → frame_ok t → frame_ok u →
  (alive t (as_bytes key) KEY_SIZE = true → is_Some (get_node_value t (as_bytes key))) →
  generate_proof_with_witness key w t = (Ok proof, t') →
  (∀ op, op ∈ opening_proofs proof → ∃ b, pc_verify (quotient_commitment op) op = Ok b) →
  verify_proof u proof = Ok (match w with Some w => gas_witness_ok w | None => true end).
Proof.
  intros Ht Hf Hu Hval Hgen. destruct (generate_inv key w t proof t' Ht Hf Hgen) as (_ & _ & Hp).
  intros Hop. by apply (faithful_verifies key w t u proof).
Qed.
End completeness.

(** ** Properties *)
Section verification.
Context `{Blake3} `{Commitments} {S : Type} `{HS : Storage S}.
Implicit Types (t : VerkleTree (S := S)).

(** The opening proofs carry no weight: verification only asks that checking
    each gives a verdict, and ignores the verdict, so a proof verifies with its
    openings exactly when it verifies with none, or with any others. *)
Theorem verify_ignores_openings t (proof : VerkleProof) (l : list OpeningProof)
    (Hl : ∀ op, op ∈ l → ∃ b, pc_verify (quotient_commitment op) op = Ok b) :
  verify_proof t (set_openings l proof) = verify_proof t (set_openings [] proof).
Proof.
  unfold verify_proof. cbn [proof_path siblings proof_type leaf_value opening_proofs set_openings].
  repeat (destruct (negb _); [done|]). by rewrite check_openings_ok.
Qed.

(** C9. Proofs are complete.  When the commitment scheme takes the 256 coefficients
    of a node and serialises its commitments ([CommitmentLaws]), opens polynomials
    other than zero without a panic and can check what it opened ([OpeningLaws]; the
    repository's scheme with the 256 generators the tree asks for satisfies both,
    [PolyCommit.commitment_laws] and [PolyCommit.opening_laws]), and no node on the way
    to the key commits to the polynomial zero ([openable]), a tree built by any
    sequence of operations generates a proof for the key; the proof carries the
    tree's root and the stored value (or none when the path is gone), generation
    leaves the storage alone, and every tree built by any operations accepts the
    proof, when the gas witness it carries splits the fee by the policy.  A node
    that exists at full depth is assumed to decode to a value, as insertion writes it. *)
Theorem generated_proofs_verify `{!StorageLaws S} (s s' : S) (ops ops' : list tree_op)
    (t0 u0 : VerkleTree) (key : bytes32) (w : option GasFeeWitness)
    (Ht0 : VerkleTree_new s = Ok t0) (Hu0 : VerkleTree_new s' = Ok u0)
    (Hval : alive (foldl run_op t0 ops) (as_bytes key) KEY_SIZE = true →
            is_Some (get_node_value (foldl run_op t0 ops) (as_bytes key)))
    (Hcommit : CommitmentLaws) (Hopen : OpeningLaws)
    (Hzero : openable (foldl run_op t0 ops) (as_bytes key)) :
  ∃ proof t', generate_proof_with_witness key w (foldl run_op t0 ops) = (Ok proof, t')
  ∧ verify_proof (foldl run_op u0 ops') proof
    = Ok (match w with Some w => gas_witness_ok w | None => true end)
  ∧ scratch_root (foldl run_op t0 ops) = Ok (proof_root proof)
  ∧ leaf_value proof = (if alive (foldl run_op t0 ops) (as_bytes key) KEY_SIZE
                        then get_node_value (foldl run_op t0 ops) (as_bytes key) else None)
  ∧ storage t' = storage (foldl run_op t0 ops).
Proof.
  assert (Ht := run_ok ops t0 (new_ok s t0 Ht0)).
  assert (Hf := run_frame ops t0 (new_ok s t0 Ht0) (new_frame s t0 Ht0)).
  assert (Hu := run_frame ops' u0 (new_ok s' u0 Hu0) (new_frame s' u0 Hu0)).
  destruct (generate_total key w (foldl run_op t0 ops) Ht Hf Hzero) as (proof & t' & Hgen & Hop).
  exists proof, t'. split; [done|]. split; [by eapply generated_verifies|].
  destruct (generate_inv key w _ proof t' Ht Hf Hgen) as (_ & Hs & Hroot & _ & _ & Hleaf & _).
  by split_and!.
Qed.
End verification.

(** ** Examples *)
Section examples.
#[local] Existing Instance toy_blake3.
#[local] Existing Instance toy_commitments.

Definition sample_history : list tree_op :=
  [OpInsert (key_of [1]) [x05]; OpInsert (key_of [1; 2]) [x06]].
Definition other_history : list tree_op := [OpInsert (key_of [9]) [x01]].
Definition sample_split : GasFeeWitness := {| total_gas_fee := 10; miner_share := 8; fullnode_share := 2 |}.

(** The tree over the repository's own scheme, with the field of three elements. *)
Definition trit_tree : VerkleTree (H0 := trit_commitments) :=
  ok_or_default {| storage := MemoryStorage_new; commitment_cache := ∅; empty_subtree_roots := [];
           empty_subtree_scalars := []; root_cache := None; dirty := true; pruned_keys := ∅ |}
    (VerkleTree_new (H0 := trit_commitments) MemoryStorage_new).
Definition sample_tree : VerkleTree (H0 := trit_commitments) := foldl run_op trit_tree sample_history.

Lemma trit_tree_new : VerkleTree_new (H0 := trit_commitments) MemoryStorage_new = Ok trit_tree.
Proof. apply ok_or_default_spec. vm_compute. reflexivity. Qed.

Lemma sample_openable : openable sample_tree (as_bytes (key_of [1])).
Proof. apply (openable_sparse (H0 := trit_commitments) (EqDecision0 := trit_eq_dec) _ _ x09). vm_compute. reflexivity. Qed.

Lemma generated_proofs_verify_witness :
  ∃ proof t', generate_proof_with_witness (key_of [1]) (Some sample_split) sample_tree = (Ok proof, t')
  ∧ verify_proof (foldl run_op trit_tree other_history) proof = Ok true ∧ leaf_value proof = Some [x05].
Proof.
  destruct (generated_proofs_verify MemoryStorage_new MemoryStorage_new sample_history other_history
    trit_tree trit_tree (key_of [1]) (Some sample_split)) as (proof & t' & E & Hv & _ & Hl & _).
  - exact trit_tree_new.
  - exact trit_tree_new.
  - intros _. apply (bool_decide_unpack _). vm_compute. exact I.
  - exact trit_commitment_laws.
  - exact trit_opening_laws.
  - exact sample_openable.
  - exists proof, t'. split; [exact E|]. assert (Hg : gas_witness_ok sample_split = true) by (vm_compute; reflexivity).
    rewrite Hg in Hv. split; [exact Hv|]. rewrite Hl. vm_compute. reflexivity.
Defined.

Definition bare_proof : VerkleProof :=
  {| proof_type := NonMembership; proof_path := []; siblings := []; leaf_value := None;
     proof_root := zero32; opening_proofs := []; gas_fee_distribution := None |}.

Lemma verify_ignores_openings_witness :
  verify_proof empty_tree (set_openings [1; 2] bare_proof) = verify_proof empty_tree (set_openings [] bare_proof).
Proof. apply verify_ignores_openings. intros op _. by exists true. Defined.
End examples.
