(* ===== verification/Reward.v ===== *)
(** * Fees, block rewards and the coinbase

    [consensus/reward.rs]: fees of transactions and blocks, the block reward, and
    the construction and validation of the coinbase with its 80/20 split.  The
    validator of full nodes is a parameter of the code, an interface here. *)

From S2P Require Import Prelude Crypto Errors Transaction Economics Utxo Dag State.
From Stdlib Require Import Init.Byte.

(** The trait [FullNodeValidator]. *)
Class FullNodeValidator (V : Type) := {
  is_valid_full_node : V → bytes32 → bool;
  get_valid_nodes : V → list bytes32
}.

(** [verify_data_availability]'s default: registration only. *)
Definition verify_data_availability {V} `{FullNodeValidator V} (v : V) (address : bytes32)
    (_ : option (list byte)) : bool := is_valid_full_node v address.

Inductive DefaultNodeValidator := mkDefaultNodeValidator.
#[global] Instance DefaultNodeValidator_validator : FullNodeValidator DefaultNodeValidator := {|
  is_valid_full_node _ _ := false;
  get_valid_nodes _ := []
|}.

Section reward.
Context `{Blake3} `{K256}.

(** ** Fees *)
Definition calculate_fees (tx : Transaction) (utxo : UtxoSet) : outcome CoreError Z :=
  validate_tx utxo tx.

(** [gas_used * max_fee_per_gas] *)
Definition gas_fee (tx : Transaction) : Z := sat_mul 128 (gas_limit tx) (max_fee_per_gas tx).

Definition calculate_tx_total_fee (tx : Transaction) (utxo : UtxoSet) : outcome CoreError Z :=
  base_fee ← calculate_fees tx utxo;
  Ok (sat_add 128 base_fee (gas_fee tx)).

(** One turn of the loop of [calculate_accepted_fees]: the working set and the
    fees so far. *)
Definition accept_fee (st : Z * UtxoSet) (tx : Transaction) : outcome CoreError (Z * UtxoSet) :=
  let '(total_fees, working_utxo) := st in
  if is_coinbase tx then Ok st else
  fee ← calculate_tx_total_fee tx working_utxo;
  match apply_tx tx working_utxo with
  | (Ok _, working_utxo) =>
      let total_fees := sat_add 128 total_fees fee in
      if u64_max <? total_fees
      then Err (TransactionError "Fee overflow in accepted fee calculation")
      else Ok (total_fees, working_utxo)
  | (Err e, _) => Err e
  | (Panic p, _) => Panic p
  end.

Definition calculate_accepted_fees (block : BlockNode) (utxo : UtxoSet) : outcome CoreError Z :=
  '(total_fees, _) ← fold_outcome accept_fee (0, utxo) (transactions block);
  Ok (wrap 64 total_fees).

(** ** Block rewards *)

(** [Config::default().block_reward] *)
Definition config_block_reward : Z := 100.

Definition calculate_block_reward (height : Z) : Z :=
  let halvings := height / HALVING_INTERVAL in
  if 64 <=? halvings then 0 else Z.shiftr config_block_reward halvings.

Definition block_total_reward (block : BlockNode) (height : Z) (is_blue : bool) (utxo : UtxoSet) :
    outcome CoreError Z :=
  if negb is_blue then Ok 0 else
  let subsidy_units := capped_reward height in
  fees ← calculate_accepted_fees block utxo;
  total ← ok_or (checked_add 128 subsidy_units fees)
            (TransactionError "Reward overflow: subsidy + fees exceed max limit");
  if total <? 2 ^ 64 then Ok total else Err (TransactionError "Total reward overflow u64").

(** ** The coinbase *)
Definition MINER_SHARE_PERCENT : Z := MINER_REWARD_PERCENT.
Definition FULLNODE_SHARE_PERCENT : Z := FULLNODE_REWARD_PERCENT.

(** [(miner_share, fullnode_share)] of a total. *)
Definition split_reward (total_reward : Z) : Z * Z :=
  let miner_share := wmul 128 total_reward MINER_SHARE_PERCENT / 100 in
  (miner_share, sat_sub total_reward miner_share).

(** The [debug_assert!]s of the split are not run in the release profile; see
    [split_assertions]. *)
Definition create_coinbase_tx (miner_reward_address : Hash)
    (node_reward_pool_address : option Hash) (active_node_count : Z) (total_reward : Z) :
    outcome CoreError Transaction :=
  if bool_decide (as_bytes miner_reward_address = as_bytes zero32)
  then Panic "[ANTI-DEFLATIONARY] Miner address may not be zero address (burn address)"
  else
    let '(miner_reward, node_reward_pool) :=
      if active_node_count =? 0 then (total_reward, 0) else split_reward total_reward in
    let miner_output := {| value := wrap 64 miner_reward; pubkey_hash := miner_reward_address |} in
    pool_outputs ←
      (if (0 <? active_node_count) && (0 <? node_reward_pool) then
         match node_reward_pool_address with
         | Some pool_addr =>
             if bool_decide (as_bytes pool_addr = as_bytes BURN_ADDRESS)
             then Panic "[ANTI-DEFLATIONARY] Full node pool address cannot be zero address (burn address)"
             else Ok [{| value := wrap 64 node_reward_pool; pubkey_hash := pool_addr |}]
         | None => Ok [{| value := wrap 64 node_reward_pool; pubkey_hash := miner_reward_address |}]
         end
       else Ok []);
    let tx := {| id := Hash_new []; inputs := []; outputs := miner_output :: pool_outputs;
                 execution_payload := []; contract_address := None; gas_limit := 0;
                 max_fee_per_gas := 0; chain_id := 1; locktime := 0 |} in
    Ok (set_id (calculate_id tx) tx).

(** The check of a two-output coinbase. *)
Definition validate_split (actual_reward : Z) (first second : TxOutput)
    (validator : option (bytes32 → bool)) : outcome CoreError unit :=
  let expected_miner := wmul 128 actual_reward MINER_SHARE_PERCENT / 100 in
  let expected_node := sat_sub actual_reward expected_miner in
  _ ← ensure (((value first =? expected_miner) && (value second =? expected_node))
              || ((value first =? expected_node) && (value second =? expected_miner)))
        (TransactionError "Invalid 80/20 split: expected [miner: {}, node: {}], got [{}, {}]");
  match validator with
  | Some is_valid =>
      let node_address := if value first =? expected_node then pubkey_hash first
                          else pubkey_hash second in
      ensure (is_valid node_address)
        (TransactionError "Node reward address {:?} is not a valid full node provider")
  | None => Ok tt
  end.

Definition find_coinbase (block : BlockNode) : option Transaction :=
  head (filter (λ tx, is_coinbase tx = true) (transactions block)).

Definition validate_coinbase_reward_internal (block : BlockNode) (actual_reward : Z)
    (validator : option (bytes32 → bool)) : outcome CoreError unit :=
  match find_coinbase block with
  | None => Err (TransactionError "Block must contain a coinbase transaction")
  | Some tx =>
      if bool_decide (outputs tx = []) then Err (TransactionError "Coinbase transaction has no outputs")
      else
        let total_value := wrap 128 (zsum (value <$> outputs tx)) in
        _ ← ensure (total_value =? actual_reward)
              (TransactionError "Invalid coinbase reward: expected {} total, got {}");
        _ ← ensure (forallb (λ o, bool_decide (as_bytes (pubkey_hash o) ≠ as_bytes BURN_ADDRESS)) (outputs tx))
              (TransactionError "Coinbase output {} is sent to burn address (zero address) - prohibited");
        match outputs tx with
        | [only] =>
            ensure (value only =? actual_reward)
              (TransactionError "Single output coinbase must contain all reward value: expected {}, got {}")
        | [first; second] => validate_split actual_reward first second validator
        | _ => Err (TransactionError "Coinbase must have 1 or 2 outputs, got {}")
        end
  end.

Definition validate_coinbase_reward (block : BlockNode) (actual_reward : Z) : outcome CoreError unit :=
  validate_coinbase_reward_internal block actual_reward None.
End reward.

(** ** Lemmas *)
Lemma split_reward_value t :
  fits 64 t → split_reward t = (4 * t / 5, t - 4 * t / 5).
Proof.
  unfold fits. intros Ht. unfold split_reward, wmul, MINER_SHARE_PERCENT, MINER_REWARD_PERCENT, sat_sub.
  rewrite wrap_small by (unfold fits; lia).
  replace (t * 80 / 100) with (4 * t / 5)
    by (replace (t * 80) with (4 * t * 20) by lia; by rewrite (Z.div_mul_cancel_r _ 5 20) by lia).
  f_equal. pose proof (Z.div_mod (4 * t) 5). pose proof (Z.mod_pos_bound (4 * t) 5). lia.
Qed.

Lemma split_bounds t : 0 ≤ t → 0 ≤ 4 * t / 5 ≤ t ∧ (0 < t → 4 * t / 5 < t).
Proof. intros. pose proof (Z.div_mod (4 * t) 5). pose proof (Z.mod_pos_bound (4 * t) 5). lia. Qed.

Section theorems.
Context `{Blake3} `{K256}.
Implicit Types (block : BlockNode) (u : UtxoSet) (tx : Transaction).

Definition not_burn (h : Hash) : Prop := as_bytes h ≠ as_bytes BURN_ADDRESS.

(** What the coinbase check accepts: the first coinbase pays no burn address and
    pays the reward either whole in one output, or split in two, in either order. *)
Definition coinbase_pays block (reward : Z) : Prop :=
  ∃ tx, find_coinbase block = Some tx ∧ Forall (λ o, not_burn (pubkey_hash o)) (outputs tx) ∧
  ((∃ o, outputs tx = [o] ∧ value o = reward)
   ∨ (∃ o1 o2, outputs tx = [o1; o2] ∧
       ((value o1 = 4 * reward / 5 ∧ value o2 = reward - 4 * reward / 5)
        ∨ (value o2 = 4 * reward / 5 ∧ value o1 = reward - 4 * reward / 5)))).

Lemma validate_split_ok reward o1 o2 v :
  fits 64 reward →
  validate_split reward o1 o2 v = Ok tt ↔
  ((value o1 = 4 * reward / 5 ∧ value o2 = reward - 4 * reward / 5)
   ∨ (value o2 = 4 * reward / 5 ∧ value o1 = reward - 4 * reward / 5))
  ∧ match v with
    | Some valid => valid (if value o1 =? reward - 4 * reward / 5 then pubkey_hash o1 else pubkey_hash o2) = true
    | None => True
    end.
Proof.
  intros Hr. unfold validate_split.
  pose proof (split_reward_value reward Hr) as E. unfold split_reward in E.
  injection E as E1 E2. rewrite E2, E1. rewrite bind_ok. split.
  - intros ([] & Hs%ensure_ok & Hv). split.
    + apply orb_true_iff in Hs as [[?%Z.eqb_eq ?%Z.eqb_eq]%andb_true_iff|[?%Z.eqb_eq ?%Z.eqb_eq]%andb_true_iff]; lia.
    + destruct v; [|done]. by apply ensure_ok in Hv.
  - intros [Hs Hv]. exists tt. split.
    + apply ensure_ok, orb_true_iff.
      destruct Hs as [[-> ->]|[-> ->]]; [left|right]; apply andb_true_iff; by rewrite !Z.eqb_refl.
    + destruct v; [|done]. by apply ensure_ok.
Qed.

Lemma zsum_outputs tx reward :
  fits 64 reward → (length (outputs tx) ≤ 2)%nat → Forall output_fits (outputs tx) →
  wrap 128 (zsum (value <$> outputs tx)) = zsum (value <$> outputs tx).
Proof.
  intros Hr Hl Hf. apply wrap_small. unfold fits. unfold output_fits, fits in Hf.
  destruct (outputs tx) as [|o1 [|o2 [|]]]; cbn in *; [lia| | |lia].
  - apply Forall_cons in Hf as [? _]. lia.
  - apply Forall_cons in Hf as [? Hf]. apply Forall_cons in Hf as [? _]. lia.
Qed.

Lemma validate_coinbase_ok block reward :
  fits 64 reward → (∀ tx, find_coinbase block = Some tx → Forall output_fits (outputs tx)) →
  validate_coinbase_reward block reward = Ok tt ↔ coinbase_pays block reward.
Proof.
  intros Hr Hfit. unfold validate_coinbase_reward, validate_coinbase_reward_internal, coinbase_pays.
  destruct (find_coinbase block) as [tx|]; [|naive_solver]. specialize (Hfit tx eq_refl).
  assert (Hsp := split_bounds reward ltac:(apply Hr)).
  transitivity (Forall (λ o, not_burn (pubkey_hash o)) (outputs tx) ∧
    ((∃ o, outputs tx = [o] ∧ value o = reward)
     ∨ (∃ o1 o2, outputs tx = [o1; o2] ∧
         ((value o1 = 4 * reward / 5 ∧ value o2 = reward - 4 * reward / 5)
          ∨ (value o2 = 4 * reward / 5 ∧ value o1 = reward - 4 * reward / 5))))); [|naive_solver].
  case_bool_decide as He.
  { rewrite He. naive_solver. }
  assert (Hb : ∀ (r : outcome CoreError unit) t,
    (_ ← ensure t (TransactionError "Invalid coinbase reward: expected {} total, got {}");
     _ ← ensure (forallb (λ o, bool_decide (as_bytes (pubkey_hash o) ≠ as_bytes BURN_ADDRESS)) (outputs tx))
           (TransactionError "Coinbase output {} is sent to burn address (zero address) - prohibited"); r) = Ok tt
    ↔ t = true ∧ Forall (λ o, not_burn (pubkey_hash o)) (outputs tx) ∧ r = Ok tt).
  { intros r t. rewrite <- (forallb_bool_decide (λ o, not_burn (pubkey_hash o))). unfold not_burn. split.
    - intros Hr'. outcome_inv. subst. done.
    - intros (-> & -> & ->). done. }
  rewrite Hb. clear Hb.
  assert (Hw := zsum_outputs tx reward Hr).
  destruct (outputs tx) as [|o1 [|o2 [|o3 l]]] eqn:Eo; [done|..].
  - rewrite (Hw ltac:(cbn; lia) Hfit), ensure_ok, !Z.eqb_eq. cbn. split.
    + intros (_ & Hb & Hv). split; [done|]. left. by exists o1.
    + intros [Hb [(o & [= <-] & <-)|(? & ? & [=] & _)]]. split_and!; [lia|done|done].
  - rewrite (Hw ltac:(cbn; lia) Hfit), validate_split_ok, Z.eqb_eq by done. cbn -[Z.mul]. split.
    + intros (_ & Hb & Hv & _). split; [done|]. right. by exists o1, o2.
    + intros [Hb [(? & [=] & _)|(a & b & [= <- <-] & Hs)]]. split_and!; [lia|done|done|done].
  - split; [intros (_ & _ & [=])|]. intros [_ [(? & [=] & _)|(? & ? & [=] & _)]].
Qed.

(** The coinbase check, decided: a block passes exactly when its first coinbase
    pays the reward whole in one output or split 80/20 in two, and nothing to
    the burn address.  In particular a single output may keep the whole reward
    whatever the number of full nodes. *)
Theorem validate_coinbase_spec block (reward : Z)
    (Hr : fits 64 reward) (Hfit : ∀ tx, find_coinbase block = Some tx → Forall output_fits (outputs tx)) :
  validate_coinbase_reward block reward = Ok tt ↔ coinbase_pays block reward.
Proof. by apply validate_coinbase_ok. Qed.

Lemma create_coinbase_outputs miner pool n total :
  fits 64 total → 0 ≤ n → not_burn miner → (∀ p, pool = Some p → not_burn p) →
  ∃ tx, create_coinbase_tx miner pool n total = Ok tx ∧ inputs tx = [] ∧ id tx = calculate_id tx
  ∧ outputs tx =
    if (n =? 0) || (total =? 0) then [{| value := total; pubkey_hash := miner |}]
    else [{| value := 4 * total / 5; pubkey_hash := miner |};
          {| value := total - 4 * total / 5; pubkey_hash := default miner pool |}].
Proof.
  intros Ht Hn Hm Hp. unfold create_coinbase_tx.
  rewrite bool_decide_eq_false_2 by exact Hm.
  pose proof (split_bounds total ltac:(apply Ht)) as Hs.
  assert (Hw : ∀ x, 0 ≤ x ≤ total → wrap 64 x = x) by (intros; apply wrap_small; unfold fits in *; lia).
  destruct (Z.eqb_spec n 0) as [->|Hn0]; cbn [orb].
  - eexists. split; [reflexivity|]. cbn. by rewrite (Hw total) by (unfold fits in Ht; lia).
  - rewrite split_reward_value by done. rewrite (proj2 (Z.ltb_lt 0 n)) by lia. cbn [andb].
    destruct (Z.eqb_spec total 0) as [->|Ht0].
    { eexists. split; [reflexivity|]. cbn. done. }
    rewrite (proj2 (Z.ltb_lt 0 (total - 4 * total / 5))) by (unfold fits in Ht; lia).
    destruct pool as [p|]; cbn [default from_option id].
    + rewrite bool_decide_eq_false_2 by (by apply Hp). eexists. split; [reflexivity|]. cbn -[Z.mul].
      by rewrite !Hw by (unfold fits in Ht; lia).
    + eexists. split; [reflexivity|]. cbn -[Z.mul]. by rewrite !Hw by (unfold fits in Ht; lia).
Qed.

(** Construction and validation agree: the coinbase built for a reward and
    non-burn addresses exists, pays exactly the reward, carries its own id, and a
    block whose first coinbase it is passes the coinbase check. *)
Theorem coinbase_roundtrip block miner pool (n total : Z)
    (Ht : fits 64 total) (Hn : 0 ≤ n) (Hm : not_burn miner) (Hp : ∀ p, pool = Some p → not_burn p) :
  ∃ tx, create_coinbase_tx miner pool n total = Ok tx
  ∧ is_coinbase tx = true ∧ id tx = calculate_id tx ∧ zsum (value <$> outputs tx) = total
  ∧ (find_coinbase block = Some tx → validate_coinbase_reward block total = Ok tt).
Proof.
  destruct (create_coinbase_outputs miner pool n total Ht Hn Hm Hp) as (tx & E & Hi & Hid & Ho).
  exists tx. pose proof (split_bounds total ltac:(apply Ht)) as Hs.
  split; [done|]. split; [by unfold is_coinbase; rewrite Hi|]. split; [done|]. split.
  { rewrite Ho. destruct (_ || _); cbn; lia. }
  intros Hf. apply validate_coinbase_ok; [done| |].
  - intros tx' E'. rewrite Hf in E'. injection E' as <-. rewrite Ho. unfold fits in Ht.
    destruct (_ || _); repeat constructor; cbn; lia.
  - exists tx. split; [done|]. rewrite Ho. destruct (_ || _) eqn:Eb.
    + split; [by repeat constructor|]. left. eexists. split; [reflexivity|done].
    + split.
      * constructor; [done|]. constructor; [|constructor]. cbn. destruct pool; [by apply Hp|done].
      * right. do 2 eexists. split; [reflexivity|]. left. done.
Qed.

(** The development-profile assertion on the full nodes' share holds only for
    totals divisible by five: the share is what the miner leaves, rounded up,
    and the assertion expects it rounded down. *)
Theorem split_assertions (total : Z) (Ht : fits 64 total) :
  let '(miner_share, fullnode_share) := split_reward total in
  validate_miner_share total miner_share = true
  ∧ (validate_fullnode_share total fullnode_share = true ↔ total mod 5 = 0).
Proof.
  rewrite split_reward_value by done. unfold validate_miner_share, validate_fullnode_share.
  unfold MINER_REWARD_PERCENT, FULLNODE_REWARD_PERCENT.
  unfold wmul. rewrite ?(wrap_small 128) by (unfold fits in *; lia).
  replace (total * 80 / 100) with (4 * total / 5)
    by (replace (total * 80) with (4 * total * 20) by lia; by rewrite (Z.div_mul_cancel_r _ 5 20) by lia).
  replace (total * 20 / 100) with (total / 5)
    by (change 100 with (5 * 20); by rewrite Z.div_mul_cancel_r by lia).
  rewrite ?bool_decide_eq_true, ?Z.eqb_eq. split; [done|].
  pose proof (Z.div_mod (4 * total) 5 ltac:(lia)). pose proof (Z.mod_pos_bound (4 * total) 5 ltac:(lia)).
  pose proof (Z.div_mod total 5 ltac:(lia)). pose proof (Z.mod_pos_bound total 5 ltac:(lia)). lia.
Qed.
End theorems.

(** ** Accounting of fees *)
Section accounting.
Context `{Blake3} `{K256}.
Implicit Types (u : UtxoSet) (tx : Transaction) (txs : list Transaction).

Definition spending txs : list Transaction := filter (λ tx, is_coinbase tx = false) txs.

Definition gas_fits tx : Prop := 0 ≤ gas_limit tx ∧ 0 ≤ max_fee_per_gas tx.

Lemma gas_fee_nonneg tx : gas_fits tx → 0 ≤ gas_fee tx.
Proof. unfold gas_fits, gas_fee, sat_mul. intros [??]. pose proof (Z.mul_nonneg_nonneg (gas_limit tx) (max_fee_per_gas tx)). lia. Qed.

Lemma accept_fee_ok acc u tx acc' u' :
  utxo_fits u → Forall output_fits (outputs tx) → fresh_outputs u tx → gas_fits tx →
  is_coinbase tx = false → 0 ≤ acc ≤ u64_max →
  accept_fee (acc, u) tx = Ok (acc', u') →
  u' = post_tx tx u ∧ 0 ≤ acc' ≤ u64_max
  ∧ acc' = acc + (msum value (utxos u) - msum value (utxos u')) + gas_fee tx.
Proof.
  intros Hu Ho Hf Hg Hcb Hacc. unfold accept_fee. rewrite Hcb.
  unfold calculate_tx_total_fee, calculate_fees. rewrite apply_tx_run.
  destruct (validate_tx u tx) as [fee|e|p] eqn:Hv; cbn; [|done..].
  pose proof (total_post_tx u tx fee Hu Ho Hf Hv) as Ht. rewrite Hcb in Ht.
  pose proof (gas_fee_nonneg tx Hg) as Hgn.
  assert (Hfee : 0 ≤ fee) by (apply (validate_tx_ok u tx fee Hu Ho Hcb) in Hv; by destruct Hv).
  destruct (Z.ltb_spec u64_max (sat_add 128 acc (sat_add 128 fee (gas_fee tx)))); [done|].
  intros [= <- <-]. split; [done|]. unfold sat_add, u64_max in *. lia.
Qed.

Lemma accepted_fees_fold txs acc u acc' u' :
  utxo_fits u → Forall (λ tx, Forall output_fits (outputs tx) ∧ gas_fits tx) txs →
  fresh_block u (spending txs) → 0 ≤ acc ≤ u64_max →
  fold_outcome accept_fee (acc, u) txs = Ok (acc', u') →
  apply_txs u (spending txs) = Ok u' ∧ 0 ≤ acc' ≤ u64_max
  ∧ acc' = acc + (msum value (utxos u) - msum value (utxos u')) + zsum (gas_fee <$> spending txs).
Proof.
  revert acc u; induction txs as [|tx txs IH]; intros acc u Hu Hl Hf Hacc.
  { intros [= <- <-]. cbn. split; [done|lia]. }
  apply Forall_cons in Hl as [[Ho Hg] Hl]. cbn [fold_outcome]. rewrite bind_ok.
  intros ([acc1 u1] & E1 & E2). unfold spending in *. rewrite filter_cons in *.
  destruct (is_coinbase tx) eqn:Hcb.
  - rewrite !decide_False in * by done. unfold accept_fee in E1. rewrite Hcb in E1.
    injection E1 as <- <-. by eapply IH.
  - rewrite !decide_True in * by done.
    assert (Hv : ∃ fee, validate_tx u tx = Ok fee).
    { unfold accept_fee in E1. rewrite Hcb in E1. unfold calculate_tx_total_fee, calculate_fees in E1.
      destruct (validate_tx u tx) as [fee|e|p]; [by exists fee|done..]. }
    destruct Hv as [fee Hv]. pose proof (fresh_block_head u tx _ fee Hf Hv) as Hfo.
    destruct (accept_fee_ok acc u tx acc1 u1) as (-> & Hb & Hs); try done.
    destruct (IH acc1 (post_tx tx u)) as (Ha & Hb' & Hs'); try done.
    + by apply post_tx_fits.
    + by apply fresh_block_tail.
    + rewrite fmap_cons, zsum_cons. split; [|lia]. unfold apply_txs in *. cbn. by rewrite Hv.
Qed.

(** Where the fees come from.  The accepted fees of a block are the value its
    spending transactions leave behind plus their gas fees, and the gas fees are
    taken from no coin: they are new money in the reward. *)
Theorem accepted_fees_accounting (block : BlockNode) u (fees : Z)
    (Hu : utxo_fits u)
    (Hfit : Forall (λ tx, Forall output_fits (outputs tx) ∧ gas_fits tx) (transactions block))
    (Hf : fresh_block u (spending (transactions block)))
    (Hfees : calculate_accepted_fees block u = Ok fees) :
  ∃ u', apply_txs u (spending (transactions block)) = Ok u' ∧ 0 ≤ fees < 2 ^ 64
  ∧ fees = msum value (utxos u) - msum value (utxos u')
           + zsum (gas_fee <$> spending (transactions block)).
Proof.
  unfold calculate_accepted_fees in Hfees. apply bind_ok in Hfees as ([acc u'] & E & [= <-]).
  destruct (accepted_fees_fold _ 0 u acc u' Hu Hfit Hf) as (Ha & Hb & Hs); [unfold u64_max; lia|done|].
  exists u'. unfold u64_max in Hb. rewrite wrap_small by (unfold fits; lia). split; [done|lia].
Qed.
End accounting.

(** ** Examples *)
Lemma outputs_fit_dec l :
  forallb (λ o, (0 <=? value o) && (value o <? 2 ^ 64)) l = true → Forall output_fits l.
Proof.
  intros Hl%forallb_Forall. eapply Forall_impl; [exact Hl|].
  intros o [?%Z.leb_le ?%Z.ltb_lt]%andb_true_iff. done.
Qed.

Section witnesses.
#[local] Existing Instance toy_blake3.
#[local] Existing Instance toy_k256.

Definition coinbase_block (total : Z) : BlockNode :=
  {| header := header (sample_block 1 []); children := ∅; selected_parent := None;
     blue_set := ∅; red_set := ∅; blue_score := 0;
     transactions := match create_coinbase_tx (hash_of 1) (Some (hash_of 2)) 3 total with
                     | Ok tx => [tx]
                     | _ => []
                     end |}.

Lemma not_burn_hash_of n : as_bytes (hash_of n) ≠ as_bytes BURN_ADDRESS → not_burn (hash_of n).
Proof. done. Qed.

Lemma coinbase_roundtrip_witness :
  ∃ tx, create_coinbase_tx (hash_of 1) (Some (hash_of 2)) 3 1000 = Ok tx
        ∧ zsum (value <$> outputs tx) = 1000.
Proof.
  destruct (coinbase_roundtrip (coinbase_block 1000) (hash_of 1) (Some (hash_of 2)) 3 1000)
    as (tx & H1 & _ & _ & H2 & _).
  - unfold fits. lia.
  - lia.
  - vm_compute. discriminate.
  - intros p [= <-]. vm_compute. discriminate.
  - exists tx. split; [exact H1|exact H2].
Defined.

Lemma validate_coinbase_spec_witness : coinbase_pays (coinbase_block 1000) 1000.
Proof.
  apply validate_coinbase_spec.
  - unfold fits. lia.
  - intros tx E. assert (Hf : Forall output_fits (default [] (outputs <$> find_coinbase (coinbase_block 1000)))).
    { apply outputs_fit_dec. vm_compute. reflexivity. }
    by rewrite E in Hf.
  - vm_compute. reflexivity.
Defined.

Lemma split_assertions_witness : split_reward 1001 = (800, 201).
Proof.
  pose proof (split_assertions 1001) as H. assert (Hf : fits 64 1001) by (unfold fits; lia).
  specialize (H Hf). vm_compute. reflexivity.
Defined.

(** A spend that pays 1 and claims 100 units of gas at 7: the reward gets 701. *)
Definition gas_spend : Transaction :=
  {| id := hash_of 5; inputs := [sample_input 1 0]; outputs := outputs sample_spend;
     execution_payload := []; contract_address := None; gas_limit := 100; max_fee_per_gas := 7;
     chain_id := 1; locktime := 0 |}.
Definition gas_block : BlockNode :=
  {| header := header (sample_block 1 []); children := ∅; selected_parent := None;
     blue_set := ∅; red_set := ∅; blue_score := 0; transactions := [gas_spend] |}.

Lemma accepted_fees_accounting_witness :
  calculate_accepted_fees gas_block sample_utxo = Ok 701
  ∧ ∃ u', apply_txs sample_utxo [gas_spend] = Ok u' ∧ msum value (utxos u') = 9.
Proof.
  assert (E : calculate_accepted_fees gas_block sample_utxo = Ok 701) by (vm_compute; reflexivity).
  split; [exact E|].
  destruct (accepted_fees_accounting gas_block sample_utxo 701 sample_utxo_fits) as (u' & H1 & _ & H2).
  - repeat constructor; cbn; lia.
  - apply fresh_block_dec. vm_compute. reflexivity.
  - exact E.
  - exists u'. split; [exact H1|].
    assert (H3 : msum value (utxos sample_utxo) = 10) by (vm_compute; reflexivity).
    assert (H4 : zsum (gas_fee <$> spending (transactions gas_block)) = 700) by (vm_compute; reflexivity).
    lia.
Defined.
End witnesses.
