(* ===== verification/Scheduler.v ===== *)
(** * The parallel scheduler

    [scheduler/parallel.rs]: the greedy grouping of transactions by their access
    sets and the conflict detection between groups.  The execution of the groups
    against the state manager is in [GroupExecution.v]. *)

From S2P Require Import Prelude Crypto Errors Transaction.
From Stdlib Require Import Init.Byte.

Record ScheduledTransaction := { tx : Transaction; access_set : AccessSet; sched_index : nat }.

Section scheduler.
Context `{Blake3}.

Definition canonical_order_key (t : Transaction) (ts : Z) : Z * Hash := (ts, id t).

Definition key_leb (x y : Z * Hash) : bool :=
  if x.1 <? y.1 then true else if y.1 <? x.1 then false else hash_leb x.2 y.2.

Definition prepare (txs : list Transaction) : list ScheduledTransaction :=
  (λ p, {| tx := p.2; access_set := generate_access_set p.2; sched_index := p.1 |})
    <$> enumerate txs.

(** The pass over the remaining transactions: those that conflict with none
    chosen before join the group, the others remain. *)
Definition choose (st : list ScheduledTransaction * list ScheduledTransaction)
    (candidate : ScheduledTransaction) : list ScheduledTransaction * list ScheduledTransaction :=
  let '(current_group, rest) := st in
  if existsb (λ existing, has_conflict (access_set existing) (access_set candidate)) current_group
  then (current_group, rest ++ [candidate])
  else (current_group ++ [candidate], rest).

(** [while !remaining.is_empty()]; the fuel is the number of transactions. *)
Fixpoint group_loop (fuel : nat) (remaining : list ScheduledTransaction) :
    list (list ScheduledTransaction) :=
  match fuel with
  | O => []
  | S fuel =>
      match remaining with
      | [] => []
      | _ =>
          let '(current_group, rest) := foldl choose ([], []) remaining in
          let '(current_group, rest) :=
            match current_group, rest with
            | [], first :: rest => ([first], rest)
            | _, _ => (current_group, rest)
            end in
          current_group :: group_loop fuel rest
      end
  end.

Definition schedule_transactions (txs : list Transaction) : list (list ScheduledTransaction) :=
  let scheduled := sort_by (λ x y, key_leb (canonical_order_key (tx x) 0) (canonical_order_key (tx y) 0))
                     (prepare txs) in
  group_loop (length scheduled) scheduled.

(** The union of the access sets of a group. *)
Definition combined_access (group : list ScheduledTransaction) : AccessSet :=
  foldl (λ c s, merge c (access_set s)) AccessSet_new group.

Definition conflicting_pair (sets : list AccessSet) (p : nat * nat) : bool :=
  match sets !! p.1, sets !! p.2 with
  | Some a, Some b => has_conflict a b
  | _, _ => false
  end.

(** The first pair [(i, j)], [i < j], in the order of the two loops. *)
Definition detect_group_conflicts (groups : list (list ScheduledTransaction)) : option (nat * nat) :=
  let sets := combined_access <$> groups in
  head (filter (λ p, conflicting_pair sets p = true)
    (mjoin ((λ i, (λ j, (i, j)) <$> seq (S i) (length sets - S i)) <$> seq 0 (length sets)))).
End scheduler.

(** ** Lemmas *)
Definition conflict (x y : ScheduledTransaction) : Prop :=
  has_conflict (access_set x) (access_set y) = true.

#[global] Instance conflict_sym : Symmetric conflict.
Proof. intros x y. unfold conflict. by rewrite has_conflict_sym. Qed.

#[global] Instance conflict_dec x y : Decision (conflict x y).
Proof. unfold conflict. apply _. Defined.

(** No two transactions of the group conflict. *)
Definition independent (group : list ScheduledTransaction) : Prop :=
  ∀ i j x y, group !! i = Some x → group !! j = Some y → i ≠ j → ¬ conflict x y.

Section grouping.
Context `{Blake3}.

Lemma existsb_conflict (group : list ScheduledTransaction) c :
  existsb (λ existing, has_conflict (access_set existing) (access_set c)) group = true
  ↔ ∃ x, x ∈ group ∧ conflict x c.
Proof. rewrite existsb_exists. unfold conflict. by setoid_rewrite <- list_elem_of_In. Qed.

Lemma independent_snoc group c :
  independent group → (∀ x, x ∈ group → ¬ conflict x c) → independent (group ++ [c]).
Proof.
  intros Hg Hc i j x y Hi Hj Hij.
  apply lookup_app_Some in Hi as [Hi|[Hi Hi']], Hj as [Hj|[Hj Hj']].
  - by eapply Hg.
  - apply list_lookup_singleton_Some in Hj' as [_ <-]. apply Hc. by eapply list_elem_of_lookup_2.
  - apply list_lookup_singleton_Some in Hi' as [_ <-]. intros Hxy%symmetry.
    eapply Hc; [|exact Hxy]. by eapply list_elem_of_lookup_2.
  - apply list_lookup_singleton_Some in Hi' as [? _], Hj' as [? _]. lia.
Qed.

Lemma choose_all l group rest :
  independent group → (∀ x, x ∈ rest → ∃ y, y ∈ group ∧ conflict y x) →
  let '(group', rest') := foldl choose (group, rest) l in
  independent group' ∧ group' ++ rest' ≡ₚ group ++ rest ++ l
  ∧ (∀ x, x ∈ rest' → ∃ y, y ∈ group' ∧ conflict y x)
  ∧ group `prefix_of` group' ∧ (group = [] → l ≠ [] → group' ≠ []).
Proof.
  revert group rest; induction l as [|c l IH]; intros group rest Hg Hr; cbn [foldl].
  { split_and!; try done. by rewrite app_nil_r. }
  cbn [choose]. destruct (existsb _ group) eqn:E.
  - apply existsb_conflict in E as (y & Hy & Hyc).
    specialize (IH group (rest ++ [c]) Hg). destruct (foldl choose _ l) as [group' rest'].
    destruct IH as (H1 & H2 & H3 & H4 & H5).
    { intros x [?| ->%list_elem_of_singleton]%elem_of_app; [by apply Hr|by exists y]. }
    split_and!; try done.
    + rewrite H2. by rewrite <- (assoc_L (++) rest).
    + intros ->. by apply not_elem_of_nil in Hy.
  - assert (Hnc : ∀ x, x ∈ group → ¬ conflict x c).
    { intros x Hx Hxc. apply not_true_iff_false in E. apply E, existsb_conflict. by exists x. }
    specialize (IH (group ++ [c]) rest). destruct (foldl choose _ l) as [group' rest'].
    destruct IH as (H1 & H2 & H3 & H4 & _).
    { by apply independent_snoc. }
    { intros x Hx. destruct (Hr x Hx) as (y & ? & ?). exists y. split; [|done]. apply elem_of_app. by left. }
    split_and!; try done.
    + rewrite H2. rewrite <- (assoc_L (++)). f_equiv. cbn. apply Permutation_middle.
    + etrans; [|exact H4]. by apply prefix_app_r.
    + intros -> _. destruct H4 as [k ->]. by destruct k.
Qed.

(** Consecutive groups: every member of a later one conflicts with a member of
    the first. *)
Lemma group_loop_spec fuel remaining :
  (length remaining ≤ fuel)%nat →
  let groups := group_loop fuel remaining in
  mjoin groups ≡ₚ remaining
  ∧ (∀ g, g ∈ groups → g ≠ [] ∧ independent g)
  ∧ (∀ g gs, groups = g :: gs → ∀ h x, h ∈ gs → x ∈ h → ∃ y, y ∈ g ∧ conflict y x).
Proof.
  revert remaining; induction fuel as [|fuel IH]; intros remaining Hl; cbn [group_loop].
  { destruct remaining; [|cbn in Hl; lia]. split_and!; [done|by intros g ?%not_elem_of_nil|done]. }
  destruct remaining as [|r remaining].
  { split_and!; [done|by intros g ?%not_elem_of_nil|done]. }
  pose proof (choose_all (r :: remaining) [] []) as Hc.
  destruct (foldl choose ([], []) (r :: remaining)) as [group rest].
  destruct Hc as (H1 & H2 & H3 & _ & H5).
  { by intros ????? . }
  { by intros x ?%not_elem_of_nil. }
  assert (Hne : group ≠ []) by by apply H5.
  destruct group as [|g0 group]; [done|].
  assert (Hlen : (length rest ≤ fuel)%nat).
  { apply Permutation_length in H2. rewrite length_app in H2. cbn in *. lia. }
  destruct (IH rest Hlen) as (I1 & I2 & _). split_and!.
  - cbn. rewrite I1. cbn in H2. done.
  - intros g [->|Hg]%elem_of_cons; [done|by apply I2].
  - intros g gs [= <- <-] h x Hh Hx. apply H3. rewrite <- I1.
    apply list_elem_of_join. by exists h.
Qed.

Lemma foldl_merge_conflict l a b :
  has_conflict (foldl (λ c s, merge c (access_set s)) a l) b
  = has_conflict a b || existsb (λ s, has_conflict (access_set s) b) l.
Proof.
  revert a; induction l as [|s l IH]; intros a; cbn; [by rewrite orb_false_r|].
  by rewrite IH, has_conflict_merge_l, orb_assoc.
Qed.

Lemma combined_conflict g h x y :
  x ∈ g → y ∈ h → conflict x y → has_conflict (combined_access g) (combined_access h) = true.
Proof.
  intros Hx Hy Hxy. unfold combined_access. rewrite foldl_merge_conflict, has_conflict_new_l. cbn.
  apply existsb_exists. exists x. split; [by apply list_elem_of_In|].
  rewrite has_conflict_sym, foldl_merge_conflict, has_conflict_new_l. cbn.
  apply existsb_exists. exists y. split; [by apply list_elem_of_In|].
  rewrite has_conflict_sym. exact Hxy.
Qed.

Lemma schedule_txs txs : tx <$> mjoin (schedule_transactions txs) ≡ₚ txs.
Proof.
  unfold schedule_transactions. rewrite (proj1 (group_loop_spec _ _ (Nat.le_refl _))), sort_by_perm.
  unfold prepare. rewrite <- list_fmap_compose.
  assert (E : (tx ∘ (λ p : nat * Transaction, {| tx := p.2; access_set := generate_access_set p.2;
    sched_index := p.1 |})) <$> enumerate txs = txs); [|by rewrite E].
  apply list_eq. intros i. rewrite list_lookup_fmap, enumerate_lookup. by destruct (txs !! i).
Qed.

(** Scheduling ends, loses and repeats nothing, and no two transactions of a
    group conflict; every transaction of a later group conflicts with one of the
    first group. *)
Theorem schedule_correct (txs : list Transaction) :
  tx <$> mjoin (schedule_transactions txs) ≡ₚ txs
  ∧ (∀ g, g ∈ schedule_transactions txs → g ≠ [] ∧ independent g)
  ∧ (∀ g gs, schedule_transactions txs = g :: gs →
       ∀ h x, h ∈ gs → x ∈ h → ∃ y, y ∈ g ∧ conflict y x).
Proof.
  split; [apply schedule_txs|]. unfold schedule_transactions.
  apply (group_loop_spec _ _ (Nat.le_refl _)).
Qed.

(** Whatever is scheduled in more than one group is refused by the conflict
    detection that opens the execution: the groups are made of transactions that
    conflict across groups. *)
Theorem several_groups_conflict (txs : list Transaction)
    (Hg : (2 ≤ length (schedule_transactions txs))%nat) :
  is_Some (detect_group_conflicts (schedule_transactions txs)).
Proof.
  destruct (group_loop_spec _ _ (Nat.le_refl (length (sort_by (λ x y,
    key_leb (canonical_order_key (tx x) 0) (canonical_order_key (tx y) 0)) (prepare txs)))))
    as (_ & Hne & Hc).
  fold (schedule_transactions txs) in Hne, Hc.
  destruct (schedule_transactions txs) as [|g [|h gs]]; cbn in Hg; [lia|lia|].
  destruct (Hne h) as [Hh _]; [right; left|]. destruct h as [|x h]; [done|].
  destruct (Hc g _ eq_refl (x :: h) x) as (y & Hy & Hyx); [left|left|].
  unfold detect_group_conflicts. set (sets := combined_access <$> _). set (pairs := mjoin _).
  destruct (filter _ pairs) as [|p l] eqn:E; [|by eexists].
  exfalso. assert (Hin : (0%nat, 1%nat) ∈ filter (λ p, conflicting_pair sets p = true) pairs); [|rewrite E in Hin; by apply not_elem_of_nil in Hin].
  apply list_elem_of_filter. split.
  - cbn. apply (combined_conflict g (x :: h) y x); [done|left|done].
  - subst pairs sets. cbn [fmap list_fmap length]. apply elem_of_app. left. left.
Qed.

(** Double spends are invisible to the scheduler.  Plain transactions with
    different ids never conflict (no collision among their keys), whatever
    outpoints they spend: a key is made of the transaction's own id. *)
Theorem plain_transactions_never_conflict (a b : Transaction)
    (Ha : contract_address a = None) (Hb : contract_address b = None) (Hid : id a ≠ id b)
    (Hcf : collision_free (λ l, ∃ (t : Transaction) (i : nat), t ∈ [a; b]
       ∧ l = as_bytes (id t) ++ be_bytes 4 (Z.of_nat i))) :
  has_conflict (generate_access_set a) (generate_access_set b) = false.
Proof.
  assert (Hdis : ∀ n m, index_keys a n ## index_keys b m).
  { intros n m k (i & _ & ->)%elem_of_index_keys (j & _ & E)%elem_of_index_keys.
    unfold hash_with_index, Hash_new in E. apply Hcf in E.
    - apply app_inj_1 in E as [E%as_bytes_inj _]; [done|by rewrite !as_bytes_length].
    - exists a, i. split; [left|done].
    - exists b, j. split; [right; left|done]. }
  rewrite !generate_access_set_plain by done. apply has_conflict_false. cbn.
  split_and!; [done|done|]. apply disjoint_sym, Hdis.
Qed.
End grouping.

(** ** Examples *)
Section witnesses.
#[local] Existing Instance toy_blake3.

(** Two transactions with the same id, hence the same keys. *)
Definition clash : list Transaction :=
  [sample_tx 5 [sample_input 1 0] [1] 0; sample_tx 5 [sample_input 1 1] [2] 0].

Lemma several_groups_conflict_witness : is_Some (detect_group_conflicts (schedule_transactions clash)).
Proof.
  apply several_groups_conflict. apply (bool_decide_unpack _). vm_compute. exact I.
Defined.
End witnesses.

(** The example digest keeps short strings apart by their tail: enough for the
    keys of two transactions. *)
Section plain_witness.
Definition tail_blake3 : Blake3 := λ l, to_bytes32 (take 1 l ++ drop 32 l).
#[local] Existing Instance tail_blake3.

Lemma plain_transactions_never_conflict_witness :
  has_conflict (generate_access_set (sample_tx 5 [sample_input 1 0] [1] 0))
    (generate_access_set (sample_tx 6 [sample_input 1 0] [1] 0)) = false
  ∧ outpoint_of (sample_input 1 0) = outpoint_of (sample_input 1 0).
Proof.
  split; [|reflexivity]. apply plain_transactions_never_conflict; try reflexivity.
  - intros E. apply (f_equal as_bytes) in E. vm_compute in E. discriminate.
  - intros x y (t & i & Ht & ->) (t' & i' & Ht' & ->) E.
    apply (f_equal as_bytes) in E. unfold blake3, tail_blake3 in E.
    assert (Hd : ∀ (h : Hash) l, drop 32 (as_bytes h ++ l) = l).
    { intros h l. by rewrite drop_app_length' by by rewrite as_bytes_length. }
    rewrite !Hd in E.
    assert (Hs : ∀ (h : Hash) l, take 1 (as_bytes h ++ l) = take 1 (as_bytes h)).
    { intros h l. rewrite take_app_le; [done|]. rewrite as_bytes_length. lia. }
    rewrite !Hs in E.
    assert (Hl : ∀ (h : Hash) k, length (take 1 (as_bytes h) ++ be_bytes 4 k) = 5%nat).
    { intros h k. rewrite length_app, be_bytes_length, length_take, as_bytes_length. lia. }
    assert (Hp : ∀ l, as_bytes (to_bytes32 l) = pad32 l) by done. rewrite !Hp in E. unfold pad32 in E.
    rewrite !take_app_ge in E by (rewrite Hl; lia). rewrite !Hl in E.
    apply app_inj_2 in E as [E _]; [|done].
    apply app_inj_1 in E as [E1 E2]; [|by rewrite !length_take, !as_bytes_length].
    rewrite E2. f_equal.
    repeat (apply elem_of_cons in Ht as [->|Ht]; [|]); try by apply not_elem_of_nil in Ht.
    all: repeat (apply elem_of_cons in Ht' as [->|Ht']; [|]); try by apply not_elem_of_nil in Ht'.
    all: vm_compute in E1; discriminate || reflexivity.
Defined.
End plain_witness.
