(* ===== verification/GasMeter.v ===== *)
(** * Gas metering

    [vm/gas_meter.rs]: the meter, its charges and the capped refund.  The
    remaining gas is an [i128], a [Z] here: it starts as a [u64] and one run
    cannot leave the range.  The opcode table is over the enumeration of a
    crate and is not modelled. *)

From S2P Require Import Prelude.
From Stdlib Require Import Init.Byte.

Inductive VMError :=
| OutOfGas
| RuntimeError (msg : string)
| StateError (msg : string)
| WasmError (msg : string).

Record GasMeter := {
  initial : Z;
  remaining : Z;
  consumed_wasm : Z;
  consumed_host : Z;
  refund : Z
}.

Definition INTRINSIC_GAS : Z := 21000.
Definition STATE_READ_COST : Z := 2100.
Definition STATE_WRITE_NEW_COST : Z := 20000.
Definition STATE_WRITE_UPDATE_COST : Z := 5000.
Definition SELF_DESTRUCT_REFUND : Z := 24000.

Definition GasMeter_new (gas_limit : Z) : GasMeter :=
  {| initial := gas_limit; remaining := gas_limit; consumed_wasm := 0; consumed_host := 0;
     refund := 0 |}.

Definition gas_method := method GasMeter VMError unit.

(** [if self.remaining < 0 { Err(OutOfGas) } else { Ok(()) }] *)
Definition check_remaining : gas_method :=
  r ← gets remaining; if r <? 0 then throw OutOfGas else mret tt.

Definition consume_host (cost : Z) : gas_method :=
  _ ← modify (λ g, {| initial := initial g; remaining := remaining g - cost;
                      consumed_wasm := consumed_wasm g;
                      consumed_host := sat_add 64 (consumed_host g) cost; refund := refund g |});
  check_remaining.

Definition consume_opcode (opcode_cost : Z) : gas_method :=
  _ ← modify (λ g, {| initial := initial g; remaining := remaining g - opcode_cost;
                      consumed_wasm := sat_add 64 (consumed_wasm g) opcode_cost;
                      consumed_host := consumed_host g; refund := refund g |});
  check_remaining.

Definition charge_intrinsic : gas_method := consume_host INTRINSIC_GAS.

Definition payload_cost (payload : list byte) : Z :=
  foldl (λ total_cost byte, sat_add 64 total_cost (if byte_Z byte =? 0 then 4 else 16)) 0 payload.

Definition charge_payload (payload : list byte) : gas_method := consume_host (payload_cost payload).

Definition charge_state_read : gas_method := consume_host STATE_READ_COST.

Definition charge_state_write (is_new : bool) : gas_method :=
  consume_host (if is_new then STATE_WRITE_NEW_COST else STATE_WRITE_UPDATE_COST).

Definition charge_wasm (cost : Z) : gas_method :=
  _ ← consume_host cost;
  modify (λ g, {| initial := initial g; remaining := remaining g;
                  consumed_wasm := sat_add 64 (consumed_wasm g) cost;
                  consumed_host := consumed_host g; refund := refund g |}).

Definition refund_self_destruct (g : GasMeter) : GasMeter :=
  {| initial := initial g; remaining := remaining g; consumed_wasm := consumed_wasm g;
     consumed_host := consumed_host g; refund := sat_add 64 (refund g) SELF_DESTRUCT_REFUND |}.

(** [(initial - remaining) as u64] *)
Definition get_used (g : GasMeter) : Z := wrap 64 (initial g - remaining g).

Definition get_consumed_host (g : GasMeter) : Z := consumed_host g.

Definition finalize (g : GasMeter) (total_used : Z) : Z * Z :=
  let max_refund := total_used / 5 in
  let actual_refund := Z.min (refund g) max_refund in
  (sat_sub total_used actual_refund, actual_refund).

(** ** Sequences of charges *)
Inductive charge :=
| Intrinsic
| Payload (payload : list byte)
| StateRead
| StateWrite (is_new : bool)
| Wasm (cost : Z)
| Opcode (cost : Z)
| SelfDestruct.

Definition run_charge (c : charge) : gas_method :=
  match c with
  | Intrinsic => charge_intrinsic
  | Payload payload => charge_payload payload
  | StateRead => charge_state_read
  | StateWrite is_new => charge_state_write is_new
  | Wasm cost => charge_wasm cost
  | Opcode cost => consume_opcode cost
  | SelfDestruct => modify refund_self_destruct
  end.

Definition cost_of (c : charge) : Z :=
  match c with
  | Intrinsic => INTRINSIC_GAS
  | Payload payload => payload_cost payload
  | StateRead => STATE_READ_COST
  | StateWrite is_new => if is_new then STATE_WRITE_NEW_COST else STATE_WRITE_UPDATE_COST
  | Wasm cost => cost
  | Opcode cost => cost
  | SelfDestruct => 0
  end.

Definition charge_fits (c : charge) : Prop :=
  match c with Wasm cost | Opcode cost => fits 64 cost | _ => True end.

Lemma payload_cost_bounds payload : 0 ≤ payload_cost payload < 2 ^ 64.
Proof.
  unfold payload_cost. enough (H : ∀ acc, 0 ≤ acc < 2 ^ 64 →
    0 ≤ foldl (λ t b, sat_add 64 t (if byte_Z b =? 0 then 4 else 16)) acc payload < 2 ^ 64)
    by (apply H; lia).
  induction payload as [|b l IH]; intros acc Hacc; cbn [foldl]; [done|]. apply IH.
  unfold sat_add. destruct (_ =? _); lia.
Qed.

Lemma cost_bounds c : charge_fits c → fits 64 (cost_of c).
Proof.
  destruct c; cbn; unfold fits; try done.
  all: unfold INTRINSIC_GAS, STATE_READ_COST, STATE_WRITE_NEW_COST, STATE_WRITE_UPDATE_COST.
  all: try (pose proof (payload_cost_bounds payload)); try destruct is_new; lia.
Qed.

Lemma run_charge_spec c g :
  charge_fits c → 0 ≤ remaining g →
  ∃ g', run_charge c g = (if remaining g <? cost_of c then Err OutOfGas else Ok tt, g')
  ∧ initial g' = initial g ∧ remaining g' = remaining g - cost_of c.
Proof.
  intros Hf Hr. pose proof (cost_bounds c Hf) as Hc.
  assert (Hhost : ∀ cost, ∃ g', consume_host cost g
      = (if remaining g <? cost then Err OutOfGas else Ok tt, g')
    ∧ initial g' = initial g ∧ remaining g' = remaining g - cost).
  { intros cost. unfold consume_host. erewrite method_bind_run by done.
    unfold check_remaining. erewrite method_bind_run by done. cbn [remaining].
    destruct (Z.ltb_spec (remaining g - cost) 0), (Z.ltb_spec (remaining g) cost); try lia;
      (eexists; split; [reflexivity|done]). }
  destruct c as [|payload| |is_new|cost|cost|]; cbn [run_charge cost_of].
  - apply Hhost.
  - apply Hhost.
  - apply Hhost.
  - apply Hhost.
  - unfold charge_wasm. destruct (Hhost cost) as (g1 & E & H1 & H2).
    destruct (remaining g <? cost).
    + rewrite (method_bind_stop _ _ _ _ _ E). by exists g1.
    + rewrite (method_bind_run _ _ _ _ _ E). eexists. split; [reflexivity|]. by cbn.
  - unfold consume_opcode. erewrite method_bind_run by done.
    unfold check_remaining. erewrite method_bind_run by done. cbn [remaining].
    destruct (Z.ltb_spec (remaining g - cost) 0), (Z.ltb_spec (remaining g) cost); try lia;
      (eexists; split; [reflexivity|done]).
  - rewrite (proj2 (Z.ltb_ge _ _)) by lia. eexists. split; [reflexivity|]. cbn. split; [done|lia].
Qed.

Definition total_cost (cs : list charge) : Z := zsum (cost_of <$> cs).

Lemma run_charges_spec cs g :
  Forall charge_fits cs → 0 ≤ remaining g →
  ∃ r g', for_each run_charge cs g = (r, g') ∧ initial g' = initial g
  ∧ (r = Ok tt ↔ total_cost cs ≤ remaining g) ∧ (r = Ok tt ∨ r = Err OutOfGas)
  ∧ (r = Ok tt → remaining g' = remaining g - total_cost cs)
  ∧ (r = Err OutOfGas → ∃ pre c post, cs = pre ++ c :: post ∧ total_cost pre ≤ remaining g
       ∧ remaining g' = remaining g - total_cost (pre ++ [c]) ∧ remaining g' < 0).
Proof.
  intros Hf; revert g; induction Hf as [|c cs Hc Hf IH]; intros g Hg.
  { exists (Ok tt), g. split_and!; try done; [by left|unfold total_cost; cbn; lia]. }
  destruct (run_charge_spec c g Hc Hg) as (g1 & E & Hi & Hr). cbn [for_each].
  pose proof (cost_bounds c Hc) as Hb.
  assert (Hn : 0 ≤ total_cost cs).
  { apply zsum_nonneg, Forall_fmap. eapply Forall_impl; [exact Hf|]. intros x Hx. apply (cost_bounds x Hx). }
  assert (Ht : ∀ l, total_cost (c :: l) = cost_of c + total_cost l) by done.
  destruct (Z.ltb_spec (remaining g) (cost_of c)) as [Hlt|Hge].
  - rewrite (method_bind_stop _ _ _ _ _ E). exists (Err OutOfGas), g1.
    split_and!; try done; [split; [done|rewrite Ht; lia]|by right|].
    intros _. exists [], c, cs. split_and!; [done|unfold total_cost; cbn; lia| |lia].
    cbn [app]. rewrite Ht. unfold total_cost. cbn. lia.
  - rewrite (method_bind_run _ _ _ _ _ E). destruct (IH g1) as (r & g' & E2 & H1 & H2 & H3 & H4 & H5); [lia|].
    exists r, g'. split_and!; [done|congruence|rewrite H2, Ht; lia|done|rewrite Ht; intros; rewrite H4 by done; lia|].
    intros Hr'. destruct (H5 Hr') as (pre & c' & post & -> & Hp & Hrem & Hneg).
    exists (c :: pre), c', post. split_and!; [done|rewrite Ht; lia| |done].
    cbn [app]. rewrite Ht. lia.
Qed.

(** Metering is exact.  A sequence of charges succeeds exactly when its total
    fits the limit; then the gas used is that total.  Otherwise it stops at the
    first charge that exceeds the limit, which is still counted. *)
Theorem gas_accounting (limit : Z) (cs : list charge)
    (Hl : fits 64 limit) (Hf : Forall charge_fits cs) :
  let '(r, g) := for_each run_charge cs (GasMeter_new limit) in
  (r = Ok tt ∧ total_cost cs ≤ limit ∧ get_used g = total_cost cs ∧ remaining g = limit - total_cost cs)
  ∨ (r = Err OutOfGas ∧ limit < total_cost cs ∧ ∃ pre c post, cs = pre ++ c :: post
     ∧ total_cost pre ≤ limit < total_cost (pre ++ [c])
     ∧ initial g - remaining g = total_cost (pre ++ [c])).
Proof.
  destruct (run_charges_spec cs (GasMeter_new limit) Hf) as (r & g & E & H1 & H2 & H3 & H4 & H5);
    [cbn; unfold fits in Hl; lia|]. rewrite E. cbn [remaining initial GasMeter_new] in *.
  destruct H3 as [->| ->].
  - left. pose proof (proj1 H2 eq_refl) as Ht. rewrite (H4 eq_refl). split_and!; try done.
    unfold get_used. rewrite H1, (H4 eq_refl). rewrite wrap_small; [lia|].
    assert (0 ≤ total_cost cs).
    { apply zsum_nonneg, Forall_fmap. eapply Forall_impl; [exact Hf|]. intros x Hx. apply (cost_bounds x Hx). }
    unfold fits in *. lia.
  - right. destruct (H5 eq_refl) as (pre & c & post & -> & Hp & Hr & Hn). split; [done|]. split.
    + destruct (Z.lt_ge_cases limit (total_cost (pre ++ c :: post))) as [|Hge]; [done|].
      apply H2 in Hge. done.
    + exists pre, c, post. split; [done|]. rewrite H1, Hr in *. lia.
Qed.

(** The refund is at most a fifth of the gas used, and is what finalization
    takes off. *)
Theorem refund_capped (g : GasMeter) (total_used : Z) (Hr : 0 ≤ refund g) (Ht : 0 ≤ total_used) :
  let '(net_used, actual_refund) := finalize g total_used in
  net_used + actual_refund = total_used ∧ 0 ≤ actual_refund ≤ refund g
  ∧ 5 * actual_refund ≤ total_used.
Proof.
  unfold finalize, sat_sub. pose proof (Z.div_mod total_used 5 ltac:(lia)).
  pose proof (Z.mod_pos_bound total_used 5 ltac:(lia)). lia.
Qed.

Lemma gas_accounting_witness :
  (for_each run_charge [Intrinsic; StateRead; Opcode 3] (GasMeter_new 23000)).1 = Err OutOfGas.
Proof.
  pose proof (gas_accounting 23000 [Intrinsic; StateRead; Opcode 3]) as H.
  destruct (for_each run_charge _ _) as [r g].
  destruct H as [(_ & H & _)|(-> & _)]; [unfold fits; lia| | |reflexivity].
  - repeat (apply Forall_cons; split; [cbn; unfold fits; try lia; exact I|]); constructor.
  - exfalso. vm_compute in H. by apply H.
Defined.

Lemma refund_capped_witness : finalize (refund_self_destruct (GasMeter_new 0)) 100 = (80, 20).
Proof.
  pose proof (refund_capped (refund_self_destruct (GasMeter_new 0)) 100) as H.
  assert (0 ≤ refund (refund_self_destruct (GasMeter_new 0))) as H0 by (vm_compute; discriminate).
  specialize (H H0 ltac:(lia)). reflexivity.
Defined.
