(* ===== verification/Vm.v ===== *)
(** * The contract executor

    [vm/executor.rs] and the host accessors of [state_manager.rs]
    ([state_read], [state_write]): the execution of a payload on the state tree,
    with its gas, its three host functions and its rollback.

    The WebAssembly engine ([wasmer], with its metering middleware) is a
    parameter, [Wasm]: what an instantiated module does between two calls of a
    host function is a tree of events, [guest].  Each event carries what the
    host sees at that moment (the metering points left, whether the instance
    exports a memory, and what reading it returns), and each continuation takes
    what the host gives back.  Metering makes every run finite, so the tree is well founded. *)

From S2P Require Import Prelude Crypto Errors Transaction Economics State VerkleTree VerkleProofs GasMeter.
From Stdlib Require Import Init.Byte.

(** [get_remaining_points]: [Remaining] or [Exhausted]. *)
Definition MeteringPoints : Type := option Z.

Inductive guest : Type :=
(** [run] returns *)
| GReturn (points : MeteringPoints)
(** the run traps, with the engine's message *)
| GTrap (msg : string)
(** [klomang_state_read(key_ptr, key_len, out_ptr, out_len)]: what the memory
    read of the key gives, and whether a value can be written at [out_ptr] *)
| GStateRead (points : MeteringPoints) (memory : bool) (key_len : Z)
    (key : outcome string (list byte)) (out_len : Z) (write : list byte → outcome string unit)
    (resume : Z → option (list byte) → guest)
(** [klomang_state_write(key_ptr, key_len, data_ptr, data_len)] *)
| GStateWrite (points : MeteringPoints) (memory : bool) (key_len : Z)
    (key : outcome string (list byte)) (data_len : Z) (data : outcome string (list byte))
    (resume : Z → guest)
(** [klomang_self_destruct(key_ptr, key_len)] *)
| GSelfDestruct (points : MeteringPoints) (memory : bool) (key_len : Z)
    (key : outcome string (list byte)) (resume : guest).

(** [Module::new], [Instance::new], and the call of the export [run] with the
    given metering points. *)
Class Wasm := {
  Module_new : list byte → outcome string unit;
  Instance_new : list byte → outcome string unit;
  run_export : list byte → outcome string (Z → guest)
}.

(** [substring ∈ msg] *)
Definition contains (sub msg : string) : bool :=
  match String.index 0 sub msg with Some _ => true | None => false end.

Section vm.
Context `{Blake3} `{Commitments} `{Wasm} {S : Type} `{Storage S}.

(** The tree, the host's meter and the metering points during a run. *)
Record HostState := {
  host_tree : VerkleTree (S := S);
  host_gas : GasMeter;
  host_points : MeteringPoints
}.
Definition set_host_tree (t : VerkleTree) (h : HostState) : HostState :=
  {| host_tree := t; host_gas := host_gas h; host_points := host_points h |}.
Definition set_host_gas (g : GasMeter) (h : HostState) : HostState :=
  {| host_tree := host_tree h; host_gas := g; host_points := host_points h |}.
Definition set_host_points (p : MeteringPoints) (h : HostState) : HostState :=
  {| host_tree := host_tree h; host_gas := host_gas h; host_points := p |}.

(** A host function: its error is a [RuntimeError]'s message. *)
Definition hosted (A : Type) : Type := method HostState string A.

(** ** [StateManager]'s accessors *)
Definition state_read (t : VerkleTree (S := S)) (key : bytes32) : outcome string (option (list byte)) :=
  map_err fmt (get_key t key).
Definition state_write (key : bytes32) (v : list byte) (t : VerkleTree (S := S)) : VerkleTree :=
  insert_key key v t.

(** ** Host functions *)
Definition on_gas (m : method GasMeter VMError unit) : hosted unit :=
  rethrow (λ _, "OutOfGas") (zoom host_gas set_host_gas m).

Definition charge_metering_from_host (cost : Z) : hosted unit :=
  points ← gets host_points;
  match points with
  | None => throw "OutOfGas"
  | Some rem => if rem <? cost then throw "OutOfGas" else modify (set_host_points (Some (rem - cost)))
  end.

(** [vec![0u8; len as usize]]: an [i32] below zero becomes a length above
    [isize::MAX]. *)
Definition alloc (len : Z) : hosted unit := if len <? 0 then panic "capacity overflow" else mret tt.

(** [instance.exports.get_memory] *)
Definition get_memory (memory : bool) : hosted unit := if memory then mret tt else throw "Memory missing".

(** A key of 32 bytes is used as it is, any other is digested. *)
Definition key_bytes (key_len : Z) (key : list byte) : bytes32 :=
  if key_len =? 32 then to_bytes32 key else blake3 key.

Definition klomang_state_read (memory : bool) (key_len : Z) (key : outcome string (list byte)) (out_len : Z)
    (write : list byte → outcome string unit) : hosted (option (list byte)) :=
  _ ← on_gas charge_state_read;
  _ ← charge_metering_from_host STATE_READ_COST;
  _ ← get_memory memory;
  _ ← alloc key_len;
  k ← lift key;
  h ← get;
  v ← lift (map_err (λ _, "State read error: {}") (state_read (host_tree h) (key_bytes key_len k)));
  match v with
  | Some v =>
      if wrap 64 out_len <? Z.of_nat (length v) then throw "Output buffer too small"
      else _ ← lift (write v); mret (Some v)
  | None => mret None
  end.

Definition klomang_state_write (memory : bool) (key_len : Z) (key : outcome string (list byte)) (data_len : Z)
    (data : outcome string (list byte)) : hosted unit :=
  _ ← get_memory memory;
  _ ← alloc key_len;
  k ← lift key;
  _ ← alloc data_len;
  d ← lift data;
  h ← get;
  existing_value ← lift (map_err (λ _, "State read for write failed: {}")
                     (state_read (host_tree h) (key_bytes key_len k)));
  let is_new := match existing_value with None => true | Some _ => false end in
  _ ← on_gas (charge_state_write is_new);
  let state_write_cost := if is_new then STATE_WRITE_NEW_COST else STATE_WRITE_UPDATE_COST in
  _ ← charge_metering_from_host state_write_cost;
  modify (λ h, set_host_tree (state_write (key_bytes key_len k) d (host_tree h)) h).

Definition klomang_self_destruct (memory : bool) (key_len : Z) (key : outcome string (list byte)) : hosted unit :=
  _ ← get_memory memory;
  _ ← alloc key_len;
  k ← lift key;
  _ ← modify (λ h, set_host_gas (refund_self_destruct (host_gas h)) h);
  modify (λ h, set_host_tree (prune_key (key_bytes key_len k) (host_tree h)).2 h).

(** The run of the guest: the points left when it returns, or a trap. *)
Fixpoint run_guest (g : guest) : hosted MeteringPoints :=
  match g with
  | GReturn points => mret points
  | GTrap msg => throw msg
  | GStateRead points memory key_len key out_len write resume =>
      _ ← modify (set_host_points points);
      v ← klomang_state_read memory key_len key out_len write;
      p ← gets host_points;
      run_guest (resume (default 0 p) v)
  | GStateWrite points memory key_len key data_len data resume =>
      _ ← modify (set_host_points points);
      _ ← klomang_state_write memory key_len key data_len data;
      p ← gets host_points;
      run_guest (resume (default 0 p))
  | GSelfDestruct points memory key_len key resume =>
      _ ← modify (set_host_points points);
      _ ← klomang_self_destruct memory key_len key;
      run_guest resume
  end.

(** ** Execution *)
Definition trap_error (msg : string) : VMError :=
  if contains "OutOfGas" msg || contains "out of gas" msg then OutOfGas else RuntimeError msg.

(** From the instantiation on: every error puts the snapshot back. *)
Definition run_instance (tree_snapshot : VerkleTree) (wasm_bytes : list byte) (gas_limit : Z)
    (gas : GasMeter) : method VerkleTree VMError Z := λ t,
  match Instance_new wasm_bytes with
  | Err e => (Err (RuntimeError e), tree_snapshot)
  | Panic p => (Panic p, t)
  | Ok _ =>
      let remaining_for_wasm := sat_sub gas_limit (get_consumed_host gas) in
      match run_export wasm_bytes with
      | Err e => (Err (RuntimeError e), tree_snapshot)
      | Panic p => (Panic p, t)
      | Ok run =>
          let h := {| host_tree := t; host_gas := gas; host_points := Some remaining_for_wasm |} in
          match run_guest (run remaining_for_wasm) h with
          | (Ok (Some remaining_points), h) =>
              let total_used := sat_sub gas_limit remaining_points in
              (Ok (finalize (host_gas h) total_used).1, host_tree h)
          | (Ok None, h) => (Err OutOfGas, tree_snapshot)
          | (Err msg, h) => (Err (trap_error msg), tree_snapshot)
          | (Panic p, h) => (Panic p, host_tree h)
          end
      end
  end.

Definition execute (wasm_bytes : list byte) (gas_limit : Z) : method VerkleTree VMError Z :=
  self ← get;
  tree_snapshot ← lift (match VerkleTree_clone self with
                        | Ok t => Ok t
                        | Err _ => Panic "failed to clone VerkleTree"
                        | Panic p => Panic p
                        end);
  match (_ ← charge_intrinsic; charge_payload wasm_bytes) (GasMeter_new gas_limit) with
  | (Err e, _) => throw e
  | (Panic p, _) => panic p
  | (Ok _, gas) =>
      _ ← lift (map_err WasmError (Module_new wasm_bytes));
      run_instance tree_snapshot wasm_bytes gas_limit gas
  end.
End vm.

(** ** Runs are sequences of tree operations *)
Section runs.
Context `{Blake3} `{Commitments} `{Wasm} {S : Type} `{HS : Storage S} `{!StorageLaws S}.
Implicit Types (t : VerkleTree (S := S)) (h : HostState (S := S)).

(** The tree was reached from [t0] by insertions and prunings. *)
Definition reached t0 h : Prop := ∃ ops, host_tree h = foldl run_op t0 ops.

Lemma reached_op t0 h op f :
  reached t0 h → host_tree (f h) = run_op (host_tree h) op → reached t0 (f h).
Proof. intros [ops E] Ef. exists (ops ++ [op]). by rewrite foldl_app, <- E, Ef. Qed.

Lemma reached_same t0 h f : reached t0 h → host_tree (f h) = host_tree h → reached t0 (f h).
Proof. intros [ops E] Ef. exists ops. congruence. Qed.

Lemma on_gas_reached t0 m : preserves (reached t0) (on_gas m).
Proof.
  intros h Hh. unfold on_gas, rethrow, zoom. destruct (m (host_gas h)) as [r g]. cbn [snd].
  by apply (reached_same t0 h (set_host_gas g)).
Qed.

Lemma metering_reached t0 cost : preserves (reached t0) (charge_metering_from_host cost).
Proof.
  unfold charge_metering_from_host. keeps.
Qed.

Lemma alloc_reached t0 len : preserves (reached t0) (alloc len).
Proof. unfold alloc. keeps. Qed.
Lemma memory_reached t0 b : preserves (reached t0) (get_memory b).
Proof. unfold get_memory. keeps. Qed.
#[local] Hint Resolve on_gas_reached metering_reached alloc_reached memory_reached : keeps.

Lemma points_reached t0 points : preserves (E:=string) (reached t0) (modify (set_host_points points)).
Proof. apply preserves_modify. intros h Hh. by apply (reached_same t0 h (set_host_points points)). Qed.
#[local] Hint Resolve points_reached : keeps.

Lemma run_guest_reached t0 g : preserves (reached t0) (run_guest g).
Proof.
  induction g as [| |points memory key_len key out_len write resume IH
                 |points memory key_len key data_len data resume IH
                 |points memory key_len key resume IH]; cbn [run_guest]; keeps.
  - intros h Hh. match goal with |- context [state_write ?k ?d _] =>
      by apply (reached_op t0 h (OpInsert k d) (λ h, set_host_tree (state_write k d (host_tree h)) h)) end.
  - intros h Hh. match goal with |- context [prune_key ?k _] =>
      by apply (reached_op t0 h (OpPrune k) (λ h, set_host_tree (prune_key k (host_tree h)).2 h)) end.
Qed.

(** ** Execution *)
Lemma prepaid_ok payload limit g :
  fits 64 limit →
  (_ ← charge_intrinsic; charge_payload payload) (GasMeter_new limit) = (Ok tt, g) →
  consumed_host g = INTRINSIC_GAS + payload_cost payload
  ∧ INTRINSIC_GAS + payload_cost payload ≤ limit ∧ refund g = 0.
Proof.
  intros Hl Hrun. pose proof (payload_cost_bounds payload) as Hp. unfold fits in Hl.
  unfold charge_intrinsic, charge_payload in Hrun. generalize dependent (payload_cost payload).
  intros cost Hrun Hc. unfold consume_host, check_remaining, mbind, method_bind, modify, gets in Hrun.
  cbn in Hrun. unfold INTRINSIC_GAS in *.
  destruct (Z.ltb_spec (limit - 21000) 0); [done|]. cbn in Hrun.
  destruct (Z.ltb_spec (limit - 21000 - cost) 0); [done|]. injection Hrun as <-.
  cbn [consumed_host refund]. unfold sat_add. lia.
Qed.

Lemma finalize_bounds g total : 0 ≤ refund g → 0 ≤ total →
  0 ≤ (finalize g total).1 ≤ total ∧ 4 * total ≤ 5 * (finalize g total).1.
Proof.
  intros Hr Ht. unfold finalize. cbn [fst]. unfold sat_sub.
  pose proof (Z.div_mod total 5 ltac:(lia)). pose proof (Z.mod_pos_bound total 5 ltac:(lia)). lia.
Qed.

(** The refund counter never becomes negative. *)
Definition refund_ok h : Prop := 0 ≤ refund (host_gas h).

Lemma consume_host_refund cost g : refund (consume_host cost g).2 = refund g.
Proof.
  unfold consume_host, check_remaining, mbind, method_bind, modify, gets. cbn. by destruct (_ <? 0).
Qed.

Lemma run_guest_refund g : preserves (S:=HostState (S:=S)) refund_ok (run_guest g).
Proof.
  assert (Hgas : ∀ cost, preserves (S:=HostState (S:=S)) refund_ok (on_gas (consume_host cost))).
  { intros cost h Hh. unfold on_gas, rethrow, zoom. pose proof (consume_host_refund cost (host_gas h)) as E.
    destruct (consume_host cost (host_gas h)) as [r m]. unfold refund_ok in *. cbn in *. by rewrite E. }
  assert (Hread : preserves (S:=HostState (S:=S)) refund_ok (on_gas charge_state_read)) by apply Hgas.
  assert (Hwrite : ∀ n, preserves (S:=HostState (S:=S)) refund_ok (on_gas (charge_state_write n)))
    by (intros; apply Hgas).
  induction g; cbn [run_guest]; keeps.
  all: try (unfold charge_metering_from_host, alloc, get_memory; keeps).
  intros h Hh. unfold refund_ok in *. cbn. unfold sat_add, SELF_DESTRUCT_REFUND. lia.
Qed.

(** Whatever happens, the tree stays well formed. *)
Lemma execute_keeps payload limit t :
  tree_ok t → frame_ok t → tree_ok (execute payload limit t).2 ∧ frame_ok (execute payload limit t).2.
Proof.
  intros Ht Hf. unfold execute. erewrite method_bind_run by done. unfold lift.
  destruct (clone_same t Hf) as (c & -> & Hc & Hct & Hcf). erewrite method_bind_run by done.
  destruct ((_ ← charge_intrinsic; charge_payload payload) (GasMeter_new limit)) as [[[]|e|x] gas]; [|done..].
  destruct (Module_new payload) as [[]|e|x]; [|done..]. erewrite method_bind_run by done.
  unfold run_instance. destruct (Instance_new payload) as [?|e|x]; [|done..].
  destruct (run_export payload) as [run|e|x]; [|done..]. cbn zeta.
  match goal with |- context [run_guest ?g ?h] =>
    pose proof (run_guest_reached t g h ltac:(by exists [])) as [ops E];
    destruct (run_guest g h) as [[[q|]|msg|x] h'] end; cbn [snd] in *; try done.
  all: rewrite E; split; [by apply run_ok|by apply run_frame].
Qed.

(** The metering middleware only takes points: a guest that had [p] never shows
    more than [p]. *)
Definition within (p : Z) (points : MeteringPoints) : Prop := ∀ q, points = Some q → 0 ≤ q ≤ p.

Fixpoint honest (p : Z) (g : guest) : Prop :=
  match g with
  | GReturn points => within p points
  | GTrap _ => True
  | GStateRead points _ _ _ _ _ resume =>
      within p points ∧ ∀ q v, 0 ≤ q ≤ default p points → honest q (resume q v)
  | GStateWrite points _ _ _ _ _ resume =>
      within p points ∧ ∀ q, 0 ≤ q ≤ default p points → honest q (resume q)
  | GSelfDestruct points _ _ _ resume => within p points ∧ honest (default p points) resume
  end.

(** A host call charged [cost] from the points shown. *)
Lemma metering_points cost h u h' :
  0 ≤ cost → charge_metering_from_host cost h = (Ok u, h') →
  ∃ q, host_points h = Some q ∧ cost ≤ q ∧ host_points h' = Some (q - cost).
Proof.
  intros Hc. unfold charge_metering_from_host, mbind, method_bind, gets.
  destruct (host_points h) as [q|]; [|done]. destruct (Z.ltb_spec q cost); [done|].
  intros [= _ <-]. exists q. by split_and!.
Qed.

(** A method that leaves the points alone. *)
Definition keeps_points {A} (m : hosted (S:=S) A) : Prop :=
  ∀ h a h', m h = (Ok a, h') → host_points h' = host_points h.

Lemma preserves_points {A} (m : hosted (S:=S) A) :
  (∀ p, preserves (λ h, host_points h = p) m) → keeps_points m.
Proof. intros Hm h a h' E. specialize (Hm _ h eq_refl). by rewrite E in Hm. Qed.

Lemma on_gas_points m p : preserves (λ h : HostState (S:=S), host_points h = p) (on_gas m).
Proof. intros h Hh. unfold on_gas, rethrow, zoom. by destruct (m (host_gas h)). Qed.
#[local] Hint Resolve on_gas_points : keeps.

Lemma state_read_points memory key_len key out_len write h v h' :
  klomang_state_read memory key_len key out_len write h = (Ok v, h') →
  ∃ q, host_points h = Some q ∧ STATE_READ_COST ≤ q ∧ host_points h' = Some (q - STATE_READ_COST).
Proof.
  unfold klomang_state_read. intros Hrun.
  apply method_bind_ok in Hrun as (u & h1 & E1 & Hrun).
  apply method_bind_ok in Hrun as (u2 & h2 & E2 & Hrun).
  apply metering_points in E2 as (q & Hq & Hle & Hq'); [|done].
  exists q. rewrite <- Hq'. split_and!; [|done|].
  - rewrite <- Hq. symmetry. eapply preserves_points, E1. auto with keeps.
  - revert Hrun. apply preserves_points. intros p. unfold get_memory, alloc. keeps.
Qed.

Lemma state_write_points memory key_len key data_len data h u h' :
  klomang_state_write memory key_len key data_len data h = (Ok u, h') →
  ∃ q, host_points h = Some q ∧ ∃ cost, 0 ≤ cost ≤ q ∧ host_points h' = Some (q - cost).
Proof.
  unfold klomang_state_write. intros Hrun.
  assert (Hpre : ∀ A (m : hosted (S:=S) A) a h1, m h = (Ok a, h1) →
    (∀ p, preserves (λ h : HostState (S:=S), host_points h = p) m) → host_points h1 = host_points h).
  { intros A m a h1 E Hm. by eapply preserves_points. }
  do 6 (apply method_bind_ok in Hrun as (? & ? & ?E & Hrun)).
  apply method_bind_ok in Hrun as (old & h6 & E6 & Hrun).
  apply method_bind_ok in Hrun as (? & h7 & E7 & Hrun).
  apply method_bind_ok in Hrun as (? & h8 & E8 & Hrun).
  injection Hrun as _ <-. cbn [host_points set_host_tree].
  apply metering_points in E8 as (q & Hq & Hle & Hq'); [|by destruct old].
  assert (Hpts : host_points h7 = host_points h).
  { etrans; [eapply preserves_points, E7; auto with keeps|].
    repeat match goal with
    | E : _ _ = (Ok _, ?b) |- host_points ?b = _ =>
        etrans; [eapply preserves_points, E; intros; unfold get_memory, alloc; keeps|]
    end. done. }
  exists q. rewrite <- Hpts. split; [done|].
  exists (match old with Some _ => STATE_WRITE_UPDATE_COST | None => STATE_WRITE_NEW_COST end).
  destruct old; (split; [split; [done|done]|done]).
Qed.

Lemma honest_run g h p points h' :
  honest p g → run_guest g h = (Ok points, h') → within p points.
Proof.
  revert h p; induction g as [| |points0 memory key_len key out_len write resume IH
                 |points0 memory key_len key data_len data resume IH
                 |points0 memory key_len key resume IH]; intros h p; cbn [run_guest honest].
  - by intros Hw [= <- _].
  - done.
  - intros [Hw Hres] Hrun. do 3 (apply method_bind_ok in Hrun as (? & ? & ?E & Hrun)).
    injection E as _ <-. injection E1 as <- <-.
    apply state_read_points in E0 as (q & Hq & Hle & Hq'). cbn in Hq. subst points0.
    rewrite Hq' in Hrun. cbn [default] in Hrun. specialize (Hw q eq_refl). unfold STATE_READ_COST in *.
    apply IH with (p := q - 2100) in Hrun; [|apply Hres; cbn; lia].
    intros r Hr. specialize (Hrun r Hr). lia.
  - intros [Hw Hres] Hrun. do 3 (apply method_bind_ok in Hrun as (? & ? & ?E & Hrun)).
    injection E as _ <-. injection E1 as <- <-.
    apply state_write_points in E0 as (q & Hq & cost & Hcost & Hq'). cbn in Hq. subst points0.
    rewrite Hq' in Hrun. cbn [default] in Hrun. specialize (Hw q eq_refl).
    apply IH with (p := q - cost) in Hrun; [|apply Hres; cbn; lia].
    intros r Hr. specialize (Hrun r Hr). lia.
  - intros [Hw Hres] Hrun. do 2 (apply method_bind_ok in Hrun as (? & ? & ?E & Hrun)).
    apply IH with (p := default p points0) in Hrun; [|done].
    intros r Hr. specialize (Hrun r Hr). destruct points0 as [q|]; cbn in Hrun; [specialize (Hw q eq_refl)|]; lia.
Qed.
End runs.

Section theorems.
Context `{Blake3} `{Commitments} `{Wasm} {S : Type} `{HS : Storage S} `{!StorageLaws S}.
Implicit Types (t : VerkleTree (S := S)).

(** C27. Execution is all or nothing.  On any error the tree has its old contents and
    root.  On success the payload was paid for, the tree was reached by
    insertions and prunings, and the gas reported is within the limit and covers
    four fifths of the intrinsic and payload costs at least. *)
Theorem execute_spec t (payload : list byte) (limit : Z)
    (Ht : tree_ok t) (Hf : frame_ok t) (Hl : fits 64 limit)
    (Hrun : ∀ run p, run_export payload = Ok run → 0 ≤ p → honest p (run p)) :
  match execute payload limit t with
  | (Ok used, t') =>
      (∃ ops, t' = foldl run_op t ops) ∧ tree_ok t'
      ∧ INTRINSIC_GAS + payload_cost payload ≤ limit
      ∧ 0 ≤ used ≤ limit ∧ 4 * (INTRINSIC_GAS + payload_cost payload) ≤ 5 * used
  | (Err _, t') => same_tree t t' ∧ tree_ok t' ∧ scratch_root t' = scratch_root t
  | (Panic _, _) => True
  end.
Proof.
  assert (Hsame : ∀ t', same_tree t t' → tree_ok t' →
    same_tree t t' ∧ tree_ok t' ∧ scratch_root t' = scratch_root t).
  { intros t' Hs Ht'. split_and!; [done|done|by apply same_tree_root]. }
  assert (Hrefl : same_tree t t) by done.
  unfold execute. erewrite method_bind_run by done. unfold lift.
  destruct (clone_same t Hf) as (c & -> & Hc & Hct & _). erewrite method_bind_run by done.
  destruct ((_ ← charge_intrinsic; charge_payload payload) (GasMeter_new limit)) as [[[]|e|x] gas] eqn:Egas;
    [|by apply Hsame|done].
  destruct (prepaid_ok payload limit gas Hl Egas) as (Hhost & Hpaid & Hrefund).
  destruct (Module_new payload) as [[]|e|x]; [|by apply Hsame|done]. erewrite method_bind_run by done.
  unfold run_instance. destruct (Instance_new payload) as [?|e|x]; [|by apply Hsame|done].
  destruct (run_export payload) as [run|e|x] eqn:Erun; [|by apply Hsame|done].
  unfold get_consumed_host. rewrite Hhost. set (rem := sat_sub limit _).
  set (h := {| host_tree := t; host_gas := gas; host_points := Some rem |}).
  pose proof (run_guest_reached t (run rem) h ltac:(by exists [])) as Hreach.
  pose proof (run_guest_refund (run rem) h ltac:(unfold refund_ok; cbn; lia)) as Href.
  destruct (run_guest (run rem) h) as [[[q|]|msg|x] h'] eqn:Eg; [|by apply Hsame|by apply Hsame|done].
  pose proof (honest_run _ _ _ _ _ (Hrun run rem eq_refl ltac:(subst rem; unfold sat_sub; lia)) Eg q eq_refl) as Hq.
  destruct Hreach as [ops Eops]. cbn [snd] in Eops, Href. unfold refund_ok in Href.
  split; [by exists ops|]. split; [rewrite Eops; by apply run_ok|]. split; [done|].
  unfold sat_sub in rem. subst rem.
  destruct (finalize_bounds (host_gas h') (sat_sub limit q) Href) as [Hb1 Hb2]; [unfold sat_sub; lia|].
  unfold sat_sub, fits, INTRINSIC_GAS in *. pose proof (payload_cost_bounds payload). lia.
Qed.

(** A guest that passes a negative length takes the node down: the host sizes its
    buffer by the sign-extended length, which panics, and nothing is restored. *)
Theorem negative_length_panics t (payload : list byte) (limit key_len : Z)
    (key : outcome string (list byte)) (resume : Z → guest)
    (Hf : frame_ok t) (Hl : fits 64 limit) (Hk : key_len < 0)
    (Hpay : INTRINSIC_GAS + payload_cost payload ≤ limit)
    (Hm : Module_new payload = Ok tt) (Hi : Instance_new payload = Ok tt)
    (Hr : run_export payload = Ok (λ p, GSelfDestruct (Some p) true key_len key (resume p))) :
  execute payload limit t = (Panic "capacity overflow", t).
Proof.
  unfold execute. erewrite method_bind_run by done. unfold lift.
  destruct (clone_same t Hf) as (c & -> & _). erewrite method_bind_run by done.
  destruct ((_ ← charge_intrinsic; charge_payload payload) (GasMeter_new limit)) as [[[]|e|x] gas] eqn:Egas.
  - rewrite Hm. erewrite method_bind_run by done. unfold run_instance. rewrite Hi, Hr.
    cbn zeta. cbn [run_guest].
    assert (E : klomang_self_destruct (S:=S) true key_len key = panic "capacity overflow").
    { unfold klomang_self_destruct, get_memory, alloc. by rewrite (proj2 (Z.ltb_lt _ _)). }
    rewrite E. reflexivity.
  - exfalso. revert Egas. pose proof (payload_cost_bounds payload) as Hp. revert Hpay Hp.
    unfold charge_payload. generalize (payload_cost payload) as cost. intros cost Hpay Hp.
    unfold charge_intrinsic, consume_host, check_remaining, mbind, method_bind, modify, gets. cbn.
    unfold INTRINSIC_GAS in *. destruct (Z.ltb_spec (limit - 21000) 0); [lia|]. cbn.
    destruct (Z.ltb_spec (limit - 21000 - cost) 0); [lia|done].
  - exfalso. revert Egas. generalize (payload_cost payload) as cost. unfold charge_payload.
    unfold charge_intrinsic, consume_host, check_remaining, mbind, method_bind, modify, gets. cbn.
    intros cost. destruct (_ <? 0); [done|]. cbn. by destruct (_ <? 0).
Qed.
End theorems.

(** ** Examples *)
Section examples.
#[local] Existing Instance toy_blake3.
#[local] Existing Instance toy_commitments.

(** Every module instantiates; it writes one key, then behaves by its first byte. *)
Definition toy_guest (payload : list byte) (p : Z) : guest :=
  match payload with
  | [] => GSelfDestruct (Some p) true (-1) (Ok []) (GReturn (Some p))
  | _ => GStateWrite (Some p) true 32 (Ok (as_bytes (key_of [9]))) 1 (Ok [x07])
           (λ q, if bool_decide (length payload = 1)%nat then GReturn (Some q) else GTrap "unreachable")
  end.
#[local] Instance toy_wasm : Wasm := {|
  Module_new _ := Ok tt; Instance_new _ := Ok tt; run_export payload := Ok (toy_guest payload)
|}.

Lemma toy_guest_honest payload p : payload ≠ [] → 0 ≤ p → honest p (toy_guest payload p).
Proof.
  destruct payload as [|b l]; [done|]. intros _ Hp. cbn. split; [intros q [= <-]; lia|].
  intros q Hq. case_bool_decide; cbn; [intros r [= <-]; lia|done].
Qed.
Lemma execute_spec_witness :
  (execute [x01; x02] 100000 empty_tree).1 = Err (RuntimeError "unreachable")
  ∧ scratch_root (execute [x01; x02] 100000 empty_tree).2 = scratch_root empty_tree.
Proof.
  assert (H : ∀ run p, run_export [x01; x02] = Ok run → 0 ≤ p → honest p (run p)).
  { intros run p [= <-] Hp. by apply toy_guest_honest. }
  pose proof (execute_spec empty_tree [x01; x02] 100000 (new_ok _ _ empty_tree_new)
    (new_frame _ _ empty_tree_new) ltac:(unfold fits; lia) H) as Hs.
  assert (Hr : (execute [x01; x02] 100000 empty_tree).1 = Err (RuntimeError "unreachable"))
    by (vm_compute; reflexivity).
  destruct (execute [x01; x02] 100000 empty_tree) as [r t']. cbn [fst] in Hr. rewrite Hr in Hs.
  split; [exact Hr|]. apply Hs.
Defined.

Lemma negative_length_panics_witness : execute [] 21000 empty_tree = (Panic "capacity overflow", empty_tree).
Proof.
  apply (negative_length_panics empty_tree [] 21000 (-1) (Ok []) (λ p, GReturn (Some p))).
  - exact (new_frame _ _ empty_tree_new).
  - unfold fits. lia.
  - lia.
  - vm_compute. discriminate.
  - reflexivity.
  - reflexivity.
  - reflexivity.
Defined.
End examples.
