(* ===== verification/BlockValidation.v ===== *)
(** * Validation of blocks

    [consensus/ghostdag.rs] ([validate_block] and its parts) and the
    verification half of [crypto/schnorr.rs] ([verify], [verify_schnorr],
    [batch_verify]). *)

From S2P Require Import Prelude Crypto Errors Transaction Economics Utxo Dag State Pow VerkleTree.
From Stdlib Require Import Init.Byte.

(** ** [crypto/schnorr.rs] *)
Section schnorr.
Context `{Blake3} `{K256}.

Definition verify (pubkey : VerifyingKey) (msg : list byte) (sig : Signature) : bool :=
  vk_verify pubkey msg sig.

Definition verify_schnorr (pubkey_bytes sig_bytes : list byte) (msg : list byte) : outcome CoreError bool :=
  pk ← ok_or (vk_from_bytes pubkey_bytes) InvalidPublicKey;
  _ ← ensure (bool_decide (length sig_bytes = 64%nat)) InvalidSignature;
  sig ← ok_or (sig_try_from sig_bytes) InvalidSignature;
  Ok (vk_verify pk (as_bytes (tagged_hash TAG_TX_SIGN msg)) sig).

(** [(pubkey, message, signature)] *)
Definition signature_item : Type := VerifyingKey * bytes32 * Signature.
Definition item_ok (i : signature_item) : bool := vk_verify i.1.1 (as_bytes i.1.2) i.2.

(** One worker: stops at its first invalid signature. *)
Fixpoint verify_chunk (chunk : list signature_item) : bool :=
  match chunk with
  | [] => true
  | i :: chunk => if item_ok i then verify_chunk chunk else false
  end.

(** [items.chunks(n)], the fuel is the number of items. *)
Fixpoint chunks {A} (fuel : nat) (n : nat) (l : list A) : list (list A) :=
  match fuel, l with
  | Datatypes.S fuel, _ :: _ => take n l :: chunks fuel n (drop n l)
  | _, _ => []
  end.

(** The workers report in any order, [arrival]: the receiver stops at the first
    [false]. *)
Definition batch_verify (arrival : list bool → list bool) (items : list signature_item) :
    outcome CoreError bool :=
  match items with
  | [] => Ok true
  | _ =>
      let chunks := chunks (length items) 10 items in
      if bool_decide (length chunks = 1%nat) then Ok (verify_chunk items)
      else Ok (forallb (λ b, b) (arrival (verify_chunk <$> chunks)))
  end.

(** The header's [bincode] serialization is a parameter; a failure digests
    nothing ([unwrap_or_default]). *)
Definition verify_block_signature (bincode : BlockHeader → option (list byte)) (block : BlockNode) : bool :=
  match header_signature (header block) with
  | Some sig_vec =>
      if negb (bool_decide (length sig_vec = 64%nat)) then false
      else
        let h := header block in
        let header_without_sig :=
          {| block_id := block_id h; parents := parents h; timestamp := timestamp h;
             difficulty := difficulty h; nonce := nonce h; verkle_root := verkle_root h;
             verkle_proofs := verkle_proofs h; header_signature := None |} in
        let msg_hash := tagged_hash TAG_TX_SIGN (default [] (bincode header_without_sig)) in
        match head (transactions block) with
        | Some coinbase_tx =>
            match head (outputs coinbase_tx) with
            | Some output =>
                match verify_schnorr (as_bytes (pubkey_hash output)) sig_vec (as_bytes msg_hash) with
                | Ok valid => valid
                | _ => false
                end
            | None => false
            end
        | None => false
        end
  | None => false
  end.
End schnorr.

(** ** [validate_block] *)
Section validation.
Context `{Blake3} `{K256} `{Commitments} {S : Type} `{Storage S}.
Implicit Types (tree : VerkleTree (S := S)).

(** [hashes.chunks(2)], each chunk's bytes joined: an odd last hash stands alone. *)
Fixpoint merkle_combined (hashes : list Hash) : list (list byte) :=
  match hashes with
  | a :: b :: rest => (as_bytes a ++ as_bytes b) :: merkle_combined rest
  | [a] => [as_bytes a]
  | [] => []
  end.

Definition merkle_level (hashes : list Hash) : list Hash := Hash_new <$> merkle_combined hashes.

(** [while hashes.len() > 1]; the fuel is the number of hashes. *)
Fixpoint merkle_loop (fuel : nat) (hashes : list Hash) : list Hash :=
  match fuel with
  | O => hashes
  | Datatypes.S fuel =>
      if bool_decide (1 < length hashes)%nat then merkle_loop fuel (merkle_level hashes) else hashes
  end.

Definition compute_transaction_merkle_root (txs : list Transaction) : Hash :=
  match txs with
  | [] => Hash_new []
  | _ => default zero32 (head (merkle_loop (length txs) (id <$> txs)))
  end.

Definition collect_transaction_signatures (tx : Transaction) (items : list signature_item) :
    outcome CoreError (list signature_item) :=
  fold_outcome (λ items p,
    let '(input_idx, input) := p in
    _ ← ensure (negb (bool_decide (signature input = [])))
          (ConsensusError "Missing signature for input {} in transaction {}");
    sighash ← map_err (λ _, CryptographicError "Sighash error: {}")
                (compute_sighash tx input_idx (sighash_type input));
    pubkey ← ok_or (vk_from_bytes (pubkey input)) (CryptographicError "Invalid pubkey: {}");
    signature ← ok_or (sig_try_from (signature input)) (CryptographicError "Invalid signature: {}");
    Ok (items ++ [(pubkey, sighash, signature)])) items (enumerate (inputs tx)).

(** [if !spent_outpoints.insert(outpoint) { Err }] over the inputs. *)
Definition spend_once (spent_outpoints : gset OutPoint) (ins : list TxInput) :
    outcome CoreError (gset OutPoint) :=
  fold_outcome (λ spent_outpoints input,
    if bool_decide (outpoint_of input ∈ spent_outpoints)
    then Err (ConsensusError "Double-spend across block detected for outpoint {:?}")
    else Ok ({[ outpoint_of input ]} ∪ spent_outpoints)) spent_outpoints ins.

(** The loop of [validate_transactions]. *)
Definition gather (st : gset OutPoint * list signature_item) (tx : Transaction) :
    outcome CoreError (gset OutPoint * list signature_item) :=
  let '(spent_outpoints, signature_items) := st in
  _ ← ensure (bool_decide (id tx = calculate_id tx))
        (ConsensusError "Invalid transaction id: expected {} but got {}");
  spent_outpoints ← spend_once spent_outpoints (inputs tx);
  signature_items ← collect_transaction_signatures tx signature_items;
  Ok (spent_outpoints, signature_items).

Definition validate_transactions (arrival : list bool → list bool) (block : BlockNode) :
    outcome CoreError unit :=
  '(_, signature_items) ← fold_outcome gather (∅, []) (transactions block);
  valid ← batch_verify arrival signature_items;
  ensure valid (ConsensusError "One or more invalid signatures in block").

Definition outpoint_key (prev : Hash) (i : Z) : bytes32 := Hash_new (as_bytes prev ++ be_bytes 4 i).

Definition validate_verkle_proof (block : BlockNode) tree : outcome CoreError unit :=
  fold_outcome (λ _ tx,
    _ ← fold_outcome (λ _ input,
      match get_key tree (outpoint_key (prev_tx input) (index input)) with
      | Ok (Some _) => Ok tt
      | Ok None => Err (ConsensusError "Missing input UTXO in Verkle tree for outpoint ({}, {})")
      | Err _ => Err (CryptographicError "Verkle tree query failed: {}")
      | Panic p => Panic p
      end) tt (inputs tx);
    fold_outcome (λ _ p,
      match get_key tree (hash_with_index tx (wrap 32 (Z.of_nat p.1))) with
      | Ok (Some _) => Err (ConsensusError "Output key collision in Verkle tree for tx {} output {}")
      | Panic p => Panic p
      | _ => Ok tt
      end) tt (enumerate (outputs tx))) tt (transactions block).

Definition MAX_FUTURE_TIME : Z := 2 * 60 * 60.
Definition MAX_PAST_TIME : Z := 24 * 60 * 60.

(** The parents of a block, as the hash of the header lists them; it sorts them. *)
Definition block_pow_hash (block : BlockNode) : Hash :=
  calculate_hash (timestamp (header block)) (difficulty (header block))
    (elements (parents (header block))) (blue_score block) (nonce (header block))
    (compute_transaction_merkle_root (transactions block)).

Definition validate_block (arrival : list bool → list bool) (block : BlockNode) (dag : Dag) tree
    (current_time : Z) : outcome CoreError unit :=
  _ ← ensure (forallb (λ parent, bool_decide (is_Some (get_block dag parent)))
                (elements (parents (header block))))
        (ConsensusError "Parent block {} not found in DAG");
  _ ← ensure (timestamp (header block) <=? sat_add 64 current_time MAX_FUTURE_TIME)
        (ConsensusError "Block timestamp {} is too far in the future (current: {})");
  _ ← ensure (sat_sub current_time MAX_PAST_TIME <=? timestamp (header block))
        (ConsensusError "Block timestamp {} is too far in the past (current: {})");
  _ ← ensure (negb (difficulty (header block) =? 0)) (ConsensusError "Block difficulty cannot be zero");
  _ ← ensure (is_valid_pow (block_pow_hash block) (difficulty (header block)))
        (ConsensusError "Invalid PoW: hash {} does not meet difficulty {}");
  _ ← validate_transactions arrival block;
  validate_verkle_proof block tree.
End validation.

(** ** What validation accepts *)
Section lemmas.
Context `{Blake3} `{K256}.

Lemma verify_chunk_forallb l : verify_chunk l = forallb item_ok l.
Proof. induction l as [|i l IH]; cbn; [done|]. by destruct (item_ok i). Qed.

Lemma mjoin_chunks {A} fuel n (l : list A) : (0 < n)%nat → (length l ≤ fuel)%nat → mjoin (chunks fuel n l) = l.
Proof.
  intros Hn. revert l; induction fuel as [|fuel IH]; intros [|x l] Hl; cbn [chunks]; [done|cbn in Hl; lia|done|].
  change (mjoin (?a :: ?b)) with (a ++ mjoin b). rewrite IH.
  - apply take_drop.
  - rewrite length_drop. cbn in *. lia.
Qed.

Lemma forallb_mjoin {A} (f : A → bool) ls : forallb (λ b, b) (forallb f <$> ls) = forallb f (mjoin ls).
Proof.
  induction ls as [|l ls IH]; [done|]. change (mjoin (l :: ls)) with (l ++ mjoin ls).
  cbn. by rewrite forallb_app, <- IH.
Qed.

Lemma forallb_perm {A} (f : A → bool) l k : l ≡ₚ k → forallb f l = forallb f k.
Proof. induction 1; cbn; [done|congruence| |congruence]. destruct (f x), (f y); done. Qed.

(** The workers decide what one pass would, in whatever order they report. *)
Lemma batch_verify_all arrival items :
  (∀ l, arrival l ≡ₚ l) → batch_verify arrival items = Ok (forallb item_ok items).
Proof.
  intros Ha. unfold batch_verify. destruct items as [|i l]; [done|]. remember (i :: l) as items.
  case_bool_decide; [by rewrite verify_chunk_forallb|]. do 2 f_equal.
  rewrite (forallb_perm _ _ _ (Ha _)).
  replace (verify_chunk <$> chunks (length items) 10 items)
    with (forallb item_ok <$> chunks (length items) 10 items).
  - rewrite forallb_mjoin, mjoin_chunks by lia. done.
  - apply list_fmap_ext. intros ? c _. by rewrite verify_chunk_forallb.
Qed.

Lemma spend_once_ok (spent0 spent' : gset OutPoint) (ins : list TxInput) :
  spend_once spent0 ins = Ok spent' ↔
  NoDup (outpoint_of <$> ins) ∧ (∀ i, i ∈ ins → outpoint_of i ∉ spent0)
  ∧ spent' = list_to_set (outpoint_of <$> ins) ∪ spent0.
Proof.
  unfold spend_once. revert spent0; induction ins as [|i ins IH]; intros spent0; cbn.
  - rewrite union_empty_l_L. split; [intros [= <-]|intros (_ & _ & ->); done].
    split_and!; [constructor|by intros i ?%not_elem_of_nil|done].
  - case_bool_decide as Hi; cbn.
    + split; [done|]. intros (_ & Hd & _). by destruct (Hd i ltac:(left)).
    + rewrite IH, NoDup_cons, list_elem_of_fmap. split.
      * intros (Hnd & Hd & ->). split; [split; [|done]|split].
        -- intros (j & Ej & Hj). apply (Hd j Hj). rewrite <- Ej. clear. set_solver.
        -- intros j [->|Hj]%elem_of_cons; [done|]. specialize (Hd j Hj). clear -Hd. set_solver.
        -- clear. set_solver.
      * intros ([Hn Hnd] & Hd & ->). split_and!; [done| |clear; set_solver].
        intros j Hj. specialize (Hd j ltac:(by right)). intros Hin.
        apply elem_of_union in Hin as [Hin%elem_of_singleton|]; [|done]. apply Hn. by exists j.
Qed.
End lemmas.

(** ** The specification of a valid block *)
Section specification.
Context `{Blake3} `{K256} `{Commitments} {S : Type} `{Storage S}.
Implicit Types (tree : VerkleTree (S := S)) (tx : Transaction).

(** Input [i] of [tx] carries a signature that parses and verifies. *)
Definition input_signed tx (p : nat * TxInput) (it : signature_item) : Prop :=
  signature p.2 ≠ [] ∧ compute_sighash tx p.1 (sighash_type p.2) = Ok it.1.2
  ∧ vk_from_bytes (pubkey p.2) = Some it.1.1 ∧ sig_try_from (signature p.2) = Some it.2.
Definition signed tx : Prop := ∀ i input, inputs tx !! i = Some input →
  ∃ it, input_signed tx (i, input) it ∧ item_ok it = true.

Lemma collect_ok tx items items' :
  collect_transaction_signatures tx items = Ok items' ↔
  ∃ l, items' = items ++ l ∧ Forall2 (input_signed tx) (enumerate (inputs tx)) l.
Proof.
  unfold collect_transaction_signatures. generalize (enumerate (inputs tx)) as ps. intros ps.
  revert items; induction ps as [|[i input] ps IH]; intros items; cbn [fold_outcome].
  - split.
    + intros [= <-]. exists []. by rewrite app_nil_r.
    + intros (l & -> & ->%Forall2_nil_inv_l). by rewrite app_nil_r.
  - rewrite bind_ok. split.
    + intros (items1 & E1 & E2). apply IH in E2 as (l & -> & Hl). outcome_inv. subst items1.
      match goal with |- ∃ l0, (items ++ [?it]) ++ l = _ ∧ _ => exists (it :: l) end.
      rewrite <- (assoc_L (++)). split; [done|]. constructor; [|done].
      match goal with E : negb _ = true |- _ => apply negb_true_iff, bool_decide_eq_false in E end. done.
    + intros (l & -> & Hl). apply Forall2_cons_inv_l in Hl as ([[pk m] sg] & l' & (Hne & Hm & Hpk & Hsg) & Hl' & ->).
      cbn [fst snd] in Hne, Hm, Hpk, Hsg. exists (items ++ [(pk, m, sg)]). split.
      * rewrite bool_decide_eq_false_2 by done. rewrite Hm, Hpk, Hsg. done.
      * apply IH. exists l'. rewrite <- (assoc_L (++)). by split.
Qed.

Definition block_outpoints (txs : list Transaction) : list OutPoint :=
  mjoin ((λ tx, outpoint_of <$> inputs tx) <$> txs).

Lemma gather_ok txs spent0 items0 spent' items' :
  fold_outcome gather (spent0, items0) txs = Ok (spent', items') ↔
  Forall (λ tx, id tx = calculate_id tx) txs
  ∧ NoDup (block_outpoints txs) ∧ (∀ k, k ∈ block_outpoints txs → k ∉ spent0)
  ∧ spent' = list_to_set (block_outpoints txs) ∪ spent0
  ∧ ∃ ls, items' = items0 ++ mjoin ls
    ∧ Forall2 (λ tx l, Forall2 (input_signed tx) (enumerate (inputs tx)) l) txs ls.
Proof.
  revert spent0 items0; induction txs as [|tx txs IH]; intros spent0 items0; cbn [fold_outcome].
  - unfold block_outpoints. cbn. rewrite union_empty_l_L. split.
    + intros [= <- <-]. split_and!; [done|constructor|by intros ? ?%not_elem_of_nil|done|].
      exists []. by rewrite app_nil_r.
    + intros (_ & _ & _ & -> & ls & -> & ->%Forall2_nil_inv_l). by rewrite app_nil_r.
  - change (block_outpoints (tx :: txs)) with ((outpoint_of <$> inputs tx) ++ block_outpoints txs).
    rewrite bind_ok, NoDup_app, Forall_cons, list_to_set_app_L. split.
    + intros ([s1 items1] & E1 & E2). apply IH in E2 as (Hids & Hnd & Hd & -> & ls & -> & Hls).
      unfold gather in E1. outcome_inv. simplify_eq.
      match goal with E : spend_once _ _ = _ |- _ => apply spend_once_ok in E as (Hnd1 & Hd1 & ->) end.
      match goal with E : collect_transaction_signatures _ _ = _ |- _ => apply collect_ok in E as (l & -> & Hl) end.
      match goal with E : bool_decide _ = true |- _ => apply bool_decide_eq_true in E end.
      split_and!; try done.
      * intros k Hk Hk2. apply (Hd k Hk2). apply elem_of_union. left. by apply elem_of_list_to_set.
      * intros k [Hk|Hk]%elem_of_app.
        -- apply list_elem_of_fmap in Hk as (j & -> & Hj). by apply Hd1.
        -- specialize (Hd k Hk). clear -Hd. set_solver.
      * clear. set_solver.
      * exists (l :: ls). change (mjoin (l :: ls)) with (l ++ mjoin ls).
        rewrite (assoc_L (++)). split; [done|]. by constructor.
    + intros ([Hid Hids] & (Hnd1 & Hd12 & Hnd) & Hd & -> & ls & -> & Hls).
      apply Forall2_cons_inv_l in Hls as (l & ls' & Hl & Hls & ->).
      exists (list_to_set (outpoint_of <$> inputs tx) ∪ spent0, items0 ++ l). split.
      * unfold gather. rewrite bool_decide_eq_true_2 by done. cbn [ensure mbind outcome_bind].
        rewrite (proj2 (spend_once_ok _ (list_to_set (outpoint_of <$> inputs tx) ∪ spent0) _)).
        -- cbn [mbind outcome_bind]. rewrite (proj2 (collect_ok tx items0 (items0 ++ l))) by eauto. done.
        -- split_and!; [done| |done]. intros i Hi. apply Hd, elem_of_app. left.
           apply list_elem_of_fmap. by exists i.
      * apply IH. split_and!; [done|done| |clear; set_solver|].
        -- intros k Hk. specialize (Hd k ltac:(apply elem_of_app; by right)).
           intros [Hin%elem_of_list_to_set|Hin]%elem_of_union; [by apply (Hd12 k)|done].
        -- exists ls'. change (mjoin (l :: ls')) with (l ++ mjoin ls'). by rewrite (assoc_L (++)).
Qed.

Lemma signed_items txs ls :
  Forall2 (λ tx l, Forall2 (input_signed tx) (enumerate (inputs tx)) l) txs ls →
  forallb item_ok (mjoin ls) = true → Forall signed txs.
Proof.
  induction 1 as [|tx l txs ls Hl Hls IH]; intros Hall; [constructor|].
  change (mjoin (l :: ls)) with (l ++ mjoin ls) in Hall. rewrite forallb_app in Hall.
  apply andb_true_iff in Hall as [Hhere Hrest]. constructor; [|by apply IH].
  intros i input Hi. assert (He : enumerate (inputs tx) !! i = Some (i, input)).
  { rewrite enumerate_lookup. by rewrite Hi. }
  destruct (Forall2_lookup_l _ _ _ _ _ Hl He) as (it & Hit & Hs). exists it. split; [done|].
  rewrite forallb_forall in Hhere. apply Hhere, list_elem_of_In. by eapply list_elem_of_lookup_2.
Qed.

Lemma items_of_signed txs :
  Forall signed txs → ∃ ls,
  Forall2 (λ tx l, Forall2 (input_signed tx) (enumerate (inputs tx)) l) txs ls
  ∧ forallb item_ok (mjoin ls) = true.
Proof.
  induction 1 as [|tx txs Hs _ (ls & Hls & Hok)]; [by exists []|].
  assert (Hl : ∃ l, Forall2 (λ p it, input_signed tx p it ∧ item_ok it = true) (enumerate (inputs tx)) l).
  { assert (Hp : Forall (λ p, ∃ it, input_signed tx p it ∧ item_ok it = true) (enumerate (inputs tx))).
    { apply Forall_lookup_2. intros i p Hp. rewrite enumerate_lookup in Hp.
      destruct (inputs tx !! i) as [input|] eqn:E; [|done]. injection Hp as <-. by apply Hs. }
    clear -Hp. induction Hp as [|p ps [it Hit] _ [l Hl]]; [exists []; constructor|].
    exists (it :: l). by constructor. }
  destruct Hl as [l Hl]. exists (l :: ls). split.
  - constructor; [|done]. eapply Forall2_impl; [exact Hl|]. by intros p it [? _].
  - change (mjoin (l :: ls)) with (l ++ mjoin ls). rewrite forallb_app, Hok, andb_true_r.
    clear -Hl. induction Hl as [|p it ps l [_ Hit] _ IH]; cbn; [done|]. by rewrite Hit, IH.
Qed.

Lemma validate_transactions_ok arrival block :
  (∀ l, arrival l ≡ₚ l) →
  validate_transactions arrival block = Ok tt ↔
  Forall (λ tx, id tx = calculate_id tx) (transactions block)
  ∧ NoDup (block_outpoints (transactions block)) ∧ Forall signed (transactions block).
Proof.
  intros Ha. unfold validate_transactions. rewrite bind_ok. split.
  - intros ([s items] & Eg & Ev). apply gather_ok in Eg as (Hids & Hnd & _ & _ & ls & -> & Hls).
    rewrite batch_verify_all in Ev by done. cbn in Ev. apply ensure_ok in Ev.
    split_and!; [done|done|by eapply signed_items].
  - intros (Hids & Hnd & Hs). destruct (items_of_signed _ Hs) as (ls & Hls & Hok).
    exists (list_to_set (block_outpoints (transactions block)) ∪ ∅, mjoin ls). split.
    + apply gather_ok. split_and!; [done|done| |done|by exists ls]. intros k _. by apply not_elem_of_empty.
    + rewrite batch_verify_all by done. cbn. by rewrite Hok.
Qed.

Lemma fold_check_ok {A} (f : A → outcome CoreError unit) (l : list A) :
  fold_outcome (λ _, f) tt l = Ok tt ↔ Forall (λ x, f x = Ok tt) l.
Proof.
  induction l as [|x l IH]; cbn; [by split|]. rewrite Forall_cons, <- IH, bind_ok. split.
  - by intros ([] & ? & ?).
  - intros [E ?]. by exists tt.
Qed.

(** The inputs are live and the outputs are new, in the tree. *)
Definition tree_allows tree tx : Prop :=
  (∀ input, input ∈ inputs tx → ∃ v, get_key tree (outpoint_key (prev_tx input) (index input)) = Ok (Some v))
  ∧ (∀ i v, (i < length (outputs tx))%nat → get_key tree (hash_with_index tx (wrap 32 (Z.of_nat i))) ≠ Ok (Some v)).

Lemma validate_verkle_ok block tree :
  validate_verkle_proof block tree = Ok tt ↔ Forall (tree_allows tree) (transactions block).
Proof.
  unfold validate_verkle_proof. rewrite fold_check_ok. apply Forall_iff. intros tx.
  rewrite bind_ok. unfold tree_allows. split.
  - intros ([] & Hi%fold_check_ok & Ho%fold_check_ok). rewrite Forall_forall in Hi. split.
    + intros input Hin. specialize (Hi input Hin). cbn in Hi.
      destruct (get_key tree _) as [[v|]|e|x]; [by exists v|done..].
    + intros i v Hl E. destruct (lookup_lt_is_Some_2 _ _ Hl) as [o Ho'].
      rewrite Forall_lookup in Ho. specialize (Ho i (i, o)). rewrite enumerate_lookup, Ho' in Ho.
      specialize (Ho eq_refl). cbn in Ho. by rewrite E in Ho.
  - intros [Hi Ho]. exists tt. split; apply fold_check_ok.
    + apply Forall_forall. intros input Hin. by destruct (Hi input Hin) as [v ->].
    + apply Forall_lookup. intros i p Hp. rewrite enumerate_lookup in Hp.
      destruct (outputs tx !! i) as [o|] eqn:E; [|done]. injection Hp as <-. cbn.
      specialize (Ho i). apply lookup_lt_Some in E.
      assert (Hnp : ∀ k x, get_key tree k ≠ Panic x) by (intros k x; unfold get_key; by case_bool_decide).
      destruct (get_key tree _) as [[v|]|e|x] eqn:Eg; [by destruct (Ho v)|done|done|by apply Hnp in Eg].
Qed.

Record block_valid block (dag : Dag) tree (now : Z) : Prop := {
  bv_parents : ∀ p, p ∈ parents (header block) → is_Some (blocks dag !! p);
  bv_time : sat_sub now MAX_PAST_TIME ≤ timestamp (header block) ≤ sat_add 64 now MAX_FUTURE_TIME;
  bv_difficulty : difficulty (header block) ≠ 0;
  bv_pow : is_valid_pow (block_pow_hash block) (difficulty (header block)) = true;
  bv_ids : Forall (λ tx, id tx = calculate_id tx) (transactions block);
  bv_once : NoDup (block_outpoints (transactions block));
  bv_signed : Forall signed (transactions block);
  bv_tree : Forall (tree_allows tree) (transactions block)
}.

Lemma validate_block_ok arrival block dag tree now :
  (∀ l, arrival l ≡ₚ l) →
  validate_block arrival block dag tree now = Ok tt ↔ block_valid block dag tree now.
Proof.
  intros Ha. unfold validate_block. rewrite !ensure_bind_ok, bind_ok. split.
  - intros (Hp & Hf & Hb & Hd & Hw & [] & (Hids & Hnd & Hs)%validate_transactions_ok & Ht%validate_verkle_ok); [|done].
    split; try done.
    + intros p Hin. rewrite (forallb_bool_decide (λ p, is_Some (get_block dag p))), Forall_forall in Hp.
      by apply Hp, elem_of_elements.
    + apply Z.leb_le in Hf, Hb. lia.
    + by apply negb_true_iff, Z.eqb_neq in Hd.
  - intros [Hp [Hb Hf] Hd Hw Hids Hnd Hs Ht]. split_and!; try by apply Z.leb_le.
    + apply (forallb_bool_decide (λ p, is_Some (get_block dag p))), Forall_forall.
      intros p Hin. by apply Hp, elem_of_elements.
    + by apply negb_true_iff, Z.eqb_neq.
    + done.
    + exists tt. split; [by apply validate_transactions_ok|by apply validate_verkle_ok].
Qed.
End specification.

(** ** The Merkle root *)
Section merkle.
Context `{Blake3}.

Lemma two_step_ind {A} (P : list A → Prop) :
  P [] → (∀ a, P [a]) → (∀ a b l, P l → P (a :: b :: l)) → ∀ l, P l.
Proof.
  intros H0 H1 H2 l. enough (P l ∧ ∀ a, P (a :: l)) by tauto.
  induction l as [|b l [IHl IHa]]; [by split|]. split; [done|]. intros a. by apply H2.
Qed.

Lemma combined_inj l k : length l = length k → merkle_combined l = merkle_combined k → l = k.
Proof.
  revert k; induction l as [|a|a b l IH] using two_step_ind; intros k Hl.
  - by destruct k.
  - destruct k as [|c [|d k]]; [done| |done]. cbn. by intros [= ->%as_bytes_inj].
  - destruct k as [|c [|d k]]; [done|done|]. cbn [merkle_combined]. intros [= Hab Hk].
    apply app_inj_1 in Hab as [->%as_bytes_inj ->%as_bytes_inj]; [|by rewrite !as_bytes_length].
    f_equal. f_equal. apply IH; [by injection Hl|done].
Qed.

Lemma length_combined l k : length l = length k → length (merkle_combined l) = length (merkle_combined k).
Proof.
  revert k; induction l as [|a|a b l IH] using two_step_ind; intros k Hl; (destruct k as [|c [|d k]]; try done).
  cbn. f_equal. apply IH. by injection Hl.
Qed.

Lemma length_level_lt l : (1 < length l)%nat → (0 < length (merkle_level l) < length l)%nat.
Proof.
  unfold merkle_level. rewrite length_fmap.
  assert (Hle : ∀ l, (length (merkle_combined l) ≤ length l)%nat).
  { clear l. intros l. induction l as [|a|a b l IH] using two_step_ind; cbn in *; lia. }
  destruct l as [|a [|b l]]; cbn; [lia|lia|]. specialize (Hle l). lia.
Qed.

(** The strings digested for a list of hashes. *)
Fixpoint merkle_strings (fuel : nat) (hashes : list Hash) : list (list byte) :=
  match fuel with
  | O => []
  | S fuel =>
      if bool_decide (1 < length hashes)%nat
      then merkle_combined hashes ++ merkle_strings fuel (merkle_level hashes) else []
  end.

Lemma level_inj (P : list byte → Prop) l k :
  collision_free P → (∀ x, x ∈ merkle_combined l → P x) → (∀ x, x ∈ merkle_combined k → P x) →
  length l = length k → merkle_level l = merkle_level k → l = k.
Proof.
  intros Hc Hl Hk Hlen Hlev. apply combined_inj; [done|]. apply length_combined in Hlen. revert Hlev Hl Hk Hlen.
  unfold merkle_level. generalize (merkle_combined l) as x, (merkle_combined k) as y. clear l k.
  induction x as [|a x IH]; intros [|b y]; try done. cbn. intros [= Hab Hxy] Hx Hy [= Hlen]. f_equal.
  - apply Hc; [apply Hx; left|apply Hy; left|done].
  - apply IH; [done| | |done]; intros z Hz; [apply Hx|apply Hy]; by right.
Qed.

Lemma merkle_loop_inj (P : list byte → Prop) fuel l k :
  collision_free P → (∀ x, x ∈ merkle_strings fuel l ++ merkle_strings fuel k → P x) →
  (length l ≤ fuel)%nat → length l = length k → (0 < length l)%nat →
  head (merkle_loop fuel l) = head (merkle_loop fuel k) → l = k.
Proof.
  intros Hc. revert l k; induction fuel as [|fuel IH]; intros l k Hs Hf Hlen Hpos; [lia|].
  cbn [merkle_loop merkle_strings] in *. rewrite <- Hlen in *. case_bool_decide as H1.
  - intros Hh. apply (level_inj P); [done| | |done|].
    { intros x Hx. apply Hs. rewrite !elem_of_app. tauto. }
    { intros x Hx. apply Hs. rewrite !elem_of_app. tauto. }
    pose proof (length_level_lt l H1) as Hlt.
    apply IH; [|lia| |lia|done].
    + intros x Hx. apply Hs. rewrite !elem_of_app in *. tauto.
    + unfold merkle_level. rewrite !length_fmap. by apply length_combined.
  - destruct l as [|a [|b l]]; [cbn in Hpos; lia| |cbn in H1; lia].
    destruct k as [|c [|d k]]; [done| |done]. by intros [= ->].
Qed.

(** The loop ends with one hash. *)
Lemma merkle_loop_one fuel l : (0 < length l ≤ fuel)%nat → ∃ h, merkle_loop fuel l = [h].
Proof.
  revert l; induction fuel as [|fuel IH]; intros l [H0 Hf]; [lia|]. cbn [merkle_loop].
  case_bool_decide as H1; [apply IH; pose proof (length_level_lt l H1); lia|].
  destruct l as [|a [|b l]]; [cbn in H0; lia|by exists a|cbn in H1; lia].
Qed.

(** The root is a function of the ids. *)
Lemma root_ids (txs txs' : list Transaction) :
  id <$> txs = id <$> txs' → compute_transaction_merkle_root txs = compute_transaction_merkle_root txs'.
Proof.
  intros E. pose proof (f_equal length E) as El. rewrite !length_fmap in El.
  destruct txs as [|tx txs], txs' as [|tx' txs']; try done.
  unfold compute_transaction_merkle_root. by rewrite E, El.
Qed.
End merkle.

(** ** Properties *)
Section theorems.
Context `{Blake3} `{K256} `{Commitments} {S : Type} `{Storage S}.
Implicit Types (tree : VerkleTree (S := S)) (tx : Transaction).

(** C7. A block is accepted exactly when its parents are known, its time is in the
    window, its work is done, every transaction has its own id, no outpoint is
    spent twice in the block, every input is signed, and in the tree the inputs
    are live and the outputs new; the parallel workers decide what one pass
    would, in whatever order they report.  (Neither amounts nor owners occur.) *)
Theorem validate_block_spec (arrival : list bool → list bool) block dag tree (now : Z)
    (Ha : ∀ l, arrival l ≡ₚ l) :
  validate_block arrival block dag tree now = Ok tt ↔ block_valid block dag tree now.
Proof. by apply validate_block_ok. Qed.

(** What a block's hash says of its transactions: two lists of the same length
    with the same Merkle root have the same ids, when the strings digested on the
    way do not collide. *)
Theorem merkle_root_commits (txs txs' : list Transaction)
    (Hlen : length txs = length txs')
    (Hc : collision_free (λ x, x ∈ merkle_strings (length txs) (id <$> txs)
                               ++ merkle_strings (length txs) (id <$> txs')))
    (Hroot : compute_transaction_merkle_root txs = compute_transaction_merkle_root txs') :
  id <$> txs = id <$> txs'.
Proof.
  destruct txs as [|t txs]; [by destruct txs'|]. destruct txs' as [|t' txs']; [done|].
  unfold compute_transaction_merkle_root in Hroot. rewrite <- Hlen in Hroot.
  apply (merkle_loop_inj _ (length (t :: txs)) _ _ Hc).
  - done.
  - by rewrite length_fmap.
  - by rewrite !length_fmap.
  - rewrite length_fmap. cbn. lia.
  - destruct (merkle_loop_one (length (t :: txs)) (id <$> t :: txs)) as [h Eh]; [rewrite length_fmap; cbn; lia|].
    destruct (merkle_loop_one (length (t :: txs)) (id <$> t' :: txs')) as [h' Eh'];
      [rewrite length_fmap, <- Hlen; cbn; lia|].
    rewrite Eh, Eh' in *. cbn in *. by f_equal.
Qed.

(** The execution fields of a transaction. *)
Definition set_execution (payload : list byte) (addr : option bytes32) (gas price : Z) tx : Transaction :=
  {| id := id tx; inputs := inputs tx; outputs := outputs tx; execution_payload := payload;
     contract_address := addr; gas_limit := gas; max_fee_per_gas := price;
     chain_id := chain_id tx; locktime := locktime tx |}.
Definition set_transactions (txs : list Transaction) (b : BlockNode) : BlockNode :=
  {| header := header b; children := children b; selected_parent := selected_parent b;
     blue_set := blue_set b; red_set := red_set b; blue_score := blue_score b; transactions := txs |}.

(** Nothing binds what a transaction executes.  Neither the id, nor the signature
    hashes, nor the block's hash covers the payload, the contract, the gas limit
    or the gas price: whatever they are replaced with, transaction by
    transaction, the block validates to the same result. *)
Theorem payload_is_not_bound (arrival : list bool → list bool) block dag tree (now : Z)
    (f : Transaction → list byte * option bytes32 * Z * Z) :
  let swap tx := let '(payload, addr, gas, price) := f tx in set_execution payload addr gas price tx in
  let block' := set_transactions (swap <$> transactions block) block in
  validate_block arrival block' dag tree now = validate_block arrival block dag tree now
  ∧ block_pow_hash block' = block_pow_hash block.
Proof.
  cbn zeta. set (swap := λ tx, let '(p, a, g, c) := f tx in set_execution p a g c tx).
  assert (Hswap : ∀ tx, ∃ p a g c, swap tx = set_execution p a g c tx).
  { intros tx. unfold swap. destruct (f tx) as [[[p a] g] c]. by exists p, a, g, c. }
  assert (Hid : ∀ txs : list Transaction, id <$> (swap <$> txs) = id <$> txs).
  { intros txs. rewrite <- list_fmap_compose. apply list_fmap_ext. intros ? tx _.
    by destruct (Hswap tx) as (p & a & g & c & E); cbn; rewrite E. }
  assert (Hpow : block_pow_hash (set_transactions (swap <$> transactions block) block) = block_pow_hash block).
  { unfold block_pow_hash. f_equal. cbn [transactions set_transactions]. by apply root_ids. }
  split; [|done]. unfold validate_block. rewrite Hpow. do 5 (destruct (ensure _ _) as [[]|e|x]; [|done..]).
  assert (Hfold : ∀ A (g : A → Transaction → outcome CoreError A) txs a,
    (∀ a tx, g a (swap tx) = g a tx) → fold_outcome g a (swap <$> txs) = fold_outcome g a txs).
  { intros A g txs a Hg. revert a; induction txs as [|tx txs IH]; intros a; cbn; [done|].
    rewrite Hg. destruct (g a tx); cbn; [apply IH|done|done]. }
  unfold validate_transactions, validate_verkle_proof. cbn [transactions set_transactions mbind outcome_bind].
  rewrite !Hfold; [done| |].
  all: intros st tx; by destruct (Hswap tx) as (? & ? & ? & ? & ->), st.
Qed.
End theorems.

(** ** Examples *)
Section examples.
#[local] Existing Instance toy_blake3.
#[local] Existing Instance toy_k256.
#[local] Existing Instance toy_commitments.

Definition coinbase_tx (v : Z) : Transaction :=
  Transaction_new [] [{| value := v; pubkey_hash := hash_of 1 |}].
(** An easy block over the diamond: its only transaction is a coinbase. *)
Definition easy_block : BlockNode :=
  set_transactions [coinbase_tx 5]
    {| header := {| block_id := hash_of 9; parents := ∅; timestamp := 1000; difficulty := 2 ^ 64 - 1;
                    nonce := 0; verkle_root := zero32; verkle_proofs := None; header_signature := None |};
       children := ∅; selected_parent := None; blue_set := ∅; red_set := ∅; blue_score := 0;
       transactions := [] |}.

Lemma validate_block_spec_witness : block_valid easy_block Dag_new empty_tree 1000.
Proof. apply (validate_block_spec (λ l, l)); [done|]. vm_compute. reflexivity. Defined.

(** Two lists that differ in a payload. *)
Definition pair_of (payload : list byte) : list Transaction :=
  [coinbase_tx 5; set_execution payload None 1 1 (coinbase_tx 6)].

Lemma merkle_root_commits_witness : id <$> pair_of [] = id <$> pair_of [x01].
Proof.
  apply (merkle_root_commits (pair_of []) (pair_of [x01])); [reflexivity| |reflexivity].
  intros x y Hx Hy _.
  assert (E : ∀ p, merkle_strings 2 (id <$> pair_of p)
    = [as_bytes (id (coinbase_tx 5)) ++ as_bytes (id (coinbase_tx 6))]) by reflexivity.
  change (length (pair_of [])) with 2%nat in Hx, Hy. rewrite !E in Hx, Hy.
  apply elem_of_app in Hx as [->%list_elem_of_singleton| ->%list_elem_of_singleton];
  apply elem_of_app in Hy as [->%list_elem_of_singleton| ->%list_elem_of_singleton]; reflexivity.
Defined.
End examples.
