(* ===== verification/StateManager.v ===== *)
(** * The state manager

    [state_manager.rs]: the chain state (the Verkle tree, heights, snapshots, the
    supply, undo data), application of blocks with rollback on failure, stateful
    validation, disconnection and reorganisation, rollback to snapshots, and
    pruning.  The UTXO set is an argument of the methods, as in the code: a
    method runs on the pair [Chain] of the manager and the set.

    The compact encoding of execution witnesses is in [Witness.v]. *)

From S2P Require Import Prelude Crypto Errors Transaction Economics Utxo Dag State Ghostdag VerkleTree VerkleProofs GasMeter Vm BlockValidation.
From Stdlib Require Import Init.Byte.

Inductive StateManagerError :=
| InvalidRollback (msg : string)
| SnapshotNotFound (height : Z)
| ApplyBlockFailed (msg : string)
| RestoreFailed (msg : string)
| SmCryptographicError (msg : string)
| SmSerializationError (msg : string)
| SupplyCapExceeded (msg : string)
| BurnAddressViolation (msg : string).

#[global] Instance StateManagerError_eq_dec : EqDecision StateManagerError.
Proof. solve_decision. Defined.

(** [impl From<CoreError>] *)
Definition from_core (err : CoreError) : StateManagerError :=
  SmCryptographicError ("CoreError: " +:+ fmt err).

(** The manager's own [GasFeeWitness] has the fields of the tree's. *)
Record StateSnapshot := {
  snapshot_height : Z;
  snapshot_root : bytes32;
  snapshot_supply : Z;
  snapshot_gas_fees : list GasFeeWitness;
  last_block_hash : option Hash
}.

Record BlockUndo := {
  spent_utxos : list (OutPoint * TxOutput);
  created_utxos : list OutPoint;
  verkle_updates : list (bytes32 * option (list byte));
  total_supply_delta : Z;
  gas_fees_added : list GasFeeWitness
}.

Definition BlockUndo_new : BlockUndo :=
  {| spent_utxos := []; created_utxos := []; verkle_updates := []; total_supply_delta := 0;
     gas_fees_added := [] |}.

(** [i128] arithmetic, wrapping. *)
Definition wrap_i128 (z : Z) : Z := (z + 2 ^ 127) mod 2 ^ 128 - 2 ^ 127.

Section state_manager.
Context `{Blake3} `{K256} `{Commitments} `{Wasm} {S : Type} `{Storage S}.

(** [apply_lock] is never taken and is left out. *)
Record StateManager := {
  tree : VerkleTree (S := S);
  current_height : Z;
  snapshots : list StateSnapshot;
  snapshot_storages : list S;
  sm_prune_markers : gmap OutPoint PruneMarker;
  outpoint_to_key : gmap OutPoint bytes32;
  current_total_supply : Z;
  block_gas_fees : list GasFeeWitness;
  pending_updates : list (bytes32 * list byte);
  applying_block : bool;
  block_undo_data : gmap Hash BlockUndo;
  current_block_hash : option Hash
}.

(** The manager and the UTXO set it is given. *)
Record Chain := { manager : StateManager; coins : UtxoSet }.
Abbreviation chain_method := (method Chain StateManagerError).

Definition set_manager (m : StateManager) (c : Chain) : Chain := {| manager := m; coins := coins c |}.
Definition set_coins (u : UtxoSet) (c : Chain) : Chain := {| manager := manager c; coins := u |}.

(** Functional updates of the manager's fields. *)
Definition set_tree t (m : StateManager) : StateManager :=
  {| tree := t; current_height := current_height m; snapshots := snapshots m;
     snapshot_storages := snapshot_storages m; sm_prune_markers := sm_prune_markers m;
     outpoint_to_key := outpoint_to_key m; current_total_supply := current_total_supply m;
     block_gas_fees := block_gas_fees m; pending_updates := pending_updates m;
     applying_block := applying_block m; block_undo_data := block_undo_data m;
     current_block_hash := current_block_hash m |}.
Definition set_height h (m : StateManager) : StateManager :=
  {| tree := tree m; current_height := h; snapshots := snapshots m;
     snapshot_storages := snapshot_storages m; sm_prune_markers := sm_prune_markers m;
     outpoint_to_key := outpoint_to_key m; current_total_supply := current_total_supply m;
     block_gas_fees := block_gas_fees m; pending_updates := pending_updates m;
     applying_block := applying_block m; block_undo_data := block_undo_data m;
     current_block_hash := current_block_hash m |}.
Definition set_snapshots sn st (m : StateManager) : StateManager :=
  {| tree := tree m; current_height := current_height m; snapshots := sn;
     snapshot_storages := st; sm_prune_markers := sm_prune_markers m;
     outpoint_to_key := outpoint_to_key m; current_total_supply := current_total_supply m;
     block_gas_fees := block_gas_fees m; pending_updates := pending_updates m;
     applying_block := applying_block m; block_undo_data := block_undo_data m;
     current_block_hash := current_block_hash m |}.
Definition set_markers p (m : StateManager) : StateManager :=
  {| tree := tree m; current_height := current_height m; snapshots := snapshots m;
     snapshot_storages := snapshot_storages m; sm_prune_markers := p;
     outpoint_to_key := outpoint_to_key m; current_total_supply := current_total_supply m;
     block_gas_fees := block_gas_fees m; pending_updates := pending_updates m;
     applying_block := applying_block m; block_undo_data := block_undo_data m;
     current_block_hash := current_block_hash m |}.
Definition set_keys k (m : StateManager) : StateManager :=
  {| tree := tree m; current_height := current_height m; snapshots := snapshots m;
     snapshot_storages := snapshot_storages m; sm_prune_markers := sm_prune_markers m;
     outpoint_to_key := k; current_total_supply := current_total_supply m;
     block_gas_fees := block_gas_fees m; pending_updates := pending_updates m;
     applying_block := applying_block m; block_undo_data := block_undo_data m;
     current_block_hash := current_block_hash m |}.
Definition set_supply v (m : StateManager) : StateManager :=
  {| tree := tree m; current_height := current_height m; snapshots := snapshots m;
     snapshot_storages := snapshot_storages m; sm_prune_markers := sm_prune_markers m;
     outpoint_to_key := outpoint_to_key m; current_total_supply := v;
     block_gas_fees := block_gas_fees m; pending_updates := pending_updates m;
     applying_block := applying_block m; block_undo_data := block_undo_data m;
     current_block_hash := current_block_hash m |}.
Definition set_gas_fees g (m : StateManager) : StateManager :=
  {| tree := tree m; current_height := current_height m; snapshots := snapshots m;
     snapshot_storages := snapshot_storages m; sm_prune_markers := sm_prune_markers m;
     outpoint_to_key := outpoint_to_key m; current_total_supply := current_total_supply m;
     block_gas_fees := g; pending_updates := pending_updates m;
     applying_block := applying_block m; block_undo_data := block_undo_data m;
     current_block_hash := current_block_hash m |}.
Definition set_pending p (m : StateManager) : StateManager :=
  {| tree := tree m; current_height := current_height m; snapshots := snapshots m;
     snapshot_storages := snapshot_storages m; sm_prune_markers := sm_prune_markers m;
     outpoint_to_key := outpoint_to_key m; current_total_supply := current_total_supply m;
     block_gas_fees := block_gas_fees m; pending_updates := p;
     applying_block := applying_block m; block_undo_data := block_undo_data m;
     current_block_hash := current_block_hash m |}.
Definition set_applying b (m : StateManager) : StateManager :=
  {| tree := tree m; current_height := current_height m; snapshots := snapshots m;
     snapshot_storages := snapshot_storages m; sm_prune_markers := sm_prune_markers m;
     outpoint_to_key := outpoint_to_key m; current_total_supply := current_total_supply m;
     block_gas_fees := block_gas_fees m; pending_updates := pending_updates m;
     applying_block := b; block_undo_data := block_undo_data m;
     current_block_hash := current_block_hash m |}.
Definition set_undo_data u (m : StateManager) : StateManager :=
  {| tree := tree m; current_height := current_height m; snapshots := snapshots m;
     snapshot_storages := snapshot_storages m; sm_prune_markers := sm_prune_markers m;
     outpoint_to_key := outpoint_to_key m; current_total_supply := current_total_supply m;
     block_gas_fees := block_gas_fees m; pending_updates := pending_updates m;
     applying_block := applying_block m; block_undo_data := u;
     current_block_hash := current_block_hash m |}.
Definition set_block_hash h (m : StateManager) : StateManager :=
  {| tree := tree m; current_height := current_height m; snapshots := snapshots m;
     snapshot_storages := snapshot_storages m; sm_prune_markers := sm_prune_markers m;
     outpoint_to_key := outpoint_to_key m; current_total_supply := current_total_supply m;
     block_gas_fees := block_gas_fees m; pending_updates := pending_updates m;
     applying_block := applying_block m; block_undo_data := block_undo_data m;
     current_block_hash := h |}.

(** A method of the tree. *)
Definition on_tree {A} (m : method VerkleTree CoreError A) : method StateManager CoreError A :=
  zoom tree set_tree m.

(** [tree.get_root().unwrap_or([0u8; 32])] *)
Definition root_or_zero : method VerkleTree CoreError bytes32 :=
  catch get_root (λ root, mret root) (λ _, mret zero32).

Definition StateManager_new (t : VerkleTree) : outcome StateManagerError StateManager :=
  match get_root t with
  | (Ok root, t) =>
      Ok {| tree := t; current_height := 0;
            snapshots := [{| snapshot_height := 0; snapshot_root := root; snapshot_supply := 0;
                             snapshot_gas_fees := []; last_block_hash := None |}];
            snapshot_storages := [storage t]; sm_prune_markers := ∅; outpoint_to_key := ∅;
            current_total_supply := 0; block_gas_fees := []; pending_updates := [];
            applying_block := false; block_undo_data := ∅; current_block_hash := None |}
  | (Err _, _) => Err (SmCryptographicError "Failed to get root: {}")
  | (Panic p, _) => Panic p
  end.

(** ** Application of a transaction *)

(** The chain while a block is applied, with the undo data collected so far. *)
Record Applying := { ap_chain : Chain; ap_undo : BlockUndo }.
Abbreviation applying_method := (method Applying StateManagerError).

Definition spend_update (outpoint : OutPoint) (output : TxOutput) (a : Applying) : Applying :=
  let c := ap_chain a in let m := manager c in let undo := ap_undo a in
  {| ap_chain :=
       {| manager := set_markers (delete outpoint (sm_prune_markers m))
                       (set_keys (delete outpoint (outpoint_to_key m))
                         (set_supply (sat_sub (current_total_supply m) (value output)) m));
          coins := utxo_remove outpoint (coins c) |};
     ap_undo :=
       {| spent_utxos := spent_utxos undo ++ [(outpoint, output)];
          created_utxos := created_utxos undo; verkle_updates := verkle_updates undo;
          total_supply_delta := wrap_i128 (total_supply_delta undo - value output);
          gas_fees_added := gas_fees_added undo |} |}.

Definition spend_utxo (input : TxInput) : applying_method unit :=
  a ← get;
  match utxos (coins (ap_chain a)) !! outpoint_of input with
  | Some output => modify (spend_update (outpoint_of input) output)
  | None => throw (ApplyBlockFailed "Missing UTXO input in transaction {} at outpoint {:?}")
  end.

(** [self.tree.get(key).ok().flatten()] *)
Definition old_value (t : VerkleTree (S := S)) (key : bytes32) : option (list byte) :=
  match get_key t key with Ok v => v | _ => None end.

Definition create_update (tx : Transaction) (p : nat * TxOutput) (a : Applying) : Applying :=
  let c := ap_chain a in let m := manager c in let undo := ap_undo a in
  let output := p.2 in
  let key := hash_with_index tx (wrap 32 (Z.of_nat p.1)) in
  let outpoint := created_outpoint tx p.1 in
  {| ap_chain :=
       {| manager := set_supply (sat_add 128 (current_total_supply m) (value output))
                       (set_keys (<[outpoint := key]> (outpoint_to_key m))
                         (set_pending (pending_updates m ++ [(key, serialize output)]) m));
          coins := utxo_insert outpoint output (coins c) |};
     ap_undo :=
       {| spent_utxos := spent_utxos undo; created_utxos := created_utxos undo ++ [outpoint];
          verkle_updates := verkle_updates undo ++ [(key, old_value (tree m) key)];
          total_supply_delta := wrap_i128 (total_supply_delta undo + value output);
          gas_fees_added := gas_fees_added undo |} |}.

Definition apply_utxo_transaction (tx : Transaction) : applying_method unit :=
  _ ← for_each spend_utxo (inputs tx);
  for_each (λ p, modify (create_update tx p)) (enumerate (outputs tx)).

Definition create_gas_fee_witness (total_fee : Z) : GasFeeWitness :=
  let miner := wmul 128 total_fee MINER_REWARD_PERCENT / 100 in
  {| total_gas_fee := total_fee; miner_share := miner; fullnode_share := sat_sub total_fee miner |}.

Definition verify_gas_fee_distribution (w : GasFeeWitness) : bool :=
  let expected_miner := wmul 128 (total_gas_fee w) MINER_REWARD_PERCENT / 100 in
  let expected_fullnode := sat_sub (total_gas_fee w) expected_miner in
  (miner_share w =? expected_miner) && (fullnode_share w =? expected_fullnode)
  && (wadd 128 (miner_share w) (fullnode_share w) =? total_gas_fee w).

Definition add_gas_witness (w : GasFeeWitness) (a : Applying) : Applying :=
  let c := ap_chain a in let undo := ap_undo a in
  {| ap_chain := set_manager (set_gas_fees (block_gas_fees (manager c) ++ [w]) (manager c)) c;
     ap_undo := {| spent_utxos := spent_utxos undo; created_utxos := created_utxos undo;
                   verkle_updates := verkle_updates undo;
                   total_supply_delta := total_supply_delta undo;
                   gas_fees_added := gas_fees_added undo ++ [w] |} |}.

Definition set_ap_tree (t : VerkleTree) (a : Applying) : Applying :=
  let c := ap_chain a in
  {| ap_chain := set_manager (set_tree t (manager c)) c; ap_undo := ap_undo a |}.

Definition apply_contract_transition (tx : Transaction) : applying_method unit :=
  let payload_data_cost :=
    foldl (λ acc byte, wadd 64 acc (if byte_Z byte =? 0 then 4 else 16)) 0 (execution_payload tx) in
  let required_gas := sat_add 64 21000 payload_data_cost in
  if gas_limit tx <? required_gas
  then throw (ApplyBlockFailed "Insufficient gas limit ({}), required {} for intrinsic+payload cost {} bytes")
  else
    a ← get;
    let t := tree (manager (ap_chain a)) in
    tree_snapshot ← lift (map_err from_core (VerkleTree_clone t));
    match execute (execution_payload tx) (gas_limit tx) t with
    | (Ok gas_used, t) =>
        _ ← modify (set_ap_tree t);
        let total_gas_fee := sat_mul 128 gas_used (max_fee_per_gas tx) in
        _ ← modify (add_gas_witness (create_gas_fee_witness total_gas_fee));
        apply_utxo_transaction tx
    | (Err _, _) =>
        _ ← modify (set_ap_tree tree_snapshot);
        throw (ApplyBlockFailed "VM execution failed: {}")
    | (Panic p, t) => _ ← modify (set_ap_tree t); panic p
    end.

Definition apply_transaction (tx : Transaction) : applying_method unit :=
  if bool_decide (execution_payload tx = []) && bool_decide (contract_address tx = None)
  then apply_utxo_transaction tx
  else apply_contract_transition tx.

(** ** Application of a block *)

(** The restoration written out on each failing path of [apply_block]. *)
Definition restore_chain (c0 : Chain) (snapshot_tree : VerkleTree) (c : Chain) : Chain :=
  let m0 := manager c0 in
  {| manager :=
       set_block_hash (current_block_hash m0)
         (set_keys (outpoint_to_key m0)
           (set_markers (sm_prune_markers m0)
             (set_pending (pending_updates m0)
               (set_gas_fees (block_gas_fees m0)
                 (set_supply (current_total_supply m0)
                   (set_height (current_height m0) (set_tree snapshot_tree (manager c))))))));
     coins := coins c0 |}.

Definition push_snapshot (root : bytes32) (m : StateManager) : StateManager :=
  set_snapshots
    (snapshots m ++ [{| snapshot_height := current_height m; snapshot_root := root;
                        snapshot_supply := current_total_supply m;
                        snapshot_gas_fees := block_gas_fees m;
                        last_block_hash := current_block_hash m |}])
    (snapshot_storages m ++ [storage (tree m)]) m.

(** After the state transition: the new height, root, snapshot and undo data. *)
Definition commit_block (block : BlockNode) (snapshot_height : Z) (undo : BlockUndo) :
    method StateManager StateManagerError unit :=
  _ ← modify (λ m, set_height (wadd 64 (current_height m) 1) m);
  _ ← modify (set_block_hash (Some (block_id (header block))));
  new_root ← rethrow from_core (on_tree root_or_zero);
  m ← get;
  match snapshots m !! Z.to_nat snapshot_height with
  | None => panic "index out of bounds"
  | Some _ =>
      _ ← modify (push_snapshot new_root);
      modify (λ m, set_undo_data (<[block_id (header block) := undo]> (block_undo_data m)) m)
  end.

(** The body of [apply_block], between the two updates of the flag. *)
Definition apply_block_body (block : BlockNode) (c0 : Chain) : outcome StateManagerError unit * Chain :=
  match VerkleTree_clone (tree (manager c0)) with
  | Err e => (Panic "failed to clone VerkleTree", c0)
  | Panic p => (Panic p, c0)
  | Ok snapshot_tree =>
      let c := set_manager (set_gas_fees [] (set_pending [] (manager c0))) c0 in
      match for_each apply_transaction (transactions block) {| ap_chain := c; ap_undo := BlockUndo_new |} with
      | (Err e, a) => (Err e, restore_chain c0 snapshot_tree (ap_chain a))
      | (Panic p, a) => (Panic p, ap_chain a)
      | (Ok _, a) =>
          let c := ap_chain a in
          let m := manager c in
          match on_tree (apply_state_transition (pending_updates m) (current_total_supply m)) m with
          | (Err e, m) =>
              (Err (ApplyBlockFailed "State transition failed: {}"),
               restore_chain c0 snapshot_tree (set_manager m c))
          | (Panic p, m) => (Panic p, set_manager m c)
          | (Ok _, m) =>
              let '(r, m) := commit_block block (current_height (manager c0)) (ap_undo a) m in
              (r, set_manager m c)
          end
      end
  end.

(** [applying_block.swap(true)] and the guard that stores [false] on every way
    out. *)
Definition sm_apply_block (block : BlockNode) (c : Chain) : outcome StateManagerError unit * Chain :=
  if applying_block (manager c)
  then (Err (ApplyBlockFailed "Concurrent block application not allowed"), c)
  else
    let '(r, c) := apply_block_body block (set_manager (set_applying true (manager c)) c) in
    (r, set_manager (set_applying false (manager c)) c).

(** The clock and the arrival order of the signature workers are arguments. *)
Definition validate_and_apply_block (arrival : list bool → list bool) (current_time : Z)
    (block : BlockNode) (dag : Dag) (consensus : GhostDag) : chain_method unit :=
  c ← get;
  _ ← lift (map_err from_core (validate_block arrival block dag (tree (manager c)) current_time));
  allowed ← lift (map_err from_core (can_reorganize consensus dag (block_id (header block))));
  match allowed with
  | true => sm_apply_block block
  | false => throw (ApplyBlockFailed "Block reorganization would violate finality constraints")
  end.

(** ** Checks *)
Definition verify_global_supply (m : StateManager) : outcome StateManagerError unit :=
  ensure (current_total_supply m <=? MAX_GLOBAL_SUPPLY_NANO_SLUG)
    (SupplyCapExceeded "Total supply {} exceeds maximum allowed {}").

(** Every input of every transaction but the coinbases is in the set as it is
    before the block. *)
Definition check_unspent (u : UtxoSet) (tx : Transaction) : outcome CoreError unit :=
  if is_coinbase tx then Ok tt
  else fold_outcome (λ _ input,
    match utxos u !! outpoint_of input with
    | Some _ => Ok tt
    | None => Err (ValidationError
        "Double spend detected: input {:?} in transaction {} is already spent or doesn't exist")
    end) tt (inputs tx).

(** One transaction's turn of the check of the declared root. *)
Definition check_root (block : BlockNode) (_ : Transaction) : method VerkleTree CoreError unit :=
  catch get_root
    (λ current_root,
       if negb (bool_decide (verkle_root (header block) = from_bytes current_root))
          && negb (bool_decide (transactions block = []))
       then throw (ValidationError "Verkle root mismatch: block declares {:?}, current state is {:?}")
       else mret tt)
    (λ _, mret tt).

Definition total_input (u : UtxoSet) (tx : Transaction) : Z :=
  foldl (λ total input, match utxos u !! outpoint_of input with
                        | Some output => sat_add 64 total (value output)
                        | None => total
                        end) 0 (inputs tx).
Definition total_output (tx : Transaction) : Z :=
  foldl (λ total output, sat_add 64 total (value output)) 0 (outputs tx).

Definition check_inflation (u : UtxoSet) (tx : Transaction) : outcome CoreError unit :=
  if is_coinbase tx then Ok tt
  else
    let gas_fee := sat_mul 128 (gas_limit tx) (max_fee_per_gas tx) in
    let total_output_with_fee := sat_add 64 (total_output tx) (wrap 64 gas_fee) in
    ensure (total_output_with_fee <=? total_input u tx)
      (ValidationError "Inflation detected in transaction {}: input {} < output {} + fee {}").

Definition validate_block_stateful (block : BlockNode) (u : UtxoSet) : method StateManager CoreError unit :=
  _ ← lift (fold_outcome (λ _, check_unspent u) tt (transactions block));
  _ ← match verkle_proofs (header block) with
      | Some _ => on_tree (for_each (check_root block) (transactions block))
      | None => mret tt
      end;
  lift (fold_outcome (λ _, check_inflation u) tt (transactions block)).

(** ** Disconnection and reorganisation *)
Definition uncreate (outpoint : OutPoint) (c : Chain) : Chain :=
  {| manager := set_keys (delete outpoint (outpoint_to_key (manager c))) (manager c);
     coins := utxo_remove outpoint (coins c) |}.

(** The key is made of the little-endian index. *)
Definition restored_key (outpoint : OutPoint) : bytes32 :=
  Hash_new (as_bytes outpoint.1 ++ le_bytes 4 outpoint.2).

Definition unspend (p : OutPoint * TxOutput) (c : Chain) : Chain :=
  {| manager := set_keys (<[p.1 := restored_key p.1]> (outpoint_to_key (manager c))) (manager c);
     coins := utxo_insert p.1 p.2 (coins c) |}.

Definition restore_value (p : bytes32 * option (list byte)) (t : VerkleTree (S := S)) : VerkleTree :=
  insert_key p.1 (default [] p.2) t.

Definition reverse_supply (delta supply : Z) : Z :=
  if 0 <? delta then sat_sub supply (wrap 128 delta)
  else sat_add 128 supply (wrap 128 (wrap_i128 (- delta))).

Definition pop {A} (l : list A) : list A := take (length l - 1) l.

Definition undo_block (block_hash : Hash) (undo : BlockUndo) (c : Chain) : Chain :=
  let c := foldl (λ c k, uncreate k c) c (created_utxos undo) in
  let c := foldl (λ c p, unspend p c) c (spent_utxos undo) in
  let m := manager c in
  let m := set_tree (foldl (λ t p, restore_value p t) (tree m) (reverse (verkle_updates undo))) m in
  let m := set_supply (reverse_supply (total_supply_delta undo) (current_total_supply m)) m in
  let m := set_gas_fees (foldl (λ g _, pop g) (block_gas_fees m) (gas_fees_added undo)) m in
  let m := set_height (sat_sub (current_height m) 1) m in
  let m := set_snapshots (pop (snapshots m)) (pop (snapshot_storages m)) m in
  set_manager (set_undo_data (delete block_hash (block_undo_data m)) m) c.

Definition disconnect_block (block : BlockNode) : chain_method unit :=
  let block_hash := block_id (header block) in
  c ← get;
  undo ← lift (ok_or (block_undo_data (manager c) !! block_hash)
                 (ApplyBlockFailed "No undo data for block {}"));
  modify (undo_block block_hash undo).

Definition connect_block (block : BlockNode) : chain_method unit :=
  c ← get;
  _ ← rethrow (λ _, ApplyBlockFailed "Stateful validation failed: {:?}")
        (zoom manager set_manager (validate_block_stateful block (coins c)));
  sm_apply_block block.

(** The partition of the planned blocks: those with undo data, up to the first
    without, are disconnected. *)
Definition plan_block (dag : Dag) (m : StateManager) (st : list Hash * list Hash * bool) (h : Hash) :
    list Hash * list Hash * bool :=
  let '(disconnect_blocks, connect_blocks, found_divergence) := st in
  match get_block dag h with
  | Some _ =>
      if found_divergence : bool then (disconnect_blocks, connect_blocks ++ [h], true)
      else if bool_decide (is_Some (block_undo_data m !! h))
           then (disconnect_blocks ++ [h], connect_blocks, false)
           else (disconnect_blocks, connect_blocks ++ [h], true)
  | None => st
  end.

Definition split_plan (dag : Dag) (m : StateManager) (plan : list Hash) : list Hash * list Hash :=
  (foldl (plan_block dag m) ([], [], false) plan).1.

Definition with_block (dag : Dag) (f : BlockNode → chain_method unit) (h : Hash) : chain_method unit :=
  match get_block dag h with Some block => f block | None => mret tt end.

Definition perform_reorganization (dag : Dag) (plan : list Hash) : chain_method unit :=
  c ← get;
  let '(disconnect_blocks, connect_blocks) := split_plan dag (manager c) plan in
  _ ← for_each (with_block dag disconnect_block) (reverse disconnect_blocks);
  for_each (with_block dag connect_block) connect_blocks.

(** [order] is the iteration order of a set in [find_common_ancestor]; a chain of
    selected parents that does not end is a panic here (the code would loop). *)
Definition reorganize_chain (order : gset Hash → list Hash) (dag : Dag) (ghostdag : GhostDag)
    (new_tip : Hash) : chain_method unit :=
  allowed ← lift (map_err (λ _, ApplyBlockFailed "Cannot reorganize: {:?}")
                    (can_reorganize ghostdag dag new_tip));
  match allowed with
  | false => throw (ApplyBlockFailed "Reorganization would violate finality")
  | true =>
      plan ← lift (map_err (λ _, ApplyBlockFailed "Failed to plan reorganization: {:?}")
                     (reorganize_to_tip order ghostdag dag new_tip));
      match plan with
      | None => panic "endless chain of selected parents"
      | Some blocks_to_change =>
          _ ← rethrow from_core (zoom manager set_manager (on_tree root_or_zero));
          c0 ← get;
          catch (perform_reorganization dag blocks_to_change) mret (λ e,
            _ ← modify (λ c,
              {| manager := set_block_hash (current_block_hash (manager c0))
                   (set_gas_fees (block_gas_fees (manager c0))
                     (set_supply (current_total_supply (manager c0))
                       (set_height (current_height (manager c0)) (manager c))));
                 coins := coins c0 |});
            throw e)
      end
  end.

(** ** Rollback to a snapshot *)
Abbreviation manager_method := (method StateManager StateManagerError).

Definition get_state_at (m : StateManager) (height : Z) : option StateSnapshot :=
  head (filter (λ s, snapshot_height s = height) (snapshots m)).

(** [v[i]] *)
Definition index_or_panic {A} (l : list A) (i : Z) : outcome StateManagerError A :=
  match l !! Z.to_nat i with Some x => Ok x | None => Panic "index out of bounds" end.

Definition rollback_state (target_height : Z) : manager_method unit :=
  m ← get;
  _ ← lift (ensure (target_height <=? current_height m)
              (InvalidRollback "Cannot rollback to height {} when current height is {}"));
  _ ← lift (ok_or (get_state_at m target_height) (SnapshotNotFound target_height));
  let n := (Z.to_nat target_height + 1)%nat in
  _ ← modify (λ m, set_height target_height
                     (set_snapshots (take n (snapshots m)) (take n (snapshot_storages m)) m));
  m ← get;
  snapshot_storage ← lift (ok_or (snapshot_storages m !! Z.to_nat target_height)
                             (RestoreFailed "Snapshot storage missing after truncation"));
  t ← lift (map_err (λ _, RestoreFailed "Failed to restore tree: {}") (VerkleTree_new snapshot_storage));
  _ ← modify (set_tree t);
  snapshot ← lift (index_or_panic (snapshots m) target_height);
  _ ← modify (λ m, set_gas_fees (snapshot_gas_fees snapshot) (set_supply (snapshot_supply snapshot) m));
  restored_root ← rethrow from_core (on_tree root_or_zero);
  lift (ensure (bool_decide (restored_root = snapshot_root snapshot))
          (RestoreFailed "Root mismatch after rollback: expected {:?}, got {:?}")).

(** The restoration from the backup in [rollback]. *)
Definition restore_backup (backup_tree : VerkleTree) (m0 m : StateManager) : StateManager :=
  set_gas_fees (block_gas_fees m0)
    (set_supply (current_total_supply m0)
      (set_snapshots (snapshots m0) (snapshot_storages m0)
        (set_height (current_height m0) (set_tree backup_tree m)))).

(** The verification after a successful [rollback_state]. *)
Definition verify_rollback (target_height : Z) (backup_tree : VerkleTree) (m0 : StateManager) :
    manager_method unit :=
  catch (rethrow from_core (on_tree get_root))
    (λ current_root,
       m ← get;
       snapshot ← lift (index_or_panic (snapshots m) target_height);
       if bool_decide (current_root = snapshot_root snapshot) then mret tt
       else
         _ ← modify (restore_backup backup_tree m0);
         throw (RestoreFailed "Silent corruption detected: root hash mismatch after rollback to height {}"))
    (λ _, mret tt).

Definition rollback (target_height : Z) : manager_method unit :=
  m0 ← get;
  _ ← lift (ensure (target_height <=? current_height m0)
              (InvalidRollback "Requested rollback to {} is beyond current height {}"));
  backup_tree ← lift (map_err from_core (VerkleTree_clone (tree m0)));
  catch (rollback_state target_height)
    (λ _, verify_rollback target_height backup_tree m0)
    (λ err, _ ← modify (restore_backup backup_tree m0); throw err).

(** [iter().position(p)] *)
Fixpoint position {A} (p : A → bool) (l : list A) : option nat :=
  match l with
  | [] => None
  | x :: l => if p x then Some O else Datatypes.S <$> position p l
  end.

Definition restore_from_snapshot (root : bytes32) (height : Z) : manager_method unit :=
  m ← get;
  snapshot_idx ← lift (ok_or (position (λ s, (snapshot_height s =? height)
                                            && bool_decide (snapshot_root s = root)) (snapshots m))
                         (SnapshotNotFound height));
  st ← lift (ok_or (snapshot_storages m !! snapshot_idx) (RestoreFailed "Storage missing"));
  t ← lift (map_err (λ _, RestoreFailed "Failed to restore tree: {}") (VerkleTree_new st));
  modify (λ m,
    let kept := take (snapshot_idx + 1) (snapshots m) in
    set_block_hash (s ← last kept; last_block_hash s)
      (set_snapshots kept (take (snapshot_idx + 1) (snapshot_storages m))
        (set_height height (set_tree t m)))).

(** ** Accessors *)
Definition get_root_hash : manager_method bytes32 :=
  rethrow (λ _, SmCryptographicError "Failed to get root: {}") (on_tree get_root).

Definition get_current_state : manager_method StateSnapshot :=
  root ← get_root_hash;
  m ← get;
  mret {| snapshot_height := current_height m; snapshot_root := root;
          snapshot_supply := current_total_supply m; snapshot_gas_fees := block_gas_fees m;
          last_block_hash := current_block_hash m |}.

Definition verify_state_root (expected_root : Hash) : manager_method unit :=
  current_root ← get_root_hash;
  lift (ensure (bool_decide (from_bytes current_root = expected_root))
          (RestoreFailed "State root mismatch after restore: expected {}, got {}")).

Definition get_current_state_root : manager_method Hash :=
  root ← rethrow from_core (on_tree root_or_zero); mret (from_bytes root).

Definition get_last_block_hash (m : StateManager) : Hash := default (from_bytes zero32) (current_block_hash m).

(** ** Pruning *)
Definition mark_outpoint_for_pruning (outpoint : OutPoint) (ep ts : Z) (m : StateManager) : StateManager :=
  set_markers (<[outpoint := {| epoch := ep; marker_timestamp := ts |}]> (sm_prune_markers m)) m.

(** The loop body: outpoints without a key are passed over. *)
Definition prune_outpoint (outpoint : OutPoint) : chain_method (list OutPoint) :=
  c ← get;
  match outpoint_to_key (manager c) !! outpoint with
  | Some key =>
      _ ← zoom manager set_manager
            (rethrow (λ _, SmCryptographicError "Prune failed: {}") (on_tree (prune_key key)));
      _ ← modify (λ c, set_coins (utxo_remove outpoint (coins c)) c);
      _ ← modify (λ c, set_manager
            (set_markers (delete outpoint (sm_prune_markers (manager c)))
              (set_keys (delete outpoint (outpoint_to_key (manager c))) (manager c))) c);
      mret [outpoint]
  | None => mret []
  end.

Definition execute_pruning_cycle (epoch_threshold : Z) : chain_method (list OutPoint) :=
  c ← get;
  let keys_to_prune := (map_to_list
    (filter (λ '(_, marker), epoch marker ≤ epoch_threshold) (sm_prune_markers (manager c)))).*1 in
  pruned ← mapM prune_outpoint keys_to_prune;
  mret (mjoin pruned).

(** [drain().collect()] lists the markers in the order of [map_to_list]. *)
Definition rebuild_state_root_and_prune_proofs : manager_method Z :=
  m ← get;
  let pruned_count := sat_sub (Z.of_nat (size (sm_prune_markers m))) 1000 in
  if 0 <? pruned_count then
    let markers := sort_by (λ x y, marker_timestamp x.2 <=? marker_timestamp y.2)
                     (map_to_list (sm_prune_markers m)) in
    _ ← modify (set_markers (list_to_map (take 1000 markers)));
    mret pruned_count
  else mret pruned_count.

(** ** Consistency checks *)
Definition validate_snapshots (m : StateManager) : outcome StateManagerError unit :=
  _ ← ensure (forallb (λ p, snapshot_height p.2 =? Z.of_nat p.1) (enumerate (snapshots m)))
        (ApplyBlockFailed "Snapshot height mismatch at index {}");
  ensure (bool_decide (length (snapshots m) = length (snapshot_storages m)))
    (ApplyBlockFailed "Snapshot and storage length mismatch").

Definition cross_check_supply_consistency (u : UtxoSet) : manager_method unit :=
  m ← get;
  calculated_supply ← lift (fold_outcome (λ total p,
      ok_or (checked_add 128 total (value p.2)) (SupplyCapExceeded "UTXO sum overflow during supply check"))
    0 (map_to_list (utxos u)));
  _ ← lift (ensure (calculated_supply =? current_total_supply m)
              (ApplyBlockFailed "Supply mismatch: UTXO sum {} != StateManager total supply {}. State corruption detected!"));
  root ← rethrow from_core (on_tree root_or_zero);
  m ← get;
  match last (snapshots m) with
  | Some snapshot =>
      lift (ensure (bool_decide (snapshot_root snapshot = root))
              (ApplyBlockFailed "Root hash mismatch between snapshot and current tree"))
  | None => mret tt
  end.
End state_manager.

(** ** What the application of a block keeps *)
Section keeping.
Context `{Blake3} `{K256} `{Commitments} `{Wasm} {S : Type} `{HS : Storage S} `{!StorageLaws S}.
Implicit Types (m : StateManager (S := S)) (c : Chain (S := S)) (a : Applying (S := S)).

Definition tree_wf (t : VerkleTree (S := S)) : Prop := tree_ok t ∧ frame_ok t.

(** The parts of the manager no transaction touches, and a well-formed tree. *)
Definition same_frame m0 m : Prop :=
  tree_wf (tree m) ∧ current_height m = current_height m0 ∧ snapshots m = snapshots m0
  ∧ snapshot_storages m = snapshot_storages m0 ∧ applying_block m = applying_block m0
  ∧ block_undo_data m = block_undo_data m0 ∧ current_block_hash m = current_block_hash m0.

Definition applying_frame m0 a : Prop := same_frame m0 (manager (ap_chain a)).

Lemma utxo_transaction_frame m0 tx : preserves (applying_frame m0) (apply_utxo_transaction tx).
Proof. unfold apply_utxo_transaction, spend_utxo. keeps. Qed.

Lemma set_ap_tree_frame m0 t a : tree_wf t → applying_frame m0 a → applying_frame m0 (set_ap_tree t a).
Proof. intros Ht (_ & Ha). by split. Qed.

Lemma transaction_frame m0 tx : preserves (applying_frame m0) (apply_transaction tx).
Proof.
  unfold apply_transaction. destruct (_ && _); [apply utxo_transaction_frame|].
  unfold apply_contract_transition. destruct (_ <? _); [apply preserves_throw|].
  intros a Ha. erewrite method_bind_run by done. set (t := tree (manager (ap_chain a))).
  assert (Ht : tree_wf t) by apply Ha.
  destruct (clone_same t (proj2 Ht)) as (s & Es & _ & Hst & Hsf). unfold lift. rewrite Es.
  erewrite method_bind_run by done.
  pose proof (execute_keeps (execution_payload tx) (gas_limit tx) t (proj1 Ht) (proj2 Ht)) as Hx.
  destruct (execute (execution_payload tx) (gas_limit tx) t) as [[gas_used|e|x] t'].
  - refine (preserves_bind _ _ _ _ _ a Ha); [by apply preserves_modify; intros; apply set_ap_tree_frame|].
    intros _. apply preserves_bind; [by apply preserves_modify|]. intros _. apply utxo_transaction_frame.
  - by apply (set_ap_tree_frame m0 s a).
  - by apply (set_ap_tree_frame m0 t' a).
Qed.

Lemma transition_wf us supply t r t' :
  tree_wf t → apply_state_transition us supply t = (r, t') → tree_wf t'.
Proof.
  intros [Ht Hf] E. split.
  - by eapply transition_ok.
  - pose proof (run_frame [OpTransition us supply] t Ht Hf) as Hr. cbn in Hr. by rewrite E in Hr.
Qed.

(** [root_or_zero], specified. *)
Definition root_of (t : VerkleTree (S := S)) : outcome CoreError bytes32 :=
  match scratch_root t with Ok r => Ok r | Err _ => Ok zero32 | Panic p => Panic p end.

Lemma get_root_wf t :
  tree_wf t → ∃ t', get_root t = (scratch_root t, t') ∧ same_tree t t' ∧ tree_wf t'.
Proof.
  intros [Ht Hf]. destruct (get_root_ok t Ht) as (t' & E & Ht' & Hs & Hp & _).
  pose proof (root_frame t Ht Hf) as Hf'. rewrite E in Hf'. cbn [snd] in Hf'.
  exists t'. split; [done|]. split; [|by split]. split_and!; [done|done| |].
  all: destruct Hf as [Hc _], Hf' as [Hc' _]; congruence.
Qed.

Lemma root_or_zero_wf t :
  tree_wf t → ∃ t', root_or_zero t = (root_of t, t') ∧ same_tree t t' ∧ tree_wf t'.
Proof.
  intros Ht. destruct (get_root_wf t Ht) as (t' & E & Hs & Ht'). exists t'. split; [|done].
  unfold root_or_zero, root_of, catch. rewrite E. by destruct (scratch_root t).
Qed.

(** The manager and coins that a successful application leaves. *)
Record applied block c a c' : Prop := {
  app_run : for_each apply_transaction (transactions block)
      {| ap_chain := set_manager (set_gas_fees [] (set_pending [] (set_applying true (manager c)))) c;
         ap_undo := BlockUndo_new |} = (Ok tt, a);
  app_transition : ∃ t1, apply_state_transition (pending_updates (manager (ap_chain a)))
      (current_total_supply (manager (ap_chain a))) (tree (manager (ap_chain a))) = (Ok tt, t1)
      ∧ same_tree t1 (tree (manager c'));
  app_tree : tree_wf (tree (manager c'));
  app_coins : coins c' = coins (ap_chain a);
  app_height : current_height (manager c') = wadd 64 (current_height (manager c)) 1;
  app_snapshots : ∃ root, root_of (tree (manager c')) = Ok root
    ∧ snapshots (manager c') = snapshots (manager c) ++
      [{| snapshot_height := current_height (manager c'); snapshot_root := root;
          snapshot_supply := current_total_supply (manager (ap_chain a));
          snapshot_gas_fees := block_gas_fees (manager (ap_chain a));
          last_block_hash := Some (block_id (header block)) |}];
  app_storages : snapshot_storages (manager c') = snapshot_storages (manager c) ++ [storage (tree (manager c'))];
  app_markers : sm_prune_markers (manager c') = sm_prune_markers (manager (ap_chain a));
  app_keys : outpoint_to_key (manager c') = outpoint_to_key (manager (ap_chain a));
  app_supply : current_total_supply (manager c') = current_total_supply (manager (ap_chain a));
  app_gas : block_gas_fees (manager c') = block_gas_fees (manager (ap_chain a));
  app_flag : applying_block (manager c') = false;
  app_undo : block_undo_data (manager c') = <[block_id (header block) := ap_undo a]> (block_undo_data (manager c));
  app_hash : current_block_hash (manager c') = Some (block_id (header block));
  app_index : is_Some (snapshots (manager c) !! Z.to_nat (current_height (manager c)))
}.

(** The chain as it was, up to caches. *)
Definition restored c c' : Prop :=
  coins c' = coins c ∧ ∃ t', manager c' = set_tree t' (manager c)
  ∧ same_tree (tree (manager c)) t' ∧ tree_wf t'.

Lemma restore_chain_restored c0 snapshot_tree c :
  applying_block (manager c0) = false →
  same_frame (set_applying true (manager c0)) (manager c) →
  same_tree (tree (manager c0)) snapshot_tree → tree_wf snapshot_tree →
  let c' := restore_chain (set_manager (set_applying true (manager c0)) c0) snapshot_tree c in
  restored c0 (set_manager (set_applying false (manager c')) c').
Proof.
  intros Ha (_ & _ & Hsn & Hst & _ & Hu & _) Hs Ht. split; [done|]. exists snapshot_tree. split; [|done].
  destruct c0 as [m0 u0], c as [m u]. destruct m0, m. cbn in *. unfold set_tree. cbn. by simplify_eq.
Qed.

Lemma apply_block_cases block c :
  tree_wf (tree (manager c)) → applying_block (manager c) = false →
  match sm_apply_block block c with
  | (Ok _, c') => ∃ a, applied block c a c'
  | (Err _, c') => restored c c'
  | (Panic _, _) => True
  end.
Proof.
  intros Ht Hflag. unfold sm_apply_block. rewrite Hflag. unfold apply_block_body.
  cbn [manager coins set_manager tree set_applying].
  destruct (clone_same (tree (manager c)) (proj2 Ht)) as (s & -> & Hs & Hst & Hsf).
  match goal with |- context [for_each apply_transaction (transactions block) ?a0] =>
    assert (Hf0 : applying_frame (set_applying true (manager c)) a0) by done;
    pose proof (preserves_for_each (applying_frame (set_applying true (manager c))) apply_transaction
      (transactions block) (transaction_frame _) a0 Hf0) as Hf;
    destruct (for_each apply_transaction (transactions block) a0) as [[[]|e|x] a] eqn:Erun end;
    cbn [snd] in Hf; [|by apply restore_chain_restored|done].
  destruct (apply_state_transition (pending_updates (manager (ap_chain a)))
    (current_total_supply (manager (ap_chain a))) (tree (manager (ap_chain a)))) as [r t1] eqn:Etr.
  pose proof (transition_wf _ _ _ _ _ (proj1 Hf) Etr) as Ht1.
  assert (Hot : on_tree (apply_state_transition (pending_updates (manager (ap_chain a)))
    (current_total_supply (manager (ap_chain a)))) (manager (ap_chain a)) = (r, set_tree t1 (manager (ap_chain a)))).
  { unfold on_tree, zoom. by rewrite Etr. }
  rewrite Hot. destruct r as [[]|e|x]; [| |done].
  2:{ apply restore_chain_restored; [done| |done|by split]. destruct Hf as (_ & Hf). by split. }
  destruct Hf as (_ & Hh & Hsn & Hsst & Hfl & Hu & Hbh).
  cbn in Hh, Hsn, Hsst, Hfl, Hu, Hbh.
  destruct (root_or_zero_wf t1 Ht1) as (t2 & Er & Hs12 & Ht2).
  unfold commit_block. do 2 erewrite method_bind_run by done.
  unfold rethrow, on_tree, zoom. unfold mbind at 1, method_bind at 1. cbn [tree set_block_hash set_height set_tree].
  rewrite Er. destruct (root_of t1) as [root|e|x] eqn:Eroot; cbn [map_err]; [| |done].
  2:{ unfold root_of in Eroot. by destruct (scratch_root t1). }
  erewrite method_bind_run by done. cbn [snapshots set_tree set_block_hash set_height].
  rewrite Hsn. change (current_height (set_applying true (manager c))) with (current_height (manager c)).
  destruct (snapshots (manager c) !! Z.to_nat (current_height (manager c))) as [old|] eqn:Eold; [|done].
  erewrite method_bind_run by done. cbn. exists a.
  split; cbn; try done.
  - exists t1. by split.
  - by rewrite Hh.
  - exists root. split; [|by rewrite Hsn]. unfold root_of. by rewrite (same_tree_root t1 t2).
  - by rewrite Hsst.
  - by rewrite Hu.
Qed.
End keeping.

(** ** The invariant of the snapshots *)
Section snapshots.
Context `{Blake3} `{K256} `{Commitments} `{Wasm} {S : Type} `{HS : Storage S} `{!StorageLaws S}.
Implicit Types (m : StateManager (S := S)) (c : Chain (S := S)).

(** A stored storage and the root recorded for it. *)
Definition snapshot_of (st : S) (root : bytes32) : Prop :=
  ∃ t, VerkleTree_new st = Ok t ∧ storage t = st ∧ pruned_keys t = ∅ ∧ root_of t = Ok root ∧ tree_wf t.

Lemma snapshot_of_tree t root : tree_wf t → root_of t = Ok root → snapshot_of (storage t) root.
Proof.
  intros [Ht Hf] Hr. destruct (new_over t Hf) as (u & Eu & Hs & Hro & Hsc & Hp & _).
  exists u. split_and!; [done|done|done| |].
  - unfold root_of. by rewrite (scratch_root_ext t u).
  - split; [by eapply new_ok|by eapply new_frame].
Qed.

Record sm_wf m : Prop := {
  wf_tree : tree_wf (tree m);
  wf_flag : applying_block m = false;
  wf_height : 0 ≤ current_height m;
  wf_length : length (snapshots m) = (Z.to_nat (current_height m) + 1)%nat;
  wf_storages : length (snapshot_storages m) = length (snapshots m);
  wf_heights : ∀ i s, snapshots m !! i = Some s → snapshot_height s = Z.of_nat i;
  wf_roots : ∀ i s st, snapshots m !! i = Some s → snapshot_storages m !! i = Some st →
    snapshot_of st (snapshot_root s)
}.

Lemma new_wf t m : tree_wf t → StateManager_new t = Ok m → sm_wf m.
Proof.
  intros Ht. unfold StateManager_new. destruct (get_root_wf t Ht) as (t' & -> & Hs & Ht').
  destruct (scratch_root t) as [root|e|x] eqn:Er; [|done|done]. intros [= <-].
  split; cbn; try done.
  - intros [|i] s; cbn; [by intros [= <-]|done].
  - intros [|i] s st; cbn; [intros [= <-] [= <-]|done]. cbn.
    apply snapshot_of_tree; [done|]. unfold root_of. by rewrite (same_tree_root t t' Hs), Er.
Qed.

Lemma filter_height_lookup (l : list StateSnapshot) (h : Z) i s :
  (∀ i s, l !! i = Some s → snapshot_height s = Z.of_nat i) → l !! i = Some s → h = Z.of_nat i →
  head (filter (λ s, snapshot_height s = h) l) = Some s.
Proof.
  intros Hall Hi Hh. destruct (filter (λ s, snapshot_height s = h) l) as [|s' l'] eqn:E.
  - assert (Hin : s ∈ filter (λ s, snapshot_height s = h) l).
    { apply list_elem_of_filter. split; [by rewrite (Hall i s Hi)|by eapply list_elem_of_lookup_2]. }
    rewrite E in Hin. by apply not_elem_of_nil in Hin.
  - cbn. f_equal. assert (Hin : s' ∈ filter (λ s, snapshot_height s = h) l) by (rewrite E; left).
    apply list_elem_of_filter in Hin as [Hs' (j & Hj)%list_elem_of_lookup_1].
    assert (j = i) as -> by (rewrite (Hall j s' Hj) in Hs'; lia). congruence.
Qed.

(** What [rollback_state] leaves. *)
Definition rolled_back (h : Z) (s : StateSnapshot) (t : VerkleTree (S := S)) m : StateManager :=
  let n := (Z.to_nat h + 1)%nat in
  set_tree t
    (set_gas_fees (snapshot_gas_fees s)
      (set_supply (snapshot_supply s)
        (set_height h (set_snapshots (take n (snapshots m)) (take n (snapshot_storages m)) m)))).

Lemma rollback_state_ok m (h : Z) :
  sm_wf m → 0 ≤ h ≤ current_height m →
  ∃ s st t, snapshots m !! Z.to_nat h = Some s ∧ snapshot_storages m !! Z.to_nat h = Some st
  ∧ rollback_state h m = (Ok tt, rolled_back h s t m)
  ∧ storage t = st ∧ pruned_keys t = ∅ ∧ root_of t = Ok (snapshot_root s) ∧ tree_wf t.
Proof.
  intros Hwf Hh. destruct (lookup_lt_is_Some_2 (snapshots m) (Z.to_nat h)) as [s Hs].
  { rewrite (wf_length m Hwf). lia. }
  destruct (lookup_lt_is_Some_2 (snapshot_storages m) (Z.to_nat h)) as [st Hst].
  { rewrite (wf_storages m Hwf). by eapply lookup_lt_Some. }
  destruct (wf_roots m Hwf _ s st Hs Hst) as (t & Et & Hstor & Hpr & Hroot & Ht).
  destruct (root_or_zero_wf t Ht) as (t' & Er & Hs' & Ht').
  exists s, st, t'. split; [done|]. split; [done|]. split.
  2:{ destruct Hs' as (E1 & E2 & E3 & E4). split_and!; [congruence|congruence| |done].
      unfold root_of. by rewrite (scratch_root_ext t t'). }
  unfold rollback_state. erewrite method_bind_run by done.
  rewrite (proj2 (Z.leb_le _ _)) by lia. erewrite method_bind_run by done.
  unfold get_state_at. rewrite (filter_height_lookup _ h (Z.to_nat h) s (wf_heights m Hwf) Hs) by lia.
  do 3 erewrite method_bind_run by done.
  cbn [snapshot_storages set_height set_snapshots]. rewrite lookup_take_lt, Hst by lia.
  erewrite method_bind_run by done. rewrite Et. do 2 erewrite method_bind_run by done.
  cbn [snapshots set_height set_snapshots]. unfold index_or_panic. rewrite lookup_take_lt, Hs by lia.
  do 2 erewrite method_bind_run by done.
  erewrite method_bind_run.
  2:{ unfold rethrow, on_tree, zoom. cbn [tree set_gas_fees set_supply set_tree]. by rewrite Er, Hroot. }
  by rewrite bool_decide_eq_true_2.
Qed.

Lemma rolled_back_wf m (h : Z) s t :
  sm_wf m → 0 ≤ h ≤ current_height m → tree_wf t → sm_wf (rolled_back h s t m).
Proof.
  intros Hwf Hh Ht. pose proof (wf_length m Hwf) as Hl. pose proof (wf_storages m Hwf) as Hsl.
  split; cbn; try done.
  - apply (wf_flag m Hwf).
  - lia.
  - rewrite length_take. lia.
  - rewrite !length_take. lia.
  - intros i x Hi. apply lookup_take_Some in Hi as [Hi _]. by apply (wf_heights m Hwf).
  - intros i x st Hi Hst. apply lookup_take_Some in Hi as [Hi _]. apply lookup_take_Some in Hst as [Hst _].
    by apply (wf_roots m Hwf i).
Qed.

(** *** Every operation keeps the invariant *)
Definition sm_inv (n : Z) m : Prop := sm_wf m ∧ current_height m ≤ n.

Lemma set_tree_wf m t : sm_wf m → tree_wf t → sm_wf (set_tree t m).
Proof. intros [] Ht. by split. Qed.

Lemma on_tree_inv n {A} (f : method VerkleTree CoreError A) :
  preserves tree_wf f → preserves (sm_inv n) (on_tree f).
Proof.
  intros Hf m [Hm Hn]. unfold on_tree, zoom. specialize (Hf (tree m) (wf_tree m Hm)).
  destruct (f (tree m)) as [r t]. split; [by apply set_tree_wf|done].
Qed.

Lemma get_root_keeps : preserves (tree_wf (S:=S)) get_root.
Proof. intros t Ht. by destruct (get_root_wf t Ht) as (t' & -> & _ & ?). Qed.
Lemma root_or_zero_keeps : preserves (tree_wf (S:=S)) root_or_zero.
Proof. intros t Ht. by destruct (root_or_zero_wf t Ht) as (t' & -> & _ & ?). Qed.
Lemma prune_keeps key : preserves (tree_wf (S:=S)) (prune_key key).
Proof.
  intros t [Ht Hf]. split; [|by apply prune_frame].
  destruct (prune_key key t) as [r t'] eqn:E. by eapply prune_ok.
Qed.
#[local] Hint Resolve get_root_keeps root_or_zero_keeps prune_keeps on_tree_inv preserves_rethrow : keeps.

Lemma stateful_keeps n block u : preserves (sm_inv n) (validate_block_stateful block u).
Proof.
  unfold validate_block_stateful. keeps. apply on_tree_inv. keeps.
  apply preserves_catch; [auto with keeps|..]; intros; keeps.
Qed.

Lemma apply_inv n block c r c' :
  sm_inv n (manager c) → n + 1 < 2 ^ 64 → sm_apply_block block c = (r, c') → (∀ p, r ≠ Panic p) →
  sm_inv (n + 1) (manager c').
Proof.
  intros [Hm Hn] Hlt E Hr. pose proof (apply_block_cases block c (wf_tree _ Hm) (wf_flag _ Hm)) as Hc.
  rewrite E in Hc. destruct r as [[]|e|p]; [| |by destruct (Hr p)].
  2:{ destruct Hc as (_ & t' & -> & _ & Ht). split; [by apply set_tree_wf|cbn; lia]. }
  destruct Hc as [a Ha]. pose proof (wf_length _ Hm) as Hl. pose proof (wf_height _ Hm) as Hge0.
  assert (Hh : current_height (manager c') = current_height (manager c) + 1).
  { rewrite (app_height _ _ _ _ Ha). unfold wadd. apply wrap_small. unfold fits. lia. }
  destruct (app_snapshots _ _ _ _ Ha) as (root & Hroot & Hsn). pose proof (app_storages _ _ _ _ Ha) as Hst.
  split; [|lia]. split.
  - apply (app_tree _ _ _ _ Ha).
  - apply (app_flag _ _ _ _ Ha).
  - lia.
  - rewrite Hsn, length_app. cbn. lia.
  - rewrite Hsn, Hst, !length_app, (wf_storages _ Hm). done.
  - intros i s. rewrite Hsn, lookup_app_Some. intros [Hi|[Hge Hi]]; [by apply (wf_heights _ Hm)|].
    apply list_lookup_singleton_Some in Hi as [Hi <-]. cbn. lia.
  - intros i s st. rewrite Hsn, Hst, !lookup_app_Some. rewrite (wf_storages _ Hm).
    intros [Hi|[Hge Hi]] [Hi'|[Hge' Hi']].
    + by apply (wf_roots _ Hm i).
    + apply lookup_lt_Some in Hi. lia.
    + apply lookup_lt_Some in Hi'. rewrite (wf_storages _ Hm) in Hi'. lia.
    + apply list_lookup_singleton_Some in Hi as [_ <-]. apply list_lookup_singleton_Some in Hi' as [_ <-].
      apply snapshot_of_tree; [apply (app_tree _ _ _ _ Ha)|done].
Qed.

Lemma position_lookup {A} (p : A → bool) (l : list A) i :
  position p l = Some i → ∃ x, l !! i = Some x ∧ p x = true.
Proof.
  revert i; induction l as [|x l IH]; intros i; cbn; [done|]. destruct (p x) eqn:E.
  - intros [= <-]. by exists x.
  - destruct (position p l) as [j|]; cbn; [|done]. intros [= <-]. by apply IH.
Qed.

Lemma restore_inv n root h : preserves (sm_inv n) (restore_from_snapshot root h).
Proof.
  intros m [Hm Hn]. unfold restore_from_snapshot. erewrite method_bind_run by done.
  destruct (position _ (snapshots m)) as [i|] eqn:Ei; [|done].
  apply position_lookup in Ei as (s & Hs & [Hh%Z.eqb_eq _]%andb_true_iff).
  rewrite (wf_heights m Hm i s Hs) in Hh. subst h. cbn [ok_or]. erewrite method_bind_run by done.
  destruct (snapshot_storages m !! i) as [st|] eqn:Est; [|done]. cbn [ok_or]. erewrite method_bind_run by done.
  destruct (wf_roots m Hm i s st Hs Est) as (t & Et & _ & _ & _ & Ht). rewrite Et. cbn [map_err].
  erewrite method_bind_run by done. cbn [snd modify].
  apply lookup_lt_Some in Hs. pose proof (wf_length m Hm). pose proof (wf_storages m Hm). pose proof (wf_height m Hm).
  split; [|cbn; lia]. split; cbn; try done.
  - apply (wf_flag m Hm).
  - lia.
  - rewrite length_take. lia.
  - rewrite !length_take. lia.
  - intros j x Hj. apply lookup_take_Some in Hj as [Hj _]. by apply (wf_heights m Hm).
  - intros j x y Hj Hy. apply lookup_take_Some in Hj as [Hj _]. apply lookup_take_Some in Hy as [Hy _].
    by apply (wf_roots m Hm j).
Qed.

Lemma rollback_state_inv n h : 0 ≤ h → preserves (sm_inv n) (rollback_state h).
Proof.
  intros Hh m [Hm Hn]. destruct (Z.le_gt_cases h (current_height m)).
  - destruct (rollback_state_ok m h Hm ltac:(lia)) as (s & st & t & _ & _ & -> & _ & _ & _ & Ht).
    cbn [snd]. split; [by apply rolled_back_wf; [|lia|]|cbn; lia].
  - unfold rollback_state. erewrite method_bind_run by done.
    by rewrite (proj2 (Z.leb_gt _ _)) by lia.
Qed.

(** [rollback] is [rollback_state], the backup never being needed. *)
Lemma rollback_ok m (h : Z) :
  sm_wf m → 0 ≤ h ≤ current_height m →
  ∃ s st t, snapshots m !! Z.to_nat h = Some s ∧ snapshot_storages m !! Z.to_nat h = Some st
  ∧ rollback h m = (match scratch_root t with Panic p => Panic p | _ => Ok tt end, rolled_back h s t m)
  ∧ storage t = st ∧ pruned_keys t = ∅ ∧ root_of t = Ok (snapshot_root s) ∧ tree_wf t.
Proof.
  intros Hwf Hh. destruct (rollback_state_ok m h Hwf Hh) as (s & st & t & Hs & Hst & E & Hstor & Hp & Hr & Ht).
  destruct (get_root_wf t Ht) as (t' & Eg & Hs' & Ht'). exists s, st, t'.
  split; [done|]. split; [done|]. split.
  - unfold rollback. erewrite method_bind_run by done.
    rewrite (proj2 (Z.leb_le _ _)) by lia. erewrite method_bind_run by done.
    destruct (clone_same (tree m) (proj2 (wf_tree m Hwf))) as (b & Eb & _). unfold lift at 1. rewrite Eb.
    erewrite method_bind_run by done. unfold catch at 1. rewrite E.
    unfold verify_rollback, catch, rethrow, on_tree, zoom.
    replace (tree (rolled_back h s t m)) with t by done. rewrite Eg.
    replace (scratch_root t') with (scratch_root t) by (symmetry; by apply same_tree_root).
    unfold root_of in Hr. destruct (scratch_root t) as [root|e|x]; cbn [map_err]; [|done|done].
    injection Hr as Hr. erewrite method_bind_run by done. unfold index_or_panic.
    cbn [snapshots rolled_back set_tree set_gas_fees set_supply set_height set_snapshots].
    rewrite lookup_take_lt, Hs by lia. erewrite method_bind_run by done.
    by rewrite bool_decide_eq_true_2.
  - destruct Hs' as (E1 & E2 & E3 & E4). split_and!; [congruence|congruence| |done].
    unfold root_of in *. by rewrite (scratch_root_ext t t').
Qed.

Lemma rollback_inv n h : 0 ≤ h → preserves (sm_inv n) (rollback h).
Proof.
  intros Hh m [Hm Hn]. destruct (Z.le_gt_cases h (current_height m)).
  - destruct (rollback_ok m h Hm ltac:(lia)) as (s & st & t & _ & _ & -> & _ & _ & _ & Ht).
    cbn [snd]. split; [by apply rolled_back_wf; [|lia|]|cbn; lia].
  - unfold rollback. erewrite method_bind_run by done.
    by rewrite (proj2 (Z.leb_gt _ _)) by lia.
Qed.

Definition chain_inv n c : Prop := sm_inv n (manager c).

Lemma zoom_inv n {E A} (f : method StateManager E A) :
  preserves (sm_inv n) f → preserves (chain_inv n) (zoom manager set_manager f).
Proof. intros Hf c Hc. unfold zoom. specialize (Hf _ Hc). by destruct (f (manager c)). Qed.

Lemma prune_outpoint_inv n k : preserves (chain_inv n) (prune_outpoint k).
Proof.
  unfold prune_outpoint. apply preserves_bind; [auto with keeps|]. intros c.
  destruct (outpoint_to_key _ !! k); [|auto with keeps].
  apply preserves_bind; [apply zoom_inv; auto with keeps|]. intros _.
  apply preserves_bind; [by apply preserves_modify|]. intros _.
  apply preserves_bind; [|auto with keeps]. apply preserves_modify. intros c' [[] Hn]. by split.
Qed.

Lemma preserves_mapM {St E A B} (P : St → Prop) (f : A → method St E B) l :
  (∀ x, preserves P (f x)) → preserves P (mapM f l).
Proof.
  intros Hf. induction l as [|x l IH]; cbn [mapM]; [apply preserves_ret|].
  apply preserves_bind; [done|]. intros. apply preserves_bind; [done|]. intros. apply preserves_ret.
Qed.
End snapshots.
