(* ===== verification/ChainProofs.v ===== *)
(** * What blocks do to the chain

    The theorems on the operations of [StateManager.v]: application of a block as
    a transaction, the supply as the total of the coins, disconnection as the
    inverse of application and where it is not, rollback to snapshots, and the
    restoration after a failed reorganisation. *)

From S2P Require Import Prelude Crypto Errors Transaction Economics Utxo Dag State Ghostdag VerkleTree VerkleProofs GasMeter Vm BlockValidation StateManager.
From Stdlib Require Import Init.Byte.

Lemma wrap_i128_add x y : wrap_i128 (wrap_i128 x + y) = wrap_i128 (x + y).
Proof.
  unfold wrap_i128. f_equal. replace ((x + 2 ^ 127) `mod` 2 ^ 128 - 2 ^ 127 + y + 2 ^ 127)
    with ((x + 2 ^ 127) `mod` 2 ^ 128 + y) by lia.
  rewrite Zplus_mod_idemp_l. f_equal. lia.
Qed.
Lemma wrap_i128_small z : - 2 ^ 127 ≤ z < 2 ^ 127 → wrap_i128 z = z.
Proof. intros Hz. unfold wrap_i128. rewrite Z.mod_small; lia. Qed.

(** ** The effect of one transaction *)
Section effect.
Context `{Blake3} `{K256} `{Commitments} `{Wasm} {S : Type} `{HS : Storage S} `{!StorageLaws S}.
Implicit Types (m : StateManager (S := S)) (c : Chain (S := S)) (a : Applying (S := S)) (tx : Transaction).

(** The supply and the supply delta after outputs are spent and created. *)
Definition supply_after (spent_outs created_outs : list TxOutput) (supply : Z) : Z :=
  foldl (λ s o, sat_add 128 s (value o)) (foldl (λ s o, sat_sub s (value o)) supply spent_outs) created_outs.
Definition delta_after (spent_outs created_outs : list TxOutput) (delta : Z) : Z :=
  foldl (λ s o, wrap_i128 (s + value o)) (foldl (λ s o, wrap_i128 (s - value o)) delta spent_outs) created_outs.

(** What a successful transaction does to the coins and the collected undo data. *)
Record effect tx (outs : list TxOutput) a a' : Prop := {
  eff_spends : spends (coins (ap_chain a)) (inputs tx) outs;
  eff_nodup : NoDup (spent_outpoints tx);
  eff_coins : coins (ap_chain a') = post_tx tx (coins (ap_chain a));
  eff_supply : current_total_supply (manager (ap_chain a'))
    = supply_after outs (outputs tx) (current_total_supply (manager (ap_chain a)));
  eff_spent : spent_utxos (ap_undo a') = spent_utxos (ap_undo a) ++ zip (spent_outpoints tx) outs;
  eff_created : created_utxos (ap_undo a') = created_utxos (ap_undo a) ++ (created_outputs tx).*1;
  eff_delta : total_supply_delta (ap_undo a') = delta_after outs (outputs tx) (total_supply_delta (ap_undo a))
}.

Lemma spend_all_effect ins a a' :
  for_each spend_utxo ins a = (Ok tt, a') →
  ∃ outs, spends (coins (ap_chain a)) ins outs ∧ NoDup (outpoint_of <$> ins)
  ∧ coins (ap_chain a') = remove_all (outpoint_of <$> ins) (coins (ap_chain a))
  ∧ current_total_supply (manager (ap_chain a')) = supply_after outs [] (current_total_supply (manager (ap_chain a)))
  ∧ spent_utxos (ap_undo a') = spent_utxos (ap_undo a) ++ zip (outpoint_of <$> ins) outs
  ∧ created_utxos (ap_undo a') = created_utxos (ap_undo a)
  ∧ total_supply_delta (ap_undo a') = delta_after outs [] (total_supply_delta (ap_undo a)).
Proof.
  revert a; induction ins as [|i ins IH]; intros a E; cbn [for_each] in E.
  { injection E as <-. exists []. split_and!; try done; [constructor..|by rewrite app_nil_r]. }
  apply method_bind_ok in E as ([] & a1 & E1 & E). unfold spend_utxo in E1.
  erewrite method_bind_run in E1 by done.
  destruct (utxos (coins (ap_chain a)) !! outpoint_of i) as [o|] eqn:Eo; [|done]. injection E1 as <-.
  destruct (IH _ E) as (outs & Hs & Hnd & Hc & Hsu & Hsp & Hcr & Hd). cbn [ap_chain coins spend_update] in *.
  exists (o :: outs). assert (Hne : ∀ j, j ∈ ins → outpoint_of j ≠ outpoint_of i).
  { intros j (n & Hj)%list_elem_of_lookup_1 Heq. apply Forall2_same_length_lookup in Hs as [Hl Hs].
    destruct (lookup_lt_is_Some_2 outs n) as [x Hx]; [rewrite <- Hl; by eapply lookup_lt_Some|].
    specialize (Hs n j x Hj Hx). cbn in Hs. by rewrite Heq, lookup_delete_eq in Hs. }
  split_and!; try done.
  - constructor; [done|]. eapply Forall2_impl; [exact Hs|]. cbn. intros j x Hj.
    rewrite lookup_delete in Hj. by case_decide.
  - rewrite fmap_cons. constructor; [|done]. intros (j & Heq & Hj)%list_elem_of_fmap. by apply (Hne j Hj).
  - rewrite Hsp. cbn. by rewrite <- app_assoc.
Qed.

Lemma create_all_effect tx (l : list (nat * TxOutput)) a a' :
  for_each (λ p, modify (E:=StateManagerError) (create_update tx p)) l a = (Ok tt, a') →
  coins (ap_chain a') = insert_all ((λ p, (created_outpoint tx p.1, p.2)) <$> l) (coins (ap_chain a))
  ∧ current_total_supply (manager (ap_chain a')) = supply_after [] l.*2 (current_total_supply (manager (ap_chain a)))
  ∧ spent_utxos (ap_undo a') = spent_utxos (ap_undo a)
  ∧ created_utxos (ap_undo a') = created_utxos (ap_undo a) ++ ((λ p, created_outpoint tx p.1) <$> l)
  ∧ total_supply_delta (ap_undo a') = delta_after [] l.*2 (total_supply_delta (ap_undo a)).
Proof.
  revert a; induction l as [|p l IH]; intros a E; cbn [for_each] in E.
  { injection E as <-. split_and!; try done. by rewrite app_nil_r. }
  apply method_bind_ok in E as ([] & a1 & E1 & E). injection E1 as <-.
  destruct (IH _ E) as (Hc & Hsu & Hsp & Hcr & Hd). split_and!; try done.
  rewrite Hcr. cbn. by rewrite <- app_assoc.
Qed.

Lemma utxo_transaction_effect tx a a' :
  apply_utxo_transaction tx a = (Ok tt, a') → ∃ outs, effect tx outs a a'.
Proof.
  unfold apply_utxo_transaction. intros ([] & a1 & E1 & E2)%method_bind_ok.
  destruct (spend_all_effect _ _ _ E1) as (outs & Hs & Hnd & Hc1 & Hsu1 & Hsp1 & Hcr1 & Hd1).
  destruct (create_all_effect _ _ _ _ E2) as (Hc2 & Hsu2 & Hsp2 & Hcr2 & Hd2).
  assert (E : (enumerate (outputs tx)).*2 = outputs tx).
  { apply list_eq. intros i. rewrite list_lookup_fmap, enumerate_lookup. by destruct (outputs tx !! i). }
  rewrite E in *. exists outs. split; [done|done|..].
  - by rewrite Hc2, Hc1.
  - by rewrite Hsu2, Hsu1.
  - by rewrite Hsp2, Hsp1.
  - rewrite Hcr2, Hcr1. f_equal. unfold created_outputs. by rewrite <- list_fmap_compose.
  - by rewrite Hd2, Hd1.
Qed.

Lemma transaction_effect tx a a' :
  apply_transaction tx a = (Ok tt, a') → ∃ outs, effect tx outs a a'.
Proof.
  unfold apply_transaction. destruct (_ && _); [apply utxo_transaction_effect|].
  unfold apply_contract_transition. destruct (_ <? _); [done|].
  intros E. erewrite method_bind_run in E by done.
  apply method_bind_ok in E as (s & a1 & E1 & E). destruct (map_err _ _); [|done..]. injection E1 as -> <-.
  destruct (execute (execution_payload tx) (gas_limit tx) (tree (manager (ap_chain a)))) as [[gas|e|x] t'].
  - do 2 erewrite method_bind_run in E by done.
    destruct (utxo_transaction_effect _ _ _ E) as (outs & [Hs Hnd Hc Hsu Hsp Hcr Hd]). by exists outs.
  - by erewrite method_bind_run in E by done.
  - by erewrite method_bind_run in E by done.
Qed.
End effect.

(** ** The supply is the total of the coins *)
Lemma supply_after_exact outs news s :
  Forall output_fits outs → Forall output_fits news →
  values outs ≤ s → s - values outs + values news < 2 ^ 128 →
  supply_after outs news s = s - values outs + values news.
Proof.
  intros Ho Hn Hs Hb. unfold supply_after.
  assert (E : foldl (λ s o, sat_sub s (value o)) s outs = s - values outs).
  { clear Hn Hb. induction Ho as [|o outs Hof Ho IH] in s, Hs |- *; [cbn; lia|]. cbn [foldl].
    rewrite values_cons in *. pose proof (values_nonneg outs Ho).
    rewrite IH; rewrite sat_sub_exact; lia. }
  rewrite E. clear E. revert Hb. generalize (s - values outs). clear Ho Hs. intros z Hb.
  induction Hn as [|o news Hof Hn IH] in z, Hb |- *; [cbn; lia|]. cbn [foldl].
  rewrite values_cons in *. pose proof (values_nonneg news Hn). rewrite IH; rewrite sat_add_exact; lia.
Qed.

Lemma delta_after_wrap outs news d :
  delta_after outs news (wrap_i128 d) = wrap_i128 (d - values outs + values news).
Proof.
  unfold delta_after.
  assert (E : foldl (λ s o, wrap_i128 (s - value o)) (wrap_i128 d) outs = wrap_i128 (d - values outs)).
  { induction outs as [|o outs IH] in d |- *; [cbn; f_equal; lia|]. cbn [foldl].
    change (wrap_i128 d - value o) with (wrap_i128 d + - value o).
    rewrite wrap_i128_add, IH, values_cons. f_equal. lia. }
  rewrite E. generalize (d - values outs). clear. intros d.
  induction news as [|o news IH] in d |- *; [cbn; f_equal; lia|]. cbn [foldl].
  rewrite wrap_i128_add, IH, values_cons. f_equal. lia.
Qed.

Section supply.
Context `{Blake3} `{K256} `{Commitments} `{Wasm} {S : Type} `{HS : Storage S} `{!StorageLaws S}.
Implicit Types (c : Chain (S := S)) (a : Applying (S := S)) (tx : Transaction).

Definition coin_total (u : UtxoSet) : Z := msum value (utxos u).
Definition block_outputs (txs : list Transaction) : list TxOutput := mjoin (outputs <$> txs).

Lemma block_outputs_cons tx txs : block_outputs (tx :: txs) = outputs tx ++ block_outputs txs.
Proof. done. Qed.
Lemma values_app l k : values (l ++ k) = values l + values k.
Proof. unfold values. by rewrite fmap_app, zsum_app. Qed.

Lemma coin_total_nonneg u : utxo_fits u → 0 ≤ coin_total u.
Proof. intros Hu. apply msum_nonneg. intros k v Hk. by apply Hu in Hk as [? _]. Qed.

Lemma spends_total u ks outs :
  utxo_fits u → NoDup ks → Forall2 (λ k o, utxos u !! k = Some o) ks outs →
  values outs ≤ coin_total u.
Proof.
  intros Hu Hnd Hs. pose proof (total_remove_all ks outs u Hnd Hs) as E.
  assert (0 ≤ msum value (utxos (remove_all ks u))); [|unfold coin_total; lia].
  apply msum_nonneg. intros k v Hk. rewrite remove_all_lookup in Hk. case_decide; [done|].
  by apply Hu in Hk as [? _].
Qed.

(** The ledger a block keeps: [d] is the change of the supply so far. *)
Record ledger (d : Z) a : Prop := {
  ledger_fits : utxo_fits (coins (ap_chain a));
  ledger_supply : current_total_supply (manager (ap_chain a)) = coin_total (coins (ap_chain a));
  ledger_delta : total_supply_delta (ap_undo a) = wrap_i128 d
}.

Lemma effect_ledger tx outs d a a' :
  ledger d a → effect tx outs a a' → Forall output_fits (outputs tx) →
  NoDup (created_outputs tx).*1 →
  (∀ k, k ∈ (created_outputs tx).*1 → utxos (coins (ap_chain a)) !! k = None) →
  coin_total (coins (ap_chain a)) + values (outputs tx) < 2 ^ 128 →
  ledger (d - values outs + values (outputs tx)) a'
  ∧ coin_total (coins (ap_chain a')) = coin_total (coins (ap_chain a)) - values outs + values (outputs tx)
  ∧ 0 ≤ values outs.
Proof.
  intros [Hu Hs Hd] [Hsp Hnd Hc Hsu _ _ Hde] Ho Hcnd Hf Hb.
  assert (Hk : Forall2 (λ k o, utxos (coins (ap_chain a)) !! k = Some o) (spent_outpoints tx) outs)
    by by apply Forall2_fmap_l.
  pose proof (spends_fits _ _ _ Hu Hsp) as Hof. pose proof (values_nonneg _ Hof).
  pose proof (spends_total _ _ _ Hu Hnd Hk).
  assert (E : coin_total (coins (ap_chain a'))
    = coin_total (coins (ap_chain a)) - values outs + values (outputs tx)).
  { rewrite Hc. unfold coin_total, post_tx. rewrite total_insert_all, created_outputs_values; [|done|].
    - by rewrite (total_remove_all _ outs).
    - intros k Hk'. rewrite remove_all_lookup. case_decide; [done|]. by apply Hf. }
  split; [|done]. split.
  - rewrite Hc. by apply post_tx_fits.
  - rewrite Hsu, Hs, E. apply supply_after_exact; [done..|lia].
  - by rewrite Hde, Hd, delta_after_wrap.
Qed.

Lemma block_ledger txs d a a' :
  for_each apply_transaction txs a = (Ok tt, a') →
  ledger d a → Forall (λ tx, Forall output_fits (outputs tx)) txs →
  fresh_block (coins (ap_chain a)) txs →
  coin_total (coins (ap_chain a)) + values (block_outputs txs) < 2 ^ 128 →
  ledger (d + (coin_total (coins (ap_chain a')) - coin_total (coins (ap_chain a)))) a'
  ∧ coins (ap_chain a') = foldl (λ u tx, post_tx tx u) (coins (ap_chain a)) txs.
Proof.
  intros E Hl Hfit; revert d a E Hl. induction Hfit as [|tx txs Htx Hfit IH]; intros d a E Hl Hf Hb.
  { injection E as <-. split; [|done]. by replace (d + _) with d by lia. }
  cbn [for_each] in E. apply method_bind_ok in E as ([] & a1 & E1 & E).
  destruct (transaction_effect _ _ _ E1) as (outs & Heff). pose proof (eff_coins _ _ _ _ Heff) as Hc.
  rewrite block_outputs_cons, values_app in Hb.
  assert (0 ≤ values (block_outputs txs)).
  { apply values_nonneg. clear -Hfit. induction Hfit; [constructor|]. rewrite block_outputs_cons. by apply Forall_app. }
  pose proof (values_nonneg _ Htx). pose proof (coin_total_nonneg _ (ledger_fits _ _ Hl)).
  destruct (effect_ledger tx outs d a a1 Hl Heff Htx) as (Hl1 & Ht & Hge); [..|lia|].
  1:{ destruct Hf as [Hnd _]. rewrite all_created_cons, fmap_app in Hnd. by apply NoDup_app in Hnd as [? _]. }
  1:{ intros k Hk. apply Hf. rewrite all_created_cons, fmap_app. apply elem_of_app. by left. }
  apply fresh_block_tail in Hf. rewrite <- Hc in Hf.
  destruct (IH _ a1 E Hl1 Hf ltac:(lia)) as [Hl' Hc']. split.
  - rewrite Ht in Hl'. by replace (d + _) with (d - values outs + values (outputs tx)
      + (coin_total (coins (ap_chain a')) - (coin_total (coins (ap_chain a)) - values outs + values (outputs tx)))) by lia.
  - rewrite Hc', Hc. done.
Qed.

Lemma transition_supply us supply (t t' : VerkleTree (S := S)) :
  apply_state_transition us supply t = (Ok tt, t') → supply ≤ MAX_GLOBAL_SUPPLY_NANO_SLUG.
Proof.
  unfold apply_state_transition. erewrite method_bind_run by done. destruct (existsb _ us); [done|].
  do 2 erewrite method_bind_run by done.
  destruct (Z.ltb_spec MAX_GLOBAL_SUPPLY_NANO_SLUG supply); [done|lia].
Qed.

(** The hypotheses on a block: amounts of 64 bits, outpoints that are new, and no
    overflow of the 128-bit total. *)
Record block_fits c block : Prop := {
  bf_coins : utxo_fits (coins c);
  bf_outputs : Forall (λ tx, Forall output_fits (outputs tx)) (transactions block);
  bf_fresh : fresh_block (coins c) (transactions block);
  bf_total : coin_total (coins c) + values (block_outputs (transactions block)) < 2 ^ 128
}.

Lemma applied_supply block c a c' :
  applied block c a c' → current_total_supply (manager c) = coin_total (coins c) → block_fits c block →
  utxo_fits (coins c')
  ∧ coins c' = foldl (λ u tx, post_tx tx u) (coins c) (transactions block)
  ∧ current_total_supply (manager c') = coin_total (coins c')
  ∧ current_total_supply (manager c') ≤ MAX_GLOBAL_SUPPLY_NANO_SLUG
  ∧ total_supply_delta (ap_undo a) = wrap_i128 (current_total_supply (manager c') - current_total_supply (manager c)).
Proof.
  intros Ha Hs [Hu Ho Hf Hb].
  destruct (block_ledger _ 0 _ _ (app_run _ _ _ _ Ha)) as [[Hu' Hs' Hd'] Hc']; [by split|done..|].
  destruct (app_transition _ _ _ _ Ha) as (t1 & Et & _). apply transition_supply in Et.
  rewrite (app_coins _ _ _ _ Ha), (app_supply _ _ _ _ Ha). cbn [ap_chain coins set_manager] in Hc', Hd'.
  split_and!; try done. rewrite Hd', Hs', Hs. f_equal.
Qed.
End supply.

(** ** Disconnection *)
Section disconnect.
Context `{Blake3} `{K256} `{Commitments} `{Wasm} {S : Type} `{HS : Storage S} `{!StorageLaws S}.
Implicit Types (c : Chain (S := S)) (a : Applying (S := S)) (tx : Transaction) (u : UtxoSet).

(** Outpoints the block spends. *)
Definition all_spends (txs : list Transaction) : list OutPoint := mjoin (spent_outpoints <$> txs).

Lemma zip_keys (ks : list OutPoint) (outs : list TxOutput) :
  length ks = length outs → (zip ks outs).*1 = ks.
Proof. intros Hl. apply fst_zip. lia. Qed.

Lemma effect_spent_length tx outs a a' :
  effect tx outs a a' → length (spent_outpoints tx) = length outs.
Proof.
  intros Heff. apply eff_spends, Forall2_length in Heff. unfold spent_outpoints. by rewrite length_fmap.
Qed.

(** The undo data lists what was spent and created, in order. *)
Lemma block_undo_keys txs a a' :
  for_each apply_transaction txs a = (Ok tt, a') →
  (spent_utxos (ap_undo a')).*1 = (spent_utxos (ap_undo a)).*1 ++ all_spends txs
  ∧ created_utxos (ap_undo a') = created_utxos (ap_undo a) ++ (all_created txs).*1.
Proof.
  revert a; induction txs as [|tx txs IH]; intros a E.
  { injection E as <-. cbn. by rewrite !app_nil_r. }
  cbn [for_each] in E. apply method_bind_ok in E as ([] & a1 & E1 & E).
  destruct (transaction_effect _ _ _ E1) as (outs & Heff). destruct (IH _ E) as [Hs Hc].
  rewrite Hs, Hc, (eff_spent _ _ _ _ Heff), (eff_created _ _ _ _ Heff).
  rewrite all_created_cons, !fmap_app, zip_keys by (by eapply effect_spent_length).
  by rewrite <- !app_assoc.
Qed.

(** What the undo data says of the coins before the block, [u0], when no
    transaction spends an outpoint of [new]. *)
Record recorded (u0 : UtxoSet) (new : list OutPoint) a : Prop := {
  rec_spent : ∀ k o, (k, o) ∈ spent_utxos (ap_undo a) → utxos u0 !! k = Some o;
  rec_created : ∀ k, k ∈ created_utxos (ap_undo a) → k ∈ new;
  rec_coins : ∀ k, k ∉ created_utxos (ap_undo a) → utxos (coins (ap_chain a)) !! k
    = if decide (k ∈ (spent_utxos (ap_undo a)).*1) then None else utxos u0 !! k
}.

Lemma effect_recorded u0 new tx outs a a' :
  recorded u0 new a → effect tx outs a a' →
  (∀ k, k ∈ spent_outpoints tx → k ∉ new) → (∀ k, k ∈ (created_outputs tx).*1 → k ∈ new) →
  recorded u0 new a'.
Proof.
  intros [Hs Hc Hu] Heff Hns Hnc. pose proof (effect_spent_length _ _ _ _ Heff) as Hl.
  destruct Heff as [Hsp _ Hco _ Hes Hec _]. split.
  - intros k o. rewrite Hes. intros [Hk|Hk]%elem_of_app; [by apply Hs|].
    assert (Hko : utxos (coins (ap_chain a)) !! k = Some o).
    { apply list_elem_of_lookup in Hk as [i Hi]. apply lookup_zip_Some in Hi as [Hi Ho].
      unfold spent_outpoints in Hi. apply list_lookup_fmap_Some in Hi as (j & -> & Hj).
      apply Forall2_same_length_lookup in Hsp as [_ Hsp]. by apply (Hsp i). }
    assert (Hkn : k ∉ created_utxos (ap_undo a)).
    { intros Hkc. apply (Hns k); [|by apply Hc]. apply list_elem_of_lookup in Hk as [i Hi].
      apply lookup_zip_Some in Hi as [Hi _]. by eapply list_elem_of_lookup_2. }
    rewrite Hu in Hko by done. by case_decide.
  - intros k. rewrite Hec. intros [Hk|Hk]%elem_of_app; [by apply Hc|by apply Hnc].
  - intros k. rewrite Hec, Hes, Hco. intros [Hk1 Hk2]%not_elem_of_app.
    unfold post_tx. rewrite insert_all_lookup_ne, remove_all_lookup by done.
    rewrite fmap_app, zip_keys by done. rewrite Hu by done.
    repeat case_decide; try done; exfalso; set_solver.
Qed.

Lemma block_recorded u0 new txs a a' :
  for_each apply_transaction txs a = (Ok tt, a') → recorded u0 new a →
  (∀ k, k ∈ all_spends txs → k ∉ new) → (∀ k, k ∈ (all_created txs).*1 → k ∈ new) → recorded u0 new a'.
Proof.
  intros E Hr Hs Hc; revert a E Hr; induction txs as [|tx txs IH]; intros a E Hr; [by injection E as <-|].
  cbn [for_each] in E. apply method_bind_ok in E as ([] & a1 & E1 & E).
  destruct (transaction_effect _ _ _ E1) as (outs & Heff).
  rewrite all_created_cons, fmap_app in Hc. change (all_spends (tx :: txs)) with (spent_outpoints tx ++ all_spends txs) in Hs.
  apply (IH (λ k Hk, Hs k (proj2 (elem_of_app _ _ _) (or_intror Hk)))
            (λ k Hk, Hc k (proj2 (elem_of_app _ _ _) (or_intror Hk))) a1 E).
  eapply effect_recorded; [done..| |]; intros k Hk; [apply Hs|apply Hc]; apply elem_of_app; by left.
Qed.

(** Inserting entries that agree with a set. *)
Lemma insert_all_agree (kos : list (OutPoint * TxOutput)) u0 u k :
  (∀ k o, (k, o) ∈ kos → utxos u0 !! k = Some o) →
  utxos (insert_all kos u) !! k = if decide (k ∈ kos.*1) then utxos u0 !! k else utxos u !! k.
Proof.
  intros Hag. revert u; induction kos as [|[j o] kos IH]; intros u; [done|].
  change (insert_all ((j, o) :: kos) u) with (insert_all kos (utxo_insert j o u)).
  rewrite IH by (intros; apply Hag; by right). cbn [fmap list_fmap fst].
  case_decide as Hk; [by rewrite decide_True by (by right)|].
  cbn [utxos utxo_insert]. rewrite lookup_insert. case_decide as Hj.
  - subst. rewrite decide_True by left. symmetry. apply Hag. left.
  - by rewrite decide_False by (rewrite elem_of_cons; intros [?|?]; congruence).
Qed.

(** The coins after [undo_block]. *)
Lemma undo_coins h undo c :
  coins (undo_block h undo c) = insert_all (spent_utxos undo) (remove_all (created_utxos undo) (coins c)).
Proof.
  unfold undo_block. cbn [coins set_manager].
  assert (E : ∀ (l : list (OutPoint * TxOutput)) c, coins (foldl (λ c p, unspend p c) c l) = insert_all l (coins c)).
  { intros l. induction l as [|p l IH]; intros d; [done|]. cbn [foldl]. by rewrite IH. }
  rewrite E. f_equal. clear E. generalize (created_utxos undo). intros l. revert c.
  induction l as [|k l IH]; intros d; [done|]. cbn [foldl]. by rewrite IH.
Qed.

(** The other fields it computes. *)
Lemma undo_fields h undo c :
  let m := manager c in let m' := manager (undo_block h undo c) in
  current_total_supply m' = reverse_supply (total_supply_delta undo) (current_total_supply m)
  ∧ block_gas_fees m' = foldl (λ g _, pop g) (block_gas_fees m) (gas_fees_added undo)
  ∧ current_height m' = sat_sub (current_height m) 1
  ∧ snapshots m' = pop (snapshots m) ∧ snapshot_storages m' = pop (snapshot_storages m)
  ∧ block_undo_data m' = delete h (block_undo_data m)
  ∧ current_block_hash m' = current_block_hash m ∧ applying_block m' = applying_block m
  ∧ sm_prune_markers m' = sm_prune_markers m ∧ pending_updates m' = pending_updates m
  ∧ tree m' = foldl (λ t p, restore_value p t) (tree m) (reverse (verkle_updates undo)).
Proof.
  unfold undo_block. cbn.
  set (k := foldl (λ c k, uncreate k c) c (created_utxos undo)).
  assert (Hk : ∃ f, manager k = set_keys f (manager c)).
  { subst k. generalize (created_utxos undo). intros l. revert c.
    induction l as [|x l IH]; intros d; [exists (outpoint_to_key (manager d)); by destruct d as [[]]|].
    cbn [foldl]. destruct (IH (uncreate x d)) as [f ->]. by exists f. }
  assert (Hk' : ∃ f, manager (foldl (λ c p, unspend p c) k (spent_utxos undo)) = set_keys f (manager c)).
  { generalize (spent_utxos undo). clearbody k. intros l. revert k Hk.
    induction l as [|x l IH]; intros d Hd; [done|]. cbn [foldl]. apply IH. destruct Hd as [f Hf].
    cbn [unspend manager set_manager]. rewrite Hf. by eexists. }
  destruct Hk' as [f ->]. done.
Qed.

Lemma pop_app {A} (l : list A) x : pop (l ++ [x]) = l.
Proof. unfold pop. rewrite length_app, Nat.add_sub. by rewrite take_app_length. Qed.

Lemma reverse_supply_diff s s' :
  0 ≤ s < 2 ^ 127 → 0 ≤ s' < 2 ^ 127 → reverse_supply (wrap_i128 (s' - s)) s' = s.
Proof.
  intros Hs Hs'. rewrite wrap_i128_small by lia. unfold reverse_supply.
  destruct (Z.ltb_spec 0 (s' - s)).
  - rewrite wrap_small by (unfold fits; lia). unfold sat_sub. lia.
  - rewrite wrap_i128_small by lia. rewrite wrap_small by (unfold fits; lia). unfold sat_add. lia.
Qed.

(** [disconnect_block] after [apply_block]. *)
Lemma disconnect_run block a c c' :
  applied block c a c' →
  disconnect_block block c' = (Ok tt, undo_block (block_id (header block)) (ap_undo a) c').
Proof.
  intros Ha. unfold disconnect_block. erewrite method_bind_run by done.
  rewrite (app_undo _ _ _ _ Ha), lookup_insert_eq. done.
Qed.

Lemma undo_restores_coins block a c c' :
  applied block c a c' → fresh_block (coins c) (transactions block) →
  (∀ k, k ∈ all_spends (transactions block) → k ∉ (all_created (transactions block)).*1) →
  coins (undo_block (block_id (header block)) (ap_undo a) c') = coins c.
Proof.
  intros Ha [_ Hf] Hs. pose proof (app_run _ _ _ _ Ha) as Hrun.
  destruct (block_undo_keys _ _ _ Hrun) as [_ Hc]. cbn in Hc.
  destruct (block_recorded (coins c) (all_created (transactions block)).*1 _ _ _ Hrun) as [Rs Rc Ru];
    [|done..|].
  { split; cbn; [by intros k o ?%not_elem_of_nil|by intros k ?%not_elem_of_nil|done]. }
  apply UtxoSet_ext. intros k. rewrite undo_coins, (app_coins _ _ _ _ Ha).
  rewrite (insert_all_agree _ (coins c)) by done. case_decide as Hk; [done|].
  rewrite remove_all_lookup. case_decide as Hk'.
  - symmetry. apply Hf. by rewrite <- Hc.
  - rewrite Ru by done. by rewrite decide_False.
Qed.
End disconnect.

(** ** The theorems on blocks *)
Section blocks.
Context `{Blake3} `{K256} `{Commitments} `{Wasm} {S : Type} `{HS : Storage S} `{!StorageLaws S}.
Implicit Types (m : StateManager (S := S)) (c : Chain (S := S)) (a : Applying (S := S)) (tx : Transaction).

Definition gas_recorded a : Prop := block_gas_fees (manager (ap_chain a)) = gas_fees_added (ap_undo a).

Lemma utxo_transaction_gas tx : preserves gas_recorded (apply_utxo_transaction tx).
Proof. unfold apply_utxo_transaction, spend_utxo. keeps. Qed.

Lemma transaction_gas tx : preserves gas_recorded (apply_transaction tx).
Proof.
  unfold apply_transaction. destruct (_ && _); [apply utxo_transaction_gas|].
  unfold apply_contract_transition. destruct (_ <? _); [apply preserves_throw|].
  apply preserves_bind; [apply preserves_get|]. intros a. apply preserves_bind; [apply preserves_lift|]. intros s.
  destruct (execute _ _ _) as [[gas|e|x] t].
  - apply preserves_bind; [by apply preserves_modify|]. intros _.
    apply preserves_bind; [|intros; apply utxo_transaction_gas]. apply preserves_modify.
    intros d Hd. unfold gas_recorded in *. cbn. by rewrite Hd.
  - keeps.
  - keeps.
Qed.

Lemma pop_all {A B} (g : list A) (l : list B) : length g = length l → foldl (λ g _, pop g) g l = [].
Proof.
  revert g; induction l as [|x l IH]; intros g Hl; cbn; [by apply nil_length_inv|].
  apply IH. unfold pop. rewrite length_take. cbn in Hl. lia.
Qed.

(** C1. Application of a block is all or nothing: on an error the manager and the
    coins are as they were, the tree up to its caches (same contents, same root);
    on success the coins are those after all transactions in order, one snapshot
    was pushed with the new root, supply and gas fees, the block's undo data was
    recorded, and the flag is down. *)
Theorem apply_block_all_or_nothing block c
    (Ht : tree_wf (tree (manager c))) (Hflag : applying_block (manager c) = false) :
  match sm_apply_block block c with
  | (Err _, c') => restored c c'
  | (Ok _, c') =>
      (∃ a, applied block c a c')
      ∧ coins c' = foldl (λ u tx, post_tx tx u) (coins c) (transactions block)
  | (Panic _, _) => True
  end.
Proof.
  pose proof (apply_block_cases block c Ht Hflag) as Hc.
  destruct (sm_apply_block block c) as [[[]|e|x] c']; [|done..]. destruct Hc as [a Ha].
  split; [by exists a|]. rewrite (app_coins _ _ _ _ Ha). pose proof (app_run _ _ _ _ Ha) as E.
  change (coins c) with (coins (ap_chain {| ap_chain :=
    set_manager (set_gas_fees [] (set_pending [] (set_applying true (manager c)))) c;
    ap_undo := BlockUndo_new |})).
  revert E. generalize {| ap_chain := set_manager (set_gas_fees [] (set_pending [] (set_applying true (manager c)))) c;
    ap_undo := BlockUndo_new |}. clear. intros a0. induction (transactions block) as [|tx txs IH] in a0 |- *; intros E.
  - by injection E as <-.
  - cbn [for_each] in E. apply method_bind_ok in E as ([] & a1 & E1 & E).
    destruct (transaction_effect _ _ _ E1) as (outs & Heff). rewrite (IH _ E). cbn.
    by rewrite (eff_coins _ _ _ _ Heff).
Qed.

(** C2. The recorded supply is the total of the coins: if it is before a block, it is
    after its application, whether that succeeds or fails; and after a success it
    is within the hard cap. *)
Theorem supply_tracks_coins block c
    (Ht : tree_wf (tree (manager c))) (Hflag : applying_block (manager c) = false)
    (Hs : current_total_supply (manager c) = coin_total (coins c)) (Hb : block_fits c block) :
  let '(r, c') := sm_apply_block block c in
  (∀ p, r ≠ Panic p) →
  current_total_supply (manager c') = coin_total (coins c')
  ∧ (r = Ok tt → current_total_supply (manager c') ≤ MAX_GLOBAL_SUPPLY_NANO_SLUG).
Proof.
  pose proof (apply_block_cases block c Ht Hflag) as Hc.
  destruct (sm_apply_block block c) as [[[]|e|x] c']; intros Hr.
  - destruct Hc as [a Ha]. by destruct (applied_supply _ _ _ _ Ha Hs Hb) as (_ & _ & ? & ? & _).
  - destruct Hc as (Hco & t' & Hm & _). split; [|done]. by rewrite Hm, Hco.
  - by destruct (Hr x).
Qed.

(** C6. Disconnection inverts application, for a block that spends none of its own
    outputs: coins, supply, height, snapshots and undo data are what they were.
    The gas fees come back empty whatever they were, and the block hash stays the
    disconnected block's. *)
Theorem disconnect_inverts_apply block c c'
    (Ht : tree_wf (tree (manager c))) (Hflag : applying_block (manager c) = false)
    (Happ : sm_apply_block block c = (Ok tt, c'))
    (Hs : current_total_supply (manager c) = coin_total (coins c)) (Hb : block_fits c block)
    (Hcap : current_total_supply (manager c) ≤ MAX_GLOBAL_SUPPLY_NANO_SLUG)
    (Hh : fits 64 (current_height (manager c) + 1) ∧ 0 ≤ current_height (manager c))
    (Hnew : block_undo_data (manager c) !! block_id (header block) = None)
    (Hown : ∀ k, k ∈ all_spends (transactions block) → k ∉ (all_created (transactions block)).*1) :
  ∃ c'', disconnect_block block c' = (Ok tt, c'')
  ∧ coins c'' = coins c
  ∧ current_total_supply (manager c'') = current_total_supply (manager c)
  ∧ current_height (manager c'') = current_height (manager c)
  ∧ snapshots (manager c'') = snapshots (manager c)
  ∧ snapshot_storages (manager c'') = snapshot_storages (manager c)
  ∧ block_undo_data (manager c'') = block_undo_data (manager c)
  ∧ block_gas_fees (manager c'') = []
  ∧ current_block_hash (manager c'') = Some (block_id (header block)).
Proof.
  pose proof (apply_block_cases block c Ht Hflag) as Hc. rewrite Happ in Hc. destruct Hc as [a Ha].
  exists (undo_block (block_id (header block)) (ap_undo a) c'). split; [by eapply disconnect_run|].
  split; [eapply undo_restores_coins; [done|apply Hb|done]|].
  destruct (applied_supply _ _ _ _ Ha Hs Hb) as (Hu' & _ & Hs' & Hcap' & Hd).
  destruct (undo_fields (block_id (header block)) (ap_undo a) c')
    as (-> & -> & -> & -> & -> & -> & -> & _).
  destruct (app_snapshots _ _ _ _ Ha) as (root & _ & ->).
  rewrite (app_storages _ _ _ _ Ha), (app_undo _ _ _ _ Ha), (app_height _ _ _ _ Ha),
    (app_gas _ _ _ _ Ha), (app_hash _ _ _ _ Ha), !pop_app.
  pose proof (coin_total_nonneg _ (bf_coins _ _ Hb)). pose proof (coin_total_nonneg _ Hu').
  assert (MAX_GLOBAL_SUPPLY_NANO_SLUG < 2 ^ 127) by done.
  split_and!; try done.
  - rewrite Hd. apply reverse_supply_diff; lia.
  - unfold wadd. rewrite wrap_small by apply Hh. unfold sat_sub. lia.
  - by rewrite delete_insert_id.
  - apply pop_all. pose proof (app_run _ _ _ _ Ha) as Hrun.
    match type of Hrun with for_each _ _ ?a0 = _ =>
      pose proof (preserves_for_each gas_recorded apply_transaction (transactions block)
        transaction_gas a0 eq_refl) as Hg end.
    rewrite Hrun in Hg. cbn [snd] in Hg. by rewrite Hg.
Qed.

(** A coin created and spent inside a block is back after its disconnection, though
    it did not exist before the block: the created outpoints are removed before
    the spent ones are inserted again. *)
Theorem disconnect_leaves_own_coin block c c' k
    (Ht : tree_wf (tree (manager c))) (Hflag : applying_block (manager c) = false)
    (Happ : sm_apply_block block c = (Ok tt, c')) (Hf : fresh_block (coins c) (transactions block))
    (Hk : k ∈ all_spends (transactions block)) (Hk' : k ∈ (all_created (transactions block)).*1) :
  utxos (coins c) !! k = None
  ∧ ∃ c'', disconnect_block block c' = (Ok tt, c'') ∧ is_Some (utxos (coins c'') !! k).
Proof.
  split; [by apply Hf|].
  pose proof (apply_block_cases block c Ht Hflag) as Hc. rewrite Happ in Hc. destruct Hc as [a Ha].
  exists (undo_block (block_id (header block)) (ap_undo a) c'). split; [by eapply disconnect_run|].
  rewrite undo_coins. destruct (block_undo_keys _ _ _ (app_run _ _ _ _ Ha)) as [Hs _]. cbn in Hs.
  rewrite <- Hs in Hk. revert Hk. generalize (spent_utxos (ap_undo a)), (remove_all (created_utxos (ap_undo a)) (coins c')).
  clear. intros kos. induction kos as [|[j o] kos IH]; intros u Hk; [by apply not_elem_of_nil in Hk|].
  change (insert_all ((j, o) :: kos) u) with (insert_all kos (utxo_insert j o u)).
  destruct (decide (k ∈ kos.*1)) as [Hin|Hin]; [by apply IH|].
  rewrite insert_all_lookup_ne by done. cbn in Hk. apply elem_of_cons in Hk as [->|?]; [|done].
  cbn. rewrite lookup_insert_eq. by eexists.
Qed.

(** *** Rollback *)
(** A history of blocks, each applied with success. *)
Inductive applies : list BlockNode → Chain → Chain → Prop :=
| applies_nil c : applies [] c c
| applies_cons block blocks c c1 c' :
    sm_apply_block block c = (Ok tt, c1) → applies blocks c1 c' → applies (block :: blocks) c c'.

Lemma applies_inv blocks c c' n :
  applies blocks c c' → chain_inv n c → n + Z.of_nat (length blocks) < 2 ^ 64 →
  chain_inv (n + Z.of_nat (length blocks)) c'
  ∧ (∃ l, snapshots (manager c') = snapshots (manager c) ++ l)
  ∧ (∃ l, snapshot_storages (manager c') = snapshot_storages (manager c) ++ l).
Proof.
  intros Hx; revert n; induction Hx as [c|block blocks c c1 c' E Hx IH]; intros n Hi Hn.
  { cbn [length] in *. rewrite Z.add_0_r. split_and!; [done|exists []; by rewrite app_nil_r..]. }
  cbn [length] in *. pose proof (apply_inv n block c _ c1 Hi ltac:(lia) E ltac:(done)) as H1'.
  pose proof (apply_block_cases block c (wf_tree _ (proj1 Hi)) (wf_flag _ (proj1 Hi))) as Hc.
  rewrite E in Hc. destruct Hc as [a Ha]. destruct (app_snapshots _ _ _ _ Ha) as (root & _ & Hsn).
  pose proof (app_storages _ _ _ _ Ha) as Hst.
  destruct (IH (n + 1) H1' ltac:(lia)) as (Hi' & [l Hl] & [l' Hl']).
  replace (n + Z.of_nat (Datatypes.S (length blocks))) with (n + 1 + Z.of_nat (length blocks)) by lia.
  split; [done|]. rewrite Hl, Hl', Hsn, Hst. rewrite <- !app_assoc. split; by eexists.
Qed.

(** C4. Rolling back to the height of a block returns to the state after it, whatever
    blocks were applied since: the same storage behind the tree, the same root,
    supply, gas fees, height and snapshots.  The recorded block hash, the undo
    data of the removed blocks and the outpoint keys are not touched. *)
Theorem rollback_returns block c0 c1 blocks c2 n
    (Hi : chain_inv n c0) (Hn : n + 1 + Z.of_nat (length blocks) < 2 ^ 64)
    (E1 : sm_apply_block block c0 = (Ok tt, c1)) (E2 : applies blocks c1 c2) :
  let m1 := manager c1 in
  ∃ m, rollback (current_height m1) (manager c2) = (Ok tt, m)
  ∧ storage (tree m) = storage (tree m1) ∧ root_of (tree m) = root_of (tree m1)
  ∧ current_total_supply m = current_total_supply m1 ∧ block_gas_fees m = block_gas_fees m1
  ∧ current_height m = current_height m1
  ∧ snapshots m = snapshots m1 ∧ snapshot_storages m = snapshot_storages m1
  ∧ sm_wf m
  ∧ current_block_hash m = current_block_hash (manager c2)
  ∧ block_undo_data m = block_undo_data (manager c2)
  ∧ outpoint_to_key m = outpoint_to_key (manager c2).
Proof.
  intros m1.
  pose proof (apply_inv n block c0 _ c1 Hi ltac:(lia) E1 ltac:(done)) as Hi1.
  pose proof (apply_block_cases block c0 (wf_tree _ (proj1 Hi)) (wf_flag _ (proj1 Hi))) as Hc.
  rewrite E1 in Hc. destruct Hc as [a Ha]. fold m1 in Hi1.
  destruct (applies_inv _ _ _ _ E2 Hi1 ltac:(lia)) as ([Hwf2 Hn2] & [l Hl] & [l' Hl']).
  fold m1 in Hl, Hl'. destruct Hi1 as [Hwf1 Hn1].
  pose proof (wf_length _ Hwf1) as Hlen1. pose proof (wf_length _ Hwf2) as Hlen2.
  pose proof (wf_storages _ Hwf1) as Hst1. pose proof (wf_height _ Hwf1) as Hge1. pose proof (wf_height _ Hwf2).
  assert (current_height m1 ≤ current_height (manager c2)).
  { rewrite Hl, length_app in Hlen2. lia. }
  destruct (rollback_ok (manager c2) (current_height m1) Hwf2 ltac:(lia))
    as (s & st & t & Hs & Hst & E & Hstor & Hp & Hr & Ht).
  destruct (app_snapshots _ _ _ _ Ha) as (root & Hroot & Hsn). fold m1 in Hsn, Hroot.
  pose proof (app_storages _ _ _ _ Ha) as Hsst. fold m1 in Hsst.
  assert (Hlen0 : length (snapshots (manager c0)) = Z.to_nat (current_height m1)).
  { rewrite Hsn, length_app in Hlen1. cbn in Hlen1. lia. }
  rewrite Hl, Hsn in Hs. rewrite <- app_assoc, lookup_app_r, Hlen0, Nat.sub_diag in Hs by lia.
  assert (Hlen0' : length (snapshot_storages (manager c0)) = Z.to_nat (current_height m1)).
  { rewrite Hsst, Hsn, !length_app in Hst1. cbn in Hst1. lia. }
  rewrite Hl', Hsst in Hst. rewrite <- app_assoc, lookup_app_r, Hlen0', Nat.sub_diag in Hst by lia.
  injection Hs as <-. injection Hst as <-. exists (rolled_back (current_height m1)
    {| snapshot_height := current_height m1; snapshot_root := root;
       snapshot_supply := current_total_supply (manager (ap_chain a));
       snapshot_gas_fees := block_gas_fees (manager (ap_chain a));
       last_block_hash := Some (block_id (header block)) |} t (manager c2)).
  cbn [snapshot_root] in Hr. split; [|split; [|split; [|split; [|split; [|split; [|split; [|split]]]]]]].
  - rewrite E. unfold root_of in Hr. by destruct (scratch_root t).
  - cbn. by rewrite Hstor.
  - cbn [rolled_back tree set_tree]. by rewrite Hr, <- Hroot.
  - cbn. by rewrite (app_supply _ _ _ _ Ha : current_total_supply m1 = _).
  - cbn. by rewrite (app_gas _ _ _ _ Ha : block_gas_fees m1 = _).
  - reflexivity.
  - cbn [rolled_back snapshots set_tree set_gas_fees set_supply set_height set_snapshots].
    rewrite Hl, take_app_le by lia. apply take_ge; lia.
  - cbn [rolled_back snapshot_storages set_tree set_gas_fees set_supply set_height set_snapshots].
    rewrite Hl', take_app_le by lia. apply take_ge; lia.
  - split; [by apply rolled_back_wf; [|lia|]|]. split_and!; reflexivity.
Qed.
End blocks.

(** ** Reorganisation *)
Section reorganisation.
Context `{Blake3} `{K256} `{Commitments} `{Wasm} {S : Type} `{HS : Storage S} `{!StorageLaws S}.
Implicit Types (m : StateManager (S := S)) (c : Chain (S := S)) (a : Applying (S := S)) (tx : Transaction).

Lemma insert_wf key v (t : VerkleTree (S := S)) : tree_wf t → tree_wf (insert_key key v t).
Proof. intros [Ht Hf]. split; [by apply insert_ok|by apply insert_frame]. Qed.

Lemma undo_tree_wf h undo c :
  tree_wf (tree (manager c)) → tree_wf (tree (manager (undo_block h undo c))).
Proof.
  intros Ht. destruct (undo_fields h undo c) as (_ & _ & _ & _ & _ & _ & _ & _ & _ & _ & ->).
  revert Ht. generalize (reverse (verkle_updates undo)), (tree (manager c)). intros l.
  induction l as [|p l IH]; intros t Ht; [done|]. by apply IH, insert_wf.
Qed.

Lemma apply_needs_snapshot block c c' :
  tree_wf (tree (manager c)) → applying_block (manager c) = false →
  snapshots (manager c) !! Z.to_nat (current_height (manager c)) = None →
  sm_apply_block block c ≠ (Ok tt, c').
Proof.
  intros Ht Hf Hn E. pose proof (apply_block_cases block c Ht Hf) as Hc. rewrite E in Hc.
  destruct Hc as [a Ha]. destruct (app_index _ _ _ _ Ha) as [s Hs]. congruence.
Qed.

(** The last entries a set gets are in it. *)
Lemma insert_all_is_Some (kos : list (OutPoint * TxOutput)) u k :
  k ∈ kos.*1 → is_Some (utxos (insert_all kos u) !! k).
Proof.
  revert u; induction kos as [|[j o] kos IH]; intros u Hk; [by apply not_elem_of_nil in Hk|].
  change (insert_all ((j, o) :: kos) u) with (insert_all kos (utxo_insert j o u)).
  destruct (decide (k ∈ kos.*1)) as [Hin|Hin]; [by apply IH|].
  rewrite insert_all_lookup_ne by done. cbn in Hk. apply elem_of_cons in Hk as [->|?]; [|done].
  cbn. rewrite lookup_insert_eq. by eexists.
Qed.

(** The plan lists the old branch from the tip down and [perform_reorganization]
    disconnects it in reverse, ancestor first.  For two blocks of which the later
    spends a coin of the earlier, the coin is left in the set, though it did not
    exist before the two. *)
Theorem disconnect_order_leaves_coin dag blockA blockB c0 c1 c2 k
    (Ht : tree_wf (tree (manager c0))) (Hflag : applying_block (manager c0) = false)
    (EA : sm_apply_block blockA c0 = (Ok tt, c1)) (EB : sm_apply_block blockB c1 = (Ok tt, c2))
    (HA : get_block dag (block_id (header blockA)) = Some blockA)
    (HB : get_block dag (block_id (header blockB)) = Some blockB)
    (Hne : block_id (header blockA) ≠ block_id (header blockB))
    (Hf : fresh_block (coins c0) (transactions blockA))
    (Hk : k ∈ (all_created (transactions blockA)).*1) (Hk' : k ∈ all_spends (transactions blockB)) :
  utxos (coins c0) !! k = None
  ∧ ∃ c3, perform_reorganization dag [block_id (header blockB); block_id (header blockA)] c2 = (Ok tt, c3)
    ∧ is_Some (utxos (coins c3) !! k).
Proof.
  split; [by apply Hf|].
  pose proof (apply_block_cases blockA c0 Ht Hflag) as Hc. rewrite EA in Hc. destruct Hc as [aA HaA].
  pose proof (apply_block_cases blockB c1 (app_tree _ _ _ _ HaA) (app_flag _ _ _ _ HaA)) as Hc.
  rewrite EB in Hc. destruct Hc as [aB HaB].
  assert (Hu : block_undo_data (manager c2) = <[block_id (header blockB) := ap_undo aB]>
    (<[block_id (header blockA) := ap_undo aA]> (block_undo_data (manager c0))))
    by by rewrite (app_undo _ _ _ _ HaB), (app_undo _ _ _ _ HaA).
  exists (undo_block (block_id (header blockB)) (ap_undo aB) (undo_block (block_id (header blockA)) (ap_undo aA) c2)).
  split.
  - unfold perform_reorganization. erewrite method_bind_run by done.
    assert (split_plan dag (manager c2) [block_id (header blockB); block_id (header blockA)]
      = ([block_id (header blockB); block_id (header blockA)], [])) as ->.
    { unfold split_plan. cbn [foldl plan_block]. rewrite HB, Hu, bool_decide_eq_true_2.
      2:{ rewrite lookup_insert_eq. by eexists. }
      cbn [plan_block app]. rewrite HA, Hu, bool_decide_eq_true_2; [done|]. rewrite lookup_insert_ne by done. rewrite lookup_insert_eq. by eexists. }
    change (reverse [block_id (header blockB); block_id (header blockA)])
      with [block_id (header blockA); block_id (header blockB)].
    erewrite method_bind_run; [reflexivity|]. cbn [for_each].
    unfold with_block. rewrite HA, HB. erewrite method_bind_run.
    2:{ unfold disconnect_block. erewrite method_bind_run by done. rewrite Hu, lookup_insert_ne, lookup_insert_eq by done. done. }
    erewrite method_bind_run; [reflexivity|]. unfold disconnect_block. erewrite method_bind_run by done.
    destruct (undo_fields (block_id (header blockA)) (ap_undo aA) c2) as (_ & _ & _ & _ & _ & -> & _).
    rewrite Hu, lookup_delete_ne, lookup_insert_eq by done. done.
  - rewrite undo_coins. apply insert_all_is_Some.
    by rewrite (proj1 (block_undo_keys _ _ _ (app_run _ _ _ _ HaB))).
Qed.

(** Stateful validation only touches the caches of the tree. *)
Lemma set_tree_id m : set_tree (tree m) m = m.
Proof. by destruct m. Qed.

Lemma stateful_same block u c :
  tree_wf (tree (manager c)) →
  ∃ r t', zoom manager set_manager (validate_block_stateful block u) c
          = (r, set_manager (set_tree t' (manager c)) c) ∧ tree_wf t'.
Proof.
  intros Ht. unfold zoom, validate_block_stateful.
  destruct (fold_outcome (λ _, check_unspent u) tt (transactions block)) as [[]|x|x] eqn:E1.
  2: erewrite method_bind_stop by done. 3: erewrite method_bind_unwind by done.
  2,3: eexists _, (tree (manager c)); rewrite set_tree_id; by split.
  erewrite method_bind_run by done.
  assert (Hm : preserves tree_wf (for_each (check_root block) (transactions block))).
  { apply preserves_for_each. intros tx. unfold check_root.
    apply preserves_catch; [apply get_root_keeps|..]; intros; keeps. }
  destruct (verkle_proofs (header block)).
  2:{ erewrite method_bind_run by done. eexists _, (tree (manager c)). rewrite set_tree_id. by split. }
  specialize (Hm _ Ht). unfold on_tree, zoom.
  destruct (for_each (check_root block) (transactions block) (tree (manager c))) as [[[]|x|x] t'] eqn:E2;
    cbn [snd] in Hm.
  - erewrite method_bind_run by (by rewrite E2). do 2 eexists; split; [reflexivity|done].
  - erewrite method_bind_stop by (by rewrite E2). do 2 eexists; split; [reflexivity|done].
  - erewrite method_bind_unwind by (by rewrite E2). do 2 eexists; split; [reflexivity|done].
Qed.

(** A refused block leaves the chain as it was, up to the caches of the tree. *)
Lemma connect_refused block c e c' :
  tree_wf (tree (manager c)) → applying_block (manager c) = false →
  connect_block block c = (Err e, c') →
  ∃ t', c' = set_manager (set_tree t' (manager c)) c ∧ tree_wf t'.
Proof.
  intros Ht Hf E. unfold connect_block in E. erewrite method_bind_run in E by done.
  destruct (stateful_same block (coins c) c Ht) as (r & t' & Ev & Ht').
  destruct r as [[]|x|x].
  - erewrite method_bind_run in E by (unfold rethrow; by rewrite Ev).
    pose proof (apply_block_cases block (set_manager (set_tree t' (manager c)) c) Ht' Hf) as Hx.
    rewrite E in Hx. destruct Hx as (Hco & t2 & Hm & _ & Ht2). exists t2. split; [|done].
    destruct c' as [m2 u2]. cbn in Hco, Hm. by subst.
  - erewrite method_bind_stop in E by (unfold rethrow; by rewrite Ev). injection E as _ <-. by exists t'.
  - by erewrite method_bind_unwind in E by (unfold rethrow; by rewrite Ev).
Qed.

(** A plan of one block to disconnect and one to connect. *)
Lemma perform_two dag blockA blockB c d e d' :
  get_block dag (block_id (header blockA)) = Some blockA →
  get_block dag (block_id (header blockB)) = Some blockB →
  is_Some (block_undo_data (manager c) !! block_id (header blockA)) →
  block_undo_data (manager c) !! block_id (header blockB) = None →
  disconnect_block blockA c = (Ok tt, d) → connect_block blockB d = (Err e, d') →
  perform_reorganization dag [block_id (header blockA); block_id (header blockB)] c = (Err e, d').
Proof.
  intros HA HB HuA HuB Ed Ec. unfold perform_reorganization. erewrite method_bind_run by done.
  assert (split_plan dag (manager c) [block_id (header blockA); block_id (header blockB)]
    = ([block_id (header blockA)], [block_id (header blockB)])) as ->.
  { unfold split_plan. cbn [foldl plan_block]. rewrite HA, bool_decide_eq_true_2 by done.
    cbn [plan_block app]. rewrite HB, HuB, bool_decide_eq_false_2 by (by intros []). done. }
  change (reverse [block_id (header blockA)]) with [block_id (header blockA)].
  erewrite method_bind_run.
  2:{ cbn [for_each]. unfold with_block. rewrite HA. erewrite method_bind_run by exact Ed. reflexivity. }
  cbn [for_each]. unfold with_block. rewrite HB. by erewrite method_bind_stop by exact Ec.
Qed.

(** A reorganisation that disconnects the tip and then fails on the new block gives
    back the height, the coins, the supply, the gas fees and the block hash, but not
    the popped snapshot: afterwards there is none for the current height, and no
    block is ever applied again. *)
Theorem failed_reorganization_halts order dag ghostdag new_tip c root cached blockA blockB e
    (Hi : sm_wf (manager c))
    (Hallowed : can_reorganize ghostdag dag new_tip = Ok true)
    (Hplan : reorganize_to_tip order ghostdag dag new_tip
             = Ok (Some [block_id (header blockA); block_id (header blockB)]))
    (HA : get_block dag (block_id (header blockA)) = Some blockA)
    (HB : get_block dag (block_id (header blockB)) = Some blockB)
    (HuA : is_Some (block_undo_data (manager c) !! block_id (header blockA)))
    (HuB : block_undo_data (manager c) !! block_id (header blockB) = None)
    (Ecached : zoom manager set_manager (on_tree root_or_zero) c = (Ok root, cached))
    (Efail : ∀ d, disconnect_block blockA cached = (Ok tt, d) → (connect_block blockB d).1 = Err e) :
  ∃ c', reorganize_chain order dag ghostdag new_tip c = (Err e, c')
  ∧ coins c' = coins c ∧ current_height (manager c') = current_height (manager c)
  ∧ current_total_supply (manager c') = current_total_supply (manager c)
  ∧ block_gas_fees (manager c') = block_gas_fees (manager c)
  ∧ current_block_hash (manager c') = current_block_hash (manager c)
  ∧ snapshots (manager c') = pop (snapshots (manager c))
  ∧ ∀ block c'', sm_apply_block block c' ≠ (Ok tt, c'').
Proof.
  assert (Hc : ∃ t, cached = set_manager (set_tree t (manager c)) c ∧ tree_wf t).
  { unfold zoom, on_tree in Ecached. unfold zoom in Ecached.
    destruct (root_or_zero_wf (tree (manager c)) (wf_tree _ Hi)) as (t & Et & _ & Ht). rewrite Et in Ecached.
    injection Ecached as _ <-. by exists t. }
  destruct Hc as (t & Ec & Ht). destruct HuA as [undo HuA].
  assert (Ed : disconnect_block blockA cached = (Ok tt, undo_block (block_id (header blockA)) undo cached)).
  { unfold disconnect_block. erewrite method_bind_run by done. rewrite Ec. cbn [manager set_manager set_tree block_undo_data].
    by rewrite HuA. }
  pose proof (undo_fields (block_id (header blockA)) undo cached) as (_ & _ & _ & Hsn & _ & _ & _ & Hfl & _).
  pose proof (undo_tree_wf (block_id (header blockA)) undo cached) as Htd.
  specialize (Efail _ Ed).
  destruct (undo_block (block_id (header blockA)) undo cached) as [md ud].
  destruct (connect_block blockB {| manager := md; coins := ud |}) as [r cf] eqn:Ecf. cbn [fst] in Efail. subst r.
  assert (Hcm : manager cached = set_tree t (manager c)) by by rewrite Ec.
  cbn [manager] in Hsn, Hfl, Htd. rewrite Hcm in Hsn, Hfl, Htd.
  assert (Hfd : applying_block md = false) by (rewrite Hfl; apply (wf_flag _ Hi)).
  destruct (connect_refused blockB {| manager := md; coins := ud |} e cf (Htd Ht) Hfd Ecf) as (t' & -> & Ht').
  assert (Hp : perform_reorganization dag [block_id (header blockA); block_id (header blockB)] cached
    = (Err e, set_manager (set_tree t' md) {| manager := md; coins := ud |})).
  { eapply perform_two; [done|done| | |done|exact Ecf]; rewrite Hcm; [by eexists|done]. }
  eexists. split.
  { unfold reorganize_chain. rewrite Hallowed. erewrite method_bind_run by done. rewrite Hplan.
    erewrite method_bind_run by done. cbv beta iota. erewrite method_bind_run.
    2:{ unfold rethrow. rewrite Ecached. reflexivity. }
    erewrite method_bind_run by done. unfold catch. rewrite Hp.
    erewrite method_bind_run by done. reflexivity. }
  rewrite Ec. cbn [coins manager set_manager set_tree set_block_hash set_gas_fees set_supply set_height
    current_height current_total_supply block_gas_fees current_block_hash snapshots].
  split_and!; [reflexivity..|exact Hsn|].
  intros block c''. apply apply_needs_snapshot; [exact Ht'|exact Hfd|].
  cbn [manager snapshots current_height set_block_hash set_gas_fees set_supply set_height set_tree].
  rewrite Hsn. apply lookup_ge_None_2. unfold pop.
  cbn [snapshots set_tree]. rewrite length_take, (wf_length _ Hi). lia.
Qed.
End reorganisation.

(** ** What is checked, and what is not *)
Section checks.
Context `{Blake3} `{K256} `{Commitments} `{Wasm} {S : Type} `{HS : Storage S} `{!StorageLaws S}.
Implicit Types (m : StateManager (S := S)) (c : Chain (S := S)) (a : Applying (S := S)) (tx : Transaction).

(** Rollback keeps the undo data of the blocks it removes, so such a block can
    still be disconnected: one more snapshot is popped and the height lowered, and
    at the genesis no snapshot is left and no block is applied any more. *)
Theorem disconnect_after_rollback block c c1
    (Hi : sm_wf (manager c)) (Hh : current_height (manager c) + 1 < 2 ^ 64)
    (E : sm_apply_block block c = (Ok tt, c1)) :
  ∃ m c2, rollback (current_height (manager c)) (manager c1) = (Ok tt, m)
  ∧ disconnect_block block {| manager := m; coins := coins c1 |} = (Ok tt, c2)
  ∧ snapshots (manager c2) = pop (snapshots (manager c))
  ∧ current_height (manager c2) = sat_sub (current_height (manager c)) 1
  ∧ (current_height (manager c) = 0 → ∀ block' c3, sm_apply_block block' c2 ≠ (Ok tt, c3)).
Proof.
  pose proof (apply_inv _ block c _ c1 (conj Hi (Z.le_refl _)) Hh E ltac:(done)) as [Hi1 Hn1].
  pose proof (apply_block_cases block c (wf_tree _ Hi) (wf_flag _ Hi)) as Hc. rewrite E in Hc.
  destruct Hc as [a Ha]. pose proof (wf_height _ Hi). pose proof (wf_length _ Hi) as Hlen.
  assert (Hh1 : current_height (manager c1) = current_height (manager c) + 1).
  { rewrite (app_height _ _ _ _ Ha). apply wrap_small. unfold fits. lia. }
  destruct (rollback_ok (manager c1) (current_height (manager c)) Hi1 ltac:(lia))
    as (s & st & t & Hs & Hst & Er & _ & _ & Hr & Ht).
  set (m := rolled_back (current_height (manager c)) s t (manager c1)) in *.
  pose proof (undo_fields (block_id (header block)) (ap_undo a) {| manager := m; coins := coins c1 |})
    as (_ & _ & Hh2 & Hsn2 & _ & _ & _ & Hfl2 & _).
  pose proof (undo_tree_wf (block_id (header block)) (ap_undo a) {| manager := m; coins := coins c1 |} Ht) as Ht2.
  exists m, (undo_block (block_id (header block)) (ap_undo a) {| manager := m; coins := coins c1 |}).
  destruct (undo_block (block_id (header block)) (ap_undo a) {| manager := m; coins := coins c1 |}) as [m2 u2] eqn:E2.
  assert (Hsm : snapshots m = snapshots (manager c)).
  { destruct (app_snapshots _ _ _ _ Ha) as (root & _ & Hsn).
    change (take (Z.to_nat (current_height (manager c)) + 1) (snapshots (manager c1)) = snapshots (manager c)).
    rewrite Hsn, take_app_le by lia. apply take_ge. lia. }
  cbn [manager] in *. rewrite Hsm in Hsn2. split; [|split; [|split; [done|split; [done|]]]].
  - rewrite Er. unfold root_of in Hr. by destruct (scratch_root t).
  - unfold disconnect_block. erewrite method_bind_run by done. cbn [manager].
    change (block_undo_data m) with (block_undo_data (manager c1)).
    rewrite (app_undo _ _ _ _ Ha), lookup_insert_eq. erewrite method_bind_run by done. unfold modify. by rewrite E2.
  - intros Hz block' c3. apply apply_needs_snapshot; [exact Ht2|cbn [manager]; rewrite Hfl2; apply (wf_flag _ Hi1)|].
    cbn [manager]. rewrite Hsn2. apply lookup_ge_None_2. unfold pop. rewrite length_take. lia.
Qed.

(** Application alone checks neither amounts nor owners nor signatures: a plain
    transaction is applied exactly when its inputs are distinct and present. *)
Theorem application_checks_only_presence tx a
    (Hp : execution_payload tx = [] ∧ contract_address tx = None) :
  (∃ a', apply_transaction tx a = (Ok tt, a'))
  ↔ NoDup (spent_outpoints tx)
    ∧ ∀ k, k ∈ spent_outpoints tx → is_Some (utxos (coins (ap_chain a)) !! k).
Proof.
  split.
  - intros [a' E]. destruct (transaction_effect _ _ _ E) as (outs & [Hs Hnd _ _ _ _ _]). split; [done|].
    intros k (i & -> & Hi)%list_elem_of_fmap. apply list_elem_of_lookup in Hi as [n Hn].
    apply Forall2_same_length_lookup in Hs as [Hl Hs].
    destruct (lookup_lt_is_Some_2 outs n) as [o Ho]; [rewrite <- Hl; by eapply lookup_lt_Some|].
    exists o. by apply (Hs n).
  - intros [Hnd Hk]. unfold apply_transaction. rewrite !bool_decide_eq_true_2 by apply Hp. cbn [andb].
    unfold apply_utxo_transaction, spent_outpoints in *.
    assert (Hs : ∃ a', for_each spend_utxo (inputs tx) a = (Ok tt, a')).
    { revert a Hk Hnd. induction (inputs tx) as [|i ins IH]; intros a Hk Hnd; [by eexists|].
      rewrite fmap_cons in *. apply NoDup_cons in Hnd as [Hi Hnd]. cbn [for_each].
      destruct (Hk (outpoint_of i) ltac:(left)) as [o Ho].
      erewrite method_bind_run.
      2:{ unfold spend_utxo. erewrite method_bind_run by done. rewrite Ho. reflexivity. }
      apply IH; [|done]. intros k Hin. cbn. rewrite lookup_delete_ne; [apply Hk; by right|]. by intros <-. }
    destruct Hs as [a1 E1]. erewrite method_bind_run by exact E1.
    clear. revert a1. induction (enumerate (outputs tx)) as [|p l IH]; intros a1; [by eexists|].
    cbn [for_each]. erewrite method_bind_run by done. apply IH.
Qed.

(** The check of [connect_block]: when no sum overflows, a spend passes exactly if
    its outputs and its gas fee *truncated to 64 bits* are covered by the coins it
    spends; the 128-bit fee itself need not be. *)
Theorem check_inflation_spec u tx outs
    (Hu : utxo_fits u) (Ho : Forall output_fits (outputs tx)) (Hc : is_coinbase tx = false)
    (Hs : spends u (inputs tx) outs) (Hin : values outs < 2 ^ 64)
    (Hout : values (outputs tx) + wrap 64 (sat_mul 128 (gas_limit tx) (max_fee_per_gas tx)) < 2 ^ 64) :
  check_inflation u tx = Ok tt ↔
  values (outputs tx) + sat_mul 128 (gas_limit tx) (max_fee_per_gas tx) mod 2 ^ 64 ≤ values outs.
Proof.
  assert (Hsum : ∀ l acc, Forall output_fits l → acc + values l < 2 ^ 64 →
    foldl (λ total output, sat_add 64 total (value output)) acc l = acc + values l).
  { clear. intros l acc Hl. induction Hl as [|o l [Ho _] Hl IH] in acc |- *; intros Hb; [cbn; lia|].
    rewrite values_cons in *. pose proof (values_nonneg l Hl). cbn [foldl].
    rewrite sat_add_exact by lia. rewrite IH; lia. }
  pose proof (wrap_fits 64 (sat_mul 128 (gas_limit tx) (max_fee_per_gas tx)) ltac:(done)) as Hw.
  assert (Et : total_input u tx = values outs).
  { unfold total_input. rewrite <- (Z.add_0_l (values outs)). pose proof (spends_fits u _ _ Hu Hs) as Hof.
    assert (Hb : 0 + values outs < 2 ^ 64) by lia. revert Hb. generalize 0 as acc. clear Hin Hout Hc Ho.
    induction Hs as [|i o ins outs' Hio Hs IH]; intros acc Hb; [cbn; lia|].
    apply Forall_cons in Hof as [[Hov _] Hof]. rewrite values_cons in *.
    pose proof (values_nonneg _ Hof). cbn [foldl]. rewrite Hio, sat_add_exact by lia. rewrite IH; [lia|done|lia]. }
  unfold check_inflation. rewrite Hc, Et. unfold total_output. destruct Hw as [Hw0 Hw1].
  rewrite (Hsum (outputs tx) 0 Ho) by lia. rewrite sat_add_exact by lia.
  rewrite ensure_ok, Z.leb_le. unfold wrap. lia.
Qed.

(** When there are too many prune markers, the thousand with the earliest
    timestamps are kept and the later ones dropped. *)
Theorem rebuild_keeps_oldest m n m'
    (E : rebuild_state_root_and_prune_proofs m = (Ok n, m')) (Hn : 0 < n) :
  (sm_prune_markers m' ⊆ sm_prune_markers m) ∧ size (sm_prune_markers m') = 1000%nat
  ∧ (∀ k j x y, sm_prune_markers m' !! k = Some x → sm_prune_markers m !! j = Some y →
       sm_prune_markers m' !! j = None → marker_timestamp x ≤ marker_timestamp y).
Proof.
  unfold rebuild_state_root_and_prune_proofs in E. erewrite method_bind_run in E by done.
  set (leb := λ x y : OutPoint * PruneMarker, marker_timestamp x.2 <=? marker_timestamp y.2) in *.
  destruct (Z.ltb_spec 0 (sat_sub (Z.of_nat (size (sm_prune_markers m))) 1000)) as [Hlt|]; [|injection E; lia].
  injection E as _ <-. cbn [sm_prune_markers set_markers].
  set (l := sort_by leb (map_to_list (sm_prune_markers m))).
  assert (Hperm : l ≡ₚ map_to_list (sm_prune_markers m)) by apply sort_by_perm.
  assert (Hsort : StronglySorted (λ p q, leb p q = true) l).
  { apply sort_by_sorted; unfold leb.
    - intros x y. destruct (Z.leb_spec (marker_timestamp x.2) (marker_timestamp y.2)); [by left|].
      right. apply Z.leb_le. lia.
    - intros x y z Hx%Z.leb_le Hy%Z.leb_le. apply Z.leb_le. lia. }
  assert (Hnd : NoDup l.*1) by (rewrite Hperm; apply NoDup_fst_map_to_list).
  assert (Hl : length l = size (sm_prune_markers m)).
  { rewrite Hperm. apply length_map_to_list. }
  clearbody l. rewrite <- (take_drop 1000 l) in Hperm, Hsort, Hnd.
  rewrite fmap_app in Hnd. apply NoDup_app in Hnd as (Hnd & _ & _).
  split_and!.
  - apply map_subseteq_spec. intros k x Hk%elem_of_list_to_map_2. apply elem_of_map_to_list.
    rewrite <- Hperm. apply elem_of_app. by left.
  - rewrite map_size_list_to_map by done. rewrite length_take. unfold sat_sub in Hlt. lia.
  - intros k j x y Hk%elem_of_list_to_map_2 Hj Hnone%not_elem_of_list_to_map_2.
    apply elem_of_map_to_list in Hj. rewrite <- Hperm in Hj. apply elem_of_app in Hj as [Hj|Hj].
    { destruct Hnone. by apply (list_elem_of_fmap_2 fst) in Hj. }
    clear -Hsort Hk Hj. induction (take 1000 l) as [|p q IH]; [by apply not_elem_of_nil in Hk|].
    cbn in Hsort. apply StronglySorted_inv in Hsort as [Hsort Hall].
    apply elem_of_cons in Hk as [<-|Hk]; [|by apply IH].
    rewrite Forall_forall in Hall. specialize (Hall (j, y)). unfold leb in Hall.
    apply Z.leb_le in Hall; [done|]. apply elem_of_app. by right.
Qed.
End checks.

(** ** Histories of a manager *)
Section histories.
Context `{Blake3} `{K256} `{Commitments} `{Wasm} {S : Type} `{HS : Storage S} `{!StorageLaws S}.
Implicit Types (m : StateManager (S := S)) (c : Chain (S := S)).
#[local] Hint Resolve get_root_keeps root_or_zero_keeps prune_keeps on_tree_inv preserves_rethrow : keeps.

Inductive sm_op :=
| SmApply (block : BlockNode)
| SmConnect (block : BlockNode)
| SmRollbackState (h : Z)
| SmRollback (h : Z)
| SmRestore (root : bytes32) (h : Z)
| SmMark (outpoint : OutPoint) (ep ts : Z)
| SmPrune (epoch_threshold : Z)
| SmRebuild
| SmRoot
| SmCrossCheck
| SmDisconnect (block : BlockNode)
| SmReorganize (order : gset Hash → list Hash) (dag : Dag) (ghostdag : GhostDag) (new_tip : Hash).

Definition run_sm (op : sm_op) : method Chain StateManagerError unit :=
  match op with
  | SmApply block => sm_apply_block block
  | SmConnect block => connect_block block
  | SmRollbackState h => zoom manager set_manager (rollback_state h)
  | SmRollback h => zoom manager set_manager (rollback h)
  | SmRestore root h => zoom manager set_manager (restore_from_snapshot root h)
  | SmMark outpoint ep ts => modify (λ c, set_manager (mark_outpoint_for_pruning outpoint ep ts (manager c)) c)
  | SmPrune ep => _ ← execute_pruning_cycle ep; mret tt
  | SmRebuild => _ ← zoom manager set_manager rebuild_state_root_and_prune_proofs; mret tt
  | SmRoot => _ ← zoom manager set_manager get_root_hash; mret tt
  | SmCrossCheck => c ← get; zoom manager set_manager (cross_check_supply_consistency (coins c))
  | SmDisconnect block => disconnect_block block
  | SmReorganize order dag ghostdag new_tip => reorganize_chain order dag ghostdag new_tip
  end.

(** The plan of a reorganisation. *)
Definition planned (order : gset Hash → list Hash) (dag : Dag) (ghostdag : GhostDag) (new_tip : Hash) : list Hash :=
  match reorganize_to_tip order ghostdag dag new_tip with Ok (Some plan) => plan | _ => [] end.

(** Heights are [u64]s.  A disconnection stays above the genesis, and a reorganisation
    succeeds ([disconnect_after_rollback] and [failed_reorganization_halts] are what
    happens otherwise). *)
Definition sm_op_fits (op : sm_op) c (r : outcome StateManagerError unit) : Prop :=
  match op with
  | SmRollbackState h | SmRollback h => 0 ≤ h
  | SmDisconnect _ => 1 ≤ current_height (manager c)
  | SmReorganize order dag ghostdag new_tip =>
      r = Ok tt ∧ Z.of_nat (length (split_plan dag (manager c) (planned order dag ghostdag new_tip)).1) ≤ current_height (manager c)
  | _ => True
  end.

(** How many blocks an operation can put on the chain, at most. *)
Definition sm_op_span (op : sm_op) : Z :=
  match op with
  | SmReorganize order dag ghostdag new_tip => Z.of_nat (length (planned order dag ghostdag new_tip))
  | _ => 1
  end.

Inductive sm_reachable : Z → Chain → Prop :=
| reach_new st ops t0 m u :
    VerkleTree_new st = Ok t0 → StateManager_new (foldl run_op t0 ops) = Ok m →
    sm_reachable 0 {| manager := m; coins := u |}
| reach_op n c op r c' :
    sm_reachable n c → run_sm op c = (r, c') → sm_op_fits op c r → (∀ p, r ≠ Panic p) →
    sm_reachable (n + sm_op_span op) c'.

(** *** Disconnection and reorganisation *)
Lemma undo_inv n h undo c : 1 ≤ current_height (manager c) → chain_inv n c →
  chain_inv n (undo_block h undo c) ∧ current_height (manager (undo_block h undo c)) = current_height (manager c) - 1.
Proof.
  intros Hh [Hm Hn]. pose proof (undo_fields h undo c) as (_ & _ & Hhe & Hsn & Hst & _ & _ & Hfl & _).
  pose proof (undo_tree_wf h undo c (wf_tree _ Hm)) as Ht. pose proof (wf_length _ Hm) as Hl.
  assert (Hh' : current_height (manager (undo_block h undo c)) = current_height (manager c) - 1) by (rewrite Hhe; unfold sat_sub; lia).
  split; [|done]. unfold pop in *. split; [|lia]. split.
  - done.
  - rewrite Hfl. apply (wf_flag _ Hm).
  - lia.
  - rewrite Hsn, length_take. lia.
  - rewrite Hsn, Hst, !length_take, (wf_storages _ Hm). done.
  - intros i s. rewrite Hsn. intros [Hi _]%lookup_take_Some. by apply (wf_heights _ Hm).
  - intros i s st. rewrite Hsn, Hst. intros [Hi _]%lookup_take_Some [Hi' _]%lookup_take_Some. by apply (wf_roots _ Hm i).
Qed.

Lemma disconnect_inv n block c r c' : 1 ≤ current_height (manager c) → chain_inv n c →
  disconnect_block block c = (r, c') → chain_inv n c' ∧ current_height (manager c) - 1 ≤ current_height (manager c').
Proof.
  intros Hh Hi. unfold disconnect_block. erewrite method_bind_run by done.
  destruct (block_undo_data (manager c) !! block_id (header block)) as [undo|]; cbn.
  - intros [= _ <-]. destruct (undo_inv n (block_id (header block)) undo c Hh Hi) as [? E]. split; [done|]. lia.
  - intros [= _ <-]. split; [done|lia].
Qed.

Lemma connect_inv n block c r c' : chain_inv n c → n + 1 < 2 ^ 64 → connect_block block c = (r, c') →
  (∀ p, r ≠ Panic p) → chain_inv (n + 1) c'.
Proof.
  intros Hc Hn E Hr. assert (Hmono : ∀ d, chain_inv n d → chain_inv (n + 1) d) by (intros d [Hm Hle]; split; [done|lia]).
  unfold connect_block in E. erewrite method_bind_run in E by done.
  match type of E with (?f ≫= _) c = _ => assert (Hf : preserves (chain_inv n) f) end.
  { apply preserves_rethrow, zoom_inv, stateful_keeps. }
  specialize (Hf c Hc). destruct (rethrow _ _ c) as [[[]|e|x] c1] eqn:E1; cbn [snd] in Hf.
  - rewrite (method_bind_run _ _ _ _ _ E1) in E. by eapply apply_inv.
  - rewrite (method_bind_stop _ _ _ _ _ E1) in E. injection E as <- <-. by apply Hmono.
  - rewrite (method_bind_unwind _ _ _ _ _ E1) in E. injection E as <- <-. by destruct (Hr x).
Qed.

Lemma for_each_ok {A} (f : A → method Chain StateManagerError unit) x l c c' :
  for_each f (x :: l) c = (Ok tt, c') → ∃ d, f x c = (Ok tt, d) ∧ for_each f l d = (Ok tt, c').
Proof. cbn [for_each]. intros ([] & d & E1 & E2)%method_bind_ok. by exists d. Qed.

Lemma disconnect_all_inv n dag l c c' : Z.of_nat (length l) ≤ current_height (manager c) → chain_inv n c →
  for_each (with_block dag disconnect_block) l c = (Ok tt, c') → chain_inv n c'.
Proof.
  revert c; induction l as [|h l IH]; intros c Hl Hi; [by intros [= <-]|].
  intros (d & Ed & E)%for_each_ok. cbn [length] in Hl. unfold with_block at 1 in Ed.
  destruct (get_block dag h) as [block|]; [|injection Ed as <-; apply (IH c); [lia|done|done]].
  destruct (disconnect_inv n block c _ d ltac:(lia) Hi Ed) as [Hd Hh]. apply (IH d); [lia|done|done].
Qed.

Lemma connect_all_inv n dag l c c' : n + Z.of_nat (length l) < 2 ^ 64 → chain_inv n c →
  for_each (with_block dag connect_block) l c = (Ok tt, c') → chain_inv (n + Z.of_nat (length l)) c'.
Proof.
  assert (Hmono : ∀ k k' d, chain_inv k d → k ≤ k' → chain_inv k' d) by (intros k k' d [Hm Hle] Hk; split; [done|lia]).
  revert n c; induction l as [|h l IH]; intros n c Hl Hi.
  { intros [= <-]. cbn. eapply Hmono; [exact Hi|lia]. }
  intros (d & Ed & E)%for_each_ok. cbn [length] in *. unfold with_block at 1 in Ed.
  destruct (get_block dag h) as [block|].
  - eapply Hmono; [apply (IH (n + 1) d)|]; [lia|eapply connect_inv; [done|lia|exact Ed|done]|done|lia].
  - injection Ed as <-. eapply Hmono; [apply (IH n c)|]; [lia|done|done|lia].
Qed.

Lemma split_plan_length dag m plan :
  (length (split_plan dag m plan).1 + length (split_plan dag m plan).2 ≤ length plan)%nat.
Proof.
  unfold split_plan. enough (Hgen : ∀ d k b, let st := foldl (plan_block dag m) (d, k, b) plan in
    (length st.1.1 + length st.1.2 ≤ length d + length k + length plan)%nat) by apply (Hgen [] [] false).
  induction plan as [|h plan IH]; intros d k b; cbn [foldl]; [cbn; lia|]. unfold plan_block at 2 4.
  destruct (get_block dag h); [destruct b; [|case_bool_decide]|]; cbn [length];
    match goal with |- context [foldl _ (?d', ?k', ?b') plan] => specialize (IH d' k' b') end; cbn zeta in IH;
    rewrite ?length_app in IH; cbn in *; lia.
Qed.

Lemma reorganize_inv n order dag ghostdag new_tip c c' :
  chain_inv n c → n + Z.of_nat (length (planned order dag ghostdag new_tip)) < 2 ^ 64 →
  Z.of_nat (length (split_plan dag (manager c) (planned order dag ghostdag new_tip)).1) ≤ current_height (manager c) →
  reorganize_chain order dag ghostdag new_tip c = (Ok tt, c') →
  chain_inv (n + Z.of_nat (length (planned order dag ghostdag new_tip))) c'.
Proof.
  intros Hi Hn Hd E. unfold reorganize_chain in E. apply method_bind_ok in E as ([] & c1 & [= _ <-] & E); [|done].
  apply method_bind_ok in E as (plan & c2 & E2 & E). unfold planned in *.
  assert (Hplan : reorganize_to_tip order ghostdag dag new_tip = Ok plan ∧ c2 = c).
  { unfold lift in E2. injection E2 as E2 <-. destruct (reorganize_to_tip _ _ _ _); [|done|done]. by injection E2 as ->. }
  destruct Hplan as [Ep ->]. rewrite Ep in *. destruct plan as [plan|]; [|done].
  apply method_bind_ok in E as (root & c3 & E3 & E).
  assert (Hc3 : ∃ t, c3 = set_manager (set_tree t (manager c)) c ∧ tree_wf t).
  { unfold rethrow, zoom, on_tree in E3. unfold zoom in E3.
    destruct (root_or_zero_wf (tree (manager c)) (wf_tree _ (proj1 Hi))) as (t & Et & _ & Ht). rewrite Et in E3.
    injection E3 as _ <-. by exists t. }
  destruct Hc3 as (t & -> & Ht). set (c3 := set_manager _ c) in *.
  assert (Hi3 : chain_inv n c3) by (destruct Hi as [Hm Hle]; split; [by apply set_tree_wf|done]).
  rewrite (method_bind_run get _ c3 c3 c3) in E by done. unfold catch in E.
  destruct (perform_reorganization dag plan c3) as [[[]|e|x] c4] eqn:Epr; [|done|done]. injection E as <-.
  unfold perform_reorganization in Epr. rewrite (method_bind_run get _ c3 c3 c3) in Epr by done.
  change (manager c3) with (set_tree t (manager c)) in Epr.
  replace (split_plan dag (set_tree t (manager c)) plan) with (split_plan dag (manager c) plan) in Epr by done.
  pose proof (split_plan_length dag (manager c) plan) as Hlen. destruct (split_plan dag (manager c) plan) as [ds ks]. cbn [fst snd] in *.
  apply method_bind_ok in Epr as ([] & c5 & E5 & E6).
  assert (Hi5 : chain_inv n c5) by (eapply (disconnect_all_inv n dag (reverse ds) c3); [rewrite length_reverse; exact Hd|done|done]).
  assert (Hi6 : chain_inv (n + Z.of_nat (length ks)) c4) by (eapply connect_all_inv; [lia|done|done]).
  destruct Hi6 as [Hm Hle]. split; [done|lia].
Qed.

Lemma run_sm_inv n op c r c' :
  chain_inv n c → n + sm_op_span op < 2 ^ 64 → run_sm op c = (r, c') → sm_op_fits op c r → (∀ p, r ≠ Panic p) →
  chain_inv (n + sm_op_span op) c'.
Proof.
  intros Hc Hn E Hfit Hr.
  assert (Hmono : chain_inv n c' → chain_inv (n + 1) c').
  { intros [Hm Hle]. split; [done|lia]. }
  assert (Hkeep : preserves (chain_inv n) (run_sm op) → chain_inv (n + 1) c').
  { intros Hk. apply Hmono. specialize (Hk c Hc). by rewrite E in Hk. }
  destruct op as [block|block|h|h|root h|k ep ts|ep| | | |block|order dag g tip]; cbn [run_sm sm_op_span sm_op_fits] in *.
  - by eapply apply_inv.
  - by eapply connect_inv.
  - by apply Hkeep, zoom_inv, rollback_state_inv.
  - by apply Hkeep, zoom_inv, rollback_inv.
  - by apply Hkeep, zoom_inv, restore_inv.
  - apply Hkeep, preserves_modify. intros d [[] Hd]. by split.
  - apply Hkeep. apply preserves_bind; [|auto with keeps]. unfold execute_pruning_cycle. keeps.
    apply preserves_mapM. apply prune_outpoint_inv.
  - apply Hkeep. apply preserves_bind; [|auto with keeps]. apply zoom_inv.
    unfold rebuild_state_root_and_prune_proofs. keeps. intros m [[] Hd]. by split.
  - apply Hkeep. apply preserves_bind; [|auto with keeps]. apply zoom_inv.
    unfold get_root_hash. auto with keeps.
  - apply Hkeep. apply preserves_bind; [auto with keeps|]. intros d. apply zoom_inv.
    unfold cross_check_supply_consistency. keeps.
  - apply Hmono. by eapply disconnect_inv.
  - destruct Hfit as [-> Hd]. by eapply reorganize_inv.
Qed.

Lemma reachable_inv n c : sm_reachable n c → n < 2 ^ 64 → chain_inv n c ∧ 0 ≤ n.
Proof.
  induction 1 as [st ops t0 m u Ht Hm|n c op r c' _ IH E Hf Hr]; intros Hn.
  - assert (Hw : tree_wf (foldl run_op t0 ops)).
    { split; [by eapply run_ok, new_ok|]. eapply run_frame; [by eapply new_ok|by eapply new_frame]. }
    split; [|lia]. split; cbn; [by eapply new_wf|]. unfold StateManager_new in Hm.
    destruct (get_root (foldl run_op t0 ops)) as [[root|e|x] t']; [|done..]. by injection Hm as <-.
  - assert (Hspan : 0 ≤ sm_op_span op) by (destruct op; cbn; lia).
    destruct (IH ltac:(lia)) as [Hi Hge]. split; [by eapply run_sm_inv|lia].
Qed.

End histories.

(** ** Examples *)
Section examples.
#[local] Existing Instance toy_blake3.
#[local] Existing Instance toy_k256.
#[local] Existing Instance toy_commitments.
#[local] Existing Instance toy_wasm.

Definition with_txs (b : BlockNode) (txs : list Transaction) : BlockNode :=
  {| header := header b; children := children b; selected_parent := selected_parent b;
     blue_set := blue_set b; red_set := red_set b; blue_score := blue_score b; transactions := txs |}.

(** A manager over the empty tree; a block that mints a coin, one that spends it,
    one that does both, and one that spends a coin that does not exist. *)
Definition start_manager : StateManager (S := MemoryStorage) :=
  match StateManager_new empty_tree with
  | Ok m => m
  | _ => {| tree := empty_tree; current_height := 0; snapshots := []; snapshot_storages := [];
            sm_prune_markers := ∅; outpoint_to_key := ∅; current_total_supply := 0; block_gas_fees := [];
            pending_updates := []; applying_block := false; block_undo_data := ∅; current_block_hash := None |}
  end.
Definition start_chain : Chain := {| manager := start_manager; coins := UtxoSet_new |}.

Definition mint_tx : Transaction := sample_tx 21 [] [50] 0.
Definition spend_tx : Transaction := sample_tx 22 [sample_input 21 0] [30; 20] 0.
Definition mint_block : BlockNode := with_txs (sample_block 2 [1]) [mint_tx].
Definition spend_block : BlockNode := with_txs (sample_block 4 [2]) [spend_tx].
Definition own_block : BlockNode := with_txs (sample_block 5 [1]) [mint_tx; spend_tx].
Definition phantom_block : BlockNode := with_txs (sample_block 3 [1]) [sample_tx 23 [sample_input 99 0] [1] 0].

Definition minted : Chain := (sm_apply_block mint_block start_chain).2.
Definition spent_chain : Chain := (sm_apply_block spend_block minted).2.
Definition own_chain : Chain := (sm_apply_block own_block start_chain).2.

Lemma run_fst {A B} (p : A * B) a : p.1 = a → p = (a, p.2).
Proof. destruct p. cbn. by intros ->. Qed.

Lemma start_new : StateManager_new empty_tree = Ok start_manager.
Proof.
  unfold start_manager. destruct (StateManager_new empty_tree) as [m|e|p] eqn:E; [done| |].
  all: apply (f_equal is_ok) in E; vm_compute in E; discriminate.
Qed.
Lemma start_reachable : sm_reachable 0 start_chain.
Proof. exact (reach_new _ [] _ _ _ empty_tree_new start_new). Qed.
Lemma start_inv : chain_inv 0 start_chain.
Proof. exact (proj1 (reachable_inv 0 _ start_reachable ltac:(lia))). Qed.
Lemma start_tree : tree_wf (tree (manager start_chain)).
Proof. exact (wf_tree _ (proj1 start_inv)). Qed.
Lemma start_flag : applying_block (manager start_chain) = false.
Proof. exact (wf_flag _ (proj1 start_inv)). Qed.
Lemma start_height : current_height (manager start_chain) = 0.
Proof. vm_compute. reflexivity. Qed.

Lemma minted_run : sm_apply_block mint_block start_chain = (Ok tt, minted).
Proof. unfold minted at 1. apply run_fst. vm_compute. reflexivity. Qed.
Lemma spent_run : sm_apply_block spend_block minted = (Ok tt, spent_chain).
Proof. unfold spent_chain at 1. apply run_fst. vm_compute. reflexivity. Qed.
Lemma own_run : sm_apply_block own_block start_chain = (Ok tt, own_chain).
Proof. unfold own_chain at 1. apply run_fst. vm_compute. reflexivity. Qed.
Lemma phantom_run : (sm_apply_block phantom_block start_chain).1
  = Err (ApplyBlockFailed "Missing UTXO input in transaction {} at outpoint {:?}").
Proof. vm_compute. reflexivity. Qed.

Lemma start_fits block :
  Forall (λ tx, Forall output_fits (outputs tx)) (transactions block) →
  fresh_block UtxoSet_new (transactions block) →
  values (block_outputs (transactions block)) < 2 ^ 128 → block_fits start_chain block.
Proof.
  intros Ho Hf Hb. split; [|done|done|].
  - intros k o Hk. cbn in Hk. by rewrite lookup_empty in Hk.
  - change (coin_total (coins start_chain)) with 0. lia.
Qed.
Lemma mint_fits : block_fits start_chain mint_block.
Proof.
  apply start_fits; [by repeat constructor|apply fresh_block_dec; vm_compute; reflexivity|].
  apply (bool_decide_unpack _). vm_compute. exact I.
Qed.

Lemma apply_block_all_or_nothing_witness :
  ∃ c', (sm_apply_block phantom_block start_chain).2 = c' ∧ restored start_chain c'.
Proof.
  pose proof (apply_block_all_or_nothing phantom_block start_chain start_tree start_flag) as H.
  rewrite (run_fst _ _ phantom_run) in H. eexists. split; [reflexivity|exact H].
Defined.

Lemma supply_tracks_coins_witness :
  current_total_supply (manager minted) = coin_total (coins minted)
  ∧ current_total_supply (manager minted) ≤ MAX_GLOBAL_SUPPLY_NANO_SLUG.
Proof.
  pose proof (supply_tracks_coins mint_block start_chain start_tree start_flag) as H.
  rewrite minted_run in H. destruct H as [H1 H2].
  - vm_compute. reflexivity.
  - exact mint_fits.
  - intros p. discriminate.
  - split; [exact H1|]. apply H2. reflexivity.
Defined.

Lemma disconnect_inverts_apply_witness :
  ∃ c'', disconnect_block mint_block minted = (Ok tt, c'') ∧ coins c'' = coins start_chain
  ∧ current_block_hash (manager c'') = Some (hash_of 2).
Proof.
  destruct (disconnect_inverts_apply mint_block start_chain minted start_tree start_flag minted_run)
    as (c'' & E & Hc & _ & _ & _ & _ & _ & _ & Hh).
  - vm_compute. reflexivity.
  - exact mint_fits.
  - apply (bool_decide_unpack _). vm_compute. exact I.
  - rewrite start_height. unfold fits. lia.
  - vm_compute. reflexivity.
  - intros k Hk. cbn in Hk. by apply not_elem_of_nil in Hk.
  - exists c''. split; [exact E|]. split; [exact Hc|exact Hh].
Defined.

Lemma disconnect_leaves_own_coin_witness :
  utxos (coins start_chain) !! (hash_of 21, 0) = None
  ∧ ∃ c'', disconnect_block own_block own_chain = (Ok tt, c'') ∧ is_Some (utxos (coins c'') !! (hash_of 21, 0)).
Proof.
  apply (disconnect_leaves_own_coin own_block start_chain own_chain (hash_of 21, 0) start_tree start_flag own_run).
  - apply fresh_block_dec. vm_compute. reflexivity.
  - apply (bool_decide_unpack _). vm_compute. exact I.
  - apply (bool_decide_unpack _). vm_compute. exact I.
Defined.

Lemma rollback_returns_witness :
  ∃ m, rollback (current_height (manager minted)) (manager spent_chain) = (Ok tt, m)
  ∧ current_total_supply m = current_total_supply (manager minted)
  ∧ current_block_hash m = Some (hash_of 4).
Proof.
  destruct (rollback_returns mint_block start_chain minted [spend_block] spent_chain 0 start_inv
    ltac:(cbn; lia) minted_run (applies_cons _ _ _ _ _ spent_run (applies_nil _)))
    as (m & E & _ & _ & Hs & _ & _ & _ & _ & _ & Hb & _).
  exists m. split; [exact E|]. split; [exact Hs|]. rewrite Hb. vm_compute. reflexivity.
Defined.



(** The blocks as the DAG holds them. *)
Definition line_dag : Dag := add_all [sample_block 1 []; mint_block; spend_block].
Definition line_mint : BlockNode := default mint_block (get_block line_dag (hash_of 2)).
Definition line_spend : BlockNode := default spend_block (get_block line_dag (hash_of 4)).
Definition line_minted : Chain := (sm_apply_block line_mint start_chain).2.
Definition line_spent : Chain := (sm_apply_block line_spend line_minted).2.

Lemma disconnect_order_leaves_coin_witness :
  ∃ c3, perform_reorganization line_dag [block_id (header line_spend); block_id (header line_mint)] line_spent
        = (Ok tt, c3)
  ∧ is_Some (utxos (coins c3) !! (hash_of 21, 0)).
Proof.
  apply (disconnect_order_leaves_coin line_dag line_mint line_spend start_chain line_minted line_spent
    (hash_of 21, 0) start_tree start_flag).
  - unfold line_minted at 1. apply run_fst. vm_compute. reflexivity.
  - unfold line_spent at 1. apply run_fst. vm_compute. reflexivity.
  - vm_compute. reflexivity.
  - vm_compute. reflexivity.
  - apply (bool_decide_unpack _). vm_compute. exact I.
  - apply fresh_block_dec. vm_compute. reflexivity.
  - apply (bool_decide_unpack _). vm_compute. exact I.
  - apply (bool_decide_unpack _). vm_compute. exact I.
Defined.

(** Two branches over a genesis block; the second spends a coin that does not
    exist, and the manager has applied the first. *)
Definition branch_dag : Dag :=
  foldl (λ d h, process_block (GhostDag_new 18) h d)
    (add_all [sample_block 1 []; mint_block; phantom_block]) [hash_of 1; hash_of 2; hash_of 3].
Definition branch_mint : BlockNode := default mint_block (get_block branch_dag (hash_of 2)).
Definition branch_phantom : BlockNode := default phantom_block (get_block branch_dag (hash_of 3)).
Definition cached : Chain := (zoom manager set_manager (on_tree root_or_zero) minted).2.
Definition cached_root : bytes32 :=
  match (zoom manager set_manager (on_tree root_or_zero) minted).1 with Ok r => r | _ => zero32 end.

Lemma minted_inv : chain_inv 1 minted.
Proof. exact (apply_inv 0 mint_block start_chain (Ok tt) minted start_inv ltac:(lia) minted_run ltac:(done)). Qed.

Lemma failed_reorganization_halts_witness :
  ∃ c', reorganize_chain elements branch_dag (GhostDag_new 18) (hash_of 3) minted
        = (Err (ApplyBlockFailed "Stateful validation failed: {:?}"), c')
  ∧ current_height (manager c') = current_height (manager minted)
  ∧ ∀ block c'', sm_apply_block block c' ≠ (Ok tt, c'').
Proof.
  destruct (failed_reorganization_halts elements branch_dag (GhostDag_new 18) (hash_of 3) minted
    cached_root cached branch_mint branch_phantom (ApplyBlockFailed "Stateful validation failed: {:?}")
    (proj1 minted_inv)) as (c' & E & _ & Hh & _ & _ & _ & _ & Hstop).
  - vm_compute. reflexivity.
  - vm_compute. reflexivity.
  - vm_compute. reflexivity.
  - vm_compute. reflexivity.
  - apply (bool_decide_unpack _). vm_compute. exact I.
  - vm_compute. reflexivity.
  - unfold cached, cached_root. apply run_fst. vm_compute. reflexivity.
  - intros d Ed. assert (Hd : d = (disconnect_block branch_mint cached).2) by (by rewrite Ed).
    subst d. vm_compute. reflexivity.
  - exists c'. split; [exact E|]. split; [exact Hh|exact Hstop].
Defined.

Lemma disconnect_after_rollback_witness :
  ∃ m c2, rollback (current_height (manager start_chain)) (manager minted) = (Ok tt, m)
  ∧ disconnect_block mint_block {| manager := m; coins := coins minted |} = (Ok tt, c2)
  ∧ ∀ block' c3, sm_apply_block block' c2 ≠ (Ok tt, c3).
Proof.
  destruct (disconnect_after_rollback mint_block start_chain minted (proj1 start_inv)
    ltac:(rewrite start_height; lia) minted_run) as (m & c2 & E1 & E2 & _ & _ & Hstop).
  exists m, c2. split; [exact E1|]. split; [exact E2|]. exact (Hstop start_height).
Defined.

Lemma application_checks_only_presence_witness :
  ∃ a', apply_transaction (sample_tx 24 [sample_input 21 0] [1000] 0)
          {| ap_chain := minted; ap_undo := BlockUndo_new |} = (Ok tt, a').
Proof.
  apply (application_checks_only_presence (sample_tx 24 [sample_input 21 0] [1000] 0)
    {| ap_chain := minted; ap_undo := BlockUndo_new |}); [by split|]. split.
  - apply (bool_decide_unpack _). vm_compute. exact I.
  - intros k Hk. apply list_elem_of_singleton in Hk as ->. apply (bool_decide_unpack _). vm_compute. exact I.
Defined.

(** A fee of [2^64] is taken for none. *)
Definition heavy_tx : Transaction :=
  {| id := hash_of 25; inputs := [sample_input 1 0]; outputs := [{| value := 10; pubkey_hash := hash_of 9 |}];
     execution_payload := []; contract_address := None; gas_limit := 2 ^ 32; max_fee_per_gas := 2 ^ 32;
     chain_id := 1; locktime := 0 |}.
Lemma check_inflation_spec_witness : check_inflation sample_utxo heavy_tx = Ok tt.
Proof.
  apply (check_inflation_spec sample_utxo heavy_tx [{| value := 10; pubkey_hash := hash_of 2 |}] sample_utxo_fits).
  - by repeat constructor.
  - reflexivity.
  - constructor; [|constructor]. vm_compute. reflexivity.
  - apply (bool_decide_unpack _). vm_compute. exact I.
  - apply (bool_decide_unpack _). vm_compute. exact I.
  - apply (bool_decide_unpack _). vm_compute. exact I.
Defined.
End examples.
