(* ===== verification/Mempool.v ===== *)
(** * The mempool

    [core/mempool.rs]: pending transactions in a map, indexed by priority (the
    fee density down, the time of arrival up, the id up), with stateless and
    stateful validation, eviction, expiry and removal.

    The lock is left out: a method runs to its end.  [bincode::serialized_size]
    and the clock are arguments; the iteration order of the map does not matter
    but for the caches of the tree. *)

From S2P Require Import Prelude Crypto Errors Transaction Economics Utxo Dag State Ghostdag VerkleTree VerkleProofs GasMeter Vm BlockValidation StateManager ChainProofs.
From Stdlib Require Import Init.Byte.

Definition DEFAULT_MAX_MEMPOOL_BYTES : Z := 100 * 1024 * 1024.
Definition DEFAULT_MAX_MEMPOOL_TXS : Z := 50000.
Definition DEFAULT_MIN_FEE_PER_BYTE : Z := 1.
Definition DEFAULT_TX_TTL_SECONDS : Z := 60 * 60 * 24.
Definition MAX_TX_SIZE_BYTES : Z := 1024 * 1024.

Inductive MempoolError :=
| DuplicateTransaction
| OversizedTransaction (size max : Z)
| FeeTooLow (received required : Z)
| InvalidTxSignature (reason : string)
| PoolFull
| TransactionNotFound
| ExpiredTransaction.
#[global] Instance MempoolError_eq_dec : EqDecision MempoolError.
Proof. solve_decision. Defined.

Record PendingTransaction := {
  pending_tx : Transaction;
  pending_inserted_at : Z;
  pending_size_bytes : Z;
  pending_fee_per_byte : Z
}.

Record PriorityKey := { key_fee_per_byte : Z; key_inserted_at : Z; key_tx_id : Hash }.
#[global] Instance PriorityKey_eq_dec : EqDecision PriorityKey.
Proof. solve_decision. Defined.

(** [a <= b] of the [Ord] instance. *)
Definition priority_leb (a b : PriorityKey) : bool :=
  if key_fee_per_byte b <? key_fee_per_byte a then true
  else if key_fee_per_byte a <? key_fee_per_byte b then false
  else if key_inserted_at a <? key_inserted_at b then true
  else if key_inserted_at b <? key_inserted_at a then false
  else hash_leb (key_tx_id a) (key_tx_id b).

(** [priority_index] is a [BTreeSet]: its elements in order. *)
Record MempoolInner := {
  pool_transactions : gmap Hash PendingTransaction;
  priority_index : list PriorityKey;
  pool_total_bytes : Z
}.

Definition index_insert (k : PriorityKey) (l : list PriorityKey) : list PriorityKey :=
  if bool_decide (k ∈ l) then l else insert_sorted priority_leb k l.
Definition index_remove (k : PriorityKey) (l : list PriorityKey) : list PriorityKey :=
  filter (λ j, j ≠ k) l.

Definition MempoolInner_new : MempoolInner :=
  {| pool_transactions := ∅; priority_index := []; pool_total_bytes := 0 |}.

Record Mempool := {
  inner : MempoolInner;
  max_bytes : Z;
  max_transactions : Z;
  min_fee_per_byte : Z;
  ttl_seconds : Z
}.

Definition with_limits (mb mt mf ttl : Z) : Mempool :=
  {| inner := MempoolInner_new; max_bytes := mb; max_transactions := mt; min_fee_per_byte := mf;
     ttl_seconds := ttl |}.
Definition Mempool_new : Mempool :=
  with_limits DEFAULT_MAX_MEMPOOL_BYTES DEFAULT_MAX_MEMPOOL_TXS DEFAULT_MIN_FEE_PER_BYTE
    DEFAULT_TX_TTL_SECONDS.
Definition set_inner (i : MempoolInner) (self : Mempool) : Mempool :=
  {| inner := i; max_bytes := max_bytes self; max_transactions := max_transactions self;
     min_fee_per_byte := min_fee_per_byte self; ttl_seconds := ttl_seconds self |}.

(** ** The pool *)
Definition key_of_pending (tx_id : Hash) (p : PendingTransaction) : PriorityKey :=
  {| key_fee_per_byte := pending_fee_per_byte p; key_inserted_at := pending_inserted_at p;
     key_tx_id := tx_id |}.

(** The removal of one id, shared by the methods that remove; [None] if it is not
    there. *)
Definition remove_pending (tx_id : Hash) (i : MempoolInner) : option MempoolInner :=
  p ← pool_transactions i !! tx_id;
  Some {| pool_transactions := delete tx_id (pool_transactions i);
          priority_index := index_remove (key_of_pending tx_id p) (priority_index i);
          pool_total_bytes := sat_sub (pool_total_bytes i) (pending_size_bytes p) |}.

Definition remove_step (st : Z * MempoolInner) (tx_id : Hash) : Z * MempoolInner :=
  match remove_pending tx_id st.2 with
  | Some i => (wadd 64 st.1 1, i)
  | None => st
  end.

Definition remove_transactions (tx_ids : list Hash) (self : Mempool) : Z * Mempool :=
  let '(removed, i) := foldl remove_step (0, inner self) tx_ids in (removed, set_inner i self).
Definition remove_on_block_inclusion (block : BlockNode) (self : Mempool) : Z * Mempool :=
  remove_transactions (id <$> transactions block) self.

Definition is_expired (self : Mempool) (now : Z) (p : PendingTransaction) : bool :=
  wadd 64 (pending_inserted_at p) (ttl_seconds self) <=? now.
Definition expire_old_transactions (now : Z) (self : Mempool) : Z * Mempool :=
  let expired_ids := (map_to_list (filter (λ '(_, p), is_expired self now p = true)
                                     (pool_transactions (inner self)))).*1 in
  (Z.of_nat (length expired_ids), (remove_transactions expired_ids self).2).

Definition get_top_transactions (limit : nat) (self : Mempool) : list Transaction :=
  omap (λ key, pending_tx <$> pool_transactions (inner self) !! key_tx_id key)
    (take limit (priority_index (inner self))).

Definition pool_contains (tx_id : Hash) (self : Mempool) : bool :=
  bool_decide (is_Some (pool_transactions (inner self) !! tx_id)).
Definition pool_len (self : Mempool) : Z := Z.of_nat (size (pool_transactions (inner self))).
Definition pool_is_empty (self : Mempool) : bool := pool_len self =? 0.

Definition should_accept_new_transaction (self : Mempool) (fee_per_byte : Z) : bool :=
  if (pool_len self <? max_transactions self) && (pool_total_bytes (inner self) <? max_bytes self) then true
  else match last (priority_index (inner self)) with
       | Some lowest => key_fee_per_byte lowest <? fee_per_byte
       | None => true
       end.

Definition evict_lowest_priority (self : Mempool) : Mempool :=
  let i := inner self in
  match last (priority_index i) with
  | None => self
  | Some lowest =>
      let index := index_remove lowest (priority_index i) in
      match pool_transactions i !! key_tx_id lowest with
      | Some p => set_inner {| pool_transactions := delete (key_tx_id lowest) (pool_transactions i);
                               priority_index := index;
                               pool_total_bytes := sat_sub (pool_total_bytes i) (pending_size_bytes p) |} self
      | None => set_inner {| pool_transactions := pool_transactions i; priority_index := index;
                             pool_total_bytes := pool_total_bytes i |} self
      end
  end.

Definition add_pending (tx : Transaction) (now size_bytes fee_per_byte : Z) (self : Mempool) : Mempool :=
  let i := inner self in
  let pending := {| pending_tx := tx; pending_inserted_at := now; pending_size_bytes := size_bytes;
                    pending_fee_per_byte := fee_per_byte |} in
  set_inner {| pool_transactions := <[id tx := pending]> (pool_transactions i);
               priority_index := index_insert (key_of_pending (id tx) pending) (priority_index i);
               pool_total_bytes := wadd 64 (pool_total_bytes i) size_bytes |} self.

(** [insert_transaction] once the transaction is valid. *)
Definition admit_pending (tx : Transaction) (now size_bytes fee_per_byte : Z) : method Mempool MempoolError unit :=
  self ← get;
  if pool_contains (id tx) self then throw DuplicateTransaction
  else
    _ ← (if (max_bytes self <? wadd 64 (pool_total_bytes (inner self)) size_bytes)
            || (max_transactions self <? wadd 64 (pool_len self) 1)
         then if should_accept_new_transaction self fee_per_byte
              then modify evict_lowest_priority
              else throw PoolFull
         else mret tt);
    modify (add_pending tx now size_bytes fee_per_byte).

Definition calculate_fee_per_byte (tx : Transaction) (size_bytes : Z) : Z :=
  if size_bytes =? 0 then 0
  else
    let base_fee := sat_mul 128 (max_fee_per_gas tx) (gas_limit tx + 1) in
    Z.max (base_fee / size_bytes) (max_fee_per_gas tx).

(** ** Validation *)
Section validation.
Context `{Blake3} `{K256} `{Commitments} `{Wasm} {S : Type} `{Storage S}.
(** [bincode::serialized_size] *)
Context (serialized_size : Transaction → option Z).

Definition calculate_tx_size_bytes (tx : Transaction) : Z := default 0 (serialized_size tx).

Definition check_input_stateless (tx : Transaction) (input_index : nat) (input : TxInput) :
    outcome MempoolError unit :=
  _ ← ensure (bool_decide (length (signature input) = 64%nat)) (InvalidTxSignature "signature must be 64 bytes");
  _ ← ensure (bool_decide (length (pubkey input) = 32%nat) || bool_decide (length (pubkey input) = 33%nat))
        (InvalidTxSignature "public key must be 32 or 33 bytes");
  sighash ← map_err (λ err, InvalidTxSignature (fmt err)) (compute_sighash tx input_index (sighash_type input));
  pk ← ok_or (vk_from_bytes (take 32 (pubkey input))) (InvalidTxSignature "signature error");
  sig ← ok_or (sig_try_from (take 64 (signature input))) (InvalidTxSignature "signature error");
  ensure (verify pk (as_bytes sighash) sig) (InvalidTxSignature "input {} signature verification failed").

Definition validate_transaction_stateless (self : Mempool) (tx : Transaction) : outcome MempoolError unit :=
  let size_bytes := calculate_tx_size_bytes tx in
  _ ← ensure (size_bytes <=? MAX_TX_SIZE_BYTES) (OversizedTransaction size_bytes MAX_TX_SIZE_BYTES);
  let fee_per_byte := calculate_fee_per_byte tx size_bytes in
  _ ← ensure (min_fee_per_byte self <=? fee_per_byte) (FeeTooLow fee_per_byte (min_fee_per_byte self));
  fold_outcome (λ _ p, check_input_stateless tx p.1 p.2) tt (enumerate (inputs tx)).

(** One input of the stateful validation: its value. *)
Definition check_input_stateful (u : UtxoSet) (input : TxInput) : method StateManager MempoolError Z :=
  utxo_entry ← lift (ok_or (utxos u !! outpoint_of input)
                      (InvalidTxSignature "Input UTXO not found or already spent"));
  m ← get;
  key ← lift (ok_or (outpoint_to_key m !! outpoint_of input) (InvalidTxSignature "UTXO key mapping not found"));
  proof ← rethrow (λ _, InvalidTxSignature "Failed to generate Verkle proof: {}") (on_tree (generate_proof key));
  m ← get;
  ok ← lift (map_err (λ _, InvalidTxSignature "Verkle proof verification failed: {}") (verify_proof (tree m) proof));
  _ ← lift (ensure ok (InvalidTxSignature "UTXO Verkle proof verification failed"));
  mret (value utxo_entry).

Fixpoint sum_inputs_stateful (u : UtxoSet) (ins : list TxInput) (total : Z) : method StateManager MempoolError Z :=
  match ins with
  | [] => mret total
  | input :: ins =>
      v ← check_input_stateful u input;
      total ← lift (ok_or (checked_add 128 total v) (InvalidTxSignature "Input value overflow"));
      sum_inputs_stateful u ins total
  end.

Definition validate_transaction_stateful (self : Mempool) (tx : Transaction) (u : UtxoSet) :
    method StateManager MempoolError unit :=
  _ ← lift (validate_transaction_stateless self tx);
  total_input_value ← sum_inputs_stateful u (inputs tx) 0;
  total_output_value ← lift (fold_outcome (λ total output,
      ok_or (checked_add 128 total (value output)) (InvalidTxSignature "Output value overflow")) 0 (outputs tx));
  fee ← lift (ok_or (checked_sub total_input_value total_output_value)
               (InvalidTxSignature "Insufficient input value for outputs"));
  let gas_fee := sat_mul 128 (max_fee_per_gas tx) (gas_limit tx) in
  _ ← lift (ensure (gas_fee <=? fee) (FeeTooLow fee gas_fee));
  m ← get;
  lift (ensure (total_output_value <=? current_total_supply m)
          (InvalidTxSignature "Transaction would exceed total supply")).

(** ** The operations that validate *)
Record PoolState := { mempool : Mempool; pool_manager : StateManager (S := S) }.
Definition set_mempool (p : Mempool) (s : PoolState) : PoolState := {| mempool := p; pool_manager := pool_manager s |}.
Definition set_pool_manager (m : StateManager) (s : PoolState) : PoolState := {| mempool := mempool s; pool_manager := m |}.

Definition insert_transaction (now : Z) (tx : Transaction) (u : UtxoSet) : method PoolState MempoolError unit :=
  s ← get;
  let size_bytes := calculate_tx_size_bytes tx in
  let fee_per_byte := calculate_fee_per_byte tx size_bytes in
  _ ← zoom pool_manager set_pool_manager (validate_transaction_stateful (mempool s) tx u);
  zoom mempool set_mempool (admit_pending tx now size_bytes fee_per_byte).

(** The ids whose validation fails. *)
Definition stale (self : Mempool) (u : UtxoSet) (p : Hash * PendingTransaction) :
    method StateManager MempoolError (list Hash) :=
  catch (validate_transaction_stateful self (pending_tx p.2) u) (λ _, mret []) (λ _, mret [p.1]).

Definition revalidate_pending_transactions (u : UtxoSet) : method PoolState MempoolError Z :=
  s ← get;
  to_remove ← zoom pool_manager set_pool_manager
                (mapM (stale (mempool s) u) (map_to_list (pool_transactions (inner (mempool s)))));
  let '(removed_count, self) := remove_transactions (mjoin to_remove) (mempool s) in
  _ ← modify (set_mempool self);
  mret removed_count.
End validation.

(** ** The order of the index *)
Lemma priority_leb_total a b : priority_leb a b = true ∨ priority_leb b a = true.
Proof.
  unfold priority_leb. destruct (hash_leb_total (key_tx_id a) (key_tx_id b)) as [Hh|Hh]; rewrite Hh.
  all: repeat case_match; repeat match goal with H : (_ <? _) = true |- _ => apply Z.ltb_lt in H end; auto; lia.
Qed.

Lemma priority_leb_spec a b :
  priority_leb a b = true ↔
  key_fee_per_byte b < key_fee_per_byte a
  ∨ key_fee_per_byte a = key_fee_per_byte b ∧ key_inserted_at a < key_inserted_at b
  ∨ key_fee_per_byte a = key_fee_per_byte b ∧ key_inserted_at a = key_inserted_at b
    ∧ hash_leb (key_tx_id a) (key_tx_id b) = true.
Proof.
  unfold priority_leb.
  destruct (Z.ltb_spec (key_fee_per_byte b) (key_fee_per_byte a)); [intuition lia|].
  destruct (Z.ltb_spec (key_fee_per_byte a) (key_fee_per_byte b)); [intuition (lia || congruence)|].
  destruct (Z.ltb_spec (key_inserted_at a) (key_inserted_at b)); [intuition lia|].
  destruct (Z.ltb_spec (key_inserted_at b) (key_inserted_at a)); intuition (lia || congruence).
Qed.

Lemma priority_leb_trans a b c :
  priority_leb a b = true → priority_leb b c = true → priority_leb a c = true.
Proof.
  rewrite !priority_leb_spec. intros Ha Hb.
  destruct Ha as [?|[[??]|(?&?&Ha)]], Hb as [?|[[??]|(?&?&Hb)]]; try (left; lia); try (right; left; lia).
  right; right. split; [lia|]. split; [lia|]. by eapply hash_leb_trans.
Qed.

Lemma priority_leb_antisym a b : priority_leb a b = true → priority_leb b a = true → a = b.
Proof.
  rewrite !priority_leb_spec. intros Ha Hb. destruct a as [f i h], b as [f' i' h']. cbn in *.
  destruct Ha as [?|[[??]|(?&?&Ha)]], Hb as [?|[[??]|(?&?&Hb)]]; try lia.
  f_equal; [lia|lia|]. by apply hash_leb_antisym.
Qed.

Definition sorted_index (l : list PriorityKey) : Prop := StronglySorted (λ a b, priority_leb a b = true) l ∧ NoDup l.

Lemma elem_of_index_insert k l j : j ∈ index_insert k l ↔ j = k ∨ j ∈ l.
Proof.
  unfold index_insert. case_bool_decide as Hk; [naive_solver|]. by rewrite insert_sorted_perm, elem_of_cons.
Qed.
Lemma elem_of_index_remove k l j : j ∈ index_remove k l ↔ j ≠ k ∧ j ∈ l.
Proof. unfold index_remove. by rewrite list_elem_of_filter. Qed.

Lemma index_insert_sorted k l : sorted_index l → sorted_index (index_insert k l).
Proof.
  intros [Hs Hn]. unfold index_insert. case_bool_decide as Hk; [by split|]. split.
  - apply insert_sorted_sorted; [apply priority_leb_total|apply priority_leb_trans|done].
  - rewrite insert_sorted_perm. by constructor.
Qed.

Lemma StronglySorted_filter {A} (R : A → A → Prop) (P : A → Prop) `{∀ x, Decision (P x)} l :
  StronglySorted R l → StronglySorted R (filter P l).
Proof.
  induction 1 as [|x l Hl IH Hx]; [constructor|]. rewrite filter_cons. case_decide; [|done].
  constructor; [done|]. rewrite Forall_forall in *. intros y [_ Hy]%list_elem_of_filter. by apply Hx.
Qed.

Lemma filter_ext_in {A} (P Q : A → Prop) `{∀ x, Decision (P x)} `{∀ x, Decision (Q x)} (l : list A) :
  (∀ x, x ∈ l → P x ↔ Q x) → filter P l = filter Q l.
Proof.
  induction l as [|x l IH]; intros Hl; [done|]. rewrite !filter_cons.
  rewrite IH by (intros; apply Hl; by right). pose proof (Hl x ltac:(left)).
  repeat case_decide; tauto || done.
Qed.

Lemma index_remove_sorted k l : sorted_index l → sorted_index (index_remove k l).
Proof. intros [Hs Hn]. split; [by apply StronglySorted_filter|by apply NoDup_filter]. Qed.

(** ** The invariant of the pool *)
Section pool.
Context (serialized_size : Transaction → option Z).
Implicit Types (i : MempoolInner) (self : Mempool) (p : PendingTransaction).

(** What an entry under an id must be. *)
Record pending_ok (tx_id : Hash) p : Prop := {
  po_id : id (pending_tx p) = tx_id;
  po_size : pending_size_bytes p = calculate_tx_size_bytes serialized_size (pending_tx p);
  po_fee : pending_fee_per_byte p = calculate_fee_per_byte (pending_tx p) (pending_size_bytes p);
  po_bound : 0 ≤ pending_size_bytes p ≤ MAX_TX_SIZE_BYTES
}.

Record inner_ok i : Prop := {
  io_sorted : sorted_index (priority_index i);
  io_index : ∀ k, k ∈ priority_index i ↔
    ∃ p, pool_transactions i !! key_tx_id k = Some p ∧ k = key_of_pending (key_tx_id k) p;
  io_bytes : pool_total_bytes i = msum pending_size_bytes (pool_transactions i);
  io_entries : map_Forall pending_ok (pool_transactions i)
}.

Lemma inner_new_ok : inner_ok MempoolInner_new.
Proof.
  split; cbn.
  - split; constructor.
  - intros k. rewrite elem_of_nil. split; [done|]. intros (p & Hp & _). by rewrite lookup_empty in Hp.
  - by rewrite msum_empty.
  - intros k p Hk. by rewrite lookup_empty in Hk.
Qed.

Lemma bytes_nonneg i : inner_ok i → 0 ≤ pool_total_bytes i.
Proof.
  intros Hi. rewrite (io_bytes i Hi). apply msum_nonneg. intros k p Hk.
  by destruct (po_bound k p (io_entries i Hi k p Hk)).
Qed.

Lemma bytes_bound i : inner_ok i → pool_total_bytes i ≤ Z.of_nat (size (pool_transactions i)) * MAX_TX_SIZE_BYTES.
Proof.
  intros Hi. rewrite (io_bytes i Hi). pose proof (io_entries i Hi) as He. revert He. clear Hi.
  induction (pool_transactions i) as [|k p m Hk IH] using map_ind; intros He.
  - rewrite msum_empty, map_size_empty. lia.
  - apply map_Forall_insert in He as [[_ _ _ Hb] He]; [|done].
    rewrite msum_insert, map_size_insert_None by done. specialize (IH He). lia.
Qed.

(** *** Removal *)
Lemma remove_pending_ok tx_id i i' :
  inner_ok i → remove_pending tx_id i = Some i' →
  inner_ok i' ∧ pool_transactions i' = delete tx_id (pool_transactions i)
  ∧ is_Some (pool_transactions i !! tx_id)
  ∧ priority_index i' = filter (λ k, key_tx_id k ≠ tx_id) (priority_index i).
Proof.
  intros Hi. unfold remove_pending. destruct (pool_transactions i !! tx_id) as [p|] eqn:Ep; [|done].
  intros [= <-]. cbn.
  assert (E : index_remove (key_of_pending tx_id p) (priority_index i)
              = filter (λ k, key_tx_id k ≠ tx_id) (priority_index i)).
  { unfold index_remove. apply filter_ext_in. intros k Hk.
    apply (io_index i Hi) in Hk as (q & Hq & Ek). split; intros Hne; [|by intros ->].
    intros Hid. apply Hne. rewrite Ek, Hid. rewrite Hid in Hq. congruence. }
  split; [|by rewrite E]. split; cbn.
  - apply index_remove_sorted, (io_sorted i Hi).
  - intros k. rewrite E, list_elem_of_filter, (io_index i Hi). rewrite lookup_delete. split.
    + intros [Hne (q & Hq & Ek)]. exists q. by rewrite decide_False by done.
    + intros (q & Hq & Ek). case_decide as Hd; [done|]. split; [done|]. by exists q.
  - rewrite (msum_delete _ _ tx_id p) by done. rewrite (io_bytes i Hi).
    pose proof (bytes_nonneg i Hi) as H0. rewrite (io_bytes i Hi) in H0.
    assert (pending_size_bytes p ≤ msum pending_size_bytes (pool_transactions i)).
    { assert (0 ≤ msum pending_size_bytes (delete tx_id (pool_transactions i))).
      { apply msum_nonneg. intros k q [_ Hq]%lookup_delete_Some. by destruct (po_bound k q (io_entries i Hi k q Hq)). }
      rewrite (msum_delete _ _ tx_id p) in H by done. lia. }
    unfold sat_sub. lia.
  - by apply map_Forall_delete, (io_entries i Hi).
Qed.

Lemma remove_pending_None tx_id i : remove_pending tx_id i = None ↔ pool_transactions i !! tx_id = None.
Proof. unfold remove_pending. by destruct (pool_transactions i !! tx_id). Qed.

(** All the ids of a list. *)
Lemma remove_fold_ok (l : list Hash) n i :
  inner_ok i →
  let st := foldl remove_step (n, i) l in
  inner_ok st.2
  ∧ pool_transactions st.2 = filter (λ '(k, _), k ∉ l) (pool_transactions i)
  ∧ priority_index st.2 = filter (λ k, key_tx_id k ∉ l) (priority_index i).
Proof.
  revert n i; induction l as [|x l IH]; intros n i Hi; cbn [foldl].
  { split; [done|]. cbn. split.
    - symmetry. apply map_filter_id. intros. apply not_elem_of_nil.
    - symmetry. rewrite (filter_ext_in _ (λ _, True)); [|by intros; split; [|intros; apply not_elem_of_nil]].
      induction (priority_index i); [done|]. by rewrite filter_cons, decide_True, IHl by done. }
  unfold remove_step at 2 4 6. cbn [fst snd]. destruct (remove_pending x i) as [i'|] eqn:E.
  - destruct (remove_pending_ok x i i' Hi E) as (Hi' & Et & _ & Ep).
    destruct (IH (wadd 64 n 1) i' Hi') as (H1 & H2 & H3). split; [done|]. rewrite H2, H3, Et, Ep. split.
    + apply map_eq. intros k. apply option_eq. intros q.
      rewrite !map_lookup_filter_Some, lookup_delete_Some, not_elem_of_cons. naive_solver.
    + rewrite list_filter_filter. apply list_filter_iff. intros k. rewrite not_elem_of_cons. naive_solver.
  - apply remove_pending_None in E. destruct (IH n i Hi) as (H1 & H2 & H3). split; [done|]. rewrite H2, H3. split.
    + apply map_eq. intros k. apply option_eq. intros q. rewrite !map_lookup_filter_Some, not_elem_of_cons.
      split; [|naive_solver]. intros [Hq Hn]. split; [done|]. split; [|done]. intros ->. congruence.
    + apply filter_ext_in. intros k Hk. apply (io_index i Hi) in Hk as (q & Hq & _).
      rewrite not_elem_of_cons. split; [|naive_solver]. intros Hn. split; [|done]. intros <-. congruence.
Qed.

(** *** Eviction *)
Lemma last_is_lowest l k :
  sorted_index l → last l = Some k → k ∈ l ∧ ∀ j, j ∈ l → priority_leb j k = true.
Proof.
  intros [Hs _] Hl. apply last_Some in Hl as [l' ->]. split; [apply elem_of_app; right; by left|].
  intros j [Hj|Hj]%elem_of_app.
  - induction l' as [|x l' IH]; [by apply not_elem_of_nil in Hj|]. cbn in Hs.
    apply StronglySorted_inv in Hs as [Hs Hx]. apply elem_of_cons in Hj as [->|Hj]; [|by apply IH].
    rewrite Forall_forall in Hx. apply Hx, elem_of_app. right. by left.
  - apply list_elem_of_singleton in Hj as ->. by destruct (priority_leb_total k k).
Qed.

Lemma evict_run self k :
  inner_ok (inner self) → last (priority_index (inner self)) = Some k →
  ∃ i', remove_pending (key_tx_id k) (inner self) = Some i' ∧ evict_lowest_priority self = set_inner i' self.
Proof.
  intros Hi Hl. destruct (last_is_lowest _ _ (io_sorted _ Hi) Hl) as [Hk _].
  apply (io_index _ Hi) in Hk as (p & Hp & Ek). unfold remove_pending, evict_lowest_priority. rewrite Hl, Hp.
  eexists. split; [reflexivity|]. by rewrite <- Ek.
Qed.

Lemma index_empty i : inner_ok i → last (priority_index i) = None → pool_transactions i = ∅.
Proof.
  intros Hi Hl. apply last_None in Hl. apply map_eq. intros k. rewrite lookup_empty.
  destruct (pool_transactions i !! k) as [p|] eqn:E; [|done].
  assert (Hk : key_of_pending k p ∈ priority_index i) by (apply (io_index i Hi); by exists p).
  rewrite Hl in Hk. by apply not_elem_of_nil in Hk.
Qed.

Lemma add_pending_ok self tx now sz fee :
  inner_ok (inner self) → pool_transactions (inner self) !! id tx = None →
  sz = calculate_tx_size_bytes serialized_size tx → fee = calculate_fee_per_byte tx sz →
  0 ≤ sz ≤ MAX_TX_SIZE_BYTES → pool_total_bytes (inner self) + sz < 2 ^ 64 →
  inner_ok (inner (add_pending tx now sz fee self)).
Proof.
  intros Hi Hn Hs Hf Hb Ht. pose proof (bytes_nonneg _ Hi). split; cbn.
  - apply index_insert_sorted, (io_sorted _ Hi).
  - intros k. rewrite elem_of_index_insert, (io_index _ Hi). rewrite lookup_insert. split.
    + intros [->|(q & Hq & Ek)]; cbn.
      * rewrite decide_True by done. eexists. by split.
      * exists q. rewrite decide_False by congruence. by split.
    + intros (q & Hq & Ek). case_decide as Hd; [|right; by exists q]. left. injection Hq as <-. by rewrite <- Hd in Ek.
  - rewrite msum_insert by done. rewrite <- (io_bytes _ Hi). cbn. unfold wadd. rewrite wrap_small; [lia|unfold fits; lia].
  - apply map_Forall_insert_2; [by split|apply (io_entries _ Hi)].
Qed.

(** *** Admission *)
Record pool_wf self : Prop := {
  pw_inner : inner_ok (inner self);
  pw_limit : 1 ≤ max_transactions self;
  pw_count : pool_len self ≤ max_transactions self;
  pw_words : (max_transactions self + 1) * MAX_TX_SIZE_BYTES < 2 ^ 64
}.

(** The pool the new transaction is added to: all of it if it fits, otherwise all
    but the entry of lowest priority. *)
Definition makes_room self (sz fee : Z) (i : MempoolInner) : Prop :=
  if (pool_total_bytes (inner self) + sz <=? max_bytes self) && (pool_len self + 1 <=? max_transactions self)
  then i = inner self
  else should_accept_new_transaction self fee = true ∧
    match last (priority_index (inner self)) with
    | Some k => remove_pending (key_tx_id k) (inner self) = Some i
    | None => i = inner self
    end.

Lemma admit_cases tx now sz fee self :
  pool_wf self → sz = calculate_tx_size_bytes serialized_size tx → fee = calculate_fee_per_byte tx sz →
  0 ≤ sz ≤ MAX_TX_SIZE_BYTES →
  match admit_pending tx now sz fee self with
  | (Ok _, self') => pool_wf self' ∧ pool_contains (id tx) self = false
      ∧ ∃ i, makes_room self sz fee i ∧ self' = add_pending tx now sz fee (set_inner i self)
  | (Err e, self') => self' = self
      ∧ (e = DuplicateTransaction ∧ pool_contains (id tx) self = true
         ∨ e = PoolFull ∧ should_accept_new_transaction self fee = false
           ∧ (max_bytes self < pool_total_bytes (inner self) + sz ∨ max_transactions self < pool_len self + 1))
  | (Panic _, _) => False
  end.
Proof.
  intros [Hi H1 Hc Hw] Hs Hf Hb. pose proof (bytes_nonneg _ Hi) as Hge. pose proof (bytes_bound _ Hi) as Hle.
  fold (pool_len self) in Hle. unfold MAX_TX_SIZE_BYTES in *.
  unfold admit_pending. erewrite method_bind_run by done.
  destruct (pool_contains (id tx) self) eqn:Hco; [split; [done|by left]|].
  assert (Hn : pool_transactions (inner self) !! id tx = None).
  { unfold pool_contains in Hco. apply bool_decide_eq_false in Hco. by apply eq_None_not_Some. }
  assert (E1 : wadd 64 (pool_total_bytes (inner self)) sz = pool_total_bytes (inner self) + sz
               ∧ wadd 64 (pool_len self) 1 = pool_len self + 1).
  { unfold wadd. split; apply wrap_small; unfold fits, pool_len in *; nia. }
  destruct E1 as [-> ->].
  assert (Hadd : ∀ i, inner_ok i → pool_transactions i ⊆ pool_transactions (inner self) →
    pool_total_bytes i ≤ pool_total_bytes (inner self) → Z.of_nat (size (pool_transactions i)) + 1 ≤ max_transactions self →
    pool_wf (add_pending tx now sz fee (set_inner i self))).
  { intros i Hii Hsub Htb Hsz. assert (Hni : pool_transactions i !! id tx = None) by by eapply lookup_weaken_None.
    assert (0 ≤ max_transactions self) by lia.
    split; [|done| |done].
    - apply add_pending_ok; [done..|]. cbn [inner set_inner]. unfold pool_len in *. nia.
    - unfold pool_len. cbn. rewrite map_size_insert_None by done. lia. }
  destruct (Z.ltb_spec (max_bytes self) (pool_total_bytes (inner self) + sz)) as [Hby|Hby];
    [|destruct (Z.ltb_spec (max_transactions self) (pool_len self + 1)) as [Hct|Hct]]; cbn [orb].
  3: { erewrite method_bind_run by done. unfold modify. split; [|split; [done|]].
       - replace self with (set_inner (inner self) self) at 1 by by destruct self. by apply Hadd.
       - exists (inner self). split; [|by destruct self]. unfold makes_room.
         by rewrite (proj2 (Z.leb_le _ _) Hby), (proj2 (Z.leb_le _ _) Hct). }
  all: destruct (should_accept_new_transaction self fee) eqn:Ha;
    [|split; [done|]; right; split; [done|]; split; [done|lia]].
  all: assert (Hroom : (pool_total_bytes (inner self) + sz <=? max_bytes self)
      && (pool_len self + 1 <=? max_transactions self) = false) by (apply andb_false_iff; rewrite !Z.leb_gt; lia).
  all: erewrite method_bind_run by done; unfold modify; unfold makes_room; rewrite Hroom.
  all: destruct (last (priority_index (inner self))) as [k|] eqn:El.
  all: try (destruct (evict_run self k Hi El) as (i' & Er & ->);
    destruct (remove_pending_ok _ _ _ Hi Er) as (Hi' & Et & [p Hp] & _);
    split; [apply Hadd; [done|rewrite Et; apply delete_subseteq| |]|split; [done|by exists i']]).
  all: try (rewrite (io_bytes _ Hi'), (io_bytes _ Hi), Et, (msum_delete _ _ _ p) by done;
    destruct (po_bound _ _ (io_entries _ Hi _ _ Hp)); lia).
  all: try (rewrite Et, map_size_delete_Some by (by eexists); unfold pool_len in *;
    assert (size (pool_transactions (inner self)) ≠ 0%nat) by (apply map_size_ne_0_lookup; eauto); lia).
  all: assert (Hev : evict_lowest_priority self = set_inner (inner self) self)
    by (unfold evict_lowest_priority; rewrite El; by destruct self).
  all: rewrite Hev; split; [|split; [done|by exists (inner self)]].
  all: apply Hadd; [done|done|done|].
  all: pose proof (index_empty _ Hi El) as Hem; rewrite Hem, map_size_empty; lia.
Qed.
End pool.

(** ** The theorems *)
Section theorems.
Context `{Blake3} `{K256} `{Commitments} `{Wasm} {S : Type} `{HS : Storage S}.
Context (serialized_size : Transaction → option Z).
(** Sizes are unsigned. *)
Context (size_nonneg : ∀ tx z, serialized_size tx = Some z → 0 ≤ z).
Implicit Types (s : PoolState (S := S)) (self : Mempool) (tx : Transaction) (u : UtxoSet).

Inductive pool_op :=
| PoolInsert (now : Z) (tx : Transaction) (u : UtxoSet)
| PoolRevalidate (u : UtxoSet)
| PoolRemove (ids : list Hash)
| PoolExpire (now : Z).

Definition run_pool (s : PoolState (S := S)) (op : pool_op) : PoolState :=
  match op with
  | PoolInsert now tx u => (insert_transaction serialized_size now tx u s).2
  | PoolRevalidate u => (revalidate_pending_transactions serialized_size u s).2
  | PoolRemove ids => set_mempool (remove_transactions ids (mempool s)).2 s
  | PoolExpire now => set_mempool (expire_old_transactions now (mempool s)).2 s
  end.

Lemma stateless_size self tx :
  validate_transaction_stateless serialized_size self tx = Ok tt →
  0 ≤ calculate_tx_size_bytes serialized_size tx ≤ MAX_TX_SIZE_BYTES
  ∧ min_fee_per_byte self ≤ calculate_fee_per_byte tx (calculate_tx_size_bytes serialized_size tx).
Proof.
  unfold validate_transaction_stateless. intros E. outcome_inv.
  repeat match goal with Hx : (_ <=? _) = true |- _ => apply Z.leb_le in Hx end.
  split; [split; [|done]|done]. unfold calculate_tx_size_bytes.
  destruct (serialized_size tx) as [z|] eqn:Ez; cbn; [by eapply size_nonneg|lia].
Qed.

Lemma remove_transactions_ok ids self :
  pool_wf serialized_size self →
  let self' := (remove_transactions ids self).2 in
  pool_wf serialized_size self'
  ∧ pool_transactions (inner self') = filter (λ '(k, _), k ∉ ids) (pool_transactions (inner self))
  ∧ priority_index (inner self') = filter (λ k, key_tx_id k ∉ ids) (priority_index (inner self)).
Proof.
  intros [Hi H1' Hc Hw]. unfold remove_transactions.
  pose proof (remove_fold_ok serialized_size ids 0 (inner self) Hi) as Hf.
  destruct (foldl remove_step (0, inner self) ids) as [n i]. cbn in *. destruct Hf as (H3 & Ht & Hp).
  split; [|by split]. split; cbn; [done|done| |done]. unfold pool_len in *. cbn. rewrite Ht.
  etrans; [|exact Hc]. apply inj_le. rewrite <- !size_dom. apply subseteq_size, dom_filter_subseteq.
Qed.

(** [insert_transaction] as validation followed by admission. *)
Lemma insert_cases now tx u s :
  pool_wf serialized_size (mempool s) →
  let sz := calculate_tx_size_bytes serialized_size tx in
  let fee := calculate_fee_per_byte tx sz in
  match insert_transaction serialized_size now tx u s with
  | (Ok _, s') =>
      (validate_transaction_stateful serialized_size (mempool s) tx u (pool_manager s)).1 = Ok tt
      ∧ pool_contains (id tx) (mempool s) = false
      ∧ pool_wf serialized_size (mempool s')
      ∧ min_fee_per_byte (mempool s) ≤ fee
      ∧ ∃ i, makes_room (mempool s) sz fee i
             ∧ mempool s' = add_pending tx now sz fee (set_inner i (mempool s))
  | (Err e, s') =>
      mempool s' = mempool s
      ∧ ((validate_transaction_stateful serialized_size (mempool s) tx u (pool_manager s)).1 = Err e
         ∨ e = DuplicateTransaction ∧ pool_contains (id tx) (mempool s) = true
         ∨ e = PoolFull ∧ should_accept_new_transaction (mempool s) fee = false)
  | (Panic _, s') => mempool s' = mempool s
  end.
Proof.
  intros Hwf sz fee. unfold insert_transaction. erewrite method_bind_run by done. fold sz. fold fee.
  destruct (validate_transaction_stateful serialized_size (mempool s) tx u (pool_manager s)) as [[[]|e|x] m] eqn:Ev.
  2:{ erewrite method_bind_stop by (unfold zoom; by rewrite Ev). split; [done|by left]. }
  2:{ by erewrite method_bind_unwind by (unfold zoom; by rewrite Ev). }
  erewrite method_bind_run by (unfold zoom; by rewrite Ev).
  assert (Hst : validate_transaction_stateless serialized_size (mempool s) tx = Ok tt).
  { unfold validate_transaction_stateful in Ev. apply method_bind_ok in Ev as ([] & m1 & E & _). by injection E. }
  destruct (stateless_size _ _ Hst) as [Hb Hm].
  pose proof (admit_cases serialized_size tx now sz fee (mempool s) Hwf eq_refl eq_refl Hb) as Ha.
  unfold zoom. cbn [mempool set_pool_manager]. destruct (admit_pending tx now sz fee (mempool s)) as [[[]|e|x] self']; [| |done].
  - destruct Ha as (Hw & Hc & Hr). by split_and!.
  - destruct Ha as [-> He]. split; [done|]. right. destruct He as [[-> ?]|(-> & ? & _)]; [by left|by right].
Qed.

Lemma revalidate_mempool u s :
  ∃ ids m, (revalidate_pending_transactions serialized_size u s).2
    = {| mempool := (remove_transactions ids (mempool s)).2; pool_manager := m |}
  ∨ (revalidate_pending_transactions serialized_size u s).2 = {| mempool := mempool s; pool_manager := m |}.
Proof.
  unfold revalidate_pending_transactions. erewrite method_bind_run by done.
  destruct (mapM (stale serialized_size (mempool s) u) (map_to_list (pool_transactions (inner (mempool s))))
    (pool_manager s)) as [[l|e|x] m] eqn:El.
  - exists (mjoin l), m. left. erewrite method_bind_run by (unfold zoom; by rewrite El).
    by destruct (remove_transactions (mjoin l) (mempool s)).
  - exists [], m. right. by erewrite method_bind_stop by (unfold zoom; by rewrite El).
  - exists [], m. right. by erewrite method_bind_unwind by (unfold zoom; by rewrite El).
Qed.

(** C12. Whatever is inserted, revalidated, removed and expired, and with whatever
    outcome, the pool stays consistent: the index is sorted without duplicates and
    lists exactly the pending transactions with their densities and times, every
    entry is filed under its id with its size and density, the byte count is the sum
    of the sizes, and the count limit holds. *)
Theorem mempool_invariant s ops (Hwf : pool_wf serialized_size (mempool s)) :
  pool_wf serialized_size (mempool (foldl run_pool s ops)).
Proof.
  revert s Hwf; induction ops as [|op ops IH]; intros s Hwf; [done|]. cbn [foldl]. apply IH. clear IH.
  destruct op as [now tx u|u|ids|now]; cbn [run_pool].
  - pose proof (insert_cases now tx u s Hwf) as Hi.
    destruct (insert_transaction serialized_size now tx u s) as [[[]|e|x] s']; cbn [snd].
    + apply Hi.
    + by destruct Hi as [-> _].
    + by rewrite Hi.
  - destruct (revalidate_mempool u s) as (ids & m & [->| ->]); [|done]. cbn [mempool].
    by apply remove_transactions_ok.
  - by apply remove_transactions_ok.
  - by apply remove_transactions_ok.
Qed.

(** Insertion: an error leaves the pool alone and is the validation's, a duplicate
    or a full pool; a success adds the transaction to the pool as it was if both
    limits allow, and otherwise to the pool without its lowest entry. *)
Theorem insert_transaction_spec now tx u s (Hwf : pool_wf serialized_size (mempool s)) :
  let sz := calculate_tx_size_bytes serialized_size tx in
  let fee := calculate_fee_per_byte tx sz in
  let '(r, s') := insert_transaction serialized_size now tx u s in
  match r with
  | Ok _ =>
      pool_contains (id tx) (mempool s) = false ∧ min_fee_per_byte (mempool s) ≤ fee
      ∧ ∃ i, makes_room (mempool s) sz fee i
        ∧ pool_transactions (inner (mempool s')) = <[id tx := {| pending_tx := tx; pending_inserted_at := now;
             pending_size_bytes := sz; pending_fee_per_byte := fee |}]> (pool_transactions i)
        ∧ pool_total_bytes (inner (mempool s')) = pool_total_bytes i + sz
  | Err e =>
      mempool s' = mempool s
      ∧ ((validate_transaction_stateful serialized_size (mempool s) tx u (pool_manager s)).1 = Err e
         ∨ e = DuplicateTransaction ∧ pool_contains (id tx) (mempool s) = true
         ∨ e = PoolFull ∧ should_accept_new_transaction (mempool s) fee = false)
  | Panic _ => mempool s' = mempool s
  end.
Proof.
  intros sz fee. pose proof (insert_cases now tx u s Hwf) as Hi. fold sz in Hi. fold fee in Hi.
  destruct (insert_transaction serialized_size now tx u s) as [[[]|e|x] s']; [|done..].
  destruct Hi as (_ & Hc & Hw & Hm & i & Hr & Es). split; [done|]. split; [done|]. exists i.
  split; [done|]. rewrite Es. split; [done|].
  pose proof (io_bytes _ _ (pw_inner _ _ Hw)) as Hb. rewrite Es in Hb. rewrite Hb. cbn.
  assert (Hii : inner_ok serialized_size i ∧ pool_transactions i !! id tx = None).
  { assert (Hn : pool_transactions (inner (mempool s)) !! id tx = None).
    { unfold pool_contains in Hc. apply bool_decide_eq_false in Hc. by apply eq_None_not_Some. }
    unfold makes_room in Hr. destruct (_ && _) in Hr; [by subst i; split; [apply Hwf|]|].
    destruct Hr as [_ Hr]. destruct (last _); [|by subst i; split; [apply Hwf|]].
    destruct (remove_pending_ok _ _ _ _ (pw_inner _ _ Hwf) Hr) as (Hi & -> & _). split; [done|].
    by apply lookup_delete_None; right. }
  destruct Hii as [Hii Hn]. rewrite msum_insert by done. cbn. rewrite (io_bytes _ _ Hii). lia.
Qed.

(** The selection for a block is the [limit] pending transactions of highest
    priority, in order: it has as many as there are up to the limit, lists
    distinct pending ones, and none left out precedes one selected. *)
Theorem top_transactions_spec limit self (Hwf : pool_wf serialized_size self) :
  ∃ ids, get_top_transactions limit self = omap (λ h, pending_tx <$> pool_transactions (inner self) !! h) ids
  ∧ NoDup ids ∧ length ids = Nat.min limit (size (pool_transactions (inner self)))
  ∧ length (get_top_transactions limit self) = length ids
  ∧ (∀ h, h ∈ ids → is_Some (pool_transactions (inner self) !! h))
  ∧ StronglySorted (λ h j, ∀ p q, pool_transactions (inner self) !! h = Some p →
      pool_transactions (inner self) !! j = Some q →
      priority_leb (key_of_pending h p) (key_of_pending j q) = true) ids
  ∧ ∀ h j p q, h ∈ ids → j ∉ ids → pool_transactions (inner self) !! h = Some p →
      pool_transactions (inner self) !! j = Some q →
      priority_leb (key_of_pending h p) (key_of_pending j q) = true.
Proof.
  destruct (pw_inner _ _ Hwf) as [[Hs Hnd] Hix _ _].
  set (l := priority_index (inner self)) in *. set (m := pool_transactions (inner self)) in *.
  assert (Hkey : ∀ k p, k ∈ l → m !! key_tx_id k = Some p → key_of_pending (key_tx_id k) p = k).
  { intros k p Hk Hp. apply Hix in Hk as (q & Hq & Ek). congruence. }
  assert (Hin : ∀ h p, m !! h = Some p → key_of_pending h p ∈ l).
  { intros h p Hp. apply Hix. exists p. by split. }
  assert (Hids : NoDup (key_tx_id <$> l)).
  { apply NoDup_fmap_2_strong; [|done]. intros x y Hx Hy E.
    apply Hix in Hx as (p & Hp & Ex). apply Hix in Hy as (q & Hq & Ey). rewrite E in *. congruence. }
  assert (Hlen : length l = size m).
  { rewrite <- (length_fmap key_tx_id), <- size_dom.
    rewrite <- (size_list_to_set (C:=gset Hash) (key_tx_id <$> l)) by done. f_equal. apply leibniz_equiv.
    intros h. rewrite elem_of_list_to_set, elem_of_dom. split.
    - intros (k & -> & Hk)%list_elem_of_fmap. apply Hix in Hk as (p & Hp & _). by exists p.
    - intros [p Hp]. apply Hin in Hp. by apply (list_elem_of_fmap_2 key_tx_id) in Hp. }
  exists (key_tx_id <$> take limit l).
  assert (Hsome : ∀ k, k ∈ take limit l → is_Some (m !! key_tx_id k)).
  { intros k Hk. apply elem_of_take in Hk as (i & Hi & _). apply list_elem_of_lookup_2, Hix in Hi as (p & Hp & _).
    by exists p. }
  assert (Ht : get_top_transactions limit self
    = omap (λ h, pending_tx <$> m !! h) (key_tx_id <$> take limit l)).
  { unfold get_top_transactions. fold l. fold m. induction (take limit l) as [|k t IH]; [done|]. cbn.
    rewrite IH by (intros; apply Hsome; by right). done. }
  assert (Hsub : ∀ k, k ∈ take limit l → k ∈ l).
  { intros k Hk. apply elem_of_take in Hk as (i & Hi & _). by eapply list_elem_of_lookup_2. }
  split; [exact Ht|]. split; [|split; [|split; [|split; [|split]]]].
  - rewrite <- (take_drop limit l), fmap_app in Hids. by apply NoDup_app in Hids as [? _].
  - rewrite length_fmap, length_take, Hlen. done.
  - rewrite Ht, length_fmap. clear -Hsome. induction (take limit l) as [|k t IH]; [done|]. cbn.
    destruct (Hsome k ltac:(left)) as [p ->]. cbn. f_equal. apply IH. intros; apply Hsome; by right.
  - intros h (k & -> & Hk)%list_elem_of_fmap. by apply Hsome.
  - assert (Hst : StronglySorted (λ a b, priority_leb a b = true) (take limit l)).
    { rewrite <- (take_drop limit l) in Hs. by apply StronglySorted_app_1_l in Hs. }
    clear -Hst Hkey Hsub. induction Hst as [|k t Hst IH Hall]; cbn; constructor.
    + apply IH. intros; apply Hsub; by right.
    + apply Forall_fmap. eapply Forall_impl; [apply Forall_and; split; [exact Hall|]|].
      { apply Forall_forall. intros x Hx. exact (Hsub x ltac:(by right)). }
      cbn. intros x [Hx Hxl] p q Hp Hq. by rewrite !Hkey by (done || (apply Hsub; left)).
  - intros h j p q (k & -> & Hk)%list_elem_of_fmap Hj Hp Hq. rewrite (Hkey k p) by auto.
    assert (Hjl : key_of_pending j q ∈ l) by by apply Hin.
    rewrite <- (take_drop limit l) in Hs, Hjl. apply elem_of_app in Hjl as [Hjl|Hjl].
    { destruct Hj. by apply (list_elem_of_fmap_2 key_tx_id) in Hjl. }
    by apply (StronglySorted_app_1_elem_of _ _ _ _ _ Hs Hk Hjl).
Qed.

(** Expiry removes exactly the transactions whose time to live has passed, and
    reports their number. *)
Theorem expire_spec now self (Hwf : pool_wf serialized_size self)
    (Hw : map_Forall (λ _ p, fits 64 (pending_inserted_at p + ttl_seconds self)) (pool_transactions (inner self))) :
  let '(n, self') := expire_old_transactions now self in
  pool_transactions (inner self')
  = filter (λ '(_, p), now < pending_inserted_at p + ttl_seconds self) (pool_transactions (inner self))
  ∧ n = pool_len self - pool_len self'.
Proof.
  unfold expire_old_transactions.
  set (m := pool_transactions (inner self)) in *.
  set (gone := filter (λ '(_, p), is_expired self now p = true) m).
  destruct (remove_transactions_ok (map_to_list gone).*1 self Hwf) as (_ & Ht & _). fold m in Ht.
  assert (E : ∀ h p, m !! h = Some p → is_expired self now p = true ↔ pending_inserted_at p + ttl_seconds self ≤ now).
  { intros h p Hp. unfold is_expired, wadd. rewrite (wrap_small 64) by exact (Hw h p Hp). apply Z.leb_le. }
  assert (Hg : ∀ h, h ∈ (map_to_list gone).*1 ↔ is_Some (gone !! h)).
  { intros h. split.
    - intros ([k p] & -> & Hp)%list_elem_of_fmap. apply elem_of_map_to_list in Hp. by exists p.
    - intros [p Hp]. apply elem_of_map_to_list in Hp. by apply (list_elem_of_fmap_2 fst) in Hp. }
  assert (Hf : pool_transactions (inner (remove_transactions (map_to_list gone).*1 self).2)
    = filter (λ '(_, p), now < pending_inserted_at p + ttl_seconds self) m).
  { rewrite Ht. apply map_filter_ext. intros h p Hp. rewrite Hg. subst gone.
    rewrite <- not_eq_None_Some. rewrite map_lookup_filter_None. split.
    - intros Hn. destruct (decide (is_expired self now p = true)) as [He|He]; [|by rewrite E in He by done; lia].
      exfalso. apply Hn. intros [Hx|Hx]; [congruence|]. by apply (Hx p).
    - intros Hlt Hn. apply Hn. right. intros q Hq. rewrite Hp in Hq. injection Hq as <-. rewrite (E h) by done. lia. }
  split; [exact Hf|]. unfold pool_len. rewrite Hf. fold m. rewrite length_fmap, length_map_to_list.
  assert (Hu : m = gone ∪ filter (λ '(_, p), now < pending_inserted_at p + ttl_seconds self) m
    ∧ gone ##ₘ filter (λ '(_, p), now < pending_inserted_at p + ttl_seconds self) m).
  { assert (Ec : filter (λ '(_, p), now < pending_inserted_at p + ttl_seconds self) m
      = filter (λ v, ¬ (λ '(_, p), is_expired self now p = true) v) m).
    { apply map_filter_ext. intros h p Hp. rewrite (E h) by done. lia. }
    rewrite Ec. unfold gone. split; [symmetry; apply map_filter_union_complement|apply map_disjoint_filter_complement]. }
  destruct Hu as [Hu Hd]. apply (f_equal size) in Hu. rewrite map_size_disj_union in Hu by done. lia.
Qed.

(** The byte limit is only a trigger.  When the count and the bytes are below
    their limits but the transaction does not fit, it is accepted whatever its fee
    and the entry of lowest priority makes way, even one that pays more; one entry
    is evicted, however few bytes it frees, so the limit can stay exceeded. *)
Theorem byte_limit_is_a_trigger now tx sz fee self k low
    (Hwf : pool_wf serialized_size self)
    (Hsz : sz = calculate_tx_size_bytes serialized_size tx) (Hfee : fee = calculate_fee_per_byte tx sz)
    (Hb : 0 ≤ sz ≤ MAX_TX_SIZE_BYTES) (Hnew : pool_contains (id tx) self = false)
    (Hcount : pool_len self < max_transactions self)
    (Hbytes : pool_total_bytes (inner self) < max_bytes self < pool_total_bytes (inner self) + sz)
    (Hlow : last (priority_index (inner self)) = Some k)
    (Hk : pool_transactions (inner self) !! key_tx_id k = Some low) :
  ∃ self', admit_pending tx now sz fee self = (Ok tt, self')
  ∧ pool_transactions (inner self') !! key_tx_id k = None
  ∧ pool_total_bytes (inner self') = pool_total_bytes (inner self) - pending_size_bytes low + sz.
Proof.
  pose proof (admit_cases serialized_size tx now sz fee self Hwf Hsz Hfee Hb) as Ha.
  assert (Hacc : should_accept_new_transaction self fee = true).
  { unfold should_accept_new_transaction. rewrite (proj2 (Z.ltb_lt _ _) Hcount).
    by rewrite (proj2 (Z.ltb_lt _ _)) by lia. }
  destruct (admit_pending tx now sz fee self) as [[[]|e|x] self']; [| |done].
  2:{ destruct Ha as [_ [[_ Hd]|(_ & Hf & _)]]; congruence. }
  exists self'. split; [done|]. destruct Ha as (Hw' & Hc & i & Hr & ->). unfold makes_room in Hr.
  rewrite (proj2 (Z.leb_gt _ _)) in Hr by lia. cbn [andb] in Hr. rewrite Hlow in Hr. destruct Hr as [_ Hr].
  destruct (remove_pending_ok _ _ _ _ (pw_inner _ _ Hwf) Hr) as (Hi & Et & _ & _).
  assert (Hn : pool_transactions (inner self) !! id tx = None).
  { unfold pool_contains in Hc. apply bool_decide_eq_false in Hc. by apply eq_None_not_Some. }
  split.
  - cbn. rewrite lookup_insert_ne, Et by congruence. apply lookup_delete_eq.
  - rewrite (io_bytes _ _ (pw_inner _ _ Hw')). cbn. rewrite msum_insert by (rewrite Et; by apply lookup_delete_None; right).
    rewrite Et, (msum_delete _ _ _ low) by done. cbn. rewrite (io_bytes _ _ (pw_inner _ _ Hwf)). lia.
Qed.

(** *** Stateful validation *)
Lemma check_input_ok u input v (m m' : StateManager (S := S)) :
  check_input_stateful u input m = (Ok v, m') →
  ∃ o t, utxos u !! outpoint_of input = Some o ∧ v = value o ∧ m' = set_tree t m
  ∧ is_Some (outpoint_to_key m !! outpoint_of input).
Proof.
  unfold check_input_stateful. destruct (utxos u !! outpoint_of input) as [o|]; [|done].
  erewrite method_bind_run by done. erewrite method_bind_run by done.
  destruct (outpoint_to_key m !! outpoint_of input) as [key|]; [|done]. erewrite method_bind_run by done.
  intros (proof & m1 & E1 & E)%method_bind_ok. unfold rethrow, on_tree, zoom in E1.
  destruct (generate_proof key (tree m)) as [[pr|e|x] t]; [|done..]. injection E1 as _ <-.
  erewrite method_bind_run in E by done. cbn [tree set_tree] in E.
  apply method_bind_ok in E as (ok & m2 & E2 & E). injection E2 as _ <-.
  apply method_bind_ok in E as (y & m3 & E3 & E). injection E3 as _ <-. injection E as <- <-.
  exists o, t. split_and!; try done.
Qed.

Lemma sum_inputs_ok u ins acc t (m m' : StateManager (S := S)) :
  sum_inputs_stateful u ins acc m = (Ok t, m') →
  ∃ coins, spends u ins coins ∧ t = acc + values coins ∧ current_total_supply m' = current_total_supply m
  ∧ Forall (λ i, is_Some (outpoint_to_key m !! outpoint_of i)) ins.
Proof.
  revert acc m; induction ins as [|i ins IH]; intros acc m E; cbn [sum_inputs_stateful] in E.
  { injection E as <- <-. exists []. split; [constructor|]. cbn. split; [lia|]. by split. }
  apply method_bind_ok in E as (v & m1 & E1 & E).
  destruct (check_input_ok _ _ _ _ _ E1) as (o & tr & Ho & -> & -> & Hk).
  apply method_bind_ok in E as (tot & m2 & E2 & E). injection E2 as E2 <-. apply ok_or_ok in E2.
  apply checked_add_Some in E2 as [-> _]. destruct (IH _ _ E) as (coins & Hs & -> & Hsu & Hks).
  exists (o :: coins). split; [by constructor|]. rewrite values_cons. split; [lia|]. split; [done|].
  by constructor.
Qed.

(** A transaction that stateful validation accepts is small and dense enough and
    every input is signed, unspent and keyed; its inputs, counted one by one,
    cover the outputs and the gas fee, and the outputs are within the supply. *)
Theorem stateful_validation_sound self tx u m m'
    (Ho : Forall output_fits (outputs tx))
    (E : validate_transaction_stateful serialized_size self tx u m = (Ok tt, m')) :
  calculate_tx_size_bytes serialized_size tx ≤ MAX_TX_SIZE_BYTES
  ∧ min_fee_per_byte self ≤ calculate_fee_per_byte tx (calculate_tx_size_bytes serialized_size tx)
  ∧ (∀ n input, inputs tx !! n = Some input → check_input_stateless tx n input = Ok tt)
  ∧ Forall (λ i, is_Some (outpoint_to_key m !! outpoint_of i)) (inputs tx)
  ∧ ∃ coins, spends u (inputs tx) coins
    ∧ values (outputs tx) + sat_mul 128 (max_fee_per_gas tx) (gas_limit tx) ≤ values coins
    ∧ values (outputs tx) ≤ current_total_supply m.
Proof.
  unfold validate_transaction_stateful in E. apply method_bind_ok in E as ([] & m1 & E1 & E).
  injection E1 as Est <-. destruct (stateless_size _ _ Est) as [Hb Hm].
  apply method_bind_ok in E as (ti & m1 & E1 & E).
  destruct (sum_inputs_ok _ _ _ _ _ _ E1) as (coins & Hs & -> & Hsu & Hk).
  apply method_bind_ok in E as (to & m2 & E2 & E). injection E2 as E2 <-.
  apply fold_checked_add in E2 as [-> _]; [|lia|eapply Forall_impl; [done|]; by intros o [? _]].
  apply method_bind_ok in E as (fee & m2 & E3 & E). injection E3 as E3 <-. apply ok_or_ok in E3.
  apply checked_sub_Some in E3 as [-> Hge].
  apply method_bind_ok in E as ([] & m2 & E4 & E). injection E4 as E4 <-. apply ensure_ok, Z.leb_le in E4.
  erewrite method_bind_run in E by done. injection E as E _. apply ensure_ok, Z.leb_le in E.
  change (zsum (value <$> outputs tx)) with (values (outputs tx)) in *.
  split; [lia|]. split; [done|]. split; [|split; [done|]].
  - intros n input Hn. unfold validate_transaction_stateless in Est. outcome_inv.
    match goal with Hf : fold_outcome _ _ _ = Ok _ |- _ => revert Hf end.
    assert (Hin : (n, input) ∈ enumerate (inputs tx)).
    { apply list_elem_of_lookup. exists n. by rewrite enumerate_lookup, Hn. }
    revert Hin. clear. induction (enumerate (inputs tx)) as [|q l IH]; intros Hin Hf; [by apply not_elem_of_nil in Hin|].
    cbn in Hf. apply bind_ok in Hf as ([] & Hq & Hf). apply elem_of_cons in Hin as [<-|Hin]; [done|by apply IH].
  - exists coins. split; [done|]. rewrite Hsu in E. cbn in *. lia.
Qed.
End theorems.

(** ** Examples *)
Section examples.
#[local] Existing Instance toy_blake3.
#[local] Existing Instance toy_k256.
#[local] Existing Instance toy_commitments.
#[local] Existing Instance toy_wasm.

(** One coin of 10, keyed; a transaction that lists it twice and pays out 15. *)
Definition toy_size (tx : Transaction) : option Z := Some (100 + Z.of_nat (length (outputs tx))).
Definition keyed_manager : StateManager :=
  set_supply 1000 (set_keys {[ (hash_of 1, 0) := hash_of 3 ]} (manager start_chain)).
Definition priced (txid : Z) (ins : list TxInput) (outs : list Z) (price : Z) : Transaction :=
  {| id := hash_of txid; inputs := ins; outputs := (λ v, {| value := v; pubkey_hash := hash_of 9 |}) <$> outs;
     execution_payload := []; contract_address := None; gas_limit := 0; max_fee_per_gas := price; chain_id := 1;
     locktime := 0 |}.
Definition double_tx : Transaction := priced 30 [sample_input 1 0; sample_input 1 0] [15] 1.

(** The mempool counts a coin as often as an input names it, and accepts what the
    UTXO set then refuses. *)
Theorem duplicate_inputs_accepted :
  (validate_transaction_stateful toy_size Mempool_new double_tx sample_utxo keyed_manager).1 = Ok tt
  ∧ validate_tx sample_utxo double_tx = Err ERR_DUP.
Proof. split; vm_compute; reflexivity. Qed.

(** A small pool with two entries. *)
Definition small_state : PoolState := {| mempool := with_limits 250 10 0 60; pool_manager := keyed_manager |}.
Definition first_tx : Transaction := priced 31 [sample_input 1 0] [5] 3.
Definition second_tx : Transaction := priced 32 [sample_input 1 0] [6] 5.
Definition cheap_tx : Transaction := priced 33 [sample_input 1 0] [7] 1.
Definition two_ops : list pool_op := [PoolInsert 100 first_tx sample_utxo; PoolInsert 101 second_tx sample_utxo].
Definition two_state : PoolState := foldl (run_pool toy_size) small_state two_ops.
Definition two_pool : Mempool := mempool two_state.

Lemma toy_size_nonneg tx z : toy_size tx = Some z → 0 ≤ z.
Proof. intros [= <-]. lia. Qed.
Lemma small_wf : pool_wf toy_size (mempool small_state).
Proof.
  split; [apply inner_new_ok|cbn; lia|vm_compute; discriminate|unfold MAX_TX_SIZE_BYTES; cbn; lia].
Qed.

Lemma mempool_invariant_witness : pool_wf toy_size two_pool.
Proof. exact (mempool_invariant toy_size toy_size_nonneg small_state two_ops small_wf). Defined.

Lemma two_wf : pool_wf toy_size two_pool.
Proof.
  unfold two_pool, two_state. cbn [foldl two_ops].
  assert (Hstep : ∀ now tx s, pool_wf toy_size (mempool s) →
    pool_wf toy_size (mempool (run_pool toy_size s (PoolInsert now tx sample_utxo)))).
  { intros now tx s Hw. pose proof (insert_cases toy_size toy_size_nonneg now tx sample_utxo s Hw) as Hi.
    cbn [run_pool]. destruct (insert_transaction toy_size now tx sample_utxo s) as [[[]|e|x] s']; cbn [snd].
    - apply Hi.
    - by destruct Hi as [-> _].
    - by rewrite Hi. }
  apply Hstep, Hstep, small_wf.
Qed.

Lemma insert_transaction_spec_witness :
  let '(r, s') := insert_transaction toy_size 100 first_tx sample_utxo small_state in
  r = Ok tt ∧ pool_total_bytes (inner (mempool s')) = 101.
Proof.
  pose proof (insert_transaction_spec toy_size toy_size_nonneg 100 first_tx sample_utxo small_state small_wf) as H.
  assert (E : (insert_transaction toy_size 100 first_tx sample_utxo small_state).1 = Ok tt) by (vm_compute; reflexivity).
  destruct (insert_transaction toy_size 100 first_tx sample_utxo small_state) as [r s']. cbn [fst] in E. subst r.
  split; [reflexivity|]. destruct H as (_ & _ & i & Hr & _ & Hb). rewrite Hb.
  unfold makes_room in Hr.
  replace ((pool_total_bytes (inner (mempool small_state)) + calculate_tx_size_bytes toy_size first_tx
    <=? max_bytes (mempool small_state)) && (pool_len (mempool small_state) + 1 <=? max_transactions (mempool small_state)))
    with true in Hr by (vm_compute; reflexivity).
  rewrite Hr. vm_compute. reflexivity.
Defined.

Lemma top_transactions_spec_witness :
  get_top_transactions 1 two_pool = [second_tx]
  ∧ ∃ ids : list Hash, NoDup ids ∧ length ids = 1%nat.
Proof.
  split; [vm_compute; reflexivity|].
  destruct (top_transactions_spec toy_size 1 two_pool two_wf) as (ids & _ & Hn & Hl & _). exists ids.
  split; [exact Hn|]. rewrite Hl. vm_compute. reflexivity.
Defined.

Lemma expire_spec_witness :
  let '(n, self') := expire_old_transactions 160 two_pool in n = 2 - pool_len self'.
Proof.
  pose proof (expire_spec toy_size 160 two_pool two_wf) as H.
  assert (Hl : pool_len two_pool = 2) by (vm_compute; reflexivity).
  destruct (expire_old_transactions 160 two_pool) as [n self']. rewrite <- Hl. apply H.
  apply map_Forall_to_list. unfold fits.
  assert (E : Forall (λ '(_, p), 0 ≤ pending_inserted_at p + ttl_seconds two_pool < 2 ^ 64)
    (map_to_list (pool_transactions (inner two_pool)))).
  { apply (bool_decide_unpack _). vm_compute. exact I. }
  eapply Forall_impl; [exact E|]. by intros [k p].
Defined.

Lemma byte_limit_is_a_trigger_witness :
  ∃ self', admit_pending cheap_tx 102 101 1 two_pool = (Ok tt, self')
  ∧ pool_transactions (inner self') !! hash_of 31 = None.
Proof.
  pose (low := {| pending_tx := first_tx; pending_inserted_at := 100; pending_size_bytes := 101;
                  pending_fee_per_byte := 3 |}).
  destruct (byte_limit_is_a_trigger toy_size 102 cheap_tx 101 1 two_pool
    {| key_fee_per_byte := 3; key_inserted_at := 100; key_tx_id := hash_of 31 |} low two_wf)
    as (self' & E & Hn & _).
  - vm_compute. reflexivity.
  - vm_compute. reflexivity.
  - unfold MAX_TX_SIZE_BYTES. lia.
  - vm_compute. reflexivity.
  - vm_compute. reflexivity.
  - split; vm_compute; reflexivity.
  - vm_compute. reflexivity.
  - vm_compute. reflexivity.
  - exists self'. split; [exact E|exact Hn].
Defined.

Lemma stateful_validation_sound_witness :
  ∃ coins, spends sample_utxo (inputs double_tx) coins ∧ values coins = 20.
Proof.
  assert (E : validate_transaction_stateful toy_size Mempool_new double_tx sample_utxo keyed_manager
    = (Ok tt, (validate_transaction_stateful toy_size Mempool_new double_tx sample_utxo keyed_manager).2)).
  { apply run_fst. vm_compute. reflexivity. }
  destruct (stateful_validation_sound toy_size toy_size_nonneg Mempool_new double_tx sample_utxo keyed_manager _
    ltac:(by repeat constructor) E) as (_ & _ & _ & _ & coins & Hs & _ & _).
  exists coins. split; [exact Hs|]. unfold spends in Hs.
  apply Forall2_cons_inv_l in Hs as (o & l & Ho & Hs & ->). apply Forall2_cons_inv_l in Hs as (o' & l' & Ho' & Hs & ->).
  apply Forall2_nil_inv_l in Hs as ->. rewrite !values_cons.
  assert (value o = 10 ∧ value o' = 10) as [-> ->]; [|reflexivity].
  cbn [utxos sample_utxo] in Ho, Ho'. apply (lookup_singleton_Some (hash_of 1, 0)) in Ho as [_ <-].
  apply (lookup_singleton_Some (hash_of 1, 0)) in Ho' as [_ <-]. split; reflexivity.
Defined.
End examples.
