(* ===== verification/Witness.v ===== *)
(** * Execution witnesses

    [state_manager.rs]: [ExecutionWitness], the keys, values and proofs a block
    reads, with its validity check and its compact encoding.  The decoder's cursor
    is the list of the bytes left. *)

From S2P Require Import Prelude Crypto Errors Transaction Economics State VerkleTree VerkleProofs.
From Stdlib Require Import Init.Byte.

Section witness.
Context `{Blake3} `{Commitments}.

Record ExecutionWitnessEntry := {
  entry_key : bytes32;
  entry_value : option (list byte);
  entry_proof : VerkleProof
}.
Record ExecutionWitness := { witness_root : bytes32; entries : list ExecutionWitnessEntry }.

Definition is_valid (w : ExecutionWitness) : bool :=
  forallb (λ e, bool_decide (proof_root (entry_proof e) = witness_root w)
                && bool_decide (proof_path (entry_proof e) = as_bytes (entry_key e))) (entries w).

(** ** Encoding *)

(** [proof_type as u8] *)
Definition proof_type_code (p : ProofType) : byte :=
  match p with Membership => Z_byte 0 | NonMembership => Z_byte 1 end.
(** [(len as u32).to_be_bytes()] *)
Definition len_bytes {A} (l : list A) : list byte := be_bytes 4 (wrap 32 (Z.of_nat (length l))).
Definition put_bytes (l : list byte) : list byte := len_bytes l ++ l.
Definition put_option {A} (put : A → list byte) (o : option A) : list byte :=
  match o with Some x => Z_byte 1 :: put x | None => [Z_byte 0] end.
Definition put_gas (w : GasFeeWitness) : list byte :=
  be_bytes 16 (total_gas_fee w) ++ be_bytes 16 (miner_share w) ++ be_bytes 16 (fullnode_share w).

Definition serialize_entry (e : ExecutionWitnessEntry) : list byte :=
  let p := entry_proof e in
  as_bytes (entry_key e) ++ [proof_type_code (proof_type p)] ++ put_option put_bytes (entry_value e)
  ++ put_bytes (proof_path p) ++ len_bytes (siblings p) ++ mjoin (as_bytes <$> siblings p)
  ++ as_bytes (proof_root p) ++ put_option put_bytes (leaf_value p)
  ++ put_option put_gas (gas_fee_distribution p).

Definition serialize_compact (w : ExecutionWitness) : list byte :=
  as_bytes (witness_root w) ++ len_bytes (entries w) ++ mjoin (serialize_entry <$> entries w).

(** ** Decoding *)
Abbreviation reader := (method (list byte) string).
Definition ERR_DATA : string := "Invalid execution witness data".

(** [if cursor + n > bytes.len() { return Err(..) }] *)
Definition need (n : Z) : reader unit :=
  s ← get; lift (ensure (n <=? Z.of_nat (length s)) ERR_DATA).
(** [n] bytes that are known to be there. *)
Definition advance (n : Z) : reader (list byte) := λ s, (Ok (take (Z.to_nat n) s), drop (Z.to_nat n) s).
Definition read (n : Z) : reader (list byte) := _ ← need n; advance n.
Definition read_u32 : reader Z := b ← read 4; mret (be_Z b).
Definition read_bytes : reader (list byte) := len ← read_u32; read len.

Definition is_one (b : list byte) : bool := bool_decide (b = [Z_byte 1]).
Definition read_option {A} (flag : list byte) (m : reader A) : reader (option A) :=
  if is_one flag then x ← m; mret (Some x) else mret None.

Fixpoint repeat_read {A} (n : nat) (m : reader A) : reader (list A) :=
  match n with
  | O => mret []
  | Datatypes.S n => x ← m; l ← repeat_read n m; mret (x :: l)
  end.

Definition proof_type_of (b : list byte) : outcome string ProofType :=
  if bool_decide (b = [Z_byte 0]) then Ok NonMembership
  else if bool_decide (b = [Z_byte 1]) then Ok Membership
  else Err "Invalid proof type".

Definition read_gas : reader GasFeeWitness :=
  _ ← need 48;
  a ← advance 16; b ← advance 16; c ← advance 16;
  mret {| total_gas_fee := be_Z a; miner_share := be_Z b; fullnode_share := be_Z c |}.

Definition read_entry : reader ExecutionWitnessEntry :=
  _ ← need 34;
  key ← advance 32;
  t ← advance 1;
  ptype ← lift (proof_type_of t);
  has_value ← advance 1;
  v ← read_option has_value read_bytes;
  p ← read_bytes;
  sibling_count ← read_u32;
  sibs ← repeat_read (Z.to_nat sibling_count) (read 32);
  r ← read 32;
  leaf_present ← read 1;
  leaf ← read_option leaf_present read_bytes;
  has_witness ← read 1;
  gas ← read_option has_witness read_gas;
  mret {| entry_key := to_bytes32 key; entry_value := v;
          entry_proof := {| proof_type := ptype; proof_path := p; siblings := to_bytes32 <$> sibs;
                            leaf_value := leaf; proof_root := to_bytes32 r; opening_proofs := [];
                            gas_fee_distribution := gas |} |}.

Definition deserialize_compact (bytes : list byte) : outcome string ExecutionWitness :=
  if Z.of_nat (length bytes) <? 36 then Err "Invalid witness serialization"
  else
    let read_witness : reader ExecutionWitness :=
      root ← advance 32;
      n ← advance 4;
      es ← repeat_read (Z.to_nat (be_Z n)) read_entry;
      mret {| witness_root := to_bytes32 root; entries := es |} in
    (read_witness bytes).1.
End witness.

(** ** The decoder inverts the encoder *)
Section roundtrip.
Context `{Blake3} `{Commitments}.

(** [m] consumes exactly [l] and gives [a]. *)
Definition reads {A} (m : method (list byte) string A) (l : list byte) (a : A) : Prop :=
  ∀ rest, m (l ++ rest) = (Ok a, rest).

Lemma reads_ret {A} (a : A) : reads (mret a) [] a.
Proof. done. Qed.
Lemma reads_bind {A B} (m : method (list byte) string A) (f : A → method (list byte) string B) l l' a b :
  reads m l a → reads (f a) l' b → reads (m ≫= f) (l ++ l') b.
Proof.
  intros Hm Hf rest. rewrite <- app_assoc. erewrite method_bind_run by apply Hm. apply Hf.
Qed.
Lemma reads_end {A B} (m : method (list byte) string A) (f : A → B) l a :
  reads m l a → reads (x ← m; mret (f x)) l (f a).
Proof. intros Hm. rewrite <- (app_nil_r l). by eapply reads_bind; [|apply reads_ret]. Qed.

Lemma reads_advance n l : Z.of_nat (length l) = n → reads (advance n) l l.
Proof.
  intros <- rest. unfold advance. rewrite Nat2Z.id. by rewrite take_app_length, drop_app_length.
Qed.
Lemma need_ok n s : n ≤ Z.of_nat (length s) → need n s = (Ok tt, s).
Proof.
  intros Hn. unfold need. erewrite method_bind_run by done. unfold lift. by rewrite (proj2 (Z.leb_le _ _) Hn).
Qed.
Lemma reads_read n l : Z.of_nat (length l) = n → reads (read n) l l.
Proof.
  intros Hl rest. unfold read. erewrite method_bind_run by (apply need_ok; rewrite length_app; lia).
  by apply reads_advance.
Qed.

Lemma reads_u32 z : fits 32 z → reads read_u32 (be_bytes 4 z) z.
Proof.
  intros Hz. unfold read_u32. pose proof (be_Z_be_bytes 4 z Hz) as E. rewrite <- E at 2.
  apply (reads_end _ be_Z). apply reads_read. by rewrite be_bytes_length.
Qed.

Definition short {A} (l : list A) : Prop := fits 32 (Z.of_nat (length l)).

Lemma reads_len {A} (l : list A) : short l → reads read_u32 (len_bytes l) (Z.of_nat (length l)).
Proof. intros Hl. unfold len_bytes. rewrite wrap_small by done. by apply reads_u32. Qed.

Lemma reads_bytes l : short l → reads read_bytes (put_bytes l) l.
Proof. intros Hl. eapply reads_bind; [by apply reads_len|]. by apply reads_read. Qed.

Lemma reads_option {A B} (k : method (list byte) string (list byte)) (m : method (list byte) string A) put
    (o : option A) (f : option A → method (list byte) string B) l b :
  (∀ x, reads k [x] [x]) → (∀ a, o = Some a → reads m (put a) a) → reads (f o) l b →
  reads (flag ← k; v ← read_option flag m; f v) (put_option put o ++ l) b.
Proof.
  intros Hk Hm Hf. destruct o as [a|]; cbn [put_option].
  - change ((Z_byte 1 :: put a) ++ l) with ([Z_byte 1] ++ (put a ++ l)). eapply reads_bind; [apply Hk|].
    eapply reads_bind; [|exact Hf]. unfold read_option, is_one. rewrite bool_decide_eq_true_2 by done.
    by apply reads_end, Hm.
  - eapply reads_bind; [apply Hk|]. unfold read_option, is_one. rewrite bool_decide_eq_false_2 by done. exact Hf.
Qed.

Lemma reads_repeat {A} (m : method (list byte) string A) (put : A → list byte) l :
  Forall (λ a, reads m (put a) a) l → reads (repeat_read (length l) m) (mjoin (put <$> l)) l.
Proof.
  induction 1 as [|a l Ha _ IH]; [apply reads_ret|]. cbn [length repeat_read].
  eapply reads_bind; [exact Ha|]. by apply reads_end.
Qed.

(** Lengths of 32 bits, fees of 128. *)
Definition short_option (o : option (list byte)) : Prop := ∀ l, o = Some l → short l.
Definition gas_witness_fits (w : GasFeeWitness) : Prop :=
  fits 128 (total_gas_fee w) ∧ fits 128 (miner_share w) ∧ fits 128 (fullnode_share w).
Record entry_fits (e : ExecutionWitnessEntry) : Prop := {
  ef_value : short_option (entry_value e);
  ef_path : short (proof_path (entry_proof e));
  ef_siblings : short (siblings (entry_proof e));
  ef_leaf : short_option (leaf_value (entry_proof e));
  ef_gas : ∀ w, gas_fee_distribution (entry_proof e) = Some w → gas_witness_fits w
}.

(** What the decoder makes of a proof: the other type, and no opening proofs. *)
Definition other_type (p : ProofType) : ProofType :=
  match p with Membership => NonMembership | NonMembership => Membership end.
Definition decoded_proof (p : VerkleProof) : VerkleProof :=
  {| proof_type := other_type (proof_type p); proof_path := proof_path p; siblings := siblings p;
     leaf_value := leaf_value p; proof_root := proof_root p; opening_proofs := [];
     gas_fee_distribution := gas_fee_distribution p |}.
Definition decoded_entry (e : ExecutionWitnessEntry) : ExecutionWitnessEntry :=
  {| entry_key := entry_key e; entry_value := entry_value e; entry_proof := decoded_proof (entry_proof e) |}.

Lemma reads_gas w : gas_witness_fits w → reads read_gas (put_gas w) w.
Proof.
  intros (Ha & Hb & Hc) rest. unfold read_gas, put_gas.
  erewrite method_bind_run by (apply need_ok; rewrite !length_app, !be_bytes_length; lia).
  rewrite <- !app_assoc.
  do 3 (erewrite method_bind_run by (apply reads_advance; by rewrite be_bytes_length)).
  rewrite !be_Z_be_bytes by done. by destruct w.
Qed.

Lemma reads_hash n h : n = 32 → reads (read n) (as_bytes h) (as_bytes h).
Proof. intros ->. apply reads_read. by rewrite as_bytes_length. Qed.

Lemma entry_length e : 34 ≤ Z.of_nat (length (serialize_entry e)).
Proof.
  unfold serialize_entry. rewrite !length_app, as_bytes_length. cbn [length].
  destruct (entry_value e); cbn [put_option length]; lia.
Qed.

Lemma reads_entry e : entry_fits e → reads read_entry (serialize_entry e) (decoded_entry e).
Proof.
  intros [Hv Hp Hs Hl Hg] rest. unfold read_entry.
  erewrite method_bind_run by (apply need_ok; rewrite length_app; pose proof (entry_length e); lia).
  revert rest.
  match goal with |- ∀ rest, ?m (?l ++ rest) = (Ok ?a, rest) => change (reads m l a) end.
  unfold serialize_entry.
  eapply reads_bind; [by apply reads_advance; rewrite as_bytes_length|].
  eapply reads_bind; [by apply reads_advance|].
  rewrite <- (app_nil_l (put_option put_bytes (entry_value e) ++ _)).
  eapply (reads_bind (lift _) _ [] _ (other_type (proof_type (entry_proof e)))).
  { intros r. unfold lift. by destruct (proof_type (entry_proof e)). }
  eapply reads_option; [intros; by apply reads_advance|intros; by apply reads_bytes, Hv|].
  eapply reads_bind; [by apply reads_bytes|].
  eapply reads_bind; [by apply reads_len|].
  rewrite Nat2Z.id. eapply (reads_bind _ _ _ _ (as_bytes <$> siblings (entry_proof e))).
  { rewrite <- (length_fmap as_bytes). rewrite <- (list_fmap_id (as_bytes <$> siblings (entry_proof e))) at 2.
    apply reads_repeat. apply Forall_fmap, Forall_forall. intros h _. by apply reads_hash. }
  eapply reads_bind; [by apply reads_hash|].
  eapply reads_option; [intros; by apply reads_read|intros; by apply reads_bytes, Hl|].
  rewrite <- (app_nil_r (put_option put_gas _)).
  eapply reads_option; [intros; by apply reads_read|intros; by apply reads_gas, Hg|].
  intros r. unfold mret, method_ret. do 2 f_equal. unfold decoded_entry, decoded_proof. f_equal.
  - apply to_bytes32_as_bytes.
  - f_equal; [|apply to_bytes32_as_bytes]. rewrite <- list_fmap_compose.
    rewrite <- (list_fmap_id (siblings (entry_proof e))) at 2. apply list_fmap_ext. intros i h _. apply to_bytes32_as_bytes.
Qed.

(** Decoding inverts encoding, whatever bytes follow, up to two losses: the opening
    proofs are not encoded, and the codes of the proof types are swapped. *)
Theorem witness_roundtrip (w : ExecutionWitness) (rest : list byte)
    (Hn : short (entries w)) (Hf : Forall entry_fits (entries w)) :
  deserialize_compact (serialize_compact w ++ rest)
  = Ok {| witness_root := witness_root w; entries := decoded_entry <$> entries w |}.
Proof.
  unfold deserialize_compact.
  assert (Hlen : 36 ≤ Z.of_nat (length (serialize_compact w ++ rest))).
  { unfold serialize_compact, len_bytes. rewrite !length_app, as_bytes_length, be_bytes_length. lia. }
  rewrite (proj2 (Z.ltb_ge _ _) Hlen).
  match goal with |- (?m _).1 = Ok ?a =>
    assert (Hr : reads m (serialize_compact w) a); [|by rewrite (Hr rest)] end.
  unfold serialize_compact. eapply reads_bind; [by apply reads_advance; rewrite as_bytes_length|].
  eapply reads_bind; [apply reads_advance; unfold len_bytes; by rewrite be_bytes_length|].
  unfold len_bytes. rewrite be_Z_be_bytes by (rewrite wrap_small by done; apply Hn).
  rewrite wrap_small, Nat2Z.id by done. rewrite to_bytes32_as_bytes.
  apply (reads_end _ (λ es, {| witness_root := witness_root w; entries := es |})).
  rewrite <- (length_fmap decoded_entry).
  assert (E : ∀ l, Forall entry_fits l →
    reads (repeat_read (length (decoded_entry <$> l)) read_entry) (mjoin (serialize_entry <$> l)) (decoded_entry <$> l)).
  { intros l Hl. induction Hl as [|e l He Hl IH]; [apply reads_ret|]. cbn [length fmap list_fmap repeat_read].
    eapply reads_bind; [by apply reads_entry|]. by apply reads_end. }
  by apply E.
Qed.

(** A witness whose proofs verified is rejected after a round trip: the decoded
    type contradicts the leaf, whatever tree verifies it. *)
Theorem decoded_proofs_rejected {S : Type} `{HS : Storage S} (t : VerkleTree (S := S)) (p : VerkleProof)
    (Hv : verify_proof t p = Ok true) : verify_proof t (decoded_proof p) = Ok false.
Proof.
  unfold verify_proof in *. cbn [decoded_proof proof_path siblings proof_type leaf_value].
  destruct (negb _); [done|]. destruct (negb _); [done|].
  destruct (proof_type p), (leaf_value p); cbn in *; done.
Qed.
End roundtrip.

(** ** Examples *)
Section examples.
#[local] Existing Instance toy_blake3.
#[local] Existing Instance toy_commitments.

Definition absent_proof : VerkleProof :=
  match (generate_proof (key_of [1]) empty_tree).1 with
  | Ok p => p
  | _ => {| proof_type := Membership; proof_path := []; siblings := []; leaf_value := None;
            proof_root := zero32; opening_proofs := []; gas_fee_distribution := None |}
  end.

Definition small_proof : VerkleProof :=
  {| proof_type := Membership; proof_path := [x01; x02]; siblings := [hash_of 4; hash_of 5];
     leaf_value := Some [x07]; proof_root := hash_of 6; opening_proofs := [];
     gas_fee_distribution := Some {| total_gas_fee := 10; miner_share := 8; fullnode_share := 2 |} |}.
Definition small_witness : ExecutionWitness :=
  {| witness_root := hash_of 6;
     entries := [{| entry_key := hash_of 7; entry_value := Some [x07]; entry_proof := small_proof |}] |}.

Lemma witness_roundtrip_witness :
  deserialize_compact (serialize_compact small_witness ++ [x00])
  = Ok {| witness_root := hash_of 6; entries := decoded_entry <$> entries small_witness |}.
Proof.
  apply (witness_roundtrip small_witness [x00]).
  - unfold short, fits. cbn. lia.
  - constructor; [|constructor]. split; unfold short_option, short, gas_witness_fits, fits; cbn.
    + intros l [= <-]. cbn. lia.
    + lia.
    + lia.
    + intros l [= <-]. cbn. lia.
    + intros w [= <-]. cbn. lia.
Defined.

Lemma decoded_proofs_rejected_witness : verify_proof empty_tree (decoded_proof absent_proof) = Ok false.
Proof. apply (decoded_proofs_rejected empty_tree absent_proof). vm_compute. reflexivity. Defined.
End examples.
