(* ===== verification/GroupExecution.v ===== *)
(** * Execution of the scheduled groups

    [scheduler/parallel.rs], [execute_groups] and [restore_from_checkpoint]: the
    groups are run one after the other on the state manager, each between a
    checkpoint and a check that the root changed. *)

From S2P Require Import Prelude Crypto Errors Transaction Economics Utxo Dag State VerkleTree VerkleProofs GasMeter Vm BlockValidation StateManager ChainProofs Scheduler.
From Stdlib Require Import Init.Byte.

Section execution.
Context `{Blake3} `{K256} `{Commitments} `{Wasm} {S : Type} `{Storage S}.

Abbreviation group_method := (method (Chain (S:=S)) StateManagerError).

Record ExecutionCheckpoint := {
  cp_height : Z;
  cp_total_supply : Z;
  gas_fees_len : nat;
  pending_updates_len : nat;
  utxo_snapshot : UtxoSet;
  tree_root_hash : option bytes32
}.

Definition take_checkpoint : group_method ExecutionCheckpoint :=
  r ← zoom manager set_manager
        (rethrow from_core (on_tree (catch get_root (λ r, mret (Some r)) (λ _, mret None))));
  c ← get;
  mret {| cp_height := current_height (manager c); cp_total_supply := current_total_supply (manager c);
          gas_fees_len := length (block_gas_fees (manager c));
          pending_updates_len := length (pending_updates (manager c));
          utxo_snapshot := coins c; tree_root_hash := r |}.

(** The tree, the keys and the markers stay as they are. *)
Definition restore_from_checkpoint (cp : ExecutionCheckpoint) (c : Chain (S:=S)) : Chain :=
  let m := manager c in
  {| manager := set_pending (take (pending_updates_len cp) (pending_updates m))
                  (set_gas_fees (take (gas_fees_len cp) (block_gas_fees m))
                    (set_supply (cp_total_supply cp) (set_height (cp_height cp) m)));
     coins := utxo_snapshot cp |}.

(** The transactions of a group, with undo data that is thrown away: whether one
    failed. *)
Definition run_transactions (group : list ScheduledTransaction) : group_method bool := λ c,
  match for_each apply_transaction (tx <$> group) {| ap_chain := c; ap_undo := BlockUndo_new |} with
  | (Ok _, a) => (Ok false, ap_chain a)
  | (Err _, a) => (Ok true, ap_chain a)
  | (Panic p, a) => (Panic p, ap_chain a)
  end.

Definition execute_group (group : list ScheduledTransaction) : group_method unit :=
  group_checkpoint ← take_checkpoint;
  execution_failed ← run_transactions group;
  match execution_failed with
  | true =>
      _ ← modify (restore_from_checkpoint group_checkpoint);
      throw (ApplyBlockFailed "Group {} transaction execution failed, state rolled back")
  | false =>
      post_group_root ← rethrow (λ _, SmCryptographicError "Failed to get root after group {}: {}")
                          (zoom manager set_manager (on_tree get_root));
      if bool_decide (tree_root_hash group_checkpoint = Some post_group_root)
      then
        _ ← modify (restore_from_checkpoint group_checkpoint);
        throw (ApplyBlockFailed "Group {} execution resulted in no state change")
      else mret tt
  end.

Definition execute_groups (groups : list (list ScheduledTransaction)) : group_method unit :=
  match detect_group_conflicts groups with
  | Some _ => throw (ApplyBlockFailed "Conflict detected between groups: {:?}")
  | None =>
      _ ← take_checkpoint;
      for_each execute_group groups
  end.
End execution.

(** ** What the execution achieves *)
Section theorems.
Context `{Blake3} `{K256} `{Commitments} `{Wasm} {S : Type} `{HS : Storage S} `{!StorageLaws S}.
Implicit Types (c : Chain (S:=S)) (a : Applying (S:=S)) (t : VerkleTree (S:=S)).

Definition plain (t : Transaction) : Prop := execution_payload t = [] ∧ contract_address t = None.

(** Plain transactions only queue their updates: the tree is not touched. *)
Lemma plain_keeps_tree t0 x : plain x → preserves (λ a, tree (manager (ap_chain a)) = t0) (apply_transaction x).
Proof.
  intros [Hp Hc]. unfold apply_transaction. rewrite !bool_decide_eq_true_2 by done. cbn [andb].
  unfold apply_utxo_transaction, spend_utxo. keeps.
Qed.

Lemma checkpoint_run c :
  tree_wf (tree (manager c)) →
  ∃ t, same_tree (tree (manager c)) t ∧ tree_wf t
  ∧ take_checkpoint c
    = match scratch_root (tree (manager c)) with
      | Panic p => (Panic p, set_manager (set_tree t (manager c)) c)
      | r => (Ok {| cp_height := current_height (manager c); cp_total_supply := current_total_supply (manager c);
                    gas_fees_len := length (block_gas_fees (manager c));
                    pending_updates_len := length (pending_updates (manager c)); utxo_snapshot := coins c;
                    tree_root_hash := match r with Ok root => Some root | _ => None end |},
              set_manager (set_tree t (manager c)) c)
      end.
Proof.
  intros Ht. destruct (get_root_wf _ Ht) as (t & E & Hs & Ht'). exists t. split; [done|]. split; [done|].
  unfold take_checkpoint. destruct (scratch_root (tree (manager c))) as [root|e|p] eqn:Er.
  1,2: erewrite method_bind_run by (unfold zoom, rethrow, on_tree, catch; unfold zoom; rewrite E; reflexivity); done.
  by erewrite method_bind_unwind by (unfold zoom, rethrow, on_tree, catch; unfold zoom; rewrite E; reflexivity).
Qed.

Lemma root_computed t : tree_wf t → is_ok (get_root t).1 = true → ∃ root, scratch_root t = Ok root.
Proof.
  intros Ht. destruct (get_root_wf _ Ht) as (t' & E & _). rewrite E. cbn [fst].
  destruct (scratch_root t) as [root|e|p]; [by exists root|done..].
Qed.

(** No group of plain transactions is ever executed: their updates stay pending, so
    the root after the group is the root before it and the group is refused.  The
    refusal gives back the coins, the height and the supply. *)
Theorem plain_group_never_executes group c
    (Ht : tree_wf (tree (manager c))) (Hp : Forall (λ s, plain (tx s)) group) :
  match execute_group group c with
  | (Ok _, _) => False
  | (Err _, c') =>
      (∃ root, scratch_root (tree (manager c)) = Ok root) →
      coins c' = coins c ∧ current_height (manager c') = current_height (manager c)
      ∧ current_total_supply (manager c') = current_total_supply (manager c)
  | (Panic _, _) => True
  end.
Proof.
  destruct (checkpoint_run c Ht) as (t & Hs & Ht' & Ec). unfold execute_group.
  set (c1 := set_manager (set_tree t (manager c)) c) in *.
  assert (Hsr : scratch_root t = scratch_root (tree (manager c)))
    by first [by apply same_tree_root | symmetry; by apply same_tree_root].
  destruct (scratch_root (tree (manager c))) as [root|e|p].
  3:{ by erewrite method_bind_unwind by exact Ec. }
  all: erewrite method_bind_run by exact Ec; unfold run_transactions.
  all: assert (Hk : preserves (λ a, tree (manager (ap_chain a)) = t) (for_each apply_transaction (tx <$> group))).
  1,3: clear -Hp; induction Hp as [|s l Hs Hl IH]; [apply preserves_ret|];
    cbn [for_each fmap list_fmap]; apply preserves_bind; [by apply plain_keeps_tree|intros; apply IH].
  all: specialize (Hk {| ap_chain := c1; ap_undo := BlockUndo_new |} eq_refl);
    destruct (for_each apply_transaction (tx <$> group) {| ap_chain := c1; ap_undo := BlockUndo_new |})
      as [[[]|x|x] a] eqn:Ef; cbn [snd] in Hk.
  all: try (erewrite method_bind_run by (by rewrite Ef)); try (by erewrite method_bind_unwind by (by rewrite Ef)).
  all: cbv beta iota.
  2,4: erewrite method_bind_run by done; by cbn.
  all: assert (Hwf : tree_wf (tree (manager (ap_chain a)))) by by rewrite Hk.
  all: destruct (get_root_wf _ Hwf) as (t2 & Eg & _); rewrite Hk, Hsr in Eg.
  - erewrite method_bind_run by (unfold rethrow, zoom, on_tree; unfold zoom; rewrite Hk, Eg; reflexivity).
    cbn [tree_root_hash]. rewrite bool_decide_eq_true_2 by done. erewrite method_bind_run by done. by cbn.
  - erewrite method_bind_stop by (unfold rethrow, zoom, on_tree; unfold zoom; rewrite Hk, Eg; reflexivity).
    intros [root Hr]. discriminate.
Qed.
End theorems.

(** ** Example: a group that mints a coin is refused, though its only transaction
    applies. *)
Section examples.
#[local] Existing Instance toy_blake3.
#[local] Existing Instance toy_k256.
#[local] Existing Instance toy_commitments.
#[local] Existing Instance toy_wasm.

Lemma start_root : ∃ root, scratch_root (tree (manager start_chain)) = Ok root.
Proof. apply (root_computed _ start_tree). vm_compute. reflexivity. Qed.
Definition mint_group : list ScheduledTransaction := prepare [mint_tx].
Lemma mint_group_plain : Forall (λ s, plain (tx s)) mint_group.
Proof. constructor; [by split|constructor]. Qed.
Lemma mint_group_refused :
  (execute_group mint_group start_chain).1
  = Err (ApplyBlockFailed "Group {} execution resulted in no state change").
Proof. vm_compute. reflexivity. Qed.

Lemma plain_group_never_executes_witness :
  ∃ c', execute_group mint_group start_chain
        = (Err (ApplyBlockFailed "Group {} execution resulted in no state change"), c')
  ∧ coins c' = coins start_chain.
Proof.
  pose proof (plain_group_never_executes mint_group start_chain start_tree mint_group_plain) as H.
  rewrite (run_fst _ _ mint_group_refused) in H. eexists. split; [exact (run_fst _ _ mint_group_refused)|].
  exact (proj1 (H start_root)).
Defined.
End examples.
