(* ===== verification/NodePrelude.v ===== *)
(** * What the node's mempool modules share

    The [bincode] encoding of a hash, which the modules of klomang-node use as a
    transaction key, and the printed forms of outpoints: hexadecimal bytes and
    decimal indices. *)

From Stdlib Require Import Init.Byte Strings.Ascii.
From stdpp Require Import pretty.
From S2P Require Import Prelude Crypto.

(** [bincode::serialize] of a [Hash]: a fixed-size array is encoded, and encodings
    are injective. *)
Class Bincode := bincode_hash : Hash → option (list byte).
Class BincodeLaws `{Bincode} := {
  bincode_total h : ∃ b, bincode_hash h = Some b;
  bincode_inj h h' b : bincode_hash h = Some b → bincode_hash h' = Some b → h = h';
  bincode_nonempty h b : bincode_hash h = Some b → b ≠ []
}.

(** The encoding, once it is known not to fail. *)
Section bincode.
Context `{BincodeLaws}.
Definition hash_bytes (h : Hash) : list byte := default [] (bincode_hash h).
Lemma hash_bytes_spec h : bincode_hash h = Some (hash_bytes h).
Proof. unfold hash_bytes. by destruct (bincode_total h) as [b ->]. Qed.
Lemma hash_bytes_inj h h' : hash_bytes h = hash_bytes h' → h = h'.
Proof. intros E. eapply bincode_inj; [apply hash_bytes_spec|]. rewrite E. apply hash_bytes_spec. Qed.
End bincode.

(** The encoding of bincode 1: the 32 bytes. *)
Definition plain_bincode : Bincode := λ h, Some (as_bytes h).
Lemma plain_bincode_laws : @BincodeLaws plain_bincode.
Proof.
  split; unfold bincode_hash, plain_bincode.
  - eauto.
  - intros h h' b [= <-] [= E]. by apply as_bytes_inj.
  - intros h b [= <-] E. by apply (f_equal length) in E; rewrite as_bytes_length in E.
Qed.

(** [format!("{:02x}", byte)] for each byte *)
Definition hex_digit (d : Z) : ascii :=
  ascii_of_N (Z.to_N (if d <? 10 then 48 + d else 87 + d)).
Fixpoint hex_encode (l : list byte) : string :=
  match l with
  | [] => ""
  | b :: l => String (hex_digit (byte_Z b / 16)) (String (hex_digit (byte_Z b mod 16)) (hex_encode l))
  end.

Lemma hex_digit_range d : 0 ≤ d < 16 →
  N_of_ascii (hex_digit d) = Z.to_N (if d <? 10 then 48 + d else 87 + d).
Proof. intros Hd. unfold hex_digit. rewrite N_ascii_embedding; [done|]. destruct (d <? 10) eqn:E; lia. Qed.
Lemma hex_digit_inj d e : 0 ≤ d < 16 → 0 ≤ e < 16 → hex_digit d = hex_digit e → d = e.
Proof.
  intros Hd He E%(f_equal N_of_ascii). rewrite !hex_digit_range in E by done.
  destruct (d <? 10) eqn:E1, (e <? 10) eqn:E2; lia.
Qed.
Lemma hex_digit_no_colon d : 0 ≤ d < 16 → hex_digit d ≠ ":"%char.
Proof.
  intros Hd E%(f_equal N_of_ascii). rewrite hex_digit_range in E by done. cbn in E.
  destruct (d <? 10) eqn:E1; lia.
Qed.

Lemma nibbles b : 0 ≤ byte_Z b / 16 < 16 ∧ 0 ≤ byte_Z b mod 16 < 16.
Proof.
  pose proof (byte_Z_bound b). split; [|apply Z.mod_pos_bound; lia].
  split; [apply Z.div_pos; lia|]. apply Z.div_lt_upper_bound; lia.
Qed.

(** A printed list of bytes ends where the colon starts. *)
Lemma hex_colon_inj l l' s s' :
  String.append (hex_encode l) (String ":" s) = String.append (hex_encode l') (String ":" s') → l = l' ∧ s = s'.
Proof.
  revert l'; induction l as [|b l IH]; intros [|b' l']; cbn.
  - by intros [= ->].
  - intros [= E _]. destruct (nibbles b') as [Hn _]. by apply hex_digit_no_colon in Hn.
  - intros [= E _]. destruct (nibbles b) as [Hn _]. by apply hex_digit_no_colon in Hn.
  - intros [= E1 E2 E]. destruct (nibbles b), (nibbles b').
    apply hex_digit_inj in E1; [|done..]. apply hex_digit_inj in E2; [|done..].
    apply IH in E as [-> ->]. split; [|done]. f_equal. apply byte_Z_inj.
    rewrite (Z.div_mod (byte_Z b) 16), (Z.div_mod (byte_Z b') 16) by done. congruence.
Qed.

(** [format!("{}:{}", hex, index)] *)
Definition hex_index (l : list byte) (i : Z) : string :=
  String.append (hex_encode l) (String ":" (pretty i)).
Lemma hex_index_inj l l' i i' : hex_index l i = hex_index l' i' → l = l' ∧ i = i'.
Proof. intros [-> E]%hex_colon_inj. split; [done|]. by apply pretty_Z_inj. Qed.

(** A fallible pure step of a method. *)
Lemma preserves_lift_bind {S E A B} (P : S → Prop) (m : outcome E A) (f : A → method S E B) :
  (∀ a, m = Ok a → preserves P (f a)) → preserves P (lift m ≫= f).
Proof. intros Hf s Hs. unfold lift, mbind, method_bind. destruct m as [a|e|p]; [by apply Hf|done|done]. Qed.

(** ** Breadth-first search

    [while let Some(current) = queue.pop_front()] over the children of the popped
    node, those not seen yet being marked, recorded and pushed at the back. *)
Section bfs.
Context {A : Type} `{Countable A} (succ : A → list A).

Definition enqueue (st : list A * gset A * list A) (child : A) : list A * gset A * list A :=
  let '(queue, visited, found) := st in
  if bool_decide (child ∈ visited) then st
  else (queue ++ [child], {[ child ]} ∪ visited, found ++ [child]).

Fixpoint bfs (fuel : nat) (st : list A * gset A * list A) : list A * gset A * list A :=
  match fuel with
  | O => st
  | S fuel =>
      let '(queue, visited, found) := st in
      match queue with
      | [] => st
      | current :: queue => bfs fuel (foldl enqueue (queue, visited, found) (succ current))
      end
  end.

Abbreviation edge := (λ a b, b ∈ succ a).

(** One step records the unseen children. *)
Lemma enqueue_all l queue visited found :
  ∃ news, NoDup news ∧ (∀ x, x ∈ news ↔ x ∈ l ∧ x ∉ visited)
  ∧ foldl enqueue (queue, visited, found) l = (queue ++ news, list_to_set news ∪ visited, found ++ news).
Proof.
  revert queue visited found; induction l as [|x l IH]; intros queue visited found; cbn [foldl enqueue].
  { exists []. split; [constructor|]. split; [set_solver|]. cbn.
    by rewrite !app_nil_r, (left_id_L ∅ (∪)). }
  case_bool_decide as Hx.
  - destruct (IH queue visited found) as (news & Hn & Hin & ->). exists news. split; [done|].
    split; [|done]. intros y. rewrite Hin, elem_of_cons. naive_solver.
  - destruct (IH (queue ++ [x]) ({[x]} ∪ visited) (found ++ [x])) as (news & Hn & Hin & ->).
    exists (x :: news). split; [|split].
    + constructor; [|done]. rewrite Hin. set_solver.
    + intros y. rewrite !elem_of_cons, Hin, elem_of_union, elem_of_singleton.
      destruct (decide (y = x)) as [->|]; naive_solver.
    + rewrite <- !(assoc_L (++)). cbn. do 2 f_equal. set_solver.
Qed.

(** What has been seen: the root and what was recorded, all reachable, and every
    child of a node that has left the queue. *)
Record searching (root : A) (queue : list A) (visited : gset A) (found : list A) : Prop := {
  se_nodup : NoDup found;
  se_root : root ∉ found;
  se_visited : visited = {[ root ]} ∪ list_to_set found;
  se_queue : ∀ c, c ∈ queue → c ∈ visited;
  se_reach : ∀ c, c ∈ visited → rtc edge root c;
  se_closed : ∀ c y, c ∈ visited → c ∉ queue → edge c y → y ∈ visited
}.

Lemma searching_step root c queue visited found news :
  searching root (c :: queue) visited found → NoDup news →
  (∀ x, x ∈ news ↔ x ∈ succ c ∧ x ∉ visited) →
  searching root (queue ++ news) (list_to_set news ∪ visited) (found ++ news).
Proof.
  intros [Hnd Hr Hv Hq Hre Hc] Hn Hin. split.
  - apply NoDup_app. split; [done|]. split; [|done]. intros x Hx [_ Hx']%Hin. set_solver.
  - rewrite elem_of_app. intros [?|[_ Hx]%Hin]; [done|set_solver].
  - rewrite list_to_set_app_L. set_solver.
  - intros x. rewrite elem_of_app, elem_of_union, elem_of_list_to_set. intros [Hx|Hx]; [right|by left].
    apply Hq. by right.
  - intros x [[Hx _]%elem_of_list_to_set%Hin|Hx]%elem_of_union; [|by apply Hre].
    eapply rtc_r; [|exact Hx]. apply Hre, Hq. by left.
  - intros x y Hx Hxq Hxy. rewrite elem_of_app in Hxq.
    apply elem_of_union in Hx as [?%elem_of_list_to_set|Hx]; [tauto|].
    rewrite elem_of_union, elem_of_list_to_set. destruct (decide (x = c)) as [->|Hne].
    + destruct (decide (y ∈ visited)); [by right|left]. by apply Hin.
    + right. eapply (Hc x); [done| |done]. rewrite elem_of_cons. tauto.
Qed.

Lemma bfs_run (U : gset A) root fuel queue visited found :
  (∀ c y, edge c y → y ∈ U) → (length queue + size (U ∖ visited) ≤ fuel)%nat →
  searching root queue visited found →
  let '(_, _, r) := bfs fuel (queue, visited, found) in
  NoDup r ∧ ∀ x, x ∈ r ↔ x ≠ root ∧ rtc edge root x.
Proof.
  intros HU. revert queue visited found; induction fuel as [|fuel IH]; intros queue visited found Hf Hs; cbn [bfs].
  all: assert (Hend : queue = [] → NoDup found ∧ ∀ x, x ∈ found ↔ x ≠ root ∧ rtc edge root x).
  1,3: destruct Hs as [Hnd Hr Hv Hq Hre Hc]; intros ->; split; [done|]; intros x;
    split; [intros Hx; split; [congruence|apply Hre; set_solver]|];
    intros [Hne Hx]; enough (x ∈ visited) by set_solver; clear Hne;
    assert (Hrv : root ∈ visited) by set_solver; clear -Hx Hrv Hc;
    induction Hx as [|b c d Hbc _ IH]; [done|]; apply IH; eapply Hc; [done|set_solver|done].
  { apply Hend. destruct queue; [done|cbn in Hf; lia]. }
  destruct queue as [|c queue]; [by apply Hend|]. clear Hend.
  destruct (enqueue_all (succ c) queue visited found) as (news & Hn & Hin & ->).
  apply IH; [|by eapply searching_step].
  assert (Hsub : (list_to_set news : gset A) ⊆ U ∖ visited).
  { intros y [Hy Hyv]%elem_of_list_to_set%Hin. apply elem_of_difference. split; [by apply (HU c)|done]. }
  replace (U ∖ (list_to_set news ∪ visited)) with ((U ∖ visited) ∖ list_to_set news) by set_solver.
  rewrite size_difference by done. apply subseteq_size in Hsub. rewrite size_list_to_set in * by done.
  rewrite length_app. cbn in Hf. lia.
Qed.

(** A search from [root] with one step per possible target finds exactly what is
    reachable from it, once. *)
Lemma bfs_spec (U : gset A) root fuel :
  (∀ c y, edge c y → y ∈ U) → (size U < fuel)%nat →
  let '(_, _, r) := bfs fuel ([root], {[ root ]}, []) in
  NoDup r ∧ ∀ x, x ∈ r ↔ x ≠ root ∧ rtc edge root x.
Proof.
  intros HU Hf. apply (bfs_run U); [done| |].
  - cbn. pose proof (subseteq_size (U ∖ {[ root ]}) U ltac:(set_solver)). lia.
  - split; [constructor|set_solver|set_solver|set_solver| |].
    + intros c ->%elem_of_singleton. constructor.
    + intros c y ->%elem_of_singleton Hn. set_solver.
Qed.
(** The queue is empty when every possible target has been seen. *)
Lemma bfs_drains (U : gset A) fuel queue visited found :
  (∀ c y, y ∈ succ c → y ∈ U) → (length queue + size (U ∖ visited) ≤ fuel)%nat →
  (bfs fuel (queue, visited, found)).1.1 = [].
Proof.
  intros HU. revert queue visited found; induction fuel as [|fuel IH]; intros queue visited found Hf; cbn [bfs].
  { destruct queue; [done|cbn in Hf; lia]. }
  destruct queue as [|c queue]; [done|].
  destruct (enqueue_all (succ c) queue visited found) as (news & Hn & Hin & ->). apply IH.
  assert (Hsub : (list_to_set news : gset A) ⊆ U ∖ visited).
  { intros y [Hy Hyv]%elem_of_list_to_set%Hin. apply elem_of_difference. split; [by apply (HU c)|done]. }
  replace (U ∖ (list_to_set news ∪ visited)) with ((U ∖ visited) ∖ list_to_set news) by set_solver.
  rewrite size_difference by done. apply subseteq_size in Hsub. rewrite size_list_to_set in * by done.
  rewrite length_app. cbn in Hf. lia.
Qed.
End bfs.

Lemma bfs_ext {A} `{Countable A} (succ succ' : A → list A) fuel st :
  (∀ x, succ x = succ' x) → bfs succ fuel st = bfs succ' fuel st.
Proof.
  intros Hs. revert st; induction fuel as [|fuel IH]; intros [[queue visited] found]; cbn; [done|].
  destruct queue as [|x queue]; [done|]. by rewrite Hs.
Qed.

Lemma filter_all {A} (P : A → Prop) `{∀ x, Decision (P x)} (l : list A) : (∀ x, x ∈ l → P x) → filter P l = l.
Proof.
  induction l as [|x l IH]; intros HP; [done|]. rewrite filter_cons_True by (apply HP; left).
  f_equal. apply IH. intros y Hy. apply HP. by right.
Qed.

(** ** Depth-first search

    [while let Some(current) = stack.pop()]: a node that was seen is skipped, the
    children of a new one are recorded and pushed.  The top of the stack is the head
    of the list. *)
Section dfs.
Context {A : Type} `{Countable A}.

Fixpoint dfs (succ : A → list A) (fuel : nat) (st : list A * gset A * list A) : list A * gset A * list A :=
  match fuel with
  | O => st
  | S fuel =>
      let '(stack, visited, found) := st in
      match stack with
      | [] => st
      | current :: stack =>
          if bool_decide (current ∈ visited) then dfs succ fuel (stack, visited, found)
          else dfs succ fuel (reverse (succ current) ++ stack, {[ current ]} ∪ visited, found ++ succ current)
      end
  end.

(** The search of a graph given by lists of children. *)
Definition succ_in (g : gmap A (list A)) (h : A) : list A := default [] (g !! h).
Definition out_edges (g : gmap A (list A)) : nat := Z.to_nat (msum (λ cs, Z.of_nat (length cs)) g).

Section run.
Context (g : gmap A (list A)).
Abbreviation edge := (λ a b, b ∈ succ_in g a).
Abbreviation todo visited := (filter (λ kv : A * list A, kv.1 ∉ visited) g).

Lemma out_edges_nonneg (g' : gmap A (list A)) : 0 ≤ msum (λ cs : list A, Z.of_nat (length cs)) g'.
Proof. apply msum_nonneg. intros. lia. Qed.

Lemma todo_visit c (visited : gset A) : c ∉ visited →
  (out_edges (todo ({[ c ]} ∪ visited)) + length (succ_in g c) = out_edges (todo visited))%nat.
Proof.
  intros Hc. unfold out_edges, succ_in. destruct (g !! c) as [cs|] eqn:Ec.
  - assert (E : todo ({[ c ]} ∪ visited) = delete c (todo visited)).
    { apply map_eq. intros k. rewrite lookup_delete. case_decide as Hk; [subst k|].
      - apply map_lookup_filter_None. right. intros ? _. set_solver.
      - apply option_eq. intros v. rewrite !map_lookup_filter_Some. cbn. set_solver. }
    rewrite E, (msum_delete _ _ _ cs); [|by apply map_lookup_filter_Some].
    pose proof (out_edges_nonneg (delete c (todo visited))) as Hn.
    rewrite (msum_delete _ _ _ cs) in Hn; [|by apply map_lookup_filter_Some]. cbn. lia.
  - replace (todo ({[ c ]} ∪ visited)) with (todo visited); [cbn; lia|].
    apply map_filter_ext. intros k v Hk. cbn. split; [|set_solver]. intros Hkv. assert (k ≠ c) by congruence. set_solver.
Qed.

Record descending (root : A) (stack : list A) (visited : gset A) (found : list A) : Prop := {
  de_found : ∀ x, x ∈ found ↔ ∃ y, y ∈ visited ∧ edge y x;
  de_pending : ∀ x, x ∈ stack ∨ x ∈ visited → rtc edge root x;
  de_closed : ∀ y x, y ∈ visited → edge y x → x ∈ visited ∨ x ∈ stack;
  de_root : root ∈ visited ∨ root ∈ stack
}.

Lemma dfs_run root fuel stack visited found :
  (length stack + out_edges (todo visited) ≤ fuel)%nat →
  descending root stack visited found →
  let st := dfs (succ_in g) fuel (stack, visited, found) in st.1.1 = [] ∧ descending root [] st.1.2 st.2.
Proof.
  revert stack visited found; induction fuel as [|fuel IH]; intros [|c stack] visited found Hf Hd;
    cbn [dfs]; [done|cbn in Hf; lia|done|]. destruct Hd as [Hfo Hp Hcl Hr].
  case_bool_decide as Hc.
  - apply IH; [cbn in Hf; lia|]. split; [done| | |].
    + intros x Hx. apply Hp. rewrite elem_of_cons. tauto.
    + intros y x Hy Hx. destruct (Hcl y x Hy Hx) as [?|[->|?]%elem_of_cons]; auto.
    + destruct Hr as [?|[->|?]%elem_of_cons]; auto.
  - apply IH.
    + pose proof (todo_visit c visited Hc). rewrite length_app, length_reverse. cbn in Hf. lia.
    + assert (Hrc : rtc edge root c) by (apply Hp; left; left). split.
      * intros x. rewrite elem_of_app, Hfo. split.
        { intros [(y & Hy & Hx)|Hx]; [exists y|exists c]; set_solver. }
        intros (y & [->%elem_of_singleton|Hy]%elem_of_union & Hx); eauto.
      * intros x. rewrite elem_of_app, elem_of_reverse, elem_of_union, elem_of_singleton.
        intros [[Hx|Hx]|[->|Hx]]; [by eapply rtc_r| |done|]; apply Hp; rewrite elem_of_cons; tauto.
      * intros y x Hy Hx. rewrite elem_of_app, elem_of_reverse.
        apply elem_of_union in Hy as [->%elem_of_singleton|Hy]; [tauto|].
        destruct (Hcl y x Hy Hx) as [?|[->|?]%elem_of_cons]; [left; set_solver|left; set_solver|tauto].
      * rewrite elem_of_app. destruct Hr as [?|[->|?]%elem_of_cons]; [left; set_solver|left; set_solver|tauto].
Qed.

(** The search from [root] ends and records exactly what is below it. *)
Lemma dfs_spec root : let st := dfs (succ_in g) (S (out_edges g)) ([root], ∅, []) in
  st.1.1 = [] ∧ ∀ x, x ∈ st.2 ↔ tc edge root x.
Proof.
  destruct (dfs_run root (S (out_edges g)) [root] ∅ []) as (E & [Hfo Hp Hcl Hr]).
  - cbn. replace (todo (∅ : gset A)) with g; [lia|]. symmetry. apply map_filter_id. cbn. set_solver.
  - split; [set_solver| |set_solver|right; left].
    intros x [->%list_elem_of_singleton|?]; [constructor|set_solver].
  - cbn zeta. split; [exact E|]. set (visited := _.1.2) in *. set (found := _.2) in *. clearbody visited found. intros x. rewrite Hfo. split.
    + intros (y & Hy & Hx). eapply tc_rtc_l; [apply Hp; by right|by apply tc_once].
    + intros (y & Hy & Hx)%tc_rtc_split. exists y. split; [|done].
      assert (Hv : root ∈ visited) by (by destruct Hr as [?|?%not_elem_of_nil]).
      clear -Hy Hv Hcl. induction Hy as [|a b c Hab _ IH]; [done|]. apply IH.
      by destruct (Hcl _ _ Hv Hab) as [?|?%not_elem_of_nil].
Qed.
End run.
End dfs.

(** Wrapping sums. *)
Lemma wrap_mod w a b : wrap w (wrap w a + b) = wrap w (a + b).
Proof. apply Zplus_mod_idemp_l. Qed.
Lemma wadd_wrap w a b : wadd w (wrap w a) b = wrap w (a + b).
Proof. apply wrap_mod. Qed.
Lemma wsub_wrap w a b : wsub w (wrap w a) b = wrap w (a - b).
Proof. apply (wrap_mod w a (- b)). Qed.

(** ** Components

    The reflexive, symmetric and transitive closure of a relation. *)
Lemma rtsc_ext {A} (R R' : relation A) a b : (∀ x y, R x y ↔ R' x y) → rtsc R a b ↔ rtsc R' a b.
Proof. intros H. split; apply rtc_subrel; intros x y; unfold sc; rewrite !H; done. Qed.

(** One more edge joins two components. *)
Lemma rtsc_add_edge {A} (R : relation A) c p a b :
  rtsc (λ x y, R x y ∨ (x = c ∧ y = p)) a b
  ↔ rtsc R a b ∨ (rtsc R a c ∧ rtsc R p b) ∨ (rtsc R a p ∧ rtsc R c b).
Proof.
  split.
  - induction 1 as [a|a x b Hax _ IH]; [left; constructor|].
    destruct Hax as [[Hax|[-> ->]]|[Hax|[-> ->]]].
    1: apply rtsc_lr in Hax. 3: apply rtsc_rl in Hax.
    1,3: destruct IH as [IH|[[IH1 IH2]|[IH1 IH2]]]; [left; by etrans|right; left; split; [by etrans|done]
                                                |right; right; split; [by etrans|done]].
    all: assert (Hr : ∀ x, rtsc R x x) by (by intros; constructor).
    all: pose proof (Hr c); pose proof (Hr p); destruct IH as [IH|[[IH1 IH2]|[IH1 IH2]]]; tauto.
  - assert (Hm : ∀ x y, rtsc R x y → rtsc (λ x y, R x y ∨ (x = c ∧ y = p)) x y)
      by (intros x y; apply rtc_subrel; unfold sc; naive_solver).
    assert (He : rtsc (λ x y, R x y ∨ (x = c ∧ y = p)) c p) by (apply rtsc_lr; auto).
    intros [H|[[H1 H2]|[H1 H2]]]; [by apply Hm|..]; apply Hm in H1, H2.
    + etrans; [exact H1|]. by etrans.
    + etrans; [exact H1|]. etrans; [symmetry; exact He|done].
Qed.
