(* ===== verification/PinnedVerkle.v ===== *)
(** * The Verkle tree of the crypto module

    [crypto/verkle/verkle_tree.rs]: a second 256-ary tree over the same storage and
    commitment scheme as the state tree of [VerkleTree.v].  It differs in what a
    pruning does: the commitments of the pruned path are recorded and stand for the
    nodes, so that the root survives; inner nodes are never removed; and an insertion
    lifts the mark of its key.  A cache entry is marked dirty instead of removed. *)

From Stdlib Require Import Init.Byte Strings.Ascii Strings.String.
From stdpp Require Import pretty.
From S2P Require Import Prelude Crypto Errors Transaction Economics Utxo State VerkleTree VerkleProofs NodePrelude.

(** [.expect(msg)] *)
Definition expect {A} (msg : string) (m : outcome string A) : outcome CoreError A :=
  match m with Ok a => Ok a | Err _ => Panic msg | Panic s => Panic s end.

(** The key of a coin: [address:vout:VALUE], in bytes. *)
Definition coin_path (outpoint : OutPoint) (o : TxOutput) : list byte :=
  String.list_byte_of_string
    (String.append (hex_index (as_bytes (pubkey_hash o)) (outpoint.2)) ":VALUE").

Section pinned.
Context `{Blake3} `{Commitments} {S : Type} `{Storage S}.

Record CachedNode := { node_commitment_cached : option Commitment; node_dirty : bool }.

Record PinnedTree := {
  pt_storage : S;
  pt_commitment_cache : gmap path CachedNode;
  pt_empty_subtree_roots : list bytes32;
  pt_empty_subtree_scalars : list ScalarField;
  pt_root_cache : option bytes32;
  pt_pruned_keys : gset path;
  pruned_commitments : gmap path Commitment;
  cache_hits : Z;
  cache_misses : Z
}.

Record PinnedProof := {
  pp_type : ProofType;
  pp_path : path;
  pp_siblings : list bytes32;
  pp_leaf_value : option (list byte);
  pp_root : bytes32;
  pp_opening_proofs : list OpeningProof
}.

Definition put_storage (s : S) (t : PinnedTree) : PinnedTree :=
  {| pt_storage := s; pt_commitment_cache := pt_commitment_cache t;
     pt_empty_subtree_roots := pt_empty_subtree_roots t;
     pt_empty_subtree_scalars := pt_empty_subtree_scalars t; pt_root_cache := pt_root_cache t;
     pt_pruned_keys := pt_pruned_keys t; pruned_commitments := pruned_commitments t;
     cache_hits := cache_hits t; cache_misses := cache_misses t |}.
Definition put_cache (c : gmap path CachedNode) (t : PinnedTree) : PinnedTree :=
  {| pt_storage := pt_storage t; pt_commitment_cache := c;
     pt_empty_subtree_roots := pt_empty_subtree_roots t;
     pt_empty_subtree_scalars := pt_empty_subtree_scalars t; pt_root_cache := pt_root_cache t;
     pt_pruned_keys := pt_pruned_keys t; pruned_commitments := pruned_commitments t;
     cache_hits := cache_hits t; cache_misses := cache_misses t |}.
Definition put_root_cache (r : option bytes32) (t : PinnedTree) : PinnedTree :=
  {| pt_storage := pt_storage t; pt_commitment_cache := pt_commitment_cache t;
     pt_empty_subtree_roots := pt_empty_subtree_roots t;
     pt_empty_subtree_scalars := pt_empty_subtree_scalars t; pt_root_cache := r;
     pt_pruned_keys := pt_pruned_keys t; pruned_commitments := pruned_commitments t;
     cache_hits := cache_hits t; cache_misses := cache_misses t |}.
Definition put_pruned_keys (k : gset path) (t : PinnedTree) : PinnedTree :=
  {| pt_storage := pt_storage t; pt_commitment_cache := pt_commitment_cache t;
     pt_empty_subtree_roots := pt_empty_subtree_roots t;
     pt_empty_subtree_scalars := pt_empty_subtree_scalars t; pt_root_cache := pt_root_cache t;
     pt_pruned_keys := k; pruned_commitments := pruned_commitments t;
     cache_hits := cache_hits t; cache_misses := cache_misses t |}.
Definition put_pruned_commitments (m : gmap path Commitment) (t : PinnedTree) : PinnedTree :=
  {| pt_storage := pt_storage t; pt_commitment_cache := pt_commitment_cache t;
     pt_empty_subtree_roots := pt_empty_subtree_roots t;
     pt_empty_subtree_scalars := pt_empty_subtree_scalars t; pt_root_cache := pt_root_cache t;
     pt_pruned_keys := pt_pruned_keys t; pruned_commitments := m;
     cache_hits := cache_hits t; cache_misses := cache_misses t |}.
(** [self.cache_hits += 1] and [self.cache_misses += 1] *)
Definition count_hit (t : PinnedTree) : PinnedTree :=
  {| pt_storage := pt_storage t; pt_commitment_cache := pt_commitment_cache t;
     pt_empty_subtree_roots := pt_empty_subtree_roots t;
     pt_empty_subtree_scalars := pt_empty_subtree_scalars t; pt_root_cache := pt_root_cache t;
     pt_pruned_keys := pt_pruned_keys t; pruned_commitments := pruned_commitments t;
     cache_hits := wadd 64 (cache_hits t) 1; cache_misses := cache_misses t |}.
Definition count_miss (t : PinnedTree) : PinnedTree :=
  {| pt_storage := pt_storage t; pt_commitment_cache := pt_commitment_cache t;
     pt_empty_subtree_roots := pt_empty_subtree_roots t;
     pt_empty_subtree_scalars := pt_empty_subtree_scalars t; pt_root_cache := pt_root_cache t;
     pt_pruned_keys := pt_pruned_keys t; pruned_commitments := pruned_commitments t;
     cache_hits := cache_hits t; cache_misses := wadd 64 (cache_misses t) 1 |}.

(** ** Nodes *)
Definition pinned_exists (t : PinnedTree) (p : path) : bool :=
  bool_decide (is_Some (storage_get (pt_storage t) (key_for_path p))).

Definition pinned_ensure (p : path) (t : PinnedTree) : PinnedTree :=
  if pinned_exists t p then t
  else put_storage (storage_put (key_for_path p) (serialize_node None) (pt_storage t)) t.

(** A pruned leaf is absent. *)
Definition pinned_value (t : PinnedTree) (p : path) : option (list byte) :=
  if bool_decide (length p = KEY_SIZE) && bool_decide (p ∈ pt_pruned_keys t) then None
  else
    match storage_get (pt_storage t) (key_for_path p) with
    | Some encoded => match deserialize_node encoded with Some v => v | None => None end
    | None => None
    end.

Definition pinned_set_value (p : path) (v : option (list byte)) (t : PinnedTree) : PinnedTree :=
  put_storage (storage_put (key_for_path p) (serialize_node v) (pt_storage t)) t.

(** [cached.dirty = true] *)
Definition mark_dirty (n : CachedNode) : CachedNode :=
  {| node_commitment_cached := node_commitment_cached n; node_dirty := true |}.
Definition pinned_invalidate (p : path) (t : PinnedTree) : PinnedTree :=
  put_root_cache None
    (put_cache (foldl (λ c k, alter mark_dirty k c) (pt_commitment_cache t) (key_for_path <$> prefixes p)) t).

Definition clear_pruned_state_for_key (key : bytes32) (t : PinnedTree) : PinnedTree :=
  let t := put_pruned_keys (pt_pruned_keys t ∖ {[ as_bytes key ]}) t in
  let t := put_pruned_commitments
    (foldl (λ m k, delete k m) (pruned_commitments t) (key_for_path <$> prefixes (as_bytes key))) t in
  put_root_cache None t.

Definition pinned_insert (key : bytes32) (v : list byte) (t : PinnedTree) : PinnedTree :=
  let p := as_bytes key in
  let t := clear_pruned_state_for_key key t in
  let t := foldl (λ t q, pinned_ensure q t) t (prefixes p) in
  pinned_invalidate p (pinned_set_value p (Some v) t).

Definition pinned_get (t : PinnedTree) (key : bytes32) : outcome CoreError (option (list byte)) :=
  if bool_decide (as_bytes key ∈ pt_pruned_keys t) then Err (PrunedData "Key has been pruned")
  else Ok (pinned_value t (as_bytes key)).

(** ** Commitments *)
Definition pinned_root_hash (c : Commitment) : outcome CoreError bytes32 :=
  bytes ← expect "Commitment serialization failure" (serialize_uncompressed c);
  Ok (blake3 bytes).

Definition pinned_commit (coeffs : list ScalarField) : outcome CoreError Commitment :=
  expect "Polynomial commitment failed" (pc_commit coeffs).

Definition pinned_empty_root (t : PinnedTree) (depth : nat) : bytes32 :=
  nth depth (pt_empty_subtree_roots t) zero32.
Definition pinned_empty_scalar (t : PinnedTree) (depth : nat) : ScalarField :=
  nth depth (pt_empty_subtree_scalars t) scalar_zero.

Definition leaf_scalar (t : PinnedTree) (p : path) : ScalarField :=
  match pinned_value t p with Some v => value_to_scalar v | None => scalar_zero end.

(** [!cached.dirty && cached.commitment.is_some()] *)
Definition clean_entry (t : PinnedTree) (node_key : path) : option Commitment :=
  match pt_commitment_cache t !! node_key with
  | Some n => if node_dirty n then None else node_commitment_cached n
  | None => None
  end.

Definition store_commitment (node_key : path) (c : Commitment) (t : PinnedTree) : PinnedTree :=
  put_cache (<[node_key := {| node_commitment_cached := Some c; node_dirty := false |}]> (pt_commitment_cache t)) t.

(** [get_node_commitment], over the computation of the node's commitment. *)
Definition get_node_commitment_with (compute : method PinnedTree CoreError Commitment) (p : path) :
    method PinnedTree CoreError (option Commitment) :=
  let node_key := key_for_path p in
  self ← get;
  match clean_entry self node_key with
  | Some c => _ ← modify count_hit; mret (Some c)
  | None =>
      match pruned_commitments self !! node_key with
      | Some c => mret (Some c)
      | None =>
          _ ← modify count_miss;
          commitment ← compute;
          _ ← modify (store_commitment node_key commitment);
          mret (Some commitment)
      end
  end.

(** [compute_node_root_hash], likewise. *)
Definition node_root_hash_with (compute : method PinnedTree CoreError Commitment) (p : path) :
    method PinnedTree CoreError bytes32 :=
  o ← get_node_commitment_with compute p;
  commitment ← match o with Some c => mret c | None => compute end;
  lift (pinned_root_hash commitment).

(** [compute_node_commitment] at depth [KEY_SIZE - height]. *)
Fixpoint pinned_compute (height : nat) (p : path) : method PinnedTree CoreError Commitment :=
  let node_key := key_for_path p in
  self ← get;
  match clean_entry self node_key with
  | Some c => _ ← modify count_hit; mret c
  | None =>
      match pruned_commitments self !! node_key with
      | Some prev_commitment => mret prev_commitment
      | None =>
          _ ← modify count_miss;
          match height with
          | O => lift (pinned_commit [leaf_scalar self p])
          | Datatypes.S height =>
              let empty_scalar := pinned_empty_scalar self (KEY_SIZE - height) in
              coeffs ← mapM (λ b,
                let child_path := p ++ [b] in
                if pinned_exists self child_path then
                  child_root ← node_root_hash_with (pinned_compute height child_path) child_path;
                  mret (from_le_bytes_mod_order (as_bytes child_root))
                else mret empty_scalar) child_indices;
              lift (pinned_commit coeffs)
          end
      end
  end.

Definition get_node_commitment (height : nat) (p : path) : method PinnedTree CoreError (option Commitment) :=
  get_node_commitment_with (pinned_compute height p) p.
Definition pinned_node_root (height : nat) (p : path) : method PinnedTree CoreError bytes32 :=
  node_root_hash_with (pinned_compute height p) p.

Definition pinned_get_root : method PinnedTree CoreError bytes32 :=
  self ← get;
  match pt_root_cache self with
  | Some root => _ ← modify count_hit; mret root
  | None =>
      root ← pinned_node_root KEY_SIZE [];
      _ ← modify (put_root_cache (Some root));
      mret root
  end.

(** ** Pruning *)

(** The commitment of one prefix of the path is recorded. *)
Definition record_commitment (p : path) (depth : nat) : method PinnedTree CoreError unit :=
  let path_prefix := take depth p in
  o ← get_node_commitment (KEY_SIZE - depth) path_prefix;
  match o with
  | Some commitment =>
      modify (λ t, put_pruned_commitments (<[key_for_path path_prefix := commitment]> (pruned_commitments t)) t)
  | None => mret tt
  end.

Definition pinned_prune (key : bytes32) : method PinnedTree CoreError unit :=
  let p := as_bytes key in
  self ← get;
  if negb (pinned_exists self p) then throw (PrunedData "Key does not exist or already absent")
  else
    _ ← for_each (record_commitment p) (seq 0 (length p + 1));
    _ ← modify (λ t, put_storage (storage_delete (key_for_path p) (pt_storage t)) t);
    _ ← modify (λ t, put_pruned_keys ({[ p ]} ∪ pt_pruned_keys t) t);
    _ ← modify (pinned_invalidate p);
    self ← get;
    match pruned_commitments self !! [] with
    | Some root_commit =>
        root ← lift (pinned_root_hash root_commit);
        modify (put_root_cache (Some root))
    | None => mret tt
    end.

(** ** Construction *)

(** [compute_empty_subtree_constants]: the roots and scalars from depth [32 - n]. *)
Fixpoint pinned_constants (n : nat) : outcome CoreError (list bytes32 * list ScalarField) :=
  match n with
  | O =>
      empty_commitment ← pinned_commit [];
      root ← pinned_root_hash empty_commitment;
      Ok ([root], [from_le_bytes_mod_order (as_bytes root)])
  | Datatypes.S n =>
      '(roots, scalars) ← pinned_constants n;
      let child_scalar := match scalars with s :: _ => s | [] => scalar_zero end in
      commitment ← pinned_commit (replicate VERKLE_RADIX child_scalar);
      root ← pinned_root_hash commitment;
      Ok (root :: roots, from_le_bytes_mod_order (as_bytes root) :: scalars)
  end.

Definition PinnedTree_new (s : S) : outcome CoreError PinnedTree :=
  '(roots, scalars) ← pinned_constants KEY_SIZE;
  Ok (pinned_ensure []
        {| pt_storage := s; pt_commitment_cache := ∅; pt_empty_subtree_roots := roots;
           pt_empty_subtree_scalars := scalars; pt_root_cache := None; pt_pruned_keys := ∅;
           pruned_commitments := ∅; cache_hits := 0; cache_misses := 0 |}).

(** ** The root of a set of coins

    The set is a hash map: [coins] is its content in the order of the iteration. *)
Definition clear_tree (t : PinnedTree) : PinnedTree :=
  {| pt_storage := storage_clear (pt_storage t); pt_commitment_cache := ∅;
     pt_empty_subtree_roots := pt_empty_subtree_roots t;
     pt_empty_subtree_scalars := pt_empty_subtree_scalars t; pt_root_cache := None;
     pt_pruned_keys := ∅; pruned_commitments := ∅;
     cache_hits := cache_hits t; cache_misses := cache_misses t |}.

Definition insert_coin (t : PinnedTree) (coin : OutPoint * TxOutput) : PinnedTree :=
  let key := to_bytes32 (take KEY_SIZE (as_bytes (blake3 (coin_path coin.1 coin.2)))) in
  pinned_insert key (le_bytes 8 (value coin.2)) t.

Definition calculate_verkle_root (coins : list (OutPoint * TxOutput)) : method PinnedTree CoreError Hash :=
  _ ← modify (λ t, foldl insert_coin (clear_tree t) coins);
  pinned_get_root.
End pinned.

(** ** Proofs *)
Section pinned_proofs.
Context `{Blake3} `{Commitments} {S : Type} `{Storage S}.

Definition pinned_polynomial (p : path) (depth : nat) : method (PinnedTree (S := S)) CoreError (list ScalarField) :=
  self ← get;
  if bool_decide (depth = KEY_SIZE) then mret [leaf_scalar self p]
  else
    let empty_scalar := pinned_empty_scalar self (depth + 1) in
    mapM (λ b,
      let child_path := p ++ [b] in
      if pinned_exists self child_path then
        child_root ← pinned_node_root (KEY_SIZE - (depth + 1)) child_path;
        mret (scalar_of_root child_root)
      else mret empty_scalar) child_indices.

Definition pinned_value_at_index (p : path) (child_index : byte) : method (PinnedTree (S := S)) CoreError ScalarField :=
  child_root ← pinned_node_root (KEY_SIZE - (length p + 1)) (p ++ [child_index]);
  mret (scalar_of_root child_root).

(** The siblings of one level. *)
Definition pinned_siblings (ps : proof_state) (depth : nat) : method (PinnedTree (S := S)) CoreError (list bytes32) :=
  self ← get;
  let empty_child_root := pinned_empty_root self (depth + 1) in
  mapM (λ b,
    if ps_path_exists ps && pinned_exists self (ps_path ps) then
      let child_path := ps_path ps ++ [b] in
      if pinned_exists self child_path then pinned_node_root (KEY_SIZE - (depth + 1)) child_path
      else mret empty_child_root
    else mret empty_child_root) child_indices.

(** The opening of the node on the path. *)
Definition pinned_opening (ps : proof_state) (depth : nat) (byte : byte) :
    method (PinnedTree (S := S)) CoreError (list OpeningProof) :=
  o ← get_node_commitment (KEY_SIZE - depth) (ps_path ps);
  match o with
  | None => mret []
  | Some _ =>
      value_hash ← pinned_value_at_index (ps_path ps) byte;
      polynomial ← pinned_polynomial (ps_path ps) depth;
      match pc_open polynomial (from_le_bytes_mod_order [byte]) value_hash with
      | Ok proof => mret [proof]
      | Err _ => mret []
      | Panic s => panic s
      end
  end.

Definition pinned_proof_step (ps : proof_state) (d : nat * byte) : method (PinnedTree (S := S)) CoreError proof_state :=
  let '(depth, byte) := d in
  level ← pinned_siblings ps depth;
  self ← get;
  opening ← (if ps_path_exists ps && pinned_exists self (ps_path ps)
             then pinned_opening ps depth byte else mret []);
  let '(path', exists') :=
    if ps_path_exists ps then
      let path' := ps_path ps ++ [byte] in (path', pinned_exists self path')
    else (ps_path ps, false) in
  mret {| ps_siblings := ps_siblings ps ++ level; ps_openings := ps_openings ps ++ opening;
          ps_path := path'; ps_path_exists := exists' |}.

Definition pinned_generate (key : bytes32) : method (PinnedTree (S := S)) CoreError PinnedProof :=
  ps ← fold_method pinned_proof_step
         {| ps_siblings := []; ps_openings := []; ps_path := []; ps_path_exists := true |}
         (enumerate (as_bytes key));
  self ← get;
  let leaf := if ps_path_exists ps then pinned_value self (ps_path ps) else None in
  root ← pinned_get_root;
  mret {| pp_type := match leaf with Some _ => Membership | None => NonMembership end;
          pp_path := as_bytes key; pp_siblings := ps_siblings ps; pp_leaf_value := leaf;
          pp_root := root; pp_opening_proofs := ps_openings ps |}.

(** ** Verification: every failure of the scheme is a refusal *)

(** [if let Ok(commitment) = self.pc.commit(..)], and the hash of the commitment. *)
Definition committed_root (coeffs : list ScalarField) : outcome CoreError (option bytes32) :=
  match pc_commit coeffs with
  | Ok c => root ← pinned_root_hash c; Ok (Some root)
  | Err _ => Ok None
  | Panic s => Panic s
  end.

Fixpoint openings_give_verdicts (l : list OpeningProof) : outcome CoreError bool :=
  match l with
  | [] => Ok true
  | op :: l =>
      match pc_verify (quotient_commitment op) op with
      | Ok _ => openings_give_verdicts l
      | Err _ => Ok false
      | Panic s => Panic s
      end
  end.

Definition pinned_start_scalar (t : PinnedTree (S := S)) (proof : PinnedProof) : outcome CoreError (option ScalarField) :=
  match pp_type proof, pp_leaf_value proof with
  | Membership, Some v =>
      o ← committed_root [value_to_scalar v];
      Ok (match o with Some root => Some (scalar_of_root root) | None => None end)
  | NonMembership, _ => Ok (Some (scalar_of_root (pinned_empty_root t KEY_SIZE)))
  | _, _ => Ok None
  end.

(** [for depth in (0..KEY_SIZE).rev()]: [n] levels remain. *)
Fixpoint pinned_recompute (proof : PinnedProof) (n : nat) (current : ScalarField) (computed_root : bytes32) :
    outcome CoreError (option bytes32) :=
  match n with
  | O => Ok (Some computed_root)
  | Datatypes.S depth =>
      let level := take VERKLE_RADIX (drop (depth * VERKLE_RADIX) (pp_siblings proof)) in
      let coeffs := imap (λ child_index sibling,
        if bool_decide (Z.of_nat child_index = byte_Z (nth depth (pp_path proof) x00)) then current
        else scalar_of_root sibling) level in
      o ← committed_root coeffs;
      match o with
      | Some root => pinned_recompute proof depth (scalar_of_root root) root
      | None => Ok None
      end
  end.

Definition pinned_verify (t : PinnedTree (S := S)) (proof : PinnedProof) : outcome CoreError bool :=
  if negb (bool_decide (length (pp_path proof) = KEY_SIZE)) then Ok false
  else if negb (bool_decide (length (pp_siblings proof) = (KEY_SIZE * VERKLE_RADIX)%nat)) then Ok false
  else if negb (match pp_type proof with
                | Membership => bool_decide (is_Some (pp_leaf_value proof))
                | NonMembership => bool_decide (pp_leaf_value proof = None)
                end) then Ok false
  else
    verdicts ← openings_give_verdicts (pp_opening_proofs proof);
    if negb verdicts then Ok false
    else
      start ← pinned_start_scalar t proof;
      match start with
      | None => Ok false
      | Some current =>
          o ← pinned_recompute proof KEY_SIZE current zero32;
          Ok (match o with Some root => bool_decide (root = pp_root proof) | None => false end)
      end.

Definition verify_verkle_proof (t : PinnedTree (S := S)) (root : Hash) (proof : PinnedProof) (key value : Hash) :
    outcome CoreError bool :=
  if negb (bool_decide (pp_root proof = root)) then Ok false
  else
    valid ← pinned_verify t proof;
    if negb valid then Ok false
    else if negb (bool_decide (pp_path proof = as_bytes key)) then Ok false
    else
      match pp_type proof with
      | Membership =>
          match pp_leaf_value proof with
          | Some leaf_value => Ok (bool_decide (Hash_new leaf_value = value))
          | None => Ok false
          end
      | NonMembership => Ok (bool_decide (pp_leaf_value proof = None))
      end.
End pinned_proofs.

(** ** Cached and recorded commitments *)
Section pinned_lemmas.
Context `{Blake3} `{Commitments} {S : Type} `{HS : Storage S} `{!StorageLaws S}.
Implicit Types (t s : PinnedTree (S := S)) (p q : path).

Abbreviation slot t q := (storage_get (pt_storage t) (key_for_path q)).

(** The specification: a recorded commitment stands for its node; the others are
    computed from the storage. *)
Definition pinned_child t (depth : nat) (child : path) (r : outcome CoreError Commitment) :
    outcome CoreError ScalarField :=
  if pinned_exists t child then
    c ← r; root ← pinned_root_hash c; Ok (scalar_of_root root)
  else Ok (pinned_empty_scalar t depth).

Fixpoint pinned_commitment t (height : nat) (p : path) : outcome CoreError Commitment :=
  match pruned_commitments t !! key_for_path p with
  | Some c => Ok c
  | None =>
      match height with
      | O => pinned_commit [leaf_scalar t p]
      | Datatypes.S height =>
          coeffs ← mapM (λ b, pinned_child t (KEY_SIZE - height) (p ++ [b])
                                (pinned_commitment t height (p ++ [b]))) child_indices;
          pinned_commit coeffs
      end
  end.

Definition pinned_root t (height : nat) (p : path) : outcome CoreError bytes32 :=
  c ← pinned_commitment t height p; pinned_root_hash c.
Definition pinned_scratch_root t : outcome CoreError bytes32 := pinned_root t KEY_SIZE [].

Definition same_data t s : Prop :=
  pt_storage s = pt_storage t ∧ pt_empty_subtree_roots s = pt_empty_subtree_roots t
  ∧ pt_empty_subtree_scalars s = pt_empty_subtree_scalars t ∧ pt_root_cache s = pt_root_cache t
  ∧ pt_pruned_keys s = pt_pruned_keys t ∧ pruned_commitments s = pruned_commitments t.

Lemma same_data_refl t : same_data t t.
Proof. repeat split. Qed.
Lemma same_data_trans t s u : same_data t s → same_data s u → same_data t u.
Proof. unfold same_data. intuition congruence. Qed.

(** The commitment of a node reads what is below it. *)
Lemma pinned_commitment_ext t s height p :
  pt_empty_subtree_scalars s = pt_empty_subtree_scalars t →
  (∀ q, p `prefix_of` q → is_Some (slot s q) ↔ is_Some (slot t q)) →
  (∀ q, p `prefix_of` q → pinned_value s q = pinned_value t q) →
  (∀ q, p `prefix_of` q → pruned_commitments s !! key_for_path q = pruned_commitments t !! key_for_path q) →
  pinned_commitment s height p = pinned_commitment t height p.
Proof.
  intros Hsc. revert p; induction height as [|height IH]; intros p Hx Hv Hp; cbn [pinned_commitment].
  all: rewrite Hp by done; destruct (pruned_commitments t !! _); [done|].
  - unfold leaf_scalar. by rewrite Hv.
  - rewrite (outcome_mapM_ext _ (λ b, pinned_child t (KEY_SIZE - height) (p ++ [b])
                                        (pinned_commitment t height (p ++ [b])))); [done|].
    intros b. unfold pinned_child.
    assert (Hb : ∀ q, p ++ [b] `prefix_of` q → p `prefix_of` q) by (intros q; etrans; [|done]; by apply prefix_app_r).
    assert (E : pinned_exists s (p ++ [b]) = pinned_exists t (p ++ [b])).
    { unfold pinned_exists. apply bool_decide_ext, Hx, Hb. done. }
    rewrite E, IH by auto. unfold pinned_empty_scalar. by rewrite Hsc.
Qed.

Lemma same_value t s q : same_data t s → pinned_value s q = pinned_value t q.
Proof. intros (E1 & _ & _ & _ & E5 & _). unfold pinned_value. by rewrite E1, E5. Qed.
Lemma same_exists t s q : same_data t s → pinned_exists s q = pinned_exists t q.
Proof. intros (E1 & _). unfold pinned_exists. by rewrite E1. Qed.
Lemma same_commitment t s height p : same_data t s → pinned_commitment s height p = pinned_commitment t height p.
Proof.
  intros Hs. pose proof (λ q, same_value t s q Hs) as Hv. destruct Hs as (E1 & _ & E3 & _ & _ & E6).
  apply pinned_commitment_ext; [done| | |]; intros q _; [by rewrite E1|apply Hv|by rewrite E6].
Qed.
Lemma same_root t s : same_data t s → pinned_scratch_root s = pinned_scratch_root t.
Proof. intros Hs. unfold pinned_scratch_root, pinned_root. by rewrite (same_commitment t s). Qed.

(** Every clean entry is the commitment of its node. *)
Definition entries_ok t : Prop :=
  ∀ p c, clean_entry t (key_for_path p) = Some c →
    (length p ≤ KEY_SIZE)%nat ∧ pinned_commitment t (KEY_SIZE - length p) p = Ok c.

(** What a computation may do: entries are added, calls are counted. *)
Definition sees t s : Prop := same_data t s ∧ entries_ok s.

Lemma sees_refl t : entries_ok t → sees t t.
Proof. by split; [apply same_data_refl|]. Qed.
Lemma sees_trans t s u : sees t s → sees s u → sees t u.
Proof. intros [H1 _] [H2 H3]. split; [by eapply same_data_trans|done]. Qed.

Lemma sees_count t s f :
  sees t s → (∀ u, same_data u (f u)) → (∀ u, pt_commitment_cache (f u) = pt_commitment_cache u) → sees t (f s).
Proof.
  intros [Hs He] Hf Hc. split; [by eapply same_data_trans|]. intros p c Hp.
  rewrite (same_commitment s) by done. apply He. revert Hp. unfold clean_entry. by rewrite Hc.
Qed.
Lemma sees_hit t s : sees t s → sees t (count_hit s).
Proof. intros Hs. by apply (sees_count t s count_hit). Qed.
Lemma sees_miss t s : sees t s → sees t (count_miss s).
Proof. intros Hs. by apply (sees_count t s count_miss). Qed.

Lemma sees_store t s p c :
  sees t s → (length p ≤ KEY_SIZE)%nat → pinned_commitment t (KEY_SIZE - length p) p = Ok c →
  sees t (store_commitment (key_for_path p) c s).
Proof.
  intros [Hs He] Hl E.
  assert (Hd : same_data t (store_commitment (key_for_path p) c s)) by (eapply same_data_trans; [exact Hs|by repeat split]).
  split; [done|]. intros q d Hq. rewrite (same_commitment t) by done. revert Hq. unfold clean_entry, store_commitment.
  cbn [pt_commitment_cache put_cache]. rewrite lookup_insert. case_decide as Hk.
  - apply key_for_path_inj in Hk as <-. cbn. by intros [= <-].
  - intros Hq. rewrite <- (same_commitment t s) by done. by apply He.
Qed.

(** A method that computes [r] over the data of [t]. *)
Definition computes {A} t (m : method (PinnedTree (S := S)) CoreError A) (r : outcome CoreError A) : Prop :=
  ∀ s, sees t s → ∃ s', m s = (r, s') ∧ sees t s'.

Lemma computes_ret {A} t (a : A) : computes t (mret a) (Ok a).
Proof. intros s Hs. by exists s. Qed.
Lemma computes_lift {A} t (r : outcome CoreError A) : computes t (lift r) r.
Proof. intros s Hs. by exists s. Qed.
Lemma computes_bind {A B} t (m : method (PinnedTree (S := S)) CoreError A) r
    (f : A → method (PinnedTree (S := S)) CoreError B) g :
  computes t m r → (∀ a, r = Ok a → computes t (f a) (g a)) → computes t (m ≫= f) (r ≫= g).
Proof.
  intros Hm Hf s Hs. destruct (Hm s Hs) as (s1 & E & H1). destruct r as [a|e|x].
  - destruct (Hf a eq_refl s1 H1) as (s2 & E2 & H2). exists s2. by rewrite (method_bind_run _ _ _ _ _ E).
  - exists s1. by rewrite (method_bind_stop _ _ _ _ _ E).
  - exists s1. by rewrite (method_bind_unwind _ _ _ _ _ E).
Qed.
Lemma computes_modify {B} t f (m : method (PinnedTree (S := S)) CoreError B) r :
  (∀ s, sees t s → sees t (f s)) → computes t m r → computes t (_ ← modify f; m) r.
Proof. intros Hf Hm s Hs. by apply (Hm (f s)), Hf. Qed.
Lemma computes_get {B} t (m : PinnedTree (S := S) → method (PinnedTree (S := S)) CoreError B) r :
  (∀ s, sees t s → ∃ s', m s s = (r, s') ∧ sees t s') → computes t (s ← get; m s) r.
Proof. intros Hm s Hs. by apply Hm. Qed.
Lemma computes_mapM {A B} t (f : A → method (PinnedTree (S := S)) CoreError B) g l :
  (∀ x, x ∈ l → computes t (f x) (g x)) → computes t (mapM f l) (mapM g l).
Proof. intros Hf s Hs. apply (method_mapM_pure (sees t)); [|done]. intros x u Hx Hu. by apply Hf. Qed.

Lemma clean_sees t s p c :
  sees t s → clean_entry s (key_for_path p) = Some c → pinned_commitment t (KEY_SIZE - length p) p = Ok c.
Proof. intros [Hs He] Hc. rewrite <- (same_commitment t s) by done. by apply He in Hc as [_ Hc]. Qed.

Lemma pinned_hit t p c height :
  pruned_commitments t !! key_for_path p = Some c → pinned_commitment t height p = Ok c.
Proof. intros Hp. destruct height; cbn; by rewrite Hp. Qed.

(** [get_node_commitment] returns the commitment of the node. *)
Lemma get_node_commitment_run t height p :
  (length p + height = KEY_SIZE)%nat → computes t (pinned_compute height p) (pinned_commitment t height p) →
  computes t (get_node_commitment_with (pinned_compute height p) p)
    (c ← pinned_commitment t height p; Ok (Some c)).
Proof.
  intros Hl Hm. assert (Hh : (KEY_SIZE - length p)%nat = height) by lia. apply computes_get. intros s Hs.
  destruct (clean_entry s (key_for_path p)) as [c|] eqn:Ec.
  { apply (clean_sees t) in Ec; [|done]. rewrite Hh in Ec. rewrite Ec. exists (count_hit s).
    split; [done|by apply sees_hit]. }
  assert (Ep : pruned_commitments s = pruned_commitments t) by apply Hs. rewrite Ep.
  destruct (pruned_commitments t !! key_for_path p) as [c|] eqn:Epin.
  { rewrite (pinned_hit _ _ _ _ Epin). by exists s. }
  apply computes_modify; [intros; by apply sees_miss| |done].
  apply computes_bind; [done|]. intros c E. apply computes_modify; [|apply computes_ret].
  intros u Hu. apply sees_store; [done|lia|by rewrite Hh].
Qed.

Lemma node_root_run t height p :
  (length p + height = KEY_SIZE)%nat → computes t (pinned_compute height p) (pinned_commitment t height p) →
  computes t (node_root_hash_with (pinned_compute height p) p) (pinned_root t height p).
Proof.
  intros Hl Hm s Hs. unfold pinned_root, node_root_hash_with.
  destruct (computes_bind t _ _
    (λ o, commitment ← match o with Some c => mret c | None => pinned_compute height p end;
          lift (pinned_root_hash commitment))
    (λ o, match o with Some c => pinned_root_hash c | None => Ok zero32 end)
    (get_node_commitment_run t height p Hl Hm)) with (s := s) as (s' & E & Hs'); [|done|].
  - intros o Ho. destruct (pinned_commitment t height p) as [c|e|x]; cbn in Ho; [|done|done].
    injection Ho as <-. intros u Hu. by exists u.
  - exists s'. split; [|done]. rewrite E. by destruct (pinned_commitment t height p).
Qed.

Lemma pinned_compute_run t height p :
  (length p + height = KEY_SIZE)%nat → computes t (pinned_compute height p) (pinned_commitment t height p).
Proof.
  revert p; induction height as [|height IH]; intros p Hl; cbn [pinned_compute pinned_commitment].
  all: assert (Hh : ∀ s c, sees t s → clean_entry s (key_for_path p) = Some c →
      pinned_commitment t (KEY_SIZE - length p) p = Ok c) by (intros s c; by apply clean_sees).
  all: apply computes_get; intros s Hs; destruct (clean_entry s (key_for_path p)) as [c|] eqn:Ec.
  1,3: apply (Hh s c Hs) in Ec; exists (count_hit s); split; [|by apply sees_hit].
  1,2: transitivity (Ok c : outcome CoreError Commitment, count_hit s); [done|]; f_equal; symmetry; rewrite <- Ec.
  1: by replace (KEY_SIZE - length p)%nat with 0%nat by lia.
  1: by replace (KEY_SIZE - length p)%nat with (Datatypes.S height) by lia.
  all: assert (Ep : pruned_commitments s = pruned_commitments t) by apply Hs; rewrite Ep;
    destruct (pruned_commitments t !! key_for_path p) as [c|]; [by exists s|].
  all: apply computes_modify; [intros; by apply sees_miss| |done].
  - unfold leaf_scalar. rewrite (same_value t s) by apply Hs. apply computes_lift.
  - apply computes_bind; [|intros; apply computes_lift]. apply computes_mapM. intros b _.
    unfold pinned_child. rewrite (same_exists t s) by apply Hs.
    destruct (pinned_exists t (p ++ [b])).
    + intros u Hu. assert (Hb : (length (p ++ [b]) + height = KEY_SIZE)%nat) by (rewrite length_app; cbn; lia).
      destruct (computes_bind t _ _ (λ root, mret (from_le_bytes_mod_order (as_bytes root)))
        (λ root, Ok (scalar_of_root root)) (node_root_run t height (p ++ [b]) Hb (IH _ Hb))
        ltac:(intros; apply computes_ret) u Hu) as (u' & E & Hu').
      exists u'. split; [|done]. etrans; [exact E|]. unfold pinned_root.
      by destruct (pinned_commitment t height (p ++ [b])).
    + assert (Esc : pt_empty_subtree_scalars s = pt_empty_subtree_scalars t) by apply Hs.
      unfold pinned_empty_scalar. rewrite Esc. apply computes_ret.
Qed.

Lemma pinned_node_root_run t height p :
  (length p + height = KEY_SIZE)%nat → computes t (pinned_node_root height p) (pinned_root t height p).
Proof. intros Hl. by apply node_root_run, pinned_compute_run. Qed.

(** ** What the operations do to the nodes *)
Lemma slot_ensure t p q :
  slot (pinned_ensure p t) q
  = if decide (q = p) then Some (default (serialize_node None) (slot t p)) else slot t q.
Proof.
  unfold pinned_ensure, pinned_exists. case_bool_decide as Hp.
  - destruct (decide (q = p)) as [->|]; [|done]. destruct Hp as [v Hv]. by rewrite Hv.
  - cbn. rewrite get_put. apply eq_None_not_Some in Hp.
    destruct (decide (q = p)) as [->|Hq]; [by rewrite decide_True, Hp|].
    rewrite decide_False; [done|]. by intros ?%key_for_path_inj.
Qed.

Lemma ensure_frame p t : pinned_ensure p t = put_storage (pt_storage (pinned_ensure p t)) t.
Proof. unfold pinned_ensure. by destruct (pinned_exists t p), t. Qed.

Lemma ensure_path ps t :
  let t' := foldl (λ t q, pinned_ensure q t) t ps in
  t' = put_storage (pt_storage t') t
  ∧ ∀ q, slot t' q = if decide (q ∈ ps) then Some (default (serialize_node None) (slot t q)) else slot t q.
Proof.
  revert t; induction ps as [|p ps IH]; intros t; cbn [foldl].
  { split; [by destruct t|done]. }
  destruct (IH (pinned_ensure p t)) as [Hf Hn]. split.
  - rewrite Hf at 1. by rewrite (ensure_frame p t).
  - intros q. rewrite Hn, !slot_ensure. destruct (decide (q = p)) as [->|Hq].
    + rewrite (decide_True (P := p ∈ p :: ps)) by left. by destruct (decide (p ∈ ps)).
    + destruct (decide (q ∈ ps)); [by rewrite decide_True by (by right)|].
      rewrite decide_False; [done|]. by rewrite elem_of_cons; intros [?|?].
Qed.

(** The tree an insertion invalidates. *)
Definition written key v t : PinnedTree :=
  pinned_set_value (as_bytes key) (Some v)
    (foldl (λ t q, pinned_ensure q t) (clear_pruned_state_for_key key t) (prefixes (as_bytes key))).

Lemma slot_written key v t q :
  slot (written key v t) q
  = if decide (q = as_bytes key) then Some (serialize_node (Some v))
    else if decide (q ∈ prefixes (as_bytes key)) then Some (default (serialize_node None) (slot t q))
    else slot t q.
Proof.
  unfold written, pinned_set_value. cbn [pt_storage put_storage]. rewrite get_put.
  destruct (decide (q = as_bytes key)) as [->|Hq]; [by rewrite decide_True|].
  rewrite decide_False by (by intros ?%key_for_path_inj).
  by rewrite (proj2 (ensure_path (prefixes (as_bytes key)) (clear_pruned_state_for_key key t))).
Qed.

Lemma written_frame key v t :
  written key v t = put_storage (pt_storage (written key v t)) (clear_pruned_state_for_key key t).
Proof.
  unfold written at 1, pinned_set_value. by rewrite (proj1 (ensure_path _ _)).
Qed.

Lemma pins_written key v t q :
  pruned_commitments (written key v t) !! key_for_path q
  = if bool_decide (q `prefix_of` as_bytes key) then None else pruned_commitments t !! key_for_path q.
Proof.
  rewrite written_frame. cbn. rewrite lookup_delete_all.
  rewrite (bool_decide_ext (key_for_path q ∈ _) (q `prefix_of` as_bytes key)); [done|].
  rewrite list_elem_of_fmap, <- elem_of_prefixes. split; [|eauto]. by intros (r & ->%key_for_path_inj & Hr).
Qed.

Lemma marks_written key v t : pt_pruned_keys (written key v t) = pt_pruned_keys t ∖ {[ as_bytes key ]}.
Proof. by rewrite written_frame. Qed.

Lemma pinned_value_written key v t q :
  Z.of_nat (length v) < 2 ^ 32 →
  pinned_value (written key v t) q
  = if decide (q = as_bytes key) then Some v
    else if bool_decide (length q = KEY_SIZE) && bool_decide (q ∈ pt_pruned_keys t) then None
    else match slot t q with Some e => match deserialize_node e with Some v => v | None => None end | None => None end.
Proof.
  intros Hv. unfold pinned_value. rewrite marks_written, slot_written.
  destruct (decide (q = as_bytes key)) as [->|Hq].
  - rewrite (bool_decide_eq_false_2 (as_bytes key ∈ _)) by set_solver.
    by rewrite andb_false_r, deserialize_serialize_node.
  - rewrite (bool_decide_ext (q ∈ _ ∖ _) (q ∈ pt_pruned_keys t)) by set_solver.
    destruct (_ && _); [done|]. destruct (decide (q ∈ prefixes _)); [|done]. by destruct (slot t q).
Qed.

(** Entries of the path are dirty, the others as before. *)
Lemma clean_invalidate p t q :
  (length p ≤ KEY_SIZE)%nat →
  clean_entry (pinned_invalidate p t) (key_for_path q)
  = if bool_decide (q `prefix_of` p) then None else clean_entry t (key_for_path q).
Proof.
  intros Hl. unfold clean_entry, pinned_invalidate. cbn [pt_commitment_cache put_root_cache put_cache].
  rewrite foldl_alter_lookup.
  2:{ apply (NoDup_fmap_2_strong key_for_path); [intros; by apply key_for_path_inj|].
      unfold prefixes. apply (NoDup_fmap_2_strong (λ i, take i p)); [|apply NoDup_seq].
      intros i j Hi%elem_of_seq Hj%elem_of_seq E%(f_equal length). rewrite !length_take in E. lia. }
  rewrite <- (bool_decide_ext (key_for_path q ∈ key_for_path <$> prefixes p) (q `prefix_of` p)).
  - case_bool_decide; [|by rewrite decide_False]. rewrite decide_True by done. by destruct (pt_commitment_cache t !! _).
  - rewrite list_elem_of_fmap, <- elem_of_prefixes. split; [|eauto]. by intros (r & ->%key_for_path_inj & Hr).
Qed.

(** A tree that differs from one with good entries at prefixes of [p] only has
    good entries once [p] is invalidated. *)
Lemma invalidated_entries t t' p :
  (length p ≤ KEY_SIZE)%nat → entries_ok t →
  pt_commitment_cache t' = pt_commitment_cache t →
  (∀ q, ¬ q `prefix_of` p → (length q ≤ KEY_SIZE)%nat →
     pinned_commitment t' (KEY_SIZE - length q) q = pinned_commitment t (KEY_SIZE - length q) q) →
  entries_ok (pinned_invalidate p t').
Proof.
  intros Hl He Hc Hq q c Hcl. rewrite clean_invalidate in Hcl by done.
  case_bool_decide as Hp; [done|].
  assert (Hcl' : clean_entry t (key_for_path q) = Some c) by (revert Hcl; unfold clean_entry; by rewrite Hc).
  apply He in Hcl' as [Hlq E]. split; [done|]. rewrite <- E, <- (Hq q Hp Hlq).
  apply pinned_commitment_ext; [done|by intros; reflexivity|done|done].
Qed.

(** ** The invariant *)
Definition marks_ok t : Prop := ∀ p, p ∈ pt_pruned_keys t → length p = KEY_SIZE ∧ slot t p = None.
Definition pinned_ok t : Prop :=
  entries_ok t ∧ (∀ r, pt_root_cache t = Some r → pinned_scratch_root t = Ok r) ∧ marks_ok t
  ∧ pruned_commitments t !! [] = None.

Lemma prefix_key_full (p : path) (key : bytes32) :
  p `prefix_of` as_bytes key → length p = KEY_SIZE → p = as_bytes key.
Proof. intros Hp Hl. apply prefix_of_same_length; [done|]. by rewrite as_bytes_length. Qed.

Lemma written_untouched key v t q :
  ¬ q `prefix_of` as_bytes key →
  slot (written key v t) q = slot t q ∧ pinned_value (written key v t) q = pinned_value t q
  ∧ pruned_commitments (written key v t) !! key_for_path q = pruned_commitments t !! key_for_path q.
Proof.
  intros Hq. assert (Hne : q ≠ as_bytes key) by (by intros ->).
  assert (E : slot (written key v t) q = slot t q).
  { rewrite slot_written. rewrite decide_False by done. rewrite decide_False; [done|].
    by rewrite elem_of_prefixes. }
  split; [done|]. split.
  - unfold pinned_value. rewrite E, marks_written.
    by rewrite (bool_decide_ext (q ∈ _ ∖ _) (q ∈ pt_pruned_keys t)) by set_solver.
  - rewrite pins_written. by rewrite bool_decide_eq_false_2.
Qed.

Lemma pinned_insert_ok key v t : pinned_ok t → pinned_ok (pinned_insert key v t).
Proof.
  intros (He & _ & Hm & Hn). change (pinned_insert key v t) with (pinned_invalidate (as_bytes key) (written key v t)).
  split; [|split; [done|split]].
  - apply (invalidated_entries t); [by rewrite as_bytes_length|done|by rewrite written_frame|].
    intros q Hq _. assert (Hall : ∀ r, q `prefix_of` r → ¬ r `prefix_of` as_bytes key).
    { intros r Hqr Hr. apply Hq. by etrans. }
    apply pinned_commitment_ext; [by rewrite written_frame| | |].
    + intros r Hr. by rewrite (proj1 (written_untouched key v t r (Hall r Hr))).
    + intros r Hr. by apply written_untouched, Hall.
    + intros r Hr. by apply written_untouched, Hall.
  - intros p. change (pt_pruned_keys (pinned_invalidate _ ?u)) with (pt_pruned_keys u).
    rewrite marks_written. intros [Hp Hk]%elem_of_difference. destruct (Hm p Hp) as [Hl Hs]. split; [done|].
    change (pt_storage (pinned_invalidate _ ?u)) with (pt_storage u).
    destruct (decide (p `prefix_of` as_bytes key)) as [Hpre|Hpre].
    + exfalso. apply Hk, elem_of_singleton. by apply prefix_key_full.
    + by rewrite (proj1 (written_untouched key v t p Hpre)).
  - change (pruned_commitments (pinned_invalidate _ ?u)) with (pruned_commitments u).
    rewrite written_frame. cbn. rewrite lookup_delete_all. by case_bool_decide.
Qed.

(** Computations keep the invariant. *)
Lemma sees_ok t s : pinned_ok t → sees t s → pinned_ok s.
Proof.
  intros (_ & Hr & Hm & Hn) [Hs He]. split; [done|]. pose proof Hs as (E1 & _ & _ & E4 & E5 & E6). split; [|split].
  - intros r. rewrite E4, (same_root t s) by done. apply Hr.
  - intros p. rewrite E5, E1. apply Hm.
  - by rewrite E6.
Qed.

Lemma pinned_root_get t :
  pinned_ok t → ∃ t', pinned_get_root t = (pinned_scratch_root t, t') ∧ pinned_ok t'
    ∧ pt_storage t' = pt_storage t ∧ pt_pruned_keys t' = pt_pruned_keys t
    ∧ pruned_commitments t' = pruned_commitments t ∧ pinned_scratch_root t' = pinned_scratch_root t
    ∧ pt_empty_subtree_roots t' = pt_empty_subtree_roots t
    ∧ pt_empty_subtree_scalars t' = pt_empty_subtree_scalars t.
Proof.
  intros Hok. pose proof Hok as (He & Hr & Hm & Hn). unfold pinned_get_root. rewrite (method_bind_run _ _ t t t) by done.
  assert (Hfin : ∀ s, sees t s → pinned_ok s ∧ pt_storage s = pt_storage t ∧ pt_pruned_keys s = pt_pruned_keys t
    ∧ pruned_commitments s = pruned_commitments t ∧ pinned_scratch_root s = pinned_scratch_root t
    ∧ pt_empty_subtree_roots s = pt_empty_subtree_roots t
    ∧ pt_empty_subtree_scalars s = pt_empty_subtree_scalars t).
  { intros s Hs. pose proof (sees_ok t s Hok Hs). destruct Hs as [Hs _]. pose proof (same_root t s Hs).
    destruct Hs as (E1 & E2 & E3 & _ & E5 & E6). by split_and!. }
  destruct (pt_root_cache t) as [r|] eqn:Er.
  { exists (count_hit t). rewrite (Hr r eq_refl). split; [done|]. rewrite <- (Hr r eq_refl).
    by apply Hfin, sees_hit, sees_refl. }
  destruct (pinned_node_root_run t KEY_SIZE [] eq_refl t (sees_refl t He)) as (s & E & Hs).
  destruct (Hfin s Hs) as ((He' & _ & Hm' & Hn') & E1 & E5 & E6 & Esc & E2 & E3).
  change (pinned_root t KEY_SIZE []) with (pinned_scratch_root t) in E.
  destruct (pinned_scratch_root t) as [r|e|x] eqn:Et.
  - rewrite (method_bind_run _ _ _ _ _ E). exists (put_root_cache (Some r) s). split; [done|].
    assert (Hext : ∀ h q, pinned_commitment (put_root_cache (Some r) s) h q = pinned_commitment s h q).
    { intros h q. by apply pinned_commitment_ext. }
    assert (Esc' : pinned_scratch_root (put_root_cache (Some r) s) = Ok r).
    { unfold pinned_scratch_root, pinned_root. by rewrite Hext, <- Esc. }
    split; [|by split_and!]. split; [|split; [|done]].
    + intros q c Hq. rewrite Hext. by apply He'.
    + by intros r' [= <-].
  - rewrite (method_bind_stop _ _ _ _ _ E). exists s. split; [done|]. by apply Hfin.
  - rewrite (method_bind_unwind _ _ _ _ _ E). exists s. split; [done|]. by apply Hfin.
Qed.

(** *** Pruning *)

(** The same tree, up to recorded commitments that change none. *)
Definition same_tree_pinned t s : Prop :=
  pt_storage s = pt_storage t ∧ pt_empty_subtree_roots s = pt_empty_subtree_roots t
  ∧ pt_empty_subtree_scalars s = pt_empty_subtree_scalars t ∧ pt_root_cache s = pt_root_cache t
  ∧ pt_pruned_keys s = pt_pruned_keys t
  ∧ (∀ q, is_Some (pruned_commitments t !! key_for_path q) → is_Some (pruned_commitments s !! key_for_path q))
  ∧ (∀ h q, (length q + h = KEY_SIZE)%nat → pinned_commitment s h q = pinned_commitment t h q)
  ∧ entries_ok s ∧ pruned_commitments s !! [] = pruned_commitments t !! [].

(** Recording the commitment of a node changes no commitment. *)
Lemma pin_keeps s q c height p :
  pinned_commitment s (KEY_SIZE - length q) q = Ok c → (length p + height = KEY_SIZE)%nat →
  pinned_commitment (put_pruned_commitments (<[key_for_path q := c]> (pruned_commitments s)) s) height p
  = pinned_commitment s height p.
Proof.
  intros Hc. set (s' := put_pruned_commitments _ s). revert p; induction height as [|height IH]; intros p Hl.
  all: destruct (decide (p = q)) as [->|Hne];
    [rewrite (pinned_hit s' q c) by (cbn; apply lookup_insert_eq); rewrite <- Hc; f_equal; lia|].
  all: cbn [pinned_commitment]; cbn [pruned_commitments put_pruned_commitments s'];
    rewrite lookup_insert_ne by (by intros ?%key_for_path_inj);
    destruct (pruned_commitments s !! key_for_path p); [done|].
  - done.
  - rewrite (outcome_mapM_ext _ (λ b, pinned_child s (KEY_SIZE - height) (p ++ [b])
                                        (pinned_commitment s height (p ++ [b])))); [done|].
    intros b. unfold pinned_child. rewrite IH by (rewrite length_app; cbn; lia). done.
Qed.

Lemma same_tree_pinned_refl t : entries_ok t → same_tree_pinned t t.
Proof. intros He. split_and!; done. Qed.
Lemma same_tree_pinned_sees t s u : same_tree_pinned t s → sees s u → same_tree_pinned t u.
Proof.
  intros (E1 & E2 & E3 & E4 & E5 & E6 & E7 & _ & E9) [Hs He]. pose proof Hs as (F1 & F2 & F3 & F4 & F5 & F6).
  split_and!; try congruence; try done.
  - intros q. rewrite F6. by apply E6.
  - intros h q Hl. rewrite (same_commitment s u) by done. by apply E7.
Qed.

Lemma record_run t p s d :
  length p = KEY_SIZE → (d ≤ KEY_SIZE)%nat → same_tree_pinned t s →
  ∃ s', record_commitment p d s = ((_ ← pinned_commitment t (KEY_SIZE - d) (take d p); Ok tt), s')
  ∧ same_tree_pinned t s' 
  ∧ (is_ok (pinned_commitment t (KEY_SIZE - d) (take d p)) = true →
     is_Some (pruned_commitments s' !! key_for_path (take d p)))
  ∧ ∀ q, is_Some (pruned_commitments s !! q) → is_Some (pruned_commitments s' !! q).
Proof.
  intros Hp Hd Hs. pose proof Hs as (_ & _ & _ & _ & _ & _ & Hspec & He & _). set (q := take d p).
  assert (Hq : length q = d) by (unfold q; rewrite length_take; lia).
  assert (Hl : (length q + (KEY_SIZE - d) = KEY_SIZE)%nat) by lia.
  destruct (get_node_commitment_run s _ q Hl (pinned_compute_run s _ q Hl) s (sees_refl s He)) as (u & E & Hu).
  change (get_node_commitment_with (pinned_compute (KEY_SIZE - d) q) q) with (get_node_commitment (KEY_SIZE - d) q) in E.
  rewrite (Hspec _ _ Hl) in E. pose proof (same_tree_pinned_sees t s u Hs Hu) as Htu.
  assert (F6 : pruned_commitments u = pruned_commitments s) by apply Hu.
  unfold record_commitment. fold q. destruct (pinned_commitment t (KEY_SIZE - d) q) as [c|e|x] eqn:Ec; cbn [mbind outcome_bind] in E.
  - rewrite (method_bind_run _ _ _ _ _ E). eexists. split; [reflexivity|].
    assert (Hpin : pinned_commitment u (KEY_SIZE - length q) q = Ok c).
    { rewrite Hq. destruct Htu as (_ & _ & _ & _ & _ & _ & E7 & _). by rewrite E7. }
    split; [|split].
    + destruct Htu as (E1 & E2 & E3 & E4 & E5 & E6 & E7 & E8 & E9).
      split_and!; try done.
      * intros r Hr. cbn. rewrite lookup_insert. case_decide; [done|by apply E6].
      * intros h r Hr. rewrite pin_keeps by done. by apply E7.
      * intros r d' Hr. apply E8 in Hr as [Hlr Hr]. split; [done|]. rewrite pin_keeps; [done|done|lia].
      * cbn. by rewrite lookup_insert_ne.
    + intros _. cbn. rewrite lookup_insert_eq. done.
    + intros r Hr. cbn. rewrite lookup_insert. case_decide; [done|by rewrite F6].
  - rewrite (method_bind_stop _ _ _ _ _ E). exists u. split_and!; [done|done|done|intros; by rewrite F6].
  - rewrite (method_bind_unwind _ _ _ _ _ E). exists u. split_and!; [done|done|done|intros; by rewrite F6].
Qed.

Lemma record_all t p l s :
  length p = KEY_SIZE → (∀ d, d ∈ l → (d ≤ KEY_SIZE)%nat) → same_tree_pinned t s →
  ∃ r s', for_each (record_commitment p) l s = (r, s') ∧ same_tree_pinned t s'
  ∧ (r = Ok tt → ∀ d, d ∈ l → is_Some (pruned_commitments s' !! key_for_path (take d p)))
  ∧ (∀ q, is_Some (pruned_commitments s !! q) → is_Some (pruned_commitments s' !! q))
  ∧ ((∀ h q, is_ok (pinned_commitment t h q) = true) → r = Ok tt).
Proof.
  intros Hp. revert s; induction l as [|d l IH]; intros s Hl Hs; cbn [for_each].
  { exists (Ok tt), s. split_and!; [done|done| |done|done]. intros _ d Hd. by apply not_elem_of_nil in Hd. }
  destruct (record_run t p s d Hp (Hl d ltac:(left)) Hs) as (s1 & E & H1 & Hpin & Hmono).
  destruct (pinned_commitment t (KEY_SIZE - d) (take d p)) as [c|e|x] eqn:Ec; cbn [mbind outcome_bind] in E.
  - rewrite (method_bind_run _ _ _ _ _ E). destruct (IH s1) as (r & s2 & E2 & H2 & Hp2 & Hm2 & Ht2); [|done|].
    { intros; apply Hl; by right. }
    exists r, s2. split_and!; [done|done| |auto|done]. intros Hr d' [->|Hd']%elem_of_cons; [|by apply Hp2].
    by apply Hm2, Hpin.
  - rewrite (method_bind_stop _ _ _ _ _ E). exists (Err e), s1. split_and!; [done|done|done|done|].
    intros Ht. specialize (Ht (KEY_SIZE - d)%nat (take d p)). by rewrite Ec in Ht.
  - rewrite (method_bind_unwind _ _ _ _ _ E). exists (Panic x), s1. split_and!; [done|done|done|done|].
    intros Ht. specialize (Ht (KEY_SIZE - d)%nat (take d p)). by rewrite Ec in Ht.
Qed.

(** The tree once the leaf is gone. *)
Definition dropped p t : PinnedTree :=
  pinned_invalidate p
    (put_pruned_keys ({[ p ]} ∪ pt_pruned_keys t) (put_storage (storage_delete (key_for_path p) (pt_storage t)) t)).

Lemma slot_dropped p t q : slot (dropped p t) q = if decide (q = p) then None else slot t q.
Proof.
  cbn. rewrite get_delete. destruct (decide (q = p)) as [->|Hq]; [by rewrite decide_True|].
  rewrite decide_False; [done|]. by intros ?%key_for_path_inj.
Qed.

Lemma value_dropped p t q : length p = KEY_SIZE → q ≠ p → pinned_value (dropped p t) q = pinned_value t q.
Proof.
  intros Hp Hq. unfold pinned_value. rewrite slot_dropped, decide_False by done. cbn.
  by rewrite (bool_decide_ext (q ∈ _ ∪ _) (q ∈ pt_pruned_keys t)) by set_solver.
Qed.

(** When the whole path is recorded, removing the leaf changes no commitment. *)
Lemma dropped_commitment p t height q :
  length p = KEY_SIZE → (∀ d, (d ≤ KEY_SIZE)%nat → is_Some (pruned_commitments t !! key_for_path (take d p))) →
  pinned_commitment (dropped p t) height q = pinned_commitment t height q.
Proof.
  intros Hp Hpin. destruct (decide (q `prefix_of` p)) as [Hq|Hq].
  - assert (E : q = take (length q) p) by (destruct Hq as [r ->]; by rewrite take_app_length).
    destruct (Hpin (length q)) as [c Hc]; [rewrite <- Hp; by apply prefix_length|]. rewrite <- E in Hc.
    rewrite (pinned_hit t q c) by done. by apply pinned_hit.
  - apply pinned_commitment_ext; [done| | |done]; intros r Hr; assert (r ≠ p) by (by intros ->).
    + by rewrite slot_dropped, decide_False.
    + by apply value_dropped.
Qed.

Lemma pinned_prune_ok key t :
  pinned_ok t →
  ∃ r t', pinned_prune key t = (r, t') ∧ pinned_ok t' ∧ pinned_scratch_root t' = pinned_scratch_root t
  ∧ pt_empty_subtree_roots t' = pt_empty_subtree_roots t ∧ pt_empty_subtree_scalars t' = pt_empty_subtree_scalars t
  ∧ (∀ q, q ≠ as_bytes key → slot t' q = slot t q)
  ∧ (r = Ok tt → pt_pruned_keys t' = {[ as_bytes key ]} ∪ pt_pruned_keys t)
  ∧ (is_ok r = false → pt_storage t' = pt_storage t ∧ pt_pruned_keys t' = pt_pruned_keys t)
  ∧ (pinned_exists t (as_bytes key) = false → r = Err (PrunedData "Key does not exist or already absent") ∧ t' = t)
  ∧ (pinned_exists t (as_bytes key) = true → (∀ h q, is_ok (pinned_commitment t h q) = true) → r = Ok tt).
Proof.
  intros Hok. pose proof Hok as (He & Hr & Hm & Hn). unfold pinned_prune.
  rewrite (method_bind_run _ _ t t t) by done. pose proof (as_bytes_length key) as Hlen.
  destruct (pinned_exists t (as_bytes key)) eqn:Hex; cbn [negb].
  2:{ exists (Err (PrunedData "Key does not exist or already absent")), t. by split_and!. }
  destruct (record_all t (as_bytes key) (seq 0 (length (as_bytes key) + 1)) t Hlen) as (r & s & E & Hs & Hpin & _ & Ht).
  { intros d Hd%elem_of_seq. rewrite Hlen in Hd. unfold KEY_SIZE in *. lia. }
  { by apply same_tree_pinned_refl. }
  pose proof Hs as (E1 & E2 & E3 & E4 & E5 & _ & E7 & E8 & E9).
  assert (Esc : pinned_scratch_root s = pinned_scratch_root t).
  { unfold pinned_scratch_root, pinned_root. by rewrite E7. }
  assert (Hsok : pinned_ok s).
  { split_and!; [done| | |by rewrite E9].
    - intros x. rewrite E4, Esc. apply Hr.
    - intros p. rewrite E5, E1. apply Hm. }
  destruct r as [[]|e|x].
  2,3: first [rewrite (method_bind_stop _ _ _ _ _ E)|rewrite (method_bind_unwind _ _ _ _ _ E)];
    eexists _, s; split_and!; [done|done|done|done|done|intros; by rewrite E1|done|done|done|by intros _ ?%Ht].
  rewrite (method_bind_run _ _ _ _ _ E). do 4 erewrite method_bind_run by done.
  fold (dropped (as_bytes key) s). cbn [pruned_commitments dropped pinned_invalidate put_root_cache put_cache put_pruned_keys put_storage].
  rewrite E9, Hn. exists (Ok tt), (dropped (as_bytes key) s).
  assert (Hdc : ∀ h q, pinned_commitment (dropped (as_bytes key) s) h q = pinned_commitment s h q).
  { intros h q. apply dropped_commitment; [done|]. intros d Hd. apply Hpin; [done|].
    apply elem_of_seq. rewrite Hlen. unfold KEY_SIZE in *. lia. }
  split_and!; [done| | |done|done| |by cbn; rewrite E5|done|done|done].
  - split_and!; [|done| |by cbn; rewrite E9].
    + apply (invalidated_entries s); [by rewrite Hlen|done|done|]. intros q _ _.
      rewrite <- (Hdc _ q). by apply pinned_commitment_ext.
    + intros q Hq. rewrite slot_dropped. destruct (decide (q = as_bytes key)) as [->|Hne]; [done|].
      rewrite E1. apply Hm. cbn in Hq. set_solver.
  - unfold pinned_scratch_root, pinned_root. rewrite Hdc. by rewrite E7.
  - intros q Hq. by rewrite slot_dropped, decide_False, E1.
Qed.
End pinned_lemmas.

(** ** The public operations, as steps of a tree *)
Inductive pinned_op :=
| PinInsert (key : bytes32) (v : list byte)
| PinPrune (key : bytes32)
| PinRoot
| PinCoins (coins : list (OutPoint * TxOutput)).

Section pinned_theorems.
Context `{Blake3} `{Commitments} {S : Type} `{HS : Storage S} `{!StorageLaws S}.
Implicit Types (t : PinnedTree (S := S)).
Abbreviation slot t q := (storage_get (pt_storage t) (key_for_path q)).

Definition run_pinned t (op : pinned_op) : PinnedTree :=
  match op with
  | PinInsert key v => pinned_insert key v t
  | PinPrune key => (pinned_prune key t).2
  | PinRoot => (pinned_get_root t).2
  | PinCoins coins => (calculate_verkle_root coins t).2
  end.

Lemma clear_tree_ok t : pinned_ok (clear_tree t).
Proof.
  split_and!; [|done| |done].
  - intros p c. unfold clean_entry. cbn. by rewrite lookup_empty.
  - intros p Hp. by apply not_elem_of_empty in Hp.
Qed.

Lemma inserts_ok {A} (f : A → bytes32 * list byte) l t :
  pinned_ok t → pinned_ok (foldl (λ t x, pinned_insert (f x).1 (f x).2 t) t l).
Proof. revert t; induction l as [|x l IH]; intros t Ht; [done|]. by apply IH, pinned_insert_ok. Qed.

Lemma coins_ok coins t : pinned_ok (foldl insert_coin (clear_tree t) coins).
Proof.
  apply (inserts_ok (λ coin : OutPoint * TxOutput,
    (to_bytes32 (take KEY_SIZE (as_bytes (blake3 (coin_path coin.1 coin.2)))), le_bytes 8 (value coin.2)))).
  apply clear_tree_ok.
Qed.

Lemma run_pinned_ok ops t : pinned_ok t → pinned_ok (foldl run_pinned t ops).
Proof.
  revert t; induction ops as [|op ops IH]; intros t Ht; [done|]. cbn [foldl]. apply IH. destruct op; cbn [run_pinned].
  - by apply pinned_insert_ok.
  - by destruct (pinned_prune_ok key t Ht) as (r & t' & -> & Ht' & _).
  - by destruct (pinned_root_get t Ht) as (t' & -> & Ht' & _).
  - unfold calculate_verkle_root. erewrite method_bind_run by done.
    by destruct (pinned_root_get _ (coins_ok coins t)) as (t' & -> & Ht' & _).
Qed.

Lemma PinnedTree_new_ok (s : S) t : PinnedTree_new s = Ok t → pinned_ok t.
Proof.
  unfold PinnedTree_new. intros Hn. outcome_inv. destruct x as [roots scalars]. outcome_inv. subst.
  rewrite ensure_frame. split_and!; [|done| |done].
  - intros p c. unfold clean_entry. cbn. by rewrite lookup_empty.
  - intros p Hp. by apply not_elem_of_empty in Hp.
Qed.

Lemma total_commitment `{!CommitmentLaws} t height p : is_ok (pinned_commitment t height p) = true.
Proof.
  revert p; induction height as [|height IH]; intros p; cbn [pinned_commitment].
  all: destruct (pruned_commitments t !! _); [done|].
  - unfold pinned_commit. pose proof (commit_total [leaf_scalar t p] ltac:(unfold VERKLE_RADIX; cbn [length]; lia)).
    by destruct (pc_commit _).
  - destruct (mapM_ok (λ b, pinned_child t (KEY_SIZE - height) (p ++ [b]) (pinned_commitment t height (p ++ [b])))
      child_indices) as [cs E].
    + intros b. unfold pinned_child. destruct (pinned_exists t (p ++ [b])); [|done].
      specialize (IH (p ++ [b])). destruct (pinned_commitment t height (p ++ [b])) as [c|e|x]; [|done|done].
      cbn. unfold pinned_root_hash. pose proof (serialize_total c). by destruct (serialize_uncompressed c).
    + rewrite E. cbn. apply mapM_outcome_lookup in E as [Hl _].
      unfold child_indices in Hl. rewrite length_fmap, length_seq in Hl.
      unfold pinned_commit. pose proof (commit_total cs ltac:(lia)). by destruct (pc_commit cs).
Qed.

Lemma get_ext t t' key :
  slot t' (as_bytes key) = slot t (as_bytes key) →
  (as_bytes key ∈ pt_pruned_keys t' ↔ as_bytes key ∈ pt_pruned_keys t) → pinned_get t' key = pinned_get t key.
Proof.
  intros E1 E2. unfold pinned_get, pinned_value. rewrite E1.
  by rewrite (bool_decide_ext (as_bytes key ∈ pt_pruned_keys t') (as_bytes key ∈ pt_pruned_keys t)).
Qed.

End pinned_theorems.
