(* ===== verification/TwoTrees.v ===== *)
(** * The two Verkle trees

    What insertion and pruning do to the tree of [PinnedVerkle.v], its agreement
    with the state tree of [VerkleTree.v] where nothing was pruned, the proofs each
    accepts, and the root of a set of coins. *)

From Stdlib Require Import Init.Byte.
From S2P Require Import PolyCommit Prelude Crypto Errors Transaction Economics Utxo State VerkleTree VerkleProofs NodePrelude PinnedVerkle.

(** ** What pruning and insertion do *)
Section pinned_contract.
Context `{Blake3} `{Commitments} {S : Type} `{HS : Storage S} `{!StorageLaws S}.
Implicit Types (t : PinnedTree (S := S)).

(** C37. Roots are right and pruning keeps them.  After any operations, [get_root]
    is the root computed from the storage and the recorded commitments alone,
    and pruning a key, successful or not, leaves it as it is.  Where the key
    exists (and the commitment scheme takes the coefficients of a node) it reads as pruned
    afterwards; the others read as before. *)
Theorem pruning_keeps_the_root (s : S) (ops : list pinned_op) (t0 : PinnedTree) (key : bytes32)
    (Hnew : PinnedTree_new s = Ok t0) :
  let t := foldl run_pinned t0 ops in
  let '(r, t') := pinned_prune key t in
  (pinned_get_root t).1 = pinned_scratch_root t
  ∧ (pinned_get_root t').1 = (pinned_get_root t).1
  ∧ (CommitmentLaws → r = if pinned_exists t (as_bytes key) then Ok tt
                        else Err (PrunedData "Key does not exist or already absent"))
  ∧ (r = Ok tt → pinned_get t' key = Err (PrunedData "Key has been pruned"))
  ∧ ∀ key', r ≠ Ok tt ∨ key' ≠ key → pinned_get t' key' = pinned_get t key'.
Proof.
  pose proof (run_pinned_ok ops t0 (PinnedTree_new_ok s t0 Hnew)) as Ht. cbn zeta. revert Ht.
  generalize (foldl run_pinned t0 ops) as t. intros t Ht.
  destruct (pinned_prune_ok key t Ht) as (r & t' & -> & Ht' & Hsc & _ & _ & Hslot & Hok & Hfail & Hno & Hyes).
  destruct (pinned_root_get t Ht) as (u & -> & _). destruct (pinned_root_get t' Ht') as (u' & -> & _).
  cbn [fst]. split_and!; [done|done| | |].
  - intros Hlaws. destruct (pinned_exists t (as_bytes key)); [|by apply Hno].
    apply Hyes; [done|]. intros. by apply total_commitment.
  - intros E. unfold pinned_get. rewrite (Hok E). by rewrite bool_decide_eq_true_2 by set_solver.
  - intros key' Hor. destruct r as [[]|e|x].
    + destruct Hor as [[]|Hne]; [done|]. assert (as_bytes key' ≠ as_bytes key) by (by intros ?%as_bytes_inj).
      apply get_ext; [by apply Hslot|]. rewrite (Hok eq_refl). set_solver.
    + destruct (Hfail eq_refl) as [E1 E2]. apply get_ext; [by rewrite E1|by rewrite E2].
    + destruct (Hfail eq_refl) as [E1 E2]. apply get_ext; [by rewrite E1|by rewrite E2].
Qed.

(** An insertion is read back, lifts the pruning mark of its key, and touches no other key. *)
Theorem pinned_insert_get t (key key' : bytes32) (v : list byte) (Hv : Z.of_nat (length v) < 2 ^ 32) :
  pinned_get (pinned_insert key v t) key' = if bool_decide (key' = key) then Ok (Some v) else pinned_get t key'.
Proof.
  case_bool_decide as Hk.
  - subst key'. unfold pinned_get.
    change (pinned_insert key v t) with (pinned_invalidate (as_bytes key) (written key v t)).
    change (pt_pruned_keys (pinned_invalidate _ ?u)) with (pt_pruned_keys u).
    change (pinned_value (pinned_invalidate _ ?u)) with (pinned_value u).
    rewrite marks_written, bool_decide_eq_false_2 by set_solver.
    by rewrite pinned_value_written, decide_True.
  - assert (Hne : as_bytes key' ≠ as_bytes key) by (by intros ?%as_bytes_inj).
    assert (Hp : ¬ as_bytes key' `prefix_of` as_bytes key).
    { intros Hp. by apply prefix_key_full in Hp; [|apply as_bytes_length]. }
    apply get_ext; change (pinned_insert key v t) with (pinned_invalidate (as_bytes key) (written key v t)).
    + by apply written_untouched.
    + change (pt_pruned_keys (pinned_invalidate _ ?u)) with (pt_pruned_keys u). rewrite marks_written. set_solver.
Qed.
End pinned_contract.

(** ** The two trees

    Where nothing is recorded the tree is the state tree of [VerkleTree.v] over the same storage. *)
Section agreement.
Context `{Blake3} `{Commitments} `{HL : !CommitmentLaws} {S : Type} `{HS : Storage S} `{!StorageLaws S}.
Implicit Types (t : PinnedTree (S := S)).
Abbreviation slot t q := (storage_get (pt_storage t) (key_for_path q)).

Definition plain t : VerkleTree :=
  {| storage := pt_storage t; commitment_cache := ∅; empty_subtree_roots := pt_empty_subtree_roots t;
     empty_subtree_scalars := pt_empty_subtree_scalars t; root_cache := None; dirty := true;
     pruned_keys := pt_pruned_keys t |}.

Lemma plain_value t q : marks_ok t → pinned_value t q = get_node_value (plain t) q.
Proof.
  intros Hm. unfold pinned_value, get_node_value. cbn [storage plain].
  destruct (bool_decide (length q = KEY_SIZE)); cbn [andb]; [|done].
  case_bool_decide as Hq; [|done]. by rewrite (proj2 (Hm q Hq)).
Qed.

Lemma root_hash_agree c : pinned_root_hash c = commitment_root_hash c.
Proof.
  pose proof (serialize_total c). unfold pinned_root_hash, commitment_root_hash.
  by destruct (serialize_uncompressed c).
Qed.
Lemma commit_agree cs f :
  (length cs ≤ VERKLE_RADIX)%nat → pinned_commit cs = map_err f (pc_commit cs).
Proof. intros Hl. pose proof (commit_total cs Hl). unfold pinned_commit. by destruct (pc_commit cs). Qed.

Lemma plain_commitment t height p :
  marks_ok t → pruned_commitments t = ∅ →
  pinned_commitment t height p = node_commitment (plain t) height p.
Proof.
  intros Hm Hp. revert p; induction height as [|height IH]; intros p; cbn [pinned_commitment node_commitment].
  all: rewrite Hp, lookup_empty.
  - unfold leaf_scalar, leaf_commitment. rewrite plain_value by done. apply commit_agree. unfold VERKLE_RADIX. cbn [length]. lia.
  - rewrite (outcome_mapM_ext _ (λ b, child_value (plain t) (KEY_SIZE - height) (p ++ [b])
                                      (node_commitment (plain t) height (p ++ [b])))).
    + fold (node_polynomial (plain t) height p).
      destruct (node_polynomial (plain t) height p) as [cs|e|x] eqn:E; cbn; [|done|done].
      apply commit_agree. by rewrite (node_polynomial_length _ _ _ _ E).
    + intros b. unfold pinned_child, child_value. change (node_exists (plain t)) with (pinned_exists t).
      destruct (pinned_exists t (p ++ [b])); [|done]. rewrite <- IH.
      pose proof (total_commitment t height (p ++ [b])) as Hok.
      destruct (pinned_commitment t height (p ++ [b])) as [c|e|x]; [|done|done]. cbn.
      rewrite root_hash_agree by done. pose proof (root_hash_total c) as Hr.
      by destruct (commitment_root_hash c).
Qed.

Lemma plain_root t height p :
  marks_ok t → pruned_commitments t = ∅ → pinned_root t height p = node_root (plain t) height p.
Proof.
  intros Hm Hp. unfold pinned_root, node_root. rewrite plain_commitment by done.
  destruct (node_commitment (plain t) height p) as [c|e|x]; [|done|done]. by apply root_hash_agree.
Qed.

Lemma constants_agree n : pinned_constants n = empty_subtree_constants n.
Proof.
  assert (E : ∀ cs f, (length cs ≤ VERKLE_RADIX)%nat → (c ← pinned_commit cs; pinned_root_hash c)
    = (c ← map_err (E:=string) (F:=CoreError) f (pc_commit cs); commitment_root_hash c)).
  { intros cs f Hl. rewrite (commit_agree cs f) by done. destruct (map_err f (pc_commit cs)); [|done|done].
    by apply root_hash_agree. }
  induction n as [|n IH]; cbn [pinned_constants empty_subtree_constants].
  - rewrite (commit_agree [] (λ _, PolynomialCommitmentError "Failed to commit empty polynomial: {}")) by (unfold VERKLE_RADIX; cbn [length]; lia).
    destruct (map_err _ (pc_commit [])) as [c|e|x]; [|done|done]. cbn. by rewrite root_hash_agree.
  - rewrite IH. destruct (empty_subtree_constants n) as [[roots scalars]|e|x]; [|done|done]. cbn [mbind outcome_bind].
    rewrite (commit_agree _ (λ _, PolynomialCommitmentError "Failed to commit subtree polynomial: {}")) by (by rewrite length_replicate).
    destruct (map_err _ (pc_commit (replicate _ _))) as [c|e|x]; [|done|done]. cbn. by rewrite root_hash_agree.
Qed.

(** The storage after an insertion is the same in both trees. *)
Lemma ensure_agree ps t (u : VerkleTree) :
  pt_storage t = storage u →
  pt_storage (foldl (λ t q, pinned_ensure q t) t ps) = storage (foldl (λ x q, ensure_node q x) u ps).
Proof.
  revert t u; induction ps as [|p ps IH]; intros t u E; [done|]. cbn [foldl]. apply IH.
  unfold pinned_ensure, pinned_exists, ensure_node, node_exists. rewrite E. by case_bool_decide.
Qed.

Lemma insert_agree key v t (u : VerkleTree) :
  pt_storage t = storage u → pt_storage (pinned_insert key v t) = storage (insert_key key v u).
Proof.
  intros E. unfold pinned_insert, insert_key.
  cbn [pt_storage pinned_invalidate put_root_cache put_cache pinned_set_value put_storage
       storage invalidate_path_cache set_root_cache set_cache set_node_value set_storage].
  by rewrite (ensure_agree _ _ (set_dirty true u)).
Qed.

(** A tree whose storage, constants and records are those of a fresh history of insertions. *)
Definition unpruned t : Prop := pinned_ok t ∧ pruned_commitments t = ∅ ∧ frame_ok (plain t).

Lemma insert_unpruned key v t : unpruned t → unpruned (pinned_insert key v t).
Proof.
  intros (Hok & Hp & Hf). split; [by apply pinned_insert_ok|]. split.
  - change (pinned_insert key v t) with (pinned_invalidate (as_bytes key) (written key v t)).
    change (pruned_commitments (pinned_invalidate _ ?u)) with (pruned_commitments u).
    rewrite written_frame. cbn. rewrite Hp. apply map_empty. intros k. rewrite lookup_delete_all.
    case_bool_decide; [done|apply lookup_empty].
  - apply (frame_same (insert_key key v (plain t))); [| | |by apply insert_frame].
    + change (pinned_insert key v t) with (pinned_invalidate (as_bytes key) (written key v t)).
      cbn [empty_subtree_roots plain]. change (pt_empty_subtree_roots (pinned_invalidate _ ?u)) with (pt_empty_subtree_roots u).
      rewrite written_frame. unfold insert_key.
      by destruct (ensure_all (prefixes (as_bytes key)) (set_dirty true (plain t))) as (_ & _ & E & _).
    + change (pinned_insert key v t) with (pinned_invalidate (as_bytes key) (written key v t)).
      cbn [empty_subtree_scalars plain]. change (pt_empty_subtree_scalars (pinned_invalidate _ ?u)) with (pt_empty_subtree_scalars u).
      rewrite written_frame. unfold insert_key.
      by destruct (ensure_all (prefixes (as_bytes key)) (set_dirty true (plain t))) as (_ & _ & _ & E & _).
    + unfold node_exists. cbn [storage plain]. by rewrite (insert_agree key v t (plain t)).
Qed.

Lemma new_unpruned (s : S) t : PinnedTree_new s = Ok t → unpruned t.
Proof.
  intros Hn. split; [by eapply PinnedTree_new_ok|]. unfold PinnedTree_new in Hn.
  rewrite constants_agree in Hn by done. outcome_inv. destruct x as [roots scalars]. outcome_inv. subst.
  split; [by rewrite ensure_frame|]. split.
  - rewrite ensure_frame. done.
  - unfold node_exists. cbn [storage plain]. rewrite slot_ensure, decide_True by done. by apply bool_decide_eq_true.
Qed.

(** *** Generation *)
Lemma root_total_pinned t height p :
  marks_ok t → pruned_commitments t = ∅ → (length p + height = KEY_SIZE)%nat →
  ∃ r, computes t (pinned_node_root height p) (Ok r) ∧ node_root (plain t) height p = Ok r.
Proof.
  intros Hm Hp Hl. pose proof (pinned_node_root_run t height p Hl) as Hrun.
  rewrite (plain_root t height p Hm Hp) in Hrun. unfold node_root in *.
  rewrite <- (plain_commitment t height p Hm Hp) in *.
  pose proof (total_commitment t height p) as Hc.
  destruct (pinned_commitment t height p) as [c|e|x]; [|done|done]. cbn in *.
  pose proof (root_hash_total c) as Hr. destruct (commitment_root_hash c) as [r|e|x]; [|done|done]. by exists r.
Qed.

Lemma computes_get_same {B} t (m : PinnedTree (S := S) → method (PinnedTree (S := S)) CoreError B) r :
  (∀ s, sees t s → computes t (m s) r) → computes t (s ← get; m s) r.
Proof. intros Hm. apply computes_get. intros s Hs. by apply Hm. Qed.

Lemma same_empties t s i : same_data t s →
  pinned_empty_root s i = pinned_empty_root t i ∧ pinned_empty_scalar s i = pinned_empty_scalar t i.
Proof. intros (_ & E2 & E3 & _). unfold pinned_empty_root, pinned_empty_scalar. by rewrite E2, E3. Qed.

Lemma polynomial_run t q i :
  marks_ok t → pruned_commitments t = ∅ → length q = i → (i < KEY_SIZE)%nat →
  ∃ cs, computes t (pinned_polynomial q i) (Ok cs) ∧ node_polynomial (plain t) (KEY_SIZE - (i + 1)) q = Ok cs.
Proof.
  intros Hm Hp Hl Hi.
  assert (Hchild : ∀ c, (length (q ++ [c]) + (KEY_SIZE - (i + 1)) = KEY_SIZE)%nat) by (intros; rewrite length_app; cbn [length]; lia).
  set (g b := if pinned_exists t (q ++ [b]) then
        r ← pinned_root t (KEY_SIZE - (i + 1)) (q ++ [b]); Ok (scalar_of_root r)
        else Ok (E := CoreError) (pinned_empty_scalar t (i + 1))).
  assert (Eg : ∀ c, is_ok (g c) = true ∧ g c = child_value (plain t) (i + 1) (q ++ [c]) (node_commitment (plain t) (KEY_SIZE - (i + 1)) (q ++ [c]))).
  { intros c. unfold g, child_value. change (node_exists (plain t)) with (pinned_exists t).
    destruct (pinned_exists t (q ++ [c])); [|done].
    fold (node_root (plain t) (KEY_SIZE - (i + 1)) (q ++ [c])).
    destruct (root_total_pinned t _ _ Hm Hp (Hchild c)) as (r & _ & Er). by rewrite (plain_root t), Er by done. }
  destruct (mapM_ok g child_indices) as [cs Ecs]; [apply Eg|]. exists cs. split.
  - apply computes_get_same. intros s Hs. rewrite bool_decide_eq_false_2, <- Ecs by lia.
    apply computes_mapM. intros c _. cbv beta zeta. rewrite (same_exists t s) by apply Hs. unfold g.
    destruct (pinned_exists t (q ++ [c])).
    + apply computes_bind; [by apply pinned_node_root_run|intros; apply computes_ret].
    + rewrite (proj2 (same_empties t s (i + 1) (proj1 Hs))). apply computes_ret.
  - rewrite <- Ecs. unfold node_polynomial. replace (KEY_SIZE - (KEY_SIZE - (i + 1)))%nat with (i + 1)%nat by lia.
    apply outcome_mapM_ext. intros c. symmetry. apply Eg.
Qed.

Lemma opening_ok `{!OpeningLaws} t ps i b :
  marks_ok t → pruned_commitments t = ∅ → length (ps_path ps) = i → (i < KEY_SIZE)%nat →
  (∀ cs, node_polynomial (plain t) (KEY_SIZE - (i + 1)) (ps_path ps) = Ok cs → Exists (λ c, c ≠ scalar_zero) cs) →
  ∃ l, computes t (pinned_opening ps i b) (Ok l) ∧ checkable l.
Proof.
  intros Hm Hp Hl Hi Hne. set (q := ps_path ps) in *.
  destruct (polynomial_run t q i Hm Hp Hl Hi) as (cs & Hcs & Epoly). specialize (Hne cs Epoly).
  assert (Hq : (length q + (KEY_SIZE - i) = KEY_SIZE)%nat) by lia.
  unfold pinned_opening. fold q.
  pose proof (total_commitment t (KEY_SIZE - i) q) as Hc.
  destruct (root_total_pinned t (KEY_SIZE - (i + 1)) (q ++ [b]) Hm Hp) as (r & Hr & _); [rewrite length_app; cbn [length]; lia|].
  pose proof (get_node_commitment_run t _ q Hq (pinned_compute_run t _ q Hq)) as Hg.
  destruct (pinned_commitment t (KEY_SIZE - i) q) as [c|e|x]; [|done|done]. cbn in Hg.
  pose proof (open_total cs (from_le_bytes_mod_order [b]) (scalar_of_root r)
    ltac:(by rewrite (node_polynomial_length _ _ _ _ Epoly)) Hne) as Hop.
  exists (match pc_open cs (from_le_bytes_mod_order [b]) (scalar_of_root r) with Ok p => [p] | _ => [] end).
  split.
  2:{ destruct (pc_open _ _ _) as [op|e|x]; [|by intros op ?%not_elem_of_nil..].
      by intros op' ->%list_elem_of_singleton. }
  apply (computes_bind t _ (Ok (Some c)) _ (λ _, Ok _)); [exact Hg|]. intros o [= <-].
  apply (computes_bind t _ (Ok (scalar_of_root r)) _ (λ _, Ok _)).
  - unfold pinned_value_at_index. rewrite Hl. apply (computes_bind t _ (Ok r) _ (λ r, Ok (scalar_of_root r))); [done|].
    intros; apply computes_ret.
  - intros v [= <-]. apply (computes_bind t _ (Ok cs) _ (λ _, Ok _)); [done|]. intros p [= <-].
    destruct (pc_open cs _ _) as [o|e|x]; [apply computes_ret|apply computes_ret|done].
Qed.

Lemma siblings_run t path i ps :
  marks_ok t → pruned_commitments t = ∅ →
  steps_ok (plain t) path i ps → (i < KEY_SIZE)%nat → length path = KEY_SIZE →
  ∃ level, computes t (pinned_siblings ps i) (Ok level) ∧ level_at (plain t) path i level.
Proof.
  intros Hm Hp (He & Hpath & _) Hi Hlen. unfold level_at. destruct (alive (plain t) path i) eqn:Ha.
  - specialize (Hpath eq_refl). pose proof (alive_exists _ _ _ Ha) as Hn.
    change (node_exists (plain t)) with (pinned_exists t) in Hn.
    assert (Hl : length (take i path) = i) by (rewrite length_take; lia).
    assert (Hb : ∀ b, (length (take i path ++ [b]) + (KEY_SIZE - (i + 1)) = KEY_SIZE)%nat)
      by (intros; rewrite length_app; cbn [length]; lia).
    set (g := λ b, child_root (plain t) (KEY_SIZE - (i + 1)) (i + 1) (take i path ++ [b])).
    destruct (mapM_ok g child_indices) as [level E].
    { intros b. unfold g, child_root. destruct (node_exists (plain t) _); [|done].
      destruct (root_total_pinned t _ _ Hm Hp (Hb b)) as (r & _ & Er). by rewrite Er. }
    exists level. split; [|unfold level_ok; by rewrite Hl].
    apply computes_get_same. intros s Hs. rewrite <- E. apply computes_mapM. intros b _.
    rewrite He, Hpath. cbv beta zeta. rewrite !(same_exists t s) by apply Hs. rewrite Hn. cbn [andb].
    unfold g, child_root. change (node_exists (plain t)) with (pinned_exists t).
    destruct (pinned_exists t (take i path ++ [b])).
    + rewrite <- (plain_root t) by done. by apply pinned_node_root_run.
    + rewrite (proj1 (same_empties t s (i + 1) (proj1 Hs))). apply computes_ret.
  - eexists. split; [|reflexivity]. apply computes_get_same. intros s Hs.
    intros u Hu. exists u. split; [|done]. rewrite He. cbn [andb].
    rewrite (proj1 (same_empties t s (i + 1) (proj1 Hs))). etrans; [apply mapM_const|done].
Qed.

Lemma pinned_step_run `{!OpeningLaws} t path i b ps :
  openable (plain t) path → checkable (ps_openings ps) →
  marks_ok t → pruned_commitments t = ∅ →
  steps_ok (plain t) path i ps → length path = KEY_SIZE → path !! i = Some b →
  ∃ ps', computes t (pinned_proof_step ps (i, b)) (Ok ps') ∧ steps_ok (plain t) path (Datatypes.S i) ps'
  ∧ checkable (ps_openings ps').
Proof.
  intros Ho Hv Hm Hp Hs Hlen Hb. pose proof (lookup_lt_Some _ _ _ Hb) as Hi. rewrite Hlen in Hi.
  destruct (siblings_run t path i ps Hm Hp Hs Hi Hlen) as (level & Hlevel & Hat).
  assert (Hnil : checkable []) by (by intros op ?%not_elem_of_nil).
  assert (Hop : ∃ ops, computes t (if ps_path_exists ps && pinned_exists t (ps_path ps)
    then pinned_opening ps i b else mret []) (Ok ops) ∧ checkable ops).
  { destruct Hs as (He & Hpath & _). destruct (alive (plain t) path i) eqn:Ha.
    - destruct (_ && _); [|by exists []; split; [apply computes_ret|]]. specialize (Hpath eq_refl).
      apply opening_ok; [done..| |done|]; rewrite Hpath; [rewrite length_take; lia|by apply Ho].
    - rewrite He. exists []. split; [apply computes_ret|done]. }
  destruct Hop as (ops & Hop & Hvo). eexists. split; [|split; [exact (steps_next _ _ _ _ _ level (ps_openings ps ++ ops) Hs Hat Hb)|]].
  2:{ cbn [ps_openings]. intros op [?|?]%elem_of_app; auto. }
  unfold pinned_proof_step. apply (computes_bind t _ (Ok level) _ (λ _, Ok _)); [done|]. intros l [= <-].
  apply computes_get_same. intros s Hsee. rewrite !(same_exists t s) by apply Hsee.
  apply (computes_bind t _ (Ok ops) _ (λ _, Ok _)); [done|]. intros o [= <-].
  change (node_exists (plain t)) with (pinned_exists t). destruct (ps_path_exists ps); apply computes_ret.
Qed.

Lemma pinned_fold_run `{!OpeningLaws} t path l i ps :
  openable (plain t) path → checkable (ps_openings ps) →
  marks_ok t → pruned_commitments t = ∅ →
  steps_ok (plain t) path i ps → length path = KEY_SIZE → drop i path = l → (i ≤ KEY_SIZE)%nat →
  ∃ ps', computes t (fold_method pinned_proof_step ps (imap (λ j b, ((i + j)%nat, b)) l)) (Ok ps')
         ∧ steps_ok (plain t) path KEY_SIZE ps' ∧ checkable (ps_openings ps').
Proof.
  intros Ho Hv Hm Hp. revert i ps Hv; induction l as [|b l IH]; intros i ps Hv Hs Hlen Hd Hi; cbn [imap fold_method].
  - exists ps. split; [apply computes_ret|]. split; [|done]. apply (f_equal length) in Hd. rewrite length_drop in Hd.
    cbn [length] in Hd. by replace KEY_SIZE with i by lia.
  - assert (Hb : path !! i = Some b) by (by rewrite <- (Nat.add_0_r i), <- lookup_drop, Hd).
    destruct (pinned_step_run t path i b ps Ho Hv Hm Hp Hs Hlen Hb) as (ps1 & Hr1 & Hs1 & Hv1).
    destruct (IH (Datatypes.S i) ps1 Hv1 Hs1 Hlen) as (ps2 & Hr2 & Hs2).
    + by rewrite <- Nat.add_1_r, <- drop_drop, Hd.
    + pose proof (lookup_lt_Some _ _ _ Hb). lia.
    + exists ps2. split; [|done]. rewrite Nat.add_0_r.
      apply (computes_bind t _ (Ok ps1) _ (λ _, Ok ps2)); [done|]. intros a [= <-].
      replace (imap ((λ j b, ((i + j)%nat, b)) ∘ Datatypes.S) l) with (imap (λ j b, ((Datatypes.S i + j)%nat, b)) l); [done|].
      apply imap_ext. intros j x _. cbn. f_equal. lia.
Qed.

(** The proof, as one of the state tree. *)
Definition as_state_proof (proof : PinnedProof) : VerkleProof :=
  {| proof_type := pp_type proof; proof_path := pp_path proof; siblings := pp_siblings proof;
     leaf_value := pp_leaf_value proof; proof_root := pp_root proof;
     opening_proofs := pp_opening_proofs proof; gas_fee_distribution := None |}.

Lemma pinned_generate_run `{!OpeningLaws} t key :
  unpruned t → openable (plain t) (as_bytes key) →
  ∃ proof t', pinned_generate key t = (Ok proof, t') ∧ pinned_ok t' ∧ pt_storage t' = pt_storage t
  ∧ faithful_proof (plain t) key None (as_state_proof proof) ∧ checkable (pp_opening_proofs proof).
Proof.
  intros (Hok & Hp & Hf) Ho. pose proof Hok as (He & _ & Hm & _).
  assert (Hnil : checkable []) by (by intros op ?%not_elem_of_nil).
  destruct (pinned_fold_run t (as_bytes key) (as_bytes key) 0
    {| ps_siblings := []; ps_openings := []; ps_path := []; ps_path_exists := true |} Ho Hnil Hm Hp (steps_start (plain t) _ Hf)
    (as_bytes_length key) (drop_0 _) ltac:(lia)) as (ps & Hrun & (Hex & Hpath & Hlevels) & Hv).
  destruct (Hrun t (sees_refl t He)) as (t1 & E1 & Ht1).
  destruct (pinned_root_get t1 (sees_ok t t1 Hok Ht1)) as (t2 & E2 & Ht2 & Hs2 & _).
  unfold pinned_generate.
  change (enumerate (as_bytes key)) with (imap (λ j b, ((0 + j)%nat, b)) (as_bytes key)).
  rewrite (method_bind_run _ _ _ _ _ E1), (method_bind_run _ _ t1 t1 t1) by done.
  assert (Eroot : ∃ r, pinned_scratch_root t1 = Ok r ∧ scratch_root (plain t) = Ok r).
  { rewrite (same_root t t1) by apply Ht1.
    destruct (root_total_pinned t KEY_SIZE [] Hm Hp eq_refl) as (r & _ & Er).
    exists r. split; [|done]. unfold pinned_scratch_root. by rewrite (plain_root t). }
  destruct Eroot as (r & Er1 & Er). rewrite Er1 in E2. rewrite (method_bind_run _ _ _ _ _ E2).
  eexists _, t2. split; [reflexivity|]. split; [done|]. split; [by rewrite Hs2; apply Ht1|].
  unfold faithful_proof. cbn [as_state_proof proof_root proof_path gas_fee_distribution leaf_value proof_type siblings
    pp_root pp_path pp_leaf_value pp_type pp_siblings].
  split; [|exact Hv]. split_and!; [done|done|done| |done|exact Hlevels].
  rewrite Hex. destruct (alive (plain t) (as_bytes key) KEY_SIZE); [|done].
  rewrite (Hpath eq_refl), take_ge by (rewrite as_bytes_length; unfold KEY_SIZE; lia).
  rewrite (same_value t t1) by apply Ht1. by apply plain_value.
Qed.

(** *** Verification *)
Lemma committed_root_agree cs f :
  (length cs ≤ VERKLE_RADIX)%nat →
  ∃ r, committed_root cs = Ok (Some r) ∧ (c ← map_err (E:=string) (F:=CoreError) f (pc_commit cs); commitment_root_hash c) = Ok r.
Proof.
  intros Hl. unfold committed_root. pose proof (commit_total cs Hl) as Hc. destruct (pc_commit cs) as [c|e|x]; [|done|done].
  cbn. rewrite root_hash_agree by done. pose proof (root_hash_total c) as Hr.
  destruct (commitment_root_hash c) as [r|e|x]; [|done|done]. by exists r.
Qed.

Lemma recompute_agree proof n current root :
  ∃ r, recompute_root (as_state_proof proof) n current root = Ok r
       ∧ pinned_recompute proof n current root = Ok (Some r).
Proof.
  revert current root; induction n as [|n IH]; intros current root; cbn [pinned_recompute recompute_root]; [by exists root|].
  unfold level_root. cbn [siblings proof_path as_state_proof].
  match goal with |- context [committed_root ?cs] =>
    destruct (committed_root_agree cs (λ _, PolynomialCommitmentError "Failed to reconstruct commitment: {}"))
      as (r & -> & E) end; [rewrite length_imap, length_take; lia|].
  rewrite E. cbn. apply IH.
Qed.

Lemma start_agree t proof :
  ∃ o, start_scalar (plain t) (as_state_proof proof) = Ok o ∧ pinned_start_scalar t proof = Ok o.
Proof.
  unfold pinned_start_scalar, start_scalar. cbn [proof_type leaf_value as_state_proof].
  destruct (pp_type proof); [|by eexists]. destruct (pp_leaf_value proof) as [v|]; [|by eexists].
  destruct (committed_root_agree [value_to_scalar v] (λ _, PolynomialCommitmentError "Failed to commit leaf: {}"))
    as (r & -> & E); [unfold VERKLE_RADIX; cbn [length]; lia|].
  destruct (map_err _ (pc_commit [value_to_scalar v])) as [c|e|x]; [|done|done]. cbn in E |- *. rewrite E. by eexists.
Qed.

(** The state tree errs on an opening that cannot be checked; the other refuses it. *)
Lemma verdicts_agree l :
  openings_give_verdicts l = match check_openings l with Ok _ => Ok true | Err _ => Ok false | Panic s => Panic s end.
Proof.
  unfold check_openings. induction l as [|op l IH]; [done|]. cbn. by destruct (pc_verify (quotient_commitment op) op).
Qed.

Lemma verify_agree t proof :
  pinned_verify t proof = match verify_proof (plain t) (as_state_proof proof) with Err _ => Ok false | r => r end
  ∧ (checkable (pp_opening_proofs proof) → is_ok (verify_proof (plain t) (as_state_proof proof)) = true).
Proof.
  unfold pinned_verify, verify_proof.
  cbn [proof_path siblings proof_type leaf_value opening_proofs proof_root gas_fee_distribution as_state_proof].
  destruct (negb (bool_decide (length (pp_path proof) = _))); [done|].
  destruct (negb (bool_decide (length (pp_siblings proof) = _))); [done|].
  destruct (negb (match pp_type proof with Membership => _ | NonMembership => _ end)); [done|].
  rewrite verdicts_agree. destruct (check_openings (pp_opening_proofs proof)) as [[]|e|x] eqn:Ec.
  2,3: (split; [done|]; intros Hop; by rewrite check_openings_ok in Ec).
  cbn [mbind outcome_bind negb]. destruct (start_agree t proof) as ([current|] & -> & ->); [|done].
  cbn [mbind outcome_bind].
  destruct (recompute_agree proof KEY_SIZE current zero32) as (r & -> & ->). cbn. by case_bool_decide.
Qed.

(** *** A pinned and a state tree with the same history of insertions *)
Definition insert_all_pinned (l : list (bytes32 * list byte)) t : PinnedTree :=
  foldl (λ t x, pinned_insert x.1 x.2 t) t l.
Definition insert_all_state (l : list (bytes32 * list byte)) (u : VerkleTree (S := S)) : VerkleTree :=
  foldl (λ u x, insert_key x.1 x.2 u) u l.

Definition mirrors t (u : VerkleTree) : Prop :=
  unpruned t ∧ tree_ok u ∧ storage u = pt_storage t ∧ empty_subtree_roots u = pt_empty_subtree_roots t
  ∧ empty_subtree_scalars u = pt_empty_subtree_scalars t ∧ pt_pruned_keys t = ∅ ∧ pruned_keys u = ∅.

Lemma insert_constants key v t (u : VerkleTree) :
  pt_empty_subtree_roots (pinned_insert key v t) = pt_empty_subtree_roots t
  ∧ pt_empty_subtree_scalars (pinned_insert key v t) = pt_empty_subtree_scalars t
  ∧ pt_pruned_keys (pinned_insert key v t) = pt_pruned_keys t ∖ {[ as_bytes key ]}
  ∧ empty_subtree_roots (insert_key key v u) = empty_subtree_roots u
  ∧ empty_subtree_scalars (insert_key key v u) = empty_subtree_scalars u.
Proof.
  change (pinned_insert key v t) with (pinned_invalidate (as_bytes key) (written key v t)).
  change (pt_empty_subtree_roots (pinned_invalidate _ ?u)) with (pt_empty_subtree_roots u).
  change (pt_empty_subtree_scalars (pinned_invalidate _ ?u)) with (pt_empty_subtree_scalars u).
  change (pt_pruned_keys (pinned_invalidate _ ?u)) with (pt_pruned_keys u). rewrite written_frame.
  by destruct (ensure_all (prefixes (as_bytes key)) (set_dirty true u)) as (_ & _ & E1 & E2 & _).
Qed.

Lemma mirrors_insert key v t u : mirrors t u → mirrors (pinned_insert key v t) (insert_key key v u).
Proof.
  intros (H1 & H2 & H3 & H4 & H5 & H6 & H7).
  destruct (insert_constants key v t u) as (E1 & E2 & E3 & E4 & E5).
  split; [by apply insert_unpruned|]. split; [by apply insert_ok|].
  split; [symmetry; by apply insert_agree|]. rewrite E1, E2, E3, E4, E5, pruned_keys_insert, H6.
  split_and!; [done|done|set_solver|done].
Qed.

Lemma mirrors_new (s : S) t u :
  PinnedTree_new s = Ok t → VerkleTree_new s = Ok u → mirrors t u.
Proof.
  intros Ht Hu. split; [by eapply new_unpruned|]. split; [by eapply new_ok|].
  unfold PinnedTree_new in Ht. rewrite constants_agree in Ht by done. unfold VerkleTree_new, compute_empty_subtree_constants in Hu.
  destruct (empty_subtree_constants KEY_SIZE) as [[roots scalars]|e|x]; [|done|done]. cbn in Ht, Hu. simplify_eq.
  match goal with |- context [ensure_node [] ?x] => destruct (ensure_rest [] x) as (_ & -> & -> & _ & _ & ->) end.
  rewrite ensure_frame. split_and!; try done. cbn [pt_storage put_storage]. symmetry.
  match goal with |- pt_storage (pinned_ensure [] ?x) = storage (ensure_node [] ?y) => exact (ensure_agree [[]] x y eq_refl) end.
Qed.

Lemma mirrors_all l t u : mirrors t u → mirrors (insert_all_pinned l t) (insert_all_state l u).
Proof. revert t u; induction l as [|x l IH]; intros t u Hm; [done|]. by apply IH, mirrors_insert. Qed.

(** C34. The two trees agree.  Built over the same storage by the same insertions,
    with a commitment scheme that takes the 256 coefficients of a node and serialises
    its commitments ([CommitmentLaws]; [PolyCommit.commitment_laws] proves it of the
    repository's scheme with 256 generators), they have the same root and the same
    values, and verification gives the same answer for every proof whose openings can
    be checked; where checking one errs the state tree errs and the other refuses. *)
Theorem trees_agree (s : S) t0 (u0 : VerkleTree) (l : list (bytes32 * list byte))
    (Ht0 : PinnedTree_new s = Ok t0) (Hu0 : VerkleTree_new s = Ok u0) :
  let t := insert_all_pinned l t0 in
  let u := insert_all_state l u0 in
  (pinned_get_root t).1 = (get_root u).1
  ∧ (∀ key, pinned_get t key = get_key u key)
  ∧ ∀ proof,
      pinned_verify t proof = match verify_proof u (as_state_proof proof) with Err _ => Ok false | r => r end
      ∧ (checkable (pp_opening_proofs proof) → pinned_verify t proof = verify_proof u (as_state_proof proof)).
Proof.
  destruct (mirrors_all l t0 u0 (mirrors_new s t0 u0 Ht0 Hu0)) as ((Hok & Hp & Hf) & Hu & E1 & E2 & E3 & E4 & E5).
  cbn zeta. revert Hok Hp Hf Hu E1 E2 E3 E4 E5.
  generalize (insert_all_pinned l t0) as t, (insert_all_state l u0) as u. intros t u Hok Hp Hf Hu E1 E2 E3 E4 E5.
  pose proof Hok as (_ & _ & Hm & _). split; [|split].
  - destruct (pinned_root_get t Hok) as (t' & -> & _). destruct (get_root_ok u Hu) as (u' & -> & _). cbn [fst].
    unfold pinned_scratch_root. rewrite (plain_root t) by done. by apply (scratch_root_ext u (plain t)).
  - intros key. unfold pinned_get, get_key. rewrite E4, E5, (plain_value t) by done.
    unfold get_node_value. cbn [storage plain]. by rewrite E1.
  - intros proof. destruct (verify_agree t proof) as [-> Hok'].
    assert (E : verify_proof (plain t) (as_state_proof proof) = verify_proof u (as_state_proof proof)).
    { unfold verify_proof, start_scalar, empty_subtree_root_hash. cbn [empty_subtree_roots plain]. by rewrite E2. }
    rewrite E in *. split; [done|]. intros Hc. specialize (Hok' Hc). by destruct (verify_proof u _).
Qed.

(** Every proof of a tree without prunings verifies, in any tree of either kind. *)
Theorem pinned_proofs_verify `{!OpeningLaws} (s s' : S) t0 (u0 : VerkleTree) (l l' : list (bytes32 * list byte)) (key : bytes32)
    (Ht0 : PinnedTree_new s = Ok t0) (Hu0 : VerkleTree_new s' = Ok u0)
    (Hzero : openable (plain (insert_all_pinned l t0)) (as_bytes key))
    (Hval : alive (plain (insert_all_pinned l t0)) (as_bytes key) KEY_SIZE = true →
            is_Some (pinned_value (insert_all_pinned l t0) (as_bytes key))) :
  let t := insert_all_pinned l t0 in
  ∃ proof t', pinned_generate key t = (Ok proof, t') ∧ pt_storage t' = pt_storage t
  ∧ pinned_verify t proof = Ok true
  ∧ verify_proof (insert_all_state l' u0) (as_state_proof proof) = Ok true
  ∧ pinned_scratch_root t = Ok (pp_root proof)
  ∧ pp_leaf_value proof = (if alive (plain t) (as_bytes key) KEY_SIZE then pinned_value t (as_bytes key) else None).
Proof.
  cbn zeta. assert (Hun : unpruned (insert_all_pinned l t0)).
  { clear -Ht0 HL StorageLaws0. assert (Hun := new_unpruned s t0 Ht0). clear Ht0.
    revert t0 Hun; induction l as [|x l IH]; intros t Ht; [done|]. by apply IH, insert_unpruned. }
  assert (Hfu : frame_ok (insert_all_state l' u0)).
  { clear -Hu0 StorageLaws0. assert (Hun := new_frame s' u0 Hu0). clear Hu0.
    revert u0 Hun; induction l' as [|x l IH]; intros t Ht; [done|]. by apply IH, insert_frame. }
  revert Hun Hval Hzero. generalize (insert_all_pinned l t0) as t. intros t Hun Hval Hzero.
  destruct (pinned_generate_run t key Hun Hzero) as (proof & t' & E & _ & Hs & Hp & Hop).
  pose proof Hun as ((_ & _ & Hm & _) & Hpins & Hf).
  assert (Hval' : alive (plain t) (as_bytes key) KEY_SIZE = true → is_Some (get_node_value (plain t) (as_bytes key))).
  { intros Ha. rewrite <- plain_value by done. by apply Hval. }
  exists proof, t'. split; [done|]. split; [done|].
  pose proof Hp as (Hroot & _ & _ & Hleaf & _).
  split; [|split; [|split]].
  - rewrite (proj1 (verify_agree t proof)). by rewrite (faithful_verifies key None (plain t) (plain t)).
  - by apply (faithful_verifies key None (plain t)).
  - unfold pinned_scratch_root. by rewrite (plain_root t).
  - cbn in Hleaf. rewrite Hleaf. by rewrite plain_value.
Qed.
End agreement.

(** ** The root of the coins *)
Section coins.
Context `{Blake3} `{Commitments} {S : Type} `{HS : Storage S} `{!StorageLaws S}.
Implicit Types (t : PinnedTree (S := S)).
Abbreviation slot t q := (storage_get (pt_storage t) (key_for_path q)).

(** A second insertion of a key leaves nothing of the first. *)
Lemma overwritten key v v' t q :
  slot (written key v' (pinned_insert key v t)) q = slot (written key v' t) q.
Proof.
  rewrite !slot_written. destruct (decide (q = as_bytes key)); [done|].
  destruct (decide (q ∈ prefixes (as_bytes key))) as [Hq|Hq];
    change (pt_storage (pinned_insert key v t)) with (pt_storage (written key v t));
    rewrite slot_written; rewrite decide_False by done.
  - rewrite decide_True by done. done.
  - by rewrite decide_False.
Qed.

(** A coin is filed under its address and output index, without the id of its
    transaction: of two coins with the same address and index, the root commits
    to the one the hash map lists last. *)
Theorem coins_collide t (coins : list (OutPoint * TxOutput)) (c1 c2 : OutPoint * TxOutput)
    (Haddress : pubkey_hash c1.2 = pubkey_hash c2.2) (Hindex : c1.1.2 = c2.1.2) :
  (calculate_verkle_root (coins ++ [c1; c2]) t).1 = (calculate_verkle_root (coins ++ [c2]) t).1.
Proof.
  unfold calculate_verkle_root. do 2 erewrite method_bind_run by done. rewrite !foldl_app. cbn [foldl].
  pose proof (coins_ok coins t) as Hu. revert Hu. generalize (foldl insert_coin (clear_tree t) coins) as u. intros u Hu.
  assert (Ekey : coin_path c1.1 c1.2 = coin_path c2.1 c2.2) by (unfold coin_path; by rewrite Haddress, Hindex).
  unfold insert_coin. rewrite Ekey.
  generalize (to_bytes32 (take KEY_SIZE (as_bytes (blake3 (coin_path c2.1 c2.2))))) as key,
    (le_bytes 8 (value c1.2)) as v1, (le_bytes 8 (value c2.2)) as v2. intros key v1 v2.
  destruct (pinned_root_get (pinned_insert key v2 (pinned_insert key v1 u))) as (u1 & -> & _).
  { by do 2 apply pinned_insert_ok. }
  destruct (pinned_root_get (pinned_insert key v2 u)) as (u2 & -> & _); [by apply pinned_insert_ok|].
  cbn [fst]. unfold pinned_scratch_root, pinned_root.
  change (pinned_insert key v2 ?x) with (pinned_invalidate (as_bytes key) (written key v2 x)).
  rewrite (pinned_commitment_ext (pinned_invalidate (as_bytes key) (written key v2 u))); [done| | | |].
  - destruct (insert_constants key v2 (pinned_insert key v1 u) (plain u)) as (_ & E1 & _),
      (insert_constants key v1 u (plain u)) as (_ & E2 & _), (insert_constants key v2 u (plain u)) as (_ & E3 & _).
    etrans; [exact E1|]. rewrite E2. symmetry. exact E3.
  - intros q _. change (pt_storage (pinned_invalidate _ ?x)) with (pt_storage x). by rewrite (overwritten key v1 v2 u q).
  - intros q _. unfold pinned_value.
    change (pt_pruned_keys (pinned_invalidate _ ?x)) with (pt_pruned_keys x).
    change (pt_storage (pinned_invalidate _ ?x)) with (pt_storage x).
    rewrite overwritten, !marks_written. change (pt_pruned_keys (pinned_insert key v1 u)) with (pt_pruned_keys (written key v1 u)).
    rewrite marks_written. by rewrite (bool_decide_ext (q ∈ _ ∖ _ ∖ _) (q ∈ pt_pruned_keys u ∖ {[ as_bytes key ]})) by set_solver.
  - intros q _. change (pruned_commitments (pinned_invalidate _ ?x)) with (pruned_commitments x).
    rewrite !pins_written. change (pruned_commitments (pinned_insert key v1 u)) with (pruned_commitments (written key v1 u)).
    rewrite pins_written. by case_bool_decide.
Qed.
End coins.

(** ** Examples *)
Section pinned_examples.
#[local] Existing Instance toy_blake3.
#[local] Existing Instance toy_commitments.

Definition empty_pinned : PinnedTree :=
  match PinnedTree_new MemoryStorage_new with
  | Ok t => t
  | _ => {| pt_storage := MemoryStorage_new; pt_commitment_cache := ∅; pt_empty_subtree_roots := [];
            pt_empty_subtree_scalars := []; pt_root_cache := None; pt_pruned_keys := ∅;
            pruned_commitments := ∅; cache_hits := 0; cache_misses := 0 |}
  end.

Lemma empty_pinned_new : PinnedTree_new MemoryStorage_new = Ok empty_pinned.
Proof.
  unfold empty_pinned. destruct (PinnedTree_new MemoryStorage_new) as [t|e|p] eqn:E; [done| |].
  all: apply (f_equal is_ok) in E; vm_compute in E; discriminate.
Qed.

(** Two keys under one node of the last level. *)
Definition leaf_a : bytes32 := key_of [1].
Definition leaf_b : bytes32 := to_bytes32 (x01 :: replicate 30 x00 ++ [x01]).

(** The recorded commitment of a leaf is never read: its parent skips a child
    that is not stored.  When a neighbour is inserted the records of the path are
    dropped, and with them the pruned value. *)
Lemma pruned_value_forgotten :
  let history l := (pinned_get_root (foldl run_pinned empty_pinned l)).1 in
  history [PinInsert leaf_a [x05]; PinPrune leaf_a] = history [PinInsert leaf_a [x05]]
  ∧ history [PinInsert leaf_a [x05]; PinPrune leaf_a; PinInsert leaf_b [x06]] = history [PinInsert leaf_b [x06]]
  ∧ history [PinInsert leaf_a [x05]; PinInsert leaf_b [x06]] ≠ history [PinInsert leaf_b [x06]].
Proof.
  cbn zeta. split; [vm_compute; reflexivity|]. split; [vm_compute; reflexivity|].
  intros E. apply (f_equal (λ r, match r with Ok h => as_bytes h | _ => [] end)) in E. vm_compute in E. discriminate.
Qed.

(** The proof a pruned tree generates is refused: the node is opened without its leaf. *)
Lemma pruned_tree_proof_refused :
  let t := foldl run_pinned empty_pinned [PinInsert leaf_a [x05]; PinPrune leaf_a] in
  (match (pinned_generate leaf_a t).1 with Ok proof => pinned_verify t proof | Err e => Err e | Panic s => Panic s end)
  = Ok false.
Proof. vm_compute. reflexivity. Qed.

Definition coin (txid index v : Z) : OutPoint * TxOutput :=
  ((key_of [txid], index), {| value := v; pubkey_hash := key_of [7] |}).

Lemma coins_collide_witness :
  (calculate_verkle_root [coin 1 0 5; coin 2 0 6] empty_pinned).1 = (calculate_verkle_root [coin 2 0 6] empty_pinned).1.
Proof. apply (coins_collide empty_pinned [] (coin 1 0 5) (coin 2 0 6)); reflexivity. Defined.

(** The order of the hash map decides the root. *)
Lemma coin_order_matters :
  (calculate_verkle_root [coin 1 0 5; coin 2 0 6] empty_pinned).1
  ≠ (calculate_verkle_root [coin 2 0 6; coin 1 0 5] empty_pinned).1.
Proof.
  intros E. apply (f_equal (λ r, match r with Ok h => as_bytes h | _ => [] end)) in E. vm_compute in E. discriminate.
Qed.

Lemma pruning_keeps_the_root_witness :
  let t := foldl run_pinned empty_pinned [PinInsert leaf_a [x05]; PinInsert leaf_b [x06]] in
  (pinned_get_root (pinned_prune leaf_a t).2).1 = (pinned_get_root t).1
  ∧ pinned_get (pinned_prune leaf_a t).2 leaf_b = pinned_get t leaf_b.
Proof.
  pose proof (pruning_keeps_the_root _ [PinInsert leaf_a [x05]; PinInsert leaf_b [x06]] _ leaf_a empty_pinned_new) as Hp.
  cbn zeta in Hp |- *. destruct (pinned_prune leaf_a _) as [r t'].
  destruct Hp as (_ & E & _ & _ & Hg). split; [exact E|]. apply Hg. right. intros E2.
  apply (f_equal as_bytes) in E2. vm_compute in E2. discriminate.
Defined.

Lemma pinned_insert_get_witness :
  pinned_get (pinned_insert leaf_a [x07] (pinned_prune leaf_a (pinned_insert leaf_a [x05] empty_pinned)).2) leaf_a
  = Ok (Some [x07]).
Proof. rewrite (pinned_insert_get _ leaf_a leaf_a [x07]); [reflexivity|cbn; lia]. Defined.

(** The two trees over the repository's own scheme, with the field of three elements. *)
Definition trit_pinned : PinnedTree (H0 := trit_commitments) :=
  ok_or_default {| pt_storage := MemoryStorage_new; pt_commitment_cache := ∅; pt_empty_subtree_roots := [];
    pt_empty_subtree_scalars := []; pt_root_cache := None; pt_pruned_keys := ∅;
    pruned_commitments := ∅; cache_hits := 0; cache_misses := 0 |} (PinnedTree_new (H0 := trit_commitments) MemoryStorage_new).
Lemma trit_pinned_new : PinnedTree_new (H0 := trit_commitments) MemoryStorage_new = Ok trit_pinned.
Proof. apply ok_or_default_spec. vm_compute. reflexivity. Qed.

Lemma trees_agree_witness :
  (pinned_get_root (insert_all_pinned [(leaf_a, [x05])] trit_pinned)).1
  = (get_root (insert_all_state [(leaf_a, [x05])] trit_tree)).1.
Proof.
  exact (proj1 (trees_agree (HL := trit_commitment_laws) _ _ _ [(leaf_a, [x05])] trit_pinned_new trit_tree_new)).
Defined.

Lemma pinned_proofs_verify_witness :
  ∃ proof t', pinned_generate leaf_a (insert_all_pinned [(leaf_a, [x05])] trit_pinned) = (Ok proof, t')
  ∧ verify_proof (insert_all_state [(leaf_b, [x06])] trit_tree) (as_state_proof proof) = Ok true
  ∧ pp_leaf_value proof = Some [x05].
Proof.
  pose proof trit_opening_laws. destruct (pinned_proofs_verify (HL := trit_commitment_laws) _ _ _ _ [(leaf_a, [x05])] [(leaf_b, [x06])] leaf_a
    trit_pinned_new trit_tree_new) as (proof & t' & E & _ & _ & Hv & _ & Hl).
  - apply (openable_sparse (H0 := trit_commitments) (EqDecision0 := trit_eq_dec) _ _ x09). vm_compute. reflexivity.
  - intros _. apply (bool_decide_unpack _). vm_compute. exact I.
  - exists proof, t'. split; [exact E|]. split; [exact Hv|]. rewrite Hl. vm_compute. reflexivity.
Defined.
End pinned_examples.
