(* ===== verification/Status.v ===== *)
(** * The life of a transaction in the node's pool

    klomang-node, [mempool/status.rs]: the states of a pooled transaction and the
    transitions between them. *)

From S2P Require Import Prelude.

Inductive TransactionStatus := Pending | Validated | InOrphanPool | InBlock | Rejected.
#[global] Instance TransactionStatus_eq_dec : EqDecision TransactionStatus.
Proof. solve_decision. Defined.

Inductive TransactionStatusError :=
| InvalidTransition (current target : TransactionStatus)
| OperationNotAllowed (state : TransactionStatus) (operation : string).

Definition can_transition_to (self target : TransactionStatus) : bool :=
  match self, target with
  | Pending, Validated | Pending, InOrphanPool | Pending, Rejected => true
  | InOrphanPool, Validated | InOrphanPool, Rejected => true
  | Validated, InBlock | Validated, Rejected => true
  | InBlock, _ => false
  | Rejected, _ => false
  | s1, s2 => bool_decide (s1 = s2)
  end.

Definition transition_to (target : TransactionStatus) : method TransactionStatus TransactionStatusError unit := λ self,
  if can_transition_to self target then (Ok tt, target) else (Err (InvalidTransition self target), self).

Definition is_in_pool (self : TransactionStatus) : bool :=
  match self with Pending | Validated | InOrphanPool => true | _ => false end.
Definition is_ready_for_block (self : TransactionStatus) : bool :=
  match self with Validated => true | _ => false end.
Definition is_terminal (self : TransactionStatus) : bool :=
  match self with InBlock | Rejected => true | _ => false end.

(** ** Histories *)

(** A step of the machine: a transition that was asked for and allowed, to another
    state. *)
Inductive moves : TransactionStatus → TransactionStatus → Prop :=
| move s t : (transition_to t s).1 = Ok tt → s ≠ t → moves s t.

(** The states after each of a sequence of requests, refused ones included. *)
Fixpoint history (s : TransactionStatus) (targets : list TransactionStatus) : list TransactionStatus :=
  match targets with
  | [] => [s]
  | t :: targets => s :: history (transition_to t s).2 targets
  end.

(** How far a transaction has come. *)
Definition stage (s : TransactionStatus) : nat :=
  match s with Pending => 0 | InOrphanPool => 1 | Validated => 2 | InBlock | Rejected => 3 end.

Lemma moves_iff s t : moves s t ↔ can_transition_to s t = true ∧ s ≠ t.
Proof.
  split.
  - intros [s' t' E Hne]. unfold transition_to in E. by destruct (can_transition_to s' t').
  - intros [E Hne]. constructor; [|done]. unfold transition_to. by rewrite E.
Qed.

Lemma moves_advance s t : moves s t → (stage s < stage t)%nat.
Proof. rewrite moves_iff. destruct s, t; cbn; intros [? ?]; try done; lia. Qed.

Lemma moves_terminal s t : is_terminal s = true → ¬ moves s t.
Proof. rewrite moves_iff. destruct s; cbn; intros ? []; try done; by destruct t. Qed.

(** The life of a transaction is finite and one way: at most three moves from its
    arrival, none out of a terminal state, into a block only from [Validated], and
    a transaction that can no longer move is in a terminal state. *)
Theorem lifecycle_ends n s (Hrun : nsteps moves n Pending s) :
  (n ≤ 3)%nat
  ∧ (is_terminal s = true ↔ ∀ t, ¬ moves s t)
  ∧ (s = InBlock → ∃ m, nsteps moves m Pending Validated ∧ n = S m).
Proof.
  assert (Hst : ∀ k a b, nsteps moves k a b → (stage a + k ≤ stage b)%nat).
  { intros k a b Hk. induction Hk as [|k a b c Hab _ IH]; [lia|]. apply moves_advance in Hab. lia. }
  split; [|split].
  - specialize (Hst n Pending s Hrun). destruct s; cbn in Hst; lia.
  - split; [intros Ht t; by apply moves_terminal|]. intros Hno. destruct s; try done; exfalso.
    1: apply (Hno Validated). 2: apply (Hno InBlock). 3: apply (Hno Validated).
    all: apply moves_iff; by split.
  - intros ->. destruct n as [|n]; [by inversion Hrun|]. apply nsteps_inv_r in Hrun as (b & Hb & Hm).
    exists n. apply moves_iff in Hm as [Hm _]. by destruct b.
Qed.

(** Requests in any order: a refused one changes nothing, so whatever is asked the
    state only advances, and it stays in the pool until it is terminal. *)
Theorem requests_advance s targets :
  StronglySorted (λ a b, (stage a ≤ stage b)%nat) (history s targets)
  ∧ (is_terminal s = true → Forall (λ t, t = s) (history s targets)).
Proof.
  assert (Hstep : ∀ t s, (stage s ≤ stage (transition_to t s).2)%nat
    ∧ (is_terminal s = true → (transition_to t s).2 = s)).
  { intros t s'. unfold transition_to. by destruct s', t; cbn; split; try lia. }
  assert (Hmin : ∀ targets s, Forall (λ b, (stage s ≤ stage b)%nat) (history s targets)).
  { induction targets0 as [|t ts IH]; intros s'; cbn [history]; constructor; [lia|constructor|lia|].
    eapply Forall_impl; [apply IH|]. cbn. intros b Hb. pose proof (proj1 (Hstep t s')). lia. }
  revert s; induction targets as [|t ts IH]; intros s; cbn [history].
  - split; [repeat constructor|intros _; by repeat constructor].
  - destruct (IH (transition_to t s).2) as [Hs Ht]. split.
    + constructor; [done|]. eapply Forall_impl; [apply Hmin|]. cbn. intros b Hb. pose proof (proj1 (Hstep t s)). lia.
    + intros Hterm. rewrite (proj2 (Hstep t s) Hterm) in *. constructor; [done|]. by apply Ht.
Qed.

(** The transitions the module's documentation announces and the code refuses: an
    orphan back to [Pending], any state to [Rejected], and a terminal state to
    itself. *)
Theorem documented_transitions_refused :
  can_transition_to InOrphanPool Pending = false ∧ can_transition_to InBlock Rejected = false
  ∧ can_transition_to InBlock InBlock = false ∧ can_transition_to Rejected Rejected = false.
Proof. by repeat split. Qed.

Lemma lifecycle_ends_witness : (3 ≤ 3)%nat.
Proof.
  apply (lifecycle_ends 3 InBlock).
  apply (nsteps_l _ _ _ InOrphanPool); [apply moves_iff; by split|].
  apply (nsteps_l _ _ _ Validated); [apply moves_iff; by split|]. apply nsteps_once, moves_iff. by split.
Defined.
