(* ===== verification/UtxoTracker.v ===== *)
(** * Claims on outpoints

    klomang-node, [mempool/conflict.rs]: which transaction of the node's pool holds
    the claim on which outpoint, with replacement by fee.

    Locks are per entry in the code; a method is one step here.  The clock is read
    once per claim and is an argument.  The reference to the storage is never used
    by the code and is left out. *)

From Stdlib Require Import Init.Byte.
From S2P Require Import Prelude Crypto Transaction NodePrelude.

Inductive UtxoConflictError :=
| UtxoAlreadyClaimed (outpoint : string) (claimed_by : list byte) (current_fee new_fee : Z)
| UtxoNotFound (s : string)
| UtxoAlreadySpent (s : string)
| TransactionNotTracked (tx_hash : list byte)
| InvalidInput (s : string)
| StorageError (s : string).
#[global] Instance UtxoConflictError_eq_dec : EqDecision UtxoConflictError.
Proof. solve_decision. Defined.

(** [conflict::OutPoint] *)
Record ClaimPoint := { tx_hash : list byte; point_index : Z }.
Definition to_string (p : ClaimPoint) : string := hex_index (tx_hash p) (point_index p).

Record UtxoLock := { claimed_by : list byte; claiming_fee : Z; lock_time : Z }.

Record ConflictStats := {
  total_tracked : Z;
  total_claims : Z;
  rbf_replacements : Z;
  conflicts_detected : Z;
  claims_released : Z
}.

Record UtxoTracker := {
  claims : gmap string UtxoLock;
  tx_claims : gmap (list byte) (list string);
  stats : ConflictStats
}.

Definition UtxoTracker_new : UtxoTracker :=
  {| claims := ∅; tx_claims := ∅;
     stats := {| total_tracked := 0; total_claims := 0; rbf_replacements := 0; conflicts_detected := 0;
                 claims_released := 0 |} |}.

Definition set_claims (c : gmap string UtxoLock) (self : UtxoTracker) : UtxoTracker :=
  {| claims := c; tx_claims := tx_claims self; stats := stats self |}.
Definition set_tx_claims (c : gmap (list byte) (list string)) (self : UtxoTracker) : UtxoTracker :=
  {| claims := claims self; tx_claims := c; stats := stats self |}.
Definition set_stats (st : ConflictStats) (self : UtxoTracker) : UtxoTracker :=
  {| claims := claims self; tx_claims := tx_claims self; stats := st |}.

Section tracker.
Context `{Bincode}.

Abbreviation tracker_method := (method UtxoTracker UtxoConflictError).

Definition verify_utxo_exists (tx_hash : list byte) (_index : Z) : outcome UtxoConflictError unit :=
  ensure (negb (bool_decide (tx_hash = []))) (UtxoNotFound "Invalid tx_hash: empty").
Definition verify_utxo_unspent (_tx_hash : list byte) (_index : Z) : outcome UtxoConflictError unit := Ok tt.

Definition record_rbf_replacement (self : UtxoTracker) : UtxoTracker :=
  let st := stats self in
  set_stats {| total_tracked := total_tracked st; total_claims := total_claims st;
               rbf_replacements := wadd 64 (rbf_replacements st) 1;
               conflicts_detected := conflicts_detected st; claims_released := claims_released st |} self.

(** The first loop of [register_claims], one input. *)
Definition claim_input (fee : Z) (outpoints : list string) (input : TxInput) : tracker_method (list string) :=
  prev_tx_hash ← lift (ok_or (bincode_hash (prev_tx input)) (InvalidInput "Input serialization: {}"));
  _ ← lift (verify_utxo_exists prev_tx_hash (index input));
  _ ← lift (verify_utxo_unspent prev_tx_hash (index input));
  let outpoint_str := to_string {| tx_hash := prev_tx_hash; point_index := index input |} in
  let outpoints := outpoints ++ [outpoint_str] in
  self ← get;
  match claims self !! outpoint_str with
  | Some existing =>
      if claiming_fee existing <? fee then
        _ ← modify (λ s, set_claims (delete outpoint_str (claims s)) s);
        _ ← modify record_rbf_replacement;
        mret outpoints
      else throw (UtxoAlreadyClaimed outpoint_str (claimed_by existing) (claiming_fee existing) fee)
  | None => mret outpoints
  end.

Fixpoint claim_inputs (fee : Z) (ins : list TxInput) (outpoints : list string) : tracker_method (list string) :=
  match ins with
  | [] => mret outpoints
  | input :: ins => outpoints ← claim_input fee outpoints input; claim_inputs fee ins outpoints
  end.

(** The second loop: the [i]-th claim is taken at [now i]. *)
Definition insert_claims (tx_hash : list byte) (fee : Z) (now : nat → Z) (outpoints : list string)
    (c : gmap string UtxoLock) : gmap string UtxoLock :=
  foldl (λ c '(i, outpoint_str),
    <[outpoint_str := {| claimed_by := tx_hash; claiming_fee := fee; lock_time := now i |}]> c)
    c (enumerate outpoints).

Definition count_registration (tx : Transaction) (self : UtxoTracker) : UtxoTracker :=
  let st := stats self in
  let tracked := wadd 64 (total_tracked st) 1 in
  set_stats {| total_tracked := tracked;
               total_claims := wadd 64 (total_claims st) (Z.of_nat (length (inputs tx)));
               rbf_replacements := rbf_replacements st;
               conflicts_detected :=
                 sat_sub tracked (Z.of_nat (size (claims self)) / Z.max (Z.of_nat (size (tx_claims self))) 1);
               claims_released := claims_released st |} self.

Definition register_claims (tx : Transaction) (fee : Z) (now : nat → Z) : tracker_method unit :=
  tx_hash ← lift (ok_or (bincode_hash (id tx)) (InvalidInput "Tx serialization: {}"));
  outpoints ← claim_inputs fee (inputs tx) [];
  _ ← modify (λ s, set_claims (insert_claims tx_hash fee now outpoints (claims s)) s);
  _ ← modify (λ s, set_tx_claims (<[tx_hash := outpoints]> (tx_claims s)) s);
  modify (count_registration tx).

Definition count_release (self : UtxoTracker) : UtxoTracker :=
  let st := stats self in
  set_stats {| total_tracked := total_tracked st; total_claims := total_claims st;
               rbf_replacements := rbf_replacements st; conflicts_detected := conflicts_detected st;
               claims_released := wadd 64 (claims_released st) 1 |} self.

Definition release_claims (tx_hash : list byte) : tracker_method unit :=
  self ← get;
  match tx_claims self !! tx_hash with
  | Some outpoints =>
      _ ← modify (λ s, set_tx_claims (delete tx_hash (tx_claims s)) s);
      _ ← modify (λ s, set_claims (foldl (λ c k, delete k c) (claims s) outpoints) s);
      modify count_release
  | None => throw (TransactionNotTracked tx_hash)
  end.

Definition is_claimed (self : UtxoTracker) (outpoint : ClaimPoint) : bool :=
  bool_decide (is_Some (claims self !! to_string outpoint)).
Definition get_claiming_transaction (self : UtxoTracker) (outpoint : ClaimPoint) : option UtxoLock :=
  claims self !! to_string outpoint.
Definition get_transaction_claims (self : UtxoTracker) (tx_hash : list byte) : option (list string) :=
  tx_claims self !! tx_hash.

Definition check_conflicts (self : UtxoTracker) (tx : Transaction) :
    outcome UtxoConflictError (list ClaimPoint) :=
  fold_outcome (λ conflicts input,
    prev_tx_hash ← ok_or (bincode_hash (prev_tx input)) (InvalidInput "Input serialization: {}");
    let outpoint := {| tx_hash := prev_tx_hash; point_index := index input |} in
    Ok (if is_claimed self outpoint then conflicts ++ [outpoint] else conflicts)) [] (inputs tx).

Definition clear_all (self : UtxoTracker) : UtxoTracker := set_tx_claims ∅ (set_claims ∅ self).

Definition attempt_rbf_replacement (old_tx_hash : list byte) (new_tx : Transaction) (old_fee new_fee : Z)
    (now : nat → Z) : tracker_method bool :=
  if new_fee <=? old_fee then mret false
  else
    _ ← release_claims old_tx_hash;
    _ ← register_claims new_tx new_fee now;
    _ ← modify record_rbf_replacement;
    mret true.
End tracker.

(** ** Claims as a map *)
Definition erase (ks : list string) (c : gmap string UtxoLock) : gmap string UtxoLock :=
  foldl (λ c k, delete k c) c ks.

Lemma lookup_erase ks c k :
  erase ks c !! k = if bool_decide (k ∈ ks) then None else c !! k.
Proof.
  unfold erase. revert c; induction ks as [|j ks IH]; intros c; cbn; [done|]. rewrite IH.
  destruct (decide (k = j)) as [->|Hne].
  - rewrite lookup_delete_eq, (bool_decide_eq_true_2 (j ∈ j :: ks)) by by left. by case_bool_decide.
  - rewrite lookup_delete_ne by done. rewrite (bool_decide_ext (k ∈ j :: ks) (k ∈ ks)); [done|].
    rewrite elem_of_cons. naive_solver.
Qed.

Lemma insert_claims_app h fee now l k c :
  insert_claims h fee now (l ++ [k]) c
  = <[k := {| claimed_by := h; claiming_fee := fee; lock_time := now (length l) |}]> (insert_claims h fee now l c).
Proof.
  unfold insert_claims, enumerate. rewrite imap_app, foldl_app. cbn. by rewrite Nat.add_0_r.
Qed.

(** After the second loop an outpoint of the list has the new lock, and the others
    are as before. *)
Lemma lookup_insert_claims h fee now l c k :
  if bool_decide (k ∈ l)
  then ∃ i, l !! i = Some k ∧
    insert_claims h fee now l c !! k = Some {| claimed_by := h; claiming_fee := fee; lock_time := now i |}
  else insert_claims h fee now l c !! k = c !! k.
Proof.
  induction l as [|j l IH] using rev_ind; [done|]. rewrite insert_claims_app.
  destruct (decide (k = j)) as [->|Hne].
  - rewrite bool_decide_eq_true_2 by set_solver. exists (length l).
    rewrite lookup_app_r, Nat.sub_diag by lia. by rewrite lookup_insert_eq.
  - rewrite lookup_insert_ne by done. repeat case_bool_decide; try set_solver.
    destruct IH as (i & Hi & E). exists i. split; [by apply lookup_app_l_Some|done].
Qed.

Section claims.
Context `{BincodeLaws}.
Implicit Types (tx : Transaction) (s : UtxoTracker) (ins : list TxInput).

(** The keys of inputs and transactions. *)
Definition key_of (i : TxInput) : string := to_string {| tx_hash := hash_bytes (prev_tx i); point_index := index i |}.
Definition keys_of (ins : list TxInput) : list string := key_of <$> ins.

(** The key of an outpoint names it. *)
Lemma key_of_inj i j : key_of i = key_of j ↔ outpoint_of i = outpoint_of j.
Proof.
  unfold key_of, to_string, outpoint_of. split.
  - intros [E1%hash_bytes_inj E2]%hex_index_inj. cbn in *. congruence.
  - intros [= -> ->]. done.
Qed.

(** The claim on [k] yields to [fee]. *)
Definition yields (fee : Z) (c : gmap string UtxoLock) (k : string) : Prop :=
  ∀ lock, c !! k = Some lock → claiming_fee lock < fee.

Lemma yields_delete fee c j k : yields fee c j → yields fee (delete j c) k ↔ yields fee c k.
Proof.
  intros Hj. unfold yields. destruct (decide (j = k)) as [->|Hne].
  - rewrite lookup_delete_eq. naive_solver.
  - by rewrite lookup_delete_ne.
Qed.

Lemma claim_input_run fee acc i s :
  (yields fee (claims s) (key_of i) ∧ ∃ s', claim_input fee acc i s = (Ok (acc ++ [key_of i]), s')
    ∧ claims s' = delete (key_of i) (claims s) ∧ tx_claims s' = tx_claims s)
  ∨ ∃ lock, claims s !! key_of i = Some lock ∧ fee ≤ claiming_fee lock
    ∧ claim_input fee acc i s = (Err (UtxoAlreadyClaimed (key_of i) (claimed_by lock) (claiming_fee lock) fee), s).
Proof.
  unfold claim_input. erewrite method_bind_run by (unfold lift; by rewrite hash_bytes_spec).
  erewrite method_bind_run.
  2:{ unfold lift, verify_utxo_exists. rewrite bool_decide_eq_false_2; [done|].
      eapply bincode_nonempty. apply hash_bytes_spec. }
  erewrite method_bind_run by done. cbv zeta. fold (key_of i). erewrite method_bind_run by done.
  destruct (claims s !! key_of i) as [lock|] eqn:El.
  - destruct (claiming_fee lock <? fee) eqn:Ef.
    + left. split; [intros l El'; simplify_eq; lia|]. eexists. by split.
    + right. exists lock. split; [done|]. split; [lia|done].
  - left. split; [by intros l El'; simplify_eq|]. exists s. split; [done|]. by rewrite delete_id.
Qed.

Lemma claim_inputs_run fee ins acc s :
  let '(r, s') := claim_inputs fee ins acc s in
  tx_claims s' = tx_claims s
  ∧ match r with
    | Ok l => l = acc ++ keys_of ins ∧ Forall (yields fee (claims s)) (keys_of ins)
              ∧ claims s' = erase (keys_of ins) (claims s)
    | Err e => ∃ pre i post lock, ins = pre ++ i :: post ∧ Forall (yields fee (claims s)) (keys_of pre)
        ∧ claims s !! key_of i = Some lock ∧ fee ≤ claiming_fee lock
        ∧ e = UtxoAlreadyClaimed (key_of i) (claimed_by lock) (claiming_fee lock) fee
        ∧ claims s' = erase (keys_of pre) (claims s)
    | Panic _ => False
    end.
Proof.
  revert acc s; induction ins as [|i ins IH]; intros acc s; cbn [claim_inputs].
  { cbn. split; [done|]. rewrite app_nil_r. by repeat split. }
  destruct (claim_input_run fee acc i s) as [(Hy & s1 & E & Hc & Ht)|(lock & Hl & Hf & E)].
  2:{ erewrite method_bind_stop by exact E. split; [done|]. exists [], i, ins, lock. by repeat split. }
  erewrite method_bind_run by exact E. specialize (IH (acc ++ [key_of i]) s1).
  assert (Hiff : ∀ k, yields fee (claims s1) k ↔ yields fee (claims s) k)
    by (intros; rewrite Hc; by apply yields_delete).
  destruct (claim_inputs fee ins (acc ++ [key_of i]) s1) as [[l|e|p] s2]; destruct IH as [Ht2 IH];
    (split; [congruence|]); [| |done].
  - destruct IH as (-> & Hall & Hc2). rewrite <- app_assoc. split; [done|]. split.
    + constructor; [done|]. eapply Forall_impl; [exact Hall|]. intros k. apply Hiff.
    + by rewrite Hc2, Hc.
  - destruct IH as (pre & j & post & lock & -> & Hall & Hl & Hf & -> & Hc2).
    exists (i :: pre), j, post, lock. split; [done|]. split.
    { constructor; [done|]. eapply Forall_impl; [exact Hall|]. intros k. apply Hiff. }
    rewrite Hc in Hl. apply lookup_delete_Some in Hl as [_ Hl]. split; [done|]. split; [done|].
    split; [done|]. by rewrite Hc2, Hc.
Qed.

Lemma register_run tx fee now s :
  let ks := keys_of (inputs tx) in
  let '(r, s') := register_claims tx fee now s in
  match r with
  | Ok _ => Forall (yields fee (claims s)) ks
            ∧ claims s' = insert_claims (hash_bytes (id tx)) fee now ks (erase ks (claims s))
            ∧ tx_claims s' = <[hash_bytes (id tx) := ks]> (tx_claims s)
  | Err e => tx_claims s' = tx_claims s
      ∧ ∃ pre i post lock, inputs tx = pre ++ i :: post ∧ Forall (yields fee (claims s)) (keys_of pre)
        ∧ claims s !! key_of i = Some lock ∧ fee ≤ claiming_fee lock
        ∧ e = UtxoAlreadyClaimed (key_of i) (claimed_by lock) (claiming_fee lock) fee
        ∧ claims s' = erase (keys_of pre) (claims s)
  | Panic _ => False
  end.
Proof.
  cbv zeta. unfold register_claims.
  erewrite method_bind_run by (unfold lift; by rewrite hash_bytes_spec).
  pose proof (claim_inputs_run fee (inputs tx) [] s) as Hl.
  destruct (claim_inputs fee (inputs tx) [] s) as [[l|e|p] s1] eqn:El; destruct Hl as [Ht Hl]; [| |done].
  - destruct Hl as (-> & Hall & Hc). erewrite method_bind_run by exact El.
    do 2 erewrite method_bind_run by done. cbn. rewrite Hc, Ht. by repeat split.
  - erewrite method_bind_stop by exact El. done.
Qed.

(** Registration, on every branch.  It succeeds exactly when the fee beats every
    claim on the inputs, then takes them all.  Otherwise the first claim it cannot
    beat is the error, and the claims it beat before that one are gone, though
    nothing was registered. *)
Theorem register_claims_spec tx fee now s :
  let '(r, s') := register_claims tx fee now s in
  match r with
  | Ok _ =>
      (∀ i lock, i ∈ inputs tx → claims s !! key_of i = Some lock → claiming_fee lock < fee)
      ∧ tx_claims s' = <[hash_bytes (id tx) := keys_of (inputs tx)]> (tx_claims s)
      ∧ ∀ k, if bool_decide (k ∈ keys_of (inputs tx))
             then ∃ t, claims s' !! k = Some {| claimed_by := hash_bytes (id tx); claiming_fee := fee; lock_time := t |}
             else claims s' !! k = claims s !! k
  | Err e =>
      tx_claims s' = tx_claims s
      ∧ ∃ pre i post lock, inputs tx = pre ++ i :: post
        ∧ claims s !! key_of i = Some lock ∧ fee ≤ claiming_fee lock
        ∧ e = UtxoAlreadyClaimed (key_of i) (claimed_by lock) (claiming_fee lock) fee
        ∧ ∀ k, claims s' !! k = if bool_decide (k ∈ keys_of pre) then None else claims s !! k
  | Panic _ => False
  end.
Proof.
  pose proof (register_run tx fee now s) as Hr.
  destruct (register_claims tx fee now s) as [[u|e|p] s']; [| |done].
  - destruct Hr as (Hall & Hc & Ht). split; [|split; [done|]].
    + intros i lock Hi Hl. rewrite Forall_forall in Hall.
      exact (Hall (key_of i) (list_elem_of_fmap_2 key_of _ _ Hi) lock Hl).
    + intros k. pose proof (lookup_insert_claims (hash_bytes (id tx)) fee now (keys_of (inputs tx))
        (erase (keys_of (inputs tx)) (claims s)) k) as Hk. rewrite <- Hc in Hk. case_bool_decide as Hin.
      * destruct Hk as (j & _ & ->). by eexists.
      * by rewrite Hk, lookup_erase, bool_decide_eq_false_2.
  - destruct Hr as (Ht & pre & i & post & lock & Hi & _ & Hl & Hf & He & Hc). split; [done|].
    exists pre, i, post, lock. split_and!; try done. intros k. by rewrite Hc, lookup_erase.
Qed.

(** ** Claims are backed, and exclusive when registrations are checked *)

(** A claim is in the list of the transaction that holds it. *)
Definition backed s : Prop :=
  ∀ k lock, claims s !! k = Some lock →
    ∃ l, tx_claims s !! claimed_by lock = Some l ∧ k ∈ l.
(** A transaction holds the claims of its list. *)
Definition holds s : Prop :=
  ∀ h l k, tx_claims s !! h = Some l → k ∈ l → ∃ lock, claims s !! k = Some lock ∧ claimed_by lock = h.

Lemma release_run h s :
  release_claims h s
  = match tx_claims s !! h with
    | Some l => (Ok tt, count_release (set_claims (erase l (claims s)) (set_tx_claims (delete h (tx_claims s)) s)))
    | None => (Err (TransactionNotTracked h), s)
    end.
Proof. unfold release_claims. erewrite method_bind_run by done. by destruct (tx_claims s !! h). Qed.

(** What the tracked lists are: the keys of transactions of a set in which the id
    determines the inputs. *)
Section universe.
Context (U : Transaction → Prop).
Context (U_ids : ∀ t t', U t → U t' → id t = id t' → inputs t = inputs t').

Definition listed s : Prop :=
  ∀ h l, tx_claims s !! h = Some l → ∃ t, U t ∧ h = hash_bytes (id t) ∧ l = keys_of (inputs t).
Record tracker_ok s : Prop := { tk_listed : listed s; tk_backed : backed s }.

Lemma release_ok h s : tracker_ok s → tracker_ok (release_claims h s).2.
Proof.
  intros [Hl Hb]. rewrite release_run. destruct (tx_claims s !! h) as [l|] eqn:Eh; [|done]. cbn [snd].
  split.
  - intros h' l' E. cbn in E. apply lookup_delete_Some in E as [_ E]. by apply Hl.
  - intros k lock E. cbn in E. rewrite lookup_erase in E. case_bool_decide as Hk; [done|].
    destruct (Hb _ _ E) as (l' & E' & Hk'). exists l'. split; [|done]. cbn. apply lookup_delete_Some.
    split; [|done]. intros ->. congruence.
Qed.

Lemma register_ok tx fee now s : U tx → tracker_ok s → tracker_ok (register_claims tx fee now s).2.
Proof.
  intros Hu [Hl Hb]. pose proof (register_run tx fee now s) as Hr.
  destruct (register_claims tx fee now s) as [[u|e|p] s']; cbn [snd]; [| |done].
  - destruct Hr as (_ & Hc & Ht). split.
    + intros h l E. rewrite Ht in E. apply lookup_insert_Some in E as [[<- <-]|[_ E]]; [by exists tx|by apply Hl].
    + intros k lock E. rewrite Ht.
      pose proof (lookup_insert_claims (hash_bytes (id tx)) fee now (keys_of (inputs tx))
        (erase (keys_of (inputs tx)) (claims s)) k) as Hk. rewrite <- Hc in Hk. case_bool_decide as Hin.
      * destruct Hk as (j & _ & Ek). simplify_eq. cbn. rewrite lookup_insert_eq. eauto.
      * rewrite Hk, lookup_erase in E. case_bool_decide; [done|]. destruct (Hb _ _ E) as (l & E' & Hkl).
        destruct (decide (claimed_by lock = hash_bytes (id tx))) as [Eh|Hne].
        -- destruct (Hl _ _ E') as (t & Hut & Eh' & ->). destruct Hin.
           rewrite (U_ids tx t) by (try done; apply hash_bytes_inj; congruence). done.
        -- exists l. by rewrite lookup_insert_ne.
  - destruct Hr as (Ht & pre & i & post & lock & _ & _ & _ & _ & _ & Hc). split.
    + intros h l E. rewrite Ht in E. by apply Hl.
    + intros k l E. rewrite Hc, lookup_erase in E. rewrite Ht. case_bool_decide; [done|]. by apply Hb.
Qed.
End universe.

Inductive tracker_op :=
| OpRegister (tx : Transaction) (fee : Z) (now : nat → Z)
| OpRelease (h : list byte)
| OpReplace (h : list byte) (tx : Transaction) (old_fee new_fee : Z) (now : nat → Z).
Definition op_tx (op : tracker_op) : option Transaction :=
  match op with OpRegister tx _ _ | OpReplace _ tx _ _ _ => Some tx | OpRelease _ => None end.
Definition run_op s (op : tracker_op) : UtxoTracker :=
  match op with
  | OpRegister tx fee now => (register_claims tx fee now s).2
  | OpRelease h => (release_claims h s).2
  | OpReplace h tx old_fee new_fee now => (attempt_rbf_replacement h tx old_fee new_fee now s).2
  end.

Lemma replace_run h tx old_fee new_fee now s :
  attempt_rbf_replacement h tx old_fee new_fee now s
  = if new_fee <=? old_fee then (Ok false, s)
    else match release_claims h s with
         | (Ok _, s1) =>
             match register_claims tx new_fee now s1 with
             | (Ok _, s2) => (Ok true, record_rbf_replacement s2)
             | (Err e, s2) => (Err e, s2)
             | (Panic p, s2) => (Panic p, s2)
             end
         | (Err e, s1) => (Err e, s1)
         | (Panic p, s1) => (Panic p, s1)
         end.
Proof.
  unfold attempt_rbf_replacement. destruct (new_fee <=? old_fee); [done|].
  destruct (release_claims h s) as [[[]|e|p] s1] eqn:E1;
    [erewrite method_bind_run by exact E1|by erewrite method_bind_stop by exact E1|by erewrite method_bind_unwind by exact E1].
  destruct (register_claims tx new_fee now s1) as [[[]|e|p] s2] eqn:E2;
    [erewrite method_bind_run by exact E2|by erewrite method_bind_stop by exact E2|by erewrite method_bind_unwind by exact E2].
  done.
Qed.

(** Whatever is registered, released and replaced, and with whatever outcome, every
    claim belongs to a tracked transaction which lists it.  The ids of the
    transactions must determine their inputs. *)
Theorem claims_stay_backed (U : Transaction → Prop) (ops : list tracker_op)
    (Hids : ∀ t t', U t → U t' → id t = id t' → inputs t = inputs t')
    (Hops : Forall (λ op, ∀ t, op_tx op = Some t → U t) ops) :
  tracker_ok U (foldl run_op UtxoTracker_new ops).
Proof.
  assert (Hnew : tracker_ok U UtxoTracker_new) by by split.
  revert Hnew. generalize UtxoTracker_new. induction Hops as [|op ops Hop Hops IH]; intros s Hs; [done|].
  cbn [foldl]. apply IH. clear IH. destruct op as [tx fee now|h|h tx fo fn now]; cbn [run_op op_tx] in *.
  - apply register_ok; auto.
  - by apply release_ok.
  - rewrite replace_run. destruct (fn <=? fo); [done|].
    pose proof (release_ok U h s Hs) as H1.
    destruct (release_claims h s) as [[[]|e|p] s1]; cbn [snd] in *; [|done..].
    pose proof (register_ok U Hids tx fn now s1 (Hop tx eq_refl) H1) as H2.
    destruct (register_claims tx fn now s1) as [[[]|e|p] s2]; cbn [snd] in *; [|done..]. destruct H2 as [Hl Hb]. by split.
Qed.

Lemma check_conflicts_nil tx s :
  check_conflicts s tx = Ok [] ↔ Forall (λ i, claims s !! key_of i = None) (inputs tx).
Proof.
  unfold check_conflicts.
  set (f := λ conflicts input, _). 
  assert (Hf : ∀ l acc, fold_outcome f acc l = Ok [] ↔ acc = [] ∧ Forall (λ i, claims s !! key_of i = None) l).
  { intros l. induction l as [|i l IH]; intros acc; cbn [fold_outcome].
    { unfold mret, outcome_ret. split; [intros [= ->]; by split|by intros [-> _]]. }
    assert (Ef : f acc i = Ok (if is_claimed s {| tx_hash := hash_bytes (prev_tx i); point_index := index i |}
      then acc ++ [{| tx_hash := hash_bytes (prev_tx i); point_index := index i |}] else acc)).
    { unfold f. by rewrite hash_bytes_spec. }
    rewrite Ef. cbn [mbind outcome_bind]. rewrite IH, Forall_cons. unfold is_claimed. fold (key_of i).
    destruct (claims s !! key_of i); [rewrite bool_decide_eq_true_2 by done|rewrite bool_decide_eq_false_2 by by intros []].
    - split; [intros [E _]; by destruct acc|naive_solver].
    - naive_solver. }
  rewrite Hf. naive_solver.
Qed.

(** The operations of a caller that registers only when there is no conflict. *)
Definition run_checked s (op : tracker_op) : UtxoTracker :=
  match op with
  | OpRegister tx _ _ =>
      match check_conflicts s tx with Ok [] => run_op s op | _ => s end
  | _ => run_op s op
  end.
Definition no_replacement (op : tracker_op) : Prop :=
  match op with OpReplace _ _ _ _ _ => False | _ => True end.

Lemma checked_register_holds tx fee now s :
  check_conflicts s tx = Ok [] → holds s → holds (register_claims tx fee now s).2.
Proof.
  intros Hc%check_conflicts_nil Hh. pose proof (register_run tx fee now s) as Hr.
  destruct (register_claims tx fee now s) as [[u|e|p] s']; cbn [snd]; [| |done].
  2:{ destruct Hr as (_ & pre & i & post & lock & Hi & _ & Hl & _). rewrite Hi, Forall_app, Forall_cons in Hc.
      destruct Hc as (_ & Hn & _). congruence. }
  destruct Hr as (_ & Hcl & Ht). intros h l k E Hk. rewrite Ht in E.
  pose proof (lookup_insert_claims (hash_bytes (id tx)) fee now (keys_of (inputs tx))
    (erase (keys_of (inputs tx)) (claims s)) k) as Hlk. rewrite <- Hcl in Hlk.
  apply lookup_insert_Some in E as [[<- <-]|[Hne E]].
  - rewrite bool_decide_eq_true_2 in Hlk by done. destruct Hlk as (j & _ & ->). by eexists.
  - destruct (Hh h l k E Hk) as (lock & El & Hb). rewrite bool_decide_eq_false_2 in Hlk.
    + rewrite Hlk, lookup_erase, bool_decide_eq_false_2; [by exists lock|].
      intros (i & -> & Hi)%list_elem_of_fmap. rewrite Forall_forall in Hc. rewrite (Hc i Hi) in El. done.
    + intros (i & -> & Hi)%list_elem_of_fmap. rewrite Forall_forall in Hc. rewrite (Hc i Hi) in El. done.
Qed.

Lemma release_holds h s : holds s → holds (release_claims h s).2.
Proof.
  intros Hh. rewrite release_run. destruct (tx_claims s !! h) as [l|] eqn:Eh; [|done]. cbn [snd].
  intros h' l' k E Hk. cbn in E |- *. apply lookup_delete_Some in E as [Hne E].
  destruct (Hh h' l' k E Hk) as (lock & El & Hb). exists lock. split; [|done].
  rewrite lookup_erase, bool_decide_eq_false_2; [done|].
  intros Hin. destruct (Hh h l k Eh Hin) as (lock' & El' & Hb'). congruence.
Qed.

(** When every registration is preceded by a check that found no conflict, the pool
    is free of double spends: a transaction holds every outpoint it lists, so no
    outpoint is listed by two tracked transactions. *)
Theorem checked_claims_exclusive (ops : list tracker_op) (Hops : Forall no_replacement ops) :
  let s := foldl run_checked UtxoTracker_new ops in
  holds s
  ∧ ∀ h h' l l' k, tx_claims s !! h = Some l → tx_claims s !! h' = Some l' → k ∈ l → k ∈ l' → h = h'.
Proof.
  assert (Hs : holds (foldl run_checked UtxoTracker_new ops)).
  { assert (Hnew : holds UtxoTracker_new) by by intros h l k E.
    revert Hnew. generalize UtxoTracker_new. induction Hops as [|op ops Hop Hops IH]; intros s Hs; [done|].
    cbn [foldl]. apply IH. destruct op as [tx fee now|h|h tx fo fn now]; cbn [run_checked]; [|by apply release_holds|done].
    destruct (check_conflicts s tx) as [[|]|e|p] eqn:E; [|done..]. by apply checked_register_holds. }
  split; [done|]. intros h h' l l' k E E' Hk Hk'.
  destruct (Hs h l k E Hk) as (x & Ex & <-), (Hs h' l' k E' Hk') as (y & Ey & <-). congruence.
Qed.

(** ** Where claims are lost *)

(** A replaced transaction takes the claim of its replacement with it: after a
    registration outbids the holder of an outpoint, releasing the old holder frees
    the outpoint, though the new holder is tracked and lists it.  Then any third
    transaction may claim it for any fee. *)
Theorem release_frees_replacement old l new fee now s k
    (Hold : tx_claims s !! old = Some l) (Hk : k ∈ l) (Hnew : k ∈ keys_of (inputs new))
    (Hid : old ≠ hash_bytes (id new)) (Hok : (register_claims new fee now s).1 = Ok tt) :
  let s' := (release_claims old (register_claims new fee now s).2).2 in
  (release_claims old (register_claims new fee now s).2).1 = Ok tt
  ∧ tx_claims s' !! hash_bytes (id new) = Some (keys_of (inputs new)) ∧ claims s' !! k = None
  ∧ ∀ third fee' now', keys_of (inputs third) = [k] →
      (register_claims third fee' now' s').1 = Ok tt.
Proof.
  pose proof (register_run new fee now s) as Hr.
  destruct (register_claims new fee now s) as [r s1]; cbn [fst snd] in *. subst r.
  destruct Hr as (_ & Hc & Ht). rewrite release_run.
  rewrite Ht, lookup_insert_ne, Hold by done. cbn [fst snd].
  set (s' := count_release _). assert (Hn : claims s' !! k = None).
  { cbn. rewrite lookup_erase. by rewrite bool_decide_eq_true_2. }
  split; [done|]. split.
  { cbn. by rewrite lookup_delete_ne, lookup_insert_eq by done. }
  split; [done|]. intros third fee' now' Hth. pose proof (register_run third fee' now' s') as Hr.
  destruct (register_claims third fee' now' s') as [[[]|e|p] s2]; [done| |done].
  destruct Hr as (_ & pre & i & post & lock & Hi & _ & El & _).
  rewrite Hi in Hth. unfold keys_of in Hth. rewrite fmap_app, fmap_cons in Hth.
  destruct pre as [|j pre]; cbn in Hth; injection Hth as <- Hth; [congruence|by destruct pre].
Qed.
End claims.

(** ** Examples *)
Section examples.
#[local] Existing Instance plain_bincode.
#[local] Existing Instance plain_bincode_laws.

Definition claim_hash (n : Z) : Hash := to_bytes32 (be_bytes 32 n).
Definition spending (n : Z) (points : list (Z * Z)) : Transaction :=
  {| id := claim_hash n;
     inputs := (λ '(h, i), {| prev_tx := claim_hash h; index := i; signature := []; pubkey := []; sighash_type := All |})
       <$> points;
     outputs := []; execution_payload := []; contract_address := None; gas_limit := 0; max_fee_per_gas := 0;
     chain_id := 1; locktime := 0 |}.
Definition cheap : Transaction := spending 1 [(7, 0); (8, 0)].
Definition better : Transaction := spending 2 [(7, 0)].
Definition third : Transaction := spending 3 [(7, 0)].
Definition clock0 : nat → Z := λ i, 100 + Z.of_nat i.
Definition sample_ops : list tracker_op :=
  [OpRegister cheap 10 clock0; OpRegister better 20 clock0; OpRegister third 20 clock0; OpRelease (as_bytes (id better))].
Definition sample_universe (t : Transaction) : Prop := t ∈ [cheap; better; third].

Lemma claims_stay_backed_witness : tracker_ok sample_universe (foldl run_op UtxoTracker_new sample_ops).
Proof.
  apply (claims_stay_backed sample_universe sample_ops).
  - intros t t' Ht Ht' E. apply (f_equal as_bytes) in E. unfold sample_universe in *.
    rewrite !elem_of_cons, !elem_of_nil in Ht, Ht'.
    destruct Ht as [->|[->|[->|[]]]], Ht' as [->|[->|[->|[]]]]; first [reflexivity|vm_compute in E; discriminate].
  - unfold sample_ops, sample_universe. rewrite !Forall_cons. split_and!; [..|constructor]; cbn; intros t [= <-]; set_solver.
Defined.

(** The checked caller refuses the second and third transactions. *)
Lemma checked_claims_exclusive_witness : holds (foldl run_checked UtxoTracker_new sample_ops).
Proof. apply (checked_claims_exclusive sample_ops). repeat constructor. Defined.

(** [better] outbids [cheap], [cheap] is released, and [third] takes the outpoint for
    nothing. *)
Definition outbid : UtxoTracker := (register_claims cheap 10 clock0 UtxoTracker_new).2.
Lemma release_frees_replacement_witness :
  (register_claims third 0 clock0
     (release_claims (as_bytes (id cheap)) (register_claims better 20 clock0 outbid).2).2).1 = Ok tt.
Proof.
  refine (proj2 (proj2 (proj2 (release_frees_replacement (as_bytes (id cheap)) (keys_of (inputs cheap)) better 20 clock0
    outbid (key_of {| prev_tx := claim_hash 7; index := 0; signature := []; pubkey := []; sighash_type := All |})
    _ _ _ _ _))) third 0 clock0 _).
  - vm_compute. reflexivity.
  - cbn. left.
  - cbn. left.
  - vm_compute. discriminate.
  - vm_compute. reflexivity.
  - reflexivity.
Defined.
End examples.
