(* ===== verification/ConflictGraph.v ===== *)
(** * The conflict graph

    klomang-node, [mempool/conflict_graph.rs]: for every transaction of the pool the
    transactions it conflicts with, its parents and children, and an index from
    outpoints to the transactions that claim them.

    A method takes its locks at the start and is one step.  The reference to the
    storage is never used by the code and is left out.  Where a [HashSet] is
    iterated and the order reaches a result, the order is the argument [order]. *)

From Stdlib Require Import Init.Byte.
From S2P Require Import Prelude Crypto Transaction NodePrelude.

(** [TxHash] wraps the bytes. *)
Definition TxHash : Type := list byte.
(** [conflict_graph::OutPoint] *)
Definition GraphPoint : Type := list byte * Z.

Record ConflictNode := {
  node_hash : TxHash;
  conflicting_with : gset TxHash;
  node_parents : gset TxHash;
  node_children : gset TxHash;
  total_fee : Z;
  node_size : Z;
  is_high_risk : bool
}.
Definition ConflictNode_new (tx_hash : TxHash) (fee size : Z) : ConflictNode :=
  {| node_hash := tx_hash; conflicting_with := ∅; node_parents := ∅; node_children := ∅; total_fee := fee;
     node_size := size; is_high_risk := false |}.

Definition set_conflicts (s : gset TxHash) (n : ConflictNode) : ConflictNode :=
  {| node_hash := node_hash n; conflicting_with := s; node_parents := node_parents n;
     node_children := node_children n; total_fee := total_fee n; node_size := node_size n;
     is_high_risk := is_high_risk n |}.
Definition set_node_parents (s : gset TxHash) (n : ConflictNode) : ConflictNode :=
  {| node_hash := node_hash n; conflicting_with := conflicting_with n; node_parents := s;
     node_children := node_children n; total_fee := total_fee n; node_size := node_size n;
     is_high_risk := is_high_risk n |}.
Definition set_node_children (s : gset TxHash) (n : ConflictNode) : ConflictNode :=
  {| node_hash := node_hash n; conflicting_with := conflicting_with n; node_parents := node_parents n;
     node_children := s; total_fee := total_fee n; node_size := node_size n; is_high_risk := is_high_risk n |}.
Definition set_high_risk (n : ConflictNode) : ConflictNode :=
  {| node_hash := node_hash n; conflicting_with := conflicting_with n; node_parents := node_parents n;
     node_children := node_children n; total_fee := total_fee n; node_size := node_size n; is_high_risk := true |}.

Abbreviation node_map := (gmap TxHash ConflictNode).

Record ConflictGraphStats := {
  total_nodes : Z;
  total_conflicts : Z;
  transitive_conflicts : Z;
  high_risk_transactions : Z;
  rbf_evaluations : Z;
  rbf_replacements : Z
}.
Definition set_total_nodes (z : Z) (s : ConflictGraphStats) : ConflictGraphStats :=
  {| total_nodes := z; total_conflicts := total_conflicts s; transitive_conflicts := transitive_conflicts s;
     high_risk_transactions := high_risk_transactions s; rbf_evaluations := rbf_evaluations s;
     rbf_replacements := rbf_replacements s |}.
Definition set_total_conflicts (z : Z) (s : ConflictGraphStats) : ConflictGraphStats :=
  {| total_nodes := total_nodes s; total_conflicts := z; transitive_conflicts := transitive_conflicts s;
     high_risk_transactions := high_risk_transactions s; rbf_evaluations := rbf_evaluations s;
     rbf_replacements := rbf_replacements s |}.
Definition set_transitive (z : Z) (s : ConflictGraphStats) : ConflictGraphStats :=
  {| total_nodes := total_nodes s; total_conflicts := total_conflicts s; transitive_conflicts := z;
     high_risk_transactions := high_risk_transactions s; rbf_evaluations := rbf_evaluations s;
     rbf_replacements := rbf_replacements s |}.
Definition set_high_risk_count (z : Z) (s : ConflictGraphStats) : ConflictGraphStats :=
  {| total_nodes := total_nodes s; total_conflicts := total_conflicts s;
     transitive_conflicts := transitive_conflicts s; high_risk_transactions := z;
     rbf_evaluations := rbf_evaluations s; rbf_replacements := rbf_replacements s |}.

Record ConflictGraph := {
  outpoint_index : gmap GraphPoint (list TxHash);
  nodes : node_map;
  conflict_sets : gmap TxHash (gset TxHash);
  graph_stats : ConflictGraphStats
}.
Definition set_index (i : gmap GraphPoint (list TxHash)) (g : ConflictGraph) : ConflictGraph :=
  {| outpoint_index := i; nodes := nodes g; conflict_sets := conflict_sets g; graph_stats := graph_stats g |}.
Definition set_nodes (n : node_map) (g : ConflictGraph) : ConflictGraph :=
  {| outpoint_index := outpoint_index g; nodes := n; conflict_sets := conflict_sets g; graph_stats := graph_stats g |}.
Definition set_sets (s : gmap TxHash (gset TxHash)) (g : ConflictGraph) : ConflictGraph :=
  {| outpoint_index := outpoint_index g; nodes := nodes g; conflict_sets := s; graph_stats := graph_stats g |}.
Definition set_graph_stats (s : ConflictGraphStats) (g : ConflictGraph) : ConflictGraph :=
  {| outpoint_index := outpoint_index g; nodes := nodes g; conflict_sets := conflict_sets g; graph_stats := s |}.

(** [ConflictGraph::new] and [clear] *)
Definition ConflictGraph_new : ConflictGraph :=
  {| outpoint_index := ∅; nodes := ∅; conflict_sets := ∅;
     graph_stats := {| total_nodes := 0; total_conflicts := 0; transitive_conflicts := 0;
                       high_risk_transactions := 0; rbf_evaluations := 0; rbf_replacements := 0 |} |}.
Definition clear (g : ConflictGraph) : ConflictGraph := ConflictGraph_new.

Section graph.
Context `{Bincode} (order : gset TxHash → list TxHash).

Abbreviation graph_method := (method ConflictGraph string).

(** [OutPoint::from_hash] *)
Definition from_hash (hash : Hash) (index : Z) : outcome string GraphPoint :=
  b ← ok_or (bincode_hash hash) "Failed to create outpoint: {}";
  Ok (b, index).

(** ** Descendants *)
Definition children_of (ns : node_map) (h : TxHash) : list TxHash :=
  match ns !! h with Some node => order (node_children node) | None => [] end.
(** Every child there is: the bound of the search. *)
Definition all_children (ns : node_map) : gset TxHash := ⋃ (node_children <$> (map_to_list ns).*2).
Definition find_descendants (ns : node_map) (tx_hash : TxHash) : list TxHash :=
  (bfs (children_of ns) (S (size (all_children ns))) ([tx_hash], {[ tx_hash ]}, [])).2.

(** ** Registration *)

(** One existing claimant of the outpoint. *)
Definition note_conflict (tx_hash existing_tx : TxHash) (g : ConflictGraph) : ConflictGraph :=
  let ns := alter (λ n, set_conflicts ({[ existing_tx ]} ∪ conflicting_with n) n) tx_hash (nodes g) in
  let ns := alter (λ n, set_conflicts ({[ tx_hash ]} ∪ conflicting_with n) n) existing_tx ns in
  set_graph_stats (set_total_conflicts (wadd 64 (total_conflicts (graph_stats g)) 1) (graph_stats g))
    (set_nodes ns g).

Definition claim_point (tx_hash : TxHash) (outpoint : GraphPoint) (g : ConflictGraph) : ConflictGraph :=
  set_index (<[outpoint := default [] (outpoint_index g !! outpoint) ++ [tx_hash]]> (outpoint_index g)) g.

Definition register_input (tx_hash : TxHash) (detected : list TxHash) (p : nat * TxInput) :
    graph_method (list TxHash) :=
  let '(idx, input) := p in
  outpoint ← lift (from_hash (prev_tx input) (wrap 32 (Z.of_nat idx)));
  g ← get;
  let existing_txs := default [] (outpoint_index g !! outpoint) in
  _ ← modify (λ g, foldl (λ g existing_tx, note_conflict tx_hash existing_tx g) g existing_txs);
  _ ← modify (claim_point tx_hash outpoint);
  mret (detected ++ existing_txs).

Fixpoint register_inputs (tx_hash : TxHash) (ins : list (nat * TxInput)) (detected : list TxHash) :
    graph_method (list TxHash) :=
  match ins with
  | [] => mret detected
  | p :: ins => detected ← register_input tx_hash detected p; register_inputs tx_hash ins detected
  end.

Definition has_conflicts (g : ConflictGraph) (tx_hash : TxHash) : bool :=
  match nodes g !! tx_hash with Some node => negb (bool_decide (conflicting_with node = ∅)) | None => false end.

(** Only counts. *)
Definition detect_transitive_conflicts (tx_hash : TxHash) (g : ConflictGraph) : ConflictGraph :=
  match nodes g !! tx_hash with
  | Some node =>
      if bool_decide (conflicting_with node = ∅) then g
      else
        let hit := filter (λ d, has_conflicts g d = true)
                     (find_descendants (nodes g) tx_hash) in
        set_graph_stats
          (set_transitive (wadd 64 (transitive_conflicts (graph_stats g)) (Z.of_nat (length hit))) (graph_stats g)) g
  | None => g
  end.

Definition register_transaction (tx : Transaction) (tx_hash : TxHash) (fee size_bytes : Z) :
    graph_method (list TxHash) :=
  _ ← modify (λ g, set_nodes (<[tx_hash := ConflictNode_new tx_hash fee size_bytes]> (nodes g)) g);
  _ ← modify (λ g, set_graph_stats (set_total_nodes (wadd 64 (total_nodes (graph_stats g)) 1) (graph_stats g)) g);
  detected ← register_inputs tx_hash (enumerate (inputs tx)) [];
  _ ← modify (detect_transitive_conflicts tx_hash);
  mret detected.

Definition add_dependency (child parent : TxHash) : graph_method unit :=
  g ← get;
  match nodes g !! child with
  | Some child_node =>
      let ns := <[child := set_node_parents ({[ parent ]} ∪ node_parents child_node) child_node]> (nodes g) in
      modify (set_nodes (alter (λ n, set_node_children ({[ child ]} ∪ node_children n) n) parent ns))
  | None => throw "Child transaction not found"
  end.

(** ** Conflict sets *)
Definition conflict_set_of (ns : node_map) (tx_hash : TxHash) : gset TxHash :=
  match ns !! tx_hash with
  | Some node =>
      foldl (λ s desc,
        {[ desc ]} ∪ s ∪ match ns !! desc with Some n => conflicting_with n | None => ∅ end)
        ({[ tx_hash ]} ∪ conflicting_with node) (find_descendants ns tx_hash)
  | None => {[ tx_hash ]}
  end.
Definition get_conflict_set (tx_hash : TxHash) : graph_method (gset TxHash) :=
  g ← get;
  match conflict_sets g !! tx_hash with
  | Some cached => mret cached
  | None =>
      let s := conflict_set_of (nodes g) tx_hash in
      _ ← modify (λ g, set_sets (<[tx_hash := s]> (conflict_sets g)) g);
      mret s
  end.

(** ** Removal *)

(** A removed node is taken out of its parents and children. *)
Definition unlink (ns : node_map) (r : TxHash * ConflictNode) : node_map :=
  let '(tx, node) := r in
  let ns := foldl (λ ns parent, alter (λ n, set_node_children (node_children n ∖ {[ tx ]}) n) parent ns)
              ns (order (node_parents node)) in
  foldl (λ ns child, alter (λ n, set_node_parents (node_parents n ∖ {[ tx ]}) n) child ns)
    ns (order (node_children node)).

Definition remove_and_cascade (tx_hash : TxHash) : graph_method (list TxHash) :=
  g ← get;
  let removed := tx_hash :: find_descendants (nodes g) tx_hash in
  let relationships := omap (λ tx, (λ n, (tx, n)) <$> nodes g !! tx) removed in
  let ns := foldl (λ ns tx, delete tx ns) (nodes g) removed in
  let sets := foldl (λ s tx, delete tx s) (conflict_sets g) removed in
  let ns := foldl unlink ns relationships in
  let index := omap (λ txs, let kept := filter (.∉ removed) txs in
                            if bool_decide (kept = []) then None else Some kept) (outpoint_index g) in
  _ ← modify (λ g, set_graph_stats
        (set_total_nodes (sat_sub (total_nodes (graph_stats g)) (Z.of_nat (length removed))) (graph_stats g))
        (set_index index (set_sets sets (set_nodes ns g))));
  mret removed.

(** ** Queries and risk *)
Definition get_conflicting_transactions (g : ConflictGraph) (tx_hash : TxHash) : list TxHash :=
  match nodes g !! tx_hash with Some node => order (conflicting_with node) | None => [] end.
Definition get_node (g : ConflictGraph) (tx_hash : TxHash) : option ConflictNode := nodes g !! tx_hash.
Definition node_count (g : ConflictGraph) : Z := Z.of_nat (size (nodes g)).
Definition is_empty (g : ConflictGraph) : bool := bool_decide (nodes g = ∅).

(** Marks one node unless it is marked. *)
Definition mark_node (st : ConflictGraph * list TxHash) (h : TxHash) : ConflictGraph * list TxHash :=
  let '(g, high_risk_list) := st in
  match nodes g !! h with
  | Some node =>
      if is_high_risk node then st
      else (set_graph_stats
              (set_high_risk_count (wadd 64 (high_risk_transactions (graph_stats g)) 1) (graph_stats g))
              (set_nodes (<[h := set_high_risk node]> (nodes g)) g), high_risk_list ++ [h])
  | None => st
  end.
Definition mark_high_risk (tx_hash : TxHash) : graph_method (list TxHash) := λ g,
  let st := mark_node (g, []) tx_hash in
  let '(g, high_risk_list) := foldl mark_node st (find_descendants (nodes st.1) tx_hash) in
  (Ok high_risk_list, g).
End graph.

(** ** Lemmas *)
Definition claimants (g : ConflictGraph) (o : GraphPoint) : list TxHash := default [] (outpoint_index g !! o).

(** What the registration of [h] does to the node of [k], when [C] are the claimants
    of its outpoints. *)
Definition noted (h : TxHash) (C : gset TxHash) (k : TxHash) (n : ConflictNode) : ConflictNode :=
  if bool_decide (k = h) then set_conflicts (C ∪ conflicting_with n) n
  else if bool_decide (k ∈ C) then set_conflicts ({[ h ]} ∪ conflicting_with n) n else n.

Lemma noted_empty h k n : noted h ∅ k n = n.
Proof.
  unfold noted. repeat case_bool_decide; [|set_solver|done].
  destruct n; unfold set_conflicts; cbn. by rewrite (left_id_L ∅ (∪)).
Qed.
Lemma noted_union h C D k n : noted h D k (noted h C k n) = noted h (C ∪ D) k n.
Proof.
  unfold noted. repeat case_bool_decide; unfold set_conflicts; cbn; try set_solver.
  - f_equal. set_solver.
  - f_equal. set_solver.
Qed.
Lemma noted_conflicts h C k n :
  conflicting_with (noted h C k n)
  = (if bool_decide (k = h) then C else if bool_decide (k ∈ C) then {[ h ]} else ∅) ∪ conflicting_with n.
Proof. unfold noted. repeat case_bool_decide; cbn; set_solver. Qed.
Lemma noted_links h C k n :
  node_parents (noted h C k n) = node_parents n ∧ node_children (noted h C k n) = node_children n.
Proof. unfold noted. by repeat case_bool_decide. Qed.

Lemma note_conflict_nodes h x g k :
  x ≠ h → nodes (note_conflict h x g) !! k = noted h {[ x ]} k <$> nodes g !! k.
Proof.
  intros Hx. unfold note_conflict. cbn. unfold noted. destruct (decide (k = h)) as [->|Hkh].
  - rewrite lookup_alter_ne, lookup_alter_eq by done. by rewrite bool_decide_eq_true_2.
  - rewrite bool_decide_eq_false_2 by done. destruct (decide (k = x)) as [->|Hkx].
    + rewrite lookup_alter_eq, lookup_alter_ne by done. by rewrite bool_decide_eq_true_2 by set_solver.
    + rewrite !lookup_alter_ne by done. rewrite bool_decide_eq_false_2 by set_solver.
      by destruct (nodes g !! k).
Qed.

Lemma note_all_nodes h xs g k :
  h ∉ xs →
  nodes (foldl (λ g x, note_conflict h x g) g xs) !! k = noted h (list_to_set xs) k <$> nodes g !! k.
Proof.
  revert g; induction xs as [|x xs IH]; intros g Hh; cbn [foldl].
  - cbn. destruct (nodes g !! k); cbn; [by rewrite noted_empty|done].
  - rewrite IH, note_conflict_nodes by set_solver. rewrite <- option_fmap_compose.
    apply option_fmap_ext. intros n. cbn. by rewrite noted_union.
Qed.
Lemma note_all_other h xs g :
  outpoint_index (foldl (λ g x, note_conflict h x g) g xs) = outpoint_index g
  ∧ conflict_sets (foldl (λ g x, note_conflict h x g) g xs) = conflict_sets g.
Proof. revert g; induction xs as [|x xs IH]; intros g; cbn [foldl]; [done|]. by destruct (IH (note_conflict h x g)) as [-> ->]. Qed.

Lemma claimants_claim h o g o' :
  claimants (claim_point h o g) o' = claimants g o' ++ (if bool_decide (o' = o) then [h] else []).
Proof.
  unfold claimants, claim_point. cbn. case_bool_decide as E.
  - subst. by rewrite lookup_insert_eq.
  - by rewrite lookup_insert_ne, app_nil_r.
Qed.

Section theorems.
Context `{BincodeLaws} (order : gset TxHash → list TxHash) (Horder : ∀ s, order s ≡ₚ elements s).
Implicit Types (g : ConflictGraph) (ns : node_map).

(** *** Descendants *)
Definition edge ns (p c : TxHash) : Prop := ∃ n, ns !! p = Some n ∧ c ∈ node_children n.

Lemma elem_of_order s x : x ∈ order s ↔ x ∈ s.
Proof. by rewrite (Horder s), elem_of_elements. Qed.

Lemma elem_of_children_of ns h c : c ∈ children_of order ns h ↔ edge ns h c.
Proof.
  unfold children_of, edge. destruct (ns !! h) as [n|]; [rewrite elem_of_order|]; set_solver.
Qed.

Lemma elem_of_all_children_iff ns c : c ∈ all_children ns ↔ ∃ h, edge ns h c.
Proof.
  unfold all_children. rewrite elem_of_union_list. split.
  - intros (s & (n & -> & ([h m] & -> & Hm)%list_elem_of_fmap)%list_elem_of_fmap & Hc).
    apply elem_of_map_to_list in Hm. by exists h, m.
  - intros (h & n & Hn & Hc). exists (node_children n). split; [|done].
    apply list_elem_of_fmap_2. change n with (h, n).2. apply list_elem_of_fmap_2. by apply elem_of_map_to_list.
Qed.
Lemma elem_of_all_children ns h c : edge ns h c → c ∈ all_children ns.
Proof. intros. apply elem_of_all_children_iff. by exists h. Qed.

Lemma descendants_spec ns h :
  NoDup (find_descendants order ns h)
  ∧ ∀ x, x ∈ find_descendants order ns h ↔ x ≠ h ∧ rtc (edge ns) h x.
Proof.
  unfold find_descendants.
  pose proof (bfs_spec (children_of order ns) (all_children ns) h (S (size (all_children ns)))) as Hb.
  destruct (bfs _ _ _) as [[q v] r]. cbn [snd]. destruct Hb as [Hnd Hr].
  - intros c y Hy%elem_of_children_of. by eapply elem_of_all_children.
  - lia.
  - split; [done|]. intros x. rewrite Hr. apply and_iff_compat_l.
    split; apply rtc_subrel; intros a b; apply elem_of_children_of.
Qed.

(** Descendants depend on the children only. *)
Lemma find_descendants_ext ns1 ns2 h :
  (∀ x, node_children <$> ns1 !! x = node_children <$> ns2 !! x) →
  find_descendants order ns1 h = find_descendants order ns2 h.
Proof.
  intros Hx. assert (Hs : ∀ x, children_of order ns1 x = children_of order ns2 x).
  { intros x. specialize (Hx x). unfold children_of.
    destruct (ns1 !! x), (ns2 !! x); cbn in Hx; [injection Hx as ->|done..]; done. }
  assert (Ha : all_children ns1 = all_children ns2).
  { apply set_eq. intros c. rewrite !elem_of_all_children_iff. apply exist_proper. intros x.
    by rewrite <- !elem_of_children_of, Hs. }
  unfold find_descendants. rewrite Ha. by erewrite bfs_ext.
Qed.

(** The removed set: the root and what is below it. *)
Lemma removed_spec ns h x : x ∈ h :: find_descendants order ns h ↔ rtc (edge ns) h x.
Proof.
  rewrite elem_of_cons, (proj2 (descendants_spec ns h)). destruct (decide (x = h)) as [->|]; [|tauto].
  split; [intros _; constructor|by left].
Qed.

(** *** Registration *)

(** The points of a list of inputs: their transactions, with their positions. *)
Definition points_of (prevs : list Hash) : list GraphPoint :=
  imap (λ i prev, (hash_bytes prev, wrap 32 (Z.of_nat i))) prevs.

Lemma points_NoDup prevs : Z.of_nat (length prevs) ≤ 2 ^ 32 → NoDup (points_of prevs).
Proof.
  intros Hl. apply NoDup_alt. intros i j p Hi Hj. unfold points_of in *.
  rewrite list_lookup_imap in Hi, Hj.
  destruct (prevs !! i) as [a|] eqn:Ea, (prevs !! j) as [b|] eqn:Eb; cbn in *; [|done..].
  apply lookup_lt_Some in Ea, Eb. simplify_eq.
  match goal with E : wrap 32 _ = wrap 32 _ |- _ => rewrite !wrap_small in E by (unfold fits; lia) end. lia.
Qed.

Definition register_point (h : TxHash) g (o : GraphPoint) : ConflictGraph :=
  claim_point h o (foldl (λ g x, note_conflict h x g) g (claimants g o)).

Lemma register_inputs_run h ips acc g :
  register_inputs h ips acc g
  = (Ok (foldl (λ st o, (st.1 ++ claimants st.2 o, register_point h st.2 o)) (acc, g)
           ((λ p, (hash_bytes (prev_tx p.2), wrap 32 (Z.of_nat p.1))) <$> ips)).1,
     (foldl (λ st o, (st.1 ++ claimants st.2 o, register_point h st.2 o)) (acc, g)
           ((λ p, (hash_bytes (prev_tx p.2), wrap 32 (Z.of_nat p.1))) <$> ips)).2).
Proof.
  revert acc g; induction ips as [|[i input] ips IH]; intros acc g; [done|].
  cbn [register_inputs fmap list_fmap foldl fst snd]. erewrite method_bind_run; [apply IH|].
  unfold register_input. erewrite method_bind_run by (unfold lift, from_hash; by rewrite hash_bytes_spec).
  do 3 erewrite method_bind_run by done. done.
Qed.

(** The loop over the points of [h]: a point's claimants are those from before,
    and the nodes note all of them. *)
Lemma register_loop h ps acc g :
  NoDup ps → (∀ o, h ∉ claimants g o) →
  let '(detected, g') := foldl (λ st o, (st.1 ++ claimants st.2 o, register_point h st.2 o)) (acc, g) ps in
  detected = acc ++ mjoin (claimants g <$> ps)
  ∧ conflict_sets g' = conflict_sets g
  ∧ (∀ o, claimants g' o = claimants g o ++ if bool_decide (o ∈ ps) then [h] else [])
  ∧ ∀ k, nodes g' !! k = noted h (list_to_set (mjoin (claimants g <$> ps))) k <$> nodes g !! k.
Proof.
  intros Hnd Hh. induction ps as [|o ps IH] using rev_ind.
  { cbn. split; [by rewrite app_nil_r|]. split; [done|]. split.
    - intros o. by rewrite app_nil_r.
    - intros k. destruct (nodes g !! k); cbn; [by rewrite noted_empty|done]. }
  apply NoDup_app in Hnd as (Hnd & Ho & _). specialize (IH Hnd).
  assert (Hno : o ∉ ps) by (intros Hin; apply (Ho o Hin); left).
  rewrite foldl_app. cbn [foldl].
  destruct (foldl _ (acc, g) ps) as [detected g1]. destruct IH as (-> & Hs & Hc & Hn). cbn [fst snd].
  assert (Hco : claimants g1 o = claimants g o) by by rewrite Hc, bool_decide_eq_false_2, app_nil_r.
  destruct (note_all_other h (claimants g1 o) g1) as [Hi2 Hs2].
  split; [|split; [|split]].
  - rewrite fmap_app, join_app, Hco. cbn. by rewrite app_nil_r, (assoc_L (++)).
  - unfold register_point, claim_point. cbn. by rewrite Hs2.
  - intros o'. unfold register_point. rewrite claimants_claim. unfold claimants at 1. rewrite Hi2.
    fold (claimants g1 o'). rewrite Hc. destruct (decide (o' = o)) as [->|Hne].
    + rewrite (bool_decide_eq_false_2 (o ∈ ps)), app_nil_r by done.
      rewrite !bool_decide_eq_true_2 by set_solver. done.
    + rewrite (bool_decide_eq_false_2 (o' = o)), app_nil_r by done. f_equal.
      rewrite (bool_decide_ext (o' ∈ ps ++ [o]) (o' ∈ ps)); [done|]. set_solver.
  - intros k. unfold register_point, claim_point. cbn [nodes set_index].
    rewrite note_all_nodes by by rewrite Hco. rewrite Hn, <- option_fmap_compose.
    apply option_fmap_ext. intros n. cbn. rewrite noted_union, Hco. f_equal.
    rewrite fmap_app, join_app, list_to_set_app_L. cbn. by rewrite app_nil_r.
Qed.

Lemma detect_transitive_other h g :
  let g' := detect_transitive_conflicts order h g in
  nodes g' = nodes g ∧ outpoint_index g' = outpoint_index g ∧ conflict_sets g' = conflict_sets g.
Proof. cbn. unfold detect_transitive_conflicts. destruct (nodes g !! h) as [n|]; [|done]. by case_bool_decide. Qed.

Lemma graph_register_run tx h fee size g :
  Z.of_nat (length (inputs tx)) ≤ 2 ^ 32 → (∀ o, h ∉ claimants g o) →
  let ps := points_of (prev_tx <$> inputs tx) in
  let detected := mjoin (claimants g <$> ps) in
  ∃ g', register_transaction order tx h fee size g = (Ok detected, g')
  ∧ conflict_sets g' = conflict_sets g
  ∧ (∀ o, claimants g' o = claimants g o ++ if bool_decide (o ∈ ps) then [h] else [])
  ∧ ∀ k, nodes g' !! k = noted h (list_to_set detected) k <$> (<[h := ConflictNode_new h fee size]> (nodes g)) !! k.
Proof.
  intros Hl Hh ps detected. unfold register_transaction. do 2 erewrite method_bind_run by done.
  set (g1 := set_graph_stats _ _).
  pose proof (register_loop h ps [] g1) as Hr.
  assert (Eps : (λ p, (hash_bytes (prev_tx p.2), wrap 32 (Z.of_nat p.1))) <$> enumerate (inputs tx) = ps).
  { unfold ps, points_of, enumerate. rewrite fmap_imap, imap_fmap. done. }
  assert (Hcl : ∀ o, claimants g1 o = claimants g o) by done.
  assert (Hdet : mjoin (claimants g1 <$> ps) = detected) by done.
  destruct (foldl (λ st o, (st.1 ++ claimants st.2 o, register_point h st.2 o)) ([], g1) ps) as [d g2] eqn:Ef.
  destruct Hr as (-> & Hs & Hc & Hn).
  { apply points_NoDup. by rewrite length_fmap. }
  { done. }
  rewrite Hdet in *. erewrite method_bind_run by (rewrite register_inputs_run, Eps, Ef; reflexivity).
  erewrite method_bind_run by done. destruct (detect_transitive_other h g2) as (En & Ei & Ecs).
  exists (detect_transitive_conflicts order h g2). split; [reflexivity|]. split; [by rewrite Ecs, Hs|]. split.
  - intros o. unfold claimants at 1. rewrite Ei. apply Hc.
  - intros k. rewrite En. apply Hn.
Qed.

(** *** Removal *)
Lemma alter_all (f : ConflictNode → ConflictNode) l ns k :
  NoDup l → foldl (λ ns x, alter f x ns) ns l !! k = if bool_decide (k ∈ l) then f <$> ns !! k else ns !! k.
Proof.
  intros Hl. revert ns; induction Hl as [|x l Hx Hl IH]; intros ns; cbn [foldl]; [done|]. rewrite IH.
  destruct (decide (k = x)) as [->|Hne].
  - rewrite (bool_decide_eq_false_2 (x ∈ l)), (bool_decide_eq_true_2 (x ∈ x :: l)) by (done || left).
    apply lookup_alter_eq.
  - rewrite lookup_alter_ne by done. rewrite (bool_decide_ext (k ∈ x :: l) (k ∈ l)); [done|]. set_solver.
Qed.

Lemma order_NoDup s : NoDup (order s).
Proof. rewrite (Horder s). apply NoDup_elements. Qed.

(** A node that is no child of the removed ones loses them as its children. *)
Lemma unlink_all rs ns k :
  (∀ r, r ∈ rs → k ∉ node_children r.2) →
  foldl (unlink order) ns rs !! k
  = (λ n, set_node_children (node_children n ∖ list_to_set (filter (λ r, k ∈ node_parents r.2) rs).*1) n)
      <$> ns !! k.
Proof.
  revert ns; induction rs as [|[tx node] rs IH]; intros ns Hk.
  { cbn. destruct (ns !! k) as [n|]; cbn; [|done]. f_equal. destruct n; unfold set_node_children; cbn. f_equal. set_solver. }
  cbn [foldl]. rewrite IH by (intros r Hr; apply Hk; by right).
  unfold unlink. rewrite alter_all by apply order_NoDup.
  rewrite bool_decide_eq_false_2 by (rewrite elem_of_order; apply (Hk (tx, node)); left).
  rewrite alter_all by apply order_NoDup.
  rewrite (bool_decide_ext (k ∈ order (node_parents node)) (k ∈ node_parents node)) by apply elem_of_order.
  rewrite filter_cons. cbn [snd]. case_decide as Hp; [rewrite bool_decide_eq_true_2 by done|rewrite bool_decide_eq_false_2 by done; done].
  rewrite <- option_fmap_compose. apply option_fmap_ext. intros n. unfold set_node_children. cbn. f_equal. set_solver.
Qed.

(** A child is in the graph and knows its parent. *)
Definition links_ok g : Prop := ∀ p n c, nodes g !! p = Some n → c ∈ node_children n →
  ∃ nc, nodes g !! c = Some nc ∧ p ∈ node_parents nc.

Lemma remove_run h g :
  links_ok g →
  let removed := h :: find_descendants order (nodes g) h in
  ∃ g', remove_and_cascade order h g = (Ok removed, g')
  ∧ (∀ k, nodes g' !! k = if bool_decide (k ∈ removed) then None
       else (λ n, set_node_children (node_children n ∖ list_to_set removed) n) <$> nodes g !! k)
  ∧ (∀ o, claimants g' o = filter (.∉ removed) (claimants g o))
  ∧ ∀ k, conflict_sets g' !! k = if bool_decide (k ∈ removed) then None else conflict_sets g !! k.
Proof.
  intros Hlk removed. unfold remove_and_cascade. erewrite method_bind_run by done. cbv zeta. fold removed.
  erewrite method_bind_run by done. eexists. split; [reflexivity|]. cbn [nodes outpoint_index conflict_sets set_graph_stats set_index set_sets set_nodes].
  split; [|split].
  - intros k. set (rs := omap _ removed).
    assert (Hrs : ∀ r, r ∈ rs ↔ r.1 ∈ removed ∧ nodes g !! r.1 = Some r.2).
    { intros [tx n]. unfold rs. rewrite list_elem_of_omap. cbn. split.
      - intros (x & Hx & E). destruct (nodes g !! x) as [m|] eqn:Em; cbn in E; [|done]. by simplify_eq.
      - intros [Hx En]. exists tx. by rewrite En. }
    destruct (decide (k ∈ removed)) as [Hk|Hk].
    + rewrite bool_decide_eq_true_2 by done.
      assert (Hnone : ∀ l ns, ns !! k = None → foldl (unlink order) ns l !! k = None).
      { intros l. induction l as [|[tx n] l IH]; intros ns Hn; cbn [foldl]; [done|]. apply IH. unfold unlink.
        rewrite !alter_all by apply order_NoDup. by repeat case_bool_decide; rewrite ?Hn. }
      apply Hnone. rewrite lookup_delete_all. by rewrite bool_decide_eq_true_2.
    + rewrite bool_decide_eq_false_2 by done. rewrite unlink_all.
      2:{ intros [tx n] [Htx Hn]%Hrs Hkc. cbn in *. apply Hk. unfold removed in *. rewrite removed_spec in *.
          eapply rtc_r; [done|]. by exists n. }
      rewrite lookup_delete_all, bool_decide_eq_false_2 by done.
      destruct (nodes g !! k) as [n|] eqn:En; cbn [fmap option_fmap option_map]; [|done]. f_equal.
      unfold set_node_children. f_equal. apply set_eq. intros c. rewrite !elem_of_difference, !elem_of_list_to_set.
      split; intros [Hc Hn]; (split; [done|]); intros Hin; apply Hn.
      * destruct (Hlk k n c En Hc) as (nc & Enc & Hp). apply (list_elem_of_fmap_2 fst _ (c, nc)).
        apply list_elem_of_filter. split; [done|]. by apply Hrs.
      * apply list_elem_of_fmap in Hin as ([tx m] & -> & [Hp Hr]%list_elem_of_filter). by apply Hrs in Hr as [? _].
  - intros o. unfold claimants. cbn [outpoint_index set_graph_stats set_index set_sets set_nodes]. rewrite lookup_omap.
    destruct (outpoint_index g !! o) as [l|]; cbn; [|done]. case_bool_decide as E; [by rewrite E|done].
  - intros k. apply lookup_delete_all.
Qed.

(** ** The graph of a pool

    [ins] gives the previous transactions named by the inputs of a transaction. *)
Section pool.
Context (ins : TxHash → list Hash).

Definition shares (x y : TxHash) : Prop := ∃ o, o ∈ points_of (ins x) ∧ o ∈ points_of (ins y).

Lemma shares_sym x y : shares x y ↔ shares y x.
Proof. unfold shares. naive_solver. Qed.

(** The index lists for each point its claimants; conflicts are shared points;
    links go both ways. *)
Record graph_ok g : Prop := {
  gk_index : ∀ o x, x ∈ claimants g o ↔ is_Some (nodes g !! x) ∧ o ∈ points_of (ins x);
  gk_sound : ∀ x n y, nodes g !! x = Some n → y ∈ conflicting_with n → x ≠ y ∧ shares x y;
  gk_complete : ∀ x n y, nodes g !! x = Some n → is_Some (nodes g !! y) → x ≠ y → shares x y →
    y ∈ conflicting_with n;
  gk_links : links_ok g
}.

Lemma graph_new_ok : graph_ok ConflictGraph_new.
Proof. split; [intros o x; cbn; split; [set_solver|intros [[] _]; done]|done..]. Qed.

Lemma elem_of_detected g ps x :
  x ∈ mjoin (claimants g <$> ps) ↔ ∃ o, o ∈ ps ∧ x ∈ claimants g o.
Proof.
  rewrite list_elem_of_join. split.
  - intros (l & Hx & (o & -> & Ho)%list_elem_of_fmap). eauto.
  - intros (o & Ho & Hx). exists (claimants g o). split; [done|]. by apply list_elem_of_fmap_2.
Qed.

Lemma lookup_noted h C (n0 : ConflictNode) ns k n' :
  noted h C k <$> (<[h := n0]> ns) !! k = Some n' ↔
  (k = h ∧ n' = noted h C h n0) ∨ (k ≠ h ∧ ∃ n, ns !! k = Some n ∧ n' = noted h C k n).
Proof.
  destruct (decide (k = h)) as [->|Hne].
  - rewrite lookup_insert_eq. cbn. naive_solver.
  - rewrite lookup_insert_ne by done. rewrite fmap_Some. naive_solver.
Qed.

(** What a fresh registration is given. *)
Definition fresh g tx (h : TxHash) : Prop :=
  nodes g !! h = None ∧ ins h = prev_tx <$> inputs tx ∧ Z.of_nat (length (inputs tx)) ≤ 2 ^ 32.

Lemma fresh_unclaimed g tx h : graph_ok g → fresh g tx h → ∀ o, h ∉ claimants g o.
Proof. intros Hg (Hn & _ & _) o [[? E] _]%(gk_index g Hg). congruence. Qed.

Lemma graph_register_ok tx h fee size g :
  graph_ok g → fresh g tx h → graph_ok (register_transaction order tx h fee size g).2.
Proof.
  intros Hg Hf. pose proof Hf as (Hn & Hins & Hl).
  destruct (graph_register_run tx h fee size g Hl (fresh_unclaimed g tx h Hg Hf)) as (g' & -> & _ & Hc & Hns).
  rewrite <- Hins in *. cbn [snd]. set (C := mjoin (claimants g <$> points_of (ins h))) in *.
  assert (HC : ∀ x, x ∈ C ↔ is_Some (nodes g !! x) ∧ shares h x).
  { intros x. unfold C. rewrite elem_of_detected. unfold shares. split.
    - intros (o & Ho & [Hx Hox]%(gk_index g Hg)). eauto.
    - intros [Hx (o & Ho & Hox)]. exists o. split; [done|]. by apply (gk_index g Hg). }
  assert (Hlive : ∀ x, is_Some (nodes g' !! x) ↔ x = h ∨ is_Some (nodes g !! x)).
  { intros x. rewrite Hns, fmap_is_Some. destruct (decide (x = h)) as [->|Hne].
    - rewrite lookup_insert_eq. naive_solver.
    - rewrite lookup_insert_ne by done. naive_solver. }
  split.
  - intros o x. rewrite Hc, elem_of_app, (gk_index g Hg), Hlive. case_bool_decide as Ho.
    + rewrite list_elem_of_singleton. split; [intros [[]| ->]; naive_solver|].
      intros [[->|Hx] Hox]; [by right|by left].
    + split; [intros [[]|[]%not_elem_of_nil]; naive_solver|]. intros [[->|Hx] Hox]; [done|by left].
  - intros x n' y En' Hy. rewrite Hns in En'. apply lookup_noted in En' as [[-> ->]|(Hxh & n & En & ->)].
    + rewrite noted_conflicts, bool_decide_eq_true_2, elem_of_union, elem_of_list_to_set, HC in Hy by done. cbn in Hy.
      destruct Hy as [[[? Hy] Hsh]|]; [|set_solver]. split; [congruence|done].
    + rewrite noted_conflicts, bool_decide_eq_false_2, elem_of_union in Hy by done.
      destruct Hy as [Hy|Hy]; [|by apply (gk_sound g Hg x n y En)]. case_bool_decide as HxC; [|set_solver].
      apply elem_of_singleton in Hy as ->. split; [done|]. apply shares_sym, HC. by apply elem_of_list_to_set in HxC.
  - intros x n' y En' Hy Hne Hsh. rewrite Hns in En'. apply Hlive in Hy.
    apply lookup_noted in En' as [[-> ->]|(Hxh & n & En & ->)]; rewrite noted_conflicts, elem_of_union.
    + left. rewrite bool_decide_eq_true_2, elem_of_list_to_set, HC by done. naive_solver.
    + rewrite bool_decide_eq_false_2 by done. destruct Hy as [->|Hy]; [left|right; by apply (gk_complete g Hg x n y En)].
      rewrite bool_decide_eq_true_2; [set_solver|]. apply elem_of_list_to_set, HC. split; [by eexists|by apply shares_sym].
  - intros p n' c En' Hc'. rewrite Hns in En'. apply lookup_noted in En' as [[-> ->]|(Hph & n & En & ->)].
    { rewrite (proj2 (noted_links h _ h _)) in Hc'. cbn in Hc'. set_solver. }
    rewrite (proj2 (noted_links h _ p n)) in Hc'. destruct (gk_links g Hg p n c En Hc') as (nc & Enc & Hp).
    exists (noted h (list_to_set C) c nc). split; [|by rewrite (proj1 (noted_links h _ c nc))].
    rewrite Hns, lookup_insert_ne by congruence. by rewrite Enc.
Qed.

(** An operation that leaves the index, the live nodes, the conflicts and the links
    alone keeps the graph well formed. *)
Lemma graph_ok_ext g g' :
  graph_ok g → outpoint_index g' = outpoint_index g →
  (∀ x n', nodes g' !! x = Some n' → ∃ n, nodes g !! x = Some n ∧ conflicting_with n' = conflicting_with n) →
  (∀ x, is_Some (nodes g !! x) → is_Some (nodes g' !! x)) → links_ok g' → graph_ok g'.
Proof.
  intros Hg Hi Hn Hl Hk.
  assert (Hlive : ∀ x, is_Some (nodes g' !! x) ↔ is_Some (nodes g !! x)).
  { intros x. split; [|apply Hl]. intros [n' E]. destruct (Hn x n' E) as (n & -> & _). by eexists. }
  split; [| | |done].
  - intros o x. unfold claimants. rewrite Hi, Hlive. apply (gk_index g Hg).
  - intros x n' y E Hy. destruct (Hn x n' E) as (n & En & Ec). rewrite Ec in Hy. by apply (gk_sound g Hg x n y).
  - intros x n' y E Hy Hne Hs. destruct (Hn x n' E) as (n & En & Ec). rewrite Ec.
    apply (gk_complete g Hg x n y); [done|by apply Hlive|done..].
Qed.

Lemma add_dependency_ok c p g : graph_ok g → graph_ok (add_dependency c p g).2.
Proof.
  intros Hg. unfold add_dependency. erewrite method_bind_run by done.
  destruct (nodes g !! c) as [nc|] eqn:Ec; [|done]. cbn [snd].
  set (f := λ n, set_node_children ({[ c ]} ∪ node_children n) n).
  set (nc' := set_node_parents ({[ p ]} ∪ node_parents nc) nc).
  assert (Hlk : ∀ x, alter f p (<[c := nc']> (nodes g)) !! x
    = (λ n, if bool_decide (x = p) then f n else n) <$> <[c := nc']> (nodes g) !! x).
  { intros x. destruct (decide (x = p)) as [->|Hne].
    - rewrite lookup_alter_eq. by rewrite bool_decide_eq_true_2.
    - rewrite lookup_alter_ne by done. rewrite bool_decide_eq_false_2 by done. by destruct (_ !! x). }
  assert (Hold : ∀ x n', alter f p (<[c := nc']> (nodes g)) !! x = Some n' → ∃ n, nodes g !! x = Some n
    ∧ conflicting_with n' = conflicting_with n
    ∧ node_children n' = (if bool_decide (x = p) then {[ c ]} else ∅) ∪ node_children n
    ∧ node_parents n' = (if bool_decide (x = c) then {[ p ]} else ∅) ∪ node_parents n).
  { intros x n'. rewrite Hlk. intros (m & Em & ->)%fmap_Some.
    apply lookup_insert_Some in Em as [[<- <-]|[Hne Em]].
    - exists nc. split; [done|]. rewrite (bool_decide_eq_true_2 (c = c)) by done. case_bool_decide; cbn; set_solver.
    - exists m. split; [done|]. rewrite (bool_decide_eq_false_2 (x = c)) by done. case_bool_decide; cbn; set_solver. }
  assert (Hlive : ∀ x, is_Some (nodes g !! x) → is_Some (alter f p (<[c := nc']> (nodes g)) !! x)).
  { intros x Hx. rewrite Hlk, fmap_is_Some, lookup_insert_is_Some. destruct (decide (c = x)); naive_solver. }
  apply (graph_ok_ext g); [done|done| |done|].
  - intros x n' E. destruct (Hold x n' E) as (n & En & Hc & _). eauto.
  - intros x n' y E Hy. cbn in E |- *. destruct (Hold x n' E) as (n & En & _ & Hch & _).
    assert (Hold' : ∃ m, alter f p (<[c := nc']> (nodes g)) !! y = Some m ∧
      ((x = p ∧ y = c) ∨ y ∈ node_children n)).
    { rewrite Hch in Hy. apply elem_of_union in Hy as [Hy|Hy].
      - case_bool_decide; [|set_solver]. apply elem_of_singleton in Hy as ->.
        destruct (Hlive c ltac:(by eexists)) as [m Em]. exists m. split; [done|by left].
      - destruct (gk_links g Hg x n y En Hy) as (m0 & Em0 & _).
        destruct (Hlive y ltac:(by eexists)) as [m Em]. exists m. split; [done|by right]. }
    destruct Hold' as (m & Em & Hcase). exists m. split; [done|].
    destruct (Hold y m Em) as (m0 & Em0 & _ & _ & ->). destruct Hcase as [[-> ->]|Hyc].
    + rewrite (bool_decide_eq_true_2 (c = c)) by done. set_solver.
    + destruct (gk_links g Hg x n y En Hyc) as (m1 & Em1 & Hp). simplify_eq. set_solver.
Qed.


(** *** Risk *)
Definition risky ns (l : list TxHash) (x : TxHash) : option ConflictNode :=
  (λ n, if bool_decide (x ∈ l) then set_high_risk n else n) <$> ns !! x.

Lemma set_high_risk_idem n : is_high_risk n = true → set_high_risk n = n.
Proof. destruct n; cbn. by intros ->. Qed.

Lemma mark_node_run g acc h :
  let '(g', acc') := mark_node (g, acc) h in
  outpoint_index g' = outpoint_index g ∧ conflict_sets g' = conflict_sets g
  ∧ (∀ x, nodes g' !! x = risky (nodes g) [h] x)
  ∧ acc' = acc ++ (if bool_decide (is_high_risk <$> nodes g !! h = Some false) then [h] else []).
Proof.
  unfold mark_node, risky. destruct (nodes g !! h) as [n|] eqn:En; cbn [fmap option_fmap option_map].
  - destruct (is_high_risk n) eqn:Er.
    + split; [done|]. split; [done|]. split; [|by rewrite app_nil_r]. intros x.
      case_bool_decide as Hx; [|by destruct (nodes g !! x)].
      apply list_elem_of_singleton in Hx as ->. rewrite En. cbn. by rewrite set_high_risk_idem.
    + split; [done|]. split; [done|]. split; [|done]. intros x. cbn [nodes set_graph_stats set_nodes].
      case_bool_decide as Hx.
      * apply list_elem_of_singleton in Hx as ->. by rewrite lookup_insert_eq, En.
      * rewrite lookup_insert_ne by set_solver. by destruct (nodes g !! x).
  - split; [done|]. split; [done|]. split; [|by rewrite app_nil_r]. intros x.
    case_bool_decide as Hx; [|by destruct (nodes g !! x)].
    apply list_elem_of_singleton in Hx as ->. by rewrite En.
Qed.

Lemma mark_all_run l g acc :
  NoDup l →
  let '(g', acc') := foldl mark_node (g, acc) l in
  outpoint_index g' = outpoint_index g ∧ conflict_sets g' = conflict_sets g
  ∧ (∀ x, nodes g' !! x = risky (nodes g) l x)
  ∧ acc' = acc ++ filter (λ h, is_high_risk <$> nodes g !! h = Some false) l.
Proof.
  intros Hl. revert g acc; induction Hl as [|h l Hh Hl IH]; intros g acc; cbn [foldl].
  { unfold risky. split; [done|]. split; [done|]. split; [|by rewrite app_nil_r]. intros x. by destruct (nodes g !! x). }
  pose proof (mark_node_run g acc h) as H1. destruct (mark_node (g, acc) h) as [g1 acc1].
  destruct H1 as (Hi1 & Hs1 & Hn1 & ->). specialize (IH g1 (acc ++ (if bool_decide (is_high_risk <$> nodes g !! h = Some false) then [h] else []))).
  destruct (foldl mark_node _ l) as [g2 acc2]. destruct IH as (Hi2 & Hs2 & Hn2 & ->).
  split; [congruence|]. split; [congruence|]. split.
  - intros x. rewrite Hn2. unfold risky. rewrite Hn1. unfold risky. rewrite <- option_fmap_compose.
    apply option_fmap_ext. intros n. cbn. repeat case_bool_decide; set_solver || done.
  - rewrite <- (assoc_L (++)). f_equal. rewrite filter_cons.
    assert (Ef : filter (λ h, is_high_risk <$> nodes g1 !! h = Some false) l
      = filter (λ h, is_high_risk <$> nodes g !! h = Some false) l).
    { clear -Hh Hn1. induction l as [|x l IH]; [done|]. rewrite !filter_cons, IH by set_solver.
      assert (E : nodes g1 !! x = nodes g !! x).
      { rewrite Hn1. unfold risky. rewrite bool_decide_eq_false_2 by set_solver. by destruct (nodes g !! x). }
      by rewrite E. }
    rewrite Ef. case_decide; [by rewrite bool_decide_eq_true_2|by rewrite bool_decide_eq_false_2].
Qed.

Lemma mark_run h g :
  let l := h :: find_descendants order (nodes g) h in
  let '(r, g') := mark_high_risk order h g in
  r = Ok (filter (λ x, is_high_risk <$> nodes g !! x = Some false) l)
  ∧ outpoint_index g' = outpoint_index g ∧ conflict_sets g' = conflict_sets g
  ∧ ∀ x, nodes g' !! x = risky (nodes g) l x.
Proof.
  cbv zeta. unfold mark_high_risk.
  assert (Hd : find_descendants order (nodes (mark_node (g, []) h).1) h = find_descendants order (nodes g) h).
  { pose proof (mark_node_run g [] h) as Hm. destruct (mark_node (g, []) h) as [g1 acc].
    destruct Hm as (_ & _ & Hn & _). cbn [fst].
    assert (Hch : ∀ x, node_children <$> nodes g1 !! x = node_children <$> nodes g !! x).
    { intros x. rewrite Hn. unfold risky. destruct (nodes g !! x); cbn; [|done]. by case_bool_decide. }
    by apply find_descendants_ext. }
  rewrite Hd. pose proof (mark_all_run (h :: find_descendants order (nodes g) h) g []) as Hm.
  cbn [foldl] in Hm. destruct (foldl mark_node (mark_node (g, []) h) _) as [g' acc].
  destruct Hm as (Hi & Hs & Hn & ->).
  { constructor; [|apply descendants_spec]. rewrite (proj2 (descendants_spec (nodes g) h)). tauto. }
  done.
Qed.


Lemma conflict_set_run h g :
  get_conflict_set order h g
  = match conflict_sets g !! h with
    | Some cached => (Ok cached, g)
    | None => (Ok (conflict_set_of order (nodes g) h),
               set_sets (<[h := conflict_set_of order (nodes g) h]> (conflict_sets g)) g)
    end.
Proof. unfold get_conflict_set. erewrite method_bind_run by done. by destruct (conflict_sets g !! h). Qed.




(** A fresh registration reports exactly the live transactions that share a point,
    and its node starts with them as its conflicts. *)
Theorem register_transaction_spec tx h fee size g (Hg : graph_ok g) (Hf : fresh g tx h) :
  ∃ detected g', register_transaction order tx h fee size g = (Ok detected, g')
  ∧ (∀ x, x ∈ detected ↔ is_Some (nodes g !! x) ∧ shares h x)
  ∧ nodes g' !! h = Some (set_conflicts (list_to_set detected) (ConflictNode_new h fee size))
  ∧ ∀ x n, nodes g !! x = Some n → ∃ n', nodes g' !! x = Some n'
      ∧ conflicting_with n' = (if bool_decide (x ∈ detected) then {[ h ]} else ∅) ∪ conflicting_with n
      ∧ node_parents n' = node_parents n ∧ node_children n' = node_children n.
Proof.
  pose proof Hf as (Hn & Hins & Hl).
  destruct (graph_register_run tx h fee size g Hl (fresh_unclaimed g tx h Hg Hf)) as (g' & E & _ & _ & Hns).
  rewrite <- Hins in *. eexists _, g'. split; [exact E|]. split; [|split].
  - intros x. rewrite elem_of_detected. unfold shares. split.
    + intros (o & Ho & [Hx Hox]%(gk_index g Hg)). eauto.
    + intros [Hx (o & Ho & Hox)]. exists o. split; [done|]. by apply (gk_index g Hg).
  - rewrite Hns, lookup_insert_eq. cbn. unfold noted. rewrite bool_decide_eq_true_2 by done.
    cbn. by rewrite (right_id_L ∅ (∪)).
  - intros x n En. rewrite Hns, lookup_insert_ne, En by congruence. cbn. eexists. split; [done|].
    destruct (noted_links h (list_to_set (mjoin (claimants g <$> points_of (ins h)))) x n) as [-> ->].
    rewrite noted_conflicts, bool_decide_eq_false_2 by congruence.
    split; [|done]. f_equal.
    rewrite (bool_decide_ext (x ∈ (list_to_set _ : gset TxHash)) (x ∈ mjoin (claimants g <$> points_of (ins h))));
      [done|apply elem_of_list_to_set].
Qed.

(** Removal takes out the transaction and exactly what depends on it, directly or
    not: no survivor keeps a removed child, and no claim, cached set or link of a
    removed one is left.  (Survivors still name removed ones as conflicts.) *)
Theorem remove_and_cascade_spec h g (Hg : graph_ok g) :
  ∃ removed g', remove_and_cascade order h g = (Ok removed, g')
  ∧ NoDup removed ∧ (∀ x, x ∈ removed ↔ rtc (edge (nodes g)) h x)
  ∧ (∀ x, is_Some (nodes g' !! x) ↔ is_Some (nodes g !! x) ∧ x ∉ removed)
  ∧ (∀ x n', nodes g' !! x = Some n' → ∃ n, nodes g !! x = Some n
      ∧ node_children n' = node_children n ∖ list_to_set removed
      ∧ node_parents n' = node_parents n ∧ conflicting_with n' = conflicting_with n)
  ∧ ∀ x, x ∈ removed → (∀ o, x ∉ claimants g' o) ∧ conflict_sets g' !! x = None.
Proof.
  destruct (remove_run h g (gk_links g Hg)) as (g' & E & Hn & Hc & Hs).
  eexists _, g'. split; [exact E|]. split.
  { constructor; [|apply descendants_spec]. rewrite (proj2 (descendants_spec (nodes g) h)). tauto. }
  split; [apply removed_spec|]. split; [|split].
  - intros x. rewrite Hn. case_bool_decide; [split; [intros []; done|tauto]|]. rewrite fmap_is_Some. tauto.
  - intros x n' En. rewrite Hn in En. case_bool_decide; [done|]. apply fmap_Some in En as (n & En & ->).
    by exists n.
  - intros x Hx. split; [|by rewrite Hs, bool_decide_eq_true_2]. intros o. rewrite Hc, list_elem_of_filter. tauto.
Qed.

(** Marking a transaction marks it and everything that depends on it, and reports
    those that were not marked. *)
Theorem mark_high_risk_spec h g :
  let '(r, g') := mark_high_risk order h g in
  (∃ l, r = Ok l ∧ NoDup l ∧ ∀ x, x ∈ l ↔ rtc (edge (nodes g)) h x ∧ is_high_risk <$> nodes g !! x = Some false)
  ∧ ∀ x, is_high_risk <$> nodes g' !! x = (λ n, is_high_risk n || bool_decide (x ∈ h :: find_descendants order (nodes g) h)) <$> nodes g !! x.
Proof.
  pose proof (mark_run h g) as Hm. destruct (mark_high_risk order h g) as [r g']. destruct Hm as (-> & _ & _ & Hn).
  split.
  - eexists. split; [done|]. split.
    + apply NoDup_filter. constructor; [|apply descendants_spec].
      rewrite (proj2 (descendants_spec (nodes g) h)). tauto.
    + intros x. rewrite list_elem_of_filter, removed_spec. tauto.
  - intros x. rewrite Hn. unfold risky. rewrite <- option_fmap_compose. apply option_fmap_ext. intros n. cbn.
    case_bool_decide; cbn; [by rewrite orb_true_r|by rewrite orb_false_r].
Qed.

(** A conflict set that was asked for once is never computed again: after a new
    transaction that conflicts with [h] is registered, the node of [h] names it and
    the conflict set does not change. *)
Theorem conflict_set_stale h x tx fee size g s g1 n
    (Hg : graph_ok g) (Hf : fresh g tx x) (Hh : nodes g !! h = Some n) (Hs : shares x h)
    (Hget : get_conflict_set order h g = (Ok s, g1)) :
  let g2 := (register_transaction order tx x fee size g1).2 in
  (get_conflict_set order h g2).1 = Ok s
  ∧ ∃ n', nodes g2 !! h = Some n' ∧ x ∈ conflicting_with n'.
Proof.
  assert (H1 : nodes g1 = nodes g ∧ outpoint_index g1 = outpoint_index g ∧ conflict_sets g1 !! h = Some s).
  { rewrite conflict_set_run in Hget. destruct (conflict_sets g !! h) eqn:Ec; injection Hget as <- <-; [done|].
    cbn. by rewrite lookup_insert_eq. }
  destruct H1 as (Hn1 & Hi1 & Hs1).
  assert (Hcl : ∀ o, claimants g1 o = claimants g o) by (intros o; unfold claimants; by rewrite Hi1).
  pose proof Hf as (Hfn & Hins & Hl).
  destruct (graph_register_run tx x fee size g1 Hl) as (g2 & -> & Hs2 & _ & Hns).
  { intros o. rewrite Hcl. by eapply fresh_unclaimed. }
  cbn [snd]. split; [by rewrite conflict_set_run, Hs2, Hs1|].
  rewrite Hns, Hn1, lookup_insert_ne, Hh by congruence. eexists. split; [done|].
  rewrite noted_conflicts, bool_decide_eq_false_2, elem_of_union by congruence. left.
  rewrite bool_decide_eq_true_2; [set_solver|]. apply elem_of_list_to_set. rewrite elem_of_detected.
  destruct Hs as (o & Hox & Hoh). exists o. rewrite <- Hins. split; [done|]. rewrite Hcl.
  apply (gk_index g Hg). split; [by eexists|done].
Qed.
End pool.
End theorems.

(** ** Examples *)
Section examples.
#[local] Existing Instance plain_bincode.
#[local] Existing Instance plain_bincode_laws.

Definition node_key (n : Z) : Hash := to_bytes32 (be_bytes 32 n).
Definition gtx (n : Z) (points : list (Z * Z)) : Transaction :=
  {| id := node_key n;
     inputs := (λ '(h, i), {| prev_tx := node_key h; index := i; signature := []; pubkey := []; sighash_type := All |})
       <$> points;
     outputs := []; execution_payload := []; contract_address := None; gas_limit := 0; max_fee_per_gas := 0;
     chain_id := 1; locktime := 0 |}.
Definition key_n (n : Z) : TxHash := as_bytes (node_key n).
Abbreviation elems := (λ s : gset TxHash, elements s).
Lemma elems_perm s : elems s ≡ₚ elements s.
Proof. done. Qed.

(** Output 0 and output 1 of transaction 7 are two coins; [late] spends the first,
    at its second input. *)
Definition first_spender : Transaction := gtx 1 [(7, 0)].
Definition sibling : Transaction := gtx 2 [(7, 1)].
Definition late : Transaction := gtx 3 [(8, 0); (7, 0)].
Definition registered (l : list Transaction) : ConflictGraph :=
  foldl (λ g tx, (register_transaction elems tx (as_bytes (id tx)) 10 100 g).2) ConflictGraph_new l.

(** The index is keyed by the position of the input and not by the index of the
    coin: two transactions that spend different coins of one transaction conflict,
    and two that spend the same coin at different positions do not. *)
Theorem conflicts_go_by_position :
  (register_transaction elems sibling (key_n 2) 10 100 (registered [first_spender])).1 = Ok [key_n 1]
  ∧ (register_transaction elems late (key_n 3) 10 100 (registered [first_spender])).1 = Ok [].
Proof. split; vm_compute; reflexivity. Qed.

Definition sample_ins (h : TxHash) : list Hash :=
  if bool_decide (h = key_n 1) then prev_tx <$> inputs first_spender
  else if bool_decide (h = key_n 2) then prev_tx <$> inputs sibling
  else if bool_decide (h = key_n 3) then prev_tx <$> inputs late else [].

Lemma fresh_first : fresh sample_ins ConflictGraph_new first_spender (key_n 1).
Proof. repeat split; vm_compute; congruence. Qed.
Lemma fresh_sibling : fresh sample_ins (registered [first_spender]) sibling (key_n 2).
Proof. repeat split; vm_compute; congruence. Qed.
Lemma registered_ok : graph_ok sample_ins (registered [first_spender]).
Proof. apply (graph_register_ok elems elems_perm sample_ins first_spender (key_n 1) 10 100 ConflictGraph_new); [apply (graph_new_ok elems elems_perm)|apply fresh_first]. Qed.

Lemma register_transaction_spec_witness :
  ∃ detected g', register_transaction elems sibling (key_n 2) 10 100 (registered [first_spender]) = (Ok detected, g')
  ∧ key_n 1 ∈ detected.
Proof.
  destruct (register_transaction_spec elems elems_perm sample_ins sibling (key_n 2) 10 100 _ registered_ok fresh_sibling)
    as (detected & g' & E & Hd & _).
  exists detected, g'. split; [exact E|]. apply Hd. split; [vm_compute; by eexists|].
  exists (hash_bytes (node_key 7), 0). split; apply list_elem_of_lookup; exists 0%nat; vm_compute; reflexivity.
Defined.

(** [child_of_first] depends on [first_spender]. *)
Definition with_child : ConflictGraph :=
  (add_dependency (key_n 2) (key_n 1) (registered [first_spender; sibling])).2.
Lemma with_child_ok : graph_ok sample_ins with_child.
Proof.
  apply (add_dependency_ok elems elems_perm).
  apply (graph_register_ok elems elems_perm sample_ins sibling (key_n 2) 10 100 _); [apply registered_ok|apply fresh_sibling].
Qed.

Lemma remove_and_cascade_spec_witness :
  ∃ removed g', remove_and_cascade elems (key_n 1) with_child = (Ok removed, g') ∧ nodes g' = ∅.
Proof.
  destruct (remove_and_cascade_spec elems elems_perm sample_ins (key_n 1) with_child with_child_ok)
    as (removed & g' & E & _). exists removed, g'. split; [exact E|].
  assert (Hv : nodes (remove_and_cascade elems (key_n 1) with_child).2 = ∅) by (vm_compute; reflexivity).
  by rewrite E in Hv.
Defined.

Definition one_spender : ConflictGraph := registered [first_spender].
Definition asked : gset TxHash := conflict_set_of elems (nodes one_spender) (key_n 1).
Lemma asked_run :
  get_conflict_set elems (key_n 1) one_spender = (Ok asked, set_sets (<[key_n 1 := asked]> (conflict_sets one_spender)) one_spender).
Proof.
  rewrite conflict_set_run. assert (E : conflict_sets one_spender !! key_n 1 = None) by (vm_compute; reflexivity).
  by rewrite E.
Qed.
Lemma one_spender_node : nodes one_spender !! key_n 1 = Some (ConflictNode_new (key_n 1) 10 100).
Proof. vm_compute. reflexivity. Qed.
Lemma sibling_shares : shares sample_ins (key_n 2) (key_n 1).
Proof.
  exists (hash_bytes (node_key 7), 0). split; apply list_elem_of_lookup; exists 0%nat; vm_compute; reflexivity.
Qed.

(** The code does not look whether the hash is in the graph: registering a live
    transaction again replaces its node, so that its children are forgotten (while
    they still name it as their parent), its claims are listed twice and it is
    recorded as conflicting with itself. *)
Theorem registered_twice :
  let summary g := (λ n, (elements (conflicting_with n), elements (node_children n))) <$> nodes g !! key_n 1 in
  let parents g := (λ n, elements (node_parents n)) <$> nodes g !! key_n 2 in
  let claims g := claimants g (as_bytes (node_key 7), 0) in
  let '(r, g) := register_transaction elems first_spender (key_n 1) 10 100 with_child in
  summary with_child = Some ([key_n 2], [key_n 2]) ∧ claims with_child = [key_n 1; key_n 2]
  ∧ r = Ok [key_n 1; key_n 2]
  ∧ summary g = Some ([key_n 2; key_n 1], []) ∧ parents g = Some [key_n 1]
  ∧ claims g = [key_n 1; key_n 2; key_n 1].
Proof. vm_compute. repeat split. Qed.

Lemma conflict_set_stale_witness :
  let g1 := set_sets (<[key_n 1 := asked]> (conflict_sets one_spender)) one_spender in
  (get_conflict_set elems (key_n 1) (register_transaction elems sibling (key_n 2) 10 100 g1).2).1 = Ok asked.
Proof.
  exact (proj1 (conflict_set_stale elems elems_perm sample_ins (key_n 1) (key_n 2) sibling 10 100
    one_spender asked _ _ registered_ok fresh_sibling one_spender_node sibling_shares asked_run)).
Defined.
End examples.
