(* ===== verification/Partitions.v ===== *)
(** * Partitions of dependent transactions

    klomang-node, [mempool/dependency_graph.rs]: parents and children of every
    registered transaction, and a partition of the transactions into groups that a
    conflict marks as a whole.  While nothing is removed the groups are the connected
    components of the graph; a removal leaves the transaction in its group.

    The fields are locked separately, each for the time it is used; methods are
    modelled as steps.  A [HashSet] turned into a [Vec] is listed by the argument
    [order]. *)

From Stdlib Require Import Init.Byte.
From S2P Require Import Prelude Crypto NodePrelude ConflictGraph.

Record TransactionDependency := {
  dep_parents : gset TxHash;
  dep_children : gset TxHash;
  dep_in_conflict : bool;
  dep_reason : option string
}.
(** [TransactionDependency::new] *)
Definition TransactionDependency_new : TransactionDependency :=
  {| dep_parents := ∅; dep_children := ∅; dep_in_conflict := false; dep_reason := None |}.
Definition set_dep_parents (f : gset TxHash → gset TxHash) (d : TransactionDependency) : TransactionDependency :=
  {| dep_parents := f (dep_parents d); dep_children := dep_children d; dep_in_conflict := dep_in_conflict d;
     dep_reason := dep_reason d |}.
Definition set_dep_children (f : gset TxHash → gset TxHash) (d : TransactionDependency) : TransactionDependency :=
  {| dep_parents := dep_parents d; dep_children := f (dep_children d); dep_in_conflict := dep_in_conflict d;
     dep_reason := dep_reason d |}.
Definition mark_dep (reason : string) (d : TransactionDependency) : TransactionDependency :=
  {| dep_parents := dep_parents d; dep_children := dep_children d; dep_in_conflict := true;
     dep_reason := Some reason |}.

Record ConflictPartition := {
  members : gset TxHash;
  part_in_conflict : bool;
  part_reason : option string;
  part_id : Z
}.
Definition ConflictPartition_new (id : Z) : ConflictPartition :=
  {| members := ∅; part_in_conflict := false; part_reason := None; part_id := id |}.
Definition insert_member (tx : TxHash) (p : ConflictPartition) : ConflictPartition :=
  {| members := {[ tx ]} ∪ members p; part_in_conflict := part_in_conflict p; part_reason := part_reason p;
     part_id := part_id p |}.
(** [ConflictPartition::mark_conflict] *)
Definition mark_partition (reason : string) (p : ConflictPartition) : ConflictPartition :=
  {| members := members p; part_in_conflict := true; part_reason := Some reason; part_id := part_id p |}.
(** [if child_partition.in_conflict { .. }] *)
Definition inherit_conflict (child_partition p : ConflictPartition) : ConflictPartition :=
  if part_in_conflict child_partition then
    {| members := members p; part_in_conflict := true;
       part_reason := match part_reason child_partition with Some r => Some r | None => part_reason p end;
       part_id := part_id p |}
  else p.

Record DependencyGraphStats := {
  total_dependencies : Z;
  total_partitions : Z;
  conflict_propagations : Z;
  affected_transactions : Z
}.
Definition count_partition (s : DependencyGraphStats) : DependencyGraphStats :=
  {| total_dependencies := total_dependencies s; total_partitions := wadd 64 (total_partitions s) 1;
     conflict_propagations := conflict_propagations s; affected_transactions := affected_transactions s |}.
Definition count_dependency (s : DependencyGraphStats) : DependencyGraphStats :=
  {| total_dependencies := wadd 64 (total_dependencies s) 1; total_partitions := total_partitions s;
     conflict_propagations := conflict_propagations s; affected_transactions := affected_transactions s |}.
Definition count_propagation (affected : nat) (s : DependencyGraphStats) : DependencyGraphStats :=
  {| total_dependencies := total_dependencies s; total_partitions := total_partitions s;
     conflict_propagations := wadd 64 (conflict_propagations s) 1;
     affected_transactions := wadd 64 (affected_transactions s) (Z.of_nat affected) |}.

Record DependencyGraph := {
  dependencies : gmap TxHash TransactionDependency;
  partitions : gmap TxHash Z;
  partition_data : gmap Z ConflictPartition;
  dependency_stats : DependencyGraphStats;
  next_partition_id : Z
}.
Definition set_dependencies (f : gmap TxHash TransactionDependency → gmap TxHash TransactionDependency)
    (g : DependencyGraph) : DependencyGraph :=
  {| dependencies := f (dependencies g); partitions := partitions g; partition_data := partition_data g;
     dependency_stats := dependency_stats g; next_partition_id := next_partition_id g |}.
Definition set_partitions (f : gmap TxHash Z → gmap TxHash Z) (g : DependencyGraph) : DependencyGraph :=
  {| dependencies := dependencies g; partitions := f (partitions g); partition_data := partition_data g;
     dependency_stats := dependency_stats g; next_partition_id := next_partition_id g |}.
Definition set_partition_data (f : gmap Z ConflictPartition → gmap Z ConflictPartition)
    (g : DependencyGraph) : DependencyGraph :=
  {| dependencies := dependencies g; partitions := partitions g; partition_data := f (partition_data g);
     dependency_stats := dependency_stats g; next_partition_id := next_partition_id g |}.
Definition set_dependency_stats (f : DependencyGraphStats → DependencyGraphStats)
    (g : DependencyGraph) : DependencyGraph :=
  {| dependencies := dependencies g; partitions := partitions g; partition_data := partition_data g;
     dependency_stats := f (dependency_stats g); next_partition_id := next_partition_id g |}.

(** [DependencyGraph::new] *)
Definition DependencyGraph_new : DependencyGraph :=
  {| dependencies := ∅; partitions := ∅; partition_data := ∅;
     dependency_stats := {| total_dependencies := 0; total_partitions := 0; conflict_propagations := 0;
                            affected_transactions := 0 |};
     next_partition_id := 1 |}.

Definition register_transaction (tx_hash : TxHash) (g : DependencyGraph) : DependencyGraph :=
  match dependencies g !! tx_hash with
  | Some _ => g
  | None =>
      let partition_id := next_partition_id g in
      {| dependencies := <[ tx_hash := TransactionDependency_new ]> (dependencies g);
         partitions := <[ tx_hash := partition_id ]> (partitions g);
         partition_data :=
           <[ partition_id := insert_member tx_hash (ConflictPartition_new partition_id) ]> (partition_data g);
         dependency_stats := count_partition (dependency_stats g);
         next_partition_id := wadd 64 partition_id 1 |}
  end.

Section graph.
Context (order : gset TxHash → list TxHash).

Abbreviation graph_method := (method DependencyGraph string).

(** The child's partition joins the parent's. *)
Definition join_partition (child_partition p : ConflictPartition) : ConflictPartition :=
  inherit_conflict child_partition (foldl (λ p tx, insert_member tx p) p (order (members child_partition))).
Definition reassign (to_merge : list TxHash) (id : Z) (m : gmap TxHash Z) : gmap TxHash Z :=
  foldl (λ m tx, <[ tx := id ]> m) m to_merge.

Definition merge_partitions (child parent : TxHash) : graph_method unit :=
  g ← get;
  child_partition_id ← lift (ok_or (partitions g !! child) "Child not in partitions");
  parent_partition_id ← lift (ok_or (partitions g !! parent) "Parent not in partitions");
  if child_partition_id =? parent_partition_id then mret tt
  else
    child_partition ← lift (ok_or (partition_data g !! child_partition_id) "Child partition not found");
    _ ← modify (set_partition_data (alter (join_partition child_partition) parent_partition_id));
    modify (set_partitions (reassign (order (members child_partition)) parent_partition_id)).

Definition add_dependency (child parent : TxHash) : graph_method unit :=
  _ ← modify (register_transaction child);
  _ ← modify (register_transaction parent);
  _ ← modify (set_dependencies (alter (set_dep_parents ({[ parent ]} ∪.)) child));
  _ ← modify (set_dependencies (alter (set_dep_children ({[ child ]} ∪.)) parent));
  _ ← merge_partitions child parent;
  modify (set_dependency_stats count_dependency).

Definition mark_deps (affected : list TxHash) (reason : string) (m : gmap TxHash TransactionDependency) :
    gmap TxHash TransactionDependency :=
  foldl (λ m tx, alter (mark_dep reason) tx m) m affected.

Definition mark_conflict (tx_hash : TxHash) (reason : string) : graph_method (list TxHash) :=
  g ← get;
  partition_id ← lift (ok_or (partitions g !! tx_hash) "Transaction not in graph");
  let affected :=
    match partition_data g !! partition_id with Some partition => order (members partition) | None => [] end in
  _ ← modify (set_partition_data (alter (mark_partition reason) partition_id));
  _ ← modify (set_dependencies (mark_deps affected reason));
  _ ← modify (set_dependency_stats (count_propagation (length affected)));
  mret affected.

(** ** Queries *)
Definition get_dependents (g : DependencyGraph) (tx_hash : TxHash) : list TxHash :=
  match dependencies g !! tx_hash with Some dep => order (dep_children dep) | None => [] end.
Definition get_parents (g : DependencyGraph) (tx_hash : TxHash) : list TxHash :=
  match dependencies g !! tx_hash with Some dep => order (dep_parents dep) | None => [] end.
Definition is_in_conflict (g : DependencyGraph) (tx_hash : TxHash) : bool :=
  match dependencies g !! tx_hash with Some dep => dep_in_conflict dep | None => false end.
Definition get_conflict_reason (g : DependencyGraph) (tx_hash : TxHash) : option string :=
  dependencies g !! tx_hash ≫= dep_reason.
Definition get_partition (g : DependencyGraph) (tx_hash : TxHash) : option ConflictPartition :=
  partition_id ← partitions g !! tx_hash;
  partition_data g !! partition_id.
Definition get_partition_members (g : DependencyGraph) (tx_hash : TxHash) : list TxHash :=
  match partitions g !! tx_hash with
  | None => []
  | Some partition_id =>
      match partition_data g !! partition_id with Some p => order (members p) | None => [] end
  end.
Definition len (g : DependencyGraph) : Z := Z.of_nat (size (dependencies g)).
Definition is_empty (g : DependencyGraph) : bool := len g =? 0.

(** The loop of [find_affected_downstream]: a transaction is recorded when it leaves
    the queue. *)
Definition visit_child (st : list TxHash * gset TxHash) (child : TxHash) : list TxHash * gset TxHash :=
  let '(queue, visited) := st in
  if bool_decide (child ∈ visited) then st else (queue ++ [child], {[ child ]} ∪ visited).
Fixpoint downstream_loop (succ : TxHash → list TxHash) (fuel : nat) (queue : list TxHash)
    (visited : gset TxHash) (affected : list TxHash) : list TxHash :=
  match fuel with
  | O => affected
  | S fuel =>
      match queue with
      | [] => affected
      | current :: queue =>
          let '(queue, visited) := foldl visit_child (queue, visited) (succ current) in
          downstream_loop succ fuel queue visited (affected ++ [current])
      end
  end.
(** Every child there is: the bound of the search. *)
Definition every_child (g : DependencyGraph) : gset TxHash :=
  ⋃ (dep_children <$> (map_to_list (dependencies g)).*2).
Definition find_affected_downstream (g : DependencyGraph) (tx_hash : TxHash) : list TxHash :=
  downstream_loop (get_dependents g) (S (S (size (every_child g)))) [tx_hash] {[ tx_hash ]} [].

(** ** Removal *)
Definition remove_transaction (tx_hash : TxHash) : graph_method unit :=
  g ← get;
  let parents := get_parents g tx_hash in
  let children := get_dependents g tx_hash in
  _ ← modify (set_dependencies (λ m, foldl (λ m parent, alter (set_dep_children (.∖ {[ tx_hash ]})) parent m) m parents));
  _ ← modify (set_dependencies (λ m, foldl (λ m child, alter (set_dep_parents (.∖ {[ tx_hash ]})) child m) m children));
  _ ← modify (set_dependencies (delete tx_hash));
  modify (set_partitions (delete tx_hash)).
End graph.

(** [clear] *)
Definition clear (g : DependencyGraph) : DependencyGraph := DependencyGraph_new.

(** ** The groups are the connected components *)

(** [c] depends on [p]; the children are the inverse. *)
Definition parents_at (g : DependencyGraph) (c : TxHash) : gset TxHash :=
  match dependencies g !! c with Some d => dep_parents d | None => ∅ end.
Definition children_at (g : DependencyGraph) (p : TxHash) : gset TxHash :=
  match dependencies g !! p with Some d => dep_children d | None => ∅ end.
Definition depends (g : DependencyGraph) (c p : TxHash) : Prop := p ∈ parents_at g c.
Definition has_child (g : DependencyGraph) (p c : TxHash) : Prop := c ∈ children_at g p.

(** What the graph keeps while nothing is removed. *)
Record grouped (g : DependencyGraph) : Prop := {
  gr_dom : dom (dependencies g) = dom (partitions g);
  gr_parent : ∀ c p, depends g c p → p ∈ dom (dependencies g);
  gr_dual : ∀ c p, depends g c p ↔ has_child g p c;
  gr_part : ∀ t i, partitions g !! t = Some i →
    ∃ p, partition_data g !! i = Some p ∧ ∀ x, x ∈ members p ↔ partitions g !! x = Some i;
  gr_fresh : ∀ t i, partitions g !! t = Some i → i < next_partition_id g;
  gr_next : next_partition_id g = 1 + Z.of_nat (size (dependencies g));
  gr_comp : ∀ a b i, partitions g !! a = Some i → (partitions g !! b = Some i ↔ rtsc (depends g) a b)
}.

Lemma depends_dom g c p : grouped g → depends g c p → c ∈ dom (dependencies g) ∧ p ∈ dom (dependencies g).
Proof.
  intros Hg H. split; [|by eapply gr_parent]. unfold depends, parents_at in H. apply elem_of_dom.
  destruct (dependencies g !! c); [by eexists|set_solver].
Qed.
Lemma connected_dom g a b : grouped g → rtsc (depends g) a b → a = b ∨ b ∈ dom (dependencies g).
Proof.
  intros Hg H. apply rtc_inv_r in H as [->|(c & _ & [Hc|Hc])]; [by left|right..]; eapply depends_dom in Hc; naive_solver.
Qed.
Lemma partition_of g t : grouped g → t ∈ dom (dependencies g) → ∃ i, partitions g !! t = Some i.
Proof. intros Hg. rewrite (gr_dom _ Hg), elem_of_dom. by intros [i Hi]; exists i. Qed.

Lemma reassign_lookup l id m t : reassign l id m !! t = if decide (t ∈ l) then Some id else m !! t.
Proof.
  unfold reassign. revert m; induction l as [|x l IH]; intros m; cbn; [done|]. rewrite IH.
  destruct (decide (t ∈ l)); [by rewrite decide_True by (by right)|].
  destruct (decide (t = x)) as [->|Hne].
  - rewrite lookup_insert_eq. by rewrite decide_True by left.
  - rewrite lookup_insert_ne by done. rewrite decide_False; [done|]. by rewrite elem_of_cons; intros [?|?].
Qed.

Lemma register_lookup t g x : dependencies g !! t = None →
  dependencies (register_transaction t g) !! x
  = if decide (x = t) then Some TransactionDependency_new else dependencies g !! x.
Proof.
  intros Ht. unfold register_transaction. rewrite Ht. cbn. rewrite lookup_insert. by repeat case_decide; subst.
Qed.

(** Two graphs with the same edges and groups. *)
Lemma grouped_ext g g' :
  grouped g → dom (dependencies g') = dom (dependencies g) →
  (∀ c p, depends g' c p ↔ depends g c p) → (∀ p c, has_child g' p c ↔ has_child g p c) →
  partitions g' = partitions g → (∀ i, members <$> partition_data g' !! i = members <$> partition_data g !! i) →
  next_partition_id g' = next_partition_id g → grouped g'.
Proof.
  intros [H1 H2 H3 H4 H5 H6 H7] Ed Ep Ec Eq Em En. split.
  - congruence.
  - intros c p. rewrite Ed, Ep. apply H2.
  - intros c p. rewrite Ep, Ec. apply H3.
  - rewrite Eq. intros t i Hi. destruct (H4 t i Hi) as (q & Hq & Hx). specialize (Em i). rewrite Hq in Em.
    destruct (partition_data g' !! i) as [q'|]; [|done]. injection Em as Em. exists q'. by rewrite Em.
  - rewrite Eq, En. done.
  - rewrite En, H6, <- !size_dom, Ed. done.
  - rewrite Eq. intros a b i Hi. rewrite (H7 a b i Hi). symmetry. by apply rtsc_ext.
Qed.

Lemma new_grouped : grouped DependencyGraph_new.
Proof.
  split; cbn; try done.
Qed.

Section register.
Context (t : TxHash) (g : DependencyGraph) (Hg : grouped g) (Ht : dependencies g !! t = None).

Lemma register_depends c p : depends (register_transaction t g) c p ↔ depends g c p.
Proof using Hg Ht.
  unfold depends, parents_at. rewrite register_lookup by done. case_decide as E; [|done]. subst. by rewrite Ht.
Qed.
Lemma register_child p c : has_child (register_transaction t g) p c ↔ has_child g p c.
Proof using Hg Ht.
  unfold has_child, children_at. rewrite register_lookup by done. case_decide as E; [|done]. subst. by rewrite Ht.
Qed.
Lemma unregistered_alone b : rtsc (depends g) t b → t = b.
Proof using Hg Ht.
  intros H. symmetry in H. apply (connected_dom g) in H as [->|H]; [done| |done].
  apply not_elem_of_dom in Ht. done.
Qed.

Lemma register_new_grouped : Z.of_nat (size (dependencies g)) + 1 < 2 ^ 64 - 1 → grouped (register_transaction t g).
Proof using Hg Ht.
  intros Hs. assert (Hd : t ∉ dom (dependencies g)) by by apply not_elem_of_dom.
  assert (Hp : partitions g !! t = None) by (apply not_elem_of_dom; by rewrite <- (gr_dom _ Hg)).
  assert (Ed : dom (dependencies (register_transaction t g)) = {[ t ]} ∪ dom (dependencies g))
    by (unfold register_transaction; rewrite Ht; apply dom_insert_L).
  assert (Eq : partitions (register_transaction t g) = <[ t := next_partition_id g ]> (partitions g))
    by (unfold register_transaction; by rewrite Ht).
  assert (Epd : partition_data (register_transaction t g)
    = <[ next_partition_id g := insert_member t (ConflictPartition_new (next_partition_id g)) ]> (partition_data g))
    by (unfold register_transaction; by rewrite Ht).
  assert (En : next_partition_id (register_transaction t g) = next_partition_id g + 1).
  { unfold register_transaction. rewrite Ht. cbn. unfold wadd, wrap. rewrite (gr_next _ Hg).
    apply Z.mod_small. lia. }
  split.
  - rewrite Ed, Eq, dom_insert_L. by rewrite (gr_dom _ Hg).
  - intros c p. rewrite register_depends, Ed. intros H%(gr_parent _ Hg). set_solver.
  - intros c p. rewrite register_depends, register_child. apply (gr_dual _ Hg).
  - rewrite Eq, Epd. intros x i. rewrite lookup_insert_Some. intros [[<- <-]|[Hne Hx]].
    + eexists. rewrite lookup_insert_eq. split; [done|]. intros x. cbn. rewrite lookup_insert_Some.
      rewrite (right_id_L ∅ (∪)), elem_of_singleton. split; [intros ->; by left|].
      intros [[-> _]|[_ Hx%(gr_fresh _ Hg)]]; [done|lia].
    + pose proof (gr_fresh _ Hg x i Hx). destruct (gr_part _ Hg x i Hx) as (q & Hq & Hm). exists q.
      rewrite lookup_insert_ne by lia. split; [done|]. intros y. rewrite Hm, lookup_insert_Some.
      split; [|intros [[_ ?]|[_ ?]]; [lia|done]]. intros Hy. right. split; [congruence|done].
  - rewrite Eq, En. intros x i. rewrite lookup_insert_Some. intros [[_ <-]|[_ Hx%(gr_fresh _ Hg)]]; lia.
  - rewrite En, (gr_next _ Hg), <- !size_dom, Ed, size_union, size_singleton by set_solver. lia.
  - rewrite Eq. intros a b i Hi.
    rewrite (rtsc_ext _ _ a b register_depends). apply lookup_insert_Some in Hi as [[<- <-]|[Hne Hi]].
    + rewrite lookup_insert_Some. split.
      * intros [[-> _]|[_ Hb%(gr_fresh _ Hg)]]; [constructor|lia].
      * intros H%unregistered_alone. by left.
    + rewrite <- (gr_comp _ Hg a b i Hi), lookup_insert_Some. pose proof (gr_fresh _ Hg a i Hi).
      split; [intros [[_ ?]|[_ ?]]; [lia|done]|]. intros Hb. right. split; [congruence|done].
Qed.
End register.

Lemma register_size t g : (size (dependencies g) ≤ size (dependencies (register_transaction t g)))%nat.
Proof.
  unfold register_transaction. destruct (dependencies g !! t) eqn:Et; [done|]. cbn.
  rewrite map_size_insert_None by done. lia.
Qed.
Lemma register_in t g : t ∈ dom (dependencies (register_transaction t g)).
Proof.
  unfold register_transaction. destruct (dependencies g !! t) eqn:Et; [by apply elem_of_dom|]. cbn. set_solver.
Qed.
Lemma register_mono t g x : x ∈ dom (dependencies g) → x ∈ dom (dependencies (register_transaction t g)).
Proof. unfold register_transaction. destruct (dependencies g !! t); [done|]. cbn. set_solver. Qed.
Lemma register_grouped t g : grouped g →
  Z.of_nat (size (dependencies (register_transaction t g))) < 2 ^ 64 - 1 → grouped (register_transaction t g).
Proof.
  intros Hg Hs. destruct (dependencies g !! t) as [d|] eqn:Et; [by unfold register_transaction in *; rewrite Et in *|].
  apply register_new_grouped; [done|done|]. unfold register_transaction in Hs. rewrite Et in Hs. cbn in Hs.
  rewrite map_size_insert_None in Hs by done. lia.
Qed.

(** *** A dependency *)
Section dependency.
Context (order : gset TxHash → list TxHash) (Horder : ∀ s, order s ≡ₚ elements s).

Lemma in_order_iff s x : x ∈ order s ↔ x ∈ s.
Proof using Horder. by rewrite Horder, elem_of_elements. Qed.
Lemma NoDup_order s : NoDup (order s).
Proof using Horder. rewrite Horder. apply NoDup_elements. Qed.

Lemma join_members q p x : x ∈ members (join_partition order q p) ↔ x ∈ members q ∨ x ∈ members p.
Proof using Horder.
  unfold join_partition. rewrite <- (in_order_iff (members q)). generalize (order (members q)) as l.
  assert (E : ∀ p, members (inherit_conflict q p) = members p)
    by (intros p'; unfold inherit_conflict; by destruct (part_in_conflict q)).
  intros l. rewrite E. clear E. revert p; induction l as [|y l IH]; intros p; cbn [foldl]; [set_solver|].
  rewrite IH. cbn. set_solver.
Qed.

(** The graph with one more edge, before the groups are merged. *)
Definition add_edge (c p : TxHash) (g : DependencyGraph) : DependencyGraph :=
  set_dependencies (alter (set_dep_children ({[ c ]} ∪.)) p)
    (set_dependencies (alter (set_dep_parents ({[ p ]} ∪.)) c) g).

Lemma add_edge_depends c p g x y : c ∈ dom (dependencies g) →
  depends (add_edge c p g) x y ↔ depends g x y ∨ (x = c ∧ y = p).
Proof.
  intros [d Hd]%elem_of_dom. unfold depends, parents_at, add_edge. cbn. rewrite !lookup_alter.
  repeat case_decide; subst; rewrite ?Hd; cbn; try destruct (dependencies g !! x); cbn; set_solver.
Qed.
Lemma add_edge_child c p g x y : p ∈ dom (dependencies g) →
  has_child (add_edge c p g) x y ↔ has_child g x y ∨ (x = p ∧ y = c).
Proof.
  intros [d Hd]%elem_of_dom. unfold has_child, children_at, add_edge. cbn. rewrite !lookup_alter.
  repeat case_decide; subst; rewrite ?Hd; cbn; try destruct (dependencies g !! x); cbn; set_solver.
Qed.
Lemma add_edge_dom c p g : dom (dependencies (add_edge c p g)) = dom (dependencies g).
Proof. unfold add_edge. cbn. by rewrite !dom_alter_L. Qed.

(** The merge, when the two transactions are in one group already. *)
Lemma same_group_merge c p g i :
  grouped g → partitions g !! c = Some i → partitions g !! p = Some i → grouped (add_edge c p g).
Proof using Horder.
  intros Hg Hc Hp.
  assert (Hcd : c ∈ dom (dependencies g)) by (rewrite (gr_dom _ Hg); by apply elem_of_dom).
  assert (Hpd : p ∈ dom (dependencies g)) by (rewrite (gr_dom _ Hg); by apply elem_of_dom).
  assert (Hcp : rtsc (depends g) c p) by by apply (gr_comp _ Hg c p i).
  split; rewrite ?add_edge_dom; try apply Hg.
  - intros x y [H|[-> ->]]%add_edge_depends; [by apply (gr_parent _ Hg) in H|done|done].
  - intros x y. rewrite add_edge_depends, add_edge_child, (gr_dual _ Hg) by done. tauto.
  - rewrite <- (size_dom (dependencies (add_edge c p g))), add_edge_dom, size_dom. apply (gr_next _ Hg).
  - intros a b k Hk. rewrite (rtsc_ext _ _ a b (λ x y, add_edge_depends c p g x y Hcd)), rtsc_add_edge.
    cbn in *. rewrite (gr_comp _ Hg a b k Hk). split; [auto|].
    intros [?|[[H1 H2]|[H1 H2]]]; [done|..]; (etrans; [exact H1|]); [by etrans|].
    etrans; [symmetry; exact Hcp|done].
Qed.

(** Where a transaction is after the group [i] has joined the group [j]. *)
Lemma moved_lookup (m : gmap TxHash Z) (q : gset TxHash) i j t k :
  (∀ x, x ∈ q ↔ m !! x = Some i) →
  reassign (order q) j m !! t = Some k ↔ (m !! t = Some i ∧ k = j) ∨ (m !! t ≠ Some i ∧ m !! t = Some k).
Proof using Horder.
  intros Hq. rewrite reassign_lookup. case_decide as Ht; rewrite in_order_iff, Hq in Ht; naive_solver.
Qed.

Lemma two_groups_merge c p g g' i j q :
  grouped g → partitions g !! c = Some i → partitions g !! p = Some j → i ≠ j →
  partition_data g !! i = Some q → (∀ x, x ∈ members q ↔ partitions g !! x = Some i) →
  dependencies g' = dependencies (add_edge c p g) →
  partition_data g' = alter (join_partition order q) j (partition_data g) →
  partitions g' = reassign (order (members q)) j (partitions g) →
  next_partition_id g' = next_partition_id g → grouped g'.
Proof using Horder.
  intros Hg Hc Hp Hij Hq Hm Ed Ep Eq En.
  assert (Hcd : c ∈ dom (dependencies g)) by (rewrite (gr_dom _ Hg); by apply elem_of_dom).
  assert (Hpd : p ∈ dom (dependencies g)) by (rewrite (gr_dom _ Hg); by apply elem_of_dom).
  assert (Hdep : ∀ x y, depends g' x y ↔ depends g x y ∨ (x = c ∧ y = p))
    by (intros x y; unfold depends, parents_at; rewrite Ed; by apply add_edge_depends).
  assert (Hch : ∀ x y, has_child g' x y ↔ has_child g x y ∨ (x = p ∧ y = c))
    by (intros x y; unfold has_child, children_at; rewrite Ed; by apply add_edge_child).
  assert (Hmv : ∀ t k, partitions g' !! t = Some k
      ↔ (partitions g !! t = Some i ∧ k = j) ∨ (partitions g !! t ≠ Some i ∧ partitions g !! t = Some k))
    by (intros t k; rewrite Eq; by apply moved_lookup).
  split.
  - rewrite Ed, add_edge_dom, (gr_dom _ Hg). apply set_eq. intros t. rewrite !elem_of_dom. split.
    + intros [k Hk]. destruct (decide (partitions g !! t = Some i)); [exists j|exists k]; apply Hmv; naive_solver.
    + intros [k Hk%Hmv]. naive_solver.
  - intros x y. rewrite Hdep, Ed, add_edge_dom. intros [H|[-> ->]]; [by apply (gr_parent _ Hg) in H|done].
  - intros x y. rewrite Hdep, Hch, (gr_dual _ Hg). tauto.
  - intros t k Hk%Hmv. rewrite Ep. destruct (decide (k = j)) as [->|Hk'].
    + destruct (gr_part _ Hg p j Hp) as (r & Hr & Hrm). exists (join_partition order q r).
      rewrite lookup_alter_eq, Hr. split; [done|]. intros x. rewrite join_members, Hm, Hrm, Hmv. naive_solver.
    + destruct Hk as [[_ ?]|[Hne Hk]]; [done|]. destruct (gr_part _ Hg t k Hk) as (r & Hr & Hrm). exists r.
      rewrite lookup_alter_ne by done. split; [done|]. intros x. rewrite Hrm, Hmv. naive_solver.
  - rewrite En. intros t k [[_ ->]|[_ Hk]]%Hmv; by eapply gr_fresh.
  - rewrite En, (gr_next _ Hg), <- !size_dom. by rewrite Ed, add_edge_dom.
  - intros a b k Hk. rewrite (rtsc_ext _ _ a b Hdep), rtsc_add_edge.
    pose proof (gr_comp _ Hg c b i Hc) as Rcb. pose proof (gr_comp _ Hg p b j Hp) as Rpb.
    rewrite <- Rcb, <- Rpb, Hmv. apply Hmv in Hk as [[Ha ->]|[Hne Ha]].
    + rewrite <- (gr_comp _ Hg a b i Ha), <- (gr_comp _ Hg a c i Ha), <- (gr_comp _ Hg a p i Ha). naive_solver.
    + rewrite <- (gr_comp _ Hg a b k Ha), <- (gr_comp _ Hg a c k Ha), <- (gr_comp _ Hg a p k Ha). naive_solver.
Qed.

Lemma merge_run c p g : grouped g → c ∈ dom (dependencies g) → p ∈ dom (dependencies g) →
  ∃ g', merge_partitions order c p (add_edge c p g) = (Ok tt, g') ∧ grouped g'
  ∧ dependencies g' = dependencies (add_edge c p g).
Proof using Horder.
  intros Hg Hc Hp. destruct (partition_of g c Hg Hc) as [i Hi], (partition_of g p Hg Hp) as [j Hj].
  destruct (gr_part _ Hg c i Hi) as (q & Hq & Hm).
  unfold merge_partitions. rewrite (method_bind_run get _ _ _ _) by done. cbn [partitions add_edge set_dependencies].
  rewrite Hi, Hj. destruct (i =? j) eqn:Eij.
  - apply Z.eqb_eq in Eij as ->. exists (add_edge c p g). split; [|split; [by eapply same_group_merge|done]].
    unfold mbind, method_bind, lift. cbn. by rewrite Z.eqb_refl.
  - eexists. split; [unfold mbind, method_bind, lift; cbn; rewrite Eij, Hq; reflexivity|]. split; [|done].
    eapply (two_groups_merge c p g _ i j q); try done. by apply Z.eqb_neq.
Qed.

Lemma grouped_stats f g : grouped g → grouped (set_dependency_stats f g).
Proof. intros Hg. by apply (grouped_ext g). Qed.

Lemma add_dependency_run c p g :
  grouped g →
  Z.of_nat (size (dependencies (register_transaction p (register_transaction c g)))) < 2 ^ 64 - 1 →
  ∃ g', add_dependency order c p g = (Ok tt, g') ∧ grouped g'
  ∧ dependencies g' = dependencies (add_edge c p (register_transaction p (register_transaction c g))).
Proof using Horder.
  intros Hg Hs. set (g1 := register_transaction c g) in *. set (g2 := register_transaction p g1) in *.
  assert (Hg1 : grouped g1) by (apply register_grouped; [done|]; change (register_transaction c g) with g1; pose proof (register_size p g1 : (_ ≤ size (dependencies g2))%nat); lia).
  assert (Hg2 : grouped g2) by by apply register_grouped.
  destruct (merge_run c p g2) as (g3 & E & Hg3 & Ed); [done|apply register_mono, register_in|apply register_in|].
  exists (set_dependency_stats count_dependency g3). split; [|split; [by apply grouped_stats|done]].
  unfold add_dependency. do 4 (rewrite (method_bind_run (modify _) _ _ _ _) by done).
  change (set_dependencies _ (set_dependencies _ _)) with (add_edge c p g2).
  by rewrite (method_bind_run _ _ _ _ _ E).
Qed.

(** *** A conflict *)
Lemma mark_deps_lookup l reason m t : NoDup l →
  mark_deps l reason m !! t = (if decide (t ∈ l) then mark_dep reason <$> m !! t else m !! t).
Proof. apply foldl_alter_lookup. Qed.

Lemma partition_members g t i : grouped g → partitions g !! t = Some i →
  ∃ q, partition_data g !! i = Some q ∧ ∀ x, x ∈ order (members q) ↔ rtsc (depends g) t x.
Proof using Horder.
  intros Hg Hi. destruct (gr_part _ Hg t i Hi) as (q & Hq & Hm). exists q. split; [done|]. intros x.
  by rewrite in_order_iff, Hm, (gr_comp _ Hg t x i Hi).
Qed.

(** A mark on a registered transaction: its component, exactly, and nothing else moves. *)
Lemma mark_conflict_run t reason g : grouped g → t ∈ dom (dependencies g) →
  ∃ l g', mark_conflict order t reason g = (Ok l, g') ∧ NoDup l ∧ (∀ x, x ∈ l ↔ rtsc (depends g) t x)
  ∧ dependencies g' = mark_deps l reason (dependencies g) ∧ grouped g'.
Proof using Horder.
  intros Hg Ht. destruct (partition_of g t Hg Ht) as [i Hi].
  destruct (partition_members g t i Hg Hi) as (q & Hq & Hm).
  eexists (order (members q)), _. split.
  { unfold mark_conflict, mbind, method_bind, lift, get, modify. rewrite Hi. cbn. rewrite Hq. reflexivity. }
  split; [apply NoDup_order|]. split; [done|]. split; [done|].
  pose proof (λ x, mark_deps_lookup (order (members q)) reason (dependencies g) x (NoDup_order _)) as Hl.
  apply (grouped_ext g); cbn; try done.
  - apply set_eq. intros x. rewrite !elem_of_dom, Hl. by case_decide; rewrite ?fmap_is_Some.
  - intros x y. unfold depends, parents_at. cbn. rewrite Hl. by case_decide; destruct (dependencies g !! x).
  - intros x y. unfold has_child, children_at. cbn. rewrite Hl. by case_decide; destruct (dependencies g !! x).
  - intros k. rewrite lookup_alter. case_decide; [subst k|done]. rewrite Hq. done.
Qed.
End dependency.

(** *** Downstream *)
Section downstream.
Context (succ : TxHash → list TxHash).

(** The loop that records on leaving the queue and the shared search, which records
    on entering it. *)
Lemma visit_enqueue l queue visited found :
  foldl visit_child (queue, visited) l = (foldl (enqueue (A:=TxHash)) (queue, visited, found) l).1.
Proof.
  revert queue visited found; induction l as [|x l IH]; intros queue visited found; cbn [foldl visit_child enqueue]; [done|].
  case_bool_decide; apply IH.
Qed.
Lemma downstream_bfs fuel queue visited found affected root :
  root :: found = affected ++ queue →
  let '(q, _, f) := bfs succ fuel (queue, visited, found) in
  q = [] → downstream_loop succ fuel queue visited affected = root :: f.
Proof.
  revert queue visited found affected; induction fuel as [|fuel IH]; intros queue visited found affected E;
    cbn [bfs downstream_loop].
  { intros ->. by rewrite app_nil_r in E. }
  destruct queue as [|c queue]; [intros _; by rewrite app_nil_r in E|].
  rewrite (visit_enqueue _ _ _ found).
  destruct (enqueue_all succ (succ c) queue visited found) as (news & _ & _ & ->). cbn [fst].
  apply IH. rewrite <- (assoc_L (++)). cbn. by rewrite app_comm_cons, E, <- (assoc_L (++)).
Qed.

Lemma downstream_spec (U : gset TxHash) fuel root :
  (∀ c y, y ∈ succ c → y ∈ U) → (size U < fuel)%nat →
  NoDup (downstream_loop succ fuel [root] {[ root ]} [])
  ∧ ∀ x, x ∈ downstream_loop succ fuel [root] {[ root ]} [] ↔ rtc (λ a b, b ∈ succ a) root x.
Proof.
  intros HU Hf. pose proof (bfs_spec succ U root fuel HU Hf) as Hs.
  pose proof (downstream_bfs fuel [root] {[ root ]} [] [] root eq_refl) as Hd.
  pose proof (bfs_drains succ U fuel [root] {[ root ]} [] HU) as Hq.
  destruct (bfs succ fuel ([root], {[ root ]}, [])) as [[q v] f]. cbn in Hq. rewrite Hd.
  - destruct Hs as [Hn Hin]. split.
    + constructor; [|done]. rewrite Hin. tauto.
    + intros x. rewrite elem_of_cons, Hin. split; [intros [->|[_ ?]]; [constructor|done]|].
      intros Hx. destruct (decide (x = root)); [by left|by right].
  - apply Hq. pose proof (subseteq_size (U ∖ {[ root ]}) U ltac:(set_solver)). lia.
Qed.
End downstream.

Lemma child_known g p c : c ∈ children_at g p → c ∈ every_child g.
Proof.
  unfold children_at, every_child. destruct (dependencies g !! p) as [d|] eqn:Ed; [|set_solver].
  intros Hc. apply elem_of_union_list. exists (dep_children d). split; [|done].
  apply list_elem_of_fmap. exists d. split; [done|]. apply list_elem_of_fmap. exists (p, d).
  split; [done|]. by apply elem_of_map_to_list.
Qed.

(** ** The graph without removals *)
Inductive graph_step (order : gset TxHash → list TxHash) : DependencyGraph → DependencyGraph → Prop :=
| step_register t g : graph_step order g (register_transaction t g)
| step_add c p g : graph_step order g (add_dependency order c p g).2
| step_mark t reason g : graph_step order g (mark_conflict order t reason g).2.

Section reachable.
Context (order : gset TxHash → list TxHash) (Horder : ∀ s, order s ≡ₚ elements s).

Lemma merge_dependencies c p g : dependencies (merge_partitions order c p g).2 = dependencies g.
Proof.
  unfold merge_partitions, mbind, method_bind, lift, get, modify.
  destruct (partitions g !! c) as [i|]; [|done]. destruct (partitions g !! p) as [j|]; [|done]. cbn.
  destruct (i =? j); [done|]. by destruct (partition_data g !! i).
Qed.
Lemma add_dependency_size c p g :
  size (dependencies (add_dependency order c p g).2)
  = size (dependencies (register_transaction p (register_transaction c g))).
Proof.
  unfold add_dependency. do 4 (rewrite (method_bind_run (modify _) _ _ _ _) by done).
  change (set_dependencies _ (set_dependencies _ _)) with (add_edge c p (register_transaction p (register_transaction c g))).
  unfold mbind, method_bind. pose proof (merge_dependencies c p (add_edge c p (register_transaction p (register_transaction c g)))) as E.
  destruct (merge_partitions _ _ _ _) as [[u|e|x] g']; cbn [snd modify dependencies set_dependency_stats] in *; by rewrite E, <- size_dom, add_edge_dom, size_dom.
Qed.
Lemma mark_deps_size l reason m : size (mark_deps l reason m) = size m.
Proof.
  unfold mark_deps. revert m; induction l as [|x l IH]; intros m; cbn [foldl]; [done|]. rewrite IH.
  by rewrite <- !size_dom, dom_alter_L.
Qed.
Lemma mark_conflict_size t reason g : size (dependencies (mark_conflict order t reason g).2) = size (dependencies g).
Proof.
  unfold mark_conflict, mbind, method_bind, lift, get, modify. destruct (partitions g !! t) as [i|]; [|done].
  cbn. apply mark_deps_size.
Qed.

Lemma step_grouped g g' : graph_step order g g' →
  (size (dependencies g) ≤ size (dependencies g'))%nat
  ∧ (grouped g → Z.of_nat (size (dependencies g')) < 2 ^ 64 - 1 → grouped g').
Proof using Horder.
  destruct 1 as [t g|c p g|t reason g].
  - split; [apply register_size|apply register_grouped].
  - rewrite add_dependency_size. split; [etrans; apply register_size|]. intros Hg Hs.
    destruct (add_dependency_run order Horder c p g) as (g' & -> & Hg' & _); done.
  - split; [by rewrite mark_conflict_size|]. intros Hg _. destruct (dependencies g !! t) as [d|] eqn:Et.
    + destruct (mark_conflict_run order Horder t reason g) as (l & g' & -> & _ & _ & _ & Hg'); [done| |done].
      by apply elem_of_dom.
    + apply not_elem_of_dom in Et. rewrite (gr_dom _ Hg) in Et. apply not_elem_of_dom in Et.
      unfold mark_conflict. rewrite (method_bind_run get _ _ _ _) by done. by rewrite Et.
Qed.

Lemma reachable_grouped g : rtc (graph_step order) DependencyGraph_new g →
  Z.of_nat (size (dependencies g)) < 2 ^ 64 - 1 → grouped g.
Proof using Horder.
  intros Hg. pattern g. revert g Hg. apply rtc_ind_r; [intros _; apply new_grouped|].
  intros g g' _ Hst IH Hs. destruct (step_grouped g g' Hst) as [Hsz Hgr]. apply Hgr; [|done]. apply IH. lia.
Qed.

(** As long as nothing is removed, the group of a registered transaction is its
    connected component: every transaction that a chain of dependencies, in either
    direction, connects to it.  The identifiers must not wrap around. *)
Theorem partitions_are_components g t :
  rtc (graph_step order) DependencyGraph_new g → Z.of_nat (size (dependencies g)) < 2 ^ 64 - 1 →
  t ∈ dom (dependencies g) →
  NoDup (get_partition_members order g t)
  ∧ (∀ x, x ∈ get_partition_members order g t ↔ rtsc (depends g) t x)
  ∧ ∀ c p, p ∈ get_parents order g c ↔ c ∈ get_dependents order g p.
Proof using Horder.
  intros Hr Hs Ht. pose proof (reachable_grouped g Hr Hs) as Hg.
  destruct (partition_of g t Hg Ht) as [i Hi]. destruct (partition_members order Horder g t i Hg Hi) as (q & Hq & Hm).
  unfold get_partition_members. rewrite Hi, Hq. split; [by apply NoDup_order|]. split; [done|]. intros c p.
  pose proof (gr_dual _ Hg c p) as Hd. unfold depends, has_child, parents_at, children_at in Hd.
  unfold get_parents, get_dependents.
  destruct (dependencies g !! c), (dependencies g !! p); rewrite ?in_order_iff in * by done; set_solver.
Qed.

(** A conflict is recorded for the whole component, parents and siblings included, and
    for nothing else; a transaction that is not registered is an error that changes nothing. *)
Theorem mark_conflict_spec g t reason :
  rtc (graph_step order) DependencyGraph_new g → Z.of_nat (size (dependencies g)) < 2 ^ 64 - 1 →
  match mark_conflict order t reason g with
  | (Ok l, g') => NoDup l ∧ (∀ x, x ∈ l ↔ rtsc (depends g) t x)
      ∧ (∀ x, is_in_conflict g' x = is_in_conflict g x || bool_decide (x ∈ l))
      ∧ ∀ x, get_conflict_reason g' x = if decide (x ∈ l) then Some reason else get_conflict_reason g x
  | (Err e, g') => e = "Transaction not in graph" ∧ t ∉ dom (dependencies g) ∧ g' = g
  | (Panic _, _) => False
  end.
Proof using Horder.
  intros Hr Hs. pose proof (reachable_grouped g Hr Hs) as Hg.
  destruct (decide (t ∈ dom (dependencies g))) as [Ht|Ht].
  - destruct (mark_conflict_run order Horder t reason g Hg Ht) as (l & g' & -> & Hn & Hl & Ed & _).
    split; [done|]. split; [done|].
    assert (Hin : ∀ x, x ∈ l → is_Some (dependencies g !! x)).
    { intros x Hx%Hl. apply (connected_dom g) in Hx; [|done]. apply elem_of_dom. by destruct Hx as [<-|?]. }
    split; intros x; unfold is_in_conflict, get_conflict_reason; rewrite Ed, mark_deps_lookup by done;
      case_decide as Hx; [destruct (Hin x Hx) as [d ->]|destruct (dependencies g !! x)
                         |destruct (Hin x Hx) as [d ->]|]; cbn; rewrite ?bool_decide_true, ?bool_decide_false by done;
      by rewrite ?orb_true_r, ?orb_false_r.
  - assert (Hp : partitions g !! t = None) by (apply not_elem_of_dom; by rewrite <- (gr_dom _ Hg)).
    unfold mark_conflict. rewrite (method_bind_run get _ _ _ _) by done. by rewrite Hp.
Qed.

(** The search downstream lists, once each, the transaction and its descendants. *)
Theorem find_affected_downstream_spec g t :
  NoDup (find_affected_downstream order g t)
  ∧ ∀ x, x ∈ find_affected_downstream order g t ↔ rtc (λ p c, c ∈ get_dependents order g p) t x.
Proof using Horder.
  apply downstream_spec with (U := every_child g); [|lia]. intros p c Hc. apply (child_known g p).
  unfold get_dependents in Hc. unfold children_at. destruct (dependencies g !! p); [|by apply not_elem_of_nil in Hc].
  by rewrite in_order_iff in Hc.
Qed.
End reachable.

(** ** With removals *)
Inductive any_step (order : gset TxHash → list TxHash) : DependencyGraph → DependencyGraph → Prop :=
| any_graph_step g g' : graph_step order g g' → any_step order g g'
| any_remove t g : any_step order g (remove_transaction order t g).2
| any_clear g : any_step order g (clear g).

(** A transaction has a partition, and every partition number has its data. *)
Record located (g : DependencyGraph) : Prop := {
  lo_dom : dom (dependencies g) ⊆ dom (partitions g);
  lo_data : ∀ t i, partitions g !! t = Some i → is_Some (partition_data g !! i)
}.

Section located.
Context (order : gset TxHash → list TxHash).

Lemma new_located : located DependencyGraph_new.
Proof. by split. Qed.
Lemma register_located t g : located g → located (register_transaction t g).
Proof.
  intros [Hd Hp]. unfold register_transaction. destruct (dependencies g !! t); [done|]. split; cbn.
  - rewrite !dom_insert_L. set_solver.
  - intros x i. rewrite !lookup_insert_is_Some, lookup_insert_Some. intros [[_ <-]|[_ Hx]]; [by left|].
    destruct (decide (next_partition_id g = i)); [by left|right]. split; [done|by eapply Hp].
Qed.
Lemma located_dependencies f g : dom (f (dependencies g)) ⊆ dom (dependencies g) → located g → located (set_dependencies f g).
Proof. intros Hf [Hd Hp]. split; cbn; [set_solver|done]. Qed.
Lemma located_alter f t g : located g → located (set_dependencies (alter f t) g).
Proof. apply located_dependencies. by rewrite dom_alter_L. Qed.
Lemma located_alter_data f i g : located g → located (set_partition_data (alter f i) g).
Proof.
  intros [Hd Hp]. split; cbn; [done|]. intros t k Hk%Hp. rewrite lookup_alter.
  case_decide; [by subst; rewrite fmap_is_Some|done].
Qed.
Lemma located_reassign l i g : is_Some (partition_data g !! i) → located g → located (set_partitions (reassign l i) g).
Proof.
  intros Hi [Hd Hp]. split; cbn.
  - intros t Ht%Hd. rewrite elem_of_dom, reassign_lookup in *. by case_decide.
  - intros t k. rewrite reassign_lookup. case_decide; [by intros [= <-]|by apply Hp].
Qed.

(** A merge of registered transactions succeeds. *)
Lemma merge_located c p g : located g → c ∈ dom (partitions g) → p ∈ dom (partitions g) →
  ∃ g', merge_partitions order c p g = (Ok tt, g') ∧ located g'.
Proof.
  intros Hg [i Hi]%elem_of_dom [j Hj]%elem_of_dom.
  destruct (lo_data _ Hg c i Hi) as [q Hq]. pose proof (lo_data _ Hg p j Hj) as Hjd.
  unfold merge_partitions, mbind, method_bind, lift, get, modify. rewrite Hi, Hj. cbn.
  destruct (i =? j); [by exists g|]. rewrite Hq. eexists. split; [reflexivity|].
  apply located_reassign; [|by apply located_alter_data]. cbn. rewrite lookup_alter. case_decide; [by rewrite fmap_is_Some|done].
Qed.

Lemma add_dependency_located c p g : located g → ∃ g', add_dependency order c p g = (Ok tt, g') ∧ located g'.
Proof.
  intros Hg. set (g2 := register_transaction p (register_transaction c g)).
  assert (Hg2 : located g2) by by apply register_located, register_located.
  assert (Hc : c ∈ dom (partitions g2)) by (apply (lo_dom _ Hg2), register_mono, register_in).
  assert (Hp : p ∈ dom (partitions g2)) by (apply (lo_dom _ Hg2), register_in).
  destruct (merge_located c p (add_edge c p g2)) as (g3 & E & [Hd3 Hp3]);
    [by apply located_alter, located_alter|done|done|].
  exists (set_dependency_stats count_dependency g3). split; [|by split].
  unfold add_dependency. do 4 (rewrite (method_bind_run (modify _) _ _ _ _) by done).
  change (set_dependencies _ (set_dependencies _ _)) with (add_edge c p g2).
  by rewrite (method_bind_run _ _ _ _ _ E).
Qed.

Lemma mark_conflict_located t reason g : located g → located (mark_conflict order t reason g).2.
Proof.
  intros Hg. unfold mark_conflict, mbind, method_bind, lift, get, modify.
  destruct (partitions g !! t) as [i|]; [|done]. cbn.
  pose proof (located_alter_data (mark_partition reason) i g Hg) as Hg1.
  match goal with |- located (set_dependency_stats _ (set_dependencies (mark_deps ?l _) _)) =>
    pose proof (located_dependencies (mark_deps l reason) _ ltac:(cbn; unfold mark_deps; by rewrite foldl_alter_dom) Hg1) as [Hd Hp] end.
  by split.
Qed.

Lemma remove_transaction_run t g : ∃ g',
  remove_transaction order t g = (Ok tt, g') ∧ dom (dependencies g') = dom (dependencies g) ∖ {[ t ]}
  ∧ partitions g' = delete t (partitions g) ∧ partition_data g' = partition_data g.
Proof.
  eexists. split; [unfold remove_transaction, mbind, method_bind, get, modify; cbn; reflexivity|]. cbn.
  split; [|done]. by rewrite dom_delete_L, !foldl_alter_dom.
Qed.
Lemma remove_located t g : located g → located (remove_transaction order t g).2.
Proof.
  intros [Hd Hp]. destruct (remove_transaction_run t g) as (g' & -> & Hm & Eq & Ep). split; cbn.
  - rewrite Hm, Eq, dom_delete_L. set_solver.
  - intros x i. rewrite Eq, Ep, lookup_delete_Some. intros [_ Hx]. by eapply Hp.
Qed.

Lemma any_step_located g g' : any_step order g g' → located g → located g'.
Proof.
  intros [h h' Hst|t h|h] Hh; [|by apply remove_located|apply new_located].
  destruct Hst as [t h|c p h|t reason h]; [by apply register_located| |by apply mark_conflict_located].
  by destruct (add_dependency_located c p h Hh) as (h' & -> & Hh').
Qed.

(** Whatever was done before, removals included, a dependency is always added: none of
    the three errors of the merge can be returned. *)
Theorem add_dependency_succeeds g c p :
  rtc (any_step order) DependencyGraph_new g → ∃ g', add_dependency order c p g = (Ok tt, g').
Proof.
  intros Hr. assert (Hg : located g).
  { revert Hr. generalize new_located. generalize DependencyGraph_new. intros g0 H0 Hr.
    induction Hr as [|x y z Hxy _ IH]; [done|]. by eapply IH, any_step_located. }
  destruct (add_dependency_located c p g Hg) as (g' & E & _). by exists g'.
Qed.
End located.

(** ** Witnesses and examples *)
(** [x02] and [x03] spend outputs of [x01]; [x04] stands alone. *)
Definition alone : DependencyGraph := register_transaction [x04] DependencyGraph_new.
Definition couple : DependencyGraph := (add_dependency elements [x02] [x01] alone).2.
Definition family : DependencyGraph := (add_dependency elements [x03] [x01] couple).2.
Lemma family_reachable : rtc (graph_step elements) DependencyGraph_new family.
Proof.
  apply (rtc_l _ _ alone); [exact (step_register elements [x04] DependencyGraph_new)|].
  apply (rtc_l _ _ couple); [exact (step_add elements [x02] [x01] alone)|].
  apply (rtc_l _ _ family); [exact (step_add elements [x03] [x01] couple)|]. apply rtc_refl.
Qed.
Lemma family_small : Z.of_nat (size (dependencies family)) < 2 ^ 64 - 1.
Proof. vm_compute. done. Qed.

Lemma partitions_are_components_witness :
  [x02] ∈ dom (dependencies family)
  ∧ NoDup (get_partition_members elements family [x02])
  ∧ ∀ x, x ∈ get_partition_members elements family [x02] ↔ rtsc (depends family) [x02] x.
Proof.
  assert (Hin : [x02] ∈ dom (dependencies family)) by (apply elem_of_dom; vm_compute; eauto).
  destruct (partitions_are_components elements ltac:(done) family [x02] family_reachable family_small Hin)
    as (Hn & Hm & _). split; [exact Hin|]. split; [exact Hn|exact Hm].
Defined.

Lemma mark_conflict_spec_witness :
  match mark_conflict elements [x02] "double spend" family with
  | (Ok l, g') => NoDup l ∧ ∀ x, x ∈ l ↔ rtsc (depends family) [x02] x
  | _ => False
  end.
Proof.
  pose proof (mark_conflict_spec elements ltac:(done) family [x02] "double spend" family_reachable family_small) as Hs.
  destruct (mark_conflict elements [x02] "double spend" family) as [[l|e|s] g'] eqn:E.
  - destruct Hs as (Hn & Hl & _). split; [exact Hn|exact Hl].
  - exfalso. apply (f_equal (λ r, is_ok r.1)) in E. vm_compute in E. discriminate.
  - exact Hs.
Defined.

Lemma add_dependency_succeeds_witness : ∃ g', add_dependency elements [x04] [x02] (remove_transaction elements [x02] family).2 = (Ok tt, g').
Proof.
  apply add_dependency_succeeds. eapply (rtc_r _ family); [|apply any_remove].
  pose proof family_reachable as Hr. eapply rtc_subrel; [|exact Hr]. intros g g' H. by apply any_graph_step.
Defined.

(** A conflict of the child marks its parent and its sibling. *)
Example conflict_marks_parent_and_sibling :
  let g := (mark_conflict elements [x02] "double spend" family).2 in
  (is_in_conflict g [x01], is_in_conflict g [x03], is_in_conflict g [x04]) = (true, true, false).
Proof. vm_compute. done. Qed.

(** A child that is linked after the conflict of its parent is not marked, though its
    partition is. *)
Example late_child_unmarked :
  let g := (add_dependency elements [x05] [x01] (mark_conflict elements [x01] "double spend" family).2).2 in
  is_in_conflict g [x05] = false ∧ part_in_conflict <$> get_partition g [x05] = Some true.
Proof. vm_compute. done. Qed.

(** A removed transaction stays in the group: a conflict of the parent still reports it. *)
Example removed_is_reported :
  let g := (remove_transaction elements [x02] family).2 in
  dependencies g !! [x02] = None
  ∧ match (mark_conflict elements [x01] "double spend" g).1 with Ok l => bool_decide ([x02] ∈ l) | _ => false end = true.
Proof. vm_compute. done. Qed.

(** Removed and registered again, with no dependency, it is moved into the group of
    its former relatives when that group is merged, and marked with them. *)
Example removed_returns_to_its_group :
  let g := register_transaction [x02] (remove_transaction elements [x02] family).2 in
  let g := (add_dependency elements [x01] [x04] g).2 in
  let g := (mark_conflict elements [x04] "double spend" g).2 in
  get_parents elements g [x02] = [] ∧ get_dependents elements g [x02] = [] ∧ is_in_conflict g [x02] = true.
Proof. vm_compute. done. Qed.
