(* ===== verification/Rbf.v ===== *)
(** * Replacement by fee

    klomang-node, [mempool/rbf_manager.rs]: whether a transaction replaces one it
    conflicts with.  The transactions themselves are arguments the code ignores and
    are left out.  Fee rates are IEEE 754 doubles by their executable
    specification. *)

From Stdlib Require Import Init.Byte Floats.SpecFloat.
From S2P Require Import Prelude Crypto Transaction Pow NodePrelude ConflictGraph.

Definition MINIMUM_FEE_INCREMENT : Z := 1.

Inductive RBFReason := HigherAbsoluteFee | HigherFeeRate | HigherFeeRateWithThreshold | DeterministicTiebreaker.
Inductive RBFChoice :=
| KeepExisting
| ReplaceExisting (reason : RBFReason) (evicted_descendants : list TxHash)
| CannotReplace (reason : string).

Record RBFStats := {
  total_evaluations : Z;
  replacements_performed : Z;
  rejections : Z;
  fee_rate_wins : Z;
  tiebreaker_wins : Z
}.
Definition RBFStats_default : RBFStats :=
  {| total_evaluations := 0; replacements_performed := 0; rejections := 0; fee_rate_wins := 0; tiebreaker_wins := 0 |}.
Definition count_evaluation (s : RBFStats) : RBFStats :=
  {| total_evaluations := wadd 64 (total_evaluations s) 1; replacements_performed := replacements_performed s;
     rejections := rejections s; fee_rate_wins := fee_rate_wins s; tiebreaker_wins := tiebreaker_wins s |}.
Definition count_rejection (s : RBFStats) : RBFStats :=
  {| total_evaluations := total_evaluations s; replacements_performed := replacements_performed s;
     rejections := wadd 64 (rejections s) 1; fee_rate_wins := fee_rate_wins s; tiebreaker_wins := tiebreaker_wins s |}.
Definition count_rate_win (s : RBFStats) : RBFStats :=
  {| total_evaluations := total_evaluations s; replacements_performed := wadd 64 (replacements_performed s) 1;
     rejections := rejections s; fee_rate_wins := wadd 64 (fee_rate_wins s) 1; tiebreaker_wins := tiebreaker_wins s |}.
Definition count_tiebreaker_win (s : RBFStats) : RBFStats :=
  {| total_evaluations := total_evaluations s; replacements_performed := wadd 64 (replacements_performed s) 1;
     rejections := rejections s; fee_rate_wins := fee_rate_wins s; tiebreaker_wins := wadd 64 (tiebreaker_wins s) 1 |}.

Record RBFManager := { conflict_graph : ConflictGraph; rbf_stats : RBFStats }.
Definition RBFManager_new (g : ConflictGraph) : RBFManager := {| conflict_graph := g; rbf_stats := RBFStats_default |}.
Definition set_conflict_graph (g : ConflictGraph) (m : RBFManager) : RBFManager :=
  {| conflict_graph := g; rbf_stats := rbf_stats m |}.
Definition map_rbf_stats (f : RBFStats → RBFStats) (m : RBFManager) : RBFManager :=
  {| conflict_graph := conflict_graph m; rbf_stats := f (rbf_stats m) |}.
Definition reset_stats (m : RBFManager) : RBFManager := map_rbf_stats (λ _, RBFStats_default) m.

Record RBFEvaluation := {
  choice : RBFChoice;
  incoming_fee : Z;
  incoming_size : Z;
  existing_fee : Z;
  existing_size : Z;
  incoming_rate : spec_float;
  existing_rate : spec_float;
  incoming_tx_hash : TxHash;
  existing_tx_hash : TxHash
}.
Definition winner_hash (e : RBFEvaluation) : option TxHash :=
  match choice e with
  | ReplaceExisting _ _ => Some (incoming_tx_hash e)
  | KeepExisting => Some (existing_tx_hash e)
  | CannotReplace _ => None
  end.

(** [x as f64 / y as f64] *)
Definition rate (fee size : Z) : spec_float := f64_div (f64_of_Z fee) (f64_of_Z size).
(** [(a - b).abs() < 0.01] *)
Definition rates_equal (a b : spec_float) : bool :=
  SFltb (SFabs (SFsub 53 1024 a b)) (S754_finite false 5764607523034235 (-59)).

(** A contender: its hash, fee and size. *)
Record Contender := { c_hash : TxHash; c_fee : Z; c_size : Z }.

Section rbf.
Context `{Bincode} (order : gset TxHash → list TxHash).

Abbreviation rbf_method := (method RBFManager string).

(** [self.conflict_graph.remove_and_cascade(..).unwrap_or_default()] *)
Definition evict (existing_hash : TxHash) : rbf_method (list TxHash) :=
  zoom conflict_graph set_conflict_graph
    (catch (remove_and_cascade order existing_hash) mret (λ _, mret [])).

(** Slices of bytes compare lexicographically. *)
Definition apply_deterministic_tiebreaker (incoming_hash existing_hash : TxHash) : rbf_method RBFChoice :=
  if bytes_leb incoming_hash existing_hash && negb (bool_decide (incoming_hash = existing_hash)) then
    _ ← modify (map_rbf_stats count_tiebreaker_win);
    evicted ← evict existing_hash;
    mret (ReplaceExisting DeterministicTiebreaker evicted)
  else
    _ ← modify (map_rbf_stats count_rejection);
    mret KeepExisting.

Definition evaluate_rbf_supremacy (incoming existing : Contender) : rbf_method RBFChoice :=
  _ ← modify (map_rbf_stats count_evaluation);
  _ ← lift (ensure (0 <? c_size incoming) "Incoming transaction has zero size");
  _ ← lift (ensure (0 <? c_size existing) "Existing transaction has zero size");
  let incoming_rate := rate (c_fee incoming) (c_size incoming) in
  let existing_rate := rate (c_fee existing) (c_size existing) in
  let minimum_additional_fee := wmul 64 (c_size existing) MINIMUM_FEE_INCREMENT in
  let required_fee := wadd 64 (c_fee existing) minimum_additional_fee in
  if c_fee incoming <? required_fee then
    _ ← modify (map_rbf_stats count_rejection);
    mret KeepExisting
  else if rates_equal incoming_rate existing_rate then
    apply_deterministic_tiebreaker (c_hash incoming) (c_hash existing)
  else if SFltb existing_rate incoming_rate then
    _ ← modify (map_rbf_stats count_rate_win);
    evicted ← evict (c_hash existing);
    mret (ReplaceExisting HigherFeeRateWithThreshold evicted)
  else
    _ ← modify (map_rbf_stats count_rejection);
    mret KeepExisting.

Definition evaluate_rbf_conflicts (incoming : Contender) (conflicting_hashes : list TxHash)
    (conflict_txs : list (Z * Z)) : rbf_method (list RBFChoice) :=
  if negb (bool_decide (length conflicting_hashes = length conflict_txs))
  then throw "Mismatched number of conflicting transactions"
  else mapM (λ '(h, (fee, size)), evaluate_rbf_supremacy incoming {| c_hash := h; c_fee := fee; c_size := size |})
         (zip conflicting_hashes conflict_txs).
End rbf.

(** ** Theorems *)
Section theorems.
Context `{BincodeLaws} (order : gset TxHash → list TxHash) (Horder : ∀ s, order s ≡ₚ elements s).
Implicit Types (m : RBFManager) (i e : Contender).

Lemma rbf_evict_run h m :
  ∃ l g', remove_and_cascade order h (conflict_graph m) = (Ok l, g')
  ∧ evict order h m = (Ok l, set_conflict_graph g' m).
Proof.
  unfold evict, zoom, catch, remove_and_cascade. erewrite method_bind_run by done. erewrite method_bind_run by done.
  eexists _, _. split; reflexivity.
Qed.

Definition required_fee e : Z := wadd 64 (c_fee e) (wmul 64 (c_size e) MINIMUM_FEE_INCREMENT).
Definition close i e : bool := rates_equal (rate (c_fee i) (c_size i)) (rate (c_fee e) (c_size e)).
Definition better i e : bool := SFltb (rate (c_fee e) (c_size e)) (rate (c_fee i) (c_size i)).
Definition before i e : bool := bytes_leb (c_hash i) (c_hash e) && negb (bool_decide (c_hash i = c_hash e)).

(** The three rules, on every branch.  A replacement pays the required fee and wins
    by rate, or at rates within a hundredth by the smaller hash; it evicts what
    depends on the loser.  Otherwise the graph is not touched. *)
Theorem evaluate_rbf_spec i e m :
  let '(r, m') := evaluate_rbf_supremacy order i e m in
  match r with
  | Ok (ReplaceExisting reason evicted) =>
      0 < c_size i ∧ 0 < c_size e ∧ required_fee e ≤ c_fee i
      ∧ (reason = DeterministicTiebreaker ∧ close i e = true ∧ before i e = true
         ∨ reason = HigherFeeRateWithThreshold ∧ close i e = false ∧ better i e = true)
      ∧ remove_and_cascade order (c_hash e) (conflict_graph m) = (Ok evicted, conflict_graph m')
  | Ok KeepExisting =>
      0 < c_size i ∧ 0 < c_size e ∧ conflict_graph m' = conflict_graph m
      ∧ (c_fee i < required_fee e ∨ close i e = true ∧ before i e = false
         ∨ close i e = false ∧ better i e = false)
  | Ok (CannotReplace _) => False
  | Err _ => (c_size i ≤ 0 ∨ c_size e ≤ 0) ∧ conflict_graph m' = conflict_graph m
  | Panic _ => False
  end.
Proof.
  unfold evaluate_rbf_supremacy. erewrite method_bind_run by done.
  destruct (0 <? c_size i) eqn:Ei.
  2:{ erewrite method_bind_stop by done. split; [lia|done]. }
  erewrite method_bind_run by done. destruct (0 <? c_size e) eqn:Ee.
  2:{ erewrite method_bind_stop by done. split; [lia|done]. }
  erewrite method_bind_run by done. cbv zeta. fold (required_fee e).
  change (rates_equal _ _) with (close i e). change (SFltb _ _) with (better i e).
  destruct (c_fee i <? required_fee e) eqn:Er.
  { erewrite method_bind_run by done. split_and!; [lia|lia|done|left; lia]. }
  destruct (close i e) eqn:Ec.
  - unfold apply_deterministic_tiebreaker. change (bytes_leb _ _ && _) with (before i e).
    destruct (before i e) eqn:Eb; erewrite method_bind_run by done; [|split_and!; [lia|lia|done|by right; left]].
    set (m1 := map_rbf_stats count_tiebreaker_win _).
    destruct (rbf_evict_run (c_hash e) m1) as (l & g' & Eg & Ev). erewrite method_bind_run by exact Ev.
    split_and!; [lia|lia|lia|by left|]. exact Eg.
  - destruct (better i e) eqn:Eb; erewrite method_bind_run by done; [|split_and!; [lia|lia|done|by right; right]].
    set (m1 := map_rbf_stats count_rate_win _).
    destruct (rbf_evict_run (c_hash e) m1) as (l & g' & Eg & Ev). erewrite method_bind_run by exact Ev.
    split_and!; [lia|lia|lia|by right|]. exact Eg.
Qed.

(** [i] replaces [e], in some state. *)
Definition replaces i e : Prop :=
  ∃ m reason evicted m', evaluate_rbf_supremacy order i e m = (Ok (ReplaceExisting reason evicted), m').

Lemma replaces_by i e m reason l :
  (evaluate_rbf_supremacy order i e m).1 = Ok (ReplaceExisting reason l) → replaces i e.
Proof. intros E. exists m, reason, l, (evaluate_rbf_supremacy order i e m).2. by rewrite <- E, <- surjective_pairing. Qed.

(** A fee and a size whose sum is a [u64]. *)
Definition payable (c : Contender) : Prop := 0 ≤ c_fee c ∧ 0 ≤ c_size c ∧ c_fee c + c_size c < 2 ^ 64.

Lemma replaces_pays i e : payable e → replaces i e → c_fee e + c_size e ≤ c_fee i ∧ 0 < c_size e.
Proof.
  intros (Hf & Hs & Hb) (m & reason & evicted & m' & E). pose proof (evaluate_rbf_spec i e m) as Hr. rewrite E in Hr.
  destruct Hr as (_ & Hp & Hq & _). unfold required_fee, wadd, wmul, MINIMUM_FEE_INCREMENT in Hq.
  rewrite Z.mul_1_r, (wrap_small 64 (c_size e)), wrap_small in Hq by (unfold fits; lia). lia.
Qed.

(** Replacements end.  In a chain where each contender replaces the one before, the
    fee grows by the size of every loser; so nothing is replaced in a circle, and a
    chain is no longer than there are fees. *)
Theorem replacements_end first chain
    (Hp : Forall payable (first :: chain))
    (Hc : ∀ n a b, (first :: chain) !! n = Some a → chain !! n = Some b → replaces b a) :
  (∀ final, last (first :: chain) = Some final →
     c_fee first + zsum (c_size <$> take (length chain) (first :: chain)) ≤ c_fee final)
  ∧ Z.of_nat (length (first :: chain)) ≤ 2 ^ 64
  ∧ NoDup (first :: chain).
Proof.
  assert (Hmain : (∀ final, last (first :: chain) = Some final →
     c_fee first + zsum (c_size <$> take (length chain) (first :: chain)) ≤ c_fee final
     ∧ c_fee first + Z.of_nat (length chain) ≤ c_fee final) ∧ NoDup (first :: chain)
     ∧ Forall (λ c, c_fee first < c_fee c) chain).
  { revert first Hp Hc; induction chain as [|second chain IH]; intros first Hp Hc.
    { split; [|split; [apply NoDup_singleton|constructor]]. intros final [= <-]. cbn. lia. }
    apply Forall_cons in Hp as [Hf Hp].
    destruct (replaces_pays second first Hf (Hc 0%nat first second eq_refl eq_refl)) as [Hfee Hsz].
    destruct (IH second Hp) as (Hl & Hnd & Hall); [intros n a b Ha Hb; exact (Hc (S n) a b Ha Hb)|].
    assert (Hall' : Forall (λ c, c_fee first < c_fee c) (second :: chain)).
    { constructor; [lia|]. eapply Forall_impl; [exact Hall|]. cbn. lia. }
    split; [|split; [|done]].
    - intros final Hfin. change (last (first :: second :: chain)) with (last (second :: chain)) in Hfin.
      specialize (Hl final Hfin). cbn [length take fmap list_fmap]. rewrite zsum_cons.
      cbn [length] in *. lia.
    - constructor; [|done]. intros Hin. rewrite Forall_forall in Hall'. specialize (Hall' first Hin). lia. }
  destruct Hmain as (Hl & Hnd & _). split; [intros final Hfin; apply (Hl final Hfin)|]. split; [|done].
  destruct (last (first :: chain)) as [final|] eqn:El; [|by apply last_None in El].
  destruct (Hl final eq_refl) as [_ Hn]. apply last_Some_elem_of in El.
  rewrite Forall_forall in Hp. destruct (Hp final El) as (? & ? & ?).
  destruct (Hp first ltac:(left)) as (? & _). cbn [length]. lia.
Qed.

(** A batch is not all or nothing: when the incoming transaction beats the first
    conflict and loses against the second, it is refused and the first one is gone
    from the graph all the same. *)
Theorem lost_batch_evicts ins i e1 e2 m m1 m2 reason evicted
    (Hg : graph_ok ins (conflict_graph m))
    (H1 : evaluate_rbf_supremacy order i e1 m = (Ok (ReplaceExisting reason evicted), m1))
    (H2 : evaluate_rbf_supremacy order i e2 m1 = (Ok KeepExisting, m2)) :
  evaluate_rbf_conflicts order i [c_hash e1; c_hash e2] [(c_fee e1, c_size e1); (c_fee e2, c_size e2)] m
  = (Ok [ReplaceExisting reason evicted; KeepExisting], m2)
  ∧ nodes (conflict_graph m2) !! c_hash e1 = None.
Proof.
  split.
  - unfold evaluate_rbf_conflicts. cbn [negb length zip zip_with mapM].
    rewrite bool_decide_eq_true_2 by done. cbn [negb].
    destruct e1 as [h1 f1 s1], e2 as [h2 f2 s2]; cbn [c_hash c_fee c_size] in *.
    erewrite method_bind_run by exact H1. erewrite method_bind_run; [done|].
    erewrite method_bind_run by exact H2. done.
  - pose proof (evaluate_rbf_spec i e1 m) as Hr. rewrite H1 in Hr. destruct Hr as (_ & _ & _ & _ & Hrem).
    pose proof (evaluate_rbf_spec i e2 m1) as Hk. rewrite H2 in Hk. destruct Hk as (_ & _ & -> & _).
    destruct (remove_run order Horder (c_hash e1) (conflict_graph m) (gk_links _ _ Hg)) as (g' & E & Hn & _).
    rewrite Hrem in E. injection E as -> <-. rewrite Hn. by rewrite bool_decide_eq_true_2 by left.
Qed.
End theorems.

(** ** Examples *)
Section examples.
#[local] Existing Instance plain_bincode.
#[local] Existing Instance plain_bincode_laws.

Definition empty_manager : RBFManager := RBFManager_new ConflictGraph_new.
Definition contender (n fee size : Z) : Contender := {| c_hash := key_n n; c_fee := fee; c_size := size |}.
Abbreviation elems := (λ s : gset TxHash, elements s).

(** The required fee is a wrapping sum: next to the end of [u64] a transaction that
    pays [2^40] replaces one that pays [2^64 - 1]. *)
Theorem wrapped_fee_replaces :
  (evaluate_rbf_supremacy elems (contender 2 (2 ^ 40) 1) (contender 1 (2 ^ 64 - 1) (2 ^ 40)) empty_manager).1
  = Ok (ReplaceExisting HigherFeeRateWithThreshold [key_n 1]).
Proof. vm_compute. reflexivity. Qed.

Definition low : Contender := contender 1 100 100.
Definition mid : Contender := contender 2 300 100.
Definition high : Contender := contender 3 500 100.

Lemma mid_replaces : replaces elems mid low.
Proof. apply (replaces_by elems mid low empty_manager HigherFeeRateWithThreshold [key_n 1]). vm_compute. reflexivity. Qed.
Lemma high_replaces : replaces elems high mid.
Proof. apply (replaces_by elems high mid empty_manager HigherFeeRateWithThreshold [key_n 2]). vm_compute. reflexivity. Qed.

Lemma replacements_end_witness : NoDup [low; mid; high].
Proof.
  apply (replacements_end elems low [mid; high]).
  - repeat constructor; cbn; lia.
  - intros [|[|[|n]]] a b Ha Hb; cbn in Ha, Hb; simplify_eq; [apply mid_replaces|apply high_replaces].
Defined.

(** [mid] beats [low], which is in the graph, and loses to [rich]. *)
Definition rich : Contender := contender 4 1000 100.
Definition pool_manager : RBFManager := RBFManager_new (registered [first_spender]).
Lemma mid_beats_low :
  evaluate_rbf_supremacy elems mid low pool_manager
  = (Ok (ReplaceExisting HigherFeeRateWithThreshold [key_n 1]), (evaluate_rbf_supremacy elems mid low pool_manager).2).
Proof. apply injective_projections; [|done]. vm_compute. reflexivity. Qed.
Lemma mid_loses :
  let m1 := (evaluate_rbf_supremacy elems mid low pool_manager).2 in
  evaluate_rbf_supremacy elems mid rich m1 = (Ok KeepExisting, (evaluate_rbf_supremacy elems mid rich m1).2).
Proof. cbv zeta. apply injective_projections; [|done]. vm_compute. reflexivity. Qed.

Lemma lost_batch_evicts_witness :
  nodes (conflict_graph (evaluate_rbf_supremacy elems mid rich (evaluate_rbf_supremacy elems mid low pool_manager).2).2)
    !! key_n 1 = None.
Proof. exact (proj2 (lost_batch_evicts elems elems_perm sample_ins mid low rich pool_manager _ _ _ _ registered_ok mid_beats_low mid_loses)). Defined.
End examples.
