(* ===== verification/GraphOrdering.v ===== *)
(** * Conflicts, groups and the canonical order of the node's pool

    klomang-node, [mempool/graph_conflict_ordering.rs]: a disjoint-set union with
    path compression and ranks, conflicts by spent outpoints, dependencies, the
    topological order with priorities, and the groups of conflicting transactions.

    A method takes its locks at the start and is one step; the clock and the
    [bincode] size of a transaction are arguments.  Where a [HashMap] is iterated
    and the order reaches a result, the order is the argument [order].  The storage
    reference is unused by the code and left out. *)

From Stdlib Require Import Init.Byte Floats.SpecFloat.
From S2P Require Import Prelude Crypto Transaction Pow NodePrelude.

(** ** Disjoint-set union *)
Abbreviation key := (list byte).

Record DisjointSetUnion := { dsu_parent : gmap key key; dsu_rank : gmap key Z }.
Definition DisjointSetUnion_new : DisjointSetUnion := {| dsu_parent := ∅; dsu_rank := ∅ |}.

Definition set_parent (x p : key) (d : DisjointSetUnion) : DisjointSetUnion :=
  {| dsu_parent := <[x := p]> (dsu_parent d); dsu_rank := dsu_rank d |}.
Definition set_rank (x : key) (r : Z) (d : DisjointSetUnion) : DisjointSetUnion :=
  {| dsu_parent := dsu_parent d; dsu_rank := <[x := r]> (dsu_rank d) |}.

(** [entry(..).or_insert(..)] *)
Definition make_set (x : key) (d : DisjointSetUnion) : DisjointSetUnion :=
  {| dsu_parent := <[x := default x (dsu_parent d !! x)]> (dsu_parent d);
     dsu_rank := <[x := default 0 (dsu_rank d !! x)]> (dsu_rank d) |}.

(** The recursion of [find]; [None] when [fuel] calls are not enough. *)
Fixpoint find_fuel (fuel : nat) (x : key) (d : DisjointSetUnion) : option (key * DisjointSetUnion) :=
  match fuel with
  | O => None
  | S fuel =>
      match dsu_parent d !! x with
      | Some p =>
          if bool_decide (p = x) then Some (x, d)
          else '(root, d) ← find_fuel fuel p d; Some (root, set_parent x root d)
      | None => Some (x, d)
      end
  end.
Definition find (x : key) (d : DisjointSetUnion) : option (key * DisjointSetUnion) :=
  find_fuel (S (size (dsu_parent d))) x d.

Definition rank_of (d : DisjointSetUnion) (x : key) : Z := default 0 (dsu_rank d !! x).

Definition link (root1 root2 : key) (d : DisjointSetUnion) : DisjointSetUnion :=
  let rank1 := rank_of d root1 in
  let rank2 := rank_of d root2 in
  if rank1 <? rank2 then set_parent root1 root2 d
  else if rank2 <? rank1 then set_parent root2 root1 d
  else set_rank root1 (wadd 32 rank1 1) (set_parent root2 root1 d).

Definition union (x y : key) (d : DisjointSetUnion) : option DisjointSetUnion :=
  '(root1, d) ← find x d;
  '(root2, d) ← find y d;
  Some (if bool_decide (root1 = root2) then d else link root1 root2 d).

(** [get_components], over the keys in the order of the map. *)
Definition add_component (st : gmap key (list key) * DisjointSetUnion) (x : key) :
    option (gmap key (list key) * DisjointSetUnion) :=
  let '(components, d) := st in
  '(root, d) ← find x d;
  Some (<[root := default [] (components !! root) ++ [x]]> components, d).
Fixpoint foldM {A B} (f : A → B → option A) (a : A) (l : list B) : option A :=
  match l with
  | [] => Some a
  | b :: l => a ← f a b; foldM f a l
  end.

(** ** The engine *)
Record TransactionNode := {
  n_hash : key;
  n_fee : Z;
  n_size_bytes : Z;
  n_arrival_time_ms : Z;
  n_input_count : Z;
  n_output_count : Z;
  n_in_degree : Z;
  n_out_degree : Z
}.

Abbreviation f64 := spec_float.
Definition f64_thousand : f64 := f64_of_Z 1000.

Definition fee_density (n : TransactionNode) : f64 :=
  if 0 <? n_size_bytes n then f64_div (f64_of_Z (n_fee n)) (f64_of_Z (n_size_bytes n)) else S754_zero false.
Definition age_score (n : TransactionNode) (current_time_ms : Z) : Z :=
  sat_sub current_time_ms (n_arrival_time_ms n).
Definition priority_score (n : TransactionNode) (current_time_ms : Z) (fee_weight age_weight : f64) : f64 :=
  let age := f64_of_Z (age_score n current_time_ms) in
  f64_add (f64_mul (fee_density n) fee_weight) (f64_mul (f64_div age f64_thousand) age_weight).

Record CanonicalOrderingResult := {
  ordered_hashes : list key;
  layer_count : Z;
  parallel_groups : list (list key);
  conflict_count : Z
}.

(** The key of an outpoint is the printed [prev_tx] with the index 0; the derived
    [Debug] prints every byte, so the hash stands for it. *)
Definition claim_key (input : TxInput) : Hash * Z := (prev_tx input, 0).

Record Engine := {
  utxo_index : gmap (Hash * Z) (list key);
  engine_nodes : gmap key TransactionNode;
  conflict_map : gmap key (list key);
  dependency_map : gmap key (list key);
  cached_ordering : option CanonicalOrderingResult;
  fee_density_weight : f64;
  age_weight : f64
}.
(** 0.7 and 0.3 *)
Definition Engine_new : Engine :=
  {| utxo_index := ∅; engine_nodes := ∅; conflict_map := ∅; dependency_map := ∅; cached_ordering := None;
     fee_density_weight := S754_finite false 6305039478318694 (-53);
     age_weight := S754_finite false 5404319552844595 (-54) |}.

Definition set_utxo_index (i : gmap (Hash * Z) (list key)) (e : Engine) : Engine :=
  {| utxo_index := i; engine_nodes := engine_nodes e; conflict_map := conflict_map e;
     dependency_map := dependency_map e; cached_ordering := cached_ordering e;
     fee_density_weight := fee_density_weight e; age_weight := age_weight e |}.
Definition set_engine_nodes (n : gmap key TransactionNode) (e : Engine) : Engine :=
  {| utxo_index := utxo_index e; engine_nodes := n; conflict_map := conflict_map e;
     dependency_map := dependency_map e; cached_ordering := cached_ordering e;
     fee_density_weight := fee_density_weight e; age_weight := age_weight e |}.
Definition set_conflict_map (c : gmap key (list key)) (e : Engine) : Engine :=
  {| utxo_index := utxo_index e; engine_nodes := engine_nodes e; conflict_map := c;
     dependency_map := dependency_map e; cached_ordering := cached_ordering e;
     fee_density_weight := fee_density_weight e; age_weight := age_weight e |}.
Definition set_dependency_map (m : gmap key (list key)) (e : Engine) : Engine :=
  {| utxo_index := utxo_index e; engine_nodes := engine_nodes e; conflict_map := conflict_map e;
     dependency_map := m; cached_ordering := cached_ordering e;
     fee_density_weight := fee_density_weight e; age_weight := age_weight e |}.
Definition set_cached_ordering (c : option CanonicalOrderingResult) (e : Engine) : Engine :=
  {| utxo_index := utxo_index e; engine_nodes := engine_nodes e; conflict_map := conflict_map e;
     dependency_map := dependency_map e; cached_ordering := c;
     fee_density_weight := fee_density_weight e; age_weight := age_weight e |}.

(** [map.entry(k).or_insert_with(Vec::new).push(v)] *)
Definition push_at `{Countable K} (k : K) (v : key) (m : gmap K (list key)) : gmap K (list key) :=
  <[k := default [] (m !! k) ++ [v]]> m.

(** ** Registration *)
Definition note_claimant (tx_hash claimant : key) (st : list key * gmap key (list key)) :
    list key * gmap key (list key) :=
  if bool_decide (claimant = tx_hash) then st
  else (st.1 ++ [claimant], push_at claimant tx_hash (push_at tx_hash claimant st.2)).

Definition register_spend (tx_hash : key) (st : list key * gmap key (list key) * gmap (Hash * Z) (list key))
    (input : TxInput) : list key * gmap key (list key) * gmap (Hash * Z) (list key) :=
  let '(detected, conflicts, index) := st in
  let k := claim_key input in
  let '(detected, conflicts) :=
    foldl (λ st c, note_claimant tx_hash c st) (detected, conflicts) (default [] (index !! k)) in
  (detected, conflicts, push_at k tx_hash index).

Definition engine_register (serialized_size : Transaction → option Z) (tx : Transaction) (tx_hash : key)
    (fee arrival_time_ms : Z) : method Engine string (list key) :=
  e ← get;
  let node := {| n_hash := tx_hash; n_fee := fee; n_size_bytes := default 0 (serialized_size tx);
                 n_arrival_time_ms := arrival_time_ms; n_input_count := Z.of_nat (length (inputs tx));
                 n_output_count := Z.of_nat (length (outputs tx)); n_in_degree := 0; n_out_degree := 0 |} in
  let '(detected, conflicts, index) :=
    foldl (register_spend tx_hash) ([], conflict_map e, utxo_index e) (inputs tx) in
  _ ← modify (λ e, set_cached_ordering None
        (set_utxo_index index (set_conflict_map conflicts (set_engine_nodes (<[tx_hash := node]> (engine_nodes e)) e))));
  mret detected.

Definition detect_double_spend (e : Engine) (tx_hash : key) : bool :=
  match conflict_map e !! tx_hash with Some l => negb (bool_decide (l = [])) | None => false end.
Definition get_conflicts (e : Engine) (tx_hash : key) : list key := default [] (conflict_map e !! tx_hash).
Definition engine_add_dependency (parent child : key) (e : Engine) : Engine :=
  set_cached_ordering None (set_dependency_map (push_at child parent (dependency_map e)) e).

(** ** The canonical order *)
Section ordering.
Context (order : gset key → list key).

(** The closure of [sort_by]: whether [a] may stay before [b].  The [unwrap]s cannot
    fail, the queue holds keys of nodes; scores that do not compare count as equal. *)
Definition score (e : Engine) (now : Z) (h : key) : f64 :=
  match engine_nodes e !! h with
  | Some n => priority_score n now (fee_density_weight e) (age_weight e)
  | None => S754_nan
  end.
Definition queue_leb (e : Engine) (now : Z) (a b : key) : bool :=
  match SFcompare (score e now b) (score e now a) with
  | Some Lt => true
  | Some Gt => false
  | Some Eq | None => bytes_leb b a
  end.
(** The [Vec] sorted; its end, where [pop] takes, is the head of the list. *)
Definition sort_queue (e : Engine) (now : Z) (queue : list key) : list key :=
  reverse (sort_by (queue_leb e now) (reverse queue)).

(** One entry of [deps] while [tx] is processed. *)
Definition release (tx : key) (st : gmap key Z * list key) (entry : key * list key) : gmap key Z * list key :=
  let '(in_degree, queue) := st in
  let '(dependent, parents) := entry in
  if bool_decide (tx ∈ parents) then
    match in_degree !! dependent with
    | Some degree =>
        let degree := wsub 64 degree 1 in
        (<[dependent := degree]> in_degree, if degree =? 0 then dependent :: queue else queue)
    | None => st
    end
  else st.

Record Draining := {
  queue : list key;
  in_degree : gmap key Z;
  visited : gset key;
  ordered : list key;
  current_layer : list key
}.

(** [while let Some(tx_hash) = queue.pop()] *)
Fixpoint drain (entries : list (key * list key)) (fuel : nat) (st : Draining) : Draining :=
  match fuel with
  | O => st
  | S fuel =>
      match queue st with
      | [] => st
      | tx :: rest =>
          if bool_decide (tx ∈ visited st) then
            drain entries fuel {| queue := rest; in_degree := in_degree st; visited := visited st;
                                  ordered := ordered st; current_layer := current_layer st |}
          else
            let '(degrees, rest) := foldl (release tx) (in_degree st, rest) entries in
            drain entries fuel
              {| queue := rest; in_degree := degrees; visited := {[ tx ]} ∪ visited st;
                 ordered := ordered st ++ [tx]; current_layer := current_layer st ++ [tx] |}
      end
  end.

(** [while !queue.is_empty()] *)
Fixpoint layers (e : Engine) (now : Z) (entries : list (key * list key)) (fuel : nat) (st : Draining)
    (groups : list (list key)) : Draining * list (list key) :=
  match fuel with
  | O => (st, groups)
  | S fuel =>
      match queue st with
      | [] => (st, groups)
      | _ :: _ =>
          let st := drain entries (S (size (engine_nodes e)))
                      {| queue := queue st; in_degree := in_degree st; visited := visited st;
                         ordered := ordered st; current_layer := [] |} in
          let groups := if bool_decide (current_layer st = []) then groups else groups ++ [current_layer st] in
          layers e now entries fuel
            {| queue := sort_queue e now (queue st); in_degree := in_degree st; visited := visited st;
               ordered := ordered st; current_layer := current_layer st |} groups
      end
  end.

Definition dep_entries (e : Engine) : list (key * list key) :=
  (λ k, (k, default [] (dependency_map e !! k))) <$> order (dom (dependency_map e)).
Definition pending_parents (e : Engine) (h : key) : Z := Z.of_nat (length (default [] (dependency_map e !! h))).
Definition start_degrees (e : Engine) : gmap key Z :=
  map_imap (λ h _, Some (pending_parents e h)) (engine_nodes e).
Definition ready (e : Engine) : list key :=
  filter (λ h, pending_parents e h = 0) (order (dom (engine_nodes e))).

Definition conflict_total (e : Engine) : Z := msum (λ l, Z.of_nat (length l)) (conflict_map e) / 2.

Definition compute_canonical_order (now : Z) (e : Engine) : CanonicalOrderingResult * Engine :=
  match cached_ordering e with
  | Some cached => (cached, e)
  | None =>
      if bool_decide (engine_nodes e = ∅) then
        ({| ordered_hashes := []; layer_count := 0; parallel_groups := []; conflict_count := 0 |}, e)
      else
        let st := {| queue := sort_queue e now (reverse (ready e)); in_degree := start_degrees e; visited := ∅;
                     ordered := []; current_layer := [] |} in
        let '(st, groups) := layers e now (dep_entries e) (S (size (engine_nodes e))) st [] in
        let result := {| ordered_hashes := ordered st; layer_count := Z.of_nat (length groups);
                         parallel_groups := groups; conflict_count := conflict_total e |} in
        (result, set_cached_ordering (Some result) e)
  end.

(** ** Groups *)
Definition conflict_pairs (e : Engine) : list (key * key) :=
  tx ← order (dom (conflict_map e)); (λ c, (tx, c)) <$> default [] (conflict_map e !! tx).

Definition get_components (d : DisjointSetUnion) : option (gmap key (list key) * DisjointSetUnion) :=
  foldM add_component (∅, d) (order (dom (dsu_parent d))).

(** [None] would mean that [find] does not return. *)
Definition get_parallel_execution_groups (e : Engine) : option (list (list key)) :=
  if bool_decide (engine_nodes e = ∅) then Some []
  else
    let d := foldl (λ d h, make_set h d) DisjointSetUnion_new (order (dom (engine_nodes e))) in
    d ← foldM (λ d '(tx, c), union tx c d) d (conflict_pairs e);
    '(components, _) ← get_components d;
    Some ((λ root, default [] (components !! root)) <$> order (dom components)).

(** ** Removal and the rest *)
(** [while let Some(current) = queue.pop()] of the removal: every dependent not yet
    listed is listed and pushed. *)
Definition list_dependent (current : key) (st : list key * list key) (entry : key * list key) : list key * list key :=
  let '(to_remove, queue) := st in
  if bool_decide (current ∈ entry.2 ∧ entry.1 ∉ to_remove)
  then (to_remove ++ [entry.1], entry.1 :: queue) else st.
Fixpoint dependents_loop (entries : list (key * list key)) (fuel : nat) (st : list key * list key) :
    list key * list key :=
  match fuel with
  | O => st
  | S fuel =>
      match st.2 with
      | [] => st
      | current :: rest => dependents_loop entries fuel (foldl (list_dependent current) (st.1, rest) entries)
      end
  end.

Definition remove_transaction_cascade (tx_hash : key) (e : Engine) : list key * Engine :=
  let entries := dep_entries e in
  let to_remove := (dependents_loop entries (S (length entries)) ([tx_hash], [tx_hash])).1 in
  (to_remove,
   set_cached_ordering None
     (set_engine_nodes (foldl (λ m x, delete x m) (engine_nodes e) to_remove)
       (set_dependency_map (foldl (λ m x, delete x m) (dependency_map e) to_remove)
         (set_conflict_map (foldl (λ m x, delete x m) (conflict_map e) to_remove)
           (set_utxo_index (filter (.∉ to_remove) <$> utxo_index e) e))))).

Definition engine_clear (e : Engine) : Engine :=
  set_cached_ordering None (set_engine_nodes ∅ (set_dependency_map ∅ (set_conflict_map ∅ (set_utxo_index ∅ e)))).
Definition get_engine_node (e : Engine) (tx_hash : key) : option TransactionNode := engine_nodes e !! tx_hash.
Definition transaction_count (e : Engine) : Z := Z.of_nat (size (engine_nodes e)).
Definition get_conflict_count (e : Engine) : Z := conflict_total e.

Definition set_priority_weights (fee age : f64) (e : Engine) : Engine :=
  let fee := SFabs fee in let age := SFabs age in
  let total := f64_add fee age in
  let '(fee, age) := if SFltb (S754_zero false) total then (f64_div fee total, f64_div age total) else (fee, age) in
  {| utxo_index := utxo_index e; engine_nodes := engine_nodes e; conflict_map := conflict_map e;
     dependency_map := dependency_map e; cached_ordering := None; fee_density_weight := fee; age_weight := age |}.
End ordering.

(** ** Disjoint sets: lemmas *)
Section dsu.
Implicit Types (d : DisjointSetUnion) (x y r : key).

(** A step to another parent, and the representative at the end. *)
Definition step d x p : Prop := dsu_parent d !! x = Some p ∧ p ≠ x.
Definition is_root d r : Prop := ∀ p, ¬ step d r p.
Definition repr d x r : Prop := rtc (step d) x r ∧ is_root d r.
Definition same d x y : Prop := ∃ r, repr d x r ∧ repr d y r.

(** Ranks grow along the steps. *)
Definition ranked d : Prop := ∀ x p, step d x p → rank_of d x < rank_of d p.

Lemma is_root_alt d r : is_root d r ↔ dsu_parent d !! r = None ∨ dsu_parent d !! r = Some r.
Proof.
  unfold is_root, step. destruct (dsu_parent d !! r) as [p|]; [|naive_solver].
  destruct (decide (p = r)) as [->|]; naive_solver.
Qed.

Lemma step_fun d x p q : step d x p → step d x q → p = q.
Proof. unfold step. intros [? _] [? _]. congruence. Qed.

Lemma repr_fun d x r s : repr d x r → repr d x s → r = s.
Proof.
  intros [Hr Hrr] [Hs Hss]. induction Hr as [x|x p r Hxp Hpr IH].
  - inversion Hs as [|? q ? Hq]; subst; [done|]. by destruct (Hrr q).
  - inversion Hs as [|? q ? Hq Hqs]; subst; [by destruct (Hss p)|].
    rewrite (step_fun d x p q Hxp Hq) in *. by apply IH.
Qed.

Lemma repr_root d r : is_root d r → repr d r r.
Proof. by split; [constructor|]. Qed.
Lemma repr_step d x p r : step d x p → repr d p r → repr d x r.
Proof. intros Hs [Hr Hrr]. split; [|done]. by eapply rtc_l. Qed.

Lemma ranked_path d x y : ranked d → rtc (step d) x y → x = y ∨ rank_of d x < rank_of d y.
Proof.
  intros Hd Hp. induction Hp as [x|x p y Hxp Hpy IH]; [by left|right].
  specialize (Hd x p Hxp). destruct IH as [->|]; lia.
Qed.

(** The nodes a search from [x] can still visit. *)
Definition ahead d x : gset key := filter (λ y, rank_of d x ≤ rank_of d y) (dom (dsu_parent d)).

Lemma ahead_step d x p : ranked d → step d x p → (size (ahead d p) < size (ahead d x))%nat.
Proof.
  intros Hd Hs. specialize (Hd x p Hs). apply subset_size. split.
  - intros y. unfold ahead. rewrite !elem_of_filter. intros [? ?]. split; [lia|done].
  - intros Hsub. assert (Hx : x ∈ ahead d x).
    { unfold ahead. apply elem_of_filter. split; [lia|]. apply elem_of_dom. destruct Hs as [-> _]. by eexists. }
    apply Hsub in Hx. unfold ahead in Hx. apply elem_of_filter in Hx. lia.
Qed.

(** What a change of the parents preserves. *)
Record same_sets d d' : Prop := {
  ss_repr : ∀ y r, repr d y r ↔ repr d' y r;
  ss_dom : dom (dsu_parent d') = dom (dsu_parent d);
  ss_rank : dsu_rank d' = dsu_rank d;
  ss_ranked : ranked d → ranked d'
}.
Lemma same_sets_refl d : same_sets d d.
Proof. by split. Qed.
Lemma same_sets_trans d1 d2 d3 : same_sets d1 d2 → same_sets d2 d3 → same_sets d1 d3.
Proof.
  intros [R1 D1 K1 O1] [R2 D2 K2 O2]. split; [|congruence|congruence|auto].
  intros y r. by rewrite R1, R2.
Qed.

Lemma lookup_set_parent x p d y :
  dsu_parent (set_parent x p d) !! y = if bool_decide (y = x) then Some p else dsu_parent d !! y.
Proof.
  cbn. case_bool_decide as E; [subst; apply lookup_insert_eq|by apply lookup_insert_ne].
Qed.

(** Path compression: hanging [x] below its representative changes no set. *)
Lemma compress_ok d x p r : ranked d → step d x p → repr d x r → same_sets d (set_parent x r d).
Proof.
  intros Hd Hs Hr. assert (Hxr : x ≠ r) by (intros ->; destruct Hr as [_ Hr]; by apply (Hr p)).
  set (d' := set_parent x r d).
  assert (Hroot : ∀ y, is_root d y ↔ is_root d' y).
  { intros y. rewrite !is_root_alt. unfold d'. rewrite lookup_set_parent. case_bool_decide as E; [|done].
    subst y. split; intros [E|E]; destruct Hs as [Hs Hne]; naive_solver. }
  assert (Hstep : ∀ y q, step d' y q → (y = x ∧ q = r) ∨ (y ≠ x ∧ step d y q)).
  { intros y q [E Hne]. unfold d' in E. rewrite lookup_set_parent in E. case_bool_decide; [left; naive_solver|by right]. }
  assert (Hto : ∀ y s, repr d y s → repr d' y s).
  { intros y s [Hp Hss]. induction Hp as [y|y q s Hyq Hqs IH].
    - by apply repr_root, Hroot.
    - specialize (IH Hss). destruct (decide (y = x)) as [->|Hne].
      + assert (s = r) as -> by (apply (repr_fun d x); [split; [by eapply rtc_l|done]|done]).
        apply (repr_step d' x r r); [|by apply repr_root, Hroot; apply Hr].
        split; [unfold d'; rewrite lookup_set_parent; by rewrite bool_decide_eq_true_2|done].
      + apply (repr_step d' y q s); [|done]. destruct Hyq as [E Hn]. split; [|done].
        unfold d'. rewrite lookup_set_parent. by rewrite bool_decide_eq_false_2. }
  assert (Hfrom : ∀ y s, repr d' y s → repr d y s).
  { intros y s [Hp Hss]. apply Hroot in Hss. induction Hp as [y|y q s Hyq Hqs IH]; [by apply repr_root|].
    specialize (IH Hss). destruct (Hstep y q Hyq) as [[-> ->]|[_ Hy]].
    - assert (s = r) as -> by (apply (repr_fun d r); [done|apply repr_root; apply Hr]). done.
    - by eapply repr_step. }
  split.
  - intros y s. split; [apply Hto|apply Hfrom].
  - unfold d'. cbn. rewrite dom_insert_L. destruct Hs as [Hs _].
    apply elem_of_dom_2 in Hs. set_solver.
  - done.
  - intros _ y q Hyq. unfold rank_of, d'. cbn [dsu_rank set_parent]. fold (rank_of d y) (rank_of d q).
    destruct (Hstep y q Hyq) as [[-> ->]|[_ Hy]]; [|by apply Hd].
    destruct (ranked_path d x r Hd (proj1 Hr)) as [|]; [done|lia].
Qed.

Lemma find_fuel_ok fuel x d :
  ranked d → (size (ahead d x) < fuel)%nat →
  ∃ r d', find_fuel fuel x d = Some (r, d') ∧ repr d x r ∧ same_sets d d'.
Proof.
  revert x d; induction fuel as [|fuel IH]; intros x d Hd Hf; [lia|]. cbn [find_fuel].
  destruct (dsu_parent d !! x) as [p|] eqn:Ep.
  - case_bool_decide as Epx.
    + subst p. exists x, d. split; [done|]. split; [|apply same_sets_refl].
      apply repr_root, is_root_alt. by right.
    + assert (Hs : step d x p) by by split.
      destruct (IH p d Hd) as (r & d1 & E & Hr & Hss).
      { pose proof (ahead_step d x p Hd Hs). lia. }
      rewrite E. cbn. exists r, (set_parent x r d1). split; [done|].
      pose proof (repr_step d x p r Hs Hr) as Hxr. split; [done|].
      eapply same_sets_trans; [exact Hss|].
      destruct Hss as [HR _ _ HO]. assert (Hxr1 : repr d1 x r) by by apply HR.
      assert (Hx1 : ∃ q, step d1 x q).
      { destruct Hxr1 as [Hp Hroot]. inversion Hp as [|? q ? Hq]; subst; [|by exists q].
        exfalso. destruct Hxr as [_ Hxx]. by apply (Hxx p). }
      destruct Hx1 as [q Hq]. apply (compress_ok d1 x q r); auto.
  - exists x, d. split; [done|]. split; [|apply same_sets_refl]. apply repr_root, is_root_alt. by left.
Qed.

(** [find] returns the representative and moves no set. *)
Lemma find_ok x d :
  ranked d → ∃ r d', find x d = Some (r, d') ∧ repr d x r ∧ same_sets d d'.
Proof.
  intros Hd. apply find_fuel_ok; [done|].
  apply Nat.lt_succ_r. rewrite <- size_dom. apply subseteq_size. unfold ahead. set_solver.
Qed.

Lemma repr_total x d : ranked d → ∃ r, repr d x r.
Proof. intros Hd. destruct (find_ok x d Hd) as (r & _ & _ & Hr & _). by exists r. Qed.

Lemma same_equiv d : ranked d → Equivalence (same d).
Proof.
  intros Hd. split.
  - intros x. destruct (repr_total x d Hd) as [r Hr]. by exists r.
  - intros x y (r & Hx & Hy). by exists r.
  - intros x y z (r & Hx & Hy) (s & Hy' & Hz). rewrite (repr_fun d y s r Hy' Hy) in *. by exists r.
Qed.

Lemma same_sets_same d d' x y : same_sets d d' → same d x y ↔ same d' x y.
Proof. intros [HR _ _ _]. unfold same. by setoid_rewrite HR. Qed.

(** Hanging one root below another. *)
Lemma hang_repr d a b y s :
  is_root d a → is_root d b → a ≠ b →
  repr (set_parent a b d) y s ↔ ∃ r, repr d y r ∧ s = (if bool_decide (r = a) then b else r).
Proof.
  intros Ha Hb Hab. set (d' := set_parent a b d).
  assert (Hroot : ∀ r, is_root d' r ↔ is_root d r ∧ r ≠ a).
  { intros r. rewrite !is_root_alt. unfold d'. rewrite lookup_set_parent. case_bool_decide as E; [|naive_solver].
    subst r. naive_solver. }
  assert (Hmove : step d' a b).
  { split; [|done]. unfold d'. rewrite lookup_set_parent. by rewrite bool_decide_eq_true_2. }
  assert (Hkeep : ∀ u v, step d u v → step d' u v).
  { intros u v [E Hne]. split; [|done]. unfold d'. rewrite lookup_set_parent. rewrite bool_decide_eq_false_2; [done|].
    intros ->. by apply (Ha v). }
  assert (Hback : ∀ u v, step d' u v → (u = a ∧ v = b) ∨ step d u v).
  { intros u v [E Hne]. unfold d' in E. rewrite lookup_set_parent in E. case_bool_decide; [left; naive_solver|by right]. }
  split.
  - intros [Hp Hs]. apply Hroot in Hs as [Hs Hsa]. induction Hp as [y|y q s Hyq Hqs IH].
    + exists y. split; [by apply repr_root|]. by rewrite bool_decide_eq_false_2.
    + destruct (IH Hs Hsa) as (r & Hr & ->). destruct (Hback y q Hyq) as [[-> ->]|Hy].
      * exists a. split; [by apply repr_root|]. rewrite (bool_decide_eq_true_2 (a = a)) by done.
        rewrite (repr_fun d b r b Hr (repr_root d b Hb)). by rewrite bool_decide_eq_false_2.
      * exists r. split; [by eapply repr_step|done].
  - intros (r & [Hp Hr] & ->). induction Hp as [y|y q r Hyq Hqr IH].
    + case_bool_decide as E.
      * subst y. apply (repr_step d' a b b Hmove), repr_root, Hroot. done.
      * apply repr_root, Hroot. done.
    + apply (repr_step d' y q); [by apply Hkeep|]. by apply IH.
Qed.

Definition ranks_within (k : Z) d : Prop := ∀ x, 0 ≤ rank_of d x ≤ k.

(** Hanging a root of lower rank, or of the same rank when the other one is
    raised, keeps the ranks growing. *)
Lemma hang_ranked d a b bump :
  ranked d → is_root d a → is_root d b → a ≠ b →
  rank_of d a < (if bump : bool then rank_of d b + 1 else rank_of d b) → rank_of d b + 1 < 2 ^ 32 → 0 ≤ rank_of d b →
  ranked (if bump then set_rank b (wadd 32 (rank_of d b) 1) (set_parent a b d) else set_parent a b d).
Proof.
  intros Hd Ha Hb Hab Hlt Hw Hnn x p Hs.
  assert (Hs' : (x = a ∧ p = b) ∨ step d x p).
  { assert (E : step (set_parent a b d) x p) by by destruct bump. destruct E as [E Hne].
    rewrite lookup_set_parent in E. case_bool_decide; [left; naive_solver|by right]. }
  destruct bump.
  - assert (Hrk : ∀ y, rank_of (set_rank b (wadd 32 (rank_of d b) 1) (set_parent a b d)) y
      = if bool_decide (y = b) then rank_of d b + 1 else rank_of d y).
    { intros y. unfold rank_of at 1. cbn. case_bool_decide as E.
      - subst. rewrite lookup_insert_eq. cbn. unfold wadd. apply wrap_small. unfold fits. lia.
      - by rewrite lookup_insert_ne. }
    rewrite !Hrk. destruct Hs' as [[-> ->]|Hs'].
    + rewrite bool_decide_eq_false_2, bool_decide_eq_true_2 by done. lia.
    + assert (x ≠ b) by (intros ->; by apply (Hb p)). rewrite bool_decide_eq_false_2 by done.
      specialize (Hd x p Hs'). case_bool_decide; subst; lia.
  - change (rank_of (set_parent a b d)) with (rank_of d). destruct Hs' as [[-> ->]|Hs']; [done|by apply Hd].
Qed.

(** The union of the sets of two roots. *)
Lemma merge_same d d' a b u v :
  is_root d a → is_root d b → a ≠ b →
  (∀ y s, repr d' y s ↔ ∃ r, repr d y r ∧ s = (if bool_decide (r = a) then b else r)) →
  same d' u v ↔ same d u v ∨ (repr d u a ∧ repr d v b) ∨ (repr d u b ∧ repr d v a).
Proof.
  intros Ha Hb Hab Hr. unfold same. setoid_rewrite Hr. split.
  - intros (s & (r1 & Hu & ->) & (r2 & Hv & E)).
    repeat case_bool_decide; subst; naive_solver.
  - intros [(r & Hu & Hv)|[[Hu Hv]|[Hu Hv]]].
    + exists (if bool_decide (r = a) then b else r). split; by exists r.
    + exists b. split; [exists a; by rewrite bool_decide_eq_true_2|exists b; by rewrite bool_decide_eq_false_2].
    + exists b. split; [exists b; by rewrite bool_decide_eq_false_2|exists a; by rewrite bool_decide_eq_true_2].
Qed.

Lemma link_ok d a b k :
  ranked d → ranks_within k d → k + 1 < 2 ^ 32 → is_root d a → is_root d b → a ≠ b →
  ranked (link a b d) ∧ ranks_within (k + 1) (link a b d)
  ∧ dom (dsu_parent d) ⊆ dom (dsu_parent (link a b d))
  ∧ ∀ u v, same (link a b d) u v ↔ same d u v ∨ (repr d u a ∧ repr d v b) ∨ (repr d u b ∧ repr d v a).
Proof.
  intros Hd Hk Hw Ha Hb Hab. unfold link. pose proof (Hk a). pose proof (Hk b).
  destruct (rank_of d a <? rank_of d b) eqn:E1; [|destruct (rank_of d b <? rank_of d a) eqn:E2].
  - split; [apply (hang_ranked d a b false); [done|done|done|done|cbn; lia|lia|lia]|].
    split; [intros x; pose proof (Hk x); change (rank_of (set_parent a b d) x) with (rank_of d x); lia|].
    split; [cbn; set_solver|]. intros u v. apply merge_same; [done..|]. intros. by apply hang_repr.
  - split; [apply (hang_ranked d b a false); [done|done|done|done|cbn; lia|lia|lia]|].
    split; [intros x; pose proof (Hk x); change (rank_of (set_parent b a d) x) with (rank_of d x); lia|].
    split; [cbn; set_solver|]. intros u v. rewrite (merge_same d (set_parent b a d) b a); [tauto|done..|].
    intros. by apply hang_repr.
  - split; [apply (hang_ranked d b a true); [done|done|done|done|cbn; lia|lia|lia]|].
    split.
    { intros x. pose proof (Hk x).
      assert (E : rank_of (set_rank a (wadd 32 (rank_of d a) 1) (set_parent b a d)) x
        = if bool_decide (x = a) then rank_of d a + 1 else rank_of d x).
      { unfold rank_of at 1. cbn. case_bool_decide as Ex; [|by rewrite lookup_insert_ne].
        subst. rewrite lookup_insert_eq. cbn. unfold wadd. apply wrap_small. unfold fits. lia. }
      rewrite E. case_bool_decide; lia. }
    split; [cbn; set_solver|]. intros u v.
    rewrite (merge_same d (set_rank a (wadd 32 (rank_of d a) 1) (set_parent b a d)) b a); [tauto|done..|].
    intros y s. exact (hang_repr d b a y s Hb Ha (not_eq_sym Hab)).
Qed.

Lemma union_ok x y d k :
  ranked d → ranks_within k d → k + 1 < 2 ^ 32 →
  ∃ d', union x y d = Some d' ∧ ranked d' ∧ ranks_within (k + 1) d' ∧ dom (dsu_parent d) ⊆ dom (dsu_parent d')
  ∧ ∀ u v, same d' u v ↔ same d u v ∨ (same d u x ∧ same d v y) ∨ (same d u y ∧ same d v x).
Proof.
  intros Hd Hk Hw. unfold union.
  destruct (find_ok x d Hd) as (r1 & d1 & -> & Hr1 & S1). cbn [mbind option_bind].
  pose proof (ss_ranked _ _ S1 Hd) as Hd1.
  destruct (find_ok y d1 Hd1) as (r2 & d2 & -> & Hr2 & S2). cbn [mbind option_bind].
  pose proof (same_sets_trans _ _ _ S1 S2) as S. pose proof (ss_ranked _ _ S Hd) as Hd2.
  assert (Hrk : ∀ z, rank_of d2 z = rank_of d z) by (intros z; unfold rank_of; by rewrite (ss_rank _ _ S)).
  assert (Hk2 : ranks_within k d2) by (intros z; rewrite Hrk; apply Hk).
  apply (ss_repr _ _ S1) in Hr2.
  assert (Hto : ∀ u z r, repr d z r → (repr d u r ↔ same d u z)).
  { intros u z r Hz. split; [intros Hu; by exists r|]. intros (s & Hu & Hz'). by rewrite (repr_fun d z r s Hz Hz'). }
  case_bool_decide as E.
  - subst r2. exists d2. split; [done|]. split; [done|].
    split; [intros z; pose proof (Hk2 z); lia|]. split; [rewrite (ss_dom _ _ S); done|].
    intros u v. rewrite <- (same_sets_same d d2 u v S). split; [by left|].
    intros [?|[[Hu Hv]|[Hu Hv]]]; [done|..];
      apply (Hto u _ r1) in Hu; try done; apply (Hto v _ r1) in Hv; try done; by exists r1.
  - destruct (link_ok d2 r1 r2 k) as (L1 & L2 & L3 & L4); [done|done|done| | |done|].
    { apply (ss_repr _ _ S) in Hr1. apply Hr1. }
    { apply (ss_repr _ _ S) in Hr2. apply Hr2. }
    exists (link r1 r2 d2). split; [done|]. split; [done|]. split; [done|].
    split; [rewrite <- (ss_dom _ _ S); done|]. intros u v. rewrite L4.
    rewrite <- (same_sets_same d d2 u v S), <- !(ss_repr _ _ S).
    by rewrite (Hto u x r1), (Hto v y r2), (Hto u y r2), (Hto v x r1).
Qed.

(** A list of unions joins exactly what the pairs connect. *)
Lemma unions_ok pairs d k :
  ranked d → ranks_within k d → k + Z.of_nat (length pairs) < 2 ^ 32 →
  ∃ d', foldM (λ d '(x, y), union x y d) d pairs = Some d' ∧ ranked d'
  ∧ dom (dsu_parent d) ⊆ dom (dsu_parent d')
  ∧ ∀ (R : relation key), (∀ u v, same d u v ↔ rtsc R u v) →
      ∀ u v, same d' u v ↔ rtsc (λ a b, R a b ∨ (a, b) ∈ pairs) u v.
Proof.
  revert d k; induction pairs as [|[x y] pairs IH]; intros d k Hd Hk Hw; cbn [foldM].
  { exists d. split; [done|]. split; [done|]. split; [done|]. intros R HR u v. rewrite HR.
    split; apply rtc_subrel; intros a b; unfold sc; set_solver. }
  cbn [length] in Hw. destruct (union_ok x y d k) as (d1 & E & Hd1 & Hk1 & Hdom1 & Hs1); [done|done|lia|].
  rewrite E. cbn. destruct (IH d1 (k + 1)) as (d2 & E2 & Hd2 & Hdom2 & Hs2); [done|done|lia|].
  exists d2. split; [done|]. split; [done|]. split; [by etrans|]. intros R HR u v.
  rewrite (Hs2 (λ a b, R a b ∨ (a, b) = (x, y))).
  - split; apply rtc_subrel; intros a b; unfold sc; set_solver.
  - clear u v. intros u v. rewrite (rtsc_ext _ (λ a b, R a b ∨ (a = x ∧ b = y))) by (intros a b; naive_solver).
    rewrite rtsc_add_edge, Hs1, !HR. split; (intros [Huv|[[Hu Hv]|[Hu Hv]]]; [by left|..]);
      (right; (left + right); split; [done|by symmetry]).
Qed.
End dsu.

(** ** The groups are the components of the conflicts *)
Section groups.
Context (order : gset key → list key) (Horder : ∀ s, order s ≡ₚ elements s).
Implicit Types (d : DisjointSetUnion) (e : Engine).

Lemma in_order s x : x ∈ order s ↔ x ∈ s.
Proof. by rewrite (Horder s), elem_of_elements. Qed.

Lemma make_sets_ok l d :
  (∀ x p, dsu_parent d !! x = Some p → p = x) → ranks_within 0 d →
  let d' := foldl (λ d h, make_set h d) d l in
  (∀ x p, dsu_parent d' !! x = Some p → p = x) ∧ ranks_within 0 d'
  ∧ ∀ x, x ∈ dom (dsu_parent d') ↔ x ∈ l ∨ x ∈ dom (dsu_parent d).
Proof.
  revert d; induction l as [|h l IH]; intros d Hp Hr; cbn [foldl]; [set_solver|].
  destruct (IH (make_set h d)) as (Hp' & Hr' & Hd').
  - intros x p E. cbn in E. apply lookup_insert_Some in E as [[<- <-]|[_ E]]; [|by apply Hp].
    destruct (dsu_parent d !! h) as [q|] eqn:Eq; [by apply Hp|done].
  - intros x. specialize (Hr x). unfold rank_of in *. cbn. destruct (decide (h = x)) as [->|Hne].
    + rewrite lookup_insert_eq. cbn. done.
    + by rewrite lookup_insert_ne.
  - split; [done|]. split; [done|]. intros x. rewrite Hd'. cbn. rewrite dom_insert. set_solver.
Qed.

Lemma components_ok l comps d :
  ranked d →
  ∃ comps' d', foldM add_component (comps, d) l = Some (comps', d')
  ∧ (∀ r x, x ∈ default [] (comps' !! r) ↔ x ∈ default [] (comps !! r) ∨ (x ∈ l ∧ repr d x r)).
Proof.
  revert comps d; induction l as [|h l IH]; intros comps d Hd; cbn [foldM].
  { exists comps, d. split; [done|]. set_solver. }
  destruct (find_ok h d Hd) as (r & d1 & E1 & Hr & S).
  assert (Ea : add_component (comps, d) h = Some (<[r := default [] (comps !! r) ++ [h]]> comps, d1)).
  { unfold add_component. by rewrite E1. }
  rewrite Ea. cbn [mbind option_bind].
  destruct (IH (<[r := default [] (comps !! r) ++ [h]]> comps) d1) as (comps' & d' & E & Hc);
    [by apply (ss_ranked _ _ S)|].
  exists comps', d'. split; [exact E|]. intros s x. rewrite Hc, <- (ss_repr _ _ S), elem_of_cons.
  destruct (decide (s = r)) as [->|Hne].
  - rewrite lookup_insert_eq. cbn. rewrite elem_of_app, list_elem_of_singleton.
    split; [intros [[?| ->]|[? ?]]; naive_solver|intros [?|[[->|?] ?]]; naive_solver].
  - rewrite lookup_insert_ne by done. split; [naive_solver|]. intros [?|[[->|?] Hx]]; [by left| |naive_solver].
    by destruct (Hne (repr_fun d h s r Hx Hr)).
Qed.

Lemma elem_of_conflict_pairs e x y : (x, y) ∈ conflict_pairs order e ↔ y ∈ get_conflicts e x.
Proof.
  unfold conflict_pairs, get_conflicts. rewrite list_elem_of_bind. setoid_rewrite in_order. split.
  - intros (t & (c & [= -> ->] & Hc)%list_elem_of_fmap & _). done.
  - intros Hy. exists x. split; [by apply (list_elem_of_fmap_2 (pair x))|].
    apply elem_of_dom. destruct (conflict_map e !! x); [by eexists|by apply not_elem_of_nil in Hy].
Qed.

(** C21. The groups are computed ([find] always returns), every transaction is in one,
    and two transactions are in the same group exactly when a chain of recorded
    conflicts connects them.  Fewer than [2^32] conflicts keep the ranks in range. *)
Theorem parallel_groups_are_components e
    (Hlen : Z.of_nat (length (conflict_pairs order e)) < 2 ^ 32) :
  ∃ groups, get_parallel_execution_groups order e = Some groups
  ∧ (∀ x, x ∈ dom (engine_nodes e) → ∃ g, g ∈ groups ∧ x ∈ g)
  ∧ ∀ x y, x ∈ dom (engine_nodes e) → y ∈ dom (engine_nodes e) →
      ((∃ g, g ∈ groups ∧ x ∈ g ∧ y ∈ g) ↔ rtsc (λ a b, b ∈ get_conflicts e a) x y).
Proof.
  unfold get_parallel_execution_groups. case_bool_decide as He.
  { exists []. split; [done|]. rewrite He, dom_empty_L. set_solver. }
  destruct (make_sets_ok (order (dom (engine_nodes e))) DisjointSetUnion_new) as (Hp & Hr & Hdom);
    [done|done|]. set (d0 := foldl _ _ _) in *.
  assert (Hno : ∀ x p, ¬ step d0 x p) by (intros x p [E Hne]; by apply Hne, Hp).
  assert (Hrk : ranked d0) by (intros x p Hs; by destruct (Hno x p)).
  destruct (unions_ok (conflict_pairs order e) d0 0 Hrk Hr) as (d1 & -> & Hd1 & Hdom1 & Hs1); [lia|].
  cbn [mbind option_bind].
  assert (Hsame : ∀ x y, same d1 x y ↔ rtsc (λ a b, b ∈ get_conflicts e a) x y).
  { intros x y. rewrite (Hs1 (λ _ _, False)).
    - pose proof (elem_of_conflict_pairs e) as Hcp.
      split; apply rtc_subrel; intros a b; unfold sc; rewrite !Hcp; naive_solver.
    - intros u v. split.
      + intros (r & [Hu _] & [Hv _]). inversion Hu as [|? ? ? Hs]; subst; [|by destruct (Hno _ _ Hs)].
        inversion Hv as [|? ? ? Hs]; subst; [constructor|by destruct (Hno _ _ Hs)].
      + intros Huv. apply rtc_inv in Huv as [->|(w & [[]|[]] & _)].
        exists v. split; apply repr_root; intros p; apply Hno. }
  unfold get_components.
  destruct (components_ok (order (dom (dsu_parent d1))) ∅ d1 Hd1) as (comps & d2 & -> & Hc).
  cbn [mbind option_bind]. eexists. split; [reflexivity|].
  assert (Hin : ∀ r x, x ∈ default [] (comps !! r) ↔ x ∈ dom (dsu_parent d1) ∧ repr d1 x r).
  { intros r x. rewrite Hc, lookup_empty, in_order. cbn. set_solver. }
  assert (Hkeys : ∀ x, x ∈ dom (engine_nodes e) → x ∈ dom (dsu_parent d1)).
  { intros x Hx. apply Hdom1, Hdom. left. by apply in_order. }
  assert (Hgroup : ∀ r x, x ∈ default [] (comps !! r) →
    default [] (comps !! r) ∈ (λ root, default [] (comps !! root)) <$> order (dom comps)).
  { intros r x Hx. apply (list_elem_of_fmap_2 (λ root, default [] (comps !! root))), in_order, elem_of_dom.
    destruct (comps !! r); [by eexists|by apply not_elem_of_nil in Hx]. }
  split.
  - intros x Hx. destruct (repr_total x d1 Hd1) as [r Hxr].
    assert (Hxin : x ∈ default [] (comps !! r)) by (apply Hin; auto). eauto.
  - intros x y Hx Hy. rewrite <- Hsame. split.
    + intros (g & (r & -> & _)%list_elem_of_fmap & Hxg & Hyg). apply Hin in Hxg as [_ Hxg], Hyg as [_ Hyg]. by exists r.
    + intros (r & Hxr & Hyr). exists (default [] (comps !! r)). split; [|split; apply Hin; auto].
      apply (Hgroup r x), Hin. auto.
Qed.
End groups.

(** ** The canonical order *)
Section canonical.
Context (order : gset key → list key) (Horder : ∀ s, order s ≡ₚ elements s).
Context (e : Engine) (now : Z).
Implicit Types (x h tx : key) (st : Draining).

(** The recorded parents of a transaction. *)
Definition parents_in (h : key) : list key := default [] (dependency_map e !! h).
Hypothesis Hwidth : ∀ h, Z.of_nat (length (parents_in h)) < 2 ^ 64.

(** The parents a search that visited [v] still waits for. *)
Definition waiting (v : gset key) (h : key) : Z :=
  Z.of_nat (length (parents_in h)) - Z.of_nat (size (v ∩ list_to_set (parents_in h))).

Lemma size_list_to_set (l : list key) :
  (size (list_to_set l : gset key) ≤ length l)%nat
  ∧ (size (list_to_set l : gset key) = length l ↔ NoDup l).
Proof.
  induction l as [|x l [IH1 IH2]]; cbn.
  { rewrite size_empty. split; [lia|]. split; [constructor|done]. }
  destruct (decide (x ∈ l)) as [Hx|Hx].
  - rewrite subseteq_union_1_L by (apply singleton_subseteq_l, elem_of_list_to_set; done).
    split; [lia|]. split; [lia|]. intros Hn. inversion Hn; subst; done.
  - rewrite size_union by (rewrite disjoint_singleton_l, elem_of_list_to_set; done).
    rewrite size_singleton, NoDup_cons. split; [lia|]. rewrite <- IH2. split; [intros; split; [done|lia]|lia].
Qed.

Lemma waiting_nonneg v h : 0 ≤ waiting v h.
Proof.
  unfold waiting. destruct (size_list_to_set (parents_in h)) as [Hle _].
  pose proof (subseteq_size (v ∩ list_to_set (parents_in h)) (list_to_set (parents_in h)) ltac:(set_solver)). lia.
Qed.

Lemma waiting_zero v h :
  waiting v h = 0 ↔ NoDup (parents_in h) ∧ ∀ p, p ∈ parents_in h → p ∈ v.
Proof.
  unfold waiting. destruct (size_list_to_set (parents_in h)) as [Hle Heq].
  set (P := (list_to_set (parents_in h) : gset key)) in *.
  pose proof (subseteq_size (v ∩ P) P ltac:(set_solver)) as Hsub. split.
  - intros Hz. assert (Hsz : size P = length (parents_in h)) by lia. split; [by apply Heq|].
    intros p Hp. destruct (decide (p ∈ v)) as [|Hv]; [done|].
    assert (Hlt : v ∩ P ⊂ P).
    { split; [set_solver|]. intros Hc. apply (elem_of_list_to_set (C := gset key)), Hc in Hp. set_solver. }
    apply subset_size in Hlt. lia.
  - intros [Hn Hp]. apply Heq in Hn. assert (v ∩ P = P) as ->; [|lia].
    apply set_eq. intros p. unfold P. rewrite elem_of_intersection, elem_of_list_to_set. naive_solver.
Qed.

Lemma waiting_visit v tx h :
  tx ∉ v → waiting ({[ tx ]} ∪ v) h = waiting v h - (if bool_decide (tx ∈ parents_in h) then 1 else 0).
Proof.
  intros Hv. unfold waiting. set (P := (list_to_set (parents_in h) : gset key)).
  assert (HP : tx ∈ P ↔ tx ∈ parents_in h) by apply elem_of_list_to_set.
  case_bool_decide as Htx.
  - assert (({[ tx ]} ∪ v) ∩ P = {[ tx ]} ∪ (v ∩ P)) as -> by set_solver.
    rewrite size_union by set_solver. rewrite size_singleton. lia.
  - assert (({[ tx ]} ∪ v) ∩ P = v ∩ P) as -> by set_solver. lia.
Qed.

(** What the degrees and the queue hold between two pops. *)
Record draining_ok st : Prop := {
  dr_degree : ∀ h, in_degree st !! h = (λ _, waiting (visited st) h) <$> engine_nodes e !! h;
  dr_queue : ∀ h, h ∈ queue st ++ ordered st ↔ h ∈ dom (engine_nodes e) ∧ waiting (visited st) h = 0;
  dr_once : NoDup (queue st ++ ordered st);
  dr_visited : ∀ h, h ∈ visited st ↔ h ∈ ordered st;
  dr_topo : ∀ l1 x l2, ordered st = l1 ++ x :: l2 → ∀ p, p ∈ parents_in x → p ∈ l1
}.

(** One pass over the dependency entries. *)
Lemma release_all tx v ks degree q :
  NoDup ks → tx ∉ v →
  (∀ h, h ∈ ks → degree !! h = (λ _, waiting v h) <$> engine_nodes e !! h) →
  ∃ degree' new, foldl (release tx) (degree, q) ((λ k, (k, parents_in k)) <$> ks) = (degree', new ++ q)
  ∧ (∀ h, degree' !! h = if bool_decide (h ∈ ks) then (λ _, waiting ({[ tx ]} ∪ v) h) <$> engine_nodes e !! h
                         else degree !! h)
  ∧ NoDup new
  ∧ (∀ h, h ∈ new ↔ h ∈ ks ∧ h ∈ dom (engine_nodes e) ∧ tx ∈ parents_in h ∧ waiting ({[ tx ]} ∪ v) h = 0).
Proof.
  revert degree q; induction ks as [|k ks IH]; intros degree q Hn Hv Hd; cbn [fmap list_fmap foldl].
  { exists degree, []. split; [done|]. split; [done|]. split; [constructor|set_solver]. }
  apply NoDup_cons in Hn as [Hk Hn].
  assert (Hrel : ∃ degree1 new1, release tx (degree, q) (k, parents_in k) = (degree1, new1 ++ q)
    ∧ (∀ h, degree1 !! h = if bool_decide (h = k) then (λ _, waiting ({[ tx ]} ∪ v) h) <$> engine_nodes e !! h
                           else degree !! h)
    ∧ NoDup new1
    ∧ (∀ h, h ∈ new1 ↔ h = k ∧ h ∈ dom (engine_nodes e) ∧ tx ∈ parents_in h ∧ waiting ({[ tx ]} ∪ v) h = 0)).
  { unfold release. pose proof (waiting_visit v tx k Hv) as Hw. specialize (Hd k ltac:(set_solver)).
    case_bool_decide as Hp.
    - destruct (engine_nodes e !! k) as [n|] eqn:En; cbn in Hd; rewrite Hd.
      + assert (Hsub : wsub 64 (waiting v k) 1 = waiting ({[ tx ]} ∪ v) k).
        { rewrite Hw. unfold wsub. apply wrap_small. unfold fits.
          pose proof (waiting_nonneg ({[ tx ]} ∪ v) k). specialize (Hwidth k). unfold waiting in *. lia. }
        rewrite Hsub.
        exists (<[k := waiting ({[ tx ]} ∪ v) k]> degree), (if waiting ({[ tx ]} ∪ v) k =? 0 then [k] else []).
        split; [by destruct (_ =? 0)|]. split; [|split; [destruct (_ =? 0); [apply NoDup_singleton|constructor]|]].
        * intros h. case_bool_decide as E; [subst; by rewrite lookup_insert_eq, En|by rewrite lookup_insert_ne].
        * intros h. destruct (Z.eqb_spec (waiting ({[ tx ]} ∪ v) k) 0) as [Hz|Hz].
          -- rewrite list_elem_of_singleton. split; [intros ->|naive_solver].
             split; [done|]. split; [apply elem_of_dom; by eexists|done].
          -- split; [set_solver|]. intros (-> & _ & _ & ?). done.
      + exists degree, []. split; [done|]. split; [|split; [constructor|]].
        * intros h. case_bool_decide as E; [subst; by rewrite En, Hd|done].
        * intros h. split; [set_solver|]. intros (-> & [n E]%elem_of_dom & _). congruence.
    - exists degree, []. split; [done|]. split; [|split; [constructor|]].
      + intros h. case_bool_decide as E; [subst|done]. rewrite Hd, Hw, Z.sub_0_r. done.
      + intros h. split; [set_solver|]. intros (-> & _ & ? & _). done. }
  destruct Hrel as (degree1 & new1 & -> & D1 & N1 & M1).
  destruct (IH degree1 (new1 ++ q) Hn Hv) as (degree2 & new2 & -> & D2 & N2 & M2).
  { intros h Hh. rewrite D1, bool_decide_eq_false_2 by (intros ->; done). apply Hd. set_solver. }
  exists degree2, (new2 ++ new1). split; [by rewrite <- app_assoc|]. split; [|split].
  - intros h. rewrite D2, D1. destruct (decide (h = k)) as [->|Hne].
    + rewrite bool_decide_eq_false_2, (bool_decide_eq_true_2 (k = k)), bool_decide_eq_true_2 by set_solver. done.
    + rewrite (bool_decide_eq_false_2 (h = k)) by done. repeat case_bool_decide; set_solver.
  - apply NoDup_app. split; [done|]. split; [|done]. intros h Hh Hh1.
    apply M2 in Hh as [? _]. apply M1 in Hh1 as [-> _]. done.
  - intros h. rewrite elem_of_app, M1, M2, elem_of_cons. naive_solver.
Qed.
(** A pop keeps the invariant and moves one transaction to the order. *)
Lemma drain_step st tx rest degree' queue' :
  draining_ok st → queue st = tx :: rest →
  foldl (release tx) (in_degree st, rest) (dep_entries order e) = (degree', queue') →
  tx ∉ visited st
  ∧ draining_ok {| queue := queue'; in_degree := degree'; visited := {[ tx ]} ∪ visited st;
                   ordered := ordered st ++ [tx]; current_layer := current_layer st ++ [tx] |}.
Proof.
  intros [Hdeg Hq Honce Hvis Htopo] Eq E. rewrite Eq in Hq, Honce. cbn [app] in Hq, Honce.
  apply NoDup_cons in Honce as [Htx Hn].
  assert (Hv : tx ∉ visited st) by (rewrite Hvis; set_solver). split; [done|].
  destruct (release_all tx (visited st) (order (dom (dependency_map e))) (in_degree st) rest)
    as (degree1 & new & E1 & Hdeg1 & Hn1 & Hnew); [|done|intros; apply Hdeg|].
  { rewrite (Horder (dom (dependency_map e))). apply NoDup_elements. }
  change (dep_entries order e) with ((λ k, (k, parents_in k)) <$> order (dom (dependency_map e))) in E.
  rewrite E1 in E. injection E as <- <-.
  assert (Hnodep : ∀ h, h ∉ order (dom (dependency_map e)) → parents_in h = []).
  { intros h Hh. rewrite (in_order order Horder), elem_of_dom in Hh. unfold parents_in.
    destruct (dependency_map e !! h); [|done]. by destruct Hh; eexists. }
  assert (Hzero : ∀ h, waiting (visited st) h = 0 → waiting ({[ tx ]} ∪ visited st) h = 0 ∧ tx ∉ parents_in h).
  { intros h Hz. pose proof (waiting_visit (visited st) tx h Hv) as Hw. rewrite Hz in Hw.
    pose proof (waiting_nonneg ({[ tx ]} ∪ visited st) h).
    case_bool_decide as Ep; [lia|]. split; [lia|done]. }
  destruct (proj1 (Hq tx)) as [Htxn Htxz]; [by left|].
  assert (Hnewz : ∀ h, h ∈ new → waiting (visited st) h ≠ 0).
  { intros h (_ & _ & Hp & _)%Hnew Hz. by apply Hzero in Hz as [_ ?]. }
  split; cbn [queue in_degree visited ordered].
  - intros h. rewrite Hdeg1. case_bool_decide as Eh; [done|]. rewrite Hdeg.
    rewrite waiting_visit by done. rewrite (Hnodep h Eh), bool_decide_eq_false_2 by set_solver.
    by rewrite Z.sub_0_r.
  - intros h. transitivity (h ∈ new ∨ h ∈ tx :: rest ++ ordered st); [set_solver|]. rewrite Hq, Hnew. split.
    + intros [(_ & ? & _ & ?)|[? [? _]%Hzero]]; done.
    + intros [Hh Hz]. rewrite waiting_visit in Hz by done. case_bool_decide as Ep.
      * left. rewrite waiting_visit by done. rewrite bool_decide_eq_true_2 by done. repeat split; try done.
        destruct (decide (h ∈ order (dom (dependency_map e)))) as [|Hk]; [done|].
        rewrite (Hnodep h Hk) in Ep. set_solver.
      * right. split; [done|lia].
  - rewrite app_assoc, <- app_assoc. rewrite app_assoc.
    assert (Hperm : (new ++ rest) ++ ordered st ++ [tx] ≡ₚ new ++ tx :: (rest ++ ordered st)).
    { rewrite <- !app_assoc. f_equiv. rewrite (Permutation_app_comm (ordered st) [tx]). cbn.
      by rewrite <- Permutation_middle. }
    rewrite <- app_assoc in Hperm. rewrite <- ?app_assoc. rewrite Hperm.
    apply NoDup_app. split; [done|]. split; [|by apply NoDup_cons].
    intros h Hh Hc. apply (Hnewz h Hh). apply Hq. done.
  - intros h. rewrite elem_of_union, elem_of_app, Hvis. set_solver.
  - intros l1 x l2 El p Hp. destruct l2 as [|y l2 _] using rev_ind.
    + apply app_inj_tail in El as [<- <-]. apply Hvis. apply waiting_zero in Htxz as [_ Hall]. by apply Hall.
    + rewrite app_comm_cons, app_assoc in El. apply app_inj_tail in El as [El _]. eapply Htopo; eauto.
Qed.
(** The queue and the order hold transactions of the pool, each once. *)
Lemma draining_size st : draining_ok st → (length (queue st) + length (ordered st) ≤ size (engine_nodes e))%nat.
Proof.
  intros [_ Hq Hn _ _]. rewrite <- length_app, <- size_dom.
  destruct (size_list_to_set (queue st ++ ordered st)) as [_ Hs]. rewrite <- (proj2 Hs Hn).
  apply subseteq_size. intros h. rewrite elem_of_list_to_set, Hq. tauto.
Qed.

(** The loop empties the queue; what it processed is the layer. *)
Lemma drain_ok fuel st :
  draining_ok st → (size (engine_nodes e) < fuel + length (ordered st))%nat →
  let st' := drain (dep_entries order e) fuel st in
  draining_ok st' ∧ queue st' = []
  ∧ ∃ l, ordered st' = ordered st ++ l ∧ current_layer st' = current_layer st ++ l.
Proof.
  revert st; induction fuel as [|fuel IH]; intros st Hst Hf; cbn [drain].
  - pose proof (draining_size st Hst). lia.
  - destruct (queue st) as [|tx rest] eqn:Eq; cbn zeta.
    { split; [done|]. split; [done|]. exists []. by rewrite !app_nil_r. }
    destruct (foldl (release tx) (in_degree st, rest) (dep_entries order e)) as [degree' queue'] eqn:Er.
    destruct (drain_step st tx rest degree' queue' Hst Eq Er) as [Hv Hst'].
    rewrite bool_decide_eq_false_2 by done.
    destruct (IH _ Hst') as (H1 & H2 & l & H3 & H4); [cbn [ordered]; rewrite length_app; cbn; lia|].
    split; [done|]. split; [done|]. exists (tx :: l). rewrite H3, H4. cbn [ordered current_layer].
    by rewrite <- !app_assoc.
Qed.

Definition start_draining : Draining :=
  {| queue := sort_queue e now (reverse (ready order e)); in_degree := start_degrees e; visited := ∅;
     ordered := []; current_layer := [] |}.

Lemma elem_of_sort_queue q h : h ∈ sort_queue e now q ↔ h ∈ q.
Proof. unfold sort_queue. by rewrite elem_of_reverse, elem_of_sort_by, elem_of_reverse. Qed.

Lemma start_ok : draining_ok start_draining.
Proof.
  assert (Hw : ∀ h, waiting ∅ h = pending_parents e h).
  { intros h. unfold waiting. assert (∅ ∩ list_to_set (parents_in h) = (∅ : gset key)) as -> by set_solver.
    rewrite size_empty. unfold pending_parents, parents_in. lia. }
  split; cbn [queue in_degree visited ordered start_draining].
  - intros h. unfold start_degrees. rewrite map_lookup_imap. destruct (engine_nodes e !! h); [|done].
    cbn. by rewrite Hw.
  - intros h. rewrite app_nil_r, elem_of_sort_queue, elem_of_reverse. unfold ready.
    rewrite list_elem_of_filter, (in_order order Horder), Hw. tauto.
  - rewrite app_nil_r. unfold sort_queue. rewrite !reverse_Permutation, sort_by_perm, ?reverse_Permutation.
    unfold ready. apply NoDup_filter. rewrite Horder. apply NoDup_elements.
  - set_solver.
  - intros l1 x l2 El. by destruct l1.
Qed.

(** The order is computed in one pass: everything that can be ordered is in one layer. *)
Lemma compute_ok :
  cached_ordering e = None → engine_nodes e ≠ ∅ →
  ∃ st, draining_ok st ∧ queue st = []
  ∧ ordered st = ordered (drain (dep_entries order e) (S (size (engine_nodes e))) start_draining)
  ∧ (compute_canonical_order order now e).1 =
    {| ordered_hashes := ordered st;
       layer_count := if bool_decide (ordered st = []) then 0 else 1;
       parallel_groups := if bool_decide (ordered st = []) then [] else [ordered st];
       conflict_count := conflict_total e |}.
Proof.
  intros Hc Hne. unfold compute_canonical_order. rewrite Hc, bool_decide_eq_false_2 by done.
  destruct (drain_ok (S (size (engine_nodes e))) start_draining start_ok) as (H1 & H2 & l & H3 & H4).
  { cbn [ordered start_draining length]. lia. }
  set (st := drain _ _ _) in *. assert (Hl : current_layer st = ordered st) by by rewrite H3, H4.
  exists st. split; [done|]. split; [done|]. split; [done|].
  fold start_draining. cbn [layers].
  destruct (queue start_draining) as [|h q] eqn:Eq.
  - assert (Est : st = start_draining) by (unfold st; cbn [drain]; by rewrite Eq).
    cbn [fst]. rewrite Est. done.
  - assert (Hst : drain (dep_entries order e) (S (size (engine_nodes e)))
       {| queue := h :: q; in_degree := in_degree start_draining; visited := visited start_draining;
          ordered := ordered start_draining; current_layer := [] |} = st).
    { unfold st. rewrite <- Eq. done. }
    rewrite Hst, H2. destruct (size (engine_nodes e)) as [|n] eqn:En.
    { by apply map_size_empty_iff in En. }
    cbn [layers queue sort_queue reverse rev_append sort_by foldr fst].
    rewrite Hl.
    case_bool_decide; cbn; done.
Qed.


(** Without dependencies the queue is popped as it was sorted. *)
Lemma drain_alone fuel st :
  NoDup (queue st) → (∀ h, h ∈ queue st → h ∉ visited st) → (length (queue st) <= fuel)%nat →
  ordered (drain [] fuel st) = ordered st ++ queue st.
Proof.
  revert st; induction fuel as [|fuel IH]; intros st Hn Hv Hf; cbn [drain].
  - destruct (queue st); [by rewrite app_nil_r|cbn in Hf; lia].
  - destruct (queue st) as [|tx q] eqn:Eq; [by rewrite app_nil_r|].
    apply NoDup_cons in Hn as [Htx Hn]. rewrite bool_decide_eq_false_2 by (apply Hv; left).
    cbn [foldl]. rewrite IH; cbn [queue visited ordered].
    + by rewrite <- app_assoc.
    + done.
    + intros h Hh Hc. apply elem_of_union in Hc as [->%elem_of_singleton|Hc]; [done|]. eapply Hv; [by right|done].
    + cbn in Hf. lia.
Qed.

Lemma SFcompare_swap (x y : f64) : SFcompare y x = CompOpp <$> SFcompare x y.
Proof.
  destruct x as [[]|[]| |[] mx ex], y as [[]|[]| |[] my ey]; try reflexivity; cbn;
    rewrite (Z.compare_antisym ex ey); change (Pos.compare_cont Eq) with Pos.compare;
    rewrite ?(Pos.compare_antisym mx my);
    by destruct (Z.compare ex ey), (Pos.compare mx my).
Qed.

Lemma queue_leb_total a b : queue_leb e now a b = true ∨ queue_leb e now b a = true.
Proof.
  unfold queue_leb. rewrite (SFcompare_swap (score e now b) (score e now a)).
  destruct (bytes_leb_total a b); destruct (SFcompare _ _) as [[]|]; cbn; auto.
Qed.

(** Lowest score first: without dependencies the order lists every transaction of
    the pool by increasing priority, of two equal scores the lower hash first.  The
    queue is sorted by decreasing priority and then taken from its end. *)
Theorem canonical_order_lowest_first (Hcache : cached_ordering e = None) (Hdeps : dependency_map e = ∅) :
  let l := ordered_hashes (compute_canonical_order order now e).1 in
  l ≡ₚ elements (dom (engine_nodes e))
  ∧ ∀ l1 a b l2, l = l1 ++ a :: b :: l2 →
      match SFcompare (score e now a) (score e now b) with
      | Some Lt => True
      | Some Gt => False
      | Some Eq | None => bytes_leb a b = true
      end.
Proof.
  destruct (decide (engine_nodes e = ∅)) as [Hn|Hn].
  { unfold compute_canonical_order. rewrite Hcache, bool_decide_eq_true_2, Hn, dom_empty_L by done. cbn.
    by split; [|intros []]. }
  destruct (compute_ok Hcache Hn) as (st & _ & _ & Hst & ->). cbn zeta. cbn [fst ordered_hashes]. rewrite Hst.
  pose proof (dr_once _ start_ok) as Hnd. cbn [ordered start_draining] in Hnd. rewrite app_nil_r in Hnd.
  pose proof (draining_size _ start_ok) as Hsize.
  assert (dep_entries order e = []) as ->.
  { unfold dep_entries. rewrite Hdeps, dom_empty_L. pose proof (Horder ∅) as Hp. rewrite elements_empty in Hp.
    by apply Permutation_nil_r in Hp as ->. }
  rewrite drain_alone; [|done|set_solver|lia]. cbn [ordered queue start_draining app]. split.
  - unfold sort_queue. rewrite !reverse_Permutation, sort_by_perm, ?reverse_Permutation. unfold ready.
    rewrite <- Horder. induction (order _) as [|h hs IH]; [done|].
    rewrite filter_cons_True; [by rewrite IH|]. unfold pending_parents. by rewrite Hdeps, lookup_empty.
  - intros l1 a b l2 El. apply (f_equal reverse) in El. unfold sort_queue in El.
    rewrite reverse_involutive, reverse_app, !reverse_cons, <- !app_assoc in El. cbn [app] in El.
    apply sort_by_adjacent in El; [|apply queue_leb_total]. unfold queue_leb in El.
    by destruct (SFcompare _ _) as [[]|].
Qed.
End canonical.

(** ** Engines built by operations *)
Section reachable_engines.
Context (order : gset key → list key) (Horder : ∀ s, order s ≡ₚ elements s).
Implicit Types (e : Engine).

Inductive engine_op :=
| EngineRegister (size : option Z) (tx : Transaction) (tx_hash : key) (fee arrival : Z)
| EngineDepend (parent child : key)
| EngineOrder (now : Z)
| EngineRemove (tx_hash : key)
| EngineWeights (fee age : f64)
| EngineClear.
Definition run_engine e (op : engine_op) : Engine :=
  match op with
  | EngineRegister size tx h fee arrival => (engine_register (λ _, size) tx h fee arrival e).2
  | EngineDepend p c => engine_add_dependency p c e
  | EngineOrder now => (compute_canonical_order order now e).2
  | EngineRemove h => (remove_transaction_cascade order h e).2
  | EngineWeights fee age => set_priority_weights fee age e
  | EngineClear => engine_clear e
  end.






End reachable_engines.


(** ** Witnesses *)
Definition node_of (h : key) (fee : Z) : TransactionNode :=
  {| n_hash := h; n_fee := fee; n_size_bytes := 1; n_arrival_time_ms := 0; n_input_count := 1; n_output_count := 1;
     n_in_degree := 0; n_out_degree := 0 |}.
Definition engine_of (nodes : list (key * Z)) (conflicts deps : list (key * list key)) : Engine :=
  set_conflict_map (list_to_map conflicts) (set_dependency_map (list_to_map deps)
    (set_engine_nodes (list_to_map ((λ p, (p.1, node_of p.1 p.2)) <$> nodes)) Engine_new)).

Lemma parallel_groups_are_components_witness :
  let e := engine_of [([x01], 1); ([x02], 2); ([x03], 3)] [([x01], [[x02]]); ([x02], [[x01]])] [] in
  Z.of_nat (length (conflict_pairs elements e)) < 2 ^ 32
  ∧ ∃ groups, get_parallel_execution_groups elements e = Some groups
    ∧ (∀ x, x ∈ dom (engine_nodes e) → ∃ g, g ∈ groups ∧ x ∈ g).
Proof.
  intros e. assert (H : Z.of_nat (length (conflict_pairs elements e)) < 2 ^ 32) by (vm_compute; done).
  split; [exact H|].
  destruct (parallel_groups_are_components elements ltac:(done) e H) as (groups & E & Hin & _).
  exists groups. split; [exact E|exact Hin].
Defined.

Definition bare_tx : Transaction :=
  {| id := hash_of 0; inputs := []; outputs := []; execution_payload := []; contract_address := None; gas_limit := 0;
     max_fee_per_gas := 0; chain_id := 1; locktime := 0 |}.

(** A parent recorded twice counts twice and is released once: the child, and what
    depends on it, is never listed. *)
Theorem parent_recorded_twice :
  let e := foldl (run_engine elements) Engine_new
    [EngineRegister (Some 100) bare_tx [x01] 1 0; EngineRegister (Some 100) bare_tx [x02] 9 0;
     EngineDepend [x01] [x02]; EngineDepend [x01] [x02]] in
  ordered_hashes (compute_canonical_order elements 0 e).1 = [[x01]].
Proof. vm_compute. reflexivity. Qed.

Lemma canonical_order_lowest_first_witness :
  let e := engine_of [([x01], 1); ([x02], 900); ([x03], 30)] [] [] in
  (∀ h, Z.of_nat (length (parents_in e h)) < 2 ^ 64)
  ∧ ordered_hashes (compute_canonical_order elements 0 e).1 ≡ₚ elements (dom (engine_nodes e))
  ∧ ordered_hashes (compute_canonical_order elements 0 e).1 = [[x01]; [x03]; [x02]].
Proof.
  intros e. assert (H : ∀ h, Z.of_nat (length (parents_in e h)) < 2 ^ 64) by (intros h; vm_compute; done).
  split; [exact H|]. split; [|vm_compute; reflexivity].
  destruct (canonical_order_lowest_first elements ltac:(done) e 0 H eq_refl eq_refl) as [Hp _]. exact Hp.
Defined.
