(* ===== verification/Storage.v ===== *)
(** * The storage of the node

    klomang-node, [storage/schema.rs], [storage/cf.rs], [storage/batch.rs],
    [storage/concurrency.rs], [storage/cache.rs], [storage/atomic_write.rs],
    [storage/kv_store.rs] and [storage/integration.rs]: the values and keys, the
    batches and the writer, the cache layer, the atomic commit of a block.

    RocksDB is the interface [RocksDb]: any of its calls may fail; what it answers
    when it does not is what its documentation says of a key-value store with column
    families.  The [lru] crate is the interface [LruCache]: it may forget entries,
    never invent them.  The encoding of a value is the interface [Codec].  A call of
    [StorageWriter::enqueue] waits for the writer thread, so it is one step here; the
    grouping of waiting messages by that thread is [writer_round]. *)

From Stdlib Require Import Init.Byte.
From stdpp Require Import gmap.
From S2P Require Import Prelude Crypto Transaction Dag NodePrelude.

Abbreviation bytes := (list byte).

(** ** Errors, column families and batches *)
Inductive StorageError :=
  | DbError (msg : string)
  | NotFound (msg : string)
  | InvalidColumnFamily (msg : string)
  | OperationFailed (msg : string)
  | ConfigError (msg : string)
  | SerializationError (msg : string)
  | TypeMismatch (msg : string)
  | RocksDbError (msg : string)
  | LockError (msg : string).

(** [From<rocksdb::Error>] *)
Definition str_contains (pat s : string) : bool := bool_decide (is_Some (String.index 0 pat s)).
Definition from_rocksdb (msg : string) : StorageError :=
  if str_contains "lock held by" msg || str_contains "IO error" msg then LockError msg else RocksDbError msg.

Inductive ColumnFamilyName :=
  | CF_Default | CF_Blocks | CF_Headers | CF_Transactions | CF_Utxo | CF_UtxoSpent
  | CF_VerkleState | CF_Dag | CF_DagTips.
#[global] Instance cf_eq_dec : EqDecision ColumnFamilyName.
Proof. solve_decision. Defined.

Definition cf_as_str (cf : ColumnFamilyName) : string :=
  match cf with
  | CF_Default => "default"
  | CF_Blocks => "blocks"
  | CF_Headers => "headers"
  | CF_Transactions => "transactions"
  | CF_Utxo => "utxo"
  | CF_UtxoSpent => "utxo_spent"
  | CF_VerkleState => "verkle_state"
  | CF_Dag => "dag"
  | CF_DagTips => "dag_tips"
  end.
Definition all_column_families : list ColumnFamilyName :=
  [CF_Default; CF_Blocks; CF_Headers; CF_Transactions; CF_Utxo; CF_UtxoSpent; CF_VerkleState; CF_Dag; CF_DagTips].

(** The column family a name denotes; every family exists after opening. *)
Definition cf_handle (name : string) : option ColumnFamilyName :=
  find (λ cf, bool_decide (cf_as_str cf = name)) all_column_families.
Lemma cf_handle_as_str cf : cf_handle (cf_as_str cf) = Some cf.
Proof. by destruct cf. Qed.
#[global] Instance cf_countable : Countable ColumnFamilyName.
Proof. apply (inj_countable cf_as_str cf_handle cf_handle_as_str). Defined.

Inductive WriteOp :=
  | OpPut (key value : bytes)
  | OpDelete (key : bytes)
  | OpPutCf (cf : string) (key value : bytes)
  | OpDeleteCf (cf : string) (key : bytes).
Abbreviation WriteBatch := (list WriteOp).
Definition put_cf_typed (cf : ColumnFamilyName) (key value : bytes) : WriteOp := OpPutCf (cf_as_str cf) key value.
Definition delete_cf_typed (cf : ColumnFamilyName) (key : bytes) : WriteOp := OpDeleteCf (cf_as_str cf) key.

(** What [StorageDb::write_batch] hands to RocksDB: an operation on a family that
    does not exist is skipped. *)
Inductive RocksOp :=
  | RocksPut (cf : ColumnFamilyName) (key value : bytes)
  | RocksDelete (cf : ColumnFamilyName) (key : bytes).
Definition to_rocks (op : WriteOp) : option RocksOp :=
  match op with
  | OpPut k v => Some (RocksPut CF_Default k v)
  | OpDelete k => Some (RocksDelete CF_Default k)
  | OpPutCf name k v => cf ← cf_handle name; Some (RocksPut cf k v)
  | OpDeleteCf name k => cf ← cf_handle name; Some (RocksDelete cf k)
  end.

Lemma to_rocks_put cf k v : to_rocks (put_cf_typed cf k v) = Some (RocksPut cf k v).
Proof. unfold to_rocks, put_cf_typed. by rewrite cf_handle_as_str. Qed.
Lemma to_rocks_delete cf k : to_rocks (delete_cf_typed cf k) = Some (RocksDelete cf k).
Proof. unfold to_rocks, delete_cf_typed. by rewrite cf_handle_as_str. Qed.

(** ** RocksDB, the LRU caches and the encodings *)
Abbreviation content := (@gmap (ColumnFamilyName * bytes) _ (@prod_countable _ _ cf_countable _ _ (@list_countable _ _ byte_countable)) bytes).
Definition apply_op (m : content) (op : RocksOp) : content :=
  match op with
  | RocksPut cf k v => <[(cf, k) := v]> m
  | RocksDelete cf k => delete (cf, k) m
  end.

(** [rocks_write] takes whether the log is written; [rocks_iter] gives the entries of
    a family from a key on, an entry that cannot be read being an error. *)
Class RocksDb (D : Type) := {
  rocks_get : D → ColumnFamilyName → bytes → outcome string (option bytes);
  rocks_write : D → bool → list RocksOp → outcome string D;
  rocks_iter : D → ColumnFamilyName → option bytes → list (outcome string (bytes * bytes));
  rocks_view : D → content
}.
Class RocksDbLaws (D : Type) `{RocksDb D} := {
  rocks_get_ok d cf k v : rocks_get d cf k = Ok v → v = rocks_view d !! (cf, k);
  rocks_write_ok d wal ops d' : rocks_write d wal ops = Ok d' → rocks_view d' = foldl apply_op (rocks_view d) ops;
  rocks_iter_ok d cf start k v : Ok (k, v) ∈ rocks_iter d cf start → rocks_view d !! (cf, k) = Some v
}.

Class LruCache (C : Type → Type) := {
  lru_new : ∀ {V}, Z → C V;
  lru_put : ∀ {V}, bytes → V → C V → C V;
  lru_get : ∀ {V}, bytes → C V → option V * C V;
  lru_pop : ∀ {V}, bytes → C V → C V;
  lru_peek : ∀ {V}, C V → bytes → option V
}.
Class LruLaws (C : Type → Type) `{LruCache C} := {
  lru_peek_new V n k : lru_peek (lru_new (V:=V) n) k = None;
  lru_peek_put V k (v : V) c : lru_peek (lru_put k v c) k = Some v;
  lru_peek_put_ne V k k' (v w : V) c : k ≠ k' → lru_peek (lru_put k v c) k' = Some w → lru_peek c k' = Some w;
  lru_get_peek V k (c : C V) : (lru_get k c).1 = lru_peek c k;
  lru_get_keeps V k k' (c : C V) : lru_peek (lru_get k c).2 k' = lru_peek c k';
  lru_peek_pop V k k' (c : C V) : lru_peek (lru_pop k c) k' = if bool_decide (k = k') then None else lru_peek c k'
}.

Class Codec (A : Type) := {
  codec_serialize : A → outcome string bytes;
  codec_deserialize : bytes → outcome string A
}.
Class CodecLaws (A : Type) `{Codec A} := {
  codec_total a : ∃ b, codec_serialize a = Ok b;
  codec_roundtrip a b : codec_serialize a = Ok b → codec_deserialize b = Ok a
}.

Definition to_bytes {A} `{Codec A} (a : A) : outcome StorageError bytes := map_err SerializationError (codec_serialize a).
Definition of_bytes {A} `{Codec A} (b : bytes) : outcome StorageError A := map_err SerializationError (codec_deserialize b).
Lemma to_bytes_total {A} `{CodecLaws A} (a : A) : ∃ b, to_bytes a = Ok b ∧ of_bytes b = Ok a.
Proof.
  destruct (codec_total a) as [b Eb]. exists b. unfold to_bytes, of_bytes.
  by rewrite (codec_roundtrip a b Eb), Eb.
Qed.
Lemma to_bytes_of_bytes {A} `{CodecLaws A} (a : A) b : to_bytes a = Ok b → of_bytes b = Ok a.
Proof. destruct (to_bytes_total a) as (b' & -> & E). by intros [= <-]. Qed.

(** ** The stored values and their keys *)
Record BlockValue := { bv_hash : bytes; bv_header_bytes : bytes; bv_transactions : list bytes; bv_timestamp : Z }.
Record HeaderValue := {
  hv_block_hash : bytes;
  hv_parent_hashes : list bytes;
  hv_timestamp : Z;
  hv_difficulty : Z;
  hv_nonce : Z;
  hv_verkle_root : bytes;
  hv_height : Z
}.
Record TransactionInput := { previous_tx_hash : bytes; output_index : Z }.
Record TransactionOutput := { amount : Z; out_pubkey_hash : bytes }.
Record TransactionValue := { tv_tx_hash : bytes; tv_inputs : list TransactionInput; tv_outputs : list TransactionOutput; tv_fee : Z }.
Record UtxoValue := { uv_amount : Z; uv_pubkey_hash : bytes; uv_script : bytes; uv_block_height : Z }.
Record UtxoSpentValue := { spent_by_tx_hash : bytes; spent_input_index : Z; spent_at_block_height : Z }.
Record VerkleStateValue := { commitment_path : bytes; node_value : bytes; is_leaf : bool }.
Record DagNodeValue := {
  dn_block_hash : bytes;
  dn_parent_hashes : list bytes;
  dn_blue_set : list bytes;
  dn_red_set : list bytes;
  dn_blue_score : Z
}.
Record DagTipsValue := { tip_blocks : list bytes; last_updated_height : Z }.

Definition make_utxo_key (tx_hash : bytes) (output_index : Z) : bytes := tx_hash ++ le_bytes 4 output_index.
Definition parse_utxo_key (key : bytes) : option (bytes * Z) :=
  if bool_decide (length key = 36%nat) then Some (take 32 key, le_Z (drop 32 key)) else None.
Definition current_tips : bytes := [x63; x75; x72; x72; x65; x6e; x74; x5f; x74; x69; x70; x73].

(** ** The cache layer *)
Definition RECENT_BLOCK_CACHE_CAPACITY : Z := 10000.
Definition UTXO_HOT_CACHE_CAPACITY : Z := 20000.

(** The values of one database, its caches and the encodings in use. *)
Section layer.
Context {D : Type} {C : Type → Type} `{RocksDb D} `{LruCache C}.
Context `{Codec BlockValue, Codec HeaderValue, Codec TransactionValue, Codec UtxoValue, Codec UtxoSpentValue,
          Codec VerkleStateValue, Codec DagNodeValue, Codec DagTipsValue}.

Record StorageCacheLayer := {
  cl_db : D;
  utxo_hot_cache : C UtxoValue;
  recent_block_cache : C BlockValue;
  mempool_cache : gmap bytes TransactionValue
}.
Definition StorageCacheLayer_new (db : D) : StorageCacheLayer :=
  {| cl_db := db; utxo_hot_cache := lru_new UTXO_HOT_CACHE_CAPACITY;
     recent_block_cache := lru_new RECENT_BLOCK_CACHE_CAPACITY; mempool_cache := ∅ |}.
Definition set_db (d : D) (s : StorageCacheLayer) : StorageCacheLayer :=
  {| cl_db := d; utxo_hot_cache := utxo_hot_cache s; recent_block_cache := recent_block_cache s;
     mempool_cache := mempool_cache s |}.
Definition map_utxo_cache (f : C UtxoValue → C UtxoValue) (s : StorageCacheLayer) : StorageCacheLayer :=
  {| cl_db := cl_db s; utxo_hot_cache := f (utxo_hot_cache s); recent_block_cache := recent_block_cache s;
     mempool_cache := mempool_cache s |}.
Definition map_block_cache (f : C BlockValue → C BlockValue) (s : StorageCacheLayer) : StorageCacheLayer :=
  {| cl_db := cl_db s; utxo_hot_cache := utxo_hot_cache s; recent_block_cache := f (recent_block_cache s);
     mempool_cache := mempool_cache s |}.
Definition map_mempool_cache (f : gmap bytes TransactionValue → gmap bytes TransactionValue)
    (s : StorageCacheLayer) : StorageCacheLayer :=
  {| cl_db := cl_db s; utxo_hot_cache := utxo_hot_cache s; recent_block_cache := recent_block_cache s;
     mempool_cache := f (mempool_cache s) |}.

Abbreviation storage := (method StorageCacheLayer StorageError).

(** [StorageDb::get], [write_batch] and [write_batch_no_wal] *)
Definition db_get (d : D) (cf : ColumnFamilyName) (key : bytes) : outcome string (option bytes) := rocks_get d cf key.
Definition write_batch (d : D) (batch : WriteBatch) : outcome string D := rocks_write d true (omap to_rocks batch).
Definition write_batch_no_wal (d : D) (batch : WriteBatch) : outcome string D := rocks_write d false (omap to_rocks batch).

(** ** The writer *)
Inductive StorageWriteCommand :=
  | Cmd_Put (cf : ColumnFamilyName) (key value : bytes)
  | Cmd_Delete (cf : ColumnFamilyName) (key : bytes).
Definition append_to (commands : list StorageWriteCommand) (batch : WriteBatch) : WriteBatch :=
  batch ++ ((λ c, match c with
                  | Cmd_Put cf k v => put_cf_typed cf k v
                  | Cmd_Delete cf k => delete_cf_typed cf k
                  end) <$> commands).
Definition GROUP_COMMIT_MAX_REQUESTS : nat := 16.

(** One turn of [writer_loop]: the first message and up to 15 that wait are one
    batch, and every sender receives its result.  The rest of the queue is left. *)
Definition writer_round (d : D) (queue : list (list StorageWriteCommand)) :
    D * list (outcome StorageError unit) * list (list StorageWriteCommand) :=
  let now := take GROUP_COMMIT_MAX_REQUESTS queue in
  let later := drop GROUP_COMMIT_MAX_REQUESTS queue in
  match map_err from_rocksdb (write_batch d (foldl (λ b m, append_to m b) [] now)) with
  | Ok d' => (d', (λ _, Ok tt) <$> now, later)
  | Err e => (d, (λ _, Err e) <$> now, later)
  | Panic p => (d, (λ _, Panic p) <$> now, later)
  end.

(** [enqueue] of one caller, which waits for the answer. *)
Definition storage_enqueue (commands : list StorageWriteCommand) : storage unit :=
  s ← get;
  match commands with
  | [] => mret tt
  | _ =>
      d ← lift (map_err from_rocksdb (write_batch (cl_db s) (append_to commands [])));
      modify (set_db d)
  end.
Definition enqueue_write (command : StorageWriteCommand) : storage unit := storage_enqueue [command].

Definition read_db (cf : ColumnFamilyName) (key : bytes) : storage (option bytes) :=
  s ← get; lift (map_err from_rocksdb (db_get (cl_db s) cf key)).
(** [Some(raw) => Ok(Some(T::from_bytes(&raw)?))] *)
Definition read_value {A} `{Codec A} (cf : ColumnFamilyName) (key : bytes) : storage (option A) :=
  raw ← read_db cf key;
  match raw with
  | Some raw => a ← lift (of_bytes raw); mret (Some a)
  | None => mret None
  end.
Definition write_value {A} `{Codec A} (cf : ColumnFamilyName) (key : bytes) (a : A) : storage unit :=
  b ← lift (to_bytes a); enqueue_write (Cmd_Put cf key b).

(** ** Operations *)
Definition get_utxo (tx_hash : bytes) (output_index : Z) : storage (option UtxoValue) :=
  let key := make_utxo_key tx_hash output_index in
  s ← get;
  let '(hit, cache) := lru_get key (utxo_hot_cache s) in
  _ ← modify (map_utxo_cache (λ _, cache));
  match hit with
  | Some u => mret (Some u)
  | None =>
      raw ← read_db CF_Utxo key;
      match raw with
      | Some raw =>
          u ← lift (of_bytes raw);
          _ ← modify (map_utxo_cache (lru_put key u));
          mret (Some u)
      | None => mret None
      end
  end.
Definition put_utxo (tx_hash : bytes) (output_index : Z) (u : UtxoValue) : storage unit :=
  let key := make_utxo_key tx_hash output_index in
  b ← lift (to_bytes u);
  _ ← enqueue_write (Cmd_Put CF_Utxo key b);
  modify (map_utxo_cache (lru_put key u)).
Definition delete_utxo (tx_hash : bytes) (output_index : Z) : storage unit :=
  let key := make_utxo_key tx_hash output_index in
  _ ← enqueue_write (Cmd_Delete CF_Utxo key);
  modify (map_utxo_cache (lru_pop key)).
Definition cache_utxo (tx_hash : bytes) (output_index : Z) (u : UtxoValue) : storage unit :=
  modify (map_utxo_cache (lru_put (make_utxo_key tx_hash output_index) u)).
Definition remove_utxo_from_cache (tx_hash : bytes) (output_index : Z) : storage unit :=
  modify (map_utxo_cache (lru_pop (make_utxo_key tx_hash output_index))).

Definition get_block (block_hash : bytes) : storage (option BlockValue) :=
  s ← get;
  let '(hit, cache) := lru_get block_hash (recent_block_cache s) in
  _ ← modify (map_block_cache (λ _, cache));
  match hit with
  | Some b => mret (Some b)
  | None =>
      raw ← read_db CF_Blocks block_hash;
      match raw with
      | Some raw =>
          b ← lift (of_bytes raw);
          _ ← modify (map_block_cache (lru_put block_hash b));
          mret (Some b)
      | None => mret None
      end
  end.
Definition put_block (block_hash : bytes) (block : BlockValue) : storage unit :=
  b ← lift (to_bytes block);
  _ ← enqueue_write (Cmd_Put CF_Blocks block_hash b);
  modify (map_block_cache (lru_put block_hash block)).
Definition delete_block (block_hash : bytes) : storage unit :=
  _ ← enqueue_write (Cmd_Delete CF_Blocks block_hash);
  modify (map_block_cache (lru_pop block_hash)).

Definition get_transaction (tx_hash : bytes) : storage (option TransactionValue) := read_value CF_Transactions tx_hash.
Definition put_transaction (tx_hash : bytes) (t : TransactionValue) : storage unit := write_value CF_Transactions tx_hash t.
Definition delete_transaction (tx_hash : bytes) : storage unit := enqueue_write (Cmd_Delete CF_Transactions tx_hash).
Definition get_header (block_hash : bytes) : storage (option HeaderValue) := read_value CF_Headers block_hash.
Definition put_header (block_hash : bytes) (h : HeaderValue) : storage unit := write_value CF_Headers block_hash h.
Definition delete_header (block_hash : bytes) : storage unit := enqueue_write (Cmd_Delete CF_Headers block_hash).
Definition get_utxo_spent (tx_hash : bytes) (output_index : Z) : storage (option UtxoSpentValue) :=
  read_value CF_UtxoSpent (make_utxo_key tx_hash output_index).
Definition put_utxo_spent (tx_hash : bytes) (output_index : Z) (u : UtxoSpentValue) : storage unit :=
  write_value CF_UtxoSpent (make_utxo_key tx_hash output_index) u.
Definition delete_utxo_spent (tx_hash : bytes) (output_index : Z) : storage unit :=
  enqueue_write (Cmd_Delete CF_UtxoSpent (make_utxo_key tx_hash output_index)).
Definition get_verkle_state (path : bytes) : storage (option VerkleStateValue) := read_value CF_VerkleState path.
Definition put_verkle_state (path : bytes) (v : VerkleStateValue) : storage unit := write_value CF_VerkleState path v.
Definition delete_verkle_state (path : bytes) : storage unit := enqueue_write (Cmd_Delete CF_VerkleState path).
Definition get_dag_node (block_hash : bytes) : storage (option DagNodeValue) := read_value CF_Dag block_hash.
Definition put_dag_node (block_hash : bytes) (n : DagNodeValue) : storage unit := write_value CF_Dag block_hash n.
Definition delete_dag_node (block_hash : bytes) : storage unit := enqueue_write (Cmd_Delete CF_Dag block_hash).
Definition get_dag_tips (key : bytes) : storage (option DagTipsValue) := read_value CF_DagTips key.
Definition put_dag_tips (key : bytes) (t : DagTipsValue) : storage unit := write_value CF_DagTips key t.
Definition delete_dag_tips (key : bytes) : storage unit := enqueue_write (Cmd_Delete CF_DagTips key).
Definition get_current_dag_tips : storage (option DagTipsValue) := get_dag_tips current_tips.
Definition put_current_dag_tips (t : DagTipsValue) : storage unit := put_dag_tips current_tips t.

Definition insert_mempool_transaction (tx_hash : bytes) (t : TransactionValue) : storage unit :=
  modify (map_mempool_cache <[tx_hash := t]>).
Definition get_mempool_transaction (tx_hash : bytes) (s : StorageCacheLayer) : option TransactionValue :=
  mempool_cache s !! tx_hash.
Definition remove_mempool_transaction (tx_hash : bytes) : storage unit := modify (map_mempool_cache (delete tx_hash)).

(** [scan_utxos_by_tx_hash]: the loop over the entries from the first output on. *)
Fixpoint scan_outputs (tx_hash : bytes) (items : list (outcome string (bytes * bytes)))
    (results : list (Z * UtxoValue)) : storage (list (Z * UtxoValue)) :=
  match items with
  | [] => mret results
  | item :: items =>
      '(key, value) ← lift (map_err from_rocksdb item);
      if bool_decide (length key < 32)%nat || negb (bool_decide (take 32 key = tx_hash)) then mret results
      else
        match parse_utxo_key key with
        | Some (parsed_hash, output_index) =>
            if bool_decide (parsed_hash = tx_hash) then
              u ← lift (of_bytes value);
              _ ← modify (map_utxo_cache (lru_put key u));
              scan_outputs tx_hash items (results ++ [(output_index, u)])
            else mret results
        | None => scan_outputs tx_hash items results
        end
  end.
Definition scan_utxos_by_tx_hash (tx_hash : bytes) : storage (list (Z * UtxoValue)) :=
  s ← get;
  scan_outputs tx_hash (rocks_iter (cl_db s) CF_Utxo (Some (make_utxo_key tx_hash 0))) [].

(** The common loop of the other scans; [keep] is what a scan does with an entry. *)
Fixpoint scan_entries {A R} `{Codec A} (limit : nat) (keep : bytes → A → storage R)
    (items : list (outcome string (bytes * bytes))) (results : list R) : storage (list R) :=
  match items with
  | [] => mret results
  | item :: items =>
      '(key, value) ← lift (map_err from_rocksdb item);
      if bool_decide (limit ≤ length results)%nat then mret results
      else
        a ← lift (of_bytes value);
        r ← keep key a;
        scan_entries limit keep items (results ++ [r])
  end.
Definition scan_utxo_range (start_key end_key : bytes) (max_results : nat) : storage (list (bytes * UtxoValue)) :=
  s ← get;
  scan_entries max_results (λ key u, _ ← modify (map_utxo_cache (lru_put key u)); mret (key, u))
    (rocks_iter (cl_db s) CF_Utxo (Some start_key)) [].
Definition scan_dag_nodes (limit : nat) : storage (list DagNodeValue) :=
  s ← get; scan_entries limit (λ _ n, mret n) (rocks_iter (cl_db s) CF_Dag None) [].
Definition scan_blocks (limit : nat) : storage (list BlockValue) :=
  s ← get;
  scan_entries limit (λ key b, _ ← modify (map_block_cache (lru_put key b)); mret b)
    (rocks_iter (cl_db s) CF_Blocks None) [].
(** ** The atomic commit of a block *)
Record SpentUtxoBatch := { prev_tx_hash : bytes; spent_output_index : Z; spent_value : UtxoSpentValue }.
Record BlockTransactionBatch := {
  bt_tx_hash : bytes;
  bt_tx_value : TransactionValue;
  spent_utxos : list SpentUtxoBatch;
  new_utxos : list UtxoValue
}.

(** One spent output: out of the UTXO family, into the spent index. *)
Definition spend_ops (batch : WriteBatch) (spent : SpentUtxoBatch) : outcome StorageError WriteBatch :=
  let key := make_utxo_key (prev_tx_hash spent) (spent_output_index spent) in
  b ← to_bytes (spent_value spent);
  mret (batch ++ [delete_cf_typed CF_Utxo key; put_cf_typed CF_UtxoSpent key b]).
Definition create_ops (tx_hash : bytes) (batch : WriteBatch) (new : nat * UtxoValue) : outcome StorageError WriteBatch :=
  b ← to_bytes new.2;
  mret (batch ++ [put_cf_typed CF_Utxo (make_utxo_key tx_hash (wrap 32 (Z.of_nat new.1))) b]).
Definition transaction_ops (batch : WriteBatch) (op : BlockTransactionBatch * bytes) : outcome StorageError WriteBatch :=
  let '(tx, tx_bytes) := op in
  let batch := batch ++ [put_cf_typed CF_Transactions (bt_tx_hash tx) tx_bytes] in
  batch ← fold_outcome spend_ops batch (spent_utxos tx);
  fold_outcome (create_ops (bt_tx_hash tx)) batch (enumerate (new_utxos tx)).

Definition block_batch (block_hash : bytes) (block_value : BlockValue) (header_value : HeaderValue)
    (transactions : list BlockTransactionBatch) (dag_node : DagNodeValue) (dag_tips : DagTipsValue) :
    outcome StorageError WriteBatch :=
  block_bytes ← to_bytes block_value;
  header_bytes ← to_bytes header_value;
  tx_operations ← fold_outcome (λ ops t, b ← to_bytes (bt_tx_value t); mret (ops ++ [(t, b)])) [] transactions;
  dag_node_bytes ← to_bytes dag_node;
  dag_tips_bytes ← to_bytes dag_tips;
  let batch := [put_cf_typed CF_Blocks block_hash block_bytes; put_cf_typed CF_Headers block_hash header_bytes] in
  batch ← fold_outcome transaction_ops batch tx_operations;
  mret (batch ++ [put_cf_typed CF_Dag block_hash dag_node_bytes; put_cf_typed CF_DagTips current_tips dag_tips_bytes]).

Definition commit_block_to_storage (d : D) (block_hash : bytes) (block_value : BlockValue) (header_value : HeaderValue)
    (transactions : list BlockTransactionBatch) (dag_node : DagNodeValue) (dag_tips : DagTipsValue) :
    outcome StorageError D :=
  batch ← block_batch block_hash block_value header_value transactions dag_node dag_tips;
  map_err (λ e, DbError (String.append "failed to commit block batch: " e)) (write_batch d batch).
Definition commit_block_to_storage_no_wal (d : D) (block_hash : bytes) (block_value : BlockValue)
    (header_value : HeaderValue) (transactions : list BlockTransactionBatch) (dag_node : DagNodeValue)
    (dag_tips : DagTipsValue) : outcome StorageError D :=
  batch ← block_batch block_hash block_value header_value transactions dag_node dag_tips;
  map_err (λ e, DbError (String.append "failed to commit block batch (no-wal): " e)) (write_batch_no_wal d batch).

(** ** The key-value store

    [KvStore] forwards the operations of the cache layer under the same names; the
    ones that do more are here. *)
Definition utxo_exists (tx_hash : bytes) (output_index : Z) : storage bool :=
  u ← get_utxo tx_hash output_index; mret (bool_decide (is_Some u)).

Definition min_fee_rate_key : bytes :=
  [x6d; x65; x6d; x70; x6f; x6f; x6c; x3a; x6d; x69; x6e; x5f; x66; x65; x65; x5f; x72; x61; x74; x65].
Definition put_mempool_min_fee_rate (min_fee_rate : Z) : storage unit :=
  s ← get;
  d ← lift (map_err from_rocksdb
        (rocks_write (cl_db s) true [RocksPut CF_Default min_fee_rate_key (be_bytes 8 min_fee_rate)]));
  modify (set_db d).
Definition get_mempool_min_fee_rate : storage (option Z) :=
  raw ← read_db CF_Default min_fee_rate_key;
  match raw with
  | Some raw =>
      if bool_decide (length raw = 8%nat) then mret (Some (be_Z raw))
      else throw (DbError "invalid persisted min fee rate length")
  | None => mret None
  end.

Definition commit_block_atomic (block_hash : bytes) (block_value : BlockValue) (header_value : HeaderValue)
    (transactions : list BlockTransactionBatch) (dag_node : DagNodeValue) (dag_tips : DagTipsValue) : storage unit :=
  s ← get;
  d ← lift (commit_block_to_storage (cl_db s) block_hash block_value header_value transactions dag_node dag_tips);
  modify (set_db d).
Definition commit_block_atomic_no_wal (block_hash : bytes) (block_value : BlockValue) (header_value : HeaderValue)
    (transactions : list BlockTransactionBatch) (dag_node : DagNodeValue) (dag_tips : DagTipsValue) : storage unit :=
  s ← get;
  d ← lift (commit_block_to_storage_no_wal (cl_db s) block_hash block_value header_value transactions dag_node dag_tips);
  modify (set_db d).

(** ** Integration with the core

    [CoreIntegration] works on the database of the layer.  [order] is the order in
    which the parents of a header are iterated. *)
Context `{Bincode} `{Codec BlockHeader, Codec Transaction} (order : gset Hash → list Hash).

Definition hash_to_bytes (h : Hash) : outcome StorageError bytes :=
  match bincode_hash h with Some b => Ok b | None => Err (SerializationError "bincode") end.
Definition hash_or_default (h : Hash) : bytes := default [] (bincode_hash h).
Definition db_error {A} (m : outcome string A) : outcome StorageError A := map_err DbError m.

Definition core_get_utxo (outpoint : Hash * Z) : storage (option UtxoValue) :=
  h ← lift (hash_to_bytes outpoint.1);
  s ← get;
  raw ← lift (db_error (db_get (cl_db s) CF_Utxo (make_utxo_key h outpoint.2)));
  match raw with
  | Some raw => u ← lift (of_bytes raw); mret (Some u)
  | None => mret None
  end.

Definition core_spend (batch : WriteBatch) (input : TxInput) : outcome StorageError WriteBatch :=
  h ← hash_to_bytes (prev_tx input);
  mret (batch ++ [delete_cf_typed CF_Utxo (make_utxo_key h (index input))]).
Definition core_create (tx_hash : bytes) (batch : WriteBatch) (output : nat * TxOutput) : outcome StorageError WriteBatch :=
  h ← hash_to_bytes (pubkey_hash output.2);
  b ← to_bytes {| uv_amount := value output.2; uv_pubkey_hash := h; uv_script := []; uv_block_height := 0 |};
  mret (batch ++ [put_cf_typed CF_Utxo (make_utxo_key tx_hash (wrap 32 (Z.of_nat output.1))) b]).
Definition core_apply_tx (tx : Transaction) : storage unit :=
  batch ← lift (fold_outcome core_spend [] (inputs tx));
  tx_hash ← lift (hash_to_bytes (id tx));
  batch ← lift (fold_outcome (core_create tx_hash) batch (enumerate (outputs tx)));
  s ← get;
  d ← lift (db_error (write_batch (cl_db s) batch));
  modify (set_db d).

(** [From] a transaction: what the transactions family stores. *)
Definition core_transaction_value (tx : Transaction) (tx_hash : bytes) : TransactionValue :=
  {| tv_tx_hash := tx_hash;
     tv_inputs := (λ i, {| previous_tx_hash := hash_or_default (prev_tx i); output_index := index i |}) <$> inputs tx;
     tv_outputs := (λ o, {| amount := value o; out_pubkey_hash := hash_or_default (pubkey_hash o) |}) <$> outputs tx;
     tv_fee := 0 |}.
Definition db_put (cf : ColumnFamilyName) (key b : bytes) : storage unit :=
  s ← get;
  d ← lift (db_error (rocks_write (cl_db s) true [RocksPut cf key b]));
  modify (set_db d).
Definition store_transaction (tx : Transaction) : storage unit :=
  tx_hash ← lift (hash_to_bytes (id tx));
  b ← lift (to_bytes (core_transaction_value tx tx_hash));
  db_put CF_Transactions tx_hash b.
Definition store_block (block : BlockNode) : storage unit :=
  match transactions block with
  | [] => throw (OperationFailed "Block must have transactions")
  | _ =>
      block_hash ← lift (hash_to_bytes (block_id (header block)));
      parent_hashes ← lift (mapM hash_to_bytes (order (parents (header block))));
      verkle_root_bytes ← lift (hash_to_bytes (verkle_root (header block)));
      let header_value := {| hv_block_hash := block_hash; hv_parent_hashes := parent_hashes;
                             hv_timestamp := timestamp (header block); hv_difficulty := difficulty (header block);
                             hv_nonce := nonce (header block); hv_verkle_root := verkle_root_bytes; hv_height := 0 |} in
      txs ← lift (mapM to_bytes (transactions block));
      raw_header ← lift (to_bytes (header block));
      let block_value := {| bv_hash := block_hash; bv_header_bytes := raw_header; bv_transactions := txs;
                            bv_timestamp := timestamp (header block) |} in
      header_bytes ← lift (to_bytes header_value);
      block_bytes ← lift (to_bytes block_value);
      _ ← db_put CF_Headers block_hash header_bytes;
      _ ← db_put CF_Blocks block_hash block_bytes;
      for_each store_transaction (transactions block)
  end.
End layer.
#[global] Arguments StorageCacheLayer D C : clear implicits.
