(* ===== verification/MemoryStore.v ===== *)
(** * A store in memory

    The interfaces of [Storage.v] are satisfiable: a database that is a finite map and
    never fails, a cache that never forgets, and an encoding of every countable type.
    The witnesses of the files that use the store run on it. *)

From Stdlib Require Import Init.Byte.
From stdpp Require Import gmap.
From S2P Require Import Prelude Crypto Transaction Dag NodePrelude Storage.

(** ** Database *)
#[global] Instance mem_db : RocksDb content := {|
  rocks_get m cf k := Ok (m !! (cf, k));
  rocks_write m _ ops := Ok (foldl apply_op m ops);
  rocks_iter m cf _ :=
    (λ e, Ok (e.1.2, e.2)) <$> filter (λ e : ColumnFamilyName * bytes * bytes, e.1.1 = cf) (map_to_list m);
  rocks_view m := m
|}.
#[global] Instance mem_db_laws : RocksDbLaws content.
Proof.
  split.
  - by intros d cf k v [= <-].
  - by intros d wal ops d' [= <-].
  - intros d cf start k v Hin. apply list_elem_of_fmap in Hin as ([[cf' k'] v'] & [= -> ->] & Hin).
    apply list_elem_of_filter in Hin as [Hcf Hin]. cbn in Hcf. subst. by apply elem_of_map_to_list in Hin.
Qed.

(** ** Caches *)
Definition mem_cache (V : Type) : Type := gmap bytes V.
#[global] Instance mem_lru : LruCache mem_cache := {|
  lru_new V _ := (∅ : gmap bytes V);
  lru_put V k v c := <[k := v]> (c : gmap bytes V);
  lru_get V k c := ((c : gmap bytes V) !! k, c);
  lru_pop V k c := delete k (c : gmap bytes V);
  lru_peek V c k := (c : gmap bytes V) !! k
|}.
#[global] Instance mem_lru_laws : LruLaws mem_cache.
Proof.
  split; unfold lru_peek, lru_new, lru_put, lru_get, lru_pop, mem_lru; cbn.
  - intros V n k. apply lookup_empty.
  - intros V k v c. apply lookup_insert_eq.
  - intros V k k' v w c Hne. by rewrite lookup_insert_ne.
  - done.
  - done.
  - intros V k k' c. case_bool_decide; [subst; apply lookup_delete_eq|by apply lookup_delete_ne].
Qed.

(** ** Encodings *)
Fixpoint pos_bytes (p : positive) : bytes :=
  match p with
  | xH => []
  | xO p => x00 :: pos_bytes p
  | xI p => x01 :: pos_bytes p
  end.
Fixpoint bytes_pos (l : bytes) : positive :=
  match l with
  | [] => xH
  | b :: l => if bool_decide (b = x00) then xO (bytes_pos l) else xI (bytes_pos l)
  end.
Lemma bytes_pos_pos_bytes p : bytes_pos (pos_bytes p) = p.
Proof. induction p as [p IH|p IH|]; cbn; [by rewrite IH|by rewrite IH|done]. Qed.

Definition countable_codec {A} `{Countable A} : Codec A := {|
  codec_serialize a := Ok (pos_bytes (encode a));
  codec_deserialize b := ok_or (decode (bytes_pos b)) "bincode"
|}.
Lemma countable_codec_laws {A} `{Countable A} : @CodecLaws A countable_codec.
Proof.
  split; cbn.
  - eauto.
  - intros a b [= <-]. by rewrite bytes_pos_pos_bytes, decode_encode.
Qed.

Ltac by_tuple to from := apply (inj_countable' to from); by intros [].
Section values.
#[global] Instance BlockValue_eq_dec : EqDecision BlockValue.
Proof. solve_decision. Defined.
#[global] Instance BlockValue_countable : Countable BlockValue.
Proof.
  by_tuple (λ v, (bv_hash v, bv_header_bytes v, bv_transactions v, bv_timestamp v))
    (λ '(a, b, c, d), Build_BlockValue a b c d).
Defined.
#[global] Instance HeaderValue_eq_dec : EqDecision HeaderValue.
Proof. solve_decision. Defined.
#[global] Instance HeaderValue_countable : Countable HeaderValue.
Proof.
  by_tuple (λ v, (hv_block_hash v, hv_parent_hashes v, hv_timestamp v, hv_difficulty v, hv_nonce v, hv_verkle_root v, hv_height v))
    (λ '(a, b, c, d, e, f, g), Build_HeaderValue a b c d e f g).
Defined.
#[global] Instance TransactionInput_eq_dec : EqDecision TransactionInput.
Proof. solve_decision. Defined.
#[global] Instance TransactionInput_countable : Countable TransactionInput.
Proof. by_tuple (λ v, (previous_tx_hash v, output_index v)) (λ '(a, b), Build_TransactionInput a b). Defined.
#[global] Instance TransactionOutput_eq_dec : EqDecision TransactionOutput.
Proof. solve_decision. Defined.
#[global] Instance TransactionOutput_countable : Countable TransactionOutput.
Proof. by_tuple (λ v, (amount v, out_pubkey_hash v)) (λ '(a, b), Build_TransactionOutput a b). Defined.
#[global] Instance TransactionValue_eq_dec : EqDecision TransactionValue.
Proof. solve_decision. Defined.
#[global] Instance TransactionValue_countable : Countable TransactionValue.
Proof.
  by_tuple (λ v, (tv_tx_hash v, tv_inputs v, tv_outputs v, tv_fee v)) (λ '(a, b, c, d), Build_TransactionValue a b c d).
Defined.
#[global] Instance UtxoValue_eq_dec : EqDecision UtxoValue.
Proof. solve_decision. Defined.
#[global] Instance UtxoValue_countable : Countable UtxoValue.
Proof.
  by_tuple (λ v, (uv_amount v, uv_pubkey_hash v, uv_script v, uv_block_height v))
    (λ '(a, b, c, d), Build_UtxoValue a b c d).
Defined.
#[global] Instance UtxoSpentValue_eq_dec : EqDecision UtxoSpentValue.
Proof. solve_decision. Defined.
#[global] Instance UtxoSpentValue_countable : Countable UtxoSpentValue.
Proof.
  by_tuple (λ v, (spent_by_tx_hash v, spent_input_index v, spent_at_block_height v))
    (λ '(a, b, c), Build_UtxoSpentValue a b c).
Defined.
#[global] Instance VerkleStateValue_eq_dec : EqDecision VerkleStateValue.
Proof. solve_decision. Defined.
#[global] Instance VerkleStateValue_countable : Countable VerkleStateValue.
Proof.
  by_tuple (λ v, (commitment_path v, node_value v, is_leaf v)) (λ '(a, b, c), Build_VerkleStateValue a b c).
Defined.
#[global] Instance DagNodeValue_eq_dec : EqDecision DagNodeValue.
Proof. solve_decision. Defined.
#[global] Instance DagNodeValue_countable : Countable DagNodeValue.
Proof.
  by_tuple (λ v, (dn_block_hash v, dn_parent_hashes v, dn_blue_set v, dn_red_set v, dn_blue_score v))
    (λ '(a, b, c, d, e), Build_DagNodeValue a b c d e).
Defined.
#[global] Instance DagTipsValue_eq_dec : EqDecision DagTipsValue.
Proof. solve_decision. Defined.
#[global] Instance DagTipsValue_countable : Countable DagTipsValue.
Proof. by_tuple (λ v, (tip_blocks v, last_updated_height v)) (λ '(a, b), Build_DagTipsValue a b). Defined.
End values.

#[global] Instance mem_block : Codec BlockValue := countable_codec.
#[global] Instance mem_block_laws : CodecLaws BlockValue := countable_codec_laws.
#[global] Instance mem_header : Codec HeaderValue := countable_codec.
#[global] Instance mem_header_laws : CodecLaws HeaderValue := countable_codec_laws.
#[global] Instance mem_transaction : Codec TransactionValue := countable_codec.
#[global] Instance mem_transaction_laws : CodecLaws TransactionValue := countable_codec_laws.
#[global] Instance mem_utxo : Codec UtxoValue := countable_codec.
#[global] Instance mem_utxo_laws : CodecLaws UtxoValue := countable_codec_laws.
#[global] Instance mem_spent : Codec UtxoSpentValue := countable_codec.
#[global] Instance mem_spent_laws : CodecLaws UtxoSpentValue := countable_codec_laws.
#[global] Instance mem_verkle : Codec VerkleStateValue := countable_codec.
#[global] Instance mem_node : Codec DagNodeValue := countable_codec.
#[global] Instance mem_node_laws : CodecLaws DagNodeValue := countable_codec_laws.
#[global] Instance mem_tips : Codec DagTipsValue := countable_codec.
#[global] Instance mem_tips_laws : CodecLaws DagTipsValue := countable_codec_laws.
#[global] Instance mem_bincode : Bincode := plain_bincode.
#[global] Instance mem_bincode_laws : BincodeLaws := plain_bincode_laws.

Abbreviation MemLayer := (StorageCacheLayer content mem_cache).
Definition mem_layer : MemLayer := StorageCacheLayer_new (D:=content) (C:=mem_cache) ∅.
