(* ===== verification/StorageProofs.v ===== *)
(** * What the storage of the node guarantees

    The caches agree with the database through every operation of the cache layer, a
    block is committed entirely or not at all, grouped writes are sequential ones, and
    the keys of outputs are parsed back. *)

From Stdlib Require Import Init.Byte.
From stdpp Require Import gmap.
From S2P Require Import Prelude Crypto Transaction Dag NodePrelude Storage MemoryStore.

(** ** The caches never contradict the database *)
Section coherence.
Context {D : Type} {C : Type → Type} `{RocksDbLaws D} `{LruLaws C}.
Context `{CodecLaws BlockValue, Codec HeaderValue, Codec TransactionValue, CodecLaws UtxoValue, Codec UtxoSpentValue,
          Codec VerkleStateValue, Codec DagNodeValue, Codec DagTipsValue}.
Implicit Types (s : StorageCacheLayer D C) (d : D).

Definition cache_ok {A} `{Codec A} (m : content) (cf : ColumnFamilyName) (c : C A) : Prop :=
  ∀ k a, lru_peek c k = Some a → ∃ b, m !! (cf, k) = Some b ∧ of_bytes b = Ok a.
Definition coherent s : Prop :=
  cache_ok (rocks_view (cl_db s)) CF_Utxo (utxo_hot_cache s) ∧ cache_ok (rocks_view (cl_db s)) CF_Blocks (recent_block_cache s).

Section one_cache.
Context {A : Type} `{Codec A}.
Implicit Types (m : content) (c : C A) (cf : ColumnFamilyName).

Lemma cache_ok_new m cf n : cache_ok m cf (lru_new n).
Proof. intros k a E. by rewrite lru_peek_new in E. Qed.
Lemma cache_ok_hit m cf c k : cache_ok m cf c → cache_ok m cf (lru_get k c).2.
Proof. intros Hc k' a. rewrite lru_get_keeps. apply Hc. Qed.
Lemma cache_ok_put m cf c k a b : cache_ok m cf c → m !! (cf, k) = Some b → of_bytes b = Ok a → cache_ok m cf (lru_put k a c).
Proof.
  intros Hc Hk Hb k' a' Ha. destruct (decide (k = k')) as [<-|Hne].
  - rewrite lru_peek_put in Ha. injection Ha as <-. eauto.
  - apply lru_peek_put_ne in Ha; [|done]. eauto.
Qed.
Lemma hot_cache_insert m cf c k a b : cache_ok m cf c → of_bytes b = Ok a → cache_ok (<[(cf, k) := b]> m) cf (lru_put k a c).
Proof.
  intros Hc Hb k' a' Ha. destruct (decide (k = k')) as [<-|Hne].
  - rewrite lru_peek_put in Ha. injection Ha as <-. exists b. by rewrite lookup_insert_eq.
  - apply lru_peek_put_ne in Ha; [|done]. rewrite lookup_insert_ne by congruence. by apply Hc.
Qed.
Lemma cache_ok_delete m cf c k : cache_ok m cf c → cache_ok (delete (cf, k) m) cf (lru_pop k c).
Proof.
  intros Hc k' a'. rewrite lru_peek_pop. case_bool_decide; [done|]. intros Ha.
  rewrite lookup_delete_ne by congruence. by apply Hc.
Qed.
Lemma cache_ok_other m cf c op :
  cache_ok m cf c → (match op with RocksPut cf' _ _ | RocksDelete cf' _ => cf' ≠ cf end) → cache_ok (apply_op m op) cf c.
Proof.
  intros Hc Hne k a Ha. destruct (Hc k a Ha) as (b & Hb & Hd). exists b. split; [|done].
  destruct op; cbn in *; [rewrite lookup_insert_ne|rewrite lookup_delete_ne]; congruence.
Qed.
End one_cache.

(** What a command does to the database, when it does something. *)
Definition command_op (c : StorageWriteCommand) : RocksOp :=
  match c with Cmd_Put cf k v => RocksPut cf k v | Cmd_Delete cf k => RocksDelete cf k end.
Lemma append_to_rocks commands batch :
  omap to_rocks (append_to commands batch) = omap to_rocks batch ++ (command_op <$> commands).
Proof.
  unfold append_to. rewrite omap_app. f_equal. induction commands as [|[cf k v|cf k] l IH]; [done|..];
    cbn [fmap list_fmap omap list_omap]; rewrite ?to_rocks_put, ?to_rocks_delete; by f_equal.
Qed.

Lemma enqueue_run c s :
  (∃ d, enqueue_write c s = (Ok tt, set_db d s) ∧ rocks_view d = apply_op (rocks_view (cl_db s)) (command_op c))
  ∨ (∃ e, enqueue_write c s = (Err e, s)) ∨ (∃ p, enqueue_write c s = (Panic p, s)).
Proof.
  unfold enqueue_write, storage_enqueue. erewrite method_bind_run by done. unfold lift, write_batch.
  rewrite append_to_rocks. cbn [omap list_omap app].
  destruct (rocks_write (cl_db s) true (command_op <$> [c])) as [d|e|p] eqn:E.
  - left. exists d. split; [done|]. by rewrite (rocks_write_ok _ _ _ _ E).
  - right. left. by eexists.
  - right. right. by eexists.
Qed.

Lemma read_run cf k s : read_db cf k s = (map_err from_rocksdb (rocks_get (cl_db s) cf k), s).
Proof. reflexivity. Qed.

(** What [get_utxo] does, branch by branch. *)
Lemma get_utxo_run h i s :
  let key := make_utxo_key h i in
  let s1 := map_utxo_cache (λ _, (lru_get key (utxo_hot_cache s)).2) s in
  get_utxo h i s =
    match lru_peek (utxo_hot_cache s) key with
    | Some u => (Ok (Some u), s1)
    | None =>
        match map_err from_rocksdb (rocks_get (cl_db s) CF_Utxo key) with
        | Ok (Some raw) =>
            match of_bytes raw with
            | Ok u => (Ok (Some u), map_utxo_cache (lru_put key u) s1)
            | Err e => (Err e, s1)
            | Panic p => (Panic p, s1)
            end
        | Ok None => (Ok None, s1)
        | Err e => (Err e, s1)
        | Panic p => (Panic p, s1)
        end
    end.
Proof.
  cbn zeta. unfold get_utxo. erewrite method_bind_run by done. rewrite <- lru_get_peek.
  destruct (lru_get _ _) as [hit c] eqn:Eg. cbn [fst snd]. erewrite method_bind_run by done.
  destruct hit as [u|]; [done|]. unfold mbind at 1, method_bind at 1. rewrite read_run.
  change (cl_db (map_utxo_cache (λ _, c) s)) with (cl_db s).
  by destruct (map_err _ _) as [[raw|]|e|p].
Qed.

Lemma get_block_run h s :
  let s1 := map_block_cache (λ _, (lru_get h (recent_block_cache s)).2) s in
  get_block h s =
    match lru_peek (recent_block_cache s) h with
    | Some u => (Ok (Some u), s1)
    | None =>
        match map_err from_rocksdb (rocks_get (cl_db s) CF_Blocks h) with
        | Ok (Some raw) =>
            match of_bytes raw with
            | Ok u => (Ok (Some u), map_block_cache (lru_put h u) s1)
            | Err e => (Err e, s1)
            | Panic p => (Panic p, s1)
            end
        | Ok None => (Ok None, s1)
        | Err e => (Err e, s1)
        | Panic p => (Panic p, s1)
        end
    end.
Proof.
  cbn zeta. unfold get_block. erewrite method_bind_run by done. rewrite <- lru_get_peek.
  destruct (lru_get _ _) as [hit c] eqn:Eg. cbn [fst snd]. erewrite method_bind_run by done.
  destruct hit as [u|]; [done|]. unfold mbind at 1, method_bind at 1. rewrite read_run.
  change (cl_db (map_block_cache (λ _, c) s)) with (cl_db s).
  by destruct (map_err _ _) as [[raw|]|e|p].
Qed.
(** An operation of the layer.  [cache_utxo], which stores what its caller says, has
    no caller and is left out. *)
Inductive layer_step : StorageCacheLayer D C → StorageCacheLayer D C → Prop :=
  | step_get_utxo h i s : layer_step s (get_utxo h i s).2
  | step_put_utxo h i u s : layer_step s (put_utxo h i u s).2
  | step_delete_utxo h i s : layer_step s (delete_utxo h i s).2
  | step_forget_utxo h i s : layer_step s (remove_utxo_from_cache h i s).2
  | step_get_block h s : layer_step s (get_block h s).2
  | step_put_block h b s : layer_step s (put_block h b s).2
  | step_delete_block h s : layer_step s (delete_block h s).2
  | step_read A (c : Codec A) cf k s : layer_step s (read_value (A:=A) cf k s).2
  | step_write A (c : Codec A) cf k a s : cf ≠ CF_Utxo → cf ≠ CF_Blocks → layer_step s (write_value (A:=A) cf k a s).2
  | step_delete cf k s : cf ≠ CF_Utxo → cf ≠ CF_Blocks → layer_step s (enqueue_write (Cmd_Delete cf k) s).2
  | step_min_fee z s : layer_step s (put_mempool_min_fee_rate z s).2
  | step_scan_outputs h s : layer_step s (scan_utxos_by_tx_hash h s).2
  | step_scan_range a b n s : layer_step s (scan_utxo_range a b n s).2
  | step_scan_dag n s : layer_step s (scan_dag_nodes n s).2
  | step_scan_blocks n s : layer_step s (scan_blocks n s).2
  | step_put_mempool h t s : layer_step s (insert_mempool_transaction h t s).2
  | step_remove_mempool h s : layer_step s (remove_mempool_transaction h s).2.

Lemma coherent_utxo_hit s k : coherent s → coherent (map_utxo_cache (λ _, (lru_get k (utxo_hot_cache s)).2) s).
Proof. intros [Hu Hb]. split; [by apply cache_ok_hit|done]. Qed.
Lemma coherent_utxo_put s k u b :
  rocks_view (cl_db s) !! (CF_Utxo, k) = Some b → of_bytes b = Ok u → coherent s → coherent (map_utxo_cache (lru_put k u) s).
Proof. intros Hk Hd [Hu Hb]. split; [by eapply cache_ok_put|done]. Qed.
Lemma coherent_block_hit s k : coherent s → coherent (map_block_cache (λ _, (lru_get k (recent_block_cache s)).2) s).
Proof. intros [Hu Hb]. split; [done|by apply cache_ok_hit]. Qed.
Lemma coherent_block_put s k u b :
  rocks_view (cl_db s) !! (CF_Blocks, k) = Some b → of_bytes b = Ok u → coherent s → coherent (map_block_cache (lru_put k u) s).
Proof. intros Hk Hd [Hu Hb]. split; [done|by eapply cache_ok_put]. Qed.

Lemma read_ok d cf k raw : map_err from_rocksdb (rocks_get d cf k) = Ok raw → raw = rocks_view d !! (cf, k).
Proof. intros Hv%map_err_ok. by apply rocks_get_ok. Qed.

Lemma get_utxo_coherent h i s : coherent s → coherent (get_utxo h i s).2.
Proof.
  intros Hs. rewrite get_utxo_run. pose proof (coherent_utxo_hit s (make_utxo_key h i) Hs) as H1'.
  destruct (lru_peek _ _); [done|]. destruct (map_err _ _) as [[raw|]|e|p] eqn:Er; try done.
  destruct (of_bytes raw) as [u|e|p] eqn:Eu; try done. apply read_ok in Er. by eapply coherent_utxo_put.
Qed.
Lemma get_block_coherent h s : coherent s → coherent (get_block h s).2.
Proof.
  intros Hs. rewrite get_block_run. pose proof (coherent_block_hit s h Hs) as H1'.
  destruct (lru_peek _ _); [done|]. destruct (map_err _ _) as [[raw|]|e|p] eqn:Er; try done.
  destruct (of_bytes raw) as [u|e|p] eqn:Eu; try done. apply read_ok in Er. by eapply coherent_block_put.
Qed.

(** A write to another family. *)
Lemma enqueue_coherent c s :
  (match command_op c with RocksPut cf _ _ | RocksDelete cf _ => cf ≠ CF_Utxo ∧ cf ≠ CF_Blocks end) →
  coherent s → coherent (enqueue_write c s).2.
Proof.
  intros Hc Hs. destruct (enqueue_run c s) as [(d & -> & Hd)|[(e & ->)|(p & ->)]]; [|done..].
  destruct Hs as [Hu Hb]. split; cbn; rewrite Hd; apply cache_ok_other; try done; by destruct (command_op c) as [???|??], Hc.
Qed.
Lemma write_value_coherent A (c : Codec A) cf k (a : A) s :
  cf ≠ CF_Utxo → cf ≠ CF_Blocks → coherent s → coherent (write_value cf k a s).2.
Proof.
  intros ? ? Hs. unfold write_value, lift. cbv [mbind method_bind].
  destruct (to_bytes a) as [b|e|p]; [|done..]. by apply enqueue_coherent.
Qed.

Lemma put_utxo_coherent h i u s : coherent s → coherent (put_utxo h i u s).2.
Proof.
  intros [Hu Hb]. destruct (to_bytes_total u) as (b & Eb & Ed). unfold put_utxo. unfold lift at 1. rewrite Eb.
  erewrite method_bind_run by done. unfold mbind, method_bind.
  destruct (enqueue_run (Cmd_Put CF_Utxo (make_utxo_key h i) b) s) as [(d & -> & Hd)|[(e & ->)|(p & ->)]]; [|done..].
  split; cbn; rewrite Hd; cbn; [by apply hot_cache_insert|].
  by apply (cache_ok_other _ _ _ (RocksPut CF_Utxo (make_utxo_key h i) b)).
Qed.
Lemma put_block_coherent h u s : coherent s → coherent (put_block h u s).2.
Proof.
  intros [Hu Hb]. destruct (to_bytes_total u) as (b & Eb & Ed). unfold put_block. unfold lift at 1. rewrite Eb.
  erewrite method_bind_run by done. unfold mbind, method_bind.
  destruct (enqueue_run (Cmd_Put CF_Blocks h b) s) as [(d & -> & Hd)|[(e & ->)|(p & ->)]]; [|done..].
  split; cbn; rewrite Hd; cbn; [by apply (cache_ok_other _ _ _ (RocksPut CF_Blocks h b))|by apply hot_cache_insert].
Qed.
Lemma delete_utxo_coherent h i s : coherent s → coherent (delete_utxo h i s).2.
Proof.
  intros [Hu Hb]. unfold delete_utxo, mbind, method_bind.
  destruct (enqueue_run (Cmd_Delete CF_Utxo (make_utxo_key h i)) s) as [(d & -> & Hd)|[(e & ->)|(p & ->)]]; [|done..].
  split; cbn; rewrite Hd; cbn; [by apply cache_ok_delete|].
  by apply (cache_ok_other _ _ _ (RocksDelete CF_Utxo (make_utxo_key h i))).
Qed.
Lemma delete_block_coherent h s : coherent s → coherent (delete_block h s).2.
Proof.
  intros [Hu Hb]. unfold delete_block, mbind, method_bind.
  destruct (enqueue_run (Cmd_Delete CF_Blocks h) s) as [(d & -> & Hd)|[(e & ->)|(p & ->)]]; [|done..].
  split; cbn; rewrite Hd; cbn; [by apply (cache_ok_other _ _ _ (RocksDelete CF_Blocks h))|by apply cache_ok_delete].
Qed.

(** A scan stores what it reads. *)
Lemma scan_outputs_coherent h items results v :
  (∀ k b, Ok (k, b) ∈ items → v !! (CF_Utxo, k) = Some b) →
  preserves (λ s, coherent s ∧ rocks_view (cl_db s) = v) (scan_outputs h items results).
Proof.
  revert results; induction items as [|item items IH]; intros results Hi; cbn [scan_outputs]; [keeps|].
  apply preserves_lift_bind. intros [k b] ->%map_err_ok.
  destruct (bool_decide (length k < 32)%nat || _); [keeps|]. destruct (parse_utxo_key k) as [[ph oi]|]; [|apply IH; set_solver].
  destruct (bool_decide (ph = h)); [|keeps]. apply preserves_lift_bind. intros u Eu.
  apply preserves_bind; [|intros; apply IH; set_solver]. apply preserves_modify. intros s [Hs <-]. split; [|done].
  eapply coherent_utxo_put; [apply Hi; left|done|done].
Qed.
Lemma scan_entries_coherent {A R} `{Codec A} cf n (keep : bytes → A → method _ StorageError R) items results v :
  (∀ k b, Ok (k, b) ∈ items → v !! (cf, k) = Some b) →
  (∀ k b a s, v !! (cf, k) = Some b → of_bytes b = Ok a → coherent s ∧ rocks_view (cl_db s) = v →
     coherent (keep k a s).2 ∧ rocks_view (cl_db (keep k a s).2) = v) →
  preserves (λ s, coherent s ∧ rocks_view (cl_db s) = v) (scan_entries n keep items results).
Proof.
  intros Hi Hk. revert results; induction items as [|item items IH]; intros results; cbn [scan_entries]; [keeps|].
  apply preserves_lift_bind. intros [k b] ->%map_err_ok.
  destruct (bool_decide (n ≤ length results)%nat); [keeps|]. apply preserves_lift_bind. intros a Ea.
  apply preserves_bind; [|intros; apply IH; set_solver]. intros s Hs. eapply Hk; [apply Hi; left|done|done].
Qed.

Lemma layer_step_coherent s s' : layer_step s s' → coherent s → coherent s'.
Proof.
  intros Hstep Hs. destruct Hstep.
  - by apply get_utxo_coherent.
  - by apply put_utxo_coherent.
  - by apply delete_utxo_coherent.
  - destruct Hs as [Hu Hb]. split; [|done]. intros k a. cbn. rewrite lru_peek_pop. case_bool_decide; [done|apply Hu].
  - by apply get_block_coherent.
  - by apply put_block_coherent.
  - by apply delete_block_coherent.
  - unfold read_value, mbind, method_bind. rewrite read_run. destruct (map_err _ _) as [[raw|]|e|p]; try done.
    unfold lift. by destruct (of_bytes raw).
  - by apply write_value_coherent.
  - by apply enqueue_coherent.
  - unfold put_mempool_min_fee_rate. erewrite method_bind_run by done. unfold lift, mbind, method_bind.
    destruct (rocks_write _ _ _) as [d|e|p] eqn:E; [|done..]. apply rocks_write_ok in E. destruct Hs as [Hu Hb].
    split; cbn; rewrite E; cbn; by apply (cache_ok_other _ _ _ (RocksPut CF_Default min_fee_rate_key (be_bytes 8 z))).
  - unfold scan_utxos_by_tx_hash. erewrite method_bind_run by done.
    exact (proj1 (scan_outputs_coherent h _ _ _ (λ k b, rocks_iter_ok _ _ _ k b) s (conj Hs eq_refl))).
  - unfold scan_utxo_range. erewrite method_bind_run by done.
    refine (proj1 (scan_entries_coherent CF_Utxo _ _ _ _ _ (λ k b, rocks_iter_ok _ _ _ k b) _ s (conj Hs eq_refl))).
    intros k x u s1 Hk Hd [Hs1 Hv]. split; [|done]. rewrite <- Hv in Hk. by eapply coherent_utxo_put.
  - unfold scan_dag_nodes. erewrite method_bind_run by done.
    by refine (proj1 (scan_entries_coherent CF_Dag _ _ _ _ _ (λ k b, rocks_iter_ok _ _ _ k b) _ s (conj Hs eq_refl))).
  - unfold scan_blocks. erewrite method_bind_run by done.
    refine (proj1 (scan_entries_coherent CF_Blocks _ _ _ _ _ (λ k b, rocks_iter_ok _ _ _ k b) _ s (conj Hs eq_refl))).
    intros k x u s1 Hk Hd [Hs1 Hv]. split; [|done]. rewrite <- Hv in Hk. by eapply coherent_block_put.
  - done.
  - done.
Qed.
Lemma steps_coherent d s : rtc layer_step (StorageCacheLayer_new d) s → coherent s.
Proof.
  intros Hs. assert (H0' : coherent (StorageCacheLayer_new d)) by (split; apply cache_ok_new).
  revert H0'. induction Hs as [|s1 s2 s3 Hstep _ IH]; [done|]. intros Hc. apply IH. by eapply layer_step_coherent.
Qed.

(** What a lookup of a coin says of the database. *)
Lemma get_utxo_reads h i s r s' :
  coherent s → get_utxo h i s = (Ok r, s') →
  coherent s' ∧ cl_db s' = cl_db s
  ∧ match rocks_view (cl_db s) !! (CF_Utxo, make_utxo_key h i) with
    | Some b => ∃ u, r = Some u ∧ of_bytes b = Ok u
    | None => r = None
    end.
Proof.
  intros Hs E. pose proof (get_utxo_coherent h i s Hs) as Hs'. rewrite E in Hs'. split; [done|].
  destruct Hs as [Hu _]. rewrite get_utxo_run in E. destruct (lru_peek _ _) as [u|] eqn:Ep.
  - injection E as <- <-. split; [done|]. destruct (Hu _ _ Ep) as (b & -> & Hd). eauto.
  - destruct (map_err _ _) as [raw|e|p] eqn:Er; [|done..]. apply read_ok in Er. rewrite <- Er.
    destruct raw as [raw|]; [|by injection E as <- <-].
    destruct (of_bytes raw) as [u|e|p] eqn:Eu; [|done..]. injection E as <- <-. split; [done|]. eauto.
Qed.

(** C20. The cached layer reads as the database does: after any operations of the layer, of
    which any may have failed, a coin and a block are found exactly when the database
    has them, with the value it has. *)
Theorem cached_reads_agree d s (Hs : rtc layer_step (StorageCacheLayer_new d) s) :
  (∀ h i r s', get_utxo h i s = (Ok r, s') →
     match rocks_view (cl_db s) !! (CF_Utxo, make_utxo_key h i) with
     | Some b => ∃ u, r = Some u ∧ of_bytes b = Ok u
     | None => r = None
     end)
  ∧ (∀ h r s', get_block h s = (Ok r, s') →
     match rocks_view (cl_db s) !! (CF_Blocks, h) with
     | Some b => ∃ u, r = Some u ∧ of_bytes b = Ok u
     | None => r = None
     end).
Proof.
  apply steps_coherent in Hs. split; [intros h i r s' E; by apply (get_utxo_reads h i s r s')|].
  destruct Hs as [_ Hb]. intros h r s' E. rewrite get_block_run in E. destruct (lru_peek _ _) as [u|] eqn:Ep.
  - injection E as <- _. destruct (Hb _ _ Ep) as (b & -> & Hd). eauto.
  - destruct (map_err _ _) as [raw|e|p] eqn:Er; [|done..]. apply read_ok in Er. rewrite <- Er.
    destruct raw as [raw|]; [|by injection E as <- _].
    destruct (of_bytes raw) as [u|e|p] eqn:Eu; [|done..]. injection E as <- _. eauto.
Qed.
End coherence.

(** ** Keys of outputs *)
Lemma make_utxo_key_inj h h' i i' :
  length h = length h' → 0 ≤ i < 2 ^ 32 → 0 ≤ i' < 2 ^ 32 → make_utxo_key h i = make_utxo_key h' i' → h = h' ∧ i = i'.
Proof.
  intros Hl Hi Hi' E. apply app_inj_1 in E as [-> E]; [|done]. split; [done|].
  apply (le_bytes_inj 4); [done|done|exact E].
Qed.
(** A key is parsed back, and every key of 36 bytes is the key of what it parses to. *)
Theorem utxo_key_roundtrip :
  (∀ h i, length h = 32%nat → 0 ≤ i < 2 ^ 32 → parse_utxo_key (make_utxo_key h i) = Some (h, i))
  ∧ ∀ k h i, parse_utxo_key k = Some (h, i) → length h = 32%nat ∧ 0 ≤ i < 2 ^ 32 ∧ make_utxo_key h i = k.
Proof.
  split.
  - intros h i Hl Hi. unfold parse_utxo_key, make_utxo_key.
    rewrite bool_decide_eq_true_2 by (by rewrite length_app, le_bytes_length, Hl).
    rewrite <- Hl, take_app_length, drop_app_length. by rewrite le_Z_le_bytes.
  - intros k h i. unfold parse_utxo_key. case_bool_decide as Hk; [|done]. intros [= <- <-].
    assert (Hd : length (drop 32 k) = 4%nat) by (rewrite length_drop; lia).
    split; [rewrite length_take; lia|]. split.
    + pose proof (le_Z_bound (drop 32 k)) as Hb. rewrite Hd in Hb. exact Hb.
    + unfold make_utxo_key. pose proof (le_bytes_le_Z (drop 32 k)) as E. rewrite Hd in E. rewrite E. apply take_drop.
Qed.

Lemma enumerate_bind {A B} (f : nat → A → B) l : (enumerate l ≫= λ x, [f x.1 x.2]) = imap f l.
Proof.
  assert (G : ∀ (e : nat → nat), (imap (λ i x, (e i, x)) l ≫= λ x, [f x.1 x.2]) = imap (λ i x, f (e i) x) l).
  { induction l as [|x l IH]; intros e; cbn; [done|]. f_equal. apply (IH (e ∘ S)). }
  apply (G (λ i, i)).
Qed.

(** ** The commit of a block *)
Section commit.
Context {D : Type} {C : Type → Type} `{RocksDbLaws D} `{LruLaws C}.
Context `{CodecLaws BlockValue, CodecLaws HeaderValue, CodecLaws TransactionValue, CodecLaws UtxoValue,
          CodecLaws UtxoSpentValue, Codec VerkleStateValue, CodecLaws DagNodeValue, CodecLaws DagTipsValue}.
Implicit Types (s : StorageCacheLayer D C) (d : D) (t : BlockTransactionBatch).

Definition enc {A} `{Codec A} (a : A) : bytes := match to_bytes a with Ok b => b | _ => [] end.
Lemma to_bytes_enc {A} `{CodecLaws A} (a : A) : to_bytes a = Ok (enc a).
Proof. unfold enc. by destruct (to_bytes_total a) as (b & -> & _). Qed.
Lemma of_bytes_enc {A} `{CodecLaws A} (a : A) : of_bytes (enc a) = Ok a.
Proof. apply to_bytes_of_bytes, to_bytes_enc. Qed.

(** The batch, written out. *)
Definition spent_key (x : SpentUtxoBatch) : bytes := make_utxo_key (prev_tx_hash x) (spent_output_index x).
Definition created_key t (i : nat) : bytes := make_utxo_key (bt_tx_hash t) (wrap 32 (Z.of_nat i)).
Definition rocks_of_spend (x : SpentUtxoBatch) : list RocksOp :=
  [RocksDelete CF_Utxo (spent_key x); RocksPut CF_UtxoSpent (spent_key x) (enc (spent_value x))].
Definition rocks_of_transaction t : list RocksOp :=
  [RocksPut CF_Transactions (bt_tx_hash t) (enc (bt_tx_value t))]
  ++ (spent_utxos t ≫= rocks_of_spend)
  ++ imap (λ i u, RocksPut CF_Utxo (created_key t i) (enc u)) (new_utxos t).
Definition rocks_of_block (h : bytes) (bv : BlockValue) (hv : HeaderValue) (txs : list BlockTransactionBatch)
    (dn : DagNodeValue) (dt : DagTipsValue) : list RocksOp :=
  [RocksPut CF_Blocks h (enc bv); RocksPut CF_Headers h (enc hv)] ++ (txs ≫= rocks_of_transaction)
  ++ [RocksPut CF_Dag h (enc dn); RocksPut CF_DagTips current_tips (enc dt)].

(** A loop that appends to a batch, read as RocksDB operations. *)
Lemma fold_batch {A} (f : WriteBatch → A → outcome StorageError WriteBatch) (g : A → list RocksOp) batch l :
  (∀ b x, x ∈ l → ∃ ops, f b x = Ok (b ++ ops) ∧ omap to_rocks ops = g x) →
  ∃ ops, fold_outcome f batch l = Ok (batch ++ ops) ∧ omap to_rocks ops = l ≫= g.
Proof.
  revert batch; induction l as [|x l IH]; intros batch Hf; cbn [fold_outcome].
  { exists []. split; [by rewrite app_nil_r|done]. }
  destruct (Hf batch x ltac:(left)) as (ops & -> & Ho).
  destruct (IH (batch ++ ops)) as (ops' & E & Ho'); [intros; apply Hf; by right|].
  exists (ops ++ ops'). cbn [mbind outcome_bind]. split; [by rewrite app_assoc|].
  rewrite omap_app, Ho, Ho'. done.
Qed.

Lemma transaction_ops_ok batch t :
  ∃ ops, transaction_ops batch (t, enc (bt_tx_value t)) = Ok (batch ++ ops) ∧ omap to_rocks ops = rocks_of_transaction t.
Proof.
  unfold transaction_ops.
  destruct (fold_batch spend_ops rocks_of_spend
    (batch ++ [put_cf_typed CF_Transactions (bt_tx_hash t) (enc (bt_tx_value t))]) (spent_utxos t)) as (ops1 & -> & E1).
  { intros b x _. unfold spend_ops. rewrite to_bytes_enc. cbn [mbind outcome_bind]. eexists. split; [reflexivity|].
    cbn [omap list_omap]. by rewrite to_rocks_put, to_rocks_delete. }
  cbn [mbind outcome_bind].
  destruct (fold_batch (create_ops (bt_tx_hash t)) (λ x, [RocksPut CF_Utxo (created_key t x.1) (enc x.2)])
    ((batch ++ [put_cf_typed CF_Transactions (bt_tx_hash t) (enc (bt_tx_value t))]) ++ ops1) (enumerate (new_utxos t)))
    as (ops2 & -> & E2).
  { intros b x _. unfold create_ops. rewrite to_bytes_enc. cbn [mbind outcome_bind]. eexists. split; [reflexivity|].
    cbn [omap list_omap]. by rewrite to_rocks_put. }
  eexists. split; [by rewrite <- !app_assoc|]. rewrite omap_app. cbn [omap list_omap]. rewrite to_rocks_put.
  rewrite omap_app, E1, E2. unfold rocks_of_transaction. cbn [app]. do 2 f_equal.
  apply (enumerate_bind (λ i u, RocksPut CF_Utxo (created_key t i) (enc u))).
Qed.

Lemma block_batch_ok h bv hv txs dn dt :
  ∃ ops, block_batch h bv hv txs dn dt = Ok ops ∧ omap to_rocks ops = rocks_of_block h bv hv txs dn dt.
Proof.
  unfold block_batch. rewrite !to_bytes_enc. cbn [mbind outcome_bind].
  assert (E : ∀ l, fold_outcome (λ ops t, b ← to_bytes (bt_tx_value t); mret (ops ++ [(t, b)])) l txs
    = Ok (l ++ ((λ t, (t, enc (bt_tx_value t))) <$> txs))).
  { induction txs as [|t txs IH]; intros l; cbn [fold_outcome fmap list_fmap]; [by rewrite app_nil_r|].
    rewrite to_bytes_enc. cbn [mbind outcome_bind mret outcome_ret]. by rewrite IH, <- app_assoc. }
  rewrite E. cbn [mbind outcome_bind app].
  destruct (fold_batch transaction_ops (λ p, rocks_of_transaction p.1)
    [put_cf_typed CF_Blocks h (enc bv); put_cf_typed CF_Headers h (enc hv)]
    ((λ t, (t, enc (bt_tx_value t))) <$> txs)) as (ops & -> & Eo).
  { intros b x (t & -> & _)%list_elem_of_fmap. apply transaction_ops_ok. }
  cbn [mbind outcome_bind]. eexists. split; [reflexivity|].
  rewrite !omap_app, Eo. cbn [omap list_omap]. rewrite !to_rocks_put. unfold rocks_of_block. cbn [app].
  do 3 f_equal. clear. induction txs as [|t txs IH]; [done|]. exact (f_equal (app (rocks_of_transaction t)) IH).
Qed.
(** ** What the operations leave at a key *)
Definition op_target (op : RocksOp) : ColumnFamilyName * bytes :=
  match op with RocksPut cf k _ | RocksDelete cf k => (cf, k) end.
Definition op_leaves (op : RocksOp) : option bytes := match op with RocksPut _ _ v => Some v | RocksDelete _ _ => None end.
Lemma apply_op_lookup m op ck :
  apply_op m op !! ck = if bool_decide (op_target op = ck) then op_leaves op else m !! ck.
Proof.
  destruct op as [cf k v|cf k]; cbn; case_bool_decide as E; subst;
    first [apply lookup_insert_eq|by apply lookup_insert_ne|apply lookup_delete_eq|by apply lookup_delete_ne].
Qed.
Lemma apply_ops_untouched m ops ck : Forall (λ op, op_target op ≠ ck) ops → foldl apply_op m ops !! ck = m !! ck.
Proof.
  intros Ho. revert m; induction Ho as [|op ops Hop _ IH]; intros m; cbn; [done|].
  rewrite IH, apply_op_lookup. by rewrite bool_decide_eq_false_2.
Qed.
Lemma apply_ops_last m l1 op l2 :
  Forall (λ o, op_target o ≠ op_target op) l2 → foldl apply_op m (l1 ++ op :: l2) !! op_target op = op_leaves op.
Proof.
  intros Hl. rewrite foldl_app. cbn. rewrite apply_ops_untouched by done. rewrite apply_op_lookup.
  by rewrite bool_decide_eq_true_2.
Qed.

(** A transaction touches a coin when it spends or creates it. *)
Definition spends t (k : bytes) : Prop := ∃ x, x ∈ spent_utxos t ∧ spent_key x = k.
Definition creates t (k : bytes) : Prop := ∃ i u, new_utxos t !! i = Some u ∧ created_key t i = k.
Lemma transaction_touches t op k :
  op ∈ rocks_of_transaction t → op_target op = (CF_Utxo, k) → spends t k ∨ creates t k.
Proof.
  unfold rocks_of_transaction. rewrite !elem_of_app, list_elem_of_bind.
  intros [Hop|[(x & Hop & Hx)|(i & u & -> & Hu)%elem_of_lookup_imap_1]].
  - apply list_elem_of_singleton in Hop as ->. done.
  - apply elem_of_cons in Hop as [->|Hop]; [|by apply list_elem_of_singleton in Hop as ->]. intros [= <-]. left. by exists x.
  - intros [= <-]. right. by exists i, u.
Qed.
Lemma block_touches h bv hv txs dn dt op k :
  op ∈ rocks_of_block h bv hv txs dn dt → op_target op = (CF_Utxo, k) → ∃ t, t ∈ txs ∧ (spends t k ∨ creates t k).
Proof.
  unfold rocks_of_block. rewrite !elem_of_app, list_elem_of_bind, !elem_of_cons, !elem_of_nil.
  intros [[->|[->|[]]]|[(t & Hop & Ht)|[->|[->|[]]]]]; try done. intros E. exists t. split; [done|].
  by eapply transaction_touches.
Qed.
(** No transaction of the list touches the coin. *)
Definition untouched (txs : list BlockTransactionBatch) (k : bytes) : Prop :=
  ∀ t, t ∈ txs → ¬ spends t k ∧ ¬ creates t k.
Definition tail_ops (h : bytes) (dn : DagNodeValue) (dt : DagTipsValue) : list RocksOp :=
  [RocksPut CF_Dag h (enc dn); RocksPut CF_DagTips current_tips (enc dt)].

Lemma later_untouched h txs dn dt k :
  untouched txs k → Forall (λ op, op_target op ≠ (CF_Utxo, k)) ((txs ≫= rocks_of_transaction) ++ tail_ops h dn dt).
Proof.
  intros Hu. apply Forall_forall. intros op Hop E. apply elem_of_app in Hop as [Hop|Hop].
  - apply list_elem_of_bind in Hop as (t & Hop & Ht). destruct (Hu t Ht). by destruct (transaction_touches t op k Hop E).
  - apply elem_of_cons in Hop as [->|Hop]; [done|]. by apply list_elem_of_singleton in Hop as ->.
Qed.

Lemma transaction_families t op :
  op ∈ rocks_of_transaction t →
  (op_target op).1 = CF_Transactions ∨ (op_target op).1 = CF_Utxo ∨ (op_target op).1 = CF_UtxoSpent.
Proof.
  unfold rocks_of_transaction. rewrite !elem_of_app, list_elem_of_bind.
  intros [Hop|[(x & Hop & Hx)|(i & u & -> & Hu)%elem_of_lookup_imap_1]].
  - apply list_elem_of_singleton in Hop as ->. by left.
  - right. apply elem_of_cons in Hop as [->|Hop]; [by left|]. apply list_elem_of_singleton in Hop as ->. by right.
  - right. by left.
Qed.

(** The last operation of a transaction on a coin it spends and does not create, and
    on one it creates. *)
Lemma creates_none t k :
  ¬ creates t k →
  Forall (λ op, op_target op ≠ (CF_Utxo, k)) (imap (λ i u, RocksPut CF_Utxo (created_key t i) (enc u)) (new_utxos t)).
Proof.
  intros Hc. apply Forall_forall. intros op (i & u & -> & Hu)%elem_of_lookup_imap_1 [= E]. apply Hc. by exists i, u.
Qed.
Lemma spends_list k l :
  Exists (λ x, spent_key x = k) l →
  ∃ ops1 ops2, l ≫= rocks_of_spend = ops1 ++ RocksDelete CF_Utxo k :: ops2 ∧ Forall (λ op, op_target op ≠ (CF_Utxo, k)) ops2.
Proof.
  induction l as [|y l IH]; [by intros ?%Exists_nil|]. intros Hy.
  destruct (decide (Exists (λ x, spent_key x = k) l)) as [He|He].
  - destruct (IH He) as (ops1 & ops2 & E & Ho). exists (rocks_of_spend y ++ ops1), ops2.
    split; [|done]. cbn [mbind list_bind]. by rewrite E, <- app_assoc.
  - apply Exists_cons in Hy as [<-|?]; [|done].
    exists [], (RocksPut CF_UtxoSpent (spent_key y) (enc (spent_value y)) :: (l ≫= rocks_of_spend)). split; [done|].
    constructor; [done|]. apply Forall_forall. intros op (x & Hop & Hx)%list_elem_of_bind E. apply He, Exists_exists.
    exists x. split; [done|]. apply elem_of_cons in Hop as [->|Hop]; [by injection E|].
    by apply list_elem_of_singleton in Hop as ->.
Qed.
Lemma spends_last t x :
  x ∈ spent_utxos t → ¬ creates t (spent_key x) →
  ∃ ops1 ops2, rocks_of_transaction t = ops1 ++ RocksDelete CF_Utxo (spent_key x) :: ops2
  ∧ Forall (λ op, op_target op ≠ (CF_Utxo, spent_key x)) ops2.
Proof.
  intros Hx Hc. destruct (spends_list (spent_key x) (spent_utxos t)) as (ops1 & ops2 & E & Ho).
  { apply Exists_exists. by exists x. }
  unfold rocks_of_transaction. rewrite E. rewrite <- app_assoc, app_assoc. eexists _, _. split; [reflexivity|].
  apply Forall_app. split; [done|by apply creates_none].
Qed.
Lemma creates_last t i u :
  new_utxos t !! i = Some u → (∀ j, (i < j < length (new_utxos t))%nat → created_key t j ≠ created_key t i) →
  ∃ ops1 ops2, rocks_of_transaction t = ops1 ++ RocksPut CF_Utxo (created_key t i) (enc u) :: ops2
  ∧ Forall (λ op, op_target op ≠ (CF_Utxo, created_key t i)) ops2.
Proof.
  intros Hi Hj. unfold rocks_of_transaction.
  rewrite <- (take_drop_middle (new_utxos t) i u) by done. rewrite imap_app. cbn [imap].
  rewrite length_take_le by (apply lookup_lt_Some in Hi; lia). rewrite Nat.add_0_r. rewrite !app_assoc.
  eexists _, _. split; [reflexivity|]. apply Forall_forall.
  intros op (n & v & -> & Hn)%elem_of_lookup_imap_1 [= E]. rewrite lookup_drop in Hn. apply lookup_lt_Some in Hn.
  eapply (Hj (S (i + n))); [lia|]. cbn in E. rewrite <- E. f_equal. lia.
Qed.

Lemma block_split h bv hv l1 t l2 dn dt ops1 op ops2 :
  rocks_of_transaction t = ops1 ++ op :: ops2 →
  rocks_of_block h bv hv (l1 ++ t :: l2) dn dt
  = ([RocksPut CF_Blocks h (enc bv); RocksPut CF_Headers h (enc hv)] ++ (l1 ≫= rocks_of_transaction) ++ ops1)
    ++ op :: (ops2 ++ (l2 ≫= rocks_of_transaction) ++ tail_ops h dn dt).
Proof.
  intros E. unfold rocks_of_block. rewrite bind_app. cbn [mbind list_bind]. rewrite E. by rewrite <- !app_assoc.
Qed.

Lemma commit_run h bv hv txs dn dt s :
  match commit_block_atomic h bv hv txs dn dt s with
  | (Ok _, s') => ∃ d, s' = set_db d s
      ∧ rocks_view d = foldl apply_op (rocks_view (cl_db s)) (rocks_of_block h bv hv txs dn dt)
  | (_, s') => s' = s
  end.
Proof.
  unfold commit_block_atomic. erewrite method_bind_run by done. unfold commit_block_to_storage, lift, mbind at 1, method_bind.
  destruct (block_batch_ok h bv hv txs dn dt) as (ops & -> & Eo). cbn [mbind outcome_bind].
  unfold write_batch. rewrite Eo. destruct (rocks_write _ _ _) as [d|e|p] eqn:E; cbn; [|done..].
  exists d. split; [done|]. by apply rocks_write_ok in E.
Qed.

Lemma spent_gone h bv hv l1 t l2 dn dt (x : SpentUtxoBatch) (m : content) :
  x ∈ spent_utxos t → ¬ creates t (spent_key x) → untouched l2 (spent_key x) →
  foldl apply_op m (rocks_of_block h bv hv (l1 ++ t :: l2) dn dt) !! (CF_Utxo, spent_key x) = None.
Proof.
  intros Hx Hc Hl2. destruct (spends_last t x Hx Hc) as (ops1 & ops2 & E & Ho).
  rewrite (block_split _ _ _ _ _ _ _ _ _ _ _ E). apply (apply_ops_last m _ (RocksDelete CF_Utxo (spent_key x))).
  apply Forall_app. split; [done|by apply later_untouched].
Qed.

(** The keys a block writes, family by family. *)
Definition block_writes (h : bytes) (txs : list BlockTransactionBatch) (ck : ColumnFamilyName * bytes) : Prop :=
  match ck.1 with
  | CF_Blocks | CF_Headers | CF_Dag => ck.2 = h
  | CF_DagTips => ck.2 = current_tips
  | CF_Transactions => ∃ t, t ∈ txs ∧ bt_tx_hash t = ck.2
  | CF_Utxo => ∃ t, t ∈ txs ∧ (spends t ck.2 ∨ creates t ck.2)
  | CF_UtxoSpent => ∃ t, t ∈ txs ∧ spends t ck.2
  | CF_Default | CF_VerkleState => False
  end.
Lemma transaction_targets t op :
  op ∈ rocks_of_transaction t → block_writes [] [t] (op_target op) ∧ ∀ h txs, t ∈ txs → block_writes h txs (op_target op).
Proof.
  assert (Hone : ∀ t', t' ∈ [t] → t' = t) by (intros t' ?%list_elem_of_singleton; done).
  unfold rocks_of_transaction. rewrite !elem_of_app, list_elem_of_bind.
  intros [Hop|[(x & Hop & Hx)|(i & u & -> & Hu)%elem_of_lookup_imap_1]].
  - apply list_elem_of_singleton in Hop as ->. split; [exists t|intros h txs Ht; exists t]; (split; [by try left|done]).
  - assert (Hs : spends t (spent_key x)) by by exists x.
    apply elem_of_cons in Hop as [->|Hop]; [|apply list_elem_of_singleton in Hop as ->];
      (split; [exists t|intros h txs Ht; exists t]); (split; [by try left|tauto]).
  - assert (Hs : creates t (created_key t i)) by by exists i, u.
    split; [exists t|intros h txs Ht; exists t]; (split; [by try left|tauto]).
Qed.
Lemma block_targets h bv hv txs dn dt op :
  op ∈ rocks_of_block h bv hv txs dn dt → block_writes h txs (op_target op).
Proof.
  unfold rocks_of_block. rewrite !elem_of_app, list_elem_of_bind, !elem_of_cons, !elem_of_nil.
  intros [[->|[->|[]]]|[(t & Hop & Ht)|[->|[->|[]]]]]; try done. by apply (transaction_targets t op Hop).
Qed.
Lemma later_targets h txs dn dt ck :
  ¬ block_writes [] txs ck → ck.1 ≠ CF_Dag → ck.1 ≠ CF_DagTips →
  Forall (λ op, op_target op ≠ ck) ((txs ≫= rocks_of_transaction) ++ tail_ops h dn dt).
Proof.
  intros Hu Hnd Hnt. apply Forall_forall. intros op Hop E. apply elem_of_app in Hop as [Hop|Hop].
  - apply list_elem_of_bind in Hop as (t & Hop & Ht). apply Hu. rewrite <- E.
    by apply (transaction_targets t op Hop).
  - apply elem_of_cons in Hop as [->|Hop]; [by subst|]. apply list_elem_of_singleton in Hop as ->. by subst.
Qed.

(** The last operation of a transaction on a spent record, and on its own record. *)
Lemma spent_recorded h bv hv l1 t l2 dn dt xs (x : SpentUtxoBatch) ys (m : content) :
  spent_utxos t = xs ++ x :: ys → (∀ y, y ∈ ys → spent_key y ≠ spent_key x) →
  (∀ t', t' ∈ l2 → ¬ spends t' (spent_key x)) →
  foldl apply_op m (rocks_of_block h bv hv (l1 ++ t :: l2) dn dt) !! (CF_UtxoSpent, spent_key x) = Some (enc (spent_value x)).
Proof.
  intros Es Hs2 Hl2.
  assert (E : rocks_of_transaction t
    = (RocksPut CF_Transactions (bt_tx_hash t) (enc (bt_tx_value t)) :: (xs ≫= rocks_of_spend) ++ [RocksDelete CF_Utxo (spent_key x)])
      ++ RocksPut CF_UtxoSpent (spent_key x) (enc (spent_value x))
      :: (ys ≫= rocks_of_spend) ++ imap (λ i u, RocksPut CF_Utxo (created_key t i) (enc u)) (new_utxos t)).
  { unfold rocks_of_transaction. rewrite Es, bind_app. cbn [mbind list_bind app]. unfold rocks_of_spend at 2. cbn [app].
    by rewrite <- !app_assoc. }
  rewrite (block_split _ _ _ _ _ _ _ _ _ _ _ E).
  apply (apply_ops_last m _ (RocksPut CF_UtxoSpent (spent_key x) (enc (spent_value x)))).
  apply Forall_app; split; [apply Forall_app; split|].
  - apply Forall_forall. intros op (y & Hop & Hy)%list_elem_of_bind E'. apply (Hs2 y Hy).
    apply elem_of_cons in Hop as [->|Hop]; [done|]. apply list_elem_of_singleton in Hop as ->. by injection E'.
  - apply Forall_forall. by intros op (i & u & -> & Hu)%elem_of_lookup_imap_1.
  - apply (later_targets h l2 dn dt (CF_UtxoSpent, spent_key x)); [|done..]. intros (t' & Ht' & Hsp). by apply (Hl2 t').
Qed.
Lemma transaction_recorded h bv hv l1 t l2 dn dt (m : content) :
  (∀ t', t' ∈ l2 → bt_tx_hash t' ≠ bt_tx_hash t) →
  foldl apply_op m (rocks_of_block h bv hv (l1 ++ t :: l2) dn dt) !! (CF_Transactions, bt_tx_hash t)
  = Some (enc (bt_tx_value t)).
Proof.
  intros Hl2. rewrite (block_split _ _ _ _ _ _ _ _ [] (RocksPut CF_Transactions (bt_tx_hash t) (enc (bt_tx_value t))) _ eq_refl).
  apply (apply_ops_last m _ (RocksPut CF_Transactions (bt_tx_hash t) (enc (bt_tx_value t)))).
  apply Forall_app; split.
  - apply Forall_forall. intros op [(y & Hop & _)%list_elem_of_bind|(i & u & -> & Hu)%elem_of_lookup_imap_1]%elem_of_app; [|done].
    apply elem_of_cons in Hop as [->|Hop]; [done|]. by apply list_elem_of_singleton in Hop as ->.
  - apply (later_targets h l2 dn dt (CF_Transactions, bt_tx_hash t)); [|done..]. intros (t' & Ht' & Hsp). by apply (Hl2 t').
Qed.
Lemma block_stored h bv hv txs dn dt (m : content) :
  let m' := foldl apply_op m (rocks_of_block h bv hv txs dn dt) in
  m' !! (CF_Blocks, h) = Some (enc bv) ∧ m' !! (CF_Headers, h) = Some (enc hv)
  ∧ m' !! (CF_Dag, h) = Some (enc dn) ∧ m' !! (CF_DagTips, current_tips) = Some (enc dt).
Proof.
  assert (Hmid : ∀ cf k, cf ≠ CF_Utxo → cf ≠ CF_UtxoSpent → cf ≠ CF_Transactions →
    Forall (λ op, op_target op ≠ (cf, k)) (txs ≫= rocks_of_transaction)).
  { intros cf k ? ? ?. apply Forall_forall. intros op (t & Hop & _)%list_elem_of_bind E.
    by destruct (transaction_families t op Hop) as [?|[?|?]]; rewrite E in *. }
  cbn zeta. unfold rocks_of_block. split; [|split; [|split]].
  - apply (apply_ops_last m [] (RocksPut CF_Blocks h (enc bv))).
    apply Forall_cons. split; [done|]. apply Forall_app. split; [by apply Hmid|]. by repeat constructor.
  - apply (apply_ops_last m [RocksPut CF_Blocks h (enc bv)] (RocksPut CF_Headers h (enc hv))).
    apply Forall_app. split; [by apply Hmid|]. by repeat constructor.
  - rewrite app_assoc. apply (apply_ops_last m _ (RocksPut CF_Dag h (enc dn))). by repeat constructor.
  - assert (E : ∀ l (a b : RocksOp), l ++ [a; b] = (l ++ [a]) ++ b :: []) by (intros; by rewrite <- app_assoc).
    rewrite app_assoc, E. apply (apply_ops_last m _ (RocksPut CF_DagTips current_tips (enc dt))). constructor.
Qed.

(** C31. The commit of a block is all or nothing.  When it fails nothing has changed.
    When it succeeds, every key of every family that is not the block's own, that of
    one of its transactions or that of a coin they spend or create is as before; a
    coin that is spent, and created neither by the spender nor later, is gone; each
    coin spent is recorded as spent, with the record of its last spender; a coin last
    created is there with its value; each transaction is stored (the last of a hash);
    and so are the block, its header, its node and the tips. *)
Theorem commit_block_spec h bv hv txs dn dt s :
  let before cf k := rocks_view (cl_db s) !! (cf, k) in
  match commit_block_atomic h bv hv txs dn dt s with
  | (Ok _, s') =>
      let after cf k := rocks_view (cl_db s') !! (cf, k) in
      (∀ cf k, ¬ block_writes h txs (cf, k) → after cf k = before cf k)
      ∧ (∀ l1 t l2 x, txs = l1 ++ t :: l2 → x ∈ spent_utxos t → ¬ creates t (spent_key x) →
           untouched l2 (spent_key x) → after CF_Utxo (spent_key x) = None)
      ∧ (∀ l1 t l2 xs x ys, txs = l1 ++ t :: l2 → spent_utxos t = xs ++ x :: ys →
           (∀ y, y ∈ ys → spent_key y ≠ spent_key x) → (∀ t', t' ∈ l2 → ¬ spends t' (spent_key x)) →
           after CF_UtxoSpent (spent_key x) = Some (enc (spent_value x)))
      ∧ (∀ l1 t l2 i u, txs = l1 ++ t :: l2 → new_utxos t !! i = Some u →
           (∀ j, (i < j < length (new_utxos t))%nat → created_key t j ≠ created_key t i) →
           untouched l2 (created_key t i) → after CF_Utxo (created_key t i) = Some (enc u))
      ∧ (∀ l1 t l2, txs = l1 ++ t :: l2 → (∀ t', t' ∈ l2 → bt_tx_hash t' ≠ bt_tx_hash t) →
           after CF_Transactions (bt_tx_hash t) = Some (enc (bt_tx_value t)))
      ∧ after CF_Blocks h = Some (enc bv) ∧ after CF_Headers h = Some (enc hv)
      ∧ after CF_Dag h = Some (enc dn) ∧ after CF_DagTips current_tips = Some (enc dt)
  | (_, s') => s' = s
  end.
Proof.
  cbn zeta. pose proof (commit_run h bv hv txs dn dt s) as Hrun.
  destruct (commit_block_atomic _ _ _ _ _ _ s) as [[[]|e|p] s']; [|done..]. destruct Hrun as (d & -> & Hd).
  change (cl_db (set_db d s)) with d. rewrite !Hd. clear Hd.
  set (m := rocks_view (cl_db s)). split_and!; [..|by apply block_stored|by apply block_stored|by apply block_stored|by apply block_stored].
  - intros cf k Hk. apply apply_ops_untouched, Forall_forall. intros op Hop E. apply Hk. rewrite <- E.
    by eapply block_targets.
  - intros l1 t l2 x -> Hx Hc Hl2. by apply spent_gone.
  - intros l1 t l2 xs x ys -> Es Hs2 Hl2. by eapply spent_recorded.
  - intros l1 t l2 i u -> Hi Hj Hl2. destruct (creates_last t i u Hi Hj) as (ops1 & ops2 & E & Ho).
    rewrite (block_split _ _ _ _ _ _ _ _ _ _ _ E). apply (apply_ops_last m _ (RocksPut CF_Utxo (created_key t i) (enc u))).
    apply Forall_app. split; [done|by apply later_untouched].
  - intros l1 t l2 -> Hl2. by apply transaction_recorded.
Qed.
End commit.

(** ** The grouping of writes *)
Section writer.
Context {D : Type} `{RocksDbLaws D}.

(** A turn of the writer thread serves up to 16 waiting callers as one batch: they
    all receive the same answer, and when it is success the database is what the
    callers' commands give one after the other, in the order of the queue. *)
Theorem group_commit_is_sequential (d : D) (queue : list (list StorageWriteCommand)) :
  let '(d', answers, later) := writer_round d queue in
  let now := take GROUP_COMMIT_MAX_REQUESTS queue in
  now ++ later = queue ∧ length answers = length now
  ∧ (Forall (λ a, a = Ok tt) answers
       ∧ rocks_view d' = foldl (λ m msg, foldl apply_op m (command_op <$> msg)) (rocks_view d) now
     ∨ d' = d ∧ Forall (λ a, a ≠ Ok tt) answers).
Proof.
  unfold writer_round. set (now := take GROUP_COMMIT_MAX_REQUESTS queue).
  assert (E : ∀ b, omap to_rocks (foldl (λ b m, append_to m b) b now) = omap to_rocks b ++ (now ≫= λ m, command_op <$> m)).
  { clearbody now. induction now as [|m l IH]; intros b; cbn [foldl]; [by rewrite app_nil_r|].
    rewrite IH, append_to_rocks. cbn [mbind list_bind]. by rewrite app_assoc. }
  unfold write_batch. rewrite E. cbn [omap list_omap app].
  assert (F : ∀ (m : content), foldl apply_op m (now ≫= λ m, command_op <$> m)
    = foldl (λ m msg, foldl apply_op m (command_op <$> msg)) m now).
  { clearbody now. clear E. induction now as [|x l IH]; intros m; [done|]. cbn [mbind list_bind foldl].
    by rewrite foldl_app, IH. }
  destruct (rocks_write _ _ _) as [d'|e|p] eqn:Ew; cbn [map_err];
    (split; [apply take_drop|]); (split; [by rewrite length_fmap|]).
  - left. split; [by apply Forall_fmap, Forall_true|]. by rewrite (rocks_write_ok _ _ _ _ Ew), F.
  - right. split; [done|]. by apply Forall_fmap, Forall_true.
  - right. split; [done|]. by apply Forall_fmap, Forall_true.
Qed.
End writer.

(** ** Witnesses *)
Definition coin_x : UtxoValue := {| uv_amount := 7; uv_pubkey_hash := [x01]; uv_script := []; uv_block_height := 1 |}.

(** A coin is stored, forgotten by the cache and looked up again. *)
Lemma cached_reads_agree_witness :
  let s := (remove_utxo_from_cache [x0a] 0 (put_utxo [x0a] 0 coin_x mem_layer).2).2 in
  rtc layer_step mem_layer s
  ∧ ∀ r s', get_utxo [x0a] 0 s = (Ok r, s') → r = Some coin_x.
Proof.
  cbv zeta. assert (Hs : rtc layer_step mem_layer (remove_utxo_from_cache [x0a] 0 (put_utxo [x0a] 0 coin_x mem_layer).2).2).
  { eapply rtc_l; [apply step_put_utxo|]. eapply rtc_l; [apply step_forget_utxo|]. constructor. }
  split; [exact Hs|]. intros r s' E. destruct (cached_reads_agree ∅ _ Hs) as [Hu _]. apply Hu in E. vm_compute in E.
  destruct E as (u & -> & [= <-]). reflexivity.
Defined.

(** A block whose transaction spends one coin and creates two. *)
Definition sample_spend : SpentUtxoBatch :=
  {| prev_tx_hash := [x0a]; spent_output_index := 0;
     spent_value := {| spent_by_tx_hash := [x0b]; spent_input_index := 0; spent_at_block_height := 2 |} |}.
Definition sample_batch : BlockTransactionBatch :=
  {| bt_tx_hash := [x0b]; bt_tx_value := {| tv_tx_hash := [x0b]; tv_inputs := []; tv_outputs := []; tv_fee := 0 |};
     spent_utxos := [sample_spend]; new_utxos := [coin_x; coin_x] |}.
Definition sample_block : BlockValue := {| bv_hash := [x01]; bv_header_bytes := []; bv_transactions := []; bv_timestamp := 0 |}.
Definition sample_header : HeaderValue :=
  {| hv_block_hash := [x01]; hv_parent_hashes := []; hv_timestamp := 0; hv_difficulty := 0; hv_nonce := 0;
     hv_verkle_root := []; hv_height := 0 |}.
Definition sample_node : DagNodeValue :=
  {| dn_block_hash := [x01]; dn_parent_hashes := []; dn_blue_set := []; dn_red_set := []; dn_blue_score := 0 |}.
Definition sample_tips : DagTipsValue := {| tip_blocks := [[x01]]; last_updated_height := 1 |}.
Definition funded_layer : MemLayer := (put_utxo [x0a] 0 coin_x mem_layer).2.
Definition sample_commit (s : MemLayer) : outcome StorageError unit * MemLayer :=
  commit_block_atomic [x01] sample_block sample_header [sample_batch] sample_node sample_tips s.

Lemma commit_block_spec_witness :
  (sample_commit funded_layer).1 = Ok tt
  ∧ rocks_view (cl_db (sample_commit funded_layer).2) !! (CF_Utxo, make_utxo_key [x0a] 0) = None
  ∧ rocks_view (cl_db (sample_commit funded_layer).2) !! (CF_UtxoSpent, make_utxo_key [x0a] 0)
    = Some (enc (spent_value sample_spend))
  ∧ rocks_view (cl_db (sample_commit funded_layer).2) !! (CF_Utxo, make_utxo_key [x0b] 1) = Some (enc coin_x).
Proof.
  pose proof (commit_block_spec [x01] sample_block sample_header [sample_batch] sample_node sample_tips funded_layer) as H.
  cbv zeta in H. fold (sample_commit funded_layer) in H.
  assert (E : (sample_commit funded_layer).1 = Ok tt) by (vm_compute; reflexivity).
  destruct (sample_commit funded_layer) as [r s']. cbn [fst snd] in *. subst r.
  destruct H as (_ & Hgone & Hspent & Hnew & _).
  split; [reflexivity|]. split; [|split].
  - apply (Hgone [] sample_batch [] sample_spend eq_refl).
    + left.
    + intros ([|[|?]] & u & Eu & Ek); vm_compute in Ek; first [discriminate|discriminate Eu].
    + intros ? Hin. by apply elem_of_nil in Hin.
  - apply (Hspent [] sample_batch [] [] sample_spend [] eq_refl eq_refl); intros ? Hin; by apply elem_of_nil in Hin.
  - apply (Hnew [] sample_batch [] 1%nat coin_x eq_refl eq_refl).
    + cbn. intros j Hj. lia.
    + intros ? Hin. by apply elem_of_nil in Hin.
Defined.

(** Seventeen writers wait for one turn. *)
Lemma group_commit_is_sequential_witness :
  let '(d', answers, later) :=
    writer_round (∅ : content) ((λ i, [Cmd_Put CF_Dag [Z_byte (Z.of_nat i)] []]) <$> seq 0 17) in
  length answers = 16%nat ∧ length later = 1%nat.
Proof.
  pose proof (group_commit_is_sequential (∅ : content) ((λ i, [Cmd_Put CF_Dag [Z_byte (Z.of_nat i)] []]) <$> seq 0 17)) as H.
  destruct (writer_round _ _) as [[d' answers] later]. destruct H as (Hq & Hl & _). split; [exact Hl|].
  apply (f_equal length) in Hq. rewrite length_app in Hq. cbn in Hq. lia.
Defined.
