(* ===== verification/PoolValidator.v ===== *)
(** * Checking a transaction against the stored coins

    klomang-node, [mempool/validation.rs].  The validator shares the store of the
    node: its methods run on [option] of the cache layer, [None] being a validator
    without a store. *)

From Stdlib Require Import Init.Byte.
From stdpp Require Import gmap.
From S2P Require Import Prelude Crypto Transaction Dag NodePrelude Storage MemoryStore StorageProofs.

Inductive ValidationResult :=
  | VR_Valid
  | VR_MissingInputs (indices : list Z)
  | VR_DoubleSpent
  | VR_InputNotFound (index : Z).
#[global] Instance ValidationResult_eq_dec : EqDecision ValidationResult.
Proof. solve_decision. Defined.

Section validator.
Context {D : Type} {C : Type → Type} `{RocksDb D, LruCache C, Codec UtxoValue, Bincode}.
Abbreviation validating := (method (option (StorageCacheLayer D C)) StorageError).

(** A call on the store, or [a] without one. *)
Definition with_store {A} (a : A) (m : method (StorageCacheLayer D C) StorageError A) : validating A := λ o,
  match o with
  | None => (Ok a, None)
  | Some s => let '(r, s) := m s in (r, Some s)
  end.

Definition check_input (missing : list Z) (entry : nat * TxInput) : method (StorageCacheLayer D C) StorageError (list Z) :=
  prev_tx_bytes ← lift (hash_to_bytes (prev_tx entry.2));
  exists_ ← utxo_exists prev_tx_bytes (index entry.2);
  mret (if exists_ : bool then missing else missing ++ [Z.of_nat entry.1]).
Fixpoint check_inputs (missing : list Z) (entries : list (nat * TxInput)) :
    method (StorageCacheLayer D C) StorageError (list Z) :=
  match entries with
  | [] => mret missing
  | entry :: entries => missing ← check_input missing entry; check_inputs missing entries
  end.

Definition validate_transaction (tx : Transaction) : validating ValidationResult :=
  if is_coinbase tx then mret VR_Valid
  else
    with_store VR_Valid
      (missing_inputs ← check_inputs [] (enumerate (inputs tx));
       mret (match missing_inputs with [] => VR_Valid | _ => VR_MissingInputs missing_inputs end)).

Definition has_missing_inputs (tx : Transaction) : validating bool :=
  r ← validate_transaction tx; mret (match r with VR_MissingInputs _ => true | _ => false end).
Definition try_validate_orphan (tx : Transaction) : validating bool :=
  r ← validate_transaction tx; mret (match r with VR_Valid => true | _ => false end).
Definition get_required_utxos (tx : Transaction) : list (bytes * Z) :=
  (λ i, (hash_or_default (prev_tx i), index i)) <$> inputs tx.
End validator.

(** ** Theorems *)
Section theorems.
Context {D : Type} {C : Type → Type} `{RocksDbLaws D, LruLaws C, CodecLaws UtxoValue, CodecLaws BlockValue, Codec DagNodeValue, BincodeLaws}.
Implicit Types (s : StorageCacheLayer D C).

(** The stored coin of an input. *)
Definition stored s (i : TxInput) : option bytes :=
  rocks_view (cl_db s) !! (CF_Utxo, make_utxo_key (hash_bytes (prev_tx i)) (index i)).
Definition missing_of s (entries : list (nat * TxInput)) : list Z :=
  (λ e, Z.of_nat e.1) <$> filter (λ e, stored s e.2 = None) entries.

Lemma check_inputs_ok entries missing s r s' :
  coherent s → check_inputs missing entries s = (Ok r, s') →
  r = missing ++ missing_of s entries ∧ coherent s' ∧ cl_db s' = cl_db s.
Proof.
  revert missing s; induction entries as [|e entries IH]; intros missing s Hs E; cbn [check_inputs] in E.
  { injection E as <- <-. split; [by rewrite app_nil_r|done]. }
  apply method_bind_ok in E as (m1 & s1 & E1 & E). unfold check_input, hash_to_bytes in E1.
  rewrite hash_bytes_spec in E1. erewrite method_bind_run in E1 by done.
  apply method_bind_ok in E1 as (b & s2 & E1 & [= <- <-]). unfold utxo_exists in E1.
  apply method_bind_ok in E1 as (u & s3 & E1 & [= <- <-]).
  apply get_utxo_reads in E1 as (Hs3 & Hd & Hr); [|done].
  apply IH in E as (-> & Hs' & Hd'); [|done]. split; [|split; [done|congruence]].
  assert (Em : missing_of s3 entries = missing_of s entries) by (unfold missing_of, stored; by rewrite Hd).
  rewrite Em. unfold missing_of. fold (stored s e.2) in Hr. destruct (stored s e.2) as [b|] eqn:Eb.
  - destruct Hr as (u' & -> & _). rewrite bool_decide_eq_true_2 by done.
    rewrite filter_cons_False by (by rewrite Eb). done.
  - rewrite Hr, bool_decide_eq_false_2 by (by intros [??]). rewrite filter_cons_True by done.
    cbn [fmap list_fmap]. by rewrite <- app_assoc.
Qed.

(** What the validator answers, when no read fails: a transaction without inputs is
    valid, any other one is valid exactly when the store has a coin for each input,
    and otherwise the missing inputs are listed by position.  It never answers that
    an input was spent twice, and it changes no coin. *)
Theorem validate_transaction_spec tx s d r o' (Hs : rtc layer_step (StorageCacheLayer_new d) s)
    (E : validate_transaction tx (Some s) = (Ok r, o')) :
  (∃ s', o' = Some s' ∧ cl_db s' = cl_db s)
  ∧ r = match inputs tx with
        | [] => VR_Valid
        | _ => match missing_of s (enumerate (inputs tx)) with [] => VR_Valid | l => VR_MissingInputs l end
        end.
Proof.
  apply steps_coherent in Hs. unfold validate_transaction, is_coinbase in E.
  destruct (inputs tx) as [|i l] eqn:Ei; [injection E as <- <-; eauto|].
  unfold with_store in E. match type of E with (let '(_, _) := ?m in _) = _ => destruct m as [q s'] eqn:Eq end. injection E as -> <-.
  apply method_bind_ok in Eq as (m & s1 & E1 & [= <- <-]).
  apply check_inputs_ok in E1 as (-> & _ & Hd); [|done]. cbn [app]. split; [eauto|].
  by destruct (missing_of s _).
Qed.
(** Inputs whose coins are cached are found, wherever the database stands. *)
Lemma cached_inputs_found entries s :
  (∀ e, e ∈ entries → is_Some (lru_peek (utxo_hot_cache s) (make_utxo_key (hash_bytes (prev_tx e.2)) (index e.2)))) →
  ∃ s', check_inputs [] entries s = (Ok [], s').
Proof.
  revert s; induction entries as [|e entries IH]; intros s He; cbn [check_inputs]; [by eexists|].
  destruct (He e ltac:(left)) as [u Hu].
  set (s1 := map_utxo_cache (λ _, (lru_get (make_utxo_key (hash_bytes (prev_tx e.2)) (index e.2)) (utxo_hot_cache s)).2) s).
  assert (E : check_input [] e s = (Ok [], s1)).
  { unfold check_input, hash_to_bytes. rewrite hash_bytes_spec. erewrite method_bind_run by done. unfold utxo_exists.
    unfold mbind, method_bind. rewrite get_utxo_run, Hu. cbn. done. }
  rewrite (method_bind_run _ _ _ _ _ E). apply IH. intros e' He'. unfold s1. cbn. rewrite lru_get_keeps.
  apply He. by right.
Qed.
End theorems.

(** ** A committed block does not reach the cache *)
Section stale.
Context {D : Type} {C : Type → Type} `{RocksDbLaws D, LruLaws C, BincodeLaws}.
Context `{CodecLaws BlockValue, CodecLaws HeaderValue, CodecLaws TransactionValue, CodecLaws UtxoValue,
          CodecLaws UtxoSpentValue, Codec VerkleStateValue, CodecLaws DagNodeValue, CodecLaws DagTipsValue}.
Implicit Types (s : StorageCacheLayer D C).

(** The coins of the inputs were looked up before the block that spends them was
    committed: the database has none of them any more, and a transaction that spends
    them again is valid. *)
Theorem spent_coins_still_valid tx h bv hv t dn dt s s'
    (Hcached : ∀ i, i ∈ inputs tx →
       is_Some (lru_peek (utxo_hot_cache s) (make_utxo_key (hash_bytes (prev_tx i)) (index i))))
    (Hspent : ∀ i, i ∈ inputs tx →
       ∃ x, x ∈ spent_utxos t ∧ spent_key x = make_utxo_key (hash_bytes (prev_tx i)) (index i)
            ∧ ¬ creates t (spent_key x))
    (Hcommit : commit_block_atomic h bv hv [t] dn dt s = (Ok tt, s')) :
  (∀ i, i ∈ inputs tx → stored s' i = None) ∧ (validate_transaction tx (Some s')).1 = Ok VR_Valid.
Proof.
  pose proof (commit_run h bv hv [t] dn dt s) as Hrun. rewrite Hcommit in Hrun. destruct Hrun as (d & -> & Hd).
  split.
  - intros i Hi. destruct (Hspent i Hi) as (x & Hx & Ek & Hc). unfold stored. cbn [cl_db set_db]. rewrite <- Ek, Hd.
    apply (spent_gone _ _ _ [] t []); [done|done|]. by intros ? ?%elem_of_nil.
  - unfold validate_transaction. destruct (is_coinbase tx); [done|].
    destruct (cached_inputs_found (enumerate (inputs tx)) (set_db d s)) as (s1 & E).
    { intros e He. apply Hcached. unfold enumerate in He. by apply elem_of_lookup_imap_1 in He as (n & i & -> & Hi%list_elem_of_lookup_2). }
    unfold with_store. by rewrite (method_bind_run _ _ _ _ _ E).
Qed.
End stale.

(** ** Witnesses *)
Definition spend_of (n : Z) (i : Z) : TxInput :=
  {| prev_tx := hash_of n; index := i; signature := []; pubkey := []; sighash_type := All |}.
Definition spending_tx (l : list TxInput) : Transaction :=
  {| id := hash_of 99; inputs := l; outputs := []; execution_payload := []; contract_address := None;
     gas_limit := 0; max_fee_per_gas := 0; chain_id := 1; locktime := 0 |}.
Definition store_of_one : MemLayer := (put_utxo (hash_bytes (hash_of 5)) 0 coin_x mem_layer).2.

Lemma validate_transaction_spec_witness :
  rtc layer_step mem_layer store_of_one
  ∧ ∃ o', validate_transaction (spending_tx [spend_of 5 0; spend_of 6 0]) (Some store_of_one) = (Ok (VR_MissingInputs [1]), o').
Proof.
  assert (Hs : rtc layer_step mem_layer store_of_one) by exact (rtc_once _ _ (step_put_utxo (hash_bytes (hash_of 5)) 0 coin_x mem_layer)).
  split; [exact Hs|].
  destruct (validate_transaction (spending_tx [spend_of 5 0; spend_of 6 0]) (Some store_of_one)) as [[r|e|p] o'] eqn:E.
  - exists o'. pose proof (validate_transaction_spec _ _ _ _ _ Hs E) as [_ ->].
    assert (Em : missing_of store_of_one (enumerate (inputs (spending_tx [spend_of 5 0; spend_of 6 0]))) = [1])
      by (vm_compute; reflexivity).
    cbn [inputs spending_tx]. cbn [inputs spending_tx] in Em. rewrite Em. reflexivity.
  - assert (Ef : (validate_transaction (spending_tx [spend_of 5 0; spend_of 6 0]) (Some store_of_one)).1 ≠ Err e)
      by (vm_compute; discriminate). by rewrite E in Ef.
  - assert (Ef : (validate_transaction (spending_tx [spend_of 5 0; spend_of 6 0]) (Some store_of_one)).1 ≠ Panic p)
      by (vm_compute; discriminate). by rewrite E in Ef.
Defined.

Lemma spent_coins_still_valid_witness :
  let t := {| bt_tx_hash := [x0b]; bt_tx_value := bt_tx_value sample_batch;
              spent_utxos := [{| prev_tx_hash := hash_bytes (hash_of 5); spent_output_index := 0; spent_value := spent_value sample_spend |}];
              new_utxos := [] |} in
  let s' := (commit_block_atomic [x01] sample_block sample_header [t] sample_node sample_tips store_of_one).2 in
  stored s' (spend_of 5 0) = None
  ∧ (validate_transaction (spending_tx [spend_of 5 0]) (Some s')).1 = Ok VR_Valid.
Proof.
  intros t s'.
  destruct (spent_coins_still_valid (spending_tx [spend_of 5 0]) [x01] sample_block sample_header t sample_node sample_tips
    store_of_one s') as [H1 H2].
  - intros i Hi. apply list_elem_of_singleton in Hi as ->. vm_compute. by eexists.
  - intros i Hi. apply list_elem_of_singleton in Hi as ->. eexists. split; [left|]. split; [reflexivity|].
    intros (n & u & Hu & _). cbn in Hu. by destruct n.
  - unfold s'. destruct (commit_block_atomic _ _ _ _ _ _ _) as [r s''] eqn:E. cbn [snd].
    assert (Er : r = Ok tt) by (apply (f_equal fst) in E; cbn [fst] in E; rewrite <- E; vm_compute; reflexivity).
    rewrite Er. reflexivity.
  - split; [|exact H2]. apply H1. left.
Defined.
