(* ===== verification/F64.v ===== *)
(** * The order of doubles

    What the node's scores need of [f64]: [min], [max], the casts to integers, and that
    [partial_cmp] of numbers is a total order, by a key in which it is lexicographic. *)

From Stdlib Require Import Floats.SpecFloat.
From S2P Require Import Prelude Pow.

Abbreviation f64 := spec_float.
Definition f64_is_nan (x : f64) : bool := match x with S754_nan => true | _ => false end.
(** [x.max(y)] and [x.min(y)]: a NaN loses. *)
Definition f64_max (x y : f64) : f64 := if f64_is_nan x || SFltb x y then y else x.
Definition f64_min (x y : f64) : f64 := if f64_is_nan x || SFltb y x then y else x.
(** [x as u64] *)
Definition f64_trunc_u64 (x : f64) : Z :=
  match x with
  | S754_zero _ | S754_nan | S754_infinity true | S754_finite true _ _ => 0
  | S754_infinity false => u64_max
  | S754_finite false m e => Z.min (if 0 <=? e then Z.pos m * 2 ^ e else Z.pos m / 2 ^ (- e)) u64_max
  end.
Lemma f64_trunc_u64_nonneg x : 0 ≤ f64_trunc_u64 x.
Proof.
  destruct x as [s|[]| |[] m e]; cbn; try done. apply Z.min_glb; [|done].
  destruct (Z.leb_spec 0 e); [pose proof (Z.pow_nonneg 2 e); lia|].
  apply Z.div_pos; [done|]. apply Z.pow_pos_nonneg; lia.
Qed.
(** [x.ceil() as usize] *)
Definition f64_ceil_usize (x : f64) : Z :=
  match x with
  | S754_zero _ | S754_nan | S754_infinity true | S754_finite true _ _ => 0
  | S754_infinity false => usize_max
  | S754_finite false m e =>
      Z.min (if 0 <=? e then Z.pos m * 2 ^ e else - (- Z.pos m / 2 ^ (- e))) usize_max
  end.

(** Class, exponent and mantissa, negated below zero. *)
Definition f64_key (x : f64) : Z * Z * Z :=
  match x with
  | S754_infinity true => (-2, 0, 0)
  | S754_finite true m e => (-1, - e, - Z.pos m)
  | S754_zero _ | S754_nan => (0, 0, 0)
  | S754_finite false m e => (1, e, Z.pos m)
  | S754_infinity false => (2, 0, 0)
  end.
Definition lex3 (a b : Z * Z * Z) : comparison :=
  match a.1.1 ?= b.1.1 with
  | Eq => match a.1.2 ?= b.1.2 with Eq => a.2 ?= b.2 | c => c end
  | c => c
  end.

Lemma SFcompare_key x y : f64_is_nan x = false → f64_is_nan y = false → SFcompare x y = Some (lex3 (f64_key x) (f64_key y)).
Proof.
  destruct x as [sx|[]| |[] mx ex], y as [sy|[]| |[] my ey]; try done; intros _ _; cbn; unfold lex3; cbn [fst snd]; try done.
  all: try (by destruct (ex ?= ey)).
  rewrite Z.compare_opp, (Z.compare_antisym ex ey). by destruct (ex ?= ey).
Qed.
Lemma lex3_antisym a b : lex3 b a = CompOpp (lex3 a b).
Proof.
  unfold lex3. rewrite (Z.compare_antisym a.1.1 b.1.1), (Z.compare_antisym a.1.2 b.1.2), (Z.compare_antisym a.2 b.2).
  by destruct (a.1.1 ?= b.1.1), (a.1.2 ?= b.1.2).
Qed.
Lemma lex3_eq a b : lex3 a b = Eq ↔ a = b.
Proof.
  destruct a as [[a1 a2] a3], b as [[b1 b2] b3]. unfold lex3. cbn [fst snd].
  destruct (Z.compare_spec a1 b1), (Z.compare_spec a2 b2), (Z.compare_spec a3 b3); split; intros E; try done; try congruence;
    try (injection E; lia).
Qed.
Lemma lex3_lt_trans a b c : lex3 a b = Lt → lex3 b c = Lt → lex3 a c = Lt.
Proof.
  unfold lex3. destruct (Z.compare_spec a.1.1 b.1.1), (Z.compare_spec b.1.1 c.1.1), (Z.compare_spec a.1.1 c.1.1); try done; try lia.
  destruct (Z.compare_spec a.1.2 b.1.2), (Z.compare_spec b.1.2 c.1.2), (Z.compare_spec a.1.2 c.1.2); try done; try lia.
  destruct (Z.compare_spec a.2 b.2), (Z.compare_spec b.2 c.2), (Z.compare_spec a.2 c.2); done || lia.
Qed.

Lemma lex3_le_trans a b c : lex3 a b ≠ Gt → lex3 b c ≠ Gt → lex3 a c ≠ Gt.
Proof.
  destruct (lex3 a b) eqn:E1, (lex3 b c) eqn:E2; try done; intros _ _.
  - apply lex3_eq in E1 as ->. congruence.
  - apply lex3_eq in E1 as ->. congruence.
  - apply lex3_eq in E2 as <-. congruence.
  - by rewrite (lex3_lt_trans a b c).
Qed.

(** ** Non-negative numbers

    Rounding a non-negative value gives no NaN and no sign, so sums and products of
    non-negative values are numbers. *)
Definition f64_nonneg (x : f64) : bool :=
  match x with S754_zero false | S754_infinity false | S754_finite false _ _ => true | _ => false end.
Lemma f64_nonneg_num x : f64_nonneg x = true → f64_is_nan x = false.
Proof. by destruct x as [[]|[]| |[]]. Qed.

Lemma iter_pos_inv {A} (f : A → A) (P : A → Prop) n x : (∀ y, P y → P (f y)) → P x → P (SpecFloat.iter_pos f n x).
Proof. intros Hf. revert x; induction n as [n IH|n IH|]; intros x Hx; cbn; auto. Qed.
Lemma shr_fexp_nonneg m e l : 0 ≤ m → 0 ≤ shr_m (shr_fexp 53 1024 m e l).1.
Proof.
  intros Hm. unfold shr_fexp, shr.
  assert (H0' : 0 ≤ shr_m (shr_record_of_loc m l)) by (by destruct l as [|[]]).
  destruct (_ - e) as [|n|n]; cbn [fst]; [done| |done].
  apply (iter_pos_inv shr_1 (λ r, 0 ≤ shr_m r)); [|done]. by intros [[|[p|p|]|[p|p|]] r b]; cbn; try lia.
Qed.
Lemma binary_round_aux_nonneg m e l : 0 ≤ m → f64_nonneg (binary_round_aux 53 1024 false m e l) = true.
Proof.
  intros Hm. unfold binary_round_aux. pose proof (shr_fexp_nonneg m e l Hm) as H1.
  destruct (shr_fexp 53 1024 m e l) as [r1 e1]. cbn [fst] in H1.
  assert (Hr : 0 ≤ round_nearest_even (shr_m r1) (loc_of_shr_record r1)).
  { unfold round_nearest_even. destruct (loc_of_shr_record r1) as [|[]]; try lia. destruct (Z.even _); lia. }
  pose proof (shr_fexp_nonneg _ e1 loc_Exact Hr) as H2.
  destruct (shr_fexp 53 1024 _ e1 loc_Exact) as [r2 e2]. cbn [fst] in H2.
  destruct (shr_m r2); [done| |lia]. by destruct (e2 <=? _).
Qed.
Lemma binary_normalize_nonneg m e : 0 ≤ m → f64_nonneg (binary_normalize 53 1024 m e false) = true.
Proof.
  intros Hm. unfold binary_normalize. destruct m as [|m|m]; [done| |lia]. unfold binary_round.
  destruct (shl_align m e _) as [mz ez]. by apply binary_round_aux_nonneg.
Qed.
Lemma f64_of_Z_nonneg z : 0 ≤ z → f64_nonneg (f64_of_Z z) = true.
Proof. apply binary_normalize_nonneg. Qed.
Lemma f64_add_nonneg x y : f64_nonneg x = true → f64_nonneg y = true → f64_nonneg (f64_add x y) = true.
Proof.
  destruct x as [[]|[]| |[]], y as [[]|[]| |[]]; try done. intros _ _.
  unfold f64_add, SFadd. cbn [cond_Zopp]. by apply binary_normalize_nonneg.
Qed.
(** A product with a positive finite factor. *)
Lemma f64_mul_nonneg x m e : f64_nonneg x = true → f64_nonneg (f64_mul x (S754_finite false m e)) = true.
Proof.
  destruct x as [[]|[]| |[] mx ex]; try done. intros _. unfold f64_mul, SFmul. cbn [xorb]. by apply binary_round_aux_nonneg.
Qed.
