(* ===== verification/MemoryLimiter.v ===== *)
(** * The memory limiter

    [mempool/memory_limiter.rs] of klomang-node: the weight of a transaction, the
    total kept in an atomic counter beside the map of weights, the graph of parents and
    children, and the eviction that makes room.  [order] is the order in which the map
    of weights is iterated; the candidates are sorted by a total order on their hashes,
    so that it does not reach the result. *)

From Stdlib Require Import Init.Byte Floats.SpecFloat.
From stdpp Require Import gmap.
From S2P Require Import Prelude Crypto Transaction Pow NodePrelude F64.

Abbreviation key := (list byte).

Record MempoolLimiterConfig := {
  max_size_bytes : Z;
  computation_cost_multiplier : f64;
  transaction_entry_overhead_bytes : Z;
  arc_overhead_bytes : Z
}.
Definition f64_unit : f64 := f64_of_Z 1.
Definition default_limiter_config : MempoolLimiterConfig :=
  {| max_size_bytes := 300000000; computation_cost_multiplier := f64_unit;
     transaction_entry_overhead_bytes := 256; arc_overhead_bytes := 48 |}.

Record TransactionWeight := { vsize : Z; overhead : Z; computation_cost : f64; total_weight : Z }.
Record EvictionCandidate := { ec_hash : key; ec_weight : Z; ec_score : f64; dependent_count : Z }.
Record WeightEvictionResult := {
  evicted_hashes : list key;
  freed_bytes : Z;
  freed_weight : Z;
  cascade_count : Z
}.

(** [Ord for EvictionCandidate]: scores that do not compare count as equal. *)
Definition candidate_leb (a b : EvictionCandidate) : bool :=
  match default Eq (SFcompare (ec_score a) (ec_score b)) with
  | Lt => true
  | Gt => false
  | Eq =>
      match dependent_count a ?= dependent_count b with
      | Lt => true
      | Gt => false
      | Eq => bytes_leb (ec_hash a) (ec_hash b)
      end
  end.

Record MempoolLimiter := {
  limiter_config : MempoolLimiterConfig;
  current_weight : Z;
  tx_weights : gmap key TransactionWeight;
  dependency_graph : gmap key (list key)
}.
Definition MempoolLimiter_new (config : MempoolLimiterConfig) : MempoolLimiter :=
  {| limiter_config := config; current_weight := 0; tx_weights := ∅; dependency_graph := ∅ |}.
Definition set_weights (c : Z) (m : gmap key TransactionWeight) (l : MempoolLimiter) : MempoolLimiter :=
  {| limiter_config := limiter_config l; current_weight := c; tx_weights := m;
     dependency_graph := dependency_graph l |}.
Definition map_graph (f : gmap key (list key) → gmap key (list key)) (l : MempoolLimiter) : MempoolLimiter :=
  {| limiter_config := limiter_config l; current_weight := current_weight l; tx_weights := tx_weights l;
     dependency_graph := f (dependency_graph l) |}.

(** ** Weights *)
Definition calculate_vsize (tx : Transaction) : Z :=
  let payload_size := Z.of_nat (length (execution_payload tx)) in
  let contract_addr_size := match contract_address tx with Some _ => 32 | None => 1 end in
  let inputs_size := zsum ((λ i, 32 + 4 + Z.of_nat (length (pubkey i)) + 1) <$> inputs tx) in
  let outputs_size := zsum ((λ o, 8 + Z.of_nat (length (as_bytes (pubkey_hash o)))) <$> outputs tx) in
  wrap 64 (4 + 4 + 8 + 16 + payload_size + contract_addr_size + inputs_size + outputs_size + 32 + 40).

Definition calculate_tx_weight (l : MempoolLimiter) (tx : Transaction) : TransactionWeight :=
  let config := limiter_config l in
  let vs := calculate_vsize tx in
  let overhead := wadd 64 (transaction_entry_overhead_bytes config) (arc_overhead_bytes config) in
  let has_complex_inputs := bool_decide (5 < length (inputs tx))%nat
    || existsb (λ i, bool_decide (100 < length (pubkey i))%nat) (inputs tx) in
  let has_complex_execution := bool_decide (execution_payload tx ≠ [])
    && bool_decide (1000 < length (execution_payload tx))%nat in
  let computation_cost :=
    if has_complex_inputs || has_complex_execution then computation_cost_multiplier config else f64_unit in
  let base_weight := wadd 64 vs overhead in
  {| vsize := vs; overhead := overhead; computation_cost := computation_cost;
     total_weight := f64_ceil_usize (f64_mul (f64_of_Z base_weight) computation_cost) |}.

Definition add_tx_weight (tx_hash : key) (weight : TransactionWeight) (l : MempoolLimiter) : MempoolLimiter :=
  set_weights (wadd 64 (current_weight l) (total_weight weight)) (<[tx_hash := weight]> (tx_weights l)) l.

Definition remove_tx_weight (tx_hash : key) (l : MempoolLimiter) : Z * MempoolLimiter :=
  match tx_weights l !! tx_hash with
  | Some weight =>
      let freed := total_weight weight in
      (freed, set_weights (wsub 64 (current_weight l) freed) (delete tx_hash (tx_weights l)) l)
  | None => (0, l)
  end.

(** ** Parents and children *)
Definition register_dependency (parent child : key) (l : MempoolLimiter) : MempoolLimiter :=
  map_graph (λ g, <[parent := succ_in g parent ++ [child]]> g) l.
Definition unregister_child (parent child : key) (g : gmap key (list key)) : gmap key (list key) :=
  match g !! parent with
  | Some cs =>
      match filter (λ h, h ≠ child) cs with
      | [] => delete parent g
      | cs => <[parent := cs]> g
      end
  | None => g
  end.
Definition unregister_dependency (parent child : key) (l : MempoolLimiter) : MempoolLimiter :=
  map_graph (unregister_child parent child) l.

Definition would_exceed_limit (tx_weight : Z) (l : MempoolLimiter) : bool :=
  max_size_bytes (limiter_config l) <? wadd 64 (current_weight l) tx_weight.
Definition max_weight (l : MempoolLimiter) : Z := max_size_bytes (limiter_config l).
Definition f64_hundred : f64 := f64_of_Z 100.
Definition utilization_percent (l : MempoolLimiter) : f64 :=
  if max_weight l =? 0 then S754_zero false
  else f64_mul (f64_div (f64_of_Z (current_weight l)) (f64_of_Z (max_weight l))) f64_hundred.

(** ** Eviction *)
Section order.
Context (order : gset key → list key).

Definition candidate (l : MempoolLimiter) (priority_map : gmap key f64) (tx_hash : key) : EvictionCandidate :=
  {| ec_hash := tx_hash;
     ec_weight := from_option total_weight 0 (tx_weights l !! tx_hash);
     ec_score := default (S754_zero false) (priority_map !! tx_hash);
     dependent_count := Z.of_nat (length (succ_in (dependency_graph l) tx_hash)) |}.
Definition get_eviction_candidates (priority_map : gmap key f64) (l : MempoolLimiter) : list EvictionCandidate :=
  sort_by candidate_leb (candidate l priority_map <$> order (dom (tx_weights l))).

(** Every child list is pushed at most once, so the search pops no more often than
    there are edges, and once for the start. *)
Definition collect_dependents (tx_hash : key) (l : MempoolLimiter) : list key :=
  let g := dependency_graph l in
  (dfs (succ_in g) (S (out_edges g)) ([tx_hash], ∅, [])).2.

Definition evict_one (acc : Z * list key * MempoolLimiter) (dependent : key) : Z * list key * MempoolLimiter :=
  let '(freed, hashes, l) := acc in
  let '(dependent_freed, l) := remove_tx_weight dependent l in
  (wadd 64 freed dependent_freed, hashes ++ [dependent], l).

Definition evict_transaction_cascade (tx_hash : key) (l : MempoolLimiter) : WeightEvictionResult * MempoolLimiter :=
  let '(freed, l) := remove_tx_weight tx_hash l in
  let dependents := collect_dependents tx_hash l in
  let '(freed, hashes, l) := foldl evict_one (freed, [tx_hash], l) dependents in
  let l := map_graph (delete tx_hash) l in
  let parents := filter (λ p, tx_hash ∈ succ_in (dependency_graph l) p) (order (dom (dependency_graph l))) in
  let l := foldl (λ l parent, unregister_dependency parent tx_hash l) l parents in
  ({| freed_bytes := freed; freed_weight := freed; evicted_hashes := hashes;
      cascade_count := Z.of_nat (length dependents) |}, l).

Definition no_eviction : WeightEvictionResult :=
  {| evicted_hashes := []; freed_bytes := 0; freed_weight := 0; cascade_count := 0 |}.
(** [for candidate in candidates]: [need] is [current + required_weight], read once. *)
Fixpoint evict_candidates (need threshold : Z) (candidates : list EvictionCandidate)
    (total : WeightEvictionResult) (l : MempoolLimiter) : WeightEvictionResult * MempoolLimiter :=
  match candidates with
  | [] => (total, l)
  | c :: candidates =>
      if wsub 64 need (freed_weight total) <=? threshold then (total, l)
      else
        let '(result, l) := evict_transaction_cascade (ec_hash c) l in
        let freed := wadd 64 (freed_weight total) (freed_weight result) in
        evict_candidates need threshold candidates
          {| evicted_hashes := evicted_hashes total ++ evicted_hashes result; freed_bytes := freed;
             freed_weight := freed;
             cascade_count := wadd 64 (cascade_count total) (cascade_count result) |} l
  end.
Definition make_space_for (required_weight : Z) (priority_map : gmap key f64) (l : MempoolLimiter) :
    WeightEvictionResult * MempoolLimiter :=
  if negb (would_exceed_limit required_weight l) then (no_eviction, l)
  else
    evict_candidates (wadd 64 (current_weight l) required_weight) (max_size_bytes (limiter_config l) / 2)
      (get_eviction_candidates priority_map l) no_eviction l.
End order.

Record MemoryStats := {
  ms_current_weight : Z;
  ms_max_weight : Z;
  ms_utilization_percent : f64;
  ms_transaction_count : Z;
  average_weight_per_tx : Z
}.
Definition get_memory_stats (l : MempoolLimiter) : MemoryStats :=
  let current := current_weight l in
  let tx_count := Z.of_nat (size (tx_weights l)) in
  {| ms_current_weight := current; ms_max_weight := max_weight l;
     ms_utilization_percent := f64_mul (f64_div (f64_of_Z current) (f64_of_Z (max_weight l))) f64_hundred;
     ms_transaction_count := tx_count;
     average_weight_per_tx := if 0 <? tx_count then current / tx_count else 0 |}.
Definition limiter_clear (l : MempoolLimiter) : MempoolLimiter := MempoolLimiter_new (limiter_config l).

(** ** The counter and the map *)
Abbreviation total l := (msum total_weight (tx_weights l)).
Definition accounted (l : MempoolLimiter) : Prop := current_weight l = wrap 64 (total l).

Lemma limiter_remove_run h l : let '(freed, l') := remove_tx_weight h l in
  tx_weights l' = delete h (tx_weights l) ∧ freed = total l - total l' ∧ (accounted l → accounted l')
  ∧ dependency_graph l' = dependency_graph l ∧ limiter_config l' = limiter_config l.
Proof.
  unfold remove_tx_weight, accounted. destruct (tx_weights l !! h) as [w|] eqn:Eh; cbn.
  - rewrite (msum_delete _ _ _ w) by done. split_and!; [done|lia| |done|done]. intros ->. apply wsub_wrap.
  - rewrite delete_id by done. split_and!; [done|lia|done..].
Qed.

Lemma evict_ones_run ds freed hashes l : let '(freed', hashes', l') := foldl evict_one (freed, hashes, l) ds in
  (∀ k, tx_weights l' !! k = if bool_decide (k ∈ ds) then None else tx_weights l !! k)
  ∧ wrap 64 freed' = wrap 64 (freed + (total l - total l')) ∧ hashes' = hashes ++ ds ∧ (accounted l → accounted l')
  ∧ dependency_graph l' = dependency_graph l ∧ limiter_config l' = limiter_config l.
Proof.
  revert freed hashes l; induction ds as [|d ds IH]; intros freed hashes l; cbn [foldl].
  { split_and!; [done|f_equal; lia|by rewrite app_nil_r|done..]. }
  cbn [evict_one]. pose proof (limiter_remove_run d l) as Hr. destruct (remove_tx_weight d l) as [f1 l1].
  destruct Hr as (Ew & Ef & Ha & Eg & Ec). specialize (IH (wadd 64 freed f1) (hashes ++ [d]) l1).
  destruct (foldl _ _ ds) as [[freed' hashes'] l']. destruct IH as (Ew' & Ef' & Eh' & Ha' & Eg' & Ec').
  split_and!; [|rewrite Ef'; unfold wadd; rewrite wrap_mod; f_equal; lia|by rewrite Eh', <- (assoc_L (++))|auto|congruence|congruence].
  intros k. rewrite Ew', Ew, lookup_delete. repeat case_bool_decide; set_unfold; repeat case_decide; naive_solver.
Qed.

(** The links to a removed transaction. *)
Lemma succ_unregister p c g k :
  succ_in (unregister_child p c g) k = if decide (k = p) then filter (λ h, h ≠ c) (succ_in g k) else succ_in g k.
Proof.
  unfold unregister_child, succ_in. destruct (g !! p) as [cs|] eqn:Ep.
  - destruct (filter _ cs) as [|c' cs'] eqn:Ef; [rewrite lookup_delete|rewrite lookup_insert];
      destruct (decide (k = p)) as [->|], (decide (p = p)); try done; rewrite ?decide_True by done; cbn;
      rewrite ?decide_False by done; try done; by rewrite Ep; cbn.
  - destruct (decide (k = p)) as [->|]; [|done]. by rewrite Ep.
Qed.
Lemma unregister_all c ps l k :
  let l' := foldl (λ l p, unregister_dependency p c l) l ps in
  succ_in (dependency_graph l') k =
    (if bool_decide (k ∈ ps) then filter (λ h, h ≠ c) (succ_in (dependency_graph l) k) else succ_in (dependency_graph l) k)
  ∧ tx_weights l' = tx_weights l ∧ current_weight l' = current_weight l ∧ limiter_config l' = limiter_config l.
Proof.
  revert l; induction ps as [|p ps IH]; intros l; cbn [foldl]; [done|]. cbn zeta in IH |- *.
  destruct (IH (unregister_dependency p c l)) as (-> & -> & -> & ->). split_and!; [|done..]. cbn.
  rewrite succ_unregister. repeat case_bool_decide; set_unfold; destruct (decide (k = p)); try tauto; try done.
  rewrite list_filter_filter_l; [done|]. done.
Qed.

Section eviction.
Context (order : gset key → list key) (Horder : ∀ s, order s ≡ₚ elements s).
Abbreviation below l := (tc (λ a b, b ∈ succ_in (dependency_graph l) a)).

Lemma elem_of_dependents h l k : k ∈ collect_dependents h l ↔ below l h k.
Proof. apply (dfs_spec (dependency_graph l) h). Qed.

(** What evicting [h] leaves. *)
Record cascaded (h : key) (l : MempoolLimiter) (r : WeightEvictionResult) (l' : MempoolLimiter) : Prop := {
  ca_evicted : ∀ k, k ∈ evicted_hashes r ↔ k = h ∨ below l h k;
  ca_weights : ∀ k, tx_weights l' !! k = if bool_decide (k ∈ evicted_hashes r) then None else tx_weights l !! k;
  ca_freed : wrap 64 (freed_weight r) = wrap 64 (total l - total l');
  ca_links : ∀ k, succ_in (dependency_graph l') k =
    if decide (k = h) then [] else filter (λ c, c ≠ h) (succ_in (dependency_graph l) k);
  ca_accounted : accounted l → accounted l';
  ca_config : limiter_config l' = limiter_config l
}.

Lemma cascade_run h l : let '(r, l') := evict_transaction_cascade order h l in cascaded h l r l'.
Proof.
  unfold evict_transaction_cascade. pose proof (limiter_remove_run h l) as Hr.
  destruct (remove_tx_weight h l) as [f1 l1]. destruct Hr as (Ew & Ef & Ha & Eg & Ec).
  pose proof (evict_ones_run (collect_dependents h l1) f1 [h] l1) as Hd.
  destruct (foldl evict_one _ _) as [[f2 hs] l2]. destruct Hd as (Ew2 & Ef2 & -> & Ha2 & Eg2 & Ec2).
  set (ps := filter _ (order _)). pose proof (unregister_all h ps (map_graph (delete h) l2)) as Hu. cbn zeta in Hu.
  destruct (Hu h) as (_ & Ew3 & Ecur & Ec3). assert (Hlinks := λ k, proj1 (Hu k)). clear Hu.
  assert (Hds : ∀ k, k ∈ collect_dependents h l1 ↔ below l h k) by (intros k; rewrite elem_of_dependents; by rewrite Eg).
  split; cbn [evicted_hashes freed_weight].
  - intros k. rewrite elem_of_app, list_elem_of_singleton. by rewrite Hds.
  - intros k. rewrite Ew3. cbn. rewrite Ew2, Ew, lookup_delete.
    repeat case_bool_decide; set_unfold; repeat case_decide; naive_solver.
  - rewrite Ew3, Ef2. f_equal. cbn. lia.
  - intros k. rewrite Hlinks. cbn [map_graph dependency_graph].
    assert (Es : succ_in (delete h (dependency_graph l2)) k = if decide (k = h) then [] else succ_in (dependency_graph l) k).
    { unfold succ_in. rewrite lookup_delete, Eg2, Eg. by destruct (decide (k = h)), (decide (h = k)); try congruence. }
    rewrite Es. destruct (decide (k = h)) as [->|Hk]; [by case_bool_decide|]. case_bool_decide as Hps; [done|].
    symmetry. apply filter_all. intros c Hc ->. apply Hps. unfold ps. apply list_elem_of_filter.
    cbn [map_graph dependency_graph]. rewrite Es. split; [done|]. rewrite Horder.
    apply elem_of_elements, elem_of_dom. rewrite lookup_delete_ne, Eg2, Eg by done.
    unfold succ_in in Hc. by destruct (dependency_graph l !! k); [eexists|by apply not_elem_of_nil in Hc].
  - unfold accounted at 2. rewrite Ecur, Ew3. exact (λ Hl, Ha2 (Ha Hl)).
  - rewrite Ec3. cbn. congruence.
Qed.

(** ** Making room *)
Lemma candidate_hashes pm l k : is_Some (tx_weights l !! k) → k ∈ ec_hash <$> get_eviction_candidates order pm l.
Proof.
  intros Hk. apply list_elem_of_fmap. exists (candidate l pm k). split; [done|].
  apply elem_of_sort_by, list_elem_of_fmap. exists k. split; [done|]. rewrite Horder. by apply elem_of_elements, elem_of_dom.
Qed.

Definition weighed (l : MempoolLimiter) : Prop :=
  accounted l ∧ total l < 2 ^ 64 ∧ ∀ k w, tx_weights l !! k = Some w → 0 ≤ total_weight w.

Lemma total_range l : weighed l → 0 ≤ total l < 2 ^ 64.
Proof. intros (_ & Hlt & Hw). split; [|done]. by apply msum_nonneg. Qed.

(** A map with fewer entries weighs no more. *)
Lemma msum_subset (f : TransactionWeight → Z) (m m' : gmap key TransactionWeight) :
  (∀ k w, m !! k = Some w → 0 ≤ f w) → m' ⊆ m → msum f m' ≤ msum f m.
Proof.
  revert m'; induction m as [|k w m Hk IH] using map_ind; intros m' Hf Hs.
  { assert (m' = ∅) as -> by (apply map_eq; intros k; rewrite lookup_empty; destruct (m' !! k) eqn:E; [eapply lookup_weaken in E; [|exact Hs]; by rewrite lookup_empty in E|done]). done. }
  assert (Hw : 0 ≤ f w) by (apply (Hf k); apply lookup_insert_eq).
  assert (Hd : delete k m' ⊆ m).
  { apply map_subseteq_spec. intros j v [Hj Hv]%lookup_delete_Some. eapply lookup_weaken in Hv; [|exact Hs].
    by rewrite lookup_insert_ne in Hv. }
  rewrite msum_insert by done. specialize (IH (delete k m')). destruct (m' !! k) as [w'|] eqn:Ek.
  - rewrite (msum_delete f m' k w') in IH by done.
    assert (w' = w) as -> by (eapply lookup_weaken in Ek; [|exact Hs]; rewrite lookup_insert_eq in Ek; congruence).
    enough (msum f m' - f w ≤ msum f m) by lia. apply IH; [|exact Hd].
    intros j v Hj. apply (Hf j). rewrite lookup_insert_ne; [done|congruence].
  - rewrite delete_id in IH, Hd by done. enough (msum f m' ≤ msum f m) by lia. apply IH; [|done].
    intros j v Hj. apply (Hf j). rewrite lookup_insert_ne; [done|congruence].
Qed.

Lemma cascaded_weighed h l r l' : cascaded h l r l' → weighed l → weighed l' ∧ total l' ≤ total l.
Proof.
  intros [He Hw _ _ Ha _] (Hac & Hlt & Hpos).
  assert (Hs : tx_weights l' ⊆ tx_weights l).
  { apply map_subseteq_spec. intros k v. rewrite Hw. by case_bool_decide. }
  pose proof (msum_subset total_weight _ _ Hpos Hs). split; [|done]. split_and!; [auto|lia|].
  intros k w Hk. eapply Hpos, lookup_weaken; [exact Hk|done].
Qed.

(** The loop stops under the threshold or when nothing is left. *)
Lemma evict_candidates_run need threshold cs acc l0 l :
  0 ≤ threshold → weighed l → weighed l0 → total l ≤ total l0 → 0 ≤ need - total l0 → need < 2 ^ 64 →
  freed_weight acc = total l0 - total l →
  (∀ k, is_Some (tx_weights l !! k) → k ∈ ec_hash <$> cs) →
  (∀ k, tx_weights l !! k = if bool_decide (k ∈ evicted_hashes acc) then None else tx_weights l0 !! k) →
  limiter_config l = limiter_config l0 →
  let '(r, l') := evict_candidates order need threshold cs acc l in
  weighed l' ∧ freed_weight r = total l0 - total l' ∧ limiter_config l' = limiter_config l0
  ∧ (∀ k, tx_weights l' !! k = if bool_decide (k ∈ evicted_hashes r) then None else tx_weights l0 !! k)
  ∧ (need - total l0 + total l' ≤ threshold ∨ tx_weights l' = ∅).
Proof.
  intros Hth Hl Hl0. revert acc l Hl; induction cs as [|c cs IH]; intros acc l Hl Hle Hn Hn2 Hf Hin Hev Hc; cbn [evict_candidates].
  - split_and!; [done..|]. right. apply map_eq. intros k. rewrite lookup_empty.
    destruct (tx_weights l !! k) eqn:Ek; [|done]. by destruct (not_elem_of_nil k); apply Hin; rewrite Ek.
  - pose proof (total_range l Hl). pose proof (total_range l0 Hl0).
    assert (Es : wsub 64 need (freed_weight acc) = need - total l0 + total l).
    { rewrite Hf. unfold wsub. rewrite wrap_small; [lia|unfold fits; lia]. }
    rewrite Es. destruct (Z.leb_spec (need - total l0 + total l) threshold) as [Ht|Ht]; [by split_and!; auto|].
    pose proof (cascade_run (ec_hash c) l) as Hr. destruct (evict_transaction_cascade order (ec_hash c) l) as [r l1].
    destruct (cascaded_weighed _ _ _ _ Hr Hl) as [Hw1 Hle1]. pose proof (total_range l1 Hw1). destruct Hr as [He Hw Hfr _ _ Hcf].
    apply IH; [done|lia|done|done| | | |congruence]; cbn [freed_weight evicted_hashes].
    + unfold wadd. rewrite Hf, Z.add_comm, <- wrap_mod, Hfr, wrap_mod, wrap_small; [lia|unfold fits; lia].
    + intros k Hk. rewrite Hw in Hk. case_bool_decide as Hke; [by destruct Hk|].
      apply Hin, elem_of_cons in Hk as [Hk|]; [|done]. subst. destruct Hke. apply He. by left.
    + intros k. rewrite Hw, Hev. repeat case_bool_decide; set_unfold; naive_solver.
Qed.

Lemma evict_candidates_accounted need threshold cs acc l :
  accounted l → accounted (evict_candidates order need threshold cs acc l).2.
Proof.
  revert acc l; induction cs as [|c cs IH]; intros acc l Hl; cbn [evict_candidates]; [done|].
  destruct (_ <=? _); [done|]. pose proof (cascade_run (ec_hash c) l) as Hr.
  destruct (evict_transaction_cascade order (ec_hash c) l) as [r l1]. by apply IH, (ca_accounted _ _ _ _ Hr).
Qed.

(** The methods of a limiter; a weight is added for a hash that has none. *)
Inductive limiter_step (l : MempoolLimiter) : MempoolLimiter → Prop :=
  | step_add_weight h w : tx_weights l !! h = None → limiter_step l (add_tx_weight h w l)
  | step_remove_weight h : limiter_step l (remove_tx_weight h l).2
  | step_register_dependency p c : limiter_step l (register_dependency p c l)
  | step_unregister_dependency p c : limiter_step l (unregister_dependency p c l)
  | step_evict h : limiter_step l (evict_transaction_cascade order h l).2
  | step_make_space w pm : limiter_step l (make_space_for order w pm l).2
  | step_limiter_clear : limiter_step l (limiter_clear l).

Lemma limiter_step_accounted l l' : limiter_step l l' → accounted l → accounted l'.
Proof.
  unfold accounted. destruct 1 as [h w Hh|h| | |h|w pm|]; intros Hl; try done.
  - cbn. rewrite Hl, msum_insert, wadd_wrap by done. f_equal. lia.
  - pose proof (limiter_remove_run h l) as Hr. destruct (remove_tx_weight h l). by apply Hr.
  - pose proof (cascade_run h l) as Hr. destruct (evict_transaction_cascade order h l). by apply (ca_accounted _ _ _ _ Hr).
  - unfold make_space_for. destruct (negb _); [done|]. by apply evict_candidates_accounted.
Qed.

(** ** Properties *)

(** Whatever is added, removed and evicted, the atomic counter is the total weight of
    the tracked transactions, modulo the width of the counter. *)
Theorem counter_is_total_weight config l (Hl : rtc limiter_step (MempoolLimiter_new config) l) :
  current_weight l = msum total_weight (tx_weights l) mod 2 ^ 64.
Proof.
  assert (H0' : accounted (MempoolLimiter_new config)) by (unfold accounted; cbn; by rewrite msum_empty).
  change (accounted l). clear -Hl H0' Horder. induction Hl as [|l1 l2 l3 Hs _ IH]; [done|]. by apply IH, (limiter_step_accounted l1).
Qed.

(** Evicting a transaction removes the weights of it and of everything below it in the
    graph of children, reports exactly these hashes and the weight they had, and
    unlinks it from its parents and its children. *)
Theorem evict_transaction_cascade_spec h l :
  let '(r, l') := evict_transaction_cascade order h l in
  (∀ k, k ∈ evicted_hashes r ↔ k = h ∨ tc (λ a b, b ∈ succ_in (dependency_graph l) a) h k)
  ∧ (∀ k, tx_weights l' !! k = if bool_decide (k ∈ evicted_hashes r) then None else tx_weights l !! k)
  ∧ freed_weight r mod 2 ^ 64 = (msum total_weight (tx_weights l) - msum total_weight (tx_weights l')) mod 2 ^ 64
  ∧ (∀ k, succ_in (dependency_graph l') k =
       if decide (k = h) then [] else filter (λ c, c ≠ h) (succ_in (dependency_graph l) k)).
Proof.
  pose proof (cascade_run h l) as Hr. destruct (evict_transaction_cascade order h l) as [r l'].
  by destruct Hr.
Qed.

(** Making room, in a limiter whose weights are counted and do not overflow: nothing
    happens while the new transaction fits; otherwise transactions are evicted until
    they fit in half of the limit together with the new one, or until none is left.
    The freed weight is what the evicted transactions had. *)
Theorem make_space_for_spec required pm l
    (Hl : weighed l) (Hmax : 0 ≤ max_size_bytes (limiter_config l)) (Hreq : 0 ≤ required)
    (Hsum : total l + required < 2 ^ 64) :
  let '(r, l') := make_space_for order required pm l in
  freed_weight r = total l - total l' ∧ weighed l'
  ∧ (∀ k, tx_weights l' !! k = if bool_decide (k ∈ evicted_hashes r) then None else tx_weights l !! k)
  ∧ if total l + required <=? max_size_bytes (limiter_config l) then l' = l
    else total l' + required ≤ max_size_bytes (limiter_config l) / 2 ∨ tx_weights l' = ∅.
Proof.
  pose proof (total_range l Hl) as Ht. assert (Ecur : current_weight l = total l).
  { destruct Hl as (-> & _ & _). by apply wrap_small. }
  unfold make_space_for, would_exceed_limit. rewrite Ecur. unfold wadd. rewrite wrap_small by (unfold fits; lia).
  destruct (Z.leb_spec (total l + required) (max_size_bytes (limiter_config l))) as [Hle|Hgt].
  { assert (max_size_bytes (limiter_config l) <? total l + required = false) as -> by lia.
    cbn. split_and!; [lia|done|done|done]. }
  assert (max_size_bytes (limiter_config l) <? total l + required = true) as -> by lia. cbn [negb].
  pose proof (evict_candidates_run (total l + required) (max_size_bytes (limiter_config l) / 2)
    (get_eviction_candidates order pm l) no_eviction l l) as Hrun.
  destruct (evict_candidates _ _ _ _ _ _) as [r l'].
  destruct Hrun as (? & ? & ? & ? & [?|?]); try done; try lia; [apply Z.div_pos; lia|cbn; lia|by apply candidate_hashes|..].
  - split_and!; try done. left; lia.
  - split_and!; try done. by right.
Qed.

End eviction.

(** ** Witnesses *)
Definition by_elements : gset key → list key := elements.
Lemma by_elements_perm s : by_elements s ≡ₚ elements s.
Proof. done. Qed.
Definition weight_of (n : Z) : TransactionWeight :=
  {| vsize := n; overhead := 0; computation_cost := f64_unit; total_weight := n |}.
Definition limit_100 : MempoolLimiterConfig :=
  {| max_size_bytes := 100; computation_cost_multiplier := f64_unit; transaction_entry_overhead_bytes := 0;
     arc_overhead_bytes := 0 |}.
Definition two_tracked : MempoolLimiter :=
  add_tx_weight [x02] (weight_of 40) (add_tx_weight [x01] (weight_of 50) (MempoolLimiter_new limit_100)).

Lemma two_tracked_steps : rtc (limiter_step by_elements) (MempoolLimiter_new limit_100) two_tracked.
Proof.
  eapply rtc_l; [by apply (step_add_weight _ _ [x01] (weight_of 50))|].
  eapply rtc_l; [by apply (step_add_weight _ _ [x02] (weight_of 40))|]. constructor.
Qed.
Lemma two_tracked_weighed : weighed two_tracked.
Proof.
  split_and!; [done|done|]. intros k w. unfold two_tracked. cbn.
  rewrite lookup_insert_Some, lookup_insert_Some, lookup_empty. intros [[_ <-]|(_ & [[_ <-]|[_ ?]])]; done.
Qed.

Lemma counter_is_total_weight_witness :
  rtc (limiter_step by_elements) (MempoolLimiter_new limit_100) two_tracked
  ∧ current_weight two_tracked = msum total_weight (tx_weights two_tracked) mod 2 ^ 64.
Proof.
  split; [exact two_tracked_steps|].
  exact (counter_is_total_weight by_elements by_elements_perm limit_100 two_tracked two_tracked_steps).
Defined.

Lemma evict_transaction_cascade_spec_witness :
  let l := register_dependency [x01] [x02] two_tracked in
  ∀ k, tx_weights (evict_transaction_cascade by_elements [x01] l).2 !! k = None ∨ k ∉ evicted_hashes (evict_transaction_cascade by_elements [x01] l).1.
Proof.
  intros l k. pose proof (evict_transaction_cascade_spec by_elements by_elements_perm [x01] l) as Hs.
  destruct (evict_transaction_cascade by_elements [x01] l) as [r l']. destruct Hs as (_ & Hw & _).
  cbn [fst snd]. rewrite Hw. case_bool_decide; [by left|by right].
Defined.

Lemma make_space_for_spec_witness :
  weighed two_tracked
  ∧ let '(r, l') := make_space_for by_elements 30 ∅ two_tracked in
    freed_weight r = 90 - total l' ∧ (total l' + 30 ≤ 50 ∨ tx_weights l' = ∅).
Proof.
  split; [exact two_tracked_weighed|].
  pose proof (make_space_for_spec by_elements by_elements_perm 30 ∅ two_tracked two_tracked_weighed
    ltac:(vm_compute; discriminate) ltac:(lia) ltac:(vm_compute; reflexivity)) as Hs.
  destruct (make_space_for by_elements 30 ∅ two_tracked) as [r l'].
  destruct Hs as (Hf & _ & _ & Hr). assert (E : total two_tracked = 90) by (vm_compute; reflexivity).
  rewrite E in Hf, Hr. split; [exact Hf|]. exact Hr.
Defined.
