(* ===== verification/Orphans.v ===== *)
(** * Orphans

    [mempool/orphan_manager.rs] and [mempool/advanced_orphan_management.rs] of
    klomang-node: transactions that wait for inputs, the index from a missing outpoint
    to the transactions that wait for it, the eviction that bounds them, the deferred
    queue, and the linker that follows the outputs of an arrived transaction.

    Readings of the clock are arguments.  [order] is the order in which the map of
    orphans is iterated: it decides between victims of equal fee rate. *)

From Stdlib Require Import Init.Byte.
From stdpp Require Import gmap.
From S2P Require Import Prelude Crypto Transaction NodePrelude UtxoTracker.

Abbreviation key := (list byte).

#[global] Instance ClaimPoint_eq_dec : EqDecision ClaimPoint.
Proof. solve_decision. Defined.
#[global] Instance ClaimPoint_countable : Countable ClaimPoint :=
  inj_countable' (λ p, (tx_hash p, point_index p)) (λ q, {| tx_hash := q.1; point_index := q.2 |})
    (λ p, match p with Build_ClaimPoint _ _ => eq_refl end).

(** ** Data *)
Inductive OrphanEvictionPolicy := Fifo | FeeBased.
Record OrphanPoolConfig := {
  max_orphans : Z;
  max_adoption_batch : Z;
  orphan_ttl_ns : Z;
  eviction_policy : OrphanEvictionPolicy
}.
Definition default_orphan_config : OrphanPoolConfig :=
  {| max_orphans := 5000; max_adoption_batch := 1000; orphan_ttl_ns := 20 * 60 * 1000000000;
     eviction_policy := FeeBased |}.

Record OrphanEntry := {
  orphan_tx : Transaction;
  insertion_time_ns : Z;
  missing_inputs : list ClaimPoint;
  size_bytes : Z;
  total_fee : Z
}.
Definition OrphanEntry_new (now : Z) (tx : Transaction) (missing : list ClaimPoint) (size fee : Z) : OrphanEntry :=
  {| orphan_tx := tx; insertion_time_ns := now; missing_inputs := missing; size_bytes := size; total_fee := fee |}.
Definition fee_rate (e : OrphanEntry) : Z := if size_bytes e =? 0 then 0 else total_fee e / size_bytes e.
Definition age_ns (now : Z) (e : OrphanEntry) : Z := sat_sub now (insertion_time_ns e).
Definition is_expired (now ttl_ns : Z) (e : OrphanEntry) : bool := ttl_ns <? age_ns now e.

Record OrphanStats := {
  total_orphans : Z;
  total_memory_bytes : Z;
  unique_missing_parents : Z;
  adoption_stat : Z;
  evicted_count : Z;
  expired_count : Z
}.
Definition no_orphan_stats : OrphanStats :=
  {| total_orphans := 0; total_memory_bytes := 0; unique_missing_parents := 0; adoption_stat := 0;
     evicted_count := 0; expired_count := 0 |}.

Record AdoptionResult := { adopted_txs : list Transaction; adoption_count : Z; remaining_orphans : Z }.

Record OrphanManager := {
  orphan_pool : gmap key OrphanEntry;
  missing_input_index : gmap ClaimPoint (list key);
  insertion_order : list (key * Z);
  orphan_config : OrphanPoolConfig;
  orphan_stats : OrphanStats
}.
Definition OrphanManager_new (config : OrphanPoolConfig) : OrphanManager :=
  {| orphan_pool := ∅; missing_input_index := ∅; insertion_order := []; orphan_config := config;
     orphan_stats := no_orphan_stats |}.

Definition set_orphans (p : gmap key OrphanEntry) (o : list (key * Z)) (s : OrphanManager) : OrphanManager :=
  {| orphan_pool := p; missing_input_index := missing_input_index s; insertion_order := o;
     orphan_config := orphan_config s; orphan_stats := orphan_stats s |}.
Definition map_index (f : gmap ClaimPoint (list key) → gmap ClaimPoint (list key)) (s : OrphanManager) : OrphanManager :=
  {| orphan_pool := orphan_pool s; missing_input_index := f (missing_input_index s);
     insertion_order := insertion_order s; orphan_config := orphan_config s; orphan_stats := orphan_stats s |}.
Definition map_orphan_stats (f : OrphanManager → OrphanStats → OrphanStats) (s : OrphanManager) : OrphanManager :=
  {| orphan_pool := orphan_pool s; missing_input_index := missing_input_index s;
     insertion_order := insertion_order s; orphan_config := orphan_config s; orphan_stats := f s (orphan_stats s) |}.

Definition orphan_len (s : OrphanManager) : Z := Z.of_nat (size (orphan_pool s)).
(** [IndexMap::insert] and [shift_remove]: a known key keeps its place. *)
Fixpoint order_insert (k : key) (v : Z) (l : list (key * Z)) : list (key * Z) :=
  match l with
  | [] => [(k, v)]
  | e :: l => if bool_decide (e.1 = k) then (k, v) :: l else e :: order_insert k v l
  end.
Definition shift_remove (k : key) (l : list (key * Z)) : list (key * Z) := filter (λ e, e.1 ≠ k) l.
(** [index.retain(|_, children| !children.is_empty())] *)
Definition drop_empty (g : gmap ClaimPoint (list key)) : gmap ClaimPoint (list key) :=
  filter (λ kv : ClaimPoint * list key, kv.2 ≠ []) g.

(** What a removal takes off the statistics. *)
Definition count_removed (size : Z) (s : OrphanManager) (st : OrphanStats) : OrphanStats :=
  {| total_orphans := orphan_len s; total_memory_bytes := sat_sub (total_memory_bytes st) size;
     unique_missing_parents := unique_missing_parents st; adoption_stat := adoption_stat st;
     evicted_count := evicted_count st; expired_count := expired_count st |}.
Definition count_adopted (s : OrphanManager) (st : OrphanStats) : OrphanStats :=
  {| total_orphans := total_orphans st; total_memory_bytes := total_memory_bytes st;
     unique_missing_parents := unique_missing_parents st; adoption_stat := wadd 64 (adoption_stat st) 1;
     evicted_count := evicted_count st; expired_count := expired_count st |}.
Definition count_evicted (s : OrphanManager) (st : OrphanStats) : OrphanStats :=
  {| total_orphans := total_orphans st; total_memory_bytes := total_memory_bytes st;
     unique_missing_parents := unique_missing_parents st; adoption_stat := adoption_stat st;
     evicted_count := wadd 64 (evicted_count st) 1; expired_count := expired_count st |}.
Definition count_added (size : Z) (s : OrphanManager) (st : OrphanStats) : OrphanStats :=
  {| total_orphans := orphan_len s; total_memory_bytes := wadd 64 (total_memory_bytes st) size;
     unique_missing_parents := Z.of_nat (base.size (missing_input_index s)); adoption_stat := adoption_stat st;
     evicted_count := evicted_count st; expired_count := expired_count st |}.

Abbreviation orphans := (method OrphanManager string).

(** ** The orphan manager *)
Definition unlist (h : key) (g : gmap ClaimPoint (list key)) (p : ClaimPoint) : gmap ClaimPoint (list key) :=
  match g !! p with Some cs => <[p := filter (λ c, c ≠ h) cs]> g | None => g end.
Definition remove_orphan (h : key) : orphans Transaction :=
  s ← get;
  match orphan_pool s !! h with
  | Some entry =>
      _ ← put (set_orphans (delete h (orphan_pool s)) (shift_remove h (insertion_order s)) s);
      _ ← modify (map_index (λ g, drop_empty (foldl (unlist h) g (missing_inputs entry))));
      _ ← modify (map_orphan_stats (count_removed (size_bytes entry)));
      mret (orphan_tx entry)
  | None => throw "Orphan transaction not found"
  end.

Section order.
Context (order : gset key → list key).

Definition _select_fifo_victim (s : OrphanManager) : option key := fst <$> head (insertion_order s).
Definition fee_victim_step (s : OrphanManager) (best : option key * Z) (h : key) : option key * Z :=
  match orphan_pool s !! h with
  | Some e => if fee_rate e <? best.2 then (Some h, fee_rate e) else best
  | None => best
  end.
Definition _select_fee_victim (s : OrphanManager) : option key :=
  (foldl (fee_victim_step s) (None, u64_max) (order (dom (orphan_pool s)))).1.
Definition _evict_one : orphans unit :=
  s ← get;
  match match eviction_policy (orphan_config s) with
        | Fifo => _select_fifo_victim s
        | FeeBased => _select_fee_victim s
        end with
  | Some h => catch (remove_orphan h) (λ _, modify (map_orphan_stats count_evicted)) (λ _, mret tt)
  | None => throw "No transaction available for eviction"
  end.

Definition list_missing (h : key) (g : gmap ClaimPoint (list key)) (p : ClaimPoint) : gmap ClaimPoint (list key) :=
  <[p := default [] (g !! p) ++ [h]]> g.
Definition add_orphan (now now' : Z) (h : key) (tx : Transaction) (missing : list ClaimPoint) (size fee : Z) :
    orphans unit :=
  s ← get;
  _ ← (if max_orphans (orphan_config s) <=? orphan_len s then _evict_one else mret tt);
  s ← get;
  _ ← put (set_orphans (<[h := OrphanEntry_new now tx missing size fee]> (orphan_pool s))
             (order_insert h now' (insertion_order s)) s);
  _ ← modify (map_index (λ g, foldl (list_missing h) g missing));
  modify (map_orphan_stats (count_added size)).

Definition contains (h : key) (s : OrphanManager) : bool := bool_decide (is_Some (orphan_pool s !! h)).
Definition get_orphan (h : key) (s : OrphanManager) : option Transaction := orphan_tx <$> orphan_pool s !! h.
Definition get_orphan_entry (h : key) (s : OrphanManager) : option OrphanEntry := orphan_pool s !! h.

Definition adopt_child (acc : list Transaction * OrphanManager) (child : key) : list Transaction * OrphanManager :=
  let '(adopted, s) := acc in
  match orphan_pool s !! child with
  | Some entry =>
      (adopted ++ [orphan_tx entry],
       map_orphan_stats count_adopted (map_orphan_stats (count_removed (size_bytes entry))
         (set_orphans (delete child (orphan_pool s)) (shift_remove child (insertion_order s)) s)))
  | None => acc
  end.
Definition process_orphans_for_parent (p : ClaimPoint) : orphans AdoptionResult :=
  s ← get;
  let children := default [] (missing_input_index s !! p) in
  let '(adopted, s) := foldl adopt_child ([], map_index (delete p) s) children in
  let s := map_index drop_empty s in
  _ ← put s;
  mret {| adopted_txs := adopted; adoption_count := Z.of_nat (length adopted); remaining_orphans := orphan_len s |}.
Definition process_orphans_for_parents (ps : list ClaimPoint) : orphans AdoptionResult :=
  results ← mapM process_orphans_for_parent ps;
  s ← get;
  let all_adopted := mjoin (adopted_txs <$> results) in
  mret {| adopted_txs := all_adopted; adoption_count := Z.of_nat (length all_adopted); remaining_orphans := orphan_len s |}.

Definition expired_hashes (now : Z) (s : OrphanManager) : list key :=
  filter (λ h, from_option (is_expired now (orphan_ttl_ns (orphan_config s))) false (orphan_pool s !! h) = true)
    (order (dom (orphan_pool s))).
Definition cleanup_expired (now : Z) : orphans Z :=
  s ← get;
  counts ← mapM (λ h, catch (remove_orphan h) (λ _, mret 1) (λ _, mret 0)) (expired_hashes now s);
  mret (zsum counts).

Definition get_orphans_by_age_range (now min_age_ns max_age_ns : Z) (s : OrphanManager) : list Transaction :=
  omap (λ h, e ← orphan_pool s !! h;
             if (min_age_ns <=? age_ns now e) && (age_ns now e <=? max_age_ns) then Some (orphan_tx e) else None)
    (order (dom (orphan_pool s))).
Definition get_orphans_waiting_for (p : ClaimPoint) (s : OrphanManager) : list Transaction :=
  omap (λ h, orphan_tx <$> orphan_pool s !! h) (default [] (missing_input_index s !! p)).
Definition get_orphan_stats (s : OrphanManager) : OrphanStats :=
  let st := orphan_stats s in
  {| total_orphans := orphan_len s; total_memory_bytes := total_memory_bytes st;
     unique_missing_parents := Z.of_nat (size (missing_input_index s)); adoption_stat := adoption_stat st;
     evicted_count := evicted_count st; expired_count := expired_count st |}.
Definition clear_orphans (s : OrphanManager) : OrphanManager := OrphanManager_new (orphan_config s).
(** Every listed child is an orphan; the error does not say which one is not. *)
Definition verify_consistency (s : OrphanManager) : outcome string unit :=
  ensure (bool_decide (map_Forall (λ _ cs, Forall (λ c, is_Some (orphan_pool s !! c)) cs) (missing_input_index s)))
    "Orphan child reference mismatch in missing input index".
End order.

(** ** The deferred queue *)
Record ResolutionTask := { task_hash : key; scheduled_at : Z; task_priority : Z }.
Record DeferredResolver := {
  resolution_queue : list ResolutionTask;
  last_resolution : Z;
  min_resolution_interval_ms : Z;
  max_tasks_per_batch : nat;
  total_scheduled : Z;
  total_processed : Z;
  total_expired : Z;
  current_queue_size : Z
}.
Definition DeferredResolver_new (now interval : Z) (max_tasks : nat) : DeferredResolver :=
  {| resolution_queue := []; last_resolution := now; min_resolution_interval_ms := interval;
     max_tasks_per_batch := max_tasks; total_scheduled := 0; total_processed := 0; total_expired := 0;
     current_queue_size := 0 |}.
Definition schedule_resolution (now : Z) (h : key) (priority : Z) (r : DeferredResolver) : DeferredResolver :=
  let queue := resolution_queue r ++ [{| task_hash := h; scheduled_at := now; task_priority := priority |}] in
  {| resolution_queue := queue; last_resolution := last_resolution r;
     min_resolution_interval_ms := min_resolution_interval_ms r; max_tasks_per_batch := max_tasks_per_batch r;
     total_scheduled := wadd 64 (total_scheduled r) 1; total_processed := total_processed r;
     total_expired := total_expired r; current_queue_size := Z.of_nat (length queue) |}.

(** Times are in nanoseconds: 20 minutes, and milliseconds. *)
Definition task_ttl : Z := 20 * 60 * 1000000000.
Definition milliseconds (n : Z) : Z := n * 1000000.
(** The loop over the queue; the number of expired tasks, the batch and the rest. *)
Fixpoint take_batch (max : nat) (now : Z) (queue : list ResolutionTask) : Z * list ResolutionTask * list ResolutionTask :=
  match max, queue with
  | O, _ | _, [] => (0, [], queue)
  | S max', task :: queue =>
      if task_ttl <? sat_sub now (scheduled_at task) then
        let '(expired, batch, rest) := take_batch max now queue in (expired + 1, batch, rest)
      else let '(expired, batch, rest) := take_batch max' now queue in (expired, task :: batch, rest)
  end.
Definition process_batch (now now' : Z) (r : DeferredResolver) : list ResolutionTask * DeferredResolver :=
  if sat_sub now (last_resolution r) <? milliseconds (min_resolution_interval_ms r) then ([], r)
  else
    let '(expired, batch, rest) := take_batch (max_tasks_per_batch r) now (resolution_queue r) in
    (batch,
     {| resolution_queue := rest; last_resolution := now';
        min_resolution_interval_ms := min_resolution_interval_ms r; max_tasks_per_batch := max_tasks_per_batch r;
        total_scheduled := total_scheduled r;
        total_processed := wadd 64 (total_processed r) (Z.of_nat (length batch));
        total_expired := wadd 64 (total_expired r) expired; current_queue_size := Z.of_nat (length rest) |}).
Definition clear_queue (r : DeferredResolver) : DeferredResolver :=
  {| resolution_queue := []; last_resolution := last_resolution r;
     min_resolution_interval_ms := min_resolution_interval_ms r; max_tasks_per_batch := max_tasks_per_batch r;
     total_scheduled := total_scheduled r; total_processed := total_processed r; total_expired := total_expired r;
     current_queue_size := 0 |}.
Definition queue_size (r : DeferredResolver) : Z := Z.of_nat (length (resolution_queue r)).

(** ** The linker *)
Record OrphanChainLink := {
  link_tx_hash : key;
  immediate_parents : list ClaimPoint;
  immediate_children : list key;
  link_depth : Z
}.
Record LinkerStats := {
  total_links_created : Z;
  total_chains_resolved : Z;
  max_depth_reached : Z;
  total_adopted_via_linking : Z;
  circular_deps_detected : Z
}.
Record Linker := { chain_cache : gmap key OrphanChainLink; max_chain_depth : nat; linker_stats : LinkerStats }.
Definition Linker_new (max_depth : nat) : Linker :=
  {| chain_cache := ∅; max_chain_depth := max_depth;
     linker_stats := {| total_links_created := 0; total_chains_resolved := 0; max_depth_reached := 0;
                        total_adopted_via_linking := 0; circular_deps_detected := 0 |} |}.
Record ChainResolutionResult := { total_adopted : Z; maximum_depth : Z }.

Section linker.
Context `{Bincode}.
Abbreviation linking := (method (OrphanManager * Linker) string).

Definition serialized (h : Hash) : outcome string key := ok_or (bincode_hash h) "Serialization error: {}".
(** The outpoints of the outputs of a transaction. *)
Definition outpoints_of (tx : Transaction) : outcome string (list ClaimPoint) :=
  mapM (λ output, h ← serialized (id tx); mret {| tx_hash := h; point_index := wrap 32 (Z.of_nat output.1) |})
    (enumerate (outputs tx)).
Definition insert_link (h : key) (p : ClaimPoint) (depth : Z) (l : Linker) : Linker :=
  {| chain_cache := <[h := {| link_tx_hash := h; immediate_parents := [p]; immediate_children := [];
                              link_depth := depth |}]> (chain_cache l);
     max_chain_depth := max_chain_depth l; linker_stats := linker_stats l |}.

(** Collected while one level is processed: how many were adopted, and the outpoints
    of the next level. *)
Abbreviation level := (Z * list ClaimPoint)%type.
Definition link_adopted (depth : Z) (p : ClaimPoint) (count : Z) (acc : level) (tx : Transaction) : linking level :=
  h ← lift (serialized (id tx));
  _ ← modify (λ s, (s.1, insert_link h p depth s.2));
  outs ← lift (outpoints_of tx);
  mret (wadd 64 acc.1 count, acc.2 ++ outs).
Definition link_outpoint (depth : Z) (acc : level) (p : ClaimPoint) : linking level :=
  adoption ← zoom fst (λ m s, (m, s.2)) (process_orphans_for_parent p);
  fold_method (link_adopted depth p (adoption_count adoption)) acc (adopted_txs adoption).
Fixpoint link_levels (fuel : nat) (current_depth : Z) (outpoints : list ClaimPoint) (result : ChainResolutionResult) :
    linking ChainResolutionResult :=
  match fuel, outpoints with
  | O, _ | _, [] => mret result
  | S fuel, _ =>
      acc ← fold_method (link_outpoint (current_depth + 1)) (total_adopted result, []) outpoints;
      link_levels fuel (current_depth + 1) acc.2
        {| total_adopted := acc.1; maximum_depth := current_depth + 1 |}
  end.
Definition count_chain (r : ChainResolutionResult) (l : Linker) : Linker :=
  let st := linker_stats l in
  {| chain_cache := chain_cache l; max_chain_depth := max_chain_depth l;
     linker_stats := {| total_links_created := total_links_created st;
                        total_chains_resolved := wadd 64 (total_chains_resolved st) 1;
                        max_depth_reached := Z.max (maximum_depth r) (max_depth_reached st);
                        total_adopted_via_linking := wadd 64 (total_adopted_via_linking st) (total_adopted r);
                        circular_deps_detected := circular_deps_detected st |} |}.
Definition link_orphan_chain (parent_tx : Transaction) : linking ChainResolutionResult :=
  outpoints ← lift (outpoints_of parent_tx);
  s ← get;
  result ← link_levels (max_chain_depth s.2) 0 outpoints {| total_adopted := 0; maximum_depth := 0 |};
  _ ← modify (λ s, (s.1, count_chain result s.2));
  mret result.
End linker.

(** The search for cycles of [chain_cache]; a path visits no hash twice, so its depth is
    bounded by the size of the cache. *)
Record CycleSearch := { cs_visited : gset key; rec_stack : gset key; cs_path : list key }.
Fixpoint _dfs_detect_cycle (fuel : nat) (l : Linker) (current : key) (cs : CycleSearch) : bool * CycleSearch :=
  match fuel with
  | O => (false, cs)
  | S fuel =>
      let cs := {| cs_visited := {[ current ]} ∪ cs_visited cs; rec_stack := {[ current ]} ∪ rec_stack cs;
                   cs_path := cs_path cs ++ [current] |} in
      let '(found, cs) :=
        match chain_cache l !! current with
        | Some link =>
            foldl (λ (acc : bool * CycleSearch) child,
                     let '(found, cs) := acc in
                     if found then acc
                     else if bool_decide (child ∈ cs_visited cs) then (bool_decide (child ∈ rec_stack cs), cs)
                     else _dfs_detect_cycle fuel l child cs)
              (false, cs) (immediate_children link)
        | None => (false, cs)
        end in
      if found then (true, cs)
      else (false, {| cs_visited := cs_visited cs; rec_stack := rec_stack cs ∖ {[ current ]};
                      cs_path := take (length (cs_path cs) - 1) (cs_path cs) |})
  end.
Definition detect_step (l : Linker) (acc : list (list key) * gset key * gset key) (h : key) :
    list (list key) * gset key * gset key :=
  let '(deps, visited, stack) := acc in
  if bool_decide (h ∈ visited) then acc
  else
    let '(found, cs) := _dfs_detect_cycle (S (size (chain_cache l))) l h
                          {| cs_visited := visited; rec_stack := stack; cs_path := [] |} in
    (if found then deps ++ [cs_path cs] else deps, cs_visited cs, rec_stack cs).
Definition detect_circular_dependencies (order : gset key → list key) (l : Linker) : list (list key) * Linker :=
  let '(deps, _, _) := foldl (detect_step l) ([], ∅, ∅) (order (dom (chain_cache l))) in
  let st := linker_stats l in
  (deps,
   {| chain_cache := chain_cache l; max_chain_depth := max_chain_depth l;
      linker_stats := {| total_links_created := total_links_created st;
                         total_chains_resolved := total_chains_resolved st;
                         max_depth_reached := max_depth_reached st;
                         total_adopted_via_linking := total_adopted_via_linking st;
                         circular_deps_detected := wadd 64 (circular_deps_detected st) (Z.of_nat (length deps)) |} |}).

Record ChainIntegrityReport := { total_links : Z; invalid_depth_links : Z; orphaned_links : Z }.
Definition _verify_parent_exists (_parent : ClaimPoint) : outcome string bool := Ok true.
Definition check_parents (report : ChainIntegrityReport) (p : ClaimPoint) : outcome string ChainIntegrityReport :=
  found ← _verify_parent_exists p;
  mret (if found : bool then report
        else {| total_links := total_links report; invalid_depth_links := invalid_depth_links report;
                orphaned_links := orphaned_links report + 1 |}).
Definition check_link (l : Linker) (report : ChainIntegrityReport) (h : key) : outcome string ChainIntegrityReport :=
  match chain_cache l !! h with
  | Some link =>
      fold_outcome check_parents
        {| total_links := total_links report + 1;
           invalid_depth_links := invalid_depth_links report
             + if Z.of_nat (max_chain_depth l) <? link_depth link then 1 else 0;
           orphaned_links := orphaned_links report |} (immediate_parents link)
  | None => mret report
  end.
Definition verify_chain_integrity (order : gset key → list key) (l : Linker) : outcome string ChainIntegrityReport :=
  fold_outcome (check_link l) {| total_links := 0; invalid_depth_links := 0; orphaned_links := 0 |}
    (order (dom (chain_cache l))).
Definition clear_cache (l : Linker) : Linker :=
  {| chain_cache := ∅; max_chain_depth := max_chain_depth l; linker_stats := linker_stats l |}.
Definition get_chain_topology (l : Linker) : gmap Z Z :=
  map_fold (λ _ link t, <[link_depth link := default 0 (t !! link_depth link) + 1]> t) ∅ (chain_cache l).

(** ** What a method does to the pool and the index *)
Abbreviation waiting s p := (default [] (missing_input_index s !! p)).

Lemma waiting_drop_empty g p : default [] (drop_empty g !! p) = default [] (g !! p).
Proof.
  unfold drop_empty. destruct (g !! p) as [cs|] eqn:Ep.
  - destruct (decide (cs = [])) as [->|Hcs].
    + replace (filter _ g !! p) with (@None (list key)); [done|]. symmetry.
      apply map_lookup_filter_None. right. rewrite Ep. intros ? [= <-] Hne. by apply Hne.
    + replace (filter _ g !! p) with (Some cs); [done|]. symmetry. by apply map_lookup_filter_Some.
  - replace (filter _ g !! p) with (@None (list key)); [done|]. symmetry. apply map_lookup_filter_None. by left.
Qed.
Lemma waiting_unlist h ps g p : default [] (foldl (unlist h) g ps !! p) =
  if bool_decide (p ∈ ps) then filter (λ c, c ≠ h) (default [] (g !! p)) else default [] (g !! p).
Proof.
  revert g; induction ps as [|q ps IH]; intros g; cbn [foldl]; [done|]. rewrite IH.
  assert (E : default [] (unlist h g q !! p) = if decide (p = q) then filter (λ c, c ≠ h) (default [] (g !! p)) else default [] (g !! p)).
  { unfold unlist. destruct (g !! q) as [cs|] eqn:Eq.
    - rewrite lookup_insert. destruct (decide (q = p)), (decide (p = q)); try congruence; by subst; rewrite ?Eq.
    - destruct (decide (p = q)) as [->|]; [by rewrite Eq|done]. }
  rewrite E. destruct (decide (p = q)) as [->|Hne].
  - rewrite (bool_decide_eq_true_2 (q ∈ q :: ps)) by left. case_bool_decide; [by rewrite list_filter_filter_l|done].
  - rewrite (bool_decide_ext (p ∈ q :: ps) (p ∈ ps)); [done|]. rewrite elem_of_cons. tauto.
Qed.
Lemma waiting_list h ps g p : default [] (foldl (list_missing h) g ps !! p) =
  default [] (g !! p) ++ (const h <$> filter (λ q, q = p) ps).
Proof.
  revert g; induction ps as [|q ps IH]; intros g; cbn [foldl]; [by rewrite app_nil_r|]. rewrite IH.
  unfold list_missing. rewrite lookup_insert, filter_cons. destruct (decide (q = p)) as [->|]; [|done].
  cbn. by rewrite <- (assoc_L (++)).
Qed.

Lemma elem_of_order_insert k v l h : h ∈ fst <$> order_insert k v l ↔ h = k ∨ h ∈ fst <$> l.
Proof.
  induction l as [|e l IH]; cbn; [set_solver|]. case_bool_decide as Hk; cbn; [subst; set_solver|].
  rewrite !elem_of_cons, IH. tauto.
Qed.
Lemma elem_of_shift_remove k l h : h ∈ fst <$> shift_remove k l ↔ h ≠ k ∧ h ∈ fst <$> l.
Proof.
  unfold shift_remove. rewrite !list_elem_of_fmap. setoid_rewrite list_elem_of_filter. naive_solver.
Qed.

(** The order of insertion lists the pool, every orphan is listed under each input it
    misses, and the pool is within its limit. *)
Record orphans_ok (s : OrphanManager) : Prop := {
  oo_order : ∀ h, h ∈ fst <$> insertion_order s ↔ is_Some (orphan_pool s !! h);
  oo_waiting : ∀ h e p, orphan_pool s !! h = Some e → p ∈ missing_inputs e → h ∈ waiting s p;
  oo_bound : orphan_len s ≤ max_orphans (orphan_config s)
}.

Lemma orphan_len_delete s h e : orphan_pool s !! h = Some e →
  Z.of_nat (size (delete h (orphan_pool s))) = orphan_len s - 1.
Proof.
  intros He. unfold orphan_len. rewrite map_size_delete, He.
  assert (size (orphan_pool s) ≠ 0%nat) by (apply map_size_non_empty_iff; intros E; by rewrite E, lookup_empty in He). lia.
Qed.

Lemma remove_orphan_run h s e : orphan_pool s !! h = Some e →
  ∃ s', remove_orphan h s = (Ok (orphan_tx e), s') ∧ orphan_pool s' = delete h (orphan_pool s)
  ∧ insertion_order s' = shift_remove h (insertion_order s) ∧ orphan_config s' = orphan_config s
  ∧ ∀ p, waiting s' p = if bool_decide (p ∈ missing_inputs e) then filter (λ c, c ≠ h) (waiting s p) else waiting s p.
Proof.
  intros He. unfold remove_orphan. eexists. rewrite (method_bind_run get _ s s s) by done. rewrite He.
  split; [reflexivity|]. cbn. split_and!; [done..|]. intros p. by rewrite waiting_drop_empty, waiting_unlist.
Qed.

Lemma remove_orphan_ok h s : orphans_ok s → orphans_ok (remove_orphan h s).2.
Proof.
  intros [Ho Hw Hb]. destruct (orphan_pool s !! h) as [e|] eqn:He.
  - destruct (remove_orphan_run h s e He) as (s' & -> & Ep & Eo & Ec & Ei). cbn [snd]. split.
    + intros k. rewrite Eo, elem_of_shift_remove, Ho, Ep, lookup_delete_is_Some. naive_solver.
    + intros k e' p. rewrite Ep, Ei. intros [Hk He']%lookup_delete_Some Hp. specialize (Hw k e' p He' Hp).
      case_bool_decide; [|done]. apply list_elem_of_filter. by split.
    + unfold orphan_len. rewrite Ep, Ec, (orphan_len_delete _ _ _ He). lia.
  - unfold remove_orphan. rewrite (method_bind_run get _ s s s) by done. by rewrite He.
Qed.

Lemma adopt_children_run cs adopted s : let '(adopted', s') := foldl adopt_child (adopted, s) cs in
  (∀ h, orphan_pool s' !! h = if bool_decide (h ∈ cs) then None else orphan_pool s !! h)
  ∧ (∀ h, h ∈ fst <$> insertion_order s' ↔ h ∈ fst <$> insertion_order s
        ∧ ¬ (h ∈ cs ∧ is_Some (orphan_pool s !! h)))
  ∧ missing_input_index s' = missing_input_index s ∧ orphan_config s' = orphan_config s
  ∧ (∀ t, t ∈ adopted' ↔ t ∈ adopted ∨ ∃ h e, h ∈ cs ∧ orphan_pool s !! h = Some e ∧ t = orphan_tx e)
  ∧ orphan_len s' + Z.of_nat (length adopted') = orphan_len s + Z.of_nat (length adopted).
Proof.
  revert adopted s; induction cs as [|c cs IH]; intros adopted s; cbn [foldl].
  { split_and!; [done|set_solver|done|done|naive_solver set_solver|done]. }
  cbn [adopt_child]. destruct (orphan_pool s !! c) as [e|] eqn:Ec.
  - set (s1 := map_orphan_stats _ _). specialize (IH (adopted ++ [orphan_tx e]) s1).
    destruct (foldl adopt_child _ cs) as [adopted' s']. destruct IH as (Hp & Ho & Hi & Hc & Ha & Hl).
    assert (Ep : orphan_pool s1 = delete c (orphan_pool s)) by done.
    assert (Eo : insertion_order s1 = shift_remove c (insertion_order s)) by done.
    split_and!; [| |done|done| |].
    + intros h. rewrite Hp, Ep, lookup_delete. repeat case_bool_decide; set_unfold; repeat case_decide; naive_solver.
    + intros h. rewrite Ho, Eo, elem_of_shift_remove, Ep, lookup_delete_is_Some.
      destruct (decide (h = c)) as [->|]; set_unfold; naive_solver.
    + intros t. rewrite Ha, Ep. setoid_rewrite lookup_delete_Some. setoid_rewrite elem_of_cons. rewrite elem_of_app, list_elem_of_singleton.
      split; [naive_solver|]. intros [?|(h & e' & [->|Hh] & He' & ->)]; [tauto|rewrite Ec in He'; naive_solver|].
      destruct (decide (h = c)) as [->|]; [rewrite Ec in He'; naive_solver|]. naive_solver.
    + rewrite Hl, length_app. unfold orphan_len at 1. rewrite Ep, (orphan_len_delete _ _ _ Ec). cbn. lia.
  - specialize (IH adopted s). destruct (foldl adopt_child _ cs) as [adopted' s'].
    destruct IH as (Hp & Ho & Hi & Hc & Ha & Hl). split_and!; [| |done|done| |done].
    + intros h. rewrite Hp. repeat case_bool_decide; set_unfold; naive_solver.
    + intros h. rewrite Ho. destruct (decide (h = c)) as [->|]; set_unfold; [|naive_solver].
      rewrite Ec. split; intros [? Hn]; split; try done; intros [_ []%is_Some_None].
    + intros t. rewrite Ha. set_unfold. naive_solver.
Qed.

Lemma process_run p s : ∃ r s', process_orphans_for_parent p s = (Ok r, s')
  ∧ (∀ h, orphan_pool s' !! h = if bool_decide (h ∈ waiting s p) then None else orphan_pool s !! h)
  ∧ (∀ h, h ∈ fst <$> insertion_order s' ↔ h ∈ fst <$> insertion_order s
        ∧ ¬ (h ∈ waiting s p ∧ is_Some (orphan_pool s !! h)))
  ∧ (∀ q, waiting s' q = if decide (q = p) then [] else waiting s q)
  ∧ orphan_config s' = orphan_config s
  ∧ (∀ t, t ∈ adopted_txs r ↔ ∃ h e, h ∈ waiting s p ∧ orphan_pool s !! h = Some e ∧ t = orphan_tx e)
  ∧ orphan_len s' + adoption_count r = orphan_len s ∧ 0 ≤ adoption_count r.
Proof.
  unfold process_orphans_for_parent. rewrite (method_bind_run get _ s s s) by done.
  pose proof (adopt_children_run (waiting s p) [] (map_index (delete p) s)) as Hr.
  destruct (foldl adopt_child _ _) as [adopted s1]. destruct Hr as (Hp & Ho & Hi & Hc & Ha & Hl).
  eexists _, (map_index drop_empty s1). split; [reflexivity|]. cbn [adopted_txs adoption_count remaining_orphans].
  split_and!; [done|done| |done| |cbn in Hl |- *; unfold orphan_len in *; cbn in *; lia|cbn; lia].
  - intros q. change (missing_input_index (map_index drop_empty s1)) with (drop_empty (missing_input_index s1)).
    rewrite waiting_drop_empty, Hi. cbn. rewrite lookup_delete.
    destruct (decide (q = p)), (decide (p = q)); try congruence; done.
  - intros t. rewrite Ha. set_solver.
Qed.

Lemma process_ok p s : orphans_ok s → orphans_ok (process_orphans_for_parent p s).2.
Proof.
  intros [Ho Hw Hb]. destruct (process_run p s) as (r & s' & -> & Ep & Eo & Ei & Ec & _ & El & Er). cbn [snd]. split.
  - intros h. rewrite Eo, Ho, Ep. case_bool_decide; [|tauto]. split; [tauto|by intros []%is_Some_None].
  - intros h e q. rewrite Ep, Ei. case_bool_decide as Hh; [done|]. intros He Hq.
    destruct (decide (q = p)) as [->|]; [destruct Hh|]; by eapply Hw.
  - rewrite Ec. lia.
Qed.

Section pool.
Context (order : gset key → list key).

Lemma fee_victim_known s hs best : (∀ h, best.1 = Some h → is_Some (orphan_pool s !! h)) →
  ∀ h, (foldl (fee_victim_step s) best hs).1 = Some h → is_Some (orphan_pool s !! h).
Proof.
  revert best; induction hs as [|k hs IH]; intros best Hb; cbn [foldl]; [done|]. apply IH. intros h.
  unfold fee_victim_step. destruct (orphan_pool s !! k) as [e|] eqn:Ek; [|apply Hb].
  destruct (fee_rate e <? best.2); [|apply Hb]. cbn. intros [= <-]. by eexists.
Qed.

(** Eviction takes one orphan out, or there is none to take. *)
Lemma evict_one_run s : orphans_ok s →
  (∃ h e s', orphan_pool s !! h = Some e ∧ _evict_one order s = (Ok tt, s') ∧ orphans_ok s'
     ∧ orphan_pool s' = delete h (orphan_pool s) ∧ orphan_config s' = orphan_config s)
  ∨ _evict_one order s = (Err "No transaction available for eviction", s).
Proof.
  intros Hs. unfold _evict_one. rewrite (method_bind_run get _ s s s) by done.
  destruct (match eviction_policy (orphan_config s) with Fifo => _ | FeeBased => _ end) as [h|] eqn:Ev; [left|by right].
  assert (Hh : is_Some (orphan_pool s !! h)).
  { destruct (eviction_policy (orphan_config s)).
    - unfold _select_fifo_victim in Ev. apply fmap_Some in Ev as (e & He & ->). apply (oo_order _ Hs).
      destruct (insertion_order s) as [|e' l]; [done|]. injection He as ->. left.
    - eapply fee_victim_known; [|exact Ev]. done. }
  destruct Hh as [e He]. pose proof (remove_orphan_ok h s Hs) as Hok.
  destruct (remove_orphan_run h s e He) as (s1 & Er & Ep & _ & Ec & _).
  exists h, e, (map_orphan_stats count_evicted s1). unfold catch. rewrite Er in Hok |- *. split; [done|].
  split; [done|]. split; [|done]. by destruct Hok.
Qed.

Lemma add_orphan_run now now' h tx missing size fee s : orphans_ok s → 0 ≤ max_orphans (orphan_config s) →
  let '(r, s') := add_orphan order now now' h tx missing size fee s in
  orphans_ok s' ∧ orphan_config s' = orphan_config s
  ∧ match r with
    | Ok _ => orphan_pool s' !! h = Some (OrphanEntry_new now tx missing size fee)
    | Err _ => s' = s
    | Panic _ => False
    end.
Proof.
  intros Hs Hmax. unfold add_orphan. rewrite (method_bind_run get _ s s s) by done.
  assert (Hroom : ∀ s0, orphans_ok s0 → orphan_len s0 < max_orphans (orphan_config s0) →
    let s1 := map_orphan_stats (count_added size) (map_index (λ g, foldl (list_missing h) g missing)
      (set_orphans (<[h:=OrphanEntry_new now tx missing size fee]> (orphan_pool s0)) (order_insert h now' (insertion_order s0)) s0)) in
    orphans_ok s1 ∧ orphan_config s1 = orphan_config s0
    ∧ orphan_pool s1 !! h = Some (OrphanEntry_new now tx missing size fee)).
  { intros s0 [Ho Hw Hb] Hlt s1. split_and!; [|done|apply lookup_insert_eq]. split.
    - intros k. change (insertion_order s1) with (order_insert h now' (insertion_order s0)).
      change (orphan_pool s1) with (<[h:=OrphanEntry_new now tx missing size fee]> (orphan_pool s0)).
      rewrite elem_of_order_insert, Ho, lookup_insert_is_Some. destruct (decide (h = k)); naive_solver.
    - intros k e p. change (orphan_pool s1) with (<[h:=OrphanEntry_new now tx missing size fee]> (orphan_pool s0)).
      change (missing_input_index s1) with (foldl (list_missing h) (missing_input_index s0) missing).
      rewrite waiting_list. intros [[-> <-]|[_ He]]%lookup_insert_Some Hp; apply elem_of_app; [right|left; by eapply Hw].
      apply list_elem_of_fmap. exists p. split; [done|]. by apply list_elem_of_filter.
    - change (orphan_len s1) with (Z.of_nat (base.size (<[h:=OrphanEntry_new now tx missing size fee]> (orphan_pool s0)))).
      rewrite map_size_insert. change (orphan_config s1) with (orphan_config s0). unfold orphan_len in Hlt.
      destruct (orphan_pool s0 !! h); unfold Datatypes.id; lia. }
  destruct (Z.leb_spec (max_orphans (orphan_config s)) (orphan_len s)) as [Hfull|Hfree].
  - destruct (evict_one_run s Hs) as [(v & e & s1 & Hv & E1 & Hs1 & Ep & Ec)|E1].
    + rewrite (method_bind_run _ _ _ _ _ E1). rewrite (method_bind_run get _ s1 s1 s1) by done.
      destruct (Hroom s1 Hs1) as (Hok & Hcf & Hl).
      { unfold orphan_len. rewrite Ep, Ec, (orphan_len_delete _ _ _ Hv). pose proof (oo_bound _ Hs). lia. }
      split; [exact Hok|]. split; [by rewrite <- Ec|exact Hl].
    + by rewrite (method_bind_stop _ _ _ _ _ E1).
  - exact (Hroom s Hs Hfree).
Qed.
End pool.

(** The methods that change a manager. *)
Section properties.
Context (order : gset key → list key).

Inductive orphan_step (s : OrphanManager) : OrphanManager → Prop :=
  | step_add_orphan now now' h tx missing size fee :
      orphan_step s (add_orphan order now now' h tx missing size fee s).2
  | step_remove_orphan h : orphan_step s (remove_orphan h s).2
  | step_process_parent p : orphan_step s (process_orphans_for_parent p s).2
  | step_cleanup now : orphan_step s (cleanup_expired order now s).2
  | step_clear_orphans : orphan_step s (clear_orphans s).

Definition bounded_ok (c : OrphanPoolConfig) (s : OrphanManager) : Prop :=
  orphans_ok s ∧ 0 ≤ max_orphans (orphan_config s) ∧ orphan_config s = c.

Lemma remove_orphan_config h s : orphan_config (remove_orphan h s).2 = orphan_config s.
Proof.
  destruct (orphan_pool s !! h) as [e|] eqn:He.
  - by destruct (remove_orphan_run h s e He) as (s' & -> & _ & _ & Ec & _).
  - unfold remove_orphan. rewrite (method_bind_run get _ s s s) by done. by rewrite He.
Qed.
Lemma orphans_cleanup_ok c now s : bounded_ok c s → bounded_ok c (cleanup_expired order now s).2.
Proof.
  intros Hs. unfold cleanup_expired. rewrite (method_bind_run get _ s s s) by done.
  revert Hs. generalize (expired_hashes order now s). intros l Hs.
  set (rm := λ h, catch (remove_orphan h) (λ _, mret (M:=orphans) 1) (λ _, mret 0)).
  assert (Hstep : ∀ h s, ∃ v, rm h s = (Ok v, (remove_orphan h s).2)).
  { intros h s0. unfold rm, catch. destruct (remove_orphan h s0) as [[t|e|p] s1] eqn:Er; [by eexists..|].
    exfalso. destruct (orphan_pool s0 !! h) as [e|] eqn:He.
    - destruct (remove_orphan_run h s0 e He) as (s' & E & _). congruence.
    - unfold remove_orphan in Er. rewrite (method_bind_run get _ s0 s0 s0) in Er by done. by rewrite He in Er. }
  enough (∃ vs s', mapM rm l s = (Ok vs, s') ∧ bounded_ok c s') as (vs & s' & E & Hs').
  { by rewrite (method_bind_run _ _ _ _ _ E). }
  revert s Hs; induction l as [|h l IH]; intros s0 Hs; cbn [mapM]; [by eexists _, s0|].
  destruct (Hstep h s0) as [v Ev]. rewrite (method_bind_run _ _ _ _ _ Ev).
  destruct (IH (remove_orphan h s0).2) as (vs & s' & E & Hs').
  { split; [by apply remove_orphan_ok, Hs|]. rewrite remove_orphan_config. apply Hs. }
  rewrite (method_bind_run _ _ _ _ _ E). by eexists _, s'.
Qed.

Lemma orphan_step_ok c s s' : orphan_step s s' → bounded_ok c s → bounded_ok c s'.
Proof.
  destruct 1 as [now now' h tx missing size fee|h|p|now|]; intros (Hs & Hmax & Hcf).
  - pose proof (add_orphan_run order now now' h tx missing size fee s Hs Hmax) as Hr.
    destruct (add_orphan _ _ _ _ _ _ _ _ s) as [r s']. destruct Hr as (Hok & Hc & _). split; [done|]. cbn. by rewrite Hc.
  - split; [by apply remove_orphan_ok|]. by rewrite remove_orphan_config.
  - split; [by apply process_ok|]. destruct (process_run p s) as (r & s' & -> & _ & _ & _ & Ec & _). cbn. by rewrite Ec.
  - by apply orphans_cleanup_ok.
  - split; [|done]. split; cbn.
    + intros h. rewrite lookup_empty. split; [by intros ?%not_elem_of_nil|by intros []%is_Some_None].
    + intros h e p. by rewrite lookup_empty.
    + unfold orphan_len. cbn. by rewrite map_size_empty.
Qed.
Lemma orphan_steps_ok c s s' : rtc orphan_step s s' → bounded_ok c s → bounded_ok c s'.
Proof. induction 1 as [|s1 s2 s3 Hs _ IH]; [done|]. intros H1. by eapply IH, orphan_step_ok. Qed.
Lemma orphans_new_ok config : 0 ≤ max_orphans config → bounded_ok config (OrphanManager_new config).
Proof.
  intros Hc. split; [|done]. split; cbn.
  - intros h. rewrite lookup_empty. split; [by intros ?%not_elem_of_nil|by intros []%is_Some_None].
  - intros h e p. by rewrite lookup_empty.
  - unfold orphan_len. cbn. by rewrite map_size_empty.
Qed.

(** ** Properties *)

(** C33. Whatever is added, removed, adopted and expired: the pool never holds more than its
    limit, the order of insertion lists exactly the pool, and every orphan is listed
    under each input it misses, so that the arrival of any of them finds it. *)
Theorem orphans_bounded_and_listed config s (Hc : 0 ≤ max_orphans config)
    (Hs : rtc orphan_step (OrphanManager_new config) s) :
  orphan_len s ≤ max_orphans config
  ∧ (∀ h, h ∈ fst <$> insertion_order s ↔ is_Some (orphan_pool s !! h))
  ∧ ∀ h e p, orphan_pool s !! h = Some e → p ∈ missing_inputs e → h ∈ waiting s p.
Proof.
  destruct (orphan_steps_ok _ _ _ Hs (orphans_new_ok config Hc)) as ([Ho Hw Hb] & _ & Ecf). by rewrite Ecf in Hb.
Qed.

(** The arrival of an outpoint, in any reachable manager: every orphan that misses it
    leaves the pool and is handed out, nothing else that is not listed under it
    changes, and afterwards nothing misses it. *)
Theorem process_orphans_for_parent_spec config s p (Hc : 0 ≤ max_orphans config)
    (Hs : rtc orphan_step (OrphanManager_new config) s) :
  ∃ r s', process_orphans_for_parent p s = (Ok r, s')
  ∧ (∀ h e, orphan_pool s !! h = Some e → p ∈ missing_inputs e → orphan_pool s' !! h = None ∧ orphan_tx e ∈ adopted_txs r)
  ∧ (∀ h, h ∉ waiting s p → orphan_pool s' !! h = orphan_pool s !! h)
  ∧ (∀ t, t ∈ adopted_txs r → ∃ h e, h ∈ waiting s p ∧ orphan_pool s !! h = Some e ∧ t = orphan_tx e)
  ∧ (∀ h e, orphan_pool s' !! h = Some e → p ∉ missing_inputs e)
  ∧ orphan_len s' + adoption_count r = orphan_len s.
Proof.
  destruct (orphan_steps_ok _ _ _ Hs (orphans_new_ok config Hc)) as (Hok & _ & _).
  destruct (process_run p s) as (r & s' & E & Ep & _ & _ & _ & Ha & El & _). exists r, s'. split; [done|].
  assert (Hin : ∀ h e, orphan_pool s !! h = Some e → p ∈ missing_inputs e → h ∈ waiting s p).
  { intros h e. apply (oo_waiting _ Hok). }
  split_and!; [| | | |done].
  - intros h e He Hp. specialize (Hin h e He Hp). split; [by rewrite Ep, bool_decide_eq_true_2|]. apply Ha. eauto.
  - intros h Hh. by rewrite Ep, bool_decide_eq_false_2.
  - intros t Ht. by apply Ha.
  - intros h e. rewrite Ep. case_bool_decide as Hh; [done|]. intros He Hp. destruct Hh. by eapply Hin.
Qed.

(** An orphan that misses two outpoints is handed out when the first arrives; it stays
    listed under the other, and the manager's own consistency check fails. *)
Theorem partial_adoption_dangles config s p q h e (Hc : 0 ≤ max_orphans config)
    (Hs : rtc orphan_step (OrphanManager_new config) s)
    (He : orphan_pool s !! h = Some e) (Hp : p ∈ missing_inputs e) (Hq : q ∈ missing_inputs e) (Hne : p ≠ q) :
  ∃ r s', process_orphans_for_parent p s = (Ok r, s') ∧ orphan_tx e ∈ adopted_txs r
  ∧ verify_consistency s' = Err "Orphan child reference mismatch in missing input index".
Proof.
  destruct (orphan_steps_ok _ _ _ Hs (orphans_new_ok config Hc)) as (Hok & _ & _).
  destruct (process_run p s) as (r & s' & E & Ep & _ & Ei & _ & Ha & _). exists r, s'. split; [done|].
  pose proof (oo_waiting _ Hok h e p He Hp) as Hwp. pose proof (oo_waiting _ Hok h e q He Hq) as Hwq.
  split; [apply Ha; eauto|]. unfold verify_consistency. rewrite bool_decide_eq_false_2; [done|]. intros Hall.
  specialize (Ei q). rewrite decide_False in Ei by done. rewrite <- Ei in Hwq.
  destruct (missing_input_index s' !! q) as [cs|] eqn:Eq; [|by apply not_elem_of_nil in Hwq].
  apply (map_Forall_lookup_1 _ _ _ _ Hall) in Eq. rewrite Forall_forall in Eq. apply Eq in Hwq.
  rewrite Ep, bool_decide_eq_true_2 in Hwq by done. by apply is_Some_None in Hwq.
Qed.
End properties.

(** ** Linking *)
Section linking.
Context `{Bincode}.

(** What linking keeps: orphans only leave, and an outpoint nobody waits for stays so. *)
Record drained (ps : list ClaimPoint) (s s' : OrphanManager) : Prop := {
  dr_pool : ∀ h, orphan_pool s' !! h = None ∨ orphan_pool s' !! h = orphan_pool s !! h;
  dr_empty : ∀ p, p ∈ ps ∨ waiting s p = [] → waiting s' p = [];
  dr_ok : orphans_ok s → orphans_ok s'
}.
Lemma drained_refl s : drained [] s s.
Proof. split; [auto|set_solver|done]. Qed.
Lemma drained_trans ps qs s1 s2 s3 : drained ps s1 s2 → drained qs s2 s3 → drained (ps ++ qs) s1 s3.
Proof.
  intros [P1 E1 O1] [P2 E2 O2]. split; [|set_solver|auto].
  intros h. destruct (P2 h) as [?| ->]; auto.
Qed.
Lemma drained_weaken ps s s' : drained ps s s' → drained [] s s'.
Proof. intros [P E O]. split; [done|set_solver|done]. Qed.

Lemma process_drained p s r s' : process_orphans_for_parent p s = (Ok r, s') → drained [p] s s'.
Proof.
  pose proof (process_ok p s) as Hok. destruct (process_run p s) as (r' & s1 & E & Ep & _ & Ei & _).
  rewrite E in Hok |- *. intros [= <- <-]. split.
  - intros h. rewrite Ep. case_bool_decide; auto.
  - intros q [->%list_elem_of_singleton|Hq]; rewrite Ei; [by rewrite decide_True|]. by destruct (decide (q = p)).
  - done.
Qed.

Lemma fold_drained {A B} (f : B → A → method (OrphanManager * Linker) string B) (g : A → list ClaimPoint) l b s b' s' :
  (∀ b x s b' s', f b x s = (Ok b', s') → drained (g x) s.1 s'.1) →
  fold_method f b l s = (Ok b', s') → drained (l ≫= g) s.1 s'.1.
Proof.
  intros Hf. revert b s; induction l as [|x l IH]; intros b s; cbn.
  - intros [= <- <-]. apply drained_refl.
  - intros (b1 & s1 & E1 & E2)%method_bind_ok. eapply drained_trans; [by eapply Hf|by eapply IH].
Qed.

Lemma link_outpoint_drained depth acc p s acc' s' :
  link_outpoint depth acc p s = (Ok acc', s') → drained [p] s.1 s'.1.
Proof.
  unfold link_outpoint. intros (r & s1 & E1 & E2)%method_bind_ok.
  assert (H1 : drained [p] s.1 s1.1).
  { unfold zoom in E1. destruct (process_orphans_for_parent p s.1) as [r' m] eqn:Er. injection E1 as -> <-.
    by eapply process_drained. }
  eapply (fold_drained _ (λ _, [])) in E2.
  - rewrite <- (app_nil_r [p]). eapply drained_trans; [exact H1|]. by eapply drained_weaken.
  - clear. intros b x s b' s'. unfold link_adopted. intros (h & s1 & [= _ <-] & E)%method_bind_ok.
    apply method_bind_ok in E as ([] & s2 & [= <-] & E). apply method_bind_ok in E as (outs & s3 & [= _ <-] & E).
    injection E as _ <-. apply drained_refl.
Qed.
Lemma bind_singletons {A} (k : list A) : k ≫= (λ p, [p]) = k.
Proof. induction k as [|x k IH]; cbn; congruence. Qed.
Lemma link_levels_drained fuel depth ps r s r' s' :
  link_levels fuel depth ps r s = (Ok r', s') → drained (if fuel is O then [] else ps) s.1 s'.1.
Proof.
  revert depth ps r s; induction fuel as [|fuel IH]; intros depth ps r s; cbn [link_levels].
  - intros [= _ <-]. apply drained_refl.
  - destruct ps as [|p ps]; [intros [= _ <-]; apply drained_refl|].
    intros (acc & s1 & E1 & E2)%method_bind_ok. apply IH in E2.
    eapply (fold_drained _ (λ p, [p])) in E1; [|intros; by eapply link_outpoint_drained].
    rewrite bind_singletons in E1. rewrite <- (app_nil_r (p :: ps)).
    eapply drained_trans; [exact E1|]. by eapply drained_weaken.
Qed.

(** An outpoint that has been drained: nobody waits for it, and its arrival finds nobody. *)
Lemma drained_point ps s s' p : drained ps s s' → orphans_ok s → p ∈ ps →
  (∀ h e, orphan_pool s !! h = Some e → p ∈ missing_inputs e → orphan_pool s' !! h = None)
  ∧ ∃ a s'', process_orphans_for_parent p s' = (Ok a, s'') ∧ adopted_txs a = [].
Proof.
  intros [Hpool Hempty Hok'] Hok Hin. assert (Hw : waiting s' p = []) by auto. split.
  - intros h e He Hp. destruct (Hpool h) as [?|Eh]; [done|]. rewrite He in Eh.
    pose proof (oo_waiting _ (Hok' Hok) h e p Eh Hp) as Hh. rewrite Hw in Hh. by apply not_elem_of_nil in Hh.
  - destruct (process_run p s') as (a & s'' & E & _ & _ & _ & _ & Ha & _). exists a, s''. split; [done|].
    destruct (adopted_txs a) as [|t ts]; [done|]. destruct (proj1 (Ha t) ltac:(left)) as (h & e & Hh & _).
    rewrite Hw in Hh. by apply not_elem_of_nil in Hh.
Qed.
(** The outpoint of an output is among those of its transaction. *)
Lemma outpoints_elem tx ps b i o : outpoints_of tx = Ok ps → bincode_hash (id tx) = Some b → outputs tx !! i = Some o →
  {| tx_hash := b; point_index := wrap 32 (Z.of_nat i) |} ∈ ps.
Proof.
  intros Hps Hb Ho. unfold outpoints_of in Hps. assert (Hi : (i, o) ∈ enumerate (outputs tx)).
  { apply (list_elem_of_lookup_2 _ i). by rewrite enumerate_lookup, Ho. }
  clear -Hps Hi Hb. revert ps Hps Hi; induction (enumerate (outputs tx)) as [|x k IH]; intros ps Hps Hi; [by apply not_elem_of_nil in Hi|].
  cbn [mapM] in Hps. apply bind_ok in Hps as (q & Hq & Hps). apply bind_ok in Hps as (qs & Hqs & [= <-]).
  apply elem_of_cons in Hi as [<-|Hi]; [|right; by apply IH].
  unfold serialized in Hq. rewrite Hb in Hq. cbn in Hq. injection Hq as <-. left.
Qed.
Lemma link_drained tx r s s' : (0 < max_chain_depth s.2)%nat → link_orphan_chain tx s = (Ok r, s') →
  ∃ ps, outpoints_of tx = Ok ps ∧ drained ps s.1 s'.1.
Proof.
  intros Hdepth Hlink. unfold link_orphan_chain in Hlink. apply method_bind_ok in Hlink as (ps & s1 & [= Hps <-] & Hlink).
  apply method_bind_ok in Hlink as (s2 & s3 & [= <- <-] & Hlink). apply method_bind_ok in Hlink as (r1 & s4 & El & Hlink).
  apply method_bind_ok in Hlink as ([] & s5 & [= <-] & [= _ <-]). apply link_levels_drained in El.
  destruct (max_chain_depth s.2) as [|n]; [lia|]. by exists ps.
Qed.

(** What linking keeps, from what its two effects keep. *)
Lemma link_preserves (P : OrphanManager * Linker → Prop) tx :
  (∀ p s, P s → P ((process_orphans_for_parent p s.1).2, s.2)) → (∀ h p d s, P s → P (s.1, insert_link h p d s.2)) →
  (∀ r s, P s → P (s.1, count_chain r s.2)) → preserves P (link_orphan_chain tx).
Proof.
  intros Hproc Hins Hcount. assert (Hout : ∀ d acc p, preserves P (link_outpoint d acc p)).
  { intros d acc p. unfold link_outpoint. apply preserves_bind.
    - intros t Ht. unfold zoom. specialize (Hproc p t Ht). by destruct (process_orphans_for_parent p t.1).
    - intros a. apply preserves_fold_method. intros b t. unfold link_adopted. keeps. }
  assert (Hlev : ∀ n d ps r, preserves P (link_levels n d ps r)).
  { induction n as [|n IH]; intros d [|p ps] r; cbn [link_levels]; try apply preserves_ret.
    apply preserves_bind; [by apply preserves_fold_method|done]. }
  unfold link_orphan_chain. apply preserves_bind; [apply preserves_lift|]. intros ps.
  apply preserves_bind; [apply preserves_get|]. intros t. apply preserves_bind; [apply Hlev|]. intros r.
  apply preserves_bind; [|intros; apply preserves_ret]. apply preserves_modify. auto.
Qed.

(** Linking does not fail when hashes can be encoded. *)
Lemma link_succeeds `{!BincodeLaws} tx : succeeds (link_orphan_chain tx).
Proof.
  assert (Hser : ∀ h, is_ok (serialized h) = true) by (intros h; unfold serialized; by rewrite hash_bytes_spec).
  assert (Hpts : ∀ tx, is_ok (outpoints_of tx) = true).
  { intros t. unfold outpoints_of, serialized. rewrite hash_bytes_spec. cbn. induction (enumerate (outputs t)) as [|x l IH]; [done|].
    cbn [mapM]. by destruct (mapM _ l). }
  assert (Hout : ∀ d acc p, succeeds (link_outpoint d acc p)).
  { intros d acc p. unfold link_outpoint. apply succeeds_bind.
    - intros s. unfold zoom. destruct (process_run p s.1) as (r & s' & -> & _). done.
    - intros a. apply succeeds_fold_method. intros b t. unfold link_adopted. apply succeeds_bind; [by apply succeeds_lift|].
      intros h. apply succeeds_bind; [done|]. intros _. apply succeeds_bind; [by apply succeeds_lift|done]. }
  assert (Hlev : ∀ n d ps r, succeeds (link_levels n d ps r)).
  { induction n as [|n IH]; intros d [|p ps] r; cbn [link_levels]; try done.
    apply succeeds_bind; [by apply succeeds_fold_method|done]. }
  unfold link_orphan_chain. apply succeeds_bind; [by apply succeeds_lift|]. intros ps. apply succeeds_bind; [done|].
  intros s. apply succeeds_bind; [apply Hlev|]. done.
Qed.

(** The arrival of a transaction, linked first as the pool does it: every orphan that
    waits for one of its outputs is taken out of the manager, the result carries
    counts only, and the adoption that follows finds nothing for these outputs. *)
Theorem linked_orphans_lost order config s l tx r s' l' b i o
    (Hc : 0 ≤ max_orphans config) (Hs : rtc (orphan_step order) (OrphanManager_new config) s)
    (Hdepth : (0 < max_chain_depth l)%nat)
    (Hlink : link_orphan_chain tx (s, l) = (Ok r, (s', l')))
    (Hb : bincode_hash (id tx) = Some b) (Ho : outputs tx !! i = Some o) :
  let p := {| tx_hash := b; point_index := wrap 32 (Z.of_nat i) |} in
  (∀ h e, orphan_pool s !! h = Some e → p ∈ missing_inputs e → orphan_pool s' !! h = None)
  ∧ ∃ a s'', process_orphans_for_parent p s' = (Ok a, s'') ∧ adopted_txs a = [].
Proof.
  intros p. destruct (orphan_steps_ok order _ _ _ Hs (orphans_new_ok config Hc)) as (Hok & _ & _).
  destruct (link_drained tx r (s, l) (s', l') Hdepth Hlink) as (ps & Hps & Hd).
  pose proof (outpoints_elem tx ps b i o Hps Hb Ho) as Hin. by apply (drained_point ps).
Qed.
End linking.

(** ** Cycles *)
Section cycles.
Context `{Bincode} (order : gset key → list key).

Inductive linker_step (l : Linker) : Linker → Prop :=
  | step_link s tx : linker_step l (link_orphan_chain tx (s, l)).2.2
  | step_detect : linker_step l (detect_circular_dependencies order l).2
  | step_clear_cache : linker_step l (clear_cache l).

Definition childless (l : Linker) : Prop := ∀ h k, chain_cache l !! h = Some k → immediate_children k = [].
Lemma link_childless tx s l : childless l → childless (link_orphan_chain tx (s, l)).2.2.
Proof.
  intros Hl. apply (link_preserves (λ t, childless t.2) tx); [done| |by intros r t Ht k q; apply Ht|done].
  intros h p d t Ht k q. cbn. intros [[_ <-]|[_ Hq]]%lookup_insert_Some; [done|by eapply Ht].
Qed.

Lemma detect_childless l : childless l → (detect_circular_dependencies order l).1 = [].
Proof.
  intros Hl. unfold detect_circular_dependencies.
  assert (Hf : ∀ hs v st, (foldl (detect_step l) ([], v, st) hs).1.1 = []).
  { induction hs as [|h hs IH]; intros v st; cbn [foldl]; [done|].
    unfold detect_step at 2. case_bool_decide; [by apply IH|]. cbn [_dfs_detect_cycle].
    destruct (chain_cache l !! h) as [k|] eqn:Ek; [rewrite (Hl h k Ek)|]; cbn; apply IH. }
  specialize (Hf (order (dom (chain_cache l))) ∅ ∅). by destruct (foldl (detect_step l) _ _) as [[deps v] st].
Qed.

(** The linker records no children, so its search never reports a cycle. *)
Theorem cycles_never_detected max_depth l (Hl : rtc linker_step (Linker_new max_depth) l) :
  (detect_circular_dependencies order l).1 = [].
Proof.
  apply detect_childless. assert (Hn : childless (Linker_new max_depth)) by (intros h k; cbn; by rewrite lookup_empty).
  induction Hl as [|l1 l2 l3 Hs _ IH]; [done|]. apply IH. destruct Hs as [s tx| |].
  - by apply link_childless.
  - unfold detect_circular_dependencies. by destruct (foldl _ _ _) as [[deps v] st].
  - intros h k. cbn. by rewrite lookup_empty.
Qed.
End cycles.

(** ** Witnesses *)
Definition all_hashes : gset key → list key := elements.
Definition point_a : ClaimPoint := {| tx_hash := as_bytes (hash_of 5); point_index := 0 |}.
Definition point_b : ClaimPoint := {| tx_hash := as_bytes (hash_of 6); point_index := 0 |}.
Definition orphan_t (n : Z) : Transaction :=
  {| id := hash_of n; inputs := []; outputs := [{| value := 1; pubkey_hash := hash_of 1 |}];
     execution_payload := []; contract_address := None; gas_limit := 0; max_fee_per_gas := 0; chain_id := 1; locktime := 0 |}.
Definition manager_of_one : OrphanManager :=
  (add_orphan all_hashes 1 2 [x01] (orphan_t 9) [point_a; point_b] 10 100 (OrphanManager_new default_orphan_config)).2.
Lemma manager_of_one_steps : rtc (orphan_step all_hashes) (OrphanManager_new default_orphan_config) manager_of_one.
Proof. apply rtc_once. apply (step_add_orphan all_hashes _ 1 2 [x01] (orphan_t 9) [point_a; point_b] 10 100). Qed.
Definition entry_of_one : OrphanEntry := OrphanEntry_new 1 (orphan_t 9) [point_a; point_b] 10 100.
Lemma manager_of_one_entry : orphan_pool manager_of_one !! [x01] = Some entry_of_one.
Proof. vm_compute. reflexivity. Qed.

Lemma orphans_bounded_and_listed_witness :
  rtc (orphan_step all_hashes) (OrphanManager_new default_orphan_config) manager_of_one
  ∧ orphan_len manager_of_one ≤ 5000 ∧ [x01] ∈ waiting manager_of_one point_b.
Proof.
  split; [exact manager_of_one_steps|].
  destruct (orphans_bounded_and_listed all_hashes default_orphan_config manager_of_one ltac:(vm_compute; discriminate) manager_of_one_steps)
    as (Hb & _ & Hw).
  split; [exact Hb|]. apply (Hw [x01] entry_of_one point_b); [exact manager_of_one_entry|right; left].
Defined.

Lemma process_orphans_for_parent_spec_witness :
  orphan_pool manager_of_one !! [x01] = Some entry_of_one
  ∧ orphan_pool (process_orphans_for_parent point_a manager_of_one).2 !! [x01] = None.
Proof.
  split; [exact manager_of_one_entry|].
  destruct (process_orphans_for_parent_spec all_hashes default_orphan_config manager_of_one point_a ltac:(vm_compute; discriminate)
    manager_of_one_steps) as (r & s' & E & Hp & _).
  rewrite E. destruct (Hp [x01] entry_of_one manager_of_one_entry) as [Hn _]; [left|exact Hn].
Defined.

Lemma partial_adoption_dangles_witness :
  ∃ r s', process_orphans_for_parent point_a manager_of_one = (Ok r, s')
  ∧ verify_consistency s' = Err "Orphan child reference mismatch in missing input index".
Proof.
  destruct (partial_adoption_dangles all_hashes default_orphan_config manager_of_one point_a point_b [x01] entry_of_one
    ltac:(vm_compute; discriminate) manager_of_one_steps manager_of_one_entry) as (r & s' & E & _ & Hv).
  - left.
  - right; left.
  - discriminate.
  - exists r, s'. split; [exact E|exact Hv].
Defined.

Lemma linked_orphans_lost_witness :
  (link_orphan_chain (H:=plain_bincode) (orphan_t 5) (manager_of_one, Linker_new 10)).1 = Ok {| total_adopted := 1; maximum_depth := 2 |}
  ∧ orphan_pool (link_orphan_chain (H:=plain_bincode) (orphan_t 5) (manager_of_one, Linker_new 10)).2.1 !! [x01] = None.
Proof.
  assert (E1 : (link_orphan_chain (H:=plain_bincode) (orphan_t 5) (manager_of_one, Linker_new 10)).1 = Ok {| total_adopted := 1; maximum_depth := 2 |})
    by (vm_compute; reflexivity).
  split; [exact E1|]. destruct (link_orphan_chain (H:=plain_bincode) (orphan_t 5) (manager_of_one, Linker_new 10)) as [r [s' l']] eqn:E.
  cbn [fst snd] in E1 |- *. subst r.
  destruct (linked_orphans_lost (H:=plain_bincode) all_hashes default_orphan_config manager_of_one (Linker_new 10) (orphan_t 5) _ s' l'
    (as_bytes (hash_of 5)) 0 {| value := 1; pubkey_hash := hash_of 1 |} ltac:(vm_compute; discriminate) manager_of_one_steps
    ltac:(cbn; lia) E ltac:(reflexivity) ltac:(reflexivity)) as [Hl _].
  apply (Hl [x01] entry_of_one manager_of_one_entry). left.
Defined.

Lemma cycles_never_detected_witness :
  let l := (link_orphan_chain (H:=plain_bincode) (orphan_t 5) (manager_of_one, Linker_new 10)).2.2 in
  (detect_circular_dependencies all_hashes l).1 = [].
Proof.
  intros l. apply (cycles_never_detected (H:=plain_bincode) all_hashes 10). apply rtc_once.
  apply (step_link all_hashes (Linker_new 10) manager_of_one (orphan_t 5)).
Defined.
