(* ===== verification/PriorityScheduler.v ===== *)
(** * The priority scheduler

    [mempool/priority_scheduler.rs] of klomang-node: a score from the fee rate and the
    age of a transaction, kept beside its arrival time.  Readings of the clock are
    arguments, and so is the order in which the maps are iterated. *)

From Stdlib Require Import Init.Byte Floats.SpecFloat.
From stdpp Require Import gmap.
From S2P Require Import Prelude Pow NodePrelude F64.

Abbreviation key := (list byte).

Record PrioritySchedulerConfig := {
  fee_weight : f64;
  age_weight : f64;
  age_boost_interval_secs : Z;
  max_age_boost_value : Z;
  scheduler_update_interval_secs : Z
}.
(** 0.7, 0.3 *)
Definition default_fee_weight : f64 := S754_finite false 6305039478318694 (-53).
Definition default_age_weight : f64 := S754_finite false 5404319552844595 (-54).
Definition default_scheduler_config : PrioritySchedulerConfig :=
  {| fee_weight := default_fee_weight; age_weight := default_age_weight; age_boost_interval_secs := 600;
     max_age_boost_value := 1000; scheduler_update_interval_secs := 30 |}.

Record DynamicPriority := {
  score : f64;
  fee_rate : Z;
  age_secs : Z;
  age_boost_count : Z;
  last_update : Z;
  prio_hash : key
}.

(** The number of intervals waited, capped; an interval of zero divides by zero, and
    unwinds after the age has been stored, which is left out here. *)
Definition boosts (age_secs : Z) (config : PrioritySchedulerConfig) : outcome string Z :=
  if age_boost_interval_secs config =? 0 then Panic "attempt to divide by zero"
  else Ok (Z.min (age_secs / age_boost_interval_secs config) (max_age_boost_value config)).
Definition calculate_score (fee_rate age_secs : Z) (config : PrioritySchedulerConfig) : outcome string f64 :=
  let fee_component := f64_mul (f64_of_Z fee_rate) (fee_weight config) in
  boost_count ← boosts age_secs config;
  mret (f64_add fee_component (f64_mul (f64_of_Z boost_count) (age_weight config))).

Definition DynamicPriority_new (now : Z) (tx_hash : key) (fee_rate arrival_time : Z) : outcome string DynamicPriority :=
  let age_secs := sat_sub now arrival_time in
  score ← calculate_score fee_rate age_secs default_scheduler_config;
  mret {| score := score; fee_rate := fee_rate; age_secs := age_secs; age_boost_count := 0; last_update := now;
          prio_hash := tx_hash |}.
Definition update_with_elapsed_time (current_time arrival_time : Z) (config : PrioritySchedulerConfig)
    (p : DynamicPriority) : outcome string DynamicPriority :=
  let age_secs := sat_sub current_time arrival_time in
  count ← boosts age_secs config;
  score ← calculate_score (fee_rate p) age_secs config;
  mret {| score := score; fee_rate := fee_rate p; age_secs := age_secs; age_boost_count := count;
          last_update := current_time; prio_hash := prio_hash p |}.
Definition update_with_fee_rate (new_fee_rate current_time : Z) (config : PrioritySchedulerConfig)
    (p : DynamicPriority) : outcome string DynamicPriority :=
  score ← calculate_score new_fee_rate (age_secs p) config;
  mret {| score := score; fee_rate := new_fee_rate; age_secs := age_secs p; age_boost_count := age_boost_count p;
          last_update := current_time; prio_hash := prio_hash p |}.
Definition as_u64_priority (p : DynamicPriority) : Z :=
  f64_trunc_u64 (f64_min (f64_mul (score p) (f64_of_Z 100)) (f64_of_Z u64_max)).

Record PriorityScheduler := {
  sched_config : PrioritySchedulerConfig;
  priorities : gmap key DynamicPriority;
  arrival_times : gmap key Z;
  sched_last_update : Z;
  update_count : Z
}.
Definition PriorityScheduler_new (now : Z) (config : PrioritySchedulerConfig) : PriorityScheduler :=
  {| sched_config := config; priorities := ∅; arrival_times := ∅; sched_last_update := now; update_count := 0 |}.
Definition set_priorities (p : gmap key DynamicPriority) (s : PriorityScheduler) : PriorityScheduler :=
  {| sched_config := sched_config s; priorities := p; arrival_times := arrival_times s;
     sched_last_update := sched_last_update s; update_count := update_count s |}.
Definition set_arrivals (a : gmap key Z) (s : PriorityScheduler) : PriorityScheduler :=
  {| sched_config := sched_config s; priorities := priorities s; arrival_times := a;
     sched_last_update := sched_last_update s; update_count := update_count s |}.

Abbreviation scheduling := (method PriorityScheduler string).

Definition register_transaction (now : Z) (tx_hash : key) (fee_rate arrival_time : Z) : scheduling unit :=
  priority ← lift (DynamicPriority_new now tx_hash fee_rate arrival_time);
  _ ← modify (λ s, set_priorities (<[tx_hash := priority]> (priorities s)) s);
  modify (λ s, set_arrivals (<[tx_hash := arrival_time]> (arrival_times s)) s).
Definition unregister_transaction (tx_hash : key) (s : PriorityScheduler) : PriorityScheduler :=
  set_arrivals (delete tx_hash (arrival_times s)) (set_priorities (delete tx_hash (priorities s)) s).

Definition calculate_dynamic_priority (now : Z) (tx_hash : key) : scheduling (option DynamicPriority) :=
  s ← get;
  match arrival_times s !! tx_hash, priorities s !! tx_hash with
  | Some arrival_time, Some priority =>
      priority ← lift (update_with_elapsed_time now arrival_time (sched_config s) priority);
      _ ← put (set_priorities (<[tx_hash := priority]> (priorities s)) s);
      mret (Some priority)
  | _, _ => mret None
  end.

(** One turn of the loop of the scheduled update. *)
Definition refresh (now : Z) (config : PrioritySchedulerConfig) (count : Z) (h : key) : scheduling Z :=
  s ← get;
  match arrival_times s !! h, priorities s !! h with
  | Some arrival_time, Some priority =>
      priority ← lift (update_with_elapsed_time now arrival_time config priority);
      _ ← put (set_priorities (<[h := priority]> (priorities s)) s);
      mret (count + 1)
  | _, _ => mret count
  end.

(** A lock as the thread that runs the method holds it.  [write] on a lock the same
    thread reads waits for itself: [None] is a call that does not return. *)
Definition lock_write (held_readers : nat) : option unit :=
  if bool_decide (held_readers = 0%nat) then Some tt else None.

Section order.
Context (order : gset key → list key).

(** [*self.update_count.write() = self.update_count.read().saturating_add(1)]: the
    right side is evaluated first, and its guard lives to the end of the statement. *)
Definition increase_update_count (s : PriorityScheduler) : option PriorityScheduler :=
  let held_readers := 1%nat in
  let value := sat_add 64 (update_count s) 1 in
  _ ← lock_write held_readers;
  Some {| sched_config := sched_config s; priorities := priorities s; arrival_times := arrival_times s;
          sched_last_update := sched_last_update s; update_count := value |}.
Definition perform_scheduled_update (now : Z) (s : PriorityScheduler) : option (outcome string Z * PriorityScheduler) :=
  let config := sched_config s in
  if sat_sub now (sched_last_update s) <? scheduler_update_interval_secs config then Some (Ok 0, s)
  else
    match fold_method (refresh now config) 0 (order (dom (arrival_times s))) s with
    | (Ok updated_count, s) =>
        let s := {| sched_config := sched_config s; priorities := priorities s; arrival_times := arrival_times s;
                    sched_last_update := now; update_count := update_count s |} in
        s ← increase_update_count s; Some (Ok updated_count, s)
    | (r, s) => Some (r, s)
    end.

Definition update_transaction_fee (now : Z) (tx_hash : key) (new_fee_rate : Z) : scheduling unit :=
  s ← get;
  match priorities s !! tx_hash with
  | Some priority =>
      priority ← lift (update_with_fee_rate new_fee_rate now (sched_config s) priority);
      put (set_priorities (<[tx_hash := priority]> (priorities s)) s)
  | None => mret tt
  end.
Definition get_priority (tx_hash : key) (s : PriorityScheduler) : option DynamicPriority := priorities s !! tx_hash.
Definition update_priority (now : Z) (tx_hash : key) (score_delta : Z) (s : PriorityScheduler) : PriorityScheduler :=
  match priorities s !! tx_hash with
  | Some p =>
      let p := {| score := f64_max (f64_add (score p) (f64_of_Z score_delta)) (S754_zero false); fee_rate := fee_rate p;
                  age_secs := age_secs p; age_boost_count := age_boost_count p; last_update := now;
                  prio_hash := prio_hash p |} in
      set_priorities (<[tx_hash := p]> (priorities s)) s
  | None => s
  end.

(** The entries of the map in the order of iteration, and the orders of the queries;
    scores that do not compare count as equal. *)
Definition entries (s : PriorityScheduler) : list (key * DynamicPriority) :=
  omap (λ h, p ← priorities s !! h; Some (h, p)) (order (dom (priorities s))).
Definition score_leb (a b : key * DynamicPriority) : bool :=
  match default Eq (SFcompare (score b.2) (score a.2)) with Gt => false | _ => true end.
Definition priority_leb (a b : key * DynamicPriority) : bool :=
  match default Eq (SFcompare (score b.2) (score a.2)) with
  | Lt => true
  | Eq => bytes_leb (prio_hash a.2) (prio_hash b.2)
  | Gt => false
  end.
Definition boost_leb (a b : key * DynamicPriority) : bool :=
  match age_boost_count b.2 ?= age_boost_count a.2 with
  | Lt => true
  | Eq => score_leb a b
  | Gt => false
  end.
Definition get_all_by_priority (s : PriorityScheduler) : list (key * DynamicPriority) := sort_by priority_leb (entries s).
Definition get_by_fee_range (min_fee max_fee : Z) (s : PriorityScheduler) : list (key * DynamicPriority) :=
  sort_by score_leb (filter (λ e, min_fee ≤ fee_rate e.2 ≤ max_fee) (entries s)).
Definition get_by_minimum_age (min_age_secs : Z) (s : PriorityScheduler) : list (key * DynamicPriority) :=
  sort_by score_leb (filter (λ e, min_age_secs ≤ age_secs e.2) (entries s)).
Definition get_high_boost_transactions (s : PriorityScheduler) : list (key * DynamicPriority) :=
  let threshold := max_age_boost_value (sched_config s) / 2 in
  sort_by boost_leb (filter (λ e, threshold < age_boost_count e.2) (entries s)).
End order.

Definition get_scheduler_stats (s : PriorityScheduler) : Z * Z * Z :=
  (update_count s, sched_last_update s, Z.of_nat (size (priorities s))).
Definition update_config (config : PrioritySchedulerConfig) (s : PriorityScheduler) : PriorityScheduler :=
  {| sched_config := config; priorities := priorities s; arrival_times := arrival_times s;
     sched_last_update := sched_last_update s; update_count := update_count s |}.
Definition reset_scheduler (now : Z) (s : PriorityScheduler) : PriorityScheduler :=
  {| sched_config := sched_config s; priorities := ∅; arrival_times := ∅; sched_last_update := now; update_count := 0 |}.

(** ** The builder *)
Definition f64_unit_clamp (x : f64) : f64 := f64_min (f64_max x (S754_zero false)) (f64_of_Z 1).
Definition with_fee_weight (w : f64) (c : PrioritySchedulerConfig) : PrioritySchedulerConfig :=
  {| fee_weight := f64_unit_clamp w; age_weight := age_weight c; age_boost_interval_secs := age_boost_interval_secs c;
     max_age_boost_value := max_age_boost_value c; scheduler_update_interval_secs := scheduler_update_interval_secs c |}.
Definition with_age_weight (w : f64) (c : PrioritySchedulerConfig) : PrioritySchedulerConfig :=
  {| fee_weight := fee_weight c; age_weight := f64_unit_clamp w; age_boost_interval_secs := age_boost_interval_secs c;
     max_age_boost_value := max_age_boost_value c; scheduler_update_interval_secs := scheduler_update_interval_secs c |}.
Definition with_age_boost_interval (secs : Z) (c : PrioritySchedulerConfig) : PrioritySchedulerConfig :=
  {| fee_weight := fee_weight c; age_weight := age_weight c; age_boost_interval_secs := Z.max secs 60;
     max_age_boost_value := max_age_boost_value c; scheduler_update_interval_secs := scheduler_update_interval_secs c |}.
Definition with_max_age_boost (v : Z) (c : PrioritySchedulerConfig) : PrioritySchedulerConfig :=
  {| fee_weight := fee_weight c; age_weight := age_weight c; age_boost_interval_secs := age_boost_interval_secs c;
     max_age_boost_value := v; scheduler_update_interval_secs := scheduler_update_interval_secs c |}.
Definition with_scheduler_interval (secs : Z) (c : PrioritySchedulerConfig) : PrioritySchedulerConfig :=
  {| fee_weight := fee_weight c; age_weight := age_weight c; age_boost_interval_secs := age_boost_interval_secs c;
     max_age_boost_value := max_age_boost_value c; scheduler_update_interval_secs := Z.max secs 10 |}.

(** ** Properties *)
Section properties.
Context (order : gset key → list key).

Inductive scheduler_step (s : PriorityScheduler) : PriorityScheduler → Prop :=
  | step_register now h rate arrival : scheduler_step s (register_transaction now h rate arrival s).2
  | step_unregister h : scheduler_step s (unregister_transaction h s)
  | step_calculate now h : scheduler_step s (calculate_dynamic_priority now h s).2
  | step_scheduled now r s' : perform_scheduled_update order now s = Some (r, s') → scheduler_step s s'
  | step_fee now h rate : scheduler_step s (update_transaction_fee now h rate s).2
  | step_priority now h d : scheduler_step s (update_priority now h d s)
  | step_config c : scheduler_step s (update_config c s)
  | step_reset now : scheduler_step s (reset_scheduler now s).

Definition tracked (s : PriorityScheduler) : Prop :=
  dom (priorities s) = dom (arrival_times s) ∧ ∀ h p, priorities s !! h = Some p → prio_hash p = h.

Lemma tracked_update h p p' s : priorities s !! h = Some p → prio_hash p' = prio_hash p →
  tracked s → tracked (set_priorities (<[h := p']> (priorities s)) s).
Proof.
  intros Hp Hh [Hd Hk]. split.
  - cbn. rewrite <- Hd. apply dom_insert_lookup_L. by rewrite Hp.
  - intros k q. cbn. intros [[<- <-]|[_ Hq]]%lookup_insert_Some; [|by apply Hk]. rewrite Hh. by apply Hk.
Qed.
Lemma elapsed_hash now arrival c p p' : update_with_elapsed_time now arrival c p = Ok p' → prio_hash p' = prio_hash p.
Proof. unfold update_with_elapsed_time. intros (n & _ & E)%bind_ok. apply bind_ok in E as (x & _ & E). by injection E as <-. Qed.

Lemma refresh_tracked now c b h : preserves tracked (refresh now c b h).
Proof.
  intros s Hs. unfold refresh. rewrite (method_bind_run get _ s s s) by done.
  destruct (arrival_times s !! h) as [a|], (priorities s !! h) as [p|] eqn:Ep; try done.
  destruct (update_with_elapsed_time now a c p) as [p'|e|x] eqn:Eu; [|done|done].
  rewrite (method_bind_run (lift (Ok p')) _ s p' s) by done. cbn. eapply tracked_update; [done|by eapply elapsed_hash|done].
Qed.

Lemma scheduler_step_tracked s s' : scheduler_step s s' → tracked s → tracked s'.
Proof.
  intros Hstep Hs. destruct Hstep as [now h rate arrival|h|now h|now r s' E|now h rate|now h d|c|now].
  - unfold register_transaction. destruct (DynamicPriority_new now h rate arrival) as [p|e|x] eqn:En; [|done|done].
    unfold DynamicPriority_new in En. apply bind_ok in En as (sc & _ & En). injection En as <-.
    destruct Hs as [Hd Hk]. split.
    + set (q := {| score := sc |}). change (dom (<[h := q]> (priorities s)) = dom (<[h := arrival]> (arrival_times s))).
      by rewrite !dom_insert_L, Hd.
    + intros k q. set (q0 := {| score := sc |}). change (<[h := q0]> (priorities s) !! k = Some q → prio_hash q = k).
      intros [[<- <-]|[_ Hq]]%lookup_insert_Some; [done|by apply Hk].
  - destruct Hs as [Hd Hk]. split; cbn; [by rewrite !dom_delete_L, Hd|].
    intros k q [_ Hq]%lookup_delete_Some. by apply Hk.
  - unfold calculate_dynamic_priority. rewrite (method_bind_run get _ s s s) by done.
    destruct (arrival_times s !! h) as [a|], (priorities s !! h) as [p|] eqn:Ep; try done.
    destruct (update_with_elapsed_time now a (sched_config s) p) as [p'|e|x] eqn:Eu; [|done|done].
    rewrite (method_bind_run (lift (Ok p')) _ s p' s) by done. cbn. eapply tracked_update; [done|by eapply elapsed_hash|done].
  - unfold perform_scheduled_update in E. destruct (_ <? _); [by injection E as _ <-|].
    pose proof (preserves_fold_method tracked (refresh now (sched_config s)) 0 (order (dom (arrival_times s)))
      (refresh_tracked now (sched_config s)) s Hs) as Hf.
    destruct (fold_method _ _ _ s) as [[n|e|x] s1]; [done|by injection E as _ <-|by injection E as _ <-].
  - unfold update_transaction_fee. rewrite (method_bind_run get _ s s s) by done.
    destruct (priorities s !! h) as [p|] eqn:Ep; [|done].
    destruct (update_with_fee_rate rate now (sched_config s) p) as [p'|e|x] eqn:Eu; [|done|done].
    unfold update_with_fee_rate in Eu. apply bind_ok in Eu as (sc & _ & Eu). injection Eu as <-.
    rewrite (method_bind_run (lift (Ok _)) _ s _ s) by done. cbn. by eapply tracked_update.
  - unfold update_priority. destruct (priorities s !! h) as [p|] eqn:Ep; [|done]. by eapply tracked_update.
  - done.
  - split; [done|]. intros h p. cbn. by rewrite lookup_empty.
Qed.

(** The two maps have the same keys and a priority is filed under its own hash,
    whatever is called. *)
Theorem scheduler_tracks_once now config s (Hs : rtc scheduler_step (PriorityScheduler_new now config) s) :
  dom (priorities s) = dom (arrival_times s) ∧ ∀ h p, priorities s !! h = Some p → prio_hash p = h.
Proof.
  assert (Hn : tracked (PriorityScheduler_new now config)) by (split; [done|]; intros h p; cbn; by rewrite lookup_empty).
  change (tracked s). induction Hs as [|s1 s2 s3 H12 _ IH]; [done|]. by apply IH, (scheduler_step_tracked s1).
Qed.

(** The scheduled update returns a count only when it is not due, and then it has done
    nothing: a due update waits for the lock its own statement holds. *)
Theorem due_update_never_returns now s n s' (Hret : perform_scheduled_update order now s = Some (Ok n, s')) :
  sat_sub now (sched_last_update s) < scheduler_update_interval_secs (sched_config s) ∧ n = 0 ∧ s' = s.
Proof.
  unfold perform_scheduled_update in Hret.
  destruct (Z.ltb_spec (sat_sub now (sched_last_update s)) (scheduler_update_interval_secs (sched_config s))) as [Hlt|Hge].
  - by injection Hret as <- <-.
  - by destruct (fold_method _ _ _ s) as [[m|e|x] s1].
Qed.
End properties.

(** ** Witnesses *)
Lemma scheduler_tracks_once_witness :
  let s := (register_transaction 100 [x01] 5 90 (PriorityScheduler_new 100 default_scheduler_config)).2 in
  is_Some (priorities s !! [x01]) ∧ dom (priorities s) = dom (arrival_times s).
Proof.
  intros s. split; [vm_compute; by eexists|].
  apply (scheduler_tracks_once elements 100 default_scheduler_config s).
  apply rtc_once. apply (step_register elements _ 100 [x01] 5 90).
Defined.
Lemma due_update_never_returns_witness :
  perform_scheduled_update elements 110 (PriorityScheduler_new 100 default_scheduler_config)
    = Some (Ok 0, PriorityScheduler_new 100 default_scheduler_config)
  ∧ sat_sub 110 (sched_last_update (PriorityScheduler_new 100 default_scheduler_config)) < 30.
Proof.
  split; [reflexivity|].
  apply (due_update_never_returns elements 110 (PriorityScheduler_new 100 default_scheduler_config) 0 _ eq_refl).
Defined.
