(* ===== verification/MultiIndex.v ===== *)
(** * The multi-dimensional index

    [mempool/multi_dimensional_index.rs] of klomang-node: one map by hash and three
    ordered maps, by fee rate, by arrival and by number of dependents.  A [BTreeMap] is
    a finite map that is traversed in the order of its keys. *)

From Stdlib Require Import Init.Byte.
From stdpp Require Import gmap.
From S2P Require Import Prelude NodePrelude.

Abbreviation key := (list byte).

Record IndexedTransaction := {
  it_hash : key;
  it_fee_rate : Z;
  it_arrival_time : Z;
  it_dependency_count : Z;
  it_size_bytes : Z;
  it_total_fee : Z
}.
#[global] Instance IndexedTransaction_eq_dec : EqDecision IndexedTransaction.
Proof. solve_decision. Defined.

Record IndexStats := {
  total_transactions : Z;
  insertions : Z;
  removals : Z;
  updates : Z;
  economic_queries : Z;
  temporal_queries : Z;
  structural_queries : Z
}.
Definition no_index_stats : IndexStats :=
  {| total_transactions := 0; insertions := 0; removals := 0; updates := 0; economic_queries := 0;
     temporal_queries := 0; structural_queries := 0 |}.

Abbreviation dimension := (gmap (Z * key) IndexedTransaction).
Record MultiIndex := {
  by_hash : gmap key IndexedTransaction;
  economic_index : dimension;
  temporal_index : dimension;
  structural_index : dimension;
  index_stats : IndexStats
}.
Definition MultiIndex_new : MultiIndex :=
  {| by_hash := ∅; economic_index := ∅; temporal_index := ∅; structural_index := ∅; index_stats := no_index_stats |}.

Definition count_insertion (st : IndexStats) : IndexStats :=
  {| total_transactions := wadd 64 (total_transactions st) 1; insertions := wadd 64 (insertions st) 1;
     removals := removals st; updates := updates st; economic_queries := economic_queries st;
     temporal_queries := temporal_queries st; structural_queries := structural_queries st |}.
Definition count_removal (st : IndexStats) : IndexStats :=
  {| total_transactions := sat_sub (total_transactions st) 1; insertions := insertions st;
     removals := wadd 64 (removals st) 1; updates := updates st; economic_queries := economic_queries st;
     temporal_queries := temporal_queries st; structural_queries := structural_queries st |}.
Definition count_update (st : IndexStats) : IndexStats :=
  {| total_transactions := total_transactions st; insertions := insertions st; removals := removals st;
     updates := wadd 64 (updates st) 1; economic_queries := economic_queries st;
     temporal_queries := temporal_queries st; structural_queries := structural_queries st |}.
Definition count_queries (eco temp str : Z) (st : IndexStats) : IndexStats :=
  {| total_transactions := total_transactions st; insertions := insertions st; removals := removals st;
     updates := updates st; economic_queries := wadd 64 (economic_queries st) eco;
     temporal_queries := wadd 64 (temporal_queries st) temp;
     structural_queries := wadd 64 (structural_queries st) str |}.
Definition map_index_stats (f : IndexStats → IndexStats) (s : MultiIndex) : MultiIndex :=
  {| by_hash := by_hash s; economic_index := economic_index s; temporal_index := temporal_index s;
     structural_index := structural_index s; index_stats := f (index_stats s) |}.

(** ** Operations *)
Definition insert (tx : IndexedTransaction) (s : MultiIndex) : MultiIndex :=
  let h := it_hash tx in
  {| by_hash := <[h := tx]> (by_hash s);
     economic_index := <[(it_fee_rate tx, h) := tx]> (economic_index s);
     temporal_index := <[(it_arrival_time tx, h) := tx]> (temporal_index s);
     structural_index := <[(it_dependency_count tx, h) := tx]> (structural_index s);
     index_stats := count_insertion (index_stats s) |}.
Definition remove (h : key) (s : MultiIndex) : option IndexedTransaction * MultiIndex :=
  match by_hash s !! h with
  | Some tx =>
      (Some tx,
       {| by_hash := delete h (by_hash s);
          economic_index := delete (it_fee_rate tx, h) (economic_index s);
          temporal_index := delete (it_arrival_time tx, h) (temporal_index s);
          structural_index := delete (it_dependency_count tx, h) (structural_index s);
          index_stats := count_removal (index_stats s) |})
  | None => (None, s)
  end.
Definition update (tx : IndexedTransaction) (s : MultiIndex) : MultiIndex :=
  map_index_stats count_update (insert tx (remove (it_hash tx) s).2).
Definition get_by_hash (h : key) (s : MultiIndex) : option IndexedTransaction := by_hash s !! h.
Definition all_count (s : MultiIndex) : Z := Z.of_nat (size (by_hash s)).
Definition all_transactions (s : MultiIndex) : list IndexedTransaction := (map_to_list (by_hash s)).*2.
Definition reset_index (s : MultiIndex) : MultiIndex := MultiIndex_new.

(** The order of the keys: ascending, or [Reverse] in the first component. *)
Definition key_leb (descending : bool) (a b : Z * key) : bool :=
  match (if descending then b.1 ?= a.1 else a.1 ?= b.1) with
  | Lt => true
  | Eq => bytes_leb a.2 b.2
  | Gt => false
  end.
Definition traverse (descending : bool) (m : dimension) : list ((Z * key) * IndexedTransaction) :=
  sort_by (λ x y, key_leb descending x.1 y.1) (map_to_list m).

Fixpoint take_while {A} (p : A → bool) (l : list A) : list A :=
  match l with [] => [] | x :: l => if p x then x :: take_while p l else [] end.
Fixpoint skip_while {A} (p : A → bool) (l : list A) : list A :=
  match l with [] => [] | x :: l' => if p x then skip_while p l' else l end.

(** ** Queries: the result and the counted query *)
Abbreviation query := (MultiIndex → list IndexedTransaction * MultiIndex).
Definition query_economic_range (min_fee max_fee : Z) : query := λ s,
  (filter (λ tx, min_fee ≤ it_fee_rate tx ≤ max_fee) (traverse true (economic_index s)).*2,
   map_index_stats (count_queries 1 0 0) s).
Definition query_economic_top_n (limit : nat) : query := λ s,
  ((take limit (traverse true (economic_index s))).*2, map_index_stats (count_queries 1 0 0) s).
Definition query_temporal_before (timestamp : Z) : query := λ s,
  ((take_while (λ e, e.1.1 <=? timestamp) (traverse false (temporal_index s))).*2,
   map_index_stats (count_queries 0 1 0) s).
Definition query_temporal_after (timestamp : Z) : query := λ s,
  ((skip_while (λ e, e.1.1 <=? timestamp) (traverse false (temporal_index s))).*2,
   map_index_stats (count_queries 0 1 0) s).
Definition query_temporal_range (start_time end_time : Z) : query := λ s,
  ((filter (λ e, start_time ≤ e.1.1 ≤ end_time) (traverse false (temporal_index s))).*2,
   map_index_stats (count_queries 0 1 0) s).
Definition query_structural_min_dependents (min_dependencies : Z) : query := λ s,
  ((take_while (λ e, min_dependencies <=? e.1.1) (traverse true (structural_index s))).*2,
   map_index_stats (count_queries 0 0 1) s).
Definition query_structural_top_hubs (limit : nat) : query := λ s,
  ((take limit (traverse true (structural_index s))).*2, map_index_stats (count_queries 0 0 1) s).
(** [order] is the order in which the map by hash is iterated; the sort is stable. *)
Definition query_combined (order : gset key → list key) (min_fee max_fee start_time end_time min_dependencies : Z) : query := λ s,
  (sort_by (λ a b, it_fee_rate b <=? it_fee_rate a)
     (filter (λ tx, min_fee ≤ it_fee_rate tx ≤ max_fee ∧ start_time ≤ it_arrival_time tx ≤ end_time
                    ∧ min_dependencies ≤ it_dependency_count tx)
        (omap (λ h, by_hash s !! h) (order (dom (by_hash s))))),
   map_index_stats (count_queries 1 1 1) s).

(** ** The indexes agree *)
Definition indexes (f : IndexedTransaction → Z) (s : MultiIndex) (m : dimension) : Prop :=
  ∀ r h t, m !! (r, h) = Some t ↔ by_hash s !! h = Some t ∧ f t = r.
Record index_ok (s : MultiIndex) : Prop := {
  ix_hash : ∀ h t, by_hash s !! h = Some t → it_hash t = h;
  ix_economic : indexes it_fee_rate s (economic_index s);
  ix_temporal : indexes it_arrival_time s (temporal_index s);
  ix_structural : indexes it_dependency_count s (structural_index s)
}.

Lemma index_new_ok : index_ok MultiIndex_new.
Proof. split; [intros h t|intros r h t..]; cbn; rewrite !lookup_empty; naive_solver. Qed.

Lemma indexes_insert f tx s m : by_hash s !! it_hash tx = None → indexes f s m →
  indexes f (insert tx s) (<[(f tx, it_hash tx) := tx]> m).
Proof.
  intros Hn Hm r h t. cbn. rewrite !lookup_insert_Some. specialize (Hm r h t).
  destruct (decide (it_hash tx = h)) as [<-|Hh].
  - split.
    + intros [[[= <-] <-]|[Hne Hr]]; [auto|]. apply Hm in Hr as [Hr _]. congruence.
    + intros [[[_ <-]|[? _]] <-]; [auto|done].
  - split; [intros [[[= _ E] _]|[_ Hr]]; [done|]; apply Hm in Hr as [??]; auto|].
    intros [[[? _]|[_ Hr]] Hf]; [done|]. right. split; [congruence|]. by apply Hm.
Qed.
Lemma indexes_remove f h tx s m : by_hash s !! h = Some tx → indexes f s m →
  indexes f (remove h s).2 (delete (f tx, h) m).
Proof.
  intros Hh Hm r k t. unfold remove. rewrite Hh. cbn. rewrite !lookup_delete_Some, (Hm r k t).
  split; [|naive_solver].
  intros (Hne & Hk & <-). split; [|done]. split; [|done]. intros <-. apply Hne. congruence.
Qed.

Lemma index_insert_ok tx s : by_hash s !! it_hash tx = None → index_ok s → index_ok (insert tx s).
Proof.
  intros Hn [Hh He Ht Hs]. split; [|by apply indexes_insert..].
  intros h t. cbn. intros [[<- <-]|[_ Hk]]%lookup_insert_Some; [done|by apply Hh].
Qed.
Lemma index_remove_ok h s : index_ok s → index_ok (remove h s).2 ∧ by_hash (remove h s).2 = delete h (by_hash s).
Proof.
  intros [Hh He Ht Hs]. destruct (by_hash s !! h) as [tx|] eqn:Eh.
  - pose proof (indexes_remove it_fee_rate h tx s _ Eh He) as He'.
    pose proof (indexes_remove it_arrival_time h tx s _ Eh Ht) as Ht'.
    pose proof (indexes_remove it_dependency_count h tx s _ Eh Hs) as Hs'.
    unfold remove in *. rewrite Eh in *. cbn in *. split; [|done]. split; [|done..].
    cbn. intros k t [_ Hk]%lookup_delete_Some. by apply Hh.
  - unfold remove. rewrite Eh. cbn. split; [done|]. by rewrite delete_id.
Qed.
Lemma stats_ok f s : index_ok s → index_ok (map_index_stats f s).
Proof. intros [????]. by split. Qed.
Lemma index_update_ok tx s : index_ok s → index_ok (update tx s).
Proof.
  intros Hs. apply stats_ok, index_insert_ok; [|by apply index_remove_ok].
  destruct (index_remove_ok (it_hash tx) s Hs) as [_ ->]. apply lookup_delete_eq.
Qed.

(** ** Traversals *)
Lemma key_leb_total d a b : key_leb d a b = true ∨ key_leb d b a = true.
Proof.
  unfold key_leb. destruct d.
  - destruct (Z.compare_spec b.1 a.1), (Z.compare_spec a.1 b.1); auto; try lia. apply bytes_leb_total.
  - destruct (Z.compare_spec a.1 b.1), (Z.compare_spec b.1 a.1); auto; try lia. apply bytes_leb_total.
Qed.
Lemma key_leb_trans d a b c : key_leb d a b = true → key_leb d b c = true → key_leb d a c = true.
Proof.
  unfold key_leb. destruct d.
  - destruct (Z.compare_spec b.1 a.1), (Z.compare_spec c.1 b.1), (Z.compare_spec c.1 a.1); try done; try lia; apply bytes_leb_trans.
  - destruct (Z.compare_spec a.1 b.1), (Z.compare_spec b.1 c.1), (Z.compare_spec a.1 c.1); try done; try lia; apply bytes_leb_trans.
Qed.
Lemma key_leb_first d a b : key_leb d a b = true → if d then b.1 ≤ a.1 else a.1 ≤ b.1.
Proof. unfold key_leb. destruct d; [destruct (Z.compare_spec b.1 a.1)|destruct (Z.compare_spec a.1 b.1)]; done || lia. Qed.

Abbreviation in_key_order d l :=
  (StronglySorted (λ x y : (Z * key) * IndexedTransaction, key_leb d x.1 y.1 = true) l).
Lemma traverse_sorted d m : in_key_order d (traverse d m).
Proof.
  apply (sort_by_sorted (λ x y : (Z * key) * IndexedTransaction, key_leb d x.1 y.1)).
  - intros x y. apply key_leb_total.
  - intros x y z. apply key_leb_trans.
Qed.
Lemma elem_of_traverse d f s m e : indexes f s m →
  e ∈ traverse d m ↔ by_hash s !! e.1.2 = Some e.2 ∧ f e.2 = e.1.1.
Proof.
  intros Hm. unfold traverse. rewrite elem_of_sort_by. destruct e as [[r h] t].
  rewrite elem_of_map_to_list. apply Hm.
Qed.
Lemma traverse_all d f s m : indexes f s m → (∀ h t, by_hash s !! h = Some t → it_hash t = h) →
  (traverse d m).*2 ≡ₚ all_transactions s.
Proof.
  intros Hm Hh. unfold all_transactions. apply NoDup_Permutation.
  - apply NoDup_fmap_2_strong; [|apply NoDup_sort_by, NoDup_map_to_list].
    intros [[r h] t] [[r' h'] t'] Hx Hy Et. rewrite (elem_of_traverse d f s m) in Hx, Hy by done. cbn in *. subst t'.
    destruct Hx as [Hx <-], Hy as [Hy <-]. apply Hh in Hx, Hy. congruence.
  - apply NoDup_fmap_2_strong; [|apply NoDup_map_to_list].
    intros [h t] [h' t'] Hx%elem_of_map_to_list Hy%elem_of_map_to_list Et. cbn in Et. subst t'.
    apply Hh in Hx, Hy. congruence.
  - intros t. rewrite !list_elem_of_fmap. split.
    + intros (e & -> & He). rewrite (elem_of_traverse d f s m) in He by done. exists (e.1.2, e.2).
      split; [done|]. apply elem_of_map_to_list, He.
    + intros ([h t'] & -> & He%elem_of_map_to_list). exists ((f t', h), t'). split; [done|].
      by rewrite (elem_of_traverse d f s m).
Qed.

(** In a sorted list the elements a monotone test accepts are in front. *)
Section while.
Context {A : Type} (R : A → A → Prop) (p : A → bool) (Hp : ∀ x y, R x y → p y = true → p x = true).

Lemma filter_none_after x l : Forall (R x) l → p x = false → filter (λ y, p y = true) l = [].
Proof.
  intros Hl Hx. induction Hl as [|y l Hy _ IH]; [done|]. rewrite filter_cons_False; [done|].
  intros E. by rewrite (Hp _ _ Hy E) in Hx.
Qed.
Lemma take_while_filter l : StronglySorted R l → take_while p l = filter (λ y, p y = true) l.
Proof.
  induction 1 as [|x l _ IH Hx]; cbn [take_while]; [done|]. destruct (p x) eqn:Ep.
  - by rewrite filter_cons_True, IH.
  - rewrite filter_cons_False by congruence. by rewrite (filter_none_after x).
Qed.
Lemma skip_while_filter l : StronglySorted R l → skip_while p l = filter (λ y, p y = false) l.
Proof.
  induction 1 as [|x l _ IH Hx]; cbn [skip_while]; [done|]. destruct (p x) eqn:Ep.
  - by rewrite filter_cons_False by congruence.
  - rewrite filter_cons_True by done. f_equal. symmetry. apply filter_all. intros y Hy.
    destruct (p y) eqn:Ey; [|done]. rewrite Forall_forall in Hx. by rewrite (Hp _ _ (Hx y Hy) Ey) in Ep.
Qed.
End while.

Lemma fmap_filter_snd {K} (P : IndexedTransaction → Prop) `{∀ t, Decision (P t)} (Q : K * IndexedTransaction → Prop)
    `{∀ e, Decision (Q e)} (l : list (K * IndexedTransaction)) :
  (∀ e, e ∈ l → Q e ↔ P e.2) → (filter Q l).*2 = filter P (l.*2).
Proof.
  induction l as [|e l IH]; intros HQ; [done|]. cbn [fmap list_fmap]. rewrite !filter_cons.
  specialize (HQ e ltac:(left)) as He. destruct (decide (Q e)), (decide (P e.2)); try tauto; cbn;
    by rewrite IH by (intros; apply HQ; by right).
Qed.

(** The result of a query: the transactions that pass, in the order of the dimension. *)
Definition answers (d : bool) (f : IndexedTransaction → Z) (P : IndexedTransaction → Prop) `{∀ t, Decision (P t)}
    (s : MultiIndex) (l : list IndexedTransaction) : Prop :=
  l ≡ₚ filter P (all_transactions s)
  ∧ StronglySorted (λ a b, key_leb d (f a, it_hash a) (f b, it_hash b) = true) l.

Lemma traverse_answers d f P `{∀ t, Decision (P t)} (Q : (Z * key) * IndexedTransaction → Prop) `{∀ e, Decision (Q e)} s m :
  indexes f s m → (∀ h t, by_hash s !! h = Some t → it_hash t = h) →
  (∀ e, f e.2 = e.1.1 → Q e ↔ P e.2) → answers d f P s (filter Q (traverse d m)).*2.
Proof.
  intros Hm Hh HQ. split.
  - rewrite (fmap_filter_snd P Q).
    + by rewrite (traverse_all d f s m).
    + intros e He. rewrite (elem_of_traverse d f s m) in He by done. apply HQ, He.
  - assert (Hall : Forall (λ e, f e.2 = e.1.1 ∧ it_hash e.2 = e.1.2) (traverse d m)).
    { apply Forall_forall. intros e He. rewrite (elem_of_traverse d f s m) in He by done. destruct He as [He ?].
      split; [done|]. by apply Hh. }
    pose proof (traverse_sorted d m) as Hsort. clear -Hall Hsort.
    induction Hsort as [|e l Hl IH He]; [constructor|]. apply Forall_cons in Hall as [[Ef Eh] Hall].
    rewrite filter_cons. destruct (decide (Q e)); [|by apply IH]. cbn. constructor; [by apply IH|].
    apply Forall_forall. intros t (e' & -> & [_ He']%list_elem_of_filter)%list_elem_of_fmap.
    rewrite Forall_forall in He, Hall. destruct (Hall e' He') as [Ef' Eh']. rewrite Ef, Eh, Ef', Eh'.
    specialize (He e' He'). by destruct e as [[??]?], e' as [[??]?].
Qed.

(** ** Properties *)

(** The operations; the raw insertion takes a hash that is not indexed. *)
Inductive index_step (s : MultiIndex) : MultiIndex → Prop :=
  | step_insert tx : by_hash s !! it_hash tx = None → index_step s (insert tx s)
  | step_remove h : index_step s (remove h s).2
  | step_update tx : index_step s (update tx s)
  | step_query f : index_step s (map_index_stats f s)
  | step_reset_index : index_step s (reset_index s).

Lemma index_steps_ok s s' : rtc index_step s s' → index_ok s → index_ok s'.
Proof.
  induction 1 as [|s1 s2 s3 H12 _ IH]; [done|]. intros Hs. apply IH.
  destruct H12; [by apply index_insert_ok|by apply index_remove_ok|by apply index_update_ok|by apply stats_ok|apply index_new_ok].
Qed.

(** In every reachable index, every query returns exactly the indexed transactions that
    satisfy its condition, once each, in the documented order: decreasing fee,
    increasing arrival, decreasing number of dependents, ties by hash. *)
Theorem queries_are_exact s (Hs : rtc index_step MultiIndex_new s) (lo hi n : Z) :
  answers true it_fee_rate (λ t, lo ≤ it_fee_rate t ≤ hi) s (query_economic_range lo hi s).1
  ∧ answers false it_arrival_time (λ t, it_arrival_time t ≤ n) s (query_temporal_before n s).1
  ∧ answers false it_arrival_time (λ t, n < it_arrival_time t) s (query_temporal_after n s).1
  ∧ answers false it_arrival_time (λ t, lo ≤ it_arrival_time t ≤ hi) s (query_temporal_range lo hi s).1
  ∧ answers true it_dependency_count (λ t, n ≤ it_dependency_count t) s (query_structural_min_dependents n s).1.
Proof.
  destruct (index_steps_ok _ _ Hs index_new_ok) as [Hh He Ht Hst]. split_and!.
  - cbn [query_economic_range fst]. rewrite <- (fmap_filter_snd _ (λ e, lo ≤ it_fee_rate e.2 ≤ hi)) by done.
    by apply traverse_answers.
  - cbn [query_temporal_before fst].
    rewrite (take_while_filter (λ x y : (Z * key) * IndexedTransaction, key_leb false x.1 y.1 = true)); [|
      intros x y Hxy%key_leb_first; cbn in Hxy; lia|apply traverse_sorted].
    apply traverse_answers; [done..|]. intros e <-. lia.
  - cbn [query_temporal_after fst].
    rewrite (skip_while_filter (λ x y : (Z * key) * IndexedTransaction, key_leb false x.1 y.1 = true)); [|
      intros x y Hxy%key_leb_first; cbn in Hxy; lia|apply traverse_sorted].
    apply traverse_answers; [done..|]. intros e <-. lia.
  - cbn [query_temporal_range fst]. apply traverse_answers; [done..|]. by intros e <-.
  - cbn [query_structural_min_dependents fst].
    rewrite (take_while_filter (λ x y : (Z * key) * IndexedTransaction, key_leb true x.1 y.1 = true)); [|
      intros x y Hxy%key_leb_first; cbn in Hxy; lia|apply traverse_sorted].
    apply traverse_answers; [done..|]. intros e <-. lia.
Qed.

(** Inserting a hash that is indexed with another fee rate leaves the old entry in the
    economic dimension for good: neither removal nor update takes it out. *)
Theorem reinsertion_leaves_stale tx tx' s (Hh : it_hash tx' = it_hash tx) (Hfee : it_fee_rate tx' ≠ it_fee_rate tx) :
  let s' := (remove (it_hash tx) (insert tx' (insert tx s))).2 in
  by_hash s' !! it_hash tx = None
  ∧ economic_index s' !! (it_fee_rate tx, it_hash tx) = Some tx
  ∧ (query_economic_top_n (size (economic_index s')) s').1 ≡ₚ (map_to_list (economic_index s')).*2.
Proof.
  intros s'. assert (E : by_hash (insert tx' (insert tx s)) !! it_hash tx = Some tx') by (cbn; rewrite Hh; apply lookup_insert_eq).
  unfold s', remove. rewrite E. cbn [snd by_hash economic_index insert]. split_and!.
  - apply lookup_delete_eq.
  - rewrite lookup_delete_ne by congruence. rewrite lookup_insert_ne by congruence. apply lookup_insert_eq.
  - cbn [query_economic_top_n fst]. rewrite take_ge.
    + unfold traverse. by rewrite sort_by_perm.
    + unfold traverse. rewrite length_sort_by, length_map_to_list. done.
Qed.

(** ** Witnesses *)
Definition indexed (n fee arrival : Z) : IndexedTransaction :=
  {| it_hash := [Z_byte n]; it_fee_rate := fee; it_arrival_time := arrival; it_dependency_count := 0; it_size_bytes := 1;
     it_total_fee := fee |}.
Definition index_of_two : MultiIndex := insert (indexed 2 30 5) (insert (indexed 1 20 9) MultiIndex_new).

Lemma queries_are_exact_witness :
  rtc index_step MultiIndex_new index_of_two
  ∧ answers true it_fee_rate (λ t, 10 ≤ it_fee_rate t ≤ 40) index_of_two [indexed 2 30 5; indexed 1 20 9].
Proof.
  assert (Hs : rtc index_step MultiIndex_new index_of_two).
  { eapply rtc_l; [by apply (step_insert _ (indexed 1 20 9))|]. eapply rtc_l; [by apply (step_insert _ (indexed 2 30 5))|]. constructor. }
  split; [exact Hs|]. assert (E : (query_economic_range 10 40 index_of_two).1 = [indexed 2 30 5; indexed 1 20 9]) by (vm_compute; reflexivity).
  rewrite <- E. apply (queries_are_exact index_of_two Hs 10 40 0).
Defined.
Lemma reinsertion_leaves_stale_witness :
  let s' := (remove [x01] (insert (indexed 1 25 9) (insert (indexed 1 20 9) MultiIndex_new))).2 in
  by_hash s' !! [x01] = None ∧ economic_index s' !! (20, [x01]) = Some (indexed 1 20 9).
Proof.
  destruct (reinsertion_leaves_stale (indexed 1 20 9) (indexed 1 25 9) MultiIndex_new ltac:(reflexivity) ltac:(discriminate)) as (H1 & H2 & _).
  split; [exact H1|exact H2].
Defined.
