(* ===== verification/Tiers.v ===== *)
(** * The tiers of the node's pool

    [mempool/resource_optimizer.rs] of klomang-node: a bounded map in memory in front of
    the transactions family of the storage, and a policy that chooses what moves from
    the first to the second.  The cold tier is the cache layer of [Storage.v].
    Readings of the clock are arguments; [order] is the order in which the hot tier is
    iterated. *)

From Stdlib Require Import Init.Byte Floats.SpecFloat.
From stdpp Require Import gmap.
From S2P Require Import Prelude Crypto Transaction Pow NodePrelude Storage MemoryStore F64 PriorityScheduler.

Record ResourceOptimizerConfig := {
  hot_tier_max_transactions : Z;
  hot_tier_max_memory_bytes : Z;
  lru_weight : f64;
  fee_score_weight : f64;
  promotion_age_threshold : Z;
  promotion_fee_threshold : Z
}.
(** 0.6, 0.4 *)
Definition default_lru_weight : f64 := S754_finite false 5404319552844595 (-53).
Definition default_fee_score_weight : f64 := S754_finite false 7205759403792794 (-54).
Definition default_optimizer_config : ResourceOptimizerConfig :=
  {| hot_tier_max_transactions := 5000; hot_tier_max_memory_bytes := 100000000; lru_weight := default_lru_weight;
     fee_score_weight := default_fee_score_weight; promotion_age_threshold := 300; promotion_fee_threshold := 10 |}.

Record TransactionMetadata := {
  arrival_time : Z;
  meta_fee_rate : Z;
  last_access_time : Z;
  memory_size : Z;
  has_dependents : bool
}.

(** [From<&Transaction> for TransactionValue] *)
Definition transaction_value_of (tx : Transaction) : TransactionValue :=
  {| tv_tx_hash := as_bytes (id tx);
     tv_inputs := (λ i, {| previous_tx_hash := as_bytes (prev_tx i); output_index := index i |}) <$> inputs tx;
     tv_outputs := (λ o, {| amount := value o; out_pubkey_hash := as_bytes (pubkey_hash o) |}) <$> outputs tx;
     tv_fee := sat_mul 64 (wrap 64 (max_fee_per_gas tx)) (gas_limit tx) |}.

(** [estimate_memory_size], [estimate_fee_rate] *)
Definition estimate_memory_size (tx : Transaction) : Z :=
  wrap 64 (200 + Z.of_nat (length (inputs tx)) * 150 + Z.of_nat (length (outputs tx)) * 50
           + Z.of_nat (length (execution_payload tx))).
Definition estimate_fee_rate (tx : Transaction) : Z :=
  let size := wrap 64 (Z.of_nat (length (inputs tx)) * 32 + Z.of_nat (length (outputs tx)) * 32 + 200) in
  if 0 <? size then 1000 / size else 1.

Section tiers.
Context {D : Type} {C : Type → Type} `{RocksDb D} `{LruCache C} `{Codec TransactionValue}.

Record ResourceOptimizer := {
  hot_transactions : gmap key (Transaction * TransactionMetadata);
  current_memory_bytes : Z;
  cold_tier : StorageCacheLayer D C;
  optimizer_config : ResourceOptimizerConfig
}.
Definition ResourceOptimizer_new (kv : StorageCacheLayer D C) (config : ResourceOptimizerConfig) : ResourceOptimizer :=
  {| hot_transactions := ∅; current_memory_bytes := 0; cold_tier := kv; optimizer_config := config |}.
Definition set_hot (m : gmap key (Transaction * TransactionMetadata)) (mem : Z) (s : ResourceOptimizer) : ResourceOptimizer :=
  {| hot_transactions := m; current_memory_bytes := mem; cold_tier := cold_tier s; optimizer_config := optimizer_config s |}.
Definition set_cold (c : StorageCacheLayer D C) (s : ResourceOptimizer) : ResourceOptimizer :=
  {| hot_transactions := hot_transactions s; current_memory_bytes := current_memory_bytes s; cold_tier := c;
     optimizer_config := optimizer_config s |}.

Abbreviation optimizing := (method ResourceOptimizer string).

(** ** The hot tier *)
Definition hot_add (now : Z) (tx_hash : key) (tx : Transaction) (fee_rate : Z) : optimizing unit :=
  let memory := estimate_memory_size tx in
  let metadata := {| arrival_time := now; meta_fee_rate := fee_rate; last_access_time := now; memory_size := memory;
                     has_dependents := false |} in
  s ← get;
  _ ← lift (ensure (Z.of_nat (size (hot_transactions s)) <? hot_tier_max_transactions (optimizer_config s))
              "Hot tier transaction limit exceeded");
  _ ← lift (ensure (wadd 64 (current_memory_bytes s) memory <=? hot_tier_max_memory_bytes (optimizer_config s))
              "Hot tier memory limit exceeded");
  put (set_hot (<[tx_hash := (tx, metadata)]> (hot_transactions s)) (wadd 64 (current_memory_bytes s) memory) s).
Definition touch (now : Z) (e : Transaction * TransactionMetadata) : Transaction * TransactionMetadata :=
  (e.1, {| arrival_time := arrival_time e.2; meta_fee_rate := meta_fee_rate e.2; last_access_time := now;
           memory_size := memory_size e.2; has_dependents := has_dependents e.2 |}).
Definition hot_get (now : Z) (tx_hash : key) (s : ResourceOptimizer) : option Transaction * ResourceOptimizer :=
  match hot_transactions s !! tx_hash with
  | Some e => (Some e.1, set_hot (<[tx_hash := touch now e]> (hot_transactions s)) (current_memory_bytes s) s)
  | None => (None, s)
  end.
Definition hot_remove (tx_hash : key) (s : ResourceOptimizer) :
    option (Transaction * TransactionMetadata) * ResourceOptimizer :=
  match hot_transactions s !! tx_hash with
  | Some e => (Some e, set_hot (delete tx_hash (hot_transactions s)) (wsub 64 (current_memory_bytes s) (memory_size e.2)) s)
  | None => (None, s)
  end.
Definition hot_contains (tx_hash : key) (s : ResourceOptimizer) : bool := bool_decide (is_Some (hot_transactions s !! tx_hash)).
Definition get_metadata (tx_hash : key) (s : ResourceOptimizer) : option TransactionMetadata :=
  snd <$> hot_transactions s !! tx_hash.
Definition set_has_dependents (tx_hash : key) (b : bool) (s : ResourceOptimizer) : ResourceOptimizer :=
  match hot_transactions s !! tx_hash with
  | Some e =>
      let e := (e.1, {| arrival_time := arrival_time e.2; meta_fee_rate := meta_fee_rate e.2;
                        last_access_time := last_access_time e.2; memory_size := memory_size e.2; has_dependents := b |}) in
      set_hot (<[tx_hash := e]> (hot_transactions s)) (current_memory_bytes s) s
  | None => s
  end.

Record HotTierStats := {
  transaction_count : Z;
  memory_usage : Z;
  memory_limit : Z;
  transaction_limit : Z;
  utilization : f64
}.
Definition hot_stats (s : ResourceOptimizer) : HotTierStats :=
  let config := optimizer_config s in
  {| transaction_count := Z.of_nat (size (hot_transactions s)); memory_usage := current_memory_bytes s;
     memory_limit := hot_tier_max_memory_bytes config; transaction_limit := hot_tier_max_transactions config;
     utilization :=
       if 0 <? hot_tier_max_memory_bytes config
       then f64_mul (f64_div (f64_of_Z (current_memory_bytes s)) (f64_of_Z (hot_tier_max_memory_bytes config))) (f64_of_Z 100)
       else S754_zero false |}.

(** ** The cold tier *)
Definition on_cold {A} (m : method (StorageCacheLayer D C) StorageError A) : optimizing A :=
  rethrow (λ _, "Storage error: {:?}") (zoom cold_tier set_cold m).
Definition cold_store (tx : Transaction) : optimizing unit :=
  on_cold (put_transaction (as_bytes (id tx)) (transaction_value_of tx)).
(** The value that is found is not converted back. *)
Definition cold_retrieve (tx_hash : key) : optimizing (option Transaction) :=
  found ← on_cold (get_transaction tx_hash);
  match found with Some _tx_value => mret None | None => mret None end.
Definition cold_remove (tx_hash : key) : optimizing unit := on_cold (delete_transaction tx_hash).
Definition cold_contains (tx_hash : key) : optimizing bool :=
  found ← on_cold (get_transaction tx_hash); mret (bool_decide (is_Some found)).

(** ** The policy *)
Definition max_age : f64 := f64_of_Z 3600.
Definition calculate_eviction_score (now : Z) (config : ResourceOptimizerConfig) (m : TransactionMetadata) : f64 :=
  let age := f64_of_Z (sat_sub now (arrival_time m)) in
  let normalized_age := f64_min (f64_div age max_age) (f64_of_Z 1) in
  f64_add (f64_mul normalized_age (lru_weight config)) (f64_mul (f64_of_Z (meta_fee_rate m)) (fee_score_weight config)).
Definition better_victim (now : Z) (config : ResourceOptimizerConfig) (best : option key * f64)
    (c : key * TransactionMetadata) : option key * f64 :=
  let score := calculate_eviction_score now config c.2 in
  if SFltb score best.2 then (Some c.1, score) else best.
Definition select_victim (now : Z) (config : ResourceOptimizerConfig) (candidates : list (key * TransactionMetadata)) : option key :=
  (foldl (better_victim now config) (None, S754_infinity false) candidates).1.

(** ** The optimizer *)
Definition add_transaction (now : Z) (tx_hash : key) (tx : Transaction) (fee_rate : Z) : optimizing unit :=
  catch (hot_add now tx_hash tx fee_rate) (λ _, mret tt) (λ _, cold_store tx).
Definition optimizer_get (now : Z) (tx_hash : key) : optimizing (option Transaction) :=
  s ← get;
  let '(found, s) := hot_get now tx_hash s in
  _ ← put s;
  match found with
  | Some tx => mret (Some tx)
  | None =>
      cold ← cold_retrieve tx_hash;
      match cold with
      | Some tx =>
          _ ← catch (hot_add now tx_hash tx (estimate_fee_rate tx)) (λ _, mret tt) (λ _, mret tt);
          _ ← catch (cold_remove tx_hash) (λ _, mret tt) (λ _, mret tt);
          mret (Some tx)
      | None => mret None
      end
  end.
Definition optimizer_remove (tx_hash : key) : optimizing unit :=
  _ ← modify (λ s, (hot_remove tx_hash s).2);
  cold_remove tx_hash.

(** [while let Some(victim) = select_victim(&candidates)]: every turn drops the victim
    from the candidates, so as many turns as candidates are enough. *)
Fixpoint reclaim_loop (fuel : nat) (now : Z) (candidates : list (key * TransactionMetadata)) (evicted : list key) :
    optimizing (list key) :=
  match fuel with
  | O => mret evicted
  | S fuel =>
      s ← get;
      match select_victim now (optimizer_config s) candidates with
      | None => mret evicted
      | Some victim =>
          let candidates := filter (λ c, c.1 ≠ victim) candidates in
          let '(removed, s) := hot_remove victim s in
          _ ← put s;
          evicted ← match removed with
                    | Some e => _ ← cold_store e.1; mret (evicted ++ [victim])
                    | None => mret evicted
                    end;
          s ← get;
          if SFltb (utilization (hot_stats s)) (f64_of_Z 80) then mret evicted
          else reclaim_loop fuel now candidates evicted
      end
  end.
Definition reclaim_candidates (order : gset key → list key) (s : ResourceOptimizer) : list (key * TransactionMetadata) :=
  omap (λ h, m ← get_metadata h s; Some (h, m)) (order (dom (hot_transactions s))).
Definition reclaim_space (order : gset key → list key) (now : Z) : optimizing (list key) :=
  s ← get;
  let candidates := reclaim_candidates order s in
  reclaim_loop (S (length candidates)) now candidates [].

Definition should_promote (tx_hash : key) (new_fee_rate : Z) : optimizing bool :=
  s ← get;
  catch (cold_contains tx_hash)
    (λ found, if found : bool then mret (promotion_fee_threshold (optimizer_config s) <=? new_fee_rate) else mret false)
    (λ _, mret false).
Definition promote_transaction (now : Z) (tx_hash : key) : optimizing unit :=
  cold ← cold_retrieve tx_hash;
  match cold with
  | Some tx => _ ← hot_add now tx_hash tx (estimate_fee_rate tx); cold_remove tx_hash
  | None => mret tt
  end.
End tiers.
Arguments ResourceOptimizer : clear implicits.

(** ** What the methods keep *)
Section tier_proofs.
Context {D : Type} {C : Type → Type} `{RocksDb D} `{LruCache C} `{Codec TransactionValue}.
Abbreviation optimizer := (ResourceOptimizer D C).
Implicit Types s : optimizer.

(** Work on the cold tier leaves the hot one. *)
Record same_hot s s' : Prop := {
  sh_hot : hot_transactions s' = hot_transactions s;
  sh_memory : current_memory_bytes s' = current_memory_bytes s;
  sh_config : optimizer_config s' = optimizer_config s
}.
Lemma on_cold_same {A} (m : method (StorageCacheLayer D C) StorageError A) s : same_hot s (on_cold m s).2.
Proof. unfold on_cold, rethrow, zoom. by destruct (m (cold_tier s)). Qed.
Lemma cold_retrieve_run h s : same_hot s (cold_retrieve h s).2 ∧ ∀ t, (cold_retrieve h s).1 ≠ Ok (Some t).
Proof.
  unfold cold_retrieve. pose proof (on_cold_same (get_transaction h) s) as Hs. unfold mbind, method_bind.
  destruct (on_cold _ s) as [[[v|]|e|p] s1]; done.
Qed.

Lemma hot_add_run now h tx rate s :
  (hot_add now h tx rate s = (Ok tt, (hot_add now h tx rate s).2)
   ∧ (∃ m, memory_size m = estimate_memory_size tx ∧ meta_fee_rate m = rate
      ∧ hot_transactions (hot_add now h tx rate s).2 = <[h := (tx, m)]> (hot_transactions s))
   ∧ Z.of_nat (size (hot_transactions s)) < hot_tier_max_transactions (optimizer_config s)
   ∧ current_memory_bytes (hot_add now h tx rate s).2 = wadd 64 (current_memory_bytes s) (estimate_memory_size tx)
   ∧ current_memory_bytes (hot_add now h tx rate s).2 ≤ hot_tier_max_memory_bytes (optimizer_config s)
   ∧ optimizer_config (hot_add now h tx rate s).2 = optimizer_config s)
  ∨ ∃ e, hot_add now h tx rate s = (Err e, s).
Proof.
  unfold hot_add. rewrite (method_bind_run get _ s s s) by done.
  destruct (Z.ltb_spec (Z.of_nat (size (hot_transactions s))) (hot_tier_max_transactions (optimizer_config s))) as [Hn|Hn]; [|right; by eexists].
  rewrite (method_bind_run (lift (ensure true _)) _ s tt s) by done.
  destruct (Z.leb_spec (wadd 64 (current_memory_bytes s) (estimate_memory_size tx)) (hot_tier_max_memory_bytes (optimizer_config s))) as [Hm|Hm];
    [|right; by eexists].
  left. cbn. split_and!; try done. eexists. split; [|split]. 3: reflexivity. all: reflexivity.
Qed.
Lemma hot_add_full now h tx rate s : hot_tier_max_transactions (optimizer_config s) ≤ Z.of_nat (size (hot_transactions s)) →
  ∃ e, hot_add now h tx rate s = (Err e, s).
Proof. intros Hf. destruct (hot_add_run now h tx rate s) as [(_ & _ & Hn & _)|?]; [lia|done]. Qed.

(** The hot tier is within its limits and its memory is what its entries were counted
    with. *)
Abbreviation hot_memory s := (msum (λ e, memory_size e.2) (hot_transactions s)).
Record hot_ok s : Prop := {
  ho_count : Z.of_nat (size (hot_transactions s)) ≤ Z.max 0 (hot_tier_max_transactions (optimizer_config s));
  ho_memory : current_memory_bytes s = wrap 64 (hot_memory s)
}.
Lemma same_hot_ok s s' : same_hot s s' → hot_ok s → hot_ok s'.
Proof. intros [E1 E2 E3] [Hc Hm]. split; congruence. Qed.

Lemma hot_remove_ok h s : hot_ok s → hot_ok (hot_remove h s).2.
Proof.
  intros [Hc Hm]. unfold hot_remove. destruct (hot_transactions s !! h) as [e|] eqn:Eh; [|by split]. split; cbn.
  - pose proof (map_size_delete h (hot_transactions s)) as E. rewrite Eh in E. rewrite E. lia.
  - rewrite (msum_delete _ _ _ e) by done. rewrite Hm. apply wsub_wrap.
Qed.
Lemma hot_set_ok h e e' s : hot_transactions s !! h = Some e → memory_size e'.2 = memory_size e.2 → hot_ok s →
  hot_ok (set_hot (<[h := e']> (hot_transactions s)) (current_memory_bytes s) s).
Proof.
  intros Eh Em [Hc Hm]. split; cbn.
  - rewrite map_size_insert, Eh. done.
  - rewrite <- insert_delete_eq, msum_insert by apply lookup_delete_eq. rewrite (msum_delete _ _ _ e) by done.
    rewrite Hm. f_equal. lia.
Qed.
Lemma hot_get_ok now h s : hot_ok s → hot_ok (hot_get now h s).2.
Proof.
  intros Hs. unfold hot_get. destruct (hot_transactions s !! h) as [e|] eqn:Eh; [|done]. by eapply hot_set_ok.
Qed.
Lemma hot_add_ok now h tx rate s : hot_transactions s !! h = None → hot_ok s → hot_ok (hot_add now h tx rate s).2.
Proof.
  intros Hn [Hc Hm]. destruct (hot_add_run now h tx rate s) as [(_ & (m & Em & _ & Et) & Hlt & Ec & _ & Ef)|[e ->]]; [|by split].
  split.
  - rewrite Et, Ef, map_size_insert, Hn. lia.
  - rewrite Ec, Et, msum_insert by done. cbn. rewrite Em, Hm, wadd_wrap. f_equal. lia.
Qed.
Lemma add_transaction_ok now h tx rate s : hot_transactions s !! h = None → hot_ok s → hot_ok (add_transaction now h tx rate s).2.
Proof.
  intros Hn Hs. pose proof (hot_add_ok now h tx rate s Hn Hs) as Hok. unfold add_transaction, catch.
  destruct (hot_add now h tx rate s) as [[[]|e|p] s1]; [done| |done].
  eapply same_hot_ok; [apply on_cold_same|done].
Qed.
Lemma optimizer_get_run now h s : same_hot (hot_get now h s).2 (optimizer_get now h s).2
  ∧ ∀ t, (optimizer_get now h s).1 = Ok (Some t) → is_Some (hot_transactions s !! h).
Proof.
  unfold optimizer_get. rewrite (method_bind_run get _ s s s) by done. unfold hot_get.
  destruct (hot_transactions s !! h) as [e|] eqn:Eh; [by split; [|eauto]|].
  rewrite (method_bind_run (put s) _ s tt s) by done. destruct (cold_retrieve_run h s) as [Hc Hn].
  unfold mbind, method_bind. destruct (cold_retrieve h s) as [[[t|]|e|p] s1]; cbn in *; try done.
  by destruct (Hn t).
Qed.

(** ** Reclaiming space *)
Lemma reclaim_loop_run fuel now cs evicted s s' r :
  reclaim_loop fuel now cs evicted s = (r, s') → NoDup cs.*1 →
  (∀ h m, (h, m) ∈ cs → is_Some (hot_transactions s !! h)) →
  optimizer_config s' = optimizer_config s ∧ (hot_ok s → hot_ok s')
  ∧ ∀ l, r = Ok l → ∃ news, l = evicted ++ news
    ∧ (∀ h, hot_transactions s' !! h = if bool_decide (h ∈ news) then None else hot_transactions s !! h)
    ∧ (∀ h, h ∈ news → is_Some (hot_transactions s !! h))
    ∧ (news = [] → fuel = O ∨ select_victim now (optimizer_config s) cs = None).
Proof.
  revert cs evicted s; induction fuel as [|fuel IH]; intros cs evicted s; cbn [reclaim_loop].
  { intros [= <- <-] _ _. split_and!; [done|done|]. intros l [= <-]. exists []. split_and!; [by rewrite app_nil_r| | |auto].
    - intros h. by rewrite bool_decide_eq_false_2 by apply not_elem_of_nil.
    - by intros h ?%not_elem_of_nil. }
  rewrite (method_bind_run get _ s s s) by done.
  destruct (select_victim now (optimizer_config s) cs) as [v|] eqn:Ev.
  2: { intros [= <- <-] _ _. split_and!; [done|done|]. intros l [= <-]. exists []. split_and!; [by rewrite app_nil_r| | |auto].
       - intros h. by rewrite bool_decide_eq_false_2 by apply not_elem_of_nil.
       - by intros h ?%not_elem_of_nil. }
  intros Hrun Hnd Hin.
  assert (Hv : is_Some (hot_transactions s !! v)).
  { enough (∃ m, (v, m) ∈ cs) as [m Hm] by by eapply Hin. unfold select_victim in Ev. revert Ev.
    assert (Hf : ∀ l b, (foldl (better_victim now (optimizer_config s)) b l).1 = Some v → b.1 = Some v ∨ ∃ m, (v, m) ∈ l).
    { induction l as [|c l IHl]; intros b; cbn [foldl]; [auto|]. intros [Hb|[m Hm]]%IHl; [|right; exists m; by right].
      unfold better_victim in Hb. destruct (SFltb _ _); [|auto]. cbn in Hb. injection Hb as <-.
      right. exists c.2. destruct c; left. }
    by intros [?|?]%Hf. }
  destruct Hv as [e Hv]. unfold hot_remove in Hrun. pose proof (hot_remove_ok v s) as Hok. unfold hot_remove in Hok. rewrite Hv in Hrun, Hok.
  set (s1 := set_hot _ _ s) in *. cbv beta iota in Hrun. rewrite (method_bind_run (put s1) _ s tt s1) in Hrun by done.
  pose proof (on_cold_same (put_transaction (as_bytes (id e.1)) (transaction_value_of e.1)) s1) as Hsame.
  fold (cold_store (D:=D) (C:=C) e.1) in Hsame. destruct (cold_store e.1 s1) as [[[]|x|x] s2] eqn:Es2; cbn in Hsame.
  2: rewrite (method_bind_stop _ _ s1 x s2) in Hrun by (by rewrite (method_bind_stop _ _ _ _ _ Es2)).
  3: rewrite (method_bind_unwind _ _ s1 x s2) in Hrun by (by rewrite (method_bind_unwind _ _ _ _ _ Es2)).
  2,3: injection Hrun as <- <-; split_and!; [apply Hsame|intros; eapply same_hot_ok; eauto|done].
  rewrite (method_bind_run _ _ s1 (evicted ++ [v]) s2) in Hrun by (by rewrite (method_bind_run _ _ _ _ _ Es2)).
  rewrite (method_bind_run get _ s2 s2 s2) in Hrun by done.
  assert (Ht2 : hot_transactions s2 = delete v (hot_transactions s)) by (by rewrite (sh_hot _ _ Hsame)).
  assert (Hc2 : optimizer_config s2 = optimizer_config s) by (by rewrite (sh_config _ _ Hsame)).
  assert (Hok2 : hot_ok s → hot_ok s2) by (intros Hs; eapply same_hot_ok; eauto).
  destruct (SFltb _ _).
  - injection Hrun as <- <-. split_and!; [done|done|]. intros l [= <-]. exists [v]. split_and!; [done| | |done].
    + intros h. rewrite Ht2, lookup_delete. repeat case_bool_decide; repeat case_decide; set_solver.
    + intros h ->%list_elem_of_singleton. by eexists.
  - apply IH in Hrun as (Hc & Ho & Hl).
    + split_and!; [congruence|auto|]. intros l Hr. destruct (Hl l Hr) as (news & -> & Hh & Hn & _).
      exists (v :: news). split_and!; [by rewrite <- (assoc_L (++))| | |done].
      * intros h. rewrite Hh, Ht2, lookup_delete. repeat case_bool_decide; repeat case_decide; set_solver.
      * intros h [->|Hnew]%elem_of_cons; [by eexists|]. specialize (Hn h Hnew). rewrite Ht2 in Hn.
        by apply lookup_delete_is_Some in Hn as [_ ?].
    + clear -Hnd. induction cs as [|c cs IHc]; [constructor|]. apply NoDup_cons in Hnd as [Hn Hnd]. rewrite filter_cons.
      destruct (decide (c.1 ≠ v)); [|by apply IHc]. cbn. constructor; [|by apply IHc].
      intros (c' & Ec & [_ Hc']%list_elem_of_filter)%list_elem_of_fmap. apply Hn. rewrite Ec. by apply list_elem_of_fmap_2.
    + intros h m [Hne Hm]%list_elem_of_filter. rewrite Ht2. apply lookup_delete_is_Some. split; [cbn in Hne; congruence|by eapply Hin].
Qed.

Lemma reclaim_run order now s s' r : (∀ k, order k ≡ₚ elements k) → reclaim_space order now s = (r, s') →
  optimizer_config s' = optimizer_config s ∧ (hot_ok s → hot_ok s')
  ∧ ∀ l, r = Ok l →
    (∀ h, hot_transactions s' !! h = if bool_decide (h ∈ l) then None else hot_transactions s !! h)
    ∧ (∀ h, h ∈ l → is_Some (hot_transactions s !! h))
    ∧ (l = [] → select_victim now (optimizer_config s) (reclaim_candidates order s) = None).
Proof.
  intros Horder. unfold reclaim_space. rewrite (method_bind_run get _ s s s) by done. intros Hrun.
  assert (Hkeys : ∀ ks, NoDup ks → (∀ h, h ∈ ks → is_Some (hot_transactions s !! h)) →
    (omap (λ h, m ← get_metadata h s; Some (h, m)) ks).*1 = ks).
  { clear Hrun. induction ks as [|h ks IH]; intros Hn Hk; [done|]. apply NoDup_cons in Hn as [_ Hn]. cbn [omap list_omap].
    destruct (Hk h ltac:(left)) as [e He]. unfold get_metadata at 1. rewrite He. cbn. f_equal. apply IH; [done|].
    intros k Hk'. apply Hk. by right. }
  apply reclaim_loop_run in Hrun as (Hc & Ho & Hl).
  - split_and!; [done|done|]. intros l Hr. destruct (Hl l Hr) as (news & -> & Hh & Hn & He). cbn.
    split_and!; [done|done|]. intros Hnil. by destruct (He Hnil).
  - unfold reclaim_candidates. rewrite Hkeys; [rewrite Horder; apply NoDup_elements|rewrite Horder; apply NoDup_elements|].
    intros h Hh. rewrite Horder in Hh. by apply elem_of_elements, elem_of_dom in Hh.
  - intros h m. unfold reclaim_candidates. intros (k & _ & Hk)%list_elem_of_omap. unfold get_metadata in Hk.
    destruct (hot_transactions s !! k) as [e|] eqn:Ek; [|done]. cbn in Hk. injection Hk as <- <-. by eexists.
Qed.

(** ** Properties *)
Context (order : gset key → list key) (Horder : ∀ k, order k ≡ₚ elements k).

(** The methods; a transaction is added under a hash that is not in memory. *)
Inductive tier_step s : optimizer → Prop :=
  | step_add now h tx rate : hot_transactions s !! h = None → tier_step s (add_transaction now h tx rate s).2
  | step_get now h : tier_step s (optimizer_get now h s).2
  | step_remove h : tier_step s (optimizer_remove h s).2
  | step_dependents h b : tier_step s (set_has_dependents h b s)
  | step_reclaim now : tier_step s (reclaim_space order now s).2
  | step_promote now h : tier_step s (promote_transaction now h s).2.

Lemma tier_step_ok s s' : tier_step s s' → hot_ok s → hot_ok s'.
Proof.
  destruct 1 as [now h tx rate Hn|now h|h|h b|now|now h]; intros Hs.
  - by apply add_transaction_ok.
  - eapply same_hot_ok; [apply optimizer_get_run|by apply hot_get_ok].
  - unfold optimizer_remove. rewrite (method_bind_run (modify _) _ s tt (hot_remove h s).2) by done.
    eapply same_hot_ok; [apply on_cold_same|by apply hot_remove_ok].
  - unfold set_has_dependents. destruct (hot_transactions s !! h) as [e|] eqn:Eh; [|done]. by eapply hot_set_ok.
  - destruct (reclaim_space order now s) as [r s'] eqn:E. by apply (reclaim_run _ _ _ _ _ Horder) in E as (_ & Ho & _); auto.
  - unfold promote_transaction. destruct (cold_retrieve_run h s) as [Hc Hn]. unfold mbind, method_bind.
    destruct (cold_retrieve h s) as [[[t|]|e|p] s1]; cbn in *; [by destruct (Hn t)|by eapply same_hot_ok..].
Qed.

(** The hot tier never holds more transactions than its limit, and its memory counter
    is the sum of the sizes its entries were counted with. *)
Theorem hot_tier_bounded kv config s (Hs : rtc tier_step (ResourceOptimizer_new kv config) s) :
  Z.of_nat (size (hot_transactions s)) ≤ Z.max 0 (hot_tier_max_transactions (optimizer_config s))
  ∧ current_memory_bytes s = (msum (λ e, memory_size e.2) (hot_transactions s)) mod 2 ^ 64.
Proof.
  assert (Hn : hot_ok (ResourceOptimizer_new kv config)).
  { split; cbn; [rewrite map_size_empty; lia|by rewrite msum_empty]. }
  enough (hot_ok s) as [??] by done. induction Hs as [|s1 s2 s3 H12 _ IH]; [done|]. by apply IH, (tier_step_ok s1).
Qed.

(** A transaction is only ever read from memory: one that is accepted while the hot
    tier is full goes to the storage, and no later call returns it. *)
Theorem demoted_transaction_unreadable now now' h tx rate s s'
    (Hfull : hot_tier_max_transactions (optimizer_config s) ≤ Z.of_nat (size (hot_transactions s)))
    (Hnew : hot_transactions s !! h = None) (Hadd : add_transaction now h tx rate s = (Ok tt, s')) t :
  (optimizer_get now' h s').1 ≠ Ok (Some t).
Proof.
  intros Hget%optimizer_get_run. unfold add_transaction, catch in Hadd.
  destruct (hot_add_full now h tx rate s Hfull) as [e E]. rewrite E in Hadd.
  pose proof (on_cold_same (put_transaction (as_bytes (id tx)) (transaction_value_of tx)) s) as Hc.
  unfold cold_store in Hadd. rewrite Hadd in Hc. cbn [snd] in Hc. rewrite (sh_hot _ _ Hc), Hnew in Hget. by apply is_Some_None in Hget.
Qed.

(** Reclaiming moves transactions out of memory, and none of them can be read again; it
    moves at least one however little memory is in use, unless no score is below
    infinity. *)
Theorem reclaim_space_spec now s evicted s' (Hrun : reclaim_space order now s = (Ok evicted, s')) :
  (∀ h, hot_transactions s' !! h = if bool_decide (h ∈ evicted) then None else hot_transactions s !! h)
  ∧ (∀ h, h ∈ evicted → is_Some (hot_transactions s !! h) ∧ ∀ now' t, (optimizer_get now' h s').1 ≠ Ok (Some t))
  ∧ (evicted = [] → select_victim now (optimizer_config s) (reclaim_candidates order s) = None).
Proof.
  apply (reclaim_run _ _ _ _ _ Horder) in Hrun as (_ & _ & Hl). destruct (Hl evicted eq_refl) as (Hh & Hin & Hnil).
  split_and!; [done| |done]. intros h He. split; [by apply Hin|]. intros now' t Hget%optimizer_get_run.
  rewrite Hh, bool_decide_eq_true_2 in Hget by done. by apply is_Some_None in Hget.
Qed.
End tier_proofs.

(** Of two transactions with the same fee rate the policy evicts the younger one: the
    age raises the score, and the lowest score is the victim. *)
Theorem younger_is_evicted :
  let old := {| arrival_time := 0; meta_fee_rate := 5; last_access_time := 0; memory_size := 1; has_dependents := false |} in
  let young := {| arrival_time := 3600; meta_fee_rate := 5; last_access_time := 3600; memory_size := 1; has_dependents := false |} in
  select_victim 3600 default_optimizer_config [([x01], old); ([x02], young)] = Some [x02].
Proof. vm_compute. reflexivity. Qed.

(** ** Witnesses *)
Abbreviation Opt := (ResourceOptimizer content mem_cache).
Definition coin_tx (n : Z) : Transaction :=
  {| id := hash_of n; inputs := []; outputs := []; execution_payload := []; contract_address := None; gas_limit := 0;
     max_fee_per_gas := 0; chain_id := 1; locktime := 0 |}.
Definition room_for_one : ResourceOptimizerConfig :=
  {| hot_tier_max_transactions := 1; hot_tier_max_memory_bytes := 1000; lru_weight := default_lru_weight;
     fee_score_weight := default_fee_score_weight; promotion_age_threshold := 300; promotion_fee_threshold := 10 |}.
Definition one_hot : Opt := (add_transaction 10 [x01] (coin_tx 1) 5 (ResourceOptimizer_new mem_layer room_for_one)).2.
Definition key_order : gset key → list key := elements.
Lemma key_order_perm s : key_order s ≡ₚ elements s.
Proof. done. Qed.
Lemma one_hot_steps : rtc (tier_step key_order) (ResourceOptimizer_new mem_layer room_for_one) one_hot.
Proof. apply rtc_once. by apply (step_add key_order _ 10 [x01] (coin_tx 1) 5). Qed.

Lemma hot_tier_bounded_witness :
  rtc (tier_step key_order) (ResourceOptimizer_new mem_layer room_for_one) one_hot
  ∧ Z.of_nat (size (hot_transactions one_hot)) ≤ Z.max 0 1.
Proof.
  split; [exact one_hot_steps|].
  apply (hot_tier_bounded key_order key_order_perm mem_layer room_for_one one_hot one_hot_steps).
Defined.
Lemma demoted_transaction_unreadable_witness :
  (add_transaction 11 [x02] (coin_tx 2) 9 one_hot).1 = Ok tt
  ∧ (optimizer_get 12 [x02] (add_transaction 11 [x02] (coin_tx 2) 9 one_hot).2).1 ≠ Ok (Some (coin_tx 2)).
Proof.
  assert (E1 : (add_transaction 11 [x02] (coin_tx 2) 9 one_hot).1 = Ok tt) by (vm_compute; reflexivity).
  split; [exact E1|]. destruct (add_transaction 11 [x02] (coin_tx 2) 9 one_hot) as [r s'] eqn:E. cbn [fst] in E1. subst r.
  refine (demoted_transaction_unreadable 11 12 [x02] (coin_tx 2) 9 one_hot s' _ _ E (coin_tx 2)); [vm_compute; discriminate|reflexivity].
Defined.
Lemma reclaim_space_spec_witness :
  (reclaim_space key_order 20 one_hot).1 = Ok [[x01]]
  ∧ hot_transactions (reclaim_space key_order 20 one_hot).2 !! [x01] = None.
Proof.
  assert (E1 : (reclaim_space key_order 20 one_hot).1 = Ok [[x01]]) by (vm_compute; reflexivity).
  split; [exact E1|]. destruct (reclaim_space key_order 20 one_hot) as [r s'] eqn:E. cbn [fst] in E1. subst r.
  destruct (reclaim_space_spec key_order key_order_perm 20 one_hot [[x01]] s' E) as (Hh & _).
  cbn [snd]. rewrite Hh. reflexivity.
Defined.
