(* ===== verification/PriorityBuckets.v ===== *)
(** * Priority buckets and the deterministic ordering engine

    [mempool/priority_ordering.rs] and [mempool/deterministic_ordering.rs] of
    klomang-node: transactions filed by fee rate, each bucket kept sorted by a binary
    search, and the engine that hands them out in order.  The engine's reference to the
    storage is only asked whether it is there. *)

From Stdlib Require Import Init.Byte Floats.SpecFloat.
From stdpp Require Import gmap.
From S2P Require Import Prelude Pow NodePrelude F64.

Abbreviation key := (list byte).

Record PriorityOrderingConfig := { fee_rate_thresholds : list Z; deterministic_ordering : bool }.
Definition default_ordering_config : PriorityOrderingConfig :=
  {| fee_rate_thresholds := [1; 10; 100; 1000]; deterministic_ordering := true |}.

Record PrioritizedTransaction := {
  pt_hash : key;
  pt_score : f64;
  pt_fee_rate : Z;
  pt_arrival_time : Z;
  pt_size_bytes : Z;
  pt_total_fee : Z
}.
(** 0.001 *)
Definition f64_milli : f64 := S754_finite false 4611686018427388 (-62).
Definition PrioritizedTransaction_new (tx_hash : key) (fee_rate arrival_time size_bytes total_fee : Z) : PrioritizedTransaction :=
  {| pt_hash := tx_hash;
     pt_score := f64_add (f64_mul (f64_of_Z fee_rate) (f64_of_Z 100)) (f64_mul (f64_of_Z arrival_time) f64_milli);
     pt_fee_rate := fee_rate; pt_arrival_time := arrival_time; pt_size_bytes := size_bytes; pt_total_fee := total_fee |}.

(** [Lt]: the first transaction has the higher priority. *)
Definition compare_deterministic (a b : PrioritizedTransaction) : comparison :=
  match SFcompare (pt_score b) (pt_score a) with
  | Some Eq | None => bytes_compare (pt_hash a) (pt_hash b)
  | Some c => c
  end.

Record PriorityBucket := { lower_bound : Z; upper_bound : Z; bucket_txs : list PrioritizedTransaction }.
Definition PriorityBucket_new (lo hi : Z) : PriorityBucket := {| lower_bound := lo; upper_bound := hi; bucket_txs := [] |}.
Definition set_bucket_txs (l : list PrioritizedTransaction) (b : PriorityBucket) : PriorityBucket :=
  {| lower_bound := lower_bound b; upper_bound := upper_bound b; bucket_txs := l |}.
Definition in_range (fee_rate : Z) (b : PriorityBucket) : bool := (lower_bound b <=? fee_rate) && (fee_rate <? upper_bound b).

(** [binary_search_by] on a sorted list finds the first entry that is not [Less]; the
    closure reverses the comparison. *)
Fixpoint insert_at_search (tx : PrioritizedTransaction) (l : list PrioritizedTransaction) : list PrioritizedTransaction :=
  match l with
  | [] => [tx]
  | existing :: l' =>
      match CompOpp (compare_deterministic existing tx) with
      | Lt => existing :: insert_at_search tx l'
      | _ => tx :: l
      end
  end.
Definition bucket_insert (tx : PrioritizedTransaction) (b : PriorityBucket) : outcome string PriorityBucket :=
  if in_range (pt_fee_rate tx) b then Ok (set_bucket_txs (insert_at_search tx (bucket_txs b)) b)
  else Err "Fee rate {} outside bucket range [{}, {})".
Fixpoint remove_first (h : key) (l : list PrioritizedTransaction) : option PrioritizedTransaction * list PrioritizedTransaction :=
  match l with
  | [] => (None, [])
  | t :: l => if bool_decide (pt_hash t = h) then (Some t, l) else let '(r, l) := remove_first h l in (r, t :: l)
  end.
Definition bucket_find (h : key) (b : PriorityBucket) : option PrioritizedTransaction :=
  find (λ t, bool_decide (pt_hash t = h)) (bucket_txs b).

(** ** The buckets *)
Record PriorityBuckets := {
  buckets : list PriorityBucket;
  ordering_config : PriorityOrderingConfig;
  hash_index : gmap key (nat * Z)
}.
Fixpoint buckets_from (lo : Z) (thresholds : list Z) : list PriorityBucket :=
  match thresholds with
  | [] => [PriorityBucket_new lo u64_max]
  | t :: ts => PriorityBucket_new lo t :: buckets_from t ts
  end.
Definition PriorityBuckets_new (config : PriorityOrderingConfig) : PriorityBuckets :=
  {| buckets := buckets_from 0 (fee_rate_thresholds config); ordering_config := config; hash_index := ∅ |}.

Fixpoint position (p : PriorityBucket → bool) (l : list PriorityBucket) : option nat :=
  match l with
  | [] => None
  | b :: l => if p b then Some O else S <$> position p l
  end.
Definition buckets_insert (tx : PrioritizedTransaction) : method PriorityBuckets string unit :=
  s ← get;
  _ ← lift (ensure (deterministic_ordering (ordering_config s)) "Deterministic ordering is disabled");
  i ← lift (ok_or (position (in_range (pt_fee_rate tx)) (buckets s)) "No suitable bucket for fee rate");
  b ← lift (ok_or (buckets s !! i) "index out of bounds");
  b ← lift (bucket_insert tx b);
  put {| buckets := <[i := b]> (buckets s); ordering_config := ordering_config s;
         hash_index := <[pt_hash tx := (i, Z.of_nat (length (bucket_txs b)) - 1)]> (hash_index s) |}.
Definition buckets_remove (h : key) (s : PriorityBuckets) : option PrioritizedTransaction * PriorityBuckets :=
  match hash_index s !! h with
  | Some (i, _pos) =>
      match buckets s !! i with
      | Some b =>
          let '(r, l) := remove_first h (bucket_txs b) in
          (r, {| buckets := <[i := set_bucket_txs l b]> (buckets s); ordering_config := ordering_config s;
                 hash_index := delete h (hash_index s) |})
      | None => (None, s)
      end
  | None => (None, s)
  end.
Definition buckets_contain (h : key) (s : PriorityBuckets) : bool := bool_decide (is_Some (hash_index s !! h)).
Definition buckets_get (h : key) (s : PriorityBuckets) : option PrioritizedTransaction :=
  i ← hash_index s !! h; b ← buckets s !! i.1; bucket_find h b.

(** The push comes before the test of the limit. *)
Fixpoint push_until (limit : nat) (acc l : list PrioritizedTransaction) : list PrioritizedTransaction :=
  match l with
  | [] => acc
  | t :: l =>
      let acc := acc ++ [t] in
      if bool_decide (limit ≤ length acc)%nat then acc else push_until limit acc l
  end.
Definition get_ordered_transactions (limit : nat) (s : PriorityBuckets) : list PrioritizedTransaction :=
  push_until limit [] (mjoin (bucket_txs <$> reverse (buckets s))).
(** [iter_ordered]: the iterator goes through the buckets from the first. *)
Definition iter_ordered (s : PriorityBuckets) : list PrioritizedTransaction := mjoin (bucket_txs <$> buckets s).
Definition get_bucket_transactions (i : nat) (s : PriorityBuckets) : outcome string (list PrioritizedTransaction) :=
  b ← ok_or (buckets s !! i) "Bucket {} not found"; mret (bucket_txs b).
Definition bucket_counts (s : PriorityBuckets) : list Z := (λ b, Z.of_nat (length (bucket_txs b))) <$> buckets s.
Definition total_count (s : PriorityBuckets) : Z := zsum (bucket_counts s).

Fixpoint check_order (prev : option PrioritizedTransaction) (l : list PrioritizedTransaction) : outcome string unit :=
  match l with
  | [] => Ok tt
  | tx :: l =>
      _ ← match prev with
          | Some p =>
              match compare_deterministic p tx with
              | Gt | Eq => Err "Transaction not ordered correctly relative to peer"
              | Lt => Err "Invalid ordering: later transaction has higher priority"
              end
          | None => Ok tt
          end;
      check_order (Some tx) l
  end.
Definition check_member (s : PriorityBuckets) (i : nat) (b : PriorityBucket) (u : unit) (tx : PrioritizedTransaction) :
    outcome string unit :=
  _ ← ensure (in_range (pt_fee_rate tx) b) "Transaction has fee rate {} outside bucket [{}, {})";
  match hash_index s !! pt_hash tx with
  | Some (j, _) => ensure (bool_decide (j = i)) "Hash index mismatch for transaction"
  | None => Ok tt
  end.
Definition check_bucket (s : PriorityBuckets) (u : unit) (entry : nat * PriorityBucket) : outcome string unit :=
  _ ← fold_outcome (check_member s entry.1 entry.2) tt (bucket_txs entry.2);
  check_order None (bucket_txs entry.2).
Definition buckets_verify (s : PriorityBuckets) : outcome string unit :=
  fold_outcome (check_bucket s) tt (enumerate (buckets s)).
Definition buckets_clear (s : PriorityBuckets) : PriorityBuckets :=
  {| buckets := set_bucket_txs [] <$> buckets s; ordering_config := ordering_config s; hash_index := ∅ |}.

Record BucketInfo := { bi_lower : Z; bi_upper : Z; bi_count : Z; bi_total_fees : Z; bi_average_fee : Z }.
Definition bucket_info (b : PriorityBucket) : BucketInfo :=
  let count := Z.of_nat (length (bucket_txs b)) in
  let fees := wrap 64 (zsum (pt_total_fee <$> bucket_txs b)) in
  {| bi_lower := lower_bound b; bi_upper := upper_bound b; bi_count := count; bi_total_fees := fees;
     bi_average_fee := if 0 <? count then fees / count else 0 |}.
Record BucketStatistics := { bs_transactions : Z; bs_fees : Z; bs_info : list BucketInfo }.
Definition get_statistics (s : PriorityBuckets) : BucketStatistics :=
  let info := bucket_info <$> buckets s in
  {| bs_transactions := total_count s; bs_fees := wrap 64 (zsum (bi_total_fees <$> info)); bs_info := info |}.

(** ** The engine *)
Record DeterministicEngine := { priority_buckets : PriorityBuckets; has_store : bool; use_storage_verification : bool }.
Definition set_priority_buckets (b : PriorityBuckets) (s : DeterministicEngine) : DeterministicEngine :=
  {| priority_buckets := b; has_store := has_store s; use_storage_verification := use_storage_verification s |}.
Definition DeterministicEngine_new (use_storage : bool) : DeterministicEngine :=
  {| priority_buckets := PriorityBuckets_new default_ordering_config; has_store := false;
     use_storage_verification := use_storage |}.
Definition engine_add (tx_hash : key) (fee_rate arrival_time size_bytes total_fee : Z) : method DeterministicEngine string unit :=
  zoom priority_buckets set_priority_buckets
    (buckets_insert (PrioritizedTransaction_new tx_hash fee_rate arrival_time size_bytes total_fee)).
Definition engine_remove (h : key) (s : DeterministicEngine) : option PrioritizedTransaction * DeterministicEngine :=
  let '(r, b) := buckets_remove h (priority_buckets s) in (r, set_priority_buckets b s).
Definition engine_ordered (limit : nat) (s : DeterministicEngine) : list PrioritizedTransaction :=
  get_ordered_transactions limit (priority_buckets s).

Record OrderingValidation := { is_valid : bool; error_message : option string; validated_count : Z; storage_verified : bool }.
Definition validation_success (count : Z) (verified : bool) : OrderingValidation :=
  {| is_valid := true; error_message := None; validated_count := count; storage_verified := verified |}.
Definition validation_failure (error : string) (count : Z) : OrderingValidation :=
  {| is_valid := false; error_message := Some error; validated_count := count; storage_verified := false |}.
Definition verify_ordering_consistency (s : DeterministicEngine) : outcome string OrderingValidation :=
  _ ← map_err (String.append "Bucket consistency check failed: ") (buckets_verify (priority_buckets s));
  mret (validation_success (total_count (priority_buckets s)) (if use_storage_verification s then has_store s else false)).
Fixpoint compare_peers (idx : Z) (ours theirs : list PrioritizedTransaction) : option OrderingValidation :=
  match ours, theirs with
  | t :: ours, p :: theirs =>
      if negb (bool_decide (pt_hash t = pt_hash p)) then Some (validation_failure "Transaction mismatch at position {}" idx)
      else match compare_deterministic t p with
           | Eq => compare_peers (idx + 1) ours theirs
           | _ => Some (validation_failure "Deterministic comparison failed at position {}: {:?}" idx)
           end
  | _, _ => None
  end.
Definition validate_against_peer (peer : list PrioritizedTransaction) (s : DeterministicEngine) : OrderingValidation :=
  let ours := engine_ordered (length peer) s in
  let count := Z.of_nat (length ours) in
  if negb (bool_decide (length ours = length peer)) then validation_failure "Transaction count mismatch: {} vs {}" count
  else default (validation_success count false) (compare_peers 0 ours peer).
Definition engine_process_batch (txs : list (key * Z * Z * Z * Z)) : method DeterministicEngine string Z :=
  _ ← for_each (λ '(tx_hash, fee_rate, arrival_time, size_bytes, total_fee), engine_add tx_hash fee_rate arrival_time size_bytes total_fee) txs;
  mret (Z.of_nat (length txs)).
Definition import_ordered_batch (txs : list PrioritizedTransaction) : method DeterministicEngine string Z :=
  _ ← for_each (λ t, engine_add (pt_hash t) (pt_fee_rate t) (pt_arrival_time t) (pt_size_bytes t) (pt_total_fee t)) txs;
  s ← get; mret (total_count (priority_buckets s)).
Definition engine_reset (s : DeterministicEngine) : DeterministicEngine := set_priority_buckets (buckets_clear (priority_buckets s)) s.

(** ** The order of a bucket *)
(** The order in which the search keeps a bucket: by increasing score, and by
    decreasing hash among equal scores. *)
Definition rank_leb (x y : PrioritizedTransaction) : bool :=
  match lex3 (f64_key (pt_score x)) (f64_key (pt_score y)) with
  | Lt => true
  | Gt => false
  | Eq => bytes_leb (pt_hash y) (pt_hash x)
  end.
Definition numbered (t : PrioritizedTransaction) : Prop := f64_is_nan (pt_score t) = false.

Lemma compare_rank x y : numbered x → numbered y →
  compare_deterministic y x = match lex3 (f64_key (pt_score x)) (f64_key (pt_score y)) with
                              | Eq => bytes_compare (pt_hash y) (pt_hash x)
                              | c => c
                              end.
Proof. intros Hx Hy. unfold compare_deterministic. rewrite SFcompare_key by done. by destruct (lex3 _ _). Qed.
Lemma rank_leb_compare x y : numbered x → numbered y →
  rank_leb x y = match compare_deterministic y x with Gt => false | _ => true end.
Proof.
  intros Hx Hy. rewrite compare_rank by done. unfold rank_leb. destruct (lex3 _ _); try done.
  unfold bytes_compare. destruct (bytes_leb (pt_hash y) (pt_hash x)); [by destruct (bytes_leb _ _)|done].
Qed.
Lemma rank_leb_total x y : rank_leb x y = true ∨ rank_leb y x = true.
Proof.
  unfold rank_leb. rewrite (lex3_antisym (f64_key (pt_score x)) (f64_key (pt_score y))).
  destruct (lex3 _ _); cbn; auto using bytes_leb_total.
Qed.
Lemma rank_leb_trans x y z : rank_leb x y = true → rank_leb y z = true → rank_leb x z = true.
Proof.
  unfold rank_leb. destruct (lex3 (f64_key (pt_score x)) (f64_key (pt_score y))) eqn:E1; try done;
    destruct (lex3 (f64_key (pt_score y)) (f64_key (pt_score z))) eqn:E2; try done.
  - apply lex3_eq in E1, E2. rewrite E1, E2, (proj2 (lex3_eq _ _) eq_refl). intros H1 H2. by eapply bytes_leb_trans.
  - apply lex3_eq in E1. by rewrite E1, E2.
  - apply lex3_eq in E2. by rewrite <- E2, E1.
  - by rewrite (lex3_lt_trans _ _ _ E1 E2).
Qed.
Lemma rank_leb_hash x y : rank_leb x y = true → rank_leb y x = true → pt_hash x = pt_hash y.
Proof.
  unfold rank_leb. rewrite (lex3_antisym (f64_key (pt_score x)) (f64_key (pt_score y))).
  destruct (lex3 _ _); cbn; try done. intros. by apply bytes_leb_antisym.
Qed.

Lemma insert_at_search_rank tx l : numbered tx → Forall numbered l → insert_at_search tx l = insert_sorted rank_leb tx l.
Proof.
  intros Ht. induction 1 as [|y l Hy _ IH]; cbn; [done|]. rewrite rank_leb_compare by done.
  destruct (compare_deterministic y tx); cbn; by rewrite ?IH.
Qed.

(** ** Filing a list of transactions *)
Definition fresh_buckets : list PriorityBucket := buckets_from 0 [1; 10; 100; 1000].
Abbreviation filed_in b0 := (filter (λ t, in_range (pt_fee_rate t) b0 = true)).

Record filed (txs : list PrioritizedTransaction) (s : PriorityBuckets) : Prop := {
  fi_enabled : deterministic_ordering (ordering_config s) = true;
  fi_length : length (buckets s) = length fresh_buckets;
  fi_bucket : ∀ i b0, fresh_buckets !! i = Some b0 → ∃ b, buckets s !! i = Some b
    ∧ lower_bound b = lower_bound b0 ∧ upper_bound b = upper_bound b0
    ∧ bucket_txs b ≡ₚ filed_in b0 txs ∧ StronglySorted (λ x y, rank_leb x y = true) (bucket_txs b)
}.

Lemma fresh_disjoint i j b c rate : fresh_buckets !! i = Some b → fresh_buckets !! j = Some c →
  in_range rate b = true → in_range rate c = true → i = j.
Proof.
  unfold in_range. intros Hi Hj Hb Hc. destruct i as [|[|[|[|[|i]]]]]; try done;
    destruct j as [|[|[|[|[|j]]]]]; try done; injection Hi as <-; injection Hj as <-; cbn in Hb, Hc; lia.
Qed.
Lemma fresh_covers rate : 0 ≤ rate < u64_max → ∃ i b, fresh_buckets !! i = Some b ∧ in_range rate b = true.
Proof.
  intros Hr. unfold in_range. destruct (decide (rate < 1)); [exists 0%nat|destruct (decide (rate < 10)); [exists 1%nat|
    destruct (decide (rate < 100)); [exists 2%nat|destruct (decide (rate < 1000)); [exists 3%nat|exists 4%nat]]]];
    (eexists; split; [reflexivity|]); cbn; lia.
Qed.
Lemma position_spec p l i : position p l = Some i → ∃ b, l !! i = Some b ∧ p b = true.
Proof.
  revert i; induction l as [|c l IH]; intros i; cbn; [done|]. destruct (p c) eqn:Ec; [intros [= <-]; eauto|].
  intros (j & Hj & ->)%fmap_Some. apply (IH j Hj).
Qed.
Lemma position_some p l b i : l !! i = Some b → p b = true → is_Some (position p l).
Proof.
  revert i; induction l as [|c l IH]; intros [|i]; cbn; try done.
  - intros [= ->] ->. by eexists.
  - intros Hi Hp. destruct (p c); [by eexists|]. destruct (IH i Hi Hp) as [j ->]. by eexists.
Qed.

Definition fileable (t : PrioritizedTransaction) : Prop := numbered t ∧ 0 ≤ pt_fee_rate t < u64_max.

Lemma insert_filed txs t s : Forall fileable txs → fileable t → filed txs s →
  ∃ s', buckets_insert t s = (Ok tt, s') ∧ filed (txs ++ [t]) s'.
Proof.
  intros Htxs [Hnum Hrate] [He Hlen Hb]. unfold buckets_insert. rewrite (method_bind_run get _ s s s) by done. rewrite He.
  rewrite (method_bind_run (lift (ensure true _)) _ s tt s) by done.
  destruct (fresh_covers _ Hrate) as (i & b0 & Hi & Hr). destruct (Hb i b0 Hi) as (b & Hsi & Hlo & Hhi & Hp & Hs).
  assert (Hrange : ∀ c c0, lower_bound c = lower_bound c0 → upper_bound c = upper_bound c0 → in_range (pt_fee_rate t) c = in_range (pt_fee_rate t) c0).
  { intros c c0 E1 E2. unfold in_range. by rewrite E1, E2. }
  assert (Epos : position (in_range (pt_fee_rate t)) (buckets s) = Some i).
  { destruct (position_some (in_range (pt_fee_rate t)) (buckets s) b i Hsi) as [j Hj]; [by rewrite (Hrange b b0)|].
    rewrite Hj. f_equal. apply position_spec in Hj as (c & Hc & Hrc).
    destruct (fresh_buckets !! j) as [c0|] eqn:Ej.
    - destruct (Hb j c0 Ej) as (c' & Hc' & Hl' & Hu' & _). rewrite Hc in Hc'. injection Hc' as <-.
      eapply fresh_disjoint; [exact Ej|exact Hi| |exact Hr]. by rewrite <- (Hrange c c0).
    - apply lookup_ge_None in Ej. apply lookup_lt_Some in Hc. lia. }
  rewrite Epos. cbn [ok_or]. rewrite (method_bind_run (lift (Ok i)) _ s i s) by done. rewrite Hsi. cbn [ok_or].
  rewrite (method_bind_run (lift (Ok b)) _ s b s) by done. unfold bucket_insert. rewrite (Hrange b b0), Hr by done.
  eexists. split; [reflexivity|]. split; [done|by cbn; rewrite length_insert|]. intros j c0 Hj. cbn [buckets].
  rewrite filter_app, filter_cons, filter_nil. destruct (decide (j = i)) as [->|Hji].
  - rewrite Hi in Hj. injection Hj as <-. eexists. rewrite list_lookup_insert_eq by (by eapply lookup_lt_Some).
    split; [done|]. split; [done|]. split; [done|]. cbn [bucket_txs set_bucket_txs]. rewrite decide_True by done.
    assert (Hnums : Forall numbered (bucket_txs b)).
    { apply Forall_forall. intros x Hx. rewrite Hp in Hx. apply list_elem_of_filter in Hx as [_ Hx].
      rewrite Forall_forall in Htxs. by apply Htxs. }
    rewrite insert_at_search_rank by done. split.
    + rewrite insert_sorted_perm, Hp. by rewrite Permutation_cons_append.
    + apply insert_sorted_sorted; [apply rank_leb_total|apply rank_leb_trans|done].
  - rewrite list_lookup_insert_ne by done. destruct (Hb j c0 Hj) as (c & Hc & Hl & Hu & Hpc & Hsc). exists c.
    rewrite decide_False; [by rewrite app_nil_r|]. intros Hrc. apply Hji. by eapply fresh_disjoint.
Qed.

Lemma file_all txs : Forall fileable txs → ∃ s,
  for_each buckets_insert txs (PriorityBuckets_new default_ordering_config) = (Ok tt, s) ∧ filed txs s.
Proof.
  intros Htxs. set (s0 := PriorityBuckets_new default_ordering_config).
  assert (H0' : filed [] s0).
  { split; [done|done|]. intros i b0 Hi. exists b0. split; [done|]. split; [done|]. split; [done|].
    destruct i as [|[|[|[|[|i]]]]]; try done; injection Hi as <-; (split; [done|constructor]). }
  assert (Hrun : ∀ k done s, Forall fileable done → Forall fileable k → filed done s →
    ∃ s', for_each buckets_insert k s = (Ok tt, s') ∧ filed (done ++ k) s').
  { induction k as [|t k IH]; intros d s Hd Hk Hs; [exists s; by rewrite app_nil_r|]. apply Forall_cons in Hk as [Ht Hk].
    destruct (insert_filed d t s Hd Ht Hs) as (s1 & E1 & Hs1). cbn [for_each].
    destruct (IH (d ++ [t]) s1) as (s2 & E2 & Hs2); [by apply Forall_app; split; [|constructor]|done|done|].
    exists s2. rewrite (method_bind_run _ _ _ _ _ E1). split; [done|]. by rewrite <- (assoc_L (++)) in Hs2. }
  destruct (Hrun txs [] s0) as (s & E & Hs); [constructor|done|done|]. by exists s.
Qed.

Lemma filed_buckets txs txs' s s' : filed txs s → filed txs' s' → txs ≡ₚ txs' → NoDup (pt_hash <$> txs) →
  bucket_txs <$> buckets s = bucket_txs <$> buckets s'.
Proof.
  intros [_ Hl Hb] [_ Hl' Hb'] Hp Hnd. apply list_eq. intros i. rewrite !list_lookup_fmap.
  destruct (fresh_buckets !! i) as [b0|] eqn:Ei.
  - destruct (Hb i b0 Ei) as (b & -> & _ & _ & Hpb & Hsb), (Hb' i b0 Ei) as (b' & -> & _ & _ & Hpb' & Hsb'). cbn. f_equal.
    eapply sorted_unique_on; [|exact Hsb|exact Hsb'|]; [by rewrite Hpb, Hpb', Hp|].
    intros x y Hx Hy H1 H2. rewrite Hpb in Hx, Hy. apply list_elem_of_filter in Hx as [_ Hx], Hy as [_ Hy].
    pose proof (rank_leb_hash x y H1 H2) as Eh. apply list_elem_of_lookup in Hx as [j Hx], Hy as [k Hy].
    assert (j = k) as ->.
    { apply (NoDup_lookup _ _ _ (pt_hash x) Hnd); rewrite list_lookup_fmap; [by rewrite Hx|by rewrite Hy; cbn; f_equal]. }
    congruence.
  - apply lookup_ge_None in Ei. rewrite !lookup_ge_None_2 by lia. done.
Qed.

Lemma new_numbered h rate arrival size fee : 0 ≤ rate → 0 ≤ arrival → numbered (PrioritizedTransaction_new h rate arrival size fee).
Proof.
  intros Hr Ha. apply f64_nonneg_num. cbn [PrioritizedTransaction_new pt_score].
  assert (E : ∃ m e, f64_of_Z 100 = S754_finite false m e) by (eexists _, _; vm_compute; reflexivity). destruct E as (m & e & ->).
  apply f64_add_nonneg; apply f64_mul_nonneg; by apply f64_of_Z_nonneg.
Qed.

(** ** Properties *)

(** Filing the same transactions, with the same recorded arrivals, in two orders gives
    the same buckets, and every limit the same list. *)
Theorem filing_order_irrelevant txs txs' (Hf : Forall fileable txs) (Hnd : NoDup (pt_hash <$> txs)) (Hp : txs ≡ₚ txs') :
  ∃ s s', for_each buckets_insert txs (PriorityBuckets_new default_ordering_config) = (Ok tt, s)
  ∧ for_each buckets_insert txs' (PriorityBuckets_new default_ordering_config) = (Ok tt, s')
  ∧ ∀ limit, get_ordered_transactions limit s = get_ordered_transactions limit s'.
Proof.
  destruct (file_all txs Hf) as (s & E & Hs). destruct (file_all txs') as (s' & E' & Hs'); [by rewrite <- Hp|].
  exists s, s'. split_and!; [done|done|]. intros limit. unfold get_ordered_transactions.
  rewrite !fmap_reverse. by rewrite (filed_buckets txs txs' s s' Hs Hs' Hp Hnd).
Qed.

(** In every bucket a transaction is followed by one of higher priority: the buckets are
    handed out from the highest fee range, each from its lowest priority. *)
Theorem buckets_lowest_first txs (Hf : Forall fileable txs) (Hnd : NoDup (pt_hash <$> txs)) :
  ∃ s, for_each buckets_insert txs (PriorityBuckets_new default_ordering_config) = (Ok tt, s)
  ∧ ∀ b, b ∈ buckets s → (∀ t, t ∈ bucket_txs b → t ∈ txs ∧ in_range (pt_fee_rate t) b = true)
    ∧ ∀ l1 x y l2, bucket_txs b = l1 ++ x :: y :: l2 → compare_deterministic y x = Lt.
Proof.
  destruct (file_all txs Hf) as (s & E & [_ Hlen Hb]). exists s. split; [done|]. intros b (i & Hi)%list_elem_of_lookup.
  assert (Hi' : is_Some (fresh_buckets !! i)) by (apply lookup_lt_is_Some_2; apply lookup_lt_Some in Hi; lia).
  destruct Hi' as [b0 Hb0]. destruct (Hb i b0 Hb0) as (b' & Hi' & Hl & Hu & Hp & Hs). rewrite Hi in Hi'. injection Hi' as <-.
  assert (Hmem : ∀ t, t ∈ bucket_txs b → t ∈ txs ∧ in_range (pt_fee_rate t) b = true).
  { intros t Ht. rewrite Hp in Ht. apply list_elem_of_filter in Ht as [Ht ?]. split; [done|]. unfold in_range in *. by rewrite Hl, Hu. }
  split; [done|]. intros l1 x y l2 El.
  assert (Hxy : rank_leb x y = true).
  { rewrite El in Hs. clear -Hs. induction l1 as [|z l1 IH]; cbn in Hs; apply StronglySorted_inv in Hs as [Hs Hx]; [|by apply IH].
    by apply Forall_cons in Hx as [? _]. }
  destruct (Hmem x) as [Hx _]; [rewrite El; set_solver|]. destruct (Hmem y) as [Hy _]; [rewrite El; set_solver|].
  rewrite Forall_forall in Hf. destruct (Hf x Hx) as [Hnx _], (Hf y Hy) as [Hny _].
  rewrite (rank_leb_compare x y) in Hxy by done. destruct (compare_deterministic y x) eqn:Ec; [|done|done]. exfalso.
  rewrite compare_rank in Ec by done. destruct (lex3 _ _); try done. apply bytes_compare_eq in Ec.
  assert (Hsub : NoDup (pt_hash <$> bucket_txs b)).
  { rewrite Hp. clear -Hnd. induction txs as [|t k IH]; [constructor|]. cbn in Hnd. apply NoDup_cons in Hnd as [Hn Hnd].
    rewrite filter_cons. destruct (decide _); [|by apply IH]. cbn. constructor; [|by apply IH].
    intros (t' & Et & [_ Ht']%list_elem_of_filter)%list_elem_of_fmap. apply Hn. rewrite Et. by apply list_elem_of_fmap_2. }
  rewrite El, fmap_app in Hsub. apply NoDup_app in Hsub as (_ & _ & Hsub). cbn in Hsub.
  apply NoDup_cons in Hsub as [Hsub _]. apply Hsub. rewrite Ec. left.
Qed.

(** The consistency check refuses every bucket with two transactions, whatever their
    order. *)
Theorem verify_rejects_any_pair s b (Hb : b ∈ buckets s) (Hlen : (2 ≤ length (bucket_txs b))%nat) :
  buckets_verify s ≠ Ok tt.
Proof.
  unfold buckets_verify. assert (Hin : ∃ i, (i, b) ∈ enumerate (buckets s)).
  { apply list_elem_of_lookup in Hb as [i Hi]. exists i. apply (list_elem_of_lookup_2 _ i). by rewrite enumerate_lookup, Hi. }
  destruct Hin as [i Hin]. revert Hin. generalize (enumerate (buckets s)). intros l Hin Hok.
  induction l as [|e l IH]; [by apply not_elem_of_nil in Hin|]. cbn [fold_outcome] in Hok.
  apply bind_ok in Hok as ([] & He & Hok). apply elem_of_cons in Hin as [<-|Hin]; [|by apply IH]. clear Hok.
  unfold check_bucket in He. apply bind_ok in He as ([] & _ & He). cbn [snd] in He.
  destruct (bucket_txs b) as [|x [|y k]]; [cbn in Hlen; lia|cbn in Hlen; lia|]. cbn [check_order] in He.
  apply bind_ok in He as (_ & _ & He). apply bind_ok in He as (u & He & _). by destruct (compare_deterministic x y).
Qed.

(** The score counts the local time of arrival: two nodes that saw the same two
    transactions of equal fee in opposite orders hand them out in opposite orders. *)
Theorem arrival_splits_nodes :
  let node t1 t2 := (for_each buckets_insert [PrioritizedTransaction_new [x01] 5 t1 100 500; PrioritizedTransaction_new [x02] 5 t2 100 500]
                      (PriorityBuckets_new default_ordering_config)).2 in
  pt_hash <$> get_ordered_transactions 2 (node 1000 2000) = [[x01]; [x02]]
  ∧ pt_hash <$> get_ordered_transactions 2 (node 2000 1000) = [[x02]; [x01]].
Proof. vm_compute. done. Qed.

(** A transaction filed twice and removed once is still handed out, and no lookup or
    removal finds it. *)
Theorem refiled_transaction_stuck t (Ht : fileable t) :
  ∃ s, for_each buckets_insert [t; t] (PriorityBuckets_new default_ordering_config) = (Ok tt, s)
  ∧ let s' := (buckets_remove (pt_hash t) s).2 in
    buckets_contain (pt_hash t) s' = false ∧ buckets_remove (pt_hash t) s' = (None, s')
    ∧ ∃ b, b ∈ buckets s' ∧ t ∈ bucket_txs b.
Proof.
  destruct (file_all [t]) as (s & E & Hs); [by constructor|]. destruct (insert_filed [t] t s) as (s1 & E1 & Hs1); [by constructor|done|done|].
  exists s1. split.
  { cbn [for_each] in E |- *. destruct (buckets_insert t (PriorityBuckets_new default_ordering_config)) as [[[]|e|p] s0] eqn:E0.
    - rewrite (method_bind_run _ _ _ _ _ E0) in E. rewrite (method_bind_run _ _ _ _ _ E0). injection E as ->. by rewrite (method_bind_run _ _ _ _ _ E1).
    - by rewrite (method_bind_stop _ _ _ _ _ E0) in E.
    - by rewrite (method_bind_unwind _ _ _ _ _ E0) in E. }
  unfold buckets_insert in E1. apply method_bind_ok in E1 as (sa & sb & [= <- <-] & E1).
  apply method_bind_ok in E1 as (u & sb & [= Hen <-] & E1). apply method_bind_ok in E1 as (i & sb & [= Hi <-] & E1).
  apply method_bind_ok in E1 as (b & sb & [= Hb <-] & E1). apply method_bind_ok in E1 as (b' & sb & [= Hb' <-] & E1).
  injection E1 as Es1. cbn zeta. set (s1' := (buckets_remove (pt_hash t) s1).2).
  apply ok_or_ok in Hi, Hb. destruct (position_spec _ _ _ Hi) as (b2 & Hb2 & Hin). rewrite Hb in Hb2. injection Hb2 as <-.
  assert (Hmem : bucket_txs b ≡ₚ [t]).
  { destruct Hs as [_ Hl Hf]. assert (is_Some (fresh_buckets !! i)) as [b0 Hb0].
    { apply lookup_lt_is_Some_2. apply lookup_lt_Some in Hb. lia. }
    destruct (Hf i b0 Hb0) as (c & Hc & Hlo & Hhi & Hp & _). rewrite Hb in Hc. injection Hc as <-. rewrite Hp.
    rewrite filter_cons_True; [done|]. unfold in_range in *. by rewrite <- Hlo, <- Hhi. }
  symmetry in Hmem. apply Permutation_singleton_l in Hmem. unfold bucket_insert in Hb'. rewrite Hin, <- Hmem in Hb'.
  assert (Eb' : bucket_txs b' = [t; t]) by (injection Hb' as <-; cbn; by destruct (CompOpp _)).
  assert (Er : buckets_remove (pt_hash t) s1 = (Some t, {| buckets := <[i := set_bucket_txs [t] b']> (<[i := b']> (buckets s));
      ordering_config := ordering_config s; hash_index := delete (pt_hash t) (<[pt_hash t := (i, Z.of_nat (length (bucket_txs b')) - 1)]> (hash_index s)) |})).
  { unfold buckets_remove. rewrite <- Es1. cbn [hash_index buckets ordering_config]. rewrite lookup_insert_eq.
    rewrite list_lookup_insert_eq by (by eapply lookup_lt_Some). rewrite Eb'. cbn. by rewrite bool_decide_eq_true_2. }
  unfold s1'. rewrite Er. cbn [snd]. split_and!.
  - unfold buckets_contain. cbn. rewrite lookup_delete_eq. done.
  - unfold buckets_remove. cbn. by rewrite lookup_delete_eq.
  - exists (set_bucket_txs [t] b'). cbn [buckets]. split; [|left]. apply (list_elem_of_lookup_2 _ i).
    apply list_lookup_insert_eq. rewrite length_insert. by eapply lookup_lt_Some.
Qed.

(** ** Witnesses *)
Definition prio (h : key) (rate arrival : Z) : PrioritizedTransaction := PrioritizedTransaction_new h rate arrival 100 500.
Lemma prio_fileable h rate arrival : 0 ≤ rate < u64_max → 0 ≤ arrival → fileable (prio h rate arrival).
Proof. intros Hr Ha. split; [apply new_numbered; lia|done]. Qed.
Lemma three_fileable : Forall fileable [prio [x01] 5 10; prio [x02] 7 20; prio [x03] 500 30].
Proof. rewrite !Forall_cons. split_and!; [apply prio_fileable; [split; [lia|reflexivity]|lia]..|apply Forall_nil; exact I]. Qed.
Lemma three_distinct : NoDup (pt_hash <$> [prio [x01] 5 10; prio [x02] 7 20; prio [x03] 500 30]).
Proof. apply (bool_decide_unpack _). vm_compute. exact I. Qed.

Lemma filing_order_irrelevant_witness :
  ∃ s s', for_each buckets_insert [prio [x01] 5 10; prio [x02] 7 20; prio [x03] 500 30] (PriorityBuckets_new default_ordering_config) = (Ok tt, s)
  ∧ for_each buckets_insert [prio [x03] 500 30; prio [x02] 7 20; prio [x01] 5 10] (PriorityBuckets_new default_ordering_config) = (Ok tt, s')
  ∧ get_ordered_transactions 3 s = get_ordered_transactions 3 s'.
Proof.
  destruct (filing_order_irrelevant [prio [x01] 5 10; prio [x02] 7 20; prio [x03] 500 30] [prio [x03] 500 30; prio [x02] 7 20; prio [x01] 5 10]
    three_fileable three_distinct) as (s & s' & E & E' & Ho).
  - symmetry. exact (reverse_Permutation [prio [x01] 5 10; prio [x02] 7 20; prio [x03] 500 30]).
  - exists s, s'. split; [exact E|]. split; [exact E'|exact (Ho 3%nat)].
Defined.
Lemma buckets_lowest_first_witness :
  ∃ s, for_each buckets_insert [prio [x01] 5 10; prio [x02] 7 20; prio [x03] 500 30] (PriorityBuckets_new default_ordering_config) = (Ok tt, s)
  ∧ ∀ b, b ∈ buckets s → ∀ l1 x y l2, bucket_txs b = l1 ++ x :: y :: l2 → compare_deterministic y x = Lt.
Proof.
  destruct (buckets_lowest_first _ three_fileable three_distinct) as (s & E & Hb).
  exists s. split; [exact E|]. intros b Hin. exact (proj2 (Hb b Hin)).
Defined.
Lemma verify_rejects_any_pair_witness :
  let s := (for_each buckets_insert [prio [x01] 5 10; prio [x02] 7 20] (PriorityBuckets_new default_ordering_config)).2 in
  ∃ b, b ∈ buckets s ∧ length (bucket_txs b) = 2%nat ∧ buckets_verify s ≠ Ok tt.
Proof.
  intros s. destruct (buckets s !! 1%nat) as [b|] eqn:Eb; [|vm_compute in Eb; discriminate Eb].
  assert (Hin : b ∈ buckets s) by (exact (list_elem_of_lookup_2 _ _ _ Eb)).
  assert (Hlen : length (bucket_txs b) = 2%nat).
  { assert (E : (length ∘ bucket_txs) <$> buckets s !! 1%nat = Some 2%nat) by (vm_compute; reflexivity).
    rewrite Eb in E. injection E as E. exact E. }
  exists b. split; [exact Hin|]. split; [exact Hlen|]. apply (verify_rejects_any_pair s b Hin). rewrite Hlen. apply le_n.
Defined.
Lemma refiled_transaction_stuck_witness :
  fileable (prio [x01] 5 10)
  ∧ ∃ s, for_each buckets_insert [prio [x01] 5 10; prio [x01] 5 10] (PriorityBuckets_new default_ordering_config) = (Ok tt, s)
    ∧ buckets_contain [x01] (buckets_remove [x01] s).2 = false.
Proof.
  assert (Hf : fileable (prio [x01] 5 10)) by (apply prio_fileable; [split; [lia|reflexivity]|lia]).
  split; [exact Hf|]. destruct (refiled_transaction_stuck (prio [x01] 5 10) Hf) as (s & E & Hc & _).
  exists s. split; [exact E|exact Hc].
Defined.
