(* ===== verification/BlockTemplate.v ===== *)
(** * Block candidates from the canonical order

    klomang-node, [mempool/graph_conflict_ordering_integration.rs]: the engine of
    GraphOrdering.v behind the pool.  Transactions are registered, and a block is
    filled along the canonical order, leaving out what conflicts with what has been
    taken.  What makes it safe is that the conflicts of the engine cover every pair of
    transactions that share a key of its index, whatever was removed meanwhile.  The
    clock, the encoded size of a transaction and hash map iteration order are
    arguments. *)

From Stdlib Require Import Init.Byte Floats.SpecFloat.
From stdpp Require Import gmap.
From S2P Require Import Prelude Crypto Transaction Pow NodePrelude ConflictGraph GraphOrdering F64.

Abbreviation key := (list byte).

Record IntegrationConfig := {
  ic_validate_utxo_state : bool;
  ic_enable_cascade_validation : bool;
  ic_max_ordering_batch : Z;
  ic_fee_weight : f64;
  ic_age_weight : f64
}.
(** 0.7 and 0.3 *)
Definition default_integration_config : IntegrationConfig :=
  {| ic_validate_utxo_state := true; ic_enable_cascade_validation := true; ic_max_ordering_batch := 5000;
     ic_fee_weight := S754_finite false 6305039478318694 (-53); ic_age_weight := S754_finite false 5404319552844595 (-54) |}.

Record UtxoValidationResult := {
  uvr_is_valid : bool;
  unspent_inputs : Z;
  conflicting_outputs : Z;
  validation_errors : list string
}.
Record BlockBuildingResult := {
  bb_transactions : list key;
  parallel_layers : list (list key);
  bb_total_fees : Z;
  bb_total_weight : Z;
  excluded_transactions : list key
}.
Record ConflictDetectionResult := {
  det_tx_hash : key;
  detected_conflicts : list key;
  has_double_spend : bool;
  det_is_valid : bool
}.
Record CascadeRemovalResult := { primary_tx : key; removed_dependents : list key; total_removed : Z }.

(** Whether there is a store decides only whether inputs are looked at. *)
Record Integration := { ig_engine : Engine; ig_config : IntegrationConfig; ig_has_store : bool }.
Definition Integration_new (config : IntegrationConfig) (has_store : bool) : Integration :=
  {| ig_engine := set_priority_weights (ic_fee_weight config) (ic_age_weight config) Engine_new;
     ig_config := config; ig_has_store := has_store |}.
Definition set_ig_engine (e : Engine) (s : Integration) : Integration :=
  {| ig_engine := e; ig_config := ig_config s; ig_has_store := ig_has_store s |}.
Abbreviation integrating := (method Integration string).

Definition integration_register (serialized_size : Transaction → option Z) (tx : Transaction) (tx_hash : key)
    (fee arrival_time_ms : Z) : integrating ConflictDetectionResult :=
  conflicts ← zoom ig_engine set_ig_engine (engine_register serialized_size tx tx_hash fee arrival_time_ms);
  double ← gets (λ s, detect_double_spend (ig_engine s) tx_hash);
  mret {| det_tx_hash := tx_hash; detected_conflicts := conflicts; has_double_spend := double; det_is_valid := negb double |}.

Section validation.
Context `{Bincode}.
(** The store is not asked: an input is there when its hash can be encoded. *)
Definition validate_input_existence (h : Hash) : outcome string unit :=
  _ ← ok_or (bincode_hash h) "Serialization error: {}"; Ok tt.
Definition input_errors (tx : Transaction) : list string :=
  omap (λ i, match validate_input_existence (prev_tx i) with Ok _ => None | _ => Some "UTXO validation error: {}" end) (inputs tx).
Definition validate_utxo_state (tx : Transaction) (s : Integration) : UtxoValidationResult :=
  let n := Z.of_nat (length (inputs tx)) in
  if negb (ic_validate_utxo_state (ig_config s)) then
    {| uvr_is_valid := true; unspent_inputs := n; conflicting_outputs := 0; validation_errors := [] |}
  else
    let errors := if ig_has_store s then input_errors tx else [] in
    {| uvr_is_valid := bool_decide (errors = []); unspent_inputs := n; conflicting_outputs := 0; validation_errors := errors |}.
End validation.

(** ** Filling a block *)
Record Building := { b_txs : list key; b_fees : Z; b_weight : Z; b_excluded : list key }.
Definition nothing_taken : Building := {| b_txs := []; b_fees := 0; b_weight := 0; b_excluded := [] |}.
Definition has_conflict (e : Engine) (h : key) (taken : list key) : bool :=
  existsb (λ c, bool_decide (c ∈ taken)) (get_conflicts e h).

Fixpoint build_loop (e : Engine) (max_block_weight : Z) (hashes : list key) (b : Building) : Building :=
  match hashes with
  | [] => b
  | h :: hashes =>
      if max_block_weight <=? b_weight b then b
      else if has_conflict e h (b_txs b) then
        build_loop e max_block_weight hashes
          {| b_txs := b_txs b; b_fees := b_fees b; b_weight := b_weight b; b_excluded := b_excluded b ++ [h] |}
      else
        match get_engine_node e h with
        | Some node =>
            if wadd 64 (b_weight b) (n_size_bytes node) <=? max_block_weight then
              build_loop e max_block_weight hashes
                {| b_txs := b_txs b ++ [h]; b_fees := wadd 64 (b_fees b) (n_fee node);
                   b_weight := wadd 64 (b_weight b) (n_size_bytes node); b_excluded := b_excluded b |}
            else build_loop e max_block_weight hashes b
        | None => build_loop e max_block_weight hashes b
        end
  end.

Section building.
Context (order : gset key → list key).

Definition build_block_canonical (now max_block_weight : Z) : integrating BlockBuildingResult :=
  s ← get;
  let '(ordering, e) := compute_canonical_order order now (ig_engine s) in
  _ ← modify (set_ig_engine e);
  let b := build_loop e max_block_weight (ordered_hashes ordering)
             nothing_taken in
  mret {| bb_transactions := b_txs b;
          parallel_layers := filter (λ layer, existsb (λ h, bool_decide (h ∈ b_txs b)) layer = true) (parallel_groups ordering);
          bb_total_fees := b_fees b; bb_total_weight := b_weight b; excluded_transactions := b_excluded b |}.

Definition integration_add_dependency (parent child : key) (s : Integration) : Integration :=
  set_ig_engine (engine_add_dependency parent child (ig_engine s)) s.
Definition get_parallel_validation_groups (s : Integration) : option (list (list key)) :=
  get_parallel_execution_groups order (ig_engine s).
Definition integration_remove_cascade (tx_hash : key) (s : Integration) : CascadeRemovalResult * Integration :=
  let '(removed, e) := remove_transaction_cascade order tx_hash (ig_engine s) in
  ({| primary_tx := tx_hash; removed_dependents := tail removed; total_removed := Z.of_nat (length removed) |}, set_ig_engine e s).
Definition get_current_ordering (now : Z) (s : Integration) : CanonicalOrderingResult * Integration :=
  let '(r, e) := compute_canonical_order order now (ig_engine s) in (r, set_ig_engine e s).
Definition integration_clear (s : Integration) : Integration := set_ig_engine (engine_clear (ig_engine s)) s.
Definition get_ordering_stats (s : Integration) : Z * Z * IntegrationConfig :=
  (transaction_count (ig_engine s), get_conflict_count (ig_engine s), ig_config s).
End building.

(** ** Conflicts cover the index *)
Definition claimants (e : Engine) (k : Hash * Z) : list key := default [] (utxo_index e !! k).

(** Two transactions listed under one key are recorded as conflicting, each at the
    other, and a transaction of the pool is listed under every key it spends. *)
Record covered (e : Engine) (txs : gmap key Transaction) : Prop := {
  cv_pairs : ∀ k x y, x ∈ claimants e k → y ∈ claimants e k → x ≠ y → y ∈ get_conflicts e x;
  cv_nodes : ∀ h n, engine_nodes e !! h = Some n →
    ∃ tx, txs !! h = Some tx ∧ ∀ i, i ∈ inputs tx → h ∈ claimants e (claim_key i)
}.

Lemma elem_of_push_at `{Countable K} (k k' : K) (v y : key) (m : gmap K (list key)) :
  y ∈ default [] (push_at k v m !! k') ↔ y ∈ default [] (m !! k') ∨ (k' = k ∧ y = v).
Proof.
  unfold push_at. destruct (decide (k' = k)) as [->|Hne].
  - rewrite lookup_insert_eq. cbn. rewrite elem_of_app, list_elem_of_singleton. naive_solver.
  - rewrite lookup_insert_ne by done. naive_solver.
Qed.

Lemma note_claimants_ok h l d c d' c' :
  foldl (λ st x, note_claimant h x st) (d, c) l = (d', c') →
  (∀ x y, y ∈ default [] (c !! x) → y ∈ default [] (c' !! x))
  ∧ ∀ x, x ∈ l → x ≠ h → x ∈ default [] (c' !! h) ∧ h ∈ default [] (c' !! x).
Proof.
  revert d c; induction l as [|z l IH]; intros d c; cbn [foldl].
  { intros [= <- <-]. split; [done|]. by intros x Hx%not_elem_of_nil. }
  unfold note_claimant at 2. case_bool_decide as Hz.
  - intros [Hm Hl]%IH. split; [done|]. intros x [->|Hx]%elem_of_cons Hne; [done|by apply Hl].
  - intros [Hm Hl]%IH. cbn [snd] in Hm. split.
    + intros x y Hy. apply Hm. rewrite !elem_of_push_at. auto.
    + intros x [->|Hx]%elem_of_cons Hne; [|by apply Hl]. split; apply Hm; rewrite !elem_of_push_at; auto.
Qed.

(** The fold of the registration over the inputs. *)
Definition pairwise (c : gmap key (list key)) (i : gmap (Hash * Z) (list key)) : Prop :=
  ∀ k x y, x ∈ default [] (i !! k) → y ∈ default [] (i !! k) → x ≠ y → y ∈ default [] (c !! x).
Lemma register_spends_ok h l d c i d' c' i' :
  pairwise c i → foldl (register_spend h) (d, c, i) l = (d', c', i') →
  pairwise c' i' ∧ (∀ k x, x ∈ default [] (i !! k) → x ∈ default [] (i' !! k))
  ∧ ∀ inp, inp ∈ l → h ∈ default [] (i' !! claim_key inp).
Proof.
  revert d c i; induction l as [|inp l IH]; intros d c i Hp; cbn [foldl].
  { intros [= <- <- <-]. split_and!; [done..|]. by intros ? Hx%not_elem_of_nil. }
  unfold register_spend at 2.
  destruct (foldl _ (d, c) _) as [d1 c1] eqn:E. apply note_claimants_ok in E as [Hm Hl]. intros Hrun.
  apply IH in Hrun as (Hp' & Hi & Hin).
  - split; [done|]. split.
    + intros k x Hx. apply Hi. rewrite elem_of_push_at. auto.
    + intros j [->|Hj]%elem_of_cons; [|by apply Hin]. apply Hi. rewrite elem_of_push_at. auto.
  - intros k x y. rewrite !elem_of_push_at. intros [Hx|[-> ->]] [Hy|[E ->]] Hne.
    + by apply Hm, (Hp k).
    + subst k. by apply Hl.
    + apply Hl; [done|congruence].
    + done.
Qed.

Lemma engine_register_covered size tx h fee arr e txs r e' :
  covered e txs → engine_register size tx h fee arr e = (Ok r, e') → covered e' (<[h := tx]> txs).
Proof.
  intros [Hp Hn]. unfold engine_register. intros Hrun. apply method_bind_ok in Hrun as (e0 & e1 & [= <- <-] & Hrun).
  destruct (foldl _ _ _) as [[d c] i] eqn:E. apply register_spends_ok in E as (Hp' & Hi & Hin); [|exact Hp].
  apply method_bind_ok in Hrun as ([] & e2 & [= <-] & [= _ <-]). split; [exact Hp'|]. intros x n Hx.
  destruct (decide (x = h)) as [->|Hne].
  - exists tx. rewrite lookup_insert_eq. split; [done|]. intros j Hj. by apply Hin.
  - cbn in Hx. rewrite lookup_insert_ne in Hx by done. rewrite lookup_insert_ne by done. destruct (Hn x n Hx) as (t & Ht & Hc). exists t. split; [done|].
    intros j Hj. by apply Hi, Hc.
Qed.

Section reachable.
Context (order : gset key → list key) (Horder : ∀ s, order s ≡ₚ elements s).

Lemma cascade_covered h e txs : covered e txs → covered (remove_transaction_cascade order h e).2 txs.
Proof.
  intros [Hp Hn]. unfold remove_transaction_cascade. cbn [snd]. set (l := (dependents_loop _ _ _).1).
  assert (Hc : ∀ k x, x ∈ claimants (remove_transaction_cascade order h e).2 k ↔ x ∉ l ∧ x ∈ claimants e k).
  { intros k x. unfold claimants. cbn. rewrite lookup_fmap. destruct (utxo_index e !! k) as [c|]; cbn.
    - by rewrite list_elem_of_filter.
    - set_solver. }
  split.
  - intros k x y [Hx Hx']%Hc [Hy Hy']%Hc Hne. unfold get_conflicts. cbn.
    rewrite lookup_delete_all, bool_decide_eq_false_2 by done. by apply (Hp k).
  - intros x n Hx. cbn in Hx. rewrite lookup_delete_all in Hx. case_bool_decide as Hin; [done|].
    destruct (Hn x n Hx) as (tx & Ht & Hcl). exists tx. split; [done|]. intros i Hi. apply Hc. auto.
Qed.

Lemma compute_keeps now e :
  let e' := (compute_canonical_order order now e).2 in
  engine_nodes e' = engine_nodes e ∧ utxo_index e' = utxo_index e ∧ conflict_map e' = conflict_map e.
Proof.
  unfold compute_canonical_order. destruct (cached_ordering e); [done|]. case_bool_decide; [done|].
  by destruct (layers _ _ _ _ _ _) as [st groups].
Qed.
Lemma compute_covered now e txs : covered e txs → covered (compute_canonical_order order now e).2 txs.
Proof.
  destruct (compute_keeps now e) as (En & Ei & Ec). intros [Hp Hn]. split; unfold claimants, get_conflicts in *.
  - rewrite Ei, Ec. done.
  - by rewrite En, Ei.
Qed.

(** What the methods do, with the transactions registered so far. *)
Inductive integration_step (s : Integration) (txs : gmap key Transaction) : Integration → gmap key Transaction → Prop :=
  | istep_register size tx h fee arrival r s' :
      integration_register size tx h fee arrival s = (Ok r, s') → integration_step s txs s' (<[h := tx]> txs)
  | istep_dependency parent child : integration_step s txs (integration_add_dependency parent child s) txs
  | istep_cascade h : integration_step s txs (integration_remove_cascade order h s).2 txs
  | istep_build now max : integration_step s txs (build_block_canonical order now max s).2 txs
  | istep_order now : integration_step s txs (get_current_ordering order now s).2 txs
  | istep_clear : integration_step s txs (integration_clear s) txs.
Inductive integrated (config : IntegrationConfig) (has_store : bool) : Integration → gmap key Transaction → Prop :=
  | integrated_new : integrated config has_store (Integration_new config has_store) ∅
  | integrated_step s txs s' txs' :
      integrated config has_store s txs → integration_step s txs s' txs' → integrated config has_store s' txs'.

Lemma integration_register_run size tx h fee arrival s r s' :
  integration_register size tx h fee arrival s = (Ok r, s') →
  ∃ l, engine_register size tx h fee arrival (ig_engine s) = (Ok l, ig_engine s') ∧ detected_conflicts r = l
  ∧ has_double_spend r = detect_double_spend (ig_engine s') h.
Proof.
  unfold integration_register. intros Hrun. apply method_bind_ok in Hrun as (l & s1 & Hz & Hrun).
  apply method_bind_ok in Hrun as (d & s2 & [= <- <-] & [= <- <-]). unfold zoom in Hz.
  destruct (engine_register _ _ _ _ _ _) as [r e]. injection Hz as -> <-. by exists l.
Qed.

Lemma integration_step_covered s txs s' txs' :
  integration_step s txs s' txs' → covered (ig_engine s) txs → covered (ig_engine s') txs'.
Proof.
  intros Hs Hc. destruct Hs as [size tx h fee arr r s' (l & E & _)%integration_register_run|parent child|h|now max|now|].
  - by eapply engine_register_covered.
  - destruct Hc as [Hp Hn]. by split.
  - unfold integration_remove_cascade. pose proof (cascade_covered h _ _ Hc) as H'.
    by destruct (remove_transaction_cascade order h (ig_engine s)).
  - unfold build_block_canonical. rewrite (method_bind_run get _ s s s) by done.
    pose proof (compute_covered now _ _ Hc) as H'. by destruct (compute_canonical_order order now (ig_engine s)).
  - unfold get_current_ordering. pose proof (compute_covered now _ _ Hc) as H'.
    by destruct (compute_canonical_order order now (ig_engine s)).
  - split; [intros k x y Hx; cbn in Hx; unfold claimants in Hx; cbn in Hx; rewrite lookup_empty in Hx; by apply not_elem_of_nil in Hx|].
    intros x n Hx. cbn in Hx. by rewrite lookup_empty in Hx.
Qed.
Lemma integrated_covered config has_store s txs : integrated config has_store s txs → covered (ig_engine s) txs.
Proof.
  induction 1 as [|s txs s' txs' _ IH Hs]; [|by eapply integration_step_covered].
  assert (E : ∀ f a, utxo_index (set_priority_weights f a Engine_new) = ∅ ∧ engine_nodes (set_priority_weights f a Engine_new) = ∅).
  { intros f a. unfold set_priority_weights. by destruct (SFltb _ _). }
  destruct (E (ic_fee_weight config) (ic_age_weight config)) as [Ei En]. cbn [ig_engine Integration_new].
  split; unfold claimants; rewrite ?Ei, ?En.
  - intros k x y Hx. rewrite lookup_empty in Hx. by apply not_elem_of_nil in Hx.
  - intros x n Hx. by rewrite lookup_empty in Hx.
Qed.

(** ** What a block holds *)

(** What has been taken is in the pool, once, and conflicts with nothing taken before. *)
Record conflict_free (e : Engine) (txs : list key) : Prop := {
  cf_known : ∀ x, x ∈ txs → is_Some (engine_nodes e !! x);
  cf_free : ∀ l1 x l2 y, txs = l1 ++ x :: l2 → y ∈ l1 → y ∉ get_conflicts e x
}.
Lemma has_conflict_true e h l : has_conflict e h l = true ↔ ∃ y, y ∈ get_conflicts e h ∧ y ∈ l.
Proof.
  unfold has_conflict. rewrite existsb_exists. split.
  - intros (y & Hy & Hin%bool_decide_eq_true). exists y. split; [by apply list_elem_of_In|done].
  - intros (y & Hy & Hin). exists y. split; [by apply list_elem_of_In|by apply bool_decide_eq_true_2].
Qed.
Lemma conflict_free_take e h n txs :
  conflict_free e txs → has_conflict e h txs = false → engine_nodes e !! h = Some n → conflict_free e (txs ++ [h]).
Proof.
  intros [Hk Hfree] Hc Hn. split.
  { intros x [Hx| ->%list_elem_of_singleton]%elem_of_app; eauto. }
  intros l1 x l2 y E Hy Hin. destruct (decide (l2 = [])) as [->|Hne].
  - apply app_inj_tail in E as [<- ->]. assert (has_conflict e x txs = true); [|congruence].
    apply has_conflict_true. eauto.
  - destruct (exists_last Hne) as (l2' & z & ->). rewrite app_comm_cons, app_assoc in E.
    apply app_inj_tail in E as [E ->]. by apply (Hfree l1 x l2' y E).
Qed.
Lemma build_loop_free e max hashes b :
  conflict_free e (b_txs b) → conflict_free e (b_txs (build_loop e max hashes b)).
Proof.
  revert b; induction hashes as [|h hashes IH]; intros b Hb; cbn [build_loop]; [done|].
  destruct (max <=? b_weight b); [done|]. destruct (has_conflict e h (b_txs b)) eqn:Ec; [by apply IH|].
  unfold get_engine_node. destruct (engine_nodes e !! h) as [n|] eqn:En; [|by apply IH].
  destruct (_ <=? max); apply IH; [|done]. by eapply conflict_free_take.
Qed.

Section filling.
Context (e : Engine) (max : Z).
Definition size_of (h : key) : Z := from_option n_size_bytes 0 (engine_nodes e !! h).
Definition fee_of (h : key) : Z := from_option n_fee 0 (engine_nodes e !! h).
Context (Hmax : 0 ≤ max) (Hsize : ∀ h n, engine_nodes e !! h = Some n → 0 ≤ n_size_bytes n ∧ max + n_size_bytes n < 2 ^ 64).

(** After the hashes [l]. *)
Record filled (l : list key) (b : Building) : Prop := {
  fl_sub : b_txs b `sublist_of` l;
  fl_weight : b_weight b = zsum (size_of <$> b_txs b) ∧ 0 ≤ b_weight b ≤ max;
  fl_fees : b_fees b = wrap 64 (zsum (fee_of <$> b_txs b));
  fl_excluded : ∀ x, x ∈ b_excluded b → ∃ l1 l2 y, l = l1 ++ x :: l2 ∧ y ∈ l1 ∧ y ∈ b_txs b ∧ y ∈ get_conflicts e x;
  fl_rest : ∀ x n, x ∈ l → engine_nodes e !! x = Some n →
    x ∈ b_txs b ∨ x ∈ b_excluded b ∨ max ≤ b_weight b + n_size_bytes n
}.

Lemma filled_nil : filled [] nothing_taken.
Proof.
  split; cbn; try done; set_solver.
Qed.

(** A hash that is passed over. *)
Lemma filled_skip l h b (Hb : filled l b) :
  (∀ n, engine_nodes e !! h = Some n → max ≤ b_weight b + n_size_bytes n) → filled (l ++ [h]) b.
Proof.
  intros Hh. destruct Hb as [Hsub Hw Hf Hx Hr]. split; [|done..| |].
  - by apply sublist_inserts_r.
  - intros x (l1 & l2 & y & -> & H1 & H2 & H3)%Hx. exists l1, (l2 ++ [h]), y. by rewrite <- app_assoc.
  - intros x n [Hin| ->%list_elem_of_singleton]%elem_of_app Hn; [by apply (Hr x)|]. right. right. by apply Hh.
Qed.
Lemma filled_exclude l h b (Hb : filled l b) :
  has_conflict e h (b_txs b) = true →
  filled (l ++ [h]) {| b_txs := b_txs b; b_fees := b_fees b; b_weight := b_weight b; b_excluded := b_excluded b ++ [h] |}.
Proof.
  intros (y & Hy & Hin)%has_conflict_true. destruct Hb as [Hsub Hw Hf Hx Hr]. split; cbn; [|done..| |].
  - by apply sublist_inserts_r.
  - intros x [(l1 & l2 & z & -> & H1 & H2 & H3)%Hx| ->%list_elem_of_singleton]%elem_of_app.
    + exists l1, (l2 ++ [h]), z. by rewrite <- app_assoc.
    + exists l, [], y. split_and!; [done| |done..]. by eapply sublist_elem.
  - intros x n [Hi| ->%list_elem_of_singleton]%elem_of_app Hn; [|set_solver]. destruct (Hr x n Hi Hn) as [?|[?|?]]; set_solver.
Qed.
Lemma filled_take l h b n (Hb : filled l b) :
  has_conflict e h (b_txs b) = false → engine_nodes e !! h = Some n → b_weight b + n_size_bytes n ≤ max →
  filled (l ++ [h]) {| b_txs := b_txs b ++ [h]; b_fees := wadd 64 (b_fees b) (n_fee n);
                       b_weight := wadd 64 (b_weight b) (n_size_bytes n); b_excluded := b_excluded b |}.
Proof.
  intros Hc Hn Hle. destruct Hb as [Hsub [Hw Hw'] Hf Hx Hr]. destruct (Hsize h n Hn) as [Hs0 Hs].
  assert (Ew : wadd 64 (b_weight b) (n_size_bytes n) = b_weight b + n_size_bytes n).
  { unfold wadd. apply wrap_small. unfold fits. lia. }
  split; cbn; rewrite ?Ew.
  - by apply sublist_app.
  - rewrite fmap_app, zsum_app. cbn. unfold size_of at 2. rewrite Hn. cbn. lia.
  - rewrite Hf, wadd_wrap, fmap_app, zsum_app. cbn. unfold fee_of at 3. rewrite Hn. cbn. f_equal. lia.
  - intros x (l1 & l2 & z & -> & H1 & H2 & H3)%Hx. exists l1, (l2 ++ [h]), z. rewrite <- app_assoc. set_solver.
  - intros x m [Hi| ->%list_elem_of_singleton]%elem_of_app Hm; [|set_solver].
    destruct (Hr x m Hi Hm) as [?|[?|?]]; [set_solver|by right; left|right; right; lia].
Qed.

Lemma build_loop_filled hashes l b :
  filled l b → filled (l ++ hashes) (build_loop e max hashes b).
Proof.
  revert l b; induction hashes as [|h hashes IH]; intros l b Hb; cbn [build_loop]; [by rewrite app_nil_r|].
  replace (l ++ h :: hashes) with ((l ++ [h]) ++ hashes) by (by rewrite <- app_assoc).
  pose proof (fl_weight _ _ Hb) as [_ Hw].
  destruct (Z.leb_spec max (b_weight b)) as [Hfull|Hroom].
  { clear IH. assert (Hall : ∀ k l, filled l b → filled (l ++ k) b).
    { induction k as [|x k IHk]; intros l' Hl'; [by rewrite app_nil_r|]. replace (l' ++ x :: k) with ((l' ++ [x]) ++ k) by (by rewrite <- app_assoc).
      apply IHk, filled_skip; [done|]. intros n [? _]%Hsize. lia. }
    rewrite <- app_assoc. by apply Hall. }
  destruct (has_conflict e h (b_txs b)) eqn:Ec; [by apply IH, filled_exclude|].
  unfold get_engine_node. destruct (engine_nodes e !! h) as [n|] eqn:En.
  - destruct (Hsize h n En) as [Hs0 Hs].
    assert (Ew : wadd 64 (b_weight b) (n_size_bytes n) = b_weight b + n_size_bytes n).
    { unfold wadd. apply wrap_small. unfold fits. lia. }
    rewrite Ew. destruct (Z.leb_spec (b_weight b + n_size_bytes n) max) as [Hle|Hgt].
    + rewrite <- Ew. apply IH. by apply filled_take.
    + apply IH, filled_skip; [done|]. intros m Hm. simplify_eq. lia.
  - apply IH, filled_skip; [done|]. intros n Hn. congruence.
Qed.
End filling.

Lemma build_run now max s :
  let ce := compute_canonical_order order now (ig_engine s) in
  let b := build_loop ce.2 max (ordered_hashes ce.1) nothing_taken in
  build_block_canonical order now max s =
  (Ok {| bb_transactions := b_txs b;
         parallel_layers := filter (λ layer, existsb (λ h, bool_decide (h ∈ b_txs b)) layer = true) (parallel_groups ce.1);
         bb_total_fees := b_fees b; bb_total_weight := b_weight b; excluded_transactions := b_excluded b |}, set_ig_engine ce.2 s).
Proof.
  unfold build_block_canonical. rewrite (method_bind_run get _ s s s) by done.
  by destruct (compute_canonical_order order now (ig_engine s)).
Qed.

(** C16. No block candidate spends twice: in every state the methods reach, whatever was
    registered, replaced, removed and ordered before, no two transactions of a block
    spend outputs of one transaction. *)
Theorem block_never_double_spends config has_store s txs now max
    (Hs : integrated config has_store s txs) r s' (Hrun : build_block_canonical order now max s = (Ok r, s'))
    x y tx ty (Hne : x ≠ y) (Hx : x ∈ bb_transactions r) (Hy : y ∈ bb_transactions r)
    (Htx : txs !! x = Some tx) (Hty : txs !! y = Some ty) i j (Hi : i ∈ inputs tx) (Hj : j ∈ inputs ty) :
  prev_tx i ≠ prev_tx j.
Proof.
  rewrite build_run in Hrun. injection Hrun as <- _. cbn [bb_transactions] in Hx, Hy.
  set (ce := compute_canonical_order order now (ig_engine s)) in *.
  assert (Hc : covered ce.2 txs) by (by eapply compute_covered, integrated_covered).
  assert (Hf := build_loop_free ce.2 max (ordered_hashes ce.1) nothing_taken).
  destruct Hf as [Hk Hfree]; [split; cbn; [set_solver|by intros []]|]. intros E.
  set (b := build_loop _ _ _ _) in *. assert (Hin : ∀ z tz k, z ∈ b_txs b → txs !! z = Some tz → k ∈ inputs tz → z ∈ claimants ce.2 (claim_key k)).
  { intros z tz k Hz Htz Hk'. destruct (Hk z Hz) as [n Hn]. destruct (cv_nodes _ _ Hc z n Hn) as (t & Ht & Hcl).
    apply Hcl. congruence. }
  pose proof (Hin x tx i Hx Htx Hi) as Hxi. pose proof (Hin y ty j Hy Hty Hj) as Hyj.
  unfold claim_key in Hxi, Hyj. rewrite E in Hxi.
  destruct (one_first _ x y Hx Hy Hne) as [(l1 & l2 & El & Hl)|(l1 & l2 & El & Hl)].
  - eapply Hfree; [done..|]. by eapply cv_pairs.
  - eapply Hfree; [done..|]. by eapply cv_pairs; [| | |done].
Qed.

(** The block, when no weight overflows: transactions of the canonical order, in its
    order; weight and fees are their sums, the weight within the limit.  What is
    excluded conflicts with something taken before it.  Whatever else is left out does
    not fit any more. *)
Theorem build_block_spec now max s r s'
    (Hmax : 0 ≤ max)
    (Hsize : ∀ h n, engine_nodes (ig_engine s) !! h = Some n → 0 ≤ n_size_bytes n ∧ max + n_size_bytes n < 2 ^ 64)
    (Hrun : build_block_canonical order now max s = (Ok r, s')) :
  let e := ig_engine s in
  let l := ordered_hashes (compute_canonical_order order now e).1 in
  bb_transactions r `sublist_of` l
  ∧ bb_total_weight r = zsum (size_of e <$> bb_transactions r) ∧ bb_total_weight r ≤ max
  ∧ bb_total_fees r = zsum (fee_of e <$> bb_transactions r) mod 2 ^ 64
  ∧ (∀ x, x ∈ excluded_transactions r → ∃ l1 l2 y, l = l1 ++ x :: l2 ∧ y ∈ l1 ∧ y ∈ bb_transactions r ∧ y ∈ get_conflicts e x)
  ∧ (∀ x n, x ∈ l → engine_nodes e !! x = Some n →
       x ∈ bb_transactions r ∨ x ∈ excluded_transactions r ∨ max ≤ bb_total_weight r + n_size_bytes n).
Proof.
  intros e l. rewrite build_run in Hrun. injection Hrun as <- _. subst e l. cbn [bb_transactions bb_total_weight bb_total_fees excluded_transactions].
  destruct (compute_keeps now (ig_engine s)) as (En & _ & Ec).
  set (ce := compute_canonical_order order now (ig_engine s)) in *.
  assert (Hf : filled ce.2 max ([] ++ ordered_hashes ce.1) (build_loop ce.2 max (ordered_hashes ce.1) nothing_taken)).
  { apply build_loop_filled; [done|by rewrite En|apply filled_nil; [done|by rewrite En]]. }
  destruct Hf as [Hsub [Hw Hw'] Hfee Hx Hr]. unfold size_of, fee_of, get_conflicts in *. rewrite En in *. rewrite Ec in *.
  split_and!; [done|done|lia|done|done|done].
Qed.

(** Of two conflicting transactions a block keeps the one with the lower score: what
    is excluded conflicts with a transaction of the block that scores no higher. *)
Theorem lowest_variant_kept now max s r s'
    (Hmax : 0 ≤ max)
    (Hsize : ∀ h n, engine_nodes (ig_engine s) !! h = Some n → 0 ≤ n_size_bytes n ∧ max + n_size_bytes n < 2 ^ 64)
    (Hdeps : dependency_map (ig_engine s) = ∅) (Hcache : cached_ordering (ig_engine s) = None)
    (Hnum : ∀ h n, engine_nodes (ig_engine s) !! h = Some n → f64_is_nan (score (ig_engine s) now h) = false)
    (Hrun : build_block_canonical order now max s = (Ok r, s')) x (Hx : x ∈ excluded_transactions r) :
  ∃ y, y ∈ bb_transactions r ∧ y ∈ get_conflicts (ig_engine s) x
  ∧ SFleb (score (ig_engine s) now y) (score (ig_engine s) now x) = true.
Proof.
  destruct (build_block_spec now max s r s' Hmax Hsize Hrun) as (_ & _ & _ & _ & Hexcl & _).
  destruct (Hexcl x Hx) as (l1 & l2 & y & El & Hy & Hsel & Hc). exists y. split_and!; [done|done|].
  assert (Hlen : ∀ h, Z.of_nat (length (parents_in (ig_engine s) h)) < 2 ^ 64).
  { intros h. unfold parents_in. rewrite Hdeps, lookup_empty. cbn. lia. }
  destruct (canonical_order_lowest_first order Horder (ig_engine s) now Hlen Hcache Hdeps) as [Hp Hadj].
  set (l := ordered_hashes _) in *. set (e := ig_engine s) in *.
  assert (Hknown : ∀ z, z ∈ l → f64_is_nan (score e now z) = false).
  { intros z Hz. rewrite Hp, elem_of_elements, elem_of_dom in Hz. destruct Hz as [n Hn]. by eapply Hnum. }
  set (R := λ a b, lex3 (f64_key (score e now a)) (f64_key (score e now b)) ≠ Gt).
  assert (Hadj' : ∀ l1 a b l2, l = l1 ++ a :: b :: l2 → R a b).
  { intros k1 a b k2 E. specialize (Hadj k1 a b k2 E). unfold R.
    rewrite SFcompare_key in Hadj by (apply Hknown; rewrite E; set_solver). by destruct (lex3 _ _). }
  assert (Transitive R) by (intros a b c; unfold R; apply lex3_le_trans).
  apply list_elem_of_split in Hy as (k1 & k2 & ->). rewrite <- app_assoc in El. cbn in El.
  pose proof (adjacent_before R l Hadj' k1 y k2 x l2 El) as HR. unfold R in HR. unfold SFleb.
  rewrite SFcompare_key by (apply Hknown; rewrite El; set_solver). by destruct (lex3 _ _).
Qed.

Lemma register_total size tx h fee arrival s :
  ∃ r, integration_register size tx h fee arrival s = (Ok r, (integration_register size tx h fee arrival s).2).
Proof.
  unfold integration_register, zoom, engine_register, mbind, method_bind, get, gets, modify, mret, method_ret.
  destruct (foldl _ _ _) as [[d c] i]. cbn. eauto.
Qed.
End reachable.

(** ** Witnesses *)
Definition spend_from (n p : Z) : Transaction :=
  {| id := hash_of n; inputs := [{| prev_tx := hash_of p; index := 0; signature := []; pubkey := []; sighash_type := All |}];
     outputs := []; execution_payload := []; contract_address := None; gas_limit := 0; max_fee_per_gas := 0; chain_id := 1; locktime := 0 |}.
Definition sized (tx : Transaction) : option Z := Some 100.
Definition register_of (n p fee : Z) (s : Integration) : Integration :=
  (integration_register sized (spend_from n p) (as_bytes (hash_of n)) fee 0 s).2.
Definition fresh_integration : Integration := Integration_new default_integration_config true.
Definition candidate_block (s : Integration) : BlockBuildingResult :=
  match (build_block_canonical elements 0 1000 s).1 with
  | Ok r => r
  | _ => {| bb_transactions := []; parallel_layers := []; bb_total_fees := 0; bb_total_weight := 0; excluded_transactions := [] |}
  end.
Lemma candidate_run s : build_block_canonical elements 0 1000 s = (Ok (candidate_block s), (build_block_canonical elements 0 1000 s).2).
Proof. unfold candidate_block. by rewrite build_run. Qed.
Lemma register_of_integrated n p fee s txs config b :
  integrated elements config b s txs →
  integrated elements config b (register_of n p fee s) (<[as_bytes (hash_of n) := spend_from n p]> txs).
Proof.
  intros Hs. eapply integrated_step; [exact Hs|].
  destruct (register_total sized (spend_from n p) (as_bytes (hash_of n)) fee 0 s) as [r E].
  eapply istep_register. exact E.
Qed.

(** Three spends, two of them of the same coin. *)
Definition three_spends : Integration := register_of 3 8 100 (register_of 2 7 900 (register_of 1 7 5 fresh_integration)).
Lemma block_never_double_spends_witness :
  bb_transactions (candidate_block three_spends) = [as_bytes (hash_of 1); as_bytes (hash_of 3)]
  ∧ hash_of 7 ≠ hash_of 8.
Proof.
  assert (E : bb_transactions (candidate_block three_spends) = [as_bytes (hash_of 1); as_bytes (hash_of 3)]) by (vm_compute; reflexivity).
  split; [exact E|].
  refine (block_never_double_spends elements ltac:(done) default_integration_config true three_spends _ 0 1000 _ _ _ (candidate_run three_spends)
    (as_bytes (hash_of 1)) (as_bytes (hash_of 3)) (spend_from 1 7) (spend_from 3 8) _ _ _ _ _
    {| prev_tx := hash_of 7; index := 0; signature := []; pubkey := []; sighash_type := All |}
    {| prev_tx := hash_of 8; index := 0; signature := []; pubkey := []; sighash_type := All |} _ _).
  - do 3 apply register_of_integrated. apply integrated_new.
  - vm_compute. discriminate.
  - rewrite E. left.
  - rewrite E. right. left.
  - vm_compute. reflexivity.
  - vm_compute. reflexivity.
  - left.
  - left.
Defined.

Lemma three_sizes h n : engine_nodes (ig_engine three_spends) !! h = Some n → 0 ≤ n_size_bytes n ∧ 1000 + n_size_bytes n < 2 ^ 64.
Proof.
  intros Hn. assert (Hall : map_Forall (λ _ n, n_size_bytes n = 100) (engine_nodes (ig_engine three_spends))).
  { apply (bool_decide_unpack _). vm_compute. exact I. }
  rewrite (Hall h n Hn). lia.
Qed.
Lemma build_block_spec_witness :
  bb_total_weight (candidate_block three_spends) = 200
  ∧ bb_total_weight (candidate_block three_spends) = zsum (size_of (ig_engine three_spends) <$> bb_transactions (candidate_block three_spends)).
Proof.
  split; [vm_compute; reflexivity|].
  destruct (build_block_spec elements ltac:(done) 0 1000 three_spends _ _ ltac:(lia) three_sizes (candidate_run three_spends)) as (_ & Hw & _). exact Hw.
Defined.
(** The cheap one is taken, the dear one excluded. *)
Lemma lowest_variant_kept_witness :
  excluded_transactions (candidate_block three_spends) = [as_bytes (hash_of 2)]
  ∧ ∃ y, y ∈ bb_transactions (candidate_block three_spends) ∧ y ∈ get_conflicts (ig_engine three_spends) (as_bytes (hash_of 2))
    ∧ SFleb (score (ig_engine three_spends) 0 y) (score (ig_engine three_spends) 0 (as_bytes (hash_of 2))) = true.
Proof.
  assert (E : excluded_transactions (candidate_block three_spends) = [as_bytes (hash_of 2)]) by (vm_compute; reflexivity).
  split; [exact E|].
  apply (lowest_variant_kept elements ltac:(done) 0 1000 three_spends _ _ ltac:(lia) three_sizes ltac:(vm_compute; reflexivity) ltac:(vm_compute; reflexivity)) with (2 := candidate_run three_spends).
  - intros h n Hn. unfold score. rewrite Hn.
    assert (Hall : map_Forall (λ _ n, f64_is_nan (priority_score n 0 (fee_density_weight (ig_engine three_spends)) (age_weight (ig_engine three_spends))) = false)
      (engine_nodes (ig_engine three_spends))) by (apply (bool_decide_unpack _); vm_compute; exact I).
    exact (Hall h n Hn).
  - rewrite E. left.
Defined.

(** A child is taken without its parent: the parent conflicts with a cheaper
    transaction, and what depends on it is not left out with it. *)
Theorem child_without_parent :
  let s := integration_add_dependency (as_bytes (hash_of 2)) (as_bytes (hash_of 3)) three_spends in
  let block := bb_transactions (candidate_block s) in
  as_bytes (hash_of 3) ∈ block ∧ as_bytes (hash_of 2) ∉ block
  ∧ as_bytes (hash_of 2) ∈ default [] (dependency_map (ig_engine s) !! as_bytes (hash_of 3)).
Proof. cbv zeta. apply (bool_decide_unpack _). vm_compute. exact I. Qed.
