(* ===== verification/Admission.v ===== *)
(** * What a transaction must pay to be looked at

    klomang-node: the token buckets and the fee filter of [mempool/pool.rs] and the
    controller of [mempool/admission_controller.rs].  The clock and the contents of
    [/proc] are arguments. *)

From Stdlib Require Import Init.Byte Floats.SpecFloat Strings.Ascii.
From stdpp Require Import gmap pretty.
From S2P Require Import Prelude Pow NodePrelude F64.

(** ** Token buckets *)
Record TokenBucket := { tokens : f64; capacity : f64; refill_rate : f64; last_refill : Z }.
Definition TokenBucket_new (now : Z) (capacity refill_rate : f64) : TokenBucket :=
  {| tokens := capacity; capacity := capacity; refill_rate := refill_rate; last_refill := now |}.
Definition refill (now : Z) (b : TokenBucket) : TokenBucket :=
  let elapsed := f64_of_Z (sat_sub now (last_refill b)) in
  {| tokens := f64_min (f64_add (tokens b) (f64_mul elapsed (refill_rate b))) (capacity b);
     capacity := capacity b; refill_rate := refill_rate b; last_refill := now |}.
Definition f64_sub (x y : f64) : f64 := SFsub 53 1024 x y.
Definition try_consume (now : Z) (n : f64) (b : TokenBucket) : bool * TokenBucket :=
  let b := refill now b in
  if SFleb n (tokens b) then
    (true, {| tokens := f64_sub (tokens b) n; capacity := capacity b; refill_rate := refill_rate b; last_refill := last_refill b |})
  else (false, b).

(** ** The fee filter *)
Record FeeFilter := { base_min_fee : Z; current_min_fee : Z; max_bump_percent : Z; filter_last_update : Z }.
Definition FeeFilter_new (now base max_bump : Z) : FeeFilter :=
  {| base_min_fee := base; current_min_fee := base; max_bump_percent := max_bump; filter_last_update := now |}.
(** 0.75 and 0.25 *)
Definition three_quarters : f64 := S754_finite false (3 * 2 ^ 51) (-53).
Definition one_quarter : f64 := S754_finite false (2 ^ 52) (-54).
(** [x.ceil() as u64] *)
Definition f64_ceil_u64 (x : f64) : Z := f64_ceil_usize x.
Definition update_threshold (now current_size max_size : Z) (f : FeeFilter) : FeeFilter :=
  if max_size =? 0 then f
  else
    let utilization := f64_div (f64_of_Z current_size) (f64_of_Z max_size) in
    if sat_sub now (filter_last_update f) <? 10 then f
    else
      let set c := {| base_min_fee := base_min_fee f; current_min_fee := c; max_bump_percent := max_bump_percent f; filter_last_update := now |} in
      if SFltb three_quarters utilization then
        let bump := f64_ceil_u64 (f64_div (f64_mul (f64_mul (f64_of_Z (base_min_fee f)) utilization) (f64_of_Z (max_bump_percent f))) (f64_of_Z 100)) in
        set (sat_add 64 (base_min_fee f) bump)
      else if SFltb utilization one_quarter then
        let reduction := sat_sub (current_min_fee f) (base_min_fee f) / 2 in
        set (sat_sub (current_min_fee f) reduction)
      else set (current_min_fee f).
Definition accepts_fee (fee_rate : Z) (f : FeeFilter) : bool := current_min_fee f <=? fee_rate.
Definition set_base_fee (base : Z) (f : FeeFilter) : FeeFilter :=
  {| base_min_fee := base; current_min_fee := if current_min_fee f <? base then base else current_min_fee f;
     max_bump_percent := max_bump_percent f; filter_last_update := filter_last_update f |}.
Definition force_update_timestamp (f : FeeFilter) : FeeFilter :=
  {| base_min_fee := base_min_fee f; current_min_fee := current_min_fee f; max_bump_percent := max_bump_percent f; filter_last_update := 0 |}.

(** ** Reading [/proc] *)

(** [str::lines] up to the line feed, and [split_whitespace], for ASCII. *)
Definition is_space (c : ascii) : bool :=
  let n := Z.of_N (N_of_ascii c) in ((9 <=? n) && (n <=? 13)) || (n =? 32).
Definition line_feed : ascii := "010"%char.
Fixpoint split_on (stop : ascii → bool) (acc s : string) : list string :=
  match s with
  | EmptyString => [acc]
  | String c s => if stop c then acc :: split_on stop "" s else split_on stop (String.append acc (String c "")) s
  end.
Definition split_whitespace (s : string) : list string := filter (λ w, w ≠ ""%string) (split_on is_space "" s).
Definition file_lines (s : string) : list string :=
  let l := split_on (λ c, bool_decide (c = line_feed)) "" s in
  match reverse l with
  | EmptyString :: l => reverse l
  | _ => l
  end.

(** [str::parse::<u64>] *)
Definition digit_value (c : ascii) : option Z :=
  let n := Z.of_N (N_of_ascii c) in if (48 <=? n) && (n <=? 57) then Some (n - 48) else None.
Fixpoint parse_digits (acc : Z) (s : string) : option Z :=
  match s with
  | EmptyString => Some acc
  | String c s => d ← digit_value c; let v := acc * 10 + d in if v <=? u64_max then parse_digits v s else None
  end.
Definition parse_u64 (s : string) : option Z :=
  match s with
  | EmptyString => None
  | String "+" EmptyString => None
  | String "+" s => parse_digits 0 s
  | _ => parse_digits 0 s
  end.

Definition cpu_percent_of (total_idle total_non_idle : Z) : f64 :=
  let total := wadd 64 total_idle total_non_idle in
  if total =? 0 then S754_zero false
  else f64_min (f64_mul (f64_div (f64_of_Z total_non_idle) (f64_of_Z total)) (f64_of_Z 100)) (f64_of_Z 100).
(** [None] is a file that cannot be read.  [parts[i]] panics out of range. *)
Definition field (parts : list string) (i : nat) : outcome string Z :=
  match parts !! i with
  | Some s => Ok (default 0 (parse_u64 s))
  | None => Panic "index out of bounds"
  end.
Definition sum_u64 (l : list Z) : Z := foldl (wadd 64) 0 l.
Definition read_cpu_usage (stat : option string) : outcome string f64 :=
  content ← ok_or stat "Failed to read /proc/stat: {}";
  first_line ← ok_or (head (file_lines content)) "No CPU stats available";
  let parts := split_whitespace first_line in
  if (length parts <? 8)%nat || negb (String.prefix "cpu" (default "" (head parts))) then Err "Invalid /proc/stat format"
  else
    times ← mapM (field parts) (seq 1 8);
    let at_ i := nth i times 0 in
    Ok (cpu_percent_of (sum_u64 [at_ 3%nat; at_ 4%nat])
                       (sum_u64 [at_ 0%nat; at_ 1%nat; at_ 2%nat; at_ 5%nat; at_ 6%nat; at_ 7%nat])).

Definition parse_mem_value (line : string) : outcome string Z :=
  match split_whitespace line with
  | _ :: v :: _ => ok_or (parse_u64 v) "Invalid memory value"
  | _ => Ok 0
  end.
Definition mem_line (st : Z * Z) (line : string) : outcome string (Z * Z) :=
  if String.prefix "MemTotal:" line then v ← parse_mem_value line; Ok (v, st.2)
  else if String.prefix "MemAvailable:" line then v ← parse_mem_value line; Ok (st.1, v)
  else Ok st.
Definition read_ram_available (meminfo : option string) : outcome string f64 :=
  content ← ok_or meminfo "Failed to read /proc/meminfo: {}";
  '(total_mem, available_mem) ← fold_outcome mem_line (0, 0) (file_lines content);
  if total_mem =? 0 then Ok (f64_of_Z 100)
  else Ok (f64_min (f64_mul (f64_div (f64_of_Z available_mem) (f64_of_Z total_mem)) (f64_of_Z 100)) (f64_of_Z 100)).

(** ** The controller *)
Inductive AdmissionMode := Normal | Strict.
#[global] Instance AdmissionMode_eq_dec : EqDecision AdmissionMode.
Proof. solve_decision. Defined.
Record SystemMetrics := { cpu_percent : f64; ram_available_percent : f64; metrics_timestamp : Z }.
Record AdmissionController := {
  metrics : SystemMetrics;
  admission_mode : AdmissionMode;
  cpu_threshold : f64;
  ram_threshold : f64;
  update_interval_secs : Z;
  metrics_last_update : Z
}.
Definition AdmissionController_new (now : Z) : AdmissionController :=
  {| metrics := {| cpu_percent := S754_zero false; ram_available_percent := f64_of_Z 100; metrics_timestamp := now |};
     admission_mode := Normal; cpu_threshold := f64_of_Z 90; ram_threshold := f64_of_Z 10; update_interval_secs := 5;
     metrics_last_update := now |}.

(** What a call reads from the system. *)
Record System := { proc_stat : option string; proc_meminfo : option string }.
Definition mode_for (cpu ram : f64) (c : AdmissionController) : AdmissionMode :=
  if SFltb (cpu_threshold c) cpu || SFltb ram (ram_threshold c) then Strict else Normal.
(** The load trend it persists is a key of its own in the default column family. *)
Definition update_metrics (now : Z) (sys : System) : method AdmissionController string unit :=
  c ← get;
  if sat_sub now (metrics_last_update c) <? update_interval_secs c then mret tt
  else
    cpu ← lift (read_cpu_usage (proc_stat sys));
    ram ← lift (read_ram_available (proc_meminfo sys));
    modify (λ c, {| metrics := {| cpu_percent := cpu; ram_available_percent := ram; metrics_timestamp := now |};
                    admission_mode := mode_for cpu ram c; cpu_threshold := cpu_threshold c; ram_threshold := ram_threshold c;
                    update_interval_secs := update_interval_secs c; metrics_last_update := now |}).
(** [let _ = self.update_metrics()] drops an error and passes a panic on. *)
Definition should_admit_transaction (now : Z) (sys : System) : method AdmissionController string (bool * Z) :=
  _ ← catch (update_metrics now sys) (λ _, mret tt) (λ _, mret tt);
  c ← get;
  mret (true, match admission_mode c with Normal => 1 | Strict => 2 end).

(** ** What the pool makes of it *)
Definition enforce_advanced_admission (now : Z) (sys : System) (fee_rate : Z) : method AdmissionController string Z :=
  '(should_admit, multiplier) ← should_admit_transaction now sys;
  if negb (should_admit : bool) then throw "Transaction rejected due to resource constraints"
  else mret (wmul 64 fee_rate multiplier).
Definition min_density (size_bytes : Z) : Z :=
  if size_bytes <? 1000 then 1 else if size_bytes <? 10000 then 2 else 5.
Definition check_fee_density (fee_rate size_bytes : Z) : outcome string unit :=
  if size_bytes =? 0 then Ok tt
  else if fee_rate <? min_density size_bytes then Err "Fee density too low: {} sat/byte, minimum {} sat/byte for {} bytes"
  else Ok tt.
Definition enforce_minimum_fee_rate (fee_rate : Z) (f : FeeFilter) : outcome string unit :=
  if fee_rate <? current_min_fee f then Err "Transaction fee rate {} sat/B below current minimum {} sat/B" else Ok tt.
Definition enforce_source_rate_limit (now max_per_source window_secs : Z) (source_key : list byte) :
    method (gmap (list byte) TokenBucket) string unit := λ m,
  let capacity := f64_of_Z max_per_source in
  let b := default (TokenBucket_new now capacity (f64_div capacity (f64_of_Z window_secs))) (m !! source_key) in
  let '(ok, b) := try_consume now (f64_of_Z 1) b in
  (if ok : bool then Ok tt else Err "Rate limit exceeded for source - max {} transactions per {} seconds", <[source_key := b]> m).
(** 0.1 *)
Definition f64_tenth : f64 := S754_finite false 7205759403792794 (-56).
Definition calculate_starvation_boost (now arrival_time base_fee_rate : Z) : Z :=
  let hours := sat_sub now arrival_time / 3600 in
  if hours =? 0 then base_fee_rate
  else
    let boost := f64_add (f64_of_Z 1) (f64_min (f64_mul (f64_of_Z hours) f64_tenth) (f64_of_Z 2)) in
    f64_trunc_u64 (f64_mul (f64_of_Z base_fee_rate) boost).

(** ** A burst from one source *)
Definition attempts (now : Z) (n : f64) (k : nat) (b : TokenBucket) : list bool * TokenBucket :=
  Nat.iter k (λ '(l, b), let '(ok, b) := try_consume now n b in (l ++ [ok], b)) ([], b).

(** With the default limits, ten transactions of one source pass at one moment,
    whatever is tried after them does not. *)
Theorem burst_limited now k :
  let capacity := f64_of_Z 10 in
  (attempts now (f64_of_Z 1) k (TokenBucket_new now capacity (f64_div capacity (f64_of_Z 60)))).1
  = replicate (k `min` 10) true ++ replicate (k - 10) false.
Proof.
  assert (Enow : ∀ b, last_refill b = now → sat_sub now (last_refill b) = 0) by (intros b ->; unfold sat_sub; lia).
  set (cap := f64_of_Z 10). set (rate := f64_div cap (f64_of_Z 60)).
  set (at_ := λ t, {| tokens := t; capacity := cap; refill_rate := rate; last_refill := now |}).
  assert (Hstep : ∀ n, (n < 10)%nat → try_consume now (f64_of_Z 1) (at_ (f64_of_Z (10 - Z.of_nat n))) = (true, at_ (f64_of_Z (10 - Z.of_nat (S n))))).
  { intros n Hn. unfold try_consume, refill, at_. cbn [tokens capacity refill_rate last_refill]. unfold sat_sub. rewrite Z.sub_diag.
    do 10 (destruct n as [|n]; [vm_compute; reflexivity|]). lia. }
  assert (Hend : try_consume now (f64_of_Z 1) (at_ (f64_of_Z 0)) = (false, at_ (f64_of_Z 0))).
  { unfold try_consume, refill, at_. cbn [tokens capacity refill_rate last_refill]. unfold sat_sub. rewrite Z.sub_diag. vm_compute. reflexivity. }
  cut (attempts now (f64_of_Z 1) k (at_ cap) = (replicate (k `min` 10) true ++ replicate (k - 10) false, at_ (f64_of_Z (10 - Z.of_nat (k `min` 10))))).
  { intros E. cbv zeta. exact (f_equal fst E). }
  clearbody at_. unfold attempts. induction k as [|k IH]; [done|]. rewrite Nat.iter_succ. rewrite IH.
  destruct (decide (k < 10)%nat) as [Hk|Hk].
  - rewrite Nat.min_l by lia. rewrite Hstep by done. replace (S k `min` 10)%nat with (S k) by lia. replace (k - 10)%nat with 0%nat by lia.
    replace (S k - 10)%nat with 0%nat by lia. cbn [replicate]. rewrite !app_nil_r. f_equal. rewrite <- replicate_cons_app. done.
  - replace (k `min` 10)%nat with 10%nat by lia. replace (S k `min` 10)%nat with 10%nat by lia. change (10 - Z.of_nat 10) with 0. rewrite Hend.
    replace (S k - 10)%nat with (S (k - 10)) by lia. rewrite <- app_assoc. by rewrite <- replicate_cons_app.
Qed.

(** ** The threshold comes down *)
Definition light (current_size max_size : Z) : Prop :=
  max_size ≠ 0 ∧ SFltb three_quarters (f64_div (f64_of_Z current_size) (f64_of_Z max_size)) = false
  ∧ SFltb (f64_div (f64_of_Z current_size) (f64_of_Z max_size)) one_quarter = true.
(** Updates at times at least ten seconds apart, under a light load. *)
Fixpoint light_updates (current_size max_size : Z) (times : list Z) (f : FeeFilter) : FeeFilter :=
  match times with
  | [] => f
  | t :: times => light_updates current_size max_size times (update_threshold t current_size max_size f)
  end.
Fixpoint spaced (from : Z) (times : list Z) : Prop :=
  match times with [] => True | t :: times => from + 10 ≤ t ∧ spaced t times end.

Lemma light_update t cur max f :
  light cur max → filter_last_update f + 10 ≤ t → 0 ≤ base_min_fee f ≤ current_min_fee f →
  let f' := update_threshold t cur max f in
  base_min_fee f' = base_min_fee f ∧ filter_last_update f' = t
  ∧ current_min_fee f' - base_min_fee f = (current_min_fee f - base_min_fee f + 1) / 2.
Proof.
  intros (Hm & Hhigh & Hlow) Ht Hb. unfold update_threshold.
  assert (max =? 0 = false) as -> by lia.
  assert (sat_sub t (filter_last_update f) <? 10 = false) as -> by (unfold sat_sub; lia).
  rewrite Hhigh, Hlow. cbn. split_and!; [done..|]. unfold sat_sub.
  rewrite (Z.max_l (current_min_fee f - base_min_fee f)) by lia. set (d := current_min_fee f - base_min_fee f) in *.
  pose proof (Z.div_mod d 2 ltac:(lia)) as E1. pose proof (Z.mod_pos_bound d 2 ltac:(lia)).
  pose proof (Z.div_mod (d + 1) 2 ltac:(lia)) as E2. pose proof (Z.mod_pos_bound (d + 1) 2 ltac:(lia)). unfold d in *. lia.
Qed.

(** The fee filter recovers: however high the threshold is, after sixty-four updates
    under a light load it is at most one above the base fee.  It never comes back to
    the base fee itself. *)
Theorem fee_filter_recovers cur max times f
    (Hlight : light cur max) (Hspaced : spaced (filter_last_update f) times)
    (Hbase : 0 ≤ base_min_fee f) (Hf : base_min_fee f ≤ current_min_fee f < base_min_fee f + 2 ^ 64) (Hlen : (64 ≤ length times)%nat) :
  let f' := light_updates cur max times f in
  base_min_fee f' = base_min_fee f ∧ current_min_fee f' ≤ base_min_fee f + 1
  ∧ (base_min_fee f < current_min_fee f → current_min_fee f' = base_min_fee f + 1).
Proof.
  cut (let f' := light_updates cur max times f in
       base_min_fee f' = base_min_fee f ∧ 0 ≤ current_min_fee f' - base_min_fee f
       ∧ (current_min_fee f' - base_min_fee f) * 2 ^ Z.of_nat (length times) < current_min_fee f - base_min_fee f + 2 ^ Z.of_nat (length times)
       ∧ (base_min_fee f < current_min_fee f → base_min_fee f < current_min_fee f')).
  { intros (E & H1 & H2 & H3). cbn zeta. split; [done|].
    assert (Hp : 2 ^ 64 ≤ 2 ^ Z.of_nat (length times)) by (apply Z.pow_le_mono_r; lia).
    assert (current_min_fee (light_updates cur max times f) - base_min_fee f ≤ 1) by nia. split; lia. }
  revert f Hspaced Hbase Hf; clear Hlen. induction times as [|t times IH]; intros f Hs H0' Hf; cbn [light_updates spaced length] in *.
  { change (2 ^ Z.of_nat 0) with 1. split_and!; lia. }
  destruct Hs as [Ht Hs]. destruct (light_update t cur max f Hlight Ht ltac:(lia)) as (Eb & El & Ed).
  set (f1 := update_threshold t cur max f) in *. set (d := current_min_fee f - base_min_fee f) in *.
  pose proof (Z.div_mod (d + 1) 2 ltac:(lia)) as Em. pose proof (Z.mod_pos_bound (d + 1) 2 ltac:(lia)) as Hb.
  destruct (IH f1) as (E & H1 & H2 & H3); [by rewrite El|lia|lia|]. rewrite Eb in *. split_and!; [done|lia| |].
  - rewrite Nat2Z.inj_succ, Z.pow_succ_r by lia. set (p := 2 ^ Z.of_nat (length times)) in *. nia.
  - intros Hlt. apply H3. lia.
Qed.

(** ** Strict mode *)
Definition set_mode (m : AdmissionMode) (c : AdmissionController) : AdmissionController :=
  {| metrics := metrics c; admission_mode := m; cpu_threshold := cpu_threshold c; ram_threshold := ram_threshold c;
     update_interval_secs := update_interval_secs c; metrics_last_update := metrics_last_update c |}.
Definition admitted (now : Z) (sys : System) (c : AdmissionController) (fee_rate size_bytes : Z) : Prop :=
  ∃ r, (enforce_advanced_admission now sys fee_rate c).1 = Ok r ∧ check_fee_density r size_bytes = Ok tt.

(** Strict mode asks for less: it doubles the fee rate that is compared with the
    required density instead of the requirement. *)
Theorem strict_mode_admits_more now sys c r size
    (Hfresh : sat_sub now (metrics_last_update c) < update_interval_secs c) (Hr : 0 ≤ r < 2 ^ 63) :
  (admitted now sys (set_mode Normal c) r size ↔ size = 0 ∨ min_density size ≤ r)
  ∧ (admitted now sys (set_mode Strict c) r size ↔ size = 0 ∨ min_density size ≤ 2 * r).
Proof.
  assert (Hrun : ∀ m, (enforce_advanced_admission now sys r (set_mode m c)).1 = Ok (r * match m with Normal => 1 | Strict => 2 end)).
  { intros m. unfold enforce_advanced_admission, should_admit_transaction, catch, update_metrics, mbind, method_bind, get. cbn [update_interval_secs metrics_last_update set_mode].
    assert (sat_sub now (metrics_last_update c) <? update_interval_secs c = true) as -> by lia. cbn.
    f_equal. unfold wmul. apply wrap_small. unfold fits. destruct m; lia. }
  assert (Hd : ∀ x, check_fee_density x size = Ok tt ↔ size = 0 ∨ min_density size ≤ x).
  { intros x. unfold check_fee_density. destruct (Z.eqb_spec size 0); [split; [by left|done]|].
    destruct (Z.ltb_spec x (min_density size)); split; try done; [intros [?|?]; lia|by right]. }
  unfold admitted. split.
  - rewrite (Hrun Normal), <- Hd. split; [by intros (x & [= <-] & Hx); rewrite Z.mul_1_r in Hx|]. intros Hx. exists (r * 1). by rewrite Z.mul_1_r.
  - rewrite (Hrun Strict), (Z.mul_comm 2 r), <- Hd. split; [by intros (x & [= <-] & Hx)|]. intros Hx. by exists (r * 2).
Qed.

(** A first line with a label and seven numbers passes the check of the number of
    fields, and the eighth number is read all the same. *)
Theorem short_stat_line_panics content line rest
    (Hlines : file_lines content = line :: rest) (Hlen : length (split_whitespace line) = 8%nat)
    (Hcpu : String.prefix "cpu" (default "" (head (split_whitespace line))) = true) :
  read_cpu_usage (Some content) = Panic "index out of bounds".
Proof.
  unfold read_cpu_usage. cbn [ok_or mbind outcome_bind]. rewrite Hlines. cbn [head ok_or]. cbn [mbind outcome_bind].
  destruct (split_whitespace line) as [|a [|b [|c [|d [|e [|f [|g [|h [|]]]]]]]]]; try discriminate Hlen.
  cbn [head default] in Hcpu. cbn [length head default]. rewrite Hcpu. reflexivity.
Qed.

(** ** Witnesses *)
Lemma fee_filter_recovers_witness :
  let f := {| base_min_fee := 3; current_min_fee := 1000; max_bump_percent := 150; filter_last_update := 0 |} in
  current_min_fee (light_updates 100 10000 ((λ n, Z.of_nat n * 10 + 10) <$> seq 0 64) f) = 4.
Proof.
  intros f. destruct (fee_filter_recovers 100 10000 ((λ n, Z.of_nat n * 10 + 10) <$> seq 0 64) f) as (_ & _ & E).
  - split_and!; [lia|vm_compute; reflexivity|vm_compute; reflexivity].
  - cbn. lia.
  - cbn. lia.
  - cbn. lia.
  - vm_compute. apply le_n.
  - apply E. cbn. lia.
Defined.
(** At 1000 bytes two units per byte are asked for; one is enough in strict mode. *)
Lemma strict_mode_admits_more_witness :
  let c := AdmissionController_new 100 in
  let sys := {| proc_stat := None; proc_meminfo := None |} in
  ¬ admitted 101 sys (set_mode Normal c) 1 1000 ∧ admitted 101 sys (set_mode Strict c) 1 1000.
Proof.
  intros c sys. destruct (strict_mode_admits_more 101 sys c 1 1000 ltac:(vm_compute; reflexivity) ltac:(lia)) as [H1 H2].
  split; [|apply H2; right; vm_compute; discriminate]. intros Ha. apply H1 in Ha as [Ha|Ha]; [discriminate Ha|]. vm_compute in Ha. by apply Ha.
Defined.
Lemma short_stat_line_panics_witness :
  read_cpu_usage (Some "cpu  1 2 3 4 5 6 7"%string) = Panic "index out of bounds".
Proof.
  apply (short_stat_line_panics "cpu  1 2 3 4 5 6 7"%string "cpu  1 2 3 4 5 6 7"%string []); vm_compute; reflexivity.
Defined.
