(* ===== verification/Selection.v ===== *)
(** * Pool entries and what is selected from them

    klomang-node, [mempool/selection.rs] (the deterministic selector),
    [mempool/parallel_selection.rs] (parallel sets and the fee balancer), and of
    [mempool/pool.rs] the entries, snapshots, the canonical sort and the selection
    engine.  The clock and the encoding of hashes are arguments. *)

From Stdlib Require Import Init.Byte Floats.SpecFloat.
From stdpp Require Import gmap.
From S2P Require Import Prelude Crypto Transaction Pow NodePrelude Status Storage MemoryStore StorageProofs F64 PriorityBuckets.

Abbreviation key := (list byte).

(** ** Entries *)
Record PoolConfig := {
  max_pool_size : Z;
  max_orphan_size : Z;
  min_fee_rate : Z;
  dynamic_fee_bump_percent : Z;
  max_transactions_per_source : Z;
  rate_limit_window_secs : Z;
  orphan_ttl_secs : Z;
  rejected_ttl_secs : Z
}.
Definition default_pool_config : PoolConfig :=
  {| max_pool_size := 10000; max_orphan_size := 1000; min_fee_rate := 1; dynamic_fee_bump_percent := 150;
     max_transactions_per_source := 10; rate_limit_window_secs := 60; orphan_ttl_secs := 600; rejected_ttl_secs := 3600 |}.

Record PoolEntry := {
  pe_transaction : Transaction;
  pe_status : TransactionStatus;
  pe_arrival_time : Z;
  pe_size_bytes : Z;
  pe_total_fee : Z
}.
Definition PoolEntry_new (now : Z) (tx : Transaction) (total_fee size_bytes : Z) : PoolEntry :=
  {| pe_transaction := tx; pe_status := Pending; pe_arrival_time := now; pe_size_bytes := size_bytes; pe_total_fee := total_fee |}.
Definition rate_of (total_fee size_bytes : Z) : Z := if size_bytes =? 0 then 0 else total_fee / size_bytes.
Definition entry_fee_rate (e : PoolEntry) : Z := rate_of (pe_total_fee e) (pe_size_bytes e).
Definition entry_is_expired (now : Z) (config : PoolConfig) (e : PoolEntry) : bool :=
  let age := sat_sub now (pe_arrival_time e) in
  match pe_status e with
  | InOrphanPool => orphan_ttl_secs config <? age
  | Rejected => rejected_ttl_secs config <? age
  | _ => false
  end.
Record SelectedTransaction := { sel_transaction : Transaction; sel_total_fee : Z; sel_size_bytes : Z }.

(** ** The deterministic selector *)
Inductive SelectionCriteria :=
  | MaxCount (n : Z)
  | MaxBytes (b : Z)
  | MaxFees (f : Z)
  | Combined (max_count max_bytes max_fees : Z).
Inductive SelectionStrategy := HighestFee | AncestorSet | FIFO.

Definition parse_criteria (c : SelectionCriteria) : Z * Z * Z :=
  match c with
  | MaxCount n => (n, usize_max, u64_max)
  | MaxBytes b => (usize_max, b, u64_max)
  | MaxFees f => (usize_max, usize_max, f)
  | Combined c b f => (c, b, f)
  end.

(** The loop over the candidates, which both strategies share. *)
Record Selecting := { sl_selected : list SelectedTransaction; sl_bytes : Z; sl_fees : Z }.
Definition select_entry (e : PoolEntry) (st : Selecting) : Selecting :=
  {| sl_selected := sl_selected st ++ [{| sel_transaction := pe_transaction e; sel_total_fee := pe_total_fee e; sel_size_bytes := pe_size_bytes e |}];
     sl_bytes := wadd 64 (sl_bytes st) (pe_size_bytes e); sl_fees := wadd 64 (sl_fees st) (pe_total_fee e) |}.
Fixpoint select_loop (limits : Z * Z * Z) (entries : list PoolEntry) (st : Selecting) : Selecting :=
  let '(max_count, max_bytes, max_fees) := limits in
  match entries with
  | [] => st
  | e :: entries =>
      if max_count <=? Z.of_nat (length (sl_selected st)) then st
      else if max_bytes <? wadd 64 (sl_bytes st) (pe_size_bytes e) then st
      else if max_fees <? wadd 64 (sl_fees st) (pe_total_fee e) then st
      else select_loop limits entries (select_entry e st)
  end.
Definition nothing_selected : Selecting := {| sl_selected := []; sl_bytes := 0; sl_fees := 0 |}.

Section selector.
Context `{Bincode}.
(** [bincode::serialize(..).unwrap_or_default()] *)
Definition entry_hash (e : PoolEntry) : key := default [] (bincode_hash (id (pe_transaction e))).

(** The comparison of the heap, whose greatest element is popped first. *)
Definition heap_compare (a b : PoolEntry) : comparison :=
  match entry_fee_rate a ?= entry_fee_rate b with
  | Eq => match pe_arrival_time a ?= pe_arrival_time b with
          | Eq => bytes_compare (entry_hash a) (entry_hash b)
          | c => c
          end
  | c => c
  end.
Definition popped_before (a b : PoolEntry) : bool := match heap_compare a b with Lt => false | _ => true end.
Definition heap_pops (entries : list PoolEntry) : list PoolEntry := sort_by popped_before entries.

Definition fifo_compare (a b : PoolEntry) : comparison :=
  match pe_arrival_time a ?= pe_arrival_time b with
  | Eq => bytes_compare (entry_hash a) (entry_hash b)
  | c => c
  end.
Definition fifo_leb (a b : PoolEntry) : bool := match fifo_compare a b with Gt => false | _ => true end.

Definition select_by_fee (entries : list PoolEntry) (c : SelectionCriteria) : list SelectedTransaction :=
  sl_selected (select_loop (parse_criteria c) (heap_pops entries) nothing_selected).
Definition select_by_fifo (entries : list PoolEntry) (c : SelectionCriteria) : list SelectedTransaction :=
  sl_selected (select_loop (parse_criteria c) (sort_by fifo_leb entries) nothing_selected).
Definition select (strategy : SelectionStrategy) (entries : list PoolEntry) (c : SelectionCriteria) : list SelectedTransaction :=
  match strategy with
  | HighestFee => select_by_fee entries c
  | FIFO => select_by_fifo entries c
  | AncestorSet => select_by_fee entries c
  end.
End selector.

(** ** Parallel sets *)
Definition calculate_transaction_weight (tx : Transaction) : Z :=
  wadd 64 (wadd 64 100 (wmul 64 (Z.of_nat (length (inputs tx))) 50)) (wmul 64 (Z.of_nat (length (outputs tx))) 30).

(** A full set is closed before the next transaction is put into a new one. *)
Record Sets := { closed_sets : list (list Transaction); current_set : list Transaction; current_weight : Z }.
Definition push_transaction (max_weight : Z) (st : Sets) (tx : Transaction) : Sets :=
  let w := calculate_transaction_weight tx in
  let st := if (max_weight <? wadd 64 (current_weight st) w) && negb (bool_decide (current_set st = []))
            then {| closed_sets := closed_sets st ++ [current_set st]; current_set := []; current_weight := 0 |} else st in
  {| closed_sets := closed_sets st; current_set := current_set st ++ [tx]; current_weight := wadd 64 (current_weight st) w |}.
Definition close_sets (st : Sets) : list (list Transaction) :=
  closed_sets st ++ (if bool_decide (current_set st = []) then [] else [current_set st]).
Definition fill_sets (max_weight : Z) (sets : list (list Transaction)) (txs : list Transaction) : list (list Transaction) :=
  close_sets (foldl (push_transaction max_weight) {| closed_sets := sets; current_set := []; current_weight := 0 |} txs).
Definition build_simple_sets (txs : list Transaction) (max_weight : Z) : list (list Transaction) := fill_sets max_weight [] txs.

Section sets.
Context `{Bincode}.
Definition map_transaction (m : gmap key Transaction) (tx : Transaction) : outcome string (gmap key Transaction) :=
  h ← ok_or (bincode_hash (id tx)) "Serialization error: {}"; Ok (<[h := tx]> m).
(** [groups] are the groups of the conflict engine. *)
Definition build_parallel_sets (groups : list (list key)) (txs : list Transaction) (max_weight : Z) :
    outcome string (list (list Transaction)) :=
  if bool_decide (txs = []) then Ok []
  else if bool_decide (groups = []) then Ok (build_simple_sets txs max_weight)
  else
    tx_map ← fold_outcome map_transaction ∅ txs;
    Ok (foldl (λ sets group, fill_sets max_weight sets (omap (λ h, tx_map !! h) group)) [] groups).
End sets.

(** ** The fee balancer *)
Record FeeBalancer := { congestion_multiplier : f64; baseline_fee : Z }.
Definition FeeBalancer_new : FeeBalancer := {| congestion_multiplier := f64_of_Z 1; baseline_fee := 1 |}.
(** The block fees are simulated by the code. *)
Definition calculate_block_fee (i : Z) : Z := 10 + i * 5.
Definition get_recent_block_fees : list Z := calculate_block_fee <$> seqZ 0 10.
Definition update_baseline_fee (b : FeeBalancer) : FeeBalancer :=
  {| congestion_multiplier := congestion_multiplier b;
     baseline_fee := Z.max (zsum get_recent_block_fees / Z.of_nat (length get_recent_block_fees)) 1 |}.
Definition update_congestion (current_pool_size max_pool_size avg_transaction_age : Z) (b : FeeBalancer) : FeeBalancer :=
  let utilization := f64_div (f64_of_Z current_pool_size) (f64_of_Z max_pool_size) in
  let age_factor := f64_min (f64_div (f64_of_Z avg_transaction_age) (f64_of_Z 3600)) (f64_of_Z 1) in
  let level := f64_div (f64_add utilization age_factor) (f64_of_Z 2) in
  update_baseline_fee
    {| congestion_multiplier := f64_add (f64_of_Z 1) (f64_mul level (f64_of_Z 2)); baseline_fee := baseline_fee b |}.
Definition get_recommended_min_fee (b : FeeBalancer) : Z :=
  f64_trunc_u64 (f64_mul (f64_of_Z (baseline_fee b)) (congestion_multiplier b)).

(** ** Snapshots and the selection engine *)
Record MempoolSnapshot := { sn_block_height : Z; sn_transactions : list (key * Transaction) }.
Definition get_all_transactions (s : MempoolSnapshot) : list Transaction := (sn_transactions s).*2.

Definition estimate_serialized_size (tx : Transaction) : Z :=
  wadd 64 (wadd 64 (wmul 64 (Z.of_nat (length (inputs tx))) 100) (wmul 64 (Z.of_nat (length (outputs tx))) 50)) 200.
(** [(tx.max_fee_per_gas as u64) / size] *)
Definition calculate_fee_rate (tx : Transaction) : Z :=
  let size := estimate_serialized_size tx in
  if size =? 0 then 0 else wrap 64 (max_fee_per_gas tx) / size.
Definition get_dependency_rank (tx : Transaction) : Z := Z.of_nat (length (inputs tx)).
Definition canonical_compare (a b : Transaction) : comparison :=
  match calculate_fee_rate b ?= calculate_fee_rate a with
  | Eq => match get_dependency_rank a ?= get_dependency_rank b with
          | Eq => bytes_compare (as_bytes (id a)) (as_bytes (id b))
          | c => c
          end
  | c => c
  end.
Definition canonical_leb (a b : Transaction) : bool := match canonical_compare a b with Gt => false | _ => true end.
Definition apply_canonical_sort (txs : list Transaction) : list Transaction := sort_by canonical_leb txs.

Section engine.
Context {D : Type} {C : Type → Type} `{RocksDb D, LruCache C, Codec UtxoValue}.
Abbreviation selecting := (method (StorageCacheLayer D C) string).

(** The set [spent_outputs] of the code. *)
Definition is_conflict_free (tx : Transaction) (spent_outputs : gset (key * Z)) : bool :=
  forallb (λ i, negb (bool_decide ((as_bytes (prev_tx i), index i) ∈ spent_outputs))) (inputs tx).
Fixpoint check_utxo_availability (ins : list TxInput) : selecting bool :=
  match ins with
  | [] => mret true
  | i :: ins =>
      b ← rethrow (λ _ : StorageError, "Storage error: {}"%string) (utxo_exists (as_bytes (prev_tx i)) (index i));
      if b : bool then check_utxo_availability ins else mret false
  end.
(** The outputs of a selected transaction, as the code inserts them. *)
Definition outputs_of (tx : Transaction) : gset (key * Z) :=
  list_to_set ((λ '(i, _), (as_bytes (id tx), wrap 32 (Z.of_nat i))) <$> enumerate (outputs tx)).
Fixpoint select_candidates (max_block_size : Z) (candidates : list Transaction) (selected : list Transaction)
    (spent_outputs : gset (key * Z)) (current_size : Z) : selecting (list Transaction) :=
  match candidates with
  | [] => mret selected
  | tx :: candidates =>
      if negb (is_conflict_free tx spent_outputs) then select_candidates max_block_size candidates selected spent_outputs current_size
      else
        available ← check_utxo_availability (inputs tx);
        if negb available then select_candidates max_block_size candidates selected spent_outputs current_size
        else
          let tx_size := estimate_serialized_size tx in
          if max_block_size <? wadd 64 current_size tx_size then mret selected
          else select_candidates max_block_size candidates (selected ++ [tx]) (outputs_of tx ∪ spent_outputs) (wadd 64 current_size tx_size)
  end.
Definition select_transactions (snapshot : MempoolSnapshot) (max_block_size : Z) : selecting (list Transaction) :=
  select_candidates max_block_size (apply_canonical_sort (get_all_transactions snapshot)) [] ∅ 0.
End engine.

(** ** The order of a selection depends on the entries alone *)
Section orders.
Context `{Bincode}.

Definition lexicographic (r a : Z * Z) (h k : key) : comparison :=
  match r.1 ?= r.2 with Eq => match a.1 ?= a.2 with Eq => bytes_compare h k | c => c end | c => c end.

Lemma bytes_compare_cases h k : match bytes_compare h k with
  | Eq => h = k
  | Lt => bytes_leb h k = true ∧ h ≠ k
  | Gt => bytes_leb k h = true ∧ h ≠ k
  end.
Proof.
  destruct (bytes_compare h k) eqn:E.
  - by apply bytes_compare_eq.
  - unfold bytes_compare in E. destruct (bytes_leb h k) eqn:E1; [|done]. destruct (bytes_leb k h) eqn:E2; [done|].
    split; [done|]. intros ->. by rewrite bytes_leb_refl in E2.
  - unfold bytes_compare in E. destruct (bytes_leb h k) eqn:E1; [by destruct (bytes_leb k h)|].
    destruct (bytes_leb_total h k) as [|E2]; [congruence|]. split; [done|]. intros ->. by rewrite bytes_leb_refl in E1.
Qed.
Lemma bytes_compare_trans h k j : bytes_compare h k ≠ Gt → bytes_compare k j ≠ Gt → bytes_compare h j ≠ Gt.
Proof.
  intros H1 H2 H3. pose proof (bytes_compare_cases h j) as H4. rewrite H3 in H4. destruct H4 as [H4 Hne].
  assert (H5 : bytes_leb h k = true ∧ bytes_leb k j = true).
  { pose proof (bytes_compare_cases h k) as C1. pose proof (bytes_compare_cases k j) as C2.
    destruct (bytes_compare h k), (bytes_compare k j); try done; split; try (by destruct C1); try (by destruct C2); subst; apply bytes_leb_refl. }
  apply Hne. apply bytes_leb_antisym; [|done]. by eapply bytes_leb_trans; destruct H5.
Qed.

Lemma lexicographic_trans (f g : PoolEntry → Z) (x y z : PoolEntry) :
  lexicographic (f x, f y) (g x, g y) (entry_hash x) (entry_hash y) ≠ Gt →
  lexicographic (f y, f z) (g y, g z) (entry_hash y) (entry_hash z) ≠ Gt →
  lexicographic (f x, f z) (g x, g z) (entry_hash x) (entry_hash z) ≠ Gt.
Proof.
  unfold lexicographic. cbn [fst snd].
  destruct (Z.compare_spec (f x) (f y)), (Z.compare_spec (f y) (f z)), (Z.compare_spec (f x) (f z)); try done; try lia;
    destruct (Z.compare_spec (g x) (g y)), (Z.compare_spec (g y) (g z)), (Z.compare_spec (g x) (g z)); try done; try lia.
  apply bytes_compare_trans.
Qed.
Lemma lexicographic_swap r a h k : lexicographic (r.2, r.1) (a.2, a.1) k h = CompOpp (lexicographic r a h k).
Proof.
  unfold lexicographic. cbn [fst snd]. rewrite (Z.compare_antisym r.1 r.2), (Z.compare_antisym a.1 a.2), (bytes_compare_antisym h k).
  by destruct (r.1 ?= r.2), (a.1 ?= a.2).
Qed.
Lemma lexicographic_eq r a h k : lexicographic r a h k = Eq → h = k.
Proof. unfold lexicographic. destruct (r.1 ?= r.2); try done. destruct (a.1 ?= a.2); try done. apply bytes_compare_eq. Qed.

Lemma popped_lex x y : popped_before x y =
  match lexicographic (entry_fee_rate y, entry_fee_rate x) (pe_arrival_time y, pe_arrival_time x) (entry_hash y) (entry_hash x) with
  | Gt => false | _ => true end.
Proof.
  rewrite (lexicographic_swap (entry_fee_rate x, entry_fee_rate y) (pe_arrival_time x, pe_arrival_time y)).
  unfold popped_before, heap_compare, lexicographic. cbn [fst snd].
  destruct (entry_fee_rate x ?= entry_fee_rate y); try done. destruct (pe_arrival_time x ?= pe_arrival_time y); try done.
  by destruct (bytes_compare _ _).
Qed.
Lemma fifo_lex x y : fifo_leb x y =
  match lexicographic (0, 0) (pe_arrival_time x, pe_arrival_time y) (entry_hash x) (entry_hash y) with Gt => false | _ => true end.
Proof. reflexivity. Qed.

(** Both comparisons are total orders on entries with distinct hashes. *)
Record entry_order (leb : PoolEntry → PoolEntry → bool) : Prop := {
  eo_total x y : leb x y = true ∨ leb y x = true;
  eo_trans x y z : leb x y = true → leb y z = true → leb x z = true;
  eo_hash x y : leb x y = true → leb y x = true → entry_hash x = entry_hash y
}.
Lemma heap_order : entry_order popped_before.
Proof.
  split; intros x y.
  - rewrite (popped_lex x y), (popped_lex y x), (lexicographic_swap (entry_fee_rate x, entry_fee_rate y) (pe_arrival_time x, pe_arrival_time y)).
    destruct (lexicographic _ _ _ _); auto.
  - intros z. rewrite !popped_lex. intros H1 H2.
    pose proof (lexicographic_trans entry_fee_rate pe_arrival_time z y x) as Ht.
    destruct (lexicographic (entry_fee_rate z, entry_fee_rate x) _ _ _); try done. exfalso. apply Ht; [| |done]; intros E; by rewrite E in *.
  - rewrite (popped_lex x y), (popped_lex y x), (lexicographic_swap (entry_fee_rate x, entry_fee_rate y) (pe_arrival_time x, pe_arrival_time y)).
    destruct (lexicographic _ _ _ _) eqn:E; try done. intros _ _. by apply lexicographic_eq in E.
Qed.
Lemma fifo_order : entry_order fifo_leb.
Proof.
  split; intros x y.
  - rewrite (fifo_lex x y), (fifo_lex y x), (lexicographic_swap (0, 0) (pe_arrival_time x, pe_arrival_time y)).
    destruct (lexicographic _ _ _ _); auto.
  - intros z. rewrite !fifo_lex. intros H1 H2. pose proof (lexicographic_trans (λ _, 0) pe_arrival_time x y z) as Ht.
    destruct (lexicographic (0, 0) (pe_arrival_time x, pe_arrival_time z) _ _); try done. exfalso. apply Ht; [| |done]; intros E; by rewrite E in *.
  - rewrite (fifo_lex x y), (fifo_lex y x), (lexicographic_swap (0, 0) (pe_arrival_time x, pe_arrival_time y)).
    destruct (lexicographic _ _ _ _) eqn:E; try done. intros _ _. by apply lexicographic_eq in E.
Qed.
Lemma sort_entries_unique leb l k : entry_order leb → l ≡ₚ k → NoDup (entry_hash <$> l) → sort_by leb l = sort_by leb k.
Proof.
  intros [Ht Htr Hh] Hp Hnd. apply sort_by_unique_on; [done|done|done|]. intros x y Hx Hy Hxy Hyx.
  apply list_elem_of_lookup in Hx as [i Hi], Hy as [j Hj]. assert (i = j) as ->; [|congruence].
  eapply NoDup_lookup; [exact Hnd| |]; rewrite list_lookup_fmap, ?Hi, ?Hj; cbn; [done|]. f_equal. symmetry. by apply Hh.
Qed.

(** The order in which a strategy considers entries. *)
Definition considered (strategy : SelectionStrategy) (entries : list PoolEntry) : list PoolEntry :=
  match strategy with FIFO => sort_by fifo_leb entries | _ => heap_pops entries end.
Lemma select_considered strategy entries c :
  select strategy entries c = sl_selected (select_loop (parse_criteria c) (considered strategy entries) nothing_selected).
Proof. by destruct strategy. Qed.

(** A selection does not depend on the order in which the pool lists its entries. *)
Theorem selection_deterministic strategy entries entries' c
    (Hp : entries ≡ₚ entries') (Hnd : NoDup (entry_hash <$> entries)) :
  select strategy entries c = select strategy entries' c.
Proof.
  rewrite !select_considered. do 2 f_equal. unfold considered, heap_pops.
  destruct strategy; by apply sort_entries_unique; auto using heap_order, fifo_order.
Qed.

(** Of two entries of one fee rate the later one is selected first. *)
Theorem newer_selected_first e e' (Hrate : entry_fee_rate e = entry_fee_rate e') (Hage : pe_arrival_time e < pe_arrival_time e') :
  heap_pops [e; e'] = [e'; e] ∧ heap_pops [e'; e] = [e'; e].
Proof.
  unfold heap_pops, sort_by. cbn [foldr insert_sorted].
  assert (E1 : popped_before e e' = false) by (unfold popped_before, heap_compare; rewrite Hrate, Z.compare_refl; by rewrite (proj2 (Z.compare_lt_iff _ _) Hage)).
  assert (E2 : popped_before e' e = true) by (unfold popped_before, heap_compare; rewrite Hrate, Z.compare_refl; by rewrite (proj2 (Z.compare_gt_iff _ _) Hage)).
  by rewrite E1, E2.
Qed.

(** ** What is selected *)
Definition selected_of (e : PoolEntry) : SelectedTransaction :=
  {| sel_transaction := pe_transaction e; sel_total_fee := pe_total_fee e; sel_size_bytes := pe_size_bytes e |}.
Abbreviation bytes_of l := (zsum (pe_size_bytes <$> l)).
Abbreviation fees_of l := (zsum (pe_total_fee <$> l)).
Definition measured (e : PoolEntry) : Prop := 0 ≤ pe_size_bytes e ∧ 0 ≤ pe_total_fee e.

Lemma select_loop_run limits l st p :
  let '(max_count, max_bytes, max_fees) := limits in
  Forall measured (p ++ l) → bytes_of (p ++ l) < 2 ^ 64 → fees_of (p ++ l) < 2 ^ 64 →
  st = {| sl_selected := selected_of <$> p; sl_bytes := bytes_of p; sl_fees := fees_of p |} →
  Z.of_nat (length p) ≤ Z.max 0 max_count → bytes_of p ≤ Z.max 0 max_bytes → fees_of p ≤ Z.max 0 max_fees →
  ∃ q rest, l = q ++ rest ∧ sl_selected (select_loop limits l st) = selected_of <$> (p ++ q)
  ∧ Z.of_nat (length (p ++ q)) ≤ Z.max 0 max_count ∧ bytes_of (p ++ q) ≤ Z.max 0 max_bytes ∧ fees_of (p ++ q) ≤ Z.max 0 max_fees
  ∧ match rest with
    | [] => True
    | e :: _ => max_count ≤ Z.of_nat (length (p ++ q)) ∨ max_bytes < bytes_of (p ++ q ++ [e]) ∨ max_fees < fees_of (p ++ q ++ [e])
    end.
Proof.
  destruct limits as [[max_count max_bytes] max_fees]. intros Hm Hb Hf -> Hc1 Hc2 Hc3.
  revert p Hm Hb Hf Hc1 Hc2 Hc3; induction l as [|e l IH]; intros p Hm Hb Hf Hc1 Hc2 Hc3.
  { exists [], []. rewrite !app_nil_r. done. }
  assert (Hrest : 0 ≤ bytes_of l ∧ 0 ≤ fees_of l ∧ measured e ∧ 0 ≤ bytes_of p ∧ 0 ≤ fees_of p).
  { rewrite Forall_app, Forall_cons in Hm. destruct Hm as (Hp & He & Hl).
    assert (Hn : ∀ k, Forall measured k → 0 ≤ bytes_of k ∧ 0 ≤ fees_of k).
    { intros k Hk. split; apply zsum_nonneg, Forall_fmap; eapply Forall_impl; try exact Hk; by intros x [??]. }
    destruct (Hn l Hl), (Hn p Hp). by split_and!. }
  destruct Hrest as (Hl1 & Hl2 & [He1 He2] & Hp1 & Hp2).
  rewrite fmap_app, fmap_cons, zsum_app, zsum_cons in Hb, Hf.
  assert (Ew : wadd 64 (bytes_of p) (pe_size_bytes e) = bytes_of (p ++ [e])).
  { rewrite fmap_app, zsum_app. cbn. unfold wadd. rewrite wrap_small; [lia|]. unfold fits. lia. }
  assert (Ef : wadd 64 (fees_of p) (pe_total_fee e) = fees_of (p ++ [e])).
  { rewrite fmap_app, zsum_app. cbn. unfold wadd. rewrite wrap_small; [lia|]. unfold fits. lia. }
  cbn [select_loop sl_selected sl_bytes sl_fees]. rewrite length_fmap, Ew, Ef.
  destruct (Z.leb_spec max_count (Z.of_nat (length p))) as [Hs|Hs].
  { exists [], (e :: l). rewrite !app_nil_r. split_and!; try done. by left. }
  destruct (Z.ltb_spec max_bytes (bytes_of (p ++ [e]))) as [Hs'|Hs'].
  { exists [], (e :: l). rewrite !app_nil_r. split_and!; try done. by right; left. }
  destruct (Z.ltb_spec max_fees (fees_of (p ++ [e]))) as [Hs''|Hs''].
  { exists [], (e :: l). rewrite !app_nil_r. split_and!; try done. by right; right. }
  replace (p ++ e :: l) with ((p ++ [e]) ++ l) in Hm by (by rewrite <- app_assoc).
  assert (Est : select_entry e {| sl_selected := selected_of <$> p; sl_bytes := bytes_of p; sl_fees := fees_of p |}
    = {| sl_selected := selected_of <$> (p ++ [e]); sl_bytes := bytes_of (p ++ [e]); sl_fees := fees_of (p ++ [e]) |}).
  { unfold select_entry. cbn [sl_selected sl_bytes sl_fees]. rewrite Ew, Ef. f_equal. by rewrite fmap_app. }
  rewrite Est. destruct (IH (p ++ [e])) as (q & rest & -> & Hq).
  - done.
  - rewrite fmap_app, zsum_app, fmap_app, zsum_app. cbn. lia.
  - rewrite fmap_app, zsum_app, fmap_app, zsum_app. cbn. lia.
  - rewrite length_app. cbn. lia.
  - lia.
  - lia.
  - exists (e :: q), rest. split; [done|]. destruct rest; rewrite <- !app_assoc in Hq; exact Hq.
Qed.

(** The selection, when no total overflows: a prefix of the entries in the order of
    the strategy, within all three limits, and the first entry left out would break one
    of them. *)
Theorem select_spec strategy entries c
    (Hm : Forall measured entries) (Hb : bytes_of entries < 2 ^ 64) (Hf : fees_of entries < 2 ^ 64) :
  let '(max_count, max_bytes, max_fees) := parse_criteria c in
  ∃ taken rest, considered strategy entries = taken ++ rest ∧ select strategy entries c = selected_of <$> taken
  ∧ Z.of_nat (length taken) ≤ Z.max 0 max_count ∧ bytes_of taken ≤ Z.max 0 max_bytes ∧ fees_of taken ≤ Z.max 0 max_fees
  ∧ match rest with
    | [] => True
    | e :: _ => max_count ≤ Z.of_nat (length taken) ∨ max_bytes < bytes_of (taken ++ [e]) ∨ max_fees < fees_of (taken ++ [e])
    end.
Proof.
  assert (Hp : considered strategy entries ≡ₚ entries) by (unfold considered, heap_pops; destruct strategy; apply sort_by_perm).
  pose proof (select_loop_run (parse_criteria c) (considered strategy entries) nothing_selected []) as Hrun.
  assert (Es : ∀ f : PoolEntry → Z, zsum (f <$> considered strategy entries) = zsum (f <$> entries)).
  { intros f. apply zsum_perm. by rewrite Hp. }
  rewrite select_considered. destruct (parse_criteria c) as [[mc mb] mf].
  apply Hrun; cbn [app fmap list_fmap length]; rewrite ?Es, ?Hp; try done; cbn; lia.
Qed.
End orders.

(** ** Parallel sets *)
Abbreviation weight_of l := (zsum (calculate_transaction_weight <$> l)).
Lemma weight_nonneg tx : 0 ≤ calculate_transaction_weight tx.
Proof. unfold calculate_transaction_weight, wadd. apply Z.mod_pos_bound. lia. Qed.
Lemma weights_nonneg l : 0 ≤ weight_of l.
Proof. apply zsum_nonneg, Forall_fmap, Forall_forall. intros x _. apply weight_nonneg. Qed.

(** A set is within the limit or a single transaction. *)
Definition set_fits (max : Z) (l : list Transaction) : Prop := l ≠ [] ∧ (weight_of l ≤ max ∨ ∃ tx, l = [tx]).
Record filling (max : Z) (st : Sets) (txs : list Transaction) : Prop := {
  fg_all : mjoin (closed_sets st) ++ current_set st = txs;
  fg_closed : Forall (set_fits max) (closed_sets st);
  fg_current : current_set st = [] ∨ set_fits max (current_set st);
  fg_weight : current_weight st = weight_of (current_set st)
}.

Lemma push_filling max st txs tx :
  filling max st txs → weight_of txs + calculate_transaction_weight tx < 2 ^ 64 → filling max (push_transaction max st tx) (txs ++ [tx]).
Proof.
  intros [Hall Hcl Hcur Hw] Hlt. pose proof (weight_nonneg tx) as Hn.
  assert (Hle : weight_of (current_set st) ≤ weight_of txs).
  { rewrite <- Hall, fmap_app, zsum_app. pose proof (weights_nonneg (mjoin (closed_sets st))). lia. }
  pose proof (weights_nonneg (current_set st)) as Hcn.
  assert (Ew : wadd 64 (current_weight st) (calculate_transaction_weight tx) = weight_of (current_set st) + calculate_transaction_weight tx).
  { rewrite Hw. unfold wadd. apply wrap_small. unfold fits. lia. }
  assert (E1 : ∀ l, weight_of (l ++ [tx]) = weight_of l + calculate_transaction_weight tx).
  { intros l. rewrite fmap_app, zsum_app. cbn. lia. }
  unfold push_transaction. rewrite Ew. destruct (Z.ltb_spec max (weight_of (current_set st) + calculate_transaction_weight tx)) as [Hgt|Hfit]; cbn [andb].
  - destruct (bool_decide (current_set st = [])) eqn:Ee; cbn [negb].
    + apply bool_decide_eq_true in Ee. split; cbn; rewrite ?Ew, ?E1; [|done| |done].
      * by rewrite <- Hall, app_assoc.
      * right. rewrite Ee. split; [done|]. right. by exists tx.
    + apply bool_decide_eq_false in Ee. assert (E0 : wadd 64 0 (calculate_transaction_weight tx) = calculate_transaction_weight tx).
      { unfold wadd. apply wrap_small. pose proof (weights_nonneg txs). unfold fits. lia. }
      split; cbn; rewrite ?E0; [|apply Forall_app; split; [done|]| |].
      * rewrite join_app. cbn. by rewrite app_nil_r, Hall.
      * constructor; [|done]. by destruct Hcur.
      * right. split; [done|]. right. by exists tx.
      * lia.
  - split; cbn; rewrite ?Ew, ?E1; [|done| |done].
    + by rewrite <- Hall, app_assoc.
    + right. split; [by destruct (current_set st)|]. left. rewrite E1. lia.
Qed.
Lemma pushes_filling max l st txs :
  filling max st txs → weight_of (txs ++ l) < 2 ^ 64 → filling max (foldl (push_transaction max) st l) (txs ++ l).
Proof.
  revert st txs; induction l as [|tx l IH]; intros st txs Hst Hlt; cbn [foldl]; [by rewrite app_nil_r|].
  replace (txs ++ tx :: l) with ((txs ++ [tx]) ++ l) in Hlt |- * by (by rewrite <- app_assoc).
  apply IH; [|done]. apply push_filling; [done|]. rewrite fmap_app, zsum_app, fmap_app, zsum_app in Hlt. cbn in Hlt.
  pose proof (weights_nonneg l). lia.
Qed.
Lemma fill_sets_ok max sets l :
  Forall (set_fits max) sets → weight_of (mjoin sets ++ l) < 2 ^ 64 →
  mjoin (fill_sets max sets l) = mjoin sets ++ l ∧ Forall (set_fits max) (fill_sets max sets l).
Proof.
  intros Hs Hlt. unfold fill_sets, close_sets.
  destruct (pushes_filling max l {| closed_sets := sets; current_set := []; current_weight := 0 |} (mjoin sets)) as [Hall Hcl Hcur _]; [|done|].
  { split; cbn; [by rewrite app_nil_r|done|by left|done]. }
  rewrite join_app. case_bool_decide as Ee.
  - rewrite Ee, app_nil_r in Hall. cbn. rewrite !app_nil_r. done.
  - cbn. rewrite app_nil_r. split; [done|]. apply Forall_app. split; [done|]. constructor; [by destruct Hcur|done].
Qed.

Section parallel.
Context `{BincodeLaws}.
Abbreviation hash_of_tx tx := (hash_bytes (id tx)).
Definition by_hashes (txs : list Transaction) (m : gmap key Transaction) : gmap key Transaction :=
  foldl (λ m tx, <[hash_of_tx tx := tx]> m) m txs.
Lemma map_transactions_run txs m : fold_outcome map_transaction m txs = Ok (by_hashes txs m).
Proof.
  revert m; induction txs as [|tx txs IH]; intros m; cbn [fold_outcome by_hashes foldl]; [done|].
  unfold map_transaction. rewrite hash_bytes_spec. cbn. apply IH.
Qed.
Lemma by_hashes_cons t txs m : by_hashes (t :: txs) m = by_hashes txs (<[hash_of_tx t := t]> m).
Proof. reflexivity. Qed.
Lemma by_hashes_sound txs m h tx :
  by_hashes txs m !! h = Some tx → (tx ∈ txs ∧ hash_of_tx tx = h) ∨ m !! h = Some tx.
Proof.
  revert m; induction txs as [|t txs IH]; intros m; [by right|]. rewrite by_hashes_cons.
  intros [[Hin Eh]|Hl]%IH; [left; by split; [right|]|]. apply lookup_insert_Some in Hl as [[<- <-]|[_ Hl]]; [|by right].
  left. by split; [left|].
Qed.
Lemma by_hashes_complete txs m tx : NoDup (hash_bytes ∘ id <$> txs) → tx ∈ txs → by_hashes txs m !! hash_of_tx tx = Some tx.
Proof.
  revert m; induction txs as [|t txs IH]; intros m; [by intros _ ?%not_elem_of_nil|]. rewrite by_hashes_cons; cbn [fmap list_fmap].
  intros [Ht Hnd]%NoDup_cons [->|Hin]%elem_of_cons; [|by apply IH]. clear IH.
  assert (Hk : ∀ k m, (∀ x, x ∈ k → hash_of_tx x ≠ hash_of_tx t) → by_hashes k m !! hash_of_tx t = m !! hash_of_tx t).
  { induction k as [|x k IHk]; intros m' Hx; [done|]. rewrite by_hashes_cons, IHk by (intros; apply Hx; by right).
    apply lookup_insert_ne. apply Hx. left. }
  rewrite Hk; [apply lookup_insert_eq|]. intros x Hx E. apply Ht. change ((hash_bytes ∘ id) t ∈ hash_bytes ∘ id <$> txs). apply list_elem_of_fmap. by exists x.
Qed.

Lemma groups_filled (max : Z) (m : gmap key Transaction) (groups : list (list key)) sets :
  Forall (set_fits max) sets → weight_of (mjoin sets ++ omap (λ h, m !! h) (mjoin groups)) < 2 ^ 64 →
  let out := foldl (λ sets group, fill_sets max sets (omap (λ h, m !! h) group)) sets groups in
  mjoin out = mjoin sets ++ omap (λ h, m !! h) (mjoin groups) ∧ Forall (set_fits max) out.
Proof.
  revert sets; induction groups as [|g groups IH]; intros sets Hs Hlt; cbn [foldl mjoin list_join omap list_omap] in *.
  { by rewrite app_nil_r. }
  rewrite omap_app, app_assoc in Hlt |- *.
  destruct (fill_sets_ok max sets (omap (λ h, m !! h) g)) as [Hj Hf]; [done| |].
  { rewrite fmap_app, zsum_app in Hlt. eapply Z.le_lt_trans; [|exact Hlt].
    rewrite <- (Z.add_0_r (weight_of (mjoin sets ++ omap (λ h, m !! h) g))) at 1. apply Z.add_le_mono_l, weights_nonneg. }
  cbn zeta in IH. rewrite <- Hj in Hlt |- *. by apply IH.
Qed.

Lemma fmap_omap_lookup (m : gmap key Transaction) (k : list key) :
  (∀ h tx, m !! h = Some tx → hash_of_tx tx = h) →
  hash_bytes ∘ id <$> omap (λ h, m !! h) k = filter (λ h, is_Some (m !! h)) k.
Proof.
  intros Hm. induction k as [|h k IH]; [done|]. rewrite filter_cons. cbn [omap list_omap].
  destruct (m !! h) as [tx|] eqn:E; cbn [fmap list_fmap].
  - rewrite decide_True by done. f_equal; [by apply Hm|done].
  - rewrite decide_False by (by intros [??]). done.
Qed.

(** Given groups that list every transaction once, the parallel sets hold every
    transaction exactly once, and each set is within the weight limit or a single
    transaction. *)
Theorem parallel_sets_cover groups txs max
    (Hnd : NoDup (hash_bytes ∘ id <$> txs)) (Hg : NoDup (mjoin groups))
    (Hin : ∀ tx, tx ∈ txs → hash_bytes (id tx) ∈ mjoin groups) (Hlt : weight_of txs < 2 ^ 64) :
  ∃ sets, build_parallel_sets groups txs max = Ok sets ∧ mjoin sets ≡ₚ txs ∧ Forall (set_fits max) sets.
Proof.
  unfold build_parallel_sets. destruct (decide (txs = [])) as [->|Hne]; [rewrite bool_decide_eq_true_2 by done; by exists []|].
  rewrite bool_decide_eq_false_2 by done. destruct (decide (groups = [])) as [->|Hgn].
  { destruct txs as [|tx txs]; [done|]. by destruct (not_elem_of_nil _ (Hin tx ltac:(left))). }
  rewrite bool_decide_eq_false_2 by done. rewrite map_transactions_run. cbn. set (m := by_hashes txs ∅).
  assert (Hm : ∀ h tx, m !! h = Some tx ↔ tx ∈ txs ∧ hash_of_tx tx = h).
  { intros h tx. split; [intros [?|He]%by_hashes_sound; [done|by rewrite lookup_empty in He]|].
    intros [Ht <-]. by apply by_hashes_complete. }
  assert (Hp : omap (λ h, m !! h) (mjoin groups) ≡ₚ txs).
  { apply NoDup_Permutation.
    - apply (NoDup_fmap_1 (hash_bytes ∘ id)). rewrite fmap_omap_lookup by (intros; by apply Hm). by apply NoDup_filter.
    - by apply (NoDup_fmap_1 (hash_bytes ∘ id)).
    - intros tx. rewrite list_elem_of_omap. split; [intros (h & _ & Hh); by apply Hm in Hh as []|].
      intros Ht. exists (hash_of_tx tx). split; [by apply Hin|by apply Hm]. }
  destruct (groups_filled max m groups []) as [Hj Hf]; [done| |].
  { cbn [mjoin list_join app]. rewrite (zsum_perm _ (calculate_transaction_weight <$> txs)); [done|by rewrite Hp]. }
  eexists. split; [reflexivity|]. by rewrite Hj, Hp.
Qed.
End parallel.

(** ** The selection engine *)
Section selection_engine.
Context {D : Type} {C : Type → Type} `{RocksDbLaws D, LruLaws C, CodecLaws UtxoValue}.
Implicit Types (s : StorageCacheLayer D C).

Definition spent_point (i : TxInput) : key * Z := (as_bytes (prev_tx i), index i).
Definition cached_coin s (i : TxInput) : Prop :=
  is_Some (lru_peek (utxo_hot_cache s) (make_utxo_key (as_bytes (prev_tx i)) (index i))).

Lemma available_cached ins s :
  (∀ i, i ∈ ins → cached_coin s i) →
  ∃ s', check_utxo_availability ins s = (Ok true, s') ∧ ∀ i, cached_coin s i → cached_coin s' i.
Proof.
  revert s; induction ins as [|i ins IH]; intros s Hi; cbn [check_utxo_availability]; [by exists s|].
  destruct (Hi i ltac:(left)) as [u Hu].
  set (s1 := map_utxo_cache (λ _, (lru_get (make_utxo_key (as_bytes (prev_tx i)) (index i)) (utxo_hot_cache s)).2) s).
  assert (Hk : ∀ j, cached_coin s j → cached_coin s1 j) by (intros j; unfold cached_coin, s1; cbn; by rewrite lru_get_keeps).
  assert (E : rethrow (λ _ : StorageError, "Storage error: {}"%string) (utxo_exists (as_bytes (prev_tx i)) (index i)) s = (Ok true, s1)).
  { unfold rethrow, utxo_exists, mbind, method_bind. rewrite get_utxo_run, Hu. cbn. done. }
  rewrite (method_bind_run _ _ _ _ _ E). destruct (IH s1) as (s' & -> & Hk'); [intros j Hj; apply Hk, Hi; by right|].
  exists s'. split; [done|]. auto.
Qed.

Lemma size_nonneg tx : 0 ≤ estimate_serialized_size tx.
Proof. unfold estimate_serialized_size, wadd. apply Z.mod_pos_bound. lia. Qed.
Lemma sizes_nonneg l : 0 ≤ zsum (estimate_serialized_size <$> l).
Proof. apply zsum_nonneg, Forall_fmap, Forall_forall. intros x _. apply size_nonneg. Qed.

Lemma select_all max cands selected spent size s :
  (∀ a i, a ∈ cands → i ∈ inputs a → cached_coin s i ∧ spent_point i ∉ spent) →
  (∀ a b i, a ∈ cands → b ∈ cands → i ∈ inputs a → spent_point i ∉ outputs_of b) →
  0 ≤ size → size + zsum (estimate_serialized_size <$> cands) ≤ max → max < 2 ^ 64 →
  ∃ s', select_candidates max cands selected spent size s = (Ok (selected ++ cands), s').
Proof.
  revert selected spent size s; induction cands as [|a cands IH]; intros selected spent size s Hc Hfree H0' Hle Hmax; cbn [select_candidates].
  { exists s. by rewrite app_nil_r. }
  cbn [fmap list_fmap] in Hle. rewrite zsum_cons in Hle. pose proof (size_nonneg a). pose proof (sizes_nonneg cands).
  assert (Ef : is_conflict_free a spent = true).
  { unfold is_conflict_free. apply forallb_forall. intros i Hi%list_elem_of_In. rewrite bool_decide_eq_false_2; [done|].
    by apply (Hc a i); [left|]. }
  rewrite Ef. cbn [negb]. destruct (available_cached (inputs a) s) as (s1 & E & Hk); [intros i Hi; by apply (Hc a i); [left|]|].
  rewrite (method_bind_run _ _ _ _ _ E). cbn [negb].
  assert (Ew : wadd 64 size (estimate_serialized_size a) = size + estimate_serialized_size a).
  { unfold wadd. apply wrap_small. unfold fits. lia. }
  rewrite Ew. destruct (Z.ltb_spec max (size + estimate_serialized_size a)) as [|_]; [lia|].
  destruct (IH (selected ++ [a]) (outputs_of a ∪ spent) (size + estimate_serialized_size a) s1) as (s' & Es).
  - intros b i Hb Hi. destruct (Hc b i) as [Hcc Hs]; [by right|done|]. split; [by apply Hk|].
    apply not_elem_of_union. split; [|done]. apply (Hfree b a); [by right|left|done].
  - intros b c i Hb Hc' Hi. apply (Hfree b c); [by right|by right|done].
  - lia.
  - lia.
  - done.
  - exists s'. rewrite Es. by rewrite <- app_assoc.
Qed.

(** The engine never sees a double spend: when the coins of all inputs are cached, no
    candidate spends an output of a candidate and all fit, every transaction of the
    snapshot is selected, those that spend the same coin included. *)
Theorem selection_ignores_spends snapshot max s
    (Hcached : ∀ a i, a ∈ get_all_transactions snapshot → i ∈ inputs a → cached_coin s i)
    (Hfree : ∀ a b i, a ∈ get_all_transactions snapshot → b ∈ get_all_transactions snapshot → i ∈ inputs a →
       (as_bytes (prev_tx i), index i) ∉ outputs_of b)
    (Hfit : zsum (estimate_serialized_size <$> get_all_transactions snapshot) ≤ max) (Hmax : max < 2 ^ 64) :
  (select_transactions snapshot max s).1 = Ok (apply_canonical_sort (get_all_transactions snapshot)).
Proof.
  unfold select_transactions. set (l := get_all_transactions snapshot) in *.
  assert (Hin : ∀ a, a ∈ apply_canonical_sort l ↔ a ∈ l) by (intros; apply elem_of_sort_by).
  destruct (select_all max (apply_canonical_sort l) [] ∅ 0 s) as (s' & ->); [| | | | |done].
  - intros a i Ha Hi. rewrite Hin in Ha. split; [by eapply Hcached|apply not_elem_of_empty].
  - intros a b i Ha Hb Hi. rewrite Hin in Ha, Hb. by apply (Hfree a b i).
  - done.
  - cbn. rewrite (zsum_perm _ (estimate_serialized_size <$> l)); [done|]. unfold apply_canonical_sort. by rewrite sort_by_perm.
  - done.
Qed.
End selection_engine.

(** ** Witnesses *)
Definition entry_at (n now fee size : Z) : PoolEntry :=
  PoolEntry_new now
    {| id := hash_of n; inputs := [{| prev_tx := hash_of 5; index := 0; signature := []; pubkey := []; sighash_type := All |}];
       outputs := []; execution_payload := []; contract_address := None; gas_limit := 0; max_fee_per_gas := 0; chain_id := 1; locktime := 0 |}
    fee size.
Definition three_entries : list PoolEntry := [entry_at 1 100 400 200; entry_at 2 90 800 200; entry_at 3 110 400 200].

Lemma selection_deterministic_witness :
  select HighestFee three_entries (MaxCount 2) = select HighestFee (reverse three_entries) (MaxCount 2).
Proof.
  apply (selection_deterministic).
  - symmetry. exact (reverse_Permutation three_entries).
  - apply (bool_decide_unpack _). vm_compute. exact I.
Defined.
Lemma newer_selected_first_witness :
  heap_pops [entry_at 1 100 400 200; entry_at 3 110 400 200] = [entry_at 3 110 400 200; entry_at 1 100 400 200].
Proof.
  apply (newer_selected_first (entry_at 1 100 400 200) (entry_at 3 110 400 200)); [vm_compute; reflexivity|cbn; lia].
Defined.
Lemma select_spec_witness :
  ∃ taken rest, considered HighestFee three_entries = taken ++ rest ∧ zsum (pe_size_bytes <$> taken) ≤ 400.
Proof.
  destruct (select_spec HighestFee three_entries (MaxBytes 400)) as (taken & rest & E & _ & _ & Hb & _).
  - apply (bool_decide_unpack _). vm_compute. exact I.
  - vm_compute. reflexivity.
  - vm_compute. reflexivity.
  - exists taken, rest. split; [exact E|exact Hb].
Defined.
Lemma parallel_sets_cover_witness :
  let txs := pe_transaction <$> three_entries in
  ∃ sets, build_parallel_sets [[as_bytes (hash_of 1)]; [as_bytes (hash_of 2); as_bytes (hash_of 3)]] txs 200 = Ok sets
  ∧ mjoin sets ≡ₚ txs.
Proof.
  intros txs.
  destruct (parallel_sets_cover [[as_bytes (hash_of 1)]; [as_bytes (hash_of 2); as_bytes (hash_of 3)]] txs 200)
    as (sets & E & Hp & _).
  - apply (bool_decide_unpack _). vm_compute. exact I.
  - apply (bool_decide_unpack _). vm_compute. exact I.
  - intros tx Htx. assert (Hall : Forall (λ tx, hash_bytes (id tx) ∈ mjoin [[as_bytes (hash_of 1)]; [as_bytes (hash_of 2); as_bytes (hash_of 3)]]) txs)
      by (apply (bool_decide_unpack _); vm_compute; exact I).
    rewrite Forall_forall in Hall. exact (Hall tx Htx).
  - vm_compute. reflexivity.
  - exists sets. split; [exact E|exact Hp].
Defined.
(** Two spends of one coin, both selected. *)
Definition two_spends : MempoolSnapshot :=
  {| sn_block_height := 7; sn_transactions := (λ n, (as_bytes (hash_of n), pe_transaction (entry_at n 0 0 0))) <$> [1; 2] |}.
Definition coin_cached : MemLayer := (put_utxo (as_bytes (hash_of 5)) 0 {| uv_amount := 5; uv_pubkey_hash := []; uv_script := []; uv_block_height := 1 |} mem_layer).2.
Lemma selection_ignores_spends_witness :
  (id <$> get_all_transactions two_spends) = [hash_of 1; hash_of 2]
  ∧ (select_transactions two_spends 1000 coin_cached).1 = Ok (apply_canonical_sort (get_all_transactions two_spends)).
Proof.
  split; [vm_compute; reflexivity|]. apply (selection_ignores_spends two_spends 1000 coin_cached).
  - intros a i Ha Hi. apply (bool_decide_unpack _).
    assert (Hall : Forall (λ a, Forall (λ i, bool_decide (is_Some (lru_peek (utxo_hot_cache coin_cached) (make_utxo_key (as_bytes (prev_tx i)) (index i)))) = true) (inputs a)) (get_all_transactions two_spends))
      by (apply (bool_decide_unpack _); vm_compute; exact I).
    rewrite Forall_forall in Hall. specialize (Hall a Ha). rewrite Forall_forall in Hall. specialize (Hall i Hi).
    cbv beta in Hall. unfold cached_coin. rewrite Hall. exact I.
  - intros a b i Ha Hb Hi.
    assert (Hall : Forall (λ b, outputs_of b = ∅) (get_all_transactions two_spends)) by (apply (bool_decide_unpack _); vm_compute; exact I).
    rewrite Forall_forall in Hall. rewrite (Hall b Hb). apply not_elem_of_empty.
  - vm_compute. discriminate.
  - reflexivity.
Defined.
