(* ===== verification/Pool.v ===== *)
(** * The transaction pool of the node

    klomang-node, [mempool/pool.rs]: the pool over its managers.  A transaction is
    admitted, weighed, checked for conflicts and for its coins, and ends in the main
    pool, among the orphans, or refused.

    The pool and its tiers share one store; the model keeps it in the cold tier, and a
    pool without a store has one that only the tiers see.  A call takes place at one
    [Moment], which gives the clocks and the contents of [/proc].  Hash map iteration
    order, the encoded size of a transaction and the standard hasher are arguments.
    The dependency manager, which the pool only looks up, is left out with its look-ups;
    a print is no effect. *)

From Stdlib Require Import Init.Byte Floats.SpecFloat.
From stdpp Require Import gmap.
From S2P Require Import Prelude Crypto Transaction Pow NodePrelude Status UtxoTracker ConflictGraph GraphOrdering Storage PoolValidator F64 MemoryLimiter Orphans PriorityScheduler MultiIndex Tiers PriorityBuckets BlockTemplate Admission Selection.

Abbreviation key := (list byte).

(** ** Ordered maps, [IndexMap] *)
Section index_map.
Context {V : Type}.
Implicit Types l : list (key * V).
Fixpoint im_get (h : key) l : option V :=
  match l with
  | [] => None
  | (k, v) :: l => if bool_decide (k = h) then Some v else im_get h l
  end.
(** A new key goes to the end, a known one keeps its place. *)
Fixpoint im_insert (h : key) (v : V) l : list (key * V) :=
  match l with
  | [] => [(h, v)]
  | (k, w) :: l => if bool_decide (k = h) then (h, v) :: l else (k, w) :: im_insert h v l
  end.
Definition im_shift_remove (h : key) l : list (key * V) := filter (λ e, e.1 ≠ h) l.
(** The last entry takes the place of the removed one. *)
Definition im_swap_remove (h : key) l : list (key * V) :=
  match list_find (λ e, e.1 = h) l, last l with
  | Some (i, _), Some z => take (length l - 1) (<[i := z]> l)
  | _, _ => l
  end.
End index_map.

(** What a call finds of the world. *)
Record Moment := { secs : Z; millis : Z; nanos : Z; system : System }.

(** ** State *)
Section pool.
Context {D : Type} {C : Type → Type} `{RocksDb D, LruCache C}.
Context `{Codec TransactionValue, Codec UtxoValue, Bincode}.
Context (order : gset key → list key) (serialized_size : Transaction → option Z) (checksum : Transaction → Z).

Record Pool := {
  pool_by_hash : list (key * PoolEntry);
  pool_orphans : list key;
  pool_config : PoolConfig;
  priority_scheduler : PriorityScheduler;
  multi_dimensional_index : MultiIndex;
  deterministic_engine : DeterministicEngine;
  orphan_manager : OrphanManager;
  deferred_resolver : DeferredResolver;
  orphan_linker : Linker;
  memory_limiter : MempoolLimiter;
  resource_optimizer : ResourceOptimizer D C;
  pool_has_store : bool;
  source_rate_buckets : gmap key TokenBucket;
  pool_fee_filter : FeeFilter;
  admission_controller : AdmissionController;
  conflict_ordering : Integration;
  fee_balancer : option FeeBalancer
}.

(** One setter per field that changes. *)
Definition set_pool_by_hash (v : list (key * PoolEntry)) (p : Pool) : Pool :=
  {| pool_by_hash := v; pool_orphans := pool_orphans p; pool_config := pool_config p;
     priority_scheduler := priority_scheduler p; multi_dimensional_index := multi_dimensional_index p;
     deterministic_engine := deterministic_engine p; orphan_manager := orphan_manager p;
     deferred_resolver := deferred_resolver p; orphan_linker := orphan_linker p; memory_limiter := memory_limiter p;
     resource_optimizer := resource_optimizer p; pool_has_store := pool_has_store p;
     source_rate_buckets := source_rate_buckets p; pool_fee_filter := pool_fee_filter p;
     admission_controller := admission_controller p; conflict_ordering := conflict_ordering p;
     fee_balancer := fee_balancer p |}.
Definition set_pool_orphans (v : list key) (p : Pool) : Pool :=
  {| pool_by_hash := pool_by_hash p; pool_orphans := v; pool_config := pool_config p;
     priority_scheduler := priority_scheduler p; multi_dimensional_index := multi_dimensional_index p;
     deterministic_engine := deterministic_engine p; orphan_manager := orphan_manager p;
     deferred_resolver := deferred_resolver p; orphan_linker := orphan_linker p; memory_limiter := memory_limiter p;
     resource_optimizer := resource_optimizer p; pool_has_store := pool_has_store p;
     source_rate_buckets := source_rate_buckets p; pool_fee_filter := pool_fee_filter p;
     admission_controller := admission_controller p; conflict_ordering := conflict_ordering p;
     fee_balancer := fee_balancer p |}.
Definition set_pool_config (v : PoolConfig) (p : Pool) : Pool :=
  {| pool_by_hash := pool_by_hash p; pool_orphans := pool_orphans p; pool_config := v;
     priority_scheduler := priority_scheduler p; multi_dimensional_index := multi_dimensional_index p;
     deterministic_engine := deterministic_engine p; orphan_manager := orphan_manager p;
     deferred_resolver := deferred_resolver p; orphan_linker := orphan_linker p; memory_limiter := memory_limiter p;
     resource_optimizer := resource_optimizer p; pool_has_store := pool_has_store p;
     source_rate_buckets := source_rate_buckets p; pool_fee_filter := pool_fee_filter p;
     admission_controller := admission_controller p; conflict_ordering := conflict_ordering p;
     fee_balancer := fee_balancer p |}.
Definition set_priority_scheduler (v : PriorityScheduler) (p : Pool) : Pool :=
  {| pool_by_hash := pool_by_hash p; pool_orphans := pool_orphans p; pool_config := pool_config p;
     priority_scheduler := v; multi_dimensional_index := multi_dimensional_index p;
     deterministic_engine := deterministic_engine p; orphan_manager := orphan_manager p;
     deferred_resolver := deferred_resolver p; orphan_linker := orphan_linker p; memory_limiter := memory_limiter p;
     resource_optimizer := resource_optimizer p; pool_has_store := pool_has_store p;
     source_rate_buckets := source_rate_buckets p; pool_fee_filter := pool_fee_filter p;
     admission_controller := admission_controller p; conflict_ordering := conflict_ordering p;
     fee_balancer := fee_balancer p |}.
Definition set_multi_dimensional_index (v : MultiIndex) (p : Pool) : Pool :=
  {| pool_by_hash := pool_by_hash p; pool_orphans := pool_orphans p; pool_config := pool_config p;
     priority_scheduler := priority_scheduler p; multi_dimensional_index := v;
     deterministic_engine := deterministic_engine p; orphan_manager := orphan_manager p;
     deferred_resolver := deferred_resolver p; orphan_linker := orphan_linker p; memory_limiter := memory_limiter p;
     resource_optimizer := resource_optimizer p; pool_has_store := pool_has_store p;
     source_rate_buckets := source_rate_buckets p; pool_fee_filter := pool_fee_filter p;
     admission_controller := admission_controller p; conflict_ordering := conflict_ordering p;
     fee_balancer := fee_balancer p |}.
Definition set_deterministic_engine (v : DeterministicEngine) (p : Pool) : Pool :=
  {| pool_by_hash := pool_by_hash p; pool_orphans := pool_orphans p; pool_config := pool_config p;
     priority_scheduler := priority_scheduler p; multi_dimensional_index := multi_dimensional_index p;
     deterministic_engine := v; orphan_manager := orphan_manager p; deferred_resolver := deferred_resolver p;
     orphan_linker := orphan_linker p; memory_limiter := memory_limiter p;
     resource_optimizer := resource_optimizer p; pool_has_store := pool_has_store p;
     source_rate_buckets := source_rate_buckets p; pool_fee_filter := pool_fee_filter p;
     admission_controller := admission_controller p; conflict_ordering := conflict_ordering p;
     fee_balancer := fee_balancer p |}.
Definition set_orphan_manager (v : OrphanManager) (p : Pool) : Pool :=
  {| pool_by_hash := pool_by_hash p; pool_orphans := pool_orphans p; pool_config := pool_config p;
     priority_scheduler := priority_scheduler p; multi_dimensional_index := multi_dimensional_index p;
     deterministic_engine := deterministic_engine p; orphan_manager := v; deferred_resolver := deferred_resolver p;
     orphan_linker := orphan_linker p; memory_limiter := memory_limiter p;
     resource_optimizer := resource_optimizer p; pool_has_store := pool_has_store p;
     source_rate_buckets := source_rate_buckets p; pool_fee_filter := pool_fee_filter p;
     admission_controller := admission_controller p; conflict_ordering := conflict_ordering p;
     fee_balancer := fee_balancer p |}.
Definition set_deferred_resolver (v : DeferredResolver) (p : Pool) : Pool :=
  {| pool_by_hash := pool_by_hash p; pool_orphans := pool_orphans p; pool_config := pool_config p;
     priority_scheduler := priority_scheduler p; multi_dimensional_index := multi_dimensional_index p;
     deterministic_engine := deterministic_engine p; orphan_manager := orphan_manager p; deferred_resolver := v;
     orphan_linker := orphan_linker p; memory_limiter := memory_limiter p;
     resource_optimizer := resource_optimizer p; pool_has_store := pool_has_store p;
     source_rate_buckets := source_rate_buckets p; pool_fee_filter := pool_fee_filter p;
     admission_controller := admission_controller p; conflict_ordering := conflict_ordering p;
     fee_balancer := fee_balancer p |}.
Definition set_orphan_linker (v : Linker) (p : Pool) : Pool :=
  {| pool_by_hash := pool_by_hash p; pool_orphans := pool_orphans p; pool_config := pool_config p;
     priority_scheduler := priority_scheduler p; multi_dimensional_index := multi_dimensional_index p;
     deterministic_engine := deterministic_engine p; orphan_manager := orphan_manager p;
     deferred_resolver := deferred_resolver p; orphan_linker := v; memory_limiter := memory_limiter p;
     resource_optimizer := resource_optimizer p; pool_has_store := pool_has_store p;
     source_rate_buckets := source_rate_buckets p; pool_fee_filter := pool_fee_filter p;
     admission_controller := admission_controller p; conflict_ordering := conflict_ordering p;
     fee_balancer := fee_balancer p |}.
Definition set_memory_limiter (v : MempoolLimiter) (p : Pool) : Pool :=
  {| pool_by_hash := pool_by_hash p; pool_orphans := pool_orphans p; pool_config := pool_config p;
     priority_scheduler := priority_scheduler p; multi_dimensional_index := multi_dimensional_index p;
     deterministic_engine := deterministic_engine p; orphan_manager := orphan_manager p;
     deferred_resolver := deferred_resolver p; orphan_linker := orphan_linker p; memory_limiter := v;
     resource_optimizer := resource_optimizer p; pool_has_store := pool_has_store p;
     source_rate_buckets := source_rate_buckets p; pool_fee_filter := pool_fee_filter p;
     admission_controller := admission_controller p; conflict_ordering := conflict_ordering p;
     fee_balancer := fee_balancer p |}.
Definition set_resource_optimizer (v : ResourceOptimizer D C) (p : Pool) : Pool :=
  {| pool_by_hash := pool_by_hash p; pool_orphans := pool_orphans p; pool_config := pool_config p;
     priority_scheduler := priority_scheduler p; multi_dimensional_index := multi_dimensional_index p;
     deterministic_engine := deterministic_engine p; orphan_manager := orphan_manager p;
     deferred_resolver := deferred_resolver p; orphan_linker := orphan_linker p; memory_limiter := memory_limiter p;
     resource_optimizer := v; pool_has_store := pool_has_store p; source_rate_buckets := source_rate_buckets p;
     pool_fee_filter := pool_fee_filter p; admission_controller := admission_controller p;
     conflict_ordering := conflict_ordering p; fee_balancer := fee_balancer p |}.
Definition set_source_rate_buckets (v : gmap key TokenBucket) (p : Pool) : Pool :=
  {| pool_by_hash := pool_by_hash p; pool_orphans := pool_orphans p; pool_config := pool_config p;
     priority_scheduler := priority_scheduler p; multi_dimensional_index := multi_dimensional_index p;
     deterministic_engine := deterministic_engine p; orphan_manager := orphan_manager p;
     deferred_resolver := deferred_resolver p; orphan_linker := orphan_linker p; memory_limiter := memory_limiter p;
     resource_optimizer := resource_optimizer p; pool_has_store := pool_has_store p; source_rate_buckets := v;
     pool_fee_filter := pool_fee_filter p; admission_controller := admission_controller p;
     conflict_ordering := conflict_ordering p; fee_balancer := fee_balancer p |}.
Definition set_pool_fee_filter (v : FeeFilter) (p : Pool) : Pool :=
  {| pool_by_hash := pool_by_hash p; pool_orphans := pool_orphans p; pool_config := pool_config p;
     priority_scheduler := priority_scheduler p; multi_dimensional_index := multi_dimensional_index p;
     deterministic_engine := deterministic_engine p; orphan_manager := orphan_manager p;
     deferred_resolver := deferred_resolver p; orphan_linker := orphan_linker p; memory_limiter := memory_limiter p;
     resource_optimizer := resource_optimizer p; pool_has_store := pool_has_store p;
     source_rate_buckets := source_rate_buckets p; pool_fee_filter := v;
     admission_controller := admission_controller p; conflict_ordering := conflict_ordering p;
     fee_balancer := fee_balancer p |}.
Definition set_admission_controller (v : AdmissionController) (p : Pool) : Pool :=
  {| pool_by_hash := pool_by_hash p; pool_orphans := pool_orphans p; pool_config := pool_config p;
     priority_scheduler := priority_scheduler p; multi_dimensional_index := multi_dimensional_index p;
     deterministic_engine := deterministic_engine p; orphan_manager := orphan_manager p;
     deferred_resolver := deferred_resolver p; orphan_linker := orphan_linker p; memory_limiter := memory_limiter p;
     resource_optimizer := resource_optimizer p; pool_has_store := pool_has_store p;
     source_rate_buckets := source_rate_buckets p; pool_fee_filter := pool_fee_filter p; admission_controller := v;
     conflict_ordering := conflict_ordering p; fee_balancer := fee_balancer p |}.
Definition set_conflict_ordering (v : Integration) (p : Pool) : Pool :=
  {| pool_by_hash := pool_by_hash p; pool_orphans := pool_orphans p; pool_config := pool_config p;
     priority_scheduler := priority_scheduler p; multi_dimensional_index := multi_dimensional_index p;
     deterministic_engine := deterministic_engine p; orphan_manager := orphan_manager p;
     deferred_resolver := deferred_resolver p; orphan_linker := orphan_linker p; memory_limiter := memory_limiter p;
     resource_optimizer := resource_optimizer p; pool_has_store := pool_has_store p;
     source_rate_buckets := source_rate_buckets p; pool_fee_filter := pool_fee_filter p;
     admission_controller := admission_controller p; conflict_ordering := v; fee_balancer := fee_balancer p |}.
Definition set_fee_balancer (v : option FeeBalancer) (p : Pool) : Pool :=
  {| pool_by_hash := pool_by_hash p; pool_orphans := pool_orphans p; pool_config := pool_config p;
     priority_scheduler := priority_scheduler p; multi_dimensional_index := multi_dimensional_index p;
     deterministic_engine := deterministic_engine p; orphan_manager := orphan_manager p;
     deferred_resolver := deferred_resolver p; orphan_linker := orphan_linker p; memory_limiter := memory_limiter p;
     resource_optimizer := resource_optimizer p; pool_has_store := pool_has_store p;
     source_rate_buckets := source_rate_buckets p; pool_fee_filter := pool_fee_filter p;
     admission_controller := admission_controller p; conflict_ordering := conflict_ordering p; fee_balancer := v |}.

Abbreviation pooling := (method Pool string).

(** The store that the pool and its validator see. *)
Definition pool_store (p : Pool) : option (StorageCacheLayer D C) :=
  if pool_has_store p then Some (cold_tier (resource_optimizer p)) else None.
Definition set_pool_store (o : option (StorageCacheLayer D C)) (p : Pool) : Pool :=
  match o with
  | Some s => set_resource_optimizer (set_cold s (resource_optimizer p)) p
  | None => p
  end.
(** [if let Some(kv_store)] *)
Definition on_store (m : method (StorageCacheLayer D C) StorageError unit) : pooling unit :=
  rethrow (λ _, "Storage error: {}"%string) (zoom pool_store set_pool_store (with_store tt m)).

(** 0.8 *)
Definition four_fifths : f64 := S754_finite false 7205759403792794 (-53).
Definition orphan_config_of (config : PoolConfig) : OrphanPoolConfig :=
  {| max_orphans := f64_trunc_u64 (f64_mul (f64_of_Z (max_orphan_size config)) four_fifths); max_adoption_batch := 1000;
     orphan_ttl_ns := wmul 64 (orphan_ttl_secs config) 1000000000; eviction_policy := eviction_policy default_orphan_config |}.
Definition set_config_min_fee (rate : Z) (c : PoolConfig) : PoolConfig :=
  {| max_pool_size := max_pool_size c; max_orphan_size := max_orphan_size c; min_fee_rate := rate;
     dynamic_fee_bump_percent := dynamic_fee_bump_percent c; max_transactions_per_source := max_transactions_per_source c;
     rate_limit_window_secs := rate_limit_window_secs c; orphan_ttl_secs := orphan_ttl_secs c; rejected_ttl_secs := rejected_ttl_secs c |}.
Definition load_persistent_min_fee_rate : pooling unit :=
  rate ← rethrow (λ _, "Failed to load persisted min fee rate: {}"%string)
           (zoom pool_store set_pool_store (with_store None get_mempool_min_fee_rate));
  match rate with
  | Some rate => modify (λ p, set_pool_config (set_config_min_fee rate (pool_config p)) p)
  | None => mret tt
  end.
Definition persist_min_fee_rate (rate : Z) : pooling unit := on_store (put_mempool_min_fee_rate rate).

(** [store] is the store given to the pool, or, when [has_store] is false, the one
    its tiers make for themselves. *)
Definition pool_fields (now : Moment) (config : PoolConfig) (store : StorageCacheLayer D C) (has_store : bool) : Pool :=
  {| pool_by_hash := []; pool_orphans := []; pool_config := config;
     priority_scheduler := PriorityScheduler_new (secs now) default_scheduler_config; multi_dimensional_index := MultiIndex_new;
     deterministic_engine := DeterministicEngine_new true; orphan_manager := OrphanManager_new (orphan_config_of config);
     deferred_resolver := DeferredResolver_new (nanos now) 50 10000; orphan_linker := Linker_new 10;
     memory_limiter := MempoolLimiter_new default_limiter_config;
     resource_optimizer := ResourceOptimizer_new store default_optimizer_config; pool_has_store := has_store;
     source_rate_buckets := ∅; pool_fee_filter := FeeFilter_new (secs now) (min_fee_rate config) (dynamic_fee_bump_percent config);
     admission_controller := AdmissionController_new (secs now);
     conflict_ordering := Integration_new default_integration_config has_store;
     fee_balancer := if has_store then Some FeeBalancer_new else None |}.
(** [pool.load_persistent_min_fee_rate().ok()] *)
Definition new_with_kv_store (now : Moment) (config : PoolConfig) (store : StorageCacheLayer D C) (has_store : bool) : Pool :=
  (load_persistent_min_fee_rate (pool_fields now config store has_store)).2.

(** ** Queries *)
Definition pool_get (h : key) (p : Pool) : option PoolEntry := im_get h (pool_by_hash p).
Definition pool_contains (h : key) (p : Pool) : bool := bool_decide (is_Some (pool_get h p)).
Definition pool_size (p : Pool) : Z := Z.of_nat (length (pool_by_hash p)).
Definition orphan_size (p : Pool) : Z := Z.of_nat (length (pool_orphans p)).
Definition get_all (p : Pool) : list PoolEntry := (pool_by_hash p).*2.
Definition get_by_status (s : TransactionStatus) (p : Pool) : list PoolEntry := filter (λ e, pe_status e = s) (get_all p).
Definition get_orphans (p : Pool) : list PoolEntry := get_by_status InOrphanPool p.
Definition get_validated (p : Pool) : list PoolEntry := get_by_status Validated p.
Definition calculate_average_transaction_age (now : Z) (p : Pool) : Z :=
  if bool_decide (pool_by_hash p = []) then 0
  else wrap 64 (zsum ((λ e, sat_sub now (pe_arrival_time e)) <$> get_all p)) / pool_size p.
Definition get_effective_fee_rate (now : Z) (h : key) (p : Pool) : Z :=
  match pool_get h p with
  | Some e => calculate_starvation_boost now (pe_arrival_time e) (entry_fee_rate e)
  | None => 0
  end.
Record PoolStats := {
  ps_total_count : Z;
  pending_count : Z;
  validated_count : Z;
  orphan_count : Z;
  rejected_count : Z;
  ps_total_fees : Z;
  total_size_bytes : Z
}.
Definition pool_stats (p : Pool) : PoolStats :=
  let count s := Z.of_nat (length (get_by_status s p)) in
  {| ps_total_count := pool_size p; pending_count := count Pending; validated_count := count Validated;
     orphan_count := count InOrphanPool; rejected_count := count Rejected;
     ps_total_fees := wrap 64 (zsum (pe_total_fee <$> get_all p)); total_size_bytes := wrap 64 (zsum (pe_size_bytes <$> get_all p)) |}.
Definition create_snapshot (block_height : Z) (p : Pool) : MempoolSnapshot :=
  {| sn_block_height := block_height; sn_transactions := (λ e, (e.1, pe_transaction e.2)) <$> pool_by_hash p |}.
Definition select_with_selector (strategy : SelectionStrategy) (max_count : Z) (p : Pool) : list SelectedTransaction :=
  select strategy (get_all p) (MaxCount max_count).

(** ** The disk *)
(** The fee, shifted out of its 64 bits, and the checksum. *)
Definition saved_fee (fee check : Z) : Z := Z.lor (wrap 64 (wrap 128 (Z.shiftl fee 64))) check.
Definition save_to_disk (tx : Transaction) : pooling unit :=
  let v := transaction_value_of tx in
  on_store (insert_mempool_transaction (as_bytes (id tx))
    {| tv_tx_hash := tv_tx_hash v; tv_inputs := tv_inputs v; tv_outputs := tv_outputs v; tv_fee := saved_fee (tv_fee v) (checksum tx) |}).
Definition remove_from_disk (h : key) : pooling unit := on_store (remove_mempool_transaction h).
(** [if let Err(e) = ... { eprintln!(..) }] *)
Definition warn (m : pooling unit) : pooling unit := catch m (λ _, mret tt) (λ _, mret tt).

(** ** Removal and status *)
Definition pool_remove (h : key) : pooling (option PoolEntry) :=
  p ← get;
  match pool_get h p with
  | Some entry =>
      _ ← modify (set_pool_by_hash (im_shift_remove h (pool_by_hash p)));
      _ ← modify (λ p, set_pool_orphans (filter (λ k, k ≠ h) (pool_orphans p)) p);
      _ ← modify (λ p, set_priority_scheduler (unregister_transaction h (priority_scheduler p)) p);
      _ ← modify (λ p, set_multi_dimensional_index (MultiIndex.remove h (multi_dimensional_index p)).2 p);
      _ ← modify (λ p, set_deterministic_engine (engine_remove h (deterministic_engine p)).2 p);
      _ ← modify (λ p, set_memory_limiter (remove_tx_weight h (memory_limiter p)).2 p);
      _ ← warn (remove_from_disk h);
      mret (Some entry)
  | None => mret None
  end.
Definition set_status (h : key) (status : TransactionStatus) : pooling unit :=
  p ← get;
  entry ← lift (ok_or (pool_get h p) "Transaction not found");
  match transition_to status (pe_status entry) with
  | (Ok _, status') =>
      let entry := {| pe_transaction := pe_transaction entry; pe_status := status'; pe_arrival_time := pe_arrival_time entry;
                      pe_size_bytes := pe_size_bytes entry; pe_total_fee := pe_total_fee entry |} in
      _ ← modify (set_pool_by_hash (im_insert h entry (pool_by_hash p)));
      modify (λ p, if bool_decide (status = InOrphanPool) && negb (bool_decide (h ∈ pool_orphans p))
                   then set_pool_orphans (pool_orphans p ++ [h]) p else p)
  | _ => throw "Status transition error: {:?}"
  end.
Definition pool_cleanup_expired (now : Z) : pooling Z :=
  p ← get;
  let kept := filter (λ e, entry_is_expired now (pool_config p) e.2 = false) (pool_by_hash p) in
  _ ← modify (set_pool_by_hash kept);
  mret (pool_size p - Z.of_nat (length kept)).
Definition pool_clear (now : Z) : pooling unit :=
  modify (λ p, set_pool_by_hash [] (set_pool_orphans [] (set_source_rate_buckets ∅
    (set_priority_scheduler (reset_scheduler now (priority_scheduler p))
      (set_multi_dimensional_index (reset_index (multi_dimensional_index p))
        (set_deterministic_engine (engine_reset (deterministic_engine p)) p)))))).
Definition set_min_fee_rate (rate : Z) : pooling unit :=
  _ ← modify (λ p, set_pool_config (set_config_min_fee rate (pool_config p)) p);
  _ ← modify (λ p, set_pool_fee_filter (set_base_fee rate (pool_fee_filter p)) p);
  persist_min_fee_rate rate.

(** ** Adding a transaction *)
Definition anonymous_source : key := String.list_byte_of_string "anonymous_source".
Definition derive_source_key (tx : Transaction) : key :=
  match inputs tx with
  | i :: _ => if bool_decide (pubkey i ≠ []) then pubkey i else anonymous_source
  | [] => anonymous_source
  end.

(** Whether the new transaction beats the strongest of those it conflicts with. *)
Definition stronger (now : Z) (p : Pool) (best : key * Z) (h : key) : key * Z :=
  let rate := get_effective_fee_rate now h p in
  if (best.2 <? rate) || ((rate =? best.2) && bool_decide (bytes_compare h best.1 = Lt)) then (h, rate) else best.
Definition _apply_deterministic_supremacy (now : Z) (new_tx_hash : key) (new_fee_rate : Z) (conflicting : list key) (p : Pool) : bool :=
  match conflicting with
  | [] => true
  | h :: hs =>
      let best := foldl (stronger now p) (h, get_effective_fee_rate now h p) hs in
      if best.2 <? new_fee_rate then true
      else if new_fee_rate =? best.2 then bool_decide (bytes_compare new_tx_hash best.1 = Lt)
      else false
  end.

(** What the pool asks of a transaction before any expensive work. *)
Definition update_fee_filter (now : Moment) : pooling unit :=
  modify (λ p, set_pool_fee_filter (update_threshold (secs now) (pool_size p) (max_pool_size (pool_config p)) (pool_fee_filter p)) p).
Definition update_balancer (now : Moment) : pooling unit :=
  modify (λ p, match fee_balancer p with
    | Some b => set_fee_balancer (Some (update_congestion (pool_size p) (max_pool_size (pool_config p))
                  (calculate_average_transaction_age (secs now) p) b)) p
    | None => p
    end).
Definition enforce_rate_limit (now : Moment) (source_key : key) : pooling unit :=
  p ← get;
  zoom source_rate_buckets set_source_rate_buckets
    (enforce_source_rate_limit (secs now) (max_transactions_per_source (pool_config p)) (rate_limit_window_secs (pool_config p)) source_key).
Definition admission_checks (now : Moment) (tx : Transaction) (fee_rate size_bytes : Z) : pooling unit :=
  effective ← zoom admission_controller set_admission_controller (enforce_advanced_admission (secs now) (system now) fee_rate);
  _ ← lift (check_fee_density effective size_bytes);
  _ ← update_fee_filter now;
  _ ← update_balancer now;
  p ← get;
  _ ← lift (Admission.enforce_minimum_fee_rate fee_rate (pool_fee_filter p));
  enforce_rate_limit now (derive_source_key tx).

(** Room in the memory limit. *)
Definition forget_evicted (h : key) : pooling unit :=
  _ ← modify (λ p, set_pool_by_hash (im_swap_remove h (pool_by_hash p)) p);
  _ ← modify (λ p, set_priority_scheduler (unregister_transaction h (priority_scheduler p)) p);
  warn (remove_from_disk h).
Definition make_room (weight : Z) : pooling unit :=
  p ← get;
  if would_exceed_limit weight (memory_limiter p) then
    let '(eviction, limiter) := make_space_for order weight (score <$> priorities (priority_scheduler p)) (memory_limiter p) in
    _ ← modify (set_memory_limiter limiter);
    if freed_weight eviction <? weight then throw "Cannot fit transaction (need {} bytes, freed only {} bytes)"
    else for_each forget_evicted (evicted_hashes eviction)
  else mret tt.

(** The conflicts, found and removed before the inputs are looked at. *)
Definition remove_conflicting (h : key) : pooling unit :=
  removed ← pool_remove h;
  match removed with
  | Some _ => modify (λ p, set_conflict_ordering (integration_remove_cascade order h (conflict_ordering p)).2 p)
  | None => mret tt
  end.
Definition resolve_conflicts (now : Moment) (tx : Transaction) (tx_hash : key) (total_fee fee_rate : Z) : pooling unit :=
  conflicts ← rethrow (λ _ : string, "Conflict detection error: {}"%string)
                (zoom conflict_ordering set_conflict_ordering (integration_register serialized_size tx tx_hash total_fee (millis now)));
  if has_double_spend conflicts then
    p ← get;
    if _apply_deterministic_supremacy (secs now) tx_hash fee_rate (detected_conflicts conflicts) p
    then for_each remove_conflicting (detected_conflicts conflicts)
    else throw "Transaction rejected due to conflict with higher-priority transaction"
  else mret tt.

Definition missing_outpoint (tx : Transaction) (idx : Z) : option ClaimPoint :=
  input ← inputs tx !! Z.to_nat idx;
  tx_hash ← bincode_hash (prev_tx input);
  Some {| tx_hash := tx_hash; point_index := index input |}.
Definition _handle_orphan_transaction (now : Moment) (tx : Transaction) (missing : list Z) (total_fee size_bytes : Z) : pooling unit :=
  tx_hash ← lift (serialized (id tx));
  zoom orphan_manager set_orphan_manager
    (add_orphan order (nanos now) (nanos now) tx_hash tx (omap (missing_outpoint tx) missing) size_bytes total_fee).

(** [readd] is the call of [add_transaction] on an adopted orphan. *)
Section adoption.
Context (readd : Transaction → Z → Z → pooling unit).

Definition MAX_ADOPTION_DEPTH : nat := 10.
Definition readopt (adopted : Transaction) : pooling unit :=
  catch (readd adopted 1000 (wmul 64 (Z.of_nat (length (inputs adopted))) 32)) (λ _, mret tt) (λ _, mret tt).
Definition adopt_output (tx : Transaction) (output : nat * TxOutput) : pooling unit :=
  tx_hash ← lift (serialized (id tx));
  catch (zoom orphan_manager set_orphan_manager
           (process_orphans_for_parent {| tx_hash := tx_hash; point_index := wrap 32 (Z.of_nat output.1) |}))
    (λ adoption, for_each readopt (adopted_txs adoption)) (λ _, mret tt).
Definition _adopt_waiting_orphans_recursive (tx : Transaction) (depth : nat) : pooling unit :=
  if (MAX_ADOPTION_DEPTH <? depth)%nat then mret tt else for_each (adopt_output tx) (enumerate (outputs tx)).

Definition chain_of (p : Pool) : OrphanManager * Linker := (orphan_manager p, orphan_linker p).
Definition set_chain (c : OrphanManager * Linker) (p : Pool) : Pool := set_orphan_manager c.1 (set_orphan_linker c.2 p).
Definition schedule_adopted (now : Moment) (tx : Transaction) (chain : ChainResolutionResult) : pooling unit :=
  for_each (λ _ : nat,
      tx_hash ← lift (serialized (id tx));
      modify (λ p, set_deferred_resolver (schedule_resolution (nanos now) tx_hash (maximum_depth chain) (deferred_resolver p)) p))
    (seq 0 (Z.to_nat (total_adopted chain))).
Definition _adopt_waiting_orphans (now : Moment) (tx : Transaction) : pooling unit :=
  _ ← catch (zoom chain_of set_chain (link_orphan_chain tx)) (schedule_adopted now tx) (λ _, mret tt);
  _adopt_waiting_orphans_recursive tx 0.

Definition _add_to_main_pool (now : Moment) (tx_hash : key) (tx : Transaction) (total_fee size_bytes fee_rate : Z) : pooling unit :=
  p ← get;
  let weight := calculate_tx_weight (memory_limiter p) tx in
  _ ← lift (ensure (negb (would_exceed_limit (total_weight weight) (memory_limiter p))) "Transaction would exceed memory limit");
  _ ← zoom resource_optimizer set_resource_optimizer (Tiers.add_transaction (secs now) tx_hash tx fee_rate);
  _ ← rethrow (λ _ : string, "Priority scheduler error: {}"%string)
        (zoom priority_scheduler set_priority_scheduler (PriorityScheduler.register_transaction (secs now) tx_hash fee_rate (secs now)));
  _ ← modify (λ p, set_multi_dimensional_index (MultiIndex.insert
        {| it_hash := tx_hash; it_fee_rate := fee_rate; it_arrival_time := secs now; it_dependency_count := 0;
           it_size_bytes := size_bytes; it_total_fee := total_fee |} (multi_dimensional_index p)) p);
  _ ← rethrow (λ _ : string, "Deterministic ordering error: {}"%string)
        (zoom deterministic_engine set_deterministic_engine (engine_add tx_hash fee_rate (secs now) size_bytes total_fee));
  _ ← modify (λ p, set_memory_limiter (add_tx_weight tx_hash (calculate_tx_weight (memory_limiter p) tx) (memory_limiter p)) p);
  _ ← _adopt_waiting_orphans now tx;
  _ ← warn (save_to_disk tx);
  modify (λ p, set_pool_by_hash (im_insert tx_hash (PoolEntry_new (secs now) tx total_fee size_bytes) (pool_by_hash p)) p).

Definition add_validated (now : Moment) (tx_hash : key) (tx : Transaction) (total_fee size_bytes fee_rate : Z) : pooling unit :=
  result ← rethrow (λ _ : StorageError, "Validation error: {:?}"%string)
             (zoom pool_store set_pool_store (PoolValidator.validate_transaction tx));
  match result with
  | VR_Valid => _add_to_main_pool now tx_hash tx total_fee size_bytes fee_rate
  | VR_MissingInputs missing => _handle_orphan_transaction now tx missing total_fee size_bytes
  | VR_DoubleSpent => throw "Transaction is double-spending"
  | VR_InputNotFound _ => throw "Input {} not found in UTXO set"
  end.

Definition add_body (now : Moment) (tx : Transaction) (total_fee size_bytes : Z) : pooling unit :=
  tx_hash ← lift (serialized (id tx));
  let fee_rate := rate_of total_fee size_bytes in
  _ ← admission_checks now tx fee_rate size_bytes;
  p ← get;
  let weight := total_weight (calculate_tx_weight (memory_limiter p) tx) in
  _ ← lift (ensure (pool_size p <? max_pool_size (pool_config p)) "Pool size limit reached (max {})");
  _ ← make_room weight;
  _ ← resolve_conflicts now tx tx_hash total_fee fee_rate;
  add_validated now tx_hash tx total_fee size_bytes fee_rate.
End adoption.

(** The calls for adopted orphans nest; [fuel] bounds the stack. *)
Fixpoint pool_add_transaction (fuel : nat) (now : Moment) (tx : Transaction) (total_fee size_bytes : Z) : pooling unit :=
  match fuel with
  | O => panic "stack overflow"
  | S fuel => add_body (pool_add_transaction fuel now) now tx total_fee size_bytes
  end.

(** ** What the pool hands on to its managers *)
Definition new_with_dependency_manager (now : Moment) (config : PoolConfig) (store : StorageCacheLayer D C) : Pool :=
  new_with_kv_store now config store true.
Definition get_current_min_fee_rate (p : Pool) : Z := current_min_fee (pool_fee_filter p).
Definition pool_dynamic_priority (now : Moment) (h : key) : pooling (option f64) :=
  rethrow (λ _ : string, "Priority calculation error: {}"%string)
    (priority ← zoom priority_scheduler set_priority_scheduler (calculate_dynamic_priority (secs now) h);
     mret (score <$> (priority : option DynamicPriority))).
(** [None] where the scheduler does not return. *)
Definition update_priority_scheduler (now : Moment) (p : Pool) : option (outcome string Z * Pool) :=
  match perform_scheduled_update order (secs now) (priority_scheduler p) with
  | Some (r, s) => Some (map_err (λ _, "Scheduler update error: {}"%string) r, set_priority_scheduler s p)
  | None => None
  end.
Definition query_by_fee_range (min_fee max_fee : Z) (p : Pool) := query_economic_range min_fee max_fee (multi_dimensional_index p).
Definition query_by_time_range (start_time end_time : Z) (p : Pool) := query_temporal_range start_time end_time (multi_dimensional_index p).
Definition query_by_min_dependents (min_deps : Z) (p : Pool) := query_structural_min_dependents min_deps (multi_dimensional_index p).
Definition pool_query_combined (min_fee max_fee start_time end_time min_dependencies : Z) (p : Pool) :=
  query_combined order min_fee max_fee start_time end_time min_dependencies (multi_dimensional_index p).
Definition get_top_n_by_fee (limit : nat) (p : Pool) := query_economic_top_n limit (multi_dimensional_index p).
Definition get_transactions_before_time (timestamp : Z) (p : Pool) := query_temporal_before timestamp (multi_dimensional_index p).
Definition get_dependency_hubs (limit : nat) (p : Pool) := query_structural_top_hubs limit (multi_dimensional_index p).
Definition get_ordered_transactions_deterministic (limit : nat) (p : Pool) : list (key * Z) :=
  (λ t, (pt_hash t, pt_fee_rate t)) <$> engine_ordered limit (deterministic_engine p).
Definition pool_orphan_stats (p : Pool) : OrphanStats := get_orphan_stats (orphan_manager p).
Definition cleanup_expired_orphans (now : Moment) : pooling Z :=
  zoom orphan_manager set_orphan_manager (Orphans.cleanup_expired order (nanos now)).
Definition process_deferred_resolutions (now : Moment) : pooling (list ResolutionTask) := λ p,
  let '(tasks, r) := process_batch (nanos now) (nanos now) (deferred_resolver p) in (Ok tasks, set_deferred_resolver r p).
Definition pool_memory_stats (p : Pool) : MemoryStats := get_memory_stats (memory_limiter p).
Definition verify_orphan_consistency (p : Pool) : outcome string unit := verify_consistency (orphan_manager p).
Definition load_mempool_on_startup : outcome string unit := Ok tt.

(** ** The chain and the disk *)
Definition reconcile_one (h : key) : pooling unit :=
  catch (rethrow (λ _ : StorageError, "Err"%string) (zoom pool_store set_pool_store (with_store None (get_transaction h))))
    (λ found, match found with Some _ => _ ← pool_remove h; mret tt | None => mret tt end) (λ _, mret tt).
Definition reconcile_with_blockchain : pooling unit :=
  p ← get; if negb (pool_has_store p) then mret tt else for_each reconcile_one (pool_by_hash p).*1.

(** ** Block candidates *)
Definition candidate_transactions (p : Pool) (hashes : list key) : list Transaction :=
  omap (λ h, pe_transaction <$> pool_get h p) hashes.
Definition get_parallel_batches (p : Pool) : option (list (list Transaction)) :=
  match get_parallel_validation_groups order (conflict_ordering p) with
  | Some groups => Some (filter (λ l : list Transaction, l ≠ []) ((λ g : list key, candidate_transactions p g) <$> groups))
  | None => None
  end.

Definition outpoint_key (i : TxInput) : Hash * Z := (prev_tx i, index i).
Definition claim_output (spent : gset (Hash * Z)) (i : TxInput) : outcome string (gset (Hash * Z)) :=
  if bool_decide (outpoint_key i ∈ spent) then Err "Conflict detected in canonical ordering: UTXO {} already spent"
  else Ok ({[ outpoint_key i ]} ∪ spent).
Definition verify_one (seen : gset key * gset (Hash * Z)) (tx : Transaction) : outcome string (gset key * gset (Hash * Z)) :=
  h ← serialized (id tx);
  if bool_decide (h ∈ seen.1) then Err "Duplicate transaction in canonical block candidate"
  else spent ← fold_outcome claim_output seen.2 (inputs tx); Ok ({[ h ]} ∪ seen.1, spent).
Definition _verify_canonical_order (txs : list Transaction) : outcome string unit :=
  _ ← fold_outcome verify_one (∅, ∅) txs; Ok tt.

Definition prepare_block_candidate (now : Moment) (max_weight : Z) : pooling (list Transaction) :=
  block ← rethrow (λ _ : string, "Failed to build canonical block: {}"%string)
            (zoom conflict_ordering set_conflict_ordering (build_block_canonical order (millis now) max_weight));
  p ← get;
  let txs := candidate_transactions p (bb_transactions block) in
  _ ← lift (_verify_canonical_order txs);
  mret txs.
(** A [find] that does not return is a call that does not. *)
Definition prepare_parallel_block_candidates (now : Moment) (max_weight : Z) : pooling (option (list (list Transaction))) :=
  txs ← prepare_block_candidate now max_weight;
  p ← get;
  match get_parallel_validation_groups order (conflict_ordering p) with
  | Some groups => sets ← lift (build_parallel_sets groups txs max_weight); mret (Some sets)
  | None => mret None
  end.
End pool.
Arguments Pool : clear implicits.
