(* ===== verification/PoolProofs.v ===== *)
(** * Properties of the transaction pool

    What every reachable pool keeps: its bound, its link to the conflict engine and to
    the orphan manager.  From it, that adopting orphans never nests, that a block
    candidate fails only over an input named twice in one transaction, and what
    becomes of orphans. *)

From Stdlib Require Import Init.Byte Floats.SpecFloat.
From stdpp Require Import gmap.
From S2P Require Import Prelude Crypto Transaction NodePrelude Status UtxoTracker GraphOrdering Storage PoolValidator F64 MemoryLimiter Orphans PriorityScheduler MultiIndex Tiers PriorityBuckets BlockTemplate Admission Selection Pool MemoryStore.

(** ** Ordered maps *)
Section index_map.
Context {V : Type}.
Implicit Types (l : list (key * V)) (h : key) (v : V).

Lemma im_get_elem h v l : im_get h l = Some v → (h, v) ∈ l.
Proof.
  induction l as [|[k w] l IH]; cbn; [done|]. case_bool_decide as E; [intros [= ->]; subst; left|].
  intros Hl. right. by apply IH.
Qed.
Lemma im_get_keys h v l : NoDup l.*1 → (h, v) ∈ l → im_get h l = Some v.
Proof.
  induction l as [|[k w] l IH]; cbn; [by intros _ ?%not_elem_of_nil|]. intros [Hk Hl]%NoDup_cons Hin.
  apply elem_of_cons in Hin as [[= -> ->]|Hin]; [by rewrite bool_decide_eq_true_2|].
  rewrite bool_decide_eq_false_2; [by apply IH|]. intros ->. apply Hk. apply list_elem_of_fmap. by exists (h, v).
Qed.
Lemma elem_of_im_insert h v l k w : (k, w) ∈ im_insert h v l → (k = h ∧ w = v) ∨ (k, w) ∈ l.
Proof.
  induction l as [|[k' w'] l IH]; cbn; [intros E%list_elem_of_singleton; left; by injection E|].
  case_bool_decide; rewrite !elem_of_cons; intros [E|Hin]; [left; by injection E|auto|auto|].
  destruct (IH Hin); auto.
Qed.
Lemma im_insert_keys h v l :
  (im_insert h v l).*1 = if bool_decide (h ∈ l.*1) then l.*1 else l.*1 ++ [h].
Proof.
  induction l as [|[k w] l IH]; cbn; [by rewrite bool_decide_eq_false_2 by apply not_elem_of_nil|].
  destruct (decide (k = h)) as [->|Hne].
  - rewrite !bool_decide_eq_true_2 by set_solver. done.
  - rewrite (bool_decide_eq_false_2 (k = h)) by done. cbn. rewrite IH.
    assert (E : bool_decide (h ∈ k :: l.*1) = bool_decide (h ∈ l.*1)).
    { apply bool_decide_ext. rewrite elem_of_cons. naive_solver. }
    rewrite E. by destruct (bool_decide _).
Qed.
Lemma im_insert_NoDup h v l : NoDup l.*1 → NoDup (im_insert h v l).*1.
Proof.
  intros Hl. rewrite im_insert_keys. case_bool_decide; [done|]. apply NoDup_app. split_and!; [done| |apply NoDup_singleton].
  by intros x Hx ->%list_elem_of_singleton.
Qed.
Lemma im_insert_length h v l : (length (im_insert h v l) ≤ S (length l))%nat.
Proof.
  rewrite <- (length_fmap fst), im_insert_keys. case_bool_decide; rewrite ?length_app, ?length_fmap; cbn; lia.
Qed.
Lemma im_insert_known h v w l : im_get h l = Some w → (im_insert h v l).*1 = l.*1.
Proof.
  intros Hl%im_get_elem. rewrite im_insert_keys, bool_decide_eq_true_2; [done|]. apply list_elem_of_fmap. by exists (h, w).
Qed.
Lemma im_get_insert h v l : im_get h (im_insert h v l) = Some v.
Proof.
  induction l as [|[k w] l IH]; cbn; [by rewrite bool_decide_eq_true_2|].
  destruct (decide (k = h)) as [->|Hne]; [rewrite bool_decide_eq_true_2 by done; cbn; by rewrite bool_decide_eq_true_2|].
  rewrite bool_decide_eq_false_2 by done. cbn. by rewrite bool_decide_eq_false_2.
Qed.
Lemma im_shift_remove_absent h l : im_get h l = None → im_shift_remove h l = l.
Proof.
  unfold im_shift_remove. induction l as [|[k w] l IH]; cbn [im_get]; [done|]. case_bool_decide as E; [done|]. intros Hl.
  rewrite filter_cons_True by done. by rewrite IH.
Qed.

(** The entry that is removed, and the others in some order. *)
Lemma im_swap_remove_perm h l :
  im_swap_remove h l = l ∨ ∃ x, x.1 = h ∧ x :: im_swap_remove h l ≡ₚ l.
Proof.
  unfold im_swap_remove. destruct (list_find _ l) as [[i x]|] eqn:Ef; [|auto].
  apply list_find_Some in Ef as (Hi & Hx & _). destruct (last l) as [z|] eqn:Ez; [|auto]. right. exists x. split; [done|].
  apply last_Some in Ez as [l' ->]. rewrite length_app. cbn. replace (length l' + 1 - 1)%nat with (length l') by lia.
  destruct (decide (i = length l')) as [->|Hne].
  - rewrite lookup_app_r, Nat.sub_diag in Hi by done. injection Hi as ->.
    rewrite insert_app_r_alt, Nat.sub_diag by done. cbn. rewrite take_app_length. by rewrite Permutation_app_comm.
  - pose proof (lookup_lt_Some _ _ _ Hi) as Hlt. rewrite length_app in Hlt. cbn in Hlt.
    rewrite lookup_app_l in Hi by lia. rewrite insert_app_l by lia. rewrite <- (length_insert l' i z), take_app_length.
    rewrite (Permutation_app_comm l' [z]). cbn. clear Hx. revert i Hi Hlt Hne.
    induction l' as [|y l' IH]; intros [|i] Hi Hlt Hne; cbn in *; try done.
    + injection Hi as ->. apply Permutation_swap.
    + rewrite Permutation_swap, (Permutation_swap y z). constructor. apply IH; [done|lia|lia].
Qed.
End index_map.

(** ** The conflict engine under the pool *)
Section engine.

(** No dependency is ever registered; an order that is kept lists nothing twice; two
    transactions listed under one coin are recorded as conflicting; a recorded
    conflict is with another transaction. *)
Record engine_ok (e : Engine) : Prop := {
  eo_deps : dependency_map e = ∅;
  eo_cached : ∀ r, cached_ordering e = Some r → NoDup (ordered_hashes r);
  eo_pairs : ∀ k x y, x ∈ claimants e k → y ∈ claimants e k → x ≠ y → y ∈ get_conflicts e x
}.
Definition claims (e : Engine) (h : key) (tx : Transaction) : Prop :=
  ∀ i, i ∈ inputs tx → h ∈ claimants e (claim_key i).

Lemma note_claimants_other h l st x : x ∉ l ∨ x = h → x ∉ st.1 → x ∉ (foldl (λ st c, note_claimant h c st) st l).1.
Proof.
  revert st; induction l as [|c l IH]; intros st Hx Hst; cbn [foldl]; [done|].
  apply IH; [set_solver|]. unfold note_claimant. case_bool_decide; [done|]. cbn. set_solver.
Qed.
Lemma register_spends_other h l st : h ∉ st.1.1 → h ∉ (foldl (register_spend h) st l).1.1.
Proof.
  revert st; induction l as [|i l IH]; intros [[d c] m] Hst; cbn [foldl]; [done|]. apply IH. unfold register_spend.
  destruct (foldl _ (d, c) _) as [d' c'] eqn:E. cbn in *.
  pose proof (note_claimants_other h (default [] (m !! claim_key i)) (d, c) h) as Hn. rewrite E in Hn. cbn in Hn. auto.
Qed.

Lemma note_claimants_found h l st x : x ∈ st.1 ∨ (x ∈ l ∧ x ≠ h) → x ∈ (foldl (λ st c, note_claimant h c st) st l).1.
Proof.
  revert st; induction l as [|c l IH]; intros st Hx; cbn [foldl]; [set_solver|].
  apply IH. unfold note_claimant. case_bool_decide; cbn; set_solver.
Qed.
Lemma register_spends_found h l st x : x ≠ h →
  x ∈ st.1.1 ∨ (∃ i, i ∈ l ∧ x ∈ default [] (st.2 !! claim_key i)) → x ∈ (foldl (register_spend h) st l).1.1.
Proof.
  intros Hne. revert st; induction l as [|i l IH]; intros [[d c] m] Hx; cbn [foldl].
  { destruct Hx as [?|(j & Hj & _)]; [done|by apply not_elem_of_nil in Hj]. }
  apply IH. unfold register_spend. pose proof (note_claimants_found h (default [] (m !! claim_key i)) (d, c) x) as Hn.
  destruct (foldl _ (d, c) _) as [d' c']. cbn in *. destruct Hx as [?|(j & [->|Hj]%elem_of_cons & Hx)]; [auto|auto|].
  right. exists j. split; [done|]. apply elem_of_push_at. auto.
Qed.

Lemma engine_register_ok size tx h fee arr e : engine_ok e →
  ∃ l e', engine_register size tx h fee arr e = (Ok l, e') ∧ engine_ok e' ∧ h ∉ l ∧ claims e' h tx
  ∧ (∀ x t, claims e x t → claims e' x t)
  ∧ ∀ x i, x ≠ h → i ∈ inputs tx → x ∈ claimants e (claim_key i) → x ∈ l.
Proof.
  intros [Hd Hc Hp]. unfold engine_register. rewrite (method_bind_run get _ e e e) by done. cbv zeta.
  pose proof (register_spends_other h (inputs tx) ([], conflict_map e, utxo_index e)) as Hh.
  pose proof (λ x, register_spends_found h (inputs tx) ([], conflict_map e, utxo_index e) x) as Hfound.
  destruct (foldl _ _ _) as [[d c] i] eqn:E. apply register_spends_ok in E as (Hp' & Hi & Hin); [|exact Hp].
  eexists d, _. split; [reflexivity|]. split_and!; [by split|by apply Hh, not_elem_of_nil|done| |].
  - intros x t Ht j Hj. by apply Hi, Ht.
  - intros x j Hne Hj Hx. apply Hfound; [done|]. right. by exists j.
Qed.

Context (order : gset key → list key) (Horder : ∀ s, order s ≡ₚ elements s).

Lemma cascade_alone h e : dependency_map e = ∅ → (remove_transaction_cascade order h e).1 = [h].
Proof.
  intros Hd. unfold remove_transaction_cascade. cbn [fst].
  assert (E : dep_entries order e = []).
  { unfold dep_entries. rewrite Hd, dom_empty_L. pose proof (Horder ∅) as Ho. rewrite elements_empty in Ho. by rewrite (proj1 (Permutation_nil_r _) Ho). }
  by rewrite E.
Qed.
Lemma cascade_claimants h e k x : dependency_map e = ∅ →
  x ∈ claimants (remove_transaction_cascade order h e).2 k ↔ x ≠ h ∧ x ∈ claimants e k.
Proof.
  intros Hd. pose proof (cascade_alone h e Hd) as Hl. unfold remove_transaction_cascade in *. cbn [fst snd] in *. rewrite Hl.
  unfold claimants. cbn. rewrite lookup_fmap. destruct (utxo_index e !! k) as [c|]; cbn; [|set_solver].
  rewrite list_elem_of_filter. set_solver.
Qed.
Lemma cascade_ok h e : engine_ok e → engine_ok (remove_transaction_cascade order h e).2
  ∧ ∀ x t, x ≠ h → claims e x t → claims (remove_transaction_cascade order h e).2 x t.
Proof.
  intros [Hd Hc Hp]. split; [split|].
  - pose proof (cascade_alone h e Hd) as Hl. unfold remove_transaction_cascade in *. cbn [fst snd] in *. rewrite Hl. cbn.
    rewrite Hd. apply delete_empty.
  - intros r. by cbn.
  - intros k x y [Hx Hx']%cascade_claimants [Hy Hy']%cascade_claimants Hne; [|done..].
    pose proof (cascade_alone h e Hd) as Hl. unfold remove_transaction_cascade, get_conflicts in *. cbn [fst snd] in *. rewrite Hl. cbn.
    rewrite lookup_delete_ne by done. by apply (Hp k).
  - intros x t Hne Ht i Hi. apply cascade_claimants; [done|]. split; [done|by apply Ht].
Qed.

Lemma engine_compute_ok now e : engine_ok e → let ce := compute_canonical_order order now e in
  NoDup (ordered_hashes ce.1) ∧ engine_ok ce.2 ∧ (∀ x t, claims e x t → claims ce.2 x t).
Proof.
  intros [Hd Hc Hp]. cbv zeta. destruct (compute_keeps order now e) as (En & Ei & Ec).
  assert (Hl : ∀ h, Z.of_nat (length (parents_in e h)) < 2 ^ 64).
  { intros h. unfold parents_in. rewrite Hd, lookup_empty. cbn. lia. }
  assert (Hnd : NoDup (ordered_hashes (compute_canonical_order order now e).1)).
  { destruct (cached_ordering e) as [r|] eqn:E.
    - unfold compute_canonical_order. rewrite E. by apply Hc.
    - destruct (canonical_order_lowest_first order Horder e now Hl E Hd) as [-> _]. apply NoDup_elements. }
  split; [done|]. split; [split|].
  - rewrite <- Hd. unfold compute_canonical_order. destruct (cached_ordering e); [done|]. case_bool_decide; [done|].
    by destruct (layers _ _ _ _ _ _) as [st groups].
  - revert Hnd. unfold compute_canonical_order. destruct (cached_ordering e) as [r|] eqn:E; [cbn; rewrite E; by intros ? r' [= <-]|].
    case_bool_decide; [cbn; by rewrite E|]. destruct (layers _ _ _ _ _ _) as [st groups]. cbn. by intros ? r' [= <-].
  - intros k x y. unfold claimants, get_conflicts in *. rewrite Ei, Ec. apply Hp.
  - intros x t. unfold claims, claimants. by rewrite Ei.
Qed.
Lemma build_loop_taken e max hashes b : ∃ k, k `sublist_of` hashes ∧ b_txs (build_loop e max hashes b) = b_txs b ++ k.
Proof.
  revert b; induction hashes as [|h hashes IH]; intros b; cbn [build_loop]; [exists []; by rewrite app_nil_r|].
  assert (Hskip : ∀ b', b_txs b' = b_txs b → ∃ k, k `sublist_of` h :: hashes ∧ b_txs (build_loop e max hashes b') = b_txs b ++ k).
  { intros b' E. destruct (IH b') as (k & Hk & E'). exists k. split; [by constructor|]. by rewrite E', E. }
  destruct (_ <=? _); [exists []; split; [apply sublist_nil_l|by rewrite app_nil_r]|].
  destruct (has_conflict _ _ _); [by apply Hskip|]. destruct (get_engine_node e h); [|by apply Hskip].
  destruct (_ <=? max); [|by apply Hskip]. edestruct IH as (k & Hk & E). exists (h :: k). split; [by constructor|].
  rewrite E. cbn. by rewrite <- app_assoc.
Qed.
(** A block of an engine in order: nothing twice, and no two that spend one coin. *)
Definition block_of (now max : Z) (e : Engine) : list key :=
  let ce := compute_canonical_order order now e in b_txs (build_loop ce.2 max (ordered_hashes ce.1) nothing_taken).
Lemma block_once now max e : engine_ok e → NoDup (block_of now max e).
Proof.
  intros He. unfold block_of. cbv zeta. set (ce := compute_canonical_order order now e).
  destruct (build_loop_taken ce.2 max (ordered_hashes ce.1) nothing_taken) as (k & Hk & ->). cbn.
  eapply sublist_NoDup; [by apply (engine_compute_ok now)|exact Hk].
Qed.
Lemma block_free now max e x y tx ty i j : engine_ok e → x ∈ block_of now max e → y ∈ block_of now max e → x ≠ y →
  claims e x tx → claims e y ty → i ∈ inputs tx → j ∈ inputs ty → claim_key i ≠ claim_key j.
Proof.
  intros He. destruct (engine_compute_ok now e He) as (_ & Hce & Hcl). unfold block_of. cbv zeta in Hce, Hcl |- *.
  set (ce := compute_canonical_order order now e) in *. set (l := b_txs _).
  intros Hx Hy Hne Htx Hty Hi Hj E. pose proof (Hcl _ _ Htx i Hi) as Hxi. pose proof (Hcl _ _ Hty j Hj) as Hyj. rewrite E in Hxi.
  destruct (build_loop_free ce.2 max (ordered_hashes ce.1) nothing_taken) as [Hk Hfree]; [split; cbn; [set_solver|by intros []]|].
  fold l in Hk, Hfree. destruct (one_first _ x y Hx Hy Hne) as [(l1 & l2 & El & Hl)|(l1 & l2 & El & Hl)].
  - eapply Hfree; [done..|]. by eapply (eo_pairs _ Hce).
  - eapply Hfree; [done..|]. by eapply (eo_pairs _ Hce); [| |done].
Qed.
End engine.

(** ** What a reachable pool keeps *)
Section pool.
Context {D : Type} {C : Type → Type} `{RocksDb D, LruCache C}.
Context `{Codec TransactionValue, Codec UtxoValue, !Bincode, !BincodeLaws}.
Context (order : gset key → list key) (serialized_size : Transaction → option Z) (checksum : Transaction → Z).
Context (Horder : ∀ s, order s ≡ₚ elements s).
Abbreviation pooling := (method (Pool D C) string).
Implicit Types (p q : Pool D C) (h : key) (tx : Transaction).

(** The parts that the invariant looks at. *)
Definition core p : list (key * PoolEntry) * Integration * OrphanManager * nat * Z :=
  (pool_by_hash p, conflict_ordering p, orphan_manager p, max_chain_depth (orphan_linker p), max_pool_size (pool_config p)).
(** A method that leaves them. *)
Definition framed {E A} (m : method (Pool D C) E A) : Prop := ∀ c, preserves (λ p, core p = c) m.
Lemma framed_run {E A} (m : method (Pool D C) E A) p : framed m → core (m p).2 = core p.
Proof. intros Hm. by apply (Hm (core p)). Qed.

(** Transactions of [K] only, at most [cap] of them, filed under their hash and claiming
    their coins in the conflict engine, no two spending outputs of one transaction, next
    to the orphans [om]. *)
Record pool_ok (K : key → Prop) (om : OrphanManager) (n cap : Z) p : Prop := {
  pk_keys : NoDup (pool_by_hash p).*1;
  pk_among : ∀ h, h ∈ (pool_by_hash p).*1 → K h;
  pk_size : Z.of_nat (length (pool_by_hash p)) ≤ cap;
  pk_entries : ∀ h e, (h, e) ∈ pool_by_hash p →
    bincode_hash (id (pe_transaction e)) = Some h ∧ claims (ig_engine (conflict_ordering p)) h (pe_transaction e);
  pk_free : ∀ h1 e1 h2 e2 i j, (h1, e1) ∈ pool_by_hash p → (h2, e2) ∈ pool_by_hash p → h1 ≠ h2 →
    i ∈ inputs (pe_transaction e1) → j ∈ inputs (pe_transaction e2) → prev_tx i ≠ prev_tx j;
  pk_engine : engine_ok (ig_engine (conflict_ordering p));
  pk_orphans : orphan_manager p = om;
  pk_depth : (0 < max_chain_depth (orphan_linker p))%nat;
  pk_max : max_pool_size (pool_config p) = n
}.
Lemma pool_ok_core K om n cap p q : core p = core q → pool_ok K om n cap p → pool_ok K om n cap q.
Proof.
  intros [= E1 E2 E3 E4 E5] [Hk Ha Hs He Hf Hg Ho Hd Hm]. split; rewrite <- ?E1, <- ?E2, <- ?E3, <- ?E4, <- ?E5; try done.
Qed.
Lemma pool_ok_framed K om n cap {E A} (m : method (Pool D C) E A) : framed m → preserves (pool_ok K om n cap) m.
Proof. intros Hm p Hp. eapply pool_ok_core; [|exact Hp]. symmetry. by apply framed_run. Qed.

(** Fewer entries, or the same transactions. *)
Definition within (l l' : list (key * PoolEntry)) : Prop :=
  NoDup l.*1 ∧ (length l ≤ length l')%nat
  ∧ ∀ h e, (h, e) ∈ l → ∃ e', (h, e') ∈ l' ∧ pe_transaction e = pe_transaction e'.
Lemma pool_ok_entries K om n cap p l : pool_ok K om n cap p → within l (pool_by_hash p) → pool_ok K om n cap (set_pool_by_hash l p).
Proof.
  intros [Hk Ha Hs He Hf Hg Ho Hd Hm] (Hnd & Hlen & Hin). split; try done; cbn.
  - intros h ([k e] & -> & (e' & Hl & _)%Hin)%list_elem_of_fmap. apply Ha, list_elem_of_fmap. by exists (k, e').
  - lia.
  - intros h e (e' & Hl & ->)%Hin. by apply He.
  - intros h1 e1 h2 e2 i j (e1' & Hl1 & ->)%Hin (e2' & Hl2 & ->)%Hin. by apply Hf.
Qed.
Lemma within_filter l (f : key * PoolEntry → Prop) `{∀ x, Decision (f x)} : NoDup l.*1 → within (filter f l) l.
Proof.
  intros Hl. split_and!.
  - eapply sublist_NoDup; [exact Hl|]. apply fmap_sublist, sublist_filter.
  - apply length_filter.
  - intros h e [_ Hin]%list_elem_of_filter. eauto.
Qed.
Lemma within_swap_remove l h : NoDup l.*1 → within (im_swap_remove h l) l.
Proof.
  intros Hl. destruct (im_swap_remove_perm h l) as [->|(x & _ & Hp)]; [split; [done|eauto]|].
  rewrite <- Hp in Hl. apply NoDup_cons in Hl as [_ Hl]. split; [done|].
  pose proof (Permutation_length Hp) as Hlen. cbn in Hlen. split; [lia|].
  intros k e Hin. exists e. split; [|done]. eapply elem_of_Permutation_proper; [symmetry; exact Hp|]. by right.
Qed.
Lemma within_insert l h e e' : NoDup l.*1 → im_get h l = Some e' → pe_transaction e = pe_transaction e' → within (im_insert h e l) l.
Proof.
  intros Hl Hg Ht. split; [by apply im_insert_NoDup|]. split.
  - rewrite <- !(length_fmap fst). by rewrite (im_insert_known _ _ _ _ Hg).
  - intros k w [[-> ->]|Hin]%elem_of_im_insert; [|eauto]. exists e'. split; [by apply im_get_elem|done].
Qed.

(** *** Steps that leave the core *)
Lemma framed_modify f : (∀ p, core (f p) = core p) → framed (E:=string) (modify f).
Proof. intros Hf c p Hp. cbn. by rewrite Hf. Qed.
Lemma on_store_framed m : framed (on_store (D:=D) (C:=C) m).
Proof.
  intros c. apply preserves_rethrow, preserves_zoom. intros p [s|] Hp; [|done]. exact Hp.
Qed.
Lemma warn_framed (m : pooling unit) : framed m → framed (warn m).
Proof. intros Hm c. apply preserves_catch; [apply Hm|intros; apply preserves_ret..]. Qed.
Lemma remove_from_disk_framed h c : preserves (λ p, core p = c) (warn (remove_from_disk (D:=D) (C:=C) h)).
Proof. apply warn_framed, on_store_framed. Qed.
Lemma save_to_disk_framed tx c : preserves (λ p, core p = c) (warn (save_to_disk (D:=D) (C:=C) checksum tx)).
Proof. apply warn_framed, on_store_framed. Qed.
Lemma persist_framed rate c : preserves (λ p, core p = c) (persist_min_fee_rate (D:=D) (C:=C) rate).
Proof. apply on_store_framed. Qed.
Hint Resolve remove_from_disk_framed save_to_disk_framed persist_framed : keeps.
Ltac frame := repeat first [progress keeps | apply preserves_rethrow | apply preserves_zoom; intros ? ?]; try done.

Lemma admission_checks_framed now tx fee_rate size c : preserves (λ p, core p = c) (admission_checks now tx fee_rate size : pooling unit).
Proof.
  unfold admission_checks, update_fee_filter, update_balancer, enforce_rate_limit. frame.
  intros p Hp. by destruct (fee_balancer p).
Qed.
(** In any case the transaction is gone. *)
Lemma remove_core h p : core (pool_remove h p).2 = core (set_pool_by_hash (im_shift_remove h (pool_by_hash p)) p).
Proof.
  unfold pool_remove. rewrite (method_bind_run get _ p p p) by done. destruct (pool_get h p) as [e|] eqn:Eg.
  - set (m := modify _ ≫= _). subst m. rewrite (method_bind_run (modify _) _ _ tt _) by reflexivity.
    match goal with |- core (?m0 ?p0).2 = _ => assert (Hf : framed m0); [|by rewrite (framed_run m0 p0 Hf)] end.
    intros c. frame.
  - rewrite im_shift_remove_absent by done. done.
Qed.
(** *** Steps that change it *)
Section steps.
Context (K : key → Prop) (om : OrphanManager) (n cap : Z).
Abbreviation ok := (pool_ok K om n cap).

Lemma pool_remove_ok h : preserves ok (pool_remove h).
Proof.
  intros p Hp. eapply pool_ok_core; [symmetry; apply remove_core|]. apply pool_ok_entries; [done|].
  apply within_filter, (pk_keys _ _ _ _ _ Hp).
Qed.
Lemma forget_evicted_ok h : preserves ok (forget_evicted h).
Proof.
  unfold forget_evicted. keeps.
  - intros p Hp. apply pool_ok_entries; [done|]. apply within_swap_remove, (pk_keys _ _ _ _ _ Hp).
  - intros p Hp. by eapply pool_ok_core; [|exact Hp].
  - intros p Hp. by eapply pool_ok_framed; [apply warn_framed, on_store_framed|].
Qed.
Lemma make_room_ok w : preserves ok (make_room order w).
Proof.
  unfold make_room. apply preserves_bind; [apply preserves_get|]. intros p. destruct (would_exceed_limit _ _); [|apply preserves_ret].
  destruct (make_space_for _ _ _ _) as [ev l]. apply preserves_bind; [by apply preserves_modify; intros q Hq; eapply pool_ok_core; [|exact Hq]|].
  intros _. destruct (_ <? _); [apply preserves_throw|]. apply preserves_for_each. intros. apply forget_evicted_ok.
Qed.

(** The conflicts: after the registration the coins are claimed, and stay so. *)
Definition claimed h tx p : Prop := claims (ig_engine (conflict_ordering p)) h tx.

Lemma remove_conflicting_ok h tx x : x ≠ h → preserves (λ p, ok p ∧ claimed h tx p) (remove_conflicting order x).
Proof.
  intros Hne p [Hp Hc]. unfold remove_conflicting. pose proof (pool_remove_ok x p Hp) as Hr. pose proof (remove_core x p) as Er.
  unfold mbind, method_bind. destruct (pool_remove x p) as [[[e|]|e|y] q]; cbn [snd] in *.
  2-4: split; [exact Hr|]; injection Er as _ Ei _ _ _; cbn in Ei; unfold claimed; cbn; by rewrite Ei.
  injection Er as El Ei _ _ _. cbn in El, Ei.
  set (s' := (integration_remove_cascade order x (conflict_ordering q)).2).
  change (ok (set_conflict_ordering s' q) ∧ claimed h tx (set_conflict_ordering s' q)).
  destruct (cascade_ok order Horder x _ (pk_engine _ _ _ _ _ Hr)) as [He Hcl].
  assert (Es : ig_engine s' = (remove_transaction_cascade order x (ig_engine (conflict_ordering q))).2).
  { unfold s', integration_remove_cascade. by destruct (remove_transaction_cascade _ _ _). }
  rewrite <- Es in He, Hcl. clearbody s'. split; [|apply Hcl; [done|by rewrite Ei]].
  destruct Hr as [H1' Ha' H2' H3' Hf' H4' H5' H6' H7']. split; try done.
  intros k w Hk. split; [by eapply H3'|]. apply Hcl; [|by eapply H3']. intros ->. cbn in Hk. rewrite El in Hk.
  by apply list_elem_of_filter in Hk as [? _].
Qed.

(** No other entry spends outputs of a transaction that [tx] spends. *)
Definition exclusive h tx p : Prop := ∀ k e i j, (k, e) ∈ pool_by_hash p → k ≠ h →
  i ∈ inputs tx → j ∈ inputs (pe_transaction e) → prev_tx i ≠ prev_tx j.

Lemma pool_register_ok now tx h fee :
  triple ok (zoom conflict_ordering set_conflict_ordering (integration_register serialized_size tx h fee now) : method (Pool D C) string _)
    (λ r p, (ok p ∧ claimed h tx p) ∧ h ∉ detected_conflicts r
       ∧ ∀ k e i j, (k, e) ∈ pool_by_hash p → k ≠ h → i ∈ inputs tx → j ∈ inputs (pe_transaction e) → prev_tx i = prev_tx j →
           k ∈ detected_conflicts r ∧ has_double_spend r = true) ok.
Proof.
  intros p Hp. unfold zoom. destruct (register_total serialized_size tx h fee now (conflict_ordering p)) as [r E]. rewrite E.
  set (s' := (integration_register _ _ _ _ _ _).2) in *. apply integration_register_run in E as (l & E & -> & ->).
  destruct (engine_register_ok serialized_size tx h fee now (ig_engine (conflict_ordering p)) (pk_engine _ _ _ _ _ Hp)) as (l' & e' & E' & He & Hl & Hc & Hm & Hf).
  rewrite E' in E. injection E as -> Ee. rewrite <- Ee. destruct Hp as [H1' Ha' H2' H3' Hf' H4' H5' H6' H7']. split; [split|split; [done|]].
  - split; try done; cbn; rewrite <- Ee; [|done]. intros k w [Hk Hw]%H3'. split; [done|]. by apply Hm.
  - unfold claimed. cbn. by rewrite <- Ee.
  - intros k w i j Hk Hne Hi Hj Eij. cbn in Hk. destruct (H3' k w Hk) as [_ Hw]. assert (Ek : claim_key i = claim_key j) by (unfold claim_key; congruence).
    split; [apply (Hf k i Hne Hi); rewrite Ek; by apply Hw|]. unfold detect_double_spend.
    assert (Hin : k ∈ get_conflicts e' h).
    { apply (eo_pairs _ He (claim_key i)); [by apply Hc|rewrite Ek; by apply (Hm k _ Hw)|done]. }
    unfold get_conflicts in Hin. destruct (conflict_map e' !! h) as [[|c cs]|]; [| |by apply not_elem_of_nil in Hin]; [by apply not_elem_of_nil in Hin|done].
Qed.

(** The removal of conflicts, when it goes through. *)
Lemma remove_conflicting_keys x p : pool_by_hash (remove_conflicting order x p).2 = im_shift_remove x (pool_by_hash p).
Proof.
  pose proof (remove_core x p) as Er. injection Er as E _ _ _ _. cbn in E. unfold remove_conflicting, mbind, method_bind.
  by destruct (pool_remove x p) as [[[w|]|w|y] q].
Qed.
Lemma conflicts_removed l p q : for_each (remove_conflicting order) l p = (Ok tt, q) →
  ∀ k e, (k, e) ∈ pool_by_hash q → (k, e) ∈ pool_by_hash p ∧ k ∉ l.
Proof.
  revert p; induction l as [|x l IH]; intros p; cbn [for_each]; [intros [= <-] k e Hk; by split; [|apply not_elem_of_nil]|].
  intros ([] & p1 & E1 & E2)%method_bind_ok k e Hk. pose proof (remove_conflicting_keys x p) as Ek. rewrite E1 in Ek. cbn in Ek.
  destruct (IH p1 E2 k e Hk) as [Hin Hl]. rewrite Ek in Hin. apply list_elem_of_filter in Hin as [Hne Hin]. cbn in Hne.
  split; [done|]. by rewrite not_elem_of_cons.
Qed.

Lemma resolve_ok now tx h fee rate :
  triple ok (resolve_conflicts order serialized_size now tx h fee rate) (λ _ p, ok p ∧ claimed h tx p ∧ exclusive h tx p) ok.
Proof.
  unfold resolve_conflicts. eapply triple_bind.
  { intros p Hp. pose proof (pool_register_ok (millis now) tx h fee p Hp) as Hr. unfold rethrow.
    destruct (zoom _ _ _ p) as [[r|e|x] q]; exact Hr. }
  intros r p (Hp & Hh & Hc). destruct (has_double_spend r).
  2: { split; [apply Hp|]. split; [apply Hp|]. intros k e i j Hk Hne Hi Hj E. by destruct (Hc k e i j Hk Hne Hi Hj E). }
  rewrite (method_bind_run get _ p p p) by done.
  destruct (_apply_deterministic_supremacy _ _ _ _ _); [|apply Hp].
  destruct (for_each _ _ p) as [r' q] eqn:E.
  assert (Hq : ok q ∧ claimed h tx q).
  { eapply (for_each_inv _ (λ q, ok q ∧ claimed h tx q)); [|exact Hp|exact E]. intros x q1 r1 q2 Hx Hq1 E1.
    pose proof (remove_conflicting_ok h tx x ltac:(by intros ->) q1 Hq1) as Hq2. by rewrite E1 in Hq2. }
  destruct r' as [[]|e|x]; [|apply Hq..]. split; [apply Hq|]. split; [apply Hq|].
  intros k e i j [Hk Hl]%(conflicts_removed _ _ _ E) Hne Hi Hj Eij. by destruct (Hc k e i j Hk Hne Hi Hj Eij).
Qed.

(** *** Adoption *)
Context (oc : OrphanPoolConfig).
Lemma serialized_bytes (i : Hash) : serialized i = Ok (hash_bytes i).
Proof. unfold serialized. by rewrite hash_bytes_spec. Qed.
Definition output_point tx (i : nat) : ClaimPoint := {| tx_hash := hash_bytes (id tx); point_index := wrap 32 (Z.of_nat i) |}.

(** Outputs nobody waits for: nothing is handed to [readd]. *)
Lemma adopt_outputs_run tx l p : bounded_ok oc (orphan_manager p) →
  (∀ i o, (i, o) ∈ l → waiting (orphan_manager p) (output_point tx i) = []) →
  ∃ s, (∀ readd, for_each (adopt_output readd tx) l p = (Ok tt, set_orphan_manager s p))
  ∧ drained [] (orphan_manager p) s ∧ bounded_ok oc s.
Proof.
  revert p; induction l as [|[i o] l IH]; intros p Hok Hl; cbn [for_each].
  { exists (orphan_manager p). split; [by destruct p|]. split; [apply drained_refl|done]. }
  assert (Hw := Hl i o ltac:(left)). set (pt := output_point tx i) in *.
  pose proof (orphan_step_ok order _ _ _ (step_process_parent order _ pt) Hok) as Hok1.
  destruct (process_run pt (orphan_manager p)) as (r & s & E & _ & _ & Hi & _ & Ha & _).
  pose proof (process_drained _ _ _ _ E) as Hd. rewrite E in Hok1. cbn [snd] in Hok1.
  assert (E1 : ∀ readd, adopt_output readd tx (i, o) p = (Ok tt, set_orphan_manager s p)).
  { intros readd. unfold adopt_output. rewrite serialized_bytes. rewrite (method_bind_run (lift _) _ p (hash_bytes (id tx)) p) by done.
    cbn [fst]. fold (output_point tx i). unfold catch, zoom. fold pt. rewrite E. destruct (adopted_txs r) as [|t ts] eqn:Et; [done|].
    destruct (proj1 (Ha t) ltac:(left)) as (h & e & Hh & _). rewrite Hw in Hh. by apply not_elem_of_nil in Hh. }
  destruct (IH (set_orphan_manager s p) Hok1) as (s' & E2 & Hd2 & Hok2).
  { intros j o' Hj. apply (dr_empty _ _ _ Hd). right. apply (Hl j o'). by right. }
  exists s'. split; [|split; [|done]].
  - intros readd. by rewrite (method_bind_run _ _ _ _ _ (E1 readd)), E2.
  - apply (drained_trans [] [] _ s); [by eapply drained_weaken|done].
Qed.

Lemma link_keeps tx : preserves (λ s, bounded_ok oc s.1 ∧ (0 < max_chain_depth s.2)%nat) (link_orphan_chain tx).
Proof.
  apply link_preserves; [|done..]. intros pt s [Hs Hd]. split; [|done]. by eapply orphan_step_ok; [apply (step_process_parent order)|].
Qed.

(** What adopting leaves alone. *)
Definition rest p : list (key * PoolEntry) * Integration * Z := (pool_by_hash p, conflict_ordering p, max_pool_size (pool_config p)).

(** Linking comes first and leaves nothing for the adoption: no orphan is handed back. *)
Lemma adopt_run now tx p : bounded_ok oc (orphan_manager p) → (0 < max_chain_depth (orphan_linker p))%nat →
  ∃ q, (∀ readd, _adopt_waiting_orphans readd now tx p = (Ok tt, q)) ∧ rest q = rest p
  ∧ bounded_ok oc (orphan_manager q) ∧ (0 < max_chain_depth (orphan_linker q))%nat
  ∧ drained [] (orphan_manager p) (orphan_manager q)
  ∧ ∀ i o, outputs tx !! i = Some o → drained [output_point tx i] (orphan_manager p) (orphan_manager q).
Proof.
  intros Hok Hd. pose proof (link_keeps tx (chain_of p) (conj Hok Hd)) as Hl.
  destruct (succeeds_run _ (chain_of p) (link_succeeds tx)) as (r & s & E). rewrite E in Hl. destruct Hl as [Hok1 Hd1].
  destruct (link_drained tx r (chain_of p) s Hd E) as (ps & Hps & Hdr).
  set (m := catch (zoom chain_of set_chain (link_orphan_chain tx)) (schedule_adopted now tx) (λ _, mret tt) : pooling unit).
  assert (Hm : ∃ q, m p = (Ok tt, q) ∧ core q = core (set_chain s p)).
  { unfold m, catch, zoom. rewrite E.
    assert (Hs : succeeds (schedule_adopted now tx r : pooling unit)).
    { apply succeeds_for_each. intros x. apply succeeds_bind; [apply succeeds_lift; by rewrite serialized_bytes|done]. }
    assert (Hf : framed (schedule_adopted now tx r : pooling unit)) by (intros c; unfold schedule_adopted; frame).
    pose proof (framed_run _ (set_chain s p) Hf) as Hc. destruct (succeeds_run _ (set_chain s p) Hs) as ([] & q & Eq). rewrite Eq in Hc. eauto. }
  destruct Hm as (q & Em & Hq). injection Hq as E1 E2 E3 E4 E5. cbn in E1, E2, E3, E4, E5.
  destruct (adopt_outputs_run tx (enumerate (outputs tx)) q) as (s' & Es & Hs' & Hok').
  { by rewrite E3. }
  { intros i o Hi. rewrite E3. apply (dr_empty _ _ _ Hdr). left. apply list_elem_of_lookup in Hi as [j Hj].
    rewrite enumerate_lookup in Hj. destruct (outputs tx !! j) as [o'|] eqn:Eo; [|done]. injection Hj as <- <-.
    by eapply outpoints_elem; [|apply hash_bytes_spec|]. }
  rewrite E3 in Hs'. exists (set_orphan_manager s' q). split_and!; [| |done|by cbn; rewrite E4| |].
  - intros readd. unfold _adopt_waiting_orphans. fold m. rewrite (method_bind_run m _ _ _ _ Em). apply Es.
  - unfold rest. cbn. by rewrite E1, E2, E5.
  - apply (drained_trans [] [] _ s.1); [by eapply drained_weaken|done].
  - intros i o Ho. apply (drained_trans [_] [] _ s.1); [|done]. destruct Hdr as [H1' H2' H3']. split; [done| |done].
    intros pt [->%list_elem_of_singleton|Hpt]; apply H2'; [left|by right]. by eapply outpoints_elem; [|apply hash_bytes_spec|].
Qed.

(** *** Adding *)
Lemma triple_framed {A} P (m : pooling A) (R : Pool D C → Prop) : (∀ p q, core p = core q → P p → P q) → (∀ p, P p → R p) →
  (∀ c, preserves (λ p, core p = c) m) → triple P m (λ _, P) R.
Proof.
  intros Hc HR Hm. apply triple_preserves; [|done]. intros p Hp. eapply Hc; [|exact Hp]. symmetry. by apply framed_run.
Qed.
(** The orphans that wait for an output of [tx] are gone. *)
Definition served tx (s s' : OrphanManager) : Prop :=
  ∀ h e i o, orphan_pool s !! h = Some e → outputs tx !! i = Some o → output_point tx i ∈ missing_inputs e → orphan_pool s' !! h = None.

Definition kept (K' : key → Prop) (bound : Z) p : Prop := ∃ s, pool_ok K' s n bound p ∧ bounded_ok oc s.

(** How the pool stands after a transaction has come in as an entry. *)
Definition entered (now : Moment) h tx fee size p : Prop :=
  ∃ s, pool_ok (λ k, k = h ∨ K k) s n (cap + 1) p ∧ bounded_ok oc s ∧ served tx om s
  ∧ pool_get h p = Some (PoolEntry_new (secs now) tx fee size).

Lemma pool_insert_ok s h e p : pool_ok K s n cap p → claimed h (pe_transaction e) p → exclusive h (pe_transaction e) p → bincode_hash (id (pe_transaction e)) = Some h →
  pool_ok (λ k, k = h ∨ K k) s n (cap + 1) (set_pool_by_hash (im_insert h e (pool_by_hash p)) p).
Proof.
  intros [H1' Ha' H2' H3' Hf' H4' H5' H6' H7'] Hc Hx Hh. split; try done; cbn.
  - by apply im_insert_NoDup.
  - intros k. rewrite im_insert_keys. case_bool_decide; [auto|]. intros [?| ->%list_elem_of_singleton]%elem_of_app; auto.
  - pose proof (im_insert_length h e (pool_by_hash p)). lia.
  - intros k w [[-> ->]|Hin]%elem_of_im_insert; [done|by apply H3'].
  - intros k1 w1 k2 w2 i j [[-> ->]|Hk1]%elem_of_im_insert [[-> ->]|Hk2]%elem_of_im_insert Hne Hi Hj; [done| | |by apply (Hf' k1 w1 k2 w2)].
    + by apply (Hx k2 w2 i j Hk2 (not_eq_sym Hne)).
    + apply not_eq_sym. by apply (Hx k1 w1 j i Hk1 Hne).
Qed.

Lemma main_ok readd now h tx fee size rate (Hom : bounded_ok oc om) (Hh : bincode_hash (id tx) = Some h) :
  triple (λ p, ok p ∧ claimed h tx p ∧ exclusive h tx p) (_add_to_main_pool checksum readd now h tx fee size rate)
    (λ _, entered now h tx fee size) (kept K cap).
Proof.
  set (P := λ p, ok p ∧ claimed h tx p ∧ exclusive h tx p).
  assert (HP : ∀ p q, core p = core q → P p → P q).
  { intros p q E (Hp & Hc & Hx). split; [by eapply pool_ok_core|]. injection E as E' E _ _ _. unfold claimed, exclusive. by rewrite <- E, <- E'. }
  assert (HR : ∀ p, P p → kept K cap p) by (intros p [Hp _]; by exists om).
  unfold _add_to_main_pool. do 7 (eapply triple_bind; [apply (triple_framed P); [exact HP|exact HR|intros c; frame]|intros ?]).
  set (P2 := λ p, ∃ s, (pool_ok K s n cap p ∧ bounded_ok oc s ∧ served tx om s) ∧ claimed h tx p ∧ exclusive h tx p).
  apply (triple_bind _ _ (λ _, P2)); [|intros _; apply (triple_bind _ _ (λ _, P2)); [|intros _]].
  - intros p (Hp & Hc & Hx). destruct Hp as [H1' Ha' H2' H3' Hf' H4' H5' H6' H7'].
    destruct (adopt_run now tx p) as (q & -> & Hr & Hq & Hd & Hdr & Hs); [by rewrite H5'|done|].
    injection Hr as E1 E2 E3. exists (orphan_manager q). split; [|unfold claimed, exclusive; by rewrite E1, E2]. split.
    { split; rewrite ?E1, ?E2, ?E3; done. }
    split; [done|]. intros k e i o He Ho Hm. destruct (Hs i o Ho) as [Hpool Hempty Hok]. rewrite H5' in Hpool, Hempty, Hok.
    destruct (Hpool k) as [?|Ek]; [done|]. rewrite He in Ek. destruct Hom as (Hom & _).
    pose proof (oo_waiting _ (Hok Hom) k e _ Ek Hm) as Hw. rewrite Hempty in Hw by (left; left). by apply not_elem_of_nil in Hw.
  - apply triple_framed; [| |intros c; frame].
    + intros p q E (s & (Hp & Hs) & Hc). exists s. split; [split; [by eapply pool_ok_core|done]|].
      injection E as E' E _ _ _. unfold claimed, exclusive. by rewrite <- E, <- E'.
    + intros p (s & (Hp & Hs & _) & _). by exists s.
  - intros p (s & (Hp & Hs & Hv) & Hc & Hx). exists s. split; [by apply pool_insert_ok|]. split; [done|]. split; [done|]. apply im_get_insert.
Qed.

Definition orphaned (now : Moment) h tx fee size p : Prop :=
  ∃ s missing, pool_ok K s n cap p ∧ bounded_ok oc s ∧ orphan_pool s !! h = Some (OrphanEntry_new (nanos now) tx missing size fee).
Lemma orphan_ok now h tx missing fee size (Hom : bounded_ok oc om) (Hh : bincode_hash (id tx) = Some h) :
  triple ok (_handle_orphan_transaction order now tx missing fee size) (λ _, orphaned now h tx fee size) (kept K cap).
Proof.
  intros p Hp. unfold _handle_orphan_transaction, serialized. rewrite Hh. cbn [ok_or]. rewrite (method_bind_run (lift _) _ p h p) by done.
  destruct Hp as [H1' Ha' H2' H3' Hf' H4' H5' H6' H7']. unfold zoom. rewrite H5'.
  set (l := omap (missing_outpoint tx) missing). pose proof (step_add_orphan order om (nanos now) (nanos now) h tx l size fee) as Hstep.
  apply (orphan_step_ok order oc) in Hstep; [|done].
  destruct Hom as (Hok & Hmax & _). pose proof (add_orphan_run order (nanos now) (nanos now) h tx l size fee om Hok Hmax) as Hr.
  destruct (add_orphan _ _ _ _ _ _ _ _ om) as [[[]|e|x] s]; destruct Hr as (_ & _ & Hr); cbn [snd] in Hstep.
  - exists s, l. by split; [split|].
  - exists s. by split; [split|].
  - done.
Qed.

Definition accepted (now : Moment) h tx fee size p : Prop := entered now h tx fee size p ∨ orphaned now h tx fee size p.
Lemma validated_ok readd now h tx fee size rate (Hom : bounded_ok oc om) (Hh : bincode_hash (id tx) = Some h) :
  triple (λ p, ok p ∧ claimed h tx p ∧ exclusive h tx p) (add_validated order checksum readd now h tx fee size rate)
    (λ _, accepted now h tx fee size) (kept K cap).
Proof.
  unfold add_validated. apply (triple_bind _ _ (λ _ p, ok p ∧ claimed h tx p ∧ exclusive h tx p)).
  - apply triple_framed; [|intros p [Hp _]; by exists om|].
    + intros p q E (Hp & Hc). split; [by eapply pool_ok_core|]. injection E as E' E _ _ _. unfold claimed, exclusive. by rewrite <- E, <- E'.
    + intros c. apply preserves_rethrow, preserves_zoom. by intros p [s|] Hp.
  - intros [|l| |i].
    + eapply triple_weaken; [by apply main_ok|]. by left.
    + intros p [Hp _]. pose proof (orphan_ok now h tx l fee size Hom Hh p Hp) as Hr.
      destruct (_handle_orphan_transaction _ _ _ _ _ _ p) as [[[]|e|x] q]; [by right|done..].
    + intros p [Hp _]. by exists om.
    + intros p [Hp _]. by exists om.
Qed.
End steps.

(** The checks of the size and of the memory, between the admission and the conflicts. *)
Lemma checked_room K om n p : pool_ok K om n n p → pool_size p <? max_pool_size (pool_config p) = true → pool_ok K om n (n - 1) p.
Proof. intros [H1' Ha' H2' H3' Hf' H4' H5' H6' H7'] Hs. apply Z.ltb_lt in Hs. unfold pool_size in Hs. split; try done. lia. Qed.
Lemma pool_ok_grow K om n cap cap' p : cap ≤ cap' → pool_ok K om n cap p → pool_ok K om n cap' p.
Proof. intros Hc [H1' Ha' H2' H3' Hf' H4' H5' H6' H7']. split; try done. lia. Qed.

Lemma add_ok oc readd now K om n tx fee size h (Hom : bounded_ok oc om) (Hh : bincode_hash (id tx) = Some h) :
  triple (pool_ok K om n n) (add_body order serialized_size checksum readd now tx fee size)
    (λ _, accepted K om n (n - 1) oc now h tx fee size) (kept n oc K n).
Proof.
  unfold add_body, serialized. rewrite Hh. cbn [ok_or]. set (R := kept n oc K n).
  assert (HR : ∀ p, pool_ok K om n n p → R p) by (intros p Hp; by exists om).
  assert (HR' : ∀ p, pool_ok K om n (n - 1) p → R p) by (intros p Hp; apply HR; eapply pool_ok_grow; [|done]; lia).
  assert (HRk : ∀ p, kept n oc K (n - 1) p → R p).
  { intros p (s & Hp & Hs). exists s. split; [eapply pool_ok_grow; [|done]; lia|done]. }
  apply (triple_bind _ _ (λ x p, x = h ∧ pool_ok K om n n p)); [by intros p Hp|]. intros x. 
  intros p [-> Hp]. revert p Hp.
  apply (triple_bind (pool_ok K om n n) _ (λ _, pool_ok K om n n)).
  { apply triple_framed; [intros p q; apply pool_ok_core|exact HR|intros c; apply admission_checks_framed]. }
  intros _ p Hp. rewrite (method_bind_run get _ p p p) by done.
  destruct (pool_size p <? max_pool_size (pool_config p)) eqn:Es; cbn [ensure]; [|by apply HR].
  rewrite (method_bind_run (lift _) _ p tt p) by done. apply (checked_room K om n p Hp) in Es.
  clear Hp. set (w := total_weight _). clearbody w. revert p Es.
  apply (triple_bind _ _ (λ _, pool_ok K om n (n - 1))); [by apply triple_preserves; [apply make_room_ok|]|]. intros _.
  apply (triple_bind _ _ (λ _ p, pool_ok K om n (n - 1) p ∧ claimed h tx p ∧ exclusive h tx p)); intros.
  - intros p Hp. pose proof (resolve_ok K om n (n - 1) now tx h fee (rate_of fee size) p Hp) as Hr.
    destruct (resolve_conflicts _ _ _ _ _ _ _ p) as [[[]|e|x] q]; auto.
  - intros p Hp. pose proof (validated_ok K om n (n - 1) oc readd now h tx fee size (rate_of fee size) Hom Hh p Hp) as Hr.
    destruct (add_validated _ _ _ _ _ _ _ _ _ p) as [[[]|e|x] q]; auto.
Qed.


(** *** Adoption never nests *)
Lemma main_same oc readd readd' now h tx fee size rate p : bounded_ok oc (orphan_manager p) → (0 < max_chain_depth (orphan_linker p))%nat →
  _add_to_main_pool checksum readd now h tx fee size rate p = _add_to_main_pool checksum readd' now h tx fee size rate p.
Proof.
  intros Hok Hd. set (P := λ p, bounded_ok oc (orphan_manager p) ∧ (0 < max_chain_depth (orphan_linker p))%nat).
  assert (HP : ∀ p q, core p = core q → P p → P q).
  { intros p1 q E. injection E as _ _ E1 E2 _. unfold P. by rewrite E1, E2. }
  assert (Hp : P p) by done. assert (HP1 : ∀ p, P p → bounded_ok oc (orphan_manager p)) by (by intros ? []).
  assert (HP2 : ∀ p, P p → (0 < max_chain_depth (orphan_linker p))%nat) by (by intros ? []). clearbody P. unfold _add_to_main_pool. clear Hok Hd.
  do 7 (eapply (bind_same P (λ _, P)); [apply triple_framed; [exact HP|done|intros c; frame]|eassumption|intros ? ? ?]).
  edestruct (adopt_run oc now tx) as (q & E & _); [by eapply HP1|by eapply HP2|]. by rewrite !(method_bind_run _ _ _ _ _ (E _)).
Qed.
Lemma add_same K om n cap oc readd readd' now tx fee size p : bounded_ok oc om → pool_ok K om n cap p →
  add_body order serialized_size checksum readd now tx fee size p = add_body order serialized_size checksum readd' now tx fee size p.
Proof.
  intros Hom Hp. unfold add_body. set (P := pool_ok K om n cap).
  assert (HP : ∀ p q, core p = core q → P p → P q) by (intros p1 q; apply pool_ok_core).
  eapply (bind_same P (λ _, P)); [by intros q Hq; unfold lift; destruct (serialized _)|done|intros h q Hq].
  eapply (bind_same P (λ _, P)); [apply triple_framed; [exact HP|done|intros c; apply admission_checks_framed]|done|intros [] q1 Hq1].
  rewrite !(method_bind_run get _ q1 q1 q1) by done.
  eapply (bind_same P (λ _, P)); [by apply triple_preserves; [apply preserves_lift|]|done|intros [] q2 Hq2].
  eapply (bind_same P (λ _, P)); [by apply triple_preserves; [apply make_room_ok|]|done|intros [] q3 Hq3].
  eapply (bind_same P (λ _, P)); [|done|intros [] q4 Hq4].
  { intros q4 Hq4. pose proof (resolve_ok K om n cap now tx h fee (rate_of fee size) q4 Hq4) as Hr.
    destruct (resolve_conflicts _ _ _ _ _ _ _ q4) as [[[]|e|x] q5]; [apply Hr|done..]. }
  unfold add_validated. eapply (bind_same P (λ _, P)); [|done|intros r q5 Hq5].
  { apply triple_framed; [exact HP|done|]. intros c. apply preserves_rethrow, preserves_zoom. by intros p5 [s|] Hp5. }
  destruct r; [|done..]. apply (main_same oc); [by rewrite (pk_orphans _ _ _ _ _ Hq5)|apply (pk_depth _ _ _ _ _ Hq5)].
Qed.


(** *** The check of a block candidate *)
Definition distinct_inputs tx : Prop := NoDup (outpoint_key <$> inputs tx).
#[local] Instance distinct_inputs_dec tx : Decision (distinct_inputs tx).
Proof. unfold distinct_inputs. apply _. Defined.
Definition spent_twice : string := "Conflict detected in canonical ordering: UTXO {} already spent".

Lemma claim_outputs_run (l : list TxInput) (spent : gset (Hash * Z)) : (∀ x, x ∈ outpoint_key <$> l → x ∉ spent) →
  fold_outcome claim_output spent l =
  if bool_decide (NoDup (outpoint_key <$> l)) then Ok (list_to_set (outpoint_key <$> l) ∪ spent) else Err spent_twice.
Proof.
  revert spent; induction l as [|i l IH]; intros spent Hl; cbn [fold_outcome fmap list_fmap].
  { rewrite bool_decide_eq_true_2 by constructor. f_equal. set_solver. }
  assert (Ec : claim_output spent i = Ok ({[ outpoint_key i ]} ∪ spent)).
  { unfold claim_output. rewrite bool_decide_eq_false_2; [done|]. apply Hl. left. }
  rewrite Ec. cbn [mbind outcome_bind].
  destruct (decide (outpoint_key i ∈ outpoint_key <$> l)) as [Hin|Hni].
  - rewrite bool_decide_eq_false_2 by (by intros [? _]%NoDup_cons).
    clear IH. assert (Hs : outpoint_key i ∈ {[ outpoint_key i ]} ∪ spent) by set_solver. revert Hs. generalize ({[ outpoint_key i ]} ∪ spent).
    clear Hl. induction l as [|j l IH]; [by apply not_elem_of_nil in Hin|]. intros s Hs. cbn [fold_outcome].
    destruct (claim_output s j) as [s'|e|x] eqn:Ej; unfold claim_output in Ej; case_bool_decide as Hj; simplify_eq; [|done].
    cbn [mbind outcome_bind]. apply elem_of_cons in Hin as [E|Hin]; [by rewrite E in Hs|]. apply IH; [done|]. set_solver.
  - rewrite IH.
    + assert (E : NoDup (outpoint_key <$> l) ↔ NoDup (outpoint_key <$> i :: l)) by (rewrite fmap_cons, NoDup_cons; tauto).
      do 2 case_bool_decide; [|tauto..|done]. f_equal. cbn. set_solver.
    + intros x Hx. rewrite not_elem_of_union, not_elem_of_singleton. split; [by intros ->|]. apply Hl. by right.
Qed.

(** Transactions with hashes of their own, no two of which share an outpoint. *)
Lemma verify_order_run (txs : list Transaction) (hs : gset key) (spent : gset (Hash * Z)) :
  (∀ tx, tx ∈ txs → hash_bytes (id tx) ∉ hs) → (∀ tx i, tx ∈ txs → i ∈ inputs tx → outpoint_key i ∉ spent) →
  NoDup ((λ tx, hash_bytes (id tx)) <$> txs) →
  (∀ l1 t1 l2 t2 i j, txs = l1 ++ t1 :: l2 → t2 ∈ l2 → i ∈ inputs t1 → j ∈ inputs t2 → outpoint_key i ≠ outpoint_key j) →
  (_ ← fold_outcome verify_one (hs, spent) txs; Ok tt) = if bool_decide (Forall distinct_inputs txs) then Ok tt else Err spent_twice.
Proof.
  revert hs spent; induction txs as [|tx txs IH]; intros hs spent Hh Hs Hnd Hpair; [by rewrite bool_decide_eq_true_2|].
  apply NoDup_cons in Hnd as [Hx Hnd]. cbn [fold_outcome].
  assert (Ev : verify_one (hs, spent) tx = if bool_decide (distinct_inputs tx)
    then Ok ({[ hash_bytes (id tx) ]} ∪ hs, list_to_set (outpoint_key <$> inputs tx) ∪ spent) else Err spent_twice).
  { unfold verify_one. rewrite serialized_bytes. cbn [mbind outcome_bind fst snd].
    rewrite bool_decide_eq_false_2 by (apply Hh; left). rewrite claim_outputs_run.
    - destruct (decide (distinct_inputs tx)) as [Hd|Hd]; [by rewrite !bool_decide_eq_true_2 by exact Hd|by rewrite !bool_decide_eq_false_2 by exact Hd].
    -     intros x (i & -> & Hi)%list_elem_of_fmap. by apply (Hs tx); [left|]. }
  rewrite Ev. clear Ev. destruct (decide (distinct_inputs tx)) as [Hd|Hd].
  - rewrite (bool_decide_eq_true_2 (distinct_inputs tx)) by exact Hd. set (st := ({[ hash_bytes (id tx) ]} ∪ hs, list_to_set (outpoint_key <$> inputs tx) ∪ spent)).
    change ((_ ← fold_outcome verify_one st txs; Ok tt) = (if bool_decide (Forall distinct_inputs (tx :: txs)) then Ok tt else Err spent_twice)).
    subst st.
    rewrite IH.
    + assert (E : bool_decide (Forall distinct_inputs txs) = bool_decide (Forall distinct_inputs (tx :: txs))); [|by rewrite E].
      apply bool_decide_ext. rewrite Forall_cons. naive_solver.
    + intros t Ht. rewrite not_elem_of_union, not_elem_of_singleton. split; [|apply Hh; by right]. intros E. apply Hx.
      apply list_elem_of_fmap. by exists t.
    + intros t i Ht Hi. rewrite not_elem_of_union. split; [|by apply (Hs t); [right|]]. rewrite elem_of_list_to_set.
      intros (j & E & Hj)%list_elem_of_fmap. by eapply (Hpair [] tx txs t j i).
    + done.
    + intros l1 t1 l2 t2 i j ->. by apply (Hpair (tx :: l1) t1 l2 t2 i j).
  - rewrite (bool_decide_eq_false_2 (distinct_inputs tx)) by exact Hd.
    rewrite bool_decide_eq_false_2; [done|]. by intros [? _]%Forall_cons.
Qed.


(** *** Reachable pools *)
Inductive pool_step p : Pool D C → Prop :=
  | pstep_add fuel now tx fee size : pool_step p (pool_add_transaction order serialized_size checksum fuel now tx fee size p).2
  | pstep_remove h : pool_step p (pool_remove h p).2
  | pstep_status h s : pool_step p (set_status h s p).2
  | pstep_cleanup now : pool_step p (pool_cleanup_expired now p).2
  | pstep_clear now : pool_step p (pool_clear now p).2
  | pstep_min_fee rate : pool_step p (set_min_fee_rate rate p).2
  | pstep_reconcile : pool_step p (reconcile_with_blockchain p).2
  | pstep_block now max : pool_step p (prepare_block_candidate order now max p).2
  | pstep_sets now max : pool_step p (prepare_parallel_block_candidates order now max p).2
  | pstep_orphans now : pool_step p (cleanup_expired_orphans order now p).2
  | pstep_deferred now : pool_step p (process_deferred_resolutions now p).2
  | pstep_priority now h : pool_step p (pool_dynamic_priority now h p).2
  | pstep_priorities now r q : update_priority_scheduler order now p = Some (r, q) → pool_step p q.

Definition pool_inv oc n p : Prop := kept n oc (λ _, True) n p.

Lemma prepare_run now max p : ∃ block s', build_block_canonical order (millis now) max (conflict_ordering p) = (Ok block, s')
  ∧ ig_engine s' = (compute_canonical_order order (millis now) (ig_engine (conflict_ordering p))).2
  ∧ bb_transactions block = block_of order (millis now) max (ig_engine (conflict_ordering p))
  ∧ prepare_block_candidate order now max p =
    ((_ ← _verify_canonical_order (candidate_transactions p (bb_transactions block)); Ok (candidate_transactions p (bb_transactions block))),
     set_conflict_ordering s' p).
Proof.
  pose proof (build_run order (millis now) max (conflict_ordering p)) as E. cbv zeta in E. eexists _, _. split; [exact E|]. split; [done|]. split; [done|].
  unfold prepare_block_candidate, rethrow, zoom, mbind at 1, method_bind at 1. rewrite E. set (verify := _verify_canonical_order). clearbody verify. unfold candidate_transactions, pool_get.
  unfold lift, mbind, method_bind, get. cbn. by destruct (verify _).
Qed.

Lemma prepare_ok K om n cap now max p : pool_ok K om n cap p → pool_ok K om n cap (prepare_block_candidate order now max p).2.
Proof.
  intros Hp. destruct (prepare_run now max p) as (b & s' & _ & Es & _ & ->). cbn [snd].
  destruct Hp as [H1' Ha' H2' H3' Hf' H4' H5' H6' H7']. destruct (engine_compute_ok order Horder (millis now) _ H4') as (_ & He & Hc).
  rewrite <- Es in He, Hc. split; try done. intros h e [Hh Hcl]%H3'. split; [done|]. by apply Hc.
Qed.

Lemma pool_step_inv oc n p q : 0 ≤ n → pool_step p q → pool_inv oc n p → pool_inv oc n q.
Proof.
  intros Hn Hs (s & Hp & Hom). destruct Hs as [fuel now tx fee size|h|h st|now|now|rate| |now max|now max|now|now|now h|now r q Hupd].
  - destruct fuel as [|fuel]; [by exists s|]. cbn [pool_add_transaction].
    pose proof (add_ok oc (pool_add_transaction order serialized_size checksum fuel now) now _ s n tx fee size _ Hom (hash_bytes_spec (id tx)) p Hp) as Hr.
    destruct (add_body _ _ _ _ _ _ _ _ p) as [[[]|e|x] q]; [|done..].
    destruct Hr as [(s' & Hq & Hs' & _)|(s' & l & Hq & Hs' & _)]; exists s'; (split; [|done]).
    + destruct Hq as [H1' Ha' H2' H3' Hf' H4' H5' H6' H7']. split; try done. cbn. lia.
    + eapply pool_ok_grow; [|done]. lia.
  - exists s. split; [by apply pool_remove_ok|done].
  - exists s. split; [|done]. unfold set_status. rewrite (method_bind_run get _ p p p) by done.
    destruct (pool_get h p) as [e|] eqn:Eg; [|done]. cbn [ok_or]. rewrite (method_bind_run (lift _) _ p e p) by done.
    destruct (transition_to st (pe_status e)) as [[[]|x|x] st']; [|done..].
    rewrite (method_bind_run (modify _) _ p tt _) by reflexivity.
    eapply pool_ok_core with (p := set_pool_by_hash _ p); [cbn; by destruct (_ && _)|]. apply pool_ok_entries; [done|].
    eapply within_insert; [apply (pk_keys _ _ _ _ _ Hp)|exact Eg|done].
  - exists s. split; [|done]. unfold pool_cleanup_expired. rewrite (method_bind_run get _ p p p) by done.
    apply pool_ok_entries; [done|]. apply within_filter, (pk_keys _ _ _ _ _ Hp).
  - exists s. split; [|done]. apply (pool_ok_core _ _ _ _ (set_pool_by_hash [] p)); [done|]. apply pool_ok_entries; [done|].
    split; [constructor|]. split; [cbn; lia|]. by intros h e ?%not_elem_of_nil.
  - exists s. split; [|done]. eapply pool_ok_core; [|exact Hp]. symmetry. apply framed_run. intros c. unfold set_min_fee_rate. frame.
  - exists s. split; [|done]. assert (Hk : preserves (pool_ok (λ _, True) s n n) reconcile_with_blockchain); [|by apply Hk].
    unfold reconcile_with_blockchain. apply preserves_bind; [apply preserves_get|]. intros p0. destruct (negb _); [apply preserves_ret|].
    apply preserves_for_each. intros h. apply preserves_catch; [|intros [v|]|intros; apply preserves_ret].
    + apply pool_ok_framed. intros c. apply preserves_rethrow, preserves_zoom. by intros q [t|].
    + apply preserves_bind; [apply pool_remove_ok|intros; apply preserves_ret].
    + apply preserves_ret.
  - exists s. split; [by apply prepare_ok|done].
  - exists s. split; [|done]. unfold prepare_parallel_block_candidates. pose proof (prepare_ok _ _ _ _ now max p Hp) as Hq.
    unfold mbind, method_bind. destruct (prepare_block_candidate order now max p) as [[txs|e|x] q]; [|done..]. cbn [snd get] in *.
    destruct (get_parallel_validation_groups _ _); [|done]. unfold lift. by destruct (build_parallel_sets _ _ _).
  - exists (cleanup_expired order (nanos now) s).2. split; [|by eapply orphan_step_ok; [apply step_cleanup|]].
    destruct Hp as [H1' Ha' H2' H3' Hf' H4' H5' H6' H7']. unfold cleanup_expired_orphans, zoom. rewrite H5'.
    by destruct (cleanup_expired order (nanos now) s) as [r o].
  - exists s. split; [|done]. unfold process_deferred_resolutions. destruct (process_batch _ _ _). by eapply pool_ok_core; [|exact Hp].
  - exists s. split; [|done]. eapply pool_ok_core; [|exact Hp]. symmetry. apply framed_run. intros c. unfold pool_dynamic_priority. frame.
  - exists s. split; [|done]. unfold update_priority_scheduler in Hupd.
    destruct (perform_scheduled_update _ _ _) as [[r' o]|]; [|done]. injection Hupd as _ <-. by eapply pool_ok_core; [|exact Hp].
Qed.


(** ** Properties *)
Section reachable.
Context (now0 : Moment) (config : PoolConfig) (store : StorageCacheLayer D C) (has_store : bool).
Context (Hmax : 0 ≤ max_pool_size config).
Abbreviation fresh := (new_with_kv_store now0 config store has_store).
Abbreviation oc := (orphan_config_of config).

Lemma fresh_core : core fresh = core (pool_fields now0 config store has_store).
Proof.
  unfold new_with_kv_store. apply framed_run. intros c. unfold load_persistent_min_fee_rate.
  apply preserves_bind; [apply preserves_rethrow, preserves_zoom; by intros p [s|] Hp|]. intros [r|]; frame.
Qed.
Lemma fresh_inv : pool_inv oc (max_pool_size config) fresh.
Proof.
  exists (OrphanManager_new oc). split; [|apply orphans_new_ok].
  - eapply pool_ok_core; [symmetry; apply fresh_core|]. split; try done; try (cbn; lia); try apply NoDup_nil_2. { by intros h e ?%not_elem_of_nil. }
    by intros h1 e1 h2 e2 i j ?%not_elem_of_nil.
  - apply f64_trunc_u64_nonneg.
Qed.
Lemma reached_inv p : rtc pool_step fresh p → pool_inv oc (max_pool_size config) p.
Proof.
  intros Hr. assert (Hi := fresh_inv). induction Hr as [|p q r Hs _ IH]; [done|]. apply IH. by eapply pool_step_inv.
Qed.

(** C3. No double spend in the pool: whatever was added, adopted, replaced, evicted, expired or
    confirmed, no two of its transactions spend outputs of one transaction. *)
Theorem pool_never_double_spends p (Hp : rtc pool_step fresh p) h1 h2 e1 e2 (Hget1 : pool_get h1 p = Some e1) (Hget2 : pool_get h2 p = Some e2)
    (Hne : h1 ≠ h2) i j (Hi : i ∈ inputs (pe_transaction e1)) (Hj : j ∈ inputs (pe_transaction e2)) :
  prev_tx i ≠ prev_tx j.
Proof.
  destruct (reached_inv p Hp) as (s & Hs & _). by apply (pk_free _ _ _ _ _ Hs h1 e1 h2 e2 i j (im_get_elem _ _ _ Hget1) (im_get_elem _ _ _ Hget2)).
Qed.

(** C32. The pool keeps to its limit. *)
Theorem pool_bounded p (Hp : rtc pool_step fresh p) :
  NoDup (pool_by_hash p).*1 ∧ pool_size p ≤ max_pool_size config ∧ orphan_len (orphan_manager p) ≤ max_orphans oc.
Proof.
  destruct (reached_inv p Hp) as (s & Hs & Hok & _ & Ec). split; [apply (pk_keys _ _ _ _ _ Hs)|]. split; [apply (pk_size _ _ _ _ _ Hs)|].
  rewrite (pk_orphans _ _ _ _ _ Hs), <- Ec. apply (oo_bound _ Hok).
Qed.

(** C18. Adoption never nests: in a reachable pool the addition of a transaction never calls
    itself, whatever the depth allowed, so one level is enough. *)
Theorem adoption_never_nests p (Hp : rtc pool_step fresh p) fuel readd now tx fee size :
  pool_add_transaction order serialized_size checksum (S fuel) now tx fee size p
  = add_body order serialized_size checksum readd now tx fee size p.
Proof. destruct (reached_inv p Hp) as (s & Hs & Hok). by eapply add_same. Qed.

(** C17. What an addition that succeeds has done: nothing else came in; either the transaction is
    an entry, and then every orphan that waited for one of its outputs is gone, or it is
    an orphan. *)
Theorem add_transaction_spec p (Hp : rtc pool_step fresh p) fuel now tx fee size q
    (Hrun : pool_add_transaction order serialized_size checksum fuel now tx fee size p = (Ok tt, q)) :
  let h := hash_bytes (id tx) in
  (∀ k, k ≠ h → is_Some (pool_get k q) → is_Some (pool_get k p))
  ∧ ((pool_get h q = Some (PoolEntry_new (secs now) tx fee size)
      ∧ ∀ k e i o, orphan_pool (orphan_manager p) !! k = Some e → outputs tx !! i = Some o →
          output_point tx i ∈ missing_inputs e → orphan_pool (orphan_manager q) !! k = None)
     ∨ ∃ missing, orphan_pool (orphan_manager q) !! h = Some (OrphanEntry_new (nanos now) tx missing size fee)).
Proof.
  intros h. destruct (reached_inv p Hp) as (s & Hs & Hok). destruct fuel as [|fuel]; [done|]. cbn [pool_add_transaction] in Hrun.
  set (K := λ k, is_Some (pool_get k p)). assert (HK : pool_ok K s (max_pool_size config) (max_pool_size config) p).
  { destruct Hs as [H1' Ha' H2' H3' Hf' H4' H5' H6' H7']. split; try done. intros k ([k' e] & -> & Hin)%list_elem_of_fmap.
    exists e. unfold pool_get. by apply im_get_keys. }
  assert (Hin : ∀ (K' : key → Prop) s' c k, pool_ok K' s' (max_pool_size config) c q → is_Some (pool_get k q) → K' k).
  { intros K' s' c k Hq [e Hk%im_get_elem]. apply (pk_among _ _ _ _ _ Hq). apply list_elem_of_fmap. by exists (k, e). }
  pose proof (add_ok oc (pool_add_transaction order serialized_size checksum fuel now) now K s _ tx fee size h Hok (hash_bytes_spec _) p HK) as Hr.
  rewrite Hrun in Hr. rewrite (pk_orphans _ _ _ _ _ HK).
  destruct Hr as [(s' & Hq & _ & Hv & Hg)|(s' & l & Hq & _ & Hl)]; (split; [intros k Hne Hk|]).
  - by destruct (Hin _ _ _ k Hq Hk).
  - left. split; [done|]. by rewrite (pk_orphans _ _ _ _ _ Hq).
  - by apply (Hin _ _ _ k Hq).
  - right. exists l. by rewrite (pk_orphans _ _ _ _ _ Hq).
Qed.

(** Of the hashes of a block, the transactions that are still in the pool. *)
Lemma candidates_sublist K om n cap p l : pool_ok K om n cap p →
  (λ tx, hash_bytes (id tx)) <$> candidate_transactions p l `sublist_of` l
  ∧ ∀ tx, tx ∈ candidate_transactions p l → claims (ig_engine (conflict_ordering p)) (hash_bytes (id tx)) tx.
Proof.
  intros Hp. unfold candidate_transactions. induction l as [|h l [IH1 IH2]]; cbn; [split; [done|by intros tx ?%not_elem_of_nil]|].
  destruct (pool_get h p) as [e|] eqn:Eg; cbn; [|by split; [constructor|]].
  destruct (pk_entries _ _ _ _ _ Hp h e (im_get_elem _ _ _ Eg)) as [Hh Hc].
  rewrite hash_bytes_spec in Hh. injection Hh as Hh. split; [rewrite Hh; by constructor|].
  intros tx [->|Htx]%elem_of_cons; [by rewrite Hh|by apply IH2].
Qed.

(** C11. A block candidate: the transactions of a canonical block that are in the pool.  It is
    refused exactly when one of them names an outpoint twice; otherwise no outpoint is
    spent twice in it. *)
Theorem block_candidate_spec p (Hp : rtc pool_step fresh p) now max :
  ∃ block, (build_block_canonical order (millis now) max (conflict_ordering p)).1 = Ok block
  ∧ let txs := candidate_transactions p (bb_transactions block) in
    (prepare_block_candidate order now max p).1 = (if bool_decide (Forall distinct_inputs txs) then Ok txs else Err spent_twice)
    ∧ ∀ l1 t1 l2 t2 l3 i j, txs = l1 ++ t1 :: l2 ++ t2 :: l3 → i ∈ inputs t1 → j ∈ inputs t2 → outpoint_key i ≠ outpoint_key j.
Proof.
  destruct (reached_inv p Hp) as (s & Hs & _). destruct (prepare_run now max p) as (block & s' & E & _ & El & Er).
  exists block. rewrite E, Er. split; [done|]. cbv zeta. cbn [fst]. set (txs := candidate_transactions p (bb_transactions block)).
  destruct (candidates_sublist _ _ _ _ p (bb_transactions block) Hs) as [Hsub Hcl]. fold txs in Hsub, Hcl.
  assert (Hnd : NoDup ((λ tx, hash_bytes (id tx)) <$> txs)).
  { eapply sublist_NoDup; [|exact Hsub]. rewrite El.
    apply (block_once order Horder), (pk_engine _ _ _ _ _ Hs). }
  assert (Hpair : ∀ l1 t1 l2 t2 i j, txs = l1 ++ t1 :: l2 → t2 ∈ l2 → i ∈ inputs t1 → j ∈ inputs t2 → outpoint_key i ≠ outpoint_key j).
  { intros l1 t1 l2 t2 i j Ht Hin2 Hi Hj Eo. assert (Ht1 : t1 ∈ txs) by (rewrite Ht; set_solver). assert (Ht2 : t2 ∈ txs) by (rewrite Ht; set_solver).
    pose proof (block_free order Horder (millis now) max _ (hash_bytes (id t1)) (hash_bytes (id t2)) t1 t2 i j (pk_engine _ _ _ _ _ Hs)) as Hx.
    rewrite <- El in Hx. assert (Hin : ∀ t, t ∈ txs → hash_bytes (id t) ∈ bb_transactions block).
    { intros t Ht'. eapply sublist_elem; [exact Hsub|]. apply list_elem_of_fmap. by exists t. }
    apply Hx; auto; [|unfold outpoint_key, claim_key in *; congruence]. intros Eh. rewrite Ht, fmap_app in Hnd.
    apply NoDup_app in Hnd as (_ & _ & Hnd). apply NoDup_cons in Hnd as [Hn _]. apply Hn. rewrite Eh. apply list_elem_of_fmap. by exists t2. }
  split; [|intros l1 t1 l2 t2 l3 i j Ht Hi Hj; apply (Hpair l1 t1 (l2 ++ t2 :: l3) t2 i j); [done|set_solver|done..]].
  assert (Ev : _verify_canonical_order txs = if bool_decide (Forall distinct_inputs txs) then Ok tt else Err spent_twice).
  { apply verify_order_run; [set_solver|set_solver|exact Hnd|exact Hpair]. }
  rewrite Ev. by destruct (bool_decide _).
Qed.

(** The rate read from the disk lands in the configuration; the filter that is asked about
    every transaction starts from the rate the node was started with. *)
Theorem persisted_rate_ignored rate s (Hrate : get_mempool_min_fee_rate store = (Ok (Some rate), s)) (Hstore : has_store = true) :
  min_fee_rate (pool_config fresh) = rate
  ∧ pool_fee_filter fresh = FeeFilter_new (secs now0) (min_fee_rate config) (dynamic_fee_bump_percent config).
Proof.
  subst has_store. unfold new_with_kv_store, load_persistent_min_fee_rate, rethrow, zoom, mbind, method_bind, with_store. cbn. by rewrite Hrate.
Qed.
End reachable.
End pool.

(** ** Witnesses *)
Definition sized_200 (tx : Transaction) : option Z := Some 200.
Definition no_checksum (tx : Transaction) : Z := 0.
Definition at_start : Moment := {| secs := 1000; millis := 1000000; nanos := 1000000000000; system := {| proc_stat := None; proc_meminfo := None |} |}.
Definition coin_tx (n : Z) (l : list TxInput) : Transaction :=
  {| id := hash_of n; inputs := l; outputs := [{| value := 1; pubkey_hash := hash_of 1 |}]; execution_payload := []; contract_address := None;
     gas_limit := 0; max_fee_per_gas := 0; chain_id := 1; locktime := 0 |}.
Definition from_coin (n : Z) : TxInput := {| prev_tx := hash_of n; index := 0; signature := []; pubkey := []; sighash_type := All |}.
(** Coins 5 and 6 are there. *)
Definition coin_value : UtxoValue := {| uv_amount := 1; uv_pubkey_hash := []; uv_script := []; uv_block_height := 1 |}.
Definition store_of_coins : MemLayer := (put_utxo (hash_bytes (hash_of 6)) 0 coin_value (put_utxo (hash_bytes (hash_of 5)) 0 coin_value mem_layer).2).2.
Definition first_pool : Pool content mem_cache := new_with_kv_store at_start default_pool_config store_of_coins true.
Definition added (tx : Transaction) (fee : Z) (p : Pool content mem_cache) : outcome string unit * Pool content mem_cache :=
  pool_add_transaction elements sized_200 no_checksum 1 at_start tx fee 200 p.
Lemma default_limit : 0 ≤ max_pool_size default_pool_config.
Proof. done. Qed.
Lemma elements_order (s : gset key) : elements s ≡ₚ elements s.
Proof. done. Qed.
Abbreviation reached := (rtc (pool_step elements sized_200 no_checksum) first_pool).
Lemma reached_added tx fee p : reached p → reached (added tx fee p).2.
Proof. intros Hp. eapply rtc_r; [exact Hp|]. apply pstep_add. Qed.

(** A payment, and one of its output that comes before it. *)
Definition parent : Transaction := coin_tx 50 [from_coin 5].
Definition child : Transaction := coin_tx 51 [from_coin 50].
Definition child_waits : Pool content mem_cache := (added child 100000 first_pool).2.
Definition parent_in : Pool content mem_cache := (added parent 100000 child_waits).2.
Definition coin_spent : Pool content mem_cache := (added (coin_tx 50 [from_coin 5]) 100000 first_pool).2.
Definition two_payments : Pool content mem_cache := (added (coin_tx 52 [from_coin 6]) 90000 coin_spent).2.

Lemma pool_never_double_spends_witness : prev_tx (from_coin 5) ≠ prev_tx (from_coin 6).
Proof.
  assert (Hp : reached two_payments) by (do 2 apply reached_added; apply rtc_refl).
  destruct (pool_get (hash_bytes (hash_of 50)) two_payments) as [e1|] eqn:E1; [|vm_compute in E1; discriminate E1].
  destruct (pool_get (hash_bytes (hash_of 52)) two_payments) as [e2|] eqn:E2; [|vm_compute in E2; discriminate E2].
  assert (T1 : pe_transaction <$> pool_get (hash_bytes (hash_of 50)) two_payments = Some (coin_tx 50 [from_coin 5])) by (vm_compute; reflexivity).
  assert (T2 : pe_transaction <$> pool_get (hash_bytes (hash_of 52)) two_payments = Some (coin_tx 52 [from_coin 6])) by (vm_compute; reflexivity).
  rewrite E1 in T1. rewrite E2 in T2. injection T1 as T1. injection T2 as T2.
  apply (pool_never_double_spends elements sized_200 no_checksum elements_order at_start default_pool_config store_of_coins true default_limit
    two_payments Hp _ _ e1 e2 E1 E2); [vm_compute; discriminate|rewrite T1; left|rewrite T2; left].
Defined.
Lemma pool_bounded_witness : pool_size two_payments = 2 ∧ pool_size two_payments ≤ 10000.
Proof.
  split; [vm_compute; reflexivity|]. assert (Hp : reached two_payments) by (do 2 apply reached_added; apply rtc_refl).
  destruct (pool_bounded elements sized_200 no_checksum elements_order at_start default_pool_config store_of_coins true default_limit
    two_payments Hp) as (_ & Hs & _). exact Hs.
Defined.
Lemma adoption_never_nests_witness :
  pool_add_transaction elements sized_200 no_checksum 11 at_start parent 100000 200 child_waits
  = pool_add_transaction elements sized_200 no_checksum 1 at_start parent 100000 200 child_waits.
Proof.
  assert (Hp : reached child_waits) by (apply reached_added, rtc_refl).
  exact (adoption_never_nests elements sized_200 no_checksum elements_order at_start default_pool_config store_of_coins true default_limit
    child_waits Hp 10 (pool_add_transaction elements sized_200 no_checksum 0 at_start) at_start parent 100000 200).
Defined.
(** The child is in the manager before, and nowhere after its parent has come in. *)
Lemma add_transaction_spec_witness :
  is_Some (orphan_pool (orphan_manager child_waits) !! hash_bytes (hash_of 51))
  ∧ orphan_pool (orphan_manager parent_in) !! hash_bytes (hash_of 51) = None ∧ pool_get (hash_bytes (hash_of 51)) parent_in = None.
Proof.
  assert (Hp : reached child_waits) by (apply reached_added, rtc_refl).
  assert (Hrun : pool_add_transaction elements sized_200 no_checksum 1 at_start parent 100000 200 child_waits = (Ok tt, parent_in)).
  { unfold parent_in, added. destruct (pool_add_transaction _ _ _ _ _ _ _ _ child_waits) as [r q] eqn:E.
    assert (Er : (added parent 100000 child_waits).1 = Ok tt) by (vm_compute; reflexivity). unfold added in Er. rewrite E in Er. by rewrite <- Er. }
  destruct (add_transaction_spec elements sized_200 no_checksum elements_order at_start default_pool_config store_of_coins true default_limit
    child_waits Hp 1 at_start parent 100000 200 parent_in Hrun) as [Hk [[_ Hs]|(m & Hm)]].
  - destruct (orphan_pool (orphan_manager child_waits) !! hash_bytes (hash_of 51)) as [e|] eqn:E; [|vm_compute in E; discriminate E].
    split; [done|]. split.
    + apply (Hs _ e 0%nat {| value := 1; pubkey_hash := hash_of 1 |} E); [reflexivity|].
      assert (Em : missing_inputs <$> orphan_pool (orphan_manager child_waits) !! hash_bytes (hash_of 51) = Some [output_point parent 0])
        by (vm_compute; reflexivity). rewrite E in Em. injection Em as ->. left.
    + destruct (pool_get (hash_bytes (hash_of 51)) parent_in) as [e'|] eqn:E'; [|done].
      assert (Hn : hash_bytes (hash_of 51) ≠ hash_bytes (id parent)) by (vm_compute; discriminate).
      destruct (Hk _ Hn (mk_is_Some _ _ E')) as [e'' E'']. vm_compute in E''. discriminate E''.
  - assert (Hn : orphan_pool (orphan_manager parent_in) !! hash_bytes (id parent) = None) by (vm_compute; reflexivity).
    rewrite Hn in Hm. discriminate Hm.
Defined.

Lemma block_candidate_spec_witness :
  (prepare_block_candidate elements at_start 1000000 two_payments).1 = Ok [coin_tx 52 [from_coin 6]; coin_tx 50 [from_coin 5]].
Proof.
  assert (Hp : reached two_payments) by (do 2 apply reached_added; apply rtc_refl).
  destruct (block_candidate_spec elements sized_200 no_checksum elements_order at_start default_pool_config store_of_coins true default_limit
    two_payments Hp at_start 1000000) as (block & E & Er & _).
  assert (Eb : match (build_block_canonical elements (millis at_start) 1000000 (conflict_ordering two_payments)).1 with
    | Ok b => candidate_transactions two_payments (bb_transactions b) | _ => [] end = [coin_tx 52 [from_coin 6]; coin_tx 50 [from_coin 5]])
    by (vm_compute; reflexivity).
  rewrite E in Eb. rewrite Er, Eb. vm_compute. reflexivity.
Defined.
Lemma persisted_rate_ignored_witness :
  let store := (put_mempool_min_fee_rate 77 mem_layer).2 in
  let p := new_with_kv_store at_start default_pool_config store true in
  min_fee_rate (pool_config p) = 77 ∧ current_min_fee (pool_fee_filter p) = 1.
Proof.
  intros store p. assert (E : get_mempool_min_fee_rate store = (Ok (Some 77), (get_mempool_min_fee_rate store).2)).
  { assert (Er : (get_mempool_min_fee_rate store).1 = Ok (Some 77)) by (vm_compute; reflexivity). rewrite <- Er. by destruct (get_mempool_min_fee_rate store). }
  destruct (persisted_rate_ignored at_start default_pool_config store true 77 _ E eq_refl) as [H1 H2].
  split; [exact H1|]. fold p in H2. rewrite H2. vm_compute. reflexivity.
Defined.

(** ** What goes wrong *)

(** A transaction with a coin that does not exist removes the one it outbids from the pool,
    and is then only an orphan itself. *)
Theorem unfunded_spend_evicts :
  let r := added (coin_tx 53 [from_coin 5; from_coin 9]) 1000000 coin_spent in
  pool_size coin_spent = 1 ∧ r.1 = Ok tt ∧ pool_size r.2 = 0.
Proof. vm_compute. done. Qed.
(** A transaction that spends one coin twice is valid and enters; from then on no block
    candidate is made. *)
Theorem repeated_input_blocks_candidates :
  let r := added (coin_tx 52 [from_coin 5; from_coin 5]) 100000 first_pool in
  r.1 = Ok tt ∧ pool_size r.2 = 1 ∧ (prepare_block_candidate elements at_start 1000000 r.2).1 = Err spent_twice.
Proof. vm_compute. done. Qed.
