(* ===== verification/Revalidation.v ===== *)
(** * The pool after a block

    klomang-node, [mempool/revalidation.rs]: the engine that goes through the pool when
    a block has arrived, drops what the block spent, and promotes orphans.  The
    validator of the engine looks at the store of the pool.  What a call of the pool
    returns is ignored where the code ignores it. *)

From Stdlib Require Import Init.Byte Floats.SpecFloat.
From stdpp Require Import gmap.
From S2P Require Import Prelude Crypto Transaction Dag Pow NodePrelude Status Storage MemoryStore StorageProofs PoolValidator F64 PriorityScheduler Tiers Selection Pool PoolProofs.

(** What a block says of the pool. *)
Record ConflictInfo := { block_tx_hashes : gset key; block_spent_utxos : gset (key * Z) }.

Inductive RevalidationResult := RR_StillValid | RR_NowInvalid | RR_OrphanResolved | RR_InBlock.
#[global] Instance RevalidationResult_eq_dec : EqDecision RevalidationResult.
Proof. solve_decision. Defined.

Record RevalidationStats := {
  total_revalidated : Z;
  still_valid : Z;
  removed_double_spent : Z;
  orphan_resolved : Z;
  in_block : Z
}.
Definition RevalidationStats_default : RevalidationStats :=
  {| total_revalidated := 0; still_valid := 0; removed_double_spent := 0; orphan_resolved := 0; in_block := 0 |}.
(** The counter of a result, and the total. *)
Definition tally (r : RevalidationResult) (s : RevalidationStats) : RevalidationStats :=
  let one x := if bool_decide (r = x) then 1 else 0 in
  {| total_revalidated := total_revalidated s;
     still_valid := wadd 64 (still_valid s) (one RR_StillValid);
     removed_double_spent := wadd 64 (removed_double_spent s) (one RR_NowInvalid);
     orphan_resolved := wadd 64 (orphan_resolved s) (one RR_OrphanResolved);
     in_block := wadd 64 (in_block s) (one RR_InBlock) |}.
Definition tally_total (s : RevalidationStats) : RevalidationStats :=
  {| total_revalidated := wadd 64 (total_revalidated s) 1; still_valid := still_valid s;
     removed_double_spent := removed_double_spent s; orphan_resolved := orphan_resolved s; in_block := in_block s |}.

Record RevalidationImpactAnalysis := {
  total_pool_size : Z;
  affected_count : Z;
  affected_percentage : f64;
  affected_fees : Z;
  block_transactions : Z
}.

(** [let _ = ..] and a call whose result is dropped *)
Definition ignoring {S E F A} (m : method S E A) : method S F unit := λ s,
  match m s with
  | (Panic x, s) => (Panic x, s)
  | (_, s) => (Ok tt, s)
  end.

Section conflicts.
Context `{Bincode}.

Definition input_point (i : TxInput) : key * Z := (hash_or_default (prev_tx i), index i).
Definition note_block_tx (c : ConflictInfo) (tx : Transaction) : ConflictInfo :=
  {| block_tx_hashes := {[ hash_or_default (id tx) ]} ∪ block_tx_hashes c;
     block_spent_utxos := foldl (λ s i, {[ input_point i ]} ∪ s) (block_spent_utxos c) (inputs tx) |}.
Definition from_block (block : BlockNode) : ConflictInfo :=
  foldl note_block_tx {| block_tx_hashes := ∅; block_spent_utxos := ∅ |} (transactions block).
Definition is_transaction_affected (c : ConflictInfo) (tx : Transaction) : bool :=
  existsb (λ i, bool_decide (input_point i ∈ block_spent_utxos c)) (inputs tx).
Definition get_affected_txs (c : ConflictInfo) (pool_entries : list PoolEntry) : list key :=
  (λ e, hash_or_default (id (pe_transaction e))) <$> filter (λ e, is_transaction_affected c (pe_transaction e) = true) pool_entries.
End conflicts.

(** ** The engine *)
Section engine.
Context {D : Type} {C : Type → Type} `{RocksDb D, LruCache C, Codec TransactionValue, Codec UtxoValue, Bincode}.
Abbreviation revalidating := (method (Pool D C) StorageError).

Definition revalidate_single_transaction (entry : PoolEntry) (conflict : ConflictInfo) : revalidating RevalidationResult :=
  let tx := pe_transaction entry in
  if bool_decide (hash_or_default (id tx) ∈ block_tx_hashes conflict) then mret RR_InBlock
  else if negb (is_transaction_affected conflict tx) then mret RR_StillValid
  else
    r ← zoom pool_store set_pool_store (validate_transaction tx);
    mret (match r with
          | VR_Valid => RR_StillValid
          | VR_MissingInputs _ => if bool_decide (pe_status entry = InOrphanPool) then RR_OrphanResolved else RR_NowInvalid
          | _ => RR_NowInvalid
          end).

Definition revalidate_affected (conflict : ConflictInfo) (stats : RevalidationStats) (tx_hash : key) : revalidating RevalidationStats :=
  pool ← get;
  match pool_get tx_hash pool with
  | None => mret stats
  | Some entry =>
      r ← revalidate_single_transaction entry conflict;
      _ ← match r with
          | RR_StillValid => mret tt
          | RR_NowInvalid => ignoring (pool_remove tx_hash)
          | RR_OrphanResolved => ignoring (set_status tx_hash Validated)
          | RR_InBlock => ignoring (set_status tx_hash InBlock)
          end;
      mret (tally r (tally_total stats))
  end.

(** [if let Ok(true) = ..] *)
Definition revalidate_orphan (stats : RevalidationStats) (entry : PoolEntry) : revalidating RevalidationStats := λ pool,
  match zoom pool_store set_pool_store (try_validate_orphan (pe_transaction entry)) pool with
  | (Ok true, pool) =>
      (_ ← ignoring (set_status (hash_or_default (id (pe_transaction entry))) Validated);
       mret (tally RR_OrphanResolved stats)) pool
  | (Panic x, pool) => (Panic x, pool)
  | (_, pool) => (Ok stats, pool)
  end.

Definition revalidate_on_block (new_block : BlockNode) : revalidating RevalidationStats :=
  let conflict_info := from_block new_block in
  pool ← get;
  stats ← fold_method (revalidate_affected conflict_info) RevalidationStats_default (get_affected_txs conflict_info (get_all pool));
  pool ← get;
  fold_method revalidate_orphan stats (get_orphans pool).

Definition analyze_pool_impact (new_block : BlockNode) (pool : Pool D C) : RevalidationImpactAnalysis :=
  let conflict_info := from_block new_block in
  let affected := get_affected_txs conflict_info (get_all pool) in
  let affected_count := Z.of_nat (length affected) in
  let total_count := Z.of_nat (length (get_all pool)) in
  {| total_pool_size := total_count; affected_count := affected_count;
     affected_percentage :=
       if 0 <? total_count then f64_mul (f64_div (f64_of_Z affected_count) (f64_of_Z total_count)) (f64_of_Z 100) else S754_zero false;
     affected_fees := wrap 64 (zsum (pe_total_fee <$> omap (λ h, pool_get h pool) affected));
     block_transactions := Z.of_nat (length (transactions new_block)) |}.
End engine.

(** ** Ordered maps *)
Lemma im_get_shift {V} h k (l : list (key * V)) : im_get k (im_shift_remove h l) = if decide (k = h) then None else im_get k l.
Proof.
  unfold im_shift_remove. induction l as [|[j w] l IH]; [by destruct (decide _)|].
  destruct (decide (j = h)) as [->|Hj].
  - rewrite filter_cons_False by (by intros []). rewrite IH. cbn. destruct (decide (k = h)) as [->|Hk]; [done|].
    by rewrite bool_decide_eq_false_2.
  - rewrite filter_cons_True by done. cbn. rewrite IH. case_bool_decide; [subst j; by rewrite decide_False|done].
Qed.
Lemma im_get_put {V} h k v (l : list (key * V)) : im_get k (im_insert h v l) = if decide (k = h) then Some v else im_get k l.
Proof.
  destruct (decide (k = h)) as [->|Hk]; [apply im_get_insert|]. induction l as [|[j w] l IH]; cbn.
  - by rewrite bool_decide_eq_false_2.
  - case_bool_decide as Ej; cbn; [|by rewrite IH]. subst j. by rewrite !bool_decide_eq_false_2.
Qed.

(** ** What a pass over the pool does *)
Section theorems.
Context {D : Type} {C : Type → Type} `{RocksDbLaws D, LruLaws C, CodecLaws UtxoValue, CodecLaws BlockValue, Codec DagNodeValue}.
Context `{Codec TransactionValue, !Bincode, !BincodeLaws}.
Implicit Types (p q : Pool D C) (d : D) (e : PoolEntry) (h : key).

(** Whether the database has the coins of a transaction. *)
Definition funded d (tx : Transaction) : bool :=
  match inputs tx with
  | [] => true
  | l => bool_decide (missing_of (StorageCacheLayer_new (C:=C) d) (enumerate l) = [])
  end.
(** The coins of the database can be read. *)
Definition readable d : Prop :=
  ∀ k, ∃ raw, rocks_get d CF_Utxo k = Ok raw ∧ ∀ b, raw = Some b → ∃ u : UtxoValue, of_bytes b = Ok u.

(** A pool whose store is the database [d], with its entries filed by hash. *)
Record settled d p : Prop := {
  sl_store : pool_has_store p = true;
  sl_coherent : coherent (cold_tier (resource_optimizer p));
  sl_db : cl_db (cold_tier (resource_optimizer p)) = d;
  sl_keys : NoDup (pool_by_hash p).*1;
  sl_filed : ∀ h e, (h, e) ∈ pool_by_hash p → bincode_hash (id (pe_transaction e)) = Some h
}.

Lemma check_inputs_total entries missing (s : StorageCacheLayer D C) :
  coherent s → readable (cl_db s) → ∃ r s', check_inputs missing entries s = (Ok r, s').
Proof.
  revert missing s; induction entries as [|x entries IH]; intros missing s Hs Hr; cbn [check_inputs]; [by eexists _, _|].
  unfold check_input, hash_to_bytes. rewrite hash_bytes_spec. unfold utxo_exists.
  destruct (get_utxo (hash_bytes (prev_tx x.2)) (index x.2) s) as [[u|err|x1] s1] eqn:E.
  - pose proof (get_utxo_reads _ _ _ _ _ Hs E) as (Hs1 & Hd & _).
    erewrite method_bind_run; [apply (IH _ s1); [done|by rewrite Hd]|].
    erewrite method_bind_run by done. erewrite method_bind_run; [reflexivity|]. erewrite method_bind_run by exact E. reflexivity.
  - exfalso. rewrite get_utxo_run in E. destruct (lru_peek _ _); [done|].
    destruct (Hr (make_utxo_key (hash_bytes (prev_tx x.2)) (index x.2))) as (raw & Eg & Hu). rewrite Eg in E. cbn in E.
    destruct raw as [raw|]; [|done]. destruct (Hu raw eq_refl) as [u Eu]. by rewrite Eu in E.
  - exfalso. rewrite get_utxo_run in E. destruct (lru_peek _ _); [done|].
    destruct (Hr (make_utxo_key (hash_bytes (prev_tx x.2)) (index x.2))) as (raw & Eg & Hu). rewrite Eg in E. cbn in E.
    destruct raw as [raw|]; [|done]. destruct (Hu raw eq_refl) as [u Eu]. by rewrite Eu in E.
Qed.

Lemma validator_run d tx p : readable d → settled d p →
  ∃ q, zoom pool_store set_pool_store (validate_transaction tx) p
         = (Ok (if funded d tx then VR_Valid else VR_MissingInputs (missing_of (StorageCacheLayer_new (C:=C) d) (enumerate (inputs tx)))), q)
  ∧ settled d q ∧ pool_by_hash q = pool_by_hash p.
Proof.
  intros Hr [Hst Hc Hd Hk Hf]. unfold zoom, pool_store, funded. rewrite Hst. unfold validate_transaction, is_coinbase.
  destruct (inputs tx) as [|i l] eqn:Ei.
  - eexists. split; [reflexivity|]. by split; [split|].
  - cbn [length Nat.eqb]. destruct (check_inputs_total (enumerate (i :: l)) [] (cold_tier (resource_optimizer p)) Hc) as (r & s' & E); [by rewrite Hd|].
    destruct (check_inputs_ok _ _ _ _ _ Hc E) as (-> & Hc' & Hd').
    eexists. split; [|split].
    + cbn. erewrite method_bind_run by exact E. cbn. unfold missing_of, stored. rewrite Hd. cbn.
      match goal with |- context [match ?m with [] => VR_Valid | _ => _ end] => destruct m eqn:Em end.
      * by rewrite bool_decide_eq_true_2.
      * by rewrite bool_decide_eq_false_2.
    + split; cbn; [done|done|congruence|done|done].
    + done.
Qed.

(** *** One entry *)
Definition advance_status (st : TransactionStatus) e : PoolEntry :=
  {| pe_transaction := pe_transaction e; pe_status := (transition_to st (pe_status e)).2; pe_arrival_time := pe_arrival_time e;
     pe_size_bytes := pe_size_bytes e; pe_total_fee := pe_total_fee e |}.

Lemma remove_settled d h p : settled d p →
  ∃ q, ignoring (F:=StorageError) (pool_remove h) p = (Ok tt, q) ∧ settled d q ∧ pool_by_hash q = im_shift_remove h (pool_by_hash p).
Proof.
  intros [Hst Hc Hd Hk Hf]. unfold ignoring, pool_remove. rewrite (method_bind_run get _ p p p) by done.
  destruct (pool_get h p) as [e|] eqn:Eg.
  - do 6 (erewrite method_bind_run by done). unfold warn, remove_from_disk, on_store, mbind, method_bind, catch, rethrow, zoom.
    unfold pool_store. cbn [pool_has_store set_memory_limiter set_deterministic_engine set_multi_dimensional_index
      set_priority_scheduler set_pool_orphans set_pool_by_hash]. rewrite Hst. eexists. split; [reflexivity|]. split; [|done].
    split; cbn; [done|done|done| |].
    + eapply sublist_NoDup; [exact Hk|]. apply fmap_sublist, sublist_filter.
    + intros k e' [_ Hin]%list_elem_of_filter. by apply Hf.
  - exists p. split; [done|]. split; [by split|]. by rewrite im_shift_remove_absent.
Qed.

Lemma set_status_settled d h st p e : settled d p → im_get h (pool_by_hash p) = Some e →
  ∃ q, ignoring (F:=StorageError) (set_status h st) p = (Ok tt, q) ∧ settled d q
  ∧ ∀ k, im_get k (pool_by_hash q) = if decide (k = h) then Some (advance_status st e) else im_get k (pool_by_hash p).
Proof.
  intros Hp He. assert (Hput : settled d (set_pool_by_hash (im_insert h (advance_status st e) (pool_by_hash p)) p)).
  { destruct Hp as [Hst Hc Hd Hk Hf]. split; cbn; [done|done|done|by apply im_insert_NoDup|].
    intros k e' [[-> ->]|Hin]%elem_of_im_insert; [|by apply Hf]. exact (Hf h e (im_get_elem _ _ _ He)). }
  unfold ignoring, set_status. rewrite (method_bind_run get _ p p p) by done. unfold pool_get. rewrite He.
  rewrite (method_bind_run (lift (ok_or (Some e) _)) _ p e p) by done. unfold advance_status in *.
  destruct (transition_to st (pe_status e)) as [[[]|err|x] st'] eqn:Et; cbn [snd] in *.
  - erewrite method_bind_run by done. eexists. split; [reflexivity|]. cbn [modify].
    destruct (_ && _); (split; [|intros k; apply im_get_put]); [|done]. by destruct Hput; split.
  - exists p. split; [done|]. split; [done|]. intros k. case_decide; [subst k|done].
    unfold transition_to in Et. destruct (can_transition_to _ _); [done|]. injection Et as _ <-. rewrite He. by destruct e.
  - by unfold transition_to in Et; destruct (can_transition_to _ _).
Qed.

(** What becomes of an entry that the block affects: decided by the engine, and carried
    out as far as its status allows. *)
Definition fate (c : ConflictInfo) d e : RevalidationResult :=
  if bool_decide (hash_or_default (id (pe_transaction e)) ∈ block_tx_hashes c) then RR_InBlock
  else if negb (is_transaction_affected c (pe_transaction e)) || funded d (pe_transaction e) then RR_StillValid
  else if bool_decide (pe_status e = InOrphanPool) then RR_OrphanResolved else RR_NowInvalid.
Definition carry (r : RevalidationResult) e : option PoolEntry :=
  match r with
  | RR_StillValid => Some e
  | RR_NowInvalid => None
  | RR_OrphanResolved => Some (advance_status Validated e)
  | RR_InBlock => Some (advance_status InBlock e)
  end.

Lemma single_run c d e p : readable d → settled d p →
  ∃ q, revalidate_single_transaction e c p = (Ok (fate c d e), q) ∧ settled d q ∧ pool_by_hash q = pool_by_hash p.
Proof.
  intros Hr Hp. unfold revalidate_single_transaction, fate. case_bool_decide; [by exists p|].
  destruct (is_transaction_affected c _); cbn [negb orb]; [|by exists p].
  destruct (validator_run d (pe_transaction e) p Hr Hp) as (q & E & Hq & Eq). erewrite method_bind_run by exact E.
  exists q. split; [|done]. by destruct (funded d _).
Qed.

Lemma affected_run c d stats h p : readable d → settled d p →
  ∃ stats' q, revalidate_affected c stats h p = (Ok stats', q) ∧ settled d q
  ∧ ∀ k, im_get k (pool_by_hash q)
         = if decide (k = h) then e ← im_get h (pool_by_hash p); carry (fate c d e) e else im_get k (pool_by_hash p).
Proof.
  intros Hr Hp. unfold revalidate_affected. rewrite (method_bind_run get _ p p p) by done. unfold pool_get.
  destruct (im_get h (pool_by_hash p)) as [e|] eqn:Ee.
  2: { exists stats, p. split; [done|]. split; [done|]. intros k. case_decide; [by subst|done]. }
  destruct (single_run c d e p Hr Hp) as (q & E & Hq & Eq). erewrite method_bind_run by exact E.
  assert (Hgo : ∃ q', (match fate c d e with
      | RR_StillValid => mret tt | RR_NowInvalid => ignoring (pool_remove h)
      | RR_OrphanResolved => ignoring (set_status h Validated) | RR_InBlock => ignoring (set_status h InBlock) end) q = (Ok (E:=StorageError) tt, q')
    ∧ settled d q' ∧ ∀ k, im_get k (pool_by_hash q') = if decide (k = h) then carry (fate c d e) e else im_get k (pool_by_hash p)).
  { rewrite <- Eq in Ee |- *. destruct (fate c d e); cbn [carry].
    - exists q. split; [done|]. split; [done|]. intros k. case_decide; [by subst|done].
    - destruct (remove_settled d h q Hq) as (q' & E' & Hq' & El). exists q'. split; [done|]. split; [done|].
      intros k. by rewrite El, im_get_shift.
    - by apply set_status_settled.
    - by apply set_status_settled. }
  destruct Hgo as (q' & E' & Hq' & Hk). exists (tally (fate c d e) (tally_total stats)), q'.
  split; [by erewrite method_bind_run by exact E'|]. by split.
Qed.

Lemma affected_pass c d l stats p : readable d → settled d p → NoDup l →
  ∃ stats' q, fold_method (revalidate_affected c) stats l p = (Ok stats', q) ∧ settled d q
  ∧ ∀ k, im_get k (pool_by_hash q)
         = if decide (k ∈ l) then e ← im_get k (pool_by_hash p); carry (fate c d e) e else im_get k (pool_by_hash p).
Proof.
  intros Hr. revert stats p; induction l as [|h l IH]; intros stats p Hp Hl; cbn [fold_method].
  { exists stats, p. split; [done|]. split; [done|]. intros k. by rewrite decide_False by apply not_elem_of_nil. }
  apply NoDup_cons in Hl as [Hh Hl]. destruct (affected_run c d stats h p Hr Hp) as (s1 & q & E & Hq & Hk).
  destruct (IH s1 q Hq Hl) as (s2 & q' & E' & Hq' & Hk'). exists s2, q'. split; [by erewrite method_bind_run by exact E|].
  split; [done|]. intros k. rewrite Hk', !Hk. destruct (decide (k = h)) as [->|Hne].
  - by rewrite decide_False, decide_True by (done || left).
  - by rewrite (decide_ext (k ∈ h :: l) (k ∈ l)) by (rewrite elem_of_cons; tauto).
Qed.

(** *** The orphans *)
Definition settle d e : PoolEntry := if funded d (pe_transaction e) then advance_status Validated e else e.

Lemma try_run d tx p : readable d → settled d p →
  ∃ q, zoom pool_store set_pool_store (try_validate_orphan tx) p = (Ok (E:=StorageError) (funded d tx), q)
  ∧ settled d q ∧ pool_by_hash q = pool_by_hash p.
Proof.
  intros Hr Hp. destruct (validator_run d tx p Hr Hp) as (q & E & Hq). exists q. split; [|exact Hq].
  unfold zoom in *. destruct (validate_transaction tx (pool_store p)) as [r o] eqn:Ev. injection E as -> <-.
  unfold try_validate_orphan. erewrite method_bind_run by exact Ev. by destruct (funded d tx).
Qed.

Lemma orphan_run d stats h e p : readable d → settled d p → bincode_hash (id (pe_transaction e)) = Some h →
  im_get h (pool_by_hash p) = Some e →
  ∃ stats' q, revalidate_orphan stats e p = (Ok stats', q) ∧ settled d q
  ∧ ∀ k, im_get k (pool_by_hash q) = if decide (k = h) then Some (settle d e) else im_get k (pool_by_hash p).
Proof.
  intros Hr Hp Hh He. unfold revalidate_orphan, hash_or_default. rewrite Hh. cbn [default from_option].
  destruct (try_run d (pe_transaction e) p Hr Hp) as (q & -> & Hq & Eq). rewrite <- Eq in He |- *.
  unfold settle. destruct (funded d (pe_transaction e)).
  - destruct (set_status_settled d h Validated _ e Hq He) as (q' & E' & Hq' & Hk).
    eexists _, q'. split; [by erewrite method_bind_run by exact E'|]. by split.
  - eexists _, q. split; [reflexivity|]. split; [done|]. intros k. case_decide; [by subst|done].
Qed.

Lemma orphan_pass d l stats p : readable d → settled d p → NoDup l.*1 →
  (∀ h e, (h, e) ∈ l → bincode_hash (id (pe_transaction e)) = Some h ∧ im_get h (pool_by_hash p) = Some e) →
  ∃ stats' q, fold_method revalidate_orphan stats l.*2 p = (Ok stats', q) ∧ settled d q
  ∧ ∀ k, im_get k (pool_by_hash q) = if decide (k ∈ l.*1) then settle d <$> im_get k (pool_by_hash p) else im_get k (pool_by_hash p).
Proof.
  intros Hr. revert stats p; induction l as [|[h e] l IH]; intros stats p Hp Hl Hin; cbn [fmap list_fmap fold_method fst snd].
  { exists stats, p. split; [done|]. split; [done|]. intros k. by rewrite decide_False by apply not_elem_of_nil. }
  cbn [fmap list_fmap fst] in Hl. apply NoDup_cons in Hl as [Hh Hl]. destruct (Hin h e ltac:(left)) as [Hhash He].
  destruct (orphan_run d stats h e p Hr Hp Hhash He) as (s1 & q & E & Hq & Hk).
  destruct (IH s1 q Hq Hl) as (s2 & q' & E' & Hq' & Hk').
  { intros k e' Hin'. destruct (Hin k e' ltac:(by right)) as [? Hk'']. split; [done|]. rewrite Hk, decide_False; [done|].
    intros ->. apply Hh, list_elem_of_fmap. by exists (h, e'). }
  exists s2, q'. split; [by erewrite method_bind_run by exact E|]. split; [done|].
  intros k. rewrite Hk', !Hk. destruct (decide (k = h)) as [->|Hne].
  - by rewrite decide_False, decide_True, He by (done || left).
  - by rewrite (decide_ext (k ∈ h :: l.*1) (k ∈ l.*1)) by (rewrite elem_of_cons; tauto).
Qed.

(** *** What the passes go over *)
Lemma filtered_values (P : PoolEntry → Prop) `{∀ e, Decision (P e)} (l : list (key * PoolEntry)) :
  filter P l.*2 = (filter (λ x, P x.2) l).*2.
Proof.
  induction l as [|[h e] l IH]; [done|]. cbn [fmap list_fmap snd]. rewrite !filter_cons. cbn [snd].
  destruct (decide (P e)); cbn [fmap list_fmap snd]; by rewrite IH.
Qed.
Lemma filed_hashes (l : list (key * PoolEntry)) : (∀ h e, (h, e) ∈ l → bincode_hash (id (pe_transaction e)) = Some h) →
  (λ e, hash_or_default (id (pe_transaction e))) <$> l.*2 = l.*1.
Proof.
  induction l as [|[h e] l IH]; intros Hl; [done|]. cbn. unfold hash_or_default at 1. rewrite (Hl h e) by left. cbn.
  f_equal. apply IH. intros. apply Hl. by right.
Qed.
Lemma affected_keys c p : (∀ h e, (h, e) ∈ pool_by_hash p → bincode_hash (id (pe_transaction e)) = Some h) →
  get_affected_txs c (get_all p) = (filter (λ x, is_transaction_affected c (pe_transaction x.2) = true) (pool_by_hash p)).*1.
Proof.
  intros Hf. unfold get_affected_txs, get_all. rewrite filtered_values. apply filed_hashes.
  intros h e [_ Hin]%list_elem_of_filter. by apply Hf.
Qed.
Lemma key_listed (P : PoolEntry → Prop) `{∀ x : key * PoolEntry, Decision (P x.2)} (l : list (key * PoolEntry)) k : NoDup l.*1 →
  k ∈ (filter (λ x, P x.2) l).*1 ↔ ∃ e, im_get k l = Some e ∧ P e.
Proof.
  intros Hl. rewrite list_elem_of_fmap. split.
  - intros ([h e] & -> & [HP Hin]%list_elem_of_filter). exists e. split; [by apply im_get_keys|done].
  - intros (e & He & HP). exists (k, e). split; [done|]. apply list_elem_of_filter. split; [done|by apply im_get_elem].
Qed.
Lemma filter_keys_NoDup (P : PoolEntry → Prop) `{∀ x : key * PoolEntry, Decision (P x.2)} (l : list (key * PoolEntry)) :
  NoDup l.*1 → NoDup (filter (λ x, P x.2) l).*1.
Proof. intros Hl. eapply sublist_NoDup; [exact Hl|]. apply fmap_sublist, sublist_filter. Qed.

(** The two passes on one entry. *)
Definition after_block (block : BlockNode) d e : option PoolEntry :=
  e ← (if is_transaction_affected (from_block block) (pe_transaction e) then carry (fate (from_block block) d e) e else Some e);
  Some (if bool_decide (pe_status e = InOrphanPool) then settle d e else e).

Lemma after_block_pass block d p (Hread : readable d) (Hp : settled d p) :
  ∃ stats q, revalidate_on_block block p = (Ok stats, q)
  ∧ ∀ h, im_get h (pool_by_hash q) = im_get h (pool_by_hash p) ≫= after_block block d.
Proof.
  unfold revalidate_on_block. rewrite (method_bind_run get _ p p p) by done. set (c := from_block block).
  rewrite affected_keys by apply (sl_filed d p Hp).
  destruct (affected_pass c d (filter (λ x, is_transaction_affected c (pe_transaction x.2) = true) (pool_by_hash p)).*1
    RevalidationStats_default p Hread Hp) as (s1 & q & E & Hq & Hk).
  { apply (filter_keys_NoDup (λ e, is_transaction_affected c (pe_transaction e) = true)), Hp. }
  erewrite method_bind_run by exact E. rewrite (method_bind_run get _ q q q) by done.
  unfold get_orphans, get_by_status, get_all. rewrite filtered_values.
  destruct (orphan_pass d (filter (λ x, pe_status x.2 = InOrphanPool) (pool_by_hash q)) s1 q Hread Hq) as (s2 & q' & E' & Hq' & Hk').
  { apply (filter_keys_NoDup (λ e, pe_status e = InOrphanPool)), Hq. }
  { intros h e [_ Hin]%list_elem_of_filter. split; [by apply (sl_filed d q Hq)|]. apply im_get_keys; [apply Hq|done]. }
  exists s2, q'. split; [exact E'|]. intros h.
  assert (Hfirst : im_get h (pool_by_hash q) = e ← im_get h (pool_by_hash p);
      (if is_transaction_affected c (pe_transaction e) then carry (fate c d e) e else Some e)).
  { rewrite Hk. destruct (decide _) as [Hin|Hout].
    - apply (key_listed (λ e, is_transaction_affected c (pe_transaction e) = true)) in Hin as (e & -> & Ha); [|apply Hp]. cbn. by rewrite Ha.
    - destruct (im_get h (pool_by_hash p)) as [e|] eqn:Ee; [|done]. cbn. destruct (is_transaction_affected c _) eqn:Ea; [|done].
      exfalso. apply Hout. apply (key_listed (λ e, is_transaction_affected c (pe_transaction e) = true)); [apply Hp|eauto]. }
  unfold after_block. fold c. rewrite Hk'.
  destruct (im_get h (pool_by_hash p)) as [e|]; cbn [mbind option_bind] in Hfirst |- *.
  2: { rewrite Hfirst. by destruct (decide _). }
  destruct (if is_transaction_affected c (pe_transaction e) then carry (fate c d e) e else Some e) as [e'|].
  2: { rewrite Hfirst. by destruct (decide _). }
  cbn [mbind option_bind]. destruct (decide _) as [Hin|Hout].
  - apply (key_listed (λ e, pe_status e = InOrphanPool)) in Hin as (e1 & E1 & Hs); [|apply Hq]. rewrite Hfirst in E1 |- *.
    injection E1 as <-. by rewrite bool_decide_eq_true_2.
  - rewrite Hfirst, bool_decide_eq_false_2; [done|]. intros Hs. apply Hout.
    apply (key_listed (λ e, pe_status e = InOrphanPool)); [apply Hq|eauto].
Qed.

(** C38. When the coins can be read, revalidation after a block returns, and does to every
    entry of the pool, by itself, what the block and the coins in the database say:
    untouched unless it shares an outpoint with the block or waits as an orphan. *)
Theorem revalidate_on_block_spec block d p (Hread : readable d) (Hp : settled d p) :
  ∃ stats q, revalidate_on_block block p = (Ok stats, q)
  ∧ ∀ h, im_get h (pool_by_hash q) = im_get h (pool_by_hash p) ≫= after_block block d.
Proof. exact (after_block_pass block d p Hread Hp). Qed.

(** *** What this means *)

(** A transaction that the block contains stays in the pool: one that was added and
    not validated keeps even its status, since the transition is refused. *)
Theorem confirmed_stays_pending block d p h e (Hread : readable d) (Hp : settled d p) (Hget : pool_get h p = Some e)
    (Hpending : pe_status e = Pending) (Hin : hash_or_default (id (pe_transaction e)) ∈ block_tx_hashes (from_block block)) :
  ∃ stats q, revalidate_on_block block p = (Ok stats, q) ∧ pool_get h q = Some e.
Proof.
  destruct (after_block_pass block d p Hread Hp) as (stats & q & E & Hk). exists stats, q. split; [exact E|].
  unfold pool_get in *. rewrite Hk, Hget. cbn [mbind option_bind]. unfold after_block, fate. rewrite bool_decide_eq_true_2 by exact Hin.
  assert (advance_status InBlock e = e) as Ea by (destruct e; cbn in Hpending; by subst).
  cbn [carry]. rewrite Ea. destruct (is_transaction_affected _ _); cbn [mbind option_bind]; by rewrite Hpending.
Qed.

(** An orphan whose coin the block has spent, so that the database does not have it, is
    promoted. *)
Theorem orphan_of_spent_coin_promoted block d p h e (Hread : readable d) (Hp : settled d p) (Hget : pool_get h p = Some e)
    (Horphan : pe_status e = InOrphanPool) (Hout : hash_or_default (id (pe_transaction e)) ∉ block_tx_hashes (from_block block))
    (Hspent : is_transaction_affected (from_block block) (pe_transaction e) = true) (Hgone : funded d (pe_transaction e) = false) :
  ∃ stats q, revalidate_on_block block p = (Ok stats, q) ∧ pe_status <$> pool_get h q = Some Validated.
Proof.
  destruct (after_block_pass block d p Hread Hp) as (stats & q & E & Hk). exists stats, q. split; [exact E|].
  unfold pool_get in *. rewrite Hk, Hget. cbn [mbind option_bind]. unfold after_block, fate.
  rewrite bool_decide_eq_false_2 by exact Hout. rewrite Hspent, Hgone. cbn [negb orb].
  rewrite bool_decide_eq_true_2 by exact Horphan. cbn [carry mbind option_bind]. unfold advance_status. by rewrite Horphan.
Qed.
End theorems.

(** ** Witnesses *)
Section examples.
Definition pooled (st : TransactionStatus) (tx : Transaction) : Pool content mem_cache :=
  set_pool_by_hash [(hash_bytes (id tx), {| pe_transaction := tx; pe_status := st; pe_arrival_time := 0; pe_size_bytes := 200; pe_total_fee := 1000 |})]
    (pool_fields at_start default_pool_config mem_layer true).
Definition block_with (txs : list Transaction) : BlockNode :=
  {| header := header (Dag.sample_block 1 []); children := ∅; selected_parent := None; blue_set := ∅; red_set := ∅; blue_score := 0; transactions := txs |}.
Definition payment : Transaction := coin_tx 50 [from_coin 5].
Definition rival : Transaction := coin_tx 60 [from_coin 5].

Lemma empty_readable : readable (∅ : content).
Proof. intros k. exists None. by split. Qed.
Lemma pooled_settled st tx : settled ∅ (pooled st tx).
Proof.
  split; cbn [pooled set_pool_by_hash pool_by_hash].
  - reflexivity.
  - apply (steps_coherent (∅ : content)), rtc_refl.
  - reflexivity.
  - apply NoDup_singleton.
  - by intros h e [= -> ->]%list_elem_of_singleton.
Qed.

(** The block takes the coin of the payment: it leaves the pool. *)
Lemma revalidate_on_block_spec_witness :
  ∃ stats q, revalidate_on_block (block_with [rival]) (pooled Pending payment) = (Ok stats, q)
  ∧ im_get (hash_bytes (id payment)) (pool_by_hash q) = None.
Proof.
  destruct (revalidate_on_block_spec (block_with [rival]) (∅ : content) (pooled Pending payment) empty_readable (pooled_settled _ _))
    as (stats & q & E & Hk).
  exists stats, q. split; [exact E|]. rewrite Hk. vm_compute. reflexivity.
Defined.
Lemma confirmed_stays_pending_witness :
  ∃ stats q, revalidate_on_block (block_with [payment]) (pooled Pending payment) = (Ok stats, q)
  ∧ pe_status <$> pool_get (hash_bytes (id payment)) q = Some Pending.
Proof.
  destruct (pool_get (hash_bytes (id payment)) (pooled Pending payment)) as [e|] eqn:Eg; [|exfalso; revert Eg; vm_compute; discriminate].
  assert (Ee : e = {| pe_transaction := payment; pe_status := Pending; pe_arrival_time := 0; pe_size_bytes := 200; pe_total_fee := 1000 |}).
  { unfold pool_get, pooled in Eg. cbn [pool_by_hash set_pool_by_hash im_get] in Eg. rewrite bool_decide_eq_true_2 in Eg by done. by injection Eg. }
  destruct (confirmed_stays_pending (block_with [payment]) (∅ : content) (pooled Pending payment) _ e empty_readable (pooled_settled _ _) Eg)
    as (stats & q & E & Hk); [by rewrite Ee|rewrite Ee; apply (bool_decide_unpack _); vm_compute; exact I|].
  exists stats, q. split; [exact E|]. rewrite Hk, Ee. reflexivity.
Defined.
Lemma orphan_of_spent_coin_promoted_witness :
  ∃ stats q, revalidate_on_block (block_with [rival]) (pooled InOrphanPool payment) = (Ok stats, q)
  ∧ pe_status <$> pool_get (hash_bytes (id payment)) q = Some Validated.
Proof.
  destruct (pool_get (hash_bytes (id payment)) (pooled InOrphanPool payment)) as [e|] eqn:Eg; [|exfalso; revert Eg; vm_compute; discriminate].
  assert (Ee : e = {| pe_transaction := payment; pe_status := InOrphanPool; pe_arrival_time := 0; pe_size_bytes := 200; pe_total_fee := 1000 |}).
  { unfold pool_get, pooled in Eg. cbn [pool_by_hash set_pool_by_hash im_get] in Eg. rewrite bool_decide_eq_true_2 in Eg by done. by injection Eg. }
  apply (orphan_of_spent_coin_promoted (block_with [rival]) (∅ : content) (pooled InOrphanPool payment) _ e empty_readable (pooled_settled _ _) Eg);
    rewrite Ee; [reflexivity|apply (bool_decide_unpack _); vm_compute; exact I|vm_compute; reflexivity|vm_compute; reflexivity].
Defined.
End examples.
