(* ===== verification/Ownership.v ===== *)
(** * The pool under its claims

    klomang-node, [mempool/ownership.rs]: the manager that puts a transaction into the
    pool and claims its outpoints in the tracker of UtxoTracker.v.

    [fuel] is that of the addition to the pool; [times] gives the clock readings of a
    registration.  The reference to the storage is never used by the code. *)

From Stdlib Require Import Init.Byte Floats.SpecFloat.
From stdpp Require Import gmap.
From S2P Require Import Prelude Crypto Transaction NodePrelude Status Storage MemoryStore PriorityScheduler Tiers Selection Pool PoolProofs UtxoTracker.

Inductive OwnershipError :=
| Conflict (e : UtxoConflictError)
| OwnershipStorage (s : string)
| PoolError (s : string)
| InvalidTransaction (s : string)
| RbfFailed (s : string).
#[global] Instance OwnershipError_eq_dec : EqDecision OwnershipError.
Proof. solve_decision. Defined.

Record TransactionAddedInfo := { tx_added : bool; info_replacements : Z; claimed_outpoints : list string }.

Section manager.
Context {D : Type} {C : Type → Type} `{RocksDb D, LruCache C, Codec TransactionValue, Codec UtxoValue, Bincode}.
Context (order : gset key → list key) (serialized_size : Transaction → option Z) (checksum : Transaction → Z).

Record Ownership := { owned_pool : Pool D C; owned_tracker : UtxoTracker }.
Definition set_owned_pool (p : Pool D C) (o : Ownership) : Ownership := {| owned_pool := p; owned_tracker := owned_tracker o |}.
Definition set_owned_tracker (t : UtxoTracker) (o : Ownership) : Ownership := {| owned_pool := owned_pool o; owned_tracker := t |}.
Definition Ownership_new (pool : Pool D C) : Ownership := {| owned_pool := pool; owned_tracker := UtxoTracker_new |}.

Abbreviation owning := (method Ownership OwnershipError).
Definition on_pool {A} (m : method (Pool D C) string A) : owning A := rethrow PoolError (zoom owned_pool set_owned_pool m).
Definition on_tracker {A} (m : method UtxoTracker UtxoConflictError A) : owning A := rethrow Conflict (zoom owned_tracker set_owned_tracker m).

(** One turn of the loop over the conflicts. *)
Definition replace_conflict (fee : Z) (rbf_count : Z) (conflict_outpoint : ClaimPoint) : owning Z :=
  self ← get;
  match get_claiming_transaction (owned_tracker self) conflict_outpoint with
  | None => mret rbf_count
  | Some lock =>
      if claiming_fee lock <? fee then
        removed ← on_pool (pool_remove (claimed_by lock));
        match removed with
        | None => throw (PoolError "Failed to remove conflicting transaction")
        | Some _ =>
            _ ← on_tracker (release_claims (claimed_by lock));
            _ ← modify (λ o, set_owned_tracker (record_rbf_replacement (owned_tracker o)) o);
            mret (wadd 32 rbf_count 1)
        end
      else throw (Conflict (UtxoAlreadyClaimed (to_string conflict_outpoint) (claimed_by lock) (claiming_fee lock) fee))
  end.

Definition add_transaction_with_ownership (fuel : nat) (now : Moment) (times : nat → Z) (tx : Transaction) (fee size_bytes : Z) :
    owning TransactionAddedInfo :=
  tx_hash ← lift (ok_or (bincode_hash (id tx)) (InvalidTransaction "Tx serialization: {}"));
  self ← get;
  conflicts ← lift (map_err Conflict (check_conflicts (owned_tracker self) tx));
  rbf_count ← fold_method (replace_conflict fee) 0 conflicts;
  _ ← on_tracker (register_claims tx fee times);
  _ ← on_pool (pool_add_transaction order serialized_size checksum fuel now tx fee size_bytes);
  self ← get;
  mret {| tx_added := true; info_replacements := rbf_count;
          claimed_outpoints := default [] (get_transaction_claims (owned_tracker self) tx_hash) |}.

Definition add_transaction_unchecked (fuel : nat) (now : Moment) (times : nat → Z) (tx : Transaction) (fee size_bytes : Z) : owning unit :=
  _ ← on_tracker (register_claims tx fee times);
  on_pool (pool_add_transaction order serialized_size checksum fuel now tx fee size_bytes).




(** [release_claims(..).is_ok()], and then the transaction leaves the pool. *)
Definition sync_one (released_count : Z) (tx_hash : key) : owning Z := λ o,
  match on_tracker (release_claims tx_hash) o with
  | (Ok _, o) => catch (on_pool (pool_remove tx_hash)) (λ _, mret (wadd 32 released_count 1)) (λ _, mret (wadd 32 released_count 1)) o
  | (Err _, o) => (Ok released_count, o)
  | (Panic x, o) => (Panic x, o)
  end.

Definition is_outpoint_available (o : Ownership) (outpoint : ClaimPoint) : bool := negb (is_claimed (owned_tracker o) outpoint).
Definition owner_has_conflicts (o : Ownership) (tx : Transaction) : outcome OwnershipError bool :=
  conflicts ← map_err Conflict (check_conflicts (owned_tracker o) tx); Ok (match conflicts with [] => false | _ => true end).
Definition owner_transaction_claims (o : Ownership) (tx_hash : key) : list string :=
  default [] (get_transaction_claims (owned_tracker o) tx_hash).
Definition get_conflict_stats (o : Ownership) : ConflictStats := stats (owned_tracker o).
Definition get_pool_snapshot (o : Ownership) : list PoolEntry := get_all (owned_pool o).
Definition verify_inputs_available (tx : Transaction) : outcome OwnershipError bool :=
  fold_outcome (λ (b : bool) i,
    if b then h ← ok_or (bincode_hash (prev_tx i)) (InvalidTransaction "Input {} serialization: {}"); Ok (negb (bool_decide (h = [])))
    else Ok false) true (inputs tx).
Definition get_transaction_with_context (o : Ownership) (tx_hash : key) : option (PoolEntry * list string) :=
  entry ← snd <$> list_find (λ e, bincode_hash (id (pe_transaction e)) = Some tx_hash) (get_all (owned_pool o));
  Some (entry, default [] (get_transaction_claims (owned_tracker o) tx_hash)).

Record ConflictAnalysis := {
  total_transactions : Z;
  transactions_with_claims : Z;
  unique_outpoints_claimed : Z;
  rbf_replacements_lifetime : Z;
  total_conflicts : Z
}.
Definition analyze_conflicts (o : Ownership) : ConflictAnalysis :=
  let groups := filter (λ l, l ≠ []) ((λ e, owner_transaction_claims o (default [] (bincode_hash (id (pe_transaction e))))) <$> get_all (owned_pool o)) in
  {| total_transactions := Z.of_nat (length (get_all (owned_pool o))); transactions_with_claims := Z.of_nat (length groups);
     unique_outpoints_claimed := Z.of_nat (size (list_to_set (concat groups) : gset string));
     rbf_replacements_lifetime := rbf_replacements (stats (owned_tracker o));
     total_conflicts := conflicts_detected (stats (owned_tracker o)) |}.
End manager.

(** ** Theorems *)
Section theorems.
Context {D : Type} {C : Type → Type} `{RocksDb D, LruCache C, Codec TransactionValue, Codec UtxoValue, !Bincode, !BincodeLaws}.
Context (order : gset key → list key) (serialized_size : Transaction → option Z) (checksum : Transaction → Z).
Abbreviation owner := (Ownership (D:=D) (C:=C)).
Abbreviation add := (add_transaction_with_ownership (D:=D) (C:=C) order serialized_size checksum).
Implicit Types (o : owner) (t : UtxoTracker) (tx : Transaction) (fee : Z).

Lemma on_pool_run {A} (m : method (Pool D C) string A) o :
  on_pool m o = (map_err PoolError (m (owned_pool o)).1, set_owned_pool (m (owned_pool o)).2 o).
Proof. unfold on_pool, rethrow, zoom. by destruct (m (owned_pool o)) as [[a|e|x] p]. Qed.
Lemma on_tracker_run {A} (m : method UtxoTracker UtxoConflictError A) o :
  on_tracker m o = (map_err Conflict (m (owned_tracker o)).1, set_owned_tracker (m (owned_tracker o)).2 o).
Proof. unfold on_tracker, rethrow, zoom. by destruct (m (owned_tracker o)) as [[a|e|x] t]. Qed.
Lemma owner_eta o : {| owned_pool := owned_pool o; owned_tracker := owned_tracker o |} = o.
Proof. by destruct o. Qed.

(** *** The conflicts of a transaction *)
Definition input_claim (i : TxInput) : ClaimPoint := {| tx_hash := hash_bytes (prev_tx i); point_index := index i |}.
Lemma check_conflicts_run t tx :
  check_conflicts t tx = Ok (input_claim <$> filter (λ i, is_Some (claims t !! key_of i)) (inputs tx)).
Proof.
  unfold check_conflicts. set (f := λ conflicts input, _).
  enough (Hf : ∀ l acc, fold_outcome f acc l = Ok (acc ++ (input_claim <$> filter (λ i, is_Some (claims t !! key_of i)) l))) by apply Hf.
  intros l. induction l as [|i l IH]; intros acc; cbn [fold_outcome]; [by rewrite app_nil_r|].
  assert (Ef : f acc i = Ok (if is_claimed t (input_claim i) then acc ++ [input_claim i] else acc)).
  { unfold f. by rewrite hash_bytes_spec. }
  rewrite Ef. cbn [mbind outcome_bind]. rewrite IH, filter_cons. unfold is_claimed. fold (key_of i).
  change (to_string (input_claim i)) with (key_of i). case_bool_decide as Hc.
  - rewrite decide_True by done. cbn. by rewrite <- app_assoc.
  - by rewrite decide_False.
Qed.

(** *** Claims stay exclusive *)
Section universe.
Context (U : Transaction → Prop) (U_ids : ∀ t t' : Transaction, U t → U t' → id t = id t' → inputs t = inputs t').
Definition shrinks t t' : Prop := ∀ k lock, claims t' !! k = Some lock → claims t !! k = Some lock.

Lemma shrinks_refl t : shrinks t t.
Proof. by intros k lock. Qed.
#[local] Hint Resolve shrinks_refl : core.









(** What releases, registrations and the count of replacements preserve, every call does. *)
Section invariant.
Context (P : UtxoTracker → Prop) (P_release : ∀ h t, P t → P (release_claims h t).2)
  (P_register : ∀ tx fee times t, U tx → P t → P (register_claims tx fee times t).2)
  (P_count : ∀ t, P t → P (record_rbf_replacement t)).
Abbreviation kept := (preserves (λ o : owner, P (owned_tracker o))).

Lemma kept_pool {A} (m : method (Pool D C) string A) : kept (on_pool m).
Proof. intros o Ho. by rewrite on_pool_run. Qed.
Lemma kept_release h : kept (on_tracker (release_claims h)).
Proof. intros o Ho. rewrite on_tracker_run. by apply P_release. Qed.
Lemma kept_register tx fee times : U tx → kept (on_tracker (register_claims tx fee times)).
Proof. intros Hu o Ho. rewrite on_tracker_run. by apply P_register. Qed.
#[local] Hint Resolve kept_pool kept_release kept_register : keeps.

Lemma kept_replace fee n p : kept (replace_conflict fee n p).
Proof. unfold replace_conflict. keeps. intros o Ho. by apply P_count. Qed.
Lemma kept_sync n h : kept (sync_one n h).
Proof.
  intros o Ho. unfold sync_one. pose proof (kept_release h o Ho) as Ht.
  destruct (on_tracker (release_claims h) o) as [[[]|e|x] o1]; [|done|done].
  unfold catch. rewrite on_pool_run. by destruct (pool_remove h (owned_pool o1)) as [[a|e|x] q].
Qed.
#[local] Hint Resolve kept_replace kept_sync preserves_fold_method : keeps.

End invariant.
End universe.


(** *** A claim without its transaction *)
Lemma remove_absent h o : pool_get h (owned_pool o) = None → on_pool (pool_remove h) o = (Ok None, o).
Proof.
  intros Hn. rewrite on_pool_run. unfold pool_remove. rewrite (method_bind_run get _ _ (owned_pool o) (owned_pool o)) by done.
  rewrite Hn. cbn. unfold set_owned_pool. by rewrite owner_eta.
Qed.

Lemma stuck_conflict fee n p lock o : claims (owned_tracker o) !! to_string p = Some lock →
  pool_get (claimed_by lock) (owned_pool o) = None → ∃ e, replace_conflict fee n p o = (Err e, o).
Proof.
  intros Hl Hn. unfold replace_conflict. rewrite (method_bind_run get _ o o o) by done.
  unfold get_claiming_transaction. rewrite Hl. destruct (claiming_fee lock <? fee); [|by eexists].
  erewrite method_bind_run by by apply remove_absent. by eexists.
Qed.

Lemma stuck_addition fuel now times tx fee size o :
  (∃ i, i ∈ inputs tx ∧ is_Some (claims (owned_tracker o) !! key_of i)) →
  (∀ i lock, i ∈ inputs tx → claims (owned_tracker o) !! key_of i = Some lock → pool_get (claimed_by lock) (owned_pool o) = None) →
  ∃ e, add fuel now times tx fee size o = (Err e, o).
Proof.
  intros (i & Hi & Hsome) Hgone. unfold add_transaction_with_ownership. rewrite hash_bytes_spec.
  rewrite (method_bind_run (lift _) _ o (hash_bytes (id tx)) o) by done. rewrite (method_bind_run get _ o o o) by done.
  rewrite check_conflicts_run. set (l := filter _ _). assert (Hil : i ∈ l) by by apply list_elem_of_filter.
  assert (Hall : ∀ j, j ∈ l → j ∈ inputs tx ∧ is_Some (claims (owned_tracker o) !! key_of j)).
  { intros j Hj. apply list_elem_of_filter in Hj. tauto. }
  clearbody l. destruct l as [|j l]; [by apply not_elem_of_nil in Hil|]. destruct (Hall j ltac:(left)) as [Hj [lock Hlock]].
  rewrite (method_bind_run (lift _) _ o (input_claim <$> j :: l) o) by done.
  destruct (stuck_conflict fee 0 (input_claim j) lock o Hlock (Hgone j lock Hj Hlock)) as [e Ee].
  exists e. cbn [fmap list_fmap fold_method]. erewrite method_bind_stop; [reflexivity|].
  by erewrite method_bind_stop by exact Ee.
Qed.

Lemma unclaimed_registration fuel now times tx fee size o e p :
  check_conflicts (owned_tracker o) tx = Ok [] →
  pool_add_transaction order serialized_size checksum fuel now tx fee size (owned_pool o) = (Err e, p) →
  ∃ t, add fuel now times tx fee size o = (Err (PoolError e), {| owned_pool := p; owned_tracker := t |})
  ∧ ∀ k, if bool_decide (k ∈ keys_of (inputs tx))
         then ∃ time, claims t !! k = Some {| claimed_by := hash_bytes (id tx); claiming_fee := fee; lock_time := time |}
         else claims t !! k = claims (owned_tracker o) !! k.
Proof.
  intros Hfree Hadd. unfold add_transaction_with_ownership. rewrite hash_bytes_spec.
  rewrite (method_bind_run (lift _) _ o (hash_bytes (id tx)) o) by done. rewrite (method_bind_run get _ o o o) by done.
  rewrite Hfree. rewrite (method_bind_run (lift _) _ o [] o) by done. cbn [fold_method].
  rewrite (method_bind_run (mret _) _ o 0 o) by done.
  pose proof (register_run tx fee times (owned_tracker o)) as Hr. unfold mbind, method_bind. rewrite on_tracker_run.
  destruct (register_claims tx fee times (owned_tracker o)) as [[[]|err|x] t]; [| |done].
  - destruct Hr as (_ & Hc & _). cbn [fst snd map_err]. rewrite on_pool_run. cbn [owned_pool set_owned_tracker]. rewrite Hadd.
    exists t. split; [reflexivity|]. intros k. pose proof (lookup_insert_claims (hash_bytes (id tx)) fee times (keys_of (inputs tx))
      (erase (keys_of (inputs tx)) (claims (owned_tracker o))) k) as Hk. rewrite <- Hc in Hk. case_bool_decide as Hin.
    + destruct Hk as (j & _ & ->). by eexists.
    + by rewrite Hk, lookup_erase, bool_decide_eq_false_2.
  - exfalso. destruct Hr as (_ & pre & i & post & lock & Hi & _ & Hl & _). apply check_conflicts_nil in Hfree.
    rewrite Hi, Forall_app, Forall_cons in Hfree. destruct Hfree as (_ & Hn & _). congruence.
Qed.

(** A transaction that the pool refuses keeps its claims: from then on the manager
    refuses every transaction that spends one of its outpoints, whatever the fee,
    and the refusal changes nothing. *)
Theorem refused_insertion_locks fuel now times tx fee size o e p
    (Hfree : check_conflicts (owned_tracker o) tx = Ok [])
    (Hrefused : pool_add_transaction order serialized_size checksum fuel now tx fee size (owned_pool o) = (Err e, p))
    (Habsent : pool_get (hash_bytes (id tx)) p = None) :
  ∃ o', add fuel now times tx fee size o = (Err (PoolError e), o')
  ∧ ∀ rival (fuel' : nat) now' times' fee' size',
      (∃ i, i ∈ inputs rival ∧ key_of i ∈ keys_of (inputs tx)) →
      (∀ i, i ∈ inputs rival → key_of i ∈ keys_of (inputs tx) ∨ claims (owned_tracker o) !! key_of i = None) →
      ∃ e', add fuel' now' times' rival fee' size' o' = (Err e', o').
Proof.
  destruct (unclaimed_registration fuel now times tx fee size o e p Hfree Hrefused) as (t & E & Ht).
  eexists. split; [exact E|]. intros rival fuel' now' times' fee' size' (i & Hi & Hk) Hall. apply stuck_addition; cbn [owned_tracker owned_pool].
  - exists i. split; [done|]. specialize (Ht (key_of i)). rewrite bool_decide_eq_true_2 in Ht by done. destruct Ht as [time ->]. eauto.
  - intros j lock Hj Hl. specialize (Ht (key_of j)). case_bool_decide as Hin.
    + destruct Ht as [time Ht]. rewrite Ht in Hl. by injection Hl as <-.
    + destruct (Hall j Hj) as [?|Hn]; [done|]. congruence.
Qed.
End theorems.

(** ** Witnesses *)
Section examples.
Definition clockless (n : nat) : Z := 100.
Definition owner_at_start : Ownership := Ownership_new first_pool.
Definition own_add (tx : Transaction) (fee : Z) (o : Ownership) :=
  add_transaction_with_ownership elements sized_200 no_checksum 1 at_start clockless tx fee 200 o.

Definition refused_payment : Transaction := coin_tx 50 [from_coin 5].
Definition rival_payment : Transaction := coin_tx 60 [from_coin 5].
(** A payment that pays too little for the pool takes the coin out of reach. *)
Lemma refused_insertion_locks_witness :
  is_ok (own_add refused_payment 0 owner_at_start).1 = false
  ∧ ∃ e, (own_add rival_payment 1000000 (own_add refused_payment 0 owner_at_start).2).1 = Err e.
Proof.
  destruct (added refused_payment 0 first_pool) as [[u|e|x] p] eqn:E.
  - exfalso. assert (Er : is_ok (added refused_payment 0 first_pool).1 = false) by (vm_compute; reflexivity). by rewrite E in Er.
  - assert (Hfree : check_conflicts (owned_tracker owner_at_start) refused_payment = Ok []) by (vm_compute; reflexivity).
    assert (En : pool_get (hash_bytes (id refused_payment)) p = None).
    { assert (Ep : p = (added refused_payment 0 first_pool).2) by by rewrite E. rewrite Ep. vm_compute. reflexivity. }
    destruct (refused_insertion_locks elements sized_200 no_checksum 1 at_start clockless refused_payment 0 200 owner_at_start e p
      Hfree E En) as (o' & Eo & Hlock).
    unfold own_add. rewrite Eo. split; [reflexivity|].
    destruct (Hlock rival_payment 1%nat at_start clockless 1000000 200) as [e' Ee'].
    + exists (from_coin 5). split; left.
    + intros i ->%list_elem_of_singleton. left. left.
    + exists e'. cbn [snd]. by rewrite Ee'.
  - exfalso. assert (Er : match (added refused_payment 0 first_pool).1 with Panic _ => false | _ => true end = true) by (vm_compute; reflexivity).
    by rewrite E in Er.
Defined.


(** The unchecked addition takes the claim of a cheaper transaction and does not
    release its list nor remove it from the pool: both are tracked with the same
    outpoint. *)
Definition outbid_owner : Ownership :=
  (add_transaction_unchecked elements sized_200 no_checksum 1 at_start clockless (coin_tx 60 [from_coin 5]) 200000 200
     (own_add (coin_tx 50 [from_coin 5]) 100000 owner_at_start).2).2.
Theorem unchecked_addition_outbids :
  let t := owned_tracker outbid_owner in
  let k := key_of (from_coin 5) in
  tx_claims t !! hash_bytes (id (coin_tx 50 [from_coin 5])) = Some [k]
  ∧ tx_claims t !! hash_bytes (id (coin_tx 60 [from_coin 5])) = Some [k]
  ∧ claimed_by <$> claims t !! k = Some (hash_bytes (id (coin_tx 60 [from_coin 5]))).
Proof. split_and!; vm_compute; reflexivity. Qed.
End examples.
