(* ===== verification/Eviction.v ===== *)
(** * Eviction by score, aging and prediction

    klomang-node, [mempool/eviction.rs]: the engine that empties a full pool, the
    relevance of aging transactions and the predictor of evictions.  The clocks and the
    exponential function are arguments; the heap of scores, to which nothing is added
    once it is popped, is the sorted list of its pops. *)

From Stdlib Require Import Init.Byte Floats.SpecFloat.
From stdpp Require Import gmap.
From S2P Require Import Prelude Crypto Transaction Pow NodePrelude Status UtxoTracker ConflictGraph GraphOrdering Storage MemoryStore StorageProofs PoolValidator F64 MemoryLimiter Orphans PriorityScheduler MultiIndex Tiers PriorityBuckets BlockTemplate Admission Selection Pool PoolProofs.

(** ** Scores *)
Record EvictionScore := { es_score : Z; es_hash : key }.
(** [i128::saturating_mul] *)
Definition sat_mul_i128 (a b : Z) : Z := Z.max (- 2 ^ 127) (Z.min (a * b) (2 ^ 127 - 1)).

Section scores.
Context `{Bincode}.

(** [EvictionScore::from_entry] *)
Definition score_from_entry (now : Z) (e : PoolEntry) : EvictionScore :=
  let fee_rate := if 0 <? pe_size_bytes e then Z.quot (pe_total_fee e) (pe_size_bytes e) else 0 in
  let age_seconds := sat_sub now (pe_arrival_time e) in
  {| es_score := sat_mul_i128 fee_rate (Z.max age_seconds 1); es_hash := entry_hash e |}.
(** [Ord for EvictionScore] *)
Definition score_cmp (a b : EvictionScore) : comparison :=
  match es_score a ?= es_score b with
  | Eq => bytes_compare (es_hash b) (es_hash a)
  | c => CompOpp c
  end.
Definition score_popped_before (a b : EvictionScore) : bool := match score_cmp a b with Lt => false | _ => true end.
Definition score_pops (heap : list EvictionScore) : list EvictionScore := sort_by score_popped_before heap.

(** ** The engine *)
Record EvictionPolicy := { max_transaction_count : Z; max_memory_bytes : Z; batch_size : Z }.
Definition default_eviction_policy : EvictionPolicy :=
  {| max_transaction_count := 100000; max_memory_bytes := 100 * 1024 * 1024; batch_size := 100 |}.
Record EvictionResult := {
  ev_success : bool;
  ev_count : Z;
  ev_bytes : Z;
  ev_fees : Z;
  ev_hashes : list key
}.
Definition nothing_evicted : EvictionResult :=
  {| ev_success := false; ev_count := 0; ev_bytes := 0; ev_fees := 0; ev_hashes := [] |}.
Definition note_evicted (s : EvictionScore) (entry : PoolEntry) (r : EvictionResult) : EvictionResult :=
  {| ev_success := ev_success r; ev_count := ev_count r + 1; ev_bytes := wadd 64 (ev_bytes r) (pe_size_bytes entry);
     ev_fees := wadd 64 (ev_fees r) (pe_total_fee entry); ev_hashes := ev_hashes r ++ [es_hash s] |}.
Definition succeed (r : EvictionResult) : EvictionResult :=
  {| ev_success := true; ev_count := ev_count r; ev_bytes := ev_bytes r; ev_fees := ev_fees r; ev_hashes := ev_hashes r |}.

(** Only these are ever put on the heap. *)
Definition evictable (e : PoolEntry) : bool :=
  bool_decide (pe_status e = Rejected) || bool_decide (pe_status e = InOrphanPool).

Section engine.
Context {D : Type} {C : Type → Type} `{RocksDb D, LruCache C, Codec TransactionValue, Codec UtxoValue}.
Abbreviation pooling := (method (Pool D C) string).

Definition need_eviction (policy : EvictionPolicy) (p : Pool D C) : bool :=
  (max_transaction_count policy <=? ps_total_count (pool_stats p)) || (max_memory_bytes policy <=? total_size_bytes (pool_stats p)).

Fixpoint evict_loop (batch : Z) (heap : list EvictionScore) (r : EvictionResult) : pooling EvictionResult :=
  match heap with
  | [] => mret r
  | s :: heap =>
      if ev_count r <? batch then
        removed ← pool_remove (es_hash s);
        match removed with
        | Some entry => evict_loop batch heap (note_evicted s entry r)
        | None => mret r
        end
      else mret r
  end.
Definition evict_lowest_priority (now : Z) (policy : EvictionPolicy) : pooling EvictionResult :=
  p ← get;
  if negb (need_eviction policy p) then mret nothing_evicted
  else
    let heap := score_from_entry now <$> filter (λ e, evictable e = true) (get_all p) in
    r ← evict_loop (batch_size policy) (score_pops heap) nothing_evicted;
    mret (succeed r).

(** [sort_by_key] by the score alone, which is stable *)
Definition analyze_eviction_order (now : Z) (p : Pool D C) : list (key * Z) :=
  sort_by (λ a b : key * Z, a.2 <=? b.2) ((λ e, (es_hash (score_from_entry now e), es_score (score_from_entry now e))) <$> get_all p).

Definition three_halves : f64 := S754_finite false 6755399441055744 (-52).
Definition scale_batch (factor : f64) (policy : EvictionPolicy) : EvictionPolicy :=
  {| max_transaction_count := max_transaction_count policy; max_memory_bytes := max_memory_bytes policy;
     batch_size := f64_trunc_u64 (f64_mul (f64_of_Z (batch_size policy)) factor) |}.
Definition adaptive_eviction (now : Z) (pressure_0_to_1 : f64) (policy : EvictionPolicy) : pooling EvictionResult :=
  let policy :=
    if SFltb four_fifths pressure_0_to_1 then scale_batch f64_two policy
    else if SFltb f64_half pressure_0_to_1 then scale_batch three_halves policy
    else policy in
  evict_lowest_priority now policy.

Record MempoolPressure := { transaction_pressure : f64; memory_pressure : f64; total_pressure : f64 }.
(** [MempoolPressure::calculate] *)
Definition calculate_pressure (policy : EvictionPolicy) (p : Pool D C) : MempoolPressure :=
  let one := f64_of_Z 1 in
  let t := f64_div (f64_of_Z (ps_total_count (pool_stats p))) (f64_max (f64_of_Z (max_transaction_count policy)) one) in
  let m := f64_div (f64_of_Z (total_size_bytes (pool_stats p))) (f64_max (f64_of_Z (max_memory_bytes policy)) one) in
  {| transaction_pressure := f64_min t one; memory_pressure := f64_min m one;
     total_pressure := f64_min (f64_div (f64_add t m) f64_two) one |}.
End engine.

(** ** Aging *)
Record AgingProcessor := { decay_rate_per_hour : f64; anti_starvation_hours : Z }.

Section aging.
Context (exp : f64 → f64).
Definition day : f64 := f64_of_Z 24.
Definition f64_neg (x : f64) : f64 := SFopp x.
Definition age_in_hours (entry_time_ms current_time_ms : Z) : f64 :=
  f64_div (f64_of_Z (sat_sub current_time_ms entry_time_ms)) (f64_mul (f64_of_Z 1000) (f64_of_Z 3600)).
Definition calculate_relevance_score (self : AgingProcessor) (entry_time_ms current_time_ms base_fee_rate : Z) : f64 :=
  let age_hours := age_in_hours entry_time_ms current_time_ms in
  if SFleb age_hours day then f64_of_Z 1
  else
    let decay_factor := exp (f64_mul (f64_neg (decay_rate_per_hour self)) (f64_sub age_hours day)) in
    let min_score := if SFleb (f64_of_Z (anti_starvation_hours self)) age_hours then f64_tenth else S754_zero false in
    let fee_boost := f64_min (f64_div (f64_of_Z base_fee_rate) (f64_of_Z 1000)) f64_half in
    f64_max (f64_add decay_factor fee_boost) min_score.
Definition get_aging_adjustments (self : AgingProcessor) (pool_entries : list PoolEntry) (current_time_ms : Z) : list (key * f64) :=
  (λ e, (entry_hash e,
     calculate_relevance_score self (wmul 64 (pe_arrival_time e) 1000) current_time_ms
       (if 0 <? pe_size_bytes e then pe_total_fee e / pe_size_bytes e else 0))) <$> pool_entries.
End aging.

(** ** Prediction *)
Record EvictionPredictor := { historical_avg_fee : Z; history_blocks : nat }.
Definition EvictionPredictor_new (history : nat) : EvictionPredictor :=
  {| historical_avg_fee := 100; history_blocks := history |}.
Definition get_block_total_fee (block_index : Z) : outcome string Z := Ok (wadd 64 1000 (wmul 64 block_index 50)).
Definition calculate_historical_avg_fee (self : EvictionPredictor) : outcome string Z :=
  total_fee ← fold_outcome (λ total i, block_fee ← get_block_total_fee (Z.of_nat i); Ok (sat_add 64 total block_fee)) 0
    (seq 0 (history_blocks self));
  if Nat.eqb (history_blocks self) 0 then Ok 1 else Ok (total_fee / Z.of_nat (history_blocks self)).
Definition update_historical_avg : method EvictionPredictor string unit :=
  self ← get;
  avg_fee ← lift (calculate_historical_avg_fee self);
  put {| historical_avg_fee := avg_fee; history_blocks := history_blocks self |}.
Definition get_historical_avg (self : EvictionPredictor) : Z := historical_avg_fee self.
Definition nine_tenths : f64 := S754_finite false 8106479329266893 (-53).
Definition predict_evictions (self : EvictionPredictor) (pool_entries : list PoolEntry) (current_pool_size max_pool_size : Z) : list key :=
  let threshold_fee := f64_trunc_u64 (f64_mul (f64_of_Z (historical_avg_fee self)) f64_half) in
  let capacity_ratio := f64_div (f64_of_Z current_pool_size) (f64_of_Z max_pool_size) in
  if SFleb capacity_ratio nine_tenths then []
  else omap (λ e,
    let fee_rate := if 0 <? pe_size_bytes e then pe_total_fee e / pe_size_bytes e else 0 in
    if fee_rate <? threshold_fee then bincode_hash (id (pe_transaction e)) else None) pool_entries.
End scores.

(** ** The order of eviction *)
Section order.
Context `{BincodeLaws}.

Definition evicts_before (now : Z) (a b : PoolEntry) : bool := score_popped_before (score_from_entry now a) (score_from_entry now b).
Lemma evicts_lex now a b : evicts_before now a b =
  match lexicographic (es_score (score_from_entry now a), es_score (score_from_entry now b)) (0, 0) (entry_hash a) (entry_hash b) with
  | Gt => false | _ => true end.
Proof.
  unfold evicts_before, score_popped_before, score_cmp, lexicographic. cbn [fst snd].
  destruct (_ ?= _); [|done..]. rewrite Z.compare_refl. cbn [es_hash score_from_entry].
  rewrite bytes_compare_antisym. by destruct (bytes_compare _ _).
Qed.
(** Lowest score first, then the smallest hash: a total order on entries. *)
Lemma eviction_order now : entry_order (evicts_before now).
Proof.
  split; intros x y.
  - rewrite (evicts_lex now x y), (evicts_lex now y x).
    unfold lexicographic. cbn [fst snd].
    rewrite (Z.compare_antisym (es_score (score_from_entry now x))), (bytes_compare_antisym (entry_hash x)).
    destruct (es_score _ ?= es_score _); [|by auto..]. rewrite Z.compare_refl. destruct (bytes_compare _ _); auto.
  - intros z. rewrite !evicts_lex. intros H1 H2.
    pose proof (lexicographic_trans (λ e, es_score (score_from_entry now e)) (λ _, 0) x y z) as Ht. cbv beta in Ht.
    destruct (lexicographic (es_score (score_from_entry now x), es_score (score_from_entry now z)) _ _ _); try done.
    exfalso. apply Ht; [| |done]; intros E; by rewrite E in *.
  - rewrite (evicts_lex now x y), (evicts_lex now y x). unfold lexicographic. cbn [fst snd].
    rewrite (Z.compare_antisym (es_score (score_from_entry now x))), (bytes_compare_antisym (entry_hash x)).
    destruct (es_score _ ?= es_score _); [|done..]. rewrite Z.compare_refl.
    destruct (bytes_compare _ _) eqn:E; [|done..]. by apply bytes_compare_eq in E.
Qed.
Lemma pops_sorted now l : score_pops (score_from_entry now <$> l) = score_from_entry now <$> sort_by (evicts_before now) l.
Proof. apply (sort_by_fmap (score_from_entry now) score_popped_before). Qed.

Section engine.
Context {D : Type} {C : Type → Type} `{RocksDb D, LruCache C, Codec TransactionValue, Codec UtxoValue}.
Implicit Types p q : Pool D C.

Lemma pool_remove_run h e p : pool_get h p = Some e →
  ∃ q, pool_remove h p = (Ok (Some e), q) ∧ pool_by_hash q = im_shift_remove h (pool_by_hash p).
Proof.
  intros Hg. pose proof (remove_core h p) as Ec.
  assert (Hs : ∃ q, pool_remove h p = (Ok (Some e), q)).
  { unfold pool_remove. rewrite (method_bind_run get _ p p p) by done. rewrite Hg.
    do 6 (rewrite (method_bind_run (modify _) _ _ tt _) by reflexivity).
    set (p1 := set_memory_limiter _ _). clearbody p1.
    unfold warn, remove_from_disk, on_store, remove_mempool_transaction, mbind, method_bind, catch, rethrow, zoom.
    destruct (with_store tt _ (pool_store p1)) as [[r|x|x] s] eqn:E; [by eexists|by eexists|].
    exfalso. by destruct (pool_store p1) as [t|]. }
  destruct Hs as [q E]. exists q. split; [done|]. rewrite E in Ec. cbn [snd] in Ec. by injection Ec.
Qed.

Lemma shift_remove_get h k (l : list (key * PoolEntry)) : h ≠ k → im_get k (im_shift_remove h l) = im_get k l.
Proof.
  intros Hne. unfold im_shift_remove. induction l as [|[x v] l IH]; [done|]. cbn [im_get]. rewrite filter_cons. cbn [fst].
  case_decide as Hx; cbn [im_get]; [by rewrite IH|]. rewrite IH. subst x.
  by rewrite bool_decide_eq_false_2.
Qed.

(** The loop removes the entries of the heap in order, as many as the batch has left. *)
Lemma evict_loop_run now batch l r p :
  NoDup (entry_hash <$> l) → (∀ e, e ∈ l → pool_get (entry_hash e) p = Some e) →
  ev_bytes r = wrap 64 (ev_bytes r) → ev_fees r = wrap 64 (ev_fees r) →
  let taken := take (Z.to_nat (batch - ev_count r)) l in
  ∃ q, evict_loop batch (score_from_entry now <$> l) r p =
    (Ok {| ev_success := ev_success r; ev_count := ev_count r + Z.of_nat (length taken);
           ev_bytes := wrap 64 (ev_bytes r + zsum (pe_size_bytes <$> taken));
           ev_fees := wrap 64 (ev_fees r + zsum (pe_total_fee <$> taken));
           ev_hashes := ev_hashes r ++ (entry_hash <$> taken) |}, q)
  ∧ pool_by_hash q = filter (λ e, e.1 ∉ entry_hash <$> taken) (pool_by_hash p).
Proof.
  revert r p; induction l as [|e l IH]; intros r p Hnd Hin Hb Hf taken; subst taken.
  - rewrite take_nil. exists p. cbn. rewrite app_nil_r, !Z.add_0_r, <- Hb, <- Hf. split; [by destruct r|].
    symmetry. apply filter_all. intros x _. apply not_elem_of_nil.
  - cbn [fmap list_fmap evict_loop]. destruct (Z.ltb_spec (ev_count r) batch).
    + destruct (pool_remove_run (entry_hash e) e p) as (p1 & E & Ep); [by apply Hin; left|].
      cbn [es_hash score_from_entry]. rewrite (method_bind_run _ _ _ _ _ E).
      apply NoDup_cons in Hnd as [Hn Hnd].
      destruct (IH (note_evicted (score_from_entry now e) e r) p1) as (q & Eq & Hq); try done.
      { intros x Hx. unfold pool_get. rewrite Ep, shift_remove_get; [by apply Hin; right|]. intros Eh. apply Hn.
        rewrite Eh. by apply list_elem_of_fmap_2. }
      1,2: cbn; unfold wadd; by rewrite <- (Z.add_0_r (wrap _ _)) at 2; rewrite wrap_mod, Z.add_0_r.
      exists q. cbn [note_evicted ev_count ev_success ev_bytes ev_fees ev_hashes] in Eq.
      replace (Z.to_nat (batch - (ev_count r + 1))) with (pred (Z.to_nat (batch - ev_count r))) in * by lia.
      replace (Z.to_nat (batch - ev_count r)) with (S (pred (Z.to_nat (batch - ev_count r)))) by lia.
      cbn [take fmap list_fmap zsum length]. split.
      * rewrite Eq. do 2 f_equal. f_equal; [lia|..].
        1,2: unfold wadd; rewrite wrap_mod, zsum_cons; f_equal; lia.
        by rewrite <- (assoc_L (++)).
      * rewrite Hq, Ep. unfold im_shift_remove. rewrite list_filter_filter. apply list_filter_iff. intros [k v]. cbn.
        rewrite not_elem_of_cons. replace (Z.to_nat (batch - (ev_count r + 1))) with (pred (Z.to_nat (batch - ev_count r))) by lia.
        tauto.
    + exists p. replace (Z.to_nat (batch - ev_count r)) with 0%nat by lia. cbn.
      rewrite app_nil_r, !Z.add_0_r, <- Hb, <- Hf. split; [by destruct r|].
      symmetry. apply filter_all. intros x _. apply not_elem_of_nil.
Qed.

(** What the entries of a pool that keeps its invariant say of each other. *)
Lemma entries_known K om n cap p : pool_ok K om n cap p →
  NoDup (entry_hash <$> get_all p) ∧ ∀ e, e ∈ get_all p → pool_get (entry_hash e) p = Some e.
Proof.
  intros Hp. assert (Hh : ∀ k e, (k, e) ∈ pool_by_hash p → entry_hash e = k).
  { intros k e Hk. destruct (pk_entries _ _ _ _ _ Hp k e Hk) as [E _]. unfold entry_hash. by rewrite E. }
  split.
  - unfold get_all. rewrite <- list_fmap_compose. replace ((entry_hash ∘ snd) <$> pool_by_hash p) with (pool_by_hash p).*1;
      [apply (pk_keys _ _ _ _ _ Hp)|]. apply list_fmap_ext. intros i [k e] Hi%list_elem_of_lookup_2. symmetry. by apply Hh.
  - intros e ([k e'] & -> & Hk)%list_elem_of_fmap. cbn. unfold pool_get. rewrite (Hh k e' Hk).
    apply im_get_keys; [apply (pk_keys _ _ _ _ _ Hp)|done].
Qed.
Lemma evictable_known K om n cap p l : pool_ok K om n cap p → l ≡ₚ filter (λ e, evictable e = true) (get_all p) →
  NoDup (entry_hash <$> l) ∧ ∀ e, e ∈ l → pool_get (entry_hash e) p = Some e.
Proof.
  intros Hp Hl. destruct (entries_known _ _ _ _ p Hp) as [Hn Hk]. split.
  - rewrite Hl. eapply sublist_NoDup; [exact Hn|]. apply fmap_sublist, sublist_filter.
  - intros e He. rewrite Hl in He. apply Hk. by apply list_elem_of_filter in He as [_ ?].
Qed.

Section reachable.
Context (order : gset key → list key) (Horder : ∀ s, order s ≡ₚ elements s).
Context (serialized_size : Transaction → option Z) (checksum : Transaction → Z).
Context (now0 : Moment) (config : PoolConfig) (store : StorageCacheLayer D C) (has_store : bool).
Context (Hmax : 0 ≤ max_pool_size config).
Abbreviation fresh := (new_with_kv_store now0 config store has_store).
Abbreviation reached := (rtc (pool_step order serialized_size checksum) fresh).

(** What an eviction does to a reachable pool.  Below both limits nothing.  At a limit
    it takes, of the entries that are rejected or orphaned, the first of the batch in
    the order of scores, and removes these and no other; it always reports success. *)
Theorem evict_lowest_priority_spec p (Hp : reached p) now policy :
  let gone := take (Z.to_nat (batch_size policy)) (sort_by (evicts_before now) (filter (λ e, evictable e = true) (get_all p))) in
  ∃ r q, evict_lowest_priority now policy p = (Ok r, q)
  ∧ if need_eviction policy p then
      pool_by_hash q = filter (λ e, e.1 ∉ entry_hash <$> gone) (pool_by_hash p)
      ∧ r = {| ev_success := true; ev_count := Z.of_nat (length gone); ev_bytes := wrap 64 (zsum (pe_size_bytes <$> gone));
               ev_fees := wrap 64 (zsum (pe_total_fee <$> gone)); ev_hashes := entry_hash <$> gone |}
    else q = p ∧ r = nothing_evicted.
Proof.
  destruct (reached_inv order serialized_size checksum Horder now0 config store has_store Hmax p Hp) as (s & Hs & _). intros gone.
  unfold evict_lowest_priority. rewrite (method_bind_run get _ p p p) by done.
  destruct (need_eviction policy p); [|by exists nothing_evicted, p]. cbn [negb]. rewrite pops_sorted.
  destruct (evictable_known _ _ _ _ p (sort_by (evicts_before now) (filter (λ e, evictable e = true) (get_all p))) Hs) as [Hn Hk];
    [apply sort_by_perm|].
  destruct (evict_loop_run now (batch_size policy) _ nothing_evicted p Hn Hk) as (q & E & Hq); [done|done|].
  cbn [nothing_evicted ev_count ev_success ev_bytes ev_fees ev_hashes] in *. rewrite Z.sub_0_r in *. fold gone in E, Hq.
  rewrite (method_bind_run _ _ _ _ _ E). eexists _, q. split; [reflexivity|]. done.
Qed.

(** Pending and validated transactions are out of its reach, however full the pool. *)
Theorem eviction_spares_waiting p (Hp : reached p) now policy h e :
  pool_get h p = Some e → evictable e = false → pool_get h (evict_lowest_priority now policy p).2 = Some e.
Proof.
  intros Hg He. destruct (reached_inv order serialized_size checksum Horder now0 config store has_store Hmax p Hp) as (s & Hs & _).
  destruct (entries_known _ _ _ _ p Hs) as [Hn Hk].
  set (gone := take (Z.to_nat (batch_size policy)) (sort_by (evicts_before now) (filter (λ e, evictable e = true) (get_all p)))).
  unfold evict_lowest_priority. rewrite (method_bind_run get _ p p p) by done.
  destruct (need_eviction policy p); [|done]. cbn [negb]. rewrite pops_sorted.
  destruct (evictable_known _ _ _ _ p (sort_by (evicts_before now) (filter (λ e, evictable e = true) (get_all p))) Hs) as [Hn' Hk'];
    [apply sort_by_perm|].
  destruct (evict_loop_run now (batch_size policy) _ nothing_evicted p Hn' Hk') as (q & E & Hq); [done|done|].
  rewrite (method_bind_run _ _ _ _ _ E). cbn [snd mret method_ret]. unfold pool_get. apply im_get_keys.
  { rewrite Hq. eapply sublist_NoDup; [apply (pk_keys _ _ _ _ _ Hs)|]. apply fmap_sublist, sublist_filter. }
  rewrite Hq. apply list_elem_of_filter. split; [|by apply im_get_elem]. cbn [fst]. intros (x & Ex & Hx)%list_elem_of_fmap.
  apply list_elem_of_lookup in Hx as [i Hi]. apply lookup_take_Some in Hi as [Hi _]. apply list_elem_of_lookup_2 in Hi.
  pose proof (Hk' x Hi) as Hgx. rewrite elem_of_sort_by in Hi. apply list_elem_of_filter in Hi as [Hx _]. congruence.
Qed.
End reachable.
End engine.

(** Nodes that hold the same entries evict in the same order, whatever order their
    pools list them in. *)
Theorem eviction_deterministic now l k (Hp : l ≡ₚ k) (Hnd : NoDup (entry_hash <$> l)) :
  score_pops (score_from_entry now <$> l) = score_pops (score_from_entry now <$> k).
Proof. rewrite !pops_sorted. f_equal. apply sort_entries_unique; auto using eviction_order. Qed.
End order.

(** ** Prediction *)
(** The average of the simulated blocks, in closed form, as long as nothing overflows. *)
Lemma simulated_sum n : Z.of_nat n ≤ 2 ^ 28 →
  fold_outcome (E:=string) (λ total i, block_fee ← get_block_total_fee (Z.of_nat i); Ok (sat_add 64 total block_fee)) 0 (seq 0 n)
  = Ok (1000 * Z.of_nat n + 25 * Z.of_nat n * (Z.of_nat n - 1)).
Proof.
  induction n as [|n IH]; intros Hn; [done|]. rewrite seq_S, fold_outcome_app, IH by lia. cbn [fold_outcome get_block_total_fee mbind outcome_bind Nat.add].
  rewrite Nat2Z.inj_succ in *. set (z := Z.of_nat n) in *. assert (Hz : 0 ≤ z < 2 ^ 28) by lia. assert (z * z ≤ 2 ^ 56) by nia.
  unfold sat_add, wadd, wmul, wrap. rewrite (Z.mod_small (z * 50)) by lia. rewrite Z.mod_small, Z.min_l by lia.
  f_equal. lia.
Qed.
Theorem historical_average_spec self (Hn : Z.of_nat (history_blocks self) ≤ 2 ^ 28) :
  (update_historical_avg self).1 = Ok tt
  ∧ get_historical_avg (update_historical_avg self).2
    = match history_blocks self with O => 1 | S n => 1000 + 25 * Z.of_nat n end.
Proof.
  assert (E : calculate_historical_avg_fee self = Ok (match history_blocks self with O => 1 | S n => 1000 + 25 * Z.of_nat n end)).
  { unfold calculate_historical_avg_fee. rewrite simulated_sum by done. cbn [mbind outcome_bind].
    destruct (history_blocks self) as [|n]; [done|]. cbn [Nat.eqb]. f_equal.
    rewrite Nat2Z.inj_succ. symmetry. apply Z.div_unique_exact; lia. }
  unfold update_historical_avg, mbind, method_bind, get, lift, put. by rewrite E.
Qed.

(** ** Witnesses and examples *)
Definition tight_policy : EvictionPolicy := {| max_transaction_count := 2; max_memory_bytes := 1000000; batch_size := 1 |}.
(** One of two payments is rejected. *)
Definition one_rejected : Pool content mem_cache := (set_status (hash_bytes (hash_of 50)) Rejected two_payments).2.
Lemma one_rejected_reached : reached one_rejected.
Proof. eapply rtc_r; [do 2 apply reached_added; apply rtc_refl|]. apply pstep_status. Qed.

Lemma evict_lowest_priority_spec_witness :
  pool_size one_rejected = 2 ∧ ∃ r q, evict_lowest_priority 2000 tight_policy one_rejected = (Ok r, q)
  ∧ ev_hashes r = [hash_bytes (hash_of 50)] ∧ (pool_by_hash q).*1 = [hash_bytes (hash_of 52)].
Proof.
  split; [vm_compute; reflexivity|].
  destruct (evict_lowest_priority_spec elements elements_order sized_200 no_checksum at_start default_pool_config store_of_coins true default_limit
    one_rejected one_rejected_reached 2000 tight_policy) as (r & q & E & Hs). exists r, q. split; [exact E|].
  assert (Hneed : need_eviction tight_policy one_rejected = true) by (vm_compute; reflexivity). rewrite Hneed in Hs.
  destruct Hs as [Hq Hr]. rewrite Hq, Hr. split; vm_compute; reflexivity.
Defined.

Lemma eviction_spares_waiting_witness :
  ∃ e, pool_get (hash_bytes (hash_of 52)) one_rejected = Some e
  ∧ pool_get (hash_bytes (hash_of 52)) (evict_lowest_priority 2000 tight_policy one_rejected).2 = Some e.
Proof.
  destruct (pool_get (hash_bytes (hash_of 52)) one_rejected) as [e|] eqn:E; [|vm_compute in E; discriminate E].
  assert (He : (evictable <$> pool_get (hash_bytes (hash_of 52)) one_rejected) = Some false) by (vm_compute; reflexivity).
  rewrite E in He. injection He as He. exists e. split; [reflexivity|].
  exact (eviction_spares_waiting elements elements_order sized_200 no_checksum at_start default_pool_config store_of_coins true default_limit
    one_rejected one_rejected_reached 2000 tight_policy _ e E He).
Defined.

Definition aged (n arrival : Z) : PoolEntry :=
  {| pe_transaction := coin_tx n []; pe_status := Rejected; pe_arrival_time := arrival; pe_size_bytes := 100; pe_total_fee := 1000 |}.
Lemma eviction_deterministic_witness :
  score_pops (score_from_entry 2000 <$> [aged 1 1000; aged 2 1500]) = score_pops (score_from_entry 2000 <$> [aged 2 1500; aged 1 1000])
  ∧ es_hash <$> score_pops (score_from_entry 2000 <$> [aged 1 1000; aged 2 1500]) = [hash_bytes (hash_of 2); hash_bytes (hash_of 1)].
Proof.
  split; [|vm_compute; reflexivity]. apply eviction_deterministic; [apply Permutation_swap|].
  assert (Hd : bool_decide (NoDup (entry_hash <$> [aged 1 1000; aged 2 1500])) = true) by (vm_compute; reflexivity).
  by apply bool_decide_eq_true in Hd.
Defined.

Lemma historical_average_spec_witness :
  let self := EvictionPredictor_new 10 in
  get_historical_avg self = 100 ∧ get_historical_avg (update_historical_avg self).2 = 1225.
Proof.
  split; [reflexivity|]. assert (Hn : Z.of_nat (history_blocks (EvictionPredictor_new 10)) ≤ 2 ^ 28) by (vm_compute; discriminate).
  destruct (historical_average_spec (EvictionPredictor_new 10) Hn) as [_ E]. rewrite E. reflexivity.
Defined.

(** A full pool of waiting transactions: nothing is evicted, success is reported. *)
Example eviction_of_nothing_succeeds :
  let r := evict_lowest_priority 2000 tight_policy two_payments in
  need_eviction tight_policy two_payments = true ∧ r.1 = Ok (succeed nothing_evicted) ∧ pool_size r.2 = 2.
Proof. vm_compute. done. Qed.

(** With a decay that has barely begun and a fee rate of 500 or more, a transaction a
    little over a day old scores above every fresh one. *)
Example old_scores_above_fresh :
  let p := {| decay_rate_per_hour := f64_tenth; anti_starvation_hours := 72 |} in
  let slight := λ _, S754_finite false 8106479329266893 (-53) in
  calculate_relevance_score slight p 0 3600000 500 = f64_of_Z 1
  ∧ SFltb (f64_of_Z 1) (calculate_relevance_score slight p 0 90000000 500) = true.
Proof. vm_compute. done. Qed.
