(* ===== verification/Gossip.v ===== *)
(** * What the network does with a gossip message before it looks inside

    klomang-node, [network/messaging/]: the spam filter ([spam_filter.rs]), the cache of
    message ids ([cache.rs]), the filter in front of both ([message_filter.rs]) and the
    scores of peers ([peer_scoring.rs]).

    A [DashMap] hands out guards: a reference obtained by [entry] or [get_mut] locks its
    shard until it is dropped, and the library documents that [get] and [get_mut] may
    deadlock while the caller holds one.  For the same key they do, the shard being the
    same.  So a method that takes a guard it already holds does not return, which is the
    result [None].  A call takes place at one [now], in nanoseconds. *)

From Stdlib Require Import Init.Byte Floats.SpecFloat.
From stdpp Require Import gmap.
From S2P Require Import Prelude Crypto Pow F64 Storage MemoryStore.

Abbreviation PeerId := (list byte).
Abbreviation MessageId := (list byte).

(** [Duration::as_secs_f64] *)
Definition as_secs_f64 (d : Z) : f64 := f64_add (f64_of_Z (d / 10 ^ 9)) (f64_div (f64_of_Z (d mod 10 ^ 9)) (f64_of_Z (10 ^ 9))).
Definition minus (x : f64) : f64 := SFopp x.

(** ** The spam filter *)
Record SpamProtectionConfig := {
  max_messages_per_window : Z;
  rate_limit_window : Z;
  max_transaction_size : Z;
  max_block_size : Z;
  greylist_threshold : f64;
  greylist_duration : Z;
  initial_peer_score : f64;
  rate_limit_violation_penalty : f64;
  invalid_message_penalty : f64;
  oversized_message_penalty : f64;
  valid_message_reward : f64
}.
Definition seconds (n : Z) : Z := n * 10 ^ 9.
Definition default_spam_config : SpamProtectionConfig :=
  {| max_messages_per_window := 50; rate_limit_window := seconds 1; max_transaction_size := 1024 * 1024;
     max_block_size := 2 * 1024 * 1024; greylist_threshold := minus (f64_of_Z 500); greylist_duration := seconds 300;
     initial_peer_score := f64_of_Z 0; rate_limit_violation_penalty := minus (f64_of_Z 10);
     invalid_message_penalty := minus (f64_of_Z 20); oversized_message_penalty := minus (f64_of_Z 15);
     valid_message_reward := f64_half |}.
(** [SpamProtectionConfig::validate] *)
Definition validate_config (c : SpamProtectionConfig) : outcome string unit :=
  _ ← ensure (negb (max_messages_per_window c =? 0)) "max_messages_per_window must be > 0"%string;
  _ ← ensure (negb (rate_limit_window c / 10 ^ 9 =? 0)) "rate_limit_window must be > 0"%string;
  _ ← ensure (negb (max_transaction_size c =? 0)) "max_transaction_size must be > 0"%string;
  ensure (negb (max_block_size c =? 0)) "max_block_size must be > 0"%string.

Inductive SpamFilterResult :=
  | Allow
  | RateLimitExceeded
  | OversizedMessage
  | Duplicate
  | PeerGreylisted
  | InvalidMessage (reason : string).
Inductive MessageType := MT_Transaction | MT_Block.

(** [TokenBucket] *)
Record TokenBucket := { tokens : f64; bucket_capacity : f64; last_refill : Z; refill_rate : f64 }.
Definition TokenBucket_new (now : Z) (capacity rate : f64) : TokenBucket :=
  {| tokens := capacity; bucket_capacity := capacity; last_refill := now; refill_rate := rate |}.
Definition refill (now : Z) (b : TokenBucket) : TokenBucket :=
  let elapsed := as_secs_f64 (sat_sub now (last_refill b)) in
  {| tokens := f64_min (f64_add (tokens b) (f64_mul elapsed (refill_rate b))) (bucket_capacity b);
     bucket_capacity := bucket_capacity b; last_refill := now; refill_rate := refill_rate b |}.
Definition try_consume (now : Z) (n : f64) (b : TokenBucket) : bool * TokenBucket :=
  let b := refill now b in
  if SFleb n (tokens b) then
    (true, {| tokens := SFsub 53 1024 (tokens b) n; bucket_capacity := bucket_capacity b; last_refill := last_refill b;
              refill_rate := refill_rate b |})
  else (false, b).

(** [PeerScore] *)
Record PeerScore := { peer_score : f64; is_greylisted : bool; greylist_expires : option Z }.
Definition PeerScore_new (config : SpamProtectionConfig) : PeerScore :=
  {| peer_score := initial_peer_score config; is_greylisted := false; greylist_expires := None |}.
Definition check_greylist_expiry (now : Z) (s : PeerScore) : PeerScore :=
  match greylist_expires s with
  | Some expiry =>
      if expiry <=? now then {| peer_score := peer_score s; is_greylisted := false; greylist_expires := None |} else s
  | None => s
  end.
Definition apply_greylist (now : Z) (config : SpamProtectionConfig) (s : PeerScore) : PeerScore :=
  {| peer_score := peer_score s; is_greylisted := true; greylist_expires := Some (now + greylist_duration config) |}.
Definition set_score (x : f64) (s : PeerScore) : PeerScore :=
  {| peer_score := x; is_greylisted := is_greylisted s; greylist_expires := greylist_expires s |}.
Definition update_score (now : Z) (delta : f64) (config : SpamProtectionConfig) (s : PeerScore) : PeerScore :=
  let s := set_score (f64_add (peer_score s) delta) s in
  if SFleb (peer_score s) (greylist_threshold config) && negb (is_greylisted s) then apply_greylist now config s else s.

Record SpamFilter := {
  spam_config : SpamProtectionConfig;
  token_buckets : gmap PeerId TokenBucket;
  peer_scores : gmap PeerId PeerScore;
  message_cache : gmap MessageId Z;
  cache_ttl : Z
}.
Definition set_buckets (m : gmap PeerId TokenBucket) (f : SpamFilter) : SpamFilter :=
  {| spam_config := spam_config f; token_buckets := m; peer_scores := peer_scores f; message_cache := message_cache f;
     cache_ttl := cache_ttl f |}.
Definition set_scores (m : gmap PeerId PeerScore) (f : SpamFilter) : SpamFilter :=
  {| spam_config := spam_config f; token_buckets := token_buckets f; peer_scores := m; message_cache := message_cache f;
     cache_ttl := cache_ttl f |}.
Definition set_message_cache (m : gmap MessageId Z) (f : SpamFilter) : SpamFilter :=
  {| spam_config := spam_config f; token_buckets := token_buckets f; peer_scores := peer_scores f; message_cache := m;
     cache_ttl := cache_ttl f |}.
Definition SpamFilter_new (config : SpamProtectionConfig) : outcome string SpamFilter :=
  _ ← validate_config config;
  Ok {| spam_config := config; token_buckets := ∅; peer_scores := ∅; message_cache := ∅; cache_ttl := seconds 300 |}.

(** [self.peer_scores.get_mut(peer_id)] and the update of what it finds, while the
    caller holds guards into the map. *)
Definition scores_get_mut (held : gset PeerId) (peer : PeerId) (g : PeerScore → PeerScore) (f : SpamFilter) : option SpamFilter :=
  if bool_decide (peer ∈ held) then None else Some (set_scores (alter g peer (peer_scores f)) f).
(** [self.peer_scores.get(peer_id)] *)
Definition scores_get (held : gset PeerId) (peer : PeerId) (f : SpamFilter) : option (option PeerScore) :=
  if bool_decide (peer ∈ held) then None else Some (peer_scores f !! peer).

Definition penalize_peer (held : gset PeerId) (now : Z) (peer : PeerId) (penalty : f64) (f : SpamFilter) : option SpamFilter :=
  scores_get_mut held peer (update_score now penalty (spam_config f)) f.
Definition reward_peer (held : gset PeerId) (peer : PeerId) (reward : f64) (f : SpamFilter) : option SpamFilter :=
  scores_get_mut held peer (λ s, set_score (f64_add (peer_score s) reward) s) f.
(** Only a debug line depends on what is read. *)
Definition update_peer_score (held : gset PeerId) (peer : PeerId) (f : SpamFilter) : option SpamFilter :=
  _ ← scores_get held peer f; Some f.

Definition cleanup_cache (now : Z) (f : SpamFilter) : SpamFilter :=
  set_message_cache (filter (λ e : MessageId * Z, sat_sub now e.2 < cache_ttl f) (message_cache f)) f.
Definition is_duplicate (now : Z) (id : MessageId) (f : SpamFilter) : bool * SpamFilter :=
  let f := cleanup_cache now f in (bool_decide (is_Some (message_cache f !! id)), f).
Definition add_to_cache (now : Z) (id : MessageId) (f : SpamFilter) : SpamFilter :=
  set_message_cache (<[ id := now ]> (message_cache f)) f.
Definition check_message_size (f : SpamFilter) (data : bytes) (ty : MessageType) : bool :=
  Z.of_nat (length data) <=?
    match ty with MT_Transaction => max_transaction_size (spam_config f) | MT_Block => max_block_size (spam_config f) end.
Definition check_rate_limit (now : Z) (peer : PeerId) (f : SpamFilter) : bool * SpamFilter :=
  let bucket :=
    match token_buckets f !! peer with
    | Some b => b
    | None =>
        let capacity := f64_of_Z (max_messages_per_window (spam_config f)) in
        TokenBucket_new now capacity (f64_div capacity (as_secs_f64 (rate_limit_window (spam_config f))))
    end in
  let '(ok, bucket) := try_consume now (f64_of_Z 1) bucket in
  (ok, set_buckets (<[ peer := bucket ]> (token_buckets f)) f).

Definition check_message (now : Z) (peer : PeerId) (id : MessageId) (data : bytes) (ty : MessageType) (f : SpamFilter) :
    option (SpamFilterResult * SpamFilter) :=
  let '(duplicate, f) := is_duplicate now id f in
  if duplicate then Some (Duplicate, f)
  else
    (* the guard of this entry lives to the end of the function *)
    let entry := match peer_scores f !! peer with Some s => s | None => PeerScore_new (spam_config f) end in
    let held : gset PeerId := {[ peer ]} in
    let entry := check_greylist_expiry now entry in
    let f := set_scores (<[ peer := entry ]> (peer_scores f)) f in
    if is_greylisted entry then Some (PeerGreylisted, f)
    else if negb (check_message_size f data ty) then
      f ← penalize_peer held now peer (oversized_message_penalty (spam_config f)) f;
      f ← update_peer_score held peer f;
      Some (OversizedMessage, f)
    else
      let '(ok, f) := check_rate_limit now peer f in
      if negb ok then
        f ← penalize_peer held now peer (rate_limit_violation_penalty (spam_config f)) f;
        f ← update_peer_score held peer f;
        Some (RateLimitExceeded, f)
      else
        let f := add_to_cache now id f in
        f ← reward_peer held peer (valid_message_reward (spam_config f)) f;
        f ← update_peer_score held peer f;
        Some (Allow, f).

(** Called with no guard held. *)
Definition get_peer_score (peer : PeerId) (f : SpamFilter) : option f64 := peer_score <$> peer_scores f !! peer.
Definition get_peer_status (peer : PeerId) (f : SpamFilter) : option PeerScore := peer_scores f !! peer.
Record SpamFilterMetrics := { total_peers : Z; greylisted_peers : Z; cached_messages : Z }.
Definition get_metrics (f : SpamFilter) : SpamFilterMetrics :=
  {| total_peers := Z.of_nat (size (peer_scores f));
     greylisted_peers := Z.of_nat (size (filter (λ e : PeerId * PeerScore, is_greylisted e.2 = true) (peer_scores f)));
     cached_messages := Z.of_nat (size (message_cache f)) |}.
Definition clear_greylist (peer : PeerId) (f : SpamFilter) : SpamFilter :=
  set_scores (alter (λ s, {| peer_score := peer_score s; is_greylisted := false; greylist_expires := None |}) peer (peer_scores f)) f.
Definition reset_peer_score (peer : PeerId) (f : SpamFilter) : SpamFilter :=
  set_scores (alter (set_score (initial_peer_score (spam_config f))) peer (peer_scores f)) f.

(** ** The cache of message ids *)
Definition CACHE_STORE_KEY : bytes := String.list_byte_of_string "gossipsub_cache:entries".

Section cache.
Context {D : Type} `{RocksDb D, Codec (list bytes)}.

Record GossipsubCache := {
  entries : gmap MessageId Z;
  cache_order : list MessageId;
  cache_capacity : Z;
  ttl : Z;
  storage_db : option D
}.
Definition set_entries (order : list MessageId) (m : gmap MessageId Z) (c : GossipsubCache) : GossipsubCache :=
  {| entries := m; cache_order := order; cache_capacity := cache_capacity c; ttl := ttl c; storage_db := storage_db c |}.

(** The loops of [prune_expired] and [insert_entry] over the front of the queue. *)
Fixpoint prune_loop (now ttl : Z) (order : list MessageId) (m : gmap MessageId Z) : list MessageId * gmap MessageId Z :=
  match order with
  | [] => ([], m)
  | front_id :: order' =>
      match m !! front_id with
      | Some inserted_at =>
          if ttl <? sat_sub now inserted_at then prune_loop now ttl order' (delete front_id m) else (order, m)
      | None => (order, m)
      end
  end.
Fixpoint shrink_loop (capacity : Z) (order : list MessageId) (m : gmap MessageId Z) : list MessageId * gmap MessageId Z :=
  match order with
  | [] => ([], m)
  | old_id :: order' =>
      if capacity <? Z.of_nat (length order) then shrink_loop capacity order' (delete old_id m) else (order, m)
  end.

Definition prune_expired (now : Z) (c : GossipsubCache) : GossipsubCache :=
  let '(order, m) := prune_loop now (ttl c) (cache_order c) (entries c) in set_entries order m c.
Definition cache_contains (now : Z) (id : MessageId) (c : GossipsubCache) : bool * GossipsubCache :=
  let c := prune_expired now c in (bool_decide (is_Some (entries c !! id)), c).
(** A failure is ignored ([ok]). *)
Definition persist (c : GossipsubCache) : GossipsubCache :=
  match storage_db c with
  | Some db =>
      match (b ← codec_serialize (cache_order c); rocks_write db true [RocksPut CF_Default CACHE_STORE_KEY b]) with
      | Ok db => {| entries := entries c; cache_order := cache_order c; cache_capacity := cache_capacity c; ttl := ttl c;
                    storage_db := Some db |}
      | _ => c
      end
  | None => c
  end.
Definition insert_entry (now : Z) (id : MessageId) (persists : bool) (c : GossipsubCache) : GossipsubCache :=
  let c := prune_expired now c in
  if bool_decide (is_Some (entries c !! id)) then c
  else
    let '(order, m) := shrink_loop (cache_capacity c) (cache_order c ++ [id]) (<[ id := now ]> (entries c)) in
    let c := set_entries order m c in
    if persists then persist c else c.
Definition cache_insert (now : Z) (id : MessageId) (c : GossipsubCache) : GossipsubCache :=
  let '(known, c) := cache_contains now id c in
  if known then c else insert_entry now id true c.
Definition load_persistent_entries (now : Z) (c : GossipsubCache) : GossipsubCache :=
  match storage_db c with
  | Some db =>
      match db_get db CF_Default CACHE_STORE_KEY with
      | Ok (Some b) =>
          match codec_deserialize (A:=list bytes) b with
          | Ok keys =>
              foldl (λ c id, set_entries (cache_order c ++ [id]) (<[ id := now ]> (entries c)) c) c
                (take (Z.to_nat (cache_capacity c)) keys)
          | _ => c
          end
      | _ => c
      end
  | None => c
  end.
Definition GossipsubCache_new (now capacity ttl : Z) (db : option D) : GossipsubCache :=
  load_persistent_entries now
    {| entries := ∅; cache_order := []; cache_capacity := capacity; ttl := ttl; storage_db := db |}.

(** ** The message filter *)
Record Message := { message_data : bytes; message_topic : string }.
Inductive FilterResult :=
  | Accept
  | DuplicateDrop
  | OversizedDrop
  | RateLimitDrop
  | GreylistDrop
  | Reject (reason : string).

(** The engine and the cache are shared with other parts, so they are the state. *)
Definition TRANSACTIONS : string := "klomang/transactions/v1".
Definition BLOCKS : string := "klomang/blocks/v1".
Definition type_of_topic (topic : string) : option MessageType :=
  if bool_decide (topic = TRANSACTIONS) then Some MT_Transaction
  else if bool_decide (topic = BLOCKS) then Some MT_Block else None.

Definition filter_message (now : Z) (peer : PeerId) (message : Message) (st : SpamFilter * GossipsubCache) :
    option (FilterResult * (SpamFilter * GossipsubCache)) :=
  let '(f, cache) := st in
  let id := message_data message in
  let '(known, cache) := cache_contains now id cache in
  if known then Some (DuplicateDrop, (f, cache))
  else
    match type_of_topic (message_topic message) with
    | None => Some (Reject "Unknown topic", (f, cache))
    | Some ty =>
        '(spam_check, f) ← check_message now peer id (message_data message) ty f;
        match spam_check with
        | Allow => Some (Accept, (f, cache_insert now id cache))
        | Duplicate => Some (DuplicateDrop, (f, cache))
        | OversizedMessage => Some (OversizedDrop, (f, cache))
        | RateLimitExceeded => Some (RateLimitDrop, (f, cache))
        | PeerGreylisted => Some (GreylistDrop, (f, cache))
        | InvalidMessage reason => Some (Reject reason, (f, cache))
        end
    end.
End cache.

(** ** The parameters of the mesh *)
Record GossipsubMeshConfig := {
  mesh_n : Z;
  mesh_n_low : Z;
  mesh_n_high : Z;
  mesh_n_lazy : Z;
  gossip_factor : f64;
  heartbeat_interval_ms : Z;
  history_length : Z;
  history_gossip_threshold : Z;
  max_ihave_length : Z;
  max_ihave_messages : Z;
  iwant_followup_secs : Z;
  flood_publish : bool
}.
Definition default_mesh_config : GossipsubMeshConfig :=
  {| mesh_n := 6; mesh_n_low := 4; mesh_n_high := 12; mesh_n_lazy := 6; gossip_factor := f64_div (f64_of_Z 1) (f64_of_Z 4);
     heartbeat_interval_ms := 1000; history_length := 5; history_gossip_threshold := 3; max_ihave_length := 5000;
     max_ihave_messages := 10; iwant_followup_secs := 3; flood_publish := false |}.
Definition with_params (n low high lazy : Z) (factor : f64) (heartbeat history threshold : Z) : GossipsubMeshConfig :=
  {| mesh_n := n; mesh_n_low := low; mesh_n_high := high; mesh_n_lazy := lazy; gossip_factor := factor;
     heartbeat_interval_ms := heartbeat; history_length := history; history_gossip_threshold := threshold;
     max_ihave_length := max_ihave_length default_mesh_config; max_ihave_messages := max_ihave_messages default_mesh_config;
     iwant_followup_secs := iwant_followup_secs default_mesh_config; flood_publish := flood_publish default_mesh_config |}.
(** [GossipsubMeshConfig::validate] *)
Definition validate_mesh_config (c : GossipsubMeshConfig) : outcome string unit :=
  _ ← ensure (negb (mesh_n c <? mesh_n_low c)) "mesh_n ({}) must be >= mesh_n_low ({})"%string;
  _ ← ensure (negb (mesh_n_high c <? mesh_n c)) "mesh_n ({}) must be <= mesh_n_high ({})"%string;
  _ ← ensure (negb (SFleb (gossip_factor c) (S754_zero false) || SFltb (f64_of_Z 1) (gossip_factor c)))
        "gossip_factor must be between 0.0 and 1.0, got {}"%string;
  ensure (negb (heartbeat_interval_ms c =? 0)) "heartbeat_interval_ms must be > 0"%string.
Lemma default_mesh_config_valid : validate_mesh_config default_mesh_config = Ok tt.
Proof. reflexivity. Qed.
Definition GossipsubConfig : Type := Z * Z * Z * bool.
(** [GossipsubConfig::from] *)
Definition mesh_config_from (c : GossipsubMeshConfig) : GossipsubConfig := (mesh_n c, mesh_n_low c, mesh_n_high c, flood_publish c).

(** ** What the spam filter answers *)

(** What a call finds: the ids that have not expired, and the score of the peer. *)
Definition is_recent (now : Z) (id : MessageId) (f : SpamFilter) : Prop := ∃ t, message_cache f !! id = Some t ∧ sat_sub now t < cache_ttl f.
Definition score_entry (now : Z) (peer : PeerId) (f : SpamFilter) : PeerScore :=
  check_greylist_expiry now (match peer_scores f !! peer with Some s => s | None => PeerScore_new (spam_config f) end).

Lemma is_duplicate_iff now id f : (is_duplicate now id f).1 = true ↔ is_recent now id f.
Proof.
  unfold is_duplicate, cleanup_cache, is_recent. cbn. rewrite bool_decide_eq_true. split.
  - intros [t Ht]. apply map_lookup_filter_Some in Ht. eauto.
  - intros (t & Ht & Hl). exists t. apply map_lookup_filter_Some. done.
Qed.

(** The guard of the peer's entry is held while its score is to be changed: only the two
    answers that change no score are ever given, and to all other messages the call does
    not return. *)
Theorem check_message_returns now peer id data ty f :
  match check_message now peer id data ty f with
  | Some (Duplicate, _) => is_recent now id f
  | Some (PeerGreylisted, _) => ¬ is_recent now id f ∧ is_greylisted (score_entry now peer f) = true
  | Some _ => False
  | None => ¬ is_recent now id f ∧ is_greylisted (score_entry now peer f) = false
  end.
Proof.
  pose proof (is_duplicate_iff now id f) as Hd. unfold check_message. destruct (is_duplicate now id f) as [dup f1] eqn:Ef.
  cbn [fst] in Hd. destruct dup; [by apply Hd|]. assert (Hn : ¬ is_recent now id f) by (rewrite <- Hd; done). clear Hd.
  injection Ef as _ Ef. rewrite <- Ef. change (peer_scores (cleanup_cache now f)) with (peer_scores f).
  change (spam_config (cleanup_cache now f)) with (spam_config f). fold (score_entry now peer f). clear Ef f1.
  assert (Hm : ∀ g h, scores_get_mut {[ peer ]} peer g h = None)
    by (intros g h; unfold scores_get_mut; by rewrite bool_decide_eq_true_2 by by apply elem_of_singleton).
  destruct (is_greylisted (score_entry now peer f)) eqn:Eg; [done|].
  unfold penalize_peer, reward_peer. destruct (check_message_size _ _ _); cbn [negb]; [|by rewrite Hm].
  destruct (check_rate_limit now peer _) as [[] f2]; cbn [negb]; by rewrite Hm.
Qed.

(** What can be done to a filter: calls that return, and its administration. *)
Inductive filter_step (f : SpamFilter) : SpamFilter → Prop :=
  | fs_check now peer id data ty r f' : check_message now peer id data ty f = Some (r, f') → filter_step f f'
  | fs_penalize now peer x f' : penalize_peer ∅ now peer x f = Some f' → filter_step f f'
  | fs_reward peer x f' : reward_peer ∅ peer x f = Some f' → filter_step f f'
  | fs_clear peer : filter_step f (clear_greylist peer f)
  | fs_reset peer : filter_step f (reset_peer_score peer f).

(** No peer has an entry and no message was recorded. *)
Definition untouched (f : SpamFilter) : Prop := peer_scores f = ∅ ∧ message_cache f = ∅.
Lemma untouched_blocks f : untouched f → ∀ now peer id data ty, check_message now peer id data ty f = None.
Proof.
  intros [Hs Hc] now peer id data ty. pose proof (check_message_returns now peer id data ty f) as Hr.
  assert (Hg : is_greylisted (score_entry now peer f) = false) by (unfold score_entry; by rewrite Hs).
  assert (Hn : ¬ is_recent now id f) by (intros (t & Ht & _); by rewrite Hc in Ht).
  destruct (check_message now peer id data ty f) as [[[]]|]; naive_solver congruence.
Qed.
Lemma filter_step_untouched f f' : filter_step f f' → untouched f → untouched f'.
Proof.
  intros Hst Hf. pose proof Hf as [Hs Hc].
  destruct Hst as [now peer id data ty r f' E|now peer x f' E|peer x f' E|peer|peer].
  - by rewrite (untouched_blocks f Hf) in E.
  - unfold penalize_peer, scores_get_mut in E. rewrite bool_decide_eq_false_2 in E by set_solver. injection E as <-.
    split; [|done]. cbn. by rewrite Hs.
  - unfold reward_peer, scores_get_mut in E. rewrite bool_decide_eq_false_2 in E by set_solver. injection E as <-.
    split; [|done]. cbn. by rewrite Hs.
  - split; [|done]. cbn. by rewrite Hs.
  - split; [|done]. cbn. by rewrite Hs.
Qed.

(** From a new filter on, no message is ever answered: entries are made only by a call,
    which is then stuck, so no peer can come to be greylisted nor an id to be known. *)
Theorem check_message_never_returns config f0 f now peer id data ty :
  SpamFilter_new config = Ok f0 → rtc filter_step f0 f → check_message now peer id data ty f = None.
Proof.
  intros E0 Hr. apply untouched_blocks. assert (H0 : untouched f0).
  { unfold SpamFilter_new in E0. outcome_inv. by subst f0. }
  clear E0. induction Hr as [|f1 f2 f3 Hst _ IH]; [done|]. by apply IH, (filter_step_untouched f1).
Qed.

(** ** The cache of ids *)
Section cache_proofs.
Context {D : Type} `{RocksDb D, Codec (list bytes)}.
Implicit Types c : GossipsubCache (D:=D).

Definition time_of (m : gmap MessageId Z) (id : MessageId) : Z := default 0 (m !! id).
Record queue_ok (now : Z) (order : list MessageId) (m : gmap MessageId Z) : Prop := {
  qo_nodup : NoDup order;
  qo_dom : ∀ id, id ∈ order ↔ is_Some (m !! id);
  qo_sorted : StronglySorted Z.le (time_of m <$> order);
  qo_past : ∀ id t, m !! id = Some t → t ≤ now
}.
Definition cache_ok (now : Z) c : Prop :=
  queue_ok now (cache_order c) (entries c) ∧ Z.of_nat (length (cache_order c)) ≤ Z.max 0 (cache_capacity c).

Lemma queue_ok_pop now id order m : queue_ok now (id :: order) m → queue_ok now order (delete id m).
Proof.
  intros [Hn Hd Hs Hp]. apply NoDup_cons in Hn as [Hi Hn]. split.
  - done.
  - intros x. rewrite lookup_delete_is_Some, <- Hd, elem_of_cons. naive_solver.
  - replace (time_of (delete id m) <$> order) with (time_of m <$> order); [by apply StronglySorted_inv in Hs as [Hs _]|].
    apply list_fmap_ext. intros i x Hx%list_elem_of_lookup_2. unfold time_of. rewrite lookup_delete_ne; [done|congruence].
  - intros x t. rewrite lookup_delete_Some. intros [_ Hx]. by eapply Hp.
Qed.
Lemma queue_ok_push now id order m : queue_ok now order m → m !! id = None → queue_ok now (order ++ [id]) (<[ id := now ]> m).
Proof.
  intros [Hn Hd Hs Hp] Hi. assert (Hni : id ∉ order) by (rewrite Hd, Hi; by apply is_Some_None). split.
  - apply NoDup_app. split; [done|]. split; [|apply NoDup_singleton]. intros x Hx ->%list_elem_of_singleton. done.
  - intros x. rewrite elem_of_app, Hd, list_elem_of_singleton, lookup_insert_is_Some. destruct (decide (id = x)); naive_solver.
  - rewrite fmap_app. cbn [fmap list_fmap]. unfold time_of at 2. rewrite lookup_insert_eq. cbn.
    replace (time_of (<[id:=now]> m) <$> order) with (time_of m <$> order).
    + clear Hn Hni. assert (Hle : Forall (λ t, t ≤ now) (time_of m <$> order)).
      { apply Forall_fmap, Forall_forall. intros x [t Hx]%Hd. unfold time_of. cbn. rewrite Hx. cbn. by eapply Hp. }
      clear Hd. induction (time_of m <$> order) as [|t l IH]; cbn; [by repeat constructor|].
      apply StronglySorted_inv in Hs as [Hs Ht]. apply Forall_cons in Hle as [Htn Hle]. constructor; [by apply IH|].
      apply Forall_app. split; [done|]. by constructor.
    + apply list_fmap_ext. intros i x Hx%list_elem_of_lookup_2. unfold time_of. rewrite lookup_insert_ne; [done|congruence].
  - intros x t. rewrite lookup_insert_Some. intros [[_ <-]|[_ Hx]]; [done|by eapply Hp].
Qed.
Lemma queue_ok_later now now' order m : now ≤ now' → queue_ok now order m → queue_ok now' order m.
Proof. intros Hn [H1 H2 H3 H4]. split; [done|done|done|]. intros id t Ht%H4. lia. Qed.

(** The expired ids are a prefix of the queue, and the loop drops exactly these. *)
Lemma prune_loop_spec now ttl order m : 0 ≤ ttl → queue_ok now order m →
  let '(order', m') := prune_loop now ttl order m in
  queue_ok now order' m' ∧ (length order' ≤ length order)%nat
  ∧ ∀ id t, m' !! id = Some t ↔ m !! id = Some t ∧ now - t ≤ ttl.
Proof.
  intros Httl. revert m; induction order as [|id order IH]; intros m Hq; cbn [prune_loop].
  { split; [done|]. split; [done|]. intros id t. split; [|by intros [? _]]. intros Ht.
    assert (Hin : id ∈ ([] : list MessageId)) by (apply (qo_dom _ _ _ Hq); by eexists). by apply not_elem_of_nil in Hin. }
  destruct (proj1 (qo_dom _ _ _ Hq id)) as [t Ht]; [left|]. rewrite Ht. pose proof (qo_past _ _ _ Hq id t Ht) as Htn.
  unfold sat_sub. rewrite Z.max_l by lia. destruct (Z.ltb_spec ttl (now - t)) as [Hex|Hok].
  - specialize (IH (delete id m) (queue_ok_pop _ _ _ _ Hq)). destruct (prune_loop now ttl order (delete id m)) as [o' m'].
    destruct IH as (H1 & H2 & H3). split; [done|]. split; [cbn; lia|]. intros x s. rewrite H3, lookup_delete_Some.
    split; [naive_solver|]. intros [Hx Hs]. split; [|done]. split; [|done]. intros ->. rewrite Ht in Hx. injection Hx as ->. lia.
  - split; [done|]. split; [done|]. intros x s. split; [|by intros [? _]]. intros Hx. split; [done|].
    assert (Hxo : x ∈ id :: order) by (apply (qo_dom _ _ _ Hq); by eexists).
    apply elem_of_cons in Hxo as [->|Hxo]; [by rewrite Ht in Hx; injection Hx as <-|].
    pose proof (qo_sorted _ _ _ Hq) as Hso. cbn in Hso. apply StronglySorted_inv in Hso as [_ Hall].
    rewrite Forall_forall in Hall. specialize (Hall (time_of m x) (list_elem_of_fmap_2 _ _ _ Hxo)).
    unfold time_of in Hall. rewrite Ht, Hx in Hall. cbn in Hall. lia.
Qed.
Lemma shrink_loop_spec now cap order m : queue_ok now order m →
  let '(order', m') := shrink_loop cap order m in
  queue_ok now order' m' ∧ Z.of_nat (length order') ≤ Z.max 0 cap
  ∧ (Z.of_nat (length order) ≤ cap → order' = order ∧ m' = m).
Proof.
  revert m; induction order as [|id order IH]; intros m Hq; cbn [shrink_loop]; [split; [done|]; split; [cbn; lia|done]|].
  destruct (Z.ltb_spec cap (Z.of_nat (length (id :: order)))) as [Hlt|Hle].
  - specialize (IH (delete id m) (queue_ok_pop _ _ _ _ Hq)). destruct (shrink_loop cap order (delete id m)) as [o' m'].
    destruct IH as (H1 & H2 & _). split; [done|]. split; [done|]. cbn in *. lia.
  - split; [done|]. split; [lia|done].
Qed.

Lemma shrink_keeps_last cap order id m : 1 ≤ cap → NoDup (order ++ [id]) →
  (shrink_loop cap (order ++ [id]) m).2 !! id = m !! id.
Proof.
  intros Hcap. revert m; induction order as [|x order IH]; intros m Hn; cbn [app shrink_loop].
  - rewrite (proj2 (Z.ltb_ge _ _)); [done|cbn; lia].
  - destruct (_ <? _); [|done]. cbn in Hn. apply NoDup_cons in Hn as [Hx Hn]. rewrite IH by done.
    apply lookup_delete_ne. intros ->. apply Hx, elem_of_app. right. by left.
Qed.

Lemma prune_expired_ok now now' c : now ≤ now' → 0 ≤ ttl c → cache_ok now c →
  cache_ok now' (prune_expired now' c) ∧ ∀ id t, entries (prune_expired now' c) !! id = Some t ↔ entries c !! id = Some t ∧ now' - t ≤ ttl c.
Proof.
  intros Hn Httl [Hq Hl]. apply (queue_ok_later _ now') in Hq; [|done].
  pose proof (prune_loop_spec now' (ttl c) _ _ Httl Hq) as Hp. unfold prune_expired.
  destruct (prune_loop now' (ttl c) (cache_order c) (entries c)) as [o m]. destruct Hp as (H1 & H2 & H3).
  split; [|exact H3]. split; [exact H1|]. cbn. lia.
Qed.
Lemma prune_expired_fields now c : ttl (prune_expired now c) = ttl c ∧ cache_capacity (prune_expired now c) = cache_capacity c
  ∧ storage_db (prune_expired now c) = storage_db c.
Proof. unfold prune_expired. by destruct (prune_loop _ _ _ _). Qed.
Lemma persist_fields c : entries (persist c) = entries c ∧ cache_order (persist c) = cache_order c
  ∧ ttl (persist c) = ttl c ∧ cache_capacity (persist c) = cache_capacity c.
Proof. unfold persist. destruct (storage_db c) as [db|]; [|done]. by destruct (_ ≫= _). Qed.

(** An id is known exactly while its time to live lasts. *)
Lemma cache_contains_ok now now' id c : now ≤ now' → 0 ≤ ttl c → cache_ok now c →
  cache_ok now' (cache_contains now' id c).2
  ∧ ((cache_contains now' id c).1 = true ↔ ∃ t, entries c !! id = Some t ∧ now' - t ≤ ttl c).
Proof.
  intros Hn Httl Hc. destruct (prune_expired_ok now now' c Hn Httl Hc) as [Hok Hin]. split; [done|]. unfold cache_contains.
  cbn [fst]. rewrite bool_decide_eq_true. unfold is_Some. by setoid_rewrite Hin.
Qed.
Lemma insert_entry_ok now now' id b c : now ≤ now' → 0 ≤ ttl c → cache_ok now c →
  cache_ok now' (insert_entry now' id b c) ∧ ttl (insert_entry now' id b c) = ttl c
  ∧ cache_capacity (insert_entry now' id b c) = cache_capacity c
  ∧ (1 ≤ cache_capacity c → ∃ t, entries (insert_entry now' id b c) !! id = Some t ∧ now' - t ≤ ttl c).
Proof.
  intros Hn Httl Hc. destruct (prune_expired_ok now now' c Hn Httl Hc) as [[Hq Hl] Hin].
  destruct (prune_expired_fields now' c) as (Ft & Fc & _). unfold insert_entry.
  destruct (entries (prune_expired now' c) !! id) as [t|] eqn:Ei.
  { rewrite bool_decide_eq_true_2 by by eexists. split; [done|]. split; [done|]. split; [done|]. rewrite Ei. apply Hin in Ei as [_ Ei]. eauto. }
  clear Hin. rewrite bool_decide_eq_false_2 by by apply is_Some_None. pose proof (queue_ok_push _ id _ _ Hq Ei) as Hq'.
  pose proof (shrink_loop_spec now' (cache_capacity (prune_expired now' c)) _ _ Hq') as Hs.
  pose proof (shrink_keeps_last (cache_capacity (prune_expired now' c)) (cache_order (prune_expired now' c)) id
    (<[ id := now' ]> (entries (prune_expired now' c)))) as Hk.
  destruct (shrink_loop _ _ _) as [o m]. destruct Hs as (H1 & H2 & _). cbn [snd] in Hk.
  assert (Hset : cache_ok now' (set_entries o m (prune_expired now' c))) by by split.
  assert (Hin : 1 ≤ cache_capacity c → ∃ t, m !! id = Some t ∧ now' - t ≤ ttl c).
  { intros Hcap. exists now'. split; [|lia]. rewrite Hk; [by rewrite lookup_insert_eq|by rewrite Fc|apply (qo_nodup _ _ _ Hq')]. }
  destruct b; [|split; [exact Hset|]; split; [exact Ft|]; split; [exact Fc|exact Hin]].
  destruct (persist_fields (set_entries o m (prune_expired now' c))) as (P1 & P2 & P3 & P4).
  unfold cache_ok. rewrite P1, P2, P3, P4. split; [exact Hset|]. split; [exact Ft|]. split; [exact Fc|exact Hin].
Qed.

(** *** Reachable caches *)
Definition stored_ids (db : D) : list MessageId :=
  match db_get db CF_Default CACHE_STORE_KEY with
  | Ok (Some b) => match codec_deserialize (A:=list bytes) b with Ok keys => keys | _ => [] end
  | _ => []
  end.
Definition loaded_ids (capacity : Z) (db : option D) : list MessageId :=
  take (Z.to_nat capacity) (match db with Some db => stored_ids db | None => [] end).

Lemma load_run now ids c : foldl (λ c id, set_entries (cache_order c ++ [id]) (<[ id := now ]> (entries c)) c) c ids
  = set_entries (cache_order c ++ ids) (foldl (λ m id, <[ id := now ]> m) (entries c) ids) c.
Proof.
  revert c; induction ids as [|id ids IH]; intros c; cbn [foldl]; [by rewrite app_nil_r; destruct c|]. rewrite IH. cbn.
  by rewrite <- (assoc_L (++)).
Qed.
Lemma new_run now cap ttl db :
  GossipsubCache_new now cap ttl db =
  set_entries (loaded_ids cap db) (foldl (λ m id, <[ id := now ]> m) ∅ (loaded_ids cap db))
    {| entries := ∅; cache_order := []; cache_capacity := cap; ttl := ttl; storage_db := db |}.
Proof.
  unfold GossipsubCache_new, load_persistent_entries, loaded_ids, stored_ids. cbn [storage_db cache_capacity].
  destruct db as [db|]; [|by rewrite take_nil]. destruct (db_get _ _ _) as [[b|]|e|p]; try by rewrite take_nil.
  destruct (codec_deserialize b) as [keys|e|p]; try by rewrite take_nil. by rewrite load_run.
Qed.
Lemma loaded_queue now ids : NoDup ids → queue_ok now ids (foldl (λ m id, <[ id := now ]> m) ∅ ids).
Proof.
  induction ids as [|id ids IH] using rev_ind; intros Hn.
  { split; [constructor| |constructor|]; [|by intros]. intros id. split; [by intros ?%not_elem_of_nil|]. by intros [t Ht]. }
  rewrite foldl_snoc. apply NoDup_app in Hn as (Hn & Hd & _). specialize (IH Hn). apply queue_ok_push; [done|].
  apply eq_None_not_Some. intros Hs. apply (qo_dom _ _ _ IH) in Hs. apply (Hd id Hs). by left.
Qed.

Inductive cache_run : Z → GossipsubCache (D:=D) → Prop :=
  | cr_new now cap ttl db : 0 ≤ ttl → NoDup (loaded_ids cap db) → cache_run now (GossipsubCache_new now cap ttl db)
  | cr_contains now now' id c : cache_run now c → now ≤ now' → cache_run now' (cache_contains now' id c).2
  | cr_insert now now' id c : cache_run now c → now ≤ now' → cache_run now' (cache_insert now' id c).
Lemma cache_run_ok now c : cache_run now c → cache_ok now c ∧ 0 ≤ ttl c.
Proof.
  induction 1 as [now cap tl db Ht Hn|now now' id c _ [Hc Ht] Hle|now now' id c _ [Hc Ht] Hle].
  - rewrite new_run. split; [|done]. split; [by apply loaded_queue|]. cbn. unfold loaded_ids. rewrite length_take. lia.
  - split; [by eapply cache_contains_ok|]. cbn. by rewrite (proj1 (prune_expired_fields now' c)).
  - destruct (cache_contains_ok now now' id c Hle Ht Hc) as [Hok _]. unfold cache_insert.
    assert (Ft : ttl (cache_contains now' id c).2 = ttl c) by (cbn; apply prune_expired_fields).
    destruct (cache_contains now' id c) as [[] c1]; cbn [snd] in *; [by rewrite Ft|].
    destruct (insert_entry_ok now' now' id true c1) as (H1 & H2 & _); [done|lia|done|]. split; [done|lia].
Qed.

(** The cache never holds an id twice, more ids than its capacity or, after a look, an
    id beyond its time to live; an id is known exactly until that time has passed, and
    is known when it has just been inserted. *)
Theorem gossip_cache_exact now now' id c (Hc : cache_run now c) (Hle : now ≤ now') :
  NoDup (cache_order c) ∧ (∀ x, x ∈ cache_order c ↔ is_Some (entries c !! x))
  ∧ Z.of_nat (length (cache_order c)) ≤ Z.max 0 (cache_capacity c)
  ∧ ((cache_contains now' id c).1 = true ↔ ∃ t, entries c !! id = Some t ∧ now' - t ≤ ttl c)
  ∧ (1 ≤ cache_capacity c → (cache_contains now' id (cache_insert now' id c)).1 = true).
Proof.
  destruct (cache_run_ok now c Hc) as [Hok Ht]. pose proof Hok as [Hq Hl].
  split; [apply (qo_nodup _ _ _ Hq)|]. split; [apply (qo_dom _ _ _ Hq)|]. split; [done|].
  split; [by apply (cache_contains_ok now)|]. intros Hcap.
  pose proof (cr_insert now now' id c Hc Hle) as Hr. destruct (cache_run_ok _ _ Hr) as [Hok' Ht'].
  apply (cache_contains_ok now' now'); [done|done|done|].
  destruct (cache_contains_ok now now' id c Hle Ht Hok) as [Hok1 Hin]. unfold cache_insert in *.
  assert (Fc : cache_capacity (cache_contains now' id c).2 = cache_capacity c) by (cbn; apply prune_expired_fields).
  assert (Ft : ttl (cache_contains now' id c).2 = ttl c) by (cbn; apply prune_expired_fields).
  destruct (cache_contains now' id c) as [known c1] eqn:Ec. cbn [fst snd] in *. destruct known.
  - assert (E1 : (cache_contains now' id c).1 = true) by by rewrite Ec. destruct (proj1 Hin eq_refl) as (t & Et & Hlt).
    exists t. rewrite Ft. split; [|done]. replace c1 with (cache_contains now' id c).2 by by rewrite Ec.
    apply (prune_expired_ok now now' c Hle Ht Hok). done.
  - destruct (insert_entry_ok now' now' id true c1) as (_ & E & _ & Hs); [done|lia|done|].
    destruct (Hs ltac:(lia)) as (t & Et & Hlt). exists t. by rewrite E.
Qed.

(** A node that restarts knows the ids it had persisted, in their order, when the
    database could write and read them. *)
Theorem restart_restores `{!RocksDbLaws D, !CodecLaws (list bytes)} now now' c db db' b v (Hc : cache_run now c)
    (Hdb : storage_db c = Some db) (Hb : codec_serialize (cache_order c) = Ok b)
    (Hw : rocks_write db true [RocksPut CF_Default CACHE_STORE_KEY b] = Ok db')
    (Hr : db_get db' CF_Default CACHE_STORE_KEY = Ok v) :
  cache_order (GossipsubCache_new now' (cache_capacity c) (ttl c) (storage_db (persist c))) = cache_order c.
Proof.
  destruct (cache_run_ok now c Hc) as [[Hq Hl] _].
  assert (Ep : storage_db (persist c) = Some db') by (unfold persist; rewrite Hdb, Hb; unfold mbind, outcome_bind; by rewrite Hw).
  rewrite Ep, new_run. cbn. unfold loaded_ids, stored_ids. rewrite Hr.
  apply rocks_get_ok in Hr. apply rocks_write_ok in Hw. rewrite Hw in Hr. cbn in Hr. rewrite lookup_insert_eq in Hr. subst v.
  rewrite (codec_roundtrip _ _ Hb). apply take_ge. lia.
Qed.
End cache_proofs.

(** ** Witnesses *)
(** An encoding of ids: every byte is announced by [x01], an id is closed by [x00]. *)
Definition write_id (id : bytes) : bytes := mjoin ((λ b, [x01; b]) <$> id) ++ [x00].
Definition write_ids (ids : list bytes) : bytes := mjoin (write_id <$> ids).
Fixpoint read_ids (acc : bytes) (l : bytes) : list bytes :=
  match l with
  | [] => []
  | x00 :: l => reverse acc :: read_ids [] l
  | _ :: b :: l => read_ids (b :: acc) l
  | [_] => []
  end.
#[local] Instance ids_codec : Codec (list bytes) := {| codec_serialize ids := Ok (write_ids ids); codec_deserialize l := Ok (read_ids [] l) |}.
Lemma read_id acc id l : read_ids acc (write_id id ++ l) = (reverse acc ++ id) :: read_ids [] l.
Proof.
  revert acc; induction id as [|b id IH]; intros acc; cbn; [by rewrite app_nil_r|].
  unfold write_id in IH. rewrite IH. by rewrite reverse_cons, <- (assoc_L (++)).
Qed.
#[local] Instance ids_codec_laws : CodecLaws (list bytes).
Proof.
  split; [by eexists|]. intros ids b [= <-]. cbn. f_equal. induction ids as [|id ids IH]; [done|].
  change (write_ids (id :: ids)) with (write_id id ++ write_ids ids). by rewrite read_id, IH.
Qed.
Definition default_filter : SpamFilter :=
  {| spam_config := default_spam_config; token_buckets := ∅; peer_scores := ∅; message_cache := ∅; cache_ttl := seconds 300 |}.
Lemma check_message_never_returns_witness :
  SpamFilter_new default_spam_config = Ok default_filter
  ∧ check_message 0 [x01] [x02] [x02] MT_Transaction (reset_peer_score [x01] default_filter) = None.
Proof.
  assert (E : SpamFilter_new default_spam_config = Ok default_filter) by reflexivity. split; [exact E|].
  apply (check_message_never_returns default_spam_config default_filter); [exact E|]. apply rtc_once, fs_reset.
Defined.

(** The inputs of the tests [test_duplicate_detection] and [test_size_filtering] of
    [spam_filter.rs], which assert [Allow] and [OversizedMessage]: the calls are stuck,
    the first where it rewards the peer, the second where it penalizes it. *)
Definition test_config : SpamProtectionConfig :=
  {| max_messages_per_window := max_messages_per_window default_spam_config;
     rate_limit_window := rate_limit_window default_spam_config; max_transaction_size := 100;
     max_block_size := max_block_size default_spam_config; greylist_threshold := greylist_threshold default_spam_config;
     greylist_duration := greylist_duration default_spam_config; initial_peer_score := initial_peer_score default_spam_config;
     rate_limit_violation_penalty := rate_limit_violation_penalty default_spam_config;
     invalid_message_penalty := invalid_message_penalty default_spam_config;
     oversized_message_penalty := oversized_message_penalty default_spam_config;
     valid_message_reward := valid_message_reward default_spam_config |}.
Theorem spam_filter_tests_block now peer :
  check_message_size default_filter (String.list_byte_of_string "test data") MT_Transaction = true
  ∧ check_message now peer [x01; x02; x03] (String.list_byte_of_string "test data") MT_Transaction default_filter = None
  ∧ ∃ f, SpamFilter_new test_config = Ok f
    ∧ check_message_size f (replicate 200 x00) MT_Transaction = false
    ∧ check_message now peer [x01; x02; x03] (replicate 200 x00) MT_Transaction f = None.
Proof.
  split; [reflexivity|]. split; [by apply (check_message_never_returns default_spam_config default_filter)|].
  eexists. split; [reflexivity|]. split; [reflexivity|]. by eapply (check_message_never_returns test_config).
Qed.

Definition small_cache : GossipsubCache (D:=content) := GossipsubCache_new 0 2 100 (Some ∅).
Definition three_seen : GossipsubCache (D:=content) := cache_insert 60 [x03] (cache_insert 30 [x02] (cache_insert 0 [x01] small_cache)).
Lemma three_seen_run : cache_run 60 three_seen.
Proof.
  apply (cr_insert 30); [|lia]. apply (cr_insert 0); [|lia]. apply (cr_insert 0); [|lia].
  apply cr_new; [lia|]. assert (E : loaded_ids 2 (Some (∅ : content)) = []) by (vm_compute; reflexivity). rewrite E. constructor.
Qed.
Lemma gossip_cache_exact_witness :
  cache_order three_seen = [[x02]; [x03]] ∧ (cache_contains 130 [x02] three_seen).1 = true ∧ (cache_contains 131 [x02] three_seen).1 = false.
Proof.
  destruct (gossip_cache_exact 60 130 [x02] three_seen three_seen_run ltac:(lia)) as (_ & _ & _ & H1 & _).
  destruct (gossip_cache_exact 60 131 [x02] three_seen three_seen_run ltac:(lia)) as (_ & _ & _ & H2 & _).
  assert (Ht : entries three_seen !! [x02] = Some 30) by (vm_compute; reflexivity).
  assert (Hl : ttl three_seen = 100) by (vm_compute; reflexivity). rewrite Ht, Hl in *.
  split; [vm_compute; reflexivity|]. split.
  - apply H1. exists 30. split; [reflexivity|lia].
  - apply not_true_iff_false. intros (t & [= <-] & ?)%H2. lia.
Defined.
Lemma restart_restores_witness :
  cache_order (GossipsubCache_new 500 2 100 (storage_db (persist three_seen))) = [[x02]; [x03]].
Proof.
  assert (Hdb : match storage_db three_seen with Some _ => true | None => false end = true) by (vm_compute; reflexivity).
  destruct (storage_db three_seen) as [db|] eqn:Edb; [|discriminate Hdb].
  destruct (codec_serialize (cache_order three_seen)) as [b|e|p] eqn:Eb; [|discriminate Eb..].
  pose proof (restart_restores (D:=content) 60 500 three_seen db (<[(CF_Default, CACHE_STORE_KEY) := b]> db) b (Some b) three_seen_run Edb Eb) as Hr.
  assert (E2 : cache_order three_seen = [[x02]; [x03]]) by (vm_compute; reflexivity).
  assert (E3 : cache_capacity three_seen = 2 ∧ ttl three_seen = 100) by (split; vm_compute; reflexivity). destruct E3 as [E3 E4].
  rewrite E2, E3, E4 in Hr. apply Hr; [reflexivity|]. cbn. by rewrite lookup_insert_eq.
Defined.
