(* ===== verification/PeerScoring.v ===== *)
(** * Validation of gossip messages and the scores it moves

    klomang-node, [network/messaging/]: the scoring manager ([peer_scoring.rs]), the
    hooks over the validation of klomang-core ([core_validation_hooks.rs]), the validator
    ([validation.rs]), the topic meshes ([mesh.rs]) and the handling of a message by the
    event loop ([core_network/mod.rs]).

    [bincode::deserialize] of transactions and blocks, the encoding of a header and the
    clocks are arguments.  Logging is left out. *)

From Stdlib Require Import Init.Byte Floats.SpecFloat.
From stdpp Require Import gmap.
From S2P Require Import Prelude Crypto Errors Transaction Dag State Pow BlockValidation F64 Storage Gossip.

(** Now, as an instant and as seconds since 1970. *)
Record Clock := { instant : Z; unix_secs : Z }.

(** ** Outcomes and scores *)
Record GossipsubScoreThresholds := {
  gossip_threshold : f64;
  publish_threshold : f64;
  score_greylist_threshold : f64;
  accept_px_threshold : f64;
  opportunistic_graft_threshold : f64
}.
Definition default_score_thresholds : GossipsubScoreThresholds :=
  {| gossip_threshold := minus (f64_of_Z 500); publish_threshold := minus (f64_of_Z 1000);
     score_greylist_threshold := minus (f64_of_Z 500); accept_px_threshold := f64_of_Z 1000;
     opportunistic_graft_threshold := f64_of_Z 500 |}.

Inductive ValidationOutcome :=
  | VO_Valid
  | InvalidSignature (p : f64)
  | InvalidStructure (p : f64)
  | VO_OversizedMessage (p : f64)
  | VO_DoubleSpend (p : f64)
  | InvalidFee (p : f64)
  | OtherError (p : f64).
Definition penalty (o : ValidationOutcome) : f64 :=
  match o with
  | VO_Valid => f64_half
  | InvalidSignature p | InvalidStructure p | VO_OversizedMessage p | VO_DoubleSpend p | InvalidFee p | OtherError p => minus p
  end.
Definition is_valid_outcome (o : ValidationOutcome) : bool := match o with VO_Valid => true | _ => false end.

Record PeerValidationRecord := { valid_count : Z; invalid_count : Z; last_validation : Z }.

(** [PeerScoringManager]: the filter it shares and its own history. *)
Record Scoring := { sc_filter : SpamFilter; sc_thresholds : GossipsubScoreThresholds; history : gmap PeerId PeerValidationRecord }.
Definition set_sc_filter (f : SpamFilter) (s : Scoring) : Scoring :=
  {| sc_filter := f; sc_thresholds := sc_thresholds s; history := history s |}.
Definition update_validation_record (now : Z) (peer : PeerId) (is_valid : bool) (s : Scoring) : Scoring :=
  let r := match history s !! peer with
           | Some r => r
           | None => {| valid_count := 0; invalid_count := 0; last_validation := now |}
           end in
  let r := if is_valid then {| valid_count := wadd 32 (valid_count r) 1; invalid_count := invalid_count r; last_validation := now |}
           else {| valid_count := valid_count r; invalid_count := wadd 32 (invalid_count r) 1; last_validation := now |} in
  {| sc_filter := sc_filter s; sc_thresholds := sc_thresholds s; history := <[ peer := r ]> (history s) |}.
(** The guards are dropped with each [if let], so none is held at the next. *)
Definition apply_validation_outcome (now : Z) (peer : PeerId) (o : ValidationOutcome) (s : Scoring) : Scoring :=
  let zero := S754_zero false in
  let f := sc_filter s in
  let f := if SFltb (penalty o) zero
           then set_scores (alter (update_score now (penalty o) (spam_config f)) peer (peer_scores f)) f
           else if SFltb zero (penalty o)
           then set_scores (alter (λ e, set_score (f64_add (peer_score e) (penalty o)) e) peer (peer_scores f)) f
           else f in
  update_validation_record now peer (is_valid_outcome o) (set_sc_filter f s).
Definition should_greylist (peer : PeerId) (s : Scoring) : bool :=
  match get_peer_score peer (sc_filter s) with
  | Some score => SFleb score (score_greylist_threshold (sc_thresholds s))
  | None => false
  end.
Definition clear_greylist_if_recovered (peer : PeerId) (s : Scoring) : bool * Scoring :=
  match get_peer_status peer (sc_filter s) with
  | Some status =>
      if SFltb (f64_add (score_greylist_threshold (sc_thresholds s)) (f64_of_Z 100)) (peer_score status)
      then (true, set_sc_filter (clear_greylist peer (sc_filter s)) s) else (false, s)
  | None => (false, s)
  end.

(** ** The hooks *)
Inductive ValidationHookResult := HookValid | HookInvalid (o : ValidationOutcome).

Section hooks.
Context `{Blake3} `{K256} (deserialize_transaction : bytes → option Transaction) (deserialize_block : bytes → option BlockNode).

Definition check_transaction_structure (tx : Transaction) : bool :=
  if bool_decide (inputs tx = []) && negb (is_coinbase tx) then false
  else if bool_decide (outputs tx = []) then false
  else forallb (λ i, negb (bool_decide (signature i = [])) && negb (bool_decide (pubkey i = []) && negb (is_coinbase tx))) (inputs tx).

(** Whether the input at [idx] counts as invalid. *)
Definition input_invalid (tx : Transaction) (idx : nat) (i : TxInput) : bool :=
  if is_coinbase tx then false
  else if negb (bool_decide (length (signature i) = 64%nat)) then true
  else if negb (bool_decide (length (pubkey i) = 32%nat)) && negb (bool_decide (length (pubkey i) = 33%nat)) then true
  else
    match compute_sighash tx idx (sighash_type i) with
    | Ok sighash =>
        match verify_schnorr (take 32 (pubkey i)) (take 64 (signature i)) (as_bytes sighash) with
        | Ok true => false
        | _ => true
        end
    | _ => true
    end.
Definition validate_transaction_signatures (tx : Transaction) : option nat :=
  let invalid_count := length (filter (λ p : nat * TxInput, input_invalid tx p.1 p.2 = true) (enumerate (inputs tx))) in
  if Nat.ltb 0 invalid_count then Some invalid_count else None.

Definition detect_spam_patterns (tx : Transaction) : bool :=
  if (gas_limit tx =? 0) && (max_fee_per_gas tx =? 0) then true
  else if Nat.ltb 1000 (length (inputs tx)) || Nat.ltb 1000 (length (outputs tx)) then true
  else chain_id tx =? 0.

Definition validate_block_transactions (block : BlockNode) : bool := forallb check_transaction_structure (transactions block).

(** The outcome of a payload; it is applied to the peer whatever it is. *)
Definition transaction_outcome (data : bytes) : ValidationOutcome :=
  match deserialize_transaction data with
  | None => InvalidStructure (f64_of_Z 20)
  | Some tx =>
      if negb (check_transaction_structure tx) then InvalidStructure (f64_of_Z 15)
      else if negb (bool_decide (id tx = calculate_id tx)) then InvalidStructure (f64_of_Z 15)
      else if bool_decide (is_Some (validate_transaction_signatures tx)) then InvalidSignature (f64_of_Z 25)
      else if detect_spam_patterns tx then InvalidStructure (f64_of_Z 20)
      else VO_Valid
  end.
Definition block_outcome (now : Clock) (data : bytes) : ValidationOutcome :=
  match deserialize_block data with
  | None => InvalidStructure (f64_of_Z 25)
  | Some block =>
      if bool_decide (as_bytes (block_id (header block)) = []) then InvalidStructure (f64_of_Z 20)
      else if wadd 64 (unix_secs now) 600 <? timestamp (header block) then InvalidStructure (f64_of_Z 15)
      else if negb (validate_block_transactions block) then InvalidStructure (f64_of_Z 20)
      else VO_Valid
  end.
Definition hook_result (o : ValidationOutcome) : ValidationHookResult := match o with VO_Valid => HookValid | o => HookInvalid o end.
Definition validate_payload (now : Clock) (peer : PeerId) (o : ValidationOutcome) (s : Scoring) : ValidationHookResult * Scoring :=
  (hook_result o, apply_validation_outcome (instant now) peer o s).
Definition verify_spam_potential (now : Clock) (peer : PeerId) (message : Message) (s : Scoring) : ValidationHookResult * Scoring :=
  match type_of_topic (message_topic message) with
  | Some MT_Transaction => validate_payload now peer (transaction_outcome (message_data message)) s
  | Some MT_Block => validate_payload now peer (block_outcome now (message_data message)) s
  | None => (HookValid, s)
  end.

(** ** The validator *)
Inductive MessageAcceptance := MA_Accept | MA_Reject | MA_Ignore.

Definition input_verifies (tx : Transaction) (idx : nat) (i : TxInput) : bool :=
  if negb (bool_decide (length (pubkey i) = 32%nat)) || negb (bool_decide (length (signature i) = 64%nat)) then false
  else
    match compute_sighash tx idx (sighash_type i) with
    | Ok sighash =>
        match verify_schnorr (take 32 (pubkey i)) (take 64 (signature i)) (as_bytes sighash) with Ok true => true | _ => false end
    | _ => false
    end.
Definition validate_transaction_message (message : Message) : MessageAcceptance :=
  match deserialize_transaction (message_data message) with
  | Some tx =>
      if negb (bool_decide (id tx = calculate_id tx)) then MA_Reject
      else if forallb (λ p : nat * TxInput, input_verifies tx p.1 p.2) (enumerate (inputs tx)) then MA_Accept else MA_Reject
  | None => MA_Reject
  end.
Definition validate_block_message (bincode_header : BlockHeader → option (list byte)) (now : Clock) (message : Message) : MessageAcceptance :=
  match deserialize_block (message_data message) with
  | Some block =>
      if bool_decide (as_bytes (block_id (header block)) = []) then MA_Reject
      else if wadd 64 (unix_secs now) 300 <? timestamp (header block) then MA_Reject
      else if nonce (header block) =? 0 then MA_Reject
      else if negb (verify_block_signature bincode_header block) then MA_Reject
      else MA_Accept
  | None => MA_Reject
  end.
Definition validate_message (bincode_header : BlockHeader → option (list byte)) (local_peer_id : PeerId) (now : Clock)
    (peer : PeerId) (message : Message) : MessageAcceptance :=
  if bool_decide (peer = local_peer_id) then MA_Accept
  else if bool_decide (message_data message = []) then MA_Reject
  else
    match type_of_topic (message_topic message) with
    | Some MT_Transaction => validate_transaction_message message
    | Some MT_Block => validate_block_message bincode_header now message
    | None => MA_Ignore
    end.
End hooks.

(** ** The meshes *)
Record MeshScore := {
  mesh_score : f64;
  valid_messages : Z;
  invalid_messages : Z;
  last_activity : Z;
  connection_quality : f64
}.
Definition MeshScore_default (now : Z) : MeshScore :=
  {| mesh_score := S754_zero false; valid_messages := 0; invalid_messages := 0; last_activity := now;
     connection_quality := f64_of_Z 1 |}.
Definition fifth : f64 := S754_finite false 7205759403792794 (-55).
Definition slight_decay : f64 := S754_finite false 8556839292003942 (-53).
Definition rewarded (timely : bool) (s : MeshScore) : MeshScore :=
  let score := f64_add (mesh_score s) (f64_of_Z 1) in
  {| mesh_score := if timely then f64_add score f64_half else score; valid_messages := wadd 64 (valid_messages s) 1;
     invalid_messages := invalid_messages s; last_activity := last_activity s;
     connection_quality := if timely then f64_min (f64_add (connection_quality s) (f64_of_Z 1)) (f64_of_Z 1) else connection_quality s |}.
Definition punished (s : MeshScore) : MeshScore :=
  {| mesh_score := SFsub 53 1024 (mesh_score s) (f64_of_Z 5); valid_messages := valid_messages s;
     invalid_messages := wadd 64 (invalid_messages s) 1; last_activity := last_activity s;
     connection_quality := f64_max (SFsub 53 1024 (connection_quality s) fifth) (S754_zero false) |}.
Definition touched (now : Z) (s : MeshScore) : MeshScore :=
  {| mesh_score := mesh_score s; valid_messages := valid_messages s; invalid_messages := invalid_messages s;
     last_activity := now; connection_quality := connection_quality s |}.
(** The decay looks at the activity that has just been set. *)
Definition decayed (now : Z) (s : MeshScore) : MeshScore :=
  if 3600 <? sat_sub now (last_activity s) then
    {| mesh_score := f64_mul (mesh_score s) slight_decay; valid_messages := valid_messages s;
       invalid_messages := invalid_messages s; last_activity := last_activity s; connection_quality := connection_quality s |}
  else s.
Definition update_mesh_score (now : Z) (valid timely : bool) (s : MeshScore) : MeshScore :=
  let s := touched now s in
  decayed now (if valid then rewarded timely s else punished s).

Abbreviation Mesh := (gmap PeerId MeshScore).
Definition topic_update_peer_score (now : Z) (peer : PeerId) (valid timely : bool) (m : Mesh) : Mesh :=
  let s := match m !! peer with Some s => s | None => MeshScore_default now end in
  <[ peer := update_mesh_score now valid timely s ]> m.
Definition topic_peer_score (peer : PeerId) (m : Mesh) : f64 :=
  match m !! peer with Some s => mesh_score s | None => S754_zero false end.
Definition graylist_threshold : f64 := minus (f64_of_Z 100).
Definition topic_should_disconnect (peer : PeerId) (m : Mesh) : bool := SFltb (topic_peer_score peer m) graylist_threshold.
Record MeshStats := { ms_total_peers : Z; high_score_peers : Z; low_score_peers : Z; target_mesh_size : Z }.
Definition get_mesh_stats (m : Mesh) : MeshStats :=
  {| ms_total_peers := Z.of_nat (size m);
     high_score_peers := Z.of_nat (size (filter (λ e : PeerId * MeshScore, SFltb (f64_of_Z 5) (mesh_score e.2) = true) m));
     low_score_peers := Z.of_nat (size (filter (λ e : PeerId * MeshScore, SFltb (mesh_score e.2) (minus (f64_of_Z 10)) = true) m));
     target_mesh_size := 6 |}.
Record MeshManager := { transaction_mesh : Mesh; block_mesh : Mesh }.
Definition MeshManager_new : MeshManager := {| transaction_mesh := ∅; block_mesh := ∅ |}.
Definition mesh_update (now : Z) (peer : PeerId) (topic : string) (valid timely : bool) (m : MeshManager) : MeshManager :=
  match type_of_topic topic with
  | Some MT_Transaction =>
      {| transaction_mesh := topic_update_peer_score now peer valid timely (transaction_mesh m); block_mesh := block_mesh m |}
  | Some MT_Block =>
      {| transaction_mesh := transaction_mesh m; block_mesh := topic_update_peer_score now peer valid timely (block_mesh m) |}
  | None => m
  end.
Definition should_disconnect_peer (peer : PeerId) (m : MeshManager) : bool :=
  topic_should_disconnect peer (transaction_mesh m) || topic_should_disconnect peer (block_mesh m).

(** ** The event loop *)
Section loop.
Context `{Blake3} `{K256} {D : Type} `{RocksDb D, Codec (list bytes)}.
Context (deserialize_transaction : bytes → option Transaction) (deserialize_block : bytes → option BlockNode).
Context (bincode_header : BlockHeader → option (list byte)) (local_peer_id : PeerId).

Record Messaging := { scoring : Scoring; seen : GossipsubCache (D:=D); meshes : MeshManager; disconnected : list PeerId }.

(** [GossipsubEvent::Message]: what is reported for the message, and the state; [None]
    when the handler, and with it the loop, does not go on. *)
Definition on_message (now : Clock) (peer : PeerId) (message : Message) (st : Messaging) : option (MessageAcceptance * Messaging) :=
  '(filter_result, (f, cache)) ← filter_message (instant now) peer message (sc_filter (scoring st), seen st);
  let s := set_sc_filter f (scoring st) in
  let '(acceptance, s) :=
    match filter_result with
    | Accept =>
        match verify_spam_potential deserialize_transaction deserialize_block now peer message s with
        | (HookValid, s) => (validate_message deserialize_transaction deserialize_block bincode_header local_peer_id now peer message, s)
        | (HookInvalid _, s) => (MA_Reject, s)
        end
    | DuplicateDrop | RateLimitDrop | GreylistDrop => (MA_Ignore, s)
    | OversizedDrop | Reject _ => (MA_Reject, s)
    end in
  match acceptance with
  | MA_Accept =>
      Some (acceptance, {| scoring := s; seen := cache;
        meshes := mesh_update (unix_secs now) peer (message_topic message) true true (meshes st); disconnected := disconnected st |})
  | MA_Reject =>
      let m := mesh_update (unix_secs now) peer (message_topic message) false false (meshes st) in
      Some (acceptance, {| scoring := s; seen := cache; meshes := m;
        disconnected := if should_disconnect_peer peer m then disconnected st ++ [peer] else disconnected st |})
  | MA_Ignore => Some (acceptance, {| scoring := s; seen := cache; meshes := meshes st; disconnected := disconnected st |})
  end.
(** [initialize_messaging_behaviour]: heartbeat and history give the time to live. *)
Definition new_messaging (now : Clock) (storage : option D) : outcome string Messaging :=
  f ← SpamFilter_new default_spam_config;
  Ok {| scoring := {| sc_filter := f; sc_thresholds := default_score_thresholds; history := ∅ |};
        seen := GossipsubCache_new (instant now) 4096
          (wmul 64 (heartbeat_interval_ms default_mesh_config) (history_length default_mesh_config) * 10 ^ 6) storage; meshes := MeshManager_new; disconnected := [] |}.
End loop.

(** ** What the hooks accept *)
Section outcomes.
Context `{Blake3} `{K256} (deserialize_transaction : bytes → option Transaction).

(** The signature of an input over the first 32 bytes of its key. *)
Definition signed_input (tx : Transaction) (idx : nat) (i : TxInput) : Prop :=
  length (signature i) = 64%nat
  ∧ verify_schnorr (take 32 (pubkey i)) (take 64 (signature i)) (as_bytes (tagged_hash TAG_TX_SIGN (serialize_tx_for_sighash tx idx (sighash_type i)))) = Ok true.

Lemma input_invalid_iff tx idx i : inputs tx ≠ [] →
  input_invalid tx idx i = false ↔ signed_input tx idx i ∧ (length (pubkey i) = 32%nat ∨ length (pubkey i) = 33%nat).
Proof.
  intros Hin. unfold input_invalid, signed_input, compute_sighash. cbv zeta.
  assert (Ec : is_coinbase tx = false) by (unfold is_coinbase; by destruct (inputs tx)). rewrite Ec.
  repeat case_bool_decide; cbn [negb andb]; [|try naive_solver congruence..].
  all: destruct (verify_schnorr _ _ _) as [[]|e|p]; naive_solver congruence.
Qed.
Lemma signatures_valid tx : validate_transaction_signatures tx = None ↔
  ∀ idx i, inputs tx !! idx = Some i → input_invalid tx idx i = false.
Proof.
  unfold validate_transaction_signatures. cbv zeta.
  set (bad := filter (λ p : nat * TxInput, input_invalid tx p.1 p.2 = true) (enumerate (inputs tx))).
  assert (Hbad : ∀ p, p ∈ bad ↔ input_invalid tx p.1 p.2 = true ∧ inputs tx !! p.1 = Some p.2).
  { intros [idx i]. unfold bad. rewrite list_elem_of_filter, list_elem_of_lookup. cbn. split.
    - intros [Hb [k Hk]]. rewrite enumerate_lookup in Hk. destruct (inputs tx !! k) as [j|] eqn:Ej; [|done].
      injection Hk as -> ->. done.
    - intros [Hb Hi]. split; [done|]. exists idx. by rewrite enumerate_lookup, Hi. }
  clearbody bad. destruct bad as [|p bad]; cbn.
  - split; [|done]. intros _ idx i Hi. apply not_true_is_false. intros Hb. apply (not_elem_of_nil (idx, i)), Hbad. done.
  - split; [done|]. intros Hall. destruct (proj1 (Hbad p)) as [Hb Hi]; [by left|]. by rewrite (Hall _ _ Hi) in Hb.
Qed.
Lemma structure_iff tx : check_transaction_structure tx = true ↔
  outputs tx ≠ [] ∧ ∀ i, i ∈ inputs tx → signature i ≠ [] ∧ pubkey i ≠ [].
Proof.
  unfold check_transaction_structure. destruct (inputs tx) as [|i0 ins] eqn:Ei.
  - assert (Ec : is_coinbase tx = true) by (unfold is_coinbase; by rewrite Ei). rewrite Ec. cbn.
    case_bool_decide; split; try done; [by intros [? _]|]. intros _. split; [done|]. by intros i ?%not_elem_of_nil.
  - assert (Ec : is_coinbase tx = false) by (unfold is_coinbase; by rewrite Ei). rewrite Ec. cbn [negb].
    rewrite (bool_decide_eq_false_2 (i0 :: ins = [])) by done. cbn [andb].
    case_bool_decide as Ho; [split; [done|by intros [? _]]|]. rewrite forallb_forall. setoid_rewrite <- list_elem_of_In.
    split.
    + intros Hf. split; [done|]. intros i Hi. specialize (Hf i Hi). rewrite andb_true_r in Hf.
      apply andb_true_iff in Hf as [H1%negb_true_iff%bool_decide_eq_false H2%negb_true_iff%bool_decide_eq_false]. done.
    + intros [_ Hall] i Hi. destruct (Hall i Hi) as [H1 H2]. rewrite andb_true_r.
      by rewrite !bool_decide_eq_false_2.
Qed.

(** What makes a transaction message valid for the hooks, in terms of the transaction. *)
Theorem transaction_outcome_spec data :
  transaction_outcome deserialize_transaction data = VO_Valid ↔
  ∃ tx, deserialize_transaction data = Some tx ∧ id tx = calculate_id tx ∧ outputs tx ≠ []
  ∧ (∀ idx i, inputs tx !! idx = Some i → signed_input tx idx i ∧ (length (pubkey i) = 32%nat ∨ length (pubkey i) = 33%nat))
  ∧ ¬ (gas_limit tx = 0 ∧ max_fee_per_gas tx = 0) ∧ (length (inputs tx) ≤ 1000)%nat ∧ (length (outputs tx) ≤ 1000)%nat ∧ chain_id tx ≠ 0.
Proof.
  unfold transaction_outcome. destruct (deserialize_transaction data) as [tx|]; [|split; [done|by intros (tx & ? & _)]].
  assert (Hsig : validate_transaction_signatures tx = None ↔ ∀ idx i, inputs tx !! idx = Some i →
    signed_input tx idx i ∧ (length (pubkey i) = 32%nat ∨ length (pubkey i) = 33%nat)).
  { rewrite signatures_valid. split; intros Hall idx i Hi; specialize (Hall idx i Hi); apply input_invalid_iff in Hall; try done.
    all: intros E; by rewrite E in Hi. }
  assert (Hspam : detect_spam_patterns tx = false ↔ ¬ (gas_limit tx = 0 ∧ max_fee_per_gas tx = 0)
    ∧ (length (inputs tx) ≤ 1000)%nat ∧ (length (outputs tx) ≤ 1000)%nat ∧ chain_id tx ≠ 0).
  { unfold detect_spam_patterns. destruct (Z.eqb_spec (gas_limit tx) 0), (Z.eqb_spec (max_fee_per_gas tx) 0); cbn [andb];
      try (destruct (Nat.ltb_spec 1000 (length (inputs tx))), (Nat.ltb_spec 1000 (length (outputs tx))); cbn [orb]);
      try (destruct (Z.eqb_spec (chain_id tx) 0)); split; try done; try lia; naive_solver lia. }
  assert (Hst : (outputs tx ≠ [] ∧ ∀ idx i, inputs tx !! idx = Some i → signed_input tx idx i ∧ (length (pubkey i) = 32%nat ∨ length (pubkey i) = 33%nat)) →
    check_transaction_structure tx = true).
  { intros [Ho Hall]. apply structure_iff. split; [done|]. intros i [idx Hi]%list_elem_of_lookup. destruct (Hall idx i Hi) as [[H1 _] H2].
    split; intros E; rewrite E in *; cbn in *; lia. }
  split.
  - destruct (check_transaction_structure tx) eqn:Es; [|done]. case_bool_decide as Hid; [|done]. cbn [negb].
    case_bool_decide as Hv; [done|]. apply eq_None_not_Some in Hv. destruct (detect_spam_patterns tx) eqn:Ed; [done|]. intros _.
    apply structure_iff in Es as [Ho _]. exists tx. rewrite Hsig in Hv. pose proof (proj1 Hspam ltac:(done)) as Hd. tauto.
  - intros (tx' & [= <-] & Hid & Ho & Hall & Hd). rewrite Hst by done. rewrite bool_decide_eq_true_2 by done. cbn [negb].
    rewrite (proj2 Hsig Hall), (proj2 Hspam Hd). rewrite bool_decide_eq_false_2; [done|]. by apply is_Some_None.
Qed.

(** What the hooks accept and the validator does not: keys of 33 bytes, of which the
    hooks verify the first 32. *)
Theorem validator_after_hooks message tx : transaction_outcome deserialize_transaction (message_data message) = VO_Valid →
  deserialize_transaction (message_data message) = Some tx →
  validate_transaction_message deserialize_transaction message
  = if forallb (λ i, bool_decide (length (pubkey i) = 32%nat)) (inputs tx) then MA_Accept else MA_Reject.
Proof.
  intros (tx' & E' & Hid & _ & Hall & _)%transaction_outcome_spec E. rewrite E in E'. injection E' as <-.
  unfold validate_transaction_message. rewrite E. rewrite bool_decide_eq_true_2 by done. cbn [negb].
  assert (Hin : forallb (λ p : nat * TxInput, input_verifies tx p.1 p.2) (enumerate (inputs tx))
    = forallb (λ i, bool_decide (length (pubkey i) = 32%nat)) (inputs tx)); [|by rewrite Hin].
  assert (Hv : ∀ idx i, inputs tx !! idx = Some i → input_verifies tx idx i = bool_decide (length (pubkey i) = 32%nat)).
  { intros idx i Hi. destruct (Hall idx i Hi) as [[Hl Hs] _]. unfold input_verifies, compute_sighash. cbv zeta. rewrite Hs.
    rewrite (bool_decide_eq_true_2 (length (signature i) = 64%nat)) by done. by case_bool_decide. }
  apply eq_bool_prop_intro. rewrite !forallb_True, !Forall_forall. split.
  - intros Hf i [idx Hi]%list_elem_of_lookup. rewrite <- (Hv idx i Hi). apply (Hf (idx, i)), (list_elem_of_lookup_2 _ idx).
    by rewrite enumerate_lookup, Hi.
  - intros Hf [idx i] [k Hk]%list_elem_of_lookup. rewrite enumerate_lookup in Hk. destruct (inputs tx !! k) as [j|] eqn:Ej; [|done].
    injection Hk as -> ->. cbn. rewrite (Hv _ _ Ej). apply Hf. by eapply list_elem_of_lookup_2.
Qed.

(** Every transaction that the constructor of klomang-core makes counts as spam. *)
Theorem constructed_is_spam ins outs data : deserialize_transaction data = Some (Transaction_new ins outs) →
  transaction_outcome deserialize_transaction data ≠ VO_Valid.
Proof. intros E (tx & E' & _ & _ & _ & Hg & _)%transaction_outcome_spec. rewrite E in E'. injection E' as <-. by apply Hg. Qed.
End outcomes.

(** The decay of a mesh score compares the time with itself. *)
Theorem mesh_scores_never_decay now valid timely s :
  update_mesh_score now valid timely s = if valid then rewarded timely (touched now s) else punished (touched now s).
Proof.
  unfold update_mesh_score, decayed. assert (E : sat_sub now now = 0) by (unfold sat_sub; lia).
  destruct valid; cbn [last_activity rewarded punished touched]; by rewrite E.
Qed.

(** ** No message is accepted *)
Section loop_proofs.
Context `{Blake3} `{K256} {D : Type} `{RocksDb D, Codec (list bytes)}.
Context (deserialize_transaction : bytes → option Transaction) (deserialize_block : bytes → option BlockNode).
Context (bincode_header : BlockHeader → option (list byte)) (local_peer_id : PeerId).
Abbreviation handle := (on_message deserialize_transaction deserialize_block bincode_header local_peer_id).
Implicit Types st : Messaging (D:=D).

(** The states of the loop: messages it has dealt with. *)
Inductive handled st : Messaging (D:=D) → Prop :=
  | handled_message now peer message r st' : handle now peer message st = Some (r, st') → handled st st'.

Lemma filter_message_untouched now peer message f (c : GossipsubCache (D:=D)) : untouched f →
  match filter_message now peer message (f, c) with
  | Some (DuplicateDrop, (f', _)) => f' = f ∧ (cache_contains now (message_data message) c).1 = true
  | Some (Reject _, (f', _)) => f' = f ∧ (cache_contains now (message_data message) c).1 = false ∧ type_of_topic (message_topic message) = None
  | Some _ => False
  | None => (cache_contains now (message_data message) c).1 = false ∧ is_Some (type_of_topic (message_topic message))
  end.
Proof.
  intros Hf. unfold filter_message. destruct (cache_contains now (message_data message) c) as [[] c'] eqn:Ec; cbn [fst]; [done|].
  destruct (type_of_topic (message_topic message)) as [ty|]; [|done]. rewrite (untouched_blocks f Hf). cbn. eauto.
Qed.

Lemma on_message_untouched now peer message st : untouched (sc_filter (scoring st)) →
  match handle now peer message st with
  | Some (MA_Ignore, st') => untouched (sc_filter (scoring st')) ∧ (cache_contains (instant now) (message_data message) (seen st)).1 = true
  | Some (MA_Reject, st') => untouched (sc_filter (scoring st'))
      ∧ (cache_contains (instant now) (message_data message) (seen st)).1 = false ∧ type_of_topic (message_topic message) = None
  | Some (MA_Accept, _) => False
  | None => (cache_contains (instant now) (message_data message) (seen st)).1 = false ∧ is_Some (type_of_topic (message_topic message))
  end.
Proof.
  intros Hf. unfold on_message. pose proof (filter_message_untouched (instant now) peer message _ (seen st) Hf) as Hm.
  destruct (filter_message _ _ _ _) as [[r [f c]]|]; [|done]. cbn [mbind option_bind].
  destruct r; try done; destruct Hm as [-> Hm]; cbn; done.
Qed.

(** C29. From the start of the node on, no gossip message is ever accepted.  One that is in
    the cache of ids is ignored, one of a foreign topic is rejected, and at the first
    other one the event loop stops: the spam filter holds the guard of the sender's
    score while it asks the same map for it again, which DashMap documents as a
    deadlock.  (The tests of [spam_filter.rs] expect these calls to return,
    [Gossip.spam_filter_tests_block].) *)
Theorem no_message_is_accepted start storage st0 st now peer message
    (Hnew : new_messaging start storage = Ok st0) (Hr : rtc handled st0 st) :
  match handle now peer message st with
  | Some (MA_Ignore, _) => (cache_contains (instant now) (message_data message) (seen st)).1 = true
  | Some (MA_Reject, _) => (cache_contains (instant now) (message_data message) (seen st)).1 = false ∧ type_of_topic (message_topic message) = None
  | Some (MA_Accept, _) => False
  | None => (cache_contains (instant now) (message_data message) (seen st)).1 = false ∧ is_Some (type_of_topic (message_topic message))
  end.
Proof.
  assert (Hf : untouched (sc_filter (scoring st))).
  { assert (Hs : untouched (sc_filter (scoring st0))) by by injection Hnew as <-. clear Hnew.
    induction Hr as [|st1 st2 st3 [n p m r st' E] _ IH]; [done|]. apply IH.
    pose proof (on_message_untouched n p m st1 Hs) as Hm. rewrite E in Hm. by destruct r; [|apply Hm..]. }
  pose proof (on_message_untouched now peer message st Hf) as Hm. destruct (handle now peer message st) as [[[] st']|]; tauto.
Qed.
End loop_proofs.

(** ** Witnesses *)
#[local] Existing Instance toy_blake3.
#[local] Existing Instance toy_k256.
#[local] Existing Instance ids_codec.
Definition no_transactions (b : bytes) : option Transaction := None.
Definition no_blocks (b : bytes) : option BlockNode := None.
Definition no_headers (h : BlockHeader) : option (list byte) := None.
Definition started : Clock := {| instant := 0; unix_secs := 1700000000 |}.
Definition fresh_messaging : Messaging (D:=content) :=
  {| scoring := {| sc_filter := default_filter; sc_thresholds := default_score_thresholds; history := ∅ |};
     seen := GossipsubCache_new 0 4096 5000000000 None; meshes := MeshManager_new; disconnected := [] |}.
Definition gossiped : Message := {| message_data := [x01]; message_topic := TRANSACTIONS |}.
(** The first transaction message stops the loop. *)
Lemma no_message_is_accepted_witness :
  new_messaging (D:=content) started None = Ok fresh_messaging
  ∧ on_message no_transactions no_blocks no_headers [x09] started [x07] gossiped fresh_messaging = None.
Proof.
  assert (E : new_messaging (D:=content) started None = Ok fresh_messaging) by reflexivity. split; [exact E|].
  pose proof (no_message_is_accepted no_transactions no_blocks no_headers [x09] started None fresh_messaging fresh_messaging started [x07] gossiped
    E (rtc_refl _ _)) as Hm.
  destruct (on_message _ _ _ _ _ _ _ _) as [[[] st]|]; [destruct Hm|destruct Hm as [_ Ht]; discriminate Ht| |reflexivity].
  exfalso. vm_compute in Hm. discriminate Hm.
Defined.

(** A key of 33 bytes: valid for the hooks, rejected by the validator. *)
Definition key_of_3 : list byte := replicate 32 x03.
Definition long_key_tx : Transaction :=
  let tx := {| id := hash_of 0;
    inputs := [{| prev_tx := hash_of 1; index := 0; signature := key_of_3 ++ key_of_3; pubkey := key_of_3 ++ [x01]; sighash_type := All |}];
    outputs := [{| value := 1; pubkey_hash := hash_of 2 |}]; execution_payload := []; contract_address := None; gas_limit := 1;
    max_fee_per_gas := 1; chain_id := 1; locktime := 0 |} in
  set_id (calculate_id tx) tx.
Definition long_key_decoder (b : bytes) : option Transaction := Some long_key_tx.
Lemma validator_after_hooks_witness :
  transaction_outcome long_key_decoder (message_data gossiped) = VO_Valid
  ∧ validate_transaction_message long_key_decoder gossiped = MA_Reject.
Proof.
  assert (E : transaction_outcome long_key_decoder (message_data gossiped) = VO_Valid).
  { apply (proj2 (transaction_outcome_spec long_key_decoder (message_data gossiped))). exists long_key_tx. split; [reflexivity|]. split; [apply as_bytes_inj; vm_compute; reflexivity|]. split; [discriminate|].
    split; [|split; [intros [? _]; discriminate|split; [cbn; lia|split; [cbn; lia|discriminate]]]].
    intros [|idx] i Hi; [|discriminate Hi]. injection Hi as <-. split; [|right; reflexivity].
    split; [reflexivity|]. vm_compute. reflexivity. }
  split; [exact E|]. rewrite (validator_after_hooks long_key_decoder gossiped long_key_tx E eq_refl). reflexivity.
Defined.

Lemma constructed_is_spam_witness : transaction_outcome (λ _, Some (Transaction_new [] [])) [] ≠ VO_Valid.
Proof. apply (constructed_is_spam (λ _, Some (Transaction_new [] [])) [] [] []). reflexivity. Defined.
