(* ===== verification/AdvancedConflicts.v ===== *)
(** * Conflicts on outpoints, and their resolution

    klomang-node, [mempool/advanced_conflicts.rs]: the map from outpoints to the
    transactions that claim them, and the rule that decides between two
    transactions: fee rate, then time of arrival, then hash.

    The locks of the map are taken together; a method is one step.  The listing of a
    hash set is the argument [order]; the clock is an argument; the reference to the
    storage is never used by the code and is left out, as are the two transactions the
    resolution does not look at. *)

From Stdlib Require Import Init.Byte Floats.SpecFloat.
From S2P Require Import Prelude Crypto Transaction Pow NodePrelude ConflictGraph F64.

Inductive ConflictType :=
| DirectConflict (tx_a tx_b : TxHash) (outpoint : GraphPoint)
| IndirectConflict (original : TxHash) (affected : list TxHash)
| NoConflict.

Inductive ResolutionReason := HigherFeeRate | EarlierArrival | LexicographicalHash.
Record ResolutionResult := {
  winner : TxHash;
  loser : TxHash;
  reason : ResolutionReason;
  affected : list TxHash
}.

Record AdvancedConflictStats := {
  total_conflicts_detected : Z;
  total_resolutions : Z;
  total_evictions : Z;
  direct_conflicts : Z;
  indirect_conflicts : Z
}.
Definition AdvancedConflictStats_default : AdvancedConflictStats :=
  {| total_conflicts_detected := 0; total_resolutions := 0; total_evictions := 0; direct_conflicts := 0; indirect_conflicts := 0 |}.

Record ConflictMap := {
  claiming : gmap GraphPoint (gset TxHash);
  arrival_times : gmap TxHash Z;
  conflict_stats : AdvancedConflictStats
}.
Definition ConflictMap_new : ConflictMap :=
  {| claiming := ∅; arrival_times := ∅; conflict_stats := AdvancedConflictStats_default |}.

Definition set_claiming (c : gmap GraphPoint (gset TxHash)) (s : ConflictMap) : ConflictMap :=
  {| claiming := c; arrival_times := arrival_times s; conflict_stats := conflict_stats s |}.
Definition set_arrival_times (a : gmap TxHash Z) (s : ConflictMap) : ConflictMap :=
  {| claiming := claiming s; arrival_times := a; conflict_stats := conflict_stats s |}.
Definition count_direct (s : ConflictMap) : ConflictMap :=
  let st := conflict_stats s in
  {| claiming := claiming s; arrival_times := arrival_times s;
     conflict_stats := {| total_conflicts_detected := wadd 64 (total_conflicts_detected st) 1;
       total_resolutions := total_resolutions st; total_evictions := total_evictions st;
       direct_conflicts := wadd 64 (direct_conflicts st) 1; indirect_conflicts := indirect_conflicts st |} |}.
Definition count_resolution (s : ConflictMap) : ConflictMap :=
  let st := conflict_stats s in
  {| claiming := claiming s; arrival_times := arrival_times s;
     conflict_stats := {| total_conflicts_detected := total_conflicts_detected st;
       total_resolutions := wadd 64 (total_resolutions st) 1; total_evictions := wadd 64 (total_evictions st) 1;
       direct_conflicts := direct_conflicts st; indirect_conflicts := indirect_conflicts st |} |}.

Section conflict_map.
Context `{Bincode} (order : gset TxHash → list TxHash).

(** [OutPoint::from_hash] and [TxHash::from_hash] *)
Definition point_from_hash (h : Hash) (i : Z) : outcome string GraphPoint :=
  match bincode_hash h with Some tx_id => Ok (tx_id, i) | None => Err "Serialization error" end.

(** The loop over the inputs: it ends at the first outpoint that is claimed. *)
Fixpoint register_each_input (tx_hash : TxHash) (ins : list TxInput) : method ConflictMap string ConflictType :=
  match ins with
  | [] => mret NoConflict
  | input :: ins =>
      outpoint ← lift (map_err (λ _, "Failed to create outpoint: {}") (point_from_hash (prev_tx input) (index input)));
      self ← get;
      let claiming_txs := default ∅ (claiming self !! outpoint) in
      match order claiming_txs with
      | conflict_tx :: _ =>
          _ ← modify (λ s, set_claiming (<[outpoint := {[ tx_hash ]} ∪ claiming_txs]> (claiming s)) s);
          _ ← modify count_direct;
          mret (DirectConflict conflict_tx tx_hash outpoint)
      | [] =>
          _ ← modify (λ s, set_claiming (<[outpoint := {[ tx_hash ]} ∪ claiming_txs]> (claiming s)) s);
          register_each_input tx_hash ins
      end
  end.

(** [register_transaction] at the current time, and with an explicit time. *)
Definition register_transaction_internal (tx : Transaction) (tx_hash : TxHash) (arrival_time : Z) :
    method ConflictMap string ConflictType :=
  _ ← modify (λ s, set_arrival_times (<[tx_hash := arrival_time]> (arrival_times s)) s);
  register_each_input tx_hash (inputs tx).

(** ** Resolution *)
Definition fee_rate_of (fee size : Z) : f64 :=
  if 0 <? size then f64_div (f64_of_Z fee) (f64_of_Z size) else S754_zero false.
(** The double nearest to 0.01. *)
Definition one_percent : f64 := S754_finite false 5764607523034235 (-59).

Definition resolve_conflict (a b : TxHash) (size_a size_b fee_a fee_b : Z) :
    method ConflictMap string ResolutionResult :=
  self ← get;
  let time_a := default u64_max (arrival_times self !! a) in
  let time_b := default u64_max (arrival_times self !! b) in
  let fee_rate_a := fee_rate_of fee_a size_a in
  let fee_rate_b := fee_rate_of fee_b size_b in
  let '(winner, loser, reason) :=
    if SFltb one_percent (SFabs (SFsub 53 1024 fee_rate_a fee_rate_b)) then
      if SFltb fee_rate_b fee_rate_a then (a, b, HigherFeeRate) else (b, a, HigherFeeRate)
    else if negb (time_a =? time_b) then
      if time_a <? time_b then (a, b, EarlierArrival) else (b, a, EarlierArrival)
    else if negb (bytes_leb b a) then (a, b, LexicographicalHash) else (b, a, LexicographicalHash) in
  _ ← modify count_resolution;
  mret {| winner := winner; loser := loser; reason := reason; affected := [] |}.

Definition resolve_deterministic (conflicts : ConflictType) (a b : TxHash) (size_a size_b fee_a fee_b : Z) :
    method ConflictMap string ResolutionResult :=
  match conflicts with
  | DirectConflict _ _ _ => resolve_conflict a b size_a size_b fee_a fee_b
  | _ => throw "Cannot resolve non-direct conflicts here"
  end.

(** ** Removal and look-ups *)

(** The claims of a transaction go, and the outpoints nobody claims any more. *)
Definition unclaim (tx_hash : TxHash) (claiming_txs : gset TxHash) : option (gset TxHash) :=
  if bool_decide (tx_hash ∈ claiming_txs) then
    let rest := claiming_txs ∖ {[ tx_hash ]} in
    if bool_decide (rest = ∅) then None else Some rest
  else Some claiming_txs.

Definition remove_claims (tx_hash : TxHash) : method ConflictMap string Z :=
  self ← get;
  let outpoints_to_clean := filter (λ e, tx_hash ∈ e.2) (claiming self) in
  _ ← modify (λ s, set_claiming (omap (unclaim tx_hash) (claiming s)) s);
  _ ← modify (λ s, set_arrival_times (delete tx_hash (arrival_times s)) s);
  mret (Z.of_nat (size outpoints_to_clean)).

Definition get_claiming_transactions (s : ConflictMap) (outpoint : GraphPoint) : list TxHash :=
  match claiming s !! outpoint with Some txs => order txs | None => [] end.
Definition map_has_conflicts (s : ConflictMap) (outpoint : GraphPoint) : bool :=
  match claiming s !! outpoint with Some txs => bool_decide (1 < size txs)%nat | None => false end.
Definition get_conflicted_outpoints (s : ConflictMap) : gset GraphPoint := dom (claiming s).
Definition map_clear (s : ConflictMap) : ConflictMap := set_arrival_times ∅ (set_claiming ∅ s).
Definition map_len (s : ConflictMap) : nat := size (claiming s).
End conflict_map.

(** ** The rule is symmetric *)
Lemma binary_round_opp prec emax s m e :
  SFabs (binary_round prec emax s m e) = SFabs (binary_round prec emax false m e).
Proof.
  unfold binary_round, binary_round_aux. destruct (shl_align _ _ _) as [mz ez].
  destruct (shr_fexp prec emax _ _ _) as [r1 e1]. destruct (shr_fexp prec emax _ e1 loc_Exact) as [r2 e2].
  destruct (shr_m r2) as [|p|p]; try done. by destruct (e2 <=? emax - prec).
Qed.

Lemma binary_normalize_opp prec emax z e :
  SFabs (binary_normalize prec emax (- z) e false) = SFabs (binary_normalize prec emax z e false).
Proof.
  destruct z as [|p|p]; [done|exact (binary_round_opp prec emax true p e)|symmetry; exact (binary_round_opp prec emax true p e)].
Qed.

Lemma SFabs_sub_comm x y : SFabs (SFsub 53 1024 x y) = SFabs (SFsub 53 1024 y x).
Proof.
  destruct x as [sx|sx| |sx mx ex], y as [sy|sy| |sy my ey]; try done; try (by destruct sx, sy).
  cbn [SFsub]. rewrite (Z.min_comm ey ex).
  rewrite <- binary_normalize_opp. do 2 f_equal. lia.
Qed.

(** A difference above the tolerance orders its operands. *)
Lemma SFsub_apart x y : SFltb one_percent (SFabs (SFsub 53 1024 x y)) = true → SFltb y x = negb (SFltb x y).
Proof.
  intros Hd. destruct (f64_is_nan x) eqn:Hx; [by destruct x|]. destruct (f64_is_nan y) eqn:Hy; [by destruct y, x|].
  unfold SFltb. rewrite !SFcompare_key, (lex3_antisym (f64_key x) (f64_key y)) by done.
  destruct (lex3 (f64_key x) (f64_key y)) eqn:E; [|done|done]. apply lex3_eq in E. exfalso. revert Hd.
  destruct x as [sx|[]| |[] mx ex], y as [sy|[]| |[] my ey]; cbn in E; try done; try (by destruct sx, sy); simplify_eq.
  - assert (ex = ey) as -> by lia. cbn [SFsub]. by rewrite Z.sub_diag.
  - cbn [SFsub]. by rewrite Z.sub_diag.
Qed.

Section resolution.
Implicit Types (s : ConflictMap).

(** What a resolution decides. *)
Definition verdict s (a b : TxHash) (size_a size_b fee_a fee_b : Z) : outcome string ResolutionResult :=
  (resolve_conflict a b size_a size_b fee_a fee_b s).1.

(** The decision does not depend on which transaction is named first. *)
Theorem resolution_symmetric s (a b : TxHash) (size_a size_b fee_a fee_b : Z) :
  verdict s a b size_a size_b fee_a fee_b = verdict s b a size_b size_a fee_b fee_a
  ∧ ∃ r, verdict s a b size_a size_b fee_a fee_b = Ok r
    ∧ ((winner r = a ∧ loser r = b) ∨ (winner r = b ∧ loser r = a)) ∧ affected r = []
    ∧ claiming (resolve_conflict a b size_a size_b fee_a fee_b s).2 = claiming s.
Proof.
  unfold verdict, resolve_conflict. erewrite !method_bind_run by done.
  set (x := fee_rate_of fee_a size_a). set (y := fee_rate_of fee_b size_b).
  set (ta := default u64_max (arrival_times s !! a)). set (tb := default u64_max (arrival_times s !! b)).
  rewrite (SFabs_sub_comm y x). rewrite (Z.eqb_sym tb ta).
  assert (Hlex : negb (bytes_leb a b) = true → negb (bytes_leb b a) = false).
  { destruct (bytes_leb_total a b) as [->| ->]; [done|]. done. }
  assert (Heq : negb (bytes_leb a b) = false → negb (bytes_leb b a) = false → a = b).
  { rewrite !negb_false_iff. intros. by apply bytes_leb_antisym. }
  destruct (SFltb one_percent _) eqn:Hd.
  - apply SFsub_apart in Hd. rewrite Hd. destruct (SFltb x y); cbn; (split; [done|]); eauto 10.
  - destruct (Z.eqb_spec ta tb) as [Ht|Ht]; cbn [negb].
    + destruct (negb (bytes_leb b a)) eqn:E1, (negb (bytes_leb a b)) eqn:E2.
      * by specialize (Hlex eq_refl).
      * cbn. split; [done|]. eauto 10.
      * cbn. split; [done|]. eauto 10.
      * rewrite (Heq eq_refl eq_refl). cbn. split; [done|]. eauto 10.
    + destruct (Z.ltb_spec ta tb), (Z.ltb_spec tb ta); try lia; cbn; (split; [done|]); eauto 10.
Qed.
End resolution.

(** ** The claims *)
Section claims.
Context `{BincodeLaws} (order : gset TxHash → list TxHash) (Horder : ∀ s, order s ≡ₚ elements s).
Implicit Types (s : ConflictMap) (c : gmap GraphPoint (gset TxHash)) (h : TxHash).

Definition point_of (i : TxInput) : GraphPoint := (hash_bytes (prev_tx i), index i).
Definition claim h (p : GraphPoint) c : gmap GraphPoint (gset TxHash) := <[p := {[ h ]} ∪ default ∅ (c !! p)]> c.
Definition claimed_in c (p : GraphPoint) : bool := bool_decide (default ∅ (c !! p) ≠ ∅).

Lemma order_head X : match order X with [] => X = ∅ | x :: _ => x ∈ X end.
Proof.
  pose proof (Horder X) as Hp. destruct (order X) as [|x l].
  - apply Permutation_nil_l in Hp. by apply leibniz_equiv, elements_empty_iff.
  - apply elem_of_elements. rewrite <- Hp. by left.
Qed.

(** The claims a registration takes: those of the inputs up to the first outpoint
    that is claimed already, by the transaction itself included. *)
Fixpoint taken h c (ps : list GraphPoint) : option GraphPoint * gmap GraphPoint (gset TxHash) :=
  match ps with
  | [] => (None, c)
  | p :: ps => if claimed_in c p then (Some p, claim h p c) else taken h (claim h p c) ps
  end.

Lemma map_register_run h ins s :
  let '(conflict, c) := taken h (claiming s) (point_of <$> ins) in
  ∃ t s', register_each_input order h ins s = (Ok t, s') ∧ claiming s' = c ∧ arrival_times s' = arrival_times s
  ∧ match conflict with
    | None => t = NoConflict
    | Some p => ∃ other, t = DirectConflict other h p ∧ other ∈ default ∅ (claiming s !! p) ∪ {[ h ]}
    end.
Proof.
  revert s; induction ins as [|i ins IH]; intros s; cbn [fmap list_fmap taken register_each_input]; [by eexists _, _|].
  erewrite method_bind_run by (unfold lift, point_from_hash; by rewrite hash_bytes_spec).
  erewrite method_bind_run by done. change (hash_bytes (prev_tx i), index i) with (point_of i).
  pose proof (order_head (default ∅ (claiming s !! point_of i))) as Hh.
  unfold claimed_in. destruct (order _) as [|x l].
  - rewrite bool_decide_eq_false_2 by (by intros []). erewrite method_bind_run by done.
    specialize (IH (set_claiming (claim h (point_of i) (claiming s)) s)). cbn [claiming set_claiming] in IH.
    destruct (taken h (claim h (point_of i) (claiming s)) (point_of <$> ins)) as [o c] eqn:Et.
    destruct IH as (t & s' & E & Hc & Ha & Ho). exists t, s'. split; [exact E|]. split; [done|]. split; [done|].
    destruct o as [p|]; [|done]. destruct Ho as (other & -> & Hin). exists other. split; [done|].
    revert Hin. unfold claim. destruct (decide (p = point_of i)) as [->|Hne].
    + rewrite lookup_insert_eq, Hh. cbn. set_solver.
    + by rewrite lookup_insert_ne.
  - rewrite bool_decide_eq_true_2 by set_solver. do 2 erewrite method_bind_run by done.
    eexists _, _. split; [done|]. split; [done|]. split; [done|]. exists x. split; [done|set_solver].
Qed.

(** No outpoint is kept without a claim. *)
Definition no_empty c : Prop := ∀ p X, c !! p = Some X → X ≠ ∅.
Lemma no_empty_claim h p c : no_empty c → no_empty (claim h p c).
Proof.
  intros Hc q X. unfold claim. rewrite lookup_insert. case_decide; [|apply Hc]. intros [= <-]. set_solver.
Qed.
Lemma no_empty_taken h c ps : no_empty c → no_empty (taken h c ps).2.
Proof.
  revert c; induction ps as [|p ps IH]; intros c Hc; cbn [taken]; [done|].
  destruct (claimed_in c p); [by apply no_empty_claim|by apply IH, no_empty_claim].
Qed.

(** Removing the transaction takes its claims back. *)
Definition unclaim_all h c : gmap GraphPoint (gset TxHash) := omap (unclaim h) c.
Definition stranger h c : Prop := ∀ p X, c !! p = Some X → h ∉ X.

Lemma unclaim_stranger h c : stranger h c → unclaim_all h c = c.
Proof.
  intros Hs. apply map_eq. intros p. unfold unclaim_all. rewrite lookup_omap.
  destruct (c !! p) as [X|] eqn:E; [|done]. cbn. unfold unclaim. by rewrite bool_decide_eq_false_2 by (by eapply Hs).
Qed.

Lemma unclaim_claim h p c : no_empty c → unclaim_all h (claim h p c) = unclaim_all h c.
Proof.
  intros Hc. apply map_eq. intros q. unfold unclaim_all, claim. rewrite !lookup_omap, lookup_insert.
  case_decide as Hq; [subst q|done]. cbn. unfold unclaim. rewrite bool_decide_eq_true_2 by set_solver.
  destruct (c !! p) as [X|] eqn:E; cbn.
  - pose proof (Hc p X E). destruct (decide (h ∈ X)) as [Hh|Hh].
    + rewrite (bool_decide_eq_true_2 (h ∈ X)) by done.
      by replace (({[ h ]} ∪ X) ∖ {[ h ]}) with (X ∖ {[ h ]}) by set_solver.
    + rewrite (bool_decide_eq_false_2 (h ∈ X)) by done.
      replace (({[ h ]} ∪ X) ∖ {[ h ]}) with X by set_solver. by rewrite bool_decide_eq_false_2.
  - rewrite bool_decide_eq_true_2 by set_solver. done.
Qed.

Lemma unclaim_taken h c ps : no_empty c → unclaim_all h (taken h c ps).2 = unclaim_all h c.
Proof.
  revert c; induction ps as [|p ps IH]; intros c Hc; cbn [taken]; [done|].
  destruct (claimed_in c p); [by apply unclaim_claim|]. rewrite IH by (by apply no_empty_claim). by apply unclaim_claim.
Qed.

(** Removal undoes registration, conflict or not: the outpoints are claimed by
    whom they were before, and the arrival is forgotten. *)
Theorem remove_undoes_register s (tx : Transaction) (h : TxHash) (now : Z) (Hs : no_empty (claiming s))
    (Hh : stranger h (claiming s)) (Ha : arrival_times s !! h = None) :
  let s1 := (register_transaction_internal order tx h now s).2 in
  let s2 := (remove_claims h s1).2 in
  no_empty (claiming s1) ∧ claiming s2 = claiming s ∧ arrival_times s2 = arrival_times s.
Proof.
  cbn zeta. unfold register_transaction_internal. erewrite method_bind_run by done.
  pose proof (map_register_run h (inputs tx) (set_arrival_times (<[h := now]> (arrival_times s)) s)) as Hr.
  cbn [claiming set_arrival_times arrival_times] in Hr.
  pose proof (no_empty_taken h (claiming s) (point_of <$> inputs tx) Hs) as Hn.
  pose proof (unclaim_taken h (claiming s) (point_of <$> inputs tx) Hs) as Hu.
  destruct (taken h (claiming s) (point_of <$> inputs tx)) as [o c]. destruct Hr as (t & s1 & -> & Hc & Har & _).
  cbn [snd] in *. split; [by rewrite Hc|].
  unfold remove_claims. do 3 erewrite method_bind_run by done. cbn [snd mret method_ret claiming arrival_times set_arrival_times set_claiming].
  rewrite Hc, Har. split.
  - change (omap (unclaim h) c) with (unclaim_all h c). rewrite Hu. by apply unclaim_stranger.
  - by apply delete_insert_id.
Qed.

Lemma claimed_in_ne h p q c : q ≠ p → claimed_in (claim h p c) q = claimed_in c q.
Proof. intros Hq. unfold claimed_in, claim. by rewrite lookup_insert_ne. Qed.

Lemma taken_spec h c ps :
  NoDup ps →
  match taken h c ps with
  | (None, c') => (∀ p, p ∈ ps → claimed_in c p = false)
                  ∧ ∀ q, c' !! q = if bool_decide (q ∈ ps) then Some {[ h ]} else c !! q
  | (Some p, c') => claimed_in c p = true ∧ ∃ before after, ps = before ++ p :: after
                  ∧ (∀ q, q ∈ before → claimed_in c q = false) ∧ ∀ q, q ∈ after → c' !! q = c !! q
  end.
Proof.
  intros Hnd. revert c; induction Hnd as [|p ps Hp Hnd IH]; intros c; cbn [taken].
  { split; [by intros p ?%not_elem_of_nil|]. intros q. by rewrite bool_decide_eq_false_2 by apply not_elem_of_nil. }
  destruct (claimed_in c p) eqn:Ec.
  { split; [done|]. exists [], ps. split; [done|]. split; [by intros q ?%not_elem_of_nil|].
    intros q Hq. unfold claim. rewrite lookup_insert_ne; [done|]. by intros ->. }
  specialize (IH (claim h p c)). destruct (taken h (claim h p c) ps) as [[p'|] c'].
  - destruct IH as (Hc & before & after & -> & Hb & Ha).
    assert (Hne : ∀ q, q ∈ before ++ p' :: after → q ≠ p) by (by intros q Hq ->).
    rewrite claimed_in_ne in Hc by (apply Hne; set_solver). split; [done|]. exists (p :: before), after.
    split; [done|]. split.
    + intros q [->|Hq]%elem_of_cons; [done|]. specialize (Hb q Hq). rewrite claimed_in_ne in Hb; [done|].
      apply Hne. set_solver.
    + intros q Hq. rewrite (Ha q Hq). unfold claim. rewrite lookup_insert_ne; [done|].
      intros ->. by apply (Hne q); [set_solver|].
  - destruct IH as [Hc Hl]. split.
    + intros q [->|Hq]%elem_of_cons; [done|]. specialize (Hc q Hq). rewrite claimed_in_ne in Hc; [done|]. by intros ->.
    + intros q. rewrite Hl. unfold claim. destruct (decide (q = p)) as [->|Hne].
      * rewrite bool_decide_eq_false_2, (bool_decide_eq_true_2 (p ∈ p :: ps)) by (done || by left).
        rewrite lookup_insert_eq. f_equal. apply bool_decide_eq_false in Ec. destruct (decide (default ∅ (c !! p) = ∅)) as [->|]; [|done].
        set_solver.
      * rewrite lookup_insert_ne by done. rewrite (bool_decide_ext (q ∈ p :: ps) (q ∈ ps)); [done|]. set_solver.
Qed.

(** A registration without conflict holds every input; one with a conflict names the
    first input that was claimed, and claims nothing after it. *)
Theorem register_spec s (tx : Transaction) h (now : Z) (Hnd : NoDup (point_of <$> inputs tx)) :
  ∃ t s', register_transaction_internal order tx h now s = (Ok t, s')
  ∧ arrival_times s' = <[h := now]> (arrival_times s)
  ∧ match t with
    | NoConflict => ∀ p, claiming s' !! p = (if bool_decide (p ∈ point_of <$> inputs tx) then Some {[ h ]}
                                             else claiming s !! p)
                    ∧ (p ∈ point_of <$> inputs tx → claimed_in (claiming s) p = false)
    | DirectConflict other h' p => h' = h ∧ claimed_in (claiming s) p = true
        ∧ other ∈ default ∅ (claiming s !! p) ∪ {[ h ]}
        ∧ ∃ before after, point_of <$> inputs tx = before ++ p :: after
          ∧ (∀ q, q ∈ before → claimed_in (claiming s) q = false)
          ∧ ∀ q, q ∈ after → claiming s' !! q = claiming s !! q
    | IndirectConflict _ _ => False
    end.
Proof.
  unfold register_transaction_internal. erewrite method_bind_run by done.
  pose proof (map_register_run h (inputs tx) (set_arrival_times (<[h := now]> (arrival_times s)) s)) as Hr.
  cbn [claiming set_arrival_times arrival_times] in Hr.
  pose proof (taken_spec h (claiming s) (point_of <$> inputs tx) Hnd) as Ht.
  destruct (taken h (claiming s) (point_of <$> inputs tx)) as [o c]. destruct Hr as (t & s1 & E & Hc & Har & Ho).
  exists t, s1. split; [done|]. split; [done|]. destruct o as [p|].
  - destruct Ho as (other & -> & Hin). destruct Ht as (Hp & before & after & Eps & Hb & Ha).
    split; [done|]. split; [done|]. split; [done|]. exists before, after. rewrite Hc. by split_and!.
  - subst t. destruct Ht as [Hf Hl]. intros p. rewrite Hc. split; [apply Hl|apply Hf].
Qed.
End claims.

(** ** Examples *)
Section conflict_examples.
#[local] Existing Instances plain_bincode plain_bincode_laws.

Definition name_of (n : Z) : TxHash := [Z_byte n].
Definition timed (l : list (TxHash * Z)) : ConflictMap :=
  set_arrival_times (list_to_map l) ConflictMap_new.

(** The tolerance makes the rule cyclic: of three transactions of 1000 bytes that
    pay 1000, 1008 and 1016, in the order of arrival, the first beats the second, the
    second the third, and the third the first. *)
Theorem resolution_cycles :
  let s := timed [(name_of 1, 10); (name_of 2, 20); (name_of 3, 30)] in
  let beats a fee_a b fee_b := match verdict s a b 1000 1000 fee_a fee_b with Ok r => bool_decide (winner r = a) | _ => false end in
  beats (name_of 1) 1000 (name_of 2) 1008 = true
  ∧ beats (name_of 2) 1008 (name_of 3) 1016 = true
  ∧ beats (name_of 3) 1016 (name_of 1) 1000 = true.
Proof. cbn zeta. split_and!; vm_compute; reflexivity. Qed.

Definition spends_of (n : Z) (l : list Z) : Transaction :=
  {| id := to_bytes32 [Z_byte n];
     inputs := (λ i, {| prev_tx := to_bytes32 [Z_byte i]; index := 0; signature := []; pubkey := []; sighash_type := All |}) <$> l;
     outputs := []; execution_payload := []; contract_address := None; gas_limit := 0; max_fee_per_gas := 0;
     chain_id := 1; locktime := 0 |}.
Definition with_registered (tx : Transaction) (h : TxHash) (s : ConflictMap) : ConflictMap :=
  (register_transaction_internal elements tx h 0 s).2.

(** A conflict hides the ones behind it: the second transaction spends both coins and
    is reported against the first; a third that spends the second coin too meets no
    conflict. *)
Theorem conflict_missed :
  let s := with_registered (spends_of 2 [7; 8]) (name_of 2) (with_registered (spends_of 1 [7]) (name_of 1) ConflictMap_new) in
  (register_transaction_internal elements (spends_of 3 [8]) (name_of 3) 0 s).1 = Ok NoConflict.
Proof. vm_compute. reflexivity. Qed.

(** Registering a transaction twice reports it against itself. *)
Theorem conflict_with_itself :
  let s := with_registered (spends_of 1 [7]) (name_of 1) ConflictMap_new in
  match (register_transaction_internal elements (spends_of 1 [7]) (name_of 1) 0 s).1 with
  | Ok (DirectConflict a b _) => a = b
  | _ => False
  end.
Proof. vm_compute. reflexivity. Qed.

Lemma elements_listed (X : gset TxHash) : elements X ≡ₚ elements X.
Proof. done. Qed.

Lemma remove_undoes_register_witness :
  claiming (remove_claims (name_of 2) (with_registered (spends_of 2 [7; 8]) (name_of 2)
    (with_registered (spends_of 1 [7]) (name_of 1) ConflictMap_new))).2
  = claiming (with_registered (spends_of 1 [7]) (name_of 1) ConflictMap_new).
Proof.
  assert (Hs : no_empty (claiming (with_registered (spends_of 1 [7]) (name_of 1) ConflictMap_new))
    ∧ stranger (name_of 2) (claiming (with_registered (spends_of 1 [7]) (name_of 1) ConflictMap_new))).
  { destruct (remove_undoes_register elements elements_listed ConflictMap_new (spends_of 1 [7]) (name_of 1) 0) as (Hn & _).
    - by intros p X.
    - by intros p X.
    - reflexivity.
    - split; [exact Hn|]. intros p X HX. apply (bool_decide_unpack _).
      assert (Hall : map_Forall (λ _ X, name_of 2 ∉ X) (claiming (with_registered (spends_of 1 [7]) (name_of 1) ConflictMap_new))).
      { apply (bool_decide_unpack _). vm_compute. exact I. }
      apply bool_decide_pack. exact (Hall p X HX). }
  apply (remove_undoes_register elements elements_listed _ (spends_of 2 [7; 8]) (name_of 2) 0).
  - apply Hs.
  - apply Hs.
  - reflexivity.
Defined.

Lemma register_spec_witness :
  ∃ t s', register_transaction_internal elements (spends_of 1 [7; 8]) (name_of 1) 0 ConflictMap_new = (Ok t, s')
  ∧ arrival_times s' = {[ name_of 1 := 0 ]}.
Proof.
  destruct (register_spec elements elements_listed ConflictMap_new (spends_of 1 [7; 8]) (name_of 1) 0) as (t & s' & E & Ha & _).
  - apply (bool_decide_unpack _). vm_compute. exact I.
  - exists t, s'. split; [exact E|exact Ha].
Defined.
End conflict_examples.
