(* ===== verification/AncestryTracker.v ===== *)
(** * Ancestry of the pool's transactions

    klomang-node, [mempool/recursive_dependency_tracker.rs]: for every registered
    transaction the set of all its ancestors, for every ancestor the set of all its
    descendants, a validation status, and the invalidation of a transaction with
    everything that descends from it.

    A method is one step.  A [DashMap] entry that is read stays locked as long as the
    reference lives: a call that then asks to write it does not return ([Blocked]).  The
    listing of a hash set is the argument [order], the clock an argument. *)

From Stdlib Require Import Init.Byte.
From S2P Require Import Prelude Crypto Transaction Dag NodePrelude Storage MemoryStore.

Abbreviation key := (list byte).

Inductive DependencyResolutionStatus := Ready | Unresolved | Invalid.
#[global] Instance DependencyResolutionStatus_eq_dec : EqDecision DependencyResolutionStatus.
Proof. solve_decision. Defined.

Record AncestryValidation := {
  av_status : DependencyResolutionStatus;
  direct_parents : gset key;
  all_ancestors : gset key;
  av_depth : Z;
  has_on_chain_ancestor : bool;
  last_validated : Z;
  missing_count : Z;
  invalid_count : Z
}.
Definition set_av_status (st : DependencyResolutionStatus) (v : AncestryValidation) : AncestryValidation :=
  {| av_status := st; direct_parents := direct_parents v; all_ancestors := all_ancestors v; av_depth := av_depth v;
     has_on_chain_ancestor := has_on_chain_ancestor v; last_validated := last_validated v;
     missing_count := missing_count v; invalid_count := invalid_count v |}.

Record RecursiveDependencyStats := {
  total_tracked : Z;
  total_ancestor_relationships : Z;
  total_descendant_relationships : Z;
  cycles_prevented : Z;
  cascade_invalidations : Z;
  ready_transactions : Z;
  unresolved_transactions : Z;
  stat_invalid_transactions : Z
}.
Definition RecursiveDependencyStats_default : RecursiveDependencyStats :=
  {| total_tracked := 0; total_ancestor_relationships := 0; total_descendant_relationships := 0; cycles_prevented := 0;
     cascade_invalidations := 0; ready_transactions := 0; unresolved_transactions := 0; stat_invalid_transactions := 0 |}.
Definition count_cycle (st : RecursiveDependencyStats) : RecursiveDependencyStats :=
  {| total_tracked := total_tracked st; total_ancestor_relationships := total_ancestor_relationships st;
     total_descendant_relationships := total_descendant_relationships st; cycles_prevented := wadd 64 (cycles_prevented st) 1;
     cascade_invalidations := cascade_invalidations st; ready_transactions := ready_transactions st;
     unresolved_transactions := unresolved_transactions st; stat_invalid_transactions := stat_invalid_transactions st |}.
Definition count_tracked (n : Z) (s : DependencyResolutionStatus) (st : RecursiveDependencyStats) : RecursiveDependencyStats :=
  let one b := if bool_decide (s = b) then 1 else 0 in
  {| total_tracked := wadd 64 (total_tracked st) 1;
     total_ancestor_relationships := wadd 64 (total_ancestor_relationships st) n;
     total_descendant_relationships := total_descendant_relationships st; cycles_prevented := cycles_prevented st;
     cascade_invalidations := cascade_invalidations st; ready_transactions := wadd 64 (ready_transactions st) (one Ready);
     unresolved_transactions := wadd 64 (unresolved_transactions st) (one Unresolved);
     stat_invalid_transactions := wadd 64 (stat_invalid_transactions st) (one Invalid) |}.
Definition count_cascade (n : Z) (st : RecursiveDependencyStats) : RecursiveDependencyStats :=
  {| total_tracked := total_tracked st; total_ancestor_relationships := total_ancestor_relationships st;
     total_descendant_relationships := total_descendant_relationships st; cycles_prevented := cycles_prevented st;
     cascade_invalidations := wadd 64 (cascade_invalidations st) 1; ready_transactions := ready_transactions st;
     unresolved_transactions := unresolved_transactions st;
     stat_invalid_transactions := wadd 64 (stat_invalid_transactions st) n |}.

Record CascadeInvalidationResult := {
  root_tx : key;
  invalidated_descendants : list key;
  cascade_depth : nat;
  total_affected : nat
}.

(** A call that returns, waits for a lock its thread holds, or runs out of fuel. *)
Inductive call (S A : Type) :=
| Returned (r : outcome StorageError A) (s : S)
| Blocked
| Exhausted.
Arguments Returned {S A} r s.
Arguments Blocked {S A}.
Arguments Exhausted {S A}.

Section tracker.
Context {D : Type} {C : Type → Type} `{RocksDb D, LruCache C, Codec UtxoValue, Bincode}.
Context (order : gset key → list key).

Record Tracker := {
  tr_ancestors : gmap key (gset key);
  tr_descendants : gmap key (gset key);
  immediate_parents : gmap key (gset key);
  immediate_children : gmap key (gset key);
  validations : gmap key AncestryValidation;
  invalid_transactions : gset key;
  tr_store : StorageCacheLayer D C;
  tr_stats : RecursiveDependencyStats;
  max_recursion_depth : Z;
  max_ancestry_size : Z
}.

Definition tracker_with_limits (store : StorageCacheLayer D C) (depth size : Z) : Tracker :=
  {| tr_ancestors := ∅; tr_descendants := ∅; immediate_parents := ∅; immediate_children := ∅; validations := ∅;
     invalid_transactions := ∅; tr_store := store; tr_stats := RecursiveDependencyStats_default;
     max_recursion_depth := depth; max_ancestry_size := size |}.
Definition Tracker_new (store : StorageCacheLayer D C) : Tracker := tracker_with_limits store 1000 100000.

(** The relations, all at once. *)
Definition put_maps (a d p c : gmap key (gset key)) (v : gmap key AncestryValidation) (i : gset key) (s : Tracker) : Tracker :=
  {| tr_ancestors := a; tr_descendants := d; immediate_parents := p; immediate_children := c; validations := v;
     invalid_transactions := i; tr_store := tr_store s; tr_stats := tr_stats s;
     max_recursion_depth := max_recursion_depth s; max_ancestry_size := max_ancestry_size s |}.
Definition put_tr_store (x : StorageCacheLayer D C) (s : Tracker) : Tracker :=
  {| tr_ancestors := tr_ancestors s; tr_descendants := tr_descendants s; immediate_parents := immediate_parents s;
     immediate_children := immediate_children s; validations := validations s;
     invalid_transactions := invalid_transactions s; tr_store := x; tr_stats := tr_stats s;
     max_recursion_depth := max_recursion_depth s; max_ancestry_size := max_ancestry_size s |}.
Definition map_tr_stats (f : RecursiveDependencyStats → RecursiveDependencyStats) (s : Tracker) : Tracker :=
  {| tr_ancestors := tr_ancestors s; tr_descendants := tr_descendants s; immediate_parents := immediate_parents s;
     immediate_children := immediate_children s; validations := validations s;
     invalid_transactions := invalid_transactions s; tr_store := tr_store s; tr_stats := f (tr_stats s);
     max_recursion_depth := max_recursion_depth s; max_ancestry_size := max_ancestry_size s |}.
Definition put_immediate_parents (p : gmap key (gset key)) (s : Tracker) : Tracker :=
  put_maps (tr_ancestors s) (tr_descendants s) p (immediate_children s) (validations s) (invalid_transactions s) s.

Abbreviation tracking := (method Tracker StorageError).

(** ** Registration *)

(** The parents that are not on the chain. *)
Definition add_parent (parents : gset key) (input : TxInput) : tracking (gset key) :=
  parent_hash ← lift (ok_or (bincode_hash (prev_tx input)) (SerializationError "{}"));
  on_chain ← zoom tr_store put_tr_store (utxo_exists parent_hash (index input));
  mret (if on_chain : bool then parents else {[ parent_hash ]} ∪ parents).

(** The body of the loop over the parents: the ancestors so far and the visited set. *)
Definition ancestor_step (s : Tracker) (rec : list key → gset key → outcome StorageError (gset key * gset key))
    (st : gset key * gset key) (parent : key) : outcome StorageError (gset key * gset key) :=
  let '(ancestors, visited) := st in
  if bool_decide (parent ∈ visited) then Ok (ancestors, visited)
  else
    let visited := {[ parent ]} ∪ visited in
    let ancestors := {[ parent ]} ∪ ancestors in
    match validations s !! parent with
    | Some v => Ok (all_ancestors v ∪ ancestors, visited)
    | None =>
        match immediate_parents s !! parent with
        | Some parents => '(more, visited) ← rec (order parents) visited; Ok (more ∪ ancestors, visited)
        | None => Ok (ancestors, visited)
        end
    end.

(** [_build_ancestors_recursive]: [remaining] is [max_recursion_depth + 1 - depth]. *)
Fixpoint build_ancestors (s : Tracker) (remaining : nat) (parents : list key) (visited : gset key) :
    outcome StorageError (gset key * gset key) :=
  match remaining with
  | O => Err (OperationFailed "Recursion depth exceeded: {} > {}")
  | Datatypes.S remaining => fold_outcome (ancestor_step s (build_ancestors s remaining)) (∅, visited) parents
  end.

(** [_validate_ancestors_recursive] *)
Definition validate_ancestors (s : Tracker) (now : Z) (tx_hash : key) (ancestors : gset key) : AncestryValidation :=
  let found := omap (λ a, validations s !! a) (elements ancestors) in
  let invalid := length (filter (λ v, av_status v = Invalid) found) in
  let missing := length (filter (λ a, validations s !! a = None) (elements ancestors)) in
  let max_depth := foldr Z.max 0 (av_depth <$> found) in
  {| av_status := if bool_decide (0 < invalid)%nat then Invalid
                  else if bool_decide (0 < missing)%nat then Unresolved else Ready;
     direct_parents := default ∅ (immediate_parents s !! tx_hash); all_ancestors := ancestors;
     av_depth := wadd 32 max_depth 1; has_on_chain_ancestor := false; last_validated := now;
     missing_count := Z.of_nat missing; invalid_count := Z.of_nat invalid |}.

(** [map.entry(k).or_insert_with(HashSet::new).insert(x)] for each [k] of a set *)
Definition insert_into (x : key) (ks : gset key) (m : gmap key (gset key)) : gmap key (gset key) :=
  set_fold (λ k m, <[k := {[ x ]} ∪ default ∅ (m !! k)]> m) m ks.

Definition record_ancestry (tx_hash : key) (parents ancestors : gset key) (v : AncestryValidation) (s : Tracker) : Tracker :=
  put_maps (<[tx_hash := ancestors]> (tr_ancestors s)) (insert_into tx_hash ancestors (tr_descendants s))
    (immediate_parents s) (insert_into tx_hash parents (immediate_children s))
    (<[tx_hash := v]> (validations s)) (invalid_transactions s) s.

(** The rest of the method, for a transaction that is not registered. *)
Definition register_new (now : Z) (tx : Transaction) (tx_hash : key) : tracking AncestryValidation :=
  parents ← fold_method add_parent ∅ (inputs tx);
  _ ← modify (λ s, put_immediate_parents (<[tx_hash := parents]> (immediate_parents s)) s);
  self ← get;
  '(ancestors, _) ← lift (build_ancestors self (Datatypes.S (Z.to_nat (max_recursion_depth self))) (order parents) ∅);
  if bool_decide (tx_hash ∈ ancestors) then
    _ ← modify (map_tr_stats count_cycle);
    throw (OperationFailed "Cycle detected: transaction depends on itself")
  else
    let validation := validate_ancestors self now tx_hash ancestors in
    if max_ancestry_size self <? Z.of_nat (size ancestors)
    then throw (OperationFailed "Ancestry too large: {} > {}")
    else
      _ ← modify (record_ancestry tx_hash parents ancestors validation);
      _ ← modify (map_tr_stats (count_tracked (Z.of_nat (size ancestors)) (av_status validation)));
      mret validation.

Definition register_ancestry (now : Z) (tx : Transaction) : tracking AncestryValidation :=
  tx_hash ← lift (ok_or (bincode_hash (id tx)) (SerializationError "{}"));
  self ← get;
  match validations self !! tx_hash with
  | Some v => mret v
  | None => register_new now tx tx_hash
  end.

(** ** Resolution

    [guards] are the entries the thread holds for reading. *)
Section scan.
Context (resolve : key → Tracker → call Tracker DependencyResolutionStatus).
(** The loop over the ancestors: [any_invalid] and [all_present]. *)
Fixpoint scan_ancestors (l : list key) (s : Tracker) : call Tracker (bool * bool) :=
  match l with
  | [] => Returned (Ok (false, true)) s
  | ancestor :: l =>
      match validations s !! ancestor with
      | None => Returned (Ok (false, false)) s
      | Some _ =>
          match resolve ancestor s with
          | Returned (Ok Invalid) s => Returned (Ok (true, true)) s
          | Returned (Panic p) s => Returned (Panic p) s
          | Returned _ s => scan_ancestors l s
          | Blocked => Blocked
          | Exhausted => Exhausted
          end
      end
  end.
End scan.

Definition mark_invalid (h : key) (s : Tracker) : Tracker :=
  put_maps (tr_ancestors s) (tr_descendants s) (immediate_parents s) (immediate_children s) (validations s)
    ({[ h ]} ∪ invalid_transactions s) s.
Definition write_status (h : key) (st : DependencyResolutionStatus) (s : Tracker) : Tracker :=
  put_maps (tr_ancestors s) (tr_descendants s) (immediate_parents s) (immediate_children s)
    (alter (set_av_status st) h (validations s)) (invalid_transactions s) s.

Fixpoint resolve_dependency_chain (fuel : nat) (guards : gset key) (tx_hash : key) (s : Tracker) :
    call Tracker DependencyResolutionStatus :=
  match fuel with
  | O => Exhausted
  | Datatypes.S fuel =>
      if bool_decide (tx_hash ∈ invalid_transactions s) then Returned (Ok Invalid) s
      else
        match validations s !! tx_hash with
        | None => Returned (Err (OperationFailed "Transaction {:?} not registered")) s
        | Some validation =>
            (* the reference is alive to the end of the function *)
            let guards := {[ tx_hash ]} ∪ guards in
            let finish (st : DependencyResolutionStatus) (s : Tracker) :=
              if bool_decide (tx_hash ∈ guards) then Blocked
              else Returned (Ok st) (write_status tx_hash st s) in
            match tr_ancestors s !! tx_hash with
            | None => finish (av_status validation) s
            | Some ancestors =>
                match scan_ancestors (resolve_dependency_chain fuel guards) (order ancestors) s with
                | Returned (Ok (any_invalid, all_present)) s =>
                    if any_invalid : bool then finish Invalid (mark_invalid tx_hash s)
                    else if all_present : bool then finish Ready s else finish (av_status validation) s
                | Returned (Err e) s => Returned (Err e) s
                | Returned (Panic p) s => Returned (Panic p) s
                | Blocked => Blocked
                | Exhausted => Exhausted
                end
            end
        end
  end.

(** ** Look-ups *)
Definition tr_get_ancestors (s : Tracker) (h : key) : outcome StorageError (gset key) :=
  ok_or (tr_ancestors s !! h) (NotFound "Transaction {:?} not found").
Definition tr_get_descendants (s : Tracker) (h : key) : outcome StorageError (gset key) :=
  ok_or (tr_descendants s !! h) (NotFound "Transaction {:?} not found").
Definition get_immediate_parents (s : Tracker) (h : key) : outcome StorageError (gset key) :=
  ok_or (immediate_parents s !! h) (NotFound "Transaction {:?} not found").
Definition get_immediate_children (s : Tracker) (h : key) : outcome StorageError (gset key) :=
  ok_or (immediate_children s !! h) (NotFound "Transaction {:?} not found").
Definition tr_is_ancestor (s : Tracker) (ancestor tx : key) : bool := bool_decide (ancestor ∈ default ∅ (tr_ancestors s !! tx)).
Definition validate_ancestry (s : Tracker) (h : key) : outcome StorageError AncestryValidation :=
  ok_or (validations s !! h) (OperationFailed "Transaction {:?} not registered").
Definition get_resolution_status (s : Tracker) (h : key) : outcome StorageError DependencyResolutionStatus :=
  v ← validate_ancestry s h; Ok (av_status v).

(** ** Invalidation and removal *)
Record cascade := { c_queue : list (key * nat); c_visited : gset key; c_invalidated : list key; c_depth : nat }.

(** [while let Some((current_tx, depth)) = queue.pop_front()] *)
Fixpoint cascade_loop (descendants : gmap key (gset key)) (fuel : nat) (c : cascade) : cascade :=
  match fuel with
  | O => c
  | Datatypes.S fuel =>
      match c_queue c with
      | [] => c
      | (current_tx, depth) :: queue =>
          if bool_decide (current_tx ∈ c_visited c)
          then cascade_loop descendants fuel
                 {| c_queue := queue; c_visited := c_visited c; c_invalidated := c_invalidated c; c_depth := c_depth c |}
          else
            let visited := {[ current_tx ]} ∪ c_visited c in
            let next := filter (λ d, d ∉ visited) (order (default ∅ (descendants !! current_tx))) in
            cascade_loop descendants fuel
              {| c_queue := queue ++ ((λ d, (d, Datatypes.S depth)) <$> next); c_visited := visited;
                 c_invalidated := c_invalidated c ++ [current_tx]; c_depth := Nat.max (c_depth c) depth |}
      end
  end.

(** One step per entry the queue can receive. *)
Definition cascade_fuel (descendants : gmap key (gset key)) : nat := Datatypes.S (out_edges (order <$> descendants)).

Definition cascade_from (descendants : gmap key (gset key)) (tx_hash : key) : cascade :=
  cascade_loop descendants (cascade_fuel descendants)
    {| c_queue := [(tx_hash, O)]; c_visited := ∅; c_invalidated := []; c_depth := O |}.

Definition invalidate_one (s : Tracker) (tx : key) : Tracker := write_status tx Invalid (mark_invalid tx s).

Definition cascade_invalidate (tx_hash : key) : tracking CascadeInvalidationResult :=
  self ← get;
  let c := cascade_from (tr_descendants self) tx_hash in
  let total := length (c_invalidated c) in
  _ ← modify (λ s, foldl invalidate_one s (c_invalidated c));
  _ ← modify (map_tr_stats (count_cascade (Z.of_nat total)));
  mret {| root_tx := tx_hash; invalidated_descendants := c_invalidated c; cascade_depth := c_depth c; total_affected := total |}.

(** [map.get_mut(k)] then [remove(x)], for each [k] of a set *)
Definition remove_from (x : key) (ks : gset key) (m : gmap key (gset key)) : gmap key (gset key) :=
  set_fold (λ k m, alter (λ X, X ∖ {[ x ]}) k m) m ks.

Definition untrack (h : key) (s : Tracker) : Tracker :=
  let ancestors := default ∅ (tr_ancestors s !! h) in
  let descendants := default ∅ (tr_descendants s !! h) in
  let parents := delete h (immediate_parents s) in
  let children := delete h (immediate_children s) in
  put_maps (remove_from h descendants (delete h (tr_ancestors s))) (remove_from h ancestors (delete h (tr_descendants s)))
    parents
    (* the parents are looked up after their entry was removed *)
    (remove_from h (default ∅ (parents !! h)) children)
    (delete h (validations s)) (invalid_transactions s ∖ {[ h ]}) s.

Definition tracker_reset (s : Tracker) : Tracker := map_tr_stats (λ _, RecursiveDependencyStats_default) (put_maps ∅ ∅ ∅ ∅ ∅ ∅ s).
End tracker.

(** ** Sets of relatives *)
Definition members (m : gmap key (gset key)) (k : key) : gset key := default ∅ (m !! k).

Lemma insert_into_lookup x ks m k :
  insert_into x ks m !! k = if bool_decide (k ∈ ks) then Some ({[ x ]} ∪ members m k) else m !! k.
Proof.
  unfold insert_into. revert k.
  pose (P := λ (m' : gmap key (gset key)) (X : gset key),
    ∀ k, m' !! k = if bool_decide (k ∈ X) then Some ({[ x ]} ∪ members m k) else m !! k).
  change (P (set_fold (λ k m, <[k := {[ x ]} ∪ default ∅ (m !! k)]> m) m ks) ks). apply (set_fold_ind_L P); unfold P.
  - intros k. by rewrite bool_decide_eq_false_2 by set_solver.
  - intros j X m' Hj IH k. rewrite lookup_insert. case_decide as Hk.
    + subst k. rewrite IH, (bool_decide_eq_true_2 (j ∈ _ ∪ X)), (bool_decide_eq_false_2 (j ∈ X)) by set_solver. done.
    + rewrite IH. by rewrite (bool_decide_ext (k ∈ {[ j ]} ∪ X) (k ∈ X)) by set_solver.
Qed.
Lemma members_insert_into x ks m k y : y ∈ members (insert_into x ks m) k ↔ (k ∈ ks ∧ y = x) ∨ y ∈ members m k.
Proof. unfold members at 1. rewrite insert_into_lookup. case_bool_decide; cbn; [|unfold members]; set_solver. Qed.

Lemma remove_from_lookup x ks m k :
  remove_from x ks m !! k = if bool_decide (k ∈ ks) then (λ X, X ∖ {[ x ]}) <$> m !! k else m !! k.
Proof.
  unfold remove_from. revert k.
  pose (P := λ (m' : gmap key (gset key)) (X : gset key),
    ∀ k, m' !! k = if bool_decide (k ∈ X) then (λ X, X ∖ {[ x ]}) <$> m !! k else m !! k).
  change (P (set_fold (λ k m, alter (λ X, X ∖ {[ x ]}) k m) m ks) ks). apply (set_fold_ind_L P); unfold P.
  - intros k. by rewrite bool_decide_eq_false_2 by set_solver.
  - intros j X m' Hj IH k. destruct (decide (k = j)) as [->|Hk].
    + rewrite lookup_alter_eq, IH, (bool_decide_eq_true_2 (j ∈ _ ∪ X)), (bool_decide_eq_false_2 (j ∈ X)) by set_solver. done.
    + rewrite lookup_alter_ne, IH by done. by rewrite (bool_decide_ext (k ∈ {[ j ]} ∪ X) (k ∈ X)) by set_solver.
Qed.
Lemma members_remove_from x ks m k y :
  y ∈ members (remove_from x ks m) k ↔ y ∈ members m k ∧ ¬ (k ∈ ks ∧ y = x).
Proof.
  unfold members. rewrite remove_from_lookup. case_bool_decide; [|naive_solver].
  destruct (m !! k) as [X|]; cbn; set_solver.
Qed.
Lemma members_delete h m k y : y ∈ members (delete h m) k ↔ k ≠ h ∧ y ∈ members m k.
Proof. unfold members. rewrite lookup_delete. case_decide; cbn; set_solver. Qed.
Lemma members_insert h X m k : members (<[h := X]> m) k = if decide (k = h) then X else members m k.
Proof. unfold members. rewrite lookup_insert. repeat case_decide; done || congruence. Qed.

(** A loop that files what it visits. *)
Lemma fold_covers (f : gset key * gset key → key → outcome StorageError (gset key * gset key)) l acc v A V :
  (∀ acc v q acc' v', f (acc, v) q = Ok (acc', v') → acc ⊆ acc' ∧ v' ⊆ v ∪ acc' ∧ q ∈ v ∪ acc') →
  fold_outcome f (acc, v) l = Ok (A, V) → acc ⊆ A ∧ V ⊆ v ∪ A ∧ ∀ q, q ∈ l → q ∈ v ∪ A.
Proof.
  intros Hf. revert acc v; induction l as [|q l IH]; intros acc v; cbn [fold_outcome].
  { intros [= <- <-]. split_and!; [done|set_solver|]. by intros q ?%not_elem_of_nil. }
  destruct (f (acc, v) q) as [[acc1 v1]|e|x] eqn:E; cbn; [|done|done]. intros E2.
  destruct (Hf _ _ _ _ _ E) as (M1 & M2 & M3), (IH _ _ E2) as (M4 & M5 & M6). clear Hf IH E E2.
  assert (Hvis : v1 ∪ A ⊆ v ∪ A).
  { intros x [Hx|Hx]%elem_of_union; [|by apply elem_of_union_r]. apply M2, elem_of_union in Hx as [Hx|Hx];
      [by apply elem_of_union_l|by apply elem_of_union_r, M4]. }
  split_and!; [by etrans|by etrans|]. intros p [->|Hp]%elem_of_cons; [|by apply Hvis, M6].
  apply elem_of_union in M3 as [?|?]; [by apply elem_of_union_l|by apply elem_of_union_r, M4].
Qed.

(** ** Theorems *)
Section theorems.
Context {D : Type} {C : Type → Type} `{RocksDb D, LruCache C, Codec UtxoValue, Bincode}.
Context (order : gset key → list key) (Horder : ∀ s, order s ≡ₚ elements s).
Implicit Types (s : Tracker (D := D) (C := C)).

Lemma elem_order X x : x ∈ order X ↔ x ∈ X.
Proof. by rewrite (Horder X), elem_of_elements. Qed.

(** *** Resolution never returns *)
Definition settles s h (r : outcome StorageError DependencyResolutionStatus) s' : Prop :=
  s' = s ∧ ((h ∈ invalid_transactions s ∧ r = Ok Invalid)
            ∨ (validations s !! h = None ∧ r = Err (OperationFailed "Transaction {:?} not registered"))).

Lemma scan_settles resolve l s r s' :
  (∀ h s r s', resolve h s = Returned r s' → settles s h r s') →
  scan_ancestors resolve l s = Returned r s' → ∃ b, r = Ok b ∧ s' = s.
Proof.
  intros Hr. revert r s'; induction l as [|a l IH]; intros r s'; cbn [scan_ancestors].
  { intros [= <- <-]. eauto. }
  destruct (validations s !! a) as [v|] eqn:Ev; [|intros [= <- <-]; eauto].
  destruct (resolve a s) as [o u| |] eqn:E; [|done|done].
  destruct (Hr _ _ _ _ E) as [-> [[_ ->]|[Ev' _]]]; [|congruence]. intros [= <- <-]. eauto.
Qed.

Lemma resolve_settles fuel guards h s r s' :
  resolve_dependency_chain order fuel guards h s = Returned r s' → settles s h r s'.
Proof.
  revert guards h s r s'; induction fuel as [|fuel IH]; intros guards h s r s'; cbn [resolve_dependency_chain]; [done|].
  case_bool_decide as Hi; [intros [= <- <-]; unfold settles; eauto|].
  destruct (validations s !! h) as [v|] eqn:Ev; [|intros [= <- <-]; unfold settles; eauto].
  assert (Hblocked : ∀ {A} (a b : A), (if bool_decide (h ∈ ({[ h ]} ∪ guards : gset key)) then a else b) = a).
  { intros A a b. by rewrite bool_decide_eq_true_2 by set_solver. }
  destruct (tr_ancestors s !! h) as [X|]; [|by rewrite Hblocked].
  destruct (scan_ancestors _ _ _) as [[[any all]|e|p] u| |] eqn:E; try done.
  - rewrite !Hblocked. by destruct any, all.
  - by destruct (scan_settles _ _ _ _ _ (IH _) E) as (b & ? & _).
  - by destruct (scan_settles _ _ _ _ _ (IH _) E) as (b & ? & _).
Qed.

(** The entry of the transaction stays locked for reading while the function asks to
    write it: for a registered transaction that is not known to be invalid the call
    does not return, however long it runs. *)
Theorem resolution_never_returns s (h : key) v (Hreg : validations s !! h = Some v)
    (Hvalid : h ∉ invalid_transactions s) fuel guards r s' :
  resolve_dependency_chain order fuel guards h s ≠ Returned r s'.
Proof. intros E. apply resolve_settles in E as [_ [[? _]|[? _]]]; congruence. Qed.

(** *** Removal *)

(** A removed transaction stays among the children of its parents. *)
Theorem removed_child_stays h s p :
  immediate_children (untrack h s) !! p = if decide (p = h) then None else immediate_children s !! p.
Proof.
  unfold untrack. cbn [immediate_children put_maps]. rewrite lookup_delete_eq. cbn [default from_option].
  rewrite remove_from_lookup, bool_decide_eq_false_2 by set_solver. rewrite lookup_delete.
  by repeat case_decide.
Qed.

(** *** The relations *)
Record ancestry_ok s : Prop := {
  tk_dual : ∀ a y, a ∈ members (tr_ancestors s) y ↔ y ∈ members (tr_descendants s) a;
  tk_irreflexive : ∀ y, y ∉ members (tr_ancestors s) y;
  tk_known : ∀ y, is_Some (tr_ancestors s !! y) ↔ is_Some (validations s !! y);
  tk_snapshot : ∀ y v, validations s !! y = Some v → members (tr_ancestors s) y ⊆ all_ancestors v
}.

Lemma fresh_ok store d n : ancestry_ok (tracker_with_limits store d n).
Proof. split; cbn; try (intros; unfold members; rewrite ?lookup_empty; set_solver). Qed.

Lemma untrack_ok h s : ancestry_ok s → ancestry_ok (untrack h s).
Proof.
  intros [Hd Hi Hk Hs]. unfold untrack.
  split; cbn [tr_ancestors tr_descendants validations put_maps].
  - intros a y. rewrite !members_remove_from, !members_delete.
    fold (members (tr_descendants s) h) (members (tr_ancestors s) h). specialize (Hd a y) as Hay.
    split; intros [[Hne Ha] Hn].
    + apply Hay in Ha as Ha'. split; [split; [|done]|intros [_ ->]; by apply Hne]. intros ->. apply Hn. by split.
    + apply Hay in Ha as Ha'. split; [split; [|done]|intros [_ ->]; by apply Hne]. intros ->. apply Hn. by split.
  - intros y Hy. rewrite members_remove_from, members_delete in Hy. apply (Hi y), Hy.
  - intros y. rewrite remove_from_lookup. rewrite !lookup_delete. case_decide as Hy.
    + case_bool_decide; cbn; split; by intros [? ?].
    + rewrite <- Hk. case_bool_decide; [by rewrite fmap_is_Some|done].
  - intros y v. rewrite lookup_delete. case_decide; [done|]. intros Hv x Hx.
    rewrite members_remove_from, members_delete in Hx. apply (Hs y v Hv), Hx.
Qed.

Lemma record_ok h parents A v s :
  ancestry_ok s → validations s !! h = None → h ∉ A → all_ancestors v = A → ancestry_ok (record_ancestry h parents A v s).
Proof.
  intros [Hd Hi Hk Hs] Hh HA Hv. assert (Hanc : tr_ancestors s !! h = None).
  { apply eq_None_not_Some. rewrite Hk, Hh. by intros [? ?]. }
  unfold record_ancestry. split; cbn [tr_ancestors tr_descendants validations put_maps].
  - intros a y. rewrite members_insert, members_insert_into, <- Hd. case_decide as Hy; [subst y|naive_solver].
    assert (members (tr_ancestors s) h = ∅) as -> by (unfold members; by rewrite Hanc). set_solver.
  - intros y. rewrite members_insert. case_decide; [by subst|apply Hi].
  - intros y. rewrite !lookup_insert. case_decide; [split; intros; by eexists|apply Hk].
  - intros y w. rewrite lookup_insert, members_insert. case_decide as Hy.
    + subst y. rewrite decide_True by done. intros [= <-]. by rewrite Hv.
    + rewrite decide_False by done. apply Hs.
Qed.

(** Marking changes statuses only. *)
Lemma marked_relations l s :
  let s' := foldl invalidate_one s l in
  tr_ancestors s' = tr_ancestors s ∧ tr_descendants s' = tr_descendants s
  ∧ immediate_parents s' = immediate_parents s ∧ immediate_children s' = immediate_children s
  ∧ invalid_transactions s' = list_to_set l ∪ invalid_transactions s
  ∧ ∀ y, validations s' !! y = (if bool_decide (y ∈ l) then set_av_status Invalid else (λ v, v)) <$> validations s !! y.
Proof.
  revert s; induction l as [|h l IH]; intros s; cbn [foldl].
  { split_and!; try done; [set_solver|]. intros y. by destruct (validations s !! y). }
  destruct (IH (invalidate_one s h)) as (E1 & E2 & E3 & E4 & E5 & E6).
  split_and!; [done|done|done|done| |].
  - rewrite E5. cbn. set_solver.
  - intros y. rewrite E6. cbn [validations invalidate_one write_status put_maps mark_invalid].
    destruct (decide (y = h)) as [->|Hne].
    + rewrite lookup_alter_eq, (bool_decide_eq_true_2 (h ∈ h :: l)) by left.
      destruct (validations s !! h) as [v|]; [|done]. cbn. by case_bool_decide.
    + rewrite lookup_alter_ne by done. by rewrite (bool_decide_ext (y ∈ h :: l) (y ∈ l)) by set_solver.
Qed.

Lemma marked_ok l s : ancestry_ok s → ancestry_ok (foldl invalidate_one s l).
Proof.
  intros [Hd Hi Hk Hs]. destruct (marked_relations l s) as (E1 & E2 & _ & _ & _ & E6).
  split; rewrite ?E1, ?E2; try done.
  - intros y. by rewrite E6, fmap_is_Some.
  - intros y v. rewrite E6, fmap_Some. intros (w & Hw & ->). case_bool_decide; exact (Hs y w Hw).
Qed.

(** *** Registration *)
Definition relations s := (tr_ancestors s, tr_descendants s, immediate_children s, validations s, invalid_transactions s).
Lemma relations_ok s s' : relations s' = relations s → ancestry_ok s → ancestry_ok s'.
Proof. intros [= E1 E2 E3 E4 E5] [Hd Hi Hk Hs]. split; rewrite ?E1, ?E2, ?E4; done. Qed.

Lemma add_parent_keeps P input i : preserves (λ s, relations s = i ∧ immediate_parents s = P) (add_parent (D := D) (C := C) input.1 input.2).
Proof. unfold add_parent. apply preserves_bind; [apply preserves_lift|]. intros h. apply preserves_bind; [by apply preserves_zoom|].
  intros b. apply preserves_ret. Qed.

(** What the validation of an ancestor recorded. *)
Definition lineage s (p : key) : gset key := match validations s !! p with Some v => all_ancestors v | None => ∅ end.

Lemma flat_step s rec acc visited p :
  is_Some (validations s !! p) ∨ immediate_parents s !! p = None → p ∉ visited →
  ∃ acc', ancestor_step order s rec (acc, visited) p = Ok (acc', {[ p ]} ∪ visited)
  ∧ ∀ x, x ∈ acc' ↔ x ∈ acc ∨ x = p ∨ x ∈ lineage s p.
Proof.
  intros Hp Hv. cbn. rewrite bool_decide_eq_false_2 by done. unfold lineage.
  destruct (validations s !! p) as [v|] eqn:E.
  - eexists. split; [reflexivity|]. intros x. rewrite !elem_of_union, elem_of_singleton. tauto.
  - destruct Hp as [[w Hw]|Hn]; [done|rewrite Hn]. eexists. split; [reflexivity|].
    intros x. rewrite !elem_of_union, elem_of_singleton. set_solver.
Qed.

(** Where every parent is registered or unknown the ancestors are the parents and
    theirs. *)
Lemma build_flat s r l visited :
  (∀ p, p ∈ l → is_Some (validations s !! p) ∨ immediate_parents s !! p = None) →
  ∃ A visited', build_ancestors order s (S r) l visited = Ok (A, visited')
  ∧ ∀ x, x ∈ A ↔ ∃ p, p ∈ l ∧ p ∉ visited ∧ (x = p ∨ x ∈ lineage s p).
Proof.
  intros Hl. cbn [build_ancestors]. set (rec := build_ancestors order s r). clearbody rec.
  enough (Hgen : ∀ acc, ∃ A visited', fold_outcome (ancestor_step order s rec) (acc, visited) l = Ok (A, visited')
      ∧ ∀ x, x ∈ A ↔ x ∈ acc ∨ ∃ p, p ∈ l ∧ p ∉ visited ∧ (x = p ∨ x ∈ lineage s p)).
  { destruct (Hgen ∅) as (A & v' & E & HA). exists A, v'. split; [exact E|]. intros x. rewrite HA. set_solver. }
  revert visited. induction l as [|p l IH]; intros visited acc; cbn [fold_outcome].
  { exists acc, visited. split; [done|]. intros x. split; [by left|]. by intros [?|(p & ?%not_elem_of_nil & _)]. }
  assert (Hl' : ∀ q, q ∈ l → is_Some (validations s !! q) ∨ immediate_parents s !! q = None) by (intros; apply Hl; by right).
  specialize (IH Hl'). destruct (decide (p ∈ visited)) as [Hp|Hp].
  { destruct (IH visited acc) as (A & v' & E & HA). exists A, v'. cbn. rewrite bool_decide_eq_true_2 by done.
    split; [exact E|]. intros x. rewrite HA. set_solver. }
  destruct (flat_step s rec acc visited p (Hl p ltac:(left)) Hp) as (acc' & -> & Hacc').
  destruct (IH ({[ p ]} ∪ visited) acc') as (A & v' & E & HA). exists A, v'. split; [exact E|].
  intros x. rewrite HA, Hacc'. split.
  - intros [[Hx|Hx]|(q & Hq & Hnq & Hx)]; [by left|right; exists p; set_solver|right; exists q; set_solver].
  - intros [Hx|(q & [->|Hq]%elem_of_cons & Hnq & Hx)]; [by do 2 left|by left; right|].
    destruct (decide (q = p)) as [->|Hne]; [by left; right|]. right. exists q. set_solver.
Qed.

(** Whatever the recursion does, what it visits and the parents are among the ancestors. *)
Lemma build_covers s r l visited A visited' :
  build_ancestors order s r l visited = Ok (A, visited') →
  visited' ⊆ visited ∪ A ∧ ∀ p, p ∈ l → p ∈ visited ∪ A.
Proof.
  revert l visited A visited'; induction r as [|r IH]; intros l visited A visited'; cbn [build_ancestors]; [done|].
  intros E. eapply fold_covers in E as (_ & Hv & Hp); [by split|]. clear - IH.
  intros acc v q acc' v'. unfold ancestor_step. case_bool_decide; [intros [= <- <-]; split_and!; [done|apply union_subseteq_l|by apply elem_of_union_l]|].
  destruct (validations s !! q) as [w|]; [intros [= <- <-]; set_solver|].
  destruct (immediate_parents s !! q) as [P|]; [|intros [= <- <-]; set_solver].
  intros ([more v1] & E & [= <- <-])%bind_ok. apply IH in E as [E _]. set_solver.
Qed.

(** *** The relations of a registered transaction *)
Definition unregistered h s := ancestry_ok s ∧ validations s !! h = None.

Lemma unregistered_same h s s' : relations s' = relations s → unregistered h s → unregistered h s'.
Proof. intros E [Hok Hh]. split; [by eapply relations_ok|]. by injection E as _ _ _ -> _. Qed.

Lemma add_parent_unregistered h P input : preserves (unregistered h) (add_parent (D := D) (C := C) P input).
Proof.
  unfold add_parent. keeps. apply preserves_zoom. intros s t. by apply unregistered_same.
Qed.

Lemma register_new_ok now tx h :
  triple (unregistered h) (register_new order now tx h) (λ _ s, ancestry_ok s) ancestry_ok.
Proof.
  eapply triple_bind.
  { apply triple_preserves; [|by intros s [? _]]. apply preserves_fold_method. intros P input. apply add_parent_unregistered. }
  intros parents s Hs. rewrite (method_bind_run (modify _) _ s tt (put_immediate_parents (<[h := parents]> (immediate_parents s)) s)) by done.
  set (s1 := put_immediate_parents _ s). assert (Hs1 : unregistered h s1) by by apply (unregistered_same h s).
  rewrite (method_bind_run get _ s1 s1 s1) by done. clearbody s1. destruct Hs1 as [Hok Hh].
  destruct (build_ancestors _ _ _ _ _) as [[A V]|e|x]; [|done|done].
  rewrite (method_bind_run (lift (Ok _)) _ s1 (A, V) s1) by done. cbn beta iota zeta. case_bool_decide as HA; [by apply (relations_ok s1)|].
  destruct (_ <? _); [done|]. by apply (relations_ok (record_ancestry h parents A (validate_ancestors s1 now h A) s1)), record_ok.
Qed.

Lemma register_ancestry_ok now tx s : ancestry_ok s → ancestry_ok (register_ancestry order now tx s).2.
Proof.
  intros Hs. unfold register_ancestry. destruct (bincode_hash (id tx)) as [h|]; [|done].
  rewrite (method_bind_run (lift (ok_or (Some h) _)) _ s h s) by done. rewrite (method_bind_run get _ s s s) by done.
  destruct (validations s !! h) as [v|] eqn:Eh; [done|].
  pose proof (register_new_ok now tx h s (conj Hs Eh)) as Ht. by destruct (register_new _ _ _ _ s) as [[a|e|x] s'].
Qed.

(** *** Everything that descends *)
Definition descends (d : gmap key (gset key)) : relation key := λ a b, b ∈ members d a.

Lemma succ_order d a : succ_in (order <$> d) a = order (members d a).
Proof.
  unfold succ_in, members. rewrite lookup_fmap. destruct (d !! a) as [X|]; [done|]. cbn.
  symmetry. apply Permutation_nil_r. by rewrite (Horder ∅), elements_empty.
Qed.

Record cascading (d : gmap key (gset key)) (root : key) (c : cascade) : Prop := {
  cg_once : NoDup (c_invalidated c) ∧ ∀ x, x ∈ c_invalidated c ↔ x ∈ c_visited c;
  cg_reach : ∀ x, x ∈ (c_queue c).*1 ∨ x ∈ c_visited c → rtc (descends d) root x;
  cg_closed : ∀ y x, y ∈ c_visited c → descends d y x → x ∈ c_visited c ∨ x ∈ (c_queue c).*1;
  cg_root : root ∈ c_visited c ∨ root ∈ (c_queue c).*1
}.

Lemma cascade_loop_run d root fuel c :
  (length (c_queue c) + out_edges (filter (λ kv : key * list key, kv.1 ∉ c_visited c) (order <$> d)) ≤ fuel)%nat →
  cascading d root c →
  let c' := cascade_loop order d fuel c in c_queue c' = [] ∧ cascading d root c'.
Proof.
  revert c; induction fuel as [|fuel IH]; intros [[|[x n] q] v inv dep]; cbn [cascade_loop c_queue c_visited c_invalidated c_depth];
    intros Hf Hc; [done|cbn in Hf; lia|done|]. destruct Hc as [[Hnd Hiv] Hreach Hclosed Hroot].
  cbn [c_queue c_visited c_invalidated fmap list_fmap fst] in *. case_bool_decide as Hx.
  { apply IH; [cbn in *; lia|]. split; cbn [c_queue c_visited c_invalidated]; [done| | |].
    - intros y Hy. apply Hreach. rewrite elem_of_cons. tauto.
    - intros y z Hy Hz. destruct (Hclosed y z Hy Hz) as [?|[->|?]%elem_of_cons]; auto.
    - destruct Hroot as [?|[->|?]%elem_of_cons]; auto. }
  assert (Hq : ∀ l : list key, ((λ d, (d, Datatypes.S n)) <$> l).*1 = l).
  { intros l. rewrite <- list_fmap_compose. apply list_fmap_id. }
  fold (members d x). set (next := filter _ (order (members d x))).
  assert (Hnext : ∀ y, y ∈ next ↔ descends d x y ∧ y ∉ ({[ x ]} ∪ v : gset key)).
  { intros y. unfold next. rewrite list_elem_of_filter, elem_order. tauto. }
  assert (Hrx : rtc (descends d) root x) by (apply Hreach; left; left).
  apply IH.
  - cbn [c_queue c_visited]. rewrite length_app, length_fmap. pose proof (todo_visit (order <$> d) x v Hx) as Hm.
    rewrite succ_order in Hm. assert (length next ≤ length (order (members d x)))%nat by apply length_filter. cbn in Hf. lia.
  - split; cbn [c_queue c_visited c_invalidated].
    + split; [apply NoDup_app; split_and!; [done| |apply NoDup_singleton]|].
      * intros y Hy ->%list_elem_of_singleton. by apply Hx, Hiv.
      * intros y. rewrite elem_of_app, Hiv. set_solver.
    + intros y. rewrite fmap_app, elem_of_app, Hq, Hnext. intros [[Hy|[Hy _]]|[->%elem_of_singleton|Hy]%elem_of_union];
        [apply Hreach; rewrite elem_of_cons; tauto|by eapply rtc_r|done|apply Hreach; tauto].
    + intros y z Hy Hz. rewrite fmap_app, elem_of_app, Hq, Hnext.
      destruct (decide (z ∈ ({[ x ]} ∪ v : gset key))); [by left|]. right.
      apply elem_of_union in Hy as [->%elem_of_singleton|Hy]; [by right|]. left.
      destruct (Hclosed y z Hy Hz) as [?|[->|?]%elem_of_cons]; set_solver.
    + rewrite fmap_app, elem_of_app. destruct Hroot as [?|[->|?]%elem_of_cons]; [left; set_solver|left; set_solver|tauto].
Qed.

(** The cascade reports the transaction and everything that descends from it by the
    recorded relation, each once, and marks exactly these; it always returns. *)
Theorem cascade_spec s h :
  ∃ r s', cascade_invalidate order h s = (Ok r, s')
  ∧ NoDup (invalidated_descendants r) ∧ total_affected r = length (invalidated_descendants r)
  ∧ (∀ x, x ∈ invalidated_descendants r ↔ rtc (descends (tr_descendants s)) h x)
  ∧ (∀ x, x ∈ invalid_transactions s' ↔ x ∈ invalid_transactions s ∨ rtc (descends (tr_descendants s)) h x)
  ∧ ∀ x v', validations s' !! x = Some v' → rtc (descends (tr_descendants s)) h x → av_status v' = Invalid.
Proof.
  set (d := tr_descendants s).
  pose (c := cascade_from order d h).
  assert (Hc : c_queue c = [] ∧ cascading d h c).
  { apply cascade_loop_run; cbn [c_queue c_visited].
    - cbn. unfold cascade_fuel. rewrite map_filter_id by (cbn; set_solver). lia.
    - split; cbn; [split; [constructor|set_solver]| |set_solver|right; left].
      intros x [->%list_elem_of_singleton|?]; [constructor|set_solver]. }
  destruct Hc as [Hq [[Hnd Hiv] Hreach Hclosed Hroot]].
  assert (Hmem : ∀ x, x ∈ c_invalidated c ↔ rtc (descends d) h x).
  { intros x. rewrite Hiv. split; [by eauto|]. rewrite Hq in Hclosed, Hroot.
    assert (Hv : h ∈ c_visited c) by (by destruct Hroot as [?|?%not_elem_of_nil]). clear -Hv Hclosed.
    clearbody c. intros Hx. induction Hx as [|a b e Hab _ IH]; [done|]. apply IH. by destruct (Hclosed _ _ Hv Hab) as [?|?%not_elem_of_nil]. }
  destruct (marked_relations (c_invalidated c) s) as (_ & _ & _ & _ & Hi & Hval).
  eexists _, _. split; [unfold cascade_invalidate; rewrite (method_bind_run get _ s s s) by done; reflexivity|]. fold d. fold c. cbn [invalidated_descendants total_affected invalid_transactions validations map_tr_stats].
  split_and!; [done|done|exact Hmem| |].
  - intros x. rewrite Hi, elem_of_union, elem_of_list_to_set, Hmem. tauto.
  - intros x v'. rewrite Hval, fmap_Some. intros (v & _ & ->) Hx. by rewrite bool_decide_eq_true_2 by by apply Hmem.
Qed.

(** *** Every tracker the code can reach *)
Inductive tracker_step : Tracker (D := D) (C := C) → Tracker (D := D) (C := C) → Prop :=
| step_register now tx s : tracker_step s (register_ancestry order now tx s).2
| step_cascade h s : tracker_step s (cascade_invalidate order h s).2
| step_remove h s : tracker_step s (untrack h s)
| step_store x s : tracker_step s (put_tr_store x s)
| step_reset s : tracker_step s (tracker_reset s).

Lemma tracker_step_ok s s' : tracker_step s s' → ancestry_ok s → ancestry_ok s'.
Proof.
  intros [now tx u|h u|h u|x u|u] Hs.
  - by apply register_ancestry_ok.
  - cbn. apply (relations_ok (foldl invalidate_one u (c_invalidated (cascade_from order (tr_descendants u) h)))); [reflexivity|]. by apply marked_ok.
  - by apply untrack_ok.
  - by apply (relations_ok u).
  - split; cbn; try (intros; unfold members; rewrite ?lookup_empty; set_solver).
Qed.

(** C36. Whatever is called, ancestors and descendants are the two directions of one
    relation, nothing is its own ancestor, and the ancestors of a transaction are
    among those its validation recorded. *)
Theorem ancestry_consistent store depth limit s (Hs : rtc tracker_step (tracker_with_limits store depth limit) s) :
  (∀ a y, a ∈ members (tr_ancestors s) y ↔ y ∈ members (tr_descendants s) a)
  ∧ (∀ y, y ∉ members (tr_ancestors s) y)
  ∧ ∀ y v, validations s !! y = Some v → members (tr_ancestors s) y ⊆ all_ancestors v.
Proof.
  assert (Hok : ancestry_ok s).
  { pose proof (fresh_ok store depth limit) as Hf. revert Hf. induction Hs as [|s1 s2 s3 H12 _ IH]; [done|].
    intros Hf. by apply IH, (tracker_step_ok s1). }
  split_and!; apply Hok.
Qed.
End theorems.

(** ** Witnesses *)
Section examples.
Definition spends_coin (n : Z) : TxInput :=
  {| prev_tx := hash_of n; index := 0; signature := []; pubkey := []; sighash_type := All |}.
Definition linked (n : Z) (l : list Z) : Transaction :=
  {| id := hash_of n; inputs := spends_coin <$> l; outputs := []; execution_payload := []; contract_address := None;
     gas_limit := 0; max_fee_per_gas := 0; chain_id := 1; locktime := 0 |}.
Definition empty_tracker : Tracker (D := content) (C := mem_cache) := tracker_with_limits mem_layer 10 10.
Definition track (txs : list Transaction) : Tracker :=
  foldl (λ s tx, (register_ancestry elements 100 tx s).2) empty_tracker txs.
Lemma track_reached txs s :
  rtc (tracker_step elements) s (foldl (λ s tx, (register_ancestry elements 100 tx s).2) s txs).
Proof.
  revert s; induction txs as [|tx txs IH]; intros s; [constructor|]. eapply rtc_l; [apply step_register|apply IH].
Qed.
Definition hash_key (n : Z) : key := hash_bytes (hash_of n).

Lemma resolution_never_returns_witness :
  let s := track [linked 1 []] in
  get_resolution_status s (hash_key 1) = Ok Ready
  ∧ ∀ fuel r s', resolve_dependency_chain elements fuel ∅ (hash_key 1) s ≠ Returned r s'.
Proof.
  intros s. split; [vm_compute; reflexivity|]. intros fuel r s'.
  destruct (validations s !! hash_key 1) as [v|] eqn:Ev; [|exfalso; revert Ev; vm_compute; discriminate].
  apply (resolution_never_returns elements (λ X, reflexivity _) s (hash_key 1) v Ev). apply (bool_decide_unpack _). vm_compute. reflexivity.
Defined.

Lemma ancestry_consistent_witness :
  let s := track [linked 1 []; linked 2 [1]; linked 3 [2]] in
  tr_is_ancestor s (hash_key 1) (hash_key 3) = true ∧ ∀ y, y ∉ members (tr_ancestors s) y.
Proof.
  intros s. split; [vm_compute; reflexivity|].
  apply (ancestry_consistent elements (λ X, reflexivity _) mem_layer 10 10 s).
  exact (track_reached _ empty_tracker).
Defined.

(** The order of arrival matters: the parent of a transaction that is already there
    does not reach it with its own ancestors. *)
Lemma late_parent_forgotten :
  let s := track [linked 3 [2]; linked 2 [1]; linked 1 []] in
  tr_is_ancestor s (hash_key 1) (hash_key 2) = true ∧ tr_is_ancestor s (hash_key 2) (hash_key 3) = true
  ∧ tr_is_ancestor s (hash_key 1) (hash_key 3) = false ∧ get_resolution_status s (hash_key 3) = Ok Unresolved.
Proof. split_and!; vm_compute; reflexivity. Qed.
End examples.
