(* ===== verification/DependencyManager.v ===== *)
(** * Dependencies of the pool's transactions

    klomang-node, [mempool/advanced_dependency_manager.rs]: the parents and children of
    every registered transaction, its execution depth, the refusal of circular
    dependencies, and the order in which the ancestors of a transaction execute.

    A method is one step; the listing of a hash set is the argument [order]. *)

From Stdlib Require Import Init.Byte.
From S2P Require Import Prelude Crypto Transaction Dag NodePrelude Storage MemoryStore AncestryTracker.

(** A set of transactions. *)
Record DependencyLevel := { lv_depth : Z; lv_transactions : gset key }.

Record DependencyChain := {
  dc_direct_parents : gset key;
  dc_all_ancestors : gset key;
  executable_sequence : list key;
  dc_execution_depth : Z
}.

Record DependencyStats := {
  ds_total_tracked : Z;
  total_dependencies : Z;
  ds_cycles_prevented : Z;
  cascading_evictions : Z
}.
Definition DependencyStats_default : DependencyStats :=
  {| ds_total_tracked := 0; total_dependencies := 0; ds_cycles_prevented := 0; cascading_evictions := 0 |}.
Definition note_tracked (n : Z) (s : DependencyStats) : DependencyStats :=
  {| ds_total_tracked := wadd 64 (ds_total_tracked s) 1; total_dependencies := wadd 64 (total_dependencies s) n;
     ds_cycles_prevented := ds_cycles_prevented s; cascading_evictions := cascading_evictions s |}.
Definition note_cycle (s : DependencyStats) : DependencyStats :=
  {| ds_total_tracked := ds_total_tracked s; total_dependencies := total_dependencies s;
     ds_cycles_prevented := wadd 64 (ds_cycles_prevented s) 1; cascading_evictions := cascading_evictions s |}.
Definition note_evictions (n : Z) (s : DependencyStats) : DependencyStats :=
  {| ds_total_tracked := ds_total_tracked s; total_dependencies := total_dependencies s;
     ds_cycles_prevented := ds_cycles_prevented s; cascading_evictions := wadd 64 (cascading_evictions s) n |}.

(** ** Searches

    [m] maps a transaction to its parents, or to its children. *)
Section searches.
Context (order : gset key → list key) (m : gmap key (gset key)).

(** Everything some transaction is mapped to: what a search can find. *)
Definition search_targets : gset key := ⋃ (map_to_list m).*2.

(** [_collect_all_ancestors], [get_all_transitive_dependents]: the root is not marked
    when the search starts. *)
Definition collect (root : key) : gset key :=
  (bfs (λ c, order (members m c)) (Datatypes.S (size search_targets)) ([root], ∅, [])).1.2.

(** [for parent in parents.iter()] of the second loop of [_get_execution_sequence]; both
    tables have an entry for each ancestor. *)
Definition count_edge (ancestors : gset key) (ancestor : key) (st : gmap key nat * gmap key (gset key)) (parent : key) :
    gmap key nat * gmap key (gset key) :=
  if bool_decide (parent ∈ ancestors)
  then (alter Datatypes.S ancestor st.1, alter (λ X, {[ ancestor ]} ∪ X) parent st.2)
  else st.
Definition degree_tables (ancestors : gset key) : gmap key nat * gmap key (gset key) :=
  foldl (λ st ancestor, foldl (count_edge ancestors ancestor) st (order (members m ancestor)))
    (gset_to_gmap O ancestors, gset_to_gmap ∅ ancestors) (order ancestors).

Definition release_one (st : gmap key nat * list key) (child : key) : gmap key nat * list key :=
  let '(degree, queue) := st in
  let new_degree := (default O (degree !! child) - 1)%nat in
  (<[child := new_degree]> degree, if bool_decide (new_degree = O) then queue ++ [child] else queue).

(** [while let Some(current) = queue.pop_front()] *)
Fixpoint sequence_loop (edges : gmap key (gset key)) (fuel : nat) (degree : gmap key nat) (queue result : list key) : list key :=
  match fuel with
  | O => result
  | Datatypes.S fuel =>
      match queue with
      | [] => result
      | current :: queue =>
          let '(degree, queue) := foldl release_one (degree, queue) (order (default ∅ (edges !! current))) in
          sequence_loop edges fuel degree queue (result ++ [current])
      end
  end.

Definition execution_sequence (root : key) : list key :=
  let ancestors := collect root in
  let '(degree, edges) := degree_tables ancestors in
  sequence_loop edges (Datatypes.S (size ancestors)) degree
    (filter (λ a, default O (degree !! a) = O) (order ancestors)) [].

(** [_has_cycle_dfs]: the visited set and the stack of the recursion are passed along. *)
Abbreviation marks := (gset key * gset key)%type.
Section parents.
Context (rec : key → marks → bool * marks).
Fixpoint cycle_above (parents : list key) (st : marks) : bool * marks :=
  match parents with
  | [] => (false, st)
  | parent :: parents =>
      if bool_decide (parent ∈ st.1)
      then if bool_decide (parent ∈ st.2) then (true, st) else cycle_above parents st
      else match rec parent st with
           | (true, st) => (true, st)
           | (false, st) => cycle_above parents st
           end
  end.
(** [_detect_cycles]: the loop over the direct parents. *)
Fixpoint cycle_from (parents : list key) (st : marks) : bool * marks :=
  match parents with
  | [] => (false, st)
  | parent :: parents =>
      match rec parent st with
      | (true, st) => (true, st)
      | (false, st) => cycle_from parents st
      end
  end.
End parents.

Fixpoint has_cycle_dfs (target : key) (fuel : nat) (current : key) (st : marks) : bool * marks :=
  match fuel with
  | O => (false, st)
  | Datatypes.S fuel =>
      if bool_decide (current ∈ st.1) then (false, (st.1, st.2 ∖ {[ current ]}))
      else
        match cycle_above (has_cycle_dfs target fuel) (order (members m current)) ({[ current ]} ∪ st.1, {[ current ]} ∪ st.2) with
        | (true, st) => (true, st)
        | (false, st) =>
            if bool_decide (current = target) && bool_decide (target ∈ st.2) then (true, st)
            else (false, (st.1, st.2 ∖ {[ current ]}))
        end
  end.

(** Each call in progress has marked another target, the first one aside. *)
Definition detect_cycles (tx_hash : key) (parents : gset key) : bool :=
  (cycle_from (has_cycle_dfs tx_hash (Datatypes.S (size search_targets))) (order parents) (∅, ∅)).1.
End searches.

(** ** The manager *)
Section manager.
Context {D : Type} {C : Type → Type} `{RocksDb D, LruCache C, Codec UtxoValue, Bincode}.
Context (order : gset key → list key).

Record TxDependencyManager := {
  parent_to_children : gmap key (gset key);
  child_to_parents : gmap key (gset key);
  execution_depth : gmap key Z;
  depth_index : gmap Z (gset key);
  dm_store : StorageCacheLayer D C;
  dm_stats : DependencyStats
}.
Definition TxDependencyManager_new (kv_store : StorageCacheLayer D C) : TxDependencyManager :=
  {| parent_to_children := ∅; child_to_parents := ∅; execution_depth := ∅; depth_index := ∅;
     dm_store := kv_store; dm_stats := DependencyStats_default |}.

Definition put_graph (c p : gmap key (gset key)) (e : gmap key Z) (i : gmap Z (gset key)) (s : TxDependencyManager) : TxDependencyManager :=
  {| parent_to_children := c; child_to_parents := p; execution_depth := e; depth_index := i;
     dm_store := dm_store s; dm_stats := dm_stats s |}.
Definition put_dm_store (x : StorageCacheLayer D C) (s : TxDependencyManager) : TxDependencyManager :=
  {| parent_to_children := parent_to_children s; child_to_parents := child_to_parents s;
     execution_depth := execution_depth s; depth_index := depth_index s; dm_store := x; dm_stats := dm_stats s |}.
Definition map_dm_stats (f : DependencyStats → DependencyStats) (s : TxDependencyManager) : TxDependencyManager :=
  {| parent_to_children := parent_to_children s; child_to_parents := child_to_parents s;
     execution_depth := execution_depth s; depth_index := depth_index s; dm_store := dm_store s; dm_stats := f (dm_stats s) |}.

Abbreviation managing := (method TxDependencyManager StorageError).

(** *** Look-ups *)
Definition get_executable_ancestors (s : TxDependencyManager) (h : key) : list key := execution_sequence order (child_to_parents s) h.
Definition get_dependent_children (s : TxDependencyManager) (h : key) : list key := order (members (parent_to_children s) h).
Definition get_all_transitive_dependents (s : TxDependencyManager) (h : key) : list key := order (collect order (parent_to_children s) h).
Definition get_transactions_at_depth (s : TxDependencyManager) (depth : Z) : list key := order (default ∅ (depth_index s !! depth)).
Definition get_execution_depth (s : TxDependencyManager) (h : key) : option Z := execution_depth s !! h.
Definition dependency_chain_of (s : TxDependencyManager) (h : key) (depth : Z) : DependencyChain :=
  {| dc_direct_parents := members (child_to_parents s) h; dc_all_ancestors := collect order (child_to_parents s) h;
     executable_sequence := execution_sequence order (child_to_parents s) h; dc_execution_depth := depth |}.
Definition get_dependency_chain (s : TxDependencyManager) (h : key) : option DependencyChain :=
  dependency_chain_of s h <$> execution_depth s !! h.
Definition dm_clear (s : TxDependencyManager) : TxDependencyManager := put_graph ∅ ∅ ∅ ∅ s.

(** *** Registration *)

(** The inputs that are not on the chain name the parents; the greatest depth among
    the registered ones is kept. *)
Definition add_direct_parent (st : gset key * Z) (input : TxInput) : managing (gset key * Z) :=
  let '(parents, max_parent_depth) := st in
  input_tx ← lift (ok_or (bincode_hash (prev_tx input)) (SerializationError "{}"));
  on_chain ← zoom dm_store put_dm_store (utxo_exists input_tx (index input));
  if on_chain : bool then mret (parents, max_parent_depth)
  else
    self ← get;
    mret ({[ input_tx ]} ∪ parents,
          match execution_depth self !! input_tx with Some d => Z.max max_parent_depth d | None => max_parent_depth end).

(** [depth_index.entry(d).or_insert_with(HashSet::new).insert(h)] and [remove] *)
Definition index_depth (d : Z) (h : key) (i : gmap Z (gset key)) : gmap Z (gset key) := <[d := {[ h ]} ∪ default ∅ (i !! d)]> i.
Definition unindex_depth (d : Z) (h : key) (i : gmap Z (gset key)) : gmap Z (gset key) := alter (λ X, X ∖ {[ h ]}) d i.

Definition record_dependencies (h : key) (parents : gset key) (depth : Z) (s : TxDependencyManager) : TxDependencyManager :=
  put_graph (insert_into h parents (parent_to_children s)) (<[h := parents]> (child_to_parents s))
    (<[h := depth]> (execution_depth s)) (index_depth depth h (depth_index s)) s.

Definition register_dependencies (tx : Transaction) : managing DependencyChain :=
  tx_hash ← lift (ok_or (bincode_hash (id tx)) (SerializationError "{}"));
  self ← get;
  match execution_depth self !! tx_hash with
  | Some depth => mret (dependency_chain_of self tx_hash depth)
  | None =>
      '(parents, max_parent_depth) ← fold_method add_direct_parent (∅, 0) (inputs tx);
      let tx_depth := if bool_decide (parents = ∅) then 0 else wadd 32 max_parent_depth 1 in
      self ← get;
      if detect_cycles order (child_to_parents self) tx_hash parents then
        _ ← modify (map_dm_stats note_cycle);
        throw (OperationFailed "Circular dependency detected")
      else
        _ ← modify (record_dependencies tx_hash parents tx_depth);
        _ ← modify (map_dm_stats (note_tracked (Z.of_nat (size parents))));
        self ← get;
        mret (dependency_chain_of self tx_hash tx_depth)
  end.

(** *** Removal *)
Definition recalculate_depth (h : key) (s : TxDependencyManager) : TxDependencyManager :=
  let max_parent_depth := foldr Z.max 0 (omap (λ p, execution_depth s !! p) (order (members (child_to_parents s) h))) in
  let new_depth := if bool_decide (child_to_parents s !! h = Some ∅) then 0 else wadd 32 max_parent_depth 1 in
  match execution_depth s !! h with
  | None => s
  | Some old_depth =>
      if bool_decide (old_depth = new_depth) then s
      else put_graph (parent_to_children s) (child_to_parents s) (<[h := new_depth]> (execution_depth s))
             (index_depth new_depth h (unindex_depth old_depth h (depth_index s))) s
  end.

(** Out of the four structures. *)
Definition forget (h : key) (s : TxDependencyManager) : TxDependencyManager :=
  put_graph (delete h (parent_to_children s)) (delete h (child_to_parents s)) (delete h (execution_depth s))
    (match execution_depth s !! h with Some d => unindex_depth d h (depth_index s) | None => depth_index s end) s.

(** The body of the loop over the children of a removed transaction; the head of the
    stack is its top. *)
Definition orphan_child (st : list key * list key * TxDependencyManager) (child : key) :
    list key * list key * TxDependencyManager :=
  let '(to_process, evicted, s) := st in
  match child_to_parents s !! child with
  | None => st
  | Some parents =>
      if bool_decide (parents = ∅) then (child :: to_process, evicted ++ [child], s)
      else (to_process, evicted, recalculate_depth child s)
  end.

(** [while let Some(current_tx) = to_process.pop()] *)
Fixpoint remove_loop (fuel : nat) (st : list key * list key * TxDependencyManager) : list key * list key * TxDependencyManager :=
  match fuel with
  | O => st
  | Datatypes.S fuel =>
      let '(to_process, evicted, s) := st in
      match to_process with
      | [] => st
      | current :: to_process =>
          remove_loop fuel (foldl orphan_child (to_process, evicted, forget current s) (get_dependent_children s current))
      end
  end.

(** A removal pushes children of the transactions it takes out, whose entries are
    deleted: no more steps than there are edges, and one. *)
Definition remove_fuel (s : TxDependencyManager) : nat := Datatypes.S (out_edges (order <$> parent_to_children s)).

Definition remove_dependencies (h : key) (s : TxDependencyManager) : list key * TxDependencyManager :=
  let '(_, evicted, s) := remove_loop (remove_fuel s) ([h], [h], s) in
  (evicted, map_dm_stats (note_evictions (Z.of_nat (length evicted))) s).
End manager.

(** ** The searches are exact *)
Section searches_ok.
Context (order : gset key → list key) (Horder : ∀ s, order s ≡ₚ elements s) (m : gmap key (gset key)).
Abbreviation edge := (λ a b, b ∈ members m a).

Lemma edge_target a b : b ∈ members m a → b ∈ search_targets m.
Proof.
  unfold members, search_targets. destruct (m !! a) as [X|] eqn:E; cbn; [|set_solver]. intros Hb.
  apply elem_of_union_list. exists X. split; [|done]. apply list_elem_of_fmap. exists (a, X).
  split; [done|]. by apply elem_of_map_to_list.
Qed.

Lemma elem_listing X x : x ∈ order X ↔ x ∈ X.
Proof. by rewrite (Horder X), elem_of_elements. Qed.

(** What was seen is above the root, and so is everything above what left the queue. *)
Record collecting (root : key) (queue : list key) (visited : gset key) : Prop := {
  co_queue : ∀ x, x ∈ queue → x = root ∨ x ∈ visited;
  co_reach : ∀ x, x ∈ visited → tc edge root x;
  co_closed : ∀ y, y = root ∨ y ∈ visited → y ∈ queue ∨ members m y ⊆ visited
}.

Lemma collecting_step root c queue visited news :
  collecting root (c :: queue) visited → (∀ x, x ∈ news ↔ x ∈ order (members m c) ∧ x ∉ visited) →
  collecting root (queue ++ news) (list_to_set news ∪ visited).
Proof.
  intros [Hq Hr Hc] Hn. assert (Hnews : ∀ x, x ∈ news → edge c x) by (intros x [?%elem_listing _]%Hn; done).
  split.
  - intros x [Hx|Hx]%elem_of_app; [|right; set_solver]. destruct (Hq x ltac:(by right)); [by left|right; set_solver].
  - intros x [Hx%elem_of_list_to_set%Hnews|Hx]%elem_of_union; [|by apply Hr].
    destruct (Hq c ltac:(left)) as [->|Hcv]; [by apply tc_once|]. eapply tc_r; [by apply Hr|done].
  - intros y Hy. rewrite elem_of_app. destruct (decide (y ∈ news)); [by left; right|].
    assert (Hy' : y = root ∨ y ∈ visited) by set_solver.
    destruct (Hc y Hy') as [[->|?]%elem_of_cons|?]; [right|by left; left|right; set_solver].
    intros x Hx. apply elem_of_union. rewrite elem_of_list_to_set, Hn, elem_listing. destruct (decide (x ∈ visited)); tauto.
Qed.

Lemma collect_run root fuel queue visited found :
  (length queue + size (search_targets m ∖ visited) ≤ fuel)%nat → collecting root queue visited →
  ∀ x, x ∈ (bfs (λ c, order (members m c)) fuel (queue, visited, found)).1.2 ↔ tc edge root x.
Proof.
  revert queue visited found; induction fuel as [|fuel IH]; intros queue visited found Hf Hs; cbn [bfs].
  all: assert (Hend : queue = [] → ∀ x, x ∈ visited ↔ tc edge root x).
  1,3: destruct Hs as [_ Hr Hc]; intros ->; intros x; split; [apply Hr|]; intros (y & Hy & Hyx)%tc_rtc_split;
    assert (Hcl : ∀ z, z = root ∨ z ∈ visited → members m z ⊆ visited) by
      (intros z Hz; by destruct (Hc z Hz) as [?%not_elem_of_nil|?]);
    enough (y = root ∨ y ∈ visited) as Hyv by (by apply (Hcl y Hyv)); clear -Hy Hcl;
    revert y Hy; apply rtc_ind_r; [by left|intros y z _ Hyz IH; right; by apply (Hcl y)].
  { apply Hend. destruct queue; [done|cbn in Hf; lia]. }
  destruct queue as [|c queue]; [by apply Hend|]. clear Hend.
  destruct (enqueue_all (λ c, order (members m c)) (order (members m c)) queue visited found) as (news & Hn & Hin & ->).
  apply IH; [|by eapply collecting_step].
  assert (Hsub : (list_to_set news : gset key) ⊆ search_targets m ∖ visited).
  { intros y [Hy Hyv]%elem_of_list_to_set%Hin. apply elem_of_difference. split; [|done]. by eapply edge_target, elem_listing. }
  replace (search_targets m ∖ (list_to_set news ∪ visited)) with ((search_targets m ∖ visited) ∖ list_to_set news) by set_solver.
  rewrite size_difference by done. apply subseteq_size in Hsub. rewrite size_list_to_set in * by done.
  rewrite length_app. cbn in Hf. lia.
Qed.

(** A search finds exactly what is above the root. *)
Lemma elem_collect root x : x ∈ collect order m root ↔ tc edge root x.
Proof.
  apply collect_run.
  - cbn. pose proof (subseteq_size (search_targets m ∖ ∅) (search_targets m) ltac:(set_solver)). lia.
  - split; [intros x' ->%list_elem_of_singleton; by left|set_solver|]. intros y [->|?]; [left; left|set_solver].
Qed.

(** *** Cycle detection *)

(** A call that found nothing: the nodes it marked are above its node, none is the
    target, and their parents are marked. *)
Record scanned (target : key) (starts : key → Prop) (st st' : gset key * gset key) : Prop := {
  sc_grows : st.1 ⊆ st'.1;
  sc_stack : st'.2 = st.2;
  sc_starts : ∀ c, starts c → c ∈ st'.1;
  sc_new : ∀ x, x ∈ st'.1 → x ∉ st.1 → x ≠ target ∧ members m x ⊆ st'.1
}.

Definition room (c : key) (visited : gset key) : nat := size (({[ c ]} ∪ search_targets m) ∖ visited).

Lemma room_visit c x visited visited' : {[ c ]} ∪ visited ⊆ visited' → c ∉ visited → x ∈ search_targets m → (room x visited' < room c visited)%nat.
Proof.
  intros Hv Hc Hx. apply subset_size. split; [set_solver|]. intros Hs. specialize (Hs c). set_solver.
Qed.

Lemma cycle_above_scanned target rec (ps : list key) st st' :
  (∀ p u u', p ∈ ps → st.1 ⊆ u.1 → u.2 = st.2 → p ∉ u.1 → rec p u = (false, u') → scanned target (eq p) u u') →
  cycle_above rec ps st = (false, st') → scanned target (.∈ ps) st st'.
Proof.
  revert st; induction ps as [|p ps IH]; intros st Hrec; cbn [cycle_above].
  { intros [= <-]. split; [done|done|set_solver|done]. }
  assert (Hrec' : ∀ u, st.1 ⊆ u.1 → u.2 = st.2 →
      ∀ q w w', q ∈ ps → u.1 ⊆ w.1 → w.2 = u.2 → q ∉ w.1 → rec q w = (false, w') → scanned target (eq q) w w').
  { intros u Hu Hu2 q w w' Hq Hw Hw2. apply Hrec; [by right|by etrans|congruence]. }
  case_bool_decide as Hp.
  - case_bool_decide; [done|]. intros E. destruct (IH st) as [S1 S2 S3 S4]; [by apply Hrec'|done|].
    split; [done|done| |done]. intros c [->|Hc]%elem_of_cons; [by apply S1|by apply S3].
  - destruct (rec p st) as [[|] u] eqn:Er; [done|]. intros E.
    destruct (Hrec p st u ltac:(left) ltac:(done) ltac:(done) Hp Er) as [R1 R2 R3 R4].
    destruct (IH u) as [S1 S2 S3 S4]; [by apply Hrec'|done|]. split.
    + by etrans.
    + congruence.
    + intros c [->|Hc]%elem_of_cons; [by apply S1, R3|by apply S3].
    + intros x Hx Hn. destruct (decide (x ∈ u.1)) as [Hu|Hu]; [|by apply S4].
      destruct (R4 x Hu Hn). split; [done|by etrans].
Qed.

Lemma dfs_scanned target fuel c st st' :
  (room c st.1 ≤ fuel)%nat → st.2 ⊆ st.1 → c ∉ st.1 →
  has_cycle_dfs order m target fuel c st = (false, st') → scanned target (eq c) st st'.
Proof.
  revert c st st'; induction fuel as [|fuel IH]; intros c st st' Hf Hst Hc; cbn [has_cycle_dfs].
  { assert (c ∈ ({[ c ]} ∪ search_targets m) ∖ st.1) as Hin by set_solver. unfold room in Hf.
    assert (size (({[ c ]} ∪ search_targets m) ∖ st.1) = 0)%nat as E%size_empty_inv by lia. set_solver. }
  rewrite bool_decide_eq_false_2 by done. destruct (cycle_above _ _ _) as [[|] u] eqn:E; [done|].
  apply (cycle_above_scanned target) in E as [S1 S2 S3 S4]; cbn [fst snd] in *.
  - destruct (bool_decide (c = target) && bool_decide (target ∈ u.2)) eqn:Et; [done|]. intros [= <-].
    assert (Hne : c ≠ target).
    { intros ->. rewrite !bool_decide_eq_true_2 in Et by set_solver. done. }
    assert (members m c ⊆ u.1) by (intros x Hx; by apply S3, elem_listing).
    split; cbn [fst snd].
    + set_solver.
    + rewrite S2. set_solver.
    + intros ? <-. set_solver.
    + intros x Hx Hn. destruct (decide (x = c)) as [->|]; [done|]. apply S4; set_solver.
  - intros p w w' Hp%elem_listing Hw Hw2 Hpw. apply IH; [|set_solver|done].
    pose proof (room_visit c p st.1 w.1 Hw Hc (edge_target c p Hp)). lia.
Qed.

(** A call that found something, in a graph without cycles: its target. *)
Lemma cycle_above_reaches target rec c (ps : list key) st st' :
  (∀ x, ¬ tc edge x x) → (∀ p, p ∈ ps → edge c p) → (∀ x, x ∈ st.2 → rtc edge x c) →
  (∀ p u u' b, p ∈ ps → st.1 ⊆ u.1 → u.2 = st.2 → p ∉ u.1 → rec p u = (b, u') →
     if b : bool then rtc edge p target else u.1 ⊆ u'.1 ∧ u'.2 = u.2) →
  cycle_above rec ps st = (true, st') → rtc edge c target.
Proof.
  intros Hac. revert st; induction ps as [|p ps IH]; intros st Hps Hst Hrec; cbn [cycle_above]; [done|].
  assert (Hcp : edge c p) by (apply Hps; left).
  case_bool_decide as Hp.
  - case_bool_decide as Hp2.
    + destruct (Hac p). eapply tc_rtc_l; [by apply Hst|by apply tc_once].
    + apply IH; [intros; apply Hps; by right|done|]. intros q u u' b Hq. apply Hrec. by right.
  - destruct (rec p st) as [b u] eqn:Er. specialize (Hrec p st u b ltac:(left)) as Hb. specialize (Hb ltac:(done) ltac:(done) Hp Er).
    destruct b; [intros _; by apply (rtc_l edge c p target)|]. destruct Hb as [Hu Hu2].
    apply IH; [intros; apply Hps; by right|by rewrite Hu2|]. intros q w w' b Hq Hw Hw2. apply Hrec; [by right|by etrans|congruence].
Qed.

Lemma dfs_reaches target fuel c st st' :
  (∀ x, ¬ tc edge x x) → (room c st.1 ≤ fuel)%nat → st.2 ⊆ st.1 → c ∉ st.1 → (∀ x, x ∈ st.2 → rtc edge x c) →
  has_cycle_dfs order m target fuel c st = (true, st') → rtc edge c target.
Proof.
  intros Hac. revert c st st'; induction fuel as [|fuel IH]; intros c st st' Hf Hst Hc Hrc; cbn [has_cycle_dfs]; [done|].
  rewrite bool_decide_eq_false_2 by done. destruct (cycle_above _ _ _) as [[|] u] eqn:E.
  - intros _. revert E. apply (cycle_above_reaches target _ c); [done|..]; cbn [fst snd].
    + by intros p ?%elem_listing.
    + intros x [->%elem_of_singleton|?]%elem_of_union; [constructor|by apply Hrc].
    + intros p w w' b Hp%elem_listing Hw Hw2 Hpw Er.
      assert (Hroom : (room p w.1 ≤ fuel)%nat) by (pose proof (room_visit c p st.1 w.1 Hw Hc (edge_target c p Hp)); lia).
      assert (Hsub : w.2 ⊆ w.1) by set_solver.
      destruct b; [|by destruct (dfs_scanned _ _ _ _ _ Hroom Hsub Hpw Er)].
      eapply IH; [exact Hroom|done|done| |exact Er]. rewrite Hw2. cbn. intros x [->%elem_of_singleton|Hx]%elem_of_union.
      * by apply rtc_once.
      * eapply rtc_r; [by apply Hrc|done].
  - destruct (bool_decide _ && _) eqn:Et; [|done]. intros _. apply andb_true_iff in Et as [->%bool_decide_eq_true _]. constructor.
Qed.

(** The loop over the direct parents, from marks that were left by earlier ones. *)
Definition settled (target : key) (st : gset key * gset key) : Prop :=
  st.2 = ∅ ∧ ∀ x, x ∈ st.1 → x ≠ target ∧ members m x ⊆ st.1.

Lemma room_bound c visited : (room c visited ≤ Datatypes.S (size (search_targets m)))%nat.
Proof.
  unfold room. trans (size ({[ c ]} ∪ search_targets m)); [apply subseteq_size; set_solver|].
  rewrite size_union_alt, size_singleton. pose proof (subseteq_size (search_targets m ∖ {[ c ]}) (search_targets m) ltac:(set_solver)). lia.
Qed.

Lemma cycle_from_spec target fuel ps st :
  (Datatypes.S (size (search_targets m)) ≤ fuel)%nat → settled target st →
  let r := cycle_from (has_cycle_dfs order m target fuel) ps st in
  if r.1 then (∀ x, ¬ tc edge x x) → ∃ p, p ∈ ps ∧ rtc edge p target
  else settled target r.2 ∧ st.1 ⊆ r.2.1 ∧ ∀ p, p ∈ ps → p ∈ r.2.1.
Proof.
  intros Hfuel. revert st; induction ps as [|p ps IH]; intros st [Hst Hcl]; cbn [cycle_from].
  { cbn. split_and!; [by split|done|set_solver]. }
  assert (Hdone : ∀ u, settled target u → st.1 ⊆ u.1 → p ∈ u.1 →
    let r := cycle_from (has_cycle_dfs order m target fuel) ps u in
    if r.1 then (∀ x, ¬ tc edge x x) → ∃ q, q ∈ p :: ps ∧ rtc edge q target
    else settled target r.2 ∧ st.1 ⊆ r.2.1 ∧ ∀ q, q ∈ p :: ps → q ∈ r.2.1).
  { intros u Hu Hsub Hp. specialize (IH u Hu). cbn zeta in *. destruct (cycle_from _ ps u) as [[|] w]; cbn [fst snd] in *.
    - intros Hac. destruct (IH Hac) as (q & Hq & Hr). exists q. split; [by right|done].
    - destruct IH as (Hw & Huw & Hps). split_and!; [done|by etrans|]. intros q [->|Hq]%elem_of_cons; [by apply Huw|by apply Hps]. }
  destruct (decide (p ∈ st.1)) as [Hp|Hp].
  - assert (has_cycle_dfs order m target fuel p st = (false, (st.1, st.2 ∖ {[ p ]}))) as ->.
    { destruct fuel; [lia|]. cbn [has_cycle_dfs]. by rewrite bool_decide_eq_true_2. }
    apply Hdone; [split; cbn; [set_solver|done]|done|done].
  - pose proof (room_bound p st.1) as Hroom. assert (Hsub : st.2 ⊆ st.1) by set_solver.
    destruct (has_cycle_dfs _ _ _ _ p st) as [[|] u] eqn:E.
    + cbn. intros Hac. exists p. split; [left|]. eapply dfs_reaches; [done| |done|done| |exact E]; [lia|].
      rewrite Hst. set_solver.
    + apply dfs_scanned in E as [E1 E2 E3 E4]; [|lia|done|done]. apply Hdone; [|done|by apply E3]. split; [congruence|].
      intros x Hx. destruct (decide (x ∈ st.1)) as [Hxs|Hxs]; [|by apply E4]. destruct (Hcl x Hxs). split; [done|by etrans].
Qed.

(** Nothing above the parents is the transaction when the search finds no cycle; and
    in a graph without cycles, one of the parents descends from it otherwise. *)
Lemma detect_cycles_spec target parents :
  if detect_cycles order m target parents then (∀ x, ¬ tc edge x x) → ∃ p, p ∈ parents ∧ rtc edge p target
  else ∀ p, p ∈ parents → ¬ rtc edge p target.
Proof.
  unfold detect_cycles. assert (Hs : settled target (∅, ∅)) by (split; cbn; [done|set_solver]).
  pose proof (cycle_from_spec target (Datatypes.S (size (search_targets m))) (order parents) (∅, ∅) ltac:(done) Hs) as Hspec.
  cbn zeta in Hspec. destruct (cycle_from _ _ _) as [[|] u]; cbn [fst snd] in *.
  - intros Hac. destruct (Hspec Hac) as (p & ?%elem_listing & ?); eauto.
  - destruct Hspec as ([_ Hcl] & _ & Hps). intros p Hp%elem_listing Hr.
    enough (target ∈ u.1) as Ht by (destruct (Hcl target Ht) as [Hne _]; by apply Hne). specialize (Hps p Hp).
    assert (Hup : ∀ x y, x ∈ u.1 → edge x y → y ∈ u.1) by (intros x y Hx; by apply (Hcl x)). clear -Hr Hps Hup.
    induction Hr as [|x y z Hxy _ IH]; [done|]. by apply IH, (Hup x).
Qed.

(** *** The execution sequence *)
Section sequence.
Context (N : gset key).

(** The parents in [N] that are not in a list yet. *)
Definition waiting_for (result : list key) (h : key) : gset key := (members m h ∩ N) ∖ list_to_set result.

Lemma count_edges_spec a ps degree edges :
  a ∈ N → NoDup ps → (∀ p, p ∈ ps → p ∈ N → is_Some (edges !! p)) →
  let st := foldl (count_edge N a) (degree, edges) ps in
  (∀ h, st.1 !! h = if decide (h = a) then (λ n, length (filter (.∈ N) ps) + n)%nat <$> degree !! h else degree !! h)
  ∧ (∀ h x, x ∈ members st.2 h ↔ x ∈ members edges h ∨ (x = a ∧ h ∈ ps ∧ h ∈ N))
  ∧ ∀ h, is_Some (st.2 !! h) ↔ is_Some (edges !! h).
Proof.
  intros Ha. revert degree edges; induction ps as [|p ps IH]; intros degree edges Hnd Hed; cbn [foldl].
  { cbn. split_and!; [|set_solver|done]. intros h. case_decide; [|done]. by destruct (degree !! h). }
  apply NoDup_cons in Hnd as [Hp Hnd]. unfold count_edge at 2 4 6. cbn [fst snd]. case_bool_decide as HpN.
  - edestruct (IH (alter Datatypes.S a degree) (alter (λ X, {[ a ]} ∪ X) p edges) Hnd) as (I1 & I2 & I3).
    { intros q Hq HqN. apply lookup_alter_is_Some, Hed; [by right|done]. }
    split_and!.
    + intros h. rewrite I1, filter_cons_True by done. cbn [length]. destruct (decide (h = a)) as [->|Hh]; [|by rewrite lookup_alter_ne].
      rewrite lookup_alter_eq. destruct (degree !! a); cbn; [f_equal; lia|done].
    + intros h x. rewrite I2. unfold members at 1. destruct (decide (h = p)) as [->|Hh].
      * rewrite lookup_alter_eq. destruct (Hed p ltac:(left) HpN) as [X HX]. unfold members. rewrite HX. cbn. set_solver.
      * rewrite lookup_alter_ne by done. fold (members edges h). rewrite elem_of_cons. tauto.
    + intros h. by rewrite I3, lookup_alter_is_Some.
  - edestruct (IH degree edges Hnd) as (I1 & I2 & I3); [intros; apply Hed; [by right|done]|]. split_and!; [|set_solver|done].
    intros h. by rewrite I1, filter_cons_False.
Qed.

Lemma order_nodup X : NoDup (order X).
Proof. rewrite (Horder X). apply NoDup_elements. Qed.
Lemma length_listing (P : key → Prop) `{∀ x, Decision (P x)} (X Y : gset key) :
  (∀ x, x ∈ Y ↔ x ∈ X ∧ P x) → length (filter P (order X)) = size Y.
Proof.
  intros HY. rewrite <- (size_list_to_set (C := gset key) (filter P (order X))) by (by apply NoDup_filter, order_nodup).
  f_equal. apply set_eq. intros x. rewrite elem_of_list_to_set, list_elem_of_filter, elem_listing, HY. tauto.
Qed.

Lemma degree_fold l degree edges :
  NoDup l → (∀ a, a ∈ l → a ∈ N) → (∀ h, h ∈ N → is_Some (edges !! h)) →
  let st := foldl (λ st a, foldl (count_edge N a) st (order (members m a))) (degree, edges) l in
  (∀ h, st.1 !! h = if decide (h ∈ l) then (λ n, size (members m h ∩ N) + n)%nat <$> degree !! h else degree !! h)
  ∧ ∀ h x, x ∈ members st.2 h ↔ x ∈ members edges h ∨ (x ∈ l ∧ h ∈ members m x ∧ h ∈ N).
Proof.
  revert degree edges; induction l as [|a l IH]; intros degree edges Hnd Hl Hed; cbn [foldl].
  { cbn. split; [intros h; by rewrite decide_False by apply not_elem_of_nil|set_solver]. }
  apply NoDup_cons in Hnd as [Ha Hnd].
  destruct (count_edges_spec a (order (members m a)) degree edges) as (C1 & C2 & C3);
    [apply Hl; left|apply order_nodup|by intros; apply Hed|].
  destruct (foldl (count_edge N a) (degree, edges) _) as [degree' edges']. cbn [fst snd] in *.
  destruct (IH degree' edges' Hnd) as [I1 I2]; [intros; apply Hl; by right|intros; by apply C3, Hed|]. split.
  - intros h. rewrite I1, C1. destruct (decide (h = a)) as [->|Hh].
    + rewrite decide_False, decide_True by (done || left). by rewrite (length_listing _ _ (members m a ∩ N)) by set_solver.
    + destruct (decide (h ∈ l)); [rewrite decide_True by (by right)|rewrite decide_False by (rewrite elem_of_cons; tauto)]; done.
  - intros h x. rewrite I2, C2, elem_of_cons, elem_listing. split; [|naive_solver].
    intros [[?|(-> & ? & ?)]|?]; naive_solver.
Qed.

Lemma degree_tables_spec :
  let st := degree_tables order m N in
  (∀ h, h ∈ N → st.1 !! h = Some (size (waiting_for [] h)))
  ∧ ∀ h x, x ∈ members st.2 h ↔ x ∈ N ∧ h ∈ members m x ∧ h ∈ N.
Proof.
  destruct (degree_fold (order N) (gset_to_gmap O N) (gset_to_gmap ∅ N)) as [D1 D2];
    [apply order_nodup|by intros a ?%elem_listing|intros h Hh; exists ∅; by rewrite lookup_gset_to_gmap_Some|].
  split.
  - intros h Hh. unfold degree_tables. rewrite D1, decide_True by (by apply elem_listing).
    assert (gset_to_gmap O N !! h = Some O) as -> by (by apply lookup_gset_to_gmap_Some). cbn. f_equal.
    unfold waiting_for. rewrite Nat.add_0_r. f_equal. cbn. set_solver.
  - intros h x. unfold degree_tables. rewrite D2, elem_listing. unfold members at 1. rewrite lookup_gset_to_gmap.
    assert (x ∉ default (∅ : gset key) (guard (h ∈ N) ≫= λ _, Some ∅)) by (case_guard; cbn; set_solver). tauto.
Qed.

(** Releasing the children of a node. *)
Lemma release_spec (P : key → Prop) `{∀ h, Decision (P h)} l degree queue :
  NoDup l → (∀ h, h ∈ l → P h ↔ (default O (degree !! h) - 1)%nat = O) →
  let st := foldl release_one (degree, queue) l in
  (∀ h, st.1 !! h = if decide (h ∈ l) then Some (default O (degree !! h) - 1)%nat else degree !! h)
  ∧ st.2 = queue ++ filter P l.
Proof.
  revert degree queue; induction l as [|a l IH]; intros degree queue Hnd HP; cbn [foldl].
  { cbn. split; [intros h; by rewrite decide_False by apply not_elem_of_nil|by rewrite app_nil_r]. }
  apply NoDup_cons in Hnd as [Ha Hnd]. unfold release_one at 2 4. specialize (HP a ltac:(left)) as HPa.
  set (d := (default O (degree !! a) - 1)%nat) in *.
  destruct (IH (<[a := d]> degree) (if bool_decide (d = O) then queue ++ [a] else queue) Hnd) as [I1 I2].
  { intros h Hh. rewrite lookup_insert_ne by congruence. apply HP. by right. }
  split.
  - intros h. rewrite I1. destruct (decide (h = a)) as [->|Hh].
    + rewrite decide_False, decide_True by (done || left). by rewrite lookup_insert_eq.
    + rewrite lookup_insert_ne by done.
      destruct (decide (h ∈ l)); [rewrite decide_True by (by right)|rewrite decide_False by (rewrite elem_of_cons; tauto)]; done.
  - rewrite I2, filter_cons. case_bool_decide; [rewrite decide_True by tauto; by rewrite <- app_assoc|by rewrite decide_False by tauto].
Qed.

(** The state of the loop. *)
Record kahn (edges : gmap key (gset key)) (degree : gmap key nat) (queue result : list key) : Prop := {
  ka_nodup : NoDup (result ++ queue);
  ka_in : ∀ h, h ∈ result ++ queue → h ∈ N ∧ waiting_for result h = ∅;
  ka_degree : ∀ h, h ∈ N → h ∉ result → degree !! h = Some (size (waiting_for result h));
  ka_ready : ∀ h, h ∈ N → waiting_for result h = ∅ → h ∈ result ++ queue;
  ka_order : ∀ l1 x l2 p, result = l1 ++ x :: l2 → p ∈ members m x → p ∈ N → p ∈ l1
}.

Lemma waiting_snoc result c h : waiting_for (result ++ [c]) h = waiting_for result h ∖ {[ c ]}.
Proof. unfold waiting_for. rewrite list_to_set_app_L. cbn. set_solver. Qed.

Lemma sequence_step edges degree c queue result :
  (∀ h x, x ∈ members edges h ↔ x ∈ N ∧ h ∈ members m x ∧ h ∈ N) →
  kahn edges degree (c :: queue) result →
  let st := foldl release_one (degree, queue) (order (members edges c)) in
  kahn edges st.1 st.2 (result ++ [c]).
Proof.
  intros Hed [Hnd Hin Hdeg Hready Hord].
  destruct (Hin c) as [HcN Hcw]; [rewrite elem_of_app, elem_of_cons; tauto|].
  assert (Hcr : c ∉ result).
  { intros Hc. apply NoDup_app in Hnd as (_ & Hnd & _). apply (Hnd c Hc). left. }
  (* a child of [c] still waits for it, so it is neither out nor queued *)
  assert (Hchild : ∀ h, h ∈ order (members edges c) ↔ c ∈ waiting_for result h ∧ h ∈ N).
  { intros h. rewrite elem_listing, Hed. unfold waiting_for. set_solver. }
  assert (Hfresh : ∀ h, h ∈ order (members edges c) → h ∈ N ∧ h ∉ result ++ c :: queue ∧ degree !! h = Some (size (waiting_for result h))).
  { intros h [Hh HhN]%Hchild. assert (h ∉ result ++ c :: queue) by (intros [_ E]%Hin; set_solver).
    split_and!; [done|done|]. apply Hdeg; [done|]. rewrite elem_of_app in *. tauto. }
  assert (Hsize : ∀ h, c ∈ waiting_for result h → size (waiting_for (result ++ [c]) h) = (size (waiting_for result h) - 1)%nat).
  { intros h Hh. rewrite waiting_snoc, size_difference by set_solver. by rewrite size_singleton. }
  destruct (release_spec (λ h, waiting_for (result ++ [c]) h = ∅) (order (members edges c)) degree queue (order_nodup _)) as [R1 R2].
  { intros h Hh. destruct (Hfresh h Hh) as (_ & _ & ->). apply Hchild in Hh as [Hh _]. cbn. rewrite <- Hsize by done.
    by rewrite size_empty_iff, leibniz_equiv_iff. }
  cbn zeta. destruct (foldl _ _ _) as [degree' queue']. cbn [fst snd] in *. subst queue'. split.
  - rewrite <- app_assoc. cbn. rewrite app_comm_cons, app_assoc. apply NoDup_app. split_and!; [done| |apply NoDup_filter, order_nodup].
    intros h Hh [_ Hh']%list_elem_of_filter. by apply Hfresh in Hh' as (_ & ? & _).
  - intros h. rewrite <- app_assoc. cbn. rewrite app_comm_cons, app_assoc, elem_of_app, list_elem_of_filter.
    intros [[HhN Hw]%Hin|[Hw Hh]]; [split; [done|rewrite waiting_snoc; set_solver]|split; [by apply Hfresh|done]].
  - intros h HhN Hh. rewrite R1. assert (h ∉ result ∧ h ≠ c) as [Hhr Hhc] by set_solver. case_decide as Hch.
    + destruct (Hfresh h Hch) as (_ & _ & ->). apply Hchild in Hch as [Hch _]. cbn. by rewrite Hsize.
    + rewrite Hdeg by done. do 2 f_equal. rewrite waiting_snoc. rewrite Hchild in Hch. set_solver.
  - intros h HhN Hw. destruct (decide (h ∈ order (members edges c))) as [Hch|Hch].
    + rewrite !elem_of_app, list_elem_of_filter. tauto.
    + assert (Hw' : waiting_for result h = ∅) by (rewrite Hchild in Hch; rewrite waiting_snoc in Hw; set_solver).
      specialize (Hready h HhN Hw'). rewrite !elem_of_app, elem_of_cons in *. set_solver.
  - intros l1 x l2 p E Hp HpN. destruct l2 as [|z l2 _] using rev_ind.
    + apply app_inj_2 in E as [<- [= <-]]; [|done]. apply dec_stable. intros Hn.
      assert (p ∈ waiting_for result c); [|set_solver]. unfold waiting_for. set_solver.
    + rewrite app_comm_cons, app_assoc in E. apply app_inj_2 in E as [-> _]; [|done]. by eapply Hord.
Qed.

Lemma sequence_loop_kahn edges fuel degree queue result :
  (∀ h x, x ∈ members edges h ↔ x ∈ N ∧ h ∈ members m x ∧ h ∈ N) →
  kahn edges degree queue result → (size N < fuel + length result)%nat →
  ∃ degree', kahn edges degree' [] (sequence_loop order edges fuel degree queue result).
Proof.
  intros Hed. revert degree queue result; induction fuel as [|fuel IH]; intros degree queue result Hk Hf; cbn [sequence_loop].
  - assert (size (list_to_set result : gset key) ≤ size N)%nat as Hs.
    { apply subseteq_size. intros h Hh%elem_of_list_to_set. apply (ka_in _ _ _ _ Hk). apply elem_of_app. by left. }
    rewrite size_list_to_set in Hs by (apply ka_nodup, NoDup_app in Hk; tauto). lia.
  - destruct queue as [|c queue]; [by exists degree|]. fold (members edges c).
    pose proof (sequence_step edges degree c queue result Hed Hk) as Hstep.
    destruct (foldl _ _ _) as [degree' queue']. apply (IH _ _ _ Hstep). rewrite length_app. cbn. lia.
Qed.
End sequence.

(** What is above a node is finite: without cycles there is an end to it. *)
Lemma acyclic_sn x : (∀ y, ¬ tc edge y y) → sn edge x.
Proof.
  intros Hac. apply tc_finite_sn; [exact Hac|]. exists (elements (search_targets m)). intros y (z & _ & Hzy)%tc_rtc_split.
  apply elem_of_elements. by eapply edge_target.
Qed.

(** The sequence lists ancestors, each once and after those it depends on, and all of
    them in a graph without cycles. *)
Lemma execution_sequence_spec root :
  let l := execution_sequence order m root in
  NoDup l ∧ (∀ x, x ∈ l → tc edge root x)
  ∧ (∀ l1 x l2 p, l = l1 ++ x :: l2 → edge x p → p ∈ l1)
  ∧ ((∀ x, ¬ tc edge x x) → ∀ x, tc edge root x → x ∈ l).
Proof.
  cbn zeta. unfold execution_sequence. set (N := collect order m root).
  assert (HN : ∀ x, x ∈ N ↔ tc edge root x) by (intros; apply elem_collect).
  pose proof (degree_tables_spec N) as [Hd He]. destruct (degree_tables _ _ _) as [degree edges]. cbn [fst snd] in *.
  destruct (sequence_loop_kahn N edges (Datatypes.S (size N)) degree (filter (λ a, default O (degree !! a) = O) (order N)) [])
    as [degree' [Hnd Hin _ Hready Hord]]; [done| |cbn; lia|].
  - assert (Hz : ∀ h, h ∈ filter (λ a, default O (degree !! a) = O) (order N) ↔ h ∈ N ∧ waiting_for N [] h = ∅).
    { intros h. rewrite list_elem_of_filter, elem_listing. split; intros [Hh1 Hh2].
      - split; [done|]. rewrite Hd in Hh1 by done. by apply size_empty_iff, leibniz_equiv_iff in Hh1.
      - split; [|done]. rewrite Hd by done. cbn. by rewrite Hh2, size_empty. }
    split; cbn [app].
    + apply NoDup_filter, order_nodup.
    + intros h. by rewrite Hz.
    + intros h Hh _. by apply Hd.
    + intros h Hh Hw. by apply Hz.
    + by intros [] ? ? ? ?.
  - rewrite app_nil_r in *. set (l := sequence_loop _ _ _ _ _ _) in *. clearbody l. split_and!.
    + done.
    + intros x [Hx _]%Hin. by apply HN.
    + intros l1 x l2 p E Hxp. apply (Hord l1 x l2 p E Hxp). destruct (Hin x) as [Hx _]; [rewrite E; set_solver|].
      apply HN. apply HN in Hx. by eapply tc_r.
    + intros Hac x Hx%HN. pose proof (acyclic_sn x Hac) as Hsn. induction Hsn as [x _ IH]. apply Hready; [done|].
      unfold waiting_for. apply set_eq. intros p. split; [|set_solver].
      intros [[Hp HpN]%elem_of_intersection Hn]%elem_of_difference. destruct Hn. apply elem_of_list_to_set. by apply IH.
Qed.
End searches_ok.

(** One more transaction, which nothing above its parents is. *)
Lemma acyclic_insert (m : gmap key (gset key)) h parents :
  m !! h = None → (∀ x, ¬ tc (λ a b, b ∈ members m a) x x) →
  (∀ p, p ∈ parents → ¬ rtc (λ a b, b ∈ members m a) p h) →
  ∀ x, ¬ tc (λ a b, b ∈ members (<[h := parents]> m) a) x x.
Proof.
  intros Hh Hac Hp. set (R := λ a b, b ∈ members m a). set (R' := λ a b, b ∈ members (<[h := parents]> m) a).
  assert (Hedge : ∀ a b, R' a b → R a b ∨ (a = h ∧ b ∈ parents)).
  { intros a b. unfold R', R. rewrite members_insert. case_decide; [subst; by right|by left]. }
  set (above := λ y, ∃ p, p ∈ parents ∧ rtc R p y).
  assert (Hup : ∀ y z, above y → R' y z → above z ∧ R y z).
  { intros y z (p & Hpp & Hy) [Hyz|[-> _]]%Hedge; [|by destruct (Hp p Hpp)]. split; [|done]. exists p. split; [done|by eapply rtc_r]. }
  assert (Hup' : ∀ y z, tc R' y z → above y → above z ∧ tc R y z).
  { intros y z Hyz. induction Hyz as [y z Hyz|y z w Hyz _ IH]; intros Hy; destruct (Hup y z Hy Hyz) as [Hz HR].
    - split; [done|by apply tc_once].
    - destruct (IH Hz). split; [done|by eapply tc_l]. }
  assert (Hsplit : ∀ y z, tc R' y z → above z ∨ tc R y z).
  { intros y z Hyz. induction Hyz as [y z [Hyz|[-> Hz]]%Hedge|y z w [Hyz|[-> Hz]]%Hedge Hzw IH].
    - right. by apply tc_once.
    - left. exists z. split; [done|constructor].
    - destruct IH as [?|?]; [by left|right; by eapply tc_l].
    - left. eapply Hup'; [exact Hzw|]. exists z. split; [done|constructor]. }
  intros x Hx. destruct (Hsplit x x Hx) as [Hax|Hr]; [|by apply (Hac x)]. destruct (Hup' x x Hx Hax) as [_ Hr]. by apply (Hac x).
Qed.
Lemma acyclic_delete (m : gmap key (gset key)) h :
  (∀ x, ¬ tc (λ a b, b ∈ members m a) x x) → ∀ x, ¬ tc (λ a b, b ∈ members (delete h m) a) x x.
Proof.
  intros Hac x Hx. apply (Hac x). clear Hac. revert Hx. generalize x at 2 4. intros y Hx.
  induction Hx as [a b Hab|a b c Hab _ IH]; apply members_delete in Hab as [_ Hab]; [by apply tc_once|by eapply tc_l].
Qed.

(** ** Theorems *)
Section theorems.
Context {D : Type} {C : Type → Type} `{RocksDb D, LruCache C, Codec UtxoValue, Bincode}.
Context (order : gset key → list key) (Horder : ∀ s, order s ≡ₚ elements s).
Implicit Types (s : TxDependencyManager (D := D) (C := C)).

Abbreviation above s := (λ a b, b ∈ members (child_to_parents s) a).

Record dependencies_ok s : Prop := {
  dm_acyclic : ∀ x, ¬ tc (above s) x x;
  dm_known : ∀ h, is_Some (execution_depth s !! h) ↔ is_Some (child_to_parents s !! h);
  dm_index : ∀ d h, h ∈ default ∅ (depth_index s !! d) ↔ execution_depth s !! h = Some d
}.
Definition dm_graph s := (parent_to_children s, child_to_parents s, execution_depth s, depth_index s).
Lemma dm_graph_ok s s' : dm_graph s' = dm_graph s → dependencies_ok s → dependencies_ok s'.
Proof. intros [= E1 E2 E3 E4] [Ha Hk Hi]. split; rewrite ?E2, ?E3, ?E4; done. Qed.

Lemma no_dependencies_ok store : dependencies_ok (TxDependencyManager_new store).
Proof.
  split; cbn.
  - intros x Hx. apply tc_rtc_split in Hx as (y & _ & Hy). unfold members in Hy. rewrite lookup_empty in Hy. set_solver.
  - intros h. by rewrite !lookup_empty.
  - intros d h. rewrite !lookup_empty. split; [set_solver|done].
Qed.

(** *** The depth index *)
Lemma index_depth_lookup d h i d' x :
  x ∈ default ∅ (index_depth d h i !! d') ↔ (d' = d ∧ x = h) ∨ x ∈ default ∅ (i !! d').
Proof. unfold index_depth. rewrite lookup_insert. case_decide; [subst; cbn; set_solver|naive_solver]. Qed.
Lemma unindex_depth_lookup d h i d' x :
  x ∈ default ∅ (unindex_depth d h i !! d') ↔ x ∈ default ∅ (i !! d') ∧ ¬ (d' = d ∧ x = h).
Proof.
  unfold unindex_depth. destruct (decide (d' = d)) as [->|Hd]; [|rewrite lookup_alter_ne by done; naive_solver].
  rewrite lookup_alter_eq. destruct (i !! d); cbn; set_solver.
Qed.

(** *** Removal *)
Lemma forget_ok h s : dependencies_ok s → dependencies_ok (forget h s).
Proof.
  intros [Ha Hk Hi]. split; cbn [child_to_parents execution_depth depth_index forget put_graph].
  - by apply acyclic_delete.
  - intros x. rewrite !lookup_delete. case_decide; [split; by intros []|apply Hk].
  - intros d x. rewrite lookup_delete. destruct (execution_depth s !! h) as [d0|] eqn:E.
    + rewrite unindex_depth_lookup, Hi. case_decide; [subst; rewrite E; naive_solver|naive_solver].
    + rewrite Hi. case_decide; [subst; rewrite E; naive_solver|done].
Qed.

Lemma recalculate_relations h s :
  child_to_parents (recalculate_depth order h s) = child_to_parents s
  ∧ parent_to_children (recalculate_depth order h s) = parent_to_children s.
Proof. unfold recalculate_depth. destruct (execution_depth s !! h); [case_bool_decide|]; done. Qed.

Lemma recalculate_ok h s : dependencies_ok s → dependencies_ok (recalculate_depth order h s).
Proof.
  intros [Ha Hk Hi]. unfold recalculate_depth. set (nd := if bool_decide _ then 0 else _). clearbody nd.
  destruct (execution_depth s !! h) as [d0|] eqn:E; [|done]. case_bool_decide; [done|].
  split; cbn [child_to_parents execution_depth depth_index put_graph]; [done| |].
  - intros x. rewrite lookup_insert. case_decide; [subst; rewrite <- Hk, E; split; by eexists|apply Hk].
  - intros d x. rewrite index_depth_lookup, unindex_depth_lookup, Hi, lookup_insert.
    case_decide; [subst; rewrite E|]; naive_solver.
Qed.

Lemma orphan_child_fold (P : TxDependencyManager → Prop) l stack evicted s :
  (∀ h s, P s → P (recalculate_depth order h s)) → P s → P (foldl (orphan_child order) (stack, evicted, s) l).2.
Proof.
  intros HP. revert stack evicted s; induction l as [|c l IH]; intros stack evicted s Hs; cbn [foldl]; [done|].
  unfold orphan_child at 2. destruct (child_to_parents s !! c); [case_bool_decide|]; by auto.
Qed.

Lemma remove_loop_keeps (P : TxDependencyManager → Prop) fuel stack evicted s :
  (∀ h s, P s → P (recalculate_depth order h s)) → (∀ h s, P s → P (forget h s)) →
  P s → P (remove_loop order fuel (stack, evicted, s)).2.
Proof.
  intros Hr Hf. revert stack evicted s; induction fuel as [|fuel IH]; intros stack evicted s Hs; cbn [remove_loop]; [done|].
  destruct stack as [|c stack]; [done|].
  pose proof (orphan_child_fold P (get_dependent_children order s c) stack evicted (forget c s) Hr (Hf _ _ Hs)) as Hs'.
  destruct (foldl _ _ _) as [[stack' evicted'] s']. by apply IH.
Qed.

Lemma remove_dependencies_ok h s : dependencies_ok s → dependencies_ok (remove_dependencies order h s).2.
Proof.
  intros Hs. unfold remove_dependencies.
  pose proof (remove_loop_keeps dependencies_ok (remove_fuel order s) [h] [h] s recalculate_ok forget_ok Hs) as Hs'.
  destruct (remove_loop _ _ _) as [[stack evicted] s']. by apply (dm_graph_ok s').
Qed.

Lemma out_edges_delete (g : gmap key (list key)) c : (out_edges (delete c g) + length (succ_in g c) = out_edges g)%nat.
Proof.
  unfold out_edges, succ_in. destruct (g !! c) as [cs|] eqn:Ec; [|by rewrite delete_id].
  pose proof (out_edges_nonneg (delete c g)) as Hn. rewrite (msum_delete _ _ _ cs) in * by done. cbn. lia.
Qed.

Lemma orphan_child_run l stack evicted s :
  ∃ pushed s', foldl (orphan_child order) (stack, evicted, s) l = (reverse pushed ++ stack, evicted ++ pushed, s')
  ∧ (length pushed ≤ length l)%nat ∧ child_to_parents s' = child_to_parents s ∧ parent_to_children s' = parent_to_children s
  ∧ ∀ x, x ∈ pushed → x ∈ l ∧ child_to_parents s !! x = Some ∅.
Proof.
  revert stack evicted s; induction l as [|c l IH]; intros stack evicted s; cbn [foldl].
  { exists [], s. cbn. rewrite app_nil_r. split_and!; [done..|]. by intros x ?%not_elem_of_nil. }
  unfold orphan_child at 2. destruct (child_to_parents s !! c) as [X|] eqn:E; [case_bool_decide as HX|].
  - subst X. destruct (IH (c :: stack) (evicted ++ [c]) s) as (pushed & s' & -> & Hl & K1 & K2 & K3).
    exists (c :: pushed), s'. rewrite reverse_cons, <- !app_assoc. cbn. split_and!; [done|lia|done|done|].
    intros x [->|Hx]%elem_of_cons; [split; [left|done]|destruct (K3 x Hx); split; [by right|done]].
  - destruct (recalculate_relations c s) as [R1 R2].
    destruct (IH stack evicted (recalculate_depth order c s)) as (pushed & s' & -> & Hl & K1 & K2 & K3).
    exists pushed, s'. rewrite K1, K2, R1, R2. split_and!; [done|cbn; lia|done|done|]. intros x Hx. destruct (K3 x Hx) as [? K4].
    rewrite R1 in K4. split; [by right|done].
  - destruct (IH stack evicted s) as (pushed & s' & -> & Hl & K1 & K2 & K3). exists pushed, s'.
    split_and!; [done|cbn; lia|done|done|]. intros x Hx. destruct (K3 x Hx). split; [by right|done].
Qed.

(** The state of the loop that began at [s0] with [h]. *)
Record removing s0 (h : key) (stack evicted : list key) s : Prop := {
  rm_stack : ∀ x, x ∈ stack → x ∈ evicted;
  rm_why : ∀ x, x ∈ evicted → x = h ∨ child_to_parents s0 !! x = Some ∅;
  rm_out : ∀ x, x ∈ evicted → x ∈ stack ∨ child_to_parents s !! x = None;
  rm_kept : ∀ x, x ∉ evicted → child_to_parents s !! x = child_to_parents s0 !! x;
  rm_below : ∀ x, child_to_parents s !! x = None ∨ child_to_parents s !! x = child_to_parents s0 !! x
}.

Lemma remove_loop_run s0 h fuel stack evicted s :
  (length stack + out_edges (order <$> parent_to_children s) ≤ fuel)%nat → removing s0 h stack evicted s →
  let '(stack', evicted', s') := remove_loop order fuel (stack, evicted, s) in
  stack' = [] ∧ removing s0 h [] evicted' s' ∧ evicted `prefix_of` evicted'.
Proof.
  revert stack evicted s; induction fuel as [|fuel IH]; intros stack evicted s Hf Hs; cbn [remove_loop].
  { destruct stack; [done|cbn in Hf; lia]. }
  destruct stack as [|c stack]; [done|]. unfold get_dependent_children.
  destruct (orphan_child_run (order (members (parent_to_children s) c)) stack evicted (forget c s)) as (pushed & s' & -> & Hl & K1 & K2 & K3).
  assert (Hnext : removing s0 h (reverse pushed ++ stack) (evicted ++ pushed) s').
  { destruct Hs as [Hst Hwhy Hout Hkept Hbelow].
    assert (E : ∀ x, child_to_parents s' !! x = if decide (x = c) then None else child_to_parents s !! x).
    { intros x. rewrite K1. cbn. rewrite lookup_delete. by repeat case_decide. }
    split.
    - intros x. rewrite !elem_of_app, elem_of_reverse. intros [?|?]; [by right|left; apply Hst; by right].
    - intros x [Hx|Hx]%elem_of_app; [by apply Hwhy|]. destruct (K3 x Hx) as [_ K4]. cbn in K4. rewrite lookup_delete in K4.
      case_decide; [done|]. right. destruct (Hbelow x) as [Hb|Hb]; congruence.
    - intros x. rewrite !elem_of_app, elem_of_reverse. intros [Hx|Hx]; [|by left; left].
      destruct (Hout x Hx) as [[->|?]%elem_of_cons|Hx']; [right; rewrite E; by rewrite decide_True|by left; right|].
      right. rewrite E. by case_decide.
    - intros x Hx. rewrite elem_of_app in Hx. rewrite E, decide_False; [apply Hkept; tauto|]. intros ->. apply Hx. left. apply Hst. left.
    - intros x. rewrite E. case_decide; [by left|apply Hbelow]. }
  specialize (IH (reverse pushed ++ stack) (evicted ++ pushed) s').
  destruct (remove_loop _ _ _) as [[stack' evicted'] s'']. destruct IH as (? & ? & Hp).
  - rewrite K2. cbn [parent_to_children forget put_graph]. rewrite length_app, length_reverse, fmap_delete.
    pose proof (out_edges_delete (order <$> parent_to_children s) c) as Ho.
    rewrite (succ_order order Horder) in Ho. cbn in Hf. lia.
  - exact Hnext.
  - split_and!; [done|done|]. etrans; [|exact Hp]. by apply prefix_app_r.
Qed.

(** A removal takes out the transaction and, besides it, only transactions for which
    no parent was recorded; all the others keep their parents. *)
Theorem remove_dependencies_spec h s (Hs : dependencies_ok s) :
  let '(evicted, s') := remove_dependencies order h s in
  head evicted = Some h
  ∧ (∀ x, x ∈ evicted → x = h ∨ child_to_parents s !! x = Some ∅)
  ∧ ∀ x, child_to_parents s' !! x = (if decide (x ∈ evicted) then None else child_to_parents s !! x)
         ∧ (is_Some (get_execution_depth s' x) ↔ x ∉ evicted ∧ is_Some (get_execution_depth s x)).
Proof.
  pose proof (remove_dependencies_ok h s Hs) as Hok. unfold remove_dependencies in *.
  pose proof (remove_loop_run s h (remove_fuel order s) [h] [h] s) as Hrun. unfold remove_fuel in *.
  destruct (remove_loop _ _ _) as [[stack evicted] s']. destruct Hrun as (-> & [_ Hwhy Hout Hkept _] & [l ->]); [cbn; lia| |].
  { split; [done|intros x ->%list_elem_of_singleton; by left|by left|done|by right]. }
  assert (E : ∀ x, child_to_parents s' !! x = if decide (x ∈ [h] ++ l) then None else child_to_parents s !! x).
  { intros x. case_decide as Hx; [by destruct (Hout x Hx) as [?%not_elem_of_nil|?]|by apply Hkept]. }
  split_and!; [done|done|]. intros x. split; [exact (E x)|]. unfold get_execution_depth. rewrite (dm_known _ Hok x), (dm_known _ Hs x).
  cbn [child_to_parents map_dm_stats]. rewrite E. case_decide; [split; [by intros []|tauto]|tauto].
Qed.

(** So no transaction is evicted with the parents it needs: the record of its parents
    still names the one that was removed. *)
Theorem dependents_survive_removal h s c parents (Hs : dependencies_ok s)
    (Hc : child_to_parents s !! c = Some parents) (Hh : h ∈ parents) (Hne : c ≠ h) :
  let '(evicted, s') := remove_dependencies order h s in
  c ∉ evicted ∧ is_Some (get_execution_depth s' c) ∧ child_to_parents s' !! c = Some parents.
Proof.
  pose proof (remove_dependencies_spec h s Hs) as Hr. destruct (remove_dependencies _ _ _) as [evicted s'].
  destruct Hr as (_ & Hwhy & Hx). assert (Hn : c ∉ evicted).
  { intros [?|E]%Hwhy; [done|]. rewrite Hc in E. injection E as ->. set_solver. }
  destruct (Hx c) as [E1 E2]. split_and!; [done| |by rewrite E1, decide_False].
  apply E2. split; [done|]. unfold get_execution_depth. by rewrite (dm_known _ Hs), Hc.
Qed.

(** *** Registration *)
Lemma add_direct_parent_keeps g st input : preserves (λ s, dm_graph s = g) (add_direct_parent st input).
Proof. unfold add_direct_parent. destruct st as [parents d]. keeps; by apply preserves_zoom. Qed.
Lemma add_direct_parents_keep g st l : preserves (λ s, dm_graph s = g) (fold_method add_direct_parent st l).
Proof. apply preserves_fold_method. intros. apply add_direct_parent_keeps. Qed.

Lemma record_dependencies_ok h parents depth s :
  dependencies_ok s → execution_depth s !! h = None → detect_cycles order (child_to_parents s) h parents = false →
  dependencies_ok (record_dependencies h parents depth s).
Proof.
  intros [Ha Hk Hi] Hh Hc. assert (Hp : child_to_parents s !! h = None).
  { apply eq_None_not_Some. rewrite <- Hk, Hh. by intros []. }
  pose proof (detect_cycles_spec order Horder (child_to_parents s) h parents) as Hd. rewrite Hc in Hd.
  split; cbn [child_to_parents execution_depth depth_index record_dependencies put_graph].
  - by apply acyclic_insert.
  - intros x. rewrite !lookup_insert. case_decide; [split; by eexists|apply Hk].
  - intros d x. rewrite index_depth_lookup, Hi, lookup_insert. case_decide; [subst; rewrite Hh|]; naive_solver.
Qed.

(** A transaction that is not registered, once the store has told its parents: it is
    refused when one of them descends from it, and recorded otherwise. *)
Theorem register_dependencies_spec s tx h parents d s1
    (Hs : dependencies_ok s) (Hid : bincode_hash (id tx) = Some h) (Hnew : get_execution_depth s h = None)
    (Hrun : fold_method add_direct_parent (∅, 0) (inputs tx) s = (Ok (parents, d), s1)) :
  let depth := if bool_decide (parents = ∅) then 0 else wadd 32 d 1 in
  match register_dependencies order tx s with
  | (Ok chain, s') =>
      (∀ p, p ∈ parents → ¬ rtc (above s) p h) ∧ chain = dependency_chain_of order s' h depth ∧ dc_direct_parents chain = parents
      ∧ get_execution_depth s' h = Some depth ∧ ∀ x, x ≠ h → get_execution_depth s' x = get_execution_depth s x
  | (Err e, s') =>
      e = OperationFailed "Circular dependency detected" ∧ (∃ p, p ∈ parents ∧ rtc (above s) p h) ∧ dm_graph s' = dm_graph s
  | (Panic _, _) => False
  end.
Proof.
  unfold register_dependencies. rewrite Hid. erewrite method_bind_run by done. rewrite (method_bind_run get _ s s s) by done.
  unfold get_execution_depth in *. rewrite Hnew. rewrite (method_bind_run _ _ _ _ _ Hrun). cbn beta iota zeta.
  rewrite (method_bind_run get _ s1 s1 s1) by done.
  assert (Hg : dm_graph s1 = dm_graph s).
  { pose proof (add_direct_parents_keep (dm_graph s) (∅, 0) (inputs tx) s eq_refl) as Hk. by rewrite Hrun in Hk. }
  injection Hg as G1 G2 G3 G4. rewrite G2.
  pose proof (detect_cycles_spec order Horder (child_to_parents s) h parents) as Hd.
  destruct (detect_cycles _ _ _ _) eqn:Ec.
  - cbn. split_and!; [done|by apply Hd, Hs|]. unfold dm_graph. cbn. congruence.
  - cbn. split_and!; [done|done| |cbn [execution_depth map_dm_stats record_dependencies put_graph]; by rewrite lookup_insert_eq|].
    + unfold dependency_chain_of. cbn [dc_direct_parents child_to_parents map_dm_stats record_dependencies put_graph].
      unfold members. by rewrite lookup_insert_eq.
    + intros x Hx. cbn [execution_depth map_dm_stats record_dependencies put_graph]. rewrite lookup_insert_ne by done. by rewrite G3.
Qed.

Lemma register_dependencies_ok tx s : dependencies_ok s → dependencies_ok (register_dependencies order tx s).2.
Proof.
  intros Hs. unfold register_dependencies. destruct (bincode_hash (id tx)) as [h|]; [|done].
  erewrite method_bind_run by done. rewrite (method_bind_run get _ s s s) by done.
  destruct (execution_depth s !! h) as [d|] eqn:Eh; [done|].
  pose proof (add_direct_parents_keep (dm_graph s) (∅, 0) (inputs tx) s eq_refl) as Hk.
  destruct (fold_method _ _ _ s) as [[[parents d]|e|x] s1] eqn:E; cbn [snd] in Hk.
  2,3: unfold mbind, method_bind; rewrite E; by apply (dm_graph_ok s).
  rewrite (method_bind_run _ _ _ _ _ E). cbn beta iota zeta. rewrite (method_bind_run get _ s1 s1 s1) by done.
  assert (Hs1 : dependencies_ok s1) by by apply (dm_graph_ok s).
  destruct (detect_cycles _ _ _ _) eqn:Ec; [by apply (dm_graph_ok s1)|].
  set (depth := if bool_decide _ then 0 else _). apply (dm_graph_ok (record_dependencies h parents depth s1)); [done|].
  apply record_dependencies_ok; [done| |done]. injection Hk as _ _ -> _. done.
Qed.

(** *** Every manager the code can reach *)
Inductive dependency_step : TxDependencyManager (D := D) (C := C) → TxDependencyManager (D := D) (C := C) → Prop :=
| dep_register tx s : dependency_step s (register_dependencies order tx s).2
| dep_remove h s : dependency_step s (remove_dependencies order h s).2
| dep_store x s : dependency_step s (put_dm_store x s)
| dep_clear s : dependency_step s (dm_clear s).

Lemma dependency_steps_ok store s : rtc dependency_step (TxDependencyManager_new store) s → dependencies_ok s.
Proof.
  assert (Hstep : ∀ s s', dependency_step s s' → dependencies_ok s → dependencies_ok s').
  { intros u u' [tx v|h v|x v|v] Hv.
    - by apply register_dependencies_ok.
    - by apply remove_dependencies_ok.
    - by apply (dm_graph_ok v).
    - by apply (dm_graph_ok (TxDependencyManager_new store)); [|apply no_dependencies_ok]. }
  intros Hr. pose proof (no_dependencies_ok store) as Hf. revert Hf.
  induction Hr as [|s1 s2 s3 H12 _ IH]; [done|]. intros Hf. by apply IH, (Hstep s1).
Qed.

(** C35. Whatever is registered and removed, no transaction depends on itself, the depth
    index lists exactly the registered transactions by their depth, and the chain of
    a registered transaction gives all its ancestors and lists them for execution
    once each, after everything they depend on. *)
Theorem dependency_graph_sound store s (Hs : rtc dependency_step (TxDependencyManager_new store) s) :
  (∀ x, ¬ tc (above s) x x)
  ∧ (∀ d h, h ∈ get_transactions_at_depth order s d ↔ get_execution_depth s h = Some d)
  ∧ ∀ h chain, get_dependency_chain order s h = Some chain →
    (∀ x, x ∈ dc_all_ancestors chain ↔ tc (above s) h x)
    ∧ NoDup (executable_sequence chain)
    ∧ (∀ x, x ∈ executable_sequence chain ↔ tc (above s) h x)
    ∧ ∀ l1 x l2 p, executable_sequence chain = l1 ++ x :: l2 → above s x p → p ∈ l1.
Proof.
  apply dependency_steps_ok in Hs as [Ha Hk Hi]. split_and!; [done| |].
  - intros d h. unfold get_transactions_at_depth. rewrite elem_listing by done. apply Hi.
  - intros h chain (d & _ & ->)%fmap_Some. cbn [dc_all_ancestors executable_sequence dependency_chain_of].
    destruct (execution_sequence_spec order Horder (child_to_parents s) h) as (E1 & E2 & E3 & E4).
    split_and!; [intros; by apply elem_collect|done| |done]. intros x. split; [apply E2|by apply E4].
Qed.
End theorems.

(** ** Witnesses *)
Section examples.
Definition fresh_manager : TxDependencyManager (D := content) (C := mem_cache) := TxDependencyManager_new mem_layer.
Definition depend (txs : list Transaction) : TxDependencyManager :=
  foldl (λ s tx, (register_dependencies elements tx s).2) fresh_manager txs.
Lemma depend_reached txs s :
  rtc (dependency_step elements) s (foldl (λ s tx, (register_dependencies elements tx s).2) s txs).
Proof.
  revert s; induction txs as [|tx txs IH]; intros s; [constructor|]. eapply rtc_l; [apply dep_register|apply IH].
Qed.

Lemma dependency_graph_sound_witness :
  let s := depend [linked 1 [0]; linked 2 [1]; linked 3 [1; 2]] in
  get_executable_ancestors elements s (hash_key 3) = hash_key <$> [0; 1; 2]
  ∧ ∀ x, ¬ tc (λ a b, b ∈ members (child_to_parents s) a) x x.
Proof.
  intros s. split; [vm_compute; reflexivity|].
  apply (dependency_graph_sound elements (λ X, reflexivity _) mem_layer s).
  exact (depend_reached _ fresh_manager).
Defined.

(** A transaction whose parent is unknown is refused once the parent would depend on
    it; and a depth that was assigned is not raised when the parent arrives. *)
Lemma circular_registration_refused :
  (register_dependencies elements (linked 1 [2]) (depend [linked 2 [1]])).1
  = Err (OperationFailed "Circular dependency detected").
Proof. vm_compute. reflexivity. Qed.
Lemma late_parent_depth :
  let s := depend [linked 3 [2]; linked 2 [1]] in
  get_execution_depth s (hash_key 3) = Some 1 ∧ get_execution_depth s (hash_key 2) = Some 1.
Proof. split; vm_compute; reflexivity. Qed.
End examples.
