(* ===== verification/CascadeEviction.v ===== *)
(** * What is built on the dependencies

    klomang-node: the cascade after a confirmation ([mempool/cascade_coordinator.rs]),
    eviction with the dependents ([mempool/dependency_eviction_system.rs]), the
    validator that registers what it validates ([mempool/enhanced_validator.rs]) and the
    classification of parents ([mempool/storage_integration.rs]).  The dependency
    manager, which they share, is passed along or is a field. *)

From Stdlib Require Import Init.Byte.
From S2P Require Import Prelude Crypto Transaction Dag NodePrelude Storage MemoryStore PoolValidator AncestryTracker DependencyManager.

(** ** Data *)
Record CascadeStats := {
  parents_confirmed : Z;
  children_revalidated : Z;
  children_promoted : Z;
  children_invalidated : Z;
  total_cascades : Z
}.
Definition CascadeStats_default : CascadeStats :=
  {| parents_confirmed := 0; children_revalidated := 0; children_promoted := 0; children_invalidated := 0; total_cascades := 0 |}.

Inductive CascadeValidationResult := Promoted | StillOrphan | Invalidated.
#[global] Instance CascadeValidationResult_eq_dec : EqDecision CascadeValidationResult.
Proof. solve_decision. Defined.

Record CascadeEvent := {
  parent_tx_hash : key;
  direct_children_count : nat;
  total_dependents_count : nat;
  child_results : list (key * CascadeValidationResult)
}.

Inductive EvictionReason := LowFees | Timeout | ConflictLoss | ParentEvicted | ManualEviction | MemoryPressure.

Record EvictionRecord := {
  er_tx_hash : key;
  er_reason : EvictionReason;
  is_cascade : bool;
  dependents_evicted : nat
}.
Record EvictionStats := {
  total_evicted : Z;
  cascade_evictions : Z;
  preserved_with_alt_parents : Z;
  recent_evictions : list EvictionRecord;
  max_cascade_depth : nat
}.
Definition EvictionStats_default : EvictionStats :=
  {| total_evicted := 0; cascade_evictions := 0; preserved_with_alt_parents := 0; recent_evictions := []; max_cascade_depth := O |}.
Definition note_preserved (st : EvictionStats) : EvictionStats :=
  {| total_evicted := total_evicted st; cascade_evictions := cascade_evictions st;
     preserved_with_alt_parents := wadd 64 (preserved_with_alt_parents st) 1;
     recent_evictions := recent_evictions st; max_cascade_depth := max_cascade_depth st |}.
(** Only the last thousand records are kept. *)
Definition note_cascaded (r : EvictionRecord) (max_depth : nat) (st : EvictionStats) : EvictionStats :=
  let recent := recent_evictions st ++ [r] in
  {| total_evicted := wadd 64 (total_evicted st) 1;
     cascade_evictions := if is_cascade r then wadd 64 (cascade_evictions st) 1 else cascade_evictions st;
     preserved_with_alt_parents := preserved_with_alt_parents st;
     recent_evictions := if bool_decide (1000 < length recent)%nat then tail recent else recent;
     max_cascade_depth := Nat.max (max_cascade_depth st) max_depth |}.
Definition note_removed (r : EvictionRecord) (st : EvictionStats) : EvictionStats :=
  {| total_evicted := wadd 64 (total_evicted st) 1; cascade_evictions := cascade_evictions st;
     preserved_with_alt_parents := preserved_with_alt_parents st; recent_evictions := recent_evictions st ++ [r];
     max_cascade_depth := max_cascade_depth st |}.
Definition get_recent_evictions (st : EvictionStats) (limit : nat) : list EvictionRecord :=
  take limit (reverse (recent_evictions st)).

Record CascadeEvictionResult := {
  primary_eviction : key;
  cascaded_evictions : list key;
  preserved_transactions : list key
}.

Record EnhancedValidationResult := {
  validation_result : ValidationResult;
  ancestor_count : nat;
  ev_execution_depth : Z;
  is_immediately_executable : bool
}.

Inductive ParentClassification := OnChain | InMempool | Missing.
#[global] Instance ParentClassification_eq_dec : EqDecision ParentClassification.
Proof. solve_decision. Defined.
Record ParentVerification := {
  pv_parent_hash : key;
  classification : ParentClassification;
  is_confirmed : bool;
  mempool_depth : option Z
}.
Record StorageIntegrationStats := {
  on_chain_parents : Z;
  mempool_parents : Z;
  missing_parents : Z;
  reclassifications : Z
}.
Definition StorageIntegrationStats_default : StorageIntegrationStats :=
  {| on_chain_parents := 0; mempool_parents := 0; missing_parents := 0; reclassifications := 0 |}.
Definition note_classified (c : ParentClassification) (st : StorageIntegrationStats) : StorageIntegrationStats :=
  let one c' := if bool_decide (c = c') then 1 else 0 in
  {| on_chain_parents := wadd 64 (on_chain_parents st) (one OnChain);
     mempool_parents := wadd 64 (mempool_parents st) (one InMempool);
     missing_parents := wadd 64 (missing_parents st) (one Missing);
     reclassifications := reclassifications st |}.
Definition note_reclassified (st : StorageIntegrationStats) : StorageIntegrationStats :=
  {| on_chain_parents := on_chain_parents st; mempool_parents := mempool_parents st;
     missing_parents := missing_parents st; reclassifications := wadd 64 (reclassifications st) 1 |}.

Section components.
Context {D : Type} {C : Type → Type} `{RocksDb D, LruCache C, Codec UtxoValue, Bincode}.
Context (order : gset key → list key).
Abbreviation manager := (TxDependencyManager (D := D) (C := C)).

(** ** The cascade after a confirmation *)
Definition revalidate_and_promote_child (s : manager) (child : key) : CascadeValidationResult :=
  match get_executable_ancestors order s child with
  | [] => Promoted
  | _ => StillOrphan
  end.

Definition cascade_on_parent_confirmation (s : manager) (parent : key) (st : CascadeStats) : CascadeEvent * CascadeStats :=
  let direct_children := get_dependent_children order s parent in
  let results := (λ child, (child, revalidate_and_promote_child s child)) <$> direct_children in
  let count r := Z.of_nat (length (filter (λ cr : key * CascadeValidationResult, cr.2 = r) results)) in
  ({| parent_tx_hash := parent; direct_children_count := length direct_children;
      total_dependents_count := length (get_all_transitive_dependents order s parent); child_results := results |},
   {| parents_confirmed := wadd 64 (parents_confirmed st) 1;
      children_revalidated := wadd 64 (children_revalidated st) (Z.of_nat (length direct_children));
      children_promoted := wadd 64 (children_promoted st) (count Promoted);
      children_invalidated := wadd 64 (children_invalidated st) (count Invalidated);
      total_cascades := wadd 64 (total_cascades st) 1 |}).

(** [get_affected_descendants], [remove_from_tracking] *)
Definition get_affected_descendants (s : manager) (h : key) : list key := get_all_transitive_dependents order s h.
Definition remove_from_tracking (h : key) (s : manager) : list key * manager := remove_dependencies order h s.

(** ** Eviction with the dependents *)
Record evicting := {
  ev_queue : list (key * nat);
  ev_visited : gset key;
  ev_evicted : list key;
  ev_preserved : list key;
  ev_max_depth : nat;
  ev_manager : manager;
  ev_stats : EvictionStats
}.

(** One dependent of a transaction at [depth]: it stays when one of its ancestors has
    not been visited. *)
Definition judge_dependent (depth : nat) (e : evicting) (dependent : key) : evicting :=
  let has_alternative_parent := existsb (λ a, negb (bool_decide (a ∈ ev_visited e))) (get_executable_ancestors order (ev_manager e) dependent) in
  if has_alternative_parent
  then {| ev_queue := ev_queue e; ev_visited := ev_visited e; ev_evicted := ev_evicted e;
          ev_preserved := ev_preserved e ++ [dependent]; ev_max_depth := ev_max_depth e; ev_manager := ev_manager e;
          ev_stats := note_preserved (ev_stats e) |}
  else {| ev_queue := ev_queue e ++ [(dependent, Datatypes.S depth)]; ev_visited := ev_visited e;
          ev_evicted := ev_evicted e ++ [dependent]; ev_preserved := ev_preserved e; ev_max_depth := ev_max_depth e;
          ev_manager := ev_manager e; ev_stats := ev_stats e |}.

(** The transaction leaves the manager and is recorded. *)
Definition take_out (tx_hash : key) (reason : EvictionReason) (current_tx : key) (e : evicting) : evicting :=
  let cascade := negb (bool_decide (current_tx = tx_hash)) in
  let r := {| er_tx_hash := current_tx; er_reason := reason; is_cascade := cascade;
              dependents_evicted := if cascade then O else length (ev_evicted e) |} in
  {| ev_queue := ev_queue e; ev_visited := ev_visited e; ev_evicted := ev_evicted e; ev_preserved := ev_preserved e;
     ev_max_depth := ev_max_depth e; ev_manager := (remove_dependencies order current_tx (ev_manager e)).2;
     ev_stats := note_cascaded r (ev_max_depth e) (ev_stats e) |}.

(** The body of [while let Some((current_tx, depth)) = cascade_queue.pop_front()]. *)
Definition visit_evicted (tx_hash : key) (reason : EvictionReason) (current_tx : key) (depth : nat) (queue : list (key * nat)) (e : evicting) : evicting :=
  let max_depth := Nat.max (ev_max_depth e) depth in
  let seen := bool_decide (current_tx ∈ ev_visited e) in
  let e := {| ev_queue := queue; ev_visited := {[ current_tx ]} ∪ ev_visited e; ev_evicted := ev_evicted e;
              ev_preserved := ev_preserved e; ev_max_depth := max_depth; ev_manager := ev_manager e; ev_stats := ev_stats e |} in
  if seen then e
  else take_out tx_hash reason current_tx
         (foldl (judge_dependent depth) e (get_all_transitive_dependents order (ev_manager e) current_tx)).

Fixpoint evict_queue (tx_hash : key) (reason : EvictionReason) (fuel : nat) (e : evicting) : evicting :=
  match fuel with
  | O => e
  | Datatypes.S fuel =>
      match ev_queue e with
      | [] => e
      | (current_tx, depth) :: queue => evict_queue tx_hash reason fuel (visit_evicted tx_hash reason current_tx depth queue e)
      end
  end.

(** Each visited transaction queues at most every possible dependent. *)
Definition evict_fuel (s : manager) : nat :=
  let n := size (search_targets (parent_to_children s)) in Datatypes.S (Datatypes.S n * n).

Definition evict_transaction_cascade (tx_hash : key) (reason : EvictionReason) (s : manager) (st : EvictionStats) :
    CascadeEvictionResult * manager * EvictionStats :=
  let e := evict_queue tx_hash reason (evict_fuel s)
    {| ev_queue := [(tx_hash, O)]; ev_visited := ∅; ev_evicted := []; ev_preserved := []; ev_max_depth := O;
       ev_manager := s; ev_stats := st |} in
  ({| primary_eviction := tx_hash; cascaded_evictions := ev_evicted e; preserved_transactions := ev_preserved e |},
   ev_manager e, ev_stats e).

Definition evict_one_matching (criterion : key → bool) (reason : EvictionReason) (st : list key * manager * EvictionStats) (h : key) :
    list key * manager * EvictionStats :=
  let '(evicted, s, stats) := st in
  if criterion h
  then (evicted ++ [h], (remove_dependencies order h s).2,
        note_removed {| er_tx_hash := h; er_reason := reason; is_cascade := false; dependents_evicted := O |} stats)
  else st.
Definition evict_by_criteria (criterion : key → bool) (reason : EvictionReason) (s : manager) (stats : EvictionStats) :
    list key * manager * EvictionStats :=
  foldl (evict_one_matching criterion reason) ([], s, stats) (get_transactions_at_depth order s 0).

Definition get_orphaned_dependents (s : manager) (h : key) : list key :=
  filter (λ dependent, let ancestors := get_executable_ancestors order s dependent in
                       length ancestors = 1%nat ∧ h ∈ ancestors)
    (get_all_transitive_dependents order s h).

(** ** The validator that registers what it validates *)
Record EnhancedPoolValidator := {
  base_validator : option (StorageCacheLayer D C);
  dependency_manager : manager
}.
Definition put_base_validator (x : option (StorageCacheLayer D C)) (v : EnhancedPoolValidator) : EnhancedPoolValidator :=
  {| base_validator := x; dependency_manager := dependency_manager v |}.
Definition put_dependency_manager (x : manager) (v : EnhancedPoolValidator) : EnhancedPoolValidator :=
  {| base_validator := base_validator v; dependency_manager := x |}.
Abbreviation validating := (method EnhancedPoolValidator StorageError).

(** The result of a call as a value; a panic goes on. *)
Definition attempt {S E F A} (m : method S E A) : method S F (E + A) := λ s,
  match m s with
  | (Ok a, s) => (Ok (inr a), s)
  | (Err e, s) => (Ok (inl e), s)
  | (Panic x, s) => (Panic x, s)
  end.

Definition validate_and_track (tx : Transaction) : validating EnhancedValidationResult :=
  result ← zoom base_validator put_base_validator (validate_transaction tx);
  let register := zoom dependency_manager put_dependency_manager (register_dependencies order tx) in
  '(n, depth, executable) ←
    match result with
    | VR_Valid =>
        chain ← register;
        mret (size (dc_all_ancestors chain), dc_execution_depth chain, dc_execution_depth chain =? 0)
    | VR_MissingInputs _ =>
        r ← attempt register;
        mret (match r with
              | inr chain => (size (dc_all_ancestors chain), dc_execution_depth chain, false)
              | inl _ => (O, 0, false)
              end)
    | _ => mret (O, 0, false)
    end;
  mret {| validation_result := result; ancestor_count := n; ev_execution_depth := depth; is_immediately_executable := executable |}.

Definition get_dependency_info (v : EnhancedPoolValidator) (h : key) : option DependencyChain :=
  get_dependency_chain order (dependency_manager v) h.
Definition has_circular_dependency (tx : Transaction) : validating bool :=
  r ← attempt (zoom dependency_manager put_dependency_manager (register_dependencies order tx));
  mret (match r with inr _ => false | inl _ => true end).

(** ** Parents in the store and in the pool *)
Record StorageIntegration := {
  si_manager : manager;
  si_store : StorageCacheLayer D C;
  parent_cache : gmap key ParentVerification;
  si_stats : StorageIntegrationStats
}.
Definition StorageIntegration_new (m : manager) (store : StorageCacheLayer D C) : StorageIntegration :=
  {| si_manager := m; si_store := store; parent_cache := ∅; si_stats := StorageIntegrationStats_default |}.
Definition put_si_store (x : StorageCacheLayer D C) (s : StorageIntegration) : StorageIntegration :=
  {| si_manager := si_manager s; si_store := x; parent_cache := parent_cache s; si_stats := si_stats s |}.
Definition put_parent_cache (c : gmap key ParentVerification) (s : StorageIntegration) : StorageIntegration :=
  {| si_manager := si_manager s; si_store := si_store s; parent_cache := c; si_stats := si_stats s |}.
Definition map_si_stats (f : StorageIntegrationStats → StorageIntegrationStats) (s : StorageIntegration) : StorageIntegration :=
  {| si_manager := si_manager s; si_store := si_store s; parent_cache := parent_cache s; si_stats := f (si_stats s) |}.
Abbreviation integrating := (method StorageIntegration StorageError).

(** Only the first output of the parent is looked up. *)
Definition verify_parent (parent_hash : key) : integrating ParentVerification :=
  self ← get;
  match parent_cache self !! parent_hash with
  | Some cached => mret cached
  | None =>
      is_on_chain ← zoom si_store put_si_store (utxo_exists parent_hash 0);
      self ← get;
      let depth := get_execution_depth (si_manager self) parent_hash in
      let class := if is_on_chain : bool then OnChain else match depth with Some _ => InMempool | None => Missing end in
      let verification :=
        {| pv_parent_hash := parent_hash; classification := class; is_confirmed := is_on_chain;
           mempool_depth := match class with InMempool => depth | _ => None end |} in
      _ ← modify (λ s, put_parent_cache (<[parent_hash := verification]> (parent_cache s)) s);
      _ ← modify (map_si_stats (note_classified class));
      mret verification
  end.

(** The hash of a parent is the encoding of the input. *)
Definition verify_transaction_parents (encode : TxInput → option bytes) (tx : Transaction) : integrating (list ParentVerification) :=
  fold_method (λ l input, v ← verify_parent (default [] (encode input)); mret (l ++ [v])) [] (inputs tx).

Definition get_mempool_parents (h : key) : integrating (list key) :=
  self ← get;
  fold_method (λ l a, v ← verify_parent a; mret (if bool_decide (classification v = InMempool) then l ++ [a] else l))
    [] (get_executable_ancestors order (si_manager self) h).

Fixpoint all_on_chain (ancestors : list key) : integrating bool :=
  match ancestors with
  | [] => mret true
  | a :: ancestors => v ← verify_parent a; if bool_decide (classification v = OnChain) then all_on_chain ancestors else mret false
  end.
Definition all_parents_confirmed (h : key) : integrating bool :=
  self ← get; all_on_chain (get_executable_ancestors order (si_manager self) h).

(** The entry is dropped before it is read. *)
Definition reclassify_parent (parent_hash : key) : integrating bool :=
  _ ← modify (λ s, put_parent_cache (delete parent_hash (parent_cache s)) s);
  self ← get;
  let old_class := classification <$> parent_cache self !! parent_hash in
  v ← verify_parent parent_hash;
  let changed := match old_class with Some old => negb (bool_decide (old = classification v)) | None => true end in
  _ ← if changed then modify (map_si_stats note_reclassified) else mret tt;
  mret changed.

Definition clear_parent_cache (s : StorageIntegration) : StorageIntegration := put_parent_cache ∅ s.
Definition parent_cache_size (s : StorageIntegration) : nat := size (parent_cache s).
End components.

(** ** Theorems *)
Section theorems.
Context {D : Type} {C : Type → Type} `{RocksDb D, LruCache C, Codec UtxoValue, Bincode}.
Context (order : gset key → list key) (Horder : ∀ s, order s ≡ₚ elements s).
Implicit Types (s : TxDependencyManager (D := D) (C := C)).
Abbreviation above s := (λ a b, b ∈ members (child_to_parents s) a).

(** *** Confirmation *)

(** The sequence is empty exactly for a transaction without recorded parents. *)
Lemma no_ancestors s h : dependencies_ok s → get_executable_ancestors order s h = [] ↔ members (child_to_parents s) h = ∅.
Proof.
  intros Hs. unfold get_executable_ancestors.
  destruct (execution_sequence_spec order Horder (child_to_parents s) h) as (_ & E2 & _ & E4). split.
  - intros E. apply elem_of_equiv_empty_L. intros p Hp. apply (not_elem_of_nil p). rewrite <- E.
    apply E4; [apply (dm_acyclic _ Hs)|by apply tc_once].
  - intros E. destruct (execution_sequence _ _ _) as [|x l] eqn:El; [done|]. exfalso.
    specialize (E2 x ltac:(left)). inversion E2 as [? ? Hx|? ? ? Hx]; set_solver.
Qed.

(** A confirmation looks at the direct children of the transaction.  It promotes those
    without recorded parents, and invalidates none. *)
Theorem cascade_on_parent_confirmation_spec s parent st (Hs : dependencies_ok s) :
  child_results (cascade_on_parent_confirmation order s parent st).1 =
    (λ c, (c, if bool_decide (members (child_to_parents s) c = ∅) then Promoted else StillOrphan))
      <$> get_dependent_children order s parent.
Proof.
  cbn. apply list_fmap_ext. intros _ c _. f_equal. unfold revalidate_and_promote_child.
  pose proof (no_ancestors s c Hs) as Hn.
  case_bool_decide as Hc; [by rewrite (proj2 Hn Hc)|]. destruct (get_executable_ancestors _ _ _); [by destruct Hc; apply Hn|done].
Qed.

(** A child that names the confirmed transaction stays an orphan: the confirmation
    does not take the parent out of the record that is then looked at. *)
Theorem confirmed_parent_still_missing s parent st c (Hs : dependencies_ok s)
    (Hc : parent ∈ members (child_to_parents s) c) r
    (Hr : (c, r) ∈ child_results (cascade_on_parent_confirmation order s parent st).1) : r = StillOrphan.
Proof.
  rewrite cascade_on_parent_confirmation_spec in Hr by done. apply list_elem_of_fmap in Hr as (c' & [= -> ->] & _).
  rewrite bool_decide_eq_false_2; [done|]. set_solver.
Qed.

(** *** Eviction *)
Lemma targets_shrink (m m' : gmap key (gset key)) :
  (∀ a b, b ∈ members m' a → b ∈ members m a) → search_targets m' ⊆ search_targets m.
Proof.
  intros Hm b. unfold search_targets at 1. rewrite elem_of_union_list. intros (X & Hb & HX).
  apply list_elem_of_fmap in Hb as ([a Y] & -> & Ha%elem_of_map_to_list). apply (edge_target order Horder m a b), Hm.
  unfold members. rewrite Ha. exact HX.
Qed.

Lemma removal_shrinks h s a b :
  b ∈ members (parent_to_children (remove_dependencies order h s).2) a → b ∈ members (parent_to_children s) a.
Proof.
  unfold remove_dependencies.
  pose proof (remove_loop_keeps order (λ s', ∀ a b, b ∈ members (parent_to_children s') a → b ∈ members (parent_to_children s) a)
    (remove_fuel order s) [h] [h] s) as Hk.
  destruct (remove_loop _ _ _) as [[l evicted] s']. revert a b. apply Hk; [| |done].
  - intros x u Hu a b. destruct (recalculate_relations order x u) as [_ ->]. apply Hu.
  - intros x u Hu a b. cbn [parent_to_children forget put_graph]. rewrite members_delete. intros [_ ?]. by apply Hu.
Qed.

Lemma dependents_are_targets s h x : x ∈ get_all_transitive_dependents order s h → x ∈ search_targets (parent_to_children s).
Proof.
  unfold get_all_transitive_dependents. rewrite elem_listing, elem_collect by done.
  intros (y & _ & Hy)%tc_rtc_split. by eapply (edge_target order Horder).
Qed.
Lemma dependents_bound s h : (length (get_all_transitive_dependents order s h) ≤ size (search_targets (parent_to_children s)))%nat.
Proof.
  unfold get_all_transitive_dependents. rewrite <- (size_list_to_set (C := gset key)) by by apply order_nodup.
  apply subseteq_size. intros x Hx%elem_of_list_to_set. by eapply dependents_are_targets.
Qed.

(** One more node is seen. *)
Lemma seen_already (V : gset key) c : c ∈ V → {[ c ]} ∪ V = V.
Proof. clear. set_solver. Qed.
Lemma size_visit (X V : gset key) c : c ∈ X → c ∉ V → size (X ∖ V) = Datatypes.S (size (X ∖ ({[ c ]} ∪ V))).
Proof.
  clear. intros Hc HV. replace (X ∖ ({[ c ]} ∪ V)) with ((X ∖ V) ∖ {[ c ]}) by set_solver.
  rewrite (size_difference (X ∖ V) {[ c ]}), size_singleton by set_solver. assert (Hn : size (X ∖ V) ≠ O); [|lia].
  intros E%size_empty_inv. set_solver.
Qed.

(** The loop that began at [s0] with [h]. *)
Record cascading_out s0 (h : key) (e : evicting (D := D) (C := C)) : Prop := {
  ou_ok : dependencies_ok (ev_manager e);
  ou_edges : ∀ a b, b ∈ members (parent_to_children (ev_manager e)) a → b ∈ members (parent_to_children s0) a;
  ou_queue : ∀ x, x ∈ (ev_queue e).*1 → x = h ∨ x ∈ ev_evicted e;
  ou_visited : ∀ x, x ∈ ev_visited e → x = h ∨ x ∈ ev_evicted e;
  ou_targets : ∀ x, x ∈ ev_evicted e → x ∈ search_targets (parent_to_children s0);
  ou_done : ∀ x, x ∈ h :: ev_evicted e → x ∈ (ev_queue e).*1 ∨ x ∈ ev_visited e;
  ou_gone : ∀ x, x ∈ ev_visited e → child_to_parents (ev_manager e) !! x = None;
  ou_kept : ∀ x, child_to_parents (ev_manager e) !! x = child_to_parents s0 !! x
                 ∨ (child_to_parents (ev_manager e) !! x = None ∧ (x ∈ ev_visited e ∨ child_to_parents s0 !! x = Some ∅));
  ou_parents : ∀ c p, c ∈ ev_evicted e → c ≠ h → p ∈ members (child_to_parents s0) c → p = h ∨ p ∈ ev_evicted e
}.

Lemma judge_fold depth l (e : evicting (D := D) (C := C)) :
  ∃ news, let e' := foldl (judge_dependent order depth) e l in
  (ev_queue e').*1 = (ev_queue e).*1 ++ news ∧ ev_evicted e' = ev_evicted e ++ news
  ∧ length (ev_queue e') = (length (ev_queue e) + length news)%nat
  ∧ ev_visited e' = ev_visited e ∧ ev_manager e' = ev_manager e
  ∧ (length news ≤ length l)%nat
  ∧ ∀ x, x ∈ news → x ∈ l ∧ ∀ a, a ∈ get_executable_ancestors order (ev_manager e) x → a ∈ ev_visited e.
Proof.
  revert e; induction l as [|c l IH]; intros e; cbn [foldl].
  { exists []. cbn. rewrite !app_nil_r. split_and!; [done..|lia|done|done|lia|]. by intros x ?%not_elem_of_nil. }
  destruct (IH (judge_dependent order depth e c)) as (news & I1 & I2 & I3 & I4 & I5 & I6 & I7).
  unfold judge_dependent in *. destruct (existsb _ _) eqn:Ea; cbn [ev_queue ev_evicted ev_visited ev_manager] in *.
  - exists news. split_and!; [done..|cbn; lia|]. intros x Hx. destruct (I7 x Hx). split; [by right|done].
  - exists (c :: news). rewrite fmap_app, length_app in *. cbn [fmap list_fmap fst length] in *.
    rewrite <- app_assoc in *. cbn [app] in *. split_and!; [done|done|lia|done|done|lia|].
    intros x [->|Hx]%elem_of_cons; [|destruct (I7 x Hx); split; [by right|done]]. split; [left|].
    intros a Ha. apply dec_stable. intros Hn. apply not_true_iff_false in Ea. apply Ea, existsb_exists.
    exists a. split; [by apply list_elem_of_In|]. by rewrite bool_decide_eq_false_2.
Qed.

Lemma visit_out s0 h reason c depth queue e :
  ev_queue e = (c, depth) :: queue → cascading_out s0 h e → c ∉ ev_visited e →
  let e' := visit_evicted order h reason c depth queue e in
  cascading_out s0 h e' ∧ ev_visited e' = {[ c ]} ∪ ev_visited e
  ∧ (length (ev_queue e') ≤ length queue + size (search_targets (parent_to_children s0)))%nat.
Proof.
  intros Eq [Hok Hed Hqu Hvi Hta Hdo Hgo Hke Hpa] Hc. rewrite Eq in *. cbn [fmap list_fmap fst] in *.
  unfold visit_evicted. rewrite bool_decide_eq_false_2 by done. cbn [ev_manager]. set (s := ev_manager e) in *.
  set (l := get_all_transitive_dependents order s c).
  set (e1 := {| ev_queue := queue |}).
  destruct (judge_fold depth l e1) as (news & I1 & I2 & I3 & I4 & I5 & I6 & I7).
  set (e2 := foldl _ e1 l) in *. cbn [e1 ev_queue ev_evicted ev_visited ev_manager] in *.
  pose proof (remove_dependencies_spec order Horder c s Hok) as Hrm.
  pose proof (remove_dependencies_ok order Horder c s Hok) as Hrok.
  pose proof (removal_shrinks c s) as Hrs. rewrite <- I5 in Hrm, Hrok, Hrs.
  destruct (remove_dependencies order c (ev_manager e2)) as [out s'] eqn:Er. cbn [snd] in *.
  destruct Hrm as (Hhd & Hwhy & Hx). rewrite I5 in Hwhy, Hx, Hrs.
  assert (Hcout : c ∈ out) by (destruct out; [done|injection Hhd as ->; left]).
  assert (Hnew : ∀ x, x ∈ news → x ∈ search_targets (parent_to_children s0)).
  { intros x [Hx' _]%I7. eapply targets_shrink, dependents_are_targets; [exact Hed|exact Hx']. }
  unfold take_out. cbn zeta. rewrite Er. cbn [snd ev_queue ev_evicted ev_visited ev_manager].
  split; [|split; [done|rewrite I3; pose proof (dependents_bound s c);
    assert (size (search_targets (parent_to_children s)) ≤ size (search_targets (parent_to_children s0)))%nat by (by apply subseteq_size, targets_shrink); unfold l in *; lia]].
  split; cbn [ev_queue ev_evicted ev_visited ev_manager].
  - done.
  - intros a b Hb. by apply Hed, Hrs.
  - intros x. rewrite I1, I2, !elem_of_app. intros [Hx'|Hx']; [|tauto]. destruct (Hqu x ltac:(by right)); tauto.
  - intros x. rewrite I4, I2, elem_of_app. intros [->%elem_of_singleton|Hx']%elem_of_union;
      [destruct (Hqu c ltac:(left)); tauto|destruct (Hvi x Hx'); tauto].
  - intros x. rewrite I2. intros [Hx'|Hx']%elem_of_app; [by apply Hta|by apply Hnew].
  - intros x. rewrite I1, I2, I4, !elem_of_app, app_comm_cons, elem_of_app. intros [Hx'|Hx']; [|tauto].
    destruct (Hdo x Hx') as [[->|?]%elem_of_cons|?]; [right; set_solver|tauto|right; set_solver].
  - intros x. rewrite I4. destruct (Hx x) as [-> _]. case_decide as Ho; [done|].
    intros [->%elem_of_singleton|Hx']%elem_of_union; [done|by apply Hgo].
  - intros x. rewrite I4. destruct (Hx x) as [-> _]. case_decide as Ho.
    + destruct (Hwhy x Ho) as [->|E]; [right; split; [done|left; set_solver]|].
      destruct (Hke x) as [E'|[E' _]]; [right; split; [done|right; by rewrite <- E']|congruence].
    + destruct (Hke x) as [?|[? [?|?]]]; [by left|right; split; [done|left; set_solver]|right; by split; [|right]].
  - intros x p. rewrite I2, !elem_of_app. intros [Hx'|Hx'] Hne Hp; [destruct (Hpa x p Hx' Hne Hp); tauto|].
    destruct (I7 x Hx') as [_ Hanc]. destruct (Hke x) as [E|[E [Hv|E']]].
    + assert (Hpv : p ∈ {[ c ]} ∪ ev_visited e).
      { apply Hanc. apply (execution_sequence_spec order Horder (child_to_parents s) x); [apply (dm_acyclic _ Hok)|].
        apply tc_once. unfold members. rewrite E. exact Hp. }
      apply elem_of_union in Hpv as [->%elem_of_singleton|Hpv]; [destruct (Hqu c ltac:(left)); tauto|destruct (Hvi p Hpv); tauto].
    + destruct (Hvi x Hv) as [?|Hev]; [done|]. destruct (Hpa x p Hev Hne Hp); tauto.
    + unfold members in Hp. rewrite E' in Hp. cbn in Hp. set_solver.
Qed.

Lemma evict_all_run s0 h reason fuel e :
  (length (ev_queue e) + size (({[ h ]} ∪ search_targets (parent_to_children s0)) ∖ ev_visited e) * size (search_targets (parent_to_children s0)) ≤ fuel)%nat →
  cascading_out s0 h e →
  let e' := evict_queue order h reason fuel e in ev_queue e' = [] ∧ cascading_out s0 h e'.
Proof.
  set (U := search_targets (parent_to_children s0)).
  revert e; induction fuel as [|fuel IH]; intros e Hf Hs; cbn [evict_queue].
  { destruct (ev_queue e) eqn:Eq; [done|cbn in Hf; lia]. }
  destruct (ev_queue e) as [|[c depth] queue] eqn:Eq; [done|]. destruct (decide (c ∈ ev_visited e)) as [Hc|Hc].
  - apply IH; unfold visit_evicted; rewrite bool_decide_eq_true_2 by done.
    + cbn [ev_queue ev_visited]. rewrite (seen_already _ c Hc). cbn in Hf. lia.
    + destruct Hs as [Hok Hed Hqu Hvi Hta Hdo Hgo Hke Hpa]. rewrite Eq in *. cbn [fmap list_fmap fst] in *.
      split; cbn [ev_queue ev_evicted ev_visited ev_manager]; [done|done| | |done| | | |done];
        rewrite ?(seen_already _ c Hc); [|done| |done|done].
      * intros x Hx. apply Hqu. by right.
      * intros x Hx. destruct (Hdo x Hx) as [[->|?]%elem_of_cons|?]; tauto.
  - destruct (visit_out s0 h reason c depth queue e Eq Hs Hc) as (Hs' & Hv & Hl). apply IH; [|done].
    rewrite Hv. fold U in Hl. assert (Hcu : c ∈ {[ h ]} ∪ U).
    { destruct Hs as [_ _ Hqu _ Hta _ _ _ _]. rewrite Eq in Hqu. apply elem_of_union. rewrite elem_of_singleton.
      destruct (Hqu c ltac:(left)) as [->|Hc']; [by left|right; by apply Hta]. }
    rewrite (size_visit _ _ c Hcu Hc) in Hf. cbn [length] in Hf. lia.
Qed.

(** An eviction ends with the transaction and everything it reports out of the
    manager.  What it reports depends only on the transaction and on what it reports;
    all the others keep the parents that were recorded. *)
Theorem dependent_eviction_spec h reason s st (Hs : dependencies_ok s) :
  let '(r, s', _) := evict_transaction_cascade order h reason s st in
  let out := h :: cascaded_evictions r in
  (∀ x, x ∈ out → child_to_parents s' !! x = None)
  ∧ (∀ c p, c ∈ cascaded_evictions r → c ≠ h → p ∈ members (child_to_parents s) c → p ∈ out)
  ∧ ∀ c, c ∉ out → child_to_parents s !! c ≠ Some ∅ → child_to_parents s' !! c = child_to_parents s !! c.
Proof.
  unfold evict_transaction_cascade. set (e0 := {| ev_queue := [(h, O)] |}).
  destruct (evict_all_run s h reason (evict_fuel s) e0) as [Hq [_ _ _ Hvi _ Hdo Hgo Hke Hpa]].
  - unfold evict_fuel. cbn [e0 ev_queue ev_visited length].
    assert (Hsz : (size (({[ h ]} ∪ search_targets (parent_to_children s)) ∖ (∅ : gset key)) ≤ Datatypes.S (size (search_targets (parent_to_children s))))%nat)
      by apply (room_bound order Horder _ h ∅).
    nia.
  - split; cbn [e0 ev_queue ev_evicted ev_visited ev_manager fmap list_fmap fst].
    1,2: done.
    1: intros x ->%list_elem_of_singleton; by left.
    1,4: intros x ?%not_elem_of_empty; done.
    1: intros x ?%not_elem_of_nil; done.
    1: intros x Hx; by left.
    1: intros x; by left.
    intros c p ?%not_elem_of_nil; done.
  - cbn [cascaded_evictions]. set (e := evict_queue _ _ _ _ _) in *. clearbody e. rewrite Hq in *. cbn in Hdo.
    assert (Hv : ∀ x, x ∈ h :: ev_evicted e → x ∈ ev_visited e).
    { intros x Hx. by destruct (Hdo x Hx) as [?%not_elem_of_nil|?]. }
    split_and!.
    + intros x Hx. by apply Hgo, Hv.
    + intros c p Hc Hne Hp. apply elem_of_cons. by eapply Hpa.
    + intros c Hc Hne. destruct (Hke c) as [?|[_ [Hv'|?]]]; [done| |done]. destruct Hc. apply elem_of_cons. by apply Hvi.
Qed.

(** *** Classification *)
Lemma verify_parent_cached h (s : StorageIntegration (D := D) (C := C)) v :
  parent_cache s !! h = Some v → verify_parent h s = (Ok v, s).
Proof. intros Hv. unfold verify_parent. rewrite (method_bind_run get _ s s s) by done. by rewrite Hv. Qed.

(** A parent is classified once: later changes of the store do not show. *)
Theorem classification_sticks h (s s' : StorageIntegration (D := D) (C := C)) v store
    (Hv : verify_parent h s = (Ok v, s')) :
  verify_parent h (put_si_store store s') = (Ok v, put_si_store store s').
Proof.
  apply verify_parent_cached. cbn. unfold verify_parent in Hv. rewrite (method_bind_run get _ s s s) in Hv by done.
  destruct (parent_cache s !! h) as [w|] eqn:E; [by injection Hv as -> <-|].
  apply method_bind_ok in Hv as (b & s1 & _ & Hv). cbn in Hv. injection Hv as <- <-.
  cbn [parent_cache map_si_stats put_parent_cache]. by rewrite lookup_insert_eq.
Qed.

(** Every reclassification that returns reports a change. *)
Theorem reclassification_always_changes h (s s' : StorageIntegration (D := D) (C := C)) b
    (Hb : reclassify_parent h s = (Ok b, s')) : b = true.
Proof.
  unfold reclassify_parent in Hb. erewrite method_bind_run in Hb by done.
  erewrite (method_bind_run get) in Hb by done. cbn [parent_cache put_parent_cache] in Hb. rewrite lookup_delete_eq in Hb. cbn [fmap option_fmap option_map] in Hb.
  apply method_bind_ok in Hb as (v & s1 & _ & Hb). apply method_bind_ok in Hb as (u & s2 & _ & [= <- _]). done.
Qed.

(** *** The question registers *)
Theorem circularity_test_registers tx h (v v' : EnhancedPoolValidator (D := D) (C := C))
    (Hid : bincode_hash (id tx) = Some h) (Hr : has_circular_dependency order tx v = (Ok false, v')) :
  is_Some (get_execution_depth (dependency_manager v') h).
Proof.
  unfold has_circular_dependency in Hr. apply method_bind_ok in Hr as (r & v1 & E & [= Hr <-]).
  unfold attempt, zoom in E. destruct (register_dependencies order tx (dependency_manager v)) as [[chain|e|x] m] eqn:Er;
    simplify_eq. cbn [dependency_manager put_dependency_manager].
  unfold register_dependencies in Er. rewrite Hid in Er. erewrite method_bind_run in Er by done.
  rewrite (method_bind_run get _ _ (dependency_manager v) (dependency_manager v)) in Er by done.
  unfold get_execution_depth. destruct (execution_depth (dependency_manager v) !! h) as [d|] eqn:Ed; [by injection Er as _ <-|].
  apply method_bind_ok in Er as ([parents d] & m1 & _ & Er). cbn beta iota zeta in Er.
  rewrite (method_bind_run get _ m1 m1 m1) in Er by done. destruct (detect_cycles _ _ _ _); [by cbn in Er|].
  cbn in Er. injection Er as _ <-. cbn [execution_depth map_dm_stats record_dependencies put_graph]. by rewrite lookup_insert_eq.
Qed.
End theorems.

(** ** Examples *)
Section examples.
Abbreviation evict_from h s := (evict_transaction_cascade elements (hash_key h) ManualEviction s EvictionStats_default).

(** The dependent of a dependent is reported as preserved, and evicted. *)
Lemma preserved_and_evicted :
  let s := depend [linked 1 []; linked 2 [1]; linked 3 [2]] in
  let '(r, s', _) := evict_from 1 s in
  cascaded_evictions r = hash_key <$> [2; 3] ∧ preserved_transactions r = [hash_key 3]
  ∧ get_execution_depth s' (hash_key 3) = None.
Proof. vm_compute. by split_and!. Qed.

(** The transactions the criteria are tried on are those others depend on, not those
    without dependents. *)
Lemma criteria_evict_parents :
  let s := depend [linked 1 []; linked 2 [1]] in
  let '(evicted, s', _) := evict_by_criteria elements (λ _, true) LowFees s EvictionStats_default in
  evicted = [hash_key 1] ∧ get_dependent_children elements s (hash_key 1) = [hash_key 2]
  ∧ get_execution_depth s' (hash_key 2) = Some 1.
Proof. vm_compute. by split_and!. Qed.
End examples.
